(* ===== verification/_CoqProject ===== *)
-Q . S2P
Prelude.v
RustStr.v
SeekSequence.v
PatchSyntax.v
StreamingParser.v
PatchRoundTrip.v
Replacements.v
FileSystem.v
ApplyHunks.v
AbsolutePath.v
Permissions.v
PermissionLaws.v
PermissionProfile.v
PolicyTransforms.v
PatchSafety.v
ExecRule.v
ExecPolicy.v
PolicyParser.v
BashParse.v
CommandSafety.v
ExecApproval.v
Orchestrator.v
NetworkApproval.v
NetworkHost.v
NetworkConfig.v
MitmHook.v
NetworkConstraints.v
NetworkRuntime.v
NetworkRuntimeLaws.v
NetworkSpec.v
HeadTailBuffer.v
Truncate.v
TaggedLines.v
HiddenTags.v
Utf8Stream.v
History.v
HistoryLaws.v
HashOrder.v
TurnDiff.v
AgentRegistry.v
AgentResidency.v
ConfigLayers.v
Constrained.v
RequirementRules.v
McpRequirements.v
HookRequirements.v
Requirements.v
RequirementLayers.v
PowerShell.v
WindowsSafety.v
ParseCommand.v
RolloutTruncation.v
ShellEnv.v
HookOutput.v
HookEvents.v
HookRuns.v
