(* ===== verification/Prelude.v ===== *)
(** * Motyga CLI: a verification library

    Motyga CLI is a coding agent.  A language model proposes patches and shell
    commands; the program decides what may run, applies the patches, and shows
    the model and the user the text that comes back.  This library models the
    parts of the Rust workspace [motyga-rs] that carry those decisions, as
    executable functions translated from the source, and proves that they are
    correct.

    ** The parts and how they interact

    - Patches.  Text from the model arrives in pieces and is read by a
      streaming parser; the hunks are located in the files by a fuzzy line
      matcher and written through a file-system trait, and a delta records what
      was committed.  ([apply-patch], [file-system])
    - Permission to run.  A command is matched against a policy built from
      policy files; a command no rule covers is classified by heuristics, for
      which a [bash -lc] script is first split into its plain commands, and a
      PowerShell script by PowerShell itself; the user sees a summary of it.
      ([execpolicy], [shell-command], [utils/absolute-path])
    - Confinement.  A permission profile says which paths may be read and written
      and whether the network is open; extra permissions are requested, granted
      and merged into it, and a sandbox of the platform enforces it.
      ([protocol], [sandboxing])
    - Approval.  The policy decision, the approval setting and the profile become
      a requirement: run, ask or refuse.  The orchestrator asks, runs the tool in
      its sandbox and retries; patches have a check of their own, and blocked
      network connections are reviewed while several requests are in flight.
      ([core/src/exec_policy.rs], [core/src/safety.rs], [core/src/tools])
    - Network.  Connections of a sandboxed command go through a proxy that allows or
      blocks each host by domain patterns, local-address rules and method; managed
      requirements bound its configuration, the exec policy adds rules, the user
      may add hosts while it runs, and hooks act on decrypted requests.
      ([network-proxy], [core/src/config/network_proxy_spec.rs])
    - Output.  The bytes of a running process are kept in a capped buffer, and
      texts sent to the model are cut in the middle to a budget.
      ([core/src/unified_exec], [utils/string], [utils/output-truncation])
    - History.  What was said and done is recorded, repaired before it is sent,
      rolled back and measured.  ([core/src/context_manager])
    - Agents.  A session spawns sub-agents up to a limit, names them, and unloads
      idle ones to make room; spawns and closes run side by side.
      ([core/src/agent])
    - Turn diffs.  The deltas of the patches of a turn are folded into one diff.
      ([core/src/turn_diff_tracker.rs])
    - Configuration.  Layers of configuration files are merged by precedence, and
      layers of managed requirements are composed and compiled into constraints
      on the settings, on MCP servers, hooks and commands.  ([config/src])
    - Forks and commands.  A fork keeps a part of the record of a thread; a command gets
      an environment built by a policy.  ([core/src/thread_rollout_truncation.rs],
      [protocol/src/shell_environment.rs])
    - Hooks.  Commands configured for an event run side by side when it happens; their
      answers are folded into a verdict: block or rewrite a tool call, allow or deny a
      request for permission, stop or continue a turn.  ([hooks/src])
    - Streamed answers.  Citations and plan blocks are filtered out of text that
      arrives in pieces, as characters or as bytes.  ([utils/stream-parser])

    ** Files

    All sources are under [src/motyga-rs/].
    - [Prelude]: Rust's [Result], loops, notations (scope [rust_scope]),
      automation, lemmas on lists.
    - [RustStr]: Rust's [str] methods on lists of Unicode scalar values.
    - [SeekSequence]: [apply-patch/src/seek_sequence.rs].
    - [PatchSyntax], [StreamingParser]: [apply-patch/src/parser.rs] and
      [streaming_parser.rs].  The parser struct is the record
      [StreamingParser.StreamingPatchParser], its mode an inductive type; each
      method returns the new state beside its result.
    - [PatchRoundTrip]: the documented patch grammar as a printer.
    - [Replacements], [ApplyHunks]: [apply-patch/src/lib.rs], the text part
      ([compute_replacements], [apply_replacements]) and the file part
      ([apply_patch], [apply_hunks_to_files], the delta).
    - [FileSystem]: the trait of [file-system/src/lib.rs] as a class, with its
      laws as a second class and an in-memory instance.
    - [AbsolutePath]: [utils/absolute-path/src/lib.rs] and [absolutize.rs], Unix;
      the host (links, directories, environment) is the record [Os].
    - [Permissions], [PermissionLaws]: [protocol/src/permissions.rs] and the legacy
      [SandboxPolicy] of [protocol.rs]; a policy is the record
      [FileSystemSandboxPolicy].
    - [PermissionProfile]: the profiles of [protocol/src/models.rs] and the approval
      settings.
    - [PolicyTransforms]: [sandboxing/src/policy_transforms.rs], the selection of a
      sandbox in [manager.rs], the additional permissions of [models.rs].
    - [PatchSafety]: [core/src/safety.rs].
    - [ExecRule], [ExecPolicy], [PolicyParser]: [execpolicy/src], namely
      [decision.rs], [executable_name.rs], [rule.rs], [error.rs]; [policy.rs];
      [parser.rs] and [amend.rs].  The trait [Rule] is a class.
    - [BashParse]: [shell-command/src/bash.rs] and [shell_detect.rs].
    - [CommandSafety]: [command_safety/is_dangerous_command.rs] and
      [is_safe_command.rs] of the same crate.
    - [ExecApproval]: [core/src/exec_policy.rs], the requirement of a command and
      the updates of the policy.
    - [Orchestrator]: [core/src/tools/orchestrator.rs] and [sandboxing.rs]; the
      tool and the session are the classes [ToolRuntime] and [Session], a run is
      a function of the state monad [M] that logs what it does.
    - [NetworkApproval]: [core/src/tools/network_approval.rs] and
      [core/src/network_policy_decision.rs]; the service is a record, a request a
      [Task], and [step] lets any task take its next step.
    - [NetworkHost], [NetworkConfig], [MitmHook], [NetworkConstraints]:
      [network-proxy/src], namely [policy.rs], [config.rs], [mitm_hook.rs] and
      [state.rs].
    - [NetworkRuntime], [NetworkRuntimeLaws]: [runtime.rs], [network_policy.rs] and
      [connect_policy.rs] of the same crate; the shared state is the record
      [ConfigState], the relation [ProxyStep] its changes.
    - [NetworkSpec]: [core/src/config/network_proxy_spec.rs] and the constraints of
      [core/src/network_proxy_loader.rs].
    - [HeadTailBuffer]: [core/src/unified_exec/head_tail_buffer.rs].
    - [Truncate]: [utils/string/src/truncate.rs] and
      [utils/output-truncation/src/lib.rs].
    - [TaggedLines], [HiddenTags], [Utf8Stream]: [utils/stream-parser/src].
    - [History], [HistoryLaws]: [core/src/context_manager/history.rs] and
      [normalize.rs], with [core/src/event_mapping.rs] and the token counts of
      [protocol.rs]; the manager is the record [ContextManager].
    - [HashOrder]: the unspecified iteration order of [HashMap] and [HashSet] as a
      class with its laws, which every component that iterates over one requires.
    - [TurnDiff]: [core/src/turn_diff_tracker.rs]; the tracker is a record, a turn the
      relation [Turn] over applications of patches.
    - [AgentRegistry], [AgentResidency]: [core/src/agent/registry.rs] with
      [protocol/src/agent_path.rs], and [core/src/agent/control/residency.rs]; a
      spawn or a close is a [Task] whose steps are the atomic operations on the registry,
      a reservation of a residency slot a [Reservation] with a step per critical section.
    - [ConfigLayers]: [config/src], namely [merge.rs], [key_aliases.rs],
      [overrides.rs], [fingerprint.rs], [config_layer_source.rs] and the layer stack
      of [state.rs].
    - [Constrained]: [config/src/constraint.rs], the cell a requirement binds.
    - [RequirementRules], [McpRequirements], [HookRequirements], [Requirements]:
      [config/src], namely [requirements_exec_policy.rs]; [mcp_requirements.rs] and the
      filters of [core/src/config/mod.rs]; [hook_config.rs] and
      [requirements_layers/hooks.rs]; [config_requirements.rs].
    - [PowerShell]: [shell-command/src/powershell.rs], the parser processes of
      [command_safety/powershell_parser.rs] and the approval keys of
      [core/src/command_canonicalization.rs].
    - [WindowsSafety]: [command_safety/windows_dangerous_commands.rs] and
      [windows_safe_commands.rs] of [shell-command], with Windows paths.
    - [ParseCommand]: [shell-command/src/parse_command.rs], the summary of a command.
    - [HookOutput]: [hooks/src/schema.rs] and [engine/output_parser.rs], what a hook
      prints; JSON is the class [HookJson].
    - [HookEvents]: [engine/dispatcher.rs], [engine/command_runner.rs] and
      [events/common.rs]; the process of a handler is a [HookProcess], and the order in
      which the handlers finish is an argument.
    - [HookRuns]: [hooks/src/events]: for each event the report of one handler
      ([..._report]), the preview and the run.
    - [RolloutTruncation]: [core/src/thread_rollout_truncation.rs]; a record is a list of
      [RolloutItem] in which rollbacks are items.
    - [ShellEnv]: [protocol/src/shell_environment.rs] and [core/src/exec_env.rs].
    - [RequirementLayers]: [layer.rs], [stack.rs], [rules.rs] and [permissions.rs] of
      [config/src/requirements_layers].

    ** What the theorems show

    - The fuzzy matcher returns real matches, the leftmost of the strictest pass
      that has one, and fails only when nothing matches.
    - The streaming patch parser gives the same state and result however the text
      is split, keeps its invariant, produces only complete hunks, blames a line
      of the text in its errors, and reads back every printed patch.
    - Replacing chunks never panics and equals one splice of disjoint, ordered
      regions.  The delta of an application that is marked exact replays and
      undoes precisely what happened to the files, also when a hunk fails midway.
    - Policies: the decision on commands is the strictest of the matches that
      cover them; rules take precedence over heuristics; an overlay never weakens
      a decision; base-name resolution and network-domain compilation have their
      declarative specifications; whatever a policy file does, the builder keeps
      its invariant and the examples of an accepted file hold of the policy.
    - Command safety: what is auto-approved is never a command that the
      dangerous-command rules match; both classifications have declarative
      specifications; a script accepted as plain commands contains nothing else,
      and all its commands are returned in source order.
    - Windows: only PowerShell scripts that the parser of that PowerShell splits into
      read-only commands are auto-approved, and its cached processes never give the
      answer to another script, however they fail; deletions with [-Force] and the
      operators of [cmd] are found as their declarative specifications say.
    - Summaries: the summary of a script shows every command of it, except [cd], [echo],
      [true], [nl] without a file and the formatting helpers that [formatting_helper]
      describes without the code's test, or is the script itself.
    - Permissions: the most specific entry decides, whatever the order of the
      entries; metadata directories stay protected unless a root inside one is granted;
      denials survive a new policy; denied reads fail closed; legacy policies are read
      and written back; an intersection never exceeds the request or the grant and keeps
      the denial globs of both; grants compose; a
      policy that confines anything gets a sandbox.
    - Approval: a command or patch runs unasked exactly under its declarative
      condition; every tool run follows an approval, retries at most once, keeps
      its sandbox where reads are denied and never asks where asking is off;
      session approvals answer exactly the later requests they cover.
    - Network approvals: in every interleaving a host has one review at a time, all
      requests that share it get its answer, every request is answered after
      boundedly many steps, and a denial by the user stays.
    - Network proxy: a host is allowed exactly under its declarative condition, and
      a pattern matches exactly the hosts it denotes; every reachable state
      satisfies the managed constraints, so a managed deny list and an exhaustive
      allow list hold whatever was reloaded or added meanwhile; a decision
      callback is consulted only about hosts that are not listed; an update of
      the domain lists takes effect and its retry loop ends; the hooks of a host
      are tried in order, and a hooked host that matches none is refused.
    - Output: the capped buffer refines the function that keeps the first and last
      bytes of the stream; truncation stays within its budget and never panics.
    - History: a prompt pairs every call with an output, dropping the oldest item
      keeps that, a rollback removes whole turns, recording never fails, and token
      totals are exact sums capped at [i64::MAX].
    - Agents: in every interleaving the count is the number of live agents and of
      slots in flight, never above the limit, and nothing leaks when a spawn
      fails.  Making room for one more loaded agent ends in every interleaving, never
      asks to unload the protected thread and exceeds the capacity by at most one for
      each other reservation in progress and each unlisted thread touched; alone, it
      fits the capacity and evicts only idle agents.
    - Turn diffs: after any exact applications that move no file onto itself the diff
      has one section per file whose text changed, from its text at the start to its
      text now.
    - Configuration: a key has the value of the highest layer that sets it, the
      stack stays ordered, and replacing the user layer keeps that; a constrained
      setting never holds a value its requirement refuses, whatever is set; no
      layer of requirements is ignored when layers are composed; rules of
      requirements are enforced over any policy, and no MCP server outside an
      allow list is ever enabled.
    - Forks: the kept part of a record has exactly the turns it was cut for.
    - Environments: every variable has the value that the documented steps give it.
    - Hooks: among answers with supported fields a denial wins over every allow, and
      the first blocking handler gives the reason, whatever the order in which
      handlers finish; an answer with a reserved field never allows; a failed hook has
      no effect;
      every previewed row is settled by one completed event.
    - Streamed text: both tag filters, and their composition, agree with a reading
      of the whole text, however it is split, also when bytes split a character.
    - Some theorems record behaviour that differs from what the code or its
      documentation intends: [seek_sequence_eof_only_at_end],
      [final_blank_line_lost], [move_onto_itself_deletes],
      [relative_program_takes_basename_rule],
      [metadata_protection_depends_on_order],
      [intersection_drops_read_only_part],
      [rollback_without_turns_changes_state], [constraint_escape],
      [update_drops_concurrent_record], [force_reload_resets_total],
      [listed_local_name_not_connected], [managed_rule_can_relax],
      [feature_names_collide], [approval_key_ignores_arguments],
      [utf8_prefix_drops_arguments], [in_place_edit_hidden],
      [unsupported_field_drops_denial], [unread_input_drops_denial],
      [brace_glob_denial_dropped], [self_move_tracked_as_present],
      [stale_resident_fails_reservation], [reservation_during_scan_exceeds_capacity],
      [admitted_turns_exceed_limit] and [agent_turn_rollback_hides_user_message].

    ** Modelling choices, bounds and fuel

    - Errors are values of [result]; a Rust panic is [None] or an explicit
      outcome, and its absence is proved where the code relies on it.
    - [usize] and [u64] counters whose arithmetic saturates are 64-bit ([sat] in
      [HeadTailBuffer]), [i64] token counts are [Z] with the saturation or the
      wrap-around written out; positions in text held in memory are natural
      numbers.
    - [detect_shell_type] calls itself on the file stem of a path; the fuel is the
      length of the path and [detect_shell_type_unfold] shows it is enough.
      The worklist walks over syntax trees use the number of nodes
      ([walk_spec]); the loop of the hidden-tag parser uses the length of its
      buffer ([push_loop_unfold]); UTF-8 decoding uses the number of bytes
      ([validate_encode]).  The depth of nested wrappers in
      [is_dangerous_command.rs] is the code's own bound of eight.
    - Asynchronous code is sequential where it holds what it needs (the
      orchestrator) and a step machine with one step per lock where requests
      interleave (network approvals, the state of the proxy, spawns of agents,
      reservations of residency slots).  The retry loop of a
      domain update takes one reloader answer per round; [update_loops_terminate]
      shows that the first undisturbed round is the last.
    - Code outside the repository or outside the modelled components is a
      parameter: the file system and [PathUri] (classes [ExecutorFileSystem],
      [PathUriOps]), tree-sitter's Bash parser ([try_parse_shell]), Starlark,
      shlex and JSON printing (classes of [PolicyParser]), the process
      environment and host ([AbsolutePath.Env], [AbsolutePath.Os]), glob
      compilation, HTTP types and URLs, DNS, UUIDs, image decoding, the diff and
      digest libraries, regular expressions, tools and reviewers.  The hooks
      are a parameter of the orchestrator and have their own model.  Concrete
      instances are used in the witnesses.
    - [usize] counts of the agent registry are kept modulo [2^64]; the revisions of
      the turn diff are natural numbers, as [2^64] patches are out of reach.
    - Requirements start from the parsed TOML values; the reading of TOML text is a
      parameter.

    ** Not modelled, and the plan

    Next: the rollout budget (whose weights are floats); the loader of the configuration files; the
    discovery of hooks and their trust hashes.

    Left out: the proxy's listeners, TLS and credential broker; user interface, network clients, process entry points, operating
    system sandboxes and the session loop, which are input/output; the unified
    diffs of [apply-patch], computed by an external crate; the world-state
    snapshots of the history; and other [cfg(windows)] code of the modelled files. *)

From stdpp Require Import base list option numbers sorting sets.
From Stdlib Require Import NArith Lia.

(** * Results

    Rust's [Result<A, E>], with the early return of the [?] operator as a
    bind. *)

Inductive result (A E : Type) : Type :=
| Ok (a : A)
| Err (e : E).
Arguments Ok {A E} _.
Arguments Err {A E} _.

Declare Scope rust_scope.
Delimit Scope rust_scope with rust.

Notation "'let?' x := c1 'in' c2" :=
  (match c1 with Ok x => c2 | Err e => Err e end)
  (at level 10, x pattern, c1 at level 100, c2 at level 200) : rust_scope.

(** [a == b] is Rust's [==] on a type with decidable equality. *)
Notation "x == y" := (bool_decide (x = y)) (at level 70, no associativity) : rust_scope.
Notation "x != y" := (negb (bool_decide (x = y))) (at level 70, no associativity) : rust_scope.

#[global] Instance result_eq_dec {A E} `{EqDecision A, EqDecision E} : EqDecision (result A E).
Proof. solve_decision. Defined.

Definition is_ok {A E} (r : result A E) : bool := match r with Ok _ => true | Err _ => false end.
Definition ok {A E} (r : result A E) : option A := match r with Ok a => Some a | Err _ => None end.
Definition map_err {A E F} (f : E -> F) (r : result A E) : result A F :=
  match r with Ok a => Ok a | Err e => Err (f e) end.

(** [Option::is_some_and]. *)
Definition is_some {A} (o : option A) : bool := match o with Some _ => true | None => false end.
Definition is_some_and {A} (p : A -> bool) (o : option A) : bool :=
  match o with Some a => p a | None => false end.

(** [iter().map(f).collect::<Result<Vec<_>, _>>()]. *)
Fixpoint collect {A B E} (f : A -> result B E) (l : list A) : result (list B) E :=
  match l with
  | [] => Ok []
  | x :: l =>
      match f x with
      | Ok y => match collect f l with Ok ys => Ok (y :: ys) | Err e => Err e end
      | Err e => Err e
      end
  end.

(** * Automation *)

Create HintDb motyga.

(** Splits every [match] of the goal and of the hypotheses, recording the
    equations, and discharges the impossible cases. *)
Ltac split_matches :=
  repeat (case_match; simplify_eq/=).

(** Turns boolean facts into propositions. *)
Ltac to_props :=
  repeat match goal with
  | H : (_ && _) = true |- _ => apply andb_prop in H; destruct H
  | H : (_ || _) = false |- _ => apply orb_false_elim in H; destruct H
  | H : (_ || _) = true |- _ => apply orb_prop in H
  | H : negb _ = true |- _ => apply negb_true_iff in H
  | H : negb _ = false |- _ => apply negb_false_iff in H
  | H : bool_decide _ = true |- _ => apply bool_decide_eq_true_1 in H
  | H : bool_decide _ = false |- _ => apply bool_decide_eq_false_1 in H
  | H : Nat.leb _ _ = true |- _ => apply Nat.leb_le in H
  | H : Nat.leb _ _ = false |- _ => apply Nat.leb_gt in H
  | H : Nat.ltb _ _ = true |- _ => apply Nat.ltb_lt in H
  | H : Nat.ltb _ _ = false |- _ => apply Nat.ltb_ge in H
  | H : N.leb _ _ = true |- _ => apply N.leb_le in H
  | H : N.leb _ _ = false |- _ => apply N.leb_gt in H
  | H : N.ltb _ _ = true |- _ => apply N.ltb_lt in H
  | H : N.ltb _ _ = false |- _ => apply N.ltb_ge in H
  end.

(** * Lists *)

Section lists.
Context {A : Type}.
Implicit Types (l k : list A) (p : A -> bool).

(** The last element, Rust's [slice::last]. *)
Lemma last_app_cons l (x : A) k : last (l ++ x :: k) = last (x :: k).
Proof.
  induction l as [|y l IH]; [done|]. cbn [app].
  destruct (l ++ x :: k) as [|z t] eqn:E; [by destruct l|].
  rewrite <- IH. done.
Qed.

Lemma list_snoc_inv l : l = [] \/ exists k x, l = k ++ [x].
Proof. induction l using rev_ind; eauto. Qed.

Lemma list_last_split l x : last l = Some x -> exists k, l = k ++ [x].
Proof.
  destruct (list_snoc_inv l) as [->|(k & y & ->)]; [done|].
  rewrite last_snoc. intros [= ->]. eauto.
Qed.

(** [Vec::retain] keeps the order: [filter] by a boolean predicate. *)
Fixpoint retain p l : list A :=
  match l with
  | [] => []
  | x :: l => if p x then x :: retain p l else retain p l
  end.

Lemma elem_of_retain p l x : x ∈ retain p l <-> p x = true /\ x ∈ l.
Proof.
  induction l as [|y l IH]; cbn.
  { split; [intros []%not_elem_of_nil | intros [_ []%not_elem_of_nil]]. }
  destruct (p y) eqn:E; rewrite ?elem_of_cons, IH; naive_solver congruence.
Qed.

Lemma NoDup_retain p l : NoDup l -> NoDup (retain p l).
Proof.
  induction 1 as [|x l Hx Hl IH]; cbn; [constructor|].
  destruct (p x); [|done]. constructor; [|done]. rewrite elem_of_retain. naive_solver.
Qed.
End lists.

Lemma retain_app {A} (p : A -> bool) l m : retain p (l ++ m) = retain p l ++ retain p m.
Proof. induction l as [|a l IH]; [done|]. cbn. rewrite IH. by destruct (p a). Qed.

Lemma retain_ext {A} (p q : A -> bool) l : (forall a, p a = q a) -> retain p l = retain q l.
Proof. intros H. induction l as [|a l IH]; [done|]. cbn. by rewrite H, IH. Qed.

Lemma retain_id {A} (p : A -> bool) l : (forall a, a ∈ l -> p a = true) -> retain p l = l.
Proof.
  induction l as [|a l IH]; intros H; [done|]. cbn. rewrite H by constructor.
  rewrite IH; [done|]. intros b Hb. apply H. by constructor.
Qed.

Lemma Forall_singleton_1 {A} (P : A -> Prop) x : Forall P [x] -> P x.
Proof. apply Forall_singleton. Qed.

(** * [slice::sort_by_key]: a stable sort *)

Fixpoint insert_by_key {A} (key : A -> nat) (x : A) (l : list A) : list A :=
  match l with
  | [] => [x]
  | y :: l' => if key x <=? key y then x :: l else y :: insert_by_key key x l'
  end.

Definition sort_by_key {A} (key : A -> nat) (l : list A) : list A :=
  foldr (insert_by_key key) [] l.

Section sorting.
Context {A : Type} (key : A -> nat).

Lemma insert_by_key_Forall (P : A -> Prop) x l :
  P x -> Forall P l -> Forall P (insert_by_key key x l).
Proof.
  intros Hx Hl. induction Hl as [|y l Hy Hl IH]; cbn; [by constructor|].
  destruct (key x <=? key y); auto.
Qed.

Lemma sort_by_key_Forall (P : A -> Prop) l : Forall P l -> Forall P (sort_by_key key l).
Proof. induction 1; cbn; [constructor|]. by apply insert_by_key_Forall. Qed.

Lemma insert_by_key_sorted x l :
  Sorted (fun a b => key a <= key b) l -> Sorted (fun a b => key a <= key b) (insert_by_key key x l).
Proof.
  induction l as [|y l IH]; intros Hl; cbn; [repeat constructor|].
  destruct (Nat.leb_spec (key x) (key y)); [constructor; [done|constructor; lia]|].
  apply Sorted_inv in Hl as [Hl Hy]. constructor; [by apply IH|].
  destruct l as [|z l]; cbn; [constructor; lia|].
  apply HdRel_inv in Hy. destruct (key x <=? key z); constructor; lia.
Qed.

Lemma sort_by_key_sorted l : Sorted (fun a b => key a <= key b) (sort_by_key key l).
Proof. induction l; cbn; [constructor|]. by apply insert_by_key_sorted. Qed.

Lemma insert_by_key_elem x l y : y ∈ insert_by_key key x l <-> y = x \/ y ∈ l.
Proof.
  induction l as [|z l IH]; cbn; [by rewrite elem_of_cons|].
  destruct (key x <=? key z); rewrite !elem_of_cons, ?IH; naive_solver.
Qed.

Lemma sort_by_key_elem l y : y ∈ sort_by_key key l <-> y ∈ l.
Proof.
  induction l as [|x l IH]; cbn; [done|]. by rewrite insert_by_key_elem, IH, elem_of_cons.
Qed.

(** A stable sort does nothing to a sorted list. *)
Lemma sort_by_key_id l : Sorted (fun a b => key a <= key b) l -> sort_by_key key l = l.
Proof.
  unfold sort_by_key. induction 1 as [|x l Hl IH Hx]; cbn; [done|]. rewrite IH.
  destruct Hx as [|y l Hxy]; cbn; [done|]. by destruct (Nat.leb_spec (key x) (key y)); [|lia].
Qed.
End sorting.

Lemma elem_of_concat_fmap {A B} (f : A -> list B) l m :
  m ∈ concat (f <$> l) <-> exists x, x ∈ l /\ m ∈ f x.
Proof.
  induction l as [|x l IH]; cbn; [set_solver|]. rewrite elem_of_app, IH. set_solver.
Qed.

(** * [Iterator::max_by_key]: the last of the largest elements *)

Definition max_by_key {A K} (le : K -> K -> bool) (key : A -> K) (l : list A) : option A :=
  foldl (fun acc x =>
    match acc with
    | None => Some x
    | Some a => if le (key a) (key x) then Some x else Some a
    end) None l.

Section max_by_key.
Context {A K : Type} (le : K -> K -> bool) (key : A -> K).
Hypothesis le_refl : forall x, le x x = true.
Hypothesis le_trans : forall x y z, le x y = true -> le y z = true -> le x z = true.
Hypothesis le_total : forall x y, le x y = false -> le y x = true.

Lemma max_by_key_snoc l x :
  max_by_key le key (l ++ [x])
  = match max_by_key le key l with
    | None => Some x
    | Some a => if le (key a) (key x) then Some x else Some a
    end.
Proof. unfold max_by_key. by rewrite foldl_app. Qed.

Lemma max_by_key_None l : max_by_key le key l = None <-> l = [].
Proof.
  induction l as [|x l _] using rev_ind; [done|]. rewrite max_by_key_snoc.
  split; [repeat case_match; done|]. intros H. by apply app_nil in H as [_ ?].
Qed.

Lemma max_by_key_Some l a :
  max_by_key le key l = Some a -> a ∈ l /\ forall x, x ∈ l -> le (key x) (key a) = true.
Proof.
  revert a. induction l as [|y l IH] using rev_ind; intros a; [done|]. rewrite max_by_key_snoc.
  setoid_rewrite elem_of_app. setoid_rewrite list_elem_of_singleton.
  destruct (max_by_key le key l) as [b|] eqn:E.
  - destruct (IH b eq_refl) as [Hb Hmax]. destruct (le (key b) (key y)) eqn:El; intros [= <-].
    + split; [by right|]. intros x [Hx| ->]; eauto.
    + split; [by left|]. intros x [Hx| ->]; eauto.
  - intros [= <-]. apply max_by_key_None in E as ->. split; [by right|].
    intros x [[]%not_elem_of_nil| ->]; auto.
Qed.
End max_by_key.

(** * [slice::sort_by] and [Vec::dedup] *)

Fixpoint insert_sorted {A} (le : A -> A -> bool) (x : A) (l : list A) : list A :=
  match l with
  | [] => [x]
  | y :: l' => if le x y then x :: l else y :: insert_sorted le x l'
  end.

Definition sort_by {A} (le : A -> A -> bool) (l : list A) : list A := foldr (insert_sorted le) [] l.

Fixpoint dedup {A} `{EqDecision A} (l : list A) : list A :=
  match l with
  | [] => []
  | x :: l =>
      match dedup l with
      | y :: k => if bool_decide (x = y) then y :: k else x :: y :: k
      | [] => [x]
      end
  end.

Lemma insert_sorted_perm {A} (le : A -> A -> bool) x l : insert_sorted le x l ≡ₚ x :: l.
Proof.
  induction l as [|y l IH]; cbn; [done|]. case_match; [done|]. rewrite IH. apply Permutation_swap.
Qed.

Lemma sort_by_perm {A} (le : A -> A -> bool) l : sort_by le l ≡ₚ l.
Proof. induction l as [|x l IH]; cbn; [done|]. by rewrite insert_sorted_perm, IH. Qed.

Lemma dedup_elem {A} `{EqDecision A} (l : list A) x : x ∈ dedup l <-> x ∈ l.
Proof.
  induction l as [|y l IH]; cbn; [done|]. rewrite elem_of_cons, <- IH.
  destruct (dedup l) as [|z k]; [by rewrite elem_of_cons|].
  case_bool_decide; rewrite !elem_of_cons; naive_solver.
Qed.

(** * [collect] *)

Section collect_laws.
Context {A B E : Type} (f : A -> result B E).

Lemma collect_Ok l ys : collect f l = Ok ys <-> Forall2 (fun x y => f x = Ok y) l ys.
Proof.
  revert ys. induction l as [|x l IH]; intros ys; cbn [collect].
  { split; [intros [= <-]; constructor|by inversion 1]. }
  destruct (f x) as [y|e] eqn:E1; [|split; [done|inversion 1; congruence]].
  destruct (collect f l) as [zs|e].
  - split; [intros [= <-]; constructor; [done|by apply IH]|]. inversion 1 as [|? ? ? ? Hy Hl]; subst.
    apply IH in Hl. congruence.
  - split; [done|]. inversion 1 as [|? ? ? ? Hy Hl]; subst. by apply IH in Hl.
Qed.

Lemma collect_total l : is_ok (collect f l) = true <-> Forall (fun x => is_ok (f x) = true) l.
Proof.
  induction l as [|x l IH]; cbn [collect]; [by split|]. rewrite Forall_cons, <- IH.
  destruct (f x), (collect f l); cbn; naive_solver.
Qed.
End collect_laws.
