(* ===== verification/RustStr.v ===== *)
(** Rust's [str]/[String] operations.

    A string is the list of its Unicode scalar values ([char]s); byte-level
    facts ([str::len], UTF-8) are derived from the code points.  Each function
    below is the standard-library method of the same name, as far as the
    modelled code uses it. *)

From stdpp Require Import base list option numbers strings pretty sets.
From Stdlib Require Import NArith Lia Ascii.
From S2P Require Import Prelude.
Local Open Scope rust_scope.

Abbreviation char := N.
Abbreviation str := (list N).

(** A string literal of the source. *)
Fixpoint lit (s : string) : str :=
  match s with
  | EmptyString => []
  | String a s => N_of_ascii a :: lit s
  end.

Definition NL : char := 10%N.
Definition CR : char := 13%N.
Definition QUOTE : char := 34%N.

(** [format!("{}", n)] of an unsigned integer. *)
Definition show_nat (n : nat) : str := lit (pretty n).
Definition show_N (n : N) : str := lit (pretty n).

(** * Characters *)

Definition in_range (lo hi c : char) : bool := (lo <=? c)%N && (c <=? hi)%N.

(** [char::is_whitespace]: the Unicode White_Space property. *)
Definition is_whitespace (c : char) : bool :=
  in_range 9 13 c || (c =? 32)%N || (c =? 133)%N || (c =? 160)%N || (c =? 5760)%N
  || in_range 8192 8202 c || (c =? 8232)%N || (c =? 8233)%N || (c =? 8239)%N
  || (c =? 8287)%N || (c =? 12288)%N.

Definition is_ascii_digit (c : char) : bool := in_range 48 57 c.
Definition is_ascii_uppercase (c : char) : bool := in_range 65 90 c.
Definition ascii_lower (c : char) : char := if is_ascii_uppercase c then (c + 32)%N else c.
Definition to_ascii_lowercase (s : str) : str := ascii_lower <$> s.
Definition eq_ignore_ascii_case (a b : str) : bool := to_ascii_lowercase a == to_ascii_lowercase b.

(** [char::len_utf8]. *)
Definition len_utf8 (c : char) : nat :=
  if (c <? 128)%N then 1 else if (c <? 2048)%N then 2 else if (c <? 65536)%N then 3 else 4.

(** [str::len], in bytes. *)
Fixpoint blen (s : str) : nat :=
  match s with
  | [] => 0
  | c :: s => len_utf8 c + blen s
  end.

(** * Trimming *)

Fixpoint drop_while {A} (p : A -> bool) (l : list A) : list A :=
  match l with
  | [] => []
  | x :: l' => if p x then drop_while p l' else l
  end.

Definition trim_start (s : str) : str := drop_while is_whitespace s.
Definition trim_end (s : str) : str := reverse (drop_while is_whitespace (reverse s)).
Definition trim (s : str) : str := trim_end (trim_start s).
Definition trim_end_matches (c : char) (s : str) : str :=
  reverse (drop_while (N.eqb c) (reverse s)).

(** * Prefixes, suffixes, searching *)

Fixpoint strip_prefix (p s : str) : option str :=
  match p, s with
  | [], _ => Some s
  | x :: p, y :: s => if (x =? y)%N then strip_prefix p s else None
  | _ :: _, [] => None
  end.

Definition starts_with (p s : str) : bool :=
  match strip_prefix p s with Some _ => true | None => false end.

Definition strip_suffix (p s : str) : option str :=
  match strip_prefix (reverse p) (reverse s) with
  | Some r => Some (reverse r)
  | None => None
  end.

Definition ends_with (p s : str) : bool :=
  match strip_suffix p s with Some _ => true | None => false end.

Fixpoint contains_char (c : char) (s : str) : bool :=
  match s with
  | [] => false
  | x :: s => (x =? c)%N || contains_char c s
  end.

(** [str::find] of a substring: the position (in [char]s) of its first
    occurrence. *)
Fixpoint find_str (p s : str) : option nat :=
  if starts_with p s then Some 0
  else match s with
       | [] => None
       | _ :: s => S <$> find_str p s
       end.

Definition contains_str (p s : str) : bool :=
  match find_str p s with Some _ => true | None => false end.

Fixpoint count_char (c : char) (s : str) : nat :=
  match s with
  | [] => 0
  | x :: s => (if (x =? c)%N then 1 else 0) + count_char c s
  end.

(** * Splitting and joining *)

(** [str::split(c)]: never empty. *)
Fixpoint split_on (c : char) (s : str) : list str :=
  match s with
  | [] => [[]]
  | x :: s =>
      if (x =? c)%N then [] :: split_on c s
      else match split_on c s with
           | [] => [[x]]
           | h :: t => (x :: h) :: t
           end
  end.

Definition split_once (c : char) (s : str) : option (str * str) :=
  (fix go (acc s : str) : option (str * str) :=
     match s with
     | [] => None
     | x :: s => if (x =? c)%N then Some (reverse acc, s) else go (x :: acc) s
     end) [] s.

Definition rsplit_once (c : char) (s : str) : option (str * str) :=
  match split_once c (reverse s) with
  | Some (a, b) => Some (reverse b, reverse a)
  | None => None
  end.

(** [[_].join(sep)]. *)
Fixpoint join (sep : str) (ls : list str) : str :=
  match ls with
  | [] => []
  | [l] => l
  | l :: ls => l ++ sep ++ join sep ls
  end.

(** [str::lines]: split at newlines, the last line ending is optional, a
    carriage return before a newline belongs to the line ending. *)
Definition strip_cr (l : str) : str :=
  match strip_suffix [CR] l with Some l' => l' | None => l end.

Fixpoint lines_of_split (ls : list str) : list str :=
  match ls with
  | [] => []
  | [l] => match l with [] => [] | _ => [l] end
  | l :: ls => strip_cr l :: lines_of_split ls
  end.

Definition lines (s : str) : list str := lines_of_split (split_on NL s).

(** * Lemmas *)

Lemma strip_prefix_Some p s r : strip_prefix p s = Some r <-> s = p ++ r.
Proof.
  revert s. induction p as [|x p IH]; intros s; cbn; [naive_solver|].
  destruct s as [|y s]; [naive_solver|].
  destruct (N.eqb_spec x y) as [->|Hne]; rewrite ?IH; naive_solver.
Qed.

Lemma strip_prefix_app p r : strip_prefix p (p ++ r) = Some r.
Proof. by apply strip_prefix_Some. Qed.

Lemma strip_prefix_None p s : strip_prefix p s = None <-> forall r, s <> p ++ r.
Proof.
  destruct (strip_prefix p s) as [r|] eqn:E.
  - apply strip_prefix_Some in E. naive_solver.
  - split; [|done]. intros _ r Hr. apply strip_prefix_Some in Hr. congruence.
Qed.

Lemma starts_with_spec p s : starts_with p s = true <-> exists r, s = p ++ r.
Proof.
  unfold starts_with. destruct (strip_prefix p s) as [r|] eqn:E.
  - apply strip_prefix_Some in E. naive_solver.
  - rewrite strip_prefix_None in E. naive_solver.
Qed.

Lemma strip_suffix_Some p s r : strip_suffix p s = Some r <-> s = r ++ p.
Proof.
  unfold strip_suffix. destruct (strip_prefix (reverse p) (reverse s)) as [t|] eqn:E.
  - apply strip_prefix_Some in E. apply (f_equal reverse) in E.
    rewrite reverse_app, !reverse_involutive in E. subst s. split.
    + by intros [= <-].
    + intros H. by apply app_inv_tail in H as ->.
  - split; [done|]. intros ->. rewrite reverse_app, strip_prefix_app in E. done.
Qed.

Lemma strip_suffix_None p s : strip_suffix p s = None <-> forall r, s <> r ++ p.
Proof.
  destruct (strip_suffix p s) as [r|] eqn:E.
  - apply strip_suffix_Some in E. naive_solver.
  - split; [|done]. intros _ r Hr. apply strip_suffix_Some in Hr. congruence.
Qed.

Lemma ends_with_spec p s : ends_with p s = true <-> exists r, s = r ++ p.
Proof.
  unfold ends_with. destruct (strip_suffix p s) as [r|] eqn:E.
  - apply strip_suffix_Some in E. naive_solver.
  - rewrite strip_suffix_None in E. naive_solver.
Qed.

Section drop_while.
Context {A : Type} (p : A -> bool).
Implicit Types l k : list A.

Lemma drop_while_split l : exists k, l = k ++ drop_while p l /\ Forall (fun x => p x = true) k.
Proof.
  induction l as [|x l (k & Hk & Hf)]; cbn; [by exists []|].
  destruct (p x) eqn:E; [|by exists []].
  exists (x :: k). rewrite <- app_comm_cons, <- Hk. auto.
Qed.

Lemma drop_while_head l x k : drop_while p l = x :: k -> p x = false.
Proof.
  induction l as [|y l IH]; cbn; [done|]. destruct (p y) eqn:E; naive_solver.
Qed.

Lemma drop_while_nil l : drop_while p l = [] <-> Forall (fun x => p x = true) l.
Proof.
  induction l as [|y l IH]; cbn; [split; auto|].
  destruct (p y) eqn:E; rewrite ?IH, Forall_cons; naive_solver congruence.
Qed.

Lemma drop_while_all k l :
  Forall (fun x => p x = true) k -> drop_while p (k ++ l) = drop_while p l.
Proof. induction 1 as [|x k Hx _ IH]; cbn; [done|]. by rewrite Hx. Qed.

Lemma drop_while_keep l x : p x = false -> drop_while p (x :: l) = x :: l.
Proof. cbn. by intros ->. Qed.

Lemma drop_while_app l k :
  drop_while p l <> [] -> drop_while p (l ++ k) = drop_while p l ++ k.
Proof.
  induction l as [|x l IH]; cbn; [done|]. destruct (p x); [apply IH|done].
Qed.

Lemma drop_while_idem l : drop_while p (drop_while p l) = drop_while p l.
Proof.
  destruct (drop_while p l) as [|x k] eqn:E; [done|].
  cbn. by rewrite (drop_while_head _ _ _ E).
Qed.

Lemma drop_while_snoc l x : p x = false -> drop_while p (l ++ [x]) <> [].
Proof.
  intros Hx H. apply drop_while_nil in H. apply Forall_app in H as [_ H].
  apply Forall_cons in H as [H _]. congruence.
Qed.

(** Dropping at the front and at the back commute. *)
Lemma drop_while_reverse_comm l :
  reverse (drop_while p (reverse (drop_while p l)))
  = drop_while p (reverse (drop_while p (reverse l))).
Proof.
  destruct (drop_while_split l) as (k & Hl & Hk).
  destruct (drop_while p l) as [|x m] eqn:E.
  - rewrite app_nil_r in Hl. subst k. cbn.
    assert (drop_while p (reverse l) = []) as ->.
    { apply drop_while_nil. by apply Forall_reverse. }
    done.
  - pose proof (drop_while_head _ _ _ E) as Hx. subst l.
    rewrite !reverse_app, reverse_cons.
    assert (drop_while p (reverse m ++ [x]) <> []) as Hne by by apply drop_while_snoc.
    rewrite (drop_while_app _ (reverse k)) by done.
    rewrite reverse_app, reverse_involutive, (drop_while_all k) by done.
    destruct (drop_while p (reverse m)) as [|z t] eqn:Em.
    + apply drop_while_nil in Em. rewrite drop_while_all by done.
      cbn. rewrite Hx. cbn. by rewrite Hx.
    + rewrite drop_while_app by by rewrite Em.
      rewrite Em, reverse_app. cbn. by rewrite Hx.
Qed.
End drop_while.

Lemma trim_comm s : trim s = trim_start (trim_end s).
Proof. apply drop_while_reverse_comm. Qed.

Lemma trim_end_idem s : trim_end (trim_end s) = trim_end s.
Proof. unfold trim_end. by rewrite reverse_involutive, drop_while_idem. Qed.

Lemma trim_of_trim_end s : trim (trim_end s) = trim s.
Proof. by rewrite !trim_comm, trim_end_idem. Qed.

Lemma trim_idem s : trim (trim s) = trim s.
Proof.
  rewrite trim_comm. unfold trim at 1. rewrite trim_end_idem.
  change (trim_start (trim s) = trim s). rewrite trim_comm. apply drop_while_idem.
Qed.

Lemma trim_end_split s : exists w, s = trim_end s ++ w /\ Forall (fun c => is_whitespace c = true) w.
Proof.
  destruct (drop_while_split is_whitespace (reverse s)) as (k & Hk & Hw).
  exists (reverse k). split; [|by apply Forall_reverse].
  unfold trim_end. rewrite <- reverse_app, <- Hk. by rewrite reverse_involutive.
Qed.

Lemma trim_end_snoc s c : is_whitespace c = false -> trim_end (s ++ [c]) = s ++ [c].
Proof.
  intros Hc. unfold trim_end. rewrite reverse_snoc, drop_while_keep by done.
  by rewrite reverse_cons, reverse_involutive.
Qed.

Lemma trim_end_ws s w : Forall (fun c => is_whitespace c = true) w -> trim_end (s ++ w) = trim_end s.
Proof.
  intros Hw. unfold trim_end. rewrite reverse_app, drop_while_all; [done|].
  by apply Forall_reverse.
Qed.

(** ** Splitting and joining *)

Lemma count_char_app c a b : count_char c (a ++ b) = count_char c a + count_char c b.
Proof. induction a as [|x a IH]; cbn; [done|]. rewrite IH. lia. Qed.

Lemma count_char_0 c s : count_char c s = 0 <-> c ∉ s.
Proof.
  induction s as [|x s IH]; cbn; [split; [intros _ []%not_elem_of_nil|done]|].
  rewrite not_elem_of_cons, <- IH. destruct (N.eqb_spec x c) as [->|Hne].
  - split; [lia|]. by intros [? _].
  - cbn. split; [auto|]. by intros [_ ?].
Qed.

Lemma split_on_nonempty c s : split_on c s <> [].
Proof. destruct s as [|x s]; cbn; [done|]. repeat case_match; done. Qed.

Lemma split_on_no_sep c s : Forall (fun l => c ∉ l) (split_on c s).
Proof.
  induction s as [|x s IH]; cbn; [apply Forall_singleton, not_elem_of_nil|].
  destruct (N.eqb_spec x c) as [->|Hne]; [constructor; [apply not_elem_of_nil|done]|].
  destruct (split_on c s) as [|h t] eqn:E; [by destruct (split_on_nonempty c s)|].
  apply Forall_cons in IH as [Hh Ht]. constructor; [|done]. apply not_elem_of_cons. auto.
Qed.

Lemma join_split_on c s : join [c] (split_on c s) = s.
Proof.
  induction s as [|x s IH]; cbn; [done|].
  destruct (N.eqb_spec x c) as [->|Hne].
  - pose proof (split_on_nonempty c s). cbn. destruct (split_on c s); [done|]. by rewrite IH.
  - destruct (split_on c s) as [|h t] eqn:E; [by destruct (split_on_nonempty c s)|].
    cbn in *. destruct t; cbn in *; congruence.
Qed.

Lemma split_on_no c s : c ∉ s -> split_on c s = [s].
Proof.
  induction s as [|x s IH]; cbn; [done|]. intros [Hx Hs]%not_elem_of_cons.
  destruct (N.eqb_spec x c); [congruence|]. by rewrite IH.
Qed.

Lemma split_on_app_sep c a s : c ∉ a -> split_on c (a ++ c :: s) = a :: split_on c s.
Proof.
  induction a as [|x a IH]; cbn; [by rewrite N.eqb_refl|].
  intros [Hx Ha]%not_elem_of_cons. destruct (N.eqb_spec x c); [congruence|]. by rewrite IH.
Qed.

Lemma join_cons sep l ls : ls <> [] -> join sep (l :: ls) = l ++ sep ++ join sep ls.
Proof. by destruct ls. Qed.

Lemma split_on_join c ls :
  ls <> [] -> Forall (fun l => c ∉ l) ls -> split_on c (join [c] ls) = ls.
Proof.
  induction ls as [|l ls IH]; [done|]. intros _ [Hl Hls]%Forall_cons.
  destruct ls as [|m ls]; cbn [join]; [by apply split_on_no|].
  cbn [app]. rewrite split_on_app_sep by done. f_equal. by apply IH.
Qed.

Lemma count_char_join c ls :
  ls <> [] -> Forall (fun l => c ∉ l) ls -> count_char c (join [c] ls) = length ls - 1.
Proof.
  induction ls as [|l ls IH]; [done|]. intros _ [Hl Hls]%Forall_cons.
  destruct ls as [|m ls]; [cbn; by rewrite (proj2 (count_char_0 _ _) Hl)|].
  rewrite join_cons, !count_char_app, IH, (proj2 (count_char_0 _ _) Hl) by done.
  cbn. rewrite N.eqb_refl. lia.
Qed.

Lemma strip_cr_sub l c : c ∈ strip_cr l -> c ∈ l.
Proof.
  unfold strip_cr. destruct (strip_suffix [CR] l) as [r|] eqn:E; [|done].
  apply strip_suffix_Some in E as ->. rewrite elem_of_app. auto.
Qed.

Lemma lines_no_newline s : Forall (fun l => NL ∉ l) (lines s).
Proof.
  unfold lines. generalize (split_on_no_sep NL s). generalize (split_on NL s) as ls.
  induction ls as [|l ls IH]; intros H; [constructor|].
  apply Forall_cons in H as [Hl Hls]. destruct ls as [|m ls]; cbn.
  - destruct l; repeat constructor; done.
  - constructor; [|by apply IH]. intros Hin%strip_cr_sub. done.
Qed.

Lemma strip_cr_id l : last l <> Some CR -> strip_cr l = l.
Proof.
  intros H. unfold strip_cr. destruct (strip_suffix [CR] l) as [r|] eqn:E; [|done].
  apply strip_suffix_Some in E as ->. by rewrite last_snoc in H.
Qed.

Lemma join_snoc sep ls x :
  join sep (ls ++ [x]) = concat ((fun l => l ++ sep) <$> ls) ++ x.
Proof.
  induction ls as [|l ls IH]; [done|].
  cbn [app fmap list_fmap concat]. rewrite join_cons by (by destruct ls).
  rewrite IH, <- !app_assoc. done.
Qed.

(** Lines written with newlines between them are read back. *)
Lemma lines_join ls x :
  Forall (fun l => (NL ∉ l) /\ last l <> Some CR) (ls ++ [x]) -> x <> [] ->
  lines (join [NL] (ls ++ [x])) = ls ++ [x].
Proof.
  intros Hls Hx. unfold lines. rewrite split_on_join; [|by destruct ls|].
  - induction ls as [|l ls IH]; [by destruct x|].
    apply Forall_cons in Hls as [[_ Hl] Hls]. specialize (IH Hls). cbn [app].
    destruct (ls ++ [x]) as [|m t] eqn:E; [by destruct ls|]. rewrite ?E in IH.
    rewrite <- IH at 2. cbn [lines_of_split]. by rewrite strip_cr_id.
  - eapply Forall_impl; [exact Hls|]. by intros l [? _].
Qed.

Lemma split_on_app c a b : split_on c (a ++ c :: b) = split_on c a ++ split_on c b.
Proof.
  induction a as [|x a IH]; cbn; [by rewrite N.eqb_refl|].
  destruct (x =? c)%N; [by rewrite IH|]. rewrite IH.
  by destruct (split_on c a) as [|h t] eqn:E; [destruct (split_on_nonempty c a)|].
Qed.

Lemma lines_of_split_app x y :
  y <> [] -> lines_of_split (x ++ y) = (strip_cr <$> x) ++ lines_of_split y.
Proof.
  intros Hy. induction x as [|l x IH]; [done|]. cbn [app fmap list_fmap].
  destruct (x ++ y) as [|m t] eqn:E; [by destruct x|]. rewrite <- IH. done.
Qed.

Lemma lines_app_newline a b :
  lines (a ++ NL :: b) = (strip_cr <$> split_on NL a) ++ lines b.
Proof.
  unfold lines. rewrite split_on_app. apply lines_of_split_app, split_on_nonempty.
Qed.

(** A text that ends inside a line has no special last line. *)
Lemma lines_open_end a c :
  c <> NL -> c <> CR -> lines (a ++ [c]) = strip_cr <$> split_on NL (a ++ [c]).
Proof.
  intros Hnl Hcr. unfold lines.
  destruct (exists_last (split_on_nonempty NL (a ++ [c]))) as (ls & x & E).
  pose proof (join_split_on NL (a ++ [c])) as Hj. rewrite E in Hj |- *.
  rewrite join_snoc in Hj. rewrite lines_of_split_app, fmap_app by done. f_equal. cbn.
  destruct (list_snoc_inv x) as [->|(y & d & ->)].
  - rewrite app_nil_r in Hj. destruct (list_snoc_inv ls) as [->|(ls' & l & ->)].
    + cbn in Hj. by destruct a.
    + rewrite fmap_app, concat_app in Hj. cbn in Hj. rewrite app_nil_r, app_assoc in Hj.
      apply app_inj_tail in Hj as [_ <-]. done.
  - rewrite app_assoc in Hj. apply app_inj_tail in Hj as [_ ->].
    rewrite strip_cr_id by (rewrite last_snoc; intros [= ->]; done).
    by destruct y.
Qed.

Lemma lines_visible_end a c :
  is_whitespace c = false -> lines (a ++ [c]) = strip_cr <$> split_on NL (a ++ [c]).
Proof. intros Hc. apply lines_open_end; by intros ->. Qed.

(** Appending a line to a text. *)
Lemma lines_single l : NL ∉ l -> last l <> Some CR -> lines (l ++ [NL]) = [l].
Proof.
  intros Hl Hcr. rewrite lines_app_newline, split_on_no by done. cbn. by rewrite strip_cr_id.
Qed.

Lemma lines_append_closed s l :
  NL ∉ l -> last l <> Some CR -> lines ((s ++ [NL]) ++ l ++ [NL]) = lines (s ++ [NL]) ++ [l].
Proof.
  intros Hl Hcr. rewrite <- app_assoc. cbn [app].
  rewrite (lines_app_newline s (l ++ [NL])), (lines_app_newline s []), lines_single by done.
  cbn. by rewrite app_nil_r.
Qed.

Lemma lines_append_open s l :
  s <> [] -> last s <> Some NL -> last s <> Some CR -> NL ∉ l -> last l <> Some CR ->
  lines ((s ++ [NL]) ++ l ++ [NL]) = lines s ++ [l].
Proof.
  intros Hs Hnl Hcr Hl Hlcr. rewrite lines_append_closed, lines_app_newline by done. cbn.
  rewrite app_nil_r. destruct (list_snoc_inv s) as [->|(k & c & ->)]; [done|].
  rewrite last_snoc in *. rewrite lines_open_end by congruence. done.
Qed.

Lemma join_terminated c ls : ls <> [] -> join [c] (ls ++ [[]]) = join [c] ls ++ [c].
Proof.
  intros Hne. rewrite join_snoc, app_nil_r. destruct (exists_last Hne) as (k & x & ->).
  rewrite join_snoc, fmap_app, concat_app. cbn. by rewrite app_nil_r, app_assoc.
Qed.

(** ** Membership, searching and trimming *)

Lemma drop_while_elem {A} (p : A -> bool) l x : x ∈ drop_while p l -> x ∈ l.
Proof.
  intros H. destruct (drop_while_split p l) as (k & E & _). rewrite E. set_solver.
Qed.

Lemma trim_elem s c : c ∈ trim s -> c ∈ s.
Proof.
  unfold trim, trim_end, trim_start. rewrite elem_of_reverse.
  intros H%drop_while_elem. rewrite elem_of_reverse in H. eauto using drop_while_elem.
Qed.

Lemma trim_end_matches_elem d s c : c ∈ trim_end_matches d s -> c ∈ s.
Proof.
  unfold trim_end_matches. rewrite elem_of_reverse. intros H%drop_while_elem.
  by rewrite elem_of_reverse in H.
Qed.

Lemma split_once_go_spec c acc s a b :
  (fix go (acc s : str) : option (str * str) :=
     match s with
     | [] => None
     | x :: s => if (x =? c)%N then Some (reverse acc, s) else go (x :: acc) s
     end) acc s = Some (a, b) ->
  exists k, a = reverse acc ++ k /\ s = k ++ c :: b /\ (c ∉ k).
Proof.
  revert acc. induction s as [|x s IH]; intros acc; [done|].
  destruct (N.eqb_spec x c) as [->|Hx].
  - intros [= <- <-]. exists []. rewrite app_nil_r. set_solver.
  - intros (k & -> & -> & Hk)%IH. exists (x :: k). rewrite reverse_cons, <- app_assoc. set_solver.
Qed.

Lemma split_once_Some c s a b : split_once c s = Some (a, b) -> s = a ++ c :: b /\ (c ∉ a).
Proof. intros (k & -> & -> & Hk)%split_once_go_spec. done. Qed.

Lemma split_once_app c a b : c ∉ a -> split_once c (a ++ c :: b) = Some (a, b).
Proof.
  unfold split_once. change a with (reverse [] ++ a) at 3. generalize (@nil N) as acc.
  induction a as [|x a IH]; intros acc Ha; cbn.
  - by rewrite N.eqb_refl, app_nil_r.
  - destruct (N.eqb_spec x c) as [->|_]; [set_solver|].
    rewrite IH by set_solver. by rewrite reverse_cons, <- app_assoc.
Qed.

Lemma rsplit_once_app c a b : c ∉ b -> rsplit_once c (a ++ c :: b) = Some (a, b).
Proof.
  intros Hb. unfold rsplit_once. rewrite reverse_app, reverse_cons, <- app_assoc. cbn.
  rewrite split_once_app by (by rewrite elem_of_reverse). by rewrite !reverse_involutive.
Qed.

Lemma rsplit_once_Some c s a b : rsplit_once c s = Some (a, b) -> s = a ++ c :: b.
Proof.
  unfold rsplit_once. case_match eqn:E; [|done]. case_match. intros [= <- <-].
  apply split_once_Some in E as [E _]. apply (f_equal reverse) in E.
  rewrite reverse_involutive, reverse_app, reverse_cons, <- app_assoc in E. done.
Qed.

Lemma contains_char_spec c s : contains_char c s = true <-> c ∈ s.
Proof.
  induction s as [|x s IH]; cbn; [set_solver|].
  rewrite orb_true_iff, N.eqb_eq, IH, elem_of_cons. naive_solver.
Qed.

Lemma contains_char_false c s : contains_char c s = false <-> c ∉ s.
Proof. rewrite <- contains_char_spec. by destruct (contains_char c s). Qed.

Lemma contains_str_spec p s : contains_str p s = true <-> exists a b, s = a ++ p ++ b.
Proof.
  unfold contains_str. split.
  - induction s as [|x s IH]; cbn [find_str]; destruct (starts_with p _) eqn:E;
      try (apply starts_with_spec in E as [b ->]; intros _; by exists [], b); [done|].
    destruct (find_str p s); [|done]. destruct (IH eq_refl) as (a & b & ->). by exists (x :: a), b.
  - intros (a & b & ->). induction a as [|x a IH]; cbn [app find_str].
    + assert (starts_with p (p ++ b) = true) as Hs by (apply starts_with_spec; eauto).
      by destruct (p ++ b); cbn [find_str]; rewrite Hs.
    + destruct (starts_with p _); [done|]. by destruct (find_str p (a ++ p ++ b)); [|discriminate IH].
Qed.

Lemma existsb_false {A} (p : A -> bool) l : existsb p l = false <-> Forall (fun x => p x = false) l.
Proof.
  induction l as [|x l IH]; cbn; [by split|]. rewrite orb_false_iff, Forall_cons. naive_solver.
Qed.

Lemma drop_while_id {A} (p : A -> bool) l :
  (forall x, head l = Some x -> p x = false) -> drop_while p l = l.
Proof. destruct l as [|x l]; cbn; [done|]. intros H. by rewrite (H x). Qed.

Lemma head_reverse {A} (l : list A) : head (reverse l) = last l.
Proof.
  destruct (list_snoc_inv l) as [->|(k & x & ->)]; [done|]. by rewrite reverse_snoc, last_snoc.
Qed.

Lemma trim_no_ws s : Forall (fun c => is_whitespace c = false) s -> trim s = s.
Proof.
  intros H. unfold trim, trim_end, trim_start. rewrite Forall_forall in H.
  rewrite (drop_while_id _ s); [|intros x Hx; apply H; destruct s; simplify_eq/=; set_solver].
  rewrite drop_while_id; [by rewrite reverse_involutive|].
  intros x Hx. apply H. rewrite head_reverse in Hx. apply last_Some_elem_of in Hx. done.
Qed.

Lemma trim_end_matches_id c s : last s <> Some c -> trim_end_matches c s = s.
Proof.
  intros H. unfold trim_end_matches. rewrite drop_while_id; [by rewrite reverse_involutive|].
  intros x Hx. rewrite head_reverse in Hx. apply N.eqb_neq. congruence.
Qed.

Lemma trim_end_matches_snoc c s : last s <> Some c -> trim_end_matches c (s ++ [c]) = s.
Proof.
  intros H. unfold trim_end_matches. rewrite reverse_snoc. cbn. rewrite N.eqb_refl.
  by apply (trim_end_matches_id c s).
Qed.

Lemma lowercase_id s : Forall (fun c => is_ascii_uppercase c = false) s -> to_ascii_lowercase s = s.
Proof.
  unfold to_ascii_lowercase. induction 1 as [|c s Hc _ IH]; [done|].
  rewrite fmap_cons, IH. unfold ascii_lower. by rewrite Hc.
Qed.

(** * Order

    [Ord] of strings and of vectors is lexicographic. *)

Fixpoint lex_leb {A} (leb eqb : A -> A -> bool) (x y : list A) : bool :=
  match x, y with
  | [], _ => true
  | _ :: _, [] => false
  | a :: x, b :: y => if eqb a b then lex_leb leb eqb x y else leb a b
  end.
Definition str_leb : str -> str -> bool := lex_leb N.leb N.eqb.
