(* ===== verification/SeekSequence.v ===== *)
(** The fuzzy line matcher of [apply-patch/src/seek_sequence.rs].

    [seek_sequence] locates a block of lines in a file in four passes of
    decreasing strictness.  The theorems show that what it returns is a real
    match inside the file, that it is the leftmost one of the strictest pass
    that has any, and that it returns nothing only when no pass can match. *)

From stdpp Require Import base list option numbers strings.
From Stdlib Require Import NArith Lia.
From S2P Require Import Prelude RustStr.
Local Open Scope rust_scope.

(** [a..=b]. *)
Definition range_incl (a b : nat) : list nat := seq a (S b - a).

(** [lines[i..i + pattern.len()] == *pattern]. *)
Definition exact_at (lines pattern : list str) (i : nat) : bool :=
  take (length pattern) (drop i lines) == pattern.

(** The inner loop of the lenient passes: every pattern line equals its
    counterpart up to [f].  The index [i + p_idx] is in range for every [i]
    the passes try ([seek_accesses_in_range]); out of range Rust panics. *)
Fixpoint lenient_at (f : str -> str) (lines pattern : list str) (i : nat) : bool :=
  match pattern with
  | [] => true
  | pat :: pattern =>
      match lines !! i with
      | Some l => (f l == f pat) && lenient_at f lines pattern (S i)
      | None => false
      end
  end.

Definition normalise_char (c : char) : char :=
  if in_range 8208 8213 c || (c =? 8722)%N then 45%N
  else if in_range 8216 8219 c then 39%N
  else if in_range 8220 8223 c then 34%N
  else if (c =? 160)%N || in_range 8194 8202 c || (c =? 8239)%N || (c =? 8287)%N
          || (c =? 12288)%N then 32%N
  else c.

Definition normalise (s : str) : str := normalise_char <$> trim s.

(** The first index of the candidate range that passes a test. *)
Definition seek_pass (test : nat -> bool) (candidates : list nat) : option nat :=
  List.find test candidates.

Definition search_start (lines pattern : list str) (start : nat) (eof : bool) : nat :=
  if eof && (length pattern <=? length lines) then length lines - length pattern else start.

Definition candidates (lines pattern : list str) (start : nat) (eof : bool) : list nat :=
  range_incl (search_start lines pattern start eof) (length lines - length pattern).

Definition seek_sequence (lines pattern : list str) (start : nat) (eof : bool) : option nat :=
  if pattern == [] then Some start
  else if length lines <? length pattern then None
  else
    let cs := candidates lines pattern start eof in
    match seek_pass (exact_at lines pattern) cs with
    | Some i => Some i
    | None =>
    match seek_pass (lenient_at trim_end lines pattern) cs with
    | Some i => Some i
    | None =>
    match seek_pass (lenient_at trim lines pattern) cs with
    | Some i => Some i
    | None => seek_pass (lenient_at normalise lines pattern) cs
    end end end.

(** * Matching up to a normalisation *)

Section matching.
Implicit Types (lines pattern : list str) (f g : str -> str).

Lemma exact_at_lenient lines pattern i :
  i + length pattern <= length lines ->
  exact_at lines pattern i = lenient_at id lines pattern i.
Proof.
  unfold exact_at. revert i. induction pattern as [|p pattern IH]; intros i Hi; cbn; [done|].
  cbn in Hi. destruct (lookup_lt_is_Some_2 lines i) as [l Hl]; [lia|].
  rewrite Hl, (drop_S _ _ _ Hl). cbn. rewrite <- IH by lia.
  apply eq_true_iff_eq. rewrite andb_true_iff, !bool_decide_eq_true. unfold id.
  split; [by intros [= -> ->] | by intros [-> ->]].
Qed.

(** The declarative content of a lenient match. *)
Lemma lenient_at_spec f lines pattern i :
  lenient_at f lines pattern i = true <->
  forall k p, pattern !! k = Some p -> exists l, lines !! (i + k) = Some l /\ f l = f p.
Proof.
  revert i. induction pattern as [|q pattern IH]; intros i; cbn.
  { split; [|done]. intros _ k p. by rewrite lookup_nil. }
  destruct (lines !! i) as [l|] eqn:Hl.
  - rewrite andb_true_iff, bool_decide_eq_true, IH. split.
    + intros [Hf Hrest] [|k] p; cbn.
      * intros [= <-]. rewrite Nat.add_0_r. eauto.
      * rewrite <- Nat.add_succ_comm. apply Hrest.
    + intros H. split.
      * destruct (H 0 q eq_refl) as (l' & Hl' & Hf). rewrite Nat.add_0_r in Hl'. congruence.
      * intros k p Hk. rewrite Nat.add_succ_comm. by apply H.
  - split; [done|]. intros H. destruct (H 0 q eq_refl) as (l & Hl' & _).
    rewrite Nat.add_0_r in Hl'. congruence.
Qed.

(** A coarser normalisation matches wherever a finer one does. *)
Lemma lenient_at_coarser f g lines pattern i :
  (forall a b, f a = f b -> g a = g b) ->
  lenient_at f lines pattern i = true -> lenient_at g lines pattern i = true.
Proof.
  intros Hfg. rewrite !lenient_at_spec. intros H k p Hk.
  destruct (H k p Hk) as (l & Hl & Hf). eauto.
Qed.

Lemma trim_end_coarser_id a b : id a = id b -> trim_end a = trim_end b.
Proof. unfold id. by intros ->. Qed.
Lemma trim_coarser_trim_end a b : trim_end a = trim_end b -> trim a = trim b.
Proof. intros H. by rewrite !trim_comm, H. Qed.
Lemma normalise_coarser_trim a b : trim a = trim b -> normalise a = normalise b.
Proof. unfold normalise. by intros ->. Qed.
End matching.

#[export] Hint Resolve trim_end_coarser_id trim_coarser_trim_end normalise_coarser_trim : motyga.

(** * Candidate positions *)

Lemma elem_of_range_incl a b i : In i (range_incl a b) <-> a <= i <= b.
Proof. unfold range_incl. rewrite in_seq. lia. Qed.

Lemma find_leftmost (test : nat -> bool) a n i :
  List.find test (seq a n) = Some i ->
  a <= i < a + n /\ test i = true /\ forall j, a <= j < i -> test j = false.
Proof.
  revert a. induction n as [|n IH]; intros a; cbn; [done|].
  destruct (test a) eqn:E.
  - intros [= <-]. repeat split; [lia..|done|]. lia.
  - intros (Hi & Ht & Hmin)%IH. repeat split; [lia..|done|]. intros j Hj.
    destruct (decide (j = a)) as [->|]; [done|]. apply Hmin. lia.
Qed.

Lemma find_nothing (test : nat -> bool) l :
  List.find test l = None <-> forall i, In i l -> test i = false.
Proof.
  split; [apply find_none|].
  induction l as [|x l IH]; cbn; [done|]. intros H. rewrite H by auto. auto.
Qed.

Section seek.
Context (lines pattern : list str) (start : nat) (eof : bool).
Local Abbreviation from := (search_start lines pattern start eof).
Local Abbreviation cs := (candidates lines pattern start eof).
Local Abbreviation seek := (seek_sequence lines pattern start eof).

Lemma candidates_fit i :
  length pattern <= length lines -> In i cs -> i + length pattern <= length lines.
Proof. unfold candidates. rewrite elem_of_range_incl. lia. Qed.

Lemma elem_of_candidates i :
  length pattern <= length lines ->
  In i cs <-> from <= i /\ i + length pattern <= length lines.
Proof. unfold candidates. rewrite elem_of_range_incl. lia. Qed.

(** Every line access of the passes is in range. *)
Lemma seek_accesses_in_range i k :
  length pattern <= length lines -> In i cs -> k < length pattern ->
  is_Some (lines !! (i + k)).
Proof. intros Hle Hi Hk. apply lookup_lt_is_Some_2. pose proof (candidates_fit i Hle Hi). lia. Qed.

Lemma exact_pass : length pattern <= length lines ->
  seek_pass (exact_at lines pattern) cs = seek_pass (lenient_at id lines pattern) cs.
Proof.
  intros Hle. unfold seek_pass.
  assert (forall l, (forall i, In i l -> In i cs) ->
    List.find (exact_at lines pattern) l = List.find (lenient_at id lines pattern) l) as H.
  { induction l as [|i l IH]; cbn; intros Hin; [done|].
    rewrite exact_at_lenient by (apply candidates_fit; auto).
    destruct (lenient_at _ _ _ _); [done|]. apply IH. auto. }
  by apply H.
Qed.

(** The passes, from the strictest to the most permissive. *)
Definition passes : list (str -> str) := [id; trim_end; trim; normalise].

(** The value of [seek_sequence] on a pattern that fits: the first pass that
    finds something decides. *)
Lemma seek_sequence_passes :
  pattern <> [] -> length pattern <= length lines ->
  seek = foldr (fun f rest =>
                  match seek_pass (lenient_at f lines pattern) cs with
                  | Some i => Some i
                  | None => rest
                  end) None passes.
Proof.
  intros Hne Hle. unfold seek_sequence. rewrite bool_decide_eq_false_2 by done.
  destruct (Nat.ltb_spec (length lines) (length pattern)); [lia|].
  cbn zeta. rewrite exact_pass by done. cbn [passes foldr].
  repeat case_match; congruence.
Qed.
End seek.

Lemma seek_pass_spec test lines pattern start eof i :
  length pattern <= length lines ->
  seek_pass test (candidates lines pattern start eof) = Some i ->
  (search_start lines pattern start eof <= i /\ i + length pattern <= length lines) /\
  test i = true /\
  forall j, search_start lines pattern start eof <= j < i -> test j = false.
Proof.
  intros Hle (Hi & Ht & Hmin)%find_leftmost. repeat split; [lia..|done|done].
Qed.

(** The passes grow: every pass matches wherever a stricter one does. *)
Lemma passes_normalise f lines pattern i :
  In f passes -> lenient_at f lines pattern i = true ->
  lenient_at normalise lines pattern i = true.
Proof.
  intros Hf. apply lenient_at_coarser. intros a b.
  cbn in Hf. destruct Hf as [<-|[<-|[<-|[<-|[]]]]]; auto with motyga.
Qed.

(** [seek_sequence] commits to the first pass that finds anything. *)
Lemma seek_commits lines pattern start eof i fs :
  foldr (fun f rest =>
           match seek_pass (lenient_at f lines pattern) (candidates lines pattern start eof) with
           | Some j => Some j
           | None => rest
           end) None fs = Some i ->
  exists pre f post, fs = pre ++ f :: post /\
    seek_pass (lenient_at f lines pattern) (candidates lines pattern start eof) = Some i /\
    forall g, In g pre ->
      seek_pass (lenient_at g lines pattern) (candidates lines pattern start eof) = None.
Proof.
  induction fs as [|f fs IH]; cbn [foldr]; [done|].
  destruct (seek_pass (lenient_at f lines pattern) _) as [j|] eqn:E.
  - intros [= <-]. exists [], f, fs. repeat split; [done|]. by intros g [].
  - intros (pre & g & post & -> & Hg & Hpre)%IH.
    exists (f :: pre), g, post. repeat split; [done|]. intros h [<-|Hh]; auto.
Qed.

Lemma seek_fits lines pattern start eof i :
  pattern <> [] -> seek_sequence lines pattern start eof = Some i ->
  length pattern <= length lines.
Proof.
  intros Hne. unfold seek_sequence. rewrite bool_decide_eq_false_2 by done.
  destruct (Nat.ltb_spec (length lines) (length pattern)); [done|lia].
Qed.

Lemma seek_strictest lines pattern start eof i :
  pattern <> [] -> seek_sequence lines pattern start eof = Some i ->
  exists pre f post, passes = pre ++ f :: post /\
    (search_start lines pattern start eof <= i /\ i + length pattern <= length lines) /\
    lenient_at f lines pattern i = true /\
    (forall j, search_start lines pattern start eof <= j < i ->
       lenient_at f lines pattern j = false) /\
    (forall g j, In g pre -> search_start lines pattern start eof <= j ->
       j + length pattern <= length lines -> lenient_at g lines pattern j = false).
Proof.
  intros Hne Hs. pose proof (seek_fits _ _ _ _ _ Hne Hs) as Hle.
  rewrite seek_sequence_passes in Hs by done.
  destruct (seek_commits _ _ _ _ _ _ Hs) as (pre & f & post & Hp & Hf & Hpre).
  destruct (seek_pass_spec _ _ _ _ _ _ Hle Hf) as (Hi & Ht & Hmin).
  exists pre, f, post. repeat split; [done|lia..|done|done|].
  intros g j Hg Hj Hj'. specialize (Hpre g Hg).
  unfold seek_pass in Hpre. rewrite find_nothing in Hpre. apply Hpre.
  by apply elem_of_candidates.
Qed.

Lemma seek_sound lines pattern start eof i :
  pattern <> [] -> seek_sequence lines pattern start eof = Some i ->
  search_start lines pattern start eof <= i /\ i + length pattern <= length lines /\
  lenient_at normalise lines pattern i = true.
Proof.
  intros Hne Hs.
  destruct (seek_strictest _ _ _ _ _ Hne Hs) as (pre & f & post & Hp & Hi & Hm & _ & _).
  repeat split; [lia..|]. apply (passes_normalise f); [|done].
  rewrite Hp. apply in_or_app. right. by left.
Qed.

Lemma search_start_eof lines pattern start :
  length pattern <= length lines ->
  search_start lines pattern start true = length lines - length pattern.
Proof.
  intros Hle. unfold search_start. cbn. by destruct (Nat.leb_spec (length pattern) (length lines)); [|lia].
Qed.

(** * Properties *)

(** A found index is a match inside the file: the whole pattern fits from
    that index on, at or after the position the search starts from, and each
    pattern line equals the file line it is laid on up to surrounding
    whitespace and typographic punctuation. *)
Theorem seek_sequence_finds_match lines pattern start eof i :
  pattern <> [] -> seek_sequence lines pattern start eof = Some i ->
  search_start lines pattern start eof <= i /\ i + length pattern <= length lines /\
  forall k p, pattern !! k = Some p ->
    exists l, lines !! (i + k) = Some l /\ normalise l = normalise p.
Proof. intros Hne Hs. rewrite <- lenient_at_spec. by apply (seek_sound _ _ start eof). Qed.

(** The answer is the leftmost position of the strictest pass that matches
    anywhere in the searched range: no stricter pass matches at any candidate
    position and no earlier candidate passes the same test. *)
Theorem seek_sequence_strictest_leftmost lines pattern start eof i :
  pattern <> [] -> seek_sequence lines pattern start eof = Some i ->
  exists pre f post, passes = pre ++ f :: post /\
    lenient_at f lines pattern i = true /\
    (forall j, search_start lines pattern start eof <= j < i ->
       lenient_at f lines pattern j = false) /\
    (forall g j, In g pre -> search_start lines pattern start eof <= j ->
       j + length pattern <= length lines -> lenient_at g lines pattern j = false).
Proof.
  intros Hne Hs. destruct (seek_strictest _ _ _ _ _ Hne Hs) as (pre & f & post & Hp & _ & H).
  by exists pre, f, post.
Qed.

(** The search fails exactly when no position of the searched range
    matches even after normalisation; the four passes lose no match. *)
Theorem seek_sequence_none_iff lines pattern start eof :
  pattern <> [] ->
  seek_sequence lines pattern start eof = None <->
  forall i, search_start lines pattern start eof <= i -> i + length pattern <= length lines ->
    lenient_at normalise lines pattern i = false.
Proof.
  intros Hne. destruct (decide (length pattern <= length lines)) as [Hle|Hgt].
  - rewrite seek_sequence_passes by done. cbn [passes foldr]. split.
    + intros H i Hi Hfit. repeat case_match; simplify_eq.
      match goal with H : seek_pass (lenient_at normalise _ _) _ = None |- _ =>
        unfold seek_pass in H; rewrite find_nothing in H; apply H end.
      by apply elem_of_candidates.
    + intros H.
      assert (forall f, In f passes ->
        seek_pass (lenient_at f lines pattern) (candidates lines pattern start eof) = None) as Hf.
      { intros f Hf. apply find_nothing. intros i Hi%elem_of_candidates; [|done].
        destruct (lenient_at f lines pattern i) eqn:E; [|done].
        apply passes_normalise in E; [|done]. by rewrite H in E by lia. }
      cbn in Hf. rewrite !Hf by auto. done.
  - split; [lia|]. intros _. unfold seek_sequence. rewrite bool_decide_eq_false_2 by done.
    by destruct (Nat.ltb_spec (length lines) (length pattern)); [|lia].
Qed.

(** With [eof] set the only position ever considered is the end of the
    file: a match is at [lines.len() - pattern.len()], whatever [start] is, and
    there is no fall back to a search from [start]. *)
Theorem seek_sequence_eof_only_at_end lines pattern start i :
  pattern <> [] -> seek_sequence lines pattern start true = Some i ->
  i = length lines - length pattern.
Proof.
  intros Hne Hs. pose proof (seek_fits _ _ _ _ _ Hne Hs) as Hle.
  pose proof (seek_sound _ _ _ _ _ Hne Hs) as (Hi & Hfit & _).
  rewrite search_start_eof in Hi by done. lia.
Qed.

(** * Witnesses *)

Definition w_lines : list str := lit <$> ["fn a() {"; "  x  "; "}"; "x"].

Lemma seek_sequence_finds_match_witness :
  exists l, w_lines !! 3 = Some l /\ normalise l = normalise (lit "x").
Proof.
  apply (seek_sequence_finds_match w_lines [lit "x"] 0 false 3) with (k := 0);
    [discriminate|vm_compute; reflexivity|reflexivity].
Defined.

Lemma seek_sequence_strictest_leftmost_witness :
  exists pre f post, passes = pre ++ f :: post /\ lenient_at f w_lines [lit "x"] 3 = true.
Proof.
  destruct (seek_sequence_strictest_leftmost w_lines [lit "x"] 0 false 3)
    as (pre & f & post & Hp & Hm & _); [discriminate|vm_compute; reflexivity|].
  by exists pre, f, post.
Defined.

Lemma seek_sequence_none_iff_witness :
  lenient_at normalise w_lines [lit "x"; lit "y"] 1 = false.
Proof.
  apply (seek_sequence_none_iff w_lines [lit "x"; lit "y"] 0 false);
    [discriminate|vm_compute; reflexivity|vm_compute; lia|vm_compute; lia].
Defined.

Lemma seek_sequence_eof_only_at_end_witness :
  3 = length w_lines - length [lit "x"] /\
  seek_sequence w_lines [lit "  x  "; lit "}"] 0 true = None.
Proof.
  split; [|reflexivity].
  apply (seek_sequence_eof_only_at_end w_lines [lit "x"] 0); [discriminate|vm_compute; reflexivity].
Defined.
