(* ===== verification/PatchSyntax.v ===== *)
(** The patch format of [apply-patch/src/parser.rs]: markers, hunks, parse
    errors and the boundary checks on the first and last lines. *)

From stdpp Require Import base list option numbers strings.
From Stdlib Require Import NArith Lia.
From S2P Require Import Prelude RustStr.
Local Open Scope rust_scope.

Definition BEGIN_PATCH_MARKER : str := lit "*** Begin Patch".
Definition END_PATCH_MARKER : str := lit "*** End Patch".
Definition ADD_FILE_MARKER : str := lit "*** Add File: ".
Definition DELETE_FILE_MARKER : str := lit "*** Delete File: ".
Definition UPDATE_FILE_MARKER : str := lit "*** Update File: ".
Definition MOVE_TO_MARKER : str := lit "*** Move to: ".
Definition EOF_MARKER : str := lit "*** End of File".
Definition CHANGE_CONTEXT_MARKER : str := lit "@@ ".
Definition EMPTY_CHANGE_CONTEXT_MARKER : str := lit "@@".

Definition PARSE_IN_STRICT_MODE : bool := false.

Inductive ParseError : Type :=
| InvalidPatchError (message : str)
| InvalidHunkError (message : str) (line_number : nat).

Record UpdateFileChunk : Type := {
  change_context : option str;
  old_lines : list str;
  new_lines : list str;
  is_end_of_file : bool
}.

(** Paths are kept as the text of the patch ([PathBuf::from] of a [&str]). *)
Inductive Hunk : Type :=
| AddFile (path : str) (contents : str)
| DeleteFile (path : str)
| UpdateFile (path : str) (move_path : option str) (chunks : list UpdateFileChunk).

#[global] Instance ParseError_eq_dec : EqDecision ParseError.
Proof. solve_decision. Defined.
#[global] Instance UpdateFileChunk_eq_dec : EqDecision UpdateFileChunk.
Proof. solve_decision. Defined.
#[global] Instance Hunk_eq_dec : EqDecision Hunk.
Proof. solve_decision. Defined.

(** [Hunk::path]: the affected path, the destination for a rename. *)
Definition hunk_path (h : Hunk) : str :=
  match h with
  | AddFile path _ => path
  | DeleteFile path => path
  | UpdateFile _ (Some path) _ => path
  | UpdateFile path None _ => path
  end.

(** The path [Hunk::resolve_path] joins to the working directory: the source
    of a rename. *)
Definition hunk_source_path (h : Hunk) : str :=
  match h with
  | UpdateFile path _ _ => path
  | AddFile _ _ | DeleteFile _ => hunk_path h
  end.

Record ApplyPatchArgs : Type := {
  patch : str;
  hunks : list Hunk;
  workdir : option str;
  environment_id : option str
}.

Inductive ParseMode : Type := Strict | Lenient.

(** * Boundary checks *)

Definition check_start_and_end_lines_strict (first_line last_line : option str)
  : result unit ParseError :=
  let first_line := trim <$> first_line in
  let last_line := trim <$> last_line in
  match first_line, last_line with
  | Some first, Some last =>
      if (first == BEGIN_PATCH_MARKER) && (last == END_PATCH_MARKER) then Ok tt
      else if first != BEGIN_PATCH_MARKER
      then Err (InvalidPatchError (lit "The first line of the patch must be '*** Begin Patch'"))
      else Err (InvalidPatchError (lit "The last line of the patch must be '*** End Patch'"))
  | Some first, None =>
      if first != BEGIN_PATCH_MARKER
      then Err (InvalidPatchError (lit "The first line of the patch must be '*** Begin Patch'"))
      else Err (InvalidPatchError (lit "The last line of the patch must be '*** End Patch'"))
  | None, _ => Err (InvalidPatchError (lit "The last line of the patch must be '*** End Patch'"))
  end.

Definition check_patch_boundaries_strict (ls : list str) : result (list str) ParseError :=
  let '(first_line, last_line) :=
    match ls with
    | [] => (None, None)
    | [first] => (Some first, Some first)
    | first :: _ => (Some first, last ls)
    end in
  let? _ := check_start_and_end_lines_strict first_line last_line in
  Ok ls.

(** [original_lines[1..len - 1]]. *)
Definition inner_lines (ls : list str) : list str := take (length ls - 2) (drop 1 ls).

Definition is_heredoc_open (l : str) : bool :=
  (l == lit "<<EOF") || (l == lit "<<'EOF'")
  || (l == lit "<<" ++ [QUOTE] ++ lit "EOF" ++ [QUOTE]).

Definition check_patch_boundaries_lenient (original_lines : list str)
  : result (list str) ParseError :=
  match check_patch_boundaries_strict original_lines with
  | Ok ls => Ok ls
  | Err original_parse_error =>
      match original_lines with
      | first :: _ :: _ =>
          if is_heredoc_open first
             && is_some_and (ends_with (lit "EOF")) (last original_lines)
             && (4 <=? length original_lines)
          then check_patch_boundaries_strict (inner_lines original_lines)
          else Err original_parse_error
      | _ => Err original_parse_error
      end
  end.
