(* ===== verification/StreamingParser.v ===== *)
(** The streaming patch parser of [apply-patch/src/streaming_parser.rs] and
    the text entry points of [parser.rs].

    The parser's state is a record updated in place by the Rust code; an
    operation returns the new state beside its result, so that what an error
    leaves behind is visible. *)

From stdpp Require Import base list option numbers strings.
From Stdlib Require Import NArith Lia.
From S2P Require Import Prelude RustStr PatchSyntax.
Local Open Scope rust_scope.

Definition ENVIRONMENT_ID_MARKER : str := lit "*** Environment ID:".

Module StreamingParserMode.
Inductive t : Type :=
| NotStarted
| StartedPatch
| AddFile
| DeleteFile
| UpdateFile (hunk_line_number : nat)
| EndedPatch.
End StreamingParserMode.
Module Mode := StreamingParserMode.

Record StreamingParserState : Type := {
  mode : Mode.t;
  st_hunks : list Hunk;
  st_environment_id : option str
}.

Record StreamingPatchParser : Type := {
  line_buffer : str;
  state : StreamingParserState;
  line_number : nat
}.

(** [StreamingPatchParser::default]. *)
Definition parser_default : StreamingPatchParser :=
  {| line_buffer := [];
     state := {| mode := Mode.NotStarted; st_hunks := []; st_environment_id := None |};
     line_number := 0 |}.

Definition set_state (p : StreamingPatchParser) (s : StreamingParserState) : StreamingPatchParser :=
  {| line_buffer := line_buffer p; state := s; line_number := line_number p |}.
Definition set_mode (p : StreamingPatchParser) (m : Mode.t) : StreamingPatchParser :=
  set_state p {| mode := m; st_hunks := st_hunks (state p);
                 st_environment_id := st_environment_id (state p) |}.
Definition set_hunks (p : StreamingPatchParser) (hs : list Hunk) : StreamingPatchParser :=
  set_state p {| mode := mode (state p); st_hunks := hs;
                 st_environment_id := st_environment_id (state p) |}.
Definition set_environment_id (p : StreamingPatchParser) (e : str) : StreamingPatchParser :=
  set_state p {| mode := mode (state p); st_hunks := st_hunks (state p);
                 st_environment_id := Some e |}.
(** [self.line_buffer] replaced and [self.line_number] incremented. *)
Definition next_line (p : StreamingPatchParser) : StreamingPatchParser :=
  {| line_buffer := []; state := state p; line_number := S (line_number p) |}.
Definition push_char (p : StreamingPatchParser) (c : char) : StreamingPatchParser :=
  {| line_buffer := line_buffer p ++ [c]; state := state p; line_number := line_number p |}.

(** * Error messages *)

Definition msg_header (trimmed : str) : str :=
  lit "'" ++ trimmed ++ lit "' is not a valid hunk header. Valid hunk headers: '*** Add File: {path}', '*** Delete File: {path}', '*** Update File: {path}'".
Definition msg_unexpected (line : str) : str :=
  lit "Unexpected line found in update hunk: '" ++ line ++ lit "'. Every line should start with ' ' (context line), '+' (added line), or '-' (removed line)".
Definition msg_expected_context (line : str) : str :=
  lit "Expected update hunk to start with a @@ context marker, got: '" ++ line ++ lit "'".
Definition msg_empty_update (path : str) : str :=
  lit "Update file hunk for path '" ++ path ++ lit "' is empty".
Definition msg_no_lines : str := lit "Update hunk does not contain any lines".
Definition msg_last_line : str := lit "The last line of the patch must be '*** End Patch'".
Definition msg_first_line : str := lit "The first line of the patch must be '*** Begin Patch'".

(** * Operations *)

Definition chunk_has_no_lines (c : UpdateFileChunk) : bool :=
  (old_lines c == []) && (new_lines c == []).

Definition ensure_update_hunk_is_not_empty (p : StreamingPatchParser) (line : str)
  : result unit ParseError :=
  match last (st_hunks (state p)) with
  | Some (UpdateFile path _ chunks) =>
      let check_last :=
        if is_some_and chunk_has_no_lines (last chunks) then
          if line == END_PATCH_MARKER then Err (InvalidHunkError msg_no_lines (line_number p))
          else Err (InvalidHunkError (msg_unexpected line) (line_number p))
        else Ok tt in
      match mode (state p) with
      | Mode.UpdateFile hunk_line_number =>
          if chunks == [] then Err (InvalidHunkError (msg_empty_update path) hunk_line_number)
          else check_last
      | _ => check_last
      end
  | _ => Ok tt
  end.

(** [Ok (Some p')] is [Ok(true)] with the updated parser, [Ok None] is
    [Ok(false)]. *)
Definition handle_hunk_headers_and_end_patch (p : StreamingPatchParser) (trimmed : str)
  : result (option StreamingPatchParser) ParseError :=
  let headers :=
    if trimmed == END_PATCH_MARKER then
      let? _ := ensure_update_hunk_is_not_empty p trimmed in
      Ok (Some (set_mode p Mode.EndedPatch))
    else
    match strip_prefix ADD_FILE_MARKER trimmed with
    | Some path =>
        let? _ := ensure_update_hunk_is_not_empty p trimmed in
        Ok (Some (set_mode (set_hunks p (st_hunks (state p) ++ [AddFile path []])) Mode.AddFile))
    | None =>
    match strip_prefix DELETE_FILE_MARKER trimmed with
    | Some path =>
        let? _ := ensure_update_hunk_is_not_empty p trimmed in
        Ok (Some (set_mode (set_hunks p (st_hunks (state p) ++ [DeleteFile path])) Mode.DeleteFile))
    | None =>
    match strip_prefix UPDATE_FILE_MARKER trimmed with
    | Some path =>
        let? _ := ensure_update_hunk_is_not_empty p trimmed in
        Ok (Some (set_mode (set_hunks p (st_hunks (state p) ++ [UpdateFile path None []]))
                           (Mode.UpdateFile (line_number p))))
    | None => Ok None
    end end end in
  match mode (state p), strip_prefix ENVIRONMENT_ID_MARKER trimmed with
  | Mode.StartedPatch, Some environment_id =>
      match st_environment_id (state p) with
      | Some _ => Err (InvalidPatchError
          (lit "apply_patch environment_id cannot be specified more than once"))
      | None =>
          let environment_id := trim environment_id in
          if environment_id == [] then
            Err (InvalidPatchError (lit "apply_patch environment_id cannot be empty"))
          else Ok (Some (set_environment_id p environment_id))
      end
  | _, _ => headers
  end.

Definition empty_chunk (ctx : option str) : UpdateFileChunk :=
  {| change_context := ctx; old_lines := []; new_lines := []; is_end_of_file := false |}.

(** [last_mut] followed by an in-place update. *)
Fixpoint update_last {A} (f : A -> A) (l : list A) : list A :=
  match l with
  | [] => []
  | [x] => [f x]
  | x :: l => x :: update_last f l
  end.

Definition chunk_push (old new : list str) (c : UpdateFileChunk) : UpdateFileChunk :=
  {| change_context := change_context c; old_lines := old_lines c ++ old;
     new_lines := new_lines c ++ new; is_end_of_file := is_end_of_file c |}.
Definition chunk_set_eof (c : UpdateFileChunk) : UpdateFileChunk :=
  {| change_context := change_context c; old_lines := old_lines c;
     new_lines := new_lines c; is_end_of_file := true |}.

(** Start a first chunk if there is none, then push lines to the last one. *)
Definition chunks_push (old new : list str) (chunks : list UpdateFileChunk) : list UpdateFileChunk :=
  update_last (chunk_push old new) (if chunks == [] then [empty_chunk None] else chunks).

Definition is_context_marker (update_line : str) : bool :=
  (update_line == EMPTY_CHANGE_CONTEXT_MARKER) || starts_with CHANGE_CONTEXT_MARKER update_line.

(** A line of an update hunk: the new move path and chunks. *)
Definition process_update_line (line : str) (n : nat) (move_path : option str)
    (chunks : list UpdateFileChunk) : result (option str * list UpdateFileChunk) ParseError :=
  let update_line := trim_end line in
  let last_empty := is_some_and chunk_has_no_lines (last chunks) in
  let body :=
    match (if (chunks == []) && (move_path == None) then strip_prefix MOVE_TO_MARKER update_line
           else None) with
    | Some move_to_path => Ok (Some move_to_path, chunks)
    | None =>
    if is_context_marker update_line && last_empty then
      Err (InvalidHunkError (msg_unexpected line) n)
    else if update_line == EMPTY_CHANGE_CONTEXT_MARKER then
      Ok (move_path, chunks ++ [empty_chunk None])
    else match strip_prefix CHANGE_CONTEXT_MARKER update_line with
    | Some change_context => Ok (move_path, chunks ++ [empty_chunk (Some change_context)])
    | None =>
    if update_line == EOF_MARKER then
      if last_empty then Err (InvalidHunkError msg_no_lines n)
      else Ok (move_path, update_last chunk_set_eof chunks)
    else match line with
    | [] => Ok (move_path, chunks_push [[]] [[]] chunks)
    | c :: rest =>
    if (c =? 32)%N then Ok (move_path, chunks_push [rest] [rest] chunks)
    else if (c =? 43)%N then Ok (move_path, chunks_push [] [rest] chunks)
    else if (c =? 45)%N then Ok (move_path, chunks_push [rest] [] chunks)
    else if is_some_and (fun c => negb (chunk_has_no_lines c)) (last chunks) then
      Err (InvalidHunkError (msg_expected_context line) n)
    else Err (InvalidHunkError (msg_unexpected line) n)
    end end end in
  if is_some_and is_end_of_file (last chunks) then
    if update_line == [] then Ok (move_path, chunks)
    else if negb (is_context_marker update_line) then
      Err (InvalidHunkError (msg_expected_context line) n)
    else body
  else body.

Definition process_line (p : StreamingPatchParser) (line : str)
  : result StreamingPatchParser ParseError :=
  let trimmed := trim line in
  match mode (state p) with
  | Mode.NotStarted =>
      if trimmed == BEGIN_PATCH_MARKER then Ok (set_mode p Mode.StartedPatch)
      else Err (InvalidPatchError msg_first_line)
  | Mode.StartedPatch =>
      let? handled := handle_hunk_headers_and_end_patch p trimmed in
      match handled with
      | Some p' => Ok p'
      | None => Err (InvalidHunkError (msg_header trimmed) (line_number p))
      end
  | Mode.AddFile =>
      let? handled := handle_hunk_headers_and_end_patch p trimmed in
      match handled with
      | Some p' => Ok p'
      | None =>
          match strip_prefix (lit "+") line, last (st_hunks (state p)) with
          | Some line_to_add, Some (AddFile _ _) =>
              Ok (set_hunks p (update_last (fun h =>
                    match h with
                    | AddFile path contents => AddFile path (contents ++ line_to_add ++ [NL])
                    | _ => h
                    end) (st_hunks (state p))))
          | _, _ => Err (InvalidHunkError (msg_header trimmed) (line_number p))
          end
      end
  | Mode.DeleteFile =>
      let? handled := handle_hunk_headers_and_end_patch p trimmed in
      match handled with
      | Some p' => Ok p'
      | None => Err (InvalidHunkError (msg_header trimmed) (line_number p))
      end
  | Mode.UpdateFile hunk_line_number =>
      let? handled := handle_hunk_headers_and_end_patch p (trim_end line) in
      match handled with
      | Some p' => Ok p'
      | None =>
          match last (st_hunks (state p)) with
          | Some (UpdateFile path move_path chunks) =>
              let? (move_path', chunks') :=
                process_update_line line (line_number p) move_path chunks in
              Ok (set_mode (set_hunks p (update_last (fun _ => UpdateFile path move_path' chunks')
                                                     (st_hunks (state p))))
                           (Mode.UpdateFile hunk_line_number))
          | _ => Err (InvalidHunkError (msg_unexpected line) (line_number p))
          end
      end
  | Mode.EndedPatch =>
      if trimmed == [] then Ok p else Err (InvalidPatchError msg_last_line)
  end.

(** [push_delta] on each character; the parser is left where an error struck. *)
Fixpoint push_chars (p : StreamingPatchParser) (delta : str)
  : StreamingPatchParser * result unit ParseError :=
  match delta with
  | [] => (p, Ok tt)
  | ch :: delta =>
      if (ch =? NL)%N then
        let line := strip_cr (line_buffer p) in
        let p1 := next_line p in
        match process_line p1 line with
        | Ok p2 => push_chars p2 delta
        | Err e => (p1, Err e)
        end
      else push_chars (push_char p ch) delta
  end.

Definition push_delta (p : StreamingPatchParser) (delta : str)
  : StreamingPatchParser * result (list Hunk) ParseError :=
  match push_chars p delta with
  | (p', Ok _) => (p', Ok (st_hunks (state p')))
  | (p', Err e) => (p', Err e)
  end.

Definition check_ended (p : StreamingPatchParser)
  : StreamingPatchParser * result (list Hunk) ParseError :=
  match mode (state p) with
  | Mode.EndedPatch => (p, Ok (st_hunks (state p)))
  | _ => (p, Err (InvalidPatchError msg_last_line))
  end.

Definition finish (p : StreamingPatchParser)
  : StreamingPatchParser * result (list Hunk) ParseError :=
  if line_buffer p == [] then check_ended p
  else
    let line := line_buffer p in
    let p1 := next_line p in
    if trim line == END_PATCH_MARKER then
      match ensure_update_hunk_is_not_empty p1 (trim line) with
      | Ok _ => check_ended (set_mode p1 Mode.EndedPatch)
      | Err e => (p1, Err e)
      end
    else
      match process_line p1 line with
      | Ok p2 => check_ended p2
      | Err e => (p1, Err e)
      end.

(** * Entry points of [parser.rs] *)

Definition parse_patch_text (text : str) (m : ParseMode) : result ApplyPatchArgs ParseError :=
  let ls := lines (trim text) in
  let? patch_lines :=
    match m with
    | Strict => check_patch_boundaries_strict ls
    | Lenient => check_patch_boundaries_lenient ls
    end in
  let patch := join [NL] patch_lines in
  let '(p1, r1) := push_delta parser_default patch in
  let? _ := r1 in
  let '(p2, r2) := finish p1 in
  let? hs := r2 in
  Ok {| patch := patch; hunks := hs; workdir := None;
        environment_id := st_environment_id (state p2) |}.

Definition parse_patch (text : str) : result ApplyPatchArgs ParseError :=
  parse_patch_text text (if PARSE_IN_STRICT_MODE then Strict else Lenient).

(** * Streaming *)

Lemma push_chars_app p a b :
  push_chars p (a ++ b) =
  match push_chars p a with
  | (p1, Ok _) => push_chars p1 b
  | (p1, Err e) => (p1, Err e)
  end.
Proof.
  revert p. induction a as [|c a IH]; intros p; cbn; [done|].
  destruct (c =? NL)%N; [|apply IH].
  destruct (process_line _ _); [apply IH|done].
Qed.

(** A stream of deltas fed one after the other, up to the first error. *)
Fixpoint push_deltas (p : StreamingPatchParser) (deltas : list str)
  : StreamingPatchParser * result (list Hunk) ParseError :=
  match deltas with
  | [] => (p, Ok (st_hunks (state p)))
  | d :: deltas =>
      match push_delta p d with
      | (p', Ok _) => push_deltas p' deltas
      | (p', Err e) => (p', Err e)
      end
  end.

(** * The state invariant *)

Definition chunk_ok (c : UpdateFileChunk) : Prop := old_lines c <> [] \/ new_lines c <> [].

(** A hunk the parser has closed: an update has chunks, each with lines. *)
Definition hunk_complete (h : Hunk) : Prop :=
  match h with
  | UpdateFile _ _ chunks => chunks <> [] /\ Forall chunk_ok chunks
  | AddFile _ contents => contents = [] \/ exists s, contents = s ++ [NL]
  | DeleteFile _ => True
  end.

(** Chunks of the update being read: only the last one may still be empty, and
    not once it is marked as the end of the file. *)
Definition chunks_open (cs : list UpdateFileChunk) : Prop :=
  forall pre c, cs = pre ++ [c] -> Forall chunk_ok pre /\ (is_end_of_file c = true -> chunk_ok c).

Inductive hunks_inv : Mode.t -> list Hunk -> Prop :=
| inv_not_started : hunks_inv Mode.NotStarted []
| inv_started : hunks_inv Mode.StartedPatch []
| inv_add pre path contents :
    Forall hunk_complete (pre ++ [AddFile path contents]) ->
    hunks_inv Mode.AddFile (pre ++ [AddFile path contents])
| inv_delete pre path :
    Forall hunk_complete pre -> hunks_inv Mode.DeleteFile (pre ++ [DeleteFile path])
| inv_update n pre path mv cs :
    Forall hunk_complete pre -> chunks_open cs ->
    hunks_inv (Mode.UpdateFile n) (pre ++ [UpdateFile path mv cs])
| inv_ended hs : Forall hunk_complete hs -> hunks_inv Mode.EndedPatch hs.

(** The header line of an open update hunk has been read. *)
Definition mode_line_ok (m : Mode.t) (n : nat) : Prop :=
  match m with Mode.UpdateFile k => 1 <= k <= n | _ => True end.

Definition parser_inv (p : StreamingPatchParser) : Prop :=
  hunks_inv (mode (state p)) (st_hunks (state p)) /\
  mode_line_ok (mode (state p)) (line_number p).

Definition error_line_ok (n : nat) (e : ParseError) : Prop :=
  match e with InvalidHunkError _ k => 1 <= k <= n | InvalidPatchError _ => True end.

Lemma update_last_snoc {A} (f : A -> A) l x : update_last f (l ++ [x]) = l ++ [f x].
Proof.
  induction l as [|y l IH]; [done|]. cbn [app].
  destruct (l ++ [x]) as [|z t] eqn:E; [by destruct l|].
  rewrite <- IH. done.
Qed.

Lemma chunk_has_no_lines_spec c : chunk_has_no_lines c = false <-> chunk_ok c.
Proof.
  unfold chunk_has_no_lines, chunk_ok.
  do 2 case_bool_decide; cbn; naive_solver.
Qed.

Lemma chunks_open_nil : chunks_open [].
Proof. by intros [|] ? [=]. Qed.

Lemma chunks_open_snoc pre c :
  chunks_open (pre ++ [c]) <-> Forall chunk_ok pre /\ (is_end_of_file c = true -> chunk_ok c).
Proof.
  split; [intros H; by apply H|].
  intros H pre' c' [-> ->]%app_inj_tail. done.
Qed.

(** Either there is no chunk yet, or all but the last have lines. *)
Lemma chunks_open_cases cs :
  chunks_open cs -> cs = [] \/ exists pre c, cs = pre ++ [c] /\ Forall chunk_ok pre.
Proof.
  destruct (list_snoc_inv cs) as [->|(pre & c & ->)]; [by left|].
  rewrite chunks_open_snoc. intros [H _]. eauto.
Qed.

(** Once the last chunk has lines, all have. *)
Lemma chunks_open_ok cs :
  chunks_open cs -> is_some_and chunk_has_no_lines (last cs) = false -> Forall chunk_ok cs.
Proof.
  intros [->|(pre & c & -> & Hpre)]%chunks_open_cases; [by constructor|].
  rewrite last_snoc. cbn. intros Hc%chunk_has_no_lines_spec.
  apply Forall_app. auto.
Qed.

Lemma chunks_push_open old new cs :
  old <> [] \/ new <> [] -> chunks_open cs -> chunks_open (chunks_push old new cs).
Proof.
  intros Hln Hcs.
  assert (forall pre c, Forall chunk_ok pre ->
    chunks_open (update_last (chunk_push old new) (pre ++ [c]))) as H.
  { intros pre c Hpre. rewrite update_last_snoc, chunks_open_snoc. split; [done|]. intros _.
    unfold chunk_ok. cbn. destruct Hln; [left|right]; intros [? ?]%app_eq_nil; done. }
  unfold chunks_push. case_bool_decide as Hd.
  - by apply (H []).
  - destruct (chunks_open_cases _ Hcs) as [->|(pre & c & -> & Hpre)]; [done|]. by apply H.
Qed.

Lemma chunks_open_start cs ctx : Forall chunk_ok cs -> chunks_open (cs ++ [empty_chunk ctx]).
Proof. intros H. by apply chunks_open_snoc. Qed.

Lemma chunks_open_eof cs :
  Forall chunk_ok cs -> chunks_open (update_last chunk_set_eof cs).
Proof.
  destruct (list_snoc_inv cs) as [->|(pre & c & ->)]; [intros _; apply chunks_open_nil|].
  rewrite update_last_snoc, Forall_app, Forall_singleton. intros [Hpre Hc].
  by apply chunks_open_snoc.
Qed.

#[export] Hint Resolve chunks_push_open chunks_open_start chunks_open_eof chunks_open_ok : motyga.

(** A new chunk is only started when the previous one has lines. *)
Lemma context_marker_after_lines u cs :
  is_context_marker u && is_some_and chunk_has_no_lines (last cs) = false ->
  (u == EMPTY_CHANGE_CONTEXT_MARKER) = true \/ is_Some (strip_prefix CHANGE_CONTEXT_MARKER u) ->
  is_some_and chunk_has_no_lines (last cs) = false.
Proof.
  intros H Hu. assert (is_context_marker u = true) as E; [|by rewrite E in H].
  unfold is_context_marker, starts_with. destruct Hu as [->|[r ->]]; [done|].
  by rewrite orb_true_r.
Qed.

Lemma process_update_line_open line n mv cs mv' cs' :
  chunks_open cs -> process_update_line line n mv cs = Ok (mv', cs') -> chunks_open cs'.
Proof.
  intros Hcs. unfold process_update_line.
  repeat case_match; intros [= <- <-]; auto with motyga;
    first [ apply chunks_push_open; [naive_solver|done]
          | eauto 6 using context_marker_after_lines with motyga ].
Qed.

Lemma process_update_line_error line n mv cs e :
  1 <= n -> process_update_line line n mv cs = Err e -> error_line_ok n e.
Proof.
  intros Hn. unfold process_update_line. repeat case_match; intros [= <-]; cbn; lia.
Qed.

Lemma hunks_inv_update_inv n hs :
  hunks_inv (Mode.UpdateFile n) hs ->
  exists pre path mv cs, hs = pre ++ [UpdateFile path mv cs] /\
    Forall hunk_complete pre /\ chunks_open cs.
Proof. inversion 1; subst; eauto 8. Qed.

Lemma hunks_inv_add_inv hs :
  hunks_inv Mode.AddFile hs ->
  exists pre path contents, hs = pre ++ [AddFile path contents] /\
    Forall hunk_complete (pre ++ [AddFile path contents]).
Proof. inversion 1; subst; eauto. Qed.

Lemma hunks_inv_start_inv hs : hunks_inv Mode.NotStarted hs -> hs = [].
Proof. by inversion 1. Qed.

(** Leaving a hunk through a header or the end marker closes it. *)
Lemma ensure_complete p line :
  parser_inv p -> ensure_update_hunk_is_not_empty p line = Ok tt ->
  Forall hunk_complete (st_hunks (state p)).
Proof.
  intros [Hinv _]. unfold ensure_update_hunk_is_not_empty.
  destruct Hinv as [| |pre path contents Hpre|pre path Hpre|n pre path mv cs Hpre Hcs|hs Hhs]; try done.
  - intros _. apply Forall_app. split; [done|]. by apply Forall_singleton.
  - rewrite last_snoc. intros Hens. apply Forall_app. split; [done|].
    apply Forall_singleton. cbn. revert Hens.
    case_bool_decide; [done|]. destruct (is_some_and _ _) eqn:E.
    + by case_bool_decide.
    + split; [done|]. by apply chunks_open_ok.
Qed.

Lemma ensure_error p line e :
  parser_inv p -> 1 <= line_number p ->
  ensure_update_hunk_is_not_empty p line = Err e -> error_line_ok (line_number p) e.
Proof.
  intros [_ Hm] Hn. unfold ensure_update_hunk_is_not_empty.
  repeat case_match; intros [= <-]; cbn in *; lia.
Qed.

Lemma ensure_unit p line u :
  ensure_update_hunk_is_not_empty p line = Ok u -> ensure_update_hunk_is_not_empty p line = Ok tt.
Proof. by destruct u. Qed.

Lemma handle_headers_inv p t p' :
  parser_inv p -> 1 <= line_number p ->
  handle_hunk_headers_and_end_patch p t = Ok (Some p') ->
  parser_inv p' /\ line_number p' = line_number p.
Proof.
  intros Hinv Hn. unfold handle_hunk_headers_and_end_patch.
  assert (forall e, Mode.StartedPatch = mode (state p) -> parser_inv (set_environment_id p e)) as Henv.
  { intros e Hm. destruct Hinv as [H1 H2]. split; cbn; [by rewrite <- Hm in *|by rewrite <- Hm]. }
  repeat case_match; intros [= <-]; (split; [|done]); try (by apply Henv);
    match goal with H : ensure_update_hunk_is_not_empty _ _ = Ok _ |- _ =>
      apply ensure_unit, (ensure_complete _ _ Hinv) in H end;
    (split; [cbn; constructor|]); cbn; auto using chunks_open_nil;
    rewrite ?Forall_app, ?Forall_singleton; cbn; auto.
Qed.

Lemma handle_headers_error p t e :
  parser_inv p -> 1 <= line_number p ->
  handle_hunk_headers_and_end_patch p t = Err e -> error_line_ok (line_number p) e.
Proof.
  intros Hinv Hn. unfold handle_hunk_headers_and_end_patch.
  repeat case_match; intros [= <-]; try done; eauto using ensure_error.
Qed.

Lemma process_line_inv p line p' :
  parser_inv p -> 1 <= line_number p -> process_line p line = Ok p' ->
  parser_inv p' /\ line_number p' = line_number p.
Proof.
  intros Hinv Hn. unfold process_line.
  destruct (mode (state p)) as [| | | |k|] eqn:Hm.
  - case_bool_decide; intros [= <-]. destruct Hinv as [Hh _]. rewrite Hm in Hh.
    apply hunks_inv_start_inv in Hh. split; [|done]. split; cbn; [rewrite Hh; constructor|done].
  - repeat case_match; intros [= <-]. eauto using handle_headers_inv.
  - destruct (handle_hunk_headers_and_end_patch p (trim line)) as [[q|]|e] eqn:E; [|clear E|done].
    + intros [= <-]. eauto using handle_headers_inv.
    + destruct (strip_prefix _ line) as [l|]; [|done].
      destruct Hinv as [Hh _]. rewrite Hm in Hh.
      destruct (hunks_inv_add_inv _ Hh) as (pre & path & c & Hz & Hc).
      rewrite Hz, last_snoc, update_last_snoc. intros [= <-]. split; [|done].
      split; cbn; rewrite Hm; [|done]. constructor.
      rewrite Forall_app, Forall_singleton in *. destruct Hc as [Hc _].
      split; [done|]. right. exists (c ++ l). by rewrite app_assoc.
  - repeat case_match; intros [= <-]. eauto using handle_headers_inv.
  - destruct (handle_hunk_headers_and_end_patch p (trim_end line)) as [[q|]|e] eqn:E; [|clear E|done].
    + intros [= <-]. eauto using handle_headers_inv.
    + destruct Hinv as [Hh Hk]. rewrite Hm in Hh, Hk.
      destruct (hunks_inv_update_inv _ _ Hh) as (pre & path & mv & cs & Hz & Hpre & Hcs).
      rewrite Hz, last_snoc.
      destruct (process_update_line line (line_number p) mv cs) as [[mv' cs']|e] eqn:Hu; [|done].
      rewrite update_last_snoc.
      intros [= <-]. split; [|done]. split; cbn; [|done].
      constructor; [done|]. by eapply process_update_line_open.
  - case_bool_decide; intros [= <-]. done.
Qed.

Lemma process_line_error p line e :
  parser_inv p -> 1 <= line_number p -> process_line p line = Err e ->
  error_line_ok (line_number p) e.
Proof.
  intros Hinv Hn. unfold process_line.
  repeat case_match; intros [= <-]; cbn; try lia; try done;
    eauto using handle_headers_error, process_update_line_error.
Qed.

Lemma next_line_inv p : parser_inv p -> parser_inv (next_line p).
Proof.
  intros [H1 H2]. split; [done|]. cbn. destruct (mode (state p)); cbn in *; lia || done.
Qed.

Lemma push_char_inv p c : parser_inv p -> parser_inv (push_char p c).
Proof. done. Qed.

Lemma parser_default_inv : parser_inv parser_default.
Proof. split; [constructor|done]. Qed.

#[export] Hint Resolve next_line_inv push_char_inv parser_default_inv : motyga.

(** One delta keeps the invariant whether it is accepted or not, numbers at
    most one line per newline, and only ever blames a line it has numbered. *)
Lemma push_chars_inv p delta p' r :
  parser_inv p -> push_chars p delta = (p', r) ->
  parser_inv p' /\ line_number p' <= line_number p + count_char NL delta /\
  match r with Ok _ => True | Err e => error_line_ok (line_number p') e end.
Proof.
  revert p. induction delta as [|c delta IH]; intros p Hp; cbn.
  { intros [= <- <-]. split_and!; [done|lia|done]. }
  destruct (c =? NL)%N.
  - assert (parser_inv (next_line p)) as Hp1 by auto with motyga.
    destruct (process_line (next_line p) _) as [p2|e] eqn:E.
    + apply process_line_inv in E as [Hp2 Hl]; [|done|cbn; lia].
      intros (H1 & H2 & H3)%IH; [|done]. split_and!; [done| |done].
      cbn in Hl. lia.
    + intros [= <- <-]. split_and!; [done|cbn; lia|].
      apply process_line_error in E; [done..|cbn; lia].
  - intros (H1 & H2 & H3)%IH; [done|auto with motyga].
Qed.

Lemma finish_inv p p' r :
  parser_inv p -> finish p = (p', r) ->
  parser_inv p' /\
  match r with
  | Ok hs => hs = st_hunks (state p') /\ Forall hunk_complete hs
  | Err e => error_line_ok (S (line_number p)) e
  end.
Proof.
  assert (forall q, parser_inv q -> check_ended q = (p', r) ->
    parser_inv p' /\ match r with
      | Ok hs => hs = st_hunks (state p') /\ Forall hunk_complete hs
      | Err e => error_line_ok (S (line_number p)) e end) as Hend.
  { intros q Hq. unfold check_ended.
    destruct (mode (state q)) eqn:Hm; intros [= <- <-]; split; cbn; try done.
    split; [done|]. destruct Hq as [Hh _]. rewrite Hm in Hh. by inversion Hh. }
  intros Hp. unfold finish. case_bool_decide; [by apply Hend|].
  assert (parser_inv (next_line p)) as Hp1 by auto with motyga.
  case_bool_decide.
  - destruct (ensure_update_hunk_is_not_empty _ _) as [[]|e] eqn:E.
    + apply Hend. split; [|done]. cbn. constructor. by eapply (ensure_complete (next_line p)).
    + intros [= <- <-]. split; [done|]. by apply (ensure_error (next_line p)) in E; [|done|cbn; lia].
  - destruct (process_line (next_line p) _) as [p2|e] eqn:E.
    + apply Hend. apply process_line_inv in E as [? _]; [done..|cbn; lia].
    + intros [= <- <-]. split; [done|]. by apply process_line_error in E; [|done|cbn; lia].
Qed.

Lemma push_delta_chars p delta :
  push_delta p delta =
  match push_chars p delta with
  | (p', Ok _) => (p', Ok (st_hunks (state p')))
  | (p', Err e) => (p', Err e)
  end.
Proof. done. Qed.

Lemma strict_boundaries_id ls ls' : check_patch_boundaries_strict ls = Ok ls' -> ls' = ls /\ ls <> [].
Proof.
  unfold check_patch_boundaries_strict. destruct ls as [|f rest]; [done|].
  repeat case_match; intros [= <-]; done.
Qed.

Lemma inner_lines_length ls : length (inner_lines ls) <= length ls.
Proof. unfold inner_lines. rewrite length_take, length_drop. lia. Qed.

Lemma inner_lines_sub (P : str -> Prop) ls : Forall P ls -> Forall P (inner_lines ls).
Proof. intros H. unfold inner_lines. by apply Forall_take, Forall_drop. Qed.

(** The lines handed to the parser: some lines of the trimmed text, none of
    them containing a newline. *)
Lemma boundaries_lines ls ls' m :
  match m with
  | Strict => check_patch_boundaries_strict ls
  | Lenient => check_patch_boundaries_lenient ls
  end = Ok ls' ->
  ls' <> [] /\ length ls' <= length ls /\
  (Forall (fun l => NL ∉ l) ls -> Forall (fun l => NL ∉ l) ls').
Proof.
  destruct m.
  - intros [-> ?]%strict_boundaries_id. auto.
  - unfold check_patch_boundaries_lenient.
    destruct (check_patch_boundaries_strict ls) as [ls1|e] eqn:E.
    + intros [= <-]. apply strict_boundaries_id in E as [-> ?]. auto.
    + repeat case_match; try done; intros [-> ?]%strict_boundaries_id;
        auto using inner_lines_length, inner_lines_sub.
Qed.

(** How a whole text is parsed once its boundary lines are found. *)
Lemma parse_patch_text_inv text m r :
  parse_patch_text text m = r ->
  (exists msg, r = Err (InvalidPatchError msg)) \/
  exists ls, ls <> [] /\ length ls <= length (lines (trim text)) /\
    Forall (fun l => NL ∉ l) ls /\
    exists p1 r1, push_chars parser_default (join [NL] ls) = (p1, r1) /\
    match r1 with
    | Err e => r = Err e
    | Ok _ => exists p2 r2, finish p1 = (p2, r2) /\
        match r2 with
        | Err e => r = Err e
        | Ok hs => r = Ok {| patch := join [NL] ls; hunks := hs; workdir := None;
                             environment_id := st_environment_id (state p2) |}
        end
    end.
Proof.
  intros <-. unfold parse_patch_text.
  destruct (match m with Strict => _ | Lenient => _ end) as [ls|e] eqn:E.
  - right. exists ls. apply boundaries_lines in E as (H1 & H2 & H3).
    split_and!; [done|done|by apply H3, lines_no_newline|].
    rewrite push_delta_chars. destruct (push_chars _ _) as [p1 [[]|e]] eqn:E1.
    + eexists _, _. split; [done|]. exists (fst (finish p1)), (snd (finish p1)).
      by destruct (finish p1) as [p2 [hs|e]].
    + by eexists _, _.
  - left. revert E. destruct m; unfold check_patch_boundaries_lenient, check_patch_boundaries_strict,
      check_start_and_end_lines_strict; repeat case_match; intros [= <-]; simplify_eq; eauto.
Qed.

(** * Properties *)

(** Streaming is chunk-insensitive.  Feeding a text in any sequence of
    deltas, from any parser state, ends in the same parser (buffer, line number,
    hunks) and the same result, error included, as feeding it at once. *)
Theorem push_deltas_concat p deltas : push_deltas p deltas = push_delta p (concat deltas).
Proof.
  revert p. induction deltas as [|d ds IH]; intros p; [done|].
  cbn [push_deltas concat]. rewrite !push_delta_chars, push_chars_app.
  destruct (push_chars p d) as [p1 [[]|e]]; [|done]. by rewrite IH, push_delta_chars.
Qed.

(** The parser's state invariant holds after any stream of deltas, accepted
    or not: the mode agrees with the last hunk, every earlier hunk is complete,
    and of an update being read only the last chunk may be without lines. *)
Theorem push_deltas_invariant deltas p r :
  push_deltas parser_default deltas = (p, r) -> parser_inv p.
Proof.
  rewrite push_deltas_concat, push_delta_chars.
  destruct (push_chars parser_default (concat deltas)) as [q [[]|e]] eqn:E; intros [= <- _];
    by eapply push_chars_inv in E as [? _]; [|apply parser_default_inv].
Qed.

(** A patch that parses has only complete hunks: every update hunk has at
    least one chunk, every chunk has a line to remove, keep or add, and the
    contents of an added file are empty or end with a newline. *)
Theorem parse_patch_hunks_complete text args :
  parse_patch text = Ok args -> Forall hunk_complete (hunks args).
Proof.
  intros H. apply parse_patch_text_inv in H as [[msg ?]|(ls & _ & _ & _ & p1 & r1 & E1 & H)]; [done|].
  destruct r1; [|done]. destruct H as (p2 & r2 & E2 & H). destruct r2 as [hs|]; [|done].
  injection H as ->. cbn.
  apply push_chars_inv in E1 as [Hp1 _]; [|apply parser_default_inv].
  by apply finish_inv in E2 as (_ & _ & ?).
Qed.

(** The line an invalid-hunk error blames is a line of the (trimmed) patch
    text, counted from 1. *)
Theorem parse_patch_error_line_in_text text msg n :
  parse_patch text = Err (InvalidHunkError msg n) -> 1 <= n <= length (lines (trim text)).
Proof.
  intros H.
  apply parse_patch_text_inv in H as [[m ?]|(ls & Hne & Hlen & Hnl & p1 & r1 & E1 & H)]; [done|].
  pose proof (push_chars_inv _ _ _ _ parser_default_inv E1) as (Hp1 & Hn & He).
  rewrite count_char_join in Hn by done. cbn in Hn.
  assert (length ls <> 0) by (by destruct ls).
  destruct r1 as [[]|e].
  - destruct H as (p2 & r2 & E2 & H). apply finish_inv in E2 as [_ Hr]; [|done].
    destruct r2 as [hs|e]; [done|]. injection H as <-. cbn in Hr. lia.
  - injection H as <-. cbn in He. lia.
Qed.

(** * Witnesses *)

Definition w_text (ls : list string) : str := join [NL] (lit <$> ls).

Definition w_patch : str :=
  w_text ["*** Begin Patch"; "*** Add File: a.txt"; "+abc"; "*** Update File: b.txt";
          "@@ def f():"; "-old"; "+new"; "*** End of File"; "*** End Patch"].

Definition w_bad_patch : str :=
  w_text ["*** Begin Patch"; "*** Update File: b.txt"; "*** End Patch"].

Lemma push_deltas_invariant_witness :
  parser_inv (fst (push_deltas parser_default [w_patch; [NL]])).
Proof.
  apply (push_deltas_invariant [w_patch; [NL]] _ (snd (push_deltas parser_default [w_patch; [NL]]))).
  vm_compute. reflexivity.
Defined.

Lemma parse_patch_hunks_complete_witness :
  exists args, parse_patch w_patch = Ok args /\ length (hunks args) = 2 /\
    Forall hunk_complete (hunks args).
Proof.
  destruct (parse_patch w_patch) as [args|e] eqn:E; [|vm_compute in E; discriminate E].
  exists args. split; [reflexivity|]. split.
  - assert (E' : Ok args = parse_patch w_patch) by (symmetry; exact E).
    vm_compute in E'. injection E' as ->. reflexivity.
  - exact (parse_patch_hunks_complete w_patch args E).
Defined.

Lemma parse_patch_error_line_in_text_witness : 1 <= 2 <= length (lines (trim w_bad_patch)).
Proof.
  apply (parse_patch_error_line_in_text w_bad_patch (msg_empty_update (lit "b.txt"))).
  vm_compute. reflexivity.
Defined.
