(* ===== verification/PatchRoundTrip.v ===== *)
(** Printing and re-parsing patches.

    [render_patch] writes hunks in the grammar documented at the top of
    [apply-patch/src/parser.rs]; the round-trip theorem says that parsing what
    it writes gives the hunks back, so the parser of [StreamingParser]
    implements that grammar. *)

From stdpp Require Import base list option numbers strings.
From Stdlib Require Import NArith Lia.
From S2P Require Import Prelude RustStr PatchSyntax StreamingParser.
Local Open Scope rust_scope.

(** * The grammar as a printer *)

Definition render_chunk (c : UpdateFileChunk) : list str :=
  (match change_context c with
   | None => EMPTY_CHANGE_CONTEXT_MARKER
   | Some ctx => CHANGE_CONTEXT_MARKER ++ ctx
   end)
  :: (cons 45%N <$> old_lines c) ++ (cons 43%N <$> new_lines c)
  ++ (if is_end_of_file c then [EOF_MARKER] else []).

(** The newline-terminated lines of a text. *)
Definition content_lines (contents : str) : list str := removelast (split_on NL contents).

Definition render_hunk (h : Hunk) : list str :=
  match h with
  | AddFile path contents =>
      (ADD_FILE_MARKER ++ path) :: (cons 43%N <$> content_lines contents)
  | DeleteFile path => [DELETE_FILE_MARKER ++ path]
  | UpdateFile path mv chunks =>
      (UPDATE_FILE_MARKER ++ path)
      :: (match mv with Some d => [MOVE_TO_MARKER ++ d] | None => [] end)
      ++ concat (render_chunk <$> chunks)
  end.

Definition render_environment (env : option str) : list str :=
  match env with Some e => [ENVIRONMENT_ID_MARKER ++ [32%N] ++ e] | None => [] end.

Definition render_lines (env : option str) (hs : list Hunk) : list str :=
  BEGIN_PATCH_MARKER :: render_environment env ++ concat (render_hunk <$> hs).

Definition render_patch (env : option str) (hs : list Hunk) : str :=
  join [NL] (render_lines env hs ++ [END_PATCH_MARKER]).

(** * Printable hunks *)

(** Text that survives at the end of a header line. *)
Definition name_ok (s : str) : Prop :=
  (NL ∉ s) /\ exists t c, s = t ++ [c] /\ is_whitespace c = false.

(** A line of a file: no line ending inside. *)
Definition line_ok (l : str) : Prop := (NL ∉ l) /\ last l <> Some CR.

Definition chunk_printable (c : UpdateFileChunk) : Prop :=
  chunk_ok c /\ from_option name_ok True (change_context c) /\
  Forall line_ok (old_lines c) /\ Forall line_ok (new_lines c).

Definition hunk_printable (h : Hunk) : Prop :=
  hunk_complete h /\
  match h with
  | AddFile path contents => name_ok path /\ Forall line_ok (content_lines contents)
  | DeleteFile path => name_ok path
  | UpdateFile path mv chunks =>
      name_ok path /\ from_option name_ok True mv /\ Forall chunk_printable chunks
  end.

Definition environment_printable (env : option str) : Prop :=
  from_option (fun e => name_ok e /\ trim e = e) True env.

(** * Parsing line by line *)

(** A parser between two lines. *)
Definition mk (m : Mode.t) (hs : list Hunk) (env : option str) (n : nat) : StreamingPatchParser :=
  {| line_buffer := [];
     state := {| mode := m; st_hunks := hs; st_environment_id := env |};
     line_number := n |}.

Fixpoint process_lines (p : StreamingPatchParser) (ls : list str)
  : result StreamingPatchParser ParseError :=
  match ls with
  | [] => Ok p
  | l :: ls => let? p1 := process_line (next_line p) l in process_lines p1 ls
  end.

Lemma process_lines_app p a b :
  process_lines p (a ++ b) = (let? p1 := process_lines p a in process_lines p1 b).
Proof.
  revert p. induction a as [|l a IH]; intros p; cbn; [done|].
  destruct (process_line _ _); [apply IH|done].
Qed.

Lemma next_line_mk m hs env n : next_line (mk m hs env n) = mk m hs env (S n).
Proof. done. Qed.

Lemma push_chars_no_newline p l rest :
  NL ∉ l ->
  push_chars p (l ++ rest) =
  push_chars {| line_buffer := line_buffer p ++ l; state := state p; line_number := line_number p |} rest.
Proof.
  revert p. induction l as [|c l IH]; intros p Hl; cbn.
  - rewrite app_nil_r. by destruct p.
  - apply not_elem_of_cons in Hl as [Hc Hl]. destruct (N.eqb_spec c NL); [congruence|].
    rewrite IH by done. cbn. by rewrite <- app_assoc.
Qed.

Lemma push_chars_line m hs env n l rest :
  line_ok l ->
  push_chars (mk m hs env n) (l ++ NL :: rest) =
  match process_line (mk m hs env (S n)) l with
  | Ok p => push_chars p rest
  | Err e => (mk m hs env (S n), Err e)
  end.
Proof.
  intros [Hl Hcr]. rewrite push_chars_no_newline by done.
  cbn. by rewrite strip_cr_id by done.
Qed.

Lemma handle_headers_buffer p t p' :
  handle_hunk_headers_and_end_patch p t = Ok (Some p') -> line_buffer p' = line_buffer p.
Proof. unfold handle_hunk_headers_and_end_patch. repeat case_match; by intros [= <-]. Qed.

Lemma process_line_buffer p l p' : process_line p l = Ok p' -> line_buffer p' = line_buffer p.
Proof.
  unfold process_line. repeat case_match; intros [= <-]; eauto using handle_headers_buffer.
Qed.

(** Lines parsed one by one are what [push_delta] sees in their join. *)
Lemma push_chars_lines m hs env n ls m' hs' env' n' rest :
  Forall line_ok ls ->
  process_lines (mk m hs env n) ls = Ok (mk m' hs' env' n') ->
  push_chars (mk m hs env n) (concat ((fun l => l ++ [NL]) <$> ls) ++ rest)
  = push_chars (mk m' hs' env' n') rest.
Proof.
  intros Hls Hp. revert m hs env n Hp. induction Hls as [|l ls Hl _ IH]; intros m hs env n Hp.
  { cbn in Hp. by injection Hp as -> -> -> ->. }
  cbn in Hp |- *. rewrite next_line_mk in Hp. rewrite <- !app_assoc.
  cbn [app]. rewrite push_chars_line by done.
  destruct (process_line _ _) as [q|e] eqn:E; [|done].
  pose proof (process_line_buffer _ _ _ E) as Hq.
  destruct q as [b [m1 hs1 env1] n1]. cbn in Hq. subst b. by apply IH.
Qed.

(** * Header lines *)

(** A line that trimming leaves alone. *)
Definition tidy (h : str) : Prop := trim h = h /\ trim_end h = h.

Lemma trim_end_name s : (exists t c, s = t ++ [c] /\ is_whitespace c = false) -> trim_end s = s.
Proof. intros (t & c & -> & Hc). by apply trim_end_snoc. Qed.

Lemma tidy_marker c marker s :
  is_whitespace c = false -> name_ok s -> tidy ((c :: marker) ++ s).
Proof.
  intros Hc [_ (t & d & -> & Hd)]. rewrite app_assoc.
  assert (trim_end (((c :: marker) ++ t) ++ [d]) = ((c :: marker) ++ t) ++ [d]) as E
    by by apply trim_end_snoc.
  split; [|done]. rewrite trim_comm, E. unfold trim_start. cbn. by rewrite Hc.
Qed.

(** The modes in which hunk headers are recognised. *)
Definition reading (m : Mode.t) : Prop :=
  match m with Mode.NotStarted | Mode.EndedPatch => False | _ => True end.

Lemma process_line_header m hs env n h p' :
  reading m -> tidy h ->
  handle_hunk_headers_and_end_patch (mk m hs env n) h = Ok (Some p') ->
  process_line (mk m hs env n) h = Ok p'.
Proof.
  intros Hm [H1 H2] Hh. unfold process_line.
  destruct m; try done; cbn [mode state mk]; rewrite ?H1, ?H2, Hh; done.
Qed.

(** Closing the previous hunk succeeds when it is complete. *)
Lemma ensure_of_complete m hs env n l :
  Forall hunk_complete hs -> ensure_update_hunk_is_not_empty (mk m hs env n) l = Ok tt.
Proof.
  intros Hhs. unfold ensure_update_hunk_is_not_empty. cbn [state st_hunks mk].
  destruct (list_snoc_inv hs) as [->|(pre & h & ->)]; [done|].
  rewrite last_snoc. apply Forall_app in Hhs as [_ Hh%Forall_singleton_1].
  destruct h as [| |path mv cs]; try done. destruct Hh as [Hne Hcs].
  rewrite (bool_decide_eq_false_2 (cs = [])) by done.
  destruct (list_snoc_inv cs) as [->|(cpre & c & ->)]; [done|].
  rewrite last_snoc. apply Forall_app in Hcs as [_ Hc%Forall_singleton_1].
  apply chunk_has_no_lines_spec in Hc. cbn. rewrite Hc. by destruct m.
Qed.

Section headers.
Context (m : Mode.t) (hs : list Hunk) (env : option str) (n : nat).
Context (Hm : reading m) (Hhs : Forall hunk_complete hs).

Ltac header :=
  intros Hname; apply process_line_header; [done|by apply tidy_marker|];
  unfold handle_hunk_headers_and_end_patch; rewrite ensure_of_complete by done;
  rewrite bool_decide_eq_false_2 by (intros [=]; done);
  cbn; destruct m; try done; cbn; by rewrite strip_prefix_app.

Lemma process_add_header path :
  name_ok path ->
  process_line (mk m hs env n) (ADD_FILE_MARKER ++ path)
  = Ok (mk Mode.AddFile (hs ++ [AddFile path []]) env n).
Proof using Hm Hhs. header. Qed.

Lemma process_delete_header path :
  name_ok path ->
  process_line (mk m hs env n) (DELETE_FILE_MARKER ++ path)
  = Ok (mk Mode.DeleteFile (hs ++ [DeleteFile path]) env n).
Proof using Hm Hhs. header. Qed.

Lemma process_update_header path :
  name_ok path ->
  process_line (mk m hs env n) (UPDATE_FILE_MARKER ++ path)
  = Ok (mk (Mode.UpdateFile n) (hs ++ [UpdateFile path None []]) env n).
Proof using Hm Hhs. header. Qed.
End headers.

Lemma process_environment_line e n :
  name_ok e -> trim e = e ->
  process_line (mk Mode.StartedPatch [] None n) (ENVIRONMENT_ID_MARKER ++ [32%N] ++ e)
  = Ok (mk Mode.StartedPatch [] (Some e) n).
Proof.
  intros He Ht. apply process_line_header; [done| |].
  { apply (tidy_marker 42%N (tail ENVIRONMENT_ID_MARKER ++ [32%N])) in He; [|done]. apply He. }
  unfold handle_hunk_headers_and_end_patch. rewrite strip_prefix_app.
  cbn [mode state mk st_environment_id].
  assert (trim ([32%N] ++ e) = e) as -> by (by rewrite <- Ht at 2).
  rewrite bool_decide_eq_false_2; [done|]. intros ->.
  by destruct He as [_ (t & c & H & _)]; destruct t.
Qed.

(** * Body lines *)

(** No header starts with anything but a star. *)
Lemma handle_headers_other m hs env n c l :
  c <> 42%N -> handle_hunk_headers_and_end_patch (mk m hs env n) (c :: l) = Ok None.
Proof.
  intros Hc. unfold handle_hunk_headers_and_end_patch.
  rewrite bool_decide_eq_false_2 by (intros [= H _]; by rewrite H in Hc).
  assert (forall mk, strip_prefix (42%N :: mk) (c :: l) = None) as Hp.
  { intros mk. cbn [strip_prefix]. by destruct (N.eqb_spec 42 c); [congruence|]. }
  change ENVIRONMENT_ID_MARKER with (42%N :: tail ENVIRONMENT_ID_MARKER).
  change ADD_FILE_MARKER with (42%N :: tail ADD_FILE_MARKER).
  change DELETE_FILE_MARKER with (42%N :: tail DELETE_FILE_MARKER).
  change UPDATE_FILE_MARKER with (42%N :: tail UPDATE_FILE_MARKER).
  rewrite !Hp. by destruct m.
Qed.

Lemma trim_end_cons c l : is_whitespace c = false -> trim_end (c :: l) = c :: trim_end l.
Proof.
  intros Hc. unfold trim_end. rewrite reverse_cons.
  destruct (drop_while is_whitespace (reverse l)) as [|d t] eqn:E.
  - apply drop_while_nil in E. rewrite drop_while_all, drop_while_keep by done. done.
  - rewrite drop_while_app by by rewrite E. rewrite E, reverse_snoc. done.
Qed.

Lemma trim_cons c l : is_whitespace c = false -> trim (c :: l) = c :: trim_end l.
Proof. intros Hc. rewrite trim_comm, trim_end_cons by done. by apply drop_while_keep. Qed.

Lemma process_add_line pre path c env n l :
  process_line (mk Mode.AddFile (pre ++ [AddFile path c]) env n) (43%N :: l)
  = Ok (mk Mode.AddFile (pre ++ [AddFile path (c ++ l ++ [NL])]) env n).
Proof.
  unfold process_line. cbn [mode state mk]. rewrite trim_cons by done.
  rewrite handle_headers_other by done.
  change (43%N :: l) with (lit "+" ++ l). rewrite strip_prefix_app.
  cbn [st_hunks state mk]. rewrite last_snoc, update_last_snoc. done.
Qed.

Lemma process_add_lines pre path c env n ls :
  process_lines (mk Mode.AddFile (pre ++ [AddFile path c]) env n) (cons 43%N <$> ls)
  = Ok (mk Mode.AddFile (pre ++ [AddFile path (c ++ concat ((fun l => l ++ [NL]) <$> ls))]) env
           (length ls + n)).
Proof.
  revert c n. induction ls as [|l ls IH]; intros c n; cbn [fmap list_fmap process_lines concat].
  - by rewrite app_nil_r.
  - rewrite next_line_mk, process_add_line, IH. cbn [length].
    by rewrite <- app_assoc, Nat.add_succ_r.
Qed.

(** A line of an update hunk that is not a header. *)
Lemma process_line_update k pre path mv cs env n line mv' cs' :
  handle_hunk_headers_and_end_patch (mk (Mode.UpdateFile k) (pre ++ [UpdateFile path mv cs]) env n)
    (trim_end line) = Ok None ->
  process_update_line line n mv cs = Ok (mv', cs') ->
  process_line (mk (Mode.UpdateFile k) (pre ++ [UpdateFile path mv cs]) env n) line
  = Ok (mk (Mode.UpdateFile k) (pre ++ [UpdateFile path mv' cs']) env n).
Proof.
  intros Hh Hu. unfold process_line. cbn [mode state mk]. rewrite Hh.
  cbn [st_hunks state mk]. rewrite last_snoc. cbn [line_number mk]. rewrite Hu.
  by rewrite update_last_snoc.
Qed.

Lemma last_not_empty cs :
  Forall chunk_ok cs -> is_some_and chunk_has_no_lines (last cs) = false.
Proof.
  intros Hcs. destruct (list_snoc_inv cs) as [->|(pre & c & ->)]; [done|].
  rewrite last_snoc. apply Forall_app in Hcs as [_ Hc%Forall_singleton_1].
  by apply chunk_has_no_lines_spec.
Qed.

Lemma update_empty_context n mv cs :
  Forall chunk_ok cs ->
  process_update_line EMPTY_CHANGE_CONTEXT_MARKER n mv cs = Ok (mv, cs ++ [empty_chunk None]).
Proof.
  intros Hcs. unfold process_update_line. rewrite last_not_empty by done.
  change (trim_end EMPTY_CHANGE_CONTEXT_MARKER) with EMPTY_CHANGE_CONTEXT_MARKER.
  cbn. by destruct (is_some_and _ _), (_ && _).
Qed.

Lemma update_context n mv cs ctx :
  Forall chunk_ok cs -> name_ok ctx ->
  process_update_line (CHANGE_CONTEXT_MARKER ++ ctx) n mv cs
  = Ok (mv, cs ++ [empty_chunk (Some ctx)]).
Proof.
  intros Hcs Hctx. unfold process_update_line. rewrite last_not_empty by done.
  destruct (tidy_marker 64%N (tail CHANGE_CONTEXT_MARKER) ctx eq_refl Hctx) as [_ Ht].
  change (64%N :: tail CHANGE_CONTEXT_MARKER) with CHANGE_CONTEXT_MARKER in Ht. rewrite Ht.
  assert (is_context_marker (CHANGE_CONTEXT_MARKER ++ ctx) = true) as Hm.
  { unfold is_context_marker, starts_with. by rewrite strip_prefix_app, orb_true_r. }
  rewrite Hm, !(bool_decide_eq_false_2 (CHANGE_CONTEXT_MARKER ++ ctx = _)), strip_prefix_app
    by (by intros [=]).
  cbn. by destruct (is_some_and _ _), (_ && _).
Qed.

(** Lines of the chunk being read: a sign and a text. *)
Lemma update_signed n mv pre c sign l old new :
  (sign, old, new) ∈ [(45%N, [l], []); (43%N, [], [l])] -> is_end_of_file c = false ->
  process_update_line (sign :: l) n mv (pre ++ [c]) = Ok (mv, pre ++ [chunk_push old new c]).
Proof.
  intros Hs Hc. unfold process_update_line. rewrite last_snoc.
  assert (chunks_push old new (pre ++ [c]) = pre ++ [chunk_push old new c]) as Hpush.
  { unfold chunks_push. rewrite bool_decide_eq_false_2 by (by destruct pre). apply update_last_snoc. }
  cbn [is_some_and]. rewrite Hc, (bool_decide_eq_false_2 (pre ++ [c] = [])) by (by destruct pre).
  rewrite !elem_of_cons in Hs. destruct Hs as [[= -> -> ->]|[[= -> -> ->]|[]%not_elem_of_nil]];
    rewrite trim_end_cons by done; cbn; rewrite ?Hpush;
    repeat rewrite bool_decide_eq_false_2 by (by intros [=]); done.
Qed.

Lemma update_eof n mv pre c :
  chunk_ok c -> is_end_of_file c = false ->
  process_update_line EOF_MARKER n mv (pre ++ [c]) = Ok (mv, pre ++ [chunk_set_eof c]).
Proof.
  intros Hc He. unfold process_update_line. rewrite last_snoc.
  apply chunk_has_no_lines_spec in Hc. cbn [is_some_and]. rewrite Hc, He.
  rewrite (bool_decide_eq_false_2 (pre ++ [c] = [])) by (by destruct pre).
  change (trim_end EOF_MARKER) with EOF_MARKER. cbn. by rewrite update_last_snoc.
Qed.

Lemma update_move n d :
  name_ok d -> process_update_line (MOVE_TO_MARKER ++ d) n None [] = Ok (Some d, []).
Proof.
  intros Hd. unfold process_update_line.
  destruct (tidy_marker 42%N (tail MOVE_TO_MARKER) d eq_refl Hd) as [_ Ht].
  change (42%N :: tail MOVE_TO_MARKER) with MOVE_TO_MARKER in Ht. rewrite Ht.
  cbn [last is_some_and]. by rewrite strip_prefix_app.
Qed.

Section update_hunk.
Context (k : nat) (pre : list Hunk) (path : str) (env : option str).

(** The parser inside the update hunk. *)
Definition upd (mv : option str) (cs : list UpdateFileChunk) (n : nat) : StreamingPatchParser :=
  mk (Mode.UpdateFile k) (pre ++ [UpdateFile path mv cs]) env n.

Lemma upd_line mv cs n c line mv' cs' :
  c <> 42%N -> is_whitespace c = false ->
  process_update_line (c :: line) n mv cs = Ok (mv', cs') ->
  process_line (upd mv cs n) (c :: line) = Ok (upd mv' cs' n).
Proof.
  intros Hc Hw Hu. apply process_line_update; [|done].
  rewrite trim_end_cons by done. by apply handle_headers_other.
Qed.

Lemma upd_signed mv cs c n sign ls :
  sign = 45%N \/ sign = 43%N -> is_end_of_file c = false ->
  process_lines (upd mv (cs ++ [c]) n) (cons sign <$> ls)
  = Ok (upd mv (cs ++ [chunk_push (if (sign =? 45)%N then ls else [])
                                  (if (sign =? 45)%N then [] else ls) c]) (length ls + n)).
Proof.
  intros Hs. revert c n. induction ls as [|l ls IH]; intros c n Hc;
    cbn [fmap list_fmap process_lines].
  - destruct c, (sign =? 45)%N; unfold chunk_push; cbn; by rewrite !app_nil_r.
  - unfold upd at 1. rewrite next_line_mk. fold (upd mv (cs ++ [c]) (S n)).
    rewrite (upd_line mv _ (S n) sign l mv
               (cs ++ [chunk_push (if (sign =? 45)%N then [l] else [])
                                  (if (sign =? 45)%N then [] else [l]) c]));
      [| |by destruct Hs as [-> | ->]|].
    + rewrite IH by done. unfold chunk_push. cbn [length].
      destruct (sign =? 45)%N; cbn; by rewrite <- ?app_assoc, ?app_nil_r, Nat.add_succ_r.
    + by destruct Hs as [-> | ->].
    + apply (update_signed _ _ _ _ _ l); [|done].
      destruct Hs as [-> | ->]; cbn; rewrite !elem_of_cons; auto.
Qed.

Lemma upd_start mv cs ctx n :
  Forall chunk_ok cs -> from_option name_ok True ctx ->
  process_line (upd mv cs n)
    (match ctx with None => EMPTY_CHANGE_CONTEXT_MARKER | Some c => CHANGE_CONTEXT_MARKER ++ c end)
  = Ok (upd mv (cs ++ [empty_chunk ctx]) n).
Proof.
  intros Hcs Hctx. destruct ctx as [ctx|].
  - apply (upd_line _ _ _ 64%N); [done..|]. by apply update_context.
  - apply (upd_line _ _ _ 64%N); [done..|]. by apply update_empty_context.
Qed.

Lemma upd_eof mv cs c n :
  chunk_ok c -> is_end_of_file c = false ->
  process_line (upd mv (cs ++ [c]) n) EOF_MARKER = Ok (upd mv (cs ++ [chunk_set_eof c]) n).
Proof. intros Hc He. apply process_line_update; [done|]. by apply update_eof. Qed.

Lemma process_chunk mv cs c n :
  Forall chunk_ok cs -> chunk_printable c ->
  process_lines (upd mv cs n) (render_chunk c)
  = Ok (upd mv (cs ++ [c]) (length (render_chunk c) + n)).
Proof.
  intros Hcs (Hc & Hctx & _). destruct c as [ctx old new eof]. cbn in Hctx.
  unfold render_chunk. cbn [change_context old_lines new_lines is_end_of_file process_lines].
  unfold upd at 1. rewrite next_line_mk. fold (upd mv cs (S n)).
  rewrite upd_start by done. rewrite process_lines_app, upd_signed by auto.
  rewrite process_lines_app, upd_signed by auto. cbn [N.eqb Pos.eqb].
  rewrite length_cons, !length_app, !length_fmap.
  destruct eof; cbn [process_lines length].
  - unfold upd at 1. rewrite next_line_mk.
    match goal with |- context [mk _ _ _ ?n] => fold (upd mv (cs ++ [chunk_push [] new
      (chunk_push old [] (empty_chunk ctx))]) n) end.
    rewrite upd_eof by (done || by (unfold chunk_ok in *; cbn; rewrite app_nil_r)).
    unfold chunk_set_eof. cbn. rewrite app_nil_r. do 2 f_equal. lia.
  - unfold chunk_push. cbn. rewrite app_nil_r. do 2 f_equal. lia.
Qed.

Lemma process_chunks mv cs new n :
  Forall chunk_ok cs -> Forall chunk_printable new ->
  exists n', process_lines (upd mv cs n) (concat (render_chunk <$> new))
             = Ok (upd mv (cs ++ new) n').
Proof.
  intros Hcs Hnew. revert cs n Hcs. induction Hnew as [|c new Hc _ IH]; intros cs n Hcs.
  - exists n. by rewrite app_nil_r.
  - cbn [fmap list_fmap concat]. rewrite process_lines_app, process_chunk by done.
    destruct (IH (cs ++ [c]) (length (render_chunk c) + n)) as [n' Hn'].
    { apply Forall_app. split; [done|]. apply Forall_singleton. apply Hc. }
    exists n'. by rewrite Hn', <- app_assoc.
Qed.
End update_hunk.

(** * Whole patches *)

Lemma content_lines_concat contents :
  contents = [] \/ (exists s, contents = s ++ [NL]) ->
  concat ((fun l => l ++ [NL]) <$> content_lines contents) = contents.
Proof.
  intros Hc. unfold content_lines.
  destruct (exists_last (split_on_nonempty NL contents)) as (ls & x & E).
  pose proof (split_on_no_sep NL contents) as Hno. pose proof (join_split_on NL contents) as Hj.
  rewrite E in Hno, Hj |- *. rewrite removelast_last. rewrite join_snoc in Hj.
  apply Forall_app in Hno as [_ Hx%Forall_singleton_1].
  destruct (list_snoc_inv x) as [->|(y & c & ->)]; [by rewrite app_nil_r in Hj|].
  destruct Hc as [->|[s ->]].
  - by apply app_eq_nil in Hj as [_ []%app_eq_nil].
  - rewrite app_assoc in Hj. apply app_inj_tail in Hj as [_ ->].
    destruct Hx. apply elem_of_app. right. by left.
Qed.

Lemma process_hunk m hs env n h :
  reading m -> Forall hunk_complete hs -> hunk_printable h ->
  exists m' n', reading m' /\
    process_lines (mk m hs env n) (render_hunk h) = Ok (mk m' (hs ++ [h]) env n').
Proof.
  intros Hm Hhs [Hc Hp]. destruct h as [path contents|path|path mv cs];
    cbn [render_hunk process_lines]; rewrite next_line_mk.
  - destruct Hp as [Hpath _]. rewrite process_add_header by done.
    rewrite process_add_lines, content_lines_concat by done. by eexists _, _; split; [|done].
  - rewrite process_delete_header by done. by eexists _, _; split; [|done].
  - destruct Hp as (Hpath & Hmv & Hcs). rewrite process_update_header by done.
    rewrite process_lines_app.
    assert (exists n1, process_lines (upd (S n) hs path env None [] (S n))
              (match mv with Some d => [MOVE_TO_MARKER ++ d] | None => [] end)
            = Ok (upd (S n) hs path env mv [] n1)) as [n1 Hn1].
    { destruct mv as [d|]; [|by eexists]. exists (S (S n)). cbn [process_lines].
      unfold upd at 1. rewrite next_line_mk.
      rewrite (process_line_update _ _ _ _ _ _ _ _ (Some d) []); [done| |by apply update_move].
      destruct (tidy_marker 42%N (tail MOVE_TO_MARKER) d eq_refl Hmv) as [_ Ht].
      change (42%N :: tail MOVE_TO_MARKER) with MOVE_TO_MARKER in Ht. rewrite Ht.
      unfold handle_hunk_headers_and_end_patch.
      by rewrite bool_decide_eq_false_2 by (by intros [=]). }
    fold (upd (S n) hs path env None [] (S n)). rewrite Hn1.
    destruct (process_chunks (S n) hs path env mv [] cs n1) as [n' Hn']; [done|done|].
    rewrite Hn'. by eexists _, _; split; [|done].
Qed.

Lemma process_hunks m hs env n new :
  reading m -> Forall hunk_complete hs -> Forall hunk_printable new ->
  exists m' n', reading m' /\
    process_lines (mk m hs env n) (concat (render_hunk <$> new)) = Ok (mk m' (hs ++ new) env n').
Proof.
  intros Hm Hhs Hnew. revert m hs n Hm Hhs.
  induction Hnew as [|h new Hh _ IH]; intros m hs n Hm Hhs.
  - exists m, n. by rewrite app_nil_r.
  - cbn [fmap list_fmap concat]. rewrite process_lines_app.
    destruct (process_hunk m hs env n h Hm Hhs Hh) as (m1 & n1 & Hm1 & ->).
    destruct (IH m1 (hs ++ [h]) n1) as (m2 & n2 & Hm2 & ->); [done| |].
    { apply Forall_app. split; [done|]. apply Forall_singleton, Hh. }
    exists m2, n2. by rewrite <- app_assoc.
Qed.

Lemma process_render_lines env hs :
  environment_printable env -> Forall hunk_printable hs ->
  exists m n, reading m /\
    process_lines (mk Mode.NotStarted [] None 0) (render_lines env hs) = Ok (mk m hs env n).
Proof.
  intros He Hhs. unfold render_lines. cbn [process_lines]. rewrite next_line_mk.
  change (process_line (mk Mode.NotStarted [] None 1) BEGIN_PATCH_MARKER)
    with (@Ok _ ParseError (mk Mode.StartedPatch [] None 1)). cbn iota.
  rewrite process_lines_app.
  destruct env as [e|]; cbn [render_environment process_lines].
  - rewrite next_line_mk. destruct He. rewrite process_environment_line by done.
    by apply process_hunks.
  - by apply process_hunks.
Qed.

(** Every printed line is a single line. *)
Lemma name_line_ok marker s : (NL ∉ marker) -> name_ok s -> line_ok (marker ++ s).
Proof.
  intros Hm [Hs (t & c & -> & Hc)]. split.
  - rewrite elem_of_app. naive_solver.
  - rewrite app_assoc, last_snoc. by intros [= ->].
Qed.

Lemma signed_line_ok sign ls :
  (sign <> NL) -> sign <> CR -> Forall line_ok ls -> Forall line_ok (cons sign <$> ls).
Proof.
  intros Hs Hcr Hls. apply Forall_fmap. eapply Forall_impl; [exact Hls|].
  intros l [Hl Hlast]. cbn. split.
  - by apply not_elem_of_cons.
  - destruct l as [|d l]; cbn; [naive_solver|done].
Qed.

Ltac line_ok_lit := split; [by apply (bool_decide_unpack _) | done].

Lemma render_chunk_line_ok c : chunk_printable c -> Forall line_ok (render_chunk c).
Proof.
  intros (_ & Hctx & Hold & Hnew). unfold render_chunk. constructor.
  - destruct (change_context c) as [ctx|]; [|by line_ok_lit].
    apply name_line_ok; [by apply (bool_decide_unpack _)|done].
  - apply Forall_app. split; [by apply signed_line_ok|].
    apply Forall_app. split; [by apply signed_line_ok|].
    destruct (is_end_of_file c); [|done]. apply Forall_singleton. line_ok_lit.
Qed.

Lemma render_hunk_line_ok h : hunk_printable h -> Forall line_ok (render_hunk h).
Proof.
  intros [_ Hp]. destruct h as [path contents|path|path mv cs]; cbn [render_hunk].
  - destruct Hp. constructor; [|by apply signed_line_ok].
    apply name_line_ok; [by apply (bool_decide_unpack _)|done].
  - apply Forall_singleton, name_line_ok; [by apply (bool_decide_unpack _)|done].
  - destruct Hp as (Hpath & Hmv & Hcs).
    constructor; [apply name_line_ok; [by apply (bool_decide_unpack _)|done]|].
    apply Forall_app. split.
    + destruct mv; [|done]. apply Forall_singleton, name_line_ok;
        [by apply (bool_decide_unpack _)|done].
    + apply Forall_concat, Forall_fmap. eapply Forall_impl; [exact Hcs|].
      intros c Hc. by apply render_chunk_line_ok.
Qed.

Lemma render_lines_ok env hs :
  environment_printable env -> Forall hunk_printable hs ->
  Forall line_ok (render_lines env hs ++ [END_PATCH_MARKER]).
Proof.
  intros He Hhs. apply Forall_app. split; [|apply Forall_singleton; line_ok_lit].
  constructor; [line_ok_lit|]. apply Forall_app. split.
  - destruct env as [e|]; [|done]. destruct He as [He _]. apply Forall_singleton.
    cbn [render_environment]. rewrite app_assoc.
    apply name_line_ok; [by apply (bool_decide_unpack _)|done].
  - apply Forall_concat, Forall_fmap. eapply Forall_impl; [exact Hhs|].
    intros h Hh. by apply render_hunk_line_ok.
Qed.

(** Feeding printed lines and finishing. *)
Lemma parse_rendered env hs :
  environment_printable env -> Forall hunk_printable hs ->
  exists p1 p2, push_chars parser_default (render_patch env hs) = (p1, Ok tt) /\
    finish p1 = (p2, Ok hs) /\ st_environment_id (state p2) = env.
Proof.
  intros He Hhs. destruct (process_render_lines env hs He Hhs) as (m & n & Hm & Hp).
  pose proof (render_lines_ok env hs He Hhs) as Hok. apply Forall_app in Hok as [Hok _].
  unfold render_patch. rewrite join_snoc.
  change parser_default with (mk Mode.NotStarted [] None 0).
  rewrite (push_chars_lines _ _ _ _ _ _ _ _ _ _ Hok Hp).
  rewrite <- (app_nil_r END_PATCH_MARKER), push_chars_no_newline by by apply (bool_decide_unpack _).
  eexists _, _. split; [done|]. unfold finish.
  cbn [line_buffer app mk].
  change (trim END_PATCH_MARKER) with END_PATCH_MARKER.
  rewrite bool_decide_eq_false_2, bool_decide_eq_true_2 by done.
  change (next_line _) with (mk m hs env (S n)).
  rewrite ensure_of_complete; [done|]. eapply Forall_impl; [exact Hhs|]. by intros h [? _].
Qed.

Lemma trim_rendered env hs : trim (render_patch env hs) = render_patch env hs.
Proof.
  unfold render_patch. rewrite join_snoc.
  change END_PATCH_MARKER with (lit "*** End Patc" ++ [104%N]).
  rewrite app_assoc, trim_comm, trim_end_snoc by done. done.
Qed.

Lemma lines_rendered env hs :
  environment_printable env -> Forall hunk_printable hs ->
  lines (render_patch env hs) = render_lines env hs ++ [END_PATCH_MARKER].
Proof. intros He Hhs. by apply lines_join; [apply render_lines_ok|]. Qed.

(** The strict check accepts lines between the two markers. *)
Lemma boundaries_markers mid :
  check_patch_boundaries_strict (BEGIN_PATCH_MARKER :: mid ++ [END_PATCH_MARKER])
  = Ok (BEGIN_PATCH_MARKER :: mid ++ [END_PATCH_MARKER]).
Proof.
  unfold check_patch_boundaries_strict. rewrite app_comm_cons, last_snoc.
  by destruct mid as [|x mid]; cbn [app].
Qed.

Lemma boundaries_rendered env hs :
  check_patch_boundaries_strict (render_lines env hs ++ [END_PATCH_MARKER])
  = Ok (render_lines env hs ++ [END_PATCH_MARKER]).
Proof. exact (boundaries_markers (render_environment env ++ concat (render_hunk <$> hs))). Qed.

(** * Heredoc wrappers *)

(** Accepted boundary lines: at least two, the first one the begin marker. *)
Lemma strict_boundaries_accept ls ls' :
  check_patch_boundaries_strict ls = Ok ls' -> ls' = ls /\ 2 <= length ls.
Proof.
  unfold check_patch_boundaries_strict, check_start_and_end_lines_strict.
  destruct ls as [|f [|g t]]; cbn; [done| |].
  - repeat case_bool_decide; cbn; try done.
    match goal with H1 : trim f = _, H2 : trim f = _ |- _ => rewrite H1 in H2; discriminate H2 end.
  - repeat case_match; intros [= <-]; split; (done || lia).
Qed.

Lemma strict_boundaries_reject f ls :
  trim f <> BEGIN_PATCH_MARKER -> exists e, check_patch_boundaries_strict (f :: ls) = Err e.
Proof.
  intros Hf. unfold check_patch_boundaries_strict, check_start_and_end_lines_strict.
  destruct ls as [|g t]; cbn [fmap option_fmap option_map];
    [|destruct (last (f :: g :: t)); cbn [fmap option_fmap option_map]];
    rewrite !(bool_decide_eq_false_2 (trim f = _)) by done; eauto.
Qed.

Lemma heredoc_line o : is_heredoc_open o = true ->
  (NL ∉ o) /\ strip_cr o = o /\ trim o <> BEGIN_PATCH_MARKER /\ trim_start o = o /\ o <> [].
Proof.
  unfold is_heredoc_open. rewrite !orb_true_iff, !bool_decide_eq_true.
  intros [[->| ->]| ->]; (split_and!; [by apply (bool_decide_unpack _)|done..]).
Qed.

Lemma inner_lines_between f (mid : list str) l : inner_lines (f :: mid ++ [l]) = mid.
Proof.
  unfold inner_lines. cbn [length drop]. rewrite length_app. cbn [length].
  replace (S (length mid + 1) - 2) with (length mid) by lia.
  rewrite drop_0. apply take_app_length.
Qed.

Lemma trim_start_app o s : trim_start o = o -> o <> [] -> trim_start (o ++ s) = o ++ s.
Proof. unfold trim_start. intros Ho Hne. by rewrite drop_while_app, Ho by by rewrite Ho. Qed.

(** The trimmed text of an accepted patch ends in a visible character. *)
Lemma trim_visible_end s : trim s = [] \/ exists a c, trim s = a ++ [c] /\ is_whitespace c = false.
Proof.
  destruct (list_snoc_inv (trim s)) as [->|(a & c & E)]; [by left|].
  right. exists a, c. split; [done|]. destruct (is_whitespace c) eqn:Hc; [|done].
  assert (trim_end (trim s) = trim s) as H by apply trim_end_idem.
  rewrite E, trim_end_ws in H by by constructor.
  destruct (trim_end_split a) as (w & Ha & _). apply (f_equal length) in H, Ha.
  rewrite length_app in *. cbn in *. lia.
Qed.

Definition heredoc (o t w : str) : str := o ++ [NL] ++ t ++ [NL] ++ lit "EOF" ++ w.

Lemma heredoc_lines o t w :
  is_heredoc_open o = true -> Forall (fun c => is_whitespace c = true) w ->
  lines (trim t) <> [] ->
  lines (trim (heredoc o (trim t) w)) = o :: lines (trim t) ++ [lit "EOF"].
Proof.
  intros Ho Hw Ht. destruct (heredoc_line o Ho) as (Hnl & Hcr & _ & Hst & Hne).
  assert (trim (heredoc o (trim t) w) = o ++ NL :: (trim t ++ NL :: lit "EOF")) as ->.
  { unfold heredoc, trim at 1. rewrite trim_start_app by done.
    rewrite !app_assoc, trim_end_ws by done. rewrite <- !app_assoc. cbn [app].
    change (lit "EOF") with (lit "EO" ++ [70%N]).
    rewrite (app_comm_cons _ _ NL), !app_assoc. rewrite (app_comm_cons _ _ NL), !app_assoc.
    by apply trim_end_snoc. }
  rewrite lines_app_newline, split_on_no by done. cbn [fmap list_fmap app]. rewrite Hcr.
  f_equal. rewrite lines_app_newline.
  destruct (trim_visible_end t) as [E|(a & c & E & Hc)]; [by rewrite E in Ht|].
  rewrite E, (lines_visible_end a c Hc). done.
Qed.

(** * Properties *)

(** C6: round trip.  For any environment id and any list of complete hunks whose
    names and lines can be written on a line, parsing the printed patch returns
    exactly those hunks and that environment id, and echoes the text. *)
Theorem parse_patch_roundtrip env hs :
  environment_printable env -> Forall hunk_printable hs ->
  parse_patch (render_patch env hs) =
  Ok {| patch := render_patch env hs; hunks := hs; workdir := None; environment_id := env |}.
Proof.
  intros He Hhs. unfold parse_patch, parse_patch_text. cbn [PARSE_IN_STRICT_MODE].
  rewrite trim_rendered, lines_rendered by done.
  unfold check_patch_boundaries_lenient. rewrite boundaries_rendered.
  fold (render_patch env hs). rewrite push_delta_chars.
  destruct (parse_rendered env hs He Hhs) as (p1 & p2 & -> & -> & <-). done.
Qed.

(** Lenient mode.  A patch the strict parser accepts is accepted with the
    same outcome when a model wraps it, trimmed, in one of the three heredoc
    forms (with any trailing whitespace): the wrapper lines are discarded. *)
Theorem parse_patch_heredoc o t w args :
  is_heredoc_open o = true -> Forall (fun c => is_whitespace c = true) w ->
  parse_patch_text t Strict = Ok args ->
  parse_patch (heredoc o (trim t) w) = Ok args.
Proof.
  intros Ho Hw Hs. unfold parse_patch, parse_patch_text in *. cbn [PARSE_IN_STRICT_MODE].
  destruct (check_patch_boundaries_strict (lines (trim t))) as [ls|] eqn:E; [|done].
  destruct (strict_boundaries_accept _ _ E) as [-> Hlen].
  rewrite heredoc_lines by (done || (intros Hz; rewrite Hz in Hlen; cbn in Hlen; lia)).
  destruct (heredoc_line o Ho) as (_ & _ & Hb & _).
  unfold check_patch_boundaries_lenient at 1.
  destruct (strict_boundaries_reject o (lines (trim t) ++ [lit "EOF"]) Hb) as [e ->].
  rewrite inner_lines_between, E, Ho, app_comm_cons, last_snoc, <- app_comm_cons.
  rewrite length_cons, length_app.
  destruct (lines (trim t)) as [|x ls]; [cbn in Hlen; lia|]. cbn [app].
  by destruct (Nat.leb_spec 4 (S (length (x :: ls) + length [lit "EOF"]))); [|cbn in *; lia].
Qed.

(** * Witnesses *)

(** A boolean check that implies [name_ok]. *)
Definition name_okb (s : str) : bool :=
  bool_decide (NL ∉ s) && is_some_and (fun c => negb (is_whitespace c)) (last s).

Lemma name_okb_ok s : name_okb s = true -> name_ok s.
Proof.
  intros [H1 H2]%andb_prop. apply bool_decide_eq_true_1 in H1. split; [done|].
  destruct (last s) as [c|] eqn:E; [|done]. apply list_last_split in E as [t ->].
  exists t, c. split; [done|]. by apply negb_true_iff.
Qed.

Definition w_hunks : list Hunk :=
  [AddFile (lit "docs/a b.txt") (lit "one" ++ [NL] ++ lit "*** End Patch" ++ [NL]);
   DeleteFile (lit "old.txt");
   UpdateFile (lit "src/m.rs") (Some (lit "src/n.rs"))
     [{| change_context := Some (lit "fn f() {"); old_lines := [lit "  1"]; new_lines := [[]];
         is_end_of_file := false |};
      {| change_context := None; old_lines := []; new_lines := [lit "+x "];
         is_end_of_file := true |}]].

Definition line_okb (l : str) : bool := bool_decide (NL ∉ l) && (last l != Some CR).

Lemma lines_okb_ok ls : forallb line_okb ls = true -> Forall line_ok ls.
Proof.
  induction ls as [|l ls IH]; [by constructor|]. cbn.
  intros [Hl Hls]%andb_prop. constructor; [|by apply IH].
  unfold line_okb in Hl. to_props. done.
Qed.

Lemma w_hunks_printable : Forall hunk_printable w_hunks.
Proof.
  apply Forall_cons; split; [|apply Forall_cons; split; [|apply Forall_singleton]].
  - split; [right; by eexists (lit "one" ++ [NL] ++ lit "*** End Patch")|].
    split; [by apply name_okb_ok|by apply lines_okb_ok].
  - split; [done|by apply name_okb_ok].
  - split; [split; [done|]; apply Forall_cons; split; [by left|apply Forall_singleton; by right]|].
    split_and!; [by apply name_okb_ok..|].
    apply Forall_cons; split; [|apply Forall_singleton].
    + split_and!; [by left|by apply name_okb_ok|by apply lines_okb_ok..].
    + split_and!; [by right|done|by apply lines_okb_ok..].
Qed.

Lemma parse_patch_roundtrip_witness :
  is_ok (parse_patch (render_patch (Some (lit "remote")) w_hunks)) = true.
Proof.
  rewrite (parse_patch_roundtrip (Some (lit "remote")) w_hunks);
    [reflexivity|split; [by apply name_okb_ok|reflexivity]|exact w_hunks_printable].
Defined.

Lemma parse_patch_heredoc_witness :
  is_ok (parse_patch (heredoc (lit "<<'EOF'") (trim w_patch) [NL])) = true.
Proof.
  destruct (parse_patch_text w_patch Strict) as [args|e] eqn:E; [|vm_compute in E; discriminate E].
  rewrite (parse_patch_heredoc (lit "<<'EOF'") w_patch [NL] args);
    [reflexivity|reflexivity|by repeat constructor|exact E].
Defined.
