(* ===== verification/Replacements.v ===== *)
(** Locating and applying the chunks of an update hunk:
    [compute_replacements] and [apply_replacements] of [apply-patch/src/lib.rs],
    and the text part of [derive_new_contents_from_chunks].

    [apply_replacements] edits a [Vec] in place from the last replacement to the
    first; [Vec::insert] panics past the end, which is the outcome [None] here. *)

From stdpp Require Import base list option numbers strings sorting.
From Stdlib Require Import NArith Lia.
From S2P Require Import Prelude RustStr PatchSyntax SeekSequence.
Local Open Scope rust_scope.

(** [(start_index, old_len, new_lines)]. *)
Abbreviation replacement := (nat * nat * list str)%type.

Definition rep_start (r : replacement) : nat := r.1.1.
Definition rep_len (r : replacement) : nat := r.1.2.
Definition rep_new (r : replacement) : list str := r.2.

(** [ApplyPatchError::ComputeReplacements]. *)
Inductive compute_error : Type := ComputeReplacements (message : str).

(** * Computing *)

Definition last_is_empty (ls : list str) : bool := is_some_and (fun l => l == []) (last ls).

Section compute.
Context (original_lines : list str) (path : str).

(** The line index after the chunk's context line. *)
Definition seek_context (chunk : UpdateFileChunk) (line_index : nat) : result nat compute_error :=
  match change_context chunk with
  | None => Ok line_index
  | Some ctx_line =>
      match seek_sequence original_lines [ctx_line] line_index false with
      | Some idx => Ok (S idx)
      | None => Err (ComputeReplacements
          (lit "Failed to find context '" ++ ctx_line ++ lit "' in " ++ path))
      end
  end.

(** Where a pure addition goes: before a final empty line if there is one. *)
Definition insertion_idx : nat :=
  if last_is_empty original_lines then length original_lines - 1 else length original_lines.

(** The region of the file a chunk with old lines replaces: its position, the
    pattern found and the lines to put there. *)
Definition locate (chunk : UpdateFileChunk) (line_index : nat)
  : option nat * list str * list str :=
  let pattern := old_lines chunk in
  let new_slice := new_lines chunk in
  match seek_sequence original_lines pattern line_index (is_end_of_file chunk) with
  | Some i => (Some i, pattern, new_slice)
  | None =>
      if last_is_empty pattern then
        let pattern' := removelast pattern in
        let new_slice' := if last_is_empty new_slice then removelast new_slice else new_slice in
        (seek_sequence original_lines pattern' line_index (is_end_of_file chunk),
         pattern', new_slice')
      else (None, pattern, new_slice)
  end.

(** One iteration of the loop: the replacement and the next line index. *)
Definition compute_chunk (chunk : UpdateFileChunk) (line_index : nat)
  : result (replacement * nat) compute_error :=
  let? line_index := seek_context chunk line_index in
  if old_lines chunk == [] then
    Ok ((insertion_idx, 0, new_lines chunk), line_index)
  else
    let '(found, pattern, new_slice) := locate chunk line_index in
    match found with
    | Some start_idx =>
        Ok ((start_idx, length pattern, new_slice), start_idx + length pattern)
    | None => Err (ComputeReplacements
        (lit "Failed to find expected lines in " ++ path ++ lit ":" ++ [NL]
         ++ join [NL] (old_lines chunk)))
    end.

Fixpoint compute_loop (chunks : list UpdateFileChunk) (line_index : nat)
  : result (list replacement) compute_error :=
  match chunks with
  | [] => Ok []
  | chunk :: chunks =>
      let? (r, line_index) := compute_chunk chunk line_index in
      let? rs := compute_loop chunks line_index in
      Ok (r :: rs)
  end.

Definition compute_replacements (chunks : list UpdateFileChunk)
  : result (list replacement) compute_error :=
  let? rs := compute_loop chunks 0 in
  Ok (sort_by_key rep_start rs).
End compute.

(** * Applying *)

(** [for _ in 0..old_len { if start < lines.len() { lines.remove(start); } }]. *)
Fixpoint remove_lines (n start : nat) (lines : list str) : list str :=
  match n with
  | 0 => lines
  | S n => remove_lines n start (if start <? length lines then delete start lines else lines)
  end.

(** [Vec::insert]. *)
Definition vec_insert {A} (i : nat) (x : A) (l : list A) : option (list A) :=
  if i <=? length l then Some (take i l ++ x :: drop i l) else None.

(** [for (offset, l) in new.iter().enumerate() { lines.insert(start + offset, l) }]. *)
Fixpoint insert_lines (start : nat) (new : list str) (lines : list str) : option (list str) :=
  match new with
  | [] => Some lines
  | l :: new =>
      match vec_insert start l lines with
      | Some lines => insert_lines (S start) new lines
      | None => None
      end
  end.

Definition apply_replacement (r : replacement) (lines : list str) : option (list str) :=
  insert_lines (rep_start r) (rep_new r) (remove_lines (rep_len r) (rep_start r) lines).

(** The replacements from the last to the first. *)
Fixpoint apply_replacements (lines : list str) (replacements : list replacement)
  : option (list str) :=
  match replacements with
  | [] => Some lines
  | r :: rs =>
      match apply_replacements lines rs with
      | Some lines => apply_replacement r lines
      | None => None
      end
  end.

(** * From text to text *)

(** [contents.split('\n')] without the empty element after a final newline. *)
Definition original_lines_of (contents : str) : list str :=
  let ls := split_on NL contents in
  if last_is_empty ls then removelast ls else ls.

(** The lines joined, with a final newline unless the last line is empty. *)
Definition contents_of_lines (new_lines : list str) : str :=
  join [NL] (if last_is_empty new_lines then new_lines else new_lines ++ [[]]).

(** [Ok None] is a panic. *)
Definition new_contents (path : str) (original : str) (chunks : list UpdateFileChunk)
  : result (option str) compute_error :=
  let ls := original_lines_of original in
  let? rs := compute_replacements ls path chunks in
  Ok (contents_of_lines <$> apply_replacements ls rs).

(** * Lemmas on applying *)

Lemma remove_lines_eq n s l : remove_lines n s l = take s l ++ drop (s + n) l.
Proof.
  revert l. induction n as [|n IH]; intros l; cbn [remove_lines].
  - by rewrite Nat.add_0_r, take_drop.
  - rewrite IH. destruct (Nat.ltb_spec s (length l)) as [Hlt|Hge].
    + rewrite delete_take_drop, take_app_le by (rewrite length_take; lia).
      rewrite take_take, drop_app_ge by (rewrite length_take; lia).
      rewrite drop_drop, length_take. do 2 f_equal; lia.
    + rewrite !drop_ge by lia. done.
Qed.

Lemma insert_lines_eq s new l :
  s <= length l -> insert_lines s new l = Some (take s l ++ new ++ drop s l).
Proof.
  revert s l. induction new as [|x new IH]; intros s l Hs; cbn [insert_lines].
  - cbn. by rewrite take_drop.
  - unfold vec_insert. destruct (Nat.leb_spec s (length l)); [|lia].
    rewrite IH by (rewrite length_app, length_take; cbn; rewrite length_drop; lia).
    rewrite cons_middle, (app_assoc (take s l) [x]).
    assert (length (take s l ++ [x]) = S s) as Hlen.
    { rewrite length_app, length_take. cbn. lia. }
    rewrite take_app_length', drop_app_length' by (by rewrite Hlen).
    by rewrite <- !app_assoc.
Qed.

Lemma apply_replacement_eq r l :
  rep_start r <= length l ->
  apply_replacement r l
  = Some (take (rep_start r) l ++ rep_new r ++ drop (rep_start r + rep_len r) l).
Proof.
  intros Hs. unfold apply_replacement. rewrite remove_lines_eq.
  assert (length (take (rep_start r) l) = rep_start r) as Hlen by (rewrite length_take; lia).
  rewrite insert_lines_eq by (rewrite length_app; lia).
  by rewrite take_app_length', drop_app_length' by (by rewrite Hlen).
Qed.

(** Replacements sorted by position and inside a file of [len] lines. *)
Definition starts_sorted (len : nat) (rs : list replacement) : Prop :=
  Sorted (fun a b => rep_start a <= rep_start b) rs /\ Forall (fun r => rep_start r <= len) rs.

Lemma starts_sorted_cons len r rs :
  starts_sorted len (r :: rs) ->
  rep_start r <= len /\ starts_sorted len rs /\ Forall (fun q => rep_start r <= rep_start q) rs.
Proof.
  intros [Hs Hb]. apply Forall_cons in Hb as [Hr Hb].
  apply Sorted_StronglySorted in Hs; [|intros a b c; lia].
  apply StronglySorted_inv in Hs as [Hs Hall].
  split_and!; [done| |done]. split; [|done]. by apply StronglySorted_Sorted.
Qed.

(** Sorted replacements never panic, and leave the lines before the first one
    alone. *)
Lemma apply_replacements_total lines rs s :
  starts_sorted (length lines) rs -> Forall (fun q => s <= rep_start q) rs -> s <= length lines ->
  exists out, apply_replacements lines rs = Some out /\ s <= length out /\ take s out = take s lines.
Proof.
  revert s. induction rs as [|r rs IH]; intros s Hs Hall Hle; cbn [apply_replacements]; [by eauto|].
  apply starts_sorted_cons in Hs as (Hr & Hs & Hge). apply Forall_cons in Hall as [Hsr _].
  destruct (IH (rep_start r) Hs Hge Hr) as (out & -> & Hlen & Htake).
  rewrite apply_replacement_eq by done. eexists. split; [done|].
  rewrite length_app, length_take. split; [lia|].
  rewrite take_app_le by (rewrite length_take; lia).
  rewrite Htake, take_take. f_equal. lia.
Qed.

(** * Disjoint replacements *)

(** Replacements in file order whose regions do not overlap. *)
Fixpoint ordered (pos len : nat) (rs : list replacement) : Prop :=
  match rs with
  | [] => pos <= len
  | r :: rs =>
      pos <= rep_start r /\ rep_start r + rep_len r <= len /\
      ordered (rep_start r + rep_len r) len rs
  end.

(** Reference: copy the file from [pos], writing the new lines of each
    replacement instead of its region. *)
Fixpoint splice (lines : list str) (pos : nat) (rs : list replacement) : list str :=
  match rs with
  | [] => drop pos lines
  | r :: rs =>
      take (rep_start r - pos) (drop pos lines) ++ rep_new r
      ++ splice lines (rep_start r + rep_len r) rs
  end.

Lemma apply_replacements_splice_from lines pos rs :
  ordered pos (length lines) rs ->
  apply_replacements lines rs = Some (take pos lines ++ splice lines pos rs).
Proof.
  revert pos. induction rs as [|r rs IH]; intros pos; cbn [ordered splice apply_replacements].
  - by rewrite take_drop.
  - intros (Hpos & Hend & Hrs). rewrite (IH _ Hrs).
    assert (length (take (rep_start r + rep_len r) lines) = rep_start r + rep_len r) as Hlen
      by (rewrite length_take; lia).
    rewrite apply_replacement_eq by (rewrite length_app; lia).
    rewrite take_app_le, take_take, Nat.min_l by lia.
    rewrite drop_app_length' by (by rewrite Hlen).
    rewrite (app_assoc (take pos lines)), take_take_drop. do 3 f_equal. lia.
Qed.

(** * Lemmas on computing *)

Section compute_lemmas.
Context (ls : list str) (path : str).
Local Abbreviation len := (length ls).

Lemma seek_in_file pattern i eof j :
  i <= len -> seek_sequence ls pattern i eof = Some j ->
  j + length pattern <= len /\ (eof = false -> i <= j).
Proof.
  intros Hi Hs. destruct (decide (pattern = [])) as [->|Hne].
  - injection Hs as <-. cbn. lia.
  - destruct (seek_sound _ _ _ _ _ Hne Hs) as (Hj & Hfit & _).
    split; [done|]. intros ->. done.
Qed.

Lemma seek_context_bound c i j :
  i <= len -> seek_context ls path c i = Ok j -> i <= j <= len.
Proof.
  intros Hi. unfold seek_context. destruct (change_context c) as [ctx|]; [|intros [= <-]; lia].
  destruct (seek_sequence ls [ctx] i false) as [k|] eqn:E; [|done]. intros [= <-].
  apply seek_in_file in E as [Hk Hik]; [|done]. specialize (Hik eq_refl). cbn in Hk. lia.
Qed.

Lemma locate_bound c i j pattern new :
  i <= len -> locate ls c i = (Some j, pattern, new) ->
  j + length pattern <= len /\ (is_end_of_file c = false -> i <= j).
Proof.
  intros Hi. unfold locate.
  destruct (seek_sequence ls (old_lines c) i _) as [k|] eqn:E.
  - intros [= <- <- <-]. by eapply seek_in_file.
  - destruct (last_is_empty (old_lines c)); [|done]. intros [= E' <- <-]. by eapply seek_in_file.
Qed.

Lemma insertion_idx_bound : insertion_idx ls <= len.
Proof. unfold insertion_idx. destruct (last_is_empty ls); lia. Qed.

(** One chunk: its region is inside the file and the search moves on inside
    the file; without the end-of-file flag it moves forward. *)
Lemma compute_chunk_bound c i r j :
  i <= len -> compute_chunk ls path c i = Ok (r, j) ->
  rep_start r + rep_len r <= len /\ j <= len /\
  (is_end_of_file c = false -> old_lines c <> [] ->
     i <= rep_start r /\ j = rep_start r + rep_len r).
Proof.
  intros Hi. unfold compute_chunk.
  destruct (seek_context ls path c i) as [k|] eqn:Ek; [|done].
  apply seek_context_bound in Ek; [|done].
  case_bool_decide as Hold.
  - intros [= <- <-]. cbn. pose proof insertion_idx_bound. split_and!; [lia..|done].
  - destruct (locate ls c k) as [[[s|] pattern] new] eqn:El; [|done]. intros [= <- <-].
    apply locate_bound in El as [Hs Hf]; [|lia]. cbn.
    split_and!; [done|done|]. intros He _. specialize (Hf He). lia.
Qed.

Lemma compute_loop_bound cs i rs :
  i <= len -> compute_loop ls path cs i = Ok rs -> Forall (fun r => rep_start r + rep_len r <= len) rs.
Proof.
  revert i rs. induction cs as [|c cs IH]; intros i rs Hi; cbn; [intros [= <-]; constructor|].
  destruct (compute_chunk ls path c i) as [[r j]|] eqn:E; [|done].
  apply compute_chunk_bound in E as (Hr & Hj & _); [|done].
  destruct (compute_loop ls path cs j) as [rs'|] eqn:E'; [|done]. intros [= <-].
  constructor; [done|]. by eapply IH.
Qed.

(** Chunks that replace lines, none anchored at the end of the file. *)
Definition in_order_chunk (c : UpdateFileChunk) : Prop :=
  is_end_of_file c = false /\ old_lines c <> [].

Lemma compute_loop_ordered cs i rs :
  i <= len -> Forall in_order_chunk cs -> compute_loop ls path cs i = Ok rs -> ordered i len rs.
Proof.
  intros Hi Hcs. revert i rs Hi. induction Hcs as [|c cs [He Ho] _ IH]; intros i rs Hi; cbn.
  { by intros [= <-]. }
  destruct (compute_chunk ls path c i) as [[r j]|] eqn:E; [|done].
  apply compute_chunk_bound in E as (Hr & Hj & Hf); [|done].
  destruct (compute_loop ls path cs j) as [rs'|] eqn:E'; [|done]. intros [= <-].
  destruct (Hf He Ho) as [Hir ->]. cbn. split_and!; [done|done|]. by eapply IH.
Qed.
End compute_lemmas.

Lemma ordered_sorted pos len rs :
  ordered pos len rs -> Sorted (fun a b => rep_start a <= rep_start b) rs.
Proof.
  revert pos. induction rs as [|r rs IH]; intros pos; cbn; [constructor|].
  intros (_ & _ & H). constructor; [by eapply IH|].
  destruct rs as [|q rs]; [constructor|]. destruct H. constructor. lia.
Qed.

Lemma compute_replacements_starts ls path chunks rs :
  compute_replacements ls path chunks = Ok rs -> starts_sorted (length ls) rs.
Proof.
  unfold compute_replacements. destruct (compute_loop ls path chunks 0) as [rs'|] eqn:E; [|done].
  intros [= <-]. split; [apply sort_by_key_sorted|]. apply sort_by_key_Forall.
  eapply Forall_impl; [by eapply compute_loop_bound; [|exact E]; lia|]. cbn. lia.
Qed.

Lemma last_is_empty_snoc ls : last_is_empty (ls ++ [[]]) = true.
Proof. unfold last_is_empty. by rewrite last_snoc. Qed.

Lemma join_newlines_terminated ls :
  exists k, join [NL] (if last_is_empty ls then ls else ls ++ [[]])
            = concat ((fun l => l ++ [NL]) <$> k).
Proof.
  assert (forall k, join [NL] (k ++ [[]]) = concat ((fun l => l ++ [NL]) <$> k)) as H.
  { intros k. rewrite join_snoc. apply app_nil_r. }
  destruct (last_is_empty ls) eqn:E; [|by eauto].
  unfold last_is_empty in E. destruct (last ls) as [l|] eqn:El; [|done].
  cbn in E. to_props. subst l. apply list_last_split in El as [k ->]. eauto.
Qed.

(** * Properties *)

(** Locating and applying chunks never panics.  Whatever the file and the
    chunks, if every chunk is located then the in-place edits succeed: no
    [Vec::insert] runs past the end of the vector, even for overlapping or
    end-of-file-anchored chunks. *)
Theorem new_contents_no_panic path original chunks o :
  new_contents path original chunks = Ok o -> is_Some o.
Proof.
  unfold new_contents.
  destruct (compute_replacements _ path chunks) as [rs|] eqn:E; [|done]. intros [= <-].
  apply compute_replacements_starts in E.
  destruct (apply_replacements_total _ _ 0 E) as (out & -> & _); [|lia|by eauto].
  eapply Forall_impl; [apply E|]. cbn. lia.
Qed.

(** Editing in place from the last replacement to the first is the same as
    copying the file once and substituting each region, for any replacements
    whose regions are in order and disjoint. *)
Theorem apply_replacements_is_splice lines rs :
  ordered 0 (length lines) rs -> apply_replacements lines rs = Some (splice lines 0 rs).
Proof. intros H. by rewrite (apply_replacements_splice_from _ _ _ H), take_0. Qed.

(** Chunks that each replace some lines and are not anchored at the end of
    the file are located in file order, in disjoint regions inside the file, so
    the patched file is the original with exactly those regions substituted. *)
Theorem compute_replacements_in_order ls path chunks rs :
  Forall in_order_chunk chunks -> compute_replacements ls path chunks = Ok rs ->
  ordered 0 (length ls) rs /\ apply_replacements ls rs = Some (splice ls 0 rs).
Proof.
  intros Hc. unfold compute_replacements.
  destruct (compute_loop ls path chunks 0) as [rs'|] eqn:E; [|done].
  apply compute_loop_ordered in E; [|lia|done].
  rewrite sort_by_key_id by by eapply ordered_sorted. intros [= <-].
  split; [done|]. by rewrite (apply_replacements_splice_from _ _ _ E), take_0.
Qed.

(** The new contents of an updated file are newline-terminated lines: the
    text is empty or ends with a newline. *)
Theorem new_contents_newline_terminated path original chunks text :
  new_contents path original chunks = Ok (Some text) ->
  text = [] \/ exists s, text = s ++ [NL].
Proof.
  unfold new_contents. destruct (compute_replacements _ path chunks) as [rs|]; [|done].
  destruct (apply_replacements _ rs) as [out|]; [|done]. cbn. intros [= <-].
  destruct (join_newlines_terminated out) as [k Hk]. unfold contents_of_lines. rewrite Hk.
  destruct (list_snoc_inv k) as [->|(k' & l & ->)]; [by left|right].
  rewrite fmap_app, concat_app. cbn. rewrite app_nil_r, app_assoc. eauto.
Qed.

(** A blank line at the end of a file is lost.  Even an update that edits
    nothing drops the last newline of a text that ends with two, because the
    final empty line is taken for the end of the text. *)
Theorem final_blank_line_lost path s :
  new_contents path (s ++ [NL; NL]) [] = Ok (Some (s ++ [NL])).
Proof.
  unfold new_contents, original_lines_of. rewrite split_on_app.
  change (split_on NL [NL]) with ([[]] ++ [[]] : list str).
  rewrite app_assoc, last_is_empty_snoc, removelast_last.
  cbn -[contents_of_lines]. unfold contents_of_lines. rewrite last_is_empty_snoc.
  rewrite join_terminated by apply split_on_nonempty. by rewrite join_split_on.
Qed.

(** * Witnesses *)

Definition w_file : str := join [NL] (lit <$> ["a"; "b"; "c"; ""]).
Definition w_chunk (old new : list string) : UpdateFileChunk :=
  {| change_context := None; old_lines := lit <$> old; new_lines := lit <$> new;
     is_end_of_file := false |}.
Definition w_chunks : list UpdateFileChunk := [w_chunk ["a"] ["x"; "y"]; w_chunk ["c"] []].

Lemma new_contents_no_panic_witness :
  new_contents [] w_file w_chunks = Ok (Some (join [NL] (lit <$> ["x"; "y"; "b"; ""]))) /\
  is_Some (Some (join [NL] (lit <$> ["x"; "y"; "b"; ""]))).
Proof.
  split; [vm_compute; reflexivity|].
  apply (new_contents_no_panic [] w_file w_chunks). vm_compute. reflexivity.
Defined.

Lemma apply_replacements_is_splice_witness :
  apply_replacements (lit <$> ["a"; "b"; "c"]) [(0, 1, [lit "x"]); (2, 1, [])]
  = Some (lit <$> ["x"; "b"]).
Proof.
  rewrite (apply_replacements_is_splice (lit <$> ["a"; "b"; "c"]) [(0, 1, [lit "x"]); (2, 1, [])]);
    [reflexivity|cbn; lia].
Defined.

Lemma compute_replacements_in_order_witness :
  ordered 0 3 [(0, 1, [lit "x"; lit "y"]); (2, 1, [])].
Proof.
  destruct (compute_replacements_in_order (lit <$> ["a"; "b"; "c"]) [] w_chunks
              [(0, 1, [lit "x"; lit "y"]); (2, 1, [])]) as [H _];
    [repeat constructor; discriminate|vm_compute; reflexivity|exact H].
Defined.

Lemma new_contents_newline_terminated_witness :
  exists s, join [NL] (lit <$> ["x"; "y"; "b"; ""]) = s ++ [NL].
Proof.
  destruct (new_contents_newline_terminated [] w_file w_chunks (join [NL] (lit <$> ["x"; "y"; "b"; ""])))
    as [H|H]; [vm_compute; reflexivity|vm_compute in H; discriminate H|exact H].
Defined.

(** The loss with a real edit: the file ends with a blank line, the chunk
    changes its first line only. *)
Example final_blank_line_lost_example :
  new_contents [] (join [NL] (lit <$> ["a"; "b"; ""; ""])) [w_chunk ["a"] ["x"]]
  = Ok (Some (join [NL] (lit <$> ["x"; "b"; ""]))).
Proof. vm_compute. reflexivity. Qed.
