(* ===== verification/FileSystem.v ===== *)
(** The file-system interface [apply_patch] runs against.

    [ExecutorFileSystem] is the trait of [file-system/src/lib.rs], restricted to
    the operations patch application calls; an operation that can change the
    file system returns the new one, also when it fails.  [PathUri] is the
    interface of [utils/path-uri], whose implementation rests on the [url]
    crate.  [FileSystemLaws] states what clients may rely on. *)

From stdpp Require Import base list option numbers strings gmap.
From Stdlib Require Import NArith Lia.
From S2P Require Import Prelude RustStr.
Local Open Scope rust_scope.

(** * I/O errors *)

Inductive ErrorKind : Type := NotFound | InvalidInput | InvalidData | OtherKind.

#[global] Instance ErrorKind_eq_dec : EqDecision ErrorKind.
Proof. solve_decision. Defined.

Record io_error : Type := { kind : ErrorKind; message : str }.

Definition is_not_found (e : io_error) : bool := kind e == NotFound.

(** * Interfaces *)

Class PathUriOps (Path : Type) : Type := {
  path_eq_dec :: EqDecision Path;
  (** [PathUri::join]; the error is the text of a [PathUriParseError]. *)
  path_join : Path -> str -> result Path str;
  path_parent : Path -> option Path;
  (** [PathUri::inferred_native_path_string], also the text of [to_path_buf]. *)
  native_path : Path -> str
}.

Record FileMetadata : Type := {
  is_directory : bool;
  is_file : bool;
  is_symlink : bool
}.

Class ExecutorFileSystem (Path FS : Type) : Type := {
  read_file_text : FS -> Path -> result str io_error;
  write_file : FS -> Path -> str -> FS * result unit io_error;
  (** [create_directory] with [recursive: true]. *)
  create_directory : FS -> Path -> FS * result unit io_error;
  get_metadata : FS -> Path -> result FileMetadata io_error;
  (** [remove] with [recursive: false, force: false]. *)
  remove : FS -> Path -> FS * result unit io_error
}.

(** A path that is absent or a regular file, not a symbolic link. *)
Definition plain {Path FS} `{ExecutorFileSystem Path FS} (fs : FS) (p : Path) : bool :=
  match get_metadata fs p with
  | Ok md => is_file md && negb (is_symlink md)
  | Err e => is_not_found e
  end.

(** * Laws

    [view fs p] is the text a path holds.  Mutations through a plain path
    concern that path only; a write that reports a missing parent and the
    creation of directories change no text; a failed write says nothing about
    the file it was to write, a failed remove has either left the file alone or
    removed it.  The laws describe files that no second path names. *)
Class FileSystemLaws (Path FS : Type) `{ExecutorFileSystem Path FS} : Type := {
  view : FS -> Path -> option str;
  read_ok : forall fs p c, read_file_text fs p = Ok c -> view fs p = Some c;
  read_not_found : forall fs p e,
    read_file_text fs p = Err e -> is_not_found e = true -> view fs p = None;
  write_ok : forall fs p c fs' u, plain fs p = true -> write_file fs p c = (fs', Ok u) ->
    view fs' p = Some c /\ forall q, q <> p -> view fs' q = view fs q;
  write_no_parent : forall fs p c fs' e, write_file fs p c = (fs', Err e) ->
    is_not_found e = true -> (forall q, view fs' q = view fs q) /\ plain fs' p = plain fs p;
  create_directory_keeps : forall fs p d fs' r, create_directory fs d = (fs', r) ->
    (forall q, view fs' q = view fs q) /\ (plain fs p = true -> plain fs' p = true);
  remove_ok : forall fs p fs' u, remove fs p = (fs', Ok u) ->
    view fs' p = None /\ forall q, q <> p -> view fs' q = view fs q;
  remove_err : forall fs p fs' e, remove fs p = (fs', Err e) ->
    (view fs' p = view fs p \/ view fs' p = None) /\ forall q, q <> p -> view fs' q = view fs q
}.

(** * An instance: files in memory *)

Module MemoryFs.

#[export] Instance path_ops : PathUriOps str := {|
  path_join cwd p := if starts_with (lit "/") p then Ok p else Ok (cwd ++ lit "/" ++ p);
  path_parent p := match rsplit_once 47%N p with Some (d, _) => Some d | None => None end;
  native_path p := p
|}.

Definition not_found : io_error :=
  {| kind := NotFound; message := lit "No such file or directory (os error 2)" |}.

#[export] Instance ops {Path} `{Countable Path} : ExecutorFileSystem Path (gmap Path str) := {|
  read_file_text fs p := match fs !! p with Some c => Ok c | None => Err not_found end;
  write_file fs p c := (<[p:=c]> fs, Ok tt);
  create_directory fs _ := (fs, Ok tt);
  get_metadata fs p :=
    match fs !! p with
    | Some _ => Ok {| is_directory := false; is_file := true; is_symlink := false |}
    | None => Err not_found
    end;
  remove fs p := match fs !! p with Some _ => (delete p fs, Ok tt) | None => (fs, Err not_found) end
|}.

#[local] Obligation Tactic := idtac.
#[export] Program Instance laws {Path} `{Countable Path} : FileSystemLaws Path (gmap Path str) := {|
  view fs p := fs !! p
|}.
Next Obligation. intros Path ?? fs p c; cbn. by case_match; intros [= <-]. Qed.
Next Obligation. intros Path ?? fs p e; cbn. by case_match. Qed.
Next Obligation.
  intros Path ?? fs p c fs' u _; cbn. intros [= <- _]. split; [apply lookup_insert_eq|].
  intros q Hq. by apply lookup_insert_ne.
Qed.
Next Obligation. done. Qed.
Next Obligation. intros Path ?? fs p d fs' r; cbn. by intros [= <- _]. Qed.
Next Obligation.
  intros Path ?? fs p fs' u; cbn. case_match; intros [= <- _]. split; [apply lookup_delete_eq|].
  intros q Hq. by apply lookup_delete_ne.
Qed.
Next Obligation. intros Path ?? fs p fs' e; cbn. case_match; intros [= <- _]. auto. Qed.

End MemoryFs.
