(* ===== verification/ApplyHunks.v ===== *)
(** Applying hunks to a file system: [apply_patch], [apply_hunks] and
    [apply_hunks_to_files] of [apply-patch/src/lib.rs], with the delta of the
    changes that were committed, also when a later hunk fails. *)

From stdpp Require Import base list option numbers strings gmap.
From Stdlib Require Import NArith Lia.
From S2P Require Import Prelude RustStr PatchSyntax StreamingParser SeekSequence Replacements FileSystem.
Local Open Scope rust_scope.

(** * Errors *)

Inductive ApplyPatchError : Type :=
| PatchParseError (e : ParseError)
| IoError (context : str) (source : io_error)
| ComputeReplacementsError (message : str)
| PathUriError (message : str)
| ImplicitInvocation
| Panicked.

Definition show_parse_error (e : ParseError) : str :=
  match e with
  | InvalidPatchError m => lit "invalid patch: " ++ m
  | InvalidHunkError m n => lit "invalid hunk at line " ++ show_nat n ++ lit ", " ++ m
  end.

(** [to_string] of the error. *)
Definition show_error (e : ApplyPatchError) : str :=
  match e with
  | PatchParseError e => show_parse_error e
  | IoError context source => context ++ lit ": " ++ message source
  | ComputeReplacementsError m => m
  | PathUriError m => m
  | ImplicitInvocation =>
      lit "patch detected without explicit call to apply_patch. Rerun as ["
      ++ [QUOTE] ++ lit "apply_patch" ++ [QUOTE] ++ lit ", " ++ [QUOTE] ++ lit "<patch>"
      ++ [QUOTE] ++ lit "]"
  | Panicked => []
  end.

(** [anyhow::Error], as far as [apply_hunks] looks into it: an I/O error with an
    optional context, or another error by its text. *)
Inductive anyhow_error : Type :=
| AnyhowIo (context : option str) (e : io_error)
| AnyhowOther (text : str).

Definition anyhow_to_string (e : anyhow_error) : str :=
  match e with
  | AnyhowIo (Some context) _ => context
  | AnyhowIo None e => message e
  | AnyhowOther text => text
  end.

Definition with_context {A} (context : str) (r : result A io_error) : result A anyhow_error :=
  map_err (AnyhowIo (Some context)) r.

(** [ApplyPatchError::from(io::Error)]. *)
Definition from_io_error (e : io_error) : ApplyPatchError := IoError (lit "I/O error") e.

(** * Deltas *)

Inductive AppliedPatchFileChange : Type :=
| Added (content : str) (overwritten_content : option str)
| Deleted (content : str)
| Updated (move_path : option str) (old_content : str)
    (overwritten_move_content : option str) (new_content : str).

Record AppliedPatchChange : Type := {
  change_path : str;
  change : AppliedPatchFileChange
}.

Record AppliedPatchDelta : Type := {
  changes : list AppliedPatchChange;
  exact : bool
}.

Definition delta_empty : AppliedPatchDelta := {| changes := []; exact := true |}.

Definition delta_append (d other : AppliedPatchDelta) : AppliedPatchDelta :=
  {| changes := changes d ++ changes other; exact := exact d && exact other |}.

Definition set_exact (d : AppliedPatchDelta) (e : bool) : AppliedPatchDelta :=
  {| changes := changes d; exact := e |}.

Definition push_change (d : AppliedPatchDelta) (p : str) (c : AppliedPatchFileChange)
  : AppliedPatchDelta :=
  {| changes := changes d ++ [{| change_path := p; change := c |}]; exact := exact d |}.

(** [delta.changes[i] = ...] for the index of the last change. *)
Definition replace_last_change (d : AppliedPatchDelta) (p : str) (c : AppliedPatchFileChange)
  : AppliedPatchDelta :=
  {| changes := <[length (changes d) - 1 := {| change_path := p; change := c |}]> (changes d);
     exact := exact d |}.

Record AffectedPaths : Type := {
  added : list str;
  modified : list str;
  deleted : list str
}.

Definition no_paths : AffectedPaths := {| added := []; modified := []; deleted := [] |}.
Definition add_added (a : AffectedPaths) (p : str) : AffectedPaths :=
  {| added := added a ++ [p]; modified := modified a; deleted := deleted a |}.
Definition add_modified (a : AffectedPaths) (p : str) : AffectedPaths :=
  {| added := added a; modified := modified a ++ [p]; deleted := deleted a |}.
Definition add_deleted (a : AffectedPaths) (p : str) : AffectedPaths :=
  {| added := added a; modified := modified a; deleted := deleted a ++ [p] |}.

Section apply.
Context {Path FS : Type} `{PathUriOps Path} `{ExecutorFileSystem Path FS}.

Definition ensure_not_directory (fs : FS) (path : Path) : result unit io_error :=
  let? metadata := get_metadata fs path in
  if is_directory metadata
  then Err {| kind := InvalidInput; message := lit "path is a directory" |}
  else Ok tt.

Definition remove_failure_was_side_effect_free (fs : FS) (path : Path)
    (expected_content : option str) : bool :=
  match expected_content with
  | Some expected =>
      match read_file_text fs path with Ok content => content == expected | Err _ => false end
  | None => false
  end.

(** The new value of [exact]. *)
Definition note_existing_path_delta_support (fs : FS) (path : Path) (exact : bool) : bool :=
  match get_metadata fs path with
  | Ok metadata => if is_file metadata && negb (is_symlink metadata) then exact else false
  | Err source => if is_not_found source then exact else false
  end.

Definition read_optional_file_text_for_delta (fs : FS) (path : Path) (exact : bool)
  : option str * bool :=
  let exact := note_existing_path_delta_support fs path exact in
  match read_file_text fs path with
  | Ok content => (Some content, exact)
  | Err source => if is_not_found source then (None, exact) else (None, false)
  end.

Definition write_file_with_missing_parent_retry (fs : FS) (path : Path) (contents : str)
  : FS * result unit anyhow_error :=
  let ctx_write := lit "Failed to write file " ++ native_path path in
  match write_file fs path contents with
  | (fs, Ok _) => (fs, Ok tt)
  | (fs, Err err) =>
      if is_not_found err then
        let '(fs, created) :=
          match path_parent path with
          | Some parent =>
              let '(fs, r) := create_directory fs parent in
              (fs, with_context
                     (lit "Failed to create parent directories for " ++ native_path path) r)
          | None => (fs, Ok tt)
          end in
        match created with
        | Err e => (fs, Err e)
        | Ok _ => let '(fs, r) := write_file fs path contents in (fs, with_context ctx_write r)
        end
      else (fs, Err (AnyhowIo (Some ctx_write) err))
  end.

Record AppliedPatch : Type := { original_contents : str; patched_contents : str }.

Definition derive_new_contents_from_chunks (fs : FS) (path : Path)
    (chunks : list UpdateFileChunk) : result AppliedPatch ApplyPatchError :=
  let? original :=
    map_err (IoError (lit "Failed to read file to update " ++ native_path path))
            (read_file_text fs path) in
  match new_contents (native_path path) original chunks with
  | Ok (Some text) => Ok {| original_contents := original; patched_contents := text |}
  | Ok None => Err Panicked
  | Err (ComputeReplacements m) => Err (ComputeReplacementsError m)
  end.

(** The state of the loop over hunks: file system, delta, and the affected
    paths or the error that ended it. *)
Definition step_result : Type := FS * AppliedPatchDelta * result AffectedPaths anyhow_error.

Definition apply_add (fs : FS) (d : AppliedPatchDelta) (aff : AffectedPaths)
    (affected_path : str) (uri : Path) (contents : str) : step_result :=
  let '(overwritten_content, ex) := read_optional_file_text_for_delta fs uri (exact d) in
  let d := set_exact d ex in
  match write_file_with_missing_parent_retry fs uri contents with
  | (fs, Err e) => (fs, set_exact d false, Err e)
  | (fs, Ok _) =>
      (fs, push_change d (native_path uri) (Added contents overwritten_content),
       Ok (add_added aff affected_path))
  end.

Definition apply_delete (fs : FS) (d : AppliedPatchDelta) (aff : AffectedPaths)
    (affected_path : str) (uri : Path) : step_result :=
  let d := set_exact d (note_existing_path_delta_support fs uri (exact d)) in
  let deleted_content := ok (read_file_text fs uri) in
  let d := match deleted_content with None => set_exact d false | Some _ => d end in
  let ctx := lit "Failed to delete file " ++ native_path uri in
  match with_context ctx (ensure_not_directory fs uri) with
  | Err e => (fs, d, Err e)
  | Ok _ =>
      match remove fs uri with
      | (fs, Err e) =>
          (fs, set_exact d (exact d && remove_failure_was_side_effect_free fs uri deleted_content),
           Err (AnyhowIo (Some ctx) e))
      | (fs, Ok _) =>
          (fs, match deleted_content with
               | Some content => push_change d (native_path uri) (Deleted content)
               | None => d
               end, Ok (add_deleted aff affected_path))
      end
  end.

Definition apply_update_in_place (fs : FS) (d : AppliedPatchDelta) (aff : AffectedPaths)
    (affected_path : str) (uri : Path) (p : AppliedPatch) : step_result :=
  match write_file fs uri (patched_contents p) with
  | (fs, Err e) =>
      (fs, set_exact d false, Err (AnyhowIo (Some (lit "Failed to write file " ++ native_path uri)) e))
  | (fs, Ok _) =>
      (fs, push_change d (native_path uri)
             (Updated None (original_contents p) None (patched_contents p)),
       Ok (add_modified aff affected_path))
  end.

Definition apply_update_move (fs : FS) (d : AppliedPatchDelta) (aff : AffectedPaths)
    (affected_path : str) (uri dest_uri : Path) (p : AppliedPatch) : step_result :=
  let '(overwritten, ex) := read_optional_file_text_for_delta fs dest_uri (exact d) in
  let d := set_exact d ex in
  match write_file_with_missing_parent_retry fs dest_uri (patched_contents p) with
  | (fs, Err e) => (fs, set_exact d false, Err e)
  | (fs, Ok _) =>
      let d := push_change d (native_path dest_uri) (Added (patched_contents p) overwritten) in
      let ctx := lit "Failed to remove original " ++ native_path uri in
      match with_context ctx (ensure_not_directory fs uri) with
      | Err e => (fs, d, Err e)
      | Ok _ =>
          match remove fs uri with
          | (fs, Err e) =>
              (fs, set_exact d (exact d && remove_failure_was_side_effect_free fs uri
                                             (Some (original_contents p))),
               Err (AnyhowIo (Some ctx) e))
          | (fs, Ok _) =>
              (fs, replace_last_change d (native_path uri)
                     (Updated (Some (native_path dest_uri)) (original_contents p) overwritten
                              (patched_contents p)),
               Ok (add_modified aff affected_path))
          end
      end
  end.

Definition apply_update (cwd : Path) (fs : FS) (d : AppliedPatchDelta) (aff : AffectedPaths)
    (affected_path : str) (uri : Path) (move_path : option str) (chunks : list UpdateFileChunk)
  : step_result :=
  let d := set_exact d (note_existing_path_delta_support fs uri (exact d)) in
  match derive_new_contents_from_chunks fs uri chunks with
  | Err e => (fs, d, Err (AnyhowOther (show_error e)))
  | Ok p =>
      match move_path with
      | Some dest =>
          match path_join cwd dest with
          | Err e => (fs, d, Err (AnyhowOther e))
          | Ok dest_uri => apply_update_move fs d aff affected_path uri dest_uri p
          end
      | None => apply_update_in_place fs d aff affected_path uri p
      end
  end.

(** The body of the loop over hunks. *)
Definition apply_hunk (cwd : Path) (fs : FS) (d : AppliedPatchDelta) (aff : AffectedPaths)
    (hunk : Hunk) : step_result :=
  let affected_path := hunk_path hunk in
  match path_join cwd (hunk_source_path hunk) with
  | Err e => (fs, d, Err (AnyhowOther e))
  | Ok uri =>
      match hunk with
      | AddFile _ contents => apply_add fs d aff affected_path uri contents
      | DeleteFile _ => apply_delete fs d aff affected_path uri
      | UpdateFile _ move_path chunks => apply_update cwd fs d aff affected_path uri move_path chunks
      end
  end.

Fixpoint apply_hunk_loop (cwd : Path) (fs : FS) (d : AppliedPatchDelta) (aff : AffectedPaths)
    (hunks : list Hunk) : step_result :=
  match hunks with
  | [] => (fs, d, Ok aff)
  | h :: hunks =>
      match apply_hunk cwd fs d aff h with
      | (fs, d, Ok aff) => apply_hunk_loop cwd fs d aff hunks
      | (fs, d, Err e) => (fs, d, Err e)
      end
  end.

Definition apply_hunks_to_files (hunks : list Hunk) (cwd : Path) (fs : FS)
    (d : AppliedPatchDelta) : step_result :=
  match hunks with
  | [] => (fs, d, Err (AnyhowOther (lit "No files were modified.")))
  | _ => apply_hunk_loop cwd fs d no_paths hunks
  end.

(** * Reporting

    Both output streams are [impl std::io::Write]; [writeln] is one call. *)
Section output.
Context {W : Type} (writeln : W -> str -> W * result unit io_error).

Fixpoint write_lines (out : W) (ls : list str) : W * result unit io_error :=
  match ls with
  | [] => (out, Ok tt)
  | l :: ls =>
      match writeln out l with
      | (out, Ok _) => write_lines out ls
      | (out, Err e) => (out, Err e)
      end
  end.

Definition summary_lines (affected : AffectedPaths) : list str :=
  lit "Success. Updated the following files:"
  :: ((fun p => lit "A " ++ p) <$> added affected)
  ++ ((fun p => lit "M " ++ p) <$> modified affected)
  ++ ((fun p => lit "D " ++ p) <$> deleted affected).

Definition print_summary (affected : AffectedPaths) (out : W) : W * result unit io_error :=
  write_lines out (summary_lines affected).

Record ApplyPatchFailure : Type := { error : ApplyPatchError; delta : AppliedPatchDelta }.

Definition apply_hunks (hunks : list Hunk) (cwd : Path) (out err : W) (fs : FS)
  : FS * W * W * result AppliedPatchDelta ApplyPatchFailure :=
  match apply_hunks_to_files hunks cwd fs delta_empty with
  | (fs, d, Ok affected_paths) =>
      match print_summary affected_paths out with
      | (out, Ok _) => (fs, out, err, Ok d)
      | (out, Err e) => (fs, out, err, Err {| error := from_io_error e; delta := d |})
      end
  | (fs, d, Err e) =>
      let msg := anyhow_to_string e in
      match writeln err msg with
      | (err, Err we) => (fs, out, err, Err {| error := from_io_error we; delta := d |})
      | (err, Ok _) =>
          let error :=
            match e with
            | AnyhowIo _ io => from_io_error io
            | AnyhowOther text => IoError msg {| kind := OtherKind; message := text |}
            end in
          (fs, out, err, Err {| error := error; delta := d |})
      end
  end.

Definition parse_error_line (e : ParseError) : str :=
  match e with
  | InvalidPatchError message => lit "Invalid patch: " ++ message
  | InvalidHunkError message line_number =>
      lit "Invalid patch hunk on line " ++ show_nat line_number ++ lit ": " ++ message
  end.

Definition apply_patch (text : str) (cwd : Path) (out err : W) (fs : FS)
  : FS * W * W * result AppliedPatchDelta ApplyPatchFailure :=
  match parse_patch text with
  | Ok source => apply_hunks (hunks source) cwd out err fs
  | Err e =>
      match writeln err (parse_error_line e) with
      | (err, Err we) =>
          (fs, out, err, Err {| error := from_io_error we; delta := delta_empty |})
      | (err, Ok _) =>
          (fs, out, err, Err {| error := PatchParseError e; delta := delta_empty |})
      end
  end.
End output.
End apply.

(** * What a delta means

    A change as an edit of the texts that paths hold, and its inverse.  A
    rename is the write of its destination followed by the removal of its
    source. *)

Section delta.
Context {Path FS : Type} `{PathUriOps Path} `{!ExecutorFileSystem Path FS} `{!FileSystemLaws Path FS}.
Implicit Types (v : Path -> option str) (fs : FS).

Definition replay_change (c : AppliedPatchChange) v (q : Path) : option str :=
  match change c with
  | Added content _ => if native_path q == change_path c then Some content else v q
  | Deleted _ => if native_path q == change_path c then None else v q
  | Updated None _ _ new => if native_path q == change_path c then Some new else v q
  | Updated (Some dest) _ _ new =>
      if native_path q == change_path c then None
      else if native_path q == dest then Some new else v q
  end.

Definition undo_change (c : AppliedPatchChange) v (q : Path) : option str :=
  match change c with
  | Added _ overwritten => if native_path q == change_path c then overwritten else v q
  | Deleted content => if native_path q == change_path c then Some content else v q
  | Updated None old _ _ => if native_path q == change_path c then Some old else v q
  | Updated (Some dest) old overwritten _ =>
      if native_path q == dest then overwritten
      else if native_path q == change_path c then Some old else v q
  end.

Definition replay (cs : list AppliedPatchChange) v : Path -> option str :=
  foldl (fun v c => replay_change c v) v cs.
Definition undo (cs : list AppliedPatchChange) v : Path -> option str :=
  foldr undo_change v cs.

(** Distinct files have distinct native paths. *)
Context (native_inj : forall p q : Path, native_path p = native_path q -> p = q).

Lemma native_eqb p q : (native_path q == native_path p) = (q == p).
Proof using native_inj.
  do 2 case_bool_decide; try done; [by exfalso; eauto|congruence].
Qed.

(** The paths of a change are native paths of files. *)
Definition named (c : AppliedPatchChange) : Prop :=
  (exists p : Path, native_path p = change_path c) /\
  match change c with
  | Updated (Some dest) _ _ _ => exists q : Path, native_path q = dest
  | _ => True
  end.

(** What one iteration may do to the texts and to the delta. *)
Definition step_ok (fs : FS) (d : AppliedPatchDelta) (fs' : FS) (d' : AppliedPatchDelta) : Prop :=
  exact d' = true ->
  exact d = true /\
  ((changes d' = changes d /\ forall q, view fs' q = view fs q) \/
   exists c, changes d' = changes d ++ [c] /\ named c /\
     (forall q, view fs' q = replay_change c (view fs) q) /\
     (forall q, undo_change c (view fs') q = view fs q)).

Lemma note_existing_exact fs p e :
  note_existing_path_delta_support fs p e = true -> e = true /\ plain fs p = true.
Proof.
  unfold note_existing_path_delta_support, plain. repeat case_match; naive_solver.
Qed.

Lemma read_optional_exact fs p e o :
  read_optional_file_text_for_delta fs p e = (o, true) ->
  e = true /\ plain fs p = true /\ o = view fs p.
Proof.
  unfold read_optional_file_text_for_delta.
  destruct (read_file_text fs p) as [c|err] eqn:E.
  - intros [= <- [-> Hp]%note_existing_exact]. split_and!; [done..|]. symmetry. by apply read_ok.
  - destruct (is_not_found err) eqn:Ee; [|done].
    intros [= <- [-> Hp]%note_existing_exact]. split_and!; [done..|]. symmetry. by eapply read_not_found.
Qed.

Lemma write_retry_ok fs p c fs' u :
  plain fs p = true -> write_file_with_missing_parent_retry fs p c = (fs', Ok u) ->
  view fs' p = Some c /\ forall q, q <> p -> view fs' q = view fs q.
Proof.
  intros Hp. unfold write_file_with_missing_parent_retry.
  destruct (write_file fs p c) as [fs1 [[]|err]] eqn:E1.
  { intros [= <- _]. by eapply write_ok. }
  destruct (is_not_found err) eqn:Ee; [|done].
  destruct (write_no_parent _ _ _ _ _ E1 Ee) as [Hv1 Hp1].
  assert (forall fs2, (forall q, view fs2 q = view fs1 q) -> plain fs2 p = true ->
    (let '(fs, r) := write_file fs2 p c in
     (fs, with_context (lit "Failed to write file " ++ native_path p) r)) = (fs', Ok u) ->
    view fs' p = Some c /\ forall q, q <> p -> view fs' q = view fs q) as Hfin.
  { intros fs2 Hv2 Hp2. destruct (write_file fs2 p c) as [fs3 [[]|e3]] eqn:E3; [|done].
    cbn. intros [= <- _]. destruct (write_ok _ _ _ _ _ Hp2 E3) as [Hc Hq].
    split; [done|]. intros q Hne. by rewrite Hq, Hv2, Hv1 by done. }
  destruct (path_parent p) as [dir|].
  - destruct (create_directory fs1 dir) as [fs2 r] eqn:E2.
    destruct (create_directory_keeps _ p _ _ _ E2) as [Hv2 Hp2].
    destruct r as [[]|]; [|done]. cbn. apply Hfin; [done|]. apply Hp2. by rewrite Hp1.
  - cbn. apply Hfin; [done|]. by rewrite Hp1.
Qed.

Lemma step_unchanged fs d d' :
  changes d' = changes d -> (exact d' = true -> exact d = true) -> step_ok fs d fs d'.
Proof. intros Hc He Hx. split; [auto|]. by left. Qed.

Lemma step_inexact fs d fs' d' : exact d' = false -> step_ok fs d fs' d'.
Proof. intros Hf Hx. congruence. Qed.

Ltac by_path p q :=
  rewrite ?native_eqb; destruct (decide (q = p)) as [->|?];
  rewrite ?bool_decide_eq_true_2, ?bool_decide_eq_false_2 by done; auto.

Lemma apply_add_step fs d aff a p contents fs' d' r :
  apply_add fs d aff a p contents = (fs', d', r) -> step_ok fs d fs' d'.
Proof using native_inj.
  unfold apply_add.
  destruct (read_optional_file_text_for_delta fs p (exact d)) as [over ex] eqn:Er.
  destruct (write_file_with_missing_parent_retry fs p contents) as [fs1 [[]|e]] eqn:Ew;
    intros [= <- <- <-]; [|by apply step_inexact].
  intros Hx. cbn in Hx. subst ex.
  apply read_optional_exact in Er as (Hd & Hp & Hover).
  destruct (write_retry_ok _ _ _ _ _ Hp Ew) as [Hv Hq].
  split; [done|]. right. eexists. split; [done|]. split; [by split; cbn; eauto|].
  split; intros q; unfold replay_change, undo_change; cbn; by_path p q.
Qed.

Lemma apply_delete_step fs d aff a p fs' d' r :
  apply_delete fs d aff a p = (fs', d', r) -> step_ok fs d fs' d'.
Proof using native_inj.
  unfold apply_delete. destruct (read_file_text fs p) as [c|e0] eqn:Er; cbn [ok].
  - assert (view fs p = Some c) as Hc by by apply read_ok.
    destruct (with_context _ _) as [[]|e].
    2: { intros [= <- <- <-]. apply step_unchanged; [done|]. cbn. by intros [? _]%note_existing_exact. }
    destruct (remove fs p) as [fs1 [[]|e]] eqn:Em; intros [= <- <- <-] Hx; cbn in Hx.
    + apply note_existing_exact in Hx as [Hd _]. destruct (remove_ok _ _ _ _ Em) as [Hv Hq].
      split; [done|]. right. eexists. split; [done|]. split; [by split; cbn; eauto|].
      split; intros q; unfold replay_change, undo_change; cbn; by_path p q.
    + apply andb_prop in Hx as [[Hd _]%note_existing_exact Hf].
      split; [done|]. left. split; [done|]. intros q.
      destruct (remove_err _ _ _ _ Em) as [_ Hq].
      destruct (decide (q = p)) as [->|Hne]; [|by apply Hq].
      destruct (read_file_text fs1 p) as [c'|] eqn:Er1; [|done]. to_props. subst c'.
      rewrite Hc. by apply read_ok.
  - destruct (with_context _ _) as [[]|e]; [|by intros [= <- <- <-]; apply step_inexact].
    destruct (remove fs p) as [fs1 [[]|e]]; intros [= <- <- <-]; by apply step_inexact.
Qed.

Lemma apply_update_in_place_step fs d aff a p ap fs' d' r :
  plain fs p = true -> view fs p = Some (original_contents ap) ->
  apply_update_in_place fs d aff a p ap = (fs', d', r) -> step_ok fs d fs' d'.
Proof using native_inj.
  intros Hp Hc. unfold apply_update_in_place.
  destruct (write_file fs p (patched_contents ap)) as [fs1 [[]|e]] eqn:Ew;
    intros [= <- <- <-]; [|by apply step_inexact].
  intros Hx. destruct (write_ok _ _ _ _ _ Hp Ew) as [Hv Hq].
  split; [done|]. right. eexists. split; [done|]. split; [by split; cbn; eauto|].
  split; intros q; unfold replay_change, undo_change; cbn; by_path p q.
Qed.

Lemma replace_pushed_change d p1 c1 p2 c2 :
  replace_last_change (push_change d p1 c1) p2 c2 = push_change d p2 c2.
Proof.
  unfold replace_last_change, push_change. cbn. f_equal.
  rewrite length_app. cbn. replace (length (changes d) + 1 - 1) with (length (changes d) + 0) by lia.
  by rewrite insert_app_r.
Qed.

Lemma apply_update_move_step fs d aff a p dest ap fs' d' r :
  view fs p = Some (original_contents ap) ->
  apply_update_move fs d aff a p dest ap = (fs', d', r) -> step_ok fs d fs' d'.
Proof using native_inj.
  intros Hc. unfold apply_update_move.
  destruct (read_optional_file_text_for_delta fs dest (exact d)) as [over ex] eqn:Er.
  destruct (write_file_with_missing_parent_retry fs dest _) as [fs1 [[]|e]] eqn:Ew;
    [|intros [= <- <- <-]; by apply step_inexact].
  assert (forall fs2 d2, changes d2 = changes d ++ [{| change_path := native_path dest;
      change := Added (patched_contents ap) over |}] ->
    (exact d2 = true -> ex = true /\ forall q, view fs2 q = view fs1 q) -> step_ok fs d fs2 d2) as Hadd.
  { intros fs2 d2 Hch Hex Hx. destruct (Hex Hx) as [-> Hv2].
    apply read_optional_exact in Er as (Hd & Hp & Hover).
    destruct (write_retry_ok _ _ _ _ _ Hp Ew) as [Hv Hq].
    split; [done|]. right. eexists. split; [done|]. split; [by split; cbn; eauto|].
    split; intros q; unfold replay_change, undo_change; cbn; rewrite ?Hv2; by_path dest q. }
  destruct (with_context _ _) as [[]|e]; [|intros [= <- <- <-]; by apply Hadd].
  destruct (remove fs1 p) as [fs2 [[]|e]] eqn:Em; intros [= <- <- <-].
  - rewrite replace_pushed_change. intros Hx. cbn in Hx. subst ex.
    apply read_optional_exact in Er as (Hd & Hp & Hover).
    destruct (write_retry_ok _ _ _ _ _ Hp Ew) as [Hv Hq].
    destruct (remove_ok _ _ _ _ Em) as [Hrv Hrq].
    split; [done|]. right. eexists. split; [done|]. split; [by split; cbn; eauto|].
    split; intros q; unfold replay_change, undo_change; cbn; rewrite !native_eqb.
    + destruct (decide (q = p)) as [->|Hne]; [by rewrite bool_decide_eq_true_2|].
      rewrite Hrq, bool_decide_eq_false_2 by done. by_path dest q.
    + destruct (decide (q = dest)) as [->|Hne]; [by rewrite bool_decide_eq_true_2|].
      rewrite bool_decide_eq_false_2 by done. by_path p q. rewrite Hrq by done. auto.
  - apply Hadd; [done|]. cbn. intros [-> Hf]%andb_prop. split; [done|]. intros q.
    apply read_optional_exact in Er as (Hd & Hp & Hover).
    destruct (remove_err _ _ _ _ Em) as [Hrv Hrq].
    destruct (decide (q = p)) as [->|Hne]; [|by apply Hrq].
    destruct (read_file_text fs2 p) as [c'|] eqn:Er2; [|done].
    apply read_ok in Er2. destruct Hrv as [?|Hn]; [done|congruence].
Qed.

Lemma derive_reads fs p chunks ap :
  derive_new_contents_from_chunks fs p chunks = Ok ap -> view fs p = Some (original_contents ap).
Proof.
  unfold derive_new_contents_from_chunks.
  destruct (read_file_text fs p) as [c|] eqn:E; [|done]. cbn.
  repeat case_match; intros [= <-]. by apply read_ok.
Qed.

Lemma step_ok_exact_weaken fs d d1 fs' d' :
  changes d1 = changes d -> (exact d1 = true -> exact d = true) ->
  step_ok fs d1 fs' d' -> step_ok fs d fs' d'.
Proof.
  intros Hc He Hs Hx. destruct (Hs Hx) as [Hd1 Hcase]. rewrite Hc in Hcase. auto.
Qed.

Lemma apply_hunk_step cwd fs d aff h fs' d' r :
  apply_hunk cwd fs d aff h = (fs', d', r) -> step_ok fs d fs' d'.
Proof using native_inj.
  unfold apply_hunk. destruct (path_join cwd (hunk_source_path h)) as [p|e];
    [|intros [= <- <- <-]; by apply step_unchanged].
  destruct h as [path contents|path|path mv chunks];
    [by apply apply_add_step|by apply apply_delete_step|].
  unfold apply_update. set (d1 := set_exact d _).
  destruct (derive_new_contents_from_chunks fs p chunks) as [ap|e] eqn:Ed.
  2: { intros [= <- <- <-]. apply step_unchanged; [done|]. by intros [? _]%note_existing_exact. }
  pose proof (derive_reads _ _ _ _ Ed) as Hc.
  assert (exact d1 = true -> exact d = true /\ plain fs p = true) as Hex
    by apply note_existing_exact.
  assert (changes d1 = changes d) as Hch by done. clearbody d1.
  destruct mv as [dest|].
  - destruct (path_join cwd dest) as [dest_uri|e].
    + intros Hm. apply (step_ok_exact_weaken _ _ d1); [done|naive_solver|].
      by eapply apply_update_move_step.
    + intros [= <- <- <-]. apply step_unchanged; [done|]. naive_solver.
  - intros Hm Hx. destruct (exact d1) eqn:Hd1.
    + revert Hx. apply (step_ok_exact_weaken _ _ d1); [done|naive_solver|].
      destruct (Hex eq_refl). by eapply apply_update_in_place_step.
    + exfalso. unfold apply_update_in_place in Hm.
      destruct (write_file fs p _) as [? [|]]; injection Hm as <- <- <-; cbn in Hx; congruence.
Qed.

Lemma replay_change_ext c v v' q : (forall q, v q = v' q) -> replay_change c v q = replay_change c v' q.
Proof. intros Hv. unfold replay_change. by rewrite Hv. Qed.

Lemma undo_ext cs v v' q : (forall q, v q = v' q) -> undo cs v q = undo cs v' q.
Proof.
  intros Hv. revert q. unfold undo.
  induction cs as [|c cs IH]; intros q; cbn; [done|]. unfold undo_change. by rewrite IH.
Qed.

(** Every change records the texts it found. *)
Fixpoint consistent (cs : list AppliedPatchChange) v : Prop :=
  match cs with
  | [] => True
  | c :: cs => named c /\ (forall q, undo_change c (replay_change c v) q = v q) /\ consistent cs (replay_change c v)
  end.

Lemma undo_change_ext c v v' q : (forall q, v q = v' q) -> undo_change c v q = undo_change c v' q.
Proof. intros Hv. unfold undo_change. by rewrite Hv. Qed.

Lemma consistent_snoc cs c v :
  consistent cs v -> named c -> (forall q, undo_change c (replay_change c (replay cs v)) q = replay cs v q) ->
  consistent (cs ++ [c]) v.
Proof.
  revert v. induction cs as [|c' cs IH]; intros v; cbn; [done|]. intros (H1 & H2 & H3) H4 H5. split_and!; [done..|]. by apply IH.
Qed.

(** The delta accounts for the difference between the texts at the start and
    now, in both directions, change by change. *)
Definition accounts (v0 : Path -> option str) (fs : FS) (d : AppliedPatchDelta) : Prop :=
  (forall q, view fs q = replay (changes d) v0 q /\ undo (changes d) (view fs) q = v0 q)
  /\ consistent (changes d) v0.

Lemma step_ok_accounts v0 fs d fs' d' :
  step_ok fs d fs' d' -> exact d' = true -> (exact d = true -> accounts v0 fs d) ->
  accounts v0 fs' d'.
Proof.
  intros Hs Hx Hacc. destruct (Hs Hx) as [Hd Hcase]. destruct (Hacc Hd) as [Hq Hcs].
  destruct Hcase as [[Ec Hv]|(c & Ec & Hn & Hr & Hu)]; unfold accounts; rewrite Ec.
  - split; [|done]. intros q. destruct (Hq q) as [Hq1 Hq2]. rewrite Hv. split; [done|].
    rewrite <- Hq2. by apply undo_ext.
  - assert (forall q, view fs' q = replay_change c (replay (changes d) v0) q) as Hr'
      by (intros q; rewrite Hr; apply replay_change_ext; intros q'; apply Hq).
    split.
    + intros q. unfold replay, undo. rewrite foldl_app, foldr_app. cbn. split; [apply Hr'|].
      destruct (Hq q) as [_ <-]. by apply undo_ext.
    + apply consistent_snoc; [done..|]. intros q. rewrite <- (proj1 (Hq q)), <- Hu.
      apply undo_change_ext. intros q'. by rewrite Hr'.
Qed.

Lemma apply_hunk_loop_accounts v0 cwd hunks fs d aff fs' d' r :
  apply_hunk_loop cwd fs d aff hunks = (fs', d', r) -> exact d' = true ->
  (exact d = true -> accounts v0 fs d) -> accounts v0 fs' d'.
Proof using native_inj.
  revert fs d aff. induction hunks as [|h hunks IH]; intros fs d aff; cbn.
  { intros [= <- <- <-]. auto. }
  destruct (apply_hunk cwd fs d aff h) as [[fs1 d1] [aff1|e]] eqn:Eh.
  - intros Hrun Hx Hacc. apply (IH _ _ _ Hrun Hx). intros Hd1.
    eapply step_ok_accounts; [by eapply apply_hunk_step|done|done].
  - intros [= <- <- <-] Hx Hacc. eapply step_ok_accounts; [by eapply apply_hunk_step|done|done].
Qed.

Lemma apply_hunks_to_files_accounts hunks cwd fs fs' d r :
  apply_hunks_to_files hunks cwd fs delta_empty = (fs', d, r) -> exact d = true ->
  accounts (view fs) fs' d.
Proof using native_inj.
  assert (accounts (view fs) fs delta_empty) as H0 by done.
  unfold apply_hunks_to_files. destruct hunks as [|h hunks].
  - by intros [= <- <- <-].
  - intros Hrun Hx. by eapply apply_hunk_loop_accounts.
Qed.

Section output.
Context {W : Type} (writeln : W -> str -> W * result unit io_error).

(** Success or failure, the delta [apply_hunks] reports is the delta of the
    loop over hunks. *)
Lemma apply_hunks_delta hunks cwd out err fs fs' out' err' r :
  apply_hunks writeln hunks cwd out err fs = (fs', out', err', r) ->
  exists r', apply_hunks_to_files hunks cwd fs delta_empty
             = (fs', match r with Ok d => d | Err f => delta f end, r').
Proof.
  unfold apply_hunks.
  destruct (apply_hunks_to_files hunks cwd fs delta_empty) as [[fs1 d] [aff|e]].
  - destruct (print_summary _ _ _) as [o [[]|we]]; intros [= <- _ _ <-]; eauto.
  - destruct (writeln _ _) as [o [[]|we]]; intros [= <- _ _ <-]; eauto.
Qed.

Lemma apply_patch_consistent text cwd out err fs fs' out' err' r d :
  apply_patch writeln text cwd out err fs = (fs', out', err', r) ->
  d = match r with Ok d => d | Err f => delta f end -> exact d = true -> accounts (view fs) fs' d.
Proof using native_inj.
  unfold apply_patch. destruct (parse_patch text) as [args|e].
  - intros Hrun -> Hx. destruct (apply_hunks_delta _ _ _ _ _ _ _ _ _ Hrun) as [r' Hr'].
    by apply (apply_hunks_to_files_accounts _ _ _ _ _ _ Hr' Hx).
  - destruct (writeln _ _) as [o [[]|we]]; intros [= <- _ _ <-] -> _; done.
Qed.

(** * Properties *)

(** C2: an exact delta accounts for every file.  Whether [apply_patch]
    succeeds or fails half-way, if the delta it reports is exact, replaying
    the delta on the original texts gives the texts now on disk, for every
    path, and undoing it restores the original texts. *)
Theorem apply_patch_exact_delta text cwd out err fs fs' out' err' r d :
  apply_patch writeln text cwd out err fs = (fs', out', err', r) ->
  d = match r with Ok d => d | Err f => delta f end -> exact d = true ->
  forall q, view fs' q = replay (changes d) (view fs) q /\
            undo (changes d) (view fs') q = view fs q.
Proof using native_inj.
  intros Hrun Hd Hx. exact (proj1 (apply_patch_consistent _ _ _ _ _ _ _ _ _ _ Hrun Hd Hx)).
Qed.
End output.

(** Renaming a file onto itself deletes it.  An update hunk whose move
    destination is its own path, once reported as applied, has written the new
    text and then removed it: the path holds nothing. *)
Theorem move_onto_itself_deletes cwd fs d aff path chunks uri fs' d' aff' :
  path_join cwd path = Ok uri ->
  apply_hunk cwd fs d aff (UpdateFile path (Some path) chunks) = (fs', d', Ok aff') ->
  view fs' uri = None /\ modified aff' = modified aff ++ [path].
Proof.
  intros Hj. unfold apply_hunk. cbn [hunk_source_path hunk_path]. rewrite Hj. unfold apply_update.
  destruct (derive_new_contents_from_chunks fs uri chunks) as [ap|]; [|done]. rewrite Hj.
  unfold apply_update_move.
  destruct (read_optional_file_text_for_delta fs uri _) as [over ex].
  destruct (write_file_with_missing_parent_retry fs uri _) as [fs1 [[]|e]]; [|done].
  destruct (with_context _ _); [|done].
  destruct (remove fs1 uri) as [fs2 [[]|e]] eqn:Em; [|done]. intros [= <- _ <-].
  split; [|done]. by eapply remove_ok.
Qed.
End delta.

(** * The summary *)

Section summary.
Context {Path FS : Type} `{PathUriOps Path} `{!ExecutorFileSystem Path FS}.

Definition added_of (h : Hunk) : list str := match h with AddFile p _ => [p] | _ => [] end.
Definition deleted_of (h : Hunk) : list str := match h with DeleteFile p => [p] | _ => [] end.
Definition modified_of (h : Hunk) : list str :=
  match h with UpdateFile _ _ _ => [hunk_path h] | _ => [] end.

Lemma apply_hunk_affected cwd (fs : FS) d aff h fs' d' aff' :
  apply_hunk cwd fs d aff h = (fs', d', Ok aff') ->
  aff' = {| added := added aff ++ added_of h; modified := modified aff ++ modified_of h;
            deleted := deleted aff ++ deleted_of h |}.
Proof.
  unfold apply_hunk, apply_update, apply_add, apply_delete, apply_update_move, apply_update_in_place.
  destruct h; cbn; repeat case_match; intros [= _ _ <-]; destruct aff; cbn;
    unfold add_added, add_deleted, add_modified; cbn; by rewrite ?app_nil_r.
Qed.

Lemma apply_hunk_loop_affected cwd hunks (fs : FS) d aff fs' d' aff' :
  apply_hunk_loop cwd fs d aff hunks = (fs', d', Ok aff') ->
  aff' = {| added := added aff ++ (hunks ≫= added_of);
            modified := modified aff ++ (hunks ≫= modified_of);
            deleted := deleted aff ++ (hunks ≫= deleted_of) |}.
Proof.
  revert fs d aff. induction hunks as [|h hunks IH]; intros fs d aff.
  { cbn. intros [= _ _ <-]. destruct aff. cbn. by rewrite !app_nil_r. }
  cbn [apply_hunk_loop]. destruct (apply_hunk cwd fs d aff h) as [[fs1 d1] [aff1|e]] eqn:E; [|done].
  intros ->%IH. rewrite (apply_hunk_affected _ _ _ _ _ _ _ _ E). cbn.
  by rewrite <- !app_assoc.
Qed.

(** A successful application reports each hunk once, in patch order, under
    the letter of its kind: additions, then modifications (a rename under its
    destination), then deletions. *)
Theorem apply_hunks_summary hunks cwd (fs : FS) fs' d aff :
  apply_hunks_to_files hunks cwd fs delta_empty = (fs', d, Ok aff) ->
  summary_lines aff =
    lit "Success. Updated the following files:"
    :: ((fun p => lit "A " ++ p) <$> (hunks ≫= added_of))
    ++ ((fun p => lit "M " ++ p) <$> (hunks ≫= modified_of))
    ++ ((fun p => lit "D " ++ p) <$> (hunks ≫= deleted_of)).
Proof.
  unfold apply_hunks_to_files. destruct hunks as [|h hunks]; [done|].
  by intros ->%apply_hunk_loop_affected.
Qed.
End summary.

(** * Witnesses *)

Import MemoryFs.

Definition w_writeln (out : list str) (l : str) : list str * result unit io_error := (out ++ [l], Ok tt).

Definition w_fs : gmap str str :=
  {[ lit "/r/b.txt" := w_text ["def f():"; "old"; ""]; lit "/r/c.txt" := w_text ["keep"; ""] ]}.

Definition w_move : Hunk :=
  UpdateFile (lit "c.txt") (Some (lit "c.txt")) [w_chunk ["keep"] ["kept"]].

Lemma w_native_inj (p q : str) : native_path p = native_path q -> p = q.
Proof. done. Qed.

Definition w_run := apply_patch (Path := str) w_writeln w_patch (lit "/r") [] [] w_fs.

Lemma apply_patch_exact_delta_witness :
  exists d, snd w_run = Ok d /\ exact d = true /\
    view (fst (fst (fst w_run))) (lit "/r/a.txt")
    = replay (Path := str) (changes d) (view w_fs) (lit "/r/a.txt").
Proof.
  destruct w_run as [[[fs' out'] err'] r] eqn:E.
  destruct r as [d|f]; [|vm_compute in E; discriminate E].
  exists d. split; [reflexivity|].
  assert (exact d = true) as Hx.
  { assert (E' := f_equal snd E). vm_compute in E'. injection E' as <-. reflexivity. }
  split; [exact Hx|].
  apply (apply_patch_exact_delta (Path := str) (FS := gmap str str) w_native_inj
           w_writeln w_patch (lit "/r") [] [] w_fs fs' out' err' (Ok d) d E eq_refl Hx).
Defined.

Lemma move_onto_itself_deletes_witness :
  view (fst (fst (apply_hunk (lit "/r") w_fs delta_empty no_paths w_move))) (lit "/r/c.txt") = None.
Proof.
  destruct (apply_hunk (lit "/r") w_fs delta_empty no_paths w_move) as [[fs' d'] r] eqn:E.
  destruct r as [aff'|e]; [|vm_compute in E; discriminate E].
  apply (move_onto_itself_deletes (lit "/r") w_fs delta_empty no_paths (lit "c.txt")
           [w_chunk ["keep"] ["kept"]] (lit "/r/c.txt") fs' d' aff'); [reflexivity|exact E].
Defined.

Lemma apply_hunks_summary_witness :
  exists aff, summary_lines aff =
    [lit "Success. Updated the following files:"; lit "M c.txt"].
Proof.
  destruct (apply_hunks_to_files [w_move] (lit "/r") w_fs delta_empty) as [[fs' d'] r] eqn:E.
  destruct r as [aff|e]; [|vm_compute in E; discriminate E].
  exists aff. rewrite (apply_hunks_summary [w_move] (lit "/r") w_fs fs' d' aff E). reflexivity.
Defined.
