(* ===== verification/AbsolutePath.v ===== *)
(** [utils/absolute-path]: lexical path normalisation and [AbsolutePathBuf].

    The model is the Unix build.  A [Path] argument is the string it was made
    from; a [PathBuf] is represented by its components, which is what the
    standard library compares ([PathBuf]'s [==] is component-wise).  The process
    environment the code reads, the home directory and the current directory,
    is the record [Env]. *)

From stdpp Require Import base list option numbers strings sets.
From Stdlib Require Import NArith Lia.
From S2P Require Import Prelude RustStr.
Local Open Scope rust_scope.

(** * [std::path] *)

Inductive Component : Set :=
| RootDir
| CurDir
| ParentDir
| Normal (name : str).

#[global] Instance Component_eq_dec : EqDecision Component.
Proof. solve_decision. Defined.

Abbreviation PathBuf := (list Component).

Definition SLASH : char := 47%N.
Definition TILDE : char := 126%N.

Definition component (seg : str) : option Component :=
  if seg == [] then None
  else if seg == lit "." then None
  else if seg == lit ".." then Some ParentDir
  else Some (Normal seg).

(** [Path::components]: repeated separators and inner [.] segments are skipped;
    a leading [.] of a relative path is a component. *)
Definition components (p : str) : PathBuf :=
  let segs := split_on SLASH p in
  (if starts_with [SLASH] p then [RootDir]
   else if head segs == Some (lit ".") then [CurDir] else [])
  ++ omap component segs.

Definition is_absolute (p : PathBuf) : bool := head p == Some RootDir.

(** [Path::parent]. *)
Definition path_parent (p : PathBuf) : option PathBuf :=
  match last p with
  | None | Some RootDir => None
  | Some _ => Some (removelast p)
  end.

(** [PathBuf::pop]: truncates to the parent, if there is one. *)
Definition path_pop (p : PathBuf) : PathBuf := default p (path_parent p).

(** [PathBuf::push] of one component: an absolute argument replaces the path. *)
Definition path_push (p : PathBuf) (c : Component) : PathBuf :=
  match c with RootDir => [RootDir] | _ => p ++ [c] end.

(** [Path::join]. *)
Definition path_join (base p : PathBuf) : PathBuf :=
  if is_absolute p then p
  else match base with
       | [] => p
       | _ => base ++ retain (fun c => c != CurDir) p
       end.

(** [Path::file_name]. *)
Definition file_name (p : PathBuf) : option str :=
  match last p with Some (Normal n) => Some n | _ => None end.

(** * [absolutize.rs] *)

Definition normalize_step (normalized : PathBuf) (c : Component) : PathBuf :=
  match c with
  | CurDir => normalized
  | ParentDir => path_pop normalized
  | RootDir | Normal _ => path_push normalized c
  end.

Definition normalize_path (path : PathBuf) : PathBuf :=
  let normalized := foldl normalize_step [] path in
  match normalized with
  | [] => [CurDir]
  | _ => normalized
  end.

Definition path_with_base (path base_path : PathBuf) : PathBuf :=
  if is_absolute path then path else path_join base_path path.

Definition absolutize_from (path base_path : PathBuf) : PathBuf :=
  normalize_path (path_with_base path base_path).

(** * [lib.rs] *)

Record Env : Set := mkEnv {
  home_dir : option PathBuf;
  current_dir : option PathBuf;   (** [None]: the lookup failed *)
}.

Abbreviation AbsolutePathBuf := PathBuf.

Section env.
Context (env : Env).

Definition absolutize (path : PathBuf) : option PathBuf :=
  if is_absolute path then Some (normalize_path path)
  else match env.(current_dir) with
       | Some cwd => Some (absolutize_from path cwd)
       | None => None
       end.

Definition maybe_expand_home_directory (path : str) : PathBuf :=
  match env.(home_dir), strip_prefix [TILDE] path with
  | Some home, Some [] => home
  | Some home, Some rest =>
      match strip_prefix [SLASH] rest with
      | Some rest => path_join home (components (drop_while (N.eqb SLASH) rest))
      | None => components path
      end
  | _, _ => components path
  end.

Definition resolve_path_against_base (path : str) (base_path : PathBuf) : AbsolutePathBuf :=
  absolutize_from (maybe_expand_home_directory path) base_path.

Definition from_absolute_path (path : str) : option AbsolutePathBuf :=
  absolutize (maybe_expand_home_directory path).

Definition from_absolute_path_checked (path : str) : option AbsolutePathBuf :=
  let expanded := maybe_expand_home_directory path in
  if negb (is_absolute expanded) then None
  else Some (absolutize_from expanded [RootDir]).

Definition abs_join (self : AbsolutePathBuf) (path : str) : AbsolutePathBuf :=
  resolve_path_against_base path self.
End env.

(** * Normal form *)

(** The names a component can carry. *)
Definition name_ok (n : str) : Prop :=
  n <> [] /\ n <> lit "." /\ n <> lit ".." /\ SLASH ∉ n.

(** An absolute, normalised path: the root followed by plain names. *)
Definition path_normal (p : PathBuf) : Prop :=
  exists names, p = RootDir :: (Normal <$> names) /\ Forall name_ok names.

(** A [PathBuf] as [std] builds it: every name is a segment of some path. *)
Definition names_ok (p : PathBuf) : Prop :=
  Forall (fun c => match c with Normal n => name_ok n | _ => True end) p.

Lemma components_names_ok p : names_ok (components p).
Proof.
  unfold names_ok, components. apply Forall_app. split.
  { repeat case_match; repeat constructor. }
  pose proof (split_on_no_sep SLASH p) as H. induction H as [|seg segs Hseg _ IH]; [constructor|].
  cbn. unfold component at 1. repeat case_match; simplify_eq; try done;
    constructor; try done; to_props; repeat split; done.
Qed.

Lemma path_normal_snoc p n : path_normal p -> name_ok n -> path_normal (p ++ [Normal n]).
Proof.
  intros (names & -> & Hn) H. exists (names ++ [n]). split.
  - by rewrite fmap_app.
  - apply Forall_app; split; [done|]. by apply Forall_singleton.
Qed.

Lemma path_normal_pop p : path_normal p -> path_normal (path_pop p).
Proof.
  intros (names & -> & Hn). destruct (list_snoc_inv names) as [->|(k & x & ->)].
  { by exists []. }
  unfold path_pop, path_parent. rewrite fmap_app, app_comm_cons. cbn [fmap list_fmap]. rewrite last_snoc.
  rewrite removelast_last. cbn. exists k. split; [done|]. by apply Forall_app in Hn as [? _].
Qed.

Lemma normalize_step_normal p c :
  path_normal p -> names_ok [c] -> path_normal (normalize_step p c).
Proof.
  intros Hp Hc. destruct c; cbn; eauto using path_normal_pop.
  - by exists [].
  - apply path_normal_snoc; [done|]. exact (Forall_singleton_1 _ _ Hc).
Qed.

Lemma normalize_fold_normal p acc :
  path_normal acc -> names_ok p -> path_normal (foldl normalize_step acc p).
Proof.
  revert acc. induction p as [|c p IH]; intros acc Hacc Hp; [done|].
  apply Forall_cons in Hp as [Hc Hp]. cbn. apply IH; [|done].
  apply normalize_step_normal; [done|]. by apply Forall_singleton.
Qed.

Lemma normalize_absolute p :
  is_absolute p = true -> names_ok p -> path_normal (normalize_path p).
Proof.
  unfold is_absolute. intros Hp Hok. to_props. destruct p as [|c p]; [done|]. simplify_eq/=.
  unfold normalize_path. cbn. apply Forall_cons in Hok as [_ Hok].
  pose proof (normalize_fold_normal p [RootDir]) as H.
  destruct H as (names & -> & Hn); [by exists []|done|]. cbn. by exists names.
Qed.

Lemma foldl_normal_names names acc :
  foldl normalize_step acc (Normal <$> names) = acc ++ (Normal <$> names).
Proof.
  revert acc. induction names as [|n names IH]; intros acc; cbn; [by rewrite app_nil_r|].
  by rewrite IH, <- app_assoc.
Qed.

Lemma normalize_path_fixed p : path_normal p -> normalize_path p = p.
Proof.
  intros (names & -> & _). unfold normalize_path. cbn. by rewrite foldl_normal_names.
Qed.

Lemma path_normal_absolute p : path_normal p -> is_absolute p = true.
Proof. by intros (names & -> & _). Qed.

Lemma path_normal_names_ok p : path_normal p -> names_ok p.
Proof. intros (names & -> & Hn). constructor; [done|]. by apply Forall_fmap. Qed.

Lemma names_ok_retain q p : names_ok p -> names_ok (retain q p).
Proof.
  unfold names_ok. rewrite !Forall_forall. intros H x Hx. apply elem_of_retain in Hx. naive_solver.
Qed.

Lemma path_join_absolute base p :
  path_normal base -> is_absolute (path_join base p) = true.
Proof.
  intros (names & -> & _). unfold path_join. by destruct (is_absolute p) eqn:E.
Qed.

Lemma path_join_names_ok base p : names_ok base -> names_ok p -> names_ok (path_join base p).
Proof.
  intros Hb Hp. unfold path_join. case_match; [done|]. destruct base; [done|].
  apply Forall_app. split; [done|]. by apply names_ok_retain.
Qed.

(** What the operating system hands out: absolute, normalised directories. *)
Definition env_ok (env : Env) : Prop :=
  (forall h, env.(home_dir) = Some h -> path_normal h)
  /\ (forall d, env.(current_dir) = Some d -> path_normal d).

Lemma expand_names_ok env path :
  env_ok env -> names_ok (maybe_expand_home_directory env path).
Proof.
  intros [Hh _]. unfold maybe_expand_home_directory.
  repeat case_match; eauto using components_names_ok, path_join_names_ok, path_normal_names_ok.
Qed.

Lemma resolve_normal env path base :
  env_ok env -> path_normal base -> path_normal (resolve_path_against_base env path base).
Proof.
  intros He Hb. unfold resolve_path_against_base, absolutize_from, path_with_base.
  pose proof (expand_names_ok env path He).
  case_match; apply normalize_absolute;
    eauto using path_join_absolute, path_join_names_ok, path_normal_names_ok.
Qed.

Lemma from_absolute_path_normal env path p :
  env_ok env -> from_absolute_path env path = Some p -> path_normal p.
Proof.
  intros He. unfold from_absolute_path, absolutize.
  pose proof (expand_names_ok env path He) as Hn.
  case_match; [intros [= <-]; by apply normalize_absolute|].
  case_match; [|done]. intros [= <-]. destruct He as [_ Hd].
  unfold absolutize_from, path_with_base. case_match; [congruence|].
  apply normalize_absolute; eauto using path_join_absolute, path_join_names_ok, path_normal_names_ok.
Qed.

(** Resolving any path string against a working directory gives an
    absolute path in normal form (the root followed by plain names: no empty,
    [.] or [..] component and no separator inside a name), which joining the
    empty path and normalising again leave unchanged; [from_absolute_path]
    fails only when the path is relative and the working directory cannot be
    read. *)
Theorem absolute_path_normal_form env path base :
  env_ok env -> path_normal base ->
  path_normal (abs_join env base path)
  /\ normalize_path (abs_join env base path) = abs_join env base path
  /\ abs_join env (abs_join env base path) [] = abs_join env base path
  /\ (forall p, from_absolute_path env path = Some p -> path_normal p)
  /\ (from_absolute_path env path = None <->
      is_absolute (maybe_expand_home_directory env path) = false /\ env.(current_dir) = None).
Proof.
  intros He Hb. assert (path_normal (abs_join env base path)) as Hn by by apply resolve_normal.
  split; [done|]. split; [by apply normalize_path_fixed|]. split.
  - unfold abs_join at 1, resolve_path_against_base, absolutize_from, path_with_base.
    assert (maybe_expand_home_directory env [] = []) as ->
      by (unfold maybe_expand_home_directory; by destruct (home_dir env)).
    destruct Hn as (names & Hp & Hnames). rewrite Hp.
    change (normalize_path (RootDir :: (Normal <$> names) ++ []) = RootDir :: (Normal <$> names)).
    rewrite app_nil_r. apply normalize_path_fixed. by exists names.
  - split; [eauto using from_absolute_path_normal|].
    unfold from_absolute_path, absolutize. repeat case_match; naive_solver.
Qed.

Lemma absolute_path_normal_form_witness :
  abs_join (mkEnv (Some [RootDir; Normal (lit "home")]) None)
    [RootDir; Normal (lit "a"); Normal (lit "b")] (lit "./x//../../../c/./d")
  = [RootDir; Normal (lit "c"); Normal (lit "d")]
  /\ path_normal [RootDir; Normal (lit "c"); Normal (lit "d")].
Proof.
  split; [by vm_compute|].
  refine (proj1 (absolute_path_normal_form (mkEnv (Some [RootDir; Normal (lit "home")]) None)
           (lit "./x//../../../c/./d") [RootDir; Normal (lit "a"); Normal (lit "b")] _ _)).
  - split; [|done]. intros h [= <-]. exists [lit "home"].
    split; [done|]. repeat constructor; vm_compute; set_solver.
  - exists [lit "a"; lit "b"]. split; [done|]. repeat constructor; vm_compute; set_solver.
Defined.

(** * Paths on a host

    The rest of [lib.rs] asks the operating system about paths.  [Os] is what it
    can be asked: the environment, the kinds of files, their contents, and the
    canonical form of a path ([None] where the call fails). *)

Record Os : Type := mkOs {
  os_env : Env;
  tmpdir : option str;                           (** [env::var_os] of TMPDIR *)
  is_dir : PathBuf -> bool;
  is_file : PathBuf -> bool;
  path_exists : PathBuf -> bool;
  read_to_string : PathBuf -> option str;
  symlink_metadata : PathBuf -> option bool;     (** whether it is a symbolic link *)
  os_canonicalize : PathBuf -> option PathBuf;   (** [dunce::canonicalize] *)
}.

Definition component_str (c : Component) : str :=
  match c with
  | RootDir => []
  | CurDir => lit "."
  | ParentDir => lit ".."
  | Normal n => n
  end.

(** The text of a path, as [to_string_lossy] gives it. *)
Definition path_str (p : PathBuf) : str :=
  match p with
  | [RootDir] => [SLASH]
  | _ => join [SLASH] (component_str <$> p)
  end.

(** [Path::strip_prefix] and [Path::starts_with] work on components. *)
Fixpoint path_strip_prefix (p base : PathBuf) {struct base} : option PathBuf :=
  match base, p with
  | [], _ => Some p
  | b :: base, c :: p => if b == c then path_strip_prefix p base else None
  | _ :: _, [] => None
  end.

Definition path_starts_with (p base : PathBuf) : bool :=
  match path_strip_prefix p base with Some _ => true | None => false end.

(** [Path::ancestors]: the path and its parents, the longest first. *)
Fixpoint ancestors_from (n : nat) (p : PathBuf) : list PathBuf :=
  p :: match n with
       | 0 => []
       | S n => match path_parent p with Some q => ancestors_from n q | None => [] end
       end.
Definition path_ancestors (p : PathBuf) : list PathBuf := ancestors_from (length p) p.

Section host.
Context (os : Os).

(** [AbsolutePathBuf::from_absolute_path] and [join] of a [Path]. *)
Definition abs_of_path (p : PathBuf) : option AbsolutePathBuf :=
  from_absolute_path os.(os_env) (path_str p).
Definition abs_join_path (self : AbsolutePathBuf) (p : PathBuf) : AbsolutePathBuf :=
  abs_join os.(os_env) self (path_str p).

Definition should_preserve_logical_path (logical : PathBuf) : bool :=
  existsb (fun ancestor =>
    match os.(symlink_metadata) ancestor with
    | None => false
    | Some is_symlink =>
        is_symlink
        && match path_parent ancestor with
           | Some q => match path_parent q with Some _ => true | None => false end
           | None => false
           end
    end) (path_ancestors logical).

Definition canonicalize_preserving_symlinks (path : PathBuf) : option PathBuf :=
  match abs_of_path path with
  | None => None
  | Some logical =>
      match os.(os_canonicalize) path with
      | Some canonical =>
          Some (if should_preserve_logical_path logical && (canonical != logical)
                then logical else canonical)
      | None => Some logical
      end
  end.

Definition canonicalize_existing_preserving_symlinks (path : PathBuf) : option PathBuf :=
  match abs_of_path path with
  | None => None
  | Some logical =>
      match os.(os_canonicalize) path with
      | Some canonical =>
          Some (if should_preserve_logical_path logical && (canonical != logical)
                then logical else canonical)
      | None => None
      end
  end.
End host.

(** ** Lemmas *)

Lemma path_strip_prefix_Some p base r : path_strip_prefix p base = Some r <-> p = base ++ r.
Proof.
  revert p. induction base as [|b base IH]; intros p; [cbn; naive_solver|].
  destruct p as [|c p]; [cbn; naive_solver|]. cbn [path_strip_prefix]. case_bool_decide as H.
  - rewrite IH. subst. naive_solver.
  - naive_solver.
Qed.

Lemma path_starts_with_spec p base : path_starts_with p base = true <-> base `prefix_of` p.
Proof.
  unfold path_starts_with, prefix. split.
  - case_match eqn:E; [|done]. apply path_strip_prefix_Some in E. eauto.
  - intros [k ->]. by destruct (path_strip_prefix (base ++ k) base) eqn:E;
      [|apply eq_None_not_Some in E; destruct E; exists k; apply path_strip_prefix_Some].
Qed.

Lemma path_starts_with_refl p : path_starts_with p p = true.
Proof. by apply path_starts_with_spec. Qed.

Lemma omap_component_ok names : Forall name_ok names -> omap component names = Normal <$> names.
Proof.
  induction 1 as [|n names (H1 & H2 & H3 & H4) _ IH]; [done|]. cbn. unfold component at 1.
  rewrite !bool_decide_false by done. cbn. by rewrite <- IH.
Qed.

(** The text of a normal path names it. *)
Lemma components_path_str p : path_normal p -> components (path_str p) = p.
Proof.
  intros (names & -> & Hn). destruct names as [|n names]; [by vm_compute|].
  unfold path_str. cbn [fmap list_fmap component_str]. rewrite join_cons by done. cbn [app].
  assert (component_str <$> (Normal <$> names) = names) as E
    by (rewrite <- list_fmap_compose; apply list_fmap_id).
  rewrite E. unfold components.
  change (split_on SLASH (SLASH :: join [SLASH] (n :: names)))
    with ([] :: split_on SLASH (join [SLASH] (n :: names))).
  rewrite split_on_join; [|done|].
  - change (RootDir :: omap component (n :: names) = RootDir :: (Normal <$> (n :: names))).
    by rewrite omap_component_ok.
  - eapply Forall_impl; [exact Hn|]. by intros x (_ & _ & _ & ?).
Qed.

Lemma path_str_absolute p : path_normal p -> starts_with [SLASH] (path_str p) = true.
Proof.
  intros (names & -> & Hn). destruct names as [|n names]; [done|]. unfold path_str. cbn [fmap list_fmap].
  by rewrite join_cons.
Qed.

Lemma expand_absolute env p :
  path_normal p -> maybe_expand_home_directory env (path_str p) = p.
Proof.
  intros Hp. pose proof (path_str_absolute p Hp) as Hs. rewrite <- (components_path_str p Hp) at 2.
  apply starts_with_spec in Hs as [r ->]. unfold maybe_expand_home_directory. by destruct (home_dir env).
Qed.

Lemma abs_of_path_normal os p : path_normal p -> abs_of_path os p = Some p.
Proof.
  intros Hp. unfold abs_of_path, from_absolute_path, absolutize.
  rewrite expand_absolute by done. rewrite path_normal_absolute by done. by rewrite normalize_path_fixed.
Qed.

Lemma ancestors_from_root n names :
  length names <= n -> last (ancestors_from n (RootDir :: (Normal <$> names))) = Some [RootDir].
Proof.
  revert n. induction names as [|x names IH] using rev_ind; intros n Hn; [by destruct n|].
  rewrite length_app, Nat.add_1_r in Hn. destruct n as [|n]; [lia|]. cbn [ancestors_from].
  unfold path_parent. rewrite fmap_app, app_comm_cons. cbn [fmap list_fmap].
  rewrite last_snoc, removelast_last.
  destruct (ancestors_from n (RootDir :: (Normal <$> names))) eqn:E; [by destruct n|].
  specialize (IH n ltac:(lia)). by rewrite E in IH.
Qed.

(** Deciding normal form. *)
Definition path_normalb (p : PathBuf) : bool :=
  match p with
  | RootDir :: rest =>
      forallb (fun c => match c with
                        | Normal n => (n != []) && (n != lit ".") && (n != lit "..") && negb (contains_char SLASH n)
                        | _ => false
                        end) rest
  | _ => false
  end.

Lemma path_normalb_ok p : path_normalb p = true -> path_normal p.
Proof.
  destruct p as [|[| | |] rest]; try done. cbn. intros H.
  assert (exists names, rest = Normal <$> names /\ Forall name_ok names) as (names & -> & ?); [|by exists names].
  induction rest as [|c rest IH]; [by exists []|]. cbn in H. apply andb_true_iff in H as [Hc H].
  destruct (IH H) as (names & -> & Hn). destruct c as [| | |n]; try done. exists (n :: names). split; [done|].
  constructor; [|done]. to_props. repeat split; try done. by apply contains_char_false.
Qed.
