(* ===== verification/Permissions.v ===== *)
(** [protocol/src/permissions.rs] and the legacy policies of [protocol.rs]: which
    paths a sandboxed command may read and write.

    A policy is a list of entries (a path, a special path or a glob, with an
    access mode); a path gets the access of the most specific entry that covers
    it.  Workspace metadata directories below a writable root stay protected.
    Paths are lists of components ([AbsolutePath]) and [Os] answers what the code
    asks of the file system. *)

From stdpp Require Import base list option numbers strings sets.
From Stdlib Require Import NArith Lia Permutation.
From S2P Require Import Prelude RustStr AbsolutePath.
Local Open Scope rust_scope.

(** * Data *)

Definition PROTECTED_METADATA_PATH_NAMES : list str := [lit ".git"; lit ".agents"; lit ".motyga"].

Definition is_protected_metadata_name (name : str) : bool :=
  existsb (fun metadata_name => name == metadata_name) PROTECTED_METADATA_PATH_NAMES.

Definition is_protected_metadata_directory_name (name : str) : bool :=
  (name == lit ".agents") || (name == lit ".motyga").

Module NetworkSandboxPolicy.
Inductive t : Set := Restricted | Enabled.
Definition is_enabled (self : t) : bool := match self with Enabled => true | Restricted => false end.
End NetworkSandboxPolicy.

Module FileSystemAccessMode.
Inductive t : Set := Read | Write | Deny.

(** The derived [Ord]: conflict precedence. *)
Definition rank (a : t) : nat := match a with Read => 0 | Write => 1 | Deny => 2 end.

Definition can_read (self : t) : bool := match self with Deny => false | _ => true end.
Definition can_write (self : t) : bool := match self with Write => true | _ => false end.
End FileSystemAccessMode.
Import FileSystemAccessMode (can_read, can_write).
Abbreviation Access := FileSystemAccessMode.t.

#[global] Instance Access_eq_dec : EqDecision Access.
Proof. solve_decision. Defined.

Inductive FileSystemSpecialPath : Set :=
| Root
| Minimal
| ProjectRoots (subpath : option PathBuf)
| Tmpdir
| SlashTmp
| Unknown (path : str) (subpath : option PathBuf).

#[global] Instance FileSystemSpecialPath_eq_dec : EqDecision FileSystemSpecialPath.
Proof. solve_decision. Defined.

Inductive FileSystemPath : Set :=
| Path (path : AbsolutePathBuf)
| GlobPattern (pattern : str)
| Special (value : FileSystemSpecialPath).

#[global] Instance FileSystemPath_eq_dec : EqDecision FileSystemPath.
Proof. solve_decision. Defined.

Record FileSystemSandboxEntry : Set := mkEntry {
  entry_path : FileSystemPath;
  entry_access : Access;
}.

#[global] Instance FileSystemSandboxEntry_eq_dec : EqDecision FileSystemSandboxEntry.
Proof. solve_decision. Defined.

Module FileSystemSandboxKind.
Inductive t : Set := Restricted | Unrestricted | ExternalSandbox.
End FileSystemSandboxKind.

#[global] Instance FileSystemSandboxKind_eq_dec : EqDecision FileSystemSandboxKind.t.
Proof. solve_decision. Defined.

Record FileSystemSandboxPolicy : Set := mkFsPolicy {
  fsp_kind : FileSystemSandboxKind.t;
  glob_scan_max_depth : option N;
  fsp_entries : list FileSystemSandboxEntry;
}.

Record ResolvedFileSystemEntry : Set := mkResolved {
  res_path : AbsolutePathBuf;
  res_access : Access;
}.

#[global] Instance ResolvedFileSystemEntry_eq_dec : EqDecision ResolvedFileSystemEntry.
Proof. solve_decision. Defined.

Definition with_entries (p : FileSystemSandboxPolicy) (es : list FileSystemSandboxEntry) :=
  mkFsPolicy p.(fsp_kind) p.(glob_scan_max_depth) es.

Definition is_restricted (p : FileSystemSandboxPolicy) : bool :=
  p.(fsp_kind) == FileSystemSandboxKind.Restricted.

(** ** Constructors of policies *)

Definition restricted (es : list FileSystemSandboxEntry) : FileSystemSandboxPolicy :=
  mkFsPolicy FileSystemSandboxKind.Restricted None es.
Definition unrestricted : FileSystemSandboxPolicy :=
  mkFsPolicy FileSystemSandboxKind.Unrestricted None [].
Definition external_sandbox : FileSystemSandboxPolicy :=
  mkFsPolicy FileSystemSandboxKind.ExternalSandbox None [].
Definition read_only_file_system_entries : list FileSystemSandboxEntry :=
  [mkEntry (Special Root) FileSystemAccessMode.Read].
Definition read_only : FileSystemSandboxPolicy := restricted read_only_file_system_entries.

(** * Queries that need no paths *)

Definition has_root_access (self : FileSystemSandboxPolicy) (predicate : Access -> bool) : bool :=
  is_restricted self
  && existsb (fun entry =>
       match entry.(entry_path) with
       | Special Root => predicate entry.(entry_access)
       | _ => false
       end) self.(fsp_entries).

Definition is_deny (e : FileSystemSandboxEntry) : bool := e.(entry_access) == FileSystemAccessMode.Deny.

Definition has_denied_read_restrictions (self : FileSystemSandboxPolicy) : bool :=
  is_restricted self && existsb is_deny self.(fsp_entries).

Definition special_paths_share_target (l r : FileSystemSpecialPath) : bool :=
  match l, r with
  | Root, Root | Minimal, Minimal | Tmpdir, Tmpdir | SlashTmp, SlashTmp => true
  | ProjectRoots l, ProjectRoots r => l == r
  | Unknown l lsub, Unknown r rsub =>
      (l == r) && (lsub == rsub)
  | _, _ => false
  end.

Definition slash_tmp : AbsolutePathBuf := [RootDir; Normal (lit "tmp")].

Definition special_path_matches_absolute_path (value : FileSystemSpecialPath)
    (path : AbsolutePathBuf) : bool :=
  match value with
  | Root => path_parent path == None
  | SlashTmp => path == slash_tmp
  | _ => false
  end.

Definition file_system_paths_share_target (l r : FileSystemPath) : bool :=
  match l, r with
  | Path l, Path r => l == r
  | Special l, Special r => special_paths_share_target l r
  | Path path, Special value | Special value, Path path =>
      special_path_matches_absolute_path value path
  | GlobPattern l, GlobPattern r => l == r
  | GlobPattern _, _ | _, GlobPattern _ => false
  end.

Definition has_same_target_write_override (self : FileSystemSandboxPolicy)
    (entry : FileSystemSandboxEntry) : bool :=
  existsb (fun candidate =>
    can_write candidate.(entry_access)
    && (FileSystemAccessMode.rank entry.(entry_access)
          <? FileSystemAccessMode.rank candidate.(entry_access))
    && file_system_paths_share_target candidate.(entry_path) entry.(entry_path))
    self.(fsp_entries).

Definition has_write_narrowing_entries (self : FileSystemSandboxPolicy) : bool :=
  is_restricted self
  && existsb (fun entry =>
       if can_write entry.(entry_access) then false
       else match entry.(entry_path) with
            | Path _ => negb (has_same_target_write_override self entry)
            | GlobPattern _ => true
            | Special Root => is_deny entry
            | Special Minimal | Special (Unknown _ _) => false
            | Special _ => negb (has_same_target_write_override self entry)
            end) self.(fsp_entries).

Definition has_full_disk_read_access (self : FileSystemSandboxPolicy) : bool :=
  match self.(fsp_kind) with
  | FileSystemSandboxKind.Unrestricted | FileSystemSandboxKind.ExternalSandbox => true
  | FileSystemSandboxKind.Restricted =>
      has_root_access self can_read && negb (has_denied_read_restrictions self)
  end.

Definition has_full_disk_write_access (self : FileSystemSandboxPolicy) : bool :=
  match self.(fsp_kind) with
  | FileSystemSandboxKind.Unrestricted | FileSystemSandboxKind.ExternalSandbox => true
  | FileSystemSandboxKind.Restricted =>
      has_root_access self can_write && negb (has_write_narrowing_entries self)
  end.

Definition include_platform_defaults (self : FileSystemSandboxPolicy) : bool :=
  negb (has_full_disk_read_access self) && is_restricted self
  && existsb (fun entry =>
       match entry.(entry_path) with
       | Special Minimal => can_read entry.(entry_access)
       | _ => false
       end) self.(fsp_entries).

(** ** Deny entries survive a rebuilt policy *)

Definition push_missing (es : list FileSystemSandboxEntry) (e : FileSystemSandboxEntry) :=
  if existsb (fun entry => entry == e) es then es else es ++ [e].

Definition preserve_deny_read_restrictions_from (self existing : FileSystemSandboxPolicy) :
    FileSystemSandboxPolicy :=
  let has_deny_read_entries := existsb is_deny existing.(fsp_entries) in
  let self :=
    if (self.(fsp_kind) == FileSystemSandboxKind.Unrestricted) && has_deny_read_entries
    then restricted [mkEntry (Special Root) FileSystemAccessMode.Write] else self in
  if negb (is_restricted self) then self
  else mkFsPolicy self.(fsp_kind)
         (match self.(glob_scan_max_depth) with
          | None => existing.(glob_scan_max_depth)
          | Some d => Some d
          end)
         (foldl push_missing self.(fsp_entries) (retain is_deny existing.(fsp_entries))).

(** * Resolution against a working directory *)

Definition first_component_name (p : PathBuf) : option str := (component_str) <$> head p.

Definition metadata_path_name (name : str) : option str :=
  find (fun metadata_name => name == metadata_name) PROTECTED_METADATA_PATH_NAMES.

(** [(usize, FileSystemAccessMode)], compared lexicographically. *)
Definition resolved_entry_precedence (e : ResolvedFileSystemEntry) : nat * Access :=
  (length e.(res_path), e.(res_access)).

Definition precedence_le (a b : nat * Access) : bool :=
  (a.1 <? b.1)
  || ((a.1 =? b.1) && (FileSystemAccessMode.rank a.2 <=? FileSystemAccessMode.rank b.2)).

Definition PROJECT_ROOTS_GLOB_PATTERN_PREFIX : str := lit "motyga-project-roots://".

Definition project_roots_glob_pattern (subpath : PathBuf) : str :=
  PROJECT_ROOTS_GLOB_PATTERN_PREFIX ++ path_str subpath.

Definition parse_project_roots_glob_pattern (pattern : str) : option PathBuf :=
  components <$> strip_prefix PROJECT_ROOTS_GLOB_PATTERN_PREFIX pattern.

Section with_os.
Context (os : Os).

(** Both panics of the code are unreachable for an absolute path
    ([absolute_root_path_normal]); they are [None]. *)
Definition absolute_root_path_for_cwd (cwd : AbsolutePathBuf) : option AbsolutePathBuf :=
  match last (path_ancestors cwd) with
  | Some root => abs_of_path os root
  | None => None
  end.

Definition resolve_file_system_special_path (value : FileSystemSpecialPath)
    (cwd : option AbsolutePathBuf) : option AbsolutePathBuf :=
  match value with
  | Root | Minimal | Unknown _ _ => None
  | ProjectRoots subpath =>
      match cwd with
      | None => None
      | Some cwd =>
          match subpath with
          | Some subpath => Some (abs_join_path os cwd subpath)
          | None => Some cwd
          end
      end
  | Tmpdir =>
      match os.(tmpdir) with
      | None => None
      | Some [] => None
      | Some tmpdir => from_absolute_path os.(os_env) tmpdir
      end
  | SlashTmp =>
      match from_absolute_path os.(os_env) (lit "/tmp") with
      | Some slash_tmp => if negb (os.(is_dir) slash_tmp) then None else Some slash_tmp
      | None => None
      end
  end.

Definition resolve_file_system_path (path : FileSystemPath) (cwd : option AbsolutePathBuf) :
    option AbsolutePathBuf :=
  match path with
  | Path path => Some path
  | GlobPattern _ => None
  | Special value => resolve_file_system_special_path value cwd
  end.

Definition resolve_entry_path (path : FileSystemPath) (cwd : option AbsolutePathBuf) :
    option AbsolutePathBuf :=
  match path with
  | Special Root =>
      match cwd with Some cwd => absolute_root_path_for_cwd cwd | None => None end
  | _ => resolve_file_system_path path cwd
  end.

Definition resolve_candidate_path (path cwd : PathBuf) : option AbsolutePathBuf :=
  if is_absolute path then abs_of_path os path
  else match abs_of_path os cwd with
       | Some cwd => Some (abs_join_path os cwd path)
       | None => None
       end.

Definition resolve_entry (cwd_absolute : option AbsolutePathBuf) (entry : FileSystemSandboxEntry) :
    option ResolvedFileSystemEntry :=
  match resolve_entry_path entry.(entry_path) cwd_absolute with
  | Some path => Some (mkResolved path entry.(entry_access))
  | None => None
  end.

Definition resolved_entries_with_cwd (self : FileSystemSandboxPolicy) (cwd : PathBuf) :
    list ResolvedFileSystemEntry :=
  omap (resolve_entry (abs_of_path os cwd)) self.(fsp_entries).

Definition resolve_access_with_cwd (self : FileSystemSandboxPolicy) (path cwd : PathBuf) : Access :=
  match self.(fsp_kind) with
  | FileSystemSandboxKind.Unrestricted | FileSystemSandboxKind.ExternalSandbox =>
      FileSystemAccessMode.Write
  | FileSystemSandboxKind.Restricted =>
      match resolve_candidate_path path cwd with
      | None => FileSystemAccessMode.Deny
      | Some path =>
          match max_by_key precedence_le resolved_entry_precedence
                  (retain (fun entry => path_starts_with path entry.(res_path))
                     (resolved_entries_with_cwd self cwd)) with
          | Some entry => entry.(res_access)
          | None => FileSystemAccessMode.Deny
          end
      end
  end.

Definition can_read_path_with_cwd (self : FileSystemSandboxPolicy) (path cwd : PathBuf) : bool :=
  can_read (resolve_access_with_cwd self path cwd).

(** ** Protected metadata *)

Definition metadata_child (target : PathBuf) (entry : ResolvedFileSystemEntry) :
    option (AbsolutePathBuf * str) :=
  match path_strip_prefix target entry.(res_path) with
  | None => None
  | Some relative_path =>
      match first_component_name relative_path with
      | None => None
      | Some first_component =>
          match metadata_path_name first_component with
          | None => None
          | Some metadata_name => Some (abs_join os.(os_env) entry.(res_path) metadata_name, metadata_name)
          end
      end
  end.

Definition metadata_child_of_writable_root (policy : FileSystemSandboxPolicy) (target cwd : PathBuf) :
    option (AbsolutePathBuf * str) :=
  head (omap (metadata_child target)
         (retain (fun entry => can_write entry.(res_access)) (resolved_entries_with_cwd policy cwd))).

Definition has_explicit_write_entry_for_metadata_path (policy : FileSystemSandboxPolicy)
    (protected_metadata_path : AbsolutePathBuf) (target cwd : PathBuf) : bool :=
  existsb (fun entry =>
    can_write entry.(res_access)
    && path_starts_with target entry.(res_path)
    && path_starts_with entry.(res_path) protected_metadata_path)
    (resolved_entries_with_cwd policy cwd).

Definition is_metadata_write_denied (self : FileSystemSandboxPolicy) (path cwd : PathBuf) : bool :=
  if negb (is_restricted self) then false
  else match resolve_candidate_path path cwd with
       | None => true
       | Some target =>
           match metadata_child_of_writable_root self target cwd with
           | None => false
           | Some (protected_metadata_path, _) =>
               negb (has_explicit_write_entry_for_metadata_path self protected_metadata_path target cwd)
           end
       end.

Definition can_write_path_with_cwd (self : FileSystemSandboxPolicy) (path cwd : PathBuf) : bool :=
  if negb (can_write (resolve_access_with_cwd self path cwd)) then false
  else if has_full_disk_write_access self then true
  else negb (is_metadata_write_denied self path cwd).

Definition forbidden_agent_metadata_write (path cwd : PathBuf) (policy : FileSystemSandboxPolicy) :
    option str :=
  if negb (is_restricted policy) then None
  else match resolve_candidate_path path cwd with
       | None => None
       | Some target =>
           match metadata_child_of_writable_root policy target cwd with
           | None => None
           | Some (protected_metadata_path, metadata_name) =>
               if has_explicit_write_entry_for_metadata_path policy protected_metadata_path target cwd
               then None
               else if negb (can_write_path_with_cwd policy target cwd) then Some metadata_name
               else None
           end
       end.

(** ** Changing a policy *)

Definition resolve_project_roots_glob_pattern (subpath : PathBuf) (root : AbsolutePathBuf) : str :=
  path_str (abs_join_path os root subpath).

Definition materialize_entry_with_cwd (cwd : option AbsolutePathBuf) (entry : FileSystemSandboxEntry) :
    FileSystemSandboxEntry :=
  match entry.(entry_path) with
  | Special (ProjectRoots _) =>
      match resolve_file_system_path entry.(entry_path) cwd with
      | Some path => mkEntry (Path path) entry.(entry_access)
      | None => entry
      end
  | GlobPattern pattern =>
      match cwd, parse_project_roots_glob_pattern pattern with
      | Some cwd, Some subpath =>
          mkEntry (GlobPattern (resolve_project_roots_glob_pattern subpath cwd)) entry.(entry_access)
      | _, _ => entry
      end
  | Special _ | Path _ => entry
  end.

Definition materialize_project_roots_with_cwd (self : FileSystemSandboxPolicy) (cwd : PathBuf) :
    FileSystemSandboxPolicy :=
  with_entries self (materialize_entry_with_cwd (abs_of_path os cwd) <$> self.(fsp_entries)).

Definition materialize_entry_with_workspace_roots (workspace_roots : list AbsolutePathBuf)
    (entry : FileSystemSandboxEntry) : list FileSystemSandboxEntry :=
  match entry.(entry_path) with
  | Special (ProjectRoots subpath) =>
      (fun root =>
         mkEntry (Path (match subpath with
                        | Some subpath => abs_join_path os root subpath
                        | None => root
                        end)) entry.(entry_access)) <$> workspace_roots
  | GlobPattern pattern =>
      match parse_project_roots_glob_pattern pattern with
      | Some subpath =>
          (fun root => mkEntry (GlobPattern (resolve_project_roots_glob_pattern subpath root))
                         entry.(entry_access)) <$> workspace_roots
      | None => [mkEntry (GlobPattern pattern) entry.(entry_access)]
      end
  | Path path => [mkEntry (Path path) entry.(entry_access)]
  | Special value => [mkEntry (Special value) entry.(entry_access)]
  end.

Definition materialize_project_roots_with_workspace_roots (self : FileSystemSandboxPolicy)
    (workspace_roots : list AbsolutePathBuf) : FileSystemSandboxPolicy :=
  with_entries self
    (concat (materialize_entry_with_workspace_roots workspace_roots <$> self.(fsp_entries))).

Definition with_materialized_project_roots_for_workspace_roots (self : FileSystemSandboxPolicy)
    (workspace_roots : list AbsolutePathBuf) : FileSystemSandboxPolicy :=
  let materialized := materialize_project_roots_with_workspace_roots self workspace_roots in
  with_entries self (foldl push_missing self.(fsp_entries) materialized.(fsp_entries)).

Definition add_readable_root (cwd : PathBuf) (self : FileSystemSandboxPolicy) (path : AbsolutePathBuf) :=
  if can_read_path_with_cwd self path cwd then self
  else with_entries self (self.(fsp_entries) ++ [mkEntry (Path path) FileSystemAccessMode.Read]).

Definition with_additional_readable_roots (self : FileSystemSandboxPolicy) (cwd : PathBuf)
    (additional_readable_roots : list AbsolutePathBuf) : FileSystemSandboxPolicy :=
  if has_full_disk_read_access self then self
  else foldl (add_readable_root cwd) self additional_readable_roots.

Definition add_writable_root (cwd : PathBuf) (self : FileSystemSandboxPolicy) (path : AbsolutePathBuf) :=
  if can_write_path_with_cwd self path cwd then self
  else with_entries self (self.(fsp_entries) ++ [mkEntry (Path path) FileSystemAccessMode.Write]).

Definition with_additional_writable_roots (self : FileSystemSandboxPolicy) (cwd : PathBuf)
    (additional_writable_roots : list AbsolutePathBuf) : FileSystemSandboxPolicy :=
  foldl (add_writable_root cwd) self additional_writable_roots.

(** ** Effective paths *)

Fixpoint normalize_effective_from (raw_path : AbsolutePathBuf) (ancestors : list PathBuf) :
    AbsolutePathBuf :=
  match ancestors with
  | [] => raw_path
  | ancestor :: rest =>
      match os.(symlink_metadata) ancestor with
      | None => normalize_effective_from raw_path rest
      | Some _ =>
          match canonicalize_preserving_symlinks os ancestor with
          | None => normalize_effective_from raw_path rest
          | Some normalized_ancestor =>
              match path_strip_prefix raw_path ancestor with
              | None => normalize_effective_from raw_path rest
              | Some suffix =>
                  match abs_of_path os (path_join normalized_ancestor suffix) with
                  | Some normalized_path => normalized_path
                  | None => normalize_effective_from raw_path rest
                  end
              end
          end
      end
  end.

Definition normalize_effective_absolute_path (path : AbsolutePathBuf) : AbsolutePathBuf :=
  normalize_effective_from path (path_ancestors path).

Definition push_unique (deduped : list AbsolutePathBuf) (path : AbsolutePathBuf) :=
  if existsb (fun existing => existing == path) deduped then deduped else deduped ++ [path].

Definition dedup_absolute_paths (paths : list AbsolutePathBuf) (normalize_effective_paths : bool) :
    list AbsolutePathBuf :=
  foldl (fun deduped path =>
    push_unique deduped
      (if normalize_effective_paths then normalize_effective_absolute_path path else path)) [] paths.

Definition is_git_pointer_file (path : AbsolutePathBuf) : bool :=
  os.(is_file) path && (file_name path == Some (lit ".git")).

Definition resolve_gitdir_from_file (dot_git : AbsolutePathBuf) : option AbsolutePathBuf :=
  match os.(read_to_string) dot_git with
  | None => None
  | Some contents =>
      match split_once 58%N (trim contents) with
      | None => None
      | Some (prefix, gitdir_raw) =>
          if trim prefix != lit "gitdir" then None
          else
            let gitdir_raw := trim gitdir_raw in
            if gitdir_raw == [] then None
            else match path_parent dot_git with
                 | None => None
                 | Some base =>
                     let gitdir_path := resolve_path_against_base os.(os_env) gitdir_raw base in
                     if negb (os.(path_exists) gitdir_path) then None else Some gitdir_path
                 end
      end
  end.

Definition default_read_only_subpaths_for_writable_root (writable_root : AbsolutePathBuf)
    (protect_missing_dot_motyga : bool) : list AbsolutePathBuf :=
  let top_level_git := abs_join os.(os_env) writable_root (lit ".git") in
  let top_level_git_is_file := os.(is_file) top_level_git in
  let top_level_git_is_dir := os.(is_dir) top_level_git in
  let git :=
    if top_level_git_is_dir || top_level_git_is_file then
      (if top_level_git_is_file && is_git_pointer_file top_level_git
       then match resolve_gitdir_from_file top_level_git with Some gitdir => [gitdir] | None => [] end
       else []) ++ [top_level_git]
    else [] in
  let top_level_agents := abs_join os.(os_env) writable_root (lit ".agents") in
  let agents := if os.(is_dir) top_level_agents then [top_level_agents] else [] in
  let top_level_motyga := abs_join os.(os_env) writable_root (lit ".motyga") in
  let motyga := if protect_missing_dot_motyga || os.(is_dir) top_level_motyga then [top_level_motyga] else [] in
  dedup_absolute_paths (git ++ agents ++ motyga) false.

(** ** Workspace-write policies *)

Definition append_default_read_only_entry_if_no_explicit_rule (entries : list FileSystemSandboxEntry)
    (path : FileSystemPath) : list FileSystemSandboxEntry :=
  if existsb (fun entry => file_system_paths_share_target entry.(entry_path) path) entries then entries
  else entries ++ [mkEntry path FileSystemAccessMode.Read].

Definition append_default_read_only_path_if_no_explicit_rule (entries : list FileSystemSandboxEntry)
    (path : AbsolutePathBuf) :=
  append_default_read_only_entry_if_no_explicit_rule entries (Path path).

Definition append_default_read_only_project_root_subpath_if_no_explicit_rule
    (entries : list FileSystemSandboxEntry) (subpath : str) :=
  append_default_read_only_entry_if_no_explicit_rule entries
    (Special (ProjectRoots (Some (components subpath)))).

Definition protect_writable_root (protect_missing_dot_motyga : bool)
    (entries : list FileSystemSandboxEntry) (writable_root : AbsolutePathBuf) :=
  foldl append_default_read_only_path_if_no_explicit_rule entries
    (default_read_only_subpaths_for_writable_root writable_root protect_missing_dot_motyga).

(** The entries that both [workspace_write] and the legacy runtime policy start from. *)
Definition workspace_write_entries (writable_roots : list AbsolutePathBuf)
    (exclude_tmpdir_env_var exclude_slash_tmp : bool) : list FileSystemSandboxEntry :=
  [mkEntry (Special Root) FileSystemAccessMode.Read;
   mkEntry (Special (ProjectRoots None)) FileSystemAccessMode.Write]
  ++ (if negb exclude_slash_tmp then [mkEntry (Special SlashTmp) FileSystemAccessMode.Write] else [])
  ++ (if negb exclude_tmpdir_env_var then [mkEntry (Special Tmpdir) FileSystemAccessMode.Write] else [])
  ++ ((fun path => mkEntry (Path path) FileSystemAccessMode.Write) <$> writable_roots).

Definition workspace_write (writable_roots : list AbsolutePathBuf)
    (exclude_tmpdir_env_var exclude_slash_tmp : bool) : FileSystemSandboxPolicy :=
  let entries := workspace_write_entries writable_roots exclude_tmpdir_env_var exclude_slash_tmp in
  let entries := foldl append_default_read_only_project_root_subpath_if_no_explicit_rule entries
                   PROTECTED_METADATA_PATH_NAMES in
  restricted (foldl (protect_writable_root false) entries writable_roots).

Definition add_legacy_writable_root (entries : list FileSystemSandboxEntry) (path : AbsolutePathBuf) :=
  let entries :=
    if negb (existsb (fun entry => can_write entry.(entry_access)
               && match entry.(entry_path) with Path existing => existing == path | _ => false end) entries)
    then entries ++ [mkEntry (Path path) FileSystemAccessMode.Write] else entries in
  protect_writable_root false entries path.

Definition with_additional_legacy_workspace_writable_roots (self : FileSystemSandboxPolicy)
    (additional_writable_roots : list AbsolutePathBuf) : FileSystemSandboxPolicy :=
  if negb (is_restricted self) then self
  else with_entries self (foldl add_legacy_writable_root self.(fsp_entries) additional_writable_roots).
End with_os.

(** * Legacy sandbox policies ([protocol.rs]) *)

Inductive SandboxPolicy : Set :=
| DangerFullAccess
| ReadOnly (network_access : bool)
| ExternalSandboxPolicy (network_access : NetworkSandboxPolicy.t)
| WorkspaceWrite (writable_roots : list AbsolutePathBuf) (network_access : bool)
    (exclude_tmpdir_env_var exclude_slash_tmp : bool).

Definition sp_has_full_network_access (self : SandboxPolicy) : bool :=
  match self with
  | DangerFullAccess => true
  | ExternalSandboxPolicy network_access => NetworkSandboxPolicy.is_enabled network_access
  | ReadOnly network_access => network_access
  | WorkspaceWrite _ network_access _ _ => network_access
  end.

Definition sp_has_full_disk_write_access (self : SandboxPolicy) : bool :=
  match self with
  | DangerFullAccess | ExternalSandboxPolicy _ => true
  | ReadOnly _ | WorkspaceWrite _ _ _ _ => false
  end.

Definition network_policy_of (value : SandboxPolicy) : NetworkSandboxPolicy.t :=
  if sp_has_full_network_access value then NetworkSandboxPolicy.Enabled
  else NetworkSandboxPolicy.Restricted.

Definition network_access_of (network_policy : NetworkSandboxPolicy.t) : NetworkSandboxPolicy.t :=
  if NetworkSandboxPolicy.is_enabled network_policy then NetworkSandboxPolicy.Enabled
  else NetworkSandboxPolicy.Restricted.

Record WritableRoot : Set := mkWritableRoot {
  wr_root : AbsolutePathBuf;
  read_only_subpaths : list AbsolutePathBuf;
  protected_metadata_names : list str;
}.

Definition path_contains_protected_metadata_name (self : WritableRoot) (path : PathBuf) : bool :=
  match path_strip_prefix path self.(wr_root) with
  | None => false
  | Some relative_path =>
      match first_component_name relative_path with
      | None => false
      | Some first_component => existsb (fun name => first_component == name) self.(protected_metadata_names)
      end
  end.

Definition is_path_writable (self : WritableRoot) (path : PathBuf) : bool :=
  if negb (path_starts_with path self.(wr_root)) then false
  else if existsb (path_starts_with path) self.(read_only_subpaths) then false
  else negb (path_contains_protected_metadata_name self path).

Section legacy.
Context (os : Os).

Definition sp_get_writable_roots_with_cwd (self : SandboxPolicy) (cwd : PathBuf) : list WritableRoot :=
  match self with
  | DangerFullAccess | ExternalSandboxPolicy _ | ReadOnly _ => []
  | WorkspaceWrite writable_roots _ exclude_tmpdir_env_var exclude_slash_tmp =>
      let roots := writable_roots
        ++ (match abs_of_path os cwd with Some cwd => [cwd] | None => [] end)
        ++ (if negb exclude_slash_tmp then
              match from_absolute_path os.(os_env) (lit "/tmp") with
              | Some slash_tmp => if os.(is_dir) slash_tmp then [slash_tmp] else []
              | None => []
              end
            else [])
        ++ (if negb exclude_tmpdir_env_var then
              match os.(tmpdir) with
              | None | Some [] => []
              | Some tmpdir =>
                  match from_absolute_path os.(os_env) tmpdir with Some p => [p] | None => [] end
              end
            else []) in
      let cwd_root := abs_of_path os cwd in
      (fun writable_root =>
         let protect_missing_dot_motyga := cwd_root == Some writable_root in
         mkWritableRoot writable_root
           (default_read_only_subpaths_for_writable_root os writable_root protect_missing_dot_motyga) [])
      <$> roots
  end.

Definition policy_of_legacy (value : SandboxPolicy) : FileSystemSandboxPolicy :=
  match value with
  | DangerFullAccess => unrestricted
  | ExternalSandboxPolicy _ => external_sandbox
  | ReadOnly _ => restricted [mkEntry (Special Root) FileSystemAccessMode.Read]
  | WorkspaceWrite writable_roots _ exclude_tmpdir_env_var exclude_slash_tmp =>
      workspace_write os writable_roots exclude_tmpdir_env_var exclude_slash_tmp
  end.

Definition protect_cwd_root (entries : list FileSystemSandboxEntry) (cwd : PathBuf) :=
  match abs_of_path os cwd with
  | Some cwd_root => protect_writable_root os true entries cwd_root
  | None => entries
  end.

Definition from_legacy_sandbox_policy_for_cwd (sandbox_policy : SandboxPolicy) (cwd : PathBuf) :
    FileSystemSandboxPolicy :=
  let file_system_policy := policy_of_legacy sandbox_policy in
  match sandbox_policy with
  | WorkspaceWrite writable_roots _ _ _ =>
      with_entries file_system_policy
        (foldl (protect_writable_root os false)
           (protect_cwd_root file_system_policy.(fsp_entries) cwd) writable_roots)
  | _ => file_system_policy
  end.

Definition from_legacy_sandbox_policy_preserving_deny_entries (sandbox_policy : SandboxPolicy)
    (cwd : PathBuf) (existing : FileSystemSandboxPolicy) : FileSystemSandboxPolicy :=
  let rebuilt := from_legacy_sandbox_policy_for_cwd sandbox_policy cwd in
  if negb (is_restricted rebuilt) then rebuilt
  else mkFsPolicy rebuilt.(fsp_kind) existing.(glob_scan_max_depth)
         (foldl push_missing rebuilt.(fsp_entries) (retain is_deny existing.(fsp_entries))).

Definition legacy_runtime_file_system_policy_for_cwd (sandbox_policy : SandboxPolicy) (cwd : PathBuf) :
    FileSystemSandboxPolicy :=
  match sandbox_policy with
  | WorkspaceWrite writable_roots _ exclude_tmpdir_env_var exclude_slash_tmp =>
      let entries := workspace_write_entries writable_roots exclude_tmpdir_env_var exclude_slash_tmp in
      restricted (foldl (protect_writable_root os false) (protect_cwd_root entries cwd) writable_roots)
  | _ => policy_of_legacy sandbox_policy
  end.

(** The flags that the loop of [to_legacy_sandbox_policy] sets. *)
Record LegacyScan : Set := mkScan {
  workspace_root_writable : bool;
  scan_writable_roots : list AbsolutePathBuf;
  tmpdir_writable : bool;
  slash_tmp_writable : bool;
  unbridgeable_root_write : bool;
}.

Definition scan_start : LegacyScan := mkScan false [] false false false.

Definition scan_workspace (s : LegacyScan) : LegacyScan :=
  mkScan true s.(scan_writable_roots) s.(tmpdir_writable) s.(slash_tmp_writable) s.(unbridgeable_root_write).
Definition scan_root (s : LegacyScan) (path : AbsolutePathBuf) : LegacyScan :=
  mkScan s.(workspace_root_writable) (s.(scan_writable_roots) ++ [path]) s.(tmpdir_writable)
    s.(slash_tmp_writable) s.(unbridgeable_root_write).

Definition scan_entry (cwd_absolute : option AbsolutePathBuf) (s : LegacyScan)
    (entry : FileSystemSandboxEntry) : LegacyScan :=
  let writes := can_write entry.(entry_access) in
  match entry.(entry_path) with
  | GlobPattern _ => s
  | Path path =>
      if writes then (if cwd_absolute == Some path then scan_workspace s else scan_root s path) else s
  | Special value =>
      match value with
      | Root =>
          match entry.(entry_access) with
          | FileSystemAccessMode.Deny | FileSystemAccessMode.Read => s
          | FileSystemAccessMode.Write =>
              mkScan s.(workspace_root_writable) s.(scan_writable_roots) s.(tmpdir_writable)
                s.(slash_tmp_writable) true
          end
      | Minimal => s
      | ProjectRoots subpath =>
          if (subpath == None) && writes then scan_workspace s
          else match resolve_file_system_special_path os value cwd_absolute with
               | Some path => if writes then scan_root s path else s
               | None => s
               end
      | Tmpdir =>
          if writes then mkScan s.(workspace_root_writable) s.(scan_writable_roots) true
                           s.(slash_tmp_writable) s.(unbridgeable_root_write) else s
      | SlashTmp =>
          if writes then mkScan s.(workspace_root_writable) s.(scan_writable_roots) s.(tmpdir_writable)
                           true s.(unbridgeable_root_write) else s
      | Unknown _ _ => s
      end
  end.

(** The error of [to_legacy_sandbox_policy]. *)
Inductive legacy_error : Set := WritesOutsideWorkspaceRoot.

Definition full_access_legacy (network_policy : NetworkSandboxPolicy.t) : SandboxPolicy :=
  if NetworkSandboxPolicy.is_enabled network_policy then DangerFullAccess
  else ExternalSandboxPolicy NetworkSandboxPolicy.Restricted.

Definition to_legacy_sandbox_policy (self : FileSystemSandboxPolicy)
    (network_policy : NetworkSandboxPolicy.t) (cwd : PathBuf) : result SandboxPolicy legacy_error :=
  match self.(fsp_kind) with
  | FileSystemSandboxKind.ExternalSandbox => Ok (ExternalSandboxPolicy (network_access_of network_policy))
  | FileSystemSandboxKind.Unrestricted => Ok (full_access_legacy network_policy)
  | FileSystemSandboxKind.Restricted =>
      let s := foldl (scan_entry (abs_of_path os cwd)) scan_start self.(fsp_entries) in
      if has_full_disk_write_access self then Ok (full_access_legacy network_policy)
      else if s.(workspace_root_writable) then
        Ok (WorkspaceWrite (dedup_absolute_paths os s.(scan_writable_roots) false)
              (NetworkSandboxPolicy.is_enabled network_policy)
              (negb s.(tmpdir_writable)) (negb s.(slash_tmp_writable)))
      else if s.(unbridgeable_root_write) || (s.(scan_writable_roots) != []) || s.(tmpdir_writable)
              || s.(slash_tmp_writable)
      then Err WritesOutsideWorkspaceRoot
      else Ok (ReadOnly (NetworkSandboxPolicy.is_enabled network_policy))
  end.

(** * The roots handed to the operating-system sandboxes *)

Definition get_readable_roots_with_cwd (self : FileSystemSandboxPolicy) (cwd : PathBuf) :
    list AbsolutePathBuf :=
  if has_full_disk_read_access self then []
  else dedup_absolute_paths os
         (res_path <$>
           retain (fun entry => can_read_path_with_cwd os self entry.(res_path) cwd)
             (retain (fun entry => can_read entry.(res_access)) (resolved_entries_with_cwd os self cwd)))
         true.

Definition has_explicit_resolved_path_entry (entries : list ResolvedFileSystemEntry)
    (path : AbsolutePathBuf) : bool :=
  existsb (fun entry => entry.(res_path) == path) entries.

Definition protected_metadata_names_for_writable_root (policy : FileSystemSandboxPolicy)
    (root : AbsolutePathBuf) (raw_writable_roots : list AbsolutePathBuf) (cwd : PathBuf) : list str :=
  retain (fun metadata_name =>
    forallb (fun metadata_path => negb (can_write_path_with_cwd os policy metadata_path cwd))
      ((fun r => abs_join os.(os_env) r metadata_name) <$> (root :: raw_writable_roots)))
    PROTECTED_METADATA_PATH_NAMES.

(** The literal path of a carve-out below a writable root, if it has one. *)
Definition raw_carveout_path (root : AbsolutePathBuf) (raw_writable_roots : list AbsolutePathBuf)
    (path : AbsolutePathBuf) : option AbsolutePathBuf :=
  if negb (match path_parent root with Some _ => true | None => false end) then None
  else if path == root then None
  else if path_starts_with path root then Some path
  else head (omap (fun raw_root =>
         match path_strip_prefix path raw_root with
         | None => None
         | Some suffix => if suffix == [] then None else Some (abs_join_path os root suffix)
         end) raw_writable_roots).

Definition carveout_path (root : AbsolutePathBuf) (raw_writable_roots : list AbsolutePathBuf)
    (entry : ResolvedFileSystemEntry) : option AbsolutePathBuf :=
  let effective_path := normalize_effective_absolute_path os entry.(res_path) in
  match raw_carveout_path root raw_writable_roots entry.(res_path) with
  | Some raw_carveout_path => Some raw_carveout_path
  | None =>
      if (effective_path == root) || negb (path_starts_with effective_path root) then None
      else Some effective_path
  end.

Definition writable_root_of (self : FileSystemSandboxPolicy) (cwd : PathBuf)
    (resolved_entries : list ResolvedFileSystemEntry) (writable_entries : list AbsolutePathBuf)
    (root : AbsolutePathBuf) : WritableRoot :=
  let raw_writable_roots :=
    retain (fun path => normalize_effective_absolute_path os path == root) writable_entries in
  let protect_missing_dot_motyga :=
    is_some_and (fun cwd => normalize_effective_absolute_path os cwd == root) (abs_of_path os cwd) in
  let defaults :=
    retain (fun path => negb (has_explicit_resolved_path_entry resolved_entries path))
      (default_read_only_subpaths_for_writable_root os root protect_missing_dot_motyga) in
  let carveouts :=
    omap (carveout_path root raw_writable_roots)
      (retain (fun entry => negb (can_write_path_with_cwd os self entry.(res_path) cwd))
        (retain (fun entry => negb (can_write entry.(res_access))) resolved_entries)) in
  mkWritableRoot root (dedup_absolute_paths os (defaults ++ carveouts) false)
    (protected_metadata_names_for_writable_root self root raw_writable_roots cwd).

Definition get_writable_roots_with_cwd (self : FileSystemSandboxPolicy) (cwd : PathBuf) : list WritableRoot :=
  if has_full_disk_write_access self then []
  else
    let resolved_entries := resolved_entries_with_cwd os self cwd in
    let writable_entries :=
      res_path <$>
        retain (fun entry => can_write_path_with_cwd os self entry.(res_path) cwd)
          (retain (fun entry => can_write entry.(res_access)) resolved_entries) in
    writable_root_of self cwd resolved_entries writable_entries
      <$> dedup_absolute_paths os writable_entries true.

Definition get_unreadable_roots_with_cwd (self : FileSystemSandboxPolicy) (cwd : PathBuf) :
    list AbsolutePathBuf :=
  if negb (is_restricted self) then []
  else
    let root := match abs_of_path os cwd with
                | Some cwd => absolute_root_path_for_cwd os cwd
                | None => None
                end in
    dedup_absolute_paths os
      (res_path <$>
        retain (fun entry => root != Some entry.(res_path))
          (retain (fun entry => negb (can_read_path_with_cwd os self entry.(res_path) cwd))
            (retain (fun entry => entry.(res_access) == FileSystemAccessMode.Deny)
              (resolved_entries_with_cwd os self cwd))))
      true.

Definition get_unreadable_globs_with_cwd (self : FileSystemSandboxPolicy) (cwd : PathBuf) : list str :=
  if negb (is_restricted self) then []
  else dedup (sort_by str_leb
         (omap (fun entry =>
            match entry.(entry_path) with
            | GlobPattern pattern => Some (path_str (resolve_path_against_base os.(os_env) pattern cwd))
            | Path _ | Special _ => None
            end) (retain is_deny self.(fsp_entries)))).

(** ** Comparing policies *)

(** [Path]'s order, component by component. *)
Definition component_rank (c : Component) : N :=
  match c with RootDir => 0 | CurDir => 1 | ParentDir => 2 | Normal _ => 3 end.
Fixpoint path_le (a b : PathBuf) : bool :=
  match a, b with
  | [], _ => true
  | _ :: _, [] => false
  | x :: a, y :: b =>
      if x == y then path_le a b
      else match x, y with
           | Normal m, Normal n => str_leb m n
           | _, _ => (component_rank x <? component_rank y)%N
           end
  end.

Definition sorted_absolute_paths (paths : list AbsolutePathBuf) := sort_by path_le paths.

Definition sorted_writable_roots (roots : list WritableRoot) : list WritableRoot :=
  sort_by (fun l r => path_le l.(wr_root) r.(wr_root))
    ((fun root => mkWritableRoot root.(wr_root) (sorted_absolute_paths root.(read_only_subpaths))
                    (dedup (sort_by str_leb root.(protected_metadata_names)))) <$> roots).

Record FileSystemSemanticSignature : Set := mkSignature {
  sig_full_disk_read : bool;
  sig_full_disk_write : bool;
  sig_platform_defaults : bool;
  sig_readable_roots : list AbsolutePathBuf;
  sig_writable_roots : list WritableRoot;
  sig_unreadable_roots : list AbsolutePathBuf;
  sig_unreadable_globs : list str;
}.

#[local] Instance WritableRoot_eq_dec : EqDecision WritableRoot.
Proof. solve_decision. Defined.
#[local] Instance FileSystemSemanticSignature_eq_dec : EqDecision FileSystemSemanticSignature.
Proof. solve_decision. Defined.

Definition semantic_signature (self : FileSystemSandboxPolicy) (cwd : PathBuf) :
    FileSystemSemanticSignature :=
  mkSignature (has_full_disk_read_access self) (has_full_disk_write_access self)
    (include_platform_defaults self)
    (sorted_absolute_paths (get_readable_roots_with_cwd self cwd))
    (sorted_writable_roots (get_writable_roots_with_cwd self cwd))
    (sorted_absolute_paths (get_unreadable_roots_with_cwd self cwd))
    (get_unreadable_globs_with_cwd self cwd).

Definition is_semantically_equivalent_to (self other : FileSystemSandboxPolicy) (cwd : PathBuf) : bool :=
  semantic_signature self cwd == semantic_signature other cwd.

Definition protected_metadata_names_need_direct_runtime_enforcement (policy : FileSystemSandboxPolicy)
    (legacy_policy : SandboxPolicy) (cwd : PathBuf) : bool :=
  let legacy_roots := sp_get_writable_roots_with_cwd legacy_policy cwd in
  existsb (fun writable_root =>
    match find (fun candidate => candidate.(wr_root) == writable_root.(wr_root)) legacy_roots with
    | None => writable_root.(protected_metadata_names) != []
    | Some legacy_root =>
        existsb (fun metadata_name =>
          let metadata_path := abs_join os.(os_env) writable_root.(wr_root) metadata_name in
          negb (existsb (fun subpath => subpath == metadata_path) legacy_root.(read_only_subpaths)))
          writable_root.(protected_metadata_names)
    end) (get_writable_roots_with_cwd policy cwd).

Definition needs_direct_runtime_enforcement (self : FileSystemSandboxPolicy)
    (network_policy : NetworkSandboxPolicy.t) (cwd : PathBuf) : bool :=
  if negb (is_restricted self) then false
  else match to_legacy_sandbox_policy self network_policy cwd with
       | Err _ => true
       | Ok legacy_policy =>
           if protected_metadata_names_need_direct_runtime_enforcement self legacy_policy cwd then true
           else semantic_signature self cwd
                != semantic_signature (legacy_runtime_file_system_policy_for_cwd legacy_policy cwd) cwd
       end.
End legacy.

(** * Denied reads ([ReadDenyMatcher]) *)

Inductive InvalidDenyReadGlobBehavior : Set := FailClosed | ReturnError.

Record ReadDenyMatcher : Type := mkMatcher {
  denied_candidates : list (list PathBuf);
  deny_read_matchers : list (PathBuf -> bool);
  invalid_pattern : bool;
}.

(** [build_glob_matcher] compiles a pattern with the [globset] crate. *)
Section read_deny.
Context (os : Os) (build_glob_matcher : str -> result (PathBuf -> bool) str).

Definition normalized_and_canonical_candidates (path : PathBuf) : list PathBuf :=
  let candidates := match abs_of_path os path with Some normalized => [normalized] | None => [path] end in
  match os.(os_canonicalize) path with
  | Some canonical =>
      match abs_of_path os canonical with
      | Some canonical_absolute => push_unique candidates canonical_absolute
      | None => candidates
      end
  | None => candidates
  end.

Fixpoint build_matchers (behavior : InvalidDenyReadGlobBehavior) (patterns : list str) :
    result (list (PathBuf -> bool) * bool) str :=
  match patterns with
  | [] => Ok ([], false)
  | pattern :: patterns =>
      match build_glob_matcher pattern, behavior with
      | Err err, ReturnError =>
          Err (lit "invalid deny-read glob pattern `" ++ pattern ++ lit "`: " ++ err)
      | built, _ =>
          let? (matchers, invalid) := build_matchers behavior patterns in
          match built with
          | Ok matcher => Ok (matcher :: matchers, invalid)
          | Err _ => Ok (matchers, true)
          end
      end
  end.

Definition build_matcher (policy : FileSystemSandboxPolicy) (cwd : PathBuf)
    (behavior : InvalidDenyReadGlobBehavior) : result (option ReadDenyMatcher) str :=
  if negb (has_denied_read_restrictions policy) then Ok None
  else
    let denied_candidates :=
      normalized_and_canonical_candidates <$> get_unreadable_roots_with_cwd os policy cwd in
    let? (matchers, invalid) := build_matchers behavior (get_unreadable_globs_with_cwd os policy cwd) in
    Ok (Some (mkMatcher denied_candidates matchers invalid)).

Definition is_read_denied (self : ReadDenyMatcher) (path : PathBuf) : bool :=
  if self.(invalid_pattern) then true
  else
    let path_candidates := normalized_and_canonical_candidates path in
    if existsb (fun denied_candidates =>
         existsb (fun candidate =>
           existsb (fun denied_candidate =>
             (candidate == denied_candidate) || path_starts_with candidate denied_candidate)
             denied_candidates) path_candidates) self.(denied_candidates)
    then true
    else existsb (fun matcher => existsb matcher path_candidates) self.(deny_read_matchers).
End read_deny.
