(* ===== verification/PermissionLaws.v ===== *)
(** Theorems on the sandbox policies of [Permissions]: which entry decides, what
    adding and preserving entries does, the protection of workspace metadata,
    and the conversion from and to legacy policies. *)

From stdpp Require Import base list option numbers strings sets.
From Stdlib Require Import NArith Lia Permutation.
From S2P Require Import Prelude RustStr AbsolutePath Permissions.
Import FileSystemAccessMode (can_read, can_write, rank).
Local Open Scope rust_scope.

(** * Well-formed policies and hosts *)

Definition entry_ok (e : FileSystemSandboxEntry) : Prop :=
  match e.(entry_path) with Path p => path_normal p | _ => True end.

(** Path entries hold values of the type [AbsolutePathBuf], which are normal. *)
Definition fs_policy_ok (p : FileSystemSandboxPolicy) : Prop := Forall entry_ok p.(fsp_entries).

Lemma prefix_same_length {A} (p q t : list A) :
  p `prefix_of` t -> q `prefix_of` t -> length p = length q -> p = q.
Proof. intros [k ->] [k' E] Hl. by apply app_inj_1 in E as [? _]. Qed.

Lemma prefix_comparable {A} (p q t : list A) :
  p `prefix_of` t -> q `prefix_of` t -> length p <= length q -> p `prefix_of` q.
Proof.
  intros Hp [k' ->] Hl. destruct Hp as [k E]. exists (take (length q - length p) k).
  apply (f_equal (take (length q))) in E. rewrite take_app_length in E.
  etransitivity; [exact E|]. by rewrite take_app_ge.
Qed.

Lemma absolute_root_path_normal os cwd :
  path_normal cwd -> absolute_root_path_for_cwd os cwd = Some [RootDir].
Proof.
  intros (names & -> & _). unfold absolute_root_path_for_cwd, path_ancestors.
  rewrite ancestors_from_root by (cbn; rewrite length_fmap; lia).
  apply abs_of_path_normal. by exists [].
Qed.

(** * The deciding entry *)

Lemma precedence_refl x : precedence_le x x = true.
Proof. unfold precedence_le. by rewrite Nat.eqb_refl, Nat.leb_refl, orb_true_r. Qed.

Lemma precedence_spec a b :
  precedence_le a b = true <-> a.1 < b.1 \/ (a.1 = b.1 /\ rank a.2 <= rank b.2).
Proof.
  unfold precedence_le. rewrite orb_true_iff, andb_true_iff, Nat.ltb_lt, Nat.eqb_eq, Nat.leb_le. done.
Qed.

Lemma precedence_trans x y z :
  precedence_le x y = true -> precedence_le y z = true -> precedence_le x z = true.
Proof. rewrite !precedence_spec. lia. Qed.

Lemma precedence_total x y : precedence_le x y = false -> precedence_le y x = true.
Proof.
  intros H. apply not_true_iff_false in H. rewrite precedence_spec in H. apply precedence_spec. lia.
Qed.

Lemma rank_inj a b : rank a = rank b -> a = b.
Proof. by destruct a, b. Qed.

(** [e] decides the access to [target]: it covers it, every other covering entry
    is shorter, or is at the same path with an access of lower precedence. *)
Definition decides (res : list ResolvedFileSystemEntry) (target : PathBuf) (e : ResolvedFileSystemEntry) : Prop :=
  e ∈ res /\ e.(res_path) `prefix_of` target
  /\ forall e', e' ∈ res -> e'.(res_path) `prefix_of` target ->
       length e'.(res_path) < length e.(res_path)
       \/ (e'.(res_path) = e.(res_path) /\ rank e'.(res_access) <= rank e.(res_access)).

(** The access the entries give to a resolved path. *)
Definition access_of (res : list ResolvedFileSystemEntry) (target : PathBuf) : Access :=
  match max_by_key precedence_le resolved_entry_precedence
          (retain (fun entry => path_starts_with target entry.(res_path)) res) with
  | Some entry => entry.(res_access)
  | None => FileSystemAccessMode.Deny
  end.

Lemma elem_of_covering res target e :
  e ∈ retain (fun entry => path_starts_with target entry.(res_path)) res
  <-> e ∈ res /\ e.(res_path) `prefix_of` target.
Proof. rewrite elem_of_retain, path_starts_with_spec. tauto. Qed.

Lemma access_of_decides res target e : decides res target e -> access_of res target = e.(res_access).
Proof.
  intros (He & Hp & Hmax). unfold access_of. case_match eqn:E.
  - apply max_by_key_Some in E as [Hr Hle];
      [|apply precedence_refl|apply precedence_trans|apply precedence_total].
    specialize (Hle e (proj2 (elem_of_covering res target e) (conj He Hp))).
    apply elem_of_covering in Hr as [Hr Hrp]. specialize (Hmax _ Hr Hrp).
    apply precedence_spec in Hle. cbn in Hle. apply rank_inj. destruct Hmax as [?|[Heq ?]]; [|rewrite Heq in Hle]; lia.
  - apply max_by_key_None in E. assert (e ∈ []) as []%not_elem_of_nil.
    rewrite <- E. by apply elem_of_covering.
Qed.

Lemma access_of_cases res target :
  (exists e, decides res target e)
  \/ ((forall e, e ∈ res -> ~ e.(res_path) `prefix_of` target)
      /\ access_of res target = FileSystemAccessMode.Deny).
Proof.
  unfold access_of. case_match eqn:E.
  - left. apply max_by_key_Some in E as [Hr Hle];
      [|apply precedence_refl|apply precedence_trans|apply precedence_total].
    apply elem_of_covering in Hr as [Hr Hrp]. exists r. split; [done|]. split; [done|].
    intros e' He' Hp'. specialize (Hle e' (proj2 (elem_of_covering res target e') (conj He' Hp'))).
    apply precedence_spec in Hle as [Hl|[Hl Hk]]; cbn in *; [by left|].
    right. split; [by eapply prefix_same_length|done].
  - right. split; [|done]. intros e He Hp. apply max_by_key_None in E.
    assert (e ∈ []) as []%not_elem_of_nil. rewrite <- E. by apply elem_of_covering.
Qed.

Lemma access_of_perm res res' target : (forall e, e ∈ res <-> e ∈ res') -> access_of res target = access_of res' target.
Proof.
  intros Heq. destruct (access_of_cases res target) as [[e He]|[Hn ->]].
  - rewrite (access_of_decides _ _ _ He). symmetry. apply access_of_decides.
    destruct He as (? & ? & Hm). repeat split; [by apply Heq|done|]. intros e' He'. apply Hm. by apply Heq.
  - destruct (access_of_cases res' target) as [[e (He & Hp & _)]|[_ ->]]; [|done].
    by destruct (Hn e); [apply Heq|].
Qed.

Lemma resolve_access_restricted os p path cwd target :
  is_restricted p = true -> resolve_candidate_path os path cwd = Some target ->
  resolve_access_with_cwd os p path cwd = access_of (resolved_entries_with_cwd os p cwd) target.
Proof.
  unfold is_restricted, resolve_access_with_cwd. intros H%bool_decide_eq_true_1 ->. by rewrite H.
Qed.

(** C12: in a restricted policy the access to a path is that of the entry that
    decides it, the most specific entry covering the path and, among entries for
    the same path, denial before writing before reading; a path no entry covers
    is denied.  The order of the entries does not matter. *)
Theorem resolve_access_most_specific os p path cwd target :
  is_restricted p = true -> resolve_candidate_path os path cwd = Some target ->
  (forall e, decides (resolved_entries_with_cwd os p cwd) target e ->
     resolve_access_with_cwd os p path cwd = e.(res_access))
  /\ ((exists e, decides (resolved_entries_with_cwd os p cwd) target e)
      \/ ((forall e, e ∈ resolved_entries_with_cwd os p cwd -> ~ e.(res_path) `prefix_of` target)
          /\ resolve_access_with_cwd os p path cwd = FileSystemAccessMode.Deny))
  /\ (forall es, es ≡ₚ p.(fsp_entries) ->
       resolve_access_with_cwd os (with_entries p es) path cwd = resolve_access_with_cwd os p path cwd).
Proof.
  intros Hr Ht. rewrite (resolve_access_restricted _ _ _ _ _ Hr Ht). split; [|split].
  - apply access_of_decides.
  - apply access_of_cases.
  - intros es Hes. rewrite (resolve_access_restricted os (with_entries p es) _ _ target) by done.
    apply access_of_perm. intros e. unfold resolved_entries_with_cwd. cbn [with_entries fsp_entries].
    rewrite !list_elem_of_omap. by setoid_rewrite Hes.
Qed.

(** * Resolved entries *)

Definition resolved_ok (res : list ResolvedFileSystemEntry) : Prop :=
  Forall (fun e => path_normal e.(res_path)) res.

Lemma resolve_entry_path_normal os fp cwd p :
  env_ok os.(os_env) -> (forall c, cwd = Some c -> path_normal c) ->
  match fp with Path q => path_normal q | _ => True end ->
  resolve_entry_path os fp cwd = Some p -> path_normal p.
Proof.
  intros He Hc Hp. unfold resolve_entry_path, resolve_file_system_path, resolve_file_system_special_path.
  repeat case_match; simplify_eq; try done; intros; simplify_eq;
    eauto using from_absolute_path_normal, resolve_normal.
  - unfold absolute_root_path_for_cwd, abs_of_path in *. repeat case_match; simplify_eq.
    by eapply from_absolute_path_normal.
Qed.

Lemma resolved_normal os p cwd :
  env_ok os.(os_env) -> fs_policy_ok p -> resolved_ok (resolved_entries_with_cwd os p cwd).
Proof.
  intros He Hp. apply Forall_forall. intros r. unfold resolved_entries_with_cwd.
  rewrite list_elem_of_omap. intros (e & Hin & Hr). unfold resolve_entry in Hr.
  case_match eqn:E; simplify_eq. cbn. eapply resolve_entry_path_normal; [done| | |exact E].
  - intros c Hc. eauto using from_absolute_path_normal.
  - by eapply (proj1 (Forall_forall _ _) Hp) in Hin.
Qed.

Lemma candidate_normal os path cwd t :
  env_ok os.(os_env) -> resolve_candidate_path os path cwd = Some t -> path_normal t.
Proof.
  intros He. unfold resolve_candidate_path, abs_of_path. repeat case_match; intros; simplify_eq;
    eauto using from_absolute_path_normal, resolve_normal.
Qed.

Lemma candidate_of_normal os p cwd : path_normal p -> resolve_candidate_path os p cwd = Some p.
Proof.
  intros Hp. unfold resolve_candidate_path. rewrite path_normal_absolute by done. by apply abs_of_path_normal.
Qed.

Lemma resolved_snoc os p cwd r a :
  resolved_entries_with_cwd os (with_entries p (p.(fsp_entries) ++ [mkEntry (Path r) a])) cwd
  = resolved_entries_with_cwd os p cwd ++ [mkResolved r a].
Proof. unfold resolved_entries_with_cwd. cbn [with_entries fsp_entries]. by rewrite omap_app. Qed.

(** Joining a plain name extends a path by that name. *)
Lemma abs_join_name env base n :
  path_normal base -> name_ok n -> head n <> Some TILDE -> abs_join env base n = base ++ [Normal n].
Proof.
  intros Hb Hn Ht. pose proof Hn as (H1 & H2 & H3 & H4).
  assert (components n = [Normal n]) as Hc.
  { unfold components. rewrite split_on_no by done.
    assert (starts_with [SLASH] n = false) as ->.
    { apply not_true_iff_false. rewrite starts_with_spec. intros [r ->]. apply H4. by left. }
    cbn [head]. rewrite bool_decide_false by (intros [= ?]; done). cbn [app].
    by rewrite omap_component_ok by (repeat constructor; done). }
  assert (maybe_expand_home_directory env n = [Normal n]) as Hexp.
  { unfold maybe_expand_home_directory. rewrite Hc.
    destruct (strip_prefix [TILDE] n) as [r|] eqn:E; [|by destruct (home_dir env)].
    apply strip_prefix_Some in E as ->. done. }
  unfold abs_join, resolve_path_against_base, absolutize_from, path_with_base. rewrite Hexp.
  assert (is_absolute [Normal n] = false) as E by done. rewrite E.
  unfold path_join. rewrite E. pose proof (path_normal_snoc base n Hb Hn) as Hs.
  destruct Hb as (names & -> & _). cbn [retain]. rewrite bool_decide_false by done. cbn [negb].
  by apply normalize_path_fixed.
Qed.

Lemma metadata_name_ok n : n ∈ PROTECTED_METADATA_PATH_NAMES -> name_ok n /\ head n <> Some TILDE.
Proof.
  unfold PROTECTED_METADATA_PATH_NAMES. rewrite !elem_of_cons, elem_of_nil.
  intros [->|[->|[->|[]]]]; (split; [|done]); unfold name_ok; repeat split; try done;
    vm_compute; set_solver.
Qed.

Lemma metadata_path_name_Some n m :
  metadata_path_name n = Some m <-> n = m /\ n ∈ PROTECTED_METADATA_PATH_NAMES.
Proof.
  unfold metadata_path_name. split.
  - intros H. apply find_some in H as [Hin Heq]. to_props. subst. split; [done|]. by apply list_elem_of_In.
  - intros [-> H]. revert H. unfold PROTECTED_METADATA_PATH_NAMES.
    rewrite !elem_of_cons, elem_of_nil. by intros [->|[->|[->|[]]]].
Qed.

(** A target is a metadata child of a root when it is, or is below, one of the
    protected names directly under the root. *)
Lemma metadata_child_spec os t e prot m :
  path_normal t -> path_normal e.(res_path) ->
  metadata_child os t e = Some (prot, m)
  <-> m ∈ PROTECTED_METADATA_PATH_NAMES /\ prot = e.(res_path) ++ [Normal m] /\ prot `prefix_of` t.
Proof.
  intros Ht He. unfold metadata_child. split.
  - repeat case_match; try done. intros [= <- <-].
    match goal with H : path_strip_prefix _ _ = Some _ |- _ => apply path_strip_prefix_Some in H as E end.
    match goal with H : metadata_path_name _ = Some _ |- _ => apply metadata_path_name_Some in H as [-> Hm] end.
    match goal with H : first_component_name ?q = Some _ |- _ =>
      unfold first_component_name in H; destruct q as [|c k]; [done|]; cbn in H; simplify_eq end.
    assert (c = Normal (component_str c)) as Hc.
    { destruct c; [..|done]; revert Hm; unfold PROTECTED_METADATA_PATH_NAMES;
        rewrite !elem_of_cons, elem_of_nil; by intros [|[|[|[]]]]. }
    destruct (metadata_name_ok _ Hm) as [Hok Htl]. rewrite abs_join_name by done.
    split; [done|]. split; [done|]. exists k. by rewrite <- app_assoc, <- Hc.
  - intros (Hm & -> & [k ->]). rewrite <- app_assoc.
    assert (path_strip_prefix (e.(res_path) ++ [Normal m] ++ k) e.(res_path) = Some ([Normal m] ++ k)) as ->
      by by apply path_strip_prefix_Some.
    change (first_component_name ([Normal m] ++ k)) with (Some m). cbv beta iota.
    rewrite (proj2 (metadata_path_name_Some m m)) by done.
    destruct (metadata_name_ok _ Hm) as [Hok Htl]. by rewrite abs_join_name.
Qed.

(** * Writing *)

Section writes.
Context (os : Os).

(** Whether the metadata protection refuses a write to a resolved path. *)
Definition metadata_denied (res : list ResolvedFileSystemEntry) (target : PathBuf) : bool :=
  match head (omap (metadata_child os target) (retain (fun e => can_write e.(res_access)) res)) with
  | None => false
  | Some (prot, _) =>
      negb (existsb (fun e => can_write e.(res_access) && path_starts_with target e.(res_path)
                              && path_starts_with e.(res_path) prot) res)
  end.

Lemma can_write_restricted p path cwd target :
  is_restricted p = true -> resolve_candidate_path os path cwd = Some target ->
  can_write_path_with_cwd os p path cwd
  = can_write (access_of (resolved_entries_with_cwd os p cwd) target)
    && (has_full_disk_write_access p || negb (metadata_denied (resolved_entries_with_cwd os p cwd) target)).
Proof.
  intros Hr Ht. unfold can_write_path_with_cwd. rewrite (resolve_access_restricted _ _ _ _ _ Hr Ht).
  destruct (can_write _); [|done]. cbn [negb andb]. destruct (has_full_disk_write_access p); [done|]. cbn [orb].
  unfold is_metadata_write_denied. rewrite Hr, Ht. done.
Qed.

Lemma can_write_unresolved p path cwd :
  is_restricted p = true -> resolve_candidate_path os path cwd = None ->
  can_write_path_with_cwd os p path cwd = false.
Proof.
  unfold is_restricted, can_write_path_with_cwd, resolve_access_with_cwd.
  intros H%bool_decide_eq_true_1 ->. by rewrite H.
Qed.

Lemma can_write_unrestricted p path cwd :
  is_restricted p = false -> can_write_path_with_cwd os p path cwd = true.
Proof.
  unfold is_restricted, can_write_path_with_cwd, resolve_access_with_cwd, has_full_disk_write_access.
  by destruct (fsp_kind p).
Qed.

Lemma head_omap_None {A B} (f : A -> option B) l : head (omap f l) = None <-> Forall (fun x => f x = None) l.
Proof.
  induction l as [|x l IH]; cbn; [split; [constructor|done]|]. rewrite Forall_cons.
  destruct (f x) eqn:E; cbn; rewrite <- ?IH; naive_solver.
Qed.

Lemma head_omap_Some {A B} (f : A -> option B) l y :
  head (omap f l) = Some y -> exists x, x ∈ l /\ f x = Some y.
Proof.
  induction l as [|x l IH]; cbn; [done|]. destruct (f x) eqn:E; cbn; [intros [= ->]; set_solver|].
  intros (z & ? & ?)%IH. set_solver.
Qed.

Lemma head_omap_snoc {A B} (f : A -> option B) l x :
  head (omap f (l ++ [x])) = match head (omap f l) with Some y => Some y | None => f x end.
Proof. induction l as [|y l IH]; cbn; [by destruct (f x)|]. by destruct (f y). Qed.

Lemma retain_snoc {A} (p : A -> bool) l x : retain p (l ++ [x]) = retain p l ++ (if p x then [x] else []).
Proof. induction l as [|y l IH]; cbn; [done|]. rewrite IH. by destruct (p y). Qed.

Lemma metadata_child_mono r t e x :
  path_normal r -> path_normal t -> path_normal e.(res_path) -> r `prefix_of` t ->
  metadata_child os r e = Some x -> metadata_child os t e = Some x.
Proof.
  destruct x as [prot m]. intros Hr Ht He Hp. rewrite !metadata_child_spec by done.
  intros (? & ? & ?). split; [done|]. split; [done|]. by etransitivity.
Qed.

(** If [r] is refused by the protection, so is everything below it, unless a
    grant below [r] decides. *)
Lemma metadata_head_mono res r t :
  path_normal r -> path_normal t -> resolved_ok res -> r `prefix_of` t ->
  metadata_denied res r = true ->
  head (omap (metadata_child os t) (retain (fun e => can_write e.(res_access)) res)) <> None.
Proof.
  intros Hr Ht Hok Hp. unfold metadata_denied. case_match eqn:E; [|done]. intros _ Hn.
  rewrite head_omap_None in Hn. assert (Forall (fun x => metadata_child os r x = None)
    (retain (fun e => can_write e.(res_access)) res)) as Hall.
  { rewrite Forall_forall in Hn |- *. intros e He. destruct (metadata_child os r e) eqn:Ec; [|done].
    rewrite <- (Hn e He). symmetry. apply (metadata_child_mono r); try done.
    apply elem_of_retain in He as [_ He]. by apply (proj1 (Forall_forall _ _) Hok). }
  apply head_omap_None in Hall. congruence.
Qed.

Lemma access_of_write_entry res t :
  access_of res t = FileSystemAccessMode.Write ->
  exists e, decides res t e /\ e.(res_access) = FileSystemAccessMode.Write.
Proof.
  intros H. destruct (access_of_cases res t) as [[e He]|[_ H']]; [|congruence].
  exists e. split; [done|]. by rewrite <- H, (access_of_decides _ _ _ He).
Qed.

Lemma decides_shorter res r t e :
  decides res t e -> r `prefix_of` t -> length e.(res_path) <= length r -> decides res r e.
Proof.
  intros (He & Hp & Hm) Hr Hl. split; [done|]. split; [by eapply prefix_comparable|].
  intros e' He' Hp'. apply Hm; [done|]. by etransitivity.
Qed.

Lemma can_write_true a : can_write a = true <-> a = FileSystemAccessMode.Write.
Proof. by destruct a. Qed.

(** A new write entry keeps the access of everything that was writable. *)
Lemma access_of_add_write res r t :
  access_of res t = FileSystemAccessMode.Write ->
  access_of (res ++ [mkResolved r FileSystemAccessMode.Write]) t = FileSystemAccessMode.Write.
Proof.
  intros (e & (He & Hp & Hm) & Hw)%access_of_write_entry.
  destruct (decide (r `prefix_of` t)) as [Hr|Hr].
  - destruct (decide (length r <= length e.(res_path))) as [Hl|Hl].
    + rewrite (access_of_decides _ _ e); [done|]. split; [set_solver|]. split; [done|].
      intros e' [He'| ->%list_elem_of_singleton]%elem_of_app Hp'; [by apply Hm|]. cbn.
      destruct (decide (length r = length e.(res_path))); [|left; lia].
      right. rewrite Hw. split; [|done]. by eapply prefix_same_length.
    + rewrite (access_of_decides _ _ (mkResolved r FileSystemAccessMode.Write)); [done|].
      split; [set_solver|]. split; [done|].
      intros e' [He'| ->%list_elem_of_singleton]%elem_of_app Hp'; [|by right].
      left. cbn. destruct (Hm e' He' Hp') as [?|[-> _]]; lia.
  - rewrite (access_of_decides _ _ e); [done|]. split; [set_solver|]. split; [done|].
    intros e' [He'| ->%list_elem_of_singleton]%elem_of_app Hp'; [by apply Hm|done].
Qed.

Lemma metadata_add_write res r t :
  path_normal r -> path_normal t -> resolved_ok res ->
  (access_of res r <> FileSystemAccessMode.Write \/ metadata_denied res r = true) ->
  access_of res t = FileSystemAccessMode.Write -> metadata_denied res t = false ->
  metadata_denied (res ++ [mkResolved r FileSystemAccessMode.Write]) t = false.
Proof.
  intros Hr Ht Hok Hnw Ha Hd. pose proof Hd as Hd'. unfold metadata_denied in Hd |- *.
  rewrite retain_snoc. cbn [res_access can_write]. rewrite head_omap_snoc.
  destruct (head (omap (metadata_child os t) (retain (fun e => can_write e.(res_access)) res)))
    as [[prot m]|] eqn:Eh.
  { apply negb_false_iff in Hd. apply negb_false_iff. by rewrite existsb_app, Hd. }
  destruct (metadata_child os t _) as [[prot m]|] eqn:Ec; [|done].
  apply metadata_child_spec in Ec as (Hm & -> & Hpre); [|done|done]. cbn [res_path] in *.
  assert (r `prefix_of` t) as Hrt by (etransitivity; [|exact Hpre]; by eexists).
  destruct (access_of_write_entry _ _ Ha) as (e & Hdec & Hw).
  destruct (decide (length e.(res_path) <= length r)) as [Hl|Hl].
  { pose proof (access_of_decides _ _ _ (decides_shorter _ _ _ _ Hdec Hrt Hl)) as Har.
    destruct Hnw as [Hnw|Hnw]; [congruence|]. by destruct (metadata_head_mono res r t Hr Ht Hok Hrt Hnw). }
  destruct Hdec as (He & Hp & _). apply negb_false_iff, existsb_exists. exists e.
  split; [apply list_elem_of_In; set_solver|]. rewrite Hw. cbn [can_write andb].
  apply andb_true_iff. rewrite !path_starts_with_spec. split; [done|].
  eapply prefix_comparable; [exact Hpre|done|]. rewrite length_app. cbn. lia.
Qed.

Lemma full_write_add p r :
  has_full_disk_write_access p = true ->
  has_full_disk_write_access
    (with_entries p (p.(fsp_entries) ++ [mkEntry (Path r) FileSystemAccessMode.Write])) = true.
Proof.
  unfold has_full_disk_write_access, has_root_access, has_write_narrowing_entries, is_restricted.
  cbn [with_entries fsp_kind fsp_entries]. destruct (fsp_kind p); try done. cbn [bool_decide_pack].
  rewrite !existsb_app, !andb_true_iff, !negb_true_iff, !andb_false_iff.
  intros [[_ Hr] [|Hn]]; [done|]. split; [by rewrite Hr|]. right. apply orb_false_iff. split; [|done].
  apply existsb_false. apply existsb_false in Hn. eapply Forall_impl; [exact Hn|]. intros e He. cbn beta in *.
  assert (forall b, negb (has_same_target_write_override p e) = b -> b = false ->
    negb (has_same_target_write_override
      (with_entries p (p.(fsp_entries) ++ [mkEntry (Path r) FileSystemAccessMode.Write])) e) = false) as Hov.
  { intros b <-. rewrite !negb_false_iff. unfold has_same_target_write_override. cbn [with_entries fsp_entries].
    intros H. by rewrite existsb_app, H. }
  destruct (can_write (entry_access e)); [done|]. destruct (entry_path e) as [| |[]]; eauto.
Qed.

Lemma add_writable_root_kind cwd p r : fsp_kind (add_writable_root os cwd p r) = fsp_kind p.
Proof. unfold add_writable_root. by case_match. Qed.

Lemma add_writable_root_ok cwd p r :
  fs_policy_ok p -> path_normal r -> fs_policy_ok (add_writable_root os cwd p r).
Proof.
  intros Hp Hr. unfold add_writable_root. case_match; [done|]. apply Forall_app. split; [done|].
  by apply Forall_singleton.
Qed.

Context (Henv : env_ok os.(os_env)).

Lemma add_writable_root_mono cwd p r path :
  fs_policy_ok p -> path_normal r ->
  can_write_path_with_cwd os p path cwd = true ->
  can_write_path_with_cwd os (add_writable_root os cwd p r) path cwd = true.
Proof.
  intros Hp Hr Hw. destruct (is_restricted p) eqn:Hk.
  2:{ apply can_write_unrestricted. unfold is_restricted. by rewrite add_writable_root_kind. }
  unfold add_writable_root. case_match eqn:Hcan; [done|].
  destruct (resolve_candidate_path os path cwd) as [t|] eqn:Ht;
    [|by rewrite (can_write_unresolved p path cwd) in Hw].
  pose proof (candidate_normal _ _ _ _ Henv Ht) as Hnt.
  pose proof (resolved_normal os p cwd Henv Hp) as Hok.
  rewrite (can_write_restricted _ _ _ t) in Hw by done. rewrite (can_write_restricted _ _ _ t) by done.
  rewrite (can_write_restricted _ _ _ r) in Hcan by (done || by apply candidate_of_normal).
  rewrite resolved_snoc. apply andb_true_iff in Hw as [Ha Hm]. apply can_write_true in Ha.
  rewrite (access_of_add_write _ r t Ha). cbn [can_write andb].
  apply orb_true_iff in Hm as [Hf|Hm]; [by rewrite (full_write_add p r Hf)|].
  rewrite metadata_add_write; [by rewrite orb_true_r|done..| |done|by apply negb_true_iff].
  apply andb_false_iff in Hcan as [Hc|Hc]; [left; intros E; by rewrite E in Hc|right].
  apply orb_false_iff in Hc as [_ Hc]. by apply negb_false_iff in Hc.
Qed.

(** No entry of the policy denies exactly this path. *)
Definition not_denied (p : FileSystemSandboxPolicy) (cwd r : PathBuf) : Prop :=
  forall e, e ∈ resolved_entries_with_cwd os p cwd -> e.(res_path) = r ->
    e.(res_access) <> FileSystemAccessMode.Deny.

Lemma not_denied_add cwd p r r' :
  not_denied p cwd r' -> not_denied (add_writable_root os cwd p r) cwd r'.
Proof.
  intros H. unfold add_writable_root. case_match; [done|]. intros e. rewrite resolved_snoc.
  intros [He| ->%list_elem_of_singleton]%elem_of_app; [by apply H|done].
Qed.

Lemma add_writable_root_grants cwd p r :
  fs_policy_ok p -> path_normal r -> not_denied p cwd r ->
  can_write_path_with_cwd os (add_writable_root os cwd p r) r cwd = true.
Proof.
  intros Hp Hr Hd. unfold add_writable_root. case_match eqn:Hcan; [done|].
  destruct (is_restricted p) eqn:Hk; [|by rewrite can_write_unrestricted in Hcan].
  rewrite (can_write_restricted _ _ _ r) by (done || by apply candidate_of_normal). rewrite resolved_snoc.
  set (w := mkResolved r FileSystemAccessMode.Write).
  rewrite (access_of_decides _ _ w).
  2:{ split; [set_solver|]. split; [done|]. intros e' [He'| ->%list_elem_of_singleton]%elem_of_app Hp'; [|by right].
      destruct (decide (length (res_path e') = length r)) as [Hl|Hl];
        [|left; apply prefix_length in Hp'; cbn; lia].
      right. assert (res_path e' = r) as E by by eapply prefix_same_length. split; [done|].
      pose proof (Hd _ He' E). unfold w. destruct (res_access e'); cbn; [lia|lia|done]. }
  cbn [res_access can_write andb w]. apply orb_true_iff. right. apply negb_true_iff.
  unfold metadata_denied. case_match eqn:Eh; [|done]. case_match. apply negb_false_iff, existsb_exists.
  exists w. split; [apply list_elem_of_In; set_solver|]. unfold w at 1 2. cbn [res_access res_path can_write].
  rewrite path_starts_with_refl. cbn [andb]. apply path_starts_with_spec. subst.
  apply head_omap_Some in Eh as (e & He & Hc). apply elem_of_retain in He as [_ He].
  assert (path_normal (res_path e)).
  { apply elem_of_app in He as [He| ->%list_elem_of_singleton]; [|done].
    by apply (proj1 (Forall_forall _ _) (resolved_normal os p cwd Henv Hp)). }
  by apply metadata_child_spec in Hc as (_ & _ & ?).
Qed.

Lemma with_additional_writable_roots_step cwd roots p :
  fs_policy_ok p -> Forall path_normal roots ->
  let p' := with_additional_writable_roots os p cwd roots in
  (forall path, can_write_path_with_cwd os p path cwd = true -> can_write_path_with_cwd os p' path cwd = true)
  /\ (forall r, r ∈ roots -> not_denied p cwd r -> can_write_path_with_cwd os p' r cwd = true).
Proof.
  intros Hp Hr. revert p Hp. induction Hr as [|r roots Hr _ IH]; intros p Hp; cbn.
  { split; [done|]. by intros r []%not_elem_of_nil. }
  destruct (IH (add_writable_root os cwd p r)) as [IH1 IH2]; [by apply add_writable_root_ok|].
  split.
  - intros path Hw. apply IH1. by apply add_writable_root_mono.
  - intros r' [->|Hin]%elem_of_cons Hd.
    + apply IH1. by apply add_writable_root_grants.
    + apply IH2; [done|]. by apply not_denied_add.
Qed.
End writes.

(** Adding writable roots never takes a writable path away, and makes
    every added root writable, also inside a metadata directory, unless an entry
    of the policy denies exactly that root. *)
Theorem additional_writable_roots_grant os p cwd roots :
  env_ok os.(os_env) -> fs_policy_ok p -> Forall path_normal roots ->
  let p' := with_additional_writable_roots os p cwd roots in
  (forall path, can_write_path_with_cwd os p path cwd = true -> can_write_path_with_cwd os p' path cwd = true)
  /\ (forall r, r ∈ roots -> not_denied os p cwd r -> can_write_path_with_cwd os p' r cwd = true).
Proof. intros. by apply with_additional_writable_roots_step. Qed.

(** * Full-disk access *)

Lemma slash_tmp_normal : path_normal slash_tmp.
Proof. exists [lit "tmp"]. split; [done|]. repeat constructor; vm_compute; set_solver. Qed.

Lemma resolve_slash_tmp os : from_absolute_path os.(os_env) (lit "/tmp") = Some slash_tmp.
Proof. apply (abs_of_path_normal os _ slash_tmp_normal). Qed.

Lemma path_normal_no_parent p : path_normal p -> path_parent p = None -> p = [RootDir].
Proof.
  intros (names & -> & _). destruct (list_snoc_inv names) as [->|(k & x & ->)]; [done|].
  unfold path_parent. rewrite fmap_app, app_comm_cons. cbn [fmap list_fmap]. by rewrite last_snoc.
Qed.

Lemma special_share_eq v w : special_paths_share_target v w = true -> v = w.
Proof. destruct v, w; cbn; intros; to_props; naive_solver. Qed.

(** Entries that share a target resolve to the same path. *)
Lemma share_target_resolves os a b c q :
  match a with Path p => path_normal p | _ => True end ->
  match b with Path p => path_normal p | _ => True end ->
  path_normal c -> os.(is_dir) slash_tmp = true ->
  file_system_paths_share_target a b = true ->
  resolve_entry_path os b (Some c) = Some q -> resolve_entry_path os a (Some c) = Some q.
Proof.
  intros Ha Hb Hc Htmp. pose proof (absolute_root_path_normal os c Hc) as Hroot.
  assert (resolve_entry_path os (Special SlashTmp) (Some c) = Some slash_tmp) as Hslash.
  { cbn. by rewrite resolve_slash_tmp, Htmp. }
  destruct a as [p|g|v], b as [p'|g'|v']; cbn [file_system_paths_share_target]; try done.
  - intros H. by to_props; subst.
  - destruct v'; cbn [special_path_matches_absolute_path]; try done; intros H; to_props.
    + apply path_normal_no_parent in H as ->; [|done]. cbn. by rewrite Hroot.
    + subst. by rewrite Hslash.
  - destruct v; cbn [special_path_matches_absolute_path]; try done; intros H; to_props.
    + apply path_normal_no_parent in H as ->; [|done]. cbn. by rewrite Hroot.
    + subst. by rewrite Hslash.
  - by intros ->%special_share_eq.
Qed.

Lemma resolved_elem os p cwd c en q :
  abs_of_path os cwd = Some c -> en ∈ p.(fsp_entries) ->
  resolve_entry_path os en.(entry_path) (Some c) = Some q ->
  mkResolved q en.(entry_access) ∈ resolved_entries_with_cwd os p cwd.
Proof.
  intros Hc Hin Hq. unfold resolved_entries_with_cwd. rewrite list_elem_of_omap. exists en.
  split; [done|]. unfold resolve_entry. by rewrite Hc, Hq.
Qed.

(** A policy without narrowing entries has, beside every entry that resolves, a
    write entry for the same path. *)
Lemma not_narrowing_write os p cwd c en q :
  fs_policy_ok p -> abs_of_path os cwd = Some c -> path_normal c -> os.(is_dir) slash_tmp = true ->
  has_root_access p can_write = true -> has_write_narrowing_entries p = false ->
  en ∈ p.(fsp_entries) -> resolve_entry_path os en.(entry_path) (Some c) = Some q ->
  en.(entry_access) <> FileSystemAccessMode.Deny
  /\ mkResolved q FileSystemAccessMode.Write ∈ resolved_entries_with_cwd os p cwd.
Proof.
  intros Hok Hc Hcn Htmp [Hk Hroot]%andb_true_iff Hn Hin Hq.
  unfold has_write_narrowing_entries in Hn. rewrite Hk in Hn. cbn [andb] in Hn.
  apply existsb_false in Hn. rewrite Forall_forall in Hn. specialize (Hn en Hin). cbn beta in Hn.
  destruct (can_write (entry_access en)) eqn:Ew.
  { apply can_write_true in Ew. split; [by rewrite Ew|]. rewrite <- Ew. by eapply resolved_elem. }
  assert (has_same_target_write_override p en = true ->
    entry_access en <> FileSystemAccessMode.Deny
    /\ mkResolved q FileSystemAccessMode.Write ∈ resolved_entries_with_cwd os p cwd) as Hov.
  { unfold has_same_target_write_override. intros (cand & Hcin & Hcand)%existsb_exists.
    apply list_elem_of_In in Hcin. apply andb_true_iff in Hcand as [[Hw Hlt]%andb_true_iff Hsh].
    apply can_write_true in Hw. rewrite Hw in Hlt. split; [intros E; by rewrite E in Hlt|].
    rewrite <- Hw. eapply resolved_elem; [done|done|].
    eapply share_target_resolves; [..|exact Hsh|exact Hq]; try done.
    - exact (proj1 (Forall_forall _ _) Hok _ Hcin).
    - exact (proj1 (Forall_forall _ _) Hok _ Hin). }
  destruct (entry_path en) as [p'|g|v] eqn:Ep; [by apply Hov, negb_false_iff|done|].
  destruct v; try done; try (by apply Hov, negb_false_iff).
  apply existsb_exists in Hroot as (rt & Hrin & Hrt). apply list_elem_of_In in Hrin.
  destruct (entry_path rt) as [| |[]] eqn:Er; try done. apply can_write_true in Hrt.
  split; [by unfold is_deny in Hn; to_props|]. rewrite <- Hrt. eapply resolved_elem; [done|done|].
  by rewrite Er.
Qed.

(** A policy that reports full-disk write access lets every path be
    written: no entry narrows it (on a host whose /tmp is a directory). *)
Theorem full_disk_write_access_total os p path cwd c target :
  env_ok os.(os_env) -> fs_policy_ok p -> os.(is_dir) slash_tmp = true ->
  abs_of_path os cwd = Some c -> resolve_candidate_path os path cwd = Some target ->
  has_full_disk_write_access p = true ->
  can_write_path_with_cwd os p path cwd = true
  /\ resolve_access_with_cwd os p path cwd = FileSystemAccessMode.Write.
Proof.
  intros Henv Hok Htmp Hc Ht Hfull.
  enough (resolve_access_with_cwd os p path cwd = FileSystemAccessMode.Write) as Ha.
  { split; [|done]. unfold can_write_path_with_cwd. by rewrite Ha, Hfull. }
  destruct (is_restricted p) eqn:Hk.
  2:{ unfold is_restricted in Hk. unfold resolve_access_with_cwd. by destruct (fsp_kind p). }
  rewrite (resolve_access_restricted _ _ _ _ _ Hk Ht).
  assert (path_normal c) as Hcn by eauto using from_absolute_path_normal.
  assert (fsp_kind p = FileSystemSandboxKind.Restricted) as Hkind by (unfold is_restricted in Hk; by to_props).
  unfold has_full_disk_write_access in Hfull. rewrite Hkind in Hfull.
  apply andb_true_iff in Hfull as [Hroot Hn%negb_true_iff].
  destruct (access_of_cases (resolved_entries_with_cwd os p cwd) target) as [[e He]|[Hnone _]].
  - rewrite (access_of_decides _ _ _ He). destruct He as (Hin & Hp & Hmax).
    pose proof Hin as Hin'. unfold resolved_entries_with_cwd in Hin'. rewrite list_elem_of_omap in Hin'.
    destruct Hin' as (en & Hen & Hres). unfold resolve_entry in Hres. rewrite Hc in Hres.
    case_match eqn:Eq; simplify_eq. cbn [res_path res_access] in *.
    destruct (not_narrowing_write os p cwd c en _ Hok Hc Hcn Htmp Hroot Hn Hen Eq) as [Hnd Hw].
    specialize (Hmax _ Hw Hp). cbn in Hmax. destruct (entry_access en); cbn in *; [lia|done|done].
  - exfalso. apply andb_true_iff in Hroot as [_ (rt & Hrin & Hrt)%existsb_exists].
    apply list_elem_of_In in Hrin. destruct (entry_path rt) as [| |[]] eqn:Er; try done.
    assert (mkResolved [RootDir] (entry_access rt) ∈ resolved_entries_with_cwd os p cwd) as Hm.
    { eapply resolved_elem; [done|done|]. rewrite Er. cbn. by apply absolute_root_path_normal. }
    apply (Hnone _ Hm). cbn. destruct (candidate_normal _ _ _ _ Henv Ht) as (names & -> & _). by eexists.
Qed.

(** * Workspace-write policies *)

(** What the protection of metadata appends: read entries, none for the root. *)
Definition carveout (e : FileSystemSandboxEntry) : Prop :=
  e.(entry_access) = FileSystemAccessMode.Read /\ e.(entry_path) <> Special Root /\ entry_ok e.

Definition extends_by_carveouts (es es' : list FileSystemSandboxEntry) : Prop :=
  exists extra, es' = es ++ extra /\ Forall carveout extra.

Lemma extends_refl es : extends_by_carveouts es es.
Proof. exists []. by rewrite app_nil_r. Qed.

Lemma extends_trans a b c : extends_by_carveouts a b -> extends_by_carveouts b c -> extends_by_carveouts a c.
Proof.
  intros (x & -> & Hx) (y & -> & Hy). exists (x ++ y). rewrite <- app_assoc. split; [done|]. by apply Forall_app.
Qed.

Lemma extends_foldl {B} (f : list FileSystemSandboxEntry -> B -> list FileSystemSandboxEntry) l es :
  (forall es b, b ∈ l -> extends_by_carveouts es (f es b)) -> extends_by_carveouts es (foldl f es l).
Proof.
  revert es. induction l as [|b l IH]; intros es Hf; [apply extends_refl|]. cbn.
  eapply extends_trans; [apply Hf; by left|]. apply IH. intros. apply Hf. by right.
Qed.

Lemma append_default_extends es fp :
  fp <> Special Root -> match fp with Path p => path_normal p | _ => True end ->
  extends_by_carveouts es (append_default_read_only_entry_if_no_explicit_rule es fp).
Proof.
  intros Hr Hok. unfold append_default_read_only_entry_if_no_explicit_rule.
  destruct (existsb _ es); [apply extends_refl|].
  exists [mkEntry fp FileSystemAccessMode.Read]. split; [done|]. by apply Forall_singleton.
Qed.

Lemma push_unique_elem l x y : y ∈ push_unique l x <-> y ∈ l \/ y = x.
Proof.
  unfold push_unique. case_match eqn:E.
  - apply existsb_exists in E as (z & Hz%list_elem_of_In & Heq). to_props. naive_solver.
  - rewrite elem_of_app, list_elem_of_singleton. done.
Qed.

Lemma dedup_absolute_paths_elem os paths b y :
  y ∈ dedup_absolute_paths os paths b
  <-> exists x, x ∈ paths /\ y = if b then normalize_effective_absolute_path os x else x.
Proof.
  unfold dedup_absolute_paths.
  assert (forall acc, y ∈ foldl (fun deduped path => push_unique deduped
    (if b then normalize_effective_absolute_path os path else path)) acc paths <->
    y ∈ acc \/ exists x, x ∈ paths /\ y = if b then normalize_effective_absolute_path os x else x) as H.
  { induction paths as [|p paths IH]; intros acc; cbn; [set_solver|].
    rewrite IH, push_unique_elem. setoid_rewrite elem_of_cons. naive_solver. }
  rewrite H, elem_of_nil. naive_solver.
Qed.

Lemma read_only_subpaths_normal os root b p :
  env_ok os.(os_env) -> path_normal root ->
  p ∈ default_read_only_subpaths_for_writable_root os root b -> path_normal p.
Proof.
  intros He Hr. unfold default_read_only_subpaths_for_writable_root.
  rewrite dedup_absolute_paths_elem. intros (x & Hx & ->). revert Hx. rewrite !elem_of_app.
  assert (forall n, path_normal (abs_join (os_env os) root n)) as Hj by (intros; by apply resolve_normal).
  intros [Hx|[Hx|Hx]]; repeat case_match;
    rewrite ?elem_of_app, ?list_elem_of_singleton, ?elem_of_nil in Hx; try naive_solver.
  destruct Hx as [->|Hx]; [|naive_solver].
  match goal with H : resolve_gitdir_from_file _ _ = Some _ |- _ => unfold resolve_gitdir_from_file in H end.
  repeat case_match; simplify_eq. apply resolve_normal; [done|].
  match goal with H : path_parent _ = Some ?l |- path_normal ?l =>
    replace l with (path_pop (abs_join (os_env os) root (lit ".git"))) by (unfold path_pop; by rewrite H) end.
  by apply path_normal_pop.
Qed.

Lemma protect_writable_root_extends os b es root :
  env_ok os.(os_env) -> path_normal root -> extends_by_carveouts es (protect_writable_root os b es root).
Proof.
  intros He Hr. apply extends_foldl. intros es' p Hp. apply append_default_extends; [done|].
  by eapply read_only_subpaths_normal.
Qed.

Lemma workspace_write_extends os roots ext est :
  env_ok os.(os_env) -> Forall path_normal roots ->
  extends_by_carveouts (workspace_write_entries roots ext est) (workspace_write os roots ext est).(fsp_entries).
Proof.
  intros He Hr. unfold workspace_write. cbn [restricted fsp_entries].
  eapply extends_trans.
  - apply (extends_foldl append_default_read_only_project_root_subpath_if_no_explicit_rule
             PROTECTED_METADATA_PATH_NAMES). intros. by apply append_default_extends.
  - apply extends_foldl. intros es r Hin. apply protect_writable_root_extends; [done|].
    by apply (proj1 (Forall_forall _ _) Hr).
Qed.

Lemma carveouts_not_writable os c extra :
  Forall carveout extra -> retain (fun e => can_write e.(res_access)) (omap (resolve_entry os c) extra) = [].
Proof.
  induction 1 as [|e extra (Ha & _ & _) _ IH]; [done|]. cbn. unfold resolve_entry at 1.
  destruct (resolve_entry_path os (entry_path e) c); [|done]. cbn. by rewrite Ha.
Qed.

(** The grants of a workspace-write policy beside the working directory. *)
Definition workspace_grant (os : Os) (roots : list AbsolutePathBuf) (ext est : bool) (w : PathBuf) : Prop :=
  w ∈ roots
  \/ (est = false /\ resolve_file_system_special_path os SlashTmp None = Some w)
  \/ (ext = false /\ resolve_file_system_special_path os Tmpdir None = Some w).

Lemma workspace_writable os roots ext est cwd c :
  env_ok os.(os_env) -> Forall path_normal roots -> abs_of_path os cwd = Some c ->
  exists more,
    retain (fun e => can_write e.(res_access))
      (resolved_entries_with_cwd os (workspace_write os roots ext est) cwd)
    = mkResolved c FileSystemAccessMode.Write :: more
    /\ forall e, e ∈ more -> workspace_grant os roots ext est e.(res_path).
Proof.
  intros He Hr Hc. destruct (workspace_write_extends os roots ext est He Hr) as (extra & Hes & Hx).
  unfold resolved_entries_with_cwd. rewrite Hes, omap_app, retain_app, (carveouts_not_writable _ _ extra), app_nil_r by done.
  rewrite Hc. unfold workspace_write_entries. rewrite !omap_app, !retain_app. eexists. split.
  - cbn [omap list_omap]. unfold resolve_entry at 1 2. cbn [entry_path resolve_entry_path].
    rewrite absolute_root_path_normal by eauto using from_absolute_path_normal. cbn. reflexivity.
  - intros e. rewrite !elem_of_app, !elem_of_retain, !list_elem_of_omap. unfold workspace_grant.
    intros [[_ (en & Hin & Hen)]|[[_ (en & Hin & Hen)]|[_ (en & Hin & Hen)]]]; unfold resolve_entry in Hen.
    + destruct est; [by apply elem_of_nil in Hin|]. apply list_elem_of_singleton in Hin as ->. right. left.
      cbn [entry_path entry_access] in Hen. case_match eqn:E; simplify_eq. done.
    + destruct ext; [by apply elem_of_nil in Hin|]. apply list_elem_of_singleton in Hin as ->. right. right.
      cbn [entry_path entry_access] in Hen. case_match eqn:E; simplify_eq. done.
    + apply list_elem_of_fmap in Hin as (r & -> & Hin). cbn in Hen. simplify_eq. by left.
Qed.

Lemma extends_not_full roots ext est p :
  p.(fsp_kind) = FileSystemSandboxKind.Restricted ->
  extends_by_carveouts (workspace_write_entries roots ext est) p.(fsp_entries) ->
  has_full_disk_write_access p = false.
Proof.
  intros Hk (extra & Hes & Hx). unfold has_full_disk_write_access. rewrite Hk.
  apply andb_false_iff. left. unfold has_root_access. rewrite Hes. apply andb_false_iff. right.
  apply existsb_false, Forall_app. split.
  - unfold workspace_write_entries. apply Forall_app. split; [by repeat constructor|].
    destruct est, ext; cbn; rewrite ?Forall_cons, Forall_fmap; repeat split; by apply Forall_true.
  - eapply Forall_impl; [exact Hx|]. intros e (_ & Hn & _). by destruct (entry_path e) as [| |[]].
Qed.

Lemma workspace_not_full os roots ext est :
  env_ok os.(os_env) -> Forall path_normal roots ->
  has_full_disk_write_access (workspace_write os roots ext est) = false.
Proof. intros. by eapply extends_not_full, workspace_write_extends. Qed.

Lemma workspace_write_ok os roots ext est :
  env_ok os.(os_env) -> Forall path_normal roots -> fs_policy_ok (workspace_write os roots ext est).
Proof.
  intros He Hr. destruct (workspace_write_extends os roots ext est He Hr) as (extra & Hes & Hx).
  unfold fs_policy_ok. rewrite Hes. apply Forall_app. split.
  - unfold workspace_write_entries. apply Forall_app. split; [by repeat constructor|].
    destruct est, ext; cbn; rewrite ?Forall_cons, Forall_fmap; repeat split; done.
  - eapply Forall_impl; [exact Hx|]. by intros e (_ & _ & ?).
Qed.

Lemma workspace_no_deny os roots ext est cwd :
  env_ok os.(os_env) -> Forall path_normal roots ->
  forall e, e ∈ resolved_entries_with_cwd os (workspace_write os roots ext est) cwd ->
    e.(res_access) <> FileSystemAccessMode.Deny.
Proof.
  intros He Hr e. destruct (workspace_write_extends os roots ext est He Hr) as (extra & Hes & Hx).
  unfold resolved_entries_with_cwd. rewrite Hes, list_elem_of_omap. intros (en & Hin & Hen).
  assert (entry_access en <> FileSystemAccessMode.Deny).
  { apply elem_of_app in Hin as [Hin|Hin].
    - revert Hin. unfold workspace_write_entries. rewrite !elem_of_app, list_elem_of_fmap.
      intros [[->|[->|[]%elem_of_nil]%elem_of_cons]%elem_of_cons|[H|[H|(r & -> & _)]]]; try done;
        repeat case_match; rewrite ?list_elem_of_singleton, ?elem_of_nil in H; by subst.
    - apply (proj1 (Forall_forall _ _) Hx) in Hin as (-> & _). done. }
  unfold resolve_entry in Hen. case_match; by simplify_eq.
Qed.

(** The working directory decides itself. *)
Lemma workspace_cwd_decides os roots ext est cwd c :
  env_ok os.(os_env) -> Forall path_normal roots -> abs_of_path os cwd = Some c ->
  decides (resolved_entries_with_cwd os (workspace_write os roots ext est) cwd) c
    (mkResolved c FileSystemAccessMode.Write).
Proof.
  intros He Hr Hc. destruct (workspace_writable os roots ext est cwd c He Hr Hc) as (more & Hw & _).
  split; [|split; [done|]].
  - assert (mkResolved c FileSystemAccessMode.Write ∈ mkResolved c FileSystemAccessMode.Write :: more) as H by by left.
    rewrite <- Hw in H. by apply elem_of_retain in H as [_ ?].
  - intros e Hin Hp. pose proof (workspace_no_deny os roots ext est cwd He Hr e Hin).
    destruct (decide (length (res_path e) = length c)) as [Hl|Hl];
      [|left; apply prefix_length in Hp; cbn; lia].
    right. split; [by eapply prefix_same_length|]. destruct (res_access e); cbn; [lia|lia|done].
Qed.

Lemma workspace_cwd_writable os roots ext est cwd c :
  env_ok os.(os_env) -> Forall path_normal roots -> abs_of_path os cwd = Some c ->
  can_write_path_with_cwd os (workspace_write os roots ext est) c cwd = true.
Proof.
  intros He Hr Hc. assert (path_normal c) as Hcn by eauto using from_absolute_path_normal.
  pose proof (workspace_cwd_decides os roots ext est cwd c He Hr Hc) as Hdec.
  rewrite (can_write_restricted _ _ _ _ c) by (done || by apply candidate_of_normal).
  rewrite (access_of_decides _ _ _ Hdec). destruct Hdec as [Hin _].
  cbn [res_access can_write andb]. apply orb_true_iff. right. apply negb_true_iff.
  unfold metadata_denied. case_match eqn:Eh; [|done]. case_match. apply negb_false_iff, existsb_exists.
  exists (mkResolved c FileSystemAccessMode.Write). subst. split; [by apply list_elem_of_In|].
  cbn [res_access res_path can_write]. rewrite path_starts_with_refl. cbn [andb].
  apply path_starts_with_spec. apply head_omap_Some in Eh as (e & [_ He']%elem_of_retain & Hch).
  apply metadata_child_spec in Hch as (_ & _ & ?); [done|done|].
  by apply (proj1 (Forall_forall _ _) (resolved_normal os _ cwd He (workspace_write_ok os roots ext est He Hr))).
Qed.

(** Metadata of the working directory: its child, and no explicit grant. *)
Lemma workspace_metadata os roots ext est cwd c name target :
  env_ok os.(os_env) -> Forall path_normal roots -> abs_of_path os cwd = Some c ->
  name ∈ PROTECTED_METADATA_PATH_NAMES -> path_normal target -> (c ++ [Normal name]) `prefix_of` target ->
  (forall w, workspace_grant os roots ext est w -> ~ (c ++ [Normal name]) `prefix_of` w) ->
  let policy := workspace_write os roots ext est in
  metadata_child_of_writable_root os policy target cwd = Some (c ++ [Normal name], name)
  /\ has_explicit_write_entry_for_metadata_path os policy (c ++ [Normal name]) target cwd = false.
Proof.
  intros He Hr Hc Hname Htn Hpre Hgrant policy.
  assert (path_normal c) as Hcn by eauto using from_absolute_path_normal.
  destruct (workspace_writable os roots ext est cwd c He Hr Hc) as (more & Hw & Hmore). fold policy in Hw. split.
  - unfold metadata_child_of_writable_root. rewrite Hw. cbn [omap list_omap].
    rewrite (proj2 (metadata_child_spec os target (mkResolved c FileSystemAccessMode.Write)
                      (c ++ [Normal name]) name Htn Hcn)); done.
  - apply existsb_false, Forall_forall. intros e Hin. destruct (can_write (res_access e)) eqn:Ew; [|done].
    apply andb_false_iff. right. apply not_true_iff_false. rewrite path_starts_with_spec. intros Hp.
    assert (e ∈ mkResolved c FileSystemAccessMode.Write :: more) as [->|Hm]%elem_of_cons
      by (rewrite <- Hw; by apply elem_of_retain).
    + apply prefix_length in Hp. rewrite length_app in Hp. cbn in Hp. lia.
    + by apply (Hgrant _ (Hmore _ Hm)).
Qed.

(** A workspace-write policy lets the working directory be written, but
    nothing at or below its metadata directories (.git, .agents, .motyga), unless
    one of the granted roots lies inside such a directory; a write there is
    reported under the name of the directory. *)
Theorem workspace_write_protects_metadata os roots ext est cwd c name rest :
  env_ok os.(os_env) -> Forall path_normal roots -> abs_of_path os cwd = Some c ->
  name ∈ PROTECTED_METADATA_PATH_NAMES -> Forall name_ok rest ->
  (forall w, workspace_grant os roots ext est w -> ~ (c ++ [Normal name]) `prefix_of` w) ->
  let policy := workspace_write os roots ext est in
  let target := c ++ Normal name :: (Normal <$> rest) in
  can_write_path_with_cwd os policy c cwd = true
  /\ can_write_path_with_cwd os policy target cwd = false
  /\ forbidden_agent_metadata_write os target cwd policy = Some name.
Proof.
  intros He Hr Hc Hname Hrest Hgrant policy target.
  assert (path_normal c) as Hcn by eauto using from_absolute_path_normal.
  assert (path_normal target) as Htn.
  { destruct Hcn as (names & -> & Hn). exists (names ++ name :: rest). unfold target.
    rewrite fmap_app. split; [done|]. apply Forall_app. split; [done|]. constructor; [|done].
    by apply metadata_name_ok. }
  destruct (workspace_metadata os roots ext est cwd c name target) as [Hchild Hexp]; try done.
  { exists (Normal <$> rest). unfold target. by rewrite <- app_assoc. }
  fold policy in Hchild, Hexp.
  assert (can_write_path_with_cwd os policy target cwd = false) as Hcw.
  { unfold can_write_path_with_cwd, is_metadata_write_denied. rewrite candidate_of_normal by done.
    rewrite Hchild, Hexp. unfold policy. rewrite workspace_not_full by done. by case_match. }
  split; [by apply workspace_cwd_writable|]. split; [done|].
  unfold forbidden_agent_metadata_write. rewrite candidate_of_normal by done. by rewrite Hchild, Hexp, Hcw.
Qed.

(** * Legacy policies *)

Definition legacy_ok (sp : SandboxPolicy) : Prop :=
  match sp with WorkspaceWrite roots _ _ _ => Forall path_normal roots | _ => True end.

Lemma scan_entry_read os c s e : e.(entry_access) = FileSystemAccessMode.Read -> scan_entry os c s e = s.
Proof. intros Ha. unfold scan_entry. rewrite Ha. cbn. repeat case_match; try done; by rewrite andb_false_r in *. Qed.

Lemma scan_carveouts os c s extra : Forall carveout extra -> foldl (scan_entry os c) s extra = s.
Proof. induction 1 as [|e extra (Ha & _) _ IH]; [done|]. cbn. by rewrite scan_entry_read. Qed.

Lemma scan_roots os c roots s :
  s.(workspace_root_writable) = true ->
  foldl (scan_entry os c) s ((fun path => mkEntry (Path path) FileSystemAccessMode.Write) <$> roots)
  = mkScan true (s.(scan_writable_roots) ++ retain (fun r => c != Some r) roots)
      s.(tmpdir_writable) s.(slash_tmp_writable) s.(unbridgeable_root_write).
Proof.
  revert s. induction roots as [|r roots IH]; intros s Hs; cbn [fmap list_fmap foldl].
  { rewrite app_nil_r. destruct s; cbn in *. by subst. }
  assert (scan_entry os c s (mkEntry (Path r) FileSystemAccessMode.Write)
          = if c == Some r then scan_workspace s else scan_root s r) as -> by done.
  cbn [retain]. case_bool_decide; cbn [negb]; rewrite IH by done; cbn; [done|]. by rewrite <- app_assoc.
Qed.

Lemma scan_workspace_write os c roots ext est extra :
  Forall carveout extra ->
  foldl (scan_entry os c) scan_start (workspace_write_entries roots ext est ++ extra)
  = mkScan true (retain (fun r => c != Some r) roots) (negb ext) (negb est) false.
Proof.
  intros Hx. rewrite foldl_app, scan_carveouts by done. unfold workspace_write_entries.
  rewrite !foldl_app, scan_roots by (by destruct ext, est). by destruct ext, est.
Qed.

Lemma from_legacy_extends os roots n ext est cwd :
  env_ok os.(os_env) -> Forall path_normal roots ->
  extends_by_carveouts (workspace_write_entries roots ext est)
    (from_legacy_sandbox_policy_for_cwd os (WorkspaceWrite roots n ext est) cwd).(fsp_entries).
Proof.
  intros He Hr. cbn [from_legacy_sandbox_policy_for_cwd with_entries fsp_entries policy_of_legacy].
  eapply extends_trans; [by apply workspace_write_extends|].
  eapply (extends_trans _ (protect_cwd_root os (fsp_entries (workspace_write os roots ext est)) cwd)).
  - unfold protect_cwd_root. case_match eqn:E; [|apply extends_refl].
    apply protect_writable_root_extends; eauto using from_absolute_path_normal.
  - apply extends_foldl. intros es r Hin. apply protect_writable_root_extends; [done|].
    by apply (proj1 (Forall_forall _ _) Hr).
Qed.

Lemma push_unique_fresh l x : x ∉ l -> push_unique l x = l ++ [x].
Proof.
  intros H. unfold push_unique. rewrite (proj2 (existsb_false _ _)); [done|].
  apply Forall_forall. intros y Hy. apply bool_decide_eq_false. by intros ->.
Qed.

Lemma dedup_absolute_paths_id os l : NoDup l -> dedup_absolute_paths os l false = l.
Proof.
  intros Hl. unfold dedup_absolute_paths.
  enough (forall acc, NoDup (acc ++ l) ->
    foldl (fun deduped path => push_unique deduped path) acc l = acc ++ l) as H by (by apply (H [])).
  clear Hl. induction l as [|x l IH]; intros acc Hn; cbn; [by rewrite app_nil_r|].
  rewrite push_unique_fresh.
  - rewrite IH; rewrite <- app_assoc; done.
  - apply NoDup_app in Hn as (_ & Hn & _). intros Hx. apply (Hn x Hx). by left.
Qed.

(** The legacy policy without repeated roots and without the working directory
    among them, which it grants anyway. *)
Definition canonical_legacy (os : Os) (cwd : PathBuf) (sp : SandboxPolicy) : SandboxPolicy :=
  match sp with
  | WorkspaceWrite roots n ext est =>
      WorkspaceWrite (dedup_absolute_paths os (retain (fun r => abs_of_path os cwd != Some r) roots) false) n ext est
  | _ => sp
  end.

(** A legacy policy turned into entries and back is the same policy, up to
    repeated roots and the working directory among the writable roots. *)
Lemma legacy_policy_roundtrip os sp cwd :
  env_ok os.(os_env) -> legacy_ok sp ->
  to_legacy_sandbox_policy os (from_legacy_sandbox_policy_for_cwd os sp cwd) (network_policy_of sp) cwd
  = Ok (canonical_legacy os cwd sp)
  /\ (match sp with
      | WorkspaceWrite roots _ _ _ => NoDup roots /\ forall c, abs_of_path os cwd = Some c -> c ∉ roots
      | _ => True
      end -> canonical_legacy os cwd sp = sp).
Proof.
  intros He Hok. destruct sp as [|n|n|roots n ext est]; try (by destruct n); [done|]. split.
  - pose proof (from_legacy_extends os roots n ext est cwd He Hok) as Hext.
    assert (has_full_disk_write_access
      (from_legacy_sandbox_policy_for_cwd os (WorkspaceWrite roots n ext est) cwd) = false) as Hfull
      by by eapply extends_not_full.
    unfold to_legacy_sandbox_policy. rewrite Hfull. destruct Hext as (extra & -> & Hx).
    rewrite scan_workspace_write by done. cbn. rewrite !negb_involutive. by destruct n.
  - intros [Hn Hc]. cbn. rewrite retain_id.
    + by rewrite dedup_absolute_paths_id.
    + intros r Hr. apply negb_true_iff, bool_decide_eq_false. intros E. by apply (Hc r).
Qed.

(** * Denials *)

Lemma push_missing_elem es e x : x ∈ push_missing es e <-> x ∈ es \/ x = e.
Proof.
  unfold push_missing. case_match eqn:E.
  - apply existsb_exists in E as (z & Hz%list_elem_of_In & Heq). to_props. naive_solver.
  - rewrite elem_of_app, list_elem_of_singleton. done.
Qed.

Lemma foldl_push_missing_elem es l x : x ∈ foldl push_missing es l <-> x ∈ es \/ x ∈ l.
Proof.
  revert es. induction l as [|e l IH]; intros es; cbn; [set_solver|].
  rewrite IH, push_missing_elem, elem_of_cons. tauto.
Qed.

Lemma exact_deny_denies os p cwd e q :
  is_restricted p = true -> e ∈ p.(fsp_entries) -> is_deny e = true ->
  resolve_entry_path os e.(entry_path) (abs_of_path os cwd) = Some q -> path_normal q ->
  resolve_access_with_cwd os p q cwd = FileSystemAccessMode.Deny.
Proof.
  intros Hk Hin Hd Hq Hn. unfold is_deny in Hd. to_props.
  rewrite (resolve_access_restricted _ _ _ _ q) by (done || by apply candidate_of_normal).
  rewrite (access_of_decides _ _ (mkResolved q FileSystemAccessMode.Deny)); [done|].
  split; [|split; [done|]].
  - unfold resolved_entries_with_cwd. rewrite list_elem_of_omap. exists e. split; [done|].
    unfold resolve_entry. by rewrite Hq, Hd.
  - intros e' _ Hp. cbn. destruct (decide (length (res_path e') = length q)) as [Hl|Hl];
      [|left; apply prefix_length in Hp; lia].
    right. split; [by eapply prefix_same_length|]. by destruct (res_access e'); cbn; lia.
Qed.

(** An entry of the policy denies the path [q] itself. *)
Definition denied_by_entry (os : Os) (existing : FileSystemSandboxPolicy) (cwd q : PathBuf) : Prop :=
  exists e, e ∈ existing.(fsp_entries) /\ is_deny e = true
    /\ resolve_entry_path os e.(entry_path) (abs_of_path os cwd) = Some q /\ path_normal q.

(** A policy whose allow side is replaced, by entries or by a legacy
    policy, still denies every path that the previous policy denied by an entry
    of its own, unless an external sandbox is in charge. *)
Theorem replaced_policy_keeps_denials os self sp existing cwd q :
  denied_by_entry os existing cwd q ->
  (self.(fsp_kind) <> FileSystemSandboxKind.ExternalSandbox ->
   resolve_access_with_cwd os (preserve_deny_read_restrictions_from self existing) q cwd
   = FileSystemAccessMode.Deny)
  /\ (sp_has_full_disk_write_access sp = false ->
      resolve_access_with_cwd os
        (from_legacy_sandbox_policy_preserving_deny_entries os sp cwd existing) q cwd
      = FileSystemAccessMode.Deny).
Proof.
  intros (e & Hin & Hd & Hq & Hn).
  assert (e ∈ retain is_deny existing.(fsp_entries)) as Hr by by apply elem_of_retain. split.
  - intros Hk. unfold preserve_deny_read_restrictions_from.
    assert (existsb is_deny (fsp_entries existing) = true) as ->
      by (apply existsb_exists; exists e; by rewrite <- list_elem_of_In).
    rewrite andb_true_r. destruct (fsp_kind self) eqn:Ek; [| |done].
    + rewrite bool_decide_false by done. unfold is_restricted at 1. rewrite Ek. cbn [negb].
      rewrite bool_decide_true by done. cbn [negb].
      eapply exact_deny_denies; [..|exact Hd|exact Hq|done]; [done|].
      cbn. apply foldl_push_missing_elem. by right.
    + rewrite bool_decide_true by done.
      eapply exact_deny_denies; [..|exact Hd|exact Hq|done]; [done|].
      cbn. apply foldl_push_missing_elem. by right.
  - intros Hsp. unfold from_legacy_sandbox_policy_preserving_deny_entries.
    assert (is_restricted (from_legacy_sandbox_policy_for_cwd os sp cwd) = true) as Hk by by destruct sp.
    rewrite Hk. cbn [negb]. eapply exact_deny_denies; [..|exact Hd|exact Hq|done]; [done|].
    cbn [fsp_entries]. apply foldl_push_missing_elem. by right.
Qed.

(** ** Denied reads *)

Lemma normalize_effective_normal os p :
  env_ok os.(os_env) -> path_normal p -> path_normal (normalize_effective_absolute_path os p).
Proof.
  intros He Hp. unfold normalize_effective_absolute_path.
  induction (path_ancestors p) as [|a l IH]; cbn; [done|].
  repeat case_match; eauto using from_absolute_path_normal.
Qed.

Lemma unreadable_root_normal os p cwd r :
  env_ok os.(os_env) -> fs_policy_ok p -> r ∈ get_unreadable_roots_with_cwd os p cwd -> path_normal r.
Proof.
  intros He Hp. unfold get_unreadable_roots_with_cwd. case_match; [by intros []%elem_of_nil|].
  rewrite dedup_absolute_paths_elem. intros (x & Hx & ->). apply normalize_effective_normal; [done|].
  apply list_elem_of_fmap in Hx as (e & -> & Hx). rewrite !elem_of_retain in Hx.
  apply (proj1 (Forall_forall _ _) (resolved_normal os p cwd He Hp)). tauto.
Qed.

Lemma candidates_head os p q : abs_of_path os p = Some q -> q ∈ normalized_and_canonical_candidates os p.
Proof.
  intros H. unfold normalized_and_canonical_candidates. rewrite H.
  repeat case_match; rewrite ?push_unique_elem; set_solver.
Qed.

Lemma build_matchers_fail_closed build patterns :
  exists ms, build_matchers build FailClosed patterns
             = Ok (ms, existsb (fun pat => negb (is_ok (build pat))) patterns).
Proof.
  induction patterns as [|pat patterns [ms IH]]; cbn; [by exists []|]. rewrite IH.
  destruct (build pat); cbn; eauto.
Qed.

Lemma build_matchers_return_error build patterns :
  is_ok (build_matchers build ReturnError patterns) = forallb (fun pat => is_ok (build pat)) patterns.
Proof.
  induction patterns as [|pat patterns IH]; [done|]. cbn. destruct (build pat); cbn; [|done].
  rewrite <- IH. by destruct (build_matchers build ReturnError patterns) as [[]|].
Qed.

(** C37: building the matcher of denied reads never fails at run time (the
    panic in [ReadDenyMatcher::new] is unreachable); the strict constructor fails
    exactly when the policy denies reads and one of its globs is malformed; a
    malformed glob makes the run-time matcher deny every read; and a path at or
    below an unreadable root is always denied. *)
Theorem read_deny_matcher_fails_closed os build policy cwd :
  env_ok os.(os_env) -> fs_policy_ok policy ->
  let invalid := existsb (fun pat => negb (is_ok (build pat))) (get_unreadable_globs_with_cwd os policy cwd) in
  is_ok (build_matcher os build policy cwd ReturnError)
  = negb (has_denied_read_restrictions policy) || negb invalid
  /\ exists m, build_matcher os build policy cwd FailClosed = Ok m
     /\ (m = None <-> has_denied_read_restrictions policy = false)
     /\ forall matcher path, m = Some matcher ->
          (invalid = true -> is_read_denied os matcher path = true)
          /\ (forall r q, r ∈ get_unreadable_roots_with_cwd os policy cwd ->
                abs_of_path os path = Some q -> r `prefix_of` q -> is_read_denied os matcher path = true).
Proof.
  intros He Hp invalid. unfold build_matcher.
  destruct (build_matchers_fail_closed build (get_unreadable_globs_with_cwd os policy cwd)) as [ms Hms].
  pose proof (build_matchers_return_error build (get_unreadable_globs_with_cwd os policy cwd)) as Hre.
  split.
  - destruct (has_denied_read_restrictions policy); cbn [negb orb]; [|done].
    transitivity (forallb (fun pat => is_ok (build pat)) (get_unreadable_globs_with_cwd os policy cwd)).
    + rewrite <- Hre. by destruct (build_matchers _ ReturnError _) as [[]|].
    + unfold invalid. clear. induction (get_unreadable_globs_with_cwd os policy cwd) as [|g l IH]; [done|].
      cbn [forallb existsb]. by destruct (is_ok (build g)).
  - rewrite Hms. destruct (has_denied_read_restrictions policy); cbn [negb]; [|by exists None].
    eexists. split; [done|]. split; [done|]. intros matcher path [= <-]. split.
    + intros Hi. unfold is_read_denied. cbn [invalid_pattern]. by fold invalid; rewrite Hi.
    + intros r q Hr Hq Hpre. unfold is_read_denied. cbn [invalid_pattern denied_candidates].
      case_match; [done|]. match goal with |- (if ?b then _ else _) = true => assert (b = true) as ->; [|done] end.
      apply existsb_exists. exists (normalized_and_canonical_candidates os r).
      split; [apply list_elem_of_In, list_elem_of_fmap; eauto|].
      apply existsb_exists. exists q. split; [by apply list_elem_of_In, candidates_head|].
      apply existsb_exists. exists r. split.
      * apply list_elem_of_In, candidates_head, abs_of_path_normal. by eapply unreadable_root_normal.
      * apply orb_true_iff. right. by apply path_starts_with_spec.
Qed.

(** * Witnesses *)

Definition path_of (s : string) : PathBuf := components (lit s).

(** A host with a workspace /w that is a git checkout. *)
Definition w_os : Os :=
  mkOs (mkEnv (Some (path_of "/home/u")) (Some (path_of "/w"))) (Some (lit "/var/t"))
    (fun p => (p == slash_tmp) || (p == path_of "/w/.git")) (fun _ => false) (fun _ => true) (fun _ => None)
    (fun _ => Some false) (fun p => Some p).

Lemma w_env_ok : env_ok w_os.(os_env).
Proof. split; intros p [= <-]; by apply path_normalb_ok. Qed.

Definition w_fs_policy : FileSystemSandboxPolicy :=
  restricted [mkEntry (Special Root) FileSystemAccessMode.Read;
              mkEntry (Path (path_of "/w")) FileSystemAccessMode.Write;
              mkEntry (Path (path_of "/w/secret")) FileSystemAccessMode.Deny;
              mkEntry (GlobPattern (lit "**/*.key")) FileSystemAccessMode.Deny].

Lemma w_fs_policy_ok : fs_policy_ok w_fs_policy.
Proof. repeat constructor; by apply path_normalb_ok. Qed.

Lemma resolve_access_most_specific_witness :
  resolve_access_with_cwd w_os (with_entries w_fs_policy (reverse w_fs_policy.(fsp_entries)))
    (path_of "/w/secret/x") (path_of "/w") = FileSystemAccessMode.Deny.
Proof.
  rewrite (proj2 (proj2 (resolve_access_most_specific w_os w_fs_policy (path_of "/w/secret/x") (path_of "/w")
    (path_of "/w/secret/x") eq_refl ltac:(by vm_compute)))); [by vm_compute|]. apply reverse_Permutation.
Defined.

Lemma additional_writable_roots_grant_witness :
  can_write_path_with_cwd w_os w_fs_policy (path_of "/w/.git/hooks") (path_of "/w") = false
  /\ can_write_path_with_cwd w_os
       (with_additional_writable_roots w_os w_fs_policy (path_of "/w") [path_of "/w/.git"; path_of "/etc"])
       (path_of "/w/.git") (path_of "/w") = true.
Proof.
  split; [by vm_compute|].
  refine (proj2 (additional_writable_roots_grant w_os w_fs_policy (path_of "/w") [path_of "/w/.git"; path_of "/etc"]
    w_env_ok w_fs_policy_ok _) _ _ _).
  - repeat constructor; by apply path_normalb_ok.
  - set_solver.
  - intros e He Hp. vm_compute in He. set_solver.
Defined.

Lemma full_disk_write_access_total_witness :
  let p := restricted [mkEntry (Special Root) FileSystemAccessMode.Write;
                       mkEntry (Path slash_tmp) FileSystemAccessMode.Read;
                       mkEntry (Special SlashTmp) FileSystemAccessMode.Write] in
  can_write_path_with_cwd w_os p (path_of "/tmp/x") (path_of "/w") = true.
Proof.
  intros p. refine (proj1 (full_disk_write_access_total w_os p (path_of "/tmp/x") (path_of "/w") (path_of "/w")
    (path_of "/tmp/x") w_env_ok _ _ _ _ _)); try by vm_compute.
  repeat constructor; by apply path_normalb_ok.
Defined.

Lemma workspace_write_protects_metadata_witness :
  can_write_path_with_cwd w_os (workspace_write w_os [path_of "/opt"] false false)
    (path_of "/w/.git/hooks/pre-commit") (path_of "/w") = false.
Proof.
  refine (proj1 (proj2 (workspace_write_protects_metadata w_os [path_of "/opt"] false false (path_of "/w")
    (path_of "/w") (lit ".git") [lit "hooks"; lit "pre-commit"] w_env_ok _ _ _ _ _))).
  - repeat constructor; by apply path_normalb_ok.
  - by vm_compute.
  - by left.
  - repeat constructor; vm_compute; set_solver.
  - intros w [->%list_elem_of_singleton|[[_ H]|[_ H]]] [k E]; vm_compute in E; try done;
      vm_compute in H; simplify_eq; done.
Defined.

Lemma replaced_policy_keeps_denials_witness :
  resolve_access_with_cwd w_os (preserve_deny_read_restrictions_from unrestricted w_fs_policy)
    (path_of "/w/secret") (path_of "/w") = FileSystemAccessMode.Deny.
Proof.
  refine (proj1 (replaced_policy_keeps_denials w_os unrestricted (ReadOnly false) w_fs_policy (path_of "/w")
    (path_of "/w/secret") _) _); [|done].
  exists (mkEntry (Path (path_of "/w/secret")) FileSystemAccessMode.Deny).
  split; [cbn; set_solver|]. split; [done|]. split; [done|]. by apply path_normalb_ok.
Defined.

Lemma read_deny_matcher_fails_closed_witness :
  exists m, build_matcher w_os (fun _ => Err (lit "bad glob")) w_fs_policy (path_of "/w") FailClosed = Ok (Some m)
    /\ is_read_denied w_os m (path_of "/w/readme") = true.
Proof.
  destruct (read_deny_matcher_fails_closed w_os (fun _ => Err (lit "bad glob")) w_fs_policy (path_of "/w")
    w_env_ok w_fs_policy_ok) as [_ ([m|] & Hm & Hn & Hden)]; [|by apply proj1 in Hn; specialize (Hn eq_refl)].
  exists m. split; [done|]. by apply Hden.
Defined.

(** The protection of metadata looks at the first writable root only: with a
    grant inside a metadata directory, the order of the entries decides whether
    a nested metadata directory is protected. *)
Example metadata_protection_depends_on_order :
  let a := mkEntry (Path (path_of "/w")) FileSystemAccessMode.Write in
  let b := mkEntry (Path (path_of "/w/.git/modules")) FileSystemAccessMode.Write in
  can_write_path_with_cwd w_os (restricted [a; b]) (path_of "/w/.git/modules/.git/config") (path_of "/w") = true
  /\ can_write_path_with_cwd w_os (restricted [b; a]) (path_of "/w/.git/modules/.git/config") (path_of "/w") = false.
Proof. by vm_compute. Qed.
