(* ===== verification/PermissionProfile.v ===== *)
(** [protocol/src/models.rs]: permission profiles, the form in which a session
    keeps its permissions, and their conversion to sandbox policies; approval
    settings of [protocol.rs]. *)

From stdpp Require Import base list option numbers strings sets.
From Stdlib Require Import NArith Lia.
From S2P Require Import Prelude RustStr AbsolutePath Permissions PermissionLaws.
Local Open Scope rust_scope.

(** * Approval settings *)

Record GranularApprovalConfig : Set := mkGranular {
  sandbox_approval : bool;
  rules_approval : bool;
  skill_approval : bool;
  request_permissions : bool;
  mcp_elicitations : bool;
}.

#[global] Instance GranularApprovalConfig_eq_dec : EqDecision GranularApprovalConfig.
Proof. solve_decision. Defined.

Module AskForApproval.
Inductive t : Set :=
| UnlessTrusted
| OnRequest
| Granular (config : GranularApprovalConfig)
| Never.
End AskForApproval.

#[global] Instance AskForApproval_eq_dec : EqDecision AskForApproval.t.
Proof. solve_decision. Defined.

Inductive SandboxPermissions : Set := UseDefault | RequireEscalated | WithAdditionalPermissions.

Definition requires_escalated_permissions (self : SandboxPermissions) : bool :=
  match self with RequireEscalated => true | _ => false end.
Definition requests_sandbox_override (self : SandboxPermissions) : bool :=
  match self with UseDefault => false | _ => true end.
Definition uses_additional_permissions (self : SandboxPermissions) : bool :=
  match self with WithAdditionalPermissions => true | _ => false end.

Module WindowsSandboxLevel.
Inductive t : Set := Disabled | RestrictedToken | Elevated.
End WindowsSandboxLevel.

#[global] Instance WindowsSandboxLevel_eq_dec : EqDecision WindowsSandboxLevel.t.
Proof. solve_decision. Defined.

(** * Profiles *)

Module SandboxEnforcement.
Inductive t : Set := Managed | Disabled | External.

Definition from_legacy_sandbox_policy (sandbox_policy : SandboxPolicy) : t :=
  match sandbox_policy with
  | DangerFullAccess => Disabled
  | ExternalSandboxPolicy _ => External
  | ReadOnly _ | WorkspaceWrite _ _ _ _ => Managed
  end.
End SandboxEnforcement.

Module ManagedFileSystemPermissions.
Inductive t : Set :=
| Restricted (entries : list FileSystemSandboxEntry) (glob_scan_max_depth : option positive)
| Unrestricted.

(** [NonZeroUsize::new]. *)
Definition non_zero (n : N) : option positive := match n with N0 => None | Npos p => Some p end.

(** The branch for external policies is [unreachable!]: [None]. *)
Definition from_sandbox_policy (policy : FileSystemSandboxPolicy) : option t :=
  match policy.(fsp_kind) with
  | FileSystemSandboxKind.Restricted =>
      Some (Restricted policy.(fsp_entries)
              (match policy.(glob_scan_max_depth) with Some n => non_zero n | None => None end))
  | FileSystemSandboxKind.Unrestricted => Some Unrestricted
  | FileSystemSandboxKind.ExternalSandbox => None
  end.

Definition to_sandbox_policy (self : t) : FileSystemSandboxPolicy :=
  match self with
  | Restricted entries depth => mkFsPolicy FileSystemSandboxKind.Restricted (Npos <$> depth) entries
  | Unrestricted => unrestricted
  end.
End ManagedFileSystemPermissions.

Module PermissionProfile.
Inductive t : Set :=
| Managed (file_system : ManagedFileSystemPermissions.t) (network : NetworkSandboxPolicy.t)
| Disabled
| External (network : NetworkSandboxPolicy.t).

Definition from_runtime_permissions_with_enforcement (enforcement : SandboxEnforcement.t)
    (policy : FileSystemSandboxPolicy) (network : NetworkSandboxPolicy.t) : option t :=
  match policy.(fsp_kind), enforcement with
  | FileSystemSandboxKind.ExternalSandbox, _ => Some (External network)
  | FileSystemSandboxKind.Unrestricted, SandboxEnforcement.Disabled => Some Disabled
  | FileSystemSandboxKind.Restricted, _ | FileSystemSandboxKind.Unrestricted, _ =>
      (fun file_system => Managed file_system network)
      <$> ManagedFileSystemPermissions.from_sandbox_policy policy
  end.

Definition from_runtime_permissions (policy : FileSystemSandboxPolicy) (network : NetworkSandboxPolicy.t) :
    option t :=
  let enforcement :=
    match policy.(fsp_kind) with
    | FileSystemSandboxKind.Restricted | FileSystemSandboxKind.Unrestricted => SandboxEnforcement.Managed
    | FileSystemSandboxKind.ExternalSandbox => SandboxEnforcement.External
    end in
  from_runtime_permissions_with_enforcement enforcement policy network.

Definition from_legacy_sandbox_policy (os : Os) (sandbox_policy : SandboxPolicy) : option t :=
  from_runtime_permissions_with_enforcement (SandboxEnforcement.from_legacy_sandbox_policy sandbox_policy)
    (policy_of_legacy os sandbox_policy) (network_policy_of sandbox_policy).

Definition from_legacy_sandbox_policy_for_cwd (os : Os) (sandbox_policy : SandboxPolicy) (cwd : PathBuf) :
    option t :=
  from_runtime_permissions_with_enforcement (SandboxEnforcement.from_legacy_sandbox_policy sandbox_policy)
    (Permissions.from_legacy_sandbox_policy_for_cwd os sandbox_policy cwd) (network_policy_of sandbox_policy).

Definition enforcement (self : t) : SandboxEnforcement.t :=
  match self with
  | Managed _ _ => SandboxEnforcement.Managed
  | Disabled => SandboxEnforcement.Disabled
  | External _ => SandboxEnforcement.External
  end.

Definition file_system_sandbox_policy (self : t) : FileSystemSandboxPolicy :=
  match self with
  | Managed file_system _ => ManagedFileSystemPermissions.to_sandbox_policy file_system
  | Disabled => unrestricted
  | External _ => external_sandbox
  end.

Definition network_sandbox_policy (self : t) : NetworkSandboxPolicy.t :=
  match self with
  | Managed _ network | External network => network
  | Disabled => NetworkSandboxPolicy.Enabled
  end.

Definition to_runtime_permissions (self : t) : FileSystemSandboxPolicy * NetworkSandboxPolicy.t :=
  (file_system_sandbox_policy self, network_sandbox_policy self).

Definition to_legacy_sandbox_policy (os : Os) (self : t) (cwd : PathBuf) : result SandboxPolicy legacy_error :=
  match self with
  | Managed file_system network =>
      Permissions.to_legacy_sandbox_policy os (ManagedFileSystemPermissions.to_sandbox_policy file_system)
        network cwd
  | Disabled => Ok DangerFullAccess
  | External network => Ok (ExternalSandboxPolicy (network_access_of network))
  end.

Definition materialize_project_roots_with_workspace_roots (os : Os) (self : t)
    (workspace_roots : list AbsolutePathBuf) : option t :=
  match self with
  | Managed file_system network =>
      (fun file_system => Managed file_system network)
      <$> ManagedFileSystemPermissions.from_sandbox_policy
            (Permissions.materialize_project_roots_with_workspace_roots os
               (ManagedFileSystemPermissions.to_sandbox_policy file_system) workspace_roots)
  | Disabled => Some Disabled
  | External network => Some (External network)
  end.
End PermissionProfile.

(** * Round trips *)

(** What a profile keeps of a policy: the entries of a restricted policy and a
    scan depth that is not zero. *)
Definition runtime_policy (policy : FileSystemSandboxPolicy) : FileSystemSandboxPolicy :=
  match policy.(fsp_kind) with
  | FileSystemSandboxKind.Restricted =>
      mkFsPolicy FileSystemSandboxKind.Restricted
        (match policy.(glob_scan_max_depth) with Some 0%N => None | d => d end) policy.(fsp_entries)
  | FileSystemSandboxKind.Unrestricted => unrestricted
  | FileSystemSandboxKind.ExternalSandbox => external_sandbox
  end.

Lemma runtime_permissions_roundtrip policy network :
  exists profile, PermissionProfile.from_runtime_permissions policy network = Some profile
    /\ PermissionProfile.to_runtime_permissions profile = (runtime_policy policy, network).
Proof.
  unfold PermissionProfile.from_runtime_permissions, PermissionProfile.from_runtime_permissions_with_enforcement,
    ManagedFileSystemPermissions.from_sandbox_policy, runtime_policy.
  destruct (fsp_kind policy); cbn; eexists; split; try done.
  unfold PermissionProfile.to_runtime_permissions. cbn. by destruct (glob_scan_max_depth policy) as [[|d]|].
Qed.

Lemma to_legacy_runtime_policy os policy network cwd :
  to_legacy_sandbox_policy os (runtime_policy policy) network cwd
  = to_legacy_sandbox_policy os policy network cwd.
Proof.
  unfold runtime_policy. destruct policy as [k d es]. cbn. destruct k; [|done|done].
  by destruct d as [[|]|].
Qed.

(** C38: reading a legacy sandbox policy into a permission profile always
    succeeds, and writing the profile back gives the same policy, up to repeated
    writable roots and the working directory among them. *)
Theorem profile_legacy_roundtrip os sp cwd :
  env_ok os.(os_env) -> legacy_ok sp ->
  exists profile,
    PermissionProfile.from_legacy_sandbox_policy_for_cwd os sp cwd = Some profile
    /\ PermissionProfile.to_legacy_sandbox_policy os profile cwd = Ok (canonical_legacy os cwd sp)
    /\ PermissionProfile.network_sandbox_policy profile = network_policy_of sp
    /\ (match sp with
        | WorkspaceWrite roots _ _ _ => NoDup roots /\ forall c, abs_of_path os cwd = Some c -> c ∉ roots
        | _ => True
        end -> canonical_legacy os cwd sp = sp).
Proof.
  intros He Hok. destruct (legacy_policy_roundtrip os sp cwd He Hok) as [Hrt Hc].
  unfold PermissionProfile.from_legacy_sandbox_policy_for_cwd.
  destruct sp as [|n|n|roots n ext est]; [by eexists|by eexists; repeat split; destruct n..|].
  unfold PermissionProfile.from_runtime_permissions_with_enforcement. eexists. split; [done|].
  split; [|split; [done|exact Hc]].
  rewrite <- Hrt. rewrite <- to_legacy_runtime_policy. done.
Qed.

Lemma profile_legacy_roundtrip_witness :
  let sp := WorkspaceWrite [path_of "/opt"] true false true in
  exists profile,
    PermissionProfile.from_legacy_sandbox_policy_for_cwd w_os sp (path_of "/w") = Some profile
    /\ PermissionProfile.to_legacy_sandbox_policy w_os profile (path_of "/w") = Ok sp.
Proof.
  intros sp. destruct (profile_legacy_roundtrip w_os sp (path_of "/w") w_env_ok)
    as (profile & H1 & H2 & _ & H3).
  - repeat constructor; by apply path_normalb_ok.
  - exists profile. split; [exact H1|]. rewrite H3 in H2; [exact H2|].
    split; [repeat constructor; set_solver|]. intros c Hc.
    vm_compute in Hc. simplify_eq. intros [E|[]%elem_of_nil]%elem_of_cons. by vm_compute in E.
Defined.
