(* ===== verification/PolicyTransforms.v ===== *)
(** [sandboxing/src/policy_transforms.rs] and the choices of
    [sandboxing/src/manager.rs]: how the permissions a command asks for, or is
    granted, change the sandbox it runs in, and when a platform sandbox is used.

    The overlay of permissions is [AdditionalPermissionProfile] of
    [protocol/src/models.rs].  [NonZeroUsize] is [positive], [usize] is [N]; glob
    patterns are compiled by the parameter [build_glob_matcher]. *)

From stdpp Require Import base list option numbers strings.
From Stdlib Require Import NArith Lia.
From S2P Require Import Prelude RustStr AbsolutePath Permissions PermissionLaws PermissionProfile.
Import FileSystemAccessMode (can_read, can_write, rank).
Local Open Scope rust_scope.

(** * Overlays ([protocol/src/models.rs]) *)

Record FileSystemPermissions : Set := mkFileSystemPermissions {
  fp_entries : list FileSystemSandboxEntry;
  fp_glob_scan_max_depth : option positive;
}.

Definition file_system_permissions_default : FileSystemPermissions := mkFileSystemPermissions [] None.
Definition fp_is_empty (self : FileSystemPermissions) : bool := self.(fp_entries) == [].

Record NetworkPermissions : Set := mkNetworkPermissions { np_enabled : option bool }.

Definition np_is_empty (self : NetworkPermissions) : bool :=
  match self.(np_enabled) with None => true | Some _ => false end.

Record AdditionalPermissionProfile : Set := mkAdditional {
  ap_network : option NetworkPermissions;
  ap_file_system : option FileSystemPermissions;
}.

Definition ap_is_empty (self : AdditionalPermissionProfile) : bool :=
  match self.(ap_network), self.(ap_file_system) with None, None => true | _, _ => false end.

(** [Option::filter]. *)
Definition option_filter {A} (p : A -> bool) (o : option A) : option A :=
  match o with Some a => if p a then Some a else None | None => None end.

Definition from_read_write_roots (read write : option (list AbsolutePathBuf)) : FileSystemPermissions :=
  let entries (access : Access) (roots : option (list AbsolutePathBuf)) :=
    (fun path => mkEntry (Path path) access) <$> default [] roots in
  mkFileSystemPermissions (entries FileSystemAccessMode.Read read ++ entries FileSystemAccessMode.Write write) None.

Definition explicit_path_entries (self : FileSystemPermissions) : list (AbsolutePathBuf * Access) :=
  omap (fun entry =>
    match entry.(entry_path) with Path path => Some (path, entry.(entry_access)) | _ => None end)
    self.(fp_entries).

Definition as_legacy_step (acc : option (list AbsolutePathBuf * list AbsolutePathBuf))
    (entry : FileSystemSandboxEntry) : option (list AbsolutePathBuf * list AbsolutePathBuf) :=
  match acc, entry.(entry_path), entry.(entry_access) with
  | Some (read, write), Path path, FileSystemAccessMode.Read => Some (read ++ [path], write)
  | Some (read, write), Path path, FileSystemAccessMode.Write => Some (read, write ++ [path])
  | _, _, _ => None
  end.

Definition legacy_read_write_roots (self : FileSystemPermissions) :
    option (option (list AbsolutePathBuf) * option (list AbsolutePathBuf)) :=
  match self.(fp_glob_scan_max_depth) with
  | Some _ => None
  | None =>
      (fun '(read, write) =>
         (option_filter (fun l => l != []) (Some read), option_filter (fun l => l != []) (Some write)))
      <$> foldl as_legacy_step (Some ([], [])) self.(fp_entries)
  end.

(** * Scan depths *)

Inductive GlobScanDepth : Set := Bounded (depth : N) | Unbounded.

Definition is_deny_glob (entry : FileSystemSandboxEntry) : bool :=
  is_deny entry && match entry.(entry_path) with GlobPattern _ => true | _ => false end.

Definition effective_glob_scan_depth (entries : list FileSystemSandboxEntry) (depth : option N) :
    option GlobScanDepth :=
  if existsb is_deny_glob entries
  then Some (match depth with Some depth => Bounded depth | None => Unbounded end)
  else None.

Definition merge_glob_scan_max_depth (left_entries : list FileSystemSandboxEntry) (left_depth : option N)
    (right_entries : list FileSystemSandboxEntry) (right_depth : option N) : option N :=
  match effective_glob_scan_depth left_entries left_depth,
        effective_glob_scan_depth right_entries right_depth with
  | Some Unbounded, _ | _, Some Unbounded => None
  | Some (Bounded l), Some (Bounded r) => Some (N.max l r)
  | Some (Bounded depth), None | None, Some (Bounded depth) => Some depth
  | None, None => None
  end.

Definition to_non_zero (depth : option N) : option positive :=
  match depth with Some n => ManagedFileSystemPermissions.non_zero n | None => None end.

(** * Merging *)

(** [Vec::contains] before [Vec::push] is [push_missing]. *)
Definition merge_permission_entries (base permissions : list FileSystemSandboxEntry) :
    list FileSystemSandboxEntry :=
  foldl push_missing [] (base ++ permissions).

Definition network_enabled (n : option NetworkPermissions) : bool :=
  match n with Some (mkNetworkPermissions (Some true)) => true | _ => false end.

Definition enabled_network (b : bool) : option NetworkPermissions :=
  if b then Some (mkNetworkPermissions (Some true)) else None.

Definition merge_permission_profiles (base permissions : option AdditionalPermissionProfile) :
    option AdditionalPermissionProfile :=
  match permissions with
  | None => base
  | Some permissions =>
      match base with
      | Some base =>
          let network :=
            enabled_network (network_enabled base.(ap_network) || network_enabled permissions.(ap_network)) in
          let file_system :=
            match base.(ap_file_system), permissions.(ap_file_system) with
            | Some base, Some permissions =>
                option_filter (fun file_system => negb (fp_is_empty file_system))
                  (Some (mkFileSystemPermissions
                    (merge_permission_entries base.(fp_entries) permissions.(fp_entries))
                    (to_non_zero
                      (merge_glob_scan_max_depth base.(fp_entries) (Npos <$> base.(fp_glob_scan_max_depth))
                         permissions.(fp_entries) (Npos <$> permissions.(fp_glob_scan_max_depth))))))
            | Some base, None => Some base
            | None, Some permissions => Some permissions
            | None, None => None
            end in
          option_filter (fun p => negb (ap_is_empty p)) (Some (mkAdditional network file_system))
      | None => option_filter (fun p => negb (ap_is_empty p)) (Some permissions)
      end
  end.

Definition merge_file_system_policy_with_additional_permissions (file_system_policy : FileSystemSandboxPolicy)
    (additional_permissions : FileSystemPermissions) : FileSystemSandboxPolicy :=
  match file_system_policy.(fsp_kind) with
  | FileSystemSandboxKind.Restricted =>
      mkFsPolicy file_system_policy.(fsp_kind)
        (merge_glob_scan_max_depth file_system_policy.(fsp_entries) file_system_policy.(glob_scan_max_depth)
           additional_permissions.(fp_entries) (Npos <$> additional_permissions.(fp_glob_scan_max_depth)))
        (foldl push_missing file_system_policy.(fsp_entries) additional_permissions.(fp_entries))
  | FileSystemSandboxKind.Unrestricted | FileSystemSandboxKind.ExternalSandbox => file_system_policy
  end.

Definition effective_file_system_sandbox_policy (file_system_policy : FileSystemSandboxPolicy)
    (additional_permissions : option AdditionalPermissionProfile) : FileSystemSandboxPolicy :=
  match additional_permissions with
  | None => file_system_policy
  | Some additional_permissions =>
      match additional_permissions.(ap_file_system) with
      | None => file_system_policy
      | Some file_system_permissions =>
          if fp_is_empty file_system_permissions then file_system_policy
          else merge_file_system_policy_with_additional_permissions file_system_policy file_system_permissions
      end
  end.

Definition merge_network_access (base_network_access : bool)
    (additional_permissions : AdditionalPermissionProfile) : bool :=
  base_network_access
  || default false
       (match additional_permissions.(ap_network) with Some network => network.(np_enabled) | None => None end).

Definition effective_network_sandbox_policy (network_policy : NetworkSandboxPolicy.t)
    (additional_permissions : option AdditionalPermissionProfile) : NetworkSandboxPolicy.t :=
  match additional_permissions with
  | Some permissions =>
      if merge_network_access (NetworkSandboxPolicy.is_enabled network_policy) permissions
      then NetworkSandboxPolicy.Enabled else NetworkSandboxPolicy.Restricted
  | None => network_policy
  end.

(** [None] is the [unreachable!] of [ManagedFileSystemPermissions::from_sandbox_policy]. *)
Definition effective_permission_profile (permission_profile : PermissionProfile.t)
    (additional_permissions : option AdditionalPermissionProfile) : option PermissionProfile.t :=
  let '(file_system_policy, network_policy) := PermissionProfile.to_runtime_permissions permission_profile in
  PermissionProfile.from_runtime_permissions_with_enforcement (PermissionProfile.enforcement permission_profile)
    (effective_file_system_sandbox_policy file_system_policy additional_permissions)
    (effective_network_sandbox_policy network_policy additional_permissions).

(** * Normalising a request *)

Section with_os.
Context (os : Os).

Definition GLOB_GRANT_ERROR : str := lit "glob file system permissions only support deny-read entries".

Definition normalize_entry (entry : FileSystemSandboxEntry) : result FileSystemSandboxEntry str :=
  match entry.(entry_path) with
  | GlobPattern _ => if is_deny entry then Ok entry else Err GLOB_GRANT_ERROR
  | Path path =>
      let canonical :=
        match canonicalize_preserving_symlinks os path with Some p => abs_of_path os p | None => None end in
      Ok (mkEntry (Path (default path canonical)) entry.(entry_access))
  | Special _ => Ok entry
  end.

Fixpoint normalize_entries (entries normalized : list FileSystemSandboxEntry) :
    result (list FileSystemSandboxEntry) str :=
  match entries with
  | [] => Ok normalized
  | entry :: entries =>
      let? entry := normalize_entry entry in normalize_entries entries (push_missing normalized entry)
  end.

Definition normalize_additional_permissions (additional_permissions : AdditionalPermissionProfile) :
    result AdditionalPermissionProfile str :=
  let network := option_filter (fun network => negb (np_is_empty network)) additional_permissions.(ap_network) in
  match additional_permissions.(ap_file_system) with
  | Some file_system =>
      let? entries := normalize_entries file_system.(fp_entries) [] in
      Ok (mkAdditional network
            (option_filter (fun file_system => negb (fp_is_empty file_system))
               (Some (mkFileSystemPermissions entries file_system.(fp_glob_scan_max_depth)))))
  | None => Ok (mkAdditional network None)
  end.

(** * Intersecting a request with a grant *)

Definition access_covers (requested granted : Access) : bool :=
  match granted with
  | FileSystemAccessMode.Read => can_read requested
  | FileSystemAccessMode.Write => can_write requested
  | FileSystemAccessMode.Deny => false
  end.

Definition paths_overlap (l r : PathBuf) : bool := path_starts_with l r || path_starts_with r l.

Definition resolve_permission_path (path : FileSystemPath) (cwd : PathBuf) : option AbsolutePathBuf :=
  match path with
  | Path path => Some path
  | GlobPattern _ => None
  | Special Root =>
      match last (path_ancestors cwd) with Some root => abs_of_path os root | None => None end
  | Special (ProjectRoots subpath) =>
      match abs_of_path os cwd with
      | Some cwd =>
          Some (match subpath with Some subpath => abs_join_path os cwd subpath | None => cwd end)
      | None => None
      end
  | Special Tmpdir =>
      match os.(tmpdir) with
      | None | Some [] => None
      | Some tmpdir => from_absolute_path os.(os_env) tmpdir
      end
  | Special SlashTmp => option_filter os.(is_dir) (from_absolute_path os.(os_env) (lit "/tmp"))
  | Special Minimal | Special (Unknown _ _) => None
  end.

Definition materialize_cwd_dependent_entry (entry : FileSystemSandboxEntry) (cwd : PathBuf) :
    FileSystemSandboxEntry :=
  match entry.(entry_path) with
  | Special (ProjectRoots _) =>
      match resolve_permission_path entry.(entry_path) cwd with
      | Some path => mkEntry (Path path) entry.(entry_access)
      | None => entry
      end
  | GlobPattern pattern =>
      mkEntry (GlobPattern (path_str (resolve_path_against_base os.(os_env) pattern cwd))) entry.(entry_access)
  | Path _ | Special _ => entry
  end.

Definition is_glob_char (c : char) : bool :=
  (c =? 42)%N || (c =? 63)%N || (c =? 91)%N || (c =? 93)%N.

(** The text before the first glob character, and whether there is one. *)
Fixpoint split_glob (s : str) : str * bool :=
  match s with
  | [] => ([], false)
  | c :: s => if is_glob_char c then ([], true) else let '(p, found) := split_glob s in (c :: p, found)
  end.

Definition glob_static_prefix_path (pattern : str) (cwd : PathBuf) : option AbsolutePathBuf :=
  let resolved_pattern := path_str (resolve_path_against_base os.(os_env) pattern cwd) in
  match split_glob resolved_pattern with
  | ([], true) => None
  | (prefix, true) =>
      if ends_with (lit "/") prefix || ends_with (lit "\") prefix
      then from_absolute_path os.(os_env) prefix
      else match path_parent (components prefix) with
           | Some parent => abs_of_path os parent
           | None => None
           end
  | (_, false) => from_absolute_path os.(os_env) resolved_pattern
  end.

Definition deny_entry_constrains_accepted_grant (deny_entry : FileSystemSandboxEntry)
    (accepted_entries : list FileSystemSandboxEntry) (cwd : PathBuf) : bool :=
  existsb (fun entry =>
    can_read entry.(entry_access) &&
    match resolve_permission_path entry.(entry_path) cwd with
    | None => false
    | Some grant_path =>
        is_some_and (fun deny_path => paths_overlap deny_path grant_path)
          (match deny_entry.(entry_path) with
           | GlobPattern pattern => glob_static_prefix_path pattern cwd
           | Path _ | Special _ => resolve_permission_path deny_entry.(entry_path) cwd
           end)
    end) accepted_entries.

(** The retained entries; the code also pushes them to the output when missing. *)
Definition retain_constraining_deny_entries (source_entries accepted_entries : list FileSystemSandboxEntry)
    (cwd : PathBuf) : list FileSystemSandboxEntry :=
  (fun entry => materialize_cwd_dependent_entry entry cwd) <$>
  retain (fun entry => is_deny entry && deny_entry_constrains_accepted_grant entry accepted_entries cwd)
    source_entries.

Context (build_glob_matcher : str -> result (PathBuf -> bool) str).

(** [ReadDenyMatcher::new]; the branch for errors is [unreachable!]. *)
Definition read_deny_matcher_new (policy : FileSystemSandboxPolicy) (cwd : PathBuf) : option ReadDenyMatcher :=
  match build_matcher os build_glob_matcher policy cwd FailClosed with
  | Ok matcher => matcher
  | Err _ => None
  end.

Definition granted_file_system_entry_within_request (requested : FileSystemPermissions)
    (requested_policy : FileSystemSandboxPolicy) (requested_read_deny_matcher : option ReadDenyMatcher)
    (granted_entry : FileSystemSandboxEntry) (cwd : PathBuf) : bool :=
  if negb (can_read granted_entry.(entry_access)) then false
  else match resolve_permission_path granted_entry.(entry_path) cwd with
  | Some path =>
      if is_some_and (fun matcher => is_read_denied os matcher path) requested_read_deny_matcher then false
      else access_covers (resolve_access_with_cwd os requested_policy path cwd) granted_entry.(entry_access)
  | None =>
      existsb (fun requested_entry =>
        access_covers requested_entry.(entry_access) granted_entry.(entry_access)
        && (requested_entry.(entry_path) == granted_entry.(entry_path))) requested.(fp_entries)
  end.

Definition intersect_file_system (requested_file_system granted_file_system : FileSystemPermissions)
    (cwd : PathBuf) : FileSystemPermissions :=
  let requested_policy := restricted requested_file_system.(fp_entries) in
  let requested_read_deny_matcher := read_deny_matcher_new requested_policy cwd in
  let accepted_entries :=
    foldl (fun accepted entry => push_missing accepted (materialize_cwd_dependent_entry entry cwd)) []
      (retain (fun entry =>
         granted_file_system_entry_within_request requested_file_system requested_policy
           requested_read_deny_matcher entry cwd) granted_file_system.(fp_entries)) in
  let requested_retained_deny_entries :=
    retain_constraining_deny_entries requested_file_system.(fp_entries) accepted_entries cwd in
  let granted_retained_deny_entries :=
    retain_constraining_deny_entries granted_file_system.(fp_entries) accepted_entries cwd in
  mkFileSystemPermissions
    (foldl push_missing (foldl push_missing accepted_entries requested_retained_deny_entries)
       granted_retained_deny_entries)
    (to_non_zero
      (merge_glob_scan_max_depth requested_retained_deny_entries
         (Npos <$> requested_file_system.(fp_glob_scan_max_depth))
         granted_retained_deny_entries (Npos <$> granted_file_system.(fp_glob_scan_max_depth)))).

Definition intersect_permission_profiles (requested granted : AdditionalPermissionProfile) (cwd : PathBuf) :
    AdditionalPermissionProfile :=
  let file_system :=
    option_filter (fun file_system => negb (fp_is_empty file_system))
      ((fun requested_file_system =>
          intersect_file_system requested_file_system
            (default file_system_permissions_default granted.(ap_file_system)) cwd)
       <$> requested.(ap_file_system)) in
  let network :=
    enabled_network (network_enabled requested.(ap_network) && network_enabled granted.(ap_network)) in
  mkAdditional network file_system.
End with_os.

(** * Choosing a sandbox ([sandboxing/src/manager.rs]) *)

Module SandboxType.
Inductive t : Set := None | MacosSeatbelt | LinuxSeccomp | WindowsRestrictedToken.

Definition as_metric_tag (self : t) : str :=
  match self with
  | None => lit "none"
  | MacosSeatbelt => lit "seatbelt"
  | LinuxSeccomp => lit "seccomp"
  | WindowsRestrictedToken => lit "windows_sandbox"
  end.
End SandboxType.

#[global] Instance SandboxType_eq_dec : EqDecision SandboxType.t.
Proof. solve_decision. Defined.

Module SandboxablePreference.
Inductive t : Set := Auto | Require | Forbid.
End SandboxablePreference.

(** The target operating system the program is built for. *)
Inductive TargetOs : Set := Macos | Linux | Windows | OtherOs.

Definition get_platform_sandbox (target_os : TargetOs) (windows_sandbox_enabled : bool) : option SandboxType.t :=
  match target_os with
  | Macos => Some SandboxType.MacosSeatbelt
  | Linux => Some SandboxType.LinuxSeccomp
  | Windows => if windows_sandbox_enabled then Some SandboxType.WindowsRestrictedToken else None
  | OtherOs => None
  end.

Definition should_require_platform_sandbox (file_system_policy : FileSystemSandboxPolicy)
    (network_policy : NetworkSandboxPolicy.t) (has_managed_network_requirements : bool) : bool :=
  if has_managed_network_requirements then true
  else if negb (NetworkSandboxPolicy.is_enabled network_policy)
  then negb (file_system_policy.(fsp_kind) == FileSystemSandboxKind.ExternalSandbox)
  else match file_system_policy.(fsp_kind) with
       | FileSystemSandboxKind.Restricted => negb (has_full_disk_write_access file_system_policy)
       | FileSystemSandboxKind.Unrestricted | FileSystemSandboxKind.ExternalSandbox => false
       end.

Definition should_sandbox (file_system_policy : FileSystemSandboxPolicy) (network_policy : NetworkSandboxPolicy.t)
    (pref : SandboxablePreference.t) (has_managed_network_requirements : bool) : bool :=
  match pref with
  | SandboxablePreference.Forbid => false
  | SandboxablePreference.Require => true
  | SandboxablePreference.Auto =>
      should_require_platform_sandbox file_system_policy network_policy has_managed_network_requirements
  end.

Definition select_initial (target_os : TargetOs) (file_system_policy : FileSystemSandboxPolicy)
    (network_policy : NetworkSandboxPolicy.t) (pref : SandboxablePreference.t)
    (windows_sandbox_level : WindowsSandboxLevel.t) (has_managed_network_requirements : bool) : SandboxType.t :=
  if should_sandbox file_system_policy network_policy pref has_managed_network_requirements
  then default SandboxType.None
         (get_platform_sandbox target_os (windows_sandbox_level != WindowsSandboxLevel.Disabled))
  else SandboxType.None.

Definition with_managed_mitm_ca_readable_root (os : Os) (permission_profile : PermissionProfile.t)
    (managed_mitm_ca_trust_bundle_path : option AbsolutePathBuf) (sandbox_policy_cwd : PathBuf) :
    option PermissionProfile.t :=
  match managed_mitm_ca_trust_bundle_path with
  | None => Some permission_profile
  | Some path =>
      let '(file_system_sandbox_policy, network_sandbox_policy) :=
        PermissionProfile.to_runtime_permissions permission_profile in
      PermissionProfile.from_runtime_permissions_with_enforcement
        (PermissionProfile.enforcement permission_profile)
        (with_additional_readable_roots os file_system_sandbox_policy sandbox_policy_cwd [path])
        network_sandbox_policy
  end.

(** * What an intersection grants *)

(** The policy an overlay of file system permissions stands for. *)
Definition overlay_policy (file_system : option FileSystemPermissions) : FileSystemSandboxPolicy :=
  restricted (default file_system_permissions_default file_system).(fp_entries).

Definition overlay_ok (file_system : option FileSystemPermissions) : Prop :=
  fs_policy_ok (overlay_policy file_system).

Section intersection.
Context (os : Os) (cwd : PathBuf) (Hcwd : path_normal cwd).

Lemma resolve_permission_agrees fp :
  resolve_permission_path os fp cwd = resolve_entry_path os fp (abs_of_path os cwd).
Proof.
  rewrite abs_of_path_normal by done. destruct fp as [p|pat|v]; [done..|]. destruct v; try done;
    cbn [resolve_permission_path resolve_entry_path resolve_file_system_path resolve_file_system_special_path].
  - rewrite abs_of_path_normal by done. by destruct subpath.
  - destruct (from_absolute_path _ _) as [s|]; [|done]. cbn. by destruct (is_dir os s).
Qed.

Lemma materialize_resolves e :
  resolve_entry os (abs_of_path os cwd) (materialize_cwd_dependent_entry os e cwd)
  = resolve_entry os (abs_of_path os cwd) e.
Proof.
  unfold materialize_cwd_dependent_entry, resolve_entry. pose proof (resolve_permission_agrees (entry_path e)) as H.
  destruct (entry_path e) as [p|pat|v] eqn:Ep; rewrite ?Ep; try done. destruct v; rewrite ?Ep; try done.
  rewrite H. destruct (resolve_entry_path os _ _) eqn:E; cbn [entry_path entry_access]; [done|]. by rewrite Ep, E.
Qed.

Lemma materialize_access e : entry_access (materialize_cwd_dependent_entry os e cwd) = entry_access e.
Proof. unfold materialize_cwd_dependent_entry. by repeat case_match. Qed.

Lemma elem_of_resolved p r :
  r ∈ resolved_entries_with_cwd os p cwd
  <-> exists e, e ∈ fsp_entries p /\ resolve_entry_path os (entry_path e) (abs_of_path os cwd) = Some (res_path r)
      /\ entry_access e = res_access r.
Proof.
  unfold resolved_entries_with_cwd. rewrite list_elem_of_omap. unfold resolve_entry.
  split; intros (e & He & H); exists e; split; try done.
  - case_match; simplify_eq. done.
  - destruct H as [-> ->]. by destruct r.
Qed.

(** What decides a path in [X] is readable and below a readable entry of [Y]: if
    [X] has every denial of [Y] for the path, [Y] lets it be read as well. *)
Lemma reads_survive X Y t e y :
  decides X t e -> can_read (res_access e) = true ->
  (forall d, d ∈ Y -> res_access d = FileSystemAccessMode.Deny -> res_path d `prefix_of` t -> d ∈ X) ->
  y ∈ Y -> res_path y `prefix_of` res_path e ->
  (forall d, d ∈ Y -> res_access d = FileSystemAccessMode.Deny -> res_path d `prefix_of` res_path e ->
     length (res_path d) < length (res_path e) -> length (res_path d) < length (res_path y)) ->
  can_read (access_of Y t) = true.
Proof.
  intros (_ & Het & Hmax) Hr Hsub Hy Hye Hshort.
  assert (res_path y `prefix_of` t) as Hyt by by etrans.
  destruct (access_of_cases Y t) as [[d Hd]|[Hn _]]; [|by destruct (Hn y Hy)].
  rewrite (access_of_decides _ _ _ Hd). destruct Hd as (Hd & Hdt & Hdmax).
  destruct (res_access d) eqn:Ed; [done..|exfalso].
  destruct (Hmax d (Hsub d Hd Ed Hdt) Hdt) as [Hl|[_ Hk]].
  - assert (res_path d `prefix_of` res_path e) as Hde.
    { apply (prefix_comparable _ _ t); [done..|lia]. }
    specialize (Hshort d Hd Ed Hde Hl). destruct (Hdmax y Hy Hyt) as [?|[Heq _]]; [lia|rewrite Heq in Hshort; lia].
  - rewrite Ed in Hk. destruct (res_access e); cbn in *; [lia..|done].
Qed.

Context (build : str -> result (PathBuf -> bool) str) (rq gr : FileSystemPermissions).

Definition accepted : list FileSystemSandboxEntry :=
  foldl (fun accepted entry => push_missing accepted (materialize_cwd_dependent_entry os entry cwd)) []
    (retain (fun entry =>
       granted_file_system_entry_within_request os rq (restricted (fp_entries rq))
         (read_deny_matcher_new os build (restricted (fp_entries rq)) cwd) entry cwd) (fp_entries gr)).

Lemma foldl_push_missing_map {A} (f : A -> FileSystemSandboxEntry) l es :
  foldl (fun acc a => push_missing acc (f a)) es l = foldl push_missing es (f <$> l).
Proof. revert es. induction l; intros es; cbn; auto. Qed.

Lemma elem_of_accepted x :
  x ∈ accepted <-> exists g, g ∈ fp_entries gr /\ x = materialize_cwd_dependent_entry os g cwd
    /\ granted_file_system_entry_within_request os rq (restricted (fp_entries rq))
         (read_deny_matcher_new os build (restricted (fp_entries rq)) cwd) g cwd = true.
Proof.
  unfold accepted. rewrite foldl_push_missing_map, foldl_push_missing_elem, list_elem_of_fmap.
  setoid_rewrite elem_of_retain. split.
  - intros [?%not_elem_of_nil|(g & -> & ? & ?)]; [done|eauto].
  - intros (g & ? & -> & ?). right. eauto.
Qed.

Lemma elem_of_retained source x :
  x ∈ retain_constraining_deny_entries os source accepted cwd <->
  exists e, e ∈ source /\ is_deny e = true /\ x = materialize_cwd_dependent_entry os e cwd
    /\ deny_entry_constrains_accepted_grant os e accepted cwd = true.
Proof.
  unfold retain_constraining_deny_entries. rewrite list_elem_of_fmap. setoid_rewrite elem_of_retain.
  setoid_rewrite andb_true_iff. naive_solver.
Qed.

Lemma elem_of_intersection x :
  x ∈ fp_entries (intersect_file_system os build rq gr cwd) <->
  x ∈ accepted \/ x ∈ retain_constraining_deny_entries os (fp_entries rq) accepted cwd
  \/ x ∈ retain_constraining_deny_entries os (fp_entries gr) accepted cwd.
Proof. unfold intersect_file_system. cbn [fp_entries]. rewrite !foldl_push_missing_elem. fold accepted. tauto. Qed.

Abbreviation X := (resolved_entries_with_cwd os (restricted (fp_entries (intersect_file_system os build rq gr cwd))) cwd).
Abbreviation R := (resolved_entries_with_cwd os (restricted (fp_entries rq)) cwd).
Abbreviation G := (resolved_entries_with_cwd os (restricted (fp_entries gr)) cwd).

(** A readable entry of the intersection is a granted entry whose path the
    request covers. *)
Lemma intersection_entry e :
  e ∈ X -> can_read (res_access e) = true ->
  e ∈ G /\ (exists x, x ∈ accepted /\ can_read (entry_access x) = true
             /\ resolve_permission_path os (entry_path x) cwd = Some (res_path e))
  /\ access_covers (resolve_access_with_cwd os (restricted (fp_entries rq)) (res_path e) cwd) (res_access e) = true.
Proof.
  intros (x & Hx & Hp & Ha)%elem_of_resolved Hr. cbn [fsp_entries restricted] in Hx.
  assert (forall source, x ∈ retain_constraining_deny_entries os source accepted cwd -> False) as Hnd.
  { intros source (d & _ & Hd & -> & _)%elem_of_retained. rewrite materialize_access in Ha.
    unfold is_deny in Hd. to_props. rewrite <- Ha, Hd in Hr. done. }
  apply elem_of_intersection in Hx as [Hx|[[]%Hnd|[]%Hnd]].
  pose proof Hx as (g & Hg & -> & Hw)%elem_of_accepted.
  pose proof (materialize_resolves g) as Hm. rewrite materialize_access in Ha.
  unfold resolve_entry in Hm. rewrite Hp, materialize_access in Hm. case_match eqn:Eg; simplify_eq.
  split; [apply elem_of_resolved; eauto|]. split.
  - eexists. split; [exact Hx|]. rewrite materialize_access, Ha, resolve_permission_agrees. done.
  - unfold granted_file_system_entry_within_request in Hw. rewrite Ha, Hr in Hw. cbn [negb] in Hw.
    rewrite resolve_permission_agrees, Eg in Hw. by case_match.
Qed.

(** Denials of either side that meet what is granted stay. *)
Lemma intersection_denials source t e d :
  (forall x, x ∈ retain_constraining_deny_entries os source accepted cwd ->
     x ∈ fp_entries (intersect_file_system os build rq gr cwd)) ->
  e ∈ X -> can_read (res_access e) = true -> res_path e `prefix_of` t ->
  d ∈ resolved_entries_with_cwd os (restricted source) cwd ->
  res_access d = FileSystemAccessMode.Deny -> res_path d `prefix_of` t -> d ∈ X.
Proof.
  intros Hsub He Hr Het (y & Hy & Hp & Ha)%elem_of_resolved Hd Hdt. cbn [fsp_entries restricted] in Hy.
  destruct (intersection_entry e He Hr) as (_ & (x & Hx & Hxr & Hxp) & _).
  apply elem_of_resolved. exists (materialize_cwd_dependent_entry os y cwd). cbn [fsp_entries restricted].
  rewrite materialize_access. split; [|split; [|done]].
  - apply Hsub, elem_of_retained. exists y. split; [done|].
    split; [by apply bool_decide_eq_true; rewrite Ha|]. split; [done|].
    apply existsb_exists. exists x. split; [by apply list_elem_of_In|]. rewrite Hxr, Hxp. cbn [andb].
    pose proof (resolve_permission_agrees (entry_path y)) as Hpe. rewrite Hp in Hpe.
    destruct (entry_path y); [rewrite Hpe|done|rewrite Hpe]; cbn; apply orb_true_iff; rewrite !path_starts_with_spec;
      destruct (Nat.le_ge_cases (length (res_path d)) (length (res_path e)));
      [right|left|right|left]; by apply (prefix_comparable _ _ t).
  - pose proof (materialize_resolves y) as Hm. unfold resolve_entry in Hm. rewrite Hp, materialize_access in Hm.
    by case_match; simplify_eq.
Qed.

Lemma intersection_reads t :
  path_normal t -> env_ok (os_env os) ->
  fs_policy_ok (restricted (fp_entries gr)) ->
  can_read (access_of X t) = true -> can_read (access_of R t) = true /\ can_read (access_of G t) = true.
Proof.
  intros Ht Henv Hgr Hr. destruct (access_of_cases X t) as [[e He]|[_ Hn]]; [|by rewrite Hn in Hr].
  rewrite (access_of_decides _ _ _ He) in Hr. pose proof He as (HeX & Het & _).
  destruct (intersection_entry e HeX Hr) as (HeG & _ & Hcov). split.
  - assert (path_normal (res_path e)) as Hen.
    { apply (proj1 (Forall_forall _ _) (resolved_normal os (restricted (fp_entries gr)) cwd Henv Hgr) e HeG). }
    rewrite (resolve_access_restricted os _ _ _ (res_path e)) in Hcov by (done || by apply candidate_of_normal).
    assert (can_read (access_of R (res_path e)) = true) as HR.
    { unfold access_covers in Hcov. destruct (res_access e), (access_of R (res_path e)); done. }
    destruct (access_of_cases R (res_path e)) as [[y Hy]|[_ Hn]]; [|by rewrite Hn in HR].
    rewrite (access_of_decides _ _ _ Hy) in HR. destruct Hy as (Hy & Hye & Hymax).
    apply (reads_survive X R t e y); try done.
    + intros d. apply (intersection_denials _ t e); [|done..]. intros x Hx. apply elem_of_intersection. tauto.
    + intros d Hd Hdeny Hde Hl. destruct (Hymax d Hd Hde) as [?|[_ Hk]]; [done|].
      rewrite Hdeny in Hk. destruct (res_access y); cbn in *; [lia..|done].
  - apply (reads_survive X G t e e); try done.
    intros d. apply (intersection_denials _ t e); [|done..]. intros x Hx. apply elem_of_intersection. tauto.
Qed.
(** ** The literal directory of a glob *)

Definition no_glob_char (s : str) : Prop := Forall (fun c => c ∉ lit "*?[]") s.
Definition literal_component (c : Component) : Prop :=
  match c with Normal n => no_glob_char n | _ => True end.

(** [literal_directory p q]: [q] is what comes before the first component of the
    pattern [p] that has a glob character, or all of [p].  A component whose first
    glob character is escaped with a backslash, and a pattern such as [/.*], are
    no such patterns. *)
Inductive literal_directory : PathBuf -> PathBuf -> Prop :=
| literal_whole p : Forall literal_component p -> literal_directory p p
| literal_before q a g b rest :
    Forall literal_component q -> no_glob_char a -> g ∈ lit "*?[]" -> last a <> Some 92%N ->
    (q = [RootDir] -> a <> lit ".") ->
    literal_directory (q ++ Normal (a ++ g :: b) :: rest) q.

Lemma is_glob_char_spec c : is_glob_char c = true <-> c ∈ lit "*?[]".
Proof.
  unfold is_glob_char. rewrite !orb_true_iff, !N.eqb_eq. change (lit "*?[]") with [42; 63; 91; 93]%N.
  rewrite !elem_of_cons, elem_of_nil. tauto.
Qed.

Lemma split_glob_literal u v :
  no_glob_char u -> split_glob (u ++ v) = (u ++ (split_glob v).1, (split_glob v).2).
Proof.
  induction 1 as [|c u Hc _ IH]; cbn [app split_glob]; [by destruct (split_glob v)|].
  destruct (is_glob_char c) eqn:E; [by apply is_glob_char_spec in E|]. by rewrite IH.
Qed.

(** The text of a directory with the separator after it. *)
Definition dir_text (names : list str) : str := concat ((fun n => SLASH :: n) <$> names) ++ [SLASH].

Lemma dir_text_cons n names : dir_text (n :: names) = SLASH :: n ++ dir_text names.
Proof. unfold dir_text. cbn [fmap list_fmap concat]. by rewrite <- !app_assoc. Qed.

Lemma dir_text_join names n rest :
  dir_text names ++ join [SLASH] (n :: rest) = SLASH :: join [SLASH] (names ++ n :: rest).
Proof.
  induction names as [|x names IH]; [done|]. rewrite dir_text_cons. cbn [app].
  rewrite (join_cons _ x) by (by destruct names). f_equal. rewrite <- app_assoc. f_equal. by rewrite IH.
Qed.

Lemma path_str_names names : names <> [] -> path_str (RootDir :: (Normal <$> names)) = SLASH :: join [SLASH] names.
Proof.
  intros Hn. unfold path_str. destruct names as [|n names]; [done|]. cbn [fmap list_fmap component_str].
  rewrite join_cons by done. cbn [app]. by rewrite <- list_fmap_compose, list_fmap_id.
Qed.

Lemma components_dir_text names a :
  Forall name_ok names -> SLASH ∉ a ->
  components (dir_text names ++ a) = RootDir :: (Normal <$> names) ++ omap component [a].
Proof.
  intros Hn Ha. assert (split_on SLASH (dir_text names ++ a) = [] :: names ++ [a]) as E.
  { assert (forall x, split_on SLASH (SLASH :: x) = [] :: split_on SLASH x) as Hs by done.
    clear -Hn Ha Hs. induction Hn as [|n names (_ & _ & _ & Hx) _ IH].
    - change (dir_text [] ++ a) with (SLASH :: a). by rewrite Hs, split_on_no.
    - rewrite dir_text_cons. cbn [app]. rewrite Hs, <- app_assoc. f_equal.
      assert (exists r, dir_text names ++ a = SLASH :: r) as [r Er].
      { destruct names; [by exists a|]. rewrite dir_text_cons. by eexists. }
      rewrite Er in IH |- *. rewrite split_on_app_sep by done. rewrite Hs in IH. injection IH as IH. by rewrite IH. }
  unfold components. rewrite E. assert (starts_with [SLASH] (dir_text names ++ a) = true) as ->.
  { destruct names; [done|]. by rewrite dir_text_cons. }
  cbn [app omap list_omap]. change (component []) with (@None Component). cbn [app].
  f_equal. rewrite omap_app. by rewrite omap_component_ok.
Qed.

Lemma no_glob_slash : no_glob_char [SLASH].
Proof. apply Forall_singleton, (bool_decide_unpack _). by vm_compute. Qed.

Lemma no_glob_join names : Forall no_glob_char names -> no_glob_char (join [SLASH] names).
Proof.
  induction 1 as [|n names Hn Hns IH]; [constructor|]. destruct names as [|m names]; [done|].
  rewrite join_cons by done. apply Forall_app_2; [done|]. apply Forall_app_2; [apply no_glob_slash|done].
Qed.

Lemma no_glob_dir_text names : Forall no_glob_char names -> no_glob_char (dir_text names).
Proof.
  induction 1 as [|n names Hn Hns IH]; [apply no_glob_slash|]. rewrite dir_text_cons.
  apply (Forall_app_2 _ [SLASH]); [apply no_glob_slash|]. by apply Forall_app.
Qed.

Lemma ends_with_char c s : ends_with [c] s = true -> last s = Some c.
Proof. intros [r ->]%ends_with_spec. apply last_snoc. Qed.

Lemma from_absolute_slash env s :
  starts_with [SLASH] s = true -> path_normal (components s) -> from_absolute_path env s = Some (components s).
Proof.
  intros [r ->]%starts_with_spec Hn. unfold from_absolute_path, absolutize.
  assert (maybe_expand_home_directory env ([SLASH] ++ r) = components ([SLASH] ++ r)) as ->
    by (unfold maybe_expand_home_directory; by destruct (home_dir env)).
  rewrite path_normal_absolute by done. by rewrite normalize_path_fixed.
Qed.

Lemma component_shape a : component a = None /\ (a = [] \/ a = lit ".") \/ exists c, component a = Some c /\ c <> RootDir.
Proof. unfold component. repeat case_match; to_props; eauto. Qed.

(** The prefix of a text whose last segment [a] comes before a glob character. *)
Lemma prefix_of_dir_text names a :
  Forall name_ok names -> SLASH ∉ a -> last a <> Some 92%N -> (names = [] -> a <> lit ".") ->
  exists p, (if ends_with (lit "/") (dir_text names ++ a) || ends_with (lit "\") (dir_text names ++ a)
             then from_absolute_path (os_env os) (dir_text names ++ a)
             else match path_parent (components (dir_text names ++ a)) with
                  | Some parent => abs_of_path os parent
                  | None => None
                  end) = Some p
            /\ p `prefix_of` RootDir :: (Normal <$> names).
Proof.
  intros Hn Ha Hlast Hdot. assert (path_normal (RootDir :: (Normal <$> names))) as Hq by by exists names.
  destruct (list_snoc_inv a) as [->|(a' & x & ->)].
  - assert (ends_with (lit "/") (dir_text names ++ []) = true) as ->.
    { apply ends_with_spec. rewrite app_nil_r. by eexists. }
    assert (components (dir_text names ++ []) = RootDir :: (Normal <$> names)) as E.
    { rewrite components_dir_text by done. cbn. by rewrite app_nil_r. }
    rewrite <- E in Hq. cbn [orb]. rewrite from_absolute_slash, E; [by eexists|by destruct names|done].
  - rewrite last_snoc in Hlast. match goal with |- context [if ?b then _ else _] => assert (b = false) as -> end.
    { apply orb_false_iff. split; apply not_true_is_false; intros H%ends_with_char;
        rewrite app_assoc, last_snoc in H; injection H as ->;
        [apply Ha, elem_of_app; right; by left|done]. }
    rewrite components_dir_text by done.
    destruct (component_shape (a' ++ [x])) as [[E [Hd|Hd]]|(c & E & Hc)]; [by destruct a'| |].
    + cbn [omap list_omap]. rewrite E, app_nil_r. destruct (list_snoc_inv names) as [->|(k & y & ->)]; [by destruct Hdot|].
      apply Forall_app in Hn as [Hn _]. exists (RootDir :: (Normal <$> k)). rewrite fmap_app.
      unfold path_parent. rewrite app_comm_cons. cbn [fmap list_fmap]. rewrite last_snoc, removelast_last.
      split; [apply abs_of_path_normal; by exists k|]. by eexists.
    + cbn [omap list_omap]. rewrite E. unfold path_parent. rewrite app_comm_cons, last_snoc, removelast_last.
      exists (RootDir :: (Normal <$> names)). by destruct c; rewrite ?abs_of_path_normal.
Qed.

Lemma normal_split q n rest :
  path_normal (q ++ Normal n :: rest) ->
  exists names rest', q = RootDir :: (Normal <$> names) /\ rest = Normal <$> rest'
    /\ Forall name_ok names /\ name_ok n.
Proof.
  intros (all & E & Hok). destruct q as [|c q]; [done|]. injection E as -> E. symmetry in E.
  apply fmap_app_inv in E as (names & k & -> & Ek & ->). destruct k as [|m k]; [done|]. injection Ek as -> ->.
  apply Forall_app in Hok as [Hok [Hm _]%Forall_cons]. by exists names, k.
Qed.

Lemma path_str_split names n rest :
  exists tail, path_str (RootDir :: (Normal <$> names) ++ Normal n :: (Normal <$> rest)) = dir_text names ++ n ++ tail.
Proof.
  change (Normal n :: (Normal <$> rest)) with (Normal <$> (n :: rest)). rewrite <- fmap_app.
  rewrite path_str_names by (by destruct names). rewrite <- dir_text_join.
  destruct rest as [|m rest]; [exists []; by rewrite app_nil_r|]. rewrite join_cons by done. eauto.
Qed.

(** The code's prefix of a glob is at or above its literal directory. *)
Lemma static_prefix_covers pattern q :
  env_ok (os_env os) -> literal_directory (resolve_path_against_base (os_env os) pattern cwd) q ->
  exists p, glob_static_prefix_path os pattern cwd = Some p /\ p `prefix_of` q.
Proof.
  intros Henv Hl. pose proof (resolve_normal (os_env os) pattern cwd Henv Hcwd) as Hr.
  unfold glob_static_prefix_path. destruct Hl as [p Hp|q a g b rest Hq Ha Hg Hlast Hdot].
  - exists p. split; [|done]. pose proof Hr as (names & -> & Hn).
    assert (no_glob_char (path_str (RootDir :: (Normal <$> names)))) as Hs.
    { apply Forall_cons in Hp as [_ Hp]. rewrite Forall_fmap in Hp. destruct (decide (names = [])) as [->|Hne];
        [apply no_glob_slash|]. rewrite path_str_names by done.
      apply (Forall_app_2 _ [SLASH]); [apply no_glob_slash|]. by apply no_glob_join. }
    rewrite <- (app_nil_r (path_str _)), split_glob_literal by done. cbn [split_glob fst snd]. rewrite !app_nil_r.
    pose proof (abs_of_path_normal os _ Hr) as E. unfold abs_of_path in E. by destruct (path_str _).
  - destruct (normal_split _ _ _ Hr) as (names & rest' & -> & -> & Hnames & (_ & _ & _ & Hs)).
    apply Forall_cons in Hq as [_ Hq]. rewrite Forall_fmap in Hq.
    destruct (path_str_split names (a ++ g :: b) rest') as [tail Et]. cbn [app] in Et |- *. rewrite Et.
    replace (dir_text names ++ (a ++ g :: b) ++ tail) with ((dir_text names ++ a) ++ g :: b ++ tail)
      by by rewrite <- !app_assoc.
    rewrite split_glob_literal by (apply Forall_app_2; [by apply no_glob_dir_text|done]).
    cbn [split_glob]. rewrite (proj2 (is_glob_char_spec g) Hg). cbn [fst snd]. rewrite app_nil_r.
    assert (SLASH ∉ a) as Hsa by (intros H; apply Hs, elem_of_app; by left).
    destruct (prefix_of_dir_text names a Hnames Hsa Hlast) as (p & Hp & Hpq);
      [intros ->; by apply Hdot|]. exists p. split; [|done].
    destruct (dir_text names ++ a) eqn:Ed; [by destruct names|done].
Qed.

(** ** Denial globs *)

Lemma resolve_path_str base p :
  path_normal p -> resolve_path_against_base (os_env os) (path_str p) base = p.
Proof.
  intros Hp. unfold resolve_path_against_base, absolutize_from, path_with_base.
  rewrite expand_absolute, (path_normal_absolute p Hp) by done. by apply normalize_path_fixed.
Qed.

Lemma build_matchers_elem behavior patterns ms invalid pattern matches :
  build_matchers build behavior patterns = Ok (ms, invalid) -> pattern ∈ patterns ->
  build pattern = Ok matches -> matches ∈ ms.
Proof.
  revert ms invalid. induction patterns as [|x patterns IH]; intros ms invalid H Hp Hb;
    [by apply not_elem_of_nil in Hp|]. cbn in H.
  apply elem_of_cons in Hp as [<-|Hp]; [rewrite Hb in H|];
    repeat case_match; simplify_eq/=; rewrite ?elem_of_cons; eauto.
Qed.

(** The matcher of an overlay that has a denial glob lets a path be read only
    when the pattern is well formed and does not match the path. *)
Lemma denial_glob_denies es pattern base t :
  path_normal t -> mkEntry (GlobPattern pattern) FileSystemAccessMode.Deny ∈ es ->
  exists m, read_deny_matcher_new os build (restricted es) base = Some m
  /\ (is_read_denied os m t = false ->
      exists matches, build (path_str (resolve_path_against_base (os_env os) pattern base)) = Ok matches
                      /\ matches t = false).
Proof.
  intros Ht He. set (resolved := path_str _).
  assert (resolved ∈ get_unreadable_globs_with_cwd os (restricted es) base) as Hin.
  { unfold get_unreadable_globs_with_cwd. change (is_restricted (restricted es)) with true. cbn [negb fsp_entries restricted].
    rewrite dedup_elem, sort_by_perm, list_elem_of_omap.
    exists (mkEntry (GlobPattern pattern) FileSystemAccessMode.Deny). split; [|done]. by apply elem_of_retain. }
  assert (has_denied_read_restrictions (restricted es) = true) as Hd.
  { apply existsb_exists. eexists. split; [by apply list_elem_of_In|done]. }
  destruct (build_matchers_fail_closed build (get_unreadable_globs_with_cwd os (restricted es) base)) as [ms Hms].
  unfold read_deny_matcher_new, build_matcher. rewrite Hd, Hms. eexists. split; [done|].
  unfold is_read_denied. cbn [invalid_pattern deny_read_matchers]. repeat case_match; intros Hn; try done.
  match goal with H : existsb _ (get_unreadable_globs_with_cwd _ _ _) = false |- _ =>
    pose proof (proj1 (Forall_forall _ _) (proj1 (existsb_false _ _) H) _ Hin) as Hok end.
  cbn in Hok. destruct (build resolved) as [matches|] eqn:Hb; [|done]. exists matches. split; [done|].
  pose proof (build_matchers_elem _ _ _ _ _ _ Hms Hin Hb) as Hm.
  apply existsb_false in Hn. pose proof (proj1 (Forall_forall _ _) Hn _ Hm) as Hc. cbn in Hc.
  apply existsb_false in Hc. apply (proj1 (Forall_forall _ _) Hc), candidates_head, abs_of_path_normal, Ht.
Qed.

Lemma intersection_path_normal x p :
  env_ok (os_env os) -> fs_policy_ok (restricted (fp_entries gr)) ->
  x ∈ fp_entries (intersect_file_system os build rq gr cwd) -> can_read (entry_access x) = true ->
  resolve_entry_path os (entry_path x) (abs_of_path os cwd) = Some p -> path_normal p.
Proof.
  intros Henv Hgr Hx Hr Hp.
  destruct (intersection_entry (mkResolved p (entry_access x))) as (HG & _); [|done|].
  - apply elem_of_resolved. by exists x.
  - exact (proj1 (Forall_forall _ _) (resolved_normal os (restricted (fp_entries gr)) cwd Henv Hgr) _ HG).
Qed.

(** Nothing readable in the intersection is denied by the request's matcher. *)
Lemma intersection_entry_not_denied x p m :
  x ∈ fp_entries (intersect_file_system os build rq gr cwd) -> can_read (entry_access x) = true ->
  resolve_entry_path os (entry_path x) (abs_of_path os cwd) = Some p ->
  read_deny_matcher_new os build (restricted (fp_entries rq)) cwd = Some m -> is_read_denied os m p = false.
Proof.
  intros Hx Hr Hp Hm. apply elem_of_intersection in Hx as [Hx|Hx].
  - apply elem_of_accepted in Hx as (g & Hg & -> & Hw). rewrite materialize_access in Hr.
    pose proof (materialize_resolves g) as E. unfold resolve_entry in E. rewrite Hp in E. case_match eqn:Eg; simplify_eq/=.
    unfold granted_file_system_entry_within_request in Hw. rewrite Hr in Hw. cbn [negb] in Hw.
    rewrite resolve_permission_agrees, Eg, Hm in Hw. cbn [is_some_and] in Hw. by destruct (is_read_denied os m _).
  - exfalso. destruct Hx as [(d & _ & Hd & -> & _)%elem_of_retained|(d & _ & Hd & -> & _)%elem_of_retained];
      rewrite materialize_access in Hr; unfold is_deny in Hd; to_props; by rewrite Hd in Hr.
Qed.

(** A denial glob of either side is kept where the intersection reads below its
    prefix free of glob characters. *)
Lemma intersection_keeps_glob source pattern e t q :
  (forall x, x ∈ retain_constraining_deny_entries os source accepted cwd ->
     x ∈ fp_entries (intersect_file_system os build rq gr cwd)) ->
  e ∈ X -> can_read (res_access e) = true -> res_path e `prefix_of` t ->
  mkEntry (GlobPattern pattern) FileSystemAccessMode.Deny ∈ source ->
  glob_static_prefix_path os pattern cwd = Some q -> q `prefix_of` t ->
  mkEntry (GlobPattern (path_str (resolve_path_against_base (os_env os) pattern cwd))) FileSystemAccessMode.Deny
    ∈ fp_entries (intersect_file_system os build rq gr cwd).
Proof.
  intros Hsub He Hr Het Hin Hq Hqt. destruct (intersection_entry e He Hr) as (_ & (x & Hx & Hxr & Hxp) & _).
  apply Hsub, elem_of_retained. eexists. split; [exact Hin|]. split; [done|]. split; [done|].
  apply existsb_exists. exists x. split; [by apply list_elem_of_In|]. rewrite Hxr, Hxp. cbn [andb entry_path]. rewrite Hq.
  apply orb_true_iff. rewrite !path_starts_with_spec.
  destruct (Nat.le_ge_cases (length q) (length (res_path e))); [right|left]; by apply (prefix_comparable _ _ t).
Qed.
End intersection.

Lemma option_filter_entries os build requested granted cwd :
  fp_entries (default file_system_permissions_default
    (ap_file_system (intersect_permission_profiles os build requested granted cwd)))
  = match ap_file_system requested with
    | Some rq => fp_entries (intersect_file_system os build rq
                   (default file_system_permissions_default (ap_file_system granted)) cwd)
    | None => []
    end.
Proof.
  unfold intersect_permission_profiles. cbn [ap_file_system]. destruct (ap_file_system requested) as [rq|]; [|done].
  cbn [fmap option_fmap option_map option_filter]. unfold fp_is_empty.
  by destruct (fp_entries (intersect_file_system _ _ _ _ _)) eqn:E; rewrite ?E; cbn.
Qed.

(** A denial glob of an overlay that denies [t]: a pattern that matches [t], or is
    malformed, where [t] is in the literal directory of the pattern (what a
    pattern without alternatives [{a,b}] matches always is). *)
Definition glob_denies (os : Os) (build : str -> result (PathBuf -> bool) str)
    (file_system : option FileSystemPermissions) (cwd t : PathBuf) : Prop :=
  exists pattern directory,
    mkEntry (GlobPattern pattern) FileSystemAccessMode.Deny ∈ (overlay_policy file_system).(fsp_entries)
    /\ (forall matches, build (path_str (resolve_path_against_base os.(os_env) pattern cwd)) = Ok matches ->
          matches t = true)
    /\ literal_directory (resolve_path_against_base os.(os_env) pattern cwd) directory
    /\ directory `prefix_of` t.

(** What a denial glob of either side denies, the matcher of the intersection
    denies wherever the intersection is used. *)
Lemma intersection_glob_denied os build rq gr cwd later t source :
  env_ok os.(os_env) -> path_normal cwd -> path_normal t ->
  source = fp_entries rq \/ source = fp_entries gr ->
  let entries := fp_entries (intersect_file_system os build rq gr cwd) in
  can_read (access_of (resolved_entries_with_cwd os (restricted entries) cwd) t) = true ->
  glob_denies os build (Some (mkFileSystemPermissions source None)) cwd t ->
  exists m, read_deny_matcher_new os build (restricted entries) later = Some m /\ is_read_denied os m t = true.
Proof.
  intros Henv Hcwd Ht Hsource entries Hr (pattern & q & Hin & Hm & Hl & Hqt). cbn in Hin.
  destruct (static_prefix_covers os cwd Hcwd pattern q Henv Hl) as (p & Hp & Hpq).
  destruct (access_of_cases (resolved_entries_with_cwd os (restricted entries) cwd) t) as [[e He]|[_ Hn]];
    [|by rewrite Hn in Hr].
  rewrite (access_of_decides _ _ _ He) in Hr. destruct He as (He & Het & _).
  pose proof (intersection_keeps_glob os cwd Hcwd build rq gr source pattern e t p) as Hk.
  specialize (Hk ltac:(intros x Hx; apply elem_of_intersection; destruct Hsource as [-> | ->]; tauto)
    He Hr Het Hin Hp ltac:(by etrans)).
  destruct (denial_glob_denies os build _ _ later t Ht Hk) as (m & Hmm & Hden). exists m. split; [exact Hmm|].
  apply not_false_is_true. intros Hf. destruct (Hden Hf) as (f & Hb & Hft).
  rewrite resolve_path_str in Hb by by apply resolve_normal. by rewrite (Hm f Hb) in Hft.
Qed.


(** A read-only part of a requested writable root is not kept: granting the root
    grants writing to that part, which the request did not ask for. *)
Example intersection_drops_read_only_part :
  let request := Some (mkFileSystemPermissions
    [mkEntry (Path (path_of "/a")) FileSystemAccessMode.Write;
     mkEntry (Path (path_of "/a/b")) FileSystemAccessMode.Read] None) in
  let grant := Some (mkFileSystemPermissions [mkEntry (Path (path_of "/a")) FileSystemAccessMode.Write] None) in
  let result := intersect_permission_profiles w_os (fun _ => Err []) (mkAdditional None request)
                  (mkAdditional None grant) (path_of "/w") in
  resolve_access_with_cwd w_os (overlay_policy request) (path_of "/a/b/c") (path_of "/w") = FileSystemAccessMode.Read
  /\ resolve_access_with_cwd w_os (overlay_policy result.(ap_file_system)) (path_of "/a/b/c") (path_of "/w")
     = FileSystemAccessMode.Write.
Proof. split; vm_compute; reflexivity. Qed.

(** The prefix that decides whether a denial glob meets a grant is read up to the
    first star, question mark or square bracket, while the globs also know
    alternatives [{a,b}]: a denial written with alternatives names a prefix that no
    path is below, and granting a part of the requested root drops it. *)
Definition w_brace_globs (pattern : str) : result (PathBuf -> bool) str :=
  if pattern == lit "/w/{src,lib}/*.env"
  then Ok (fun p =>
         (bool_decide (path_parent p = Some (path_of "/w/src")) || bool_decide (path_parent p = Some (path_of "/w/lib")))
         && match file_name p with Some n => ends_with (lit ".env") n | None => false end)
  else Err (lit "unsupported").

Example brace_glob_denial_dropped :
  let request := Some (mkFileSystemPermissions
    [mkEntry (Path (path_of "/w")) FileSystemAccessMode.Write;
     mkEntry (GlobPattern (lit "/w/{src,lib}/*.env")) FileSystemAccessMode.Deny] None) in
  let grant := Some (mkFileSystemPermissions [mkEntry (Path (path_of "/w/src")) FileSystemAccessMode.Write] None) in
  let result := intersect_permission_profiles w_os w_brace_globs (mkAdditional None request) (mkAdditional None grant)
                  (path_of "/w") in
  let denied fs := is_some_and (fun m => is_read_denied w_os m (path_of "/w/src/local.env"))
                     (read_deny_matcher_new w_os w_brace_globs (overlay_policy fs) (path_of "/w")) in
  denied request = true /\ denied result.(ap_file_system) = false
  /\ can_read (resolve_access_with_cwd w_os (overlay_policy result.(ap_file_system)) (path_of "/w/src/local.env")
                 (path_of "/w")) = true.
Proof. repeat split; vm_compute; reflexivity. Qed.

(** * Grants add up *)

Lemma push_missing_present es e : e ∈ es -> push_missing es e = es.
Proof.
  intros He. unfold push_missing. case_match eqn:E; [done|]. apply existsb_false in E.
  rewrite Forall_forall in E. specialize (E e He). by to_props.
Qed.

Lemma foldl_push_missing_sub es l : (forall x, x ∈ l -> x ∈ es) -> foldl push_missing es l = es.
Proof.
  induction l as [|x l IH]; [done|]. cbn. intros H. rewrite push_missing_present by (apply H; left).
  apply IH. intros y Hy. apply H. by right.
Qed.

(** Pushing a list without repetitions is pushing the list. *)
Lemma foldl_push_missing_dedup l acc es :
  foldl push_missing es (foldl push_missing acc l) = foldl push_missing (foldl push_missing es acc) l.
Proof.
  revert acc es. induction l as [|x l IH]; intros acc es; [done|]. cbn. rewrite IH. f_equal.
  unfold push_missing at 2. case_match eqn:E.
  - rewrite push_missing_present; [done|]. apply foldl_push_missing_elem. right.
    by apply existsb_exists in E as (y & Hy%list_elem_of_In & ->%bool_decide_eq_true_1).
  - by rewrite foldl_app.
Qed.

Lemma merge_entries_push es a b :
  foldl push_missing es (merge_permission_entries a b) = foldl push_missing (foldl push_missing es a) b.
Proof. unfold merge_permission_entries. by rewrite foldl_push_missing_dedup, foldl_app. Qed.

Lemma deny_glob_union es l : existsb is_deny_glob (foldl push_missing es l)
                             = existsb is_deny_glob es || existsb is_deny_glob l.
Proof.
  apply Bool.eq_iff_eq_true. rewrite orb_true_iff, !existsb_exists. setoid_rewrite <- list_elem_of_In.
  setoid_rewrite foldl_push_missing_elem. naive_solver.
Qed.

(** The depth at which the globs of two overlays are scanned. *)
Definition join_depth (l r : option GlobScanDepth) : option GlobScanDepth :=
  match l, r with
  | None, d | d, None => d
  | Some Unbounded, _ | _, Some Unbounded => Some Unbounded
  | Some (Bounded l), Some (Bounded r) => Some (Bounded (N.max l r))
  end.

Lemma join_depth_assoc a b c : join_depth a (join_depth b c) = join_depth (join_depth a b) c.
Proof. destruct a as [[]|], b as [[]|], c as [[]|]; cbn; try done. by rewrite N.max_assoc. Qed.

Definition depth_of (d : option GlobScanDepth) : option N :=
  match d with Some (Bounded n) => Some n | _ => None end.

Lemma merge_depth_join le ld re rd :
  merge_glob_scan_max_depth le ld re rd
  = depth_of (join_depth (effective_glob_scan_depth le ld) (effective_glob_scan_depth re rd)).
Proof.
  unfold merge_glob_scan_max_depth.
  by destruct (effective_glob_scan_depth le ld) as [[]|], (effective_glob_scan_depth re rd) as [[]|].
Qed.

Lemma effective_union es ld l rd :
  effective_glob_scan_depth (foldl push_missing es l) (merge_glob_scan_max_depth es ld l rd)
  = join_depth (effective_glob_scan_depth es ld) (effective_glob_scan_depth l rd).
Proof.
  rewrite merge_depth_join. unfold effective_glob_scan_depth. rewrite deny_glob_union.
  by destruct (existsb is_deny_glob es), (existsb is_deny_glob l), ld, rd.
Qed.

Lemma merge_depth_nonzero es d l (rd : option positive) :
  d <> Some 0%N -> merge_glob_scan_max_depth es d l (Npos <$> rd) <> Some 0%N.
Proof.
  unfold merge_glob_scan_max_depth, effective_glob_scan_depth. intros Hd.
  destruct (existsb is_deny_glob es), (existsb is_deny_glob l), d as [[]|], rd; cbn [fmap option_fmap option_map];
    try done; intros H; first [discriminate H | injection H; lia].
Qed.

Lemma non_zero_back d : d <> Some 0%N -> Npos <$> to_non_zero d = d.
Proof. by destruct d as [[]|]. Qed.

Lemma effective_merged a ad b bd :
  effective_glob_scan_depth (merge_permission_entries a b)
    (Npos <$> to_non_zero (merge_glob_scan_max_depth a (Npos <$> ad) b (Npos <$> bd)))
  = join_depth (effective_glob_scan_depth a (Npos <$> ad)) (effective_glob_scan_depth b (Npos <$> bd)).
Proof.
  rewrite non_zero_back by (apply merge_depth_nonzero; by destruct ad). rewrite merge_depth_join.
  unfold effective_glob_scan_depth, merge_permission_entries. rewrite deny_glob_union.
  change (existsb is_deny_glob []) with false. cbn [orb]. rewrite existsb_app.
  by destruct (existsb is_deny_glob a), (existsb is_deny_glob b), ad, bd.
Qed.

Lemma merged_file_system_empty a b :
  merge_permission_entries a b = [] -> a = [] /\ b = [].
Proof.
  intros E. assert (forall x, x ∉ a ++ b) as Hn.
  { intros x Hx. assert (x ∈ merge_permission_entries a b) as Hm by (apply foldl_push_missing_elem; by right).
    rewrite E in Hm. by apply not_elem_of_nil in Hm. }
  split; [destruct a as [|x a]|destruct b as [|x b]]; try done; destruct (Hn x); rewrite elem_of_app, !elem_of_cons; auto.
Qed.

Lemma effective_file_system_compose p a b :
  effective_file_system_sandbox_policy (effective_file_system_sandbox_policy p (Some a)) (Some b)
  = effective_file_system_sandbox_policy p (merge_permission_profiles (Some a) (Some b)).
Proof.
  unfold merge_permission_profiles. cbn [option_filter].
  assert (forall n fs, effective_file_system_sandbox_policy p
            (if negb (ap_is_empty (mkAdditional n fs)) then Some (mkAdditional n fs) else None)
          = effective_file_system_sandbox_policy p (Some (mkAdditional n fs))) as ->.
  { intros n fs. by destruct n, fs. }
  destruct p as [kind d es]. unfold effective_file_system_sandbox_policy. cbn [ap_file_system].
  destruct (ap_file_system a) as [[ea da]|], (ap_file_system b) as [[eb db]|]; try done.
  unfold fp_is_empty. cbn [fp_entries].
  destruct (decide (merge_permission_entries ea eb = [])) as [Hm|Hm].
  { destruct (merged_file_system_empty _ _ Hm) as [-> ->]. by rewrite Hm. }
  rewrite (bool_decide_eq_false_2 _ Hm). cbn [negb fp_entries]. rewrite (bool_decide_eq_false_2 _ Hm).
  unfold merge_file_system_policy_with_additional_permissions. cbn [fp_entries fp_glob_scan_max_depth].
  destruct kind; [|by repeat case_match..]. cbn [fsp_kind fsp_entries glob_scan_max_depth].
  rewrite merge_entries_push, (merge_depth_join es d (merge_permission_entries ea eb)), effective_merged.
  destruct (decide (ea = [])) as [->|Ha], (decide (eb = [])) as [->|Hb].
  - by destruct Hm.
  - rewrite (bool_decide_eq_true_2 ([] = [])), (bool_decide_eq_false_2 _ Hb) by done.
    cbn [fsp_kind fsp_entries glob_scan_max_depth foldl].
    rewrite merge_depth_join. by destruct (effective_glob_scan_depth eb _).
  - rewrite (bool_decide_eq_true_2 ([] = [])), (bool_decide_eq_false_2 _ Ha) by done. cbn [fsp_kind fsp_entries glob_scan_max_depth foldl].
    rewrite merge_depth_join. cbn [effective_glob_scan_depth existsb]. by destruct (effective_glob_scan_depth ea _) as [[]|].
  - rewrite (bool_decide_eq_false_2 _ Ha), (bool_decide_eq_false_2 _ Hb).
    cbn [fsp_kind fsp_entries glob_scan_max_depth].
    by rewrite (merge_depth_join _ _ eb), effective_union, join_depth_assoc.
Qed.

Lemma effective_network_spec n a :
  effective_network_sandbox_policy n (Some a)
  = if NetworkSandboxPolicy.is_enabled n || network_enabled (ap_network a)
    then NetworkSandboxPolicy.Enabled else NetworkSandboxPolicy.Restricted.
Proof.
  unfold effective_network_sandbox_policy, merge_network_access, network_enabled.
  by destruct n, (ap_network a) as [[[[]|]]|].
Qed.

Lemma effective_network_compose n a b :
  effective_network_sandbox_policy (effective_network_sandbox_policy n (Some a)) (Some b)
  = effective_network_sandbox_policy n (merge_permission_profiles (Some a) (Some b)).
Proof.
  unfold merge_permission_profiles. cbn [option_filter].
  match goal with |- _ = effective_network_sandbox_policy n (if negb (ap_is_empty (mkAdditional ?m ?fs)) then _ else _) =>
    transitivity (effective_network_sandbox_policy n (Some (mkAdditional m fs)));
      [|destruct (network_enabled (ap_network a)), (network_enabled (ap_network b)); cbn [orb enabled_network];
        try done; by destruct fs, n] end.
  rewrite !effective_network_spec. cbn [ap_network].
  by destruct n, (network_enabled (ap_network a)), (network_enabled (ap_network b)).
Qed.

Lemma effective_fs_shape kind d es a :
  d <> Some 0%N ->
  exists d' es', d' <> Some 0%N /\
    effective_file_system_sandbox_policy (mkFsPolicy kind d es) a = mkFsPolicy kind d' es'.
Proof.
  intros Hd. unfold effective_file_system_sandbox_policy, merge_file_system_policy_with_additional_permissions.
  repeat case_match; simplify_eq/=; eauto using merge_depth_nonzero.
Qed.

(** Granting two sets of additional permissions one after the other gives
    the profile that the merged set gives: the same entries in the same order,
    the same bound on glob scans and the same network access; an effective
    profile always exists. *)
Theorem grants_compose pp a b :
  exists pp', effective_permission_profile pp (Some a) = Some pp'
  /\ effective_permission_profile pp' (Some b)
     = effective_permission_profile pp (merge_permission_profiles (Some a) (Some b))
  /\ PermissionProfile.enforcement pp' = PermissionProfile.enforcement pp.
Proof.
  pose proof (effective_file_system_compose (PermissionProfile.file_system_sandbox_policy pp) a b) as Hfs.
  pose proof (effective_network_compose (PermissionProfile.network_sandbox_policy pp) a b) as Hn.
  unfold effective_permission_profile. cbn [PermissionProfile.to_runtime_permissions]. rewrite <- Hfs, <- Hn.
  destruct pp as [[es d|] net| |net].
  - destruct (effective_fs_shape FileSystemSandboxKind.Restricted (Npos <$> d) es (Some a)) as (d' & es' & Hd' & E);
      [by destruct d|]. cbn [PermissionProfile.file_system_sandbox_policy
        ManagedFileSystemPermissions.to_sandbox_policy]. rewrite E. eexists. split; [done|]. split; [|done].
    cbn [PermissionProfile.file_system_sandbox_policy PermissionProfile.network_sandbox_policy
      ManagedFileSystemPermissions.to_sandbox_policy fsp_entries glob_scan_max_depth].
    fold (to_non_zero d'). by rewrite non_zero_back.
  - eexists. split; [by cbn; destruct (ap_file_system a) as [f|]; [destruct (fp_is_empty f)|]|].
    split; [|done]. by cbn; destruct (ap_file_system a) as [f|]; [destruct (fp_is_empty f)|].
  - eexists. split; [by cbn; destruct (ap_file_system a) as [f|]; [destruct (fp_is_empty f)|]|].
    split; [|done]. cbn; destruct (ap_file_system a) as [f|]; [destruct (fp_is_empty f)|];
    by destruct (ap_file_system b) as [g|]; [destruct (fp_is_empty g)|].
  - eexists. split; [by cbn; destruct (ap_file_system a) as [f|]; [destruct (fp_is_empty f)|]|].
    split; [|done]. by cbn; destruct (ap_file_system a) as [f|]; [destruct (fp_is_empty f)|].
Qed.

(** * When a sandbox is required *)

(** A denial that names a place: the placeholders [Minimal] and unknown special
    paths resolve to none. *)
Definition places (e : FileSystemSandboxEntry) : bool :=
  match e.(entry_path) with Special Minimal | Special (Unknown _ _) => false | _ => true end.

Definition denies_some_read (p : FileSystemSandboxPolicy) : bool :=
  is_restricted p && existsb (fun e => is_deny e && places e) p.(fsp_entries).

Lemma deny_has_no_override p e : is_deny e = true -> has_same_target_write_override p e = false.
Proof.
  unfold is_deny. intros Hd. to_props. unfold has_same_target_write_override. rewrite Hd. apply existsb_false.
  apply Forall_forall. intros c _. by destruct (entry_access c).
Qed.

Lemma denial_narrows p : denies_some_read p = true -> has_full_disk_write_access p = false.
Proof.
  unfold denies_some_read, has_full_disk_write_access, has_write_narrowing_entries, is_restricted.
  intros [Hk%bool_decide_eq_true_1 (e & He & [Hd Hp]%andb_true_iff)%existsb_exists]%andb_true_iff. rewrite Hk.
  rewrite (bool_decide_eq_true_2 _ eq_refl). cbn [andb].
  match goal with |- _ && negb ?b = false => assert (b = true) as ->; [|by rewrite andb_comm] end.
  apply existsb_exists. exists e. split; [done|].
  pose proof (deny_has_no_override p e Hd) as Ho. unfold places in Hp.
  assert (can_write (entry_access e) = false) as ->.
  { unfold is_deny in Hd. to_props. by rewrite Hd. }
  destruct (entry_path e) as [| |[]]; rewrite ?Ho; done.
Qed.

Lemma required_when_denied p net managed :
  denies_some_read p = true -> should_sandbox p net SandboxablePreference.Auto managed = true.
Proof.
  intros Hd. unfold should_sandbox, should_require_platform_sandbox.
  rewrite (denial_narrows p Hd). unfold denies_some_read, is_restricted in Hd.
  apply andb_true_iff in Hd as [Hk%bool_decide_eq_true_1 _]. rewrite Hk. by destruct managed, net.
Qed.

(** A tool without a sandbox preference of its own runs in the platform
    sandbox whenever the policy denies reading some place, whenever the network
    is restricted under a policy the program enforces itself, and whenever
    managed network requirements apply; it runs without one only when the policy
    writes everywhere or somebody else confines it. *)
Theorem sandbox_required_when_confining p net managed :
  (denies_some_read p = true \/ managed = true
   \/ (net = NetworkSandboxPolicy.Restricted /\ p.(fsp_kind) <> FileSystemSandboxKind.ExternalSandbox) ->
     should_sandbox p net SandboxablePreference.Auto managed = true)
  /\ (should_sandbox p net SandboxablePreference.Auto managed = false ->
      managed = false
      /\ (p.(fsp_kind) = FileSystemSandboxKind.ExternalSandbox
          \/ (net = NetworkSandboxPolicy.Enabled /\ has_full_disk_write_access p = true))).
Proof.
  split.
  - intros [Hd|[->|[-> Hk]]]; [by apply required_when_denied|done|].
    unfold should_sandbox, should_require_platform_sandbox. cbn [NetworkSandboxPolicy.is_enabled negb]. rewrite (bool_decide_eq_false_2 _ Hk). by destruct managed.
  - unfold should_sandbox, should_require_platform_sandbox. destruct managed; [done|]. destruct net; cbn [NetworkSandboxPolicy.is_enabled negb].
    + intros H%negb_false_iff%bool_decide_eq_true_1. auto.
    + intros H. split; [done|]. destruct (fsp_kind p) eqn:Hk.
      * apply negb_false_iff in H. auto.
      * right. split; [done|]. unfold has_full_disk_write_access. by rewrite Hk.
      * by left.
Qed.

(** * Legacy roots *)

Lemma foldl_legacy r w paths a :
  foldl as_legacy_step (Some (r, w)) ((fun path => mkEntry (Path path) a) <$> paths)
  = match a with
    | FileSystemAccessMode.Read => Some (r ++ paths, w)
    | FileSystemAccessMode.Write => Some (r, w ++ paths)
    | FileSystemAccessMode.Deny => match paths with [] => Some (r, w) | _ => None end
    end.
Proof.
  revert r w. induction paths as [|x paths IH]; intros r w; cbn [fmap list_fmap foldl].
  - by destruct a; rewrite ?app_nil_r.
  - destruct a; cbn [as_legacy_step entry_path entry_access]; [by rewrite IH, <- app_assoc..|].
    clear IH. by induction paths.
Qed.

(** Permissions given as readable and writable roots are read back as those
    roots, where an empty list is no list. *)
Lemma read_write_roots_roundtrip read write :
  legacy_read_write_roots (from_read_write_roots read write)
  = Some (option_filter (fun l => l != []) read, option_filter (fun l => l != []) write).
Proof.
  unfold legacy_read_write_roots, from_read_write_roots. cbn [fp_glob_scan_max_depth fp_entries].
  rewrite foldl_app, !foldl_legacy. by destruct read, write.
Qed.

(** * Witnesses *)

(** Globs that end in [*.env], compiled to a test of the last component. *)
Definition w_env_globs (pattern : str) : result (PathBuf -> bool) str :=
  if ends_with (lit "*.env") pattern
  then Ok (fun p => match file_name p with Some n => ends_with (lit ".env") n | None => false end)
  else Err (lit "unsupported").

Definition w_glob_request : option FileSystemPermissions :=
  Some (mkFileSystemPermissions
    [mkEntry (Special (ProjectRoots None)) FileSystemAccessMode.Write;
     mkEntry (GlobPattern (lit "**/*.env")) FileSystemAccessMode.Deny] None).
Definition w_glob_grant : option FileSystemPermissions :=
  Some (mkFileSystemPermissions
    [mkEntry (Path (path_of "/w/src")) FileSystemAccessMode.Write;
     mkEntry (Path (path_of "/w/.env")) FileSystemAccessMode.Write] None).


Lemma sandbox_required_when_confining_witness :
  should_sandbox w_fs_policy NetworkSandboxPolicy.Enabled SandboxablePreference.Auto false = true.
Proof.
  refine (proj1 (sandbox_required_when_confining w_fs_policy NetworkSandboxPolicy.Enabled false) _).
  left. vm_compute. reflexivity.
Defined.
