(* ===== verification/PatchSafety.v ===== *)
(** [core/src/safety.rs]: whether a patch is applied without asking, after
    asking, or not at all.

    A patch action is a list of distinct paths with their changes (the code has a
    [HashMap]; only whether all of them pass matters).  [PathUri] is a parameter
    with its conversion to a path of this host. *)

From stdpp Require Import base list option numbers strings sets.
From Stdlib Require Import NArith Lia.
From S2P Require Import Prelude RustStr AbsolutePath Permissions PermissionLaws PermissionProfile PolicyTransforms.
Local Open Scope rust_scope.

Definition PATCH_REJECTED_OUTSIDE_PROJECT_REASON : str :=
  lit "writing outside of the project; rejected by user approval settings".
Definition PATCH_REJECTED_READ_ONLY_REASON : str :=
  lit "writing is blocked by read-only sandbox; rejected by user approval settings".

Inductive SafetyCheck : Set :=
| AutoApprove (sandbox_type : SandboxType.t) (user_explicitly_approved : bool)
| AskUser
| Reject (reason : str).

Section safety.
Context {PathUri : Type} (to_abs_path : PathUri -> option AbsolutePathBuf).
Context (target_os : TargetOs) (os : Os).

Inductive ApplyPatchFileChange : Type :=
| AddChange (content : str)
| DeleteChange (content : str)
| UpdateChange (unified_diff : str) (move_path : option PathUri) (new_content : str).

Abbreviation ApplyPatchAction := (list (PathUri * ApplyPatchFileChange)).

(** The local function [normalize]: it always succeeds. *)
Definition normalize_patch_path (path : PathBuf) : PathBuf := foldl normalize_step [] path.

Definition is_patch_path_writable (policy : FileSystemSandboxPolicy) (native_cwd : AbsolutePathBuf)
    (path : PathUri) : bool :=
  match to_abs_path path with
  | None => false
  | Some path => can_write_path_with_cwd os policy (normalize_patch_path path) native_cwd
  end.

Definition change_is_writable (policy : FileSystemSandboxPolicy) (native_cwd : AbsolutePathBuf)
    (c : PathUri * ApplyPatchFileChange) : bool :=
  let '(path, change) := c in
  match change with
  | AddChange _ | DeleteChange _ => is_patch_path_writable policy native_cwd path
  | UpdateChange _ move_path _ =>
      is_patch_path_writable policy native_cwd path
      && match move_path with Some dest => is_patch_path_writable policy native_cwd dest | None => true end
  end.

Definition is_write_patch_constrained_to_writable_paths (action : ApplyPatchAction)
    (policy : FileSystemSandboxPolicy) (cwd : PathUri) : bool :=
  if has_full_disk_write_access policy then true
  else match to_abs_path cwd with
       | None => false
       | Some native_cwd => forallb (change_is_writable policy native_cwd) action
       end.

Definition patch_rejection_reason (permission_profile : PermissionProfile.t) (policy : FileSystemSandboxPolicy)
    (cwd : PathUri) : str :=
  let has_no_writable_roots :=
    match to_abs_path cwd with
    | Some cwd => match get_writable_roots_with_cwd os policy cwd with [] => true | _ => false end
    | None => false
    end in
  match permission_profile with
  | PermissionProfile.Managed _ _ =>
      if negb (has_full_disk_write_access policy) && has_no_writable_roots
      then PATCH_REJECTED_READ_ONLY_REASON else PATCH_REJECTED_OUTSIDE_PROJECT_REASON
  | PermissionProfile.Disabled | PermissionProfile.External _ => PATCH_REJECTED_OUTSIDE_PROJECT_REASON
  end.

Definition rejects_sandbox_approval (policy : AskForApproval.t) : bool :=
  match policy with
  | AskForApproval.Never => true
  | AskForApproval.Granular granular_config => negb granular_config.(sandbox_approval)
  | _ => false
  end.

Definition assess_patch_safety (action : ApplyPatchAction) (policy : AskForApproval.t)
    (permission_profile : PermissionProfile.t) (file_system_sandbox_policy : FileSystemSandboxPolicy)
    (cwd : PathUri) (windows_sandbox_level : WindowsSandboxLevel.t) : SafetyCheck :=
  match action, policy with
  | [], _ => Reject (lit "empty patch")
  | _, AskForApproval.UnlessTrusted => AskUser
  | _, _ =>
      let refuse :=
        if rejects_sandbox_approval policy
        then Reject (patch_rejection_reason permission_profile file_system_sandbox_policy cwd)
        else AskUser in
      if is_write_patch_constrained_to_writable_paths action file_system_sandbox_policy cwd then
        match permission_profile with
        | PermissionProfile.Disabled | PermissionProfile.External _ => AutoApprove SandboxType.None false
        | PermissionProfile.Managed _ _ =>
            match get_platform_sandbox target_os (windows_sandbox_level != WindowsSandboxLevel.Disabled) with
            | Some sandbox_type => AutoApprove sandbox_type false
            | None => refuse
            end
        end
      else refuse
  end.

(** * Theorems *)

(** The paths a change writes. *)
Definition written_paths (c : PathUri * ApplyPatchFileChange) : list PathUri :=
  let '(path, change) := c in
  path :: match change with UpdateChange _ (Some dest) _ => [dest] | _ => [] end.

Lemma normalize_patch_path_fixed p : path_normal p -> normalize_patch_path p = p.
Proof.
  intros Hp. pose proof (normalize_path_fixed p Hp) as E. unfold normalize_path in E. unfold normalize_patch_path.
  destruct (foldl normalize_step [] p); [|done]. subst p. by destruct Hp as (? & ? & _).
Qed.

Lemma change_writable_spec policy cwd c :
  change_is_writable policy cwd c = true <->
  Forall (fun path => is_patch_path_writable policy cwd path = true) (written_paths c).
Proof.
  destruct c as [path [content|content|diff [dest|] content]]; cbn; rewrite !Forall_cons, Forall_nil, ?andb_true_iff; tauto.
Qed.

(** C36: a patch is applied without asking exactly when it is not empty, the
    approval policy is not [UnlessTrusted], there is a sandbox to confine it or the
    profile asks for none ([Disabled] and [External] profiles, where it runs
    unconfined), and the policy writes everywhere or every path the patch writes,
    the destination of a move included, is writable under it.  Where asking is
    disabled the user is never asked: the patch is approved or rejected. *)
Theorem patch_approved_iff_writable action policy profile fs cwd level :
  (forall p q, to_abs_path p = Some q -> path_normal q) ->
  let managed := match profile with PermissionProfile.Managed _ _ => true | _ => false end in
  let sandbox := if managed then get_platform_sandbox target_os (level != WindowsSandboxLevel.Disabled)
                 else Some SandboxType.None in
  let result := assess_patch_safety action policy profile fs cwd level in
  (forall sandbox_type approved, result = AutoApprove sandbox_type approved <->
     approved = false /\ sandbox = Some sandbox_type /\ action <> [] /\ policy <> AskForApproval.UnlessTrusted
     /\ (has_full_disk_write_access fs = true
         \/ exists c, to_abs_path cwd = Some c
            /\ forall change path, change ∈ action -> path ∈ written_paths change ->
                 exists q, to_abs_path path = Some q /\ can_write_path_with_cwd os fs q c = true))
  /\ (rejects_sandbox_approval policy = true -> result <> AskUser)
  /\ (action = [] -> result = Reject (lit "empty patch")).
Proof.
  intros Hnormal managed sandbox result.
  assert (forall c, forallb (change_is_writable fs c) action = true <->
    forall change path, change ∈ action -> path ∈ written_paths change ->
      exists q, to_abs_path path = Some q /\ can_write_path_with_cwd os fs q c = true) as Hall.
  { intros c. rewrite forallb_forall. setoid_rewrite <- list_elem_of_In. setoid_rewrite change_writable_spec.
    setoid_rewrite Forall_forall. split.
    - intros H change path Hc Hp. specialize (H change Hc path Hp). unfold is_patch_path_writable in H.
      case_match eqn:E; [|done]. rewrite normalize_patch_path_fixed in H by eauto. eauto.
    - intros H change Hc path Hp. destruct (H change path Hc Hp) as (q & Hq & Hw). unfold is_patch_path_writable.
      rewrite Hq, normalize_patch_path_fixed; eauto. }
  assert (is_write_patch_constrained_to_writable_paths action fs cwd = true <->
    has_full_disk_write_access fs = true \/ exists c, to_abs_path cwd = Some c /\
      forall change path, change ∈ action -> path ∈ written_paths change ->
        exists q, to_abs_path path = Some q /\ can_write_path_with_cwd os fs q c = true) as Hcon.
  { unfold is_write_patch_constrained_to_writable_paths. destruct (has_full_disk_write_access fs); [naive_solver|].
    destruct (to_abs_path cwd) as [c|]; [rewrite Hall; naive_solver|naive_solver]. }
  split; [|split].
  - intros st ap. rewrite <- Hcon. unfold result, assess_patch_safety, sandbox, managed.
    destruct action as [|a action]; [naive_solver|].
    destruct (is_write_patch_constrained_to_writable_paths _ _ _), policy, profile;
      try destruct (get_platform_sandbox _ _); try destruct (rejects_sandbox_approval _); naive_solver.
  - intros Hr. unfold result, assess_patch_safety. destruct action as [|a action]; [done|]. rewrite Hr.
    by destruct policy, (is_write_patch_constrained_to_writable_paths _ _ _), profile; try destruct (get_platform_sandbox _ _).
  - unfold result, assess_patch_safety. by intros ->.
Qed.
End safety.

(** * A concrete patch *)

Definition w_patch : list (PathBuf * @ApplyPatchFileChange PathBuf) :=
  [(path_of "/w/src/a.rs", UpdateChange [] (Some (path_of "/w/src/b.rs")) (lit "x"));
   (path_of "/w/secret/key", AddChange (lit "k"))].

Lemma patch_approved_iff_writable_witness :
  let to_abs p := if path_normalb p then Some p else None in
  let profile := PermissionProfile.Managed (ManagedFileSystemPermissions.Restricted w_fs_policy.(fsp_entries) None)
                   NetworkSandboxPolicy.Restricted in
  assess_patch_safety to_abs Linux w_os w_patch AskForApproval.Never profile w_fs_policy (path_of "/w")
    WindowsSandboxLevel.Disabled = Reject PATCH_REJECTED_OUTSIDE_PROJECT_REASON
  /\ assess_patch_safety to_abs Linux w_os (take 1 w_patch) AskForApproval.Never profile w_fs_policy (path_of "/w")
       WindowsSandboxLevel.Disabled = AutoApprove SandboxType.LinuxSeccomp false
  /\ can_write_path_with_cwd w_os w_fs_policy (path_of "/w/src/b.rs") (path_of "/w") = true.
Proof.
  intros to_abs profile. split; [vm_compute; reflexivity|].
  assert (assess_patch_safety to_abs Linux w_os (take 1 w_patch) AskForApproval.Never profile w_fs_policy (path_of "/w")
       WindowsSandboxLevel.Disabled = AutoApprove SandboxType.LinuxSeccomp false) as E by (vm_compute; reflexivity).
  split; [exact E|].
  destruct (proj1 (proj1 (patch_approved_iff_writable to_abs Linux w_os (take 1 w_patch) AskForApproval.Never profile
    w_fs_policy (path_of "/w") WindowsSandboxLevel.Disabled
    ltac:(intros p q; unfold to_abs; destruct (path_normalb p) eqn:Ep; intros [= <-]; by apply path_normalb_ok))
    _ _) E) as (_ & _ & _ & _ & [Hf|(c & Hc & Hall)]); [vm_compute in Hf; discriminate Hf|].
  vm_compute in Hc. injection Hc as <-.
  destruct (Hall (path_of "/w/src/a.rs", UpdateChange [] (Some (path_of "/w/src/b.rs")) (lit "x")) (path_of "/w/src/b.rs"))
    as (q & Hq & Hw); [vm_compute; set_solver|vm_compute; set_solver|].
  assert (to_abs (path_of "/w/src/b.rs") = Some (path_of "/w/src/b.rs")) as Hb by (vm_compute; reflexivity).
  rewrite Hb in Hq. injection Hq as <-. exact Hw.
Defined.
