(* ===== verification/ExecRule.v ===== *)
(** [execpolicy/src]: [decision.rs], [executable_name.rs], [rule.rs].

    Decisions and their order, prefix patterns, rule matches, the [Rule] trait
    (the class [Rule], with [PrefixRule] as its instance) and network rules with
    the normalisation of their hosts. *)

From stdpp Require Import base list option numbers strings sets.
From Stdlib Require Import NArith Lia.
From S2P Require Import Prelude RustStr AbsolutePath.
Local Open Scope rust_scope.

(** * Errors *)

Record ErrorLocation : Set := mkLocation {
  loc_path : str;
  loc_start : nat * nat;   (** line, column *)
  loc_end : nat * nat;
}.

Inductive Error : Set :=
| InvalidDecision (raw : str)
| InvalidPattern (msg : str)
| InvalidExample (msg : str)
| InvalidRule (msg : str)
| ExampleDidNotMatch (rules examples : list str) (location : option ErrorLocation)
| ExampleDidMatch (rule example : str) (location : option ErrorLocation).

(** [Error::with_location]: fills a missing location in. *)
Definition with_location (e : Error) (location : ErrorLocation) : Error :=
  match e with
  | ExampleDidNotMatch rules examples None => ExampleDidNotMatch rules examples (Some location)
  | ExampleDidMatch rule example None => ExampleDidMatch rule example (Some location)
  | other => other
  end.

(** * Decisions *)

Inductive Decision : Set := Allow | Prompt | Forbidden.

#[global] Instance Decision_eq_dec : EqDecision Decision.
Proof. solve_decision. Defined.

(** The derived [Ord]: the order of the variants. *)
Definition severity (d : Decision) : nat :=
  match d with Allow => 0 | Prompt => 1 | Forbidden => 2 end.
Definition decision_le (d e : Decision) : Prop := severity d <= severity e.
Definition decision_max (d e : Decision) : Decision :=
  if severity d <=? severity e then e else d.

Infix "⊑d" := decision_le (at level 70).

#[global] Instance decision_le_dec d e : base.Decision (d ⊑d e).
Proof. unfold decision_le. apply _. Defined.
#[global] Instance decision_le_po : PartialOrder decision_le.
Proof.
  repeat split; unfold decision_le; repeat intro; [lia| lia |].
  destruct x, y; cbn in *; (done || lia).
Qed.

Lemma decision_max_le d e f : decision_max d e ⊑d f <-> d ⊑d f /\ e ⊑d f.
Proof. unfold decision_max, decision_le. case_match; to_props; lia. Qed.
Lemma decision_le_max_l d e : d ⊑d decision_max d e.
Proof. apply (decision_max_le d e); unfold decision_le; lia. Qed.
Lemma decision_le_max_r d e : e ⊑d decision_max d e.
Proof. apply (decision_max_le d e); unfold decision_le; lia. Qed.
Lemma decision_max_either d e : decision_max d e = d \/ decision_max d e = e.
Proof. unfold decision_max. case_match; auto. Qed.
Lemma decision_le_allow d : d ⊑d Allow <-> d = Allow.
Proof. destruct d; unfold decision_le; cbn; split; (done || lia). Qed.
Lemma decision_forbidden_le d : Forbidden ⊑d d <-> d = Forbidden.
Proof. destruct d; unfold decision_le; cbn; split; (done || lia). Qed.
#[export] Hint Resolve decision_le_max_l decision_le_max_r : motyga.

Definition decision_parse (raw : str) : result Decision Error :=
  if raw == lit "allow" then Ok Allow
  else if raw == lit "prompt" then Ok Prompt
  else if raw == lit "forbidden" then Ok Forbidden
  else Err (InvalidDecision raw).

(** * Executable names (not Windows) *)

Definition executable_lookup_key (raw : str) : str := raw.

Definition executable_path_lookup_key (path : AbsolutePathBuf) : option str :=
  executable_lookup_key <$> file_name path.

(** * Prefix patterns *)

Inductive PatternToken : Set :=
| Single (s : str)
| Alts (alternatives : list str).

Definition token_matches (self : PatternToken) (token : str) : bool :=
  match self with
  | Single expected => expected == token
  | Alts alternatives => existsb (fun alt => alt == token) alternatives
  end.

Definition alternatives (self : PatternToken) : list str :=
  match self with
  | Single expected => [expected]
  | Alts alts => alts
  end.

Record PrefixPattern : Set := mkPattern {
  first : str;
  rest : list PatternToken;
}.

(** The loop over [self.rest.iter().zip(..)]. *)
Fixpoint all_match (ts : list PatternToken) (cmd : list str) : bool :=
  match ts, cmd with
  | t :: ts, c :: cmd => if token_matches t c then all_match ts cmd else false
  | _, _ => true
  end.

Definition matches_prefix (self : PrefixPattern) (cmd : list str) : option (list str) :=
  let pattern_length := length self.(rest) + 1 in
  if (length cmd <? pattern_length) || (head cmd != Some self.(first)) then None
  else if all_match self.(rest) (drop 1 (take pattern_length cmd))
       then Some (take pattern_length cmd)
       else None.

(** * Rule matches *)

Inductive RuleMatch : Set :=
| PrefixRuleMatch (matched_prefix : list str) (decision : Decision)
    (resolved_program : option AbsolutePathBuf) (justification : option str)
| HeuristicsRuleMatch (command : list str) (decision : Decision).

Definition rm_decision (self : RuleMatch) : Decision :=
  match self with
  | PrefixRuleMatch _ d _ _ => d
  | HeuristicsRuleMatch _ d => d
  end.

Definition with_resolved_program (p : AbsolutePathBuf) (self : RuleMatch) : RuleMatch :=
  match self with
  | PrefixRuleMatch matched_prefix decision _ justification =>
      PrefixRuleMatch matched_prefix decision (Some p) justification
  | other => other
  end.

(** * Rules *)

Record PrefixRule : Set := mkRule {
  pattern : PrefixPattern;
  decision : Decision;
  justification : option str;
}.

(** The trait [Rule]: [program], [matches] and [as_any] followed by the
    [downcast_ref::<PrefixRule>] its users apply to it. *)
Class Rule (R : Type) := {
  program : R -> str;
  rule_matches : R -> list str -> option RuleMatch;
  as_prefix_rule : R -> option PrefixRule;
}.

Definition prefix_rule_matches (self : PrefixRule) (cmd : list str) : option RuleMatch :=
  (fun matched_prefix =>
     PrefixRuleMatch matched_prefix self.(decision) None self.(justification))
  <$> matches_prefix self.(pattern) cmd.

#[global] Instance PrefixRule_Rule : Rule PrefixRule := {|
  program r := r.(pattern).(first);
  rule_matches := prefix_rule_matches;
  as_prefix_rule r := Some r;
|}.

(** * Network rules *)

Inductive NetworkRuleProtocol : Set := Http | Https | Socks5Tcp | Socks5Udp.

#[global] Instance NetworkRuleProtocol_eq_dec : EqDecision NetworkRuleProtocol.
Proof. solve_decision. Defined.

Definition protocol_parse (raw : str) : result NetworkRuleProtocol Error :=
  if raw == lit "http" then Ok Http
  else if (raw == lit "https") || (raw == lit "https_connect") || (raw == lit "http-connect")
  then Ok Https
  else if raw == lit "socks5_tcp" then Ok Socks5Tcp
  else if raw == lit "socks5_udp" then Ok Socks5Udp
  else Err (InvalidRule (lit "network_rule protocol must be one of http, https, socks5_tcp, socks5_udp (got "
                         ++ raw ++ lit ")")).

Definition as_policy_string (self : NetworkRuleProtocol) : str :=
  match self with
  | Http => lit "http"
  | Https => lit "https"
  | Socks5Tcp => lit "socks5_tcp"
  | Socks5Udp => lit "socks5_udp"
  end.

Record NetworkRule : Set := mkNetworkRule {
  nr_host : str;
  nr_protocol : NetworkRuleProtocol;
  nr_decision : Decision;
  nr_justification : option str;
}.

Definition COLON : char := 58%N.
Definition STAR : char := 42%N.

Definition nonempty (s : str) : bool := match s with [] => false | _ => true end.

(** A non-empty string of digits: the port of a host. *)
Definition is_port (port : str) : bool := nonempty port && forallb is_ascii_digit port.

(** The host without its brackets or its port. *)
Definition host_part (raw host : str) : result str Error :=
  match strip_prefix (lit "[") host with
  | Some stripped =>
      match split_once 93%N stripped with
      | None => Err (InvalidRule (lit "network_rule host has an invalid bracketed IPv6 literal"))
      | Some (inside, rest) =>
          let port_ok := is_some_and is_port (strip_prefix [COLON] rest) in
          if nonempty rest && negb port_ok
          then Err (InvalidRule (lit "network_rule host contains an unsupported suffix: " ++ raw))
          else Ok inside
      end
  | None =>
      if Nat.eqb (count_char COLON host) 1 then
        match rsplit_once COLON host with
        | Some (candidate, port) =>
            Ok (if nonempty candidate && nonempty port && forallb is_ascii_digit port
                then candidate else host)
        | None => Ok host
        end
      else Ok host
  end.

Definition normalize_network_rule_host (raw : str) : result str Error :=
  let host := trim raw in
  if negb (nonempty host) then Err (InvalidRule (lit "network_rule host cannot be empty"))
  else if contains_str (lit "://") host || contains_char SLASH host
          || contains_char 63%N host || contains_char 35%N host
  then Err (InvalidRule (lit "network_rule host must be a hostname or IP literal (without scheme or path)"))
  else
    let? host := host_part raw host in
    let normalized := to_ascii_lowercase (trim (trim_end_matches 46%N host)) in
    if negb (nonempty normalized)
    then Err (InvalidRule (lit "network_rule host cannot be empty"))
    else if contains_char STAR normalized
    then Err (InvalidRule (lit "network_rule host must be a specific host; wildcards are not allowed"))
    else if existsb is_whitespace normalized
    then Err (InvalidRule (lit "network_rule host cannot contain whitespace"))
    else Ok normalized.

(** * Properties *)

Lemma token_matches_spec t c : token_matches t c = true <-> c ∈ alternatives t.
Proof.
  destruct t as [s|alts]; cbn.
  - rewrite bool_decide_eq_true, list_elem_of_singleton. naive_solver.
  - rewrite existsb_exists. setoid_rewrite bool_decide_eq_true.
    setoid_rewrite <- list_elem_of_In. naive_solver.
Qed.

Lemma all_match_spec ts cmd :
  length ts = length cmd ->
  all_match ts cmd = true <-> Forall2 (fun t c => c ∈ alternatives t) ts cmd.
Proof.
  revert cmd. induction ts as [|t ts IH]; intros [|c cmd] Hlen; try done.
  cbn. rewrite Forall2_cons, <- token_matches_spec, <- IH by (cbn in Hlen; lia).
  destruct (token_matches t c); naive_solver.
Qed.

(** The commands a pattern stands for. *)
Definition pattern_covers (p : PrefixPattern) (cmd : list str) : Prop :=
  exists args more, cmd = p.(first) :: args ++ more
    /\ Forall2 (fun t c => c ∈ alternatives t) p.(rest) args.

Lemma matches_prefix_iff p cmd prefix :
  matches_prefix p cmd = Some prefix
  <-> pattern_covers p cmd /\ prefix = take (1 + length p.(rest)) cmd.
Proof.
  unfold matches_prefix, pattern_covers. rewrite Nat.add_1_r. split.
  - intros H. case_match eqn:E; [done|]. case_match eqn:E2; [|done]. simplify_eq.
    to_props. destruct cmd as [|c cmd]; simplify_eq/=. split; [|done].
    exists (take (length (rest p)) cmd), (drop (length (rest p)) cmd).
    rewrite take_drop. split; [done|]. apply all_match_spec; [rewrite length_take; lia|].
    by rewrite drop_0 in E2.
  - intros [(args & more & -> & H) ->]. pose proof (Forall2_length _ _ _ H) as Hlen.
    cbn [head length]. rewrite length_app.
    replace (S (length args + length more) <? S (length (rest p))) with false
      by (symmetry; apply Nat.ltb_ge; lia).
    rewrite bool_decide_eq_true_2 by done. cbn [orb negb take drop].
    rewrite drop_0, Hlen, take_app_length.
    rewrite (proj2 (all_match_spec _ _ Hlen) H). cbn. by rewrite take_app_length.
Qed.

(** ** Hosts *)

Lemma host_part_elem raw host h c : host_part raw host = Ok h -> c ∈ h -> c ∈ host.
Proof.
  unfold host_part. intros H Hc. repeat case_match; simplify_eq; try done.
  - match goal with H : strip_prefix _ _ = Some _ |- _ => apply strip_prefix_Some in H; subst end.
    match goal with H : split_once _ _ = Some _ |- _ => apply split_once_Some in H as [-> _] end.
    set_solver.
  - match goal with H : rsplit_once _ _ = Some _ |- _ => apply rsplit_once_Some in H as -> end.
    set_solver.
Qed.

(** The characters a stored host is made of. *)
Definition host_char_ok (c : char) : Prop :=
  is_whitespace c = false /\ is_ascii_uppercase c = false
  /\ c <> STAR /\ c <> SLASH /\ c <> 63%N /\ c <> 35%N.

(** A host without scheme, port, brackets, case or trailing dot. *)
Definition plain_host (h : str) : Prop :=
  h <> [] /\ Forall (fun c => host_char_ok c /\ c <> COLON /\ c <> 91%N) h /\ last h <> Some 46%N.

Lemma ascii_lower_inv c d :
  ascii_lower c = d -> is_ascii_uppercase d = false /\ (d = c \/ is_ascii_uppercase c = true /\ (97 <= d)%N).
Proof.
  intros <-. unfold ascii_lower. destruct (is_ascii_uppercase c) eqn:E; [|auto].
  unfold is_ascii_uppercase, in_range in *. to_props. split; [|lia].
  apply andb_false_iff. right. apply N.leb_gt. lia.
Qed.

Lemma normalized_host_sound raw h :
  normalize_network_rule_host raw = Ok h -> h <> [] /\ Forall host_char_ok h.
Proof.
  unfold normalize_network_rule_host. intros H.
  repeat match type of H with
  | (if ?b then _ else _) = _ => destruct b eqn:?; [done|]
  | match ?b with Ok _ => _ | Err _ => _ end = _ => destruct b eqn:?; [|done]
  end. simplify_eq. to_props.
  repeat match goal with H : contains_char _ _ = false |- _ => apply contains_char_false in H end.
  split. { by intros E; rewrite E in *. }
  rewrite Forall_forall. intros c Hc.
  match goal with H : existsb _ _ = false |- _ => apply existsb_false in H; rewrite Forall_forall in H;
    pose proof (H c Hc) end.
  pose proof Hc as Hc'. apply list_elem_of_fmap in Hc' as (d & Hcd & Hd).
  symmetry in Hcd. destruct (ascii_lower_inv _ _ Hcd) as [Hup Hlow].
  apply trim_elem, trim_end_matches_elem in Hd.
  match goal with H : host_part _ _ = Ok _ |- _ => pose proof (host_part_elem _ _ _ _ H Hd) end.
  repeat split; try done; intros ->; try set_solver;
    (destruct Hlow as [<-|[_ ?]]; [done|unfold SLASH in *; lia]).
Qed.

(** *** Plain hosts are fixed points *)

(** The characters of a host and its port. *)
Definition raw_char_ok (c : char) : Prop :=
  is_whitespace c = false /\ c <> SLASH /\ c <> 63%N /\ c <> 35%N.

Lemma normalize_host_via raw h h' :
  plain_host h -> raw <> [] -> Forall raw_char_ok raw ->
  host_part raw raw = Ok h' -> trim_end_matches 46%N h' = h ->
  normalize_network_rule_host raw = Ok h.
Proof.
  intros (Hne & Hh & _) Hraw Hok Hpart Htrim. unfold normalize_network_rule_host.
  unfold raw_char_ok, host_char_ok in *. rewrite Forall_forall in Hok, Hh.
  rewrite (trim_no_ws raw) by (apply Forall_forall; naive_solver).
  assert (nonempty raw = true) as -> by (by destruct raw).
  assert (forall c, c = SLASH \/ c = 63%N \/ c = 35%N -> contains_char c raw = false) as Hno
    by (intros c Hc; apply contains_char_false; naive_solver).
  rewrite !Hno by tauto.
  assert (contains_str (lit "://") raw = false) as ->.
  { destruct (contains_str _ raw) eqn:E; [|done]. exfalso.
    apply contains_str_spec in E as (a & b & ->). assert (SLASH ∈ a ++ lit "://" ++ b) by set_solver.
    naive_solver. }
  cbn [orb negb]. rewrite Hpart, Htrim.
  rewrite trim_no_ws by (apply Forall_forall; naive_solver).
  rewrite lowercase_id by (apply Forall_forall; naive_solver).
  assert (nonempty h = true) as -> by (by destruct h).
  assert (contains_char STAR h = false) as -> by (apply contains_char_false; naive_solver).
  assert (existsb is_whitespace h = false) as -> by (apply existsb_false, Forall_forall; naive_solver).
  done.
Qed.

Lemma is_port_char c : is_ascii_digit c = true -> raw_char_ok c /\ c <> COLON.
Proof.
  unfold is_ascii_digit, in_range, raw_char_ok, is_whitespace, in_range, SLASH, COLON. intros H. to_props.
  repeat split; try lia. repeat (apply orb_false_intro); rewrite ?andb_false_iff, ?N.eqb_neq, ?N.leb_gt; lia.
Qed.

Lemma host_part_plain raw h :
  91%N ∉ h -> COLON ∉ h -> host_part raw h = Ok h.
Proof.
  intros Hb Hc. unfold host_part.
  destruct (strip_prefix (lit "[") h) as [r|] eqn:E.
  { apply strip_prefix_Some in E as ->. set_solver. }
  by rewrite (proj2 (count_char_0 COLON h) Hc).
Qed.

Lemma host_part_port raw h port :
  h <> [] -> 91%N ∉ h -> COLON ∉ h -> is_port port = true ->
  host_part raw (h ++ COLON :: port) = Ok h.
Proof.
  intros Hne Hb Hc Hport. unfold host_part.
  destruct (strip_prefix (lit "[") (h ++ COLON :: port)) as [r|] eqn:E.
  { apply strip_prefix_Some in E. destruct h; simplify_eq/=. set_solver. }
  unfold is_port in Hport. to_props.
  assert (COLON ∉ port) as Hcp.
  { intros Hin%list_elem_of_In. rewrite forallb_forall in *.
    destruct (is_port_char COLON) as [_ ?]; [by eauto|done]. }
  rewrite count_char_app. cbn. rewrite (proj2 (count_char_0 COLON h) Hc),
    (proj2 (count_char_0 COLON port) Hcp). cbn. rewrite rsplit_once_app by done.
  rewrite H, H0. by destruct h.
Qed.

(** A host accepted by a network rule is never empty and never carries
    whitespace, upper-case ASCII letters, a wildcard or a path, query or
    fragment character; and a plain host name stands for itself, with or
    without a port or a trailing dot. *)
Theorem normalized_host_spec :
  (forall raw h, normalize_network_rule_host raw = Ok h -> h <> [] /\ Forall host_char_ok h)
  /\ (forall h port, plain_host h -> is_port port = true ->
      normalize_network_rule_host h = Ok h
      /\ normalize_network_rule_host (h ++ lit ".") = Ok h
      /\ normalize_network_rule_host (h ++ lit ":" ++ port) = Ok h).
Proof.
  split; [apply normalized_host_sound|]. intros h port Hh Hport.
  destruct Hh as (Hne & Hok & Hdot) eqn:Eh. clear Eh. rewrite Forall_forall in Hok.
  assert (forall c, c ∈ h -> raw_char_ok c) as Hraw
    by (intros c Hc; destruct (Hok c Hc) as [(? & ? & ? & ? & ? & ?) _]; repeat split; done).
  assert (91%N ∉ h) as Hb by naive_solver. assert (COLON ∉ h) as Hc by naive_solver.
  split; [|split]; eapply normalize_host_via; try done.
  - by apply Forall_forall.
  - by apply host_part_plain.
  - by apply trim_end_matches_id.
  - by destruct h.
  - apply Forall_app. split; [by apply Forall_forall|]. by repeat constructor.
  - apply host_part_plain; set_solver.
  - by apply trim_end_matches_snoc.
  - by destruct h.
  - apply Forall_app. split; [by apply Forall_forall|]. constructor; [by repeat constructor|].
    unfold is_port in Hport. to_props. rewrite forallb_forall in *. apply Forall_forall.
    intros c Hin%list_elem_of_In. by apply is_port_char; auto.
  - by apply host_part_port.
  - by apply trim_end_matches_id.
Qed.

Definition plain_hostb (h : str) : bool :=
  nonempty h
  && forallb (fun c => negb (is_whitespace c) && negb (is_ascii_uppercase c)
                       && negb (existsb (N.eqb c) (lit "*/?#:["))) h
  && (last h != Some 46%N).

Lemma plain_hostb_ok h : plain_hostb h = true -> plain_host h.
Proof.
  unfold plain_hostb. intros H. to_props. split; [by intros ->|]. split; [|done].
  rewrite forallb_forall in *. apply Forall_forall. intros c Hc%list_elem_of_In.
  match goal with H : forall x, _ |- _ => specialize (H c Hc); to_props end.
  rewrite existsb_false in *.
  change (lit "*/?#:[") with [STAR; SLASH; 63%N; 35%N; COLON; 91%N] in *.
  unfold host_char_ok. repeat match goal with H : Forall _ (_ :: _) |- _ =>
    apply Forall_cons in H as [?%N.eqb_neq H] end. done.
Qed.

Lemma normalized_host_spec_witness :
  normalize_network_rule_host (lit "api.github.com:443") = Ok (lit "api.github.com").
Proof.
  refine (proj2 (proj2 (proj2 normalized_host_spec (lit "api.github.com") (lit "443") _ _))).
  - apply plain_hostb_ok. by vm_compute.
  - by vm_compute.
Defined.
