(* ===== verification/ExecPolicy.v ===== *)
(** [execpolicy/src/policy.rs]: the policy engine.

    A [Policy] holds the prefix rules by program (a [MultiMap], here a finite
    map to non-empty lists in insertion order), the network rules and the paths
    of the host executables.  The engine is generic in the rules it evaluates
    (class [Rule]).  The order in which a hash map is iterated is unspecified;
    the model iterates in the order of [map_to_list] and the theorems do not
    depend on it.  [Env] is what [AbsolutePathBuf::try_from] reads. *)

From stdpp Require Import base list option numbers strings gmap sets.
From Stdlib Require Import NArith Lia.
From S2P Require Import Prelude RustStr AbsolutePath ExecRule.
Local Open Scope rust_scope.

(** * [MultiMap] *)

Definition mm_insert {R} (k : str) (r : R) (m : gmap str (list R)) : gmap str (list R) :=
  <[k := default [] (m !! k) ++ [r]]> m.

(** * The policy *)

Record MatchOptions : Set := mkOptions { resolve_host_executables : bool }.
Definition default_options : MatchOptions := mkOptions false.

Record Policy (R : Type) := mkPolicy {
  rules_by_program : gmap str (list R);
  network_rules : list NetworkRule;
  host_executables_by_name : gmap str (list AbsolutePathBuf);
}.
Arguments mkPolicy {R}.
Arguments rules_by_program {R}.
Arguments network_rules {R}.
Arguments host_executables_by_name {R}.

Definition policy_empty {R} : Policy R := mkPolicy ∅ [] ∅.

(** ** Editing *)

Definition add_prefix_rule (self : Policy PrefixRule) (prefix : list str) (d : Decision) :
    result (Policy PrefixRule) Error :=
  match prefix with
  | [] => Err (InvalidPattern (lit "prefix cannot be empty"))
  | first_token :: rest =>
      let rule := mkRule (mkPattern first_token (Single <$> rest)) d None in
      Ok (mkPolicy (mm_insert first_token rule self.(rules_by_program))
            self.(network_rules) self.(host_executables_by_name))
  end.

Definition add_network_rule {R} (self : Policy R) (host : str) (protocol : NetworkRuleProtocol)
    (d : Decision) (justification : option str) : result (Policy R) Error :=
  let? host := normalize_network_rule_host host in
  if is_some_and (fun raw => trim raw == []) justification
  then Err (InvalidRule (lit "justification cannot be empty"))
  else Ok (mkPolicy self.(rules_by_program)
             (self.(network_rules) ++ [mkNetworkRule host protocol d justification])
             self.(host_executables_by_name)).

Definition set_host_executable_paths {R} (self : Policy R) (name : str)
    (paths : list AbsolutePathBuf) : Policy R :=
  mkPolicy self.(rules_by_program) self.(network_rules)
    (<[name := paths]> self.(host_executables_by_name)).

Definition insert_all {R} (m : gmap str (list R)) (kvs : list (str * list R)) : gmap str (list R) :=
  foldl (fun m kv => foldl (fun m r => mm_insert kv.1 r m) m kv.2) m kvs.

Definition merge_overlay {R} (self overlay : Policy R) : Policy R :=
  mkPolicy
    (insert_all self.(rules_by_program) (map_to_list overlay.(rules_by_program)))
    (self.(network_rules) ++ overlay.(network_rules))
    (foldl (fun m kv => <[kv.1 := kv.2]> m) self.(host_executables_by_name)
       (map_to_list overlay.(host_executables_by_name))).

(** ** Network domains *)

Definition upsert_domain (entries : list str) (host : str) : list str :=
  retain (fun entry => entry != host) entries ++ [host].

Definition compile_step (acc : list str * list str) (rule : NetworkRule) : list str * list str :=
  let '(allowed, denied) := acc in
  match rule.(nr_decision) with
  | Allow =>
      (upsert_domain allowed rule.(nr_host),
       retain (fun entry => entry != rule.(nr_host)) denied)
  | Forbidden =>
      (retain (fun entry => entry != rule.(nr_host)) allowed,
       upsert_domain denied rule.(nr_host))
  | Prompt => (allowed, denied)
  end.

Definition compiled_network_domains {R} (self : Policy R) : list str * list str :=
  foldl compile_step ([], []) self.(network_rules).

(** ** Evaluation *)

Record Evaluation : Set := mkEvaluation {
  ev_decision : Decision;
  matched_rules : list RuleMatch;
}.

Definition is_match (self : Evaluation) : bool :=
  existsb (fun m => match m with HeuristicsRuleMatch _ _ => false | _ => true end)
    self.(matched_rules).

(** [Iterator::max] of the decisions; [None] is the panic of [expect]. *)
Definition max_decision (ms : list RuleMatch) : option Decision :=
  match rm_decision <$> ms with
  | [] => None
  | d :: ds => Some (foldl decision_max d ds)
  end.

Definition from_matches (ms : list RuleMatch) : option Evaluation :=
  (fun d => mkEvaluation d ms) <$> max_decision ms.

Section matching.
Context {R : Type} `{Rule R}.
Context (env : Env).
Implicit Types (self : Policy R) (cmd : list str).

(** [Option::filter] with [!v.is_empty()]. *)
Definition non_empty {A} (o : option (list A)) : option (list A) :=
  match o with Some (x :: l) => Some (x :: l) | _ => None end.

Definition match_exact_rules self cmd : option (list RuleMatch) :=
  match cmd with
  | [] => None
  | first :: _ =>
      Some (match self.(rules_by_program) !! first with
            | Some rules => omap (fun r : R => rule_matches r cmd) rules
            | None => []
            end)
  end.

Definition match_host_executable_rules self cmd : list RuleMatch :=
  match cmd with
  | [] => []
  | first :: args =>
      match from_absolute_path env first with
      | None => []
      | Some program =>
          match executable_path_lookup_key program with
          | None => []
          | Some basename =>
              match self.(rules_by_program) !! basename with
              | None => []
              | Some rules =>
                  if is_some_and (fun paths => negb (existsb (fun p => p == program) paths))
                       (self.(host_executables_by_name) !! basename)
                  then []
                  else with_resolved_program program
                       <$> omap (fun r : R => rule_matches r (basename :: args)) rules
              end
          end
      end
  end.

Definition matches_for_command_with_options self cmd
    (heuristics_fallback : option (list str -> Decision)) (options : MatchOptions) :
    list RuleMatch :=
  let matched_rules :=
    default []
      (match non_empty (match_exact_rules self cmd) with
       | Some ms => Some ms
       | None => if options.(resolve_host_executables)
                 then non_empty (Some (match_host_executable_rules self cmd)) else None
       end) in
  match matched_rules, heuristics_fallback with
  | [], Some fallback => [HeuristicsRuleMatch cmd (fallback cmd)]
  | _, _ => matched_rules
  end.

Definition matches_for_command self cmd heuristics_fallback : list RuleMatch :=
  matches_for_command_with_options self cmd heuristics_fallback default_options.

Definition check_with_options self cmd (fallback : list str -> Decision) options :
    option Evaluation :=
  from_matches (matches_for_command_with_options self cmd (Some fallback) options).

Definition check self cmd fallback : option Evaluation :=
  check_with_options self cmd fallback default_options.

Definition check_multiple_with_options self (commands : list (list str))
    (fallback : list str -> Decision) options : option Evaluation :=
  from_matches
    (concat ((fun command =>
                matches_for_command_with_options self command (Some fallback) options)
             <$> commands)).

Definition check_multiple self commands fallback : option Evaluation :=
  check_multiple_with_options self commands fallback default_options.
End matching.

(** ** Allowed prefixes *)

Definition render_pattern_token (token : PatternToken) : str :=
  match token with
  | Single value => value
  | Alts alternatives => lit "[" ++ join (lit "|") alternatives ++ lit "]"
  end.

Definition render_prefix (r : PrefixRule) : list str :=
  r.(pattern).(first) :: (render_pattern_token <$> r.(pattern).(rest)).

Definition prefix_leb : list str -> list str -> bool :=
  lex_leb str_leb (fun a b => a == b).

Definition get_allowed_prefixes {R} `{Rule R} (self : Policy R) : list (list str) :=
  let prefixes :=
    omap (fun r => match as_prefix_rule r with
                   | Some pr => if pr.(decision) == Allow then Some (render_prefix pr) else None
                   | None => None
                   end)
      (concat (map_to_list self.(rules_by_program)).*2) in
  dedup (sort_by prefix_leb prefixes).

(** * Evaluations *)

Lemma foldl_max_spec ds d0 d :
  foldl decision_max d0 ds = d <-> d ∈ d0 :: ds /\ Forall (fun e => e ⊑d d) (d0 :: ds).
Proof.
  assert (forall ds d0, foldl decision_max d0 ds ∈ d0 :: ds
          /\ Forall (fun e => e ⊑d foldl decision_max d0 ds) (d0 :: ds)) as Hmax.
  { clear. induction ds as [|e ds IH]; intros d0; cbn.
    - split; [set_solver|]. by apply Forall_singleton.
    - destruct (IH (decision_max d0 e)) as [Hin [[Hd He]%decision_max_le Hds]%Forall_cons].
      split; [|by repeat constructor].
      destruct (decision_max_either d0 e) as [E|E]; rewrite E in Hin |- *; set_solver. }
  destruct (Hmax ds d0) as [Hin Hle]. split; [by intros <-|].
  intros [Hin' Hle']. rewrite Forall_forall in Hle, Hle'. apply (anti_symm decision_le); auto.
Qed.

(** The strictest decision among the matches. *)
Definition strictest (d : Decision) (ms : list RuleMatch) : Prop :=
  (exists m, m ∈ ms /\ rm_decision m = d) /\ (forall m, m ∈ ms -> rm_decision m ⊑d d).

Lemma max_decision_spec ms d : max_decision ms = Some d <-> strictest d ms.
Proof.
  unfold max_decision, strictest. destruct ms as [|m ms]; cbn.
  { split; [done|]. intros [(m & []%not_elem_of_nil & _) _]. }
  rewrite (inj_iff Some), foldl_max_spec.
  change (rm_decision m :: (rm_decision <$> ms)) with (rm_decision <$> (m :: ms)).
  rewrite list_elem_of_fmap, Forall_fmap, Forall_forall. naive_solver.
Qed.

Lemma max_decision_None ms : max_decision ms = None <-> ms = [].
Proof. by destruct ms. Qed.

Lemma from_matches_spec ms ev :
  from_matches ms = Some ev <-> matched_rules ev = ms /\ strictest (ev_decision ev) ms.
Proof.
  unfold from_matches. rewrite fmap_Some. setoid_rewrite max_decision_spec.
  destruct ev. naive_solver.
Qed.

Lemma from_matches_None ms : from_matches ms = None <-> ms = [].
Proof. unfold from_matches. by rewrite fmap_None, max_decision_None. Qed.

Lemma strictest_allow ms : strictest Allow ms -> forall m, m ∈ ms -> rm_decision m = Allow.
Proof. intros [_ H] m Hm. by apply decision_le_allow, H. Qed.

Section evaluation.
Context {R : Type} `{Rule R}.
Context (env : Env) (fallback : list str -> Decision).
Implicit Types (p : Policy R) (cmd : list str) (options : MatchOptions).

Lemma matches_nonempty p cmd options :
  matches_for_command_with_options env p cmd (Some fallback) options <> [].
Proof. unfold matches_for_command_with_options. by case_match. Qed.

Lemma check_total p cmd options : exists ev,
  check_with_options env p cmd fallback options = Some ev
  /\ strictest (ev_decision ev) (matches_for_command_with_options env p cmd (Some fallback) options).
Proof.
  unfold check_with_options. destruct (from_matches _) as [ev|] eqn:E.
  - apply from_matches_spec in E as [_ E]. eauto.
  - by apply from_matches_None, matches_nonempty in E.
Qed.

Lemma strictest_extremes ms d :
  strictest d ms ->
  (d = Allow <-> forall m, m ∈ ms -> rm_decision m = Allow)
  /\ (d = Forbidden <-> exists m, m ∈ ms /\ rm_decision m = Forbidden).
Proof.
  intros [(m & Hm & <-) Hle]. split; split.
  - intros E m' Hm'. apply decision_le_allow. rewrite <- E. auto.
  - auto.
  - eauto.
  - intros (m' & Hm' & E). apply decision_forbidden_le. rewrite <- E. auto.
Qed.

(** C5: checking several commands at once is as strict as the strictest of
    them: the only failure is the panic on an empty list of commands, and
    otherwise the decision is [Allow] exactly when every match of every command
    allows, [Forbidden] exactly when some match of some command forbids, and it
    is bounded below by the decision each command gets on its own. *)
Theorem check_multiple_strictest p commands options :
  (check_multiple_with_options env p commands fallback options = None <-> commands = [])
  /\ forall ev, check_multiple_with_options env p commands fallback options = Some ev ->
    (ev_decision ev = Allow <-> forall cmd m, cmd ∈ commands ->
       m ∈ matches_for_command_with_options env p cmd (Some fallback) options ->
       rm_decision m = Allow)
    /\ (ev_decision ev = Forbidden <-> exists cmd m, cmd ∈ commands /\
       m ∈ matches_for_command_with_options env p cmd (Some fallback) options /\
       rm_decision m = Forbidden)
    /\ (forall cmd, cmd ∈ commands -> exists ev',
       check_with_options env p cmd fallback options = Some ev'
       /\ ev_decision ev' ⊑d ev_decision ev)
    /\ (exists cmd ev', cmd ∈ commands /\
       check_with_options env p cmd fallback options = Some ev'
       /\ ev_decision ev' = ev_decision ev).
Proof.
  unfold check_multiple_with_options. split.
  { rewrite from_matches_None. destruct commands as [|cmd commands]; [done|]. cbn.
    split; [|done]. intros [E _]%app_nil. by apply matches_nonempty in E. }
  intros ev [_ Hs]%from_matches_spec. destruct (strictest_extremes _ _ Hs) as [HA HF].
  setoid_rewrite elem_of_concat_fmap in HA. setoid_rewrite elem_of_concat_fmap in HF.
  split; [rewrite HA; naive_solver|]. split; [rewrite HF; naive_solver|].
  destruct Hs as [(m & Hm & Em) Hle]. setoid_rewrite elem_of_concat_fmap in Hle.
  assert (forall cmd, cmd ∈ commands -> exists ev',
       check_with_options env p cmd fallback options = Some ev'
       /\ ev_decision ev' ⊑d ev_decision ev) as Heach.
  { intros cmd Hcmd. destruct (check_total p cmd options) as (ev' & E & (m' & Hm' & Em') & _).
    exists ev'. split; [done|]. rewrite <- Em'. apply Hle. eauto. }
  split; [done|]. apply elem_of_concat_fmap in Hm as (cmd & Hcmd & Hm).
  destruct (Heach cmd Hcmd) as (ev' & E & Hle'). exists cmd, ev'. split; [done|]. split; [done|].
  apply (anti_symm decision_le); [done|]. rewrite <- Em.
  apply from_matches_spec in E as [_ [_ E]]. auto.
Qed.
End evaluation.

Definition w_env : Env := mkEnv None (Some [RootDir; Normal (lit "work")]).
Definition w_rule (prog : string) (rest : list PatternToken) (d : Decision) : PrefixRule :=
  mkRule (mkPattern (lit prog) rest) d None.
Definition w_policy : Policy PrefixRule :=
  mkPolicy {[ lit "git" := [w_rule "git" [] Allow; w_rule "git" [Alts [lit "push"; lit "fetch"]] Prompt];
              lit "rm" := [w_rule "rm" [] Forbidden] ]} [] ∅.
Definition w_cmd (l : list string) : list str := lit <$> l.

Lemma check_multiple_strictest_witness :
  exists ev, check_multiple_with_options w_env w_policy
               [w_cmd ["git"; "push"]; w_cmd ["ls"]] (fun _ => Allow) default_options = Some ev
  /\ ev_decision ev = Prompt
  /\ exists ev', check_with_options w_env w_policy (w_cmd ["ls"]) (fun _ => Allow) default_options
       = Some ev' /\ ev_decision ev' ⊑d ev_decision ev.
Proof.
  eexists. split; [vm_compute; reflexivity|]. split; [done|].
  refine (proj1 (proj2 (proj2 (proj2 (check_multiple_strictest w_env (fun _ => Allow) w_policy
    [w_cmd ["git"; "push"]; w_cmd ["ls"]] default_options) _ _))) (w_cmd ["ls"]) _).
  - vm_compute. reflexivity.
  - set_solver.
Defined.

(** * Rules by program *)

(** The key of a rule is its program and no bucket is empty. *)
Definition rules_ok {R} `{Rule R} (m : gmap str (list R)) : Prop :=
  map_Forall (fun k rules => rules <> [] /\ Forall (fun r => program r = k) rules) m.

Lemma mm_insert_lookup {R} (k k' : str) (r : R) m :
  mm_insert k r m !! k' = if k == k' then Some (default [] (m !! k) ++ [r]) else m !! k'.
Proof.
  unfold mm_insert. case_bool_decide as E; [subst; by rewrite lookup_insert_eq|].
  by rewrite lookup_insert_ne.
Qed.

Lemma mm_insert_ok {R} `{Rule R} (r : R) (m : gmap str (list R)) :
  rules_ok m -> rules_ok (mm_insert (program r) r m).
Proof.
  intros Hm k rules. rewrite mm_insert_lookup. case_bool_decide as E; [|apply Hm].
  intros [= <-]. split; [by destruct (default [] _)|]. apply Forall_app. split; [|by repeat constructor].
  destruct (m !! program r) eqn:El; cbn; [|constructor]. rewrite <- E. by apply (Hm _ _ El).
Qed.

Lemma insert_bucket_lookup {R} (k k' : str) (rs : list R) m :
  default [] (foldl (fun m r => mm_insert k r m) m rs !! k')
  = default [] (m !! k') ++ (if k == k' then rs else []).
Proof.
  revert m. induction rs as [|r rs IH]; intros m; cbn.
  { case_match; by rewrite app_nil_r. }
  rewrite IH, mm_insert_lookup. case_bool_decide as E; [|done].
  subst k'. cbn. by rewrite <- app_assoc.
Qed.

Lemma insert_all_lookup {R} (m : gmap str (list R)) kvs k :
  NoDup kvs.*1 ->
  default [] (insert_all m kvs !! k)
  = default [] (m !! k) ++ default [] ((list_to_map kvs : gmap str (list R)) !! k).
Proof.
  unfold insert_all. revert m. induction kvs as [|[k' rs] kvs IH]; intros m Hnd.
  { cbn. by rewrite lookup_empty, app_nil_r. }
  apply NoDup_cons in Hnd as [Hk Hnd]. rewrite list_to_map_cons. cbn [foldl fst snd].
  rewrite IH by done. rewrite insert_bucket_lookup.
  case_bool_decide as E.
  - subst k'. rewrite lookup_insert_eq, (not_elem_of_list_to_map_1 kvs k Hk). cbn.
    by rewrite app_nil_r.
  - rewrite lookup_insert_ne by done. by rewrite app_nil_r.
Qed.

Lemma merge_overlay_rules {R} (base overlay : Policy R) k :
  default [] (rules_by_program (merge_overlay base overlay) !! k)
  = default [] (rules_by_program base !! k) ++ default [] (rules_by_program overlay !! k).
Proof.
  cbn. rewrite insert_all_lookup by apply NoDup_fst_map_to_list. by rewrite list_to_map_to_list.
Qed.

Lemma merge_overlay_hosts {R} (base overlay : Policy R) :
  host_executables_by_name (merge_overlay base overlay)
  = host_executables_by_name overlay ∪ host_executables_by_name base.
Proof.
  cbn. rewrite <- (list_to_map_to_list (host_executables_by_name overlay)) at 2.
  pose proof (NoDup_fst_map_to_list (host_executables_by_name overlay)) as Hnd. revert Hnd.
  generalize (host_executables_by_name base) as m.
  induction (map_to_list (host_executables_by_name overlay)) as [|[k v] l IH]; intros m Hnd; cbn.
  { by rewrite (left_id_L ∅ (∪)). }
  apply NoDup_cons in Hnd as [Hk Hnd]. rewrite IH by done. cbn.
  apply map_eq. intros k'. rewrite !lookup_union. destruct (decide (k = k')) as [<-|Hne].
  - rewrite !lookup_insert_eq, (not_elem_of_list_to_map_1 l k Hk). by destruct (m !! k).
  - by rewrite !lookup_insert_ne.
Qed.

(** The exact matches of a command, in rule order. *)
Definition exact_matches {R} `{Rule R} (p : Policy R) (cmd : list str) : list RuleMatch :=
  default [] (match_exact_rules p cmd).

Lemma exact_matches_cons {R} `{Rule R} (p : Policy R) c cmd :
  exact_matches p (c :: cmd)
  = omap (fun r : R => rule_matches r (c :: cmd)) (default [] (rules_by_program p !! c)).
Proof. unfold exact_matches, match_exact_rules. cbn. by case_match. Qed.

Lemma exact_matches_merge {R} `{Rule R} (base overlay : Policy R) cmd :
  exact_matches (merge_overlay base overlay) cmd = exact_matches base cmd ++ exact_matches overlay cmd.
Proof.
  destruct cmd as [|c cmd]; [done|]. rewrite !exact_matches_cons, merge_overlay_rules.
  apply omap_app.
Qed.

Lemma matches_exact {R} `{Rule R} env (p : Policy R) cmd fb options :
  exact_matches p cmd <> [] ->
  matches_for_command_with_options env p cmd fb options = exact_matches p cmd.
Proof.
  unfold exact_matches, matches_for_command_with_options.
  destruct (match_exact_rules p cmd) as [[|m ms]|]; done.
Qed.

Lemma strictest_app d ms ms' d' :
  strictest d ms -> strictest d' (ms ++ ms') -> d ⊑d d'.
Proof. intros [(m & Hm & <-) _] [_ H]. apply H. set_solver. Qed.

(** Laying an overlay policy over a base never weakens a decision the base
    made by a rule: for a command some base rule matches, the merged policy
    reports the base's matches followed by the overlay's, and its decision is
    at least as strict. *)
Theorem merge_overlay_never_weakens {R} `{Rule R} env (base overlay : Policy R) cmd fallback options ev :
  exact_matches base cmd <> [] ->
  check_with_options env base cmd fallback options = Some ev ->
  exists ev', check_with_options env (merge_overlay base overlay) cmd fallback options = Some ev'
    /\ matched_rules ev' = matched_rules ev ++ exact_matches overlay cmd
    /\ ev_decision ev ⊑d ev_decision ev'.
Proof.
  intros Hne [Hev Hs]%from_matches_spec. rewrite matches_exact in Hs, Hev by done.
  destruct (check_total env fallback (merge_overlay base overlay) cmd options) as (ev' & E & Hs').
  exists ev'. split; [done|]. apply from_matches_spec in E as [Em _].
  rewrite matches_exact, exact_matches_merge in Em, Hs'
    by (rewrite exact_matches_merge; by destruct (exact_matches base cmd)).
  rewrite Hev, Em. split; [done|]. eauto using strictest_app.
Qed.

Lemma merge_overlay_never_weakens_witness :
  exists ev', check_with_options w_env
    (merge_overlay w_policy (mkPolicy {[ lit "rm" := [w_rule "rm" [] Allow] ]} [] ∅))
    (w_cmd ["rm"; "-i"; "x"]) (fun _ => Allow) default_options = Some ev'
  /\ Forbidden ⊑d ev_decision ev'.
Proof.
  destruct (merge_overlay_never_weakens w_env w_policy
    (mkPolicy {[ lit "rm" := [w_rule "rm" [] Allow] ]} [] ∅) (w_cmd ["rm"; "-i"; "x"])
    (fun _ => Allow) default_options
    (mkEvaluation Forbidden [PrefixRuleMatch (w_cmd ["rm"]) Forbidden None None]))
    as (ev' & E & _ & Hle); [vm_compute; discriminate|vm_compute; reflexivity|]. exists ev'. exact (conj E Hle).
Defined.

(** ** Prefix rules *)

Definition policy_ok (p : Policy PrefixRule) : Prop := rules_ok (rules_by_program p).

Definition policy_rule (p : Policy PrefixRule) (r : PrefixRule) : Prop :=
  exists k rules, rules_by_program p !! k = Some rules /\ r ∈ rules.

Definition prefix_match (r : PrefixRule) (cmd : list str) : RuleMatch :=
  PrefixRuleMatch (take (1 + length r.(pattern).(rest)) cmd) r.(decision) None r.(justification).

Lemma prefix_rule_matches_spec r cmd m :
  prefix_rule_matches r cmd = Some m <-> pattern_covers r.(pattern) cmd /\ m = prefix_match r cmd.
Proof.
  unfold prefix_rule_matches. rewrite fmap_Some. setoid_rewrite matches_prefix_iff. naive_solver.
Qed.

Lemma exact_matches_spec p cmd m :
  policy_ok p ->
  m ∈ exact_matches p cmd <->
  exists r, policy_rule p r /\ pattern_covers r.(pattern) cmd /\ m = prefix_match r cmd.
Proof.
  intros Hok. destruct cmd as [|c cmd].
  { cbn. split; [by intros ?%not_elem_of_nil|]. by intros (r & _ & (args & more & ? & _) & _). }
  rewrite exact_matches_cons, list_elem_of_omap. cbn [rule_matches PrefixRule_Rule].
  setoid_rewrite prefix_rule_matches_spec. unfold policy_rule. split.
  - intros (r & Hr & Hc & ->). exists r. split; [|done].
    destruct (rules_by_program p !! c) eqn:E; [|by apply not_elem_of_nil in Hr]. eauto.
  - intros (r & (k & rules & Hk & Hr) & Hc & ->). exists r. split; [|done].
    destruct (Hok k rules Hk) as [_ Hprog]. rewrite Forall_forall in Hprog.
    specialize (Hprog r Hr). destruct Hc as (args & more & [= -> _] & _).
    cbn in Hprog. by rewrite Hprog, Hk.
Qed.

Lemma rule_decides env p cmd fallback options r :
  policy_ok p -> policy_rule p r -> pattern_covers r.(pattern) cmd ->
  exists ev, check_with_options env p cmd fallback options = Some ev
    /\ r.(decision) ⊑d ev_decision ev.
Proof.
  intros Hok Hr Hc.
  destruct (check_total env fallback p cmd options) as (ev & E & _ & Hle). exists ev. split; [done|].
  assert (prefix_match r cmd ∈ exact_matches p cmd) as Hin by (apply exact_matches_spec; eauto).
  rewrite matches_exact in Hle by (by intros E'; rewrite E' in Hin; apply not_elem_of_nil in Hin).
  apply (Hle _ Hin).
Qed.

(** The decision for a command some prefix rule covers is the strictest
    decision among exactly the rules that cover it (the command starts with the
    rule's program and with one alternative of each further token); neither the
    heuristics fallback nor host-executable resolution is consulted. *)
Theorem check_decided_by_rules env p cmd fallback options :
  policy_ok p ->
  (exists r, policy_rule p r /\ pattern_covers r.(pattern) cmd) ->
  exists ev, check_with_options env p cmd fallback options = Some ev
    /\ is_match ev = true
    /\ (forall m, m ∈ matched_rules ev <->
          exists r, policy_rule p r /\ pattern_covers r.(pattern) cmd /\ m = prefix_match r cmd)
    /\ (exists r, policy_rule p r /\ pattern_covers r.(pattern) cmd /\ r.(decision) = ev_decision ev)
    /\ (forall r, policy_rule p r -> pattern_covers r.(pattern) cmd -> r.(decision) ⊑d ev_decision ev).
Proof.
  intros Hok (r & Hr & Hc).
  assert (prefix_match r cmd ∈ exact_matches p cmd) as Hin by (apply exact_matches_spec; eauto).
  assert (exact_matches p cmd <> []) as Hne by (by intros E; rewrite E in Hin; apply not_elem_of_nil in Hin).
  destruct (check_total env fallback p cmd options) as (ev & E & Hmax & Hle).
  rewrite matches_exact in Hmax, Hle by done. exists ev. split; [done|].
  apply from_matches_spec in E as [Em _]. rewrite matches_exact in Em by done. rewrite Em.
  setoid_rewrite exact_matches_spec in Hmax; [|done].
  assert (forall r, policy_rule p r -> pattern_covers r.(pattern) cmd -> r.(decision) ⊑d ev_decision ev).
  { intros r' Hr' Hc'. apply (Hle (prefix_match r' cmd)), exact_matches_spec; eauto. }
  repeat split; try done; try (apply exact_matches_spec; done).
  - unfold is_match. rewrite Em. apply existsb_exists. exists (prefix_match r cmd).
    split; [by apply list_elem_of_In|done].
  - destruct Hmax as (m & (r' & ? & ? & ->) & Hd). exists r'. done.
Qed.

Lemma w_policy_ok : policy_ok w_policy.
Proof.
  unfold policy_ok, w_policy, rules_ok. cbn [rules_by_program].
  apply map_Forall_insert_2; [|apply map_Forall_singleton]; (split; [done|]); by repeat constructor.
Qed.

Lemma check_decided_by_rules_witness :
  exists ev, check_with_options w_env w_policy (w_cmd ["git"; "push"; "origin"]) (fun _ => Allow)
    default_options = Some ev /\ Prompt ⊑d ev_decision ev.
Proof.
  set (r := w_rule "git" [Alts [lit "push"; lit "fetch"]] Prompt).
  assert (policy_rule w_policy r) as Hr.
  { exists (lit "git"), [w_rule "git" [] Allow; r]. split; [vm_compute; reflexivity|set_solver]. }
  assert (pattern_covers r.(pattern) (w_cmd ["git"; "push"; "origin"])) as Hc.
  { exists [lit "push"], [lit "origin"]. split; [done|]. repeat constructor; set_solver. }
  destruct (check_decided_by_rules w_env w_policy (w_cmd ["git"; "push"; "origin"]) (fun _ => Allow)
    default_options w_policy_ok) as (ev & E & _ & _ & _ & Hle); [by exists r|].
  exists ev. split; [exact E|exact (Hle r Hr Hc)].
Defined.

(** ** Adding rules *)

Lemma policy_rule_mm_insert p k r0 r nr he :
  policy_rule (mkPolicy (mm_insert k r0 (rules_by_program p)) nr he) r <-> policy_rule p r \/ r = r0.
Proof.
  unfold policy_rule. cbn. split.
  - intros (k' & rules & Hk & Hr). rewrite mm_insert_lookup in Hk. case_bool_decide; [|eauto].
    simplify_eq. destruct (rules_by_program p !! k') eqn:E; cbn in Hr; [|set_solver].
    apply elem_of_app in Hr as [Hr|Hr]; [eauto|set_solver].
  - intros [(k' & rules & Hk & Hr)| ->].
    + exists k', (if k == k' then rules ++ [r0] else rules). rewrite mm_insert_lookup.
      case_bool_decide; [subst; rewrite Hk; set_solver|done].
    + exists k. eexists. rewrite mm_insert_lookup, bool_decide_eq_true_2 by done.
      split; [done|]. set_solver.
Qed.

Lemma covers_singles prog args cmd :
  pattern_covers (mkPattern prog (Single <$> args)) cmd <-> (prog :: args) `prefix_of` cmd.
Proof.
  unfold pattern_covers. cbn. split.
  - intros (args' & more & -> & H). assert (args' = args) as ->.
    { revert args' H. induction args; intros args' H; inversion H; subst; [done|].
      f_equal; [set_solver|auto]. }
    exists more. done.
  - intros [more ->]. exists args, more. split; [done|].
    induction args; constructor; [set_solver|done].
Qed.

(** [add_prefix_rule] fails exactly on the empty prefix; otherwise it keeps
    the policy well formed, adds one rule and loses none, and from then on every
    command that starts with the prefix is decided by the rules, at least as
    strictly as the added decision, while a rule's reach is exactly the commands
    its prefix begins. *)
Theorem add_prefix_rule_effect env p prefix d fallback options :
  policy_ok p ->
  (is_ok (add_prefix_rule p prefix d) = false <-> prefix = [])
  /\ forall p', add_prefix_rule p prefix d = Ok p' ->
     policy_ok p'
     /\ (exists r0, (forall r, policy_rule p' r <-> policy_rule p r \/ r = r0)
          /\ r0.(decision) = d
          /\ forall cmd, pattern_covers r0.(pattern) cmd <-> prefix `prefix_of` cmd)
     /\ (forall cmd, prefix `prefix_of` cmd -> exists ev,
          check_with_options env p' cmd fallback options = Some ev /\ d ⊑d ev_decision ev).
Proof.
  intros Hok. split; [by destruct prefix|]. destruct prefix as [|c args]; [done|]. cbn.
  intros p' [= <-]. set (r0 := mkRule (mkPattern c (Single <$> args)) d None).
  set (p' := mkPolicy _ _ _).
  assert (policy_ok p') as Hok' by exact (mm_insert_ok r0 _ Hok).
  assert (forall r, policy_rule p' r <-> policy_rule p r \/ r = r0) as Hrules
    by (intros r; apply policy_rule_mm_insert).
  assert (forall cmd, pattern_covers r0.(pattern) cmd <-> (c :: args) `prefix_of` cmd) as Hcov
    by (intros cmd; apply covers_singles).
  split; [done|]. split; [by exists r0|]. intros cmd Hcmd.
  destruct (rule_decides env p' cmd fallback options r0) as (ev & E & Hle); eauto.
  { apply Hrules. auto. } { by apply Hcov. }
Qed.

Lemma add_prefix_rule_effect_witness :
  exists p' ev, add_prefix_rule w_policy (w_cmd ["cargo"; "test"]) Allow = Ok p'
  /\ check_with_options w_env p' (w_cmd ["cargo"; "test"; "-q"]) (fun _ => Forbidden) default_options
     = Some ev /\ Allow ⊑d ev_decision ev.
Proof.
  pose proof (proj2 (add_prefix_rule_effect w_env w_policy (w_cmd ["cargo"; "test"]) Allow
    (fun _ => Forbidden) default_options w_policy_ok)) as H.
  destruct (add_prefix_rule w_policy (w_cmd ["cargo"; "test"]) Allow) as [p'|] eqn:E; [|discriminate E].
  destruct (H p' eq_refl) as (_ & _ & H3). destruct (H3 (w_cmd ["cargo"; "test"; "-q"])) as (ev & Hev).
  { by exists (w_cmd ["-q"]). }
  exists p', ev. exact (conj eq_refl Hev).
Defined.

(** * Network domains *)

(** The last rule for a host that allows or denies. *)
Fixpoint last_decisive (host : str) (rules : list NetworkRule) : option Decision :=
  match rules with
  | [] => None
  | r :: rules =>
      match last_decisive host rules with
      | Some d => Some d
      | None => if (r.(nr_host) == host) && (r.(nr_decision) != Prompt)
                then Some r.(nr_decision) else None
      end
  end.

Definition domains_inv (rules : list NetworkRule) (acc : list str * list str) : Prop :=
  (forall h, h ∈ acc.1 <-> last_decisive h rules = Some Allow)
  /\ (forall h, h ∈ acc.2 <-> last_decisive h rules = Some Forbidden)
  /\ NoDup acc.1 /\ NoDup acc.2.

Lemma last_decisive_snoc h rules r :
  last_decisive h (rules ++ [r])
  = if (r.(nr_host) == h) && (r.(nr_decision) != Prompt) then Some r.(nr_decision)
    else last_decisive h rules.
Proof.
  induction rules as [|r' rules IH]; cbn; [by destruct (_ && _)|].
  rewrite IH. by destruct (_ && _).
Qed.

Lemma elem_of_upsert h entries host : h ∈ upsert_domain entries host <-> h = host \/ h ∈ entries.
Proof.
  unfold upsert_domain. rewrite elem_of_app, elem_of_retain, negb_true_iff, bool_decide_eq_false.
  destruct (decide (h = host)); set_solver.
Qed.

Lemma NoDup_upsert entries host : NoDup entries -> NoDup (upsert_domain entries host).
Proof.
  intros H. unfold upsert_domain. apply NoDup_app. split; [by apply NoDup_retain|].
  split; [|apply NoDup_singleton]. intros h Hh%elem_of_retain. destruct Hh as [Hh _].
  to_props. set_solver.
Qed.

Lemma compile_step_inv rules acc r :
  domains_inv rules acc -> domains_inv (rules ++ [r]) (compile_step acc r).
Proof.
  destruct acc as [allowed denied]. intros (Ha & Hd & Na & Nd). cbn in *.
  unfold compile_step, domains_inv. setoid_rewrite last_decisive_snoc.
  destruct (nr_decision r) eqn:E; cbn; rewrite ?bool_decide_eq_true_2, ?bool_decide_eq_false_2 by done;
    (split; [|split; [|split]]); auto using NoDup_upsert, NoDup_retain; intros h;
    rewrite ?elem_of_upsert, ?elem_of_retain, ?negb_true_iff, ?bool_decide_eq_false, ?Ha, ?Hd;
    case_bool_decide; cbn; naive_solver congruence.
Qed.

(** The compiled domain lists hold, without repeats, exactly the hosts whose
    last non-prompting network rule allows them and exactly those whose last
    one denies them, so no host is on both lists and later rules override
    earlier ones. *)
Theorem compiled_domains_last_rule_wins {R} (p : Policy R) :
  let '(allowed, denied) := compiled_network_domains p in
  (forall h, h ∈ allowed <-> last_decisive h (network_rules p) = Some Allow)
  /\ (forall h, h ∈ denied <-> last_decisive h (network_rules p) = Some Forbidden)
  /\ NoDup allowed /\ NoDup denied /\ (forall h, h ∈ allowed -> h ∉ denied).
Proof.
  unfold compiled_network_domains.
  assert (domains_inv (network_rules p) (foldl compile_step ([], []) (network_rules p))) as H.
  { induction (network_rules p) as [|r rules IH] using rev_ind.
    - split; [|split; [|split]]; try constructor; try done; try by intros ?%not_elem_of_nil.
    - rewrite foldl_snoc. by apply compile_step_inv. }
  destruct (foldl _ _ _) as [allowed denied]. destruct H as (Ha & Hd & Na & Nd). cbn in *.
  repeat split; try done; try (by apply Ha); try (by apply Hd).
  intros h Hh Hh'. apply Ha in Hh. apply Hd in Hh'. congruence.
Qed.

(** * Host executables *)

(** With host-executable resolution, a command given by path is matched by
    a rule for its base name exactly when the path resolves to an absolute
    program with that base name which, if paths are declared for the name, is
    one of them; the match then carries the resolved program. *)
Theorem host_executable_match_spec env p first args m :
  policy_ok p ->
  m ∈ match_host_executable_rules env p (first :: args) <->
  exists program basename r,
    from_absolute_path env first = Some program
    /\ file_name program = Some basename
    /\ (forall paths, host_executables_by_name p !! basename = Some paths -> program ∈ paths)
    /\ policy_rule p r /\ pattern_covers r.(pattern) (basename :: args)
    /\ m = with_resolved_program program (prefix_match r (basename :: args)).
Proof.
  intros Hok. unfold match_host_executable_rules, executable_path_lookup_key, executable_lookup_key.
  destruct (from_absolute_path env first) as [prog|]; [|set_solver].
  destruct (file_name prog) as [base|] eqn:Ef; cbn [fmap option_fmap option_map]; [|naive_solver set_solver].
  assert (forall r, policy_rule p r -> pattern_covers r.(pattern) (base :: args) ->
    exists rules, rules_by_program p !! base = Some rules /\ r ∈ rules) as Hkey.
  { intros r (k & rules & Hk & Hr) (args' & more & [= Hb _] & _). exists rules. split; [|done].
    destruct (Hok k rules Hk) as [_ Hprog]. rewrite Forall_forall in Hprog.
    specialize (Hprog r Hr). cbn in Hprog. congruence. }
  destruct (rules_by_program p !! base) as [rules|] eqn:Er; last first.
  { split; [set_solver|]. intros (? & ? & r & [= <-] & Eb & _ & Hr & Hc & _).
    simplify_eq. destruct (Hkey r Hr Hc) as (? & ? & _). congruence. }
  destruct (is_some_and _ _) eqn:Eh.
  - split; [set_solver|]. intros (? & ? & r & [= <-] & Eb & Hpaths & _). simplify_eq.
    destruct (host_executables_by_name p !! base) as [paths|]; [|done]. cbn in Eh. to_props.
    apply existsb_false in Eh. rewrite Forall_forall in Eh.
    specialize (Eh _ (Hpaths paths eq_refl)). by apply bool_decide_eq_false in Eh.
  - rewrite list_elem_of_fmap. setoid_rewrite list_elem_of_omap.
    cbn [rule_matches PrefixRule_Rule]. setoid_rewrite prefix_rule_matches_spec. split.
    + intros (m' & -> & r & Hr & Hc & ->). exists prog, base, r. repeat split; try done.
      * intros paths Hpaths. rewrite Hpaths in Eh. cbn in Eh. to_props.
        apply existsb_exists in Eh as (q & Hq & ?). to_props. subst q. by apply list_elem_of_In.
      * by exists base, rules.
    + intros (? & ? & r & [= <-] & Eb & _ & Hr & Hc & ->). simplify_eq.
      exists (prefix_match r (base :: args)). split; [done|]. exists r.
      destruct (Hkey r Hr Hc) as (? & ? & ?). simplify_eq. done.
Qed.

Definition w_host_policy : Policy PrefixRule :=
  set_host_executable_paths w_policy (lit "git")
    [[RootDir; Normal (lit "usr"); Normal (lit "bin"); Normal (lit "git")]].

Lemma host_executable_match_spec_witness :
  PrefixRuleMatch (w_cmd ["rm"]) Forbidden (Some [RootDir; Normal (lit "bin"); Normal (lit "rm")]) None
    ∈ match_host_executable_rules w_env w_host_policy (w_cmd ["/bin/rm"; "x"]).
Proof.
  apply (host_executable_match_spec w_env w_host_policy (lit "/bin/rm") (w_cmd ["x"])).
  - exact w_policy_ok.
  - exists [RootDir; Normal (lit "bin"); Normal (lit "rm")], (lit "rm"), (w_rule "rm" [] Forbidden).
    split; [vm_compute; reflexivity|]. split; [vm_compute; reflexivity|]. split.
    { intros paths E. vm_compute in E. discriminate E. }
    split. { exists (lit "rm"), [w_rule "rm" [] Forbidden]. split; [vm_compute; reflexivity|set_solver]. }
    split; [exists [], (w_cmd ["x"]); split; [done|constructor]|vm_compute; reflexivity].
Defined.

Lemma absolutize_plain_name names n :
  absolutize_from [CurDir; Normal n] (RootDir :: (Normal <$> names))
  = RootDir :: (Normal <$> names) ++ [Normal n].
Proof.
  unfold absolutize_from, normalize_path.
  change (foldl normalize_step [] _)
    with (foldl normalize_step [RootDir] ((Normal <$> names) ++ [Normal n])).
  by rewrite foldl_app, foldl_normal_names.
Qed.

(** Base-name resolution is not limited to absolute program paths: a path
    relative to the working directory, such as a [./git] of the checked-out
    repository, resolves to an absolute program and is allowed by the rule for
    [git] when no paths are declared for it. *)
Theorem relative_program_takes_basename_rule home cwd fallback :
  path_normal cwd ->
  check_with_options (mkEnv home (Some cwd)) w_policy (w_cmd ["./git"; "status"]) fallback
    (mkOptions true)
  = Some (mkEvaluation Allow
      [PrefixRuleMatch (w_cmd ["git"]) Allow (Some (cwd ++ [Normal (lit "git")])) None]).
Proof.
  intros (names & -> & _). unfold check_with_options, matches_for_command_with_options.
  replace (match_exact_rules w_policy (w_cmd ["./git"; "status"])) with (Some (@nil RuleMatch))
    by (vm_compute; reflexivity).
  cbn [non_empty resolve_host_executables]. unfold match_host_executable_rules, w_cmd.
  cbn [fmap list_fmap].
  replace (from_absolute_path _ (lit "./git"))
    with (Some (RootDir :: (Normal <$> names) ++ [Normal (lit "git")])).
  2: { unfold from_absolute_path, maybe_expand_home_directory. cbn [home_dir].
       replace (strip_prefix [TILDE] (lit "./git")) with (@None str) by (vm_compute; reflexivity).
       replace (components (lit "./git")) with [CurDir; Normal (lit "git")]
         by (vm_compute; reflexivity).
       assert (forall o : option PathBuf, match o with Some _ | _ => [CurDir; Normal (lit "git")] end
         = [CurDir; Normal (lit "git")]) as -> by (by intros []).
       by rewrite <- absolutize_plain_name. }
  unfold executable_path_lookup_key, file_name.
  rewrite app_comm_cons, last_snoc. cbn [fmap option_fmap option_map executable_lookup_key].
  replace (rules_by_program w_policy !! lit "git")
    with (Some [w_rule "git" [] Allow; w_rule "git" [Alts [lit "push"; lit "fetch"]] Prompt])
    by (vm_compute; reflexivity).
  replace (host_executables_by_name w_policy !! lit "git") with (@None (list AbsolutePathBuf))
    by (vm_compute; reflexivity).
  reflexivity.
Qed.

Lemma relative_program_takes_basename_rule_witness :
  ev_decision <$> check_with_options w_env w_policy (w_cmd ["./git"; "status"]) (fun _ => Prompt)
    (mkOptions true) = Some Allow.
Proof.
  unfold w_env.
  rewrite (relative_program_takes_basename_rule None [RootDir; Normal (lit "work")] (fun _ => Prompt)).
  - reflexivity.
  - exists [lit "work"]. split; [done|]. repeat constructor; vm_compute; set_solver.
Defined.

Lemma compiled_domains_last_rule_wins_witness :
  let p : Policy PrefixRule :=
    mkPolicy ∅ [mkNetworkRule (lit "a.com") Https Forbidden None;
                mkNetworkRule (lit "b.com") Http Forbidden None;
                mkNetworkRule (lit "a.com") Https Allow None] ∅ in
  compiled_network_domains p = ([lit "a.com"], [lit "b.com"]) /\ (lit "a.com" ∉ [lit "b.com"]).
Proof.
  intros p. assert (compiled_network_domains p = ([lit "a.com"], [lit "b.com"])) as E
    by (vm_compute; reflexivity).
  split; [exact E|]. pose proof (compiled_domains_last_rule_wins p) as H. rewrite E in H.
  destruct H as (_ & _ & _ & _ & H). apply H. apply list_elem_of_here.
Defined.
