(* ===== verification/PolicyParser.v ===== *)
(** [execpolicy/src/parser.rs] and [amend.rs]: building a policy from a policy
    file, and appending rules to one.

    A policy file is a Starlark module.  Starlark and [shlex] are not part of
    the repository, so their values and functions are the classes [Starlark] and
    [Shlex]; evaluating a module is the sequence of calls it makes to the three
    built-ins, in order, up to the first that fails.  As in the code, what was
    added before a failing call stays in the builder. *)

From stdpp Require Import base list option numbers strings gmap sets.
From Stdlib Require Import NArith Lia.
From S2P Require Import Prelude RustStr AbsolutePath ExecRule ExecPolicy.
Local Open Scope rust_scope.

(** Starlark values as the built-ins see them. *)
Class Starlark (Value : Type) := {
  unpack_str : Value -> option str;
  list_content : Value -> option (list Value);   (** [ListRef::from_value] *)
  get_type : Value -> str;
}.

(** The [shlex] crate, and the [Debug] renderings that only appear in messages. *)
Class Shlex := {
  shlex_split : str -> option (list str);
  try_join : list str -> option str;
  debug_rule : PrefixRule -> str;
  debug_match : RuleMatch -> str;
  io_error : str;
}.

(** * Validation of examples ([rule.rs]) *)

Definition render_example `{Shlex} (example : list str) : str :=
  default (lit "unable to render example") (try_join example).

Definition with_resolution : MatchOptions := mkOptions true.

Section validation.
Context `{Shlex} (env : Env).

Definition example_matches (policy : Policy PrefixRule) (example : list str) : list RuleMatch :=
  matches_for_command_with_options env policy example None with_resolution.

Definition validate_match_examples (policy : Policy PrefixRule) (rules : list PrefixRule)
    (examples : list (list str)) : result unit Error :=
  let unmatched_examples :=
    omap (fun example => match example_matches policy example with
                         | [] => Some (render_example example)
                         | _ => None
                         end) examples in
  match unmatched_examples with
  | [] => Ok tt
  | _ => Err (ExampleDidNotMatch (debug_rule <$> rules) unmatched_examples None)
  end.

Fixpoint validate_not_match_examples (policy : Policy PrefixRule) (examples : list (list str)) :
    result unit Error :=
  match examples with
  | [] => Ok tt
  | example :: examples =>
      match example_matches policy example with
      | rule :: _ => Err (ExampleDidMatch (debug_match rule) (render_example example) None)
      | [] => validate_not_match_examples policy examples
      end
  end.
End validation.

(** * The builder *)

Record PendingExampleValidation : Set := mkPending {
  pv_rules : list PrefixRule;
  pv_matches : list (list str);
  pv_not_matches : list (list str);
  pv_location : option ErrorLocation;
}.

Record PolicyBuilder : Set := mkBuilder {
  b_rules_by_program : gmap str (list PrefixRule);
  b_network_rules : list NetworkRule;
  b_host_executables_by_name : gmap str (list AbsolutePathBuf);
  pending_example_validations : list PendingExampleValidation;
}.

Definition builder_new : PolicyBuilder := mkBuilder ∅ [] ∅ [].

Definition add_rule (self : PolicyBuilder) (rule : PrefixRule) : PolicyBuilder :=
  mkBuilder (mm_insert (program rule) rule self.(b_rules_by_program)) self.(b_network_rules)
    self.(b_host_executables_by_name) self.(pending_example_validations).

Definition builder_add_network_rule (self : PolicyBuilder) (rule : NetworkRule) : PolicyBuilder :=
  mkBuilder self.(b_rules_by_program) (self.(b_network_rules) ++ [rule])
    self.(b_host_executables_by_name) self.(pending_example_validations).

Definition add_host_executable (self : PolicyBuilder) (name : str) (paths : list AbsolutePathBuf) :
    PolicyBuilder :=
  mkBuilder self.(b_rules_by_program) self.(b_network_rules)
    (<[name := paths]> self.(b_host_executables_by_name)) self.(pending_example_validations).

Definition add_pending_example_validation (self : PolicyBuilder) (v : PendingExampleValidation) :
    PolicyBuilder :=
  mkBuilder self.(b_rules_by_program) self.(b_network_rules)
    self.(b_host_executables_by_name) (self.(pending_example_validations) ++ [v]).

Definition build (self : PolicyBuilder) : Policy PrefixRule :=
  mkPolicy self.(b_rules_by_program) self.(b_network_rules) self.(b_host_executables_by_name).

Definition attach_validation_location (error : Error) (location : option ErrorLocation) : Error :=
  match location with
  | Some location => with_location error location
  | None => error
  end.

(** The policy a validation runs against: its own rules and the declared host
    executables. *)
Definition validation_policy (self : PolicyBuilder) (v : PendingExampleValidation) :
    Policy PrefixRule :=
  mkPolicy (foldl (fun m r => mm_insert (program r) r m) ∅ v.(pv_rules)) []
    self.(b_host_executables_by_name).

Fixpoint validate_pending `{Shlex} (env : Env) (self : PolicyBuilder)
    (vs : list PendingExampleValidation) : result unit Error :=
  match vs with
  | [] => Ok tt
  | v :: vs =>
      let policy := validation_policy self v in
      let? _ := map_err (fun e => attach_validation_location e v.(pv_location))
                  (validate_not_match_examples env policy v.(pv_not_matches)) in
      let? _ := map_err (fun e => attach_validation_location e v.(pv_location))
                  (validate_match_examples env policy v.(pv_rules) v.(pv_matches)) in
      validate_pending env self vs
  end.

Definition validate_pending_examples_from `{Shlex} (env : Env) (self : PolicyBuilder) (start : nat) :
    result unit Error :=
  validate_pending env self (drop start self.(pending_example_validations)).

(** * The built-ins *)

Section builtins.
Context {Value : Type} `{Starlark Value} `{Shlex} (env : Env).

Definition expect_string (err : str -> Error) (value : Value) : result str Error :=
  match unpack_str value with
  | Some s => Ok s
  | None => Err (err (get_type value))
  end.

Definition parse_pattern_token (value : Value) : result PatternToken Error :=
  match unpack_str value with
  | Some s => Ok (Single s)
  | None =>
      match list_content value with
      | Some items =>
          let? tokens := collect (expect_string (fun ty =>
            InvalidPattern (lit "pattern alternative must be a string (got " ++ ty ++ lit ")"))) items in
          match tokens with
          | [] => Err (InvalidPattern (lit "pattern alternatives cannot be empty"))
          | [single] => Ok (Single single)
          | _ => Ok (Alts tokens)
          end
      | None =>
          Err (InvalidPattern (lit "pattern element must be a string or list of strings (got "
                               ++ get_type value ++ lit ")"))
      end
  end.

Definition parse_pattern (pattern : list Value) : result (list PatternToken) Error :=
  let? tokens := collect parse_pattern_token pattern in
  match tokens with
  | [] => Err (InvalidPattern (lit "pattern cannot be empty"))
  | _ => Ok tokens
  end.

Definition parse_string_example (raw : str) : result (list str) Error :=
  match shlex_split raw with
  | None => Err (InvalidExample (lit "example string has invalid shell syntax"))
  | Some [] => Err (InvalidExample (lit "example cannot be an empty string"))
  | Some tokens => Ok tokens
  end.

Definition parse_list_example (items : list Value) : result (list str) Error :=
  let? tokens := collect (expect_string (fun ty =>
    InvalidExample (lit "example tokens must be strings (got " ++ ty ++ lit ")"))) items in
  match tokens with
  | [] => Err (InvalidExample (lit "example cannot be an empty list"))
  | _ => Ok tokens
  end.

Definition parse_example (value : Value) : result (list str) Error :=
  match unpack_str value with
  | Some raw => parse_string_example raw
  | None =>
      match list_content value with
      | Some items => parse_list_example items
      | None => Err (InvalidExample (lit "example must be a string or list of strings (got "
                                     ++ get_type value ++ lit ")"))
      end
  end.

Definition parse_examples (examples : list Value) : result (list (list str)) Error :=
  collect parse_example examples.

(** [examples.map(parse_examples).transpose()?.unwrap_or_default()]. *)
Definition optional_examples (examples : option (list Value)) : result (list (list str)) Error :=
  match examples with Some vs => parse_examples vs | None => Ok [] end.

Definition parse_justification (justification : option str) : result (option str) Error :=
  match justification with
  | Some raw => if trim raw == [] then Err (InvalidRule (lit "justification cannot be empty"))
                else Ok (Some raw)
  | None => Ok None
  end.

(** Each built-in returns the builder next to its outcome. *)
Abbreviation outcome := (PolicyBuilder * result unit Error)%type.

Definition lift {A} (b : PolicyBuilder) (r : result A Error) (k : A -> outcome) : outcome :=
  match r with Ok a => k a | Err e => (b, Err e) end.

Definition prefix_rule (b : PolicyBuilder) (pattern : list Value) (decision : option str)
    (match_ not_match : option (list Value)) (justification : option str)
    (location : option ErrorLocation) : outcome :=
  lift b (match decision with Some raw => decision_parse raw | None => Ok Allow end) (fun decision =>
  lift b (parse_justification justification) (fun justification =>
  lift b (parse_pattern pattern) (fun pattern_tokens =>
  lift b (optional_examples match_) (fun matches =>
  lift b (optional_examples not_match) (fun not_matches =>
  match pattern_tokens with
  | [] => (b, Err (InvalidPattern (lit "pattern cannot be empty")))
  | first_token :: rest =>
      let rules := (fun head => mkRule (mkPattern head rest) decision justification)
                   <$> alternatives first_token in
      let b := add_pending_example_validation b (mkPending rules matches not_matches location) in
      (foldl add_rule b rules, Ok tt)
  end))))).

Definition parse_network_rule_decision (raw : str) : result Decision Error :=
  if raw == lit "deny" then Ok Forbidden else decision_parse raw.

Definition network_rule (b : PolicyBuilder) (host protocol decision : str)
    (justification : option str) : outcome :=
  lift b (protocol_parse protocol) (fun protocol =>
  lift b (parse_network_rule_decision decision) (fun decision =>
  lift b (parse_justification justification) (fun justification =>
  lift b (normalize_network_rule_host host) (fun host =>
  (builder_add_network_rule b (mkNetworkRule host protocol decision justification), Ok tt))))).

Definition parse_literal_absolute_path (raw : str) : result AbsolutePathBuf Error :=
  if negb (is_absolute (components raw))
  then Err (InvalidRule (lit "host_executable paths must be absolute (got " ++ raw ++ lit ")"))
  else match from_absolute_path env raw with
       | Some p => Ok p
       | None => Err (InvalidRule (lit "invalid absolute path `" ++ raw ++ lit "`: " ++ io_error))
       end.

Definition validate_host_executable_name (name : str) : result unit Error :=
  if negb (nonempty name)
  then Err (InvalidRule (lit "host_executable name cannot be empty"))
  else if (length (components name) != 1) || (file_name (components name) != Some name)
  then Err (InvalidRule (lit "host_executable name must be a bare executable name (got "
                         ++ name ++ lit ")"))
  else Ok tt.

(** The loop over the paths of a host executable. *)
Fixpoint parse_paths (name : str) (paths : list Value) (parsed_paths : list AbsolutePathBuf) :
    result (list AbsolutePathBuf) Error :=
  match paths with
  | [] => Ok parsed_paths
  | value :: paths =>
      let? raw := expect_string (fun ty =>
        InvalidRule (lit "host_executable paths must be strings (got " ++ ty ++ lit ")")) value in
      let? path := parse_literal_absolute_path raw in
      let wrong := InvalidRule (lit "host_executable path `" ++ raw ++ lit "` must have basename `"
                                ++ name ++ lit "`") in
      match executable_path_lookup_key path with
      | None => Err wrong
      | Some path_name =>
          if path_name != executable_lookup_key name then Err wrong
          else parse_paths name paths
                 (if existsb (fun existing => existing == path) parsed_paths then parsed_paths
                  else parsed_paths ++ [path])
      end
  end.

Definition host_executable (b : PolicyBuilder) (name : str) (paths : list Value) : outcome :=
  lift b (validate_host_executable_name name) (fun _ =>
  lift b (parse_paths name paths []) (fun parsed_paths =>
  (add_host_executable b (executable_lookup_key name) parsed_paths, Ok tt))).

(** * Parsing a module *)

Inductive Call : Type :=
| CallPrefixRule (pattern : list Value) (decision : option str)
    (match_ not_match : option (list Value)) (justification : option str)
    (location : option ErrorLocation)
| CallNetworkRule (host protocol decision : str) (justification : option str)
| CallHostExecutable (name : str) (paths : list Value).

Definition run_call (b : PolicyBuilder) (c : Call) : outcome :=
  match c with
  | CallPrefixRule p d m n j l => prefix_rule b p d m n j l
  | CallNetworkRule h p d j => network_rule b h p d j
  | CallHostExecutable n ps => host_executable b n ps
  end.

Fixpoint eval_module (b : PolicyBuilder) (calls : list Call) : outcome :=
  match calls with
  | [] => (b, Ok tt)
  | c :: calls =>
      match run_call b c with
      | (b, Ok _) => eval_module b calls
      | (b, Err e) => (b, Err e)
      end
  end.

Definition parse (b : PolicyBuilder) (calls : list Call) : outcome :=
  let pending_validation_count := length b.(pending_example_validations) in
  match eval_module b calls with
  | (b, Ok _) => (b, validate_pending_examples_from env b pending_validation_count)
  | (b, Err e) => (b, Err e)
  end.
End builtins.

(** * The builder's invariant *)

Definition has_rule (m : gmap str (list PrefixRule)) (r : PrefixRule) : Prop :=
  r ∈ default [] (m !! program r).

Definition network_rule_ok (r : NetworkRule) : Prop :=
  nr_host r <> [] /\ Forall host_char_ok (nr_host r)
  /\ (forall j, nr_justification r = Some j -> trim j <> []).

Record builder_ok (b : PolicyBuilder) : Prop := {
  ok_rules : rules_ok (b_rules_by_program b);
  ok_network : Forall network_rule_ok (b_network_rules b);
  ok_hosts : map_Forall (fun name paths =>
               NoDup paths /\ Forall (fun p => file_name p = Some name) paths)
               (b_host_executables_by_name b);
  ok_pending : Forall (fun v => Forall (has_rule (b_rules_by_program b)) (pv_rules v))
                 (pending_example_validations b);
}.

Lemma builder_new_ok : builder_ok builder_new.
Proof. constructor; [intros ???|..]; [done|constructor|intros ???; done|constructor]. Qed.

Lemma has_rule_insert m r r' : has_rule m r' \/ r' = r -> has_rule (mm_insert (program r) r m) r'.
Proof.
  unfold has_rule. rewrite mm_insert_lookup. case_bool_decide as E; cbn [default].
  - rewrite E. set_solver.
  - intros [?| ->]; done.
Qed.

Lemma add_rule_ok b r : builder_ok b -> builder_ok (add_rule b r).
Proof.
  intros [Hr Hn Hh Hp]. constructor; cbn; try done.
  - exact (mm_insert_ok r _ Hr).
  - eapply Forall_impl; [exact Hp|]. intros v Hv. eapply Forall_impl; [exact Hv|].
    intros r' ?. by apply (has_rule_insert _ r); left.
Qed.

(** What [add_rule] over a list of rules does. *)
Lemma add_rules_effect rules b :
  b_network_rules (foldl add_rule b rules) = b_network_rules b
  /\ b_host_executables_by_name (foldl add_rule b rules) = b_host_executables_by_name b
  /\ pending_example_validations (foldl add_rule b rules) = pending_example_validations b
  /\ (forall r, has_rule (b_rules_by_program b) r \/ r ∈ rules ->
        has_rule (b_rules_by_program (foldl add_rule b rules)) r)
  /\ (rules_ok (b_rules_by_program b) -> rules_ok (b_rules_by_program (foldl add_rule b rules))).
Proof.
  revert b. induction rules as [|r rules IH]; intros b; cbn.
  { split_and!; try done. by intros r [?|?%not_elem_of_nil]. }
  destruct (IH (add_rule b r)) as (-> & -> & -> & Hr & Hok). split_and!; try done.
  - intros r' Hr'. apply Hr. rewrite elem_of_cons in Hr'.
    destruct Hr' as [?|[->|?]]; [left|left|by right]; apply (has_rule_insert _ r); auto.
  - intros ?. apply Hok. by apply (mm_insert_ok r).
Qed.

Lemma add_rules_pending_ok b rules m n l :
  builder_ok b ->
  builder_ok (foldl add_rule (add_pending_example_validation b (mkPending rules m n l)) rules).
Proof.
  intros [Hr Hn Hh Hp].
  destruct (add_rules_effect rules (add_pending_example_validation b (mkPending rules m n l)))
    as (En & Eh & Ep & Hin & Hok).
  constructor; rewrite ?En, ?Eh, ?Ep; cbn; auto.
  apply Forall_app. split.
  - eapply Forall_impl; [exact Hp|]. intros v Hv. eapply Forall_impl; [exact Hv|]. auto.
  - apply Forall_singleton, Forall_forall. auto.
Qed.

Lemma parse_justification_ok j j' :
  parse_justification j = Ok j' -> forall raw, j' = Some raw -> trim raw <> [].
Proof.
  unfold parse_justification. destruct j as [raw|]; [|by intros [= <-]].
  case_bool_decide; [done|]. intros [= <-] ? [= <-]. done.
Qed.

Section invariant.
Context {Value : Type} `{Starlark Value} `{Shlex} (env : Env).

Lemma parse_paths_ok name (paths : list Value) acc res :
  parse_paths env name paths acc = Ok res ->
  NoDup acc /\ Forall (fun p => file_name p = Some name) acc ->
  NoDup res /\ Forall (fun p => file_name p = Some name) res.
Proof.
  revert acc. induction paths as [|v paths IH]; intros acc Hres Hacc; cbn in Hres.
  { by simplify_eq. }
  repeat (case_match; simplify_eq/=); to_props; apply IH in Hres; try done.
  destruct Hacc as [Hnd Hname]. unfold executable_path_lookup_key, executable_lookup_key in *.
  split.
  - apply NoDup_app. split; [done|]. split; [|apply NoDup_singleton].
    match goal with H : existsb _ _ = false |- _ => apply existsb_false in H;
      rewrite Forall_forall in H; intros p Hp ->%list_elem_of_singleton; specialize (H _ Hp) end.
    by to_props.
  - apply Forall_app. split; [done|]. apply Forall_singleton.
    match goal with H : fmap _ _ = Some _ |- _ => apply fmap_Some in H as (? & ? & ->) end. congruence.
Qed.

Lemma run_call_ok b c : builder_ok b -> builder_ok (run_call env b c).1.
Proof.
  intros Hb. destruct c as [p d m n j l|h p d j|n ps]; cbn.
  - unfold prefix_rule, lift. repeat (case_match; try done); by apply add_rules_pending_ok.
  - unfold network_rule, lift. repeat (case_match; try done).
    destruct Hb as [Hr Hn Hh Hp]. constructor; cbn; try done.
    apply Forall_app. split; [done|]. apply Forall_singleton.
    match goal with H : normalize_network_rule_host _ = _ |- _ =>
      destruct (normalized_host_sound _ _ H) end.
    split; [done|]. split; [done|]. eauto using parse_justification_ok.
  - unfold host_executable, lift. repeat (case_match; try done).
    destruct Hb as [Hr Hn Hh Hp]. constructor; cbn; try done.
    apply map_Forall_insert_2; [|done]. eapply parse_paths_ok; [done|]. split; constructor.
Qed.

Lemma eval_module_ok b calls : builder_ok b -> builder_ok (eval_module env b calls).1.
Proof.
  revert b. induction calls as [|c calls IH]; intros b Hb; [done|]. cbn.
  pose proof (run_call_ok b c Hb) as H1. destruct (run_call env b c) as [b' [|]]; auto.
Qed.
End invariant.

(** * Validated examples *)

Lemma example_matches_nonempty env p example :
  example_matches env p example <> [] <->
  exact_matches p example <> [] \/ match_host_executable_rules env p example <> [].
Proof.
  unfold example_matches, matches_for_command_with_options, exact_matches. cbn.
  destruct (match_exact_rules p example) as [[|m ms]|]; cbn;
    destruct (match_host_executable_rules env p example); naive_solver.
Qed.

(** [q] has every rule of [p] and the same host executables. *)
Definition extends (p q : Policy PrefixRule) : Prop :=
  host_executables_by_name p = host_executables_by_name q
  /\ forall k r, r ∈ default [] (rules_by_program p !! k) -> r ∈ default [] (rules_by_program q !! k).

Lemma omap_nonempty {A B} (f : A -> option B) l l' :
  (forall x, x ∈ l -> x ∈ l') -> omap f l <> [] -> omap f l' <> [].
Proof.
  intros Hsub Hne E. destruct (omap f l) as [|y ys] eqn:El; [done|].
  assert (y ∈ omap f l) as (x & Hx & Hfx)%list_elem_of_omap by (rewrite El; set_solver).
  assert (y ∈ omap f l') as Hy by (apply list_elem_of_omap; eauto). rewrite E in Hy. set_solver.
Qed.

Lemma host_matches_extends env p q example :
  extends p q -> match_host_executable_rules env p example <> [] ->
  match_host_executable_rules env q example <> [].
Proof.
  intros [Eh Hsub]. unfold match_host_executable_rules. destruct example as [|first args]; [done|].
  destruct (from_absolute_path env first) as [prog|]; [|done].
  destruct (executable_path_lookup_key prog) as [base|]; [|done]. specialize (Hsub base).
  rewrite <- Eh. destruct (rules_by_program p !! base) as [rules|]; [|done]. cbn in Hsub.
  case_match; [destruct (rules_by_program q !! base); done|].
  intros Hne E.
  assert (omap (fun r => prefix_rule_matches r (base :: args)) rules <> []) as Hne'
    by (intros E'; apply Hne; cbn; by rewrite E').
  apply (omap_nonempty _ _ _ Hsub) in Hne'.
  destruct (rules_by_program q !! base) as [rules'|]; [|done]. cbn in *.
  by apply fmap_nil_inv in E.
Qed.

Lemma example_matches_extends env p q example :
  extends p q -> example_matches env p example <> [] -> example_matches env q example <> [].
Proof.
  intros Hext. rewrite !example_matches_nonempty. intros [Hne|Hne].
  - left. destruct example as [|c cmd]; [done|]. rewrite exact_matches_cons in Hne |- *.
    eapply omap_nonempty; [|exact Hne]. apply Hext.
  - right. eauto using host_matches_extends.
Qed.

Lemma validation_rules_lookup rules k r m :
  r ∈ default [] (foldl (fun m r => mm_insert (program r) r m) m rules !! k) ->
  r ∈ default [] (m !! k) \/ r ∈ rules /\ program r = k.
Proof.
  revert m. induction rules as [|r' rules IH]; intros m Hr; cbn [foldl] in Hr; [auto|].
  apply IH in Hr as [Hr|[? ?]]; [|set_solver]. rewrite mm_insert_lookup in Hr.
  case_bool_decide as E; [|auto]. subst k. apply elem_of_app in Hr as [?|?]; set_solver.
Qed.

Lemma validation_policy_extends b v :
  builder_ok b -> v ∈ pending_example_validations b -> extends (validation_policy b v) (build b).
Proof.
  intros Hb Hv. split; [done|]. cbn. intros k r [Hr|[Hr <-]]%validation_rules_lookup.
  - rewrite lookup_empty in Hr. set_solver.
  - pose proof (ok_pending b Hb) as Hp. rewrite Forall_forall in Hp. specialize (Hp v Hv).
    rewrite Forall_forall in Hp. by apply Hp.
Qed.

Lemma validate_not_match_ok `{Shlex} env p examples :
  validate_not_match_examples env p examples = Ok tt <->
  Forall (fun ex => example_matches env p ex = []) examples.
Proof.
  induction examples as [|ex examples IH]; cbn; [by split|]. rewrite Forall_cons, <- IH.
  destruct (example_matches env p ex); naive_solver.
Qed.

Lemma validate_match_ok `{Shlex} env p rules examples :
  validate_match_examples env p rules examples = Ok tt <->
  Forall (fun ex => example_matches env p ex <> []) examples.
Proof.
  unfold validate_match_examples. induction examples as [|ex examples IH]; cbn; [by split|].
  rewrite Forall_cons, <- IH. destruct (example_matches env p ex); cbn; [naive_solver|].
  split; [|naive_solver]. done.
Qed.

Lemma validate_pending_ok `{Shlex} env b vs :
  validate_pending env b vs = Ok tt ->
  Forall (fun v => Forall (fun ex => example_matches env (validation_policy b v) ex <> []) (pv_matches v)
    /\ Forall (fun ex => example_matches env (validation_policy b v) ex = []) (pv_not_matches v)) vs.
Proof.
  induction vs as [|v vs IH]; cbn; [constructor|]. intros Hv.
  destruct (validate_not_match_examples env _ _) as [[]|] eqn:En; [|done]. cbn in Hv.
  destruct (validate_match_examples env _ _ _) as [[]|] eqn:Em; [|done]. cbn in Hv.
  constructor; [|auto]. split; [by eapply validate_match_ok|by apply validate_not_match_ok].
Qed.


(** A concrete value universe: strings, lists and numbers. *)
Inductive WVal : Set := WStr (s : str) | WList (l : list WVal) | WInt (n : nat).

#[local] Instance WVal_Starlark : Starlark WVal := {|
  unpack_str v := match v with WStr s => Some s | _ => None end;
  list_content v := match v with WList l => Some l | _ => None end;
  get_type v := match v with WStr _ => lit "string" | WList _ => lit "list" | WInt _ => lit "int" end;
|}.

#[local] Instance WVal_Shlex : Shlex := {|
  shlex_split s := Some (retain nonempty (split_on 32%N s));
  try_join ws := Some (join (lit " ") ws);
  debug_rule r := first (pattern r);
  debug_match _ := lit "match";
  io_error := lit "io";
|}.

Definition w_calls : list (@Call WVal) :=
  [ CallPrefixRule [WStr (lit "git"); WList [WStr (lit "status"); WStr (lit "diff")]] None
      (Some [WStr (lit "git diff --stat"); WList [WStr (lit "/usr/bin/git"); WStr (lit "status")]])
      (Some [WStr (lit "git push")]) (Some (lit "read only")) None;
    CallNetworkRule (lit "Example.COM.") (lit "https") (lit "deny") None;
    CallHostExecutable (lit "git") [WStr (lit "/usr/bin/git")] ].


(** * Appending to a policy file ([amend.rs]) *)

(** The steps of [append_rule_line] that can fail; a failing step leaves the
    file as it is. *)
Inductive IoStep : Set :=
| CreatePolicyDir | OpenPolicyFile | LockPolicyFile | SeekPolicyFile | ReadPolicyFile
| WriteNewline | WriteLine.

Inductive AmendError : Set :=
| EmptyPrefix
| InvalidNetworkRule (msg : str)
| MissingParent
| SerializeFailed
| IoFailed (step : IoStep).

(** [Error]'s [Display] for the variant [normalize_network_rule_host] returns. *)
Definition display_invalid_rule (e : Error) : str :=
  match e with
  | InvalidRule msg => lit "invalid rule: " ++ msg
  | InvalidDecision msg => lit "invalid decision: " ++ msg
  | InvalidPattern msg => lit "invalid pattern element: " ++ msg
  | InvalidExample msg => lit "invalid example: " ++ msg
  | _ => []
  end.

Section amend.
(** [serde_json::to_string] of a string, and which steps fail.  [file] is the
    contents of the policy file, [None] when it does not exist. *)
Context (to_json : str -> option str) (fails : IoStep -> bool).
Implicit Types (file : option str).

Abbreviation amended := (option str * result unit AmendError)%type.

Definition io_step (step : IoStep) file (k : amended) : amended :=
  if fails step then (file, Err (IoFailed step)) else k.

Definition append_locked_line file (line : str) : amended :=
  io_step OpenPolicyFile file (
  let contents := default [] file in
  let opened := Some contents in                        (* [create(true)] *)
  io_step LockPolicyFile opened (
  io_step SeekPolicyFile opened (
  io_step ReadPolicyFile opened (
  if existsb (fun existing => existing == line) (lines contents) then (opened, Ok tt)
  else
    let append_line (before : str) :=
      io_step WriteLine (Some before) (Some (before ++ line ++ [NL]), Ok tt) in
    if negb (contents == []) && negb (ends_with [NL] contents)
    then io_step WriteNewline opened (append_line (contents ++ [NL]))
    else append_line contents)))).

Definition append_rule_line (policy_path : PathBuf) file (rule : str) : amended :=
  match path_parent policy_path with
  | None => (file, Err MissingParent)
  | Some _ => io_step CreatePolicyDir file (append_locked_line file rule)
  end.

(** [collect::<Result<Vec<_>, _>>()] over the serialised tokens. *)
Fixpoint serialize_all (tokens : list str) : option (list str) :=
  match tokens with
  | [] => Some []
  | t :: ts => match to_json t, serialize_all ts with
               | Some j, Some js => Some (j :: js)
               | _, _ => None
               end
  end.

Definition prefix_rule_line (tokens : list str) : str :=
  lit "prefix_rule(pattern=[" ++ join (lit ", ") tokens ++ lit "], decision="
  ++ [QUOTE] ++ lit "allow" ++ [QUOTE] ++ lit ")".

Definition blocking_append_allow_prefix_rule (policy_path : PathBuf) file (prefix : list str) :
    amended :=
  match prefix with
  | [] => (file, Err EmptyPrefix)
  | _ =>
      match serialize_all prefix with
      | None => (file, Err SerializeFailed)
      | Some tokens => append_rule_line policy_path file (prefix_rule_line tokens)
      end
  end.

Definition decision_word (d : Decision) : str :=
  match d with Allow => lit "allow" | Prompt => lit "prompt" | Forbidden => lit "deny" end.

Definition network_rule_line (host protocol decision : str) (justification : option str) : str :=
  lit "network_rule("
  ++ join (lit ", ")
       ([lit "host=" ++ host; lit "protocol=" ++ protocol; lit "decision=" ++ decision]
        ++ match justification with Some j => [lit "justification=" ++ j] | None => [] end)
  ++ lit ")".

Definition blocking_append_network_rule (policy_path : PathBuf) file (host : str)
    (protocol : NetworkRuleProtocol) (d : Decision) (justification : option str) : amended :=
  match normalize_network_rule_host host with
  | Err err => (file, Err (InvalidNetworkRule (display_invalid_rule err)))
  | Ok host =>
      if is_some_and (fun raw => trim raw == []) justification
      then (file, Err (InvalidNetworkRule (lit "justification cannot be empty")))
      else
        match to_json host, to_json (as_policy_string protocol), to_json (decision_word d),
              (match justification with
               | Some j => (fun j => Some j) <$> to_json j
               | None => Some None
               end) with
        | Some host, Some protocol, Some decision, Some justification =>
            append_rule_line policy_path file (network_rule_line host protocol decision justification)
        | _, _, _, _ => (file, Err SerializeFailed)
        end
  end.
End amend.

(** What a successful append leaves in the file. *)
Definition with_line (contents line : str) : str :=
  if existsb (fun existing => existing == line) (lines contents) then contents
  else contents ++ (if negb (contents == []) && negb (ends_with [NL] contents) then [NL] else [])
       ++ line ++ [NL].

Lemma existsb_line (line : str) (ls : list str) : existsb (fun existing => existing == line) ls = true <-> line ∈ ls.
Proof.
  rewrite existsb_exists. setoid_rewrite bool_decide_eq_true. setoid_rewrite <- list_elem_of_In.
  naive_solver.
Qed.

Lemma append_locked_line_ok file line c res :
  (forall fails, append_locked_line fails file line = (c, res) -> res = Ok tt ->
     c = Some (with_line (default [] file) line)).
Proof.
  intros fails. unfold append_locked_line, io_step, with_line.
  repeat case_match; intros; simplify_eq; try done; by rewrite <- ?app_assoc.
Qed.

Lemma append_locked_line_prefix fails file line :
  default [] file `prefix_of` default [] (append_locked_line fails file line).1.
Proof.
  unfold append_locked_line, io_step. repeat case_match; cbn; try done;
    rewrite <- ?app_assoc; by apply prefix_app_r.
Qed.

Lemma lines_with_line contents line :
  NL ∉ line -> last line <> Some CR -> last contents <> Some CR ->
  lines (with_line contents line)
  = if existsb (fun existing => existing == line) (lines contents) then lines contents
    else lines contents ++ [line].
Proof.
  intros Hnl Hcr Hc. unfold with_line. case_match; [done|].
  destruct (list_snoc_inv contents) as [->|(k & x & ->)].
  { rewrite bool_decide_eq_true_2 by done. cbn [negb andb app]. by rewrite lines_single. }
  rewrite bool_decide_eq_false_2 by (by destruct k). cbn [negb andb].
  destruct (ends_with [NL] (k ++ [x])) eqn:E.
  - apply ends_with_spec in E as [r E]. apply app_inj_tail in E as [<- ->]. cbn.
    by apply lines_append_closed.
  - cbn [negb]. rewrite (app_assoc (k ++ [x]) [NL]). apply lines_append_open; try done.
    + by destruct k.
    + rewrite last_snoc. intros [= ->].
      assert (ends_with [NL] (k ++ [NL]) = true) by (apply ends_with_spec; eauto). congruence.
Qed.

(** The line is a single line of the file. *)
Lemma join_no_elem c sep ls : c ∉ sep -> Forall (fun l => c ∉ l) ls -> c ∉ join sep ls.
Proof.
  intros Hs. induction 1 as [|l ls Hl Hls IH]; [set_solver|].
  destruct ls as [|m ls]; [done|]. rewrite join_cons by done. set_solver.
Qed.

Lemma serialize_all_no_newline to_json tokens js :
  (forall s j, to_json s = Some j -> NL ∉ j) ->
  serialize_all to_json tokens = Some js -> Forall (fun l => NL ∉ l) js.
Proof.
  intros Hj. revert js. induction tokens as [|t ts IH]; intros js E; cbn in E; [by simplify_eq|].
  repeat case_match; simplify_eq. constructor; eauto.
Qed.

Lemma prefix_rule_line_one_line tokens :
  Forall (fun l => NL ∉ l) tokens ->
  (NL ∉ prefix_rule_line tokens) /\ last (prefix_rule_line tokens) <> Some CR.
Proof.
  intros H. unfold prefix_rule_line. split.
  - assert (NL ∉ join (lit ", ") tokens) as Hj by (apply join_no_elem; [vm_compute|]; set_solver).
    rewrite !elem_of_app. intros [Hin|[Hin|[Hin|[Hin|[Hin|[Hin|Hin]]]]]]; try done;
      vm_compute in Hin; set_solver.
  - change (lit ")") with [41%N]. rewrite !app_assoc, last_snoc. done.
Qed.

(** A second append changes nothing. *)
Lemma append_again fails file line file' :
  append_locked_line fails file line = (file', Ok tt) ->
  NL ∉ line -> last line <> Some CR -> last (default [] file) <> Some CR ->
  append_locked_line fails file' line = (file', Ok tt).
Proof.
  intros E Hnl Hcr Hc. pose proof (append_locked_line_ok _ _ _ _ _ E eq_refl) as ->.
  unfold append_locked_line at 1, io_step.
  change (default [] (Some (with_line (default [] file) line))) with (with_line (default [] file) line).
  assert (existsb (fun existing => existing == line)
            (lines (with_line (default [] file) line)) = true) as ->.
  { apply existsb_line. rewrite lines_with_line by done.
    case_match eqn:Eb; [by apply existsb_line|set_solver]. }
  unfold append_locked_line, io_step in E. repeat (case_match; simplify_eq; try done).
Qed.

(** Appending an approved prefix to a policy file adds its rule as one new
    last line unless the file already has that line, keeps every other line,
    and is idempotent; if any file operation fails, nothing that was in the
    file is lost.  (JSON strings contain no raw line feed.) *)
Theorem append_prefix_rule_once to_json fails path file prefix :
  (forall s j, to_json s = Some j -> NL ∉ j) ->
  last (default [] file) <> Some CR ->
  let '(file', res) := blocking_append_allow_prefix_rule to_json fails path file prefix in
  (default [] file `prefix_of` default [] file')
  /\ (res = Ok tt ->
      exists tokens contents, serialize_all to_json prefix = Some tokens /\ file' = Some contents
      /\ lines contents = (if existsb (fun l => l == prefix_rule_line tokens) (lines (default [] file))
                           then lines (default [] file)
                           else lines (default [] file) ++ [prefix_rule_line tokens])
      /\ blocking_append_allow_prefix_rule to_json fails path file' prefix = (file', Ok tt)).
Proof.
  intros Hjson Hcr. unfold blocking_append_allow_prefix_rule. destruct prefix as [|t ts]; [done|].
  destruct (serialize_all to_json (t :: ts)) as [tokens|] eqn:Es; [|done].
  destruct (prefix_rule_line_one_line tokens) as [Hnl Hlast]; [eauto using serialize_all_no_newline|].
  set (line := prefix_rule_line tokens) in *. unfold append_rule_line.
  destruct (path_parent path); [|done]. unfold io_step at 1.
  destruct (fails CreatePolicyDir) eqn:Ef; [done|].
  pose proof (append_locked_line_prefix fails file line) as Hpre.
  destruct (append_locked_line fails file line) as [file' res] eqn:E. cbn in Hpre. split; [done|].
  intros ->. pose proof (append_locked_line_ok _ _ _ _ _ E eq_refl) as ->.
  exists tokens. eexists. split; [done|]. split; [done|]. split; [by apply lines_with_line|].
  unfold io_step at 1. rewrite Ef. by eapply append_again.
Qed.

Definition w_json (s : str) : option str :=
  Some ([QUOTE] ++ retain (fun c => c != NL) s ++ [QUOTE]).

Lemma w_json_no_newline s j : w_json s = Some j -> NL ∉ j.
Proof.
  unfold w_json. intros [= <-] Hin. apply elem_of_cons in Hin as [Hin|Hin]; [done|].
  apply elem_of_app in Hin as [Hin|Hin]; [|by apply list_elem_of_singleton in Hin].
  apply elem_of_retain in Hin as [Hin _]. by to_props.
Qed.

Definition w_path : PathBuf := [RootDir; Normal (lit "rules"); Normal (lit "default.rules")].

Lemma append_prefix_rule_once_witness :
  default [] (Some (lit "# rules"))
    `prefix_of` default [] (blocking_append_allow_prefix_rule w_json (fun _ => false) w_path
                              (Some (lit "# rules")) (w_cmd ["ls"; "-l"])).1
  /\ length (lines (default [] (blocking_append_allow_prefix_rule w_json (fun _ => false) w_path
                              (Some (lit "# rules")) (w_cmd ["ls"; "-l"])).1)) = 2.
Proof.
  pose proof (append_prefix_rule_once w_json (fun _ => false) w_path (Some (lit "# rules"))
                (w_cmd ["ls"; "-l"]) w_json_no_newline) as H.
  destruct (blocking_append_allow_prefix_rule w_json (fun _ => false) w_path
                              (Some (lit "# rules")) (w_cmd ["ls"; "-l"])) as [f r] eqn:E.
  destruct H as [Hp Hok]; [vm_compute; discriminate|]. split; [exact Hp|].
  vm_compute in E. injection E as <- <-. vm_compute. reflexivity.
Defined.
