(* ===== verification/BashParse.v ===== *)
(** [shell-command/src]: [shell_detect.rs] and [bash.rs].

    Which shell a program path names, and the extraction of commands from the
    script of a [bash -lc "..."] invocation.  The script is parsed by
    tree-sitter with its Bash grammar, which is not part of the repository: the
    parser is the variable [try_parse_shell] and its trees are the data type
    [Node] (kind, whether the node is named, its text, its start byte and its
    children).  Everything the repository does with a tree is modelled: the
    worklist traversals and the translation of command nodes to words. *)

From stdpp Require Import base list option numbers strings sets.
From Stdlib Require Import NArith Lia Sorted.
From S2P Require Import Prelude RustStr AbsolutePath ExecRule.
Local Open Scope rust_scope.

(** * [shell_detect.rs] *)

Inductive ShellType : Set := Zsh | Bash | PowerShell | Sh | Cmd.

#[global] Instance ShellType_eq_dec : EqDecision ShellType.
Proof. solve_decision. Defined.

Definition DOT : char := 46%N.

(** [Path::file_stem]: the file name up to its last dot, unless that is its
    first character. *)
Definition file_stem (p : PathBuf) : option str :=
  match file_name p with
  | None => None
  | Some name =>
      match rsplit_once DOT name with
      | Some ([], _) | None => Some name
      | Some (before, _) => Some before
      end
  end.

Definition shell_by_name (s : str) : option ShellType :=
  if s == lit "zsh" then Some Zsh
  else if s == lit "sh" then Some Sh
  else if s == lit "cmd" then Some Cmd
  else if s == lit "bash" then Some Bash
  else if s == lit "pwsh" then Some PowerShell
  else if s == lit "powershell" then Some PowerShell
  else None.

(** The recursion on the file stem; [fuel] bounds it (see
    [detect_shell_type_unfold]). *)
Fixpoint detect_shell_type_fuel (fuel : nat) (shell_path : str) : option ShellType :=
  match shell_by_name shell_path with
  | Some t => Some t
  | None =>
      match file_stem (components shell_path) with
      | Some shell_name =>
          if components shell_name != components shell_path then
            match fuel with
            | 0 => None
            | S fuel => detect_shell_type_fuel fuel shell_name
            end
          else None
      | None => None
      end
  end.

Definition detect_shell_type (shell_path : str) : option ShellType :=
  detect_shell_type_fuel (length shell_path) shell_path.

(** * Syntax trees *)

Inductive Node : Set :=
| mkNode (n_kind : str) (n_named : bool) (n_text : option str) (n_start : nat) (n_children : list Node).

Definition kind (n : Node) : str := let '(mkNode k _ _ _ _) := n in k.
Definition is_named (n : Node) : bool := let '(mkNode _ b _ _ _) := n in b.
(** [utf8_text(src).ok()]. *)
Definition utf8_text (n : Node) : option str := let '(mkNode _ _ t _ _) := n in t.
Definition start_byte (n : Node) : nat := let '(mkNode _ _ _ s _) := n in s.
Definition children (n : Node) : list Node := let '(mkNode _ _ _ _ c) := n in c.
Definition named_children (n : Node) : list Node := retain is_named (children n).

Fixpoint node_size (n : Node) : nat :=
  let '(mkNode _ _ _ _ c) := n in S (sum_list (map node_size c)).

Record Tree : Set := mkTree { root_node : Node; has_error : bool }.

(** The traversals keep a stack ([Vec] with [pop]/[push]); the head of the list
    is its top, so children pushed in order end up reversed.  [step] may stop
    the traversal early ([None]); the outer [None] is lack of fuel. *)
Fixpoint stack_walk {S} (next : Node -> list Node) (step : S -> Node -> option S)
    (fuel : nat) (stack : list Node) (s : S) : option (option S) :=
  match stack with
  | [] => Some (Some s)
  | node :: stack =>
      match fuel with
      | 0 => None
      | Datatypes.S fuel =>
          match step s node with
          | None => Some None
          | Some s => stack_walk next step fuel (reverse (next node) ++ stack) s
          end
      end
  end.

(** The traversal from a root; its size is enough fuel. *)
Definition walk {S} (next : Node -> list Node) (step : S -> Node -> option S) (root : Node) (s : S) :
    option S :=
  match stack_walk next step (node_size root) [root] s with
  | Some r => r
  | None => None
  end.

(** * [bash.rs] *)

Definition ALLOWED_KINDS : list str :=
  lit <$> ["program"; "list"; "pipeline"; "command"; "command_name"; "word"; "string";
           "string_content"; "raw_string"; "number"; "concatenation"].
Definition APOSTROPHE : char := 39%N.
Definition ALLOWED_PUNCT_TOKENS : list str :=
  [lit "&&"; lit "||"; lit ";"; lit "|"; [QUOTE]; [APOSTROPHE]].

Definition contains (ls : list str) (s : str) : bool := existsb (fun x => x == s) ls.

Definition is_kind (k : string) (n : Node) : bool := kind n == lit k.

(** One iteration of the loop of [try_parse_word_only_commands_sequence]. *)
Definition word_only_step (command_nodes : list Node) (node : Node) : option (list Node) :=
  if is_named node then
    if negb (contains ALLOWED_KINDS (kind node)) then None
    else if is_kind "command" node then Some (command_nodes ++ [node]) else Some command_nodes
  else
    if existsb (fun c => contains_char c (lit "&;|")) (kind node)
       && negb (contains ALLOWED_PUNCT_TOKENS (kind node)) then None
    else if negb (contains ALLOWED_PUNCT_TOKENS (kind node) || (trim (kind node) == []))
    then None
    else Some command_nodes.

Definition is_word_or_number (n : Node) : bool := is_kind "word" n || is_kind "number" n.

Definition strip_quotes (q : char) (raw : str) : option str :=
  match strip_prefix [q] raw with
  | Some text => strip_suffix [q] text
  | None => None
  end.

Definition parse_double_quoted_string (node : Node) : option str :=
  if negb (is_kind "string" node) then None
  else if negb (forallb (is_kind "string_content") (named_children node)) then None
  else match utf8_text node with
       | Some raw => strip_quotes QUOTE raw
       | None => None
       end.

Definition parse_raw_string (node : Node) : option str :=
  if negb (is_kind "raw_string" node) then None
  else match utf8_text node with
       | Some raw => strip_quotes APOSTROPHE raw
       | None => None
       end.

(** [for x in l { v.push(f(x)?) }]. *)
Fixpoint map_option {A B} (f : A -> option B) (l : list A) : option (list B) :=
  match l with
  | [] => Some []
  | x :: l => match f x with
              | Some y => match map_option f l with Some ys => Some (y :: ys) | None => None end
              | None => None
              end
  end.

Definition parse_concat_part (part : Node) : option str :=
  if is_word_or_number part then utf8_text part
  else if is_kind "string" part then parse_double_quoted_string part
  else if is_kind "raw_string" part then parse_raw_string part
  else None.

(** [(!s.is_empty()).then_some(s)]. *)
Definition non_empty_str (s : str) : option str := match s with [] => None | _ => Some s end.

Definition parse_plain_word (child : Node) : option str :=
  if is_kind "command_name" child then
    match head (named_children child) with
    | Some word_node => if is_kind "word" word_node then utf8_text word_node else None
    | None => None
    end
  else if is_word_or_number child then utf8_text child
  else if is_kind "string" child then parse_double_quoted_string child
  else if is_kind "raw_string" child then parse_raw_string child
  else if is_kind "concatenation" child then
    match map_option parse_concat_part (named_children child) with
    | Some parts => non_empty_str (concat parts)
    | None => None
    end
  else None.

Definition parse_plain_command_from_node (cmd : Node) : option (list str) :=
  if negb (is_kind "command" cmd) then None
  else map_option parse_plain_word (named_children cmd).

Definition try_parse_word_only_commands_sequence (tree : Tree) : option (list (list str)) :=
  if tree.(has_error) then None
  else match walk children word_only_step tree.(root_node) [] with
       | None => None
       | Some command_nodes =>
           map_option parse_plain_command_from_node (sort_by_key start_byte command_nodes)
       end.

Definition is_literal_word_or_number (node : Node) : bool :=
  is_word_or_number node && match named_children node with [] => true | _ => false end.

(** Structural on the tree; the concatenation's parts are its named children. *)
Fixpoint parse_literal_shell_word (node : Node) : option str :=
  let '(mkNode _ _ _ _ cs) := node in
  if is_word_or_number node then
    if is_literal_word_or_number node then utf8_text node else None
  else if is_kind "string" node then parse_double_quoted_string node
  else if is_kind "raw_string" node then parse_raw_string node
  else if is_kind "concatenation" node then
    match (fix parts (cs : list Node) : option (list str) :=
             match cs with
             | [] => Some []
             | c :: cs =>
                 if is_named c then
                   match parse_literal_shell_word c with
                   | Some w => match parts cs with Some ws => Some (w :: ws) | None => None end
                   | None => None
                   end
                 else parts cs
             end) cs with
    | Some parts => non_empty_str (concat parts)
    | None => None
    end
  else None.

(** The loop of [parse_literal_command_from_node]: the words so far and
    whether the command name was found; [None] is the early return. *)
Fixpoint literal_words (cs : list Node) (words : list str) (found : bool) :
    option (list str * bool) :=
  match cs with
  | [] => Some (words, found)
  | child :: cs =>
      if is_kind "command_name" child then
        match head (named_children child) with
        | None => None
        | Some name =>
            match parse_literal_shell_word name with
            | None => None
            | Some command_name => literal_words cs (words ++ [command_name]) true
            end
        end
      else if found then
        match parse_literal_shell_word child with
        | Some word => literal_words cs (words ++ [word]) found
        | None => literal_words cs words found
        end
      else literal_words cs words found
  end.

Definition parse_literal_command_from_node (cmd : Node) : option (list str) :=
  if negb (is_kind "command" cmd) then None
  else match literal_words (named_children cmd) [] false with
       | Some (words, true) => Some words
       | _ => None
       end.

Definition literal_step (commands : list (list str)) (node : Node) : option (list (list str)) :=
  Some (if is_kind "command" node then
          match parse_literal_command_from_node node with
          | Some command => commands ++ [command]
          | None => commands
          end
        else commands).

Definition is_allowed_heredoc_attachment_kind (k : str) : bool :=
  contains (lit <$> ["heredoc_body"; "simple_heredoc_body"; "heredoc_redirect";
                     "herestring_redirect"; "redirected_statement"]) k.

Fixpoint heredoc_words (cs : list Node) (words : list str) : option (list str) :=
  match cs with
  | [] => Some words
  | child :: cs =>
      if is_kind "command_name" child then
        match head (named_children child) with
        | None => None
        | Some word_node =>
            if negb (is_word_or_number word_node) || negb (is_literal_word_or_number word_node)
            then None
            else match utf8_text word_node with
                 | Some t => heredoc_words cs (words ++ [t])
                 | None => None
                 end
        end
      else if is_word_or_number child then
        if negb (is_literal_word_or_number child) then None
        else match utf8_text child with
             | Some t => heredoc_words cs (words ++ [t])
             | None => None
             end
      else if is_kind "comment" child then heredoc_words cs words
      else if is_allowed_heredoc_attachment_kind (kind child) then heredoc_words cs words
      else None
  end.

Definition parse_heredoc_command_words (cmd : Node) : option (list str) :=
  if negb (is_kind "command" cmd) then None
  else match heredoc_words (named_children cmd) [] with
       | Some [] | None => None
       | Some words => Some words
       end.

Definition single_step (single_command : option Node) (node : Node) : option (option Node) :=
  if is_kind "command" node then
    match single_command with Some _ => None | None => Some (Some node) end
  else Some single_command.

Definition find_single_command_node (root : Node) : option Node :=
  match walk named_children single_step root None with
  | Some single_command => single_command
  | None => None
  end.

(** [has_named_descendant_kind]: the early return of [true] is the stop. *)
Definition has_named_descendant_kind (node : Node) (k : string) : bool :=
  match walk named_children (fun (_ : unit) n => if is_kind k n then None else Some tt) node tt with
  | None => true
  | Some _ => false
  end.

Definition extract_bash_command (command : list str) : option (str * str) :=
  match command with
  | [shell; flag; script] =>
      if negb ((flag == lit "-lc") || (flag == lit "-c"))
         || negb (is_some_and (fun t => (t == Zsh) || (t == Bash) || (t == Sh))
                    (detect_shell_type shell))
      then None
      else Some (shell, script)
  | _ => None
  end.

Section parser.
Context (try_parse_shell : str -> option Tree).

Definition parse_shell_script_into_commands (script : str) : option (list (list str)) :=
  match try_parse_shell script with
  | Some tree => try_parse_word_only_commands_sequence tree
  | None => None
  end.

Definition parse_shell_lc_plain_commands (command : list str) : option (list (list str)) :=
  match extract_bash_command command with
  | Some (_, script) => parse_shell_script_into_commands script
  | None => None
  end.

Definition parse_shell_lc_literal_commands (command : list str) : option (list (list str)) :=
  match extract_bash_command command with
  | None => None
  | Some (_, script) =>
      match try_parse_shell script with
      | None => None
      | Some tree =>
          if tree.(has_error) then None
          else walk named_children literal_step tree.(root_node) []
      end
  end.

Definition parse_shell_lc_single_command_prefix (command : list str) : option (list str) :=
  match extract_bash_command command with
  | None => None
  | Some (_, script) =>
      match try_parse_shell script with
      | None => None
      | Some tree =>
          let root := tree.(root_node) in
          if tree.(has_error) then None
          else if negb (has_named_descendant_kind root "heredoc_redirect") then None
          else if has_named_descendant_kind root "file_redirect" then None
          else match find_single_command_node root with
               | None => None
               | Some command_node => parse_heredoc_command_words command_node
               end
      end
  end.
End parser.

(** * Traversals *)

(** The children a traversal follows, and the nodes it visits in order. *)
Definition next_nodes (named_only : bool) (n : Node) : list Node :=
  if named_only then named_children n else children n.

Fixpoint nodes (named_only : bool) (n : Node) : list Node :=
  let '(mkNode _ _ _ _ cs) := n in
  n :: concat (reverse (map (fun c => if named_only && negb (is_named c) then []
                                      else nodes named_only c) cs)).

Fixpoint fold_option {S A} (step : S -> A -> option S) (s : S) (l : list A) : option S :=
  match l with
  | [] => Some s
  | x :: l => match step s x with Some s => fold_option step s l | None => None end
  end.

Lemma fold_option_app {S A} (step : S -> A -> option S) s l k :
  fold_option step s (l ++ k)
  = match fold_option step s l with Some s => fold_option step s k | None => None end.
Proof. revert s. induction l as [|x l IH]; intros s; cbn; [done|]. by destruct (step s x). Qed.

Lemma concat_reverse_retain {A B} (p : A -> bool) (f : A -> list B) l :
  concat (reverse (map (fun x => if p x then f x else []) l))
  = concat (map f (reverse (retain p l))).
Proof.
  induction l as [|x l IH]; [done|]. cbn [map retain]. rewrite reverse_cons, concat_app, IH.
  destruct (p x).
  - by rewrite reverse_cons, map_app, concat_app.
  - cbn [concat]. by rewrite !app_nil_r.
Qed.

Lemma retain_all {A} (l : list A) : retain (fun _ => true) l = l.
Proof. induction l as [|x l IH]; cbn; by rewrite ?IH. Qed.

Lemma nodes_unfold b n : nodes b n = n :: concat (map (nodes b) (reverse (next_nodes b n))).
Proof.
  destruct n as [k nm t st cs]. cbn [nodes]. f_equal.
  assert (next_nodes b (mkNode k nm t st cs) = retain (fun c => negb (b && negb (is_named c))) cs) as ->.
  { destruct b; cbn; [|by rewrite retain_all]. unfold named_children. cbn.
    induction cs as [|c cs IH]; cbn; [done|]. by destruct (is_named c); cbn; rewrite IH. }
  rewrite <- concat_reverse_retain. f_equal. f_equal. apply map_ext. intros c.
  by destruct (b && negb (is_named c)).
Qed.

Definition stack_size (stack : list Node) : nat := sum_list (map node_size stack).

Lemma stack_size_app a b : stack_size (a ++ b) = stack_size a + stack_size b.
Proof. unfold stack_size. rewrite map_app. induction (map node_size a); cbn; lia. Qed.

Lemma stack_size_reverse a : stack_size (reverse a) = stack_size a.
Proof.
  induction a as [|x a IH]; [done|]. rewrite reverse_cons, stack_size_app, IH.
  unfold stack_size. cbn. lia.
Qed.

Lemma next_nodes_size b n : S (stack_size (next_nodes b n)) <= node_size n.
Proof.
  destruct n as [k nm t st cs]. destruct b; cbn; unfold named_children, stack_size; cbn; [|lia].
  apply le_n_S. induction cs as [|c cs IH]; cbn; [lia|]. destruct (is_named c); cbn; lia.
Qed.

Lemma stack_walk_spec {S} b (step : S -> Node -> option S) fuel stack s :
  stack_size stack <= fuel ->
  stack_walk (next_nodes b) step fuel stack s
  = Some (fold_option step s (concat (map (nodes b) stack))).
Proof.
  revert stack s. induction fuel as [|fuel IH]; intros [|n stack] s Hle; cbn; try done.
  - unfold stack_size in Hle. cbn in Hle. destruct n; cbn in Hle; lia.
  - rewrite nodes_unfold. cbn. destruct (step s n) as [s'|]; [|done].
    rewrite IH, map_app, concat_app; [done|].
    rewrite stack_size_app, stack_size_reverse. pose proof (next_nodes_size b n).
    unfold stack_size in *. cbn in Hle. lia.
Qed.

(** Every traversal visits all nodes and never runs out of fuel. *)
Lemma walk_spec {S} b (step : S -> Node -> option S) root s :
  walk (next_nodes b) step root s = fold_option step s (nodes b root).
Proof.
  unfold walk. rewrite stack_walk_spec by (unfold stack_size; cbn; lia).
  cbn. by rewrite app_nil_r.
Qed.

(** The nodes a word-only script may contain. *)
Definition node_allowed (n : Node) : bool :=
  if is_named n then contains ALLOWED_KINDS (kind n)
  else contains ALLOWED_PUNCT_TOKENS (kind n)
       || ((trim (kind n) == []) && negb (existsb (fun c => contains_char c (lit "&;|")) (kind n))).

Definition is_command_node (n : Node) : bool := is_named n && is_kind "command" n.

Lemma word_only_step_spec acc n :
  word_only_step acc n
  = if node_allowed n then Some (acc ++ (if is_command_node n then [n] else [])) else None.
Proof.
  unfold word_only_step, node_allowed, is_command_node.
  destruct (is_named n); cbn [andb].
  - destruct (contains ALLOWED_KINDS (kind n)); cbn [negb]; [|done].
    destruct (is_kind "command" n); [done|]. by rewrite app_nil_r.
  - destruct (contains ALLOWED_PUNCT_TOKENS (kind n)), (existsb _ (kind n)),
      (bool_decide (trim (kind n) = [])); cbn [andb orb negb]; by rewrite ?app_nil_r.
Qed.

Lemma word_only_fold acc l :
  fold_option word_only_step acc l
  = if forallb node_allowed l then Some (acc ++ retain is_command_node l) else None.
Proof.
  revert acc. induction l as [|n l IH]; intros acc; cbn; [by rewrite app_nil_r|].
  rewrite word_only_step_spec. destruct (node_allowed n); cbn; [|done].
  rewrite IH. destruct (forallb node_allowed l); [|done].
  destruct (is_command_node n); by rewrite <- ?app_assoc, ?app_nil_r.
Qed.

Lemma try_parse_word_only_eq tree :
  try_parse_word_only_commands_sequence tree
  = if negb tree.(has_error) && forallb node_allowed (nodes false tree.(root_node))
    then map_option parse_plain_command_from_node
           (sort_by_key start_byte (retain is_command_node (nodes false tree.(root_node))))
    else None.
Proof.
  unfold try_parse_word_only_commands_sequence. destruct (has_error tree); [done|]. cbn.
  change children with (next_nodes false). rewrite walk_spec, word_only_fold.
  by destruct (forallb _ _).
Qed.

Lemma map_option_Forall2 {A B} (f : A -> option B) l ys :
  map_option f l = Some ys <-> Forall2 (fun x y => f x = Some y) l ys.
Proof.
  revert ys. induction l as [|x l IH]; intros ys; cbn.
  { split; [intros [= <-]; constructor|by inversion 1]. }
  destruct (f x) as [y|] eqn:E.
  - destruct (map_option f l) as [ys'|] eqn:El.
    + split; [intros [= <-]; constructor; [done|]; by apply IH|].
      inversion 1; subst. simplify_eq. match goal with H : Forall2 _ l _ |- _ => apply IH in H end.
      congruence.
    + split; [done|]. inversion 1; subst. match goal with H : Forall2 _ l _ |- _ => apply IH in H end.
      congruence.
  - split; [done|]. inversion 1; congruence.
Qed.

Lemma plain_commands_iff tree cmds :
  try_parse_word_only_commands_sequence tree = Some cmds <->
  tree.(has_error) = false
  /\ Forall (fun n => node_allowed n = true) (nodes false tree.(root_node))
  /\ Forall2 (fun n words => parse_plain_command_from_node n = Some words)
       (sort_by_key start_byte (retain is_command_node (nodes false tree.(root_node)))) cmds.
Proof.
  rewrite try_parse_word_only_eq, <- map_option_Forall2.
  destruct (has_error tree); cbn; [naive_solver|].
  destruct (forallb _ _) eqn:E.
  - rewrite forallb_forall in E. split; [|naive_solver]. intros ?. split; [done|]. split; [|done].
    apply Forall_forall. intros n Hn. apply E. by apply list_elem_of_In.
  - split; [done|]. intros (_ & H & _). exfalso. apply not_true_iff_false in E. apply E.
    apply forallb_forall. intros n Hn%list_elem_of_In. rewrite Forall_forall in H. auto.
Qed.

(** When a script is accepted as a sequence of plain commands, its tree has
    no error and contains nothing but the allowed constructs, anywhere; the
    returned list has one entry for every command of the script, in source
    order, each consisting of literal words only.  The traversal always
    terminates, and a script is rejected only when one of these fails. *)
Theorem plain_commands_complete tree cmds :
  try_parse_word_only_commands_sequence tree = Some cmds <->
  tree.(has_error) = false
  /\ Forall (fun n => node_allowed n = true) (nodes false tree.(root_node))
  /\ Forall2 (fun n words => parse_plain_command_from_node n = Some words)
       (sort_by_key start_byte (retain is_command_node (nodes false tree.(root_node)))) cmds.
Proof. apply plain_commands_iff. Qed.

(** The literal commands of a script: one per command node with a literal name. *)
Lemma literal_fold acc l :
  fold_option literal_step acc l
  = Some (acc ++ omap (fun n => if is_kind "command" n then parse_literal_command_from_node n else None) l).
Proof.
  revert acc. induction l as [|n l IH]; intros acc; cbn [fold_option omap list_omap];
    [by rewrite app_nil_r|].
  unfold literal_step at 1. rewrite IH. destruct (is_kind "command" n); [|done].
  destruct (parse_literal_command_from_node n); [|done]. by rewrite <- app_assoc.
Qed.

Lemma literal_commands_eq try_parse_shell command :
  parse_shell_lc_literal_commands try_parse_shell command
  = match extract_bash_command command with
    | None => None
    | Some (_, script) =>
        match try_parse_shell script with
        | None => None
        | Some tree =>
            if tree.(has_error) then None
            else Some (omap parse_literal_command_from_node (nodes true tree.(root_node)))
        end
    end.
Proof.
  unfold parse_shell_lc_literal_commands. repeat (case_match; try done).
  change named_children with (next_nodes true). rewrite walk_spec, literal_fold. cbn [app].
  f_equal. apply list_omap_ext, Forall2_same_length_lookup_2; [done|].
  intros i x y -> [= ->]. unfold parse_literal_command_from_node. by destruct (is_kind "command" y).
Qed.

(** ** Shell names *)

Lemma split_on_length c s seg :
  seg ∈ split_on c s -> length seg < length s \/ seg = s.
Proof.
  revert seg. induction s as [|x s IH]; intros seg; cbn.
  { intros ->%list_elem_of_singleton. auto. }
  destruct (x =? c)%N.
  - intros [->|Hin]%elem_of_cons; [left; cbn; lia|]. apply IH in Hin as [?| ->]; left; lia.
  - destruct (split_on c s) as [|h t] eqn:E; [by apply split_on_nonempty in E|].
    intros [->|Hin]%elem_of_cons.
    + destruct (IH h) as [?| ->]; [set_solver|left; cbn; lia|by right].
    + destruct (IH seg) as [?| ->]; [set_solver|left; lia|left; lia].
Qed.

Lemma file_name_shorter p n :
  file_name (components p) = Some n -> length n < length p \/ n = p.
Proof.
  unfold file_name. case_match eqn:E; [|done]. destruct c; try done. intros [= <-].
  apply last_Some_elem_of in E. unfold components in E. apply elem_of_app in E as [E|E].
  { repeat case_match; set_solver. }
  apply list_elem_of_omap in E as (seg & Hseg & Hc). unfold component in Hc.
  repeat case_match; simplify_eq. by apply split_on_length in Hseg.
Qed.

Lemma file_stem_shorter p n :
  file_stem (components p) = Some n -> length n < length p \/ n = p.
Proof.
  unfold file_stem. case_match eqn:E; [|done]. apply file_name_shorter in E.
  case_match eqn:Er; [|by intros [= <-]]. destruct p0 as [[|x b] a]; [by intros [= <-]|].
  intros [= <-]. apply rsplit_once_Some in Er as ->. rewrite length_app in E. cbn in E.
  destruct E as [?|<-]; left; cbn; rewrite ?length_app; cbn; lia.
Qed.

Lemma detect_fuel_enough f g p :
  length p <= f -> length p <= g -> detect_shell_type_fuel f p = detect_shell_type_fuel g p.
Proof.
  revert g p. induction f as [|f IH]; intros [|g] p Hf Hg; try done;
    try (destruct p; [by vm_compute|cbn in *; lia]).
  cbn. destruct (shell_by_name p); [done|]. destruct (file_stem (components p)) as [n|] eqn:E; [|done].
  destruct (negb _) eqn:En; [|done]. apply file_stem_shorter in E as [?| ->]; [apply IH; lia|].
  by rewrite bool_decide_eq_true_2 in En.
Qed.

(** [detect_shell_type] is the source's recursion: the bound on it is never
    reached. *)
Lemma detect_shell_type_unfold p :
  detect_shell_type p
  = match shell_by_name p with
    | Some t => Some t
    | None => match file_stem (components p) with
              | Some n => if components n != components p then detect_shell_type n else None
              | None => None
              end
    end.
Proof.
  unfold detect_shell_type at 1. destruct p as [|x p]; [by vm_compute|]. cbn [length detect_shell_type_fuel].
  destruct (shell_by_name (x :: p)); [done|].
  destruct (file_stem (components (x :: p))) as [n|] eqn:E; [|done].
  destruct (negb _) eqn:En; [|done]. apply file_stem_shorter in E as [Hn| ->].
  - cbn in Hn. apply detect_fuel_enough; lia.
  - by rewrite bool_decide_eq_true_2 in En.
Qed.
