(* ===== verification/CommandSafety.v ===== *)
(** [shell-command/src/command_safety]: [is_dangerous_command.rs] and
    [is_safe_command.rs], as built on Linux and macOS (the [cfg(windows)] parts
    are not modelled).  [linux] is [cfg!(target_os = "linux")] and
    [try_parse_shell] is the Bash parser of [BashParse]. *)

From stdpp Require Import base list option numbers strings sets.
From Stdlib Require Import NArith Lia.
From S2P Require Import Prelude RustStr AbsolutePath ExecRule BashParse.
Local Open Scope rust_scope.

Definition DASH : char := 45%N.

(** [matches!(arg, "a" | "b" | ...)]. *)
Definition is_one_of (options : list string) (arg : str) : bool := contains (lit <$> options) arg.

(** * [is_dangerous_command.rs] *)

Inductive DangerousCommandMatch : Set := ForcedRm | Other.

Definition MAX_DANGEROUS_COMMAND_WRAPPER_DEPTH : nat := 8.

Definition is_git_global_option_with_value (arg : str) : bool :=
  is_one_of ["-C"; "-c"; "--config-env"; "--exec-path"; "--git-dir"; "--namespace";
             "--super-prefix"; "--work-tree"] arg.

Definition is_git_global_option_with_inline_value (arg : str) : bool :=
  (starts_with (lit "--config-env=") arg
   || starts_with (lit "--exec-path=") arg
   || starts_with (lit "--git-dir=") arg
   || starts_with (lit "--namespace=") arg
   || starts_with (lit "--super-prefix=") arg
   || starts_with (lit "--work-tree=") arg)
  || ((starts_with (lit "-C") arg || starts_with (lit "-c") arg) && (2 <? blen arg)).

Definition executable_name_lookup_key (raw : str) : option str := file_name (components raw).

(** The loop of [find_git_subcommand], from position [idx]. *)
Fixpoint scan_git (args : list str) (subcommands : list string) (idx : nat) (skip_next : bool) :
    option (nat * str) :=
  match args with
  | [] => None
  | arg :: args =>
      if skip_next then scan_git args subcommands (S idx) false
      else if is_git_global_option_with_inline_value arg then scan_git args subcommands (S idx) false
      else if is_git_global_option_with_value arg then scan_git args subcommands (S idx) true
      else if (arg == lit "--") || starts_with [DASH] arg then scan_git args subcommands (S idx) false
      else if is_one_of subcommands arg then Some (idx, arg)
      else None
  end.

Definition find_git_subcommand (command : list str) (subcommands : list string) :
    option (nat * str) :=
  match command with
  | [] => None
  | cmd0 :: args =>
      if executable_name_lookup_key cmd0 != Some (lit "git") then None
      else scan_git args subcommands 1 false
  end.

Fixpoint take_while {A} (p : A -> bool) (l : list A) : list A :=
  match l with
  | [] => []
  | x :: l => if p x then x :: take_while p l else []
  end.

Definition is_force_option (arg : str) : bool :=
  (arg == lit "--force")
  || is_some_and (fun flags => negb (starts_with [DASH] flags) && contains_char 102%N flags)
       (strip_prefix [DASH] arg).

Definition rm_args_include_force_option (args : list str) : bool :=
  existsb is_force_option (take_while (fun arg => arg != lit "--") args).

(** The arguments [env] skips before the command it runs. *)
Fixpoint skip_env_arguments (args : list str) : list str :=
  match args with
  | [] => []
  | argument :: rest =>
      if argument == lit "--" then rest
      else if is_one_of ["-i"; "--ignore-environment"] argument
              || is_some_and (fun '(name, _) => nonempty name && negb (starts_with [DASH] name))
                   (split_once 61%N argument)
      then skip_env_arguments rest
      else args
  end.

(** The shell invocation equivalent to a [trap] action. *)
Definition trap_command (args : list str) : option (list str) :=
  let args := match args with
              | a :: rest => if a == lit "--" then rest else args
              | [] => []
              end in
  match args with
  | action :: _ => if starts_with [DASH] action then None
                   else Some [lit "sh"; lit "-c"; action]
  | [] => None
  end.

Section safety.
Context (try_parse_shell : str -> option Tree) (linux : bool).

(** [find_map]. *)
Fixpoint find_map {A B} (f : A -> option B) (l : list A) : option B :=
  match l with
  | [] => None
  | x :: l => match f x with Some y => Some y | None => find_map f l end
  end.

(** The three wrappers, given the check of the wrapped command. *)
Definition dangerous_command_match_for_exec
    (wrapped : list str -> option DangerousCommandMatch) (command : list str) :
    option DangerousCommandMatch :=
  match command with
  | [] => None
  | c :: args =>
      let cmd0 := executable_name_lookup_key c in
      if (cmd0 == Some (lit "rm")) && rm_args_include_force_option args then Some ForcedRm
      else if cmd0 == Some (lit "sudo") then wrapped args
      else if cmd0 == Some (lit "env") then wrapped (skip_env_arguments args)
      else if cmd0 == Some (lit "trap") then
        match trap_command args with Some shell_command => wrapped shell_command | None => None end
      else None
  end.

(** [remaining] is [MAX_DANGEROUS_COMMAND_WRAPPER_DEPTH + 1 - wrapper_depth]:
    it is [0] exactly when the depth exceeds the maximum. *)
Fixpoint dangerous_command_match_with_depth (remaining : nat) (command : list str) :
    option DangerousCommandMatch :=
  match remaining with
  | 0 => None
  | S remaining =>
      match dangerous_command_match_for_exec (dangerous_command_match_with_depth remaining) command with
      | Some m => Some m
      | None =>
          match parse_shell_lc_literal_commands try_parse_shell command with
          | Some commands => find_map (dangerous_command_match_with_depth remaining) commands
          | None => None
          end
      end
  end.

Definition dangerous_command_match (command : list str) : option DangerousCommandMatch :=
  dangerous_command_match_with_depth (MAX_DANGEROUS_COMMAND_WRAPPER_DEPTH + 1) command.

(** * [is_safe_command.rs] *)

Inductive GitOptionPattern : Set :=
| Exact (option : str)
| ShortWithInlineValue (option : str)
| Prefix (prefix : str).

Definition git_option_matches (p : GitOptionPattern) (arg : str) : bool :=
  match p with
  | Exact option => arg == option
  | ShortWithInlineValue option => starts_with option arg && (blen option <? blen arg)
  | Prefix prefix => starts_with prefix arg
  end.

Definition UNSAFE_GIT_GLOBAL_OPTIONS : list GitOptionPattern :=
  [Exact (lit "-C"); ShortWithInlineValue (lit "-C"); Exact (lit "-c");
   ShortWithInlineValue (lit "-c"); Exact (lit "-p");
   Exact (lit "--config-env"); Prefix (lit "--config-env=");
   Exact (lit "--exec-path"); Prefix (lit "--exec-path=");
   Exact (lit "--git-dir"); Prefix (lit "--git-dir=");
   Exact (lit "--namespace"); Prefix (lit "--namespace=");
   Exact (lit "--paginate");
   Exact (lit "--super-prefix"); Prefix (lit "--super-prefix=");
   Exact (lit "--work-tree"); Prefix (lit "--work-tree=")].

Definition UNSAFE_GIT_SUBCOMMAND_OPTIONS : list GitOptionPattern :=
  [Exact (lit "--output"); Prefix (lit "--output="); Exact (lit "--ext-diff");
   Exact (lit "--textconv"); Exact (lit "--exec"); Prefix (lit "--exec=")].

Definition git_matches_option_pattern (arg : str) (patterns : list GitOptionPattern) : bool :=
  existsb (fun p => git_option_matches p arg) patterns.

Definition git_has_unsafe_global_option (global_args : list str) : bool :=
  existsb (fun arg => git_matches_option_pattern arg UNSAFE_GIT_GLOBAL_OPTIONS) global_args.

Definition git_subcommand_args_are_read_only (args : list str) : bool :=
  negb (existsb (fun arg => git_matches_option_pattern arg UNSAFE_GIT_SUBCOMMAND_OPTIONS) args).

Definition is_read_only_branch_flag (arg : str) : bool :=
  is_one_of ["--list"; "-l"; "--show-current"; "-a"; "--all"; "-r"; "--remotes"; "-v"; "-vv";
             "--verbose"] arg
  || starts_with (lit "--format=") arg.

Fixpoint branch_flags (args : list str) (saw_read_only_flag : bool) : bool :=
  match args with
  | [] => saw_read_only_flag
  | arg :: args => if is_read_only_branch_flag arg then branch_flags args true else false
  end.

Definition git_branch_is_read_only (branch_args : list str) : bool :=
  match branch_args with
  | [] => true
  | _ => branch_flags branch_args false
  end.

Definition is_safe_git_command (command : list str) : bool :=
  match find_git_subcommand command ["status"; "log"; "diff"; "show"; "branch"] with
  | None => false
  | Some (subcommand_idx, subcommand) =>
      let global_args := drop 1 (take subcommand_idx command) in
      if git_has_unsafe_global_option global_args then false
      else
        let subcommand_args := drop (subcommand_idx + 1) command in
        if is_one_of ["status"; "log"; "diff"; "show"] subcommand
        then git_subcommand_args_are_read_only subcommand_args
        else if subcommand == lit "branch"
        then git_subcommand_args_are_read_only subcommand_args
             && git_branch_is_read_only subcommand_args
        else false
  end.

Definition all_digits (s : str) : bool := forallb is_ascii_digit s.

Definition is_valid_sed_n_arg (arg : option str) : bool :=
  match arg with
  | None => false
  | Some s =>
      match strip_suffix (lit "p") s with
      | None => false
      | Some core =>
          match split_on 44%N core with
          | [num] => nonempty num && all_digits num
          | [a; b] => nonempty a && nonempty b && all_digits a && all_digits b
          | _ => false
          end
      end
  end.

Definition ALWAYS_SAFE : list string :=
  ["cat"; "cd"; "cut"; "echo"; "expr"; "false"; "grep"; "head"; "id"; "ls"; "nl"; "paste"; "pwd";
   "rev"; "seq"; "stat"; "tail"; "tr"; "true"; "uname"; "uniq"; "wc"; "which"; "whoami"].

Definition UNSAFE_BASE64_OPTIONS : list string := ["-o"; "--output"].
Definition UNSAFE_FIND_OPTIONS : list string :=
  ["-exec"; "-execdir"; "-ok"; "-okdir"; "-delete"; "-fls"; "-fprint"; "-fprint0"; "-fprintf"].
Definition UNSAFE_RIPGREP_OPTIONS_WITH_ARGS : list string := ["--pre"; "--hostname-bin"].
Definition UNSAFE_RIPGREP_OPTIONS_WITHOUT_ARGS : list string := ["--search-zip"; "-z"].

Definition unsafe_base64_arg (arg : str) : bool :=
  is_one_of UNSAFE_BASE64_OPTIONS arg || starts_with (lit "--output=") arg
  || (starts_with (lit "-o") arg && (arg != lit "-o")).

Definition unsafe_rg_arg (arg : str) : bool :=
  is_one_of UNSAFE_RIPGREP_OPTIONS_WITHOUT_ARGS arg
  || existsb (fun opt => (arg == lit opt) || starts_with (lit opt ++ lit "=") arg)
       UNSAFE_RIPGREP_OPTIONS_WITH_ARGS.

Definition is_safe_to_call_with_exec (command : list str) : bool :=
  match command with
  | [] => false
  | cmd0 :: args =>
      match executable_name_lookup_key cmd0 with
      | None => false
      | Some cmd =>
          if linux && is_one_of ["numfmt"; "tac"] cmd then true
          else if is_one_of ALWAYS_SAFE cmd then true
          else if cmd == lit "base64" then negb (existsb unsafe_base64_arg args)
          else if cmd == lit "find" then negb (existsb (is_one_of UNSAFE_FIND_OPTIONS) command)
          else if cmd == lit "rg" then negb (existsb unsafe_rg_arg command)
          else if cmd == lit "git" then is_safe_git_command command
          else if (cmd == lit "sed") && (length command <=? 4)
                  && (command !! 1 == Some (lit "-n")) && is_valid_sed_n_arg (command !! 2)
          then true
          else false
      end
  end.

Definition zsh_as_bash (s : str) : str := if s == lit "zsh" then lit "bash" else s.

Definition is_known_safe_command (command : list str) : bool :=
  let command := zsh_as_bash <$> command in
  if is_safe_to_call_with_exec command then true
  else match parse_shell_lc_plain_commands try_parse_shell command with
       | Some [] | None => false
       | Some all_commands => forallb is_safe_to_call_with_exec all_commands
       end.
End safety.

(** * What is dangerous *)

Section dangerous.
Context (try_parse_shell : str -> option Tree).

(** A command that forces removal, under [d] wrappers: [rm] with its force
    option itself, or a command that [sudo], [env], a [trap] action or a shell
    script runs. *)
Inductive forces_rm : nat -> list str -> Prop :=
| forces_rm_exec c args :
    executable_name_lookup_key c = Some (lit "rm") ->
    rm_args_include_force_option args = true -> forces_rm 0 (c :: args)
| forces_rm_sudo d c args :
    executable_name_lookup_key c = Some (lit "sudo") ->
    forces_rm d args -> forces_rm (S d) (c :: args)
| forces_rm_env d c args :
    executable_name_lookup_key c = Some (lit "env") ->
    forces_rm d (skip_env_arguments args) -> forces_rm (S d) (c :: args)
| forces_rm_trap d c args shell_command :
    executable_name_lookup_key c = Some (lit "trap") ->
    trap_command args = Some shell_command ->
    forces_rm d shell_command -> forces_rm (S d) (c :: args)
| forces_rm_script d command commands inner :
    parse_shell_lc_literal_commands try_parse_shell command = Some commands ->
    inner ∈ commands -> forces_rm d inner -> forces_rm (S d) command.

Lemma find_map_Some {A B} (f : A -> option B) l y :
  find_map f l = Some y -> exists x, x ∈ l /\ f x = Some y.
Proof.
  induction l as [|x l IH]; cbn; [done|]. destruct (f x) eqn:E.
  - intros [= ->]. exists x. set_solver.
  - intros (z & ? & ?)%IH. exists z. set_solver.
Qed.

Lemma find_map_None {A B} (f : A -> option B) l x :
  find_map f l = None -> x ∈ l -> f x = None.
Proof.
  induction l as [|y l IH]; cbn; [set_solver|]. destruct (f y) eqn:E; [done|].
  intros H [->|Hx]%elem_of_cons; auto.
Qed.

Lemma find_map_all_None {A B} (f : A -> option B) l :
  (forall x, x ∈ l -> f x = None) -> find_map f l = None.
Proof.
  induction l as [|x l IH]; intros H; cbn; [done|]. rewrite (H x) by set_solver.
  apply IH. set_solver.
Qed.

Lemma dangerous_sound n command m :
  dangerous_command_match_with_depth try_parse_shell n command = Some m ->
  m = ForcedRm /\ exists d, d < n /\ forces_rm d command.
Proof.
  revert command m. induction n as [|n IH]; intros command m; [done|].
  cbn [dangerous_command_match_with_depth].
  destruct (dangerous_command_match_for_exec _ _) as [m'|] eqn:E.
  - intros [= ->]. destruct command as [|c args]; [done|]. cbn [dangerous_command_match_for_exec] in E.
    repeat case_match; simplify_eq; to_props;
      try (split; [done|]; exists 0; split; [lia|]; by constructor).
    all: apply IH in E as (-> & d & Hd & Hf); split; [done|]; exists (S d); split; [lia|].
    + by apply forces_rm_sudo.
    + by apply forces_rm_env.
    + by eapply forces_rm_trap.
  - case_match eqn:El; [|done]. intros (inner & Hin & Hm)%find_map_Some.
    apply IH in Hm as (-> & d & Hd & H). split; [done|]. exists (S d). split; [lia|].
    by eapply forces_rm_script.
Qed.

Lemma dangerous_complete d command n :
  forces_rm d command -> d < n ->
  dangerous_command_match_with_depth try_parse_shell n command <> None.
Proof.
  intros H. revert n. induction H; intros [|n] Hn; try lia;
    cbn [dangerous_command_match_with_depth dangerous_command_match_for_exec].
  - match goal with H : executable_name_lookup_key _ = _ |- _ => rewrite H end.
    match goal with H : rm_args_include_force_option _ = _ |- _ => rewrite H end. done.
  - match goal with H : executable_name_lookup_key _ = _ |- _ => rewrite H end. cbn.
    specialize (IHforces_rm n ltac:(lia)). by destruct (dangerous_command_match_with_depth _ n args).
  - match goal with H : executable_name_lookup_key _ = _ |- _ => rewrite H end. cbn.
    specialize (IHforces_rm n ltac:(lia)). by destruct (dangerous_command_match_with_depth _ n _).
  - match goal with H : executable_name_lookup_key _ = _ |- _ => rewrite H end. cbn.
    match goal with H : trap_command _ = _ |- _ => rewrite H end.
    specialize (IHforces_rm n ltac:(lia)). by destruct (dangerous_command_match_with_depth _ n _).
  - case_match; [done|]. match goal with H : parse_shell_lc_literal_commands _ _ = _ |- _ => rewrite H end.
    intros Hnone. eapply (find_map_None _ _ inner) in Hnone; [|done].
    by apply (IHforces_rm n ltac:(lia)).
Qed.

End dangerous.

(** * What is safe *)

Lemma is_one_of_spec options arg : is_one_of options arg = true <-> arg ∈ lit <$> options.
Proof.
  unfold is_one_of, contains. rewrite existsb_exists. setoid_rewrite bool_decide_eq_true.
  setoid_rewrite <- list_elem_of_In. naive_solver.
Qed.

Lemma starts_with_trans a b s : starts_with a b = true -> starts_with b s = true -> starts_with a s = true.
Proof.
  rewrite !starts_with_spec. intros [r ->] [t ->]. exists (r ++ t). by rewrite app_assoc.
Qed.

(** ** git *)

Definition unsafe_git_global (arg : str) : bool :=
  git_matches_option_pattern arg UNSAFE_GIT_GLOBAL_OPTIONS.

(** An unsafe option is one of the listed patterns. *)
Lemma unsafe_by p arg :
  p ∈ UNSAFE_GIT_GLOBAL_OPTIONS -> git_option_matches p arg = true -> unsafe_git_global arg = true.
Proof.
  intros Hp Hm. apply existsb_exists. exists p. split; [by apply list_elem_of_In|done].
Qed.

Ltac find_elem := repeat (first [apply list_elem_of_here | apply list_elem_of_further]).

Lemma inline_value_unsafe arg :
  is_git_global_option_with_inline_value arg = true -> unsafe_git_global arg = true.
Proof.
  unfold is_git_global_option_with_inline_value. intros H.
  repeat match goal with
  | H : (_ || _) = true |- _ => apply orb_prop in H as [H|H]
  | H : (_ && _) = true |- _ => apply andb_prop in H as [H ?]
  end;
  lazymatch goal with
  | H : starts_with (lit "-C") _ = true |- _ =>
      eapply (unsafe_by (ShortWithInlineValue (lit "-C"))); [find_elem|cbn; by apply andb_true_intro]
  | H : starts_with (lit "-c") _ = true |- _ =>
      eapply (unsafe_by (ShortWithInlineValue (lit "-c"))); [find_elem|cbn; by apply andb_true_intro]
  | H : starts_with ?p _ = true |- _ => eapply (unsafe_by (Prefix p)); [find_elem|exact H]
  end.
Qed.

Lemma with_value_unsafe arg :
  is_git_global_option_with_value arg = true -> unsafe_git_global arg = true.
Proof.
  unfold is_git_global_option_with_value. rewrite is_one_of_spec. cbn [fmap list_fmap].
  rewrite !elem_of_cons. intros H. destruct_or? H; try subst arg; try (by apply not_elem_of_nil in H);
    lazymatch goal with |- unsafe_git_global ?o = true =>
      eapply (unsafe_by (Exact o)); [find_elem|by apply bool_decide_eq_true] end.
Qed.

Definition GIT_READ_ONLY : list string := ["status"; "log"; "diff"; "show"; "branch"].

(** The tokens a successful scan passed over. *)
Lemma scan_git_Some args idx skip i sub :
  scan_git args GIT_READ_ONLY idx skip = Some (i, sub) ->
  exists opts rest, args = opts ++ sub :: rest /\ i = idx + length opts
    /\ sub ∈ lit <$> GIT_READ_ONLY
    /\ (skip = false -> Forall (fun o => unsafe_git_global o = false) opts ->
        Forall (fun o => starts_with [DASH] o = true) opts).
Proof.
  revert idx skip. induction args as [|a args IH]; intros idx skip; cbn [scan_git]; [done|].
  assert (forall skip', scan_git args GIT_READ_ONLY (S idx) skip' = Some (i, sub) ->
    (skip = false -> unsafe_git_global a = false -> skip' = false /\ starts_with [DASH] a = true) ->
    exists opts rest, a :: args = opts ++ sub :: rest /\ i = idx + length opts
    /\ sub ∈ lit <$> GIT_READ_ONLY
    /\ (skip = false -> Forall (fun o => unsafe_git_global o = false) opts ->
        Forall (fun o => starts_with [DASH] o = true) opts)) as Hstep.
  { intros skip' (opts & rest & -> & -> & Hsub & Hd)%IH Hskip. exists (a :: opts), rest.
    split; [done|]. split; [cbn; lia|]. split; [done|]. intros Hs [Ha Ho]%Forall_cons.
    destruct (Hskip Hs Ha) as [-> ?]. constructor; auto. }
  destruct skip; [intros H; eapply Hstep; [exact H|done]|].
  destruct (is_git_global_option_with_inline_value a) eqn:E1.
  { intros H. eapply Hstep; [exact H|]. apply inline_value_unsafe in E1. congruence. }
  destruct (is_git_global_option_with_value a) eqn:E2.
  { intros H. eapply Hstep; [exact H|]. apply with_value_unsafe in E2. congruence. }
  destruct ((a == lit "--") || starts_with [DASH] a) eqn:E3.
  { intros H. eapply Hstep; [exact H|]. intros _ _. split; [done|].
    apply orb_prop in E3 as [E3|E3]; [|done]. by to_props; subst. }
  destruct (is_one_of GIT_READ_ONLY a) eqn:E4; [|done]. intros [= <- <-].
  exists [], args. split; [done|]. split; [cbn; lia|]. split; [by apply is_one_of_spec|]. constructor.
Qed.

(** The scan stops at the first token that is not an option. *)
Lemma scan_git_options opts sub rest idx :
  Forall (fun o => starts_with [DASH] o = true /\ unsafe_git_global o = false) opts ->
  sub ∈ lit <$> GIT_READ_ONLY ->
  scan_git (opts ++ sub :: rest) GIT_READ_ONLY idx false = Some (idx + length opts, sub).
Proof.
  intros Hopts Hsub. revert idx. induction Hopts as [|o opts [Hd Hu] _ IH]; intros idx; cbn [app scan_git].
  - assert (starts_with [DASH] sub = false /\ (sub == lit "--") = false
      /\ is_git_global_option_with_inline_value sub = false
      /\ is_git_global_option_with_value sub = false) as (E1 & E2 & E3 & E4).
    { cbn [GIT_READ_ONLY fmap list_fmap] in Hsub. rewrite !elem_of_cons in Hsub.
      destruct_or? Hsub; subst; try (by apply not_elem_of_nil in Hsub); by vm_compute. }
    rewrite E1, E2, E3, E4. apply is_one_of_spec in Hsub. rewrite Hsub. cbn. f_equal. f_equal. lia.
  - destruct (is_git_global_option_with_inline_value o) eqn:E1.
    { apply inline_value_unsafe in E1. congruence. }
    destruct (is_git_global_option_with_value o) eqn:E2.
    { apply with_value_unsafe in E2. congruence. }
    rewrite Hd, orb_true_r, IH. cbn. f_equal. f_equal. lia.
Qed.

(** A git invocation that only reads. *)
Definition git_read_only (command : list str) : Prop :=
  exists c opts sub args, command = c :: opts ++ sub :: args
    /\ executable_name_lookup_key c = Some (lit "git")
    /\ Forall (fun o => starts_with [DASH] o = true /\ unsafe_git_global o = false) opts
    /\ sub ∈ lit <$> GIT_READ_ONLY
    /\ Forall (fun a => git_matches_option_pattern a UNSAFE_GIT_SUBCOMMAND_OPTIONS = false) args
    /\ (sub = lit "branch" -> Forall (fun a => is_read_only_branch_flag a = true) args).

Lemma branch_flags_spec args b :
  branch_flags args b = true <->
  Forall (fun a => is_read_only_branch_flag a = true) args /\ (args <> [] \/ b = true).
Proof.
  revert b. induction args as [|a args IH]; intros b; cbn; [naive_solver|].
  rewrite Forall_cons. destruct (is_read_only_branch_flag a); [rewrite IH|]; naive_solver.
Qed.

Lemma git_branch_spec args :
  git_branch_is_read_only args = true <-> Forall (fun a => is_read_only_branch_flag a = true) args.
Proof.
  unfold git_branch_is_read_only. destruct args as [|a args]; [naive_solver|].
  rewrite branch_flags_spec. naive_solver.
Qed.

Lemma read_only_args_spec args :
  git_subcommand_args_are_read_only args = true <->
  Forall (fun a => git_matches_option_pattern a UNSAFE_GIT_SUBCOMMAND_OPTIONS = false) args.
Proof. unfold git_subcommand_args_are_read_only. by rewrite negb_true_iff, existsb_false. Qed.

Lemma git_read_only_sub sub args :
  sub ∈ lit <$> GIT_READ_ONLY ->
  (if is_one_of ["status"; "log"; "diff"; "show"] sub
   then git_subcommand_args_are_read_only args
   else if sub == lit "branch"
   then git_subcommand_args_are_read_only args && git_branch_is_read_only args
   else false) = true <->
  Forall (fun a => git_matches_option_pattern a UNSAFE_GIT_SUBCOMMAND_OPTIONS = false) args
  /\ (sub = lit "branch" -> Forall (fun a => is_read_only_branch_flag a = true) args).
Proof.
  intros Hsub. rewrite <- read_only_args_spec, <- git_branch_spec.
  cbn [GIT_READ_ONLY fmap list_fmap] in Hsub. rewrite !elem_of_cons in Hsub.
  destruct_or? Hsub; try (by apply not_elem_of_nil in Hsub); subst sub;
    match goal with |- context [is_one_of ?l ?s] =>
      let b := eval vm_compute in (is_one_of l s) in replace (is_one_of l s) with b by (by vm_compute) end;
    rewrite ?bool_decide_eq_true_2, ?andb_true_iff by done; naive_solver.
Qed.

(** The slices around the subcommand. *)
Lemma slice_before (c : str) opts sub rest :
  drop 1 (take (1 + length opts) (c :: opts ++ sub :: rest)) = opts.
Proof. cbn. by rewrite drop_0, take_app_length. Qed.

Lemma slice_after (c : str) opts sub rest :
  drop (1 + length opts + 1) (c :: opts ++ sub :: rest) = rest.
Proof.
  replace (1 + length opts + 1) with (length (c :: opts ++ [sub])) by (cbn; rewrite length_app; cbn; lia).
  change (c :: opts ++ sub :: rest) with ((c :: opts) ++ [sub] ++ rest).
  rewrite app_assoc. apply drop_app_length.
Qed.

(** A git command is auto-approved exactly when it runs git with only
    harmless global options (never [-C], [-c], [--git-dir], [--exec-path] and
    the like, in any spelling the matcher knows), the token git takes as its
    subcommand is one of [status], [log], [diff], [show], [branch], no argument
    after it writes a file or runs a helper, and [branch] only gets listing
    flags. *)
Theorem safe_git_command_spec command :
  is_safe_git_command command = true <-> git_read_only command.
Proof.
  unfold is_safe_git_command. change ["status"; "log"; "diff"; "show"; "branch"] with GIT_READ_ONLY.
  split.
  - intros H. destruct (find_git_subcommand command GIT_READ_ONLY) as [[i sub]|] eqn:E; [|done].
    unfold find_git_subcommand in E. destruct command as [|c args]; [done|].
    destruct (negb _) eqn:Ec; [done|]. to_props.
    apply scan_git_Some in E as (opts & rest & -> & -> & Hsub & Hd).
    rewrite slice_before, slice_after in H.
    destruct (git_has_unsafe_global_option opts) eqn:Eu; [done|].
    apply existsb_false in Eu. apply git_read_only_sub in H as [Ha Hb]; [|done].
    exists c, opts, sub, rest. split_and!; try done.
    apply Forall_and. split; [|exact Eu]. by apply Hd.
  - intros (c & opts & sub & args & -> & Hc & Ho & Hsub & Ha & Hb).
    unfold find_git_subcommand. rewrite bool_decide_eq_true_2 by done. cbn [negb].
    rewrite scan_git_options, slice_before, slice_after by done.
    assert (git_has_unsafe_global_option opts = false) as ->.
    { apply existsb_false. eapply Forall_impl; [exact Ho|]. by intros o [_ ?]. }
    by apply git_read_only_sub.
Qed.

(** ** sed *)

(** The only [sed -n] scripts auto-approved are the print commands of one
    line or of a range of lines: [Np] and [M,Np] for decimal numbers. *)
Theorem valid_sed_arg_spec s :
  is_valid_sed_n_arg (Some s) = true <->
  (exists n, is_port n = true /\ s = n ++ lit "p")
  \/ (exists m n, is_port m = true /\ is_port n = true /\ s = m ++ lit "," ++ n ++ lit "p").
Proof.
  assert (forall n, is_port n = true -> 44%N ∉ n) as Hcomma.
  { intros n Hn Hin. unfold is_port in Hn. to_props. rewrite forallb_forall in *.
    apply list_elem_of_In in Hin. specialize (H0 _ Hin). by vm_compute in H0. }
  unfold is_valid_sed_n_arg, all_digits. split.
  - destruct (strip_suffix (lit "p") s) as [core|] eqn:E; [|done]. apply strip_suffix_Some in E as ->.
    pose proof (join_split_on 44%N core) as Hj. destruct (split_on 44%N core) as [|a [|b [|]]]; try done.
    + intros H. left. exists a. cbn in Hj. by subst.
    + intros H. right. exists a, b. unfold is_port. to_props. subst core. cbn.
      rewrite <- app_assoc. split_and!; try done; by apply andb_true_intro.
  - intros [(n & Hn & ->)|(m & n & Hm & Hn & ->)].
    + rewrite (proj2 (strip_suffix_Some _ _ n) eq_refl), split_on_no by auto. done.
    + replace (m ++ lit "," ++ n ++ lit "p") with ((m ++ 44%N :: n) ++ lit "p") by (by rewrite <- app_assoc).
      rewrite (proj2 (strip_suffix_Some _ _ _) eq_refl), split_on_app_sep, split_on_no by auto.
      unfold is_port in *. to_props. apply andb_true_intro; split; [|done].
      by repeat (apply andb_true_intro; split).
Qed.

(** ** Approved commands are not dangerous ones *)

Definition SAFE_NAMES : list string :=
  ALWAYS_SAFE ++ ["numfmt"; "tac"; "base64"; "find"; "rg"; "git"; "sed"].
Definition WRAPPERS : list string := ["rm"; "sudo"; "env"; "trap"].

Lemma safe_exec_name linux command :
  is_safe_to_call_with_exec linux command = true ->
  exists c args name, command = c :: args /\ executable_name_lookup_key c = Some name
    /\ name ∈ lit <$> SAFE_NAMES.
Proof.
  unfold is_safe_to_call_with_exec. destruct command as [|c args]; [done|].
  destruct (executable_name_lookup_key c) as [name|] eqn:E; [|done].
  intros H. exists c, args, name. split; [done|]. split; [done|].
  unfold SAFE_NAMES. rewrite fmap_app, elem_of_app.
  repeat match type of H with
  | (if ?b then _ else _) = true => destruct b eqn:?
  end; try done; to_props;
  repeat match goal with H : is_one_of _ _ = true |- _ => apply is_one_of_spec in H end; subst;
  try (left; done); right; try solve [find_elem].
  set_solver.
Qed.

(** Names without a dot that are not shells. *)
Definition plain_non_shell (n : str) : bool :=
  (components n == [Normal n]) && negb (contains_char DOT n)
  && negb (is_some_and (fun _ => true) (detect_shell_type n)).

Lemma plain_non_shell_names n :
  n ∈ lit <$> (SAFE_NAMES ++ WRAPPERS) -> plain_non_shell n = true.
Proof.
  assert (forallb plain_non_shell (lit <$> (SAFE_NAMES ++ WRAPPERS)) = true) as H by (by vm_compute).
  rewrite forallb_forall in H. intros Hn%list_elem_of_In. auto.
Qed.

Lemma not_shell c n :
  file_name (components c) = Some n -> plain_non_shell n = true -> detect_shell_type c = None.
Proof.
  unfold plain_non_shell. intros Hf Hn. to_props.
  assert (detect_shell_type n = None) as Hd by (by destruct (detect_shell_type n)).
  rewrite detect_shell_type_unfold. unfold file_stem. rewrite Hf.
  destruct (rsplit_once DOT n) as [[b a]|] eqn:Er.
  { apply rsplit_once_Some in Er as ->. match goal with H : contains_char _ _ = false |- _ =>
      apply contains_char_false in H end. set_solver. }
  destruct (shell_by_name c) as [t|] eqn:Es.
  - assert (n = c) as ->; [|rewrite detect_shell_type_unfold, Es in Hd; done].
    unfold shell_by_name in Es. repeat case_bool_decide; try done; subst c; vm_compute in Hf;
      by injection Hf as <-.
  - by case_match.
Qed.

Section not_dangerous.
Context (try_parse_shell : str -> option Tree) (linux : bool).

Lemma key_not_wrapper c args n rec :
  executable_name_lookup_key c = Some n -> n ∉ lit <$> WRAPPERS ->
  dangerous_command_match_for_exec rec (c :: args) = None.
Proof.
  intros Hk Hn. cbn [dangerous_command_match_for_exec]. rewrite Hk.
  assert (forall w, w ∈ WRAPPERS -> Some n <> Some (lit w)) as Hw.
  { intros w Hin [= ->]. apply Hn, list_elem_of_fmap. eauto. }
  rewrite !bool_decide_eq_false_2; [done|..]; apply Hw; find_elem.
Qed.

Lemma not_shell_no_literals c args :
  detect_shell_type c = None -> parse_shell_lc_literal_commands try_parse_shell (c :: args) = None.
Proof.
  intros H. unfold parse_shell_lc_literal_commands, extract_bash_command.
  destruct args as [|f [|s [|]]]; try done. rewrite H. cbn [is_some_and negb]. by rewrite orb_true_r.
Qed.

Lemma safe_name_not_wrapper n : n ∈ lit <$> SAFE_NAMES -> n ∉ lit <$> WRAPPERS.
Proof.
  intros H. assert (forallb (fun n => negb (is_one_of WRAPPERS n)) (lit <$> SAFE_NAMES) = true) as Hf
    by (by vm_compute).
  rewrite forallb_forall in Hf. apply list_elem_of_In in H. specialize (Hf n H).
  rewrite <- is_one_of_spec. by destruct (is_one_of WRAPPERS n).
Qed.

Lemma safe_name_not_dangerous c args n k :
  executable_name_lookup_key c = Some n -> n ∈ lit <$> SAFE_NAMES ->
  dangerous_command_match_with_depth try_parse_shell k (c :: args) = None.
Proof.
  intros Hk Hn. destruct k as [|k]; [done|]. cbn [dangerous_command_match_with_depth].
  rewrite (key_not_wrapper c args n) by eauto using safe_name_not_wrapper.
  rewrite not_shell_no_literals; [done|]. apply (not_shell c n); [done|].
  apply plain_non_shell_names. rewrite fmap_app. set_solver.
Qed.

(** What tree-sitter's Bash grammar says of a [command] node: assignments and
    redirections may come first, then its [command_name]. *)
Definition PRE_KINDS : list string :=
  ["variable_assignment"; "file_redirect"; "heredoc_redirect"; "herestring_redirect"].
Definition command_shape (n : Node) : Prop :=
  exists pre name args, named_children n = pre ++ name :: args
    /\ Forall (fun c => kind c ∈ lit <$> PRE_KINDS) pre /\ is_kind "command_name" name = true.

Lemma plain_word_pre c : kind c ∈ lit <$> PRE_KINDS -> parse_plain_word c = None.
Proof.
  intros H. cbn [PRE_KINDS fmap list_fmap] in H. rewrite !elem_of_cons in H.
  unfold parse_plain_word, is_word_or_number, is_kind.
  destruct_or? H; try (by apply not_elem_of_nil in H); by rewrite H.
Qed.

Lemma literal_words_app cs ws f r f' :
  literal_words cs ws f = Some (r, f') -> exists k, r = ws ++ k.
Proof.
  revert ws f. induction cs as [|c cs IH]; intros ws f; cbn [literal_words].
  { intros [= <- _]. exists []. by rewrite app_nil_r. }
  repeat case_match; intros E; simplify_eq; apply IH in E as [k ->]; rewrite <- ?app_assoc; eauto.
Qed.

Lemma command_words_agree n words literal :
  command_shape n ->
  parse_plain_command_from_node n = Some words ->
  parse_literal_command_from_node n = Some literal ->
  exists w ws ls, words = w :: ws /\ literal = w :: ls.
Proof.
  intros (pre & name & args & Hch & Hpre & Hname) Hp Hl.
  unfold parse_plain_command_from_node in Hp. unfold parse_literal_command_from_node in Hl.
  destruct (is_kind "command" n); [cbn [negb] in *|done]. rewrite Hch in Hp, Hl.
  destruct pre as [|c pre].
  2:{ cbn [app map_option] in Hp. apply Forall_cons in Hpre as [Hc _].
      by rewrite (plain_word_pre c Hc) in Hp. }
  cbn [app map_option literal_words] in *. unfold parse_plain_word in Hp. rewrite Hname in Hp, Hl.
  destruct (head (named_children name)) as [word|]; [|done].
  destruct (is_kind "word" word) eqn:Ew; [|done].
  destruct (utf8_text word) as [w|] eqn:Et; [|done].
  assert (forall w', parse_literal_shell_word word = Some w' -> w' = w) as Hw.
  { intros w'. destruct word as [k nm t st cs]. cbn [parse_literal_shell_word].
    unfold is_word_or_number. rewrite Ew. cbn [orb]. rewrite Et.
    destruct (is_literal_word_or_number _); [by intros [= <-]|done]. }
  destruct (parse_literal_shell_word word) as [w'|]; [|done]. rewrite (Hw w' eq_refl) in Hl.
  repeat case_match; simplify_eq. match goal with H : literal_words _ _ _ = Some _ |- _ =>
    apply literal_words_app in H as [ls ->] end. eauto.
Qed.

Lemma elem_of_nodes b n m :
  m ∈ nodes b n <-> m = n \/ exists c, c ∈ next_nodes b n /\ m ∈ nodes b c.
Proof.
  rewrite nodes_unfold, elem_of_cons. f_equiv.
  change (map (nodes b) (reverse (next_nodes b n))) with (nodes b <$> reverse (next_nodes b n)).
  rewrite elem_of_concat_fmap. setoid_rewrite elem_of_reverse. done.
Qed.

Lemma stack_size_elem c l : c ∈ l -> node_size c <= stack_size l.
Proof.
  unfold stack_size. induction l as [|x l IH]; intros Hc; [by apply not_elem_of_nil in Hc|]. cbn.
  apply elem_of_cons in Hc as [->|Hc]; [lia|]. specialize (IH Hc). lia.
Qed.

Lemma nodes_named_incl k n m : node_size n <= k -> m ∈ nodes true n -> m ∈ nodes false n.
Proof.
  revert n m. induction k as [|k IH]; intros n m Hk; [destruct n; cbn in Hk; lia|].
  rewrite !elem_of_nodes. intros [->|(c & Hc & Hm)]; [by left|]. right. exists c.
  pose proof Hc as Hc'. apply elem_of_retain in Hc' as [_ Hc']. split; [done|]. apply IH; [|done].
  pose proof (next_nodes_size true n) as Hs. cbn [next_nodes] in Hs.
  assert (node_size c <= stack_size (named_children n)); [|lia].
  by apply stack_size_elem.
Qed.

(** The command nodes a literal scan sees are those the plain scan checked. *)
Lemma literal_command_node root n :
  Forall (fun n => node_allowed n = true) (nodes false root) ->
  n ∈ nodes true root -> is_kind "command" n = true ->
  n ∈ retain is_command_node (nodes false root).
Proof.
  intros Hall Hn Hk. apply (nodes_named_incl (node_size root)) in Hn; [|done].
  apply elem_of_retain. split; [|done]. rewrite Forall_forall in Hall. specialize (Hall n Hn).
  unfold is_command_node. rewrite Hk, andb_true_r.
  destruct (is_named n) eqn:E; [done|]. unfold node_allowed in Hall. rewrite E in Hall.
  unfold is_kind in Hk. apply bool_decide_eq_true in Hk. rewrite Hk in Hall. by vm_compute in Hall.
Qed.

Lemma shell_not_wrapper shell args rec :
  detect_shell_type shell <> None -> dangerous_command_match_for_exec rec (shell :: args) = None.
Proof.
  intros Hs. destruct (executable_name_lookup_key shell) as [n|] eqn:Ek.
  - apply (key_not_wrapper _ _ n); [done|]. intros Hn. apply Hs, (not_shell shell n Ek).
    apply plain_non_shell_names. rewrite fmap_app. set_solver.
  - cbn [dangerous_command_match_for_exec]. by rewrite Ek.
Qed.

(** A script whose command nodes all parse to known-safe commands. *)
Lemma safe_tree_not_dangerous tree all k :
  (forall n, n ∈ nodes false (root_node tree) -> is_command_node n = true -> command_shape n) ->
  try_parse_word_only_commands_sequence tree = Some all ->
  forallb (is_safe_to_call_with_exec linux) all = true ->
  find_map (dangerous_command_match_with_depth try_parse_shell k)
    (omap parse_literal_command_from_node (nodes true (root_node tree))) = None.
Proof.
  intros Hshape (Herr & Hall & Hcmds)%plain_commands_iff Hsafe.
  apply find_map_all_None. intros inner (n & Hn & Hl)%list_elem_of_omap.
  assert (is_kind "command" n = true) as Hk
    by (unfold parse_literal_command_from_node in Hl; by destruct (is_kind "command" n)).
  pose proof (literal_command_node _ _ Hall Hn Hk) as Hin.
  assert (n ∈ sort_by_key start_byte (retain is_command_node (nodes false (root_node tree)))) as Hin'
    by (by apply sort_by_key_elem).
  apply list_elem_of_lookup in Hin' as [i Hi].
  destruct (Forall2_lookup_l _ _ _ _ _ Hcmds Hi) as (words & Hw & Hp).
  apply elem_of_retain in Hin as [Hc Hin].
  destruct (command_words_agree n words inner (Hshape n Hin Hc) Hp Hl) as (w & ws & ls & -> & ->).
  rewrite forallb_forall in Hsafe.
  assert (is_safe_to_call_with_exec linux (w :: ws) = true) as Hs
    by (apply Hsafe, list_elem_of_In; by eapply list_elem_of_lookup_2).
  apply safe_exec_name in Hs as (c & args & name & [= <- <-] & Hkey & Hname).
  by eapply safe_name_not_dangerous.
Qed.

Lemma zsh_as_bash_id s : s <> lit "zsh" -> zsh_as_bash s = s.
Proof. intros H. unfold zsh_as_bash. by rewrite bool_decide_eq_false_2. Qed.

Lemma extract_mapped command shell script :
  lit "zsh" ∉ tail command ->
  extract_bash_command (zsh_as_bash <$> command) = Some (shell, script) ->
  exists shell', extract_bash_command command = Some (shell', script)
    /\ head command = Some shell' /\ detect_shell_type shell' <> None.
Proof.
  intros Hz. destruct command as [|s [|f [|p [|]]]]; try done. cbn [tail] in Hz.
  cbn [fmap list_fmap]. rewrite (zsh_as_bash_id f), (zsh_as_bash_id p) by set_solver.
  unfold extract_bash_command. destruct (negb _) eqn:Ef; [done|]. cbn [orb].
  destruct (negb (is_some_and _ (detect_shell_type (zsh_as_bash s)))) eqn:Ed; [done|].
  intros [= <- <-]. exists s. unfold zsh_as_bash in Ed. case_bool_decide as Es.
  - subst s. split; [by vm_compute|]. split; [done|]. by vm_compute.
  - rewrite Ed. split; [done|]. split; [done|]. by destruct (detect_shell_type s).
Qed.

Lemma script_not_dangerous command all k :
  (forall script tree, try_parse_shell script = Some tree -> has_error tree = false ->
     forall n, n ∈ nodes false (root_node tree) -> is_command_node n = true -> command_shape n) ->
  lit "zsh" ∉ tail command ->
  parse_shell_lc_plain_commands try_parse_shell (zsh_as_bash <$> command) = Some all ->
  forallb (is_safe_to_call_with_exec linux) all = true ->
  dangerous_command_match_with_depth try_parse_shell k command = None.
Proof.
  intros Hgrammar Hz Hp Hsafe. destruct k as [|k]; [done|]. cbn [dangerous_command_match_with_depth].
  unfold parse_shell_lc_plain_commands in Hp.
  destruct (extract_bash_command (zsh_as_bash <$> command)) as [[sh script]|] eqn:E; [|done].
  destruct (extract_mapped _ _ _ Hz E) as (sh' & Ex & Hh & Hd).
  rewrite literal_commands_eq, Ex. destruct command as [|s args]; [done|]. injection Hh as ->.
  rewrite shell_not_wrapper by done.
  unfold parse_shell_script_into_commands in Hp.
  destruct (try_parse_shell script) as [tree|] eqn:Et; [|done].
  assert (has_error tree = false) as Herr by (by apply plain_commands_iff in Hp as [? _]).
  rewrite Herr. eapply safe_tree_not_dangerous; eauto.
Qed.

(** C15: an auto-approved command is never one the dangerous-command check
    reports: for a parser whose command nodes follow the Bash grammar, if a
    command (directly, or as a shell script all of whose commands are known
    safe) is approved, no dangerous-command rule matches it. *)
Theorem known_safe_not_dangerous command :
  (forall script tree, try_parse_shell script = Some tree -> has_error tree = false ->
     forall n, n ∈ nodes false (root_node tree) -> is_command_node n = true -> command_shape n) ->
  lit "zsh" ∉ tail command ->
  is_known_safe_command try_parse_shell linux command = true ->
  dangerous_command_match try_parse_shell command = None.
Proof.
  intros Hgrammar Hzsh Hsafe. unfold is_known_safe_command in Hsafe.
  unfold dangerous_command_match. generalize (MAX_DANGEROUS_COMMAND_WRAPPER_DEPTH + 1) as k.
  destruct (is_safe_to_call_with_exec linux (zsh_as_bash <$> command)) eqn:Ee.
  - apply safe_exec_name in Ee as (c & args & name & Hcmd & Hk & Hname).
    destruct command as [|c0 args0]; [done|]. cbn [fmap list_fmap] in Hcmd. injection Hcmd as <- _.
    intros k. apply (safe_name_not_dangerous _ _ name); [|done].
    unfold zsh_as_bash in Hk. case_bool_decide; [|done]. exfalso.
    assert (executable_name_lookup_key (lit "bash") = Some (lit "bash")) as Hb by (by vm_compute).
    rewrite Hk in Hb. injection Hb as ->. apply is_one_of_spec in Hname. by vm_compute in Hname.
  - intros k. destruct (parse_shell_lc_plain_commands _ _) as [all|] eqn:Ep; [|done].
    eapply script_not_dangerous; [done..|]. by destruct all.
Qed.
End not_dangerous.

(** A parser that knows one script. *)
Definition w_leaf (k t : string) (named : bool) (st : nat) (cs : list Node) : Node :=
  mkNode (lit k) named (Some (lit t)) st cs.
Definition w_command (t : string) (st : nat) : Node :=
  w_leaf "command" t true st [w_leaf "command_name" t true st [w_leaf "word" t true st []]].
Definition w_tree : Tree :=
  mkTree (w_leaf "program" "ls && pwd" true 0
            [w_leaf "list" "ls && pwd" true 0
               [w_command "ls" 0; w_leaf "&&" "&&" false 3 []; w_command "pwd" 6]]) false.
Definition w_parser (script : str) : option Tree :=
  if script == lit "ls && pwd" then Some w_tree else None.

Lemma known_safe_not_dangerous_witness :
  is_known_safe_command w_parser true (lit <$> ["zsh"; "-lc"; "ls && pwd"]) = true
  /\ dangerous_command_match w_parser (lit <$> ["zsh"; "-lc"; "ls && pwd"]) = None.
Proof.
  assert (is_known_safe_command w_parser true (lit <$> ["zsh"; "-lc"; "ls && pwd"]) = true) as Hs
    by (vm_compute; reflexivity).
  split; [exact Hs|].
  refine (known_safe_not_dangerous w_parser true (lit <$> ["zsh"; "-lc"; "ls && pwd"]) _ _ Hs).
  - intros script tree Ht _ n Hn Hc. unfold w_parser in Ht. case_bool_decide; [|discriminate Ht].
    injection Ht as <-. assert (n = w_command "ls" 0 \/ n = w_command "pwd" 6) as Hn'.
    { assert (n ∈ retain is_command_node (nodes false (root_node w_tree))) as Hr
        by (apply elem_of_retain; done).
      replace (retain is_command_node (nodes false (root_node w_tree)))
        with [w_command "pwd" 6; w_command "ls" 0] in Hr by (vm_compute; reflexivity).
      rewrite !elem_of_cons in Hr. destruct Hr as [->|[->|Hr]]; [by right|by left|].
      by apply not_elem_of_nil in Hr. }
    destruct Hn' as [-> | ->];
      [exists [], (w_leaf "command_name" "ls" true 0 [w_leaf "word" "ls" true 0 []]), []
      |exists [], (w_leaf "command_name" "pwd" true 6 [w_leaf "word" "pwd" true 6 []]), []];
      (split; [reflexivity|]; split; [constructor|reflexivity]).
  - cbn [fmap list_fmap tail]. rewrite !elem_of_cons.
    intros [Hz|[Hz|Hz]]; [discriminate Hz|discriminate Hz|by apply not_elem_of_nil in Hz].
Defined.
