(* ===== verification/ExecApproval.v ===== *)
(** [core/src/exec_policy.rs] and the approval part of [core/src/tools/sandboxing.rs]:
    from a command to the decision whether it runs, needs approval or is
    forbidden.

    The manager keeps the policy that is in force and rewrites it, together with
    the policy file, when the user approves an amendment.  The model is the build
    for Linux and macOS: [cfg!(windows)] is [false] and the PowerShell origin does
    not exist.  The Bash parser, [shlex] and JSON printing are parameters. *)

From stdpp Require Import base list option numbers strings gmap sets.
From Stdlib Require Import NArith Lia.
From S2P Require Import Prelude RustStr AbsolutePath Permissions PermissionLaws PermissionProfile ExecRule.
From S2P Require Import ExecPolicy PolicyParser BashParse CommandSafety.
Local Open Scope rust_scope.

Definition PROMPT_CONFLICT_REASON : str :=
  lit "approval required by policy, but AskForApproval is set to Never".
Definition REJECT_SANDBOX_APPROVAL_REASON : str :=
  lit "approval required by policy, but AskForApproval::Granular.sandbox_approval is false".
Definition REJECT_RULES_APPROVAL_REASON : str :=
  lit "approval required by policy rule, but AskForApproval::Granular.rules is false".

Definition BANNED_PREFIX_SUGGESTIONS : list (list str) :=
  (fun l : list string => lit <$> l) <$>
  [["python3"]; ["python3"; "-"]; ["python3"; "-c"]; ["python"]; ["python"; "-"]; ["python"; "-c"];
   ["py"]; ["py"; "-3"]; ["pythonw"]; ["pyw"]; ["pypy"]; ["pypy3"]; ["git"]; ["bash"]; ["bash"; "-lc"];
   ["sh"]; ["sh"; "-c"]; ["sh"; "-lc"]; ["zsh"]; ["zsh"; "-lc"]; ["/bin/zsh"]; ["/bin/zsh"; "-lc"];
   ["/bin/bash"]; ["/bin/bash"; "-lc"]; ["pwsh"]; ["pwsh"; "-Command"]; ["pwsh"; "-c"]; ["powershell"];
   ["powershell"; "-Command"]; ["powershell"; "-c"]; ["powershell.exe"]; ["powershell.exe"; "-Command"];
   ["powershell.exe"; "-c"]; ["env"]; ["sudo"]; ["node"]; ["node"; "-e"]; ["perl"]; ["perl"; "-e"];
   ["ruby"]; ["ruby"; "-e"]; ["php"]; ["php"; "-r"]; ["lua"]; ["lua"; "-e"]; ["osascript"]].

(** * Data *)

Definition cfg_windows : bool := false.

Record UnmatchedCommandContext : Set := mkContext {
  approval_policy : AskForApproval.t;
  permission_profile : PermissionProfile.t;
  windows_sandbox_level : WindowsSandboxLevel.t;
  sandbox_permissions : SandboxPermissions;
  used_complex_parsing : bool;
}.

Record ExecPolicyCommands : Set := mkCommands {
  epc_commands : list (list str);
  epc_complex : bool;
}.

Abbreviation ExecPolicyAmendment := (list str).

Inductive ExecApprovalRequirement : Set :=
| Skip (bypass_sandbox : bool) (proposed_execpolicy_amendment : option ExecPolicyAmendment)
| NeedsApproval (reason : option str) (proposed_execpolicy_amendment : option ExecPolicyAmendment)
| ForbiddenRequirement (reason : str).

Record ExecApprovalRequest : Set := mkRequest {
  req_command : list str;
  req_approval_policy : AskForApproval.t;
  req_permission_profile : PermissionProfile.t;
  req_windows_sandbox_level : WindowsSandboxLevel.t;
  req_sandbox_permissions : SandboxPermissions;
  req_prefix_rule : option (list str);
}.

Definition is_policy_match (rule_match : RuleMatch) : bool :=
  match rule_match with
  | PrefixRuleMatch _ _ _ _ => true
  | HeuristicsRuleMatch _ _ => false
  end.

(** * Prompts *)

Definition prompt_is_rejected_by_policy (approval_policy : AskForApproval.t) (prompt_is_rule : bool) :
    option str :=
  match approval_policy with
  | AskForApproval.Never => Some PROMPT_CONFLICT_REASON
  | AskForApproval.OnRequest => None
  | AskForApproval.UnlessTrusted => None
  | AskForApproval.Granular granular_config =>
      if prompt_is_rule then
        if negb granular_config.(rules_approval) then Some REJECT_RULES_APPROVAL_REASON else None
      else if negb granular_config.(sandbox_approval) then Some REJECT_SANDBOX_APPROVAL_REASON
      else None
  end.

Definition dangerous_command_rejection_reason (m : DangerousCommandMatch) : str :=
  match m with
  | ForcedRm => lit "rm -f style commands are not permitted. Use a safer approach"
  | Other => lit "blocked by policy"
  end.

Definition derive_rejected_prompt_reason (fallback_reason : str) (m : option DangerousCommandMatch) : str :=
  match m with
  | Some ForcedRm => dangerous_command_rejection_reason ForcedRm
  | Some Other | None => fallback_reason
  end.

Definition profile_has_managed_filesystem_restrictions (profile : PermissionProfile.t) : bool :=
  let file_system_sandbox_policy := PermissionProfile.file_system_sandbox_policy profile in
  match profile with PermissionProfile.Managed _ _ => true | _ => false end
  && is_restricted file_system_sandbox_policy
  && negb (has_full_disk_write_access file_system_sandbox_policy).

(** * Amendments *)

(** A rule of the policy itself asks. *)
Definition is_prompt_rule (m : RuleMatch) : bool := is_policy_match m && (rm_decision m == Prompt).
Definition is_allow_rule (m : RuleMatch) : bool := is_policy_match m && (rm_decision m == Allow).

Definition heuristics_with (d : Decision) (rule_match : RuleMatch) : option ExecPolicyAmendment :=
  match rule_match with
  | HeuristicsRuleMatch command decision => if decision == d then Some command else None
  | _ => None
  end.

Definition try_derive_execpolicy_amendment_for_prompt_rules (matched_rules : list RuleMatch) :
    option ExecPolicyAmendment :=
  if existsb is_prompt_rule matched_rules then None
  else find_map (heuristics_with Prompt) matched_rules.

Definition try_derive_execpolicy_amendment_for_allow_rules (matched_rules : list RuleMatch) :
    option ExecPolicyAmendment :=
  if existsb is_policy_match matched_rules then None
  else find_map (heuristics_with Allow) matched_rules.

Section approval.
Context `{Shlex} (env : Env) (try_parse_shell : str -> option Tree) (linux : bool).

Definition render_shlex_command (args : list str) : str := default (join (lit " ") args) (try_join args).

Definition dangerous_command_match_for_heuristics (evaluation : Evaluation) (decision : Decision) :
    option DangerousCommandMatch :=
  find_map (fun rule_match =>
    match rule_match with
    | HeuristicsRuleMatch command matched_decision =>
        if matched_decision == decision then dangerous_command_match try_parse_shell command else None
    | _ => None
    end) evaluation.(matched_rules).

Definition render_decision_for_unmatched_command (command : list str) (context : UnmatchedCommandContext) :
    Decision :=
  let dangerous := dangerous_command_match try_parse_shell command in
  let file_system_sandbox_policy :=
    PermissionProfile.file_system_sandbox_policy context.(permission_profile) in
  let is_known_safe := is_known_safe_command try_parse_shell linux command in
  let windows_managed_fs_restrictions_without_sandbox_backend :=
    cfg_windows && (context.(windows_sandbox_level) == WindowsSandboxLevel.Disabled)
    && profile_has_managed_filesystem_restrictions context.(permission_profile) in
  if is_known_safe && negb context.(used_complex_parsing)
     && ((context.(approval_policy) == AskForApproval.UnlessTrusted)
         || windows_managed_fs_restrictions_without_sandbox_backend)
  then Allow
  else if (match dangerous with Some _ => true | None => false end)
          || windows_managed_fs_restrictions_without_sandbox_backend
  then match context.(approval_policy) with
       | AskForApproval.Never => Forbidden
       | AskForApproval.OnRequest | AskForApproval.UnlessTrusted | AskForApproval.Granular _ => Prompt
       end
  else match context.(approval_policy) with
       | AskForApproval.Never => Allow
       | AskForApproval.UnlessTrusted => Prompt
       | AskForApproval.OnRequest | AskForApproval.Granular _ =>
           match file_system_sandbox_policy.(fsp_kind) with
           | FileSystemSandboxKind.Unrestricted | FileSystemSandboxKind.ExternalSandbox => Allow
           | FileSystemSandboxKind.Restricted =>
               if requests_sandbox_override context.(sandbox_permissions) then Prompt else Allow
           end
       end.

Definition commands_for_exec_policy (command : list str) : ExecPolicyCommands :=
  match parse_shell_lc_plain_commands try_parse_shell command with
  | Some (c :: cs) => mkCommands (c :: cs) false
  | _ =>
      match parse_shell_lc_single_command_prefix try_parse_shell command with
      | Some single_command => mkCommands [single_command] true
      | None => mkCommands [command] false
      end
  end.

Definition derive_prompt_reason (command_args : list str) (evaluation : Evaluation) : option str :=
  let command := render_shlex_command command_args in
  let prompts :=
    omap (fun rule_match =>
      match rule_match with
      | PrefixRuleMatch matched_prefix Prompt _ justification => Some (length matched_prefix, justification)
      | _ => None
      end) evaluation.(matched_rules) in
  match max_by_key Nat.leb fst prompts with
  | Some (_, Some justification) =>
      Some (lit "`" ++ command ++ lit "` requires approval: " ++ justification)
  | Some (_, None) => Some (lit "`" ++ command ++ lit "` requires approval by policy")
  | None => None
  end.

Definition derive_forbidden_reason (command_args : list str) (evaluation : Evaluation)
    (dangerous : option DangerousCommandMatch) : str :=
  let command := render_shlex_command command_args in
  let forbidden :=
    omap (fun rule_match =>
      match rule_match with
      | PrefixRuleMatch matched_prefix Forbidden _ justification => Some (matched_prefix, justification)
      | _ => None
      end) evaluation.(matched_rules) in
  match max_by_key Nat.leb (fun '(matched_prefix, _) => length matched_prefix) forbidden with
  | Some (_, Some justification) => lit "`" ++ command ++ lit "` rejected: " ++ justification
  | Some (matched_prefix, None) =>
      lit "`" ++ command ++ lit "` rejected: policy forbids commands starting with `"
      ++ render_shlex_command matched_prefix ++ lit "`"
  | None =>
      match dangerous with
      | Some m => lit "`" ++ command ++ lit "` rejected: " ++ dangerous_command_rejection_reason m
      | None => lit "`" ++ command ++ lit "` rejected: blocked by policy"
      end
  end.

Definition prefix_rule_would_approve_all_commands (exec_policy : Policy PrefixRule) (prefix_rule : list str)
    (commands : list (list str)) (fallback : list str -> Decision) (options : MatchOptions) : bool :=
  match add_prefix_rule exec_policy prefix_rule Allow with
  | Err _ => false
  | Ok policy_with_prefix_rule =>
      forallb (fun command =>
        is_some_and (fun ev => ev.(ev_decision) == Allow)
          (check_with_options env policy_with_prefix_rule command fallback options)) commands
  end.

Definition derive_requested_execpolicy_amendment_from_prefix_rule (prefix_rule : option (list str))
    (matched_rules : list RuleMatch) (exec_policy : Policy PrefixRule) (commands : list (list str))
    (fallback : list str -> Decision) (options : MatchOptions) : option ExecPolicyAmendment :=
  match prefix_rule with
  | None => None
  | Some prefix_rule =>
      if prefix_rule == [] then None
      else if existsb (fun banned => prefix_rule == banned) BANNED_PREFIX_SUGGESTIONS then None
      else if existsb is_policy_match matched_rules then None
      else if prefix_rule_would_approve_all_commands exec_policy prefix_rule commands fallback options
      then Some prefix_rule else None
  end.

Definition fallback_context (req : ExecApprovalRequest) (complex : bool) : UnmatchedCommandContext :=
  mkContext req.(req_approval_policy) req.(req_permission_profile) req.(req_windows_sandbox_level)
    req.(req_sandbox_permissions) complex.

(** The heuristics the policy falls back to. *)
Definition exec_policy_fallback (req : ExecApprovalRequest) (complex : bool) (cmd : list str) : Decision :=
  render_decision_for_unmatched_command cmd (fallback_context req complex).

(** [None] is the panic of an evaluation without commands, which does not occur
    ([requirement_total]). *)
Definition create_exec_approval_requirement_for_command (exec_policy : Policy PrefixRule)
    (req : ExecApprovalRequest) : option ExecApprovalRequirement :=
  let '(mkCommands commands complex) := commands_for_exec_policy req.(req_command) in
  let auto_amendment_allowed := negb complex in
  let fallback := exec_policy_fallback req complex in
  let match_options := mkOptions true in
  match check_multiple_with_options env exec_policy commands fallback match_options with
  | None => None
  | Some evaluation =>
      let requested_amendment :=
        if auto_amendment_allowed then
          derive_requested_execpolicy_amendment_from_prefix_rule req.(req_prefix_rule)
            evaluation.(matched_rules) exec_policy commands fallback match_options
        else None in
      Some match evaluation.(ev_decision) with
      | Forbidden =>
          ForbiddenRequirement
            (derive_forbidden_reason req.(req_command) evaluation
               (dangerous_command_match_for_heuristics evaluation Forbidden))
      | Prompt =>
          let prompt_is_rule := existsb is_prompt_rule evaluation.(matched_rules) in
          match prompt_is_rejected_by_policy req.(req_approval_policy) prompt_is_rule with
          | Some reason =>
              if prompt_is_rule then ForbiddenRequirement reason
              else ForbiddenRequirement
                     (derive_rejected_prompt_reason reason
                        (dangerous_command_match_for_heuristics evaluation Prompt))
          | None =>
              NeedsApproval (derive_prompt_reason req.(req_command) evaluation)
                (match requested_amendment with
                 | Some a => Some a
                 | None =>
                     if auto_amendment_allowed
                     then try_derive_execpolicy_amendment_for_prompt_rules evaluation.(matched_rules)
                     else None
                 end)
          end
      | Allow =>
          Skip (forallb (fun command =>
                  existsb is_allow_rule
                    (matches_for_command_with_options env exec_policy command None match_options)) commands)
            (if auto_amendment_allowed
             then try_derive_execpolicy_amendment_for_allow_rules evaluation.(matched_rules)
             else None)
      end
  end.
End approval.

(** * Which commands run without asking *)

Section laws.
Context `{Shlex} (env : Env) (try_parse_shell : str -> option Tree) (linux : bool).
Implicit Types (p : Policy PrefixRule) (req : ExecApprovalRequest) (cmd : list str).

(** The rules that match a segment of a command, host executables resolved. *)
Definition rule_matches_of p cmd : list RuleMatch :=
  matches_for_command_with_options env p cmd None (mkOptions true).

Lemma matches_with_fallback p cmd fb :
  matches_for_command_with_options env p cmd (Some fb) (mkOptions true)
  = match rule_matches_of p cmd with
    | [] => [HeuristicsRuleMatch cmd (fb cmd)]
    | ms => ms
    end.
Proof. unfold rule_matches_of, matches_for_command_with_options. by repeat case_match. Qed.

Lemma rule_matches_policy p cmd m : m ∈ rule_matches_of p cmd -> is_policy_match m = true.
Proof.
  assert (forall (rs : list PrefixRule) c m,
    m ∈ omap (fun r : PrefixRule => rule_matches r c) rs -> is_policy_match m = true) as Hom.
  { intros rs c m0. rewrite list_elem_of_omap. intros (r & _ & Hr). cbn in Hr.
    unfold prefix_rule_matches in Hr. by apply fmap_Some in Hr as (? & _ & ->). }
  assert (forall x, match_exact_rules p cmd = Some x -> m ∈ x -> is_policy_match m = true) as Hex.
  { intros x. unfold match_exact_rules. destruct cmd as [|c cmd]; [done|]. intros [= <-].
    case_match; [apply Hom|by intros ?%not_elem_of_nil]. }
  assert (m ∈ match_host_executable_rules env p cmd -> is_policy_match m = true) as Hhost.
  { unfold match_host_executable_rules. repeat case_match; try by intros ?%not_elem_of_nil.
    intros (m0 & -> & Hm0%Hom)%list_elem_of_fmap. by destruct m0. }
  unfold rule_matches_of, matches_for_command_with_options, non_empty. cbn [resolve_host_executables].
  destruct (match_exact_rules p cmd) as [[|x xs]|] eqn:E; cbn.
  - destruct (match_host_executable_rules env p cmd) eqn:Eh; cbn; [by intros ?%not_elem_of_nil|done].
  - intros Hm. eapply Hex; eauto.
  - destruct (match_host_executable_rules env p cmd) eqn:Eh; cbn; [by intros ?%not_elem_of_nil|done].
Qed.

Lemma commands_nonempty command : epc_commands (commands_for_exec_policy try_parse_shell command) <> [].
Proof. unfold commands_for_exec_policy. by repeat case_match. Qed.

(** An unmatched command is let through. *)
Definition unmatched_trusted req (complex : bool) cmd : Prop :=
  (req.(req_approval_policy) = AskForApproval.UnlessTrusted /\ complex = false
   /\ is_known_safe_command try_parse_shell linux cmd = true)
  \/ (dangerous_command_match try_parse_shell cmd = None
      /\ (req.(req_approval_policy) = AskForApproval.Never
          \/ (req.(req_approval_policy) <> AskForApproval.UnlessTrusted
              /\ (is_restricted (PermissionProfile.file_system_sandbox_policy req.(req_permission_profile)) = false
                  \/ req.(req_sandbox_permissions) = UseDefault)))).

Lemma fallback_allow req complex cmd :
  exec_policy_fallback try_parse_shell linux req complex cmd = Allow <-> unmatched_trusted req complex cmd.
Proof.
  unfold exec_policy_fallback, render_decision_for_unmatched_command, unmatched_trusted, is_restricted.
  cbn [fallback_context approval_policy permission_profile sandbox_permissions used_complex_parsing
    windows_sandbox_level cfg_windows andb].
  rewrite !orb_false_r. destruct (is_known_safe_command try_parse_shell linux cmd), complex,
    (dangerous_command_match try_parse_shell cmd) as [d|], (req_approval_policy req),
    (fsp_kind (PermissionProfile.file_system_sandbox_policy (req_permission_profile req))),
    (req_sandbox_permissions req); cbn; solve [intuition congruence | naive_solver].
Qed.

Lemma fallback_forbidden req complex cmd :
  exec_policy_fallback try_parse_shell linux req complex cmd = Forbidden <->
  req.(req_approval_policy) = AskForApproval.Never /\ dangerous_command_match try_parse_shell cmd <> None.
Proof.
  unfold exec_policy_fallback, render_decision_for_unmatched_command.
  cbn [fallback_context approval_policy permission_profile sandbox_permissions used_complex_parsing
    windows_sandbox_level cfg_windows andb].
  rewrite !orb_false_r. destruct (is_known_safe_command try_parse_shell linux cmd), complex,
    (dangerous_command_match try_parse_shell cmd) as [d|], (req_approval_policy req),
    (fsp_kind (PermissionProfile.file_system_sandbox_policy (req_permission_profile req))),
    (req_sandbox_permissions req); cbn; solve [intuition congruence | naive_solver].
Qed.

(** The evaluation behind a requirement. *)
Definition segments req : list (list str) := epc_commands (commands_for_exec_policy try_parse_shell req.(req_command)).
Definition is_complex req : bool := epc_complex (commands_for_exec_policy try_parse_shell req.(req_command)).

Definition segment_matches p req cmd : list RuleMatch :=
  matches_for_command_with_options env p cmd
    (Some (exec_policy_fallback try_parse_shell linux req (is_complex req))) (mkOptions true).

Lemma requirement_evaluation p req :
  exists ev, check_multiple_with_options env p (segments req)
               (exec_policy_fallback try_parse_shell linux req (is_complex req)) (mkOptions true) = Some ev
    /\ matched_rules ev = concat (segment_matches p req <$> segments req)
    /\ strictest (ev_decision ev) (matched_rules ev).
Proof.
  unfold check_multiple_with_options. destruct (from_matches _) as [ev|] eqn:E.
  - pose proof E as [Em Es]%from_matches_spec. exists ev. split; [done|]. split; [exact Em|]. by rewrite Em.
  - exfalso. apply from_matches_None in E. unfold segments in E.
    pose proof (commands_nonempty (req_command req)) as Hn.
    destruct (epc_commands _) as [|c cs]; [done|]. cbn in E. apply app_nil in E as [E _].
    by apply matches_nonempty in E.
Qed.

Lemma elem_of_matched p req ev m :
  matched_rules ev = concat (segment_matches p req <$> segments req) ->
  m ∈ matched_rules ev <-> exists cmd, cmd ∈ segments req /\ m ∈ segment_matches p req cmd.
Proof. intros ->. apply elem_of_concat_fmap. Qed.

Abbreviation requirement := (create_exec_approval_requirement_for_command env try_parse_shell linux).

(** The three shapes of a requirement, by the decision of the evaluation. *)
Lemma requirement_cases p req :
  exists ev, matched_rules ev = concat (segment_matches p req <$> segments req)
  /\ strictest (ev_decision ev) (matched_rules ev)
  /\ exists r, requirement p req = Some r
  /\ match ev_decision ev with
     | Allow =>
         exists am, r = Skip (forallb (fun cmd => existsb is_allow_rule (rule_matches_of p cmd)) (segments req)) am
     | Forbidden => exists reason, r = ForbiddenRequirement reason
     | Prompt =>
         match prompt_is_rejected_by_policy req.(req_approval_policy) (existsb is_prompt_rule (matched_rules ev)) with
         | Some _ => exists reason, r = ForbiddenRequirement reason
         | None =>
             exists reason, r = NeedsApproval reason
               (match (if negb (is_complex req) then
                         derive_requested_execpolicy_amendment_from_prefix_rule env req.(req_prefix_rule)
                           (matched_rules ev) p (segments req)
                           (exec_policy_fallback try_parse_shell linux req (is_complex req)) (mkOptions true)
                       else None) with
                | Some a => Some a
                | None => if negb (is_complex req)
                          then try_derive_execpolicy_amendment_for_prompt_rules (matched_rules ev) else None
                end)
         end
     end.
Proof.
  destruct (requirement_evaluation p req) as (ev & E & Em & Es). exists ev. split; [done|]. split; [done|].
  unfold requirement. unfold segments, is_complex in *.
  destruct (commands_for_exec_policy try_parse_shell (req_command req)) as [cmds complex].
  cbn [epc_commands epc_complex] in *. rewrite E. eexists. split; [done|].
  destruct (ev_decision ev); [by eexists| |by eexists].
  destruct (prompt_is_rejected_by_policy _ _); [|by eexists]. by destruct (existsb _ _); eexists.
Qed.

(** C14: a command runs without asking exactly when each of its segments is
    either covered by rules that all allow it or, covered by no rule, is trusted
    by the heuristics: known safe under the untrusted mode, and otherwise not
    dangerous, and in a restricted sandbox not asking to leave it.  The sandbox is
    bypassed exactly when an allow rule covers every segment. *)
Theorem skip_iff_trusted p req :
  ((exists bypass am, requirement p req = Some (Skip bypass am)) <->
   forall cmd, cmd ∈ segments req ->
     (rule_matches_of p cmd <> [] /\ forall m, m ∈ rule_matches_of p cmd -> rm_decision m = Allow)
     \/ (rule_matches_of p cmd = [] /\ unmatched_trusted req (is_complex req) cmd))
  /\ (forall bypass am, requirement p req = Some (Skip bypass am) ->
       bypass = true <-> forall cmd, cmd ∈ segments req ->
         exists m, m ∈ rule_matches_of p cmd /\ rm_decision m = Allow).
Proof.
  destruct (requirement_cases p req) as (ev & Em & Es & r & Hr & Hcase). rewrite Hr.
  destruct (strictest_extremes _ _ Es) as [HA _]. setoid_rewrite elem_of_matched in HA; [|done]. split.
  - transitivity (ev_decision ev = Allow).
    { destruct (ev_decision ev) eqn:Ed; [destruct Hcase as [am ->]; naive_solver| |].
      - case_match; destruct Hcase as [reason ->]; naive_solver.
      - destruct Hcase as [reason ->]. naive_solver. }
    rewrite HA. unfold segment_matches. setoid_rewrite matches_with_fallback. split.
    + intros Hall cmd Hcmd. specialize (fun m Hm => Hall m (ex_intro _ cmd (conj Hcmd Hm))).
      destruct (rule_matches_of p cmd) as [|m ms] eqn:E; [right|left; done].
      split; [done|]. apply fallback_allow. apply (Hall (HeuristicsRuleMatch cmd _)). by left.
    + intros Hall m (cmd & Hcmd & Hm). destruct (Hall cmd Hcmd) as [[Hne Ha]|[Hn Ht]].
      * destruct (rule_matches_of p cmd); [done|]. by apply Ha.
      * rewrite Hn in Hm. apply list_elem_of_singleton in Hm as ->. by apply fallback_allow.
  - intros bypass am [= ->]. destruct (ev_decision ev).
    + destruct Hcase as [am' [= -> ->]]. rewrite forallb_forall. setoid_rewrite <- list_elem_of_In.
      setoid_rewrite existsb_exists. setoid_rewrite <- list_elem_of_In. unfold is_allow_rule.
      split; intros Hall cmd Hcmd; destruct (Hall cmd Hcmd) as (m & Hm & Ha); exists m; split; try done.
      * by to_props.
      * rewrite (rule_matches_policy p cmd m Hm). by apply bool_decide_eq_true.
    + case_match; by destruct Hcase as [? ?].
    + by destruct Hcase as [? ?].
Qed.

Lemma prompt_rule_segment p req cmd :
  existsb is_prompt_rule (segment_matches p req cmd) = existsb is_prompt_rule (rule_matches_of p cmd).
Proof. unfold segment_matches. rewrite matches_with_fallback. by destruct (rule_matches_of p cmd). Qed.

Lemma prompt_rule_matched p req ev :
  matched_rules ev = concat (segment_matches p req <$> segments req) ->
  existsb is_prompt_rule (matched_rules ev)
  = existsb (fun cmd => existsb is_prompt_rule (rule_matches_of p cmd)) (segments req).
Proof.
  intros ->. induction (segments req) as [|cmd cmds IH]; [done|]. cbn [fmap list_fmap concat existsb].
  by rewrite existsb_app, prompt_rule_segment, <- IH.
Qed.

Lemma forbidden_requirement p req cmd m :
  cmd ∈ segments req -> m ∈ segment_matches p req cmd -> rm_decision m = Forbidden ->
  exists reason, requirement p req = Some (ForbiddenRequirement reason).
Proof.
  intros Hcmd Hm Hd. destruct (requirement_cases p req) as (ev & Em & Es & r & Hr & Hcase).
  destruct (strictest_extremes _ _ Es) as [_ HF]. setoid_rewrite elem_of_matched in HF; [|done].
  rewrite (proj2 HF) in Hcase by eauto. rewrite Hr. destruct Hcase as [reason ->]. eauto.
Qed.

(** Asking happens only where the approval setting lets it. *)
Lemma needs_approval_allowed p req reason am :
  requirement p req = Some (NeedsApproval reason am) ->
  match req.(req_approval_policy) with
  | AskForApproval.Never => False
  | AskForApproval.OnRequest | AskForApproval.UnlessTrusted => True
  | AskForApproval.Granular config =>
      if existsb (fun cmd => existsb is_prompt_rule (rule_matches_of p cmd)) (segments req)
      then config.(rules_approval) = true else config.(sandbox_approval) = true
  end.
Proof.
  intros Hneeds. destruct (requirement_cases p req) as (ev & Em & Es & r & Hr & Hcase).
  rewrite Hneeds in Hr. simplify_eq. rewrite (prompt_rule_matched p req ev Em) in Hcase.
  destruct (ev_decision ev); [by destruct Hcase| |by destruct Hcase].
  destruct (prompt_is_rejected_by_policy _ _) eqn:Erej; [by destruct Hcase|].
  unfold prompt_is_rejected_by_policy in Erej. repeat case_match; try done; by to_props.
Qed.

(** Every request gets an answer; a segment that a rule forbids, or that
    is dangerous while asking is disabled, is forbidden; asking happens only where
    the approval setting lets it: never under Never, and under granular settings
    only for the kind of prompt (rule or sandbox) that is enabled. *)
Theorem requirement_follows_approval_policy p req :
  (exists r, requirement p req = Some r)
  /\ (forall cmd m, cmd ∈ segments req -> m ∈ segment_matches p req cmd -> rm_decision m = Forbidden ->
       exists reason, requirement p req = Some (ForbiddenRequirement reason))
  /\ (forall cmd, cmd ∈ segments req -> rule_matches_of p cmd = [] ->
       req.(req_approval_policy) = AskForApproval.Never ->
       dangerous_command_match try_parse_shell cmd <> None ->
       exists reason, requirement p req = Some (ForbiddenRequirement reason))
  /\ (forall reason am, requirement p req = Some (NeedsApproval reason am) ->
       match req.(req_approval_policy) with
       | AskForApproval.Never => False
       | AskForApproval.OnRequest | AskForApproval.UnlessTrusted => True
       | AskForApproval.Granular config =>
           if existsb (fun cmd => existsb is_prompt_rule (rule_matches_of p cmd)) (segments req)
           then config.(rules_approval) = true else config.(sandbox_approval) = true
       end).
Proof.
  split; [|split; [|split]].
  - destruct (requirement_cases p req) as (ev & _ & _ & r & Hr & _). eauto.
  - apply forbidden_requirement.
  - intros cmd Hcmd Hn Hnever Hd.
    apply (forbidden_requirement p req cmd (HeuristicsRuleMatch cmd Forbidden)); [done| |done].
    unfold segment_matches. rewrite matches_with_fallback, Hn.
    rewrite (proj2 (fallback_forbidden _ _ _)); [by left|done].
  - apply needs_approval_allowed.
Qed.

(** * Amendments *)

Lemma rule_matches_nil_exact p cmd : rule_matches_of p cmd = [] -> exact_matches p cmd = [].
Proof.
  unfold rule_matches_of, matches_for_command_with_options, exact_matches, non_empty.
  destruct (match_exact_rules p cmd) as [[|x xs]|]; cbn; try done.
Qed.

(** Allowing a command that no rule covers makes the policy allow it. *)
Lemma allow_uncovered p cmd p' fb :
  policy_ok p -> rule_matches_of p cmd = [] -> add_prefix_rule p cmd Allow = Ok p' ->
  exists ev, check_with_options env p' cmd fb (mkOptions true) = Some ev /\ ev_decision ev = Allow.
Proof.
  intros Hok Hn%rule_matches_nil_exact Hadd. destruct cmd as [|c args]; [done|]. cbn in Hadd.
  injection Hadd as <-. set (r0 := mkRule (mkPattern c (Single <$> args)) Allow None).
  set (p' := mkPolicy _ _ _). assert (policy_ok p') as Hok' by exact (mm_insert_ok r0 _ Hok).
  assert (forall m, m ∈ exact_matches p' (c :: args) -> m = prefix_match r0 (c :: args)) as Honly.
  { intros m (r & Hr & Hc & ->)%exact_matches_spec; [|done].
    apply policy_rule_mm_insert in Hr as [Hr| ->]; [|done].
    assert (prefix_match r (c :: args) ∈ exact_matches p (c :: args)) as Hin by (apply exact_matches_spec; eauto).
    rewrite Hn in Hin. by apply not_elem_of_nil in Hin. }
  destruct (check_total env fb p' (c :: args) (mkOptions true)) as (ev & E & (m & Hm & Hd) & _).
  exists ev. split; [done|]. rewrite <- Hd. rewrite matches_exact in Hm; [by rewrite (Honly _ Hm)|].
  assert (prefix_match r0 (c :: args) ∈ exact_matches p' (c :: args)) as Hin.
  { apply exact_matches_spec; [done|]. exists r0. split; [by apply policy_rule_mm_insert; right|].
    split; [|done]. by apply covers_singles. }
  intros E'. rewrite E' in Hin. by apply not_elem_of_nil in Hin.
Qed.

Lemma would_approve_spec p prefix cmds fb :
  prefix_rule_would_approve_all_commands env p prefix cmds fb (mkOptions true) = true ->
  exists p', add_prefix_rule p prefix Allow = Ok p'
    /\ (forall cmd, cmd ∈ cmds -> exists ev,
         check_with_options env p' cmd fb (mkOptions true) = Some ev /\ ev_decision ev = Allow).
Proof.
  unfold prefix_rule_would_approve_all_commands. destruct (add_prefix_rule p prefix Allow) as [p'|]; [|done].
  intros Hall. exists p'. split; [done|]. intros cmd Hcmd. rewrite forallb_forall in Hall.
  apply list_elem_of_In in Hcmd. specialize (Hall cmd Hcmd). unfold is_some_and in Hall.
  case_match; [|done]. to_props. eauto.
Qed.

(** An amendment is proposed only for a plainly parsed command; adding it
    to the policy works.  A prefix the model asked for is proposed only when it is
    not banned and lets every segment of the command through; otherwise the
    proposal is a segment that no rule covers, and adding it lets it through. *)
Theorem proposed_amendment_approves p req reason am :
  policy_ok p -> [] ∉ segments req ->
  requirement p req = Some (NeedsApproval reason (Some am)) ->
  let fb := exec_policy_fallback try_parse_shell linux req false in
  is_complex req = false
  /\ exists p', add_prefix_rule p am Allow = Ok p' /\
     ((req.(req_prefix_rule) = Some am /\ (am ∉ BANNED_PREFIX_SUGGESTIONS)
       /\ (forall cmd, cmd ∈ segments req -> exists ev,
            check_with_options env p' cmd fb (mkOptions true) = Some ev /\ ev_decision ev = Allow))
      \/ (am ∈ segments req /\ rule_matches_of p am = [] /\ fb am = Prompt
          /\ exists ev, check_with_options env p' am fb (mkOptions true) = Some ev /\ ev_decision ev = Allow)).
Proof.
  intros Hok Hne Hreq fb. destruct (requirement_cases p req) as (ev & Em & Es & r & Hr & Hcase).
  rewrite Hreq in Hr. simplify_eq. destruct (ev_decision ev); [by destruct Hcase| |by destruct Hcase].
  destruct (prompt_is_rejected_by_policy _ _); [by destruct Hcase|]. destruct Hcase as [reason' Heq].
  destruct (is_complex req) eqn:Ecx; [done|]. split; [done|]. cbn [negb] in Heq. fold fb in Heq.
  destruct (derive_requested_execpolicy_amendment_from_prefix_rule _ _ _ _ _ _ _) as [a|] eqn:Ed.
  - injection Heq as _ ->. unfold derive_requested_execpolicy_amendment_from_prefix_rule in Ed.
    repeat case_match; simplify_eq.
    match goal with H : prefix_rule_would_approve_all_commands _ _ _ _ _ _ = true |- _ =>
      apply would_approve_spec in H as (p' & Hadd & Hall) end.
    exists p'. split; [done|]. left. split; [done|]. split; [|done]. intros Hban.
    match goal with H : existsb (fun banned => _ == banned) _ = false |- _ =>
      apply existsb_false in H; rewrite Forall_forall in H; specialize (H _ Hban); by to_props end.
  - injection Heq as _ Heq. unfold try_derive_execpolicy_amendment_for_prompt_rules in Heq.
    case_match; [done|]. symmetry in Heq. apply find_map_Some in Heq as (m & Hm & Hh).
    destruct m as [|command d]; [done|]. cbn in Hh. case_match; [|done]. injection Hh as ->. to_props. subst d.
    apply (elem_of_matched p req) in Hm as (cmd & Hcmd & Hm); [|done].
    unfold segment_matches in Hm. rewrite matches_with_fallback in Hm.
    destruct (rule_matches_of p cmd) as [|m ms] eqn:Er.
    2:{ exfalso. assert (HeuristicsRuleMatch am Prompt ∈ rule_matches_of p cmd) as Hin by by rewrite Er.
        by apply rule_matches_policy in Hin. }
    apply list_elem_of_singleton in Hm. injection Hm as <- Hfb.
    destruct (add_prefix_rule p am Allow) as [p'|] eqn:Hadd; [|by destruct am].
    exists p'. split; [done|]. right. split; [done|]. split; [done|].
    split; [by rewrite Ecx in Hfb|by eapply allow_uncovered].
Qed.
End laws.

(** * The manager

    [ArcSwap<Policy>] holds the policy in force; updates take a semaphore of one
    permit that is never closed, so they happen one after the other and
    acquiring it cannot fail.  [file] is the default rules file. *)

Record ExecPolicyManager : Type := mkManager {
  mgr_policy : Policy PrefixRule;
  mgr_file : option str;
}.

Inductive ExecPolicyUpdateError : Set :=
| AppendRule (path : PathBuf) (source : AmendError)
| JoinBlockingTask
| AddRule (source : Error).

Definition default_policy_path (motyga_home : PathBuf) : PathBuf :=
  path_join (path_join motyga_home [Normal (lit "rules")]) [Normal (lit "default.rules")].

Section manager.
Context (env : Env) (to_json : str -> option str) (fails : IoStep -> bool).
(** Whether the blocking task that writes the file can be joined. *)
Context (joined : bool).
Implicit Types (self : ExecPolicyManager).

Definition append_amendment_and_update self (motyga_home : PathBuf) (amendment : ExecPolicyAmendment) :
    ExecPolicyManager * result unit ExecPolicyUpdateError :=
  let policy_path := default_policy_path motyga_home in
  let '(file, appended) := blocking_append_allow_prefix_rule to_json fails policy_path self.(mgr_file) amendment in
  let self := mkManager self.(mgr_policy) file in
  if negb joined then (self, Err JoinBlockingTask)
  else match appended with
  | Err source => (self, Err (AppendRule policy_path source))
  | Ok _ =>
      let current_policy := self.(mgr_policy) in
      let already_allowed :=
        is_some_and (fun ev => (ev.(ev_decision) == Allow) && existsb is_allow_rule ev.(matched_rules))
          (check_multiple_with_options env current_policy [amendment] (fun _ => Forbidden) (mkOptions true)) in
      if already_allowed then (self, Ok tt)
      else match add_prefix_rule current_policy amendment Allow with
           | Err source => (self, Err (AddRule source))
           | Ok updated_policy => (mkManager updated_policy self.(mgr_file), Ok tt)
           end
  end.

Definition append_network_rule_and_update self (motyga_home : PathBuf) (host : str)
    (protocol : NetworkRuleProtocol) (d : Decision) (justification : option str) :
    ExecPolicyManager * result unit ExecPolicyUpdateError :=
  let policy_path := default_policy_path motyga_home in
  let '(file, appended) :=
    blocking_append_network_rule to_json fails policy_path self.(mgr_file) host protocol d justification in
  let self := mkManager self.(mgr_policy) file in
  if negb joined then (self, Err JoinBlockingTask)
  else match appended with
  | Err source => (self, Err (AppendRule policy_path source))
  | Ok _ =>
      match add_network_rule self.(mgr_policy) host protocol d justification with
      | Err source => (self, Err (AddRule source))
      | Ok updated_policy => (mkManager updated_policy self.(mgr_file), Ok tt)
      end
  end.
End manager.

Lemma blocking_append_prefix to_json fails path file prefix :
  default [] file `prefix_of` default [] (blocking_append_allow_prefix_rule to_json fails path file prefix).1.
Proof.
  unfold blocking_append_allow_prefix_rule, append_rule_line, io_step.
  repeat case_match; try done; apply append_locked_line_prefix.
Qed.

(** A rule match that allows settles a command whatever the heuristics say. *)
Lemma allowed_by_rule env p cmd fb ev :
  check_multiple_with_options env p [cmd] fb (mkOptions true) = Some ev ->
  ev_decision ev = Allow -> existsb is_allow_rule (matched_rules ev) = true ->
  forall fb', exists ev', check_with_options env p cmd fb' (mkOptions true) = Some ev' /\ ev_decision ev' = Allow.
Proof.
  unfold check_multiple_with_options. cbn [fmap list_fmap concat]. rewrite app_nil_r.
  intros [Em Es]%from_matches_spec Hd (m & Hm%list_elem_of_In & [Hp _]%andb_true_iff)%existsb_exists fb'.
  rewrite Em, matches_with_fallback in Hm. rewrite matches_with_fallback in Es.
  destruct (check_total env fb' p cmd (mkOptions true)) as (ev' & E & (m' & Hm' & Hd') & _).
  exists ev'. split; [done|]. rewrite <- Hd'. rewrite matches_with_fallback in Hm'.
  destruct (rule_matches_of env p cmd) as [|x xs].
  { apply list_elem_of_singleton in Hm as ->. done. }
  rewrite Hd in Es. by apply (strictest_allow _ Es).
Qed.

(** Adding an allow rule for a command leaves only an older rule to refuse it. *)
Lemma added_allow env p p' cmd fb :
  policy_ok p -> add_prefix_rule p cmd Allow = Ok p' ->
  exists ev, check_with_options env p' cmd fb (mkOptions true) = Some ev
    /\ (ev_decision ev = Allow
        \/ exists r, policy_rule p r /\ pattern_covers r.(pattern) cmd /\ r.(decision) <> Allow).
Proof.
  intros Hok Hadd. destruct cmd as [|c args]; [done|]. cbn in Hadd. injection Hadd as <-.
  set (r0 := mkRule (mkPattern c (Single <$> args)) Allow None). set (p' := mkPolicy _ _ _).
  assert (policy_ok p') as Hok' by exact (mm_insert_ok r0 _ Hok).
  assert (prefix_match r0 (c :: args) ∈ exact_matches p' (c :: args)) as Hin.
  { apply exact_matches_spec; [done|]. exists r0. split; [by apply policy_rule_mm_insert; right|].
    split; [|done]. by apply covers_singles. }
  destruct (check_total env fb p' (c :: args) (mkOptions true)) as (ev & E & (m & Hm & Hd) & _).
  exists ev. split; [done|].
  rewrite matches_exact in Hm by (intros E'; rewrite E' in Hin; by apply not_elem_of_nil in Hin).
  apply exact_matches_spec in Hm as (r & Hr & Hc & ->); [|done]. cbn in Hd.
  apply policy_rule_mm_insert in Hr as [Hr| ->]; [|by left].
  destruct (decide (ev_decision ev = Allow)); [by left|right]. exists r. split; [done|]. split; [done|]. by rewrite Hd.
Qed.

Lemma add_prefix_rule_keeps p cmd d p' :
  policy_ok p -> add_prefix_rule p cmd d = Ok p' ->
  policy_ok p' /\ forall r, policy_rule p r -> policy_rule p' r.
Proof.
  intros Hok. destruct cmd as [|c args]; [done|]. cbn. intros [= <-]. split.
  - exact (mm_insert_ok (mkRule (mkPattern c (Single <$> args)) d None) _ Hok).
  - intros r Hr. apply policy_rule_mm_insert. by left.
Qed.

(** Approving an amendment never loses a rule, in memory or in the rules
    file; when it fails, the policy in force is unchanged; when it succeeds, the
    approved command is allowed from then on, whatever the heuristics say, unless
    an older rule of the policy refuses it. *)
Theorem amendment_update_effect env to_json fails joined self home am self' res :
  policy_ok self.(mgr_policy) ->
  append_amendment_and_update env to_json fails joined self home am = (self', res) ->
  policy_ok self'.(mgr_policy)
  /\ (forall r, policy_rule self.(mgr_policy) r -> policy_rule self'.(mgr_policy) r)
  /\ default [] self.(mgr_file) `prefix_of` default [] self'.(mgr_file)
  /\ (is_ok res = false -> self'.(mgr_policy) = self.(mgr_policy))
  /\ (res = Ok tt -> forall fb, exists ev,
       check_with_options env self'.(mgr_policy) am fb (mkOptions true) = Some ev
       /\ (ev_decision ev = Allow
           \/ exists r, policy_rule self.(mgr_policy) r /\ pattern_covers r.(pattern) am /\ r.(decision) <> Allow)).
Proof.
  intros Hok. unfold append_amendment_and_update.
  pose proof (blocking_append_prefix to_json fails (default_policy_path home) (mgr_file self) am) as Hpre.
  destruct (blocking_append_allow_prefix_rule _ _ _ _ _) as [file appended]. cbn [fst] in Hpre.
  cbn [mgr_policy mgr_file].
  destruct joined; cbn [negb]; [|by intros [= <- <-]]. destruct appended as [u|e]; [|by intros [= <- <-]].
  set (already := is_some_and _ _). destruct already eqn:Ea; subst already.
  - intros [= <- <-]. cbn. unfold is_some_and in Ea. case_match eqn:Ec; [|done].
    apply andb_true_iff in Ea as [Hd%bool_decide_eq_true_1 Ha].
    split; [done|]. split; [done|]. split; [done|]. split; [done|]. intros _ fb.
    destruct (allowed_by_rule _ _ _ _ _ Ec Hd Ha fb) as (ev' & ? & ?). eauto.
  - destruct (add_prefix_rule _ am Allow) as [p'|] eqn:Hadd; intros [= <- <-]; [|done]. cbn.
    destruct (add_prefix_rule_keeps _ _ _ _ Hok Hadd).
    split; [done|]. split; [done|]. split; [done|]. split; [done|]. intros _ fb. by apply added_allow.
Qed.

(** * Concrete runs *)

Definition w_request : ExecApprovalRequest :=
  mkRequest (w_cmd ["cargo"; "test"]) AskForApproval.UnlessTrusted
    (PermissionProfile.Managed (ManagedFileSystemPermissions.Restricted (fsp_entries read_only) None)
       NetworkSandboxPolicy.Restricted)
    WindowsSandboxLevel.Disabled UseDefault (Some (w_cmd ["cargo"])).

Lemma proposed_amendment_approves_witness :
  create_exec_approval_requirement_for_command (H := WVal_Shlex) w_env w_parser true w_policy w_request
    = Some (NeedsApproval None (Some (w_cmd ["cargo"])))
  /\ (w_cmd ["cargo"] ∉ BANNED_PREFIX_SUGGESTIONS).
Proof.
  assert (create_exec_approval_requirement_for_command (H := WVal_Shlex) w_env w_parser true w_policy w_request
    = Some (NeedsApproval None (Some (w_cmd ["cargo"])))) as E by (vm_compute; reflexivity).
  split; [exact E|].
  destruct (proposed_amendment_approves (H := WVal_Shlex) w_env w_parser true w_policy w_request None
    (w_cmd ["cargo"]) w_policy_ok) as (_ & p' & _ & [(_ & Hb & _)|(Hs & _)]).
  - vm_compute. set_solver.
  - exact E.
  - exact Hb.
  - exfalso. vm_compute in Hs. set_solver.
Defined.

Lemma amendment_update_effect_witness :
  let r := append_amendment_and_update w_env (fun s => Some s) (fun _ => false) true (mkManager w_policy None)
             [RootDir; Normal (lit "home")] (w_cmd ["cargo"]) in
  r.2 = Ok tt /\ policy_ok (mgr_policy r.1)
  /\ exists ev, check_with_options w_env (mgr_policy r.1) (w_cmd ["cargo"]) (fun _ => Forbidden) (mkOptions true)
       = Some ev /\ ev_decision ev = Allow.
Proof.
  intros r. assert (r.2 = Ok tt) as E by (vm_compute; reflexivity). split; [exact E|].
  destruct (amendment_update_effect w_env (fun s => Some s) (fun _ => false) true (mkManager w_policy None)
    [RootDir; Normal (lit "home")] (w_cmd ["cargo"]) r.1 r.2 w_policy_ok (surjective_pairing r))
    as (Hok & _ & _ & _ & Hres).
  split; [exact Hok|]. destruct (Hres E (fun _ => Forbidden)) as (ev & Hev & _). exists ev.
  split; [exact Hev|]. vm_compute in Hev. injection Hev as <-. reflexivity.
Defined.
