(* ===== verification/Orchestrator.v ===== *)
(** [core/src/tools/orchestrator.rs] and the approval and sandbox choices of
    [core/src/tools/sandboxing.rs]: from a tool call to approval, a first attempt
    under the selected sandbox, and a retry after a sandbox denial.

    A tool is an instance of [ToolRuntime] (the traits [Approvable], [Sandboxable]
    and [ToolRuntime]), the services of the session an instance of [Session];
    both keep a state of their own, which every call may change.  The state of a
    run adds a log of what the run did to the outside: decisions and outcomes
    reported to telemetry, prompts, and attempts.  Times are not modelled. *)

From stdpp Require Import base list option numbers strings gmap.
From Stdlib Require Import NArith ZArith Lia.
From S2P Require Import Prelude RustStr AbsolutePath Permissions PermissionLaws PermissionProfile PolicyTransforms.
From S2P Require Import ExecRule ExecPolicy PolicyParser BashParse CommandSafety ExecApproval.
Local Open Scope rust_scope.

(** * Decisions ([protocol/src/protocol.rs], [protocol/src/approvals.rs]) *)

Inductive NetworkApprovalProtocol : Set := NapHttp | NapHttps | NapSocks5Tcp | NapSocks5Udp.
#[global] Instance NetworkApprovalProtocol_eq_dec : EqDecision NetworkApprovalProtocol.
Proof. solve_decision. Defined.

Record NetworkApprovalContext : Set := mkNetworkApprovalContext {
  nac_host : str;
  nac_protocol : NetworkApprovalProtocol;
}.

Module NetworkPolicyRuleAction.
Inductive t : Set := Allow | Deny.
End NetworkPolicyRuleAction.

Record NetworkPolicyAmendment : Set := mkNetworkPolicyAmendment {
  npa_host : str;
  npa_action : NetworkPolicyRuleAction.t;
}.

Module ReviewDecision.
Inductive t : Set :=
| Approved
| ApprovedExecpolicyAmendment (proposed_execpolicy_amendment : ExecPolicyAmendment)
| ApprovedForSession
| NetworkPolicyAmendment (network_policy_amendment : NetworkPolicyAmendment)
| Denied
| TimedOut
| Abort.

Definition to_opaque_string (self : t) : str :=
  match self with
  | Approved => lit "approved"
  | ApprovedExecpolicyAmendment _ => lit "approved_with_amendment"
  | ApprovedForSession => lit "approved_for_session"
  | NetworkPolicyAmendment a =>
      match a.(npa_action) with
      | NetworkPolicyRuleAction.Allow => lit "approved_with_network_policy_allow"
      | NetworkPolicyRuleAction.Deny => lit "denied_with_network_policy_deny"
      end
  | Denied => lit "denied"
  | TimedOut => lit "timed_out"
  | Abort => lit "abort"
  end.

(** The decisions that let a tool run. *)
Definition approves (self : t) : bool :=
  match self with
  | Approved | ApprovedExecpolicyAmendment _ | ApprovedForSession => true
  | NetworkPolicyAmendment a =>
      match a.(npa_action) with NetworkPolicyRuleAction.Allow => true | NetworkPolicyRuleAction.Deny => false end
  | Denied | TimedOut | Abort => false
  end.
End ReviewDecision.

#[global] Instance NetworkPolicyRuleAction_eq_dec : EqDecision NetworkPolicyRuleAction.t.
Proof. solve_decision. Defined.
#[global] Instance NetworkPolicyAmendment_eq_dec : EqDecision NetworkPolicyAmendment.
Proof. solve_decision. Defined.
#[global] Instance ReviewDecision_eq_dec : EqDecision ReviewDecision.t.
Proof. solve_decision. Defined.

(** * The cache of approvals ([ApprovalStore], [with_cached_approval]) *)

(** Keys are stored in their JSON form; [to_string] may fail. *)
Section cache.
Context {K : Type} (to_string : K -> option str).

Abbreviation ApprovalStore := (gmap str ReviewDecision.t).

Definition store_get (self : ApprovalStore) (key : K) : option ReviewDecision.t :=
  match to_string key with Some s => self !! s | None => None end.

Definition store_put (self : ApprovalStore) (key : K) (value : ReviewDecision.t) : ApprovalStore :=
  match to_string key with Some s => <[s := value]> self | None => self end.

(** [fetch] asks the user; meanwhile other tasks may add to the store.  The last
    component is the number of calls of [fetch]. *)
Definition with_cached_approval (keys : list K) (fetch : ApprovalStore -> ApprovalStore * ReviewDecision.t)
    (store : ApprovalStore) : ApprovalStore * ReviewDecision.t * nat :=
  match keys with
  | [] => (fetch store, 1)
  | _ =>
      let already_approved :=
        forallb (fun key => store_get store key == Some ReviewDecision.ApprovedForSession) keys in
      if already_approved then (store, ReviewDecision.ApprovedForSession, 0)
      else
        let '(store, decision) := fetch store in
        if decision == ReviewDecision.ApprovedForSession
        then (foldl (fun store key => store_put store key ReviewDecision.ApprovedForSession) store keys, decision, 1)
        else (store, decision, 1)
  end.

(** ** Properties *)

Lemma store_put_get store k v j :
  store_get (store_put store k v) j
  = match to_string k, to_string j with
    | Some a, Some b => if decide (a = b) then Some v else store !! b
    | _, _ => store_get store j
    end.
Proof.
  unfold store_get, store_put. destruct (to_string k) as [a|], (to_string j) as [b|]; try done.
  case_decide; subst; [by rewrite lookup_insert_eq|by rewrite lookup_insert_ne].
Qed.

Lemma put_all_get keys store j :
  (exists k, k ∈ keys /\ to_string k = to_string j /\ is_Some (to_string j)) \/
  store_get store j = Some ReviewDecision.ApprovedForSession ->
  store_get (foldl (fun store key => store_put store key ReviewDecision.ApprovedForSession) store keys) j
  = Some ReviewDecision.ApprovedForSession.
Proof.
  revert store. induction keys as [|x keys IH]; intros store; cbn [foldl].
  - by intros [(k & ?%not_elem_of_nil & _)|].
  - intros H. apply IH. destruct H as [(k & [->|Hk]%elem_of_cons & Heq & [s Hs])|H].
    + right. rewrite store_put_get, Heq, Hs. by rewrite decide_True by done.
    + left. eauto.
    + right. rewrite store_put_get. unfold store_get in *.
      destruct (to_string x), (to_string j); cbn; try case_decide; done.
Qed.

(** The user is not asked exactly when there are keys and every one of them
    is approved for the session; then nothing changes.  A request without keys is
    always asked.  After an approval for the session, a request for any of the
    same keys is answered without asking, provided they can be serialised. *)
Theorem cached_approval_spec keys fetch store :
  let '(store', decision, asked) := with_cached_approval keys fetch store in
  (asked = 0 <-> keys <> [] /\ Forall (fun k => store_get store k = Some ReviewDecision.ApprovedForSession) keys)
  /\ (asked = 0 -> store' = store /\ decision = ReviewDecision.ApprovedForSession)
  /\ (asked <> 0 -> decision = (fetch store).2
      /\ (decision <> ReviewDecision.ApprovedForSession -> store' = (fetch store).1))
  /\ (decision = ReviewDecision.ApprovedForSession ->
      forall keys' fetch', keys' <> [] -> (forall k, k ∈ keys' -> k ∈ keys /\ is_Some (to_string k)) ->
        with_cached_approval keys' fetch' store' = (store', ReviewDecision.ApprovedForSession, 0)).
Proof.
  assert (forall ks f s, ks <> [] -> (forall k, k ∈ ks -> store_get s k = Some ReviewDecision.ApprovedForSession) ->
            with_cached_approval ks f s = (s, ReviewDecision.ApprovedForSession, 0)) as Hcached.
  { intros ks f s Hne Hall. unfold with_cached_approval. destruct ks as [|k ks]; [done|].
    match goal with |- (if ?b then _ else _) = _ => assert (b = true) as ->; [|done] end.
    apply forallb_forall. intros x Hx%list_elem_of_In. by apply bool_decide_eq_true, Hall. }
  unfold with_cached_approval at 1. destruct keys as [|k keys].
  { destruct (fetch store) as [s d]. split; [naive_solver|]. split; [done|]. split; [done|].
    intros _ keys' fetch' Hne Hin. destruct keys' as [|x ks]; [done|]. exfalso. destruct (Hin x) as [Hx _]; [left|].
    by apply not_elem_of_nil in Hx. }
  set (all := k :: keys). destruct (forallb _ all) eqn:E.
  - assert (Forall (fun k => store_get store k = Some ReviewDecision.ApprovedForSession) all) as Hall.
    { apply Forall_forall. intros x Hx%list_elem_of_In. eapply forallb_forall in E; [|exact Hx]. by to_props. }
    split; [done|]. split; [done|]. split; [done|]. intros _ keys' fetch' Hne Hin. apply Hcached; [done|].
    intros x Hx. rewrite Forall_forall in Hall. apply Hall, (Hin x Hx).
  - assert (~ Forall (fun k => store_get store k = Some ReviewDecision.ApprovedForSession) all) as Hn.
    { intros Hall. rewrite Forall_forall in Hall. apply not_true_iff_false in E. apply E, forallb_forall.
      intros x Hx%list_elem_of_In. by apply bool_decide_eq_true, Hall. }
    destruct (fetch store) as [s d] eqn:Ef. case_bool_decide as Hd.
    + split; [naive_solver|]. split; [done|]. split; [done|]. intros _ keys' fetch' Hne Hin. apply Hcached; [done|].
      intros x Hx. destruct (Hin x Hx) as [Hxk Hs]. apply put_all_get. left. eauto.
    + split; [naive_solver|]. split; [done|]. by split.
Qed.
End cache.

(** * Requirements and sandbox choices ([sandboxing.rs]) *)

Definition proposed_execpolicy_amendment (self : ExecApprovalRequirement) : option ExecPolicyAmendment :=
  match self with
  | NeedsApproval _ (Some prefix) => Some prefix
  | Skip _ (Some prefix) => Some prefix
  | _ => None
  end.

Definition default_exec_approval_requirement (policy : AskForApproval.t)
    (file_system_sandbox_policy : FileSystemSandboxPolicy) : ExecApprovalRequirement :=
  let needs_approval :=
    match policy with
    | AskForApproval.Never => false
    | AskForApproval.OnRequest | AskForApproval.Granular _ => is_restricted file_system_sandbox_policy
    | AskForApproval.UnlessTrusted => true
    end in
  if needs_approval
     && match policy with AskForApproval.Granular c => negb c.(sandbox_approval) | _ => false end
  then ForbiddenRequirement (lit "approval policy disallowed sandbox approval prompt")
  else if needs_approval then NeedsApproval None None
  else Skip false None.

Inductive SandboxOverride : Set := NoOverride | BypassSandboxFirstAttempt.

Definition unsandboxed_execution_allowed (file_system_sandbox_policy : FileSystemSandboxPolicy) : bool :=
  negb (has_denied_read_restrictions file_system_sandbox_policy).

Definition sandbox_override_for_first_attempt (sandbox_permissions : SandboxPermissions)
    (exec_approval_requirement : ExecApprovalRequirement) (file_system_sandbox_policy : FileSystemSandboxPolicy) :
    SandboxOverride :=
  if negb (unsandboxed_execution_allowed file_system_sandbox_policy) then NoOverride
  else match exec_approval_requirement with
       | Skip true _ => BypassSandboxFirstAttempt
       | _ => if requires_escalated_permissions sandbox_permissions then BypassSandboxFirstAttempt else NoOverride
       end.

Definition sandbox_permissions_preserving_denied_reads (sandbox_permissions : SandboxPermissions)
    (file_system_sandbox_policy : FileSystemSandboxPolicy) : SandboxPermissions :=
  if requires_escalated_permissions sandbox_permissions
     && negb (unsandboxed_execution_allowed file_system_sandbox_policy)
  then UseDefault else sandbox_permissions.

Definition managed_network_for_sandbox_permissions {Network} (network : option Network)
    (sandbox_permissions : SandboxPermissions) : option Network :=
  if requires_escalated_permissions sandbox_permissions then None else network.

(** The provided methods of [Approvable]. *)
Definition should_bypass_approval_default (policy : AskForApproval.t) (already_approved : bool) : bool :=
  if already_approved then true
  else match policy with AskForApproval.Never => true | _ => false end.

Definition wants_no_sandbox_approval_default (policy : AskForApproval.t) : bool :=
  match policy with
  | AskForApproval.UnlessTrusted => true
  | AskForApproval.Never | AskForApproval.OnRequest => false
  | AskForApproval.Granular granular_config => granular_config.(sandbox_approval)
  end.

(** * Denials from the network proxy *)

Module NetworkPolicyDecision.
Inductive t : Set := Deny | Ask.
End NetworkPolicyDecision.
Module NetworkDecisionSource.
Inductive t : Set := BaselinePolicy | ModeGuard | ProxyState | Decider.
End NetworkDecisionSource.

Record NetworkPolicyDecisionPayload : Set := mkPayload {
  payload_decision : NetworkPolicyDecision.t;
  payload_source : NetworkDecisionSource.t;
  payload_protocol : option NetworkApprovalProtocol;
  payload_host : option str;
  payload_reason : option str;
  payload_port : option N;
}.

Definition is_ask_from_decider (self : NetworkPolicyDecisionPayload) : bool :=
  match self.(payload_decision), self.(payload_source) with
  | NetworkPolicyDecision.Ask, NetworkDecisionSource.Decider => true
  | _, _ => false
  end.

Definition network_approval_context_from_payload (payload : NetworkPolicyDecisionPayload) :
    option NetworkApprovalContext :=
  if negb (is_ask_from_decider payload) then None
  else match payload.(payload_protocol), payload.(payload_host) with
       | Some protocol, Some host =>
           let host := trim host in
           if host == [] then None else Some (mkNetworkApprovalContext host protocol)
       | _, _ => None
       end.

(** * Errors of a tool *)

(** From [core/src/tools/network_approval.rs]. *)
Inductive NetworkApprovalOutcome : Set := DeniedByUser | DeniedByPolicy (message : str).
#[global] Instance NetworkApprovalOutcome_eq_dec : EqDecision NetworkApprovalOutcome.
Proof. solve_decision. Defined.

Section errors.
Context {Output OtherErr : Type}.

Inductive SandboxErr : Type :=
| SandboxDenied (output : Output) (network_policy_decision : option NetworkPolicyDecisionPayload)
| SandboxTimeout (output : Output)
| SandboxSignal (signal : Z)
| SandboxOther.

Inductive MotygaErr : Type :=
| MotygaSandbox (e : SandboxErr)
| MotygaOther (e : OtherErr).

Inductive ToolError : Type :=
| Rejected (reason : str)
| ToolMotyga (e : MotygaErr).

Definition sandbox_outcome_from_tool_error (err : ToolError) : option str :=
  match err with
  | ToolMotyga (MotygaSandbox (SandboxDenied _ _)) => Some (lit "denied")
  | ToolMotyga (MotygaSandbox (SandboxTimeout _)) => Some (lit "timed_out")
  | ToolMotyga (MotygaSandbox (SandboxSignal _)) => Some (lit "signal")
  | Rejected _ | ToolMotyga _ => None
  end.

Definition network_approval_outcome_to_result (outcome : option NetworkApprovalOutcome) : result unit ToolError :=
  match outcome with
  | Some DeniedByUser => Err (Rejected (lit "rejected by user"))
  | Some (DeniedByPolicy message) => Err (Rejected message)
  | None => Ok tt
  end.

Definition build_denial_reason_from_output (output : Output) : str :=
  lit "command failed; retry without sandbox?".
End errors.
Arguments SandboxErr : clear implicits.
Arguments MotygaErr : clear implicits.
Arguments ToolError : clear implicits.

(** * The traits and the session *)

Inductive ToolDecisionSource : Set := SourceConfig | SourceUser | SourceAutomatedReviewer.

Module PermissionRequestDecision.
Inductive t : Set := Allow | Deny (message : str).
End PermissionRequestDecision.

Record ApprovalCtx : Set := mkApprovalCtx {
  guardian_review_id : option str;
  retry_reason : option str;
  network_approval_context : option NetworkApprovalContext;
}.

Inductive NetworkApprovalMode : Set := Immediate | Deferred.

Record SandboxAttempt {PathUri : Type} : Type := mkAttempt {
  att_sandbox : SandboxType.t;
  att_sandbox_requested : bool;
  att_permissions : PermissionProfile.t;
  att_exec_server_permissions : PermissionProfile.t;
  att_enforce_managed_network : bool;
  att_sandbox_cwd : PathUri;
  att_workspace_roots : list AbsolutePathBuf;
  att_linux_sandbox_exe : option PathBuf;
  att_use_legacy_landlock : bool;
  att_windows_sandbox_level : WindowsSandboxLevel.t;
  att_windows_sandbox_private_desktop : bool;
  (** Present when a network approval is registered for the attempt. *)
  att_cancellable : bool;
}.
Arguments SandboxAttempt : clear implicits.
Arguments mkAttempt {PathUri}.

(** The context of a turn, as far as a run reads it. *)
Record TurnContext {PathUri : Type} : Type := mkTurn {
  turn_permission_profile : PermissionProfile.t;
  turn_exec_server_permissions : PermissionProfile.t;
  turn_file_system_sandbox_policy : FileSystemSandboxPolicy;
  turn_network_sandbox_policy : NetworkSandboxPolicy.t;
  turn_network_is_some : bool;
  turn_windows_sandbox_level : WindowsSandboxLevel.t;
  turn_windows_sandbox_private_desktop : bool;
  turn_use_legacy_landlock : bool;
  turn_cwd : PathUri;
  turn_workspace_roots : list AbsolutePathBuf;
  turn_linux_sandbox_exe : option PathBuf;
  turn_routes_approval_to_guardian : bool;
}.
Arguments TurnContext : clear implicits.
Arguments mkTurn {PathUri}.

Class ToolRuntime (Tool World Rq Out PathUri Output OtherErr Payload Spec : Type) : Type := {
  exec_approval_requirement : Tool -> Rq -> option ExecApprovalRequirement;
  tool_sandbox_permissions : Tool -> Rq -> SandboxPermissions;
  should_bypass_approval : Tool -> AskForApproval.t -> bool -> bool;
  permission_request_payload : Tool -> Rq -> option Payload;
  wants_no_sandbox_approval : Tool -> AskForApproval.t -> bool;
  sandbox_preference : Tool -> SandboxablePreference.t;
  escalate_on_failure : Tool -> bool;
  network_approval_spec : Tool -> Rq -> option Spec;
  sandbox_cwd : Tool -> Rq -> option PathUri;
  start_approval_async : Rq -> ApprovalCtx -> Tool -> World -> Tool * World * ReviewDecision.t;
  tool_run : Rq -> SandboxAttempt PathUri -> Tool -> World ->
    Tool * World * result Out (ToolError Output OtherErr);
}.

(** [finish_*] give the outcome recorded for the call. *)
Class Session (World Payload Spec Active Handle : Type) : Type := {
  strict_auto_review_enabled_for_turn : World -> bool;
  new_guardian_review_id : World -> World * str;
  guardian_rejection_message : str -> World -> World * str;
  run_permission_request_hooks : str -> Payload -> World -> World * option PermissionRequestDecision.t;
  begin_network_approval : bool -> option Spec -> World -> World * option Active;
  active_mode : Active -> NetworkApprovalMode;
  into_deferred : Active -> option Handle;
  finish_immediate_network_approval : Active -> World -> World * option NetworkApprovalOutcome;
  finish_deferred_network_approval : option Handle -> World -> World * option NetworkApprovalOutcome;
}.

(** * The run *)

Inductive Event {PathUri R : Type} : Type :=
| EvDecision (decision : ReviewDecision.t) (source : ToolDecisionSource)
| EvOutcome (outcome : str)
| EvHooks (run_id : str)
| EvAsk (ctx : ApprovalCtx)
| EvAttempt (attempt : SandboxAttempt PathUri) (result : R).
Arguments Event : clear implicits.

Definition GUARDIAN_TIMEOUT_INSTRUCTIONS : str :=
  lit "The automatic permission approval review did not finish before its deadline. " ++
  lit "Do not assume the action is unsafe based on the timeout alone. " ++
  lit "You may retry once, or ask the user for guidance or explicit approval.".

Section orchestrator.
Context {Tool World Rq Out PathUri Output OtherErr Payload Spec Active Handle : Type}.
Context {TR : ToolRuntime Tool World Rq Out PathUri Output OtherErr Payload Spec}.
Context {SE : Session World Payload Spec Active Handle}.
Context (target_os : TargetOs).

Abbreviation err := (ToolError Output OtherErr).
Abbreviation event := (Event PathUri (result Out err)).

Record RunState : Type := mkRun { run_tool : Tool; run_world : World; run_log : list event }.

(** Computations that change the state of the run, and fallible ones ([?]). *)
Definition M (A : Type) : Type := RunState -> A * RunState.
#[local] Instance M_ret : MRet M := fun A a s => (a, s).
#[local] Instance M_bind : MBind M := fun A B f m s => let '(a, s) := m s in f a s.

Definition bind_ok {A B} (m : M (result A err)) (f : A -> M (result B err)) : M (result B err) :=
  r ← m; match r with Ok a => f a | Err e => mret (Err e) end.
#[local] Notation "x <-? m ; k" := (bind_ok m (fun x => k)) (at level 20, m at level 100, k at level 200, only parsing).

Definition log (e : event) : M unit := fun s => (tt, mkRun s.(run_tool) s.(run_world) (s.(run_log) ++ [e])).
Definition get_tool : M Tool := fun s => (s.(run_tool), s).
Definition in_world {A} (f : World -> World * A) : M A := fun s =>
  let '(w, a) := f s.(run_world) in (a, mkRun s.(run_tool) w s.(run_log)).
Definition in_tool {A} (f : Tool -> World -> Tool * World * A) : M A := fun s =>
  let '(t, w, a) := f s.(run_tool) s.(run_world) in (a, mkRun t w s.(run_log)).

Definition request_approval (req : Rq) (permission_request_run_id : str) (approval_ctx : ApprovalCtx)
    (evaluate_permission_request_hooks : bool) : M (result ReviewDecision.t err) :=
  tool ← get_tool;
  hook ← (match (if evaluate_permission_request_hooks then permission_request_payload tool req else None) with
          | Some permission_request =>
              _ ← log (EvHooks permission_request_run_id);
              in_world (run_permission_request_hooks permission_request_run_id permission_request)
          | None => mret None
          end : M (option PermissionRequestDecision.t));
  match hook with
  | Some PermissionRequestDecision.Allow =>
      _ ← log (EvDecision ReviewDecision.Approved SourceConfig); mret (Ok ReviewDecision.Approved)
  | Some (PermissionRequestDecision.Deny message) =>
      _ ← log (EvDecision ReviewDecision.Denied SourceConfig); mret (Err (Rejected message))
  | None =>
      _ ← log (EvAsk approval_ctx);
      decision ← in_tool (start_approval_async req approval_ctx);
      _ ← log (EvDecision decision
                 (if is_some approval_ctx.(guardian_review_id) then SourceAutomatedReviewer else SourceUser));
      mret (Ok decision)
  end.

Definition reject_if_not_approved (guardian_review_id : option str) (decision : ReviewDecision.t) :
    M (result unit err) :=
  match decision with
  | ReviewDecision.Denied | ReviewDecision.Abort =>
      reason ← (match guardian_review_id with
                | Some review_id => in_world (guardian_rejection_message review_id)
                | None => mret (lit "rejected by user")
                end : M str);
      mret (Err (Rejected reason))
  | ReviewDecision.TimedOut => mret (Err (Rejected GUARDIAN_TIMEOUT_INSTRUCTIONS))
  | ReviewDecision.Approved | ReviewDecision.ApprovedExecpolicyAmendment _
  | ReviewDecision.ApprovedForSession => mret (Ok tt)
  | ReviewDecision.NetworkPolicyAmendment a =>
      match a.(npa_action) with
      | NetworkPolicyRuleAction.Allow => mret (Ok tt)
      | NetworkPolicyRuleAction.Deny => mret (Err (Rejected (lit "rejected by user")))
      end
  end.

Definition run_attempt (req : Rq) (attempt : SandboxAttempt PathUri) (managed_network_active : bool) :
    M (result Out err * option Handle) :=
  tool ← get_tool;
  network_approval ← in_world (begin_network_approval managed_network_active (network_approval_spec tool req));
  let attempt := mkAttempt attempt.(att_sandbox) attempt.(att_sandbox_requested) attempt.(att_permissions)
    attempt.(att_exec_server_permissions) attempt.(att_enforce_managed_network) attempt.(att_sandbox_cwd)
    attempt.(att_workspace_roots) attempt.(att_linux_sandbox_exe) attempt.(att_use_legacy_landlock)
    attempt.(att_windows_sandbox_level) attempt.(att_windows_sandbox_private_desktop)
    (is_some network_approval) in
  run_result ← in_tool (tool_run req attempt);
  _ ← log (EvAttempt attempt run_result);
  match network_approval with
  | None => mret (run_result, None)
  | Some network_approval =>
      match active_mode network_approval with
      | Immediate =>
          outcome ← in_world (finish_immediate_network_approval network_approval);
          mret (match network_approval_outcome_to_result outcome with Err e => (Err e, None) | Ok _ => (run_result, None) end)
      | Deferred =>
          let deferred := into_deferred network_approval in
          if is_ok run_result then mret (run_result, deferred)
          else
            outcome ← in_world (finish_deferred_network_approval deferred);
            mret (match network_approval_outcome_to_result outcome with Err e => (Err e, None) | Ok _ => (run_result, None) end)
      end
  end.

(** [use_guardian.then(new_guardian_review_id)]. *)
Definition review_id_when (b : bool) : M (option str) :=
  if b then i ← in_world new_guardian_review_id; mret (Some i) else mret None.

Definition ask (req : Rq) (run_id : str) (use_guardian hooks : bool) (reason : option str)
    (context : option NetworkApprovalContext) : M (result unit err) :=
  guardian_review_id ← review_id_when use_guardian;
  decision <-? request_approval req run_id (mkApprovalCtx guardian_review_id reason context) hooks;
  reject_if_not_approved guardian_review_id decision.

Context (turn : TurnContext PathUri) (call_id : str) (approval_policy : AskForApproval.t) (req : Rq).
Abbreviation policy := turn.(turn_file_system_sandbox_policy).

(** 1) Approval: whether the call was approved by a reviewer. *)
Definition approval_phase (strict_auto_review : bool) (requirement : ExecApprovalRequirement) :
    M (result bool err) :=
  let use_guardian := turn.(turn_routes_approval_to_guardian) || strict_auto_review in
  match requirement with
  | Skip _ _ =>
      if strict_auto_review then
        _ <-? ask req call_id true false None None; mret (Ok true)
      else _ ← log (EvDecision ReviewDecision.Approved SourceConfig); mret (Ok false)
  | ForbiddenRequirement reason => mret (Err (Rejected reason))
  | NeedsApproval reason _ =>
      _ <-? ask req call_id use_guardian (negb strict_auto_review) reason None; mret (Ok true)
  end.

Definition sandbox_policy_cwd (tool : Tool) : PathUri := default turn.(turn_cwd) (sandbox_cwd tool req).

Definition attempt_with (cwd : PathUri) (sandbox : SandboxType.t) (requested : bool) (exe : option PathBuf) :
    SandboxAttempt PathUri :=
  mkAttempt sandbox requested turn.(turn_permission_profile) turn.(turn_exec_server_permissions)
    turn.(turn_network_is_some) cwd turn.(turn_workspace_roots) exe turn.(turn_use_legacy_landlock)
    turn.(turn_windows_sandbox_level) turn.(turn_windows_sandbox_private_desktop) false.

Definition select (preference : SandboxablePreference.t) (requested : bool) : SandboxType.t :=
  if requested
  then select_initial target_os policy turn.(turn_network_sandbox_policy) preference
         turn.(turn_windows_sandbox_level) turn.(turn_network_is_some)
  else SandboxType.None.

Definition wants_sandbox (preference : SandboxablePreference.t) : bool :=
  should_sandbox policy turn.(turn_network_sandbox_policy) preference turn.(turn_network_is_some).

Definition retry_reason_for (context : option NetworkApprovalContext) (output : Output) : str :=
  match context with
  | Some context => lit "Network access to " ++ [QUOTE] ++ context.(nac_host) ++ [QUOTE] ++ lit " is blocked by policy."
  | None => build_denial_reason_from_output output
  end.

Definition report_outcome (e : err) : M unit :=
  match sandbox_outcome_from_tool_error e with Some outcome => log (EvOutcome outcome) | None => mret tt end.

(** What a run returns: the output and a network approval left open. *)
Abbreviation RunResult := (Out * option Handle)%type.

(** The denial is final. *)
Definition give_up_denied (output : Output) (payload : option NetworkPolicyDecisionPayload) :
    M (result RunResult err) :=
  _ ← log (EvOutcome (lit "denied"));
  mret (Err (ToolMotyga (MotygaSandbox (SandboxDenied output payload)))).

(** The second attempt after a sandbox denial. *)
Definition retry_phase (strict_auto_review already_approved : bool) (preference : SandboxablePreference.t)
    (cwd : PathUri) (output : Output) (payload : option NetworkPolicyDecisionPayload) : M (result RunResult err) :=
  let use_guardian := turn.(turn_routes_approval_to_guardian) || strict_auto_review in
  let managed_network_active := turn.(turn_network_is_some) in
  let context :=
    if managed_network_active
    then match payload with Some payload => network_approval_context_from_payload payload | None => None end
    else None in
  tool ← get_tool;
  if is_some payload && negb (is_some context) then give_up_denied output payload
  else if negb (escalate_on_failure tool) then give_up_denied output payload
  else
    let unsandboxed_allowed := unsandboxed_execution_allowed policy in
    let allow_on_request_network_prompt :=
      (approval_policy == AskForApproval.OnRequest) && is_some context
      && match default_exec_approval_requirement approval_policy policy with
         | NeedsApproval _ _ => true
         | _ => false
         end in
    if negb (wants_no_sandbox_approval tool approval_policy) && negb allow_on_request_network_prompt
    then give_up_denied output payload
    else if negb unsandboxed_allowed && negb (is_some context) then give_up_denied output payload
    else
      let bypass_retry_approval :=
        negb strict_auto_review && should_bypass_approval tool approval_policy already_approved
        && negb (is_some context) in
      _ <-? (if bypass_retry_approval then mret (Ok tt)
             else ask req (call_id ++ lit ":retry") use_guardian (negb strict_auto_review)
                    (Some (retry_reason_for context output)) context);
      let retry_sandbox_requested := negb unsandboxed_allowed && wants_sandbox preference in
      let attempt := attempt_with cwd (select preference retry_sandbox_requested) retry_sandbox_requested
        (if unsandboxed_allowed then None else turn.(turn_linux_sandbox_exe)) in
      r ← run_attempt req attempt managed_network_active;
      match r with
      | (Ok output, deferred) => _ ← log (EvOutcome (lit "escalated")); mret (Ok (output, deferred))
      | (Err e, _) => _ ← report_outcome e; mret (Err e)
      end.

(** The run once the requirement is known. *)
Definition run_with (strict_auto_review : bool) (requirement : ExecApprovalRequirement) : M (result RunResult err) :=
  already_approved <-? approval_phase strict_auto_review requirement;
  tool ← get_tool;
  let sandbox_override :=
    sandbox_override_for_first_attempt (tool_sandbox_permissions tool req) requirement policy in
  let preference := sandbox_preference tool in
  let sandbox_requested :=
    match sandbox_override with BypassSandboxFirstAttempt => false | NoOverride => wants_sandbox preference end in
  let cwd := sandbox_policy_cwd tool in
  let initial_attempt :=
    attempt_with cwd (select preference sandbox_requested) sandbox_requested turn.(turn_linux_sandbox_exe) in
  r ← run_attempt req initial_attempt turn.(turn_network_is_some);
  match r with
  | (Ok out, deferred) => mret (Ok (out, deferred))
  | (Err (ToolMotyga (MotygaSandbox (SandboxDenied output payload))), _) =>
      retry_phase strict_auto_review already_approved preference cwd output payload
  | (Err e, _) => _ ← report_outcome e; mret (Err e)
  end.

(** The requirement the run works from. *)
Definition requirement_of (tool : Tool) : ExecApprovalRequirement :=
  default (default_exec_approval_requirement approval_policy policy) (exec_approval_requirement tool req).

Definition run : M (result RunResult err) :=
  strict_auto_review ← in_world (fun w => (w, strict_auto_review_enabled_for_turn w));
  tool ← get_tool;
  run_with strict_auto_review (requirement_of tool).

(** * What a run does

    [emits m Q]: from every state, [m] only appends to the log, and [Q] holds of
    what it appends and returns. *)

Definition emits {A} (m : M A) (Q : list event -> A -> Prop) : Prop :=
  forall s, exists l, run_log (m s).2 = run_log s ++ l /\ Q l (m s).1.

Lemma emits_weaken {A} (m : M A) (Q Q' : list event -> A -> Prop) :
  emits m Q -> (forall l a, Q l a -> Q' l a) -> emits m Q'.
Proof. intros H HQ s. destruct (H s) as (l & ? & ?). eauto. Qed.

Lemma emits_ret {A} (a : A) (Q : list event -> A -> Prop) : Q [] a -> emits (mret a) Q.
Proof. intros H s. exists []. by rewrite app_nil_r. Qed.

Lemma emits_bind {A B} (m : M A) (f : A -> M B) (Q1 : list event -> A -> Prop) (Q : list event -> B -> Prop) :
  emits m Q1 -> (forall l a, Q1 l a -> emits (f a) (fun l' b => Q (l ++ l') b)) -> emits (m ≫= f) Q.
Proof.
  intros Hm Hf s. destruct (Hm s) as (l & El & HQ). unfold mbind, M_bind. destruct (m s) as [a s1]. cbn in *.
  destruct (Hf l a HQ s1) as (l' & El' & HQ'). exists (l ++ l'). by rewrite El', El, app_assoc.
Qed.

Lemma emits_bind_ok {A B} (m : M (result A err)) (f : A -> M (result B err))
    (Q1 : list event -> result A err -> Prop) (Q : list event -> result B err -> Prop) :
  emits m Q1 -> (forall l a, Q1 l (Ok a) -> emits (f a) (fun l' b => Q (l ++ l') b)) ->
  (forall l e, Q1 l (Err e) -> Q l (Err e)) -> emits (bind_ok m f) Q.
Proof.
  intros Hm Hf He. apply (emits_bind m _ Q1 Q Hm). intros l [a|e] H; [by apply Hf|].
  apply emits_ret. rewrite app_nil_r. by apply He.
Qed.

Lemma emits_log e (Q : list event -> unit -> Prop) : Q [e] tt -> emits (log e) Q.
Proof. intros H s. by exists [e]. Qed.
Lemma emits_world {A} (f : World -> World * A) (Q : list event -> A -> Prop) : (forall a, Q [] a) -> emits (in_world f) Q.
Proof. intros H s. exists []. unfold in_world. destruct (f _). by rewrite app_nil_r. Qed.
Lemma emits_tool {A} (f : Tool -> World -> Tool * World * A) (Q : list event -> A -> Prop) :
  (forall a, Q [] a) -> emits (in_tool f) Q.
Proof. intros H s. exists []. unfold in_tool. destruct (f _ _) as [[]]. by rewrite app_nil_r. Qed.
Lemma emits_get_tool (Q : list event -> Tool -> Prop) : (forall t, Q [] t) -> emits get_tool Q.
Proof. intros H s. exists []. by rewrite app_nil_r. Qed.

(** Step through a computation, event by event. *)
Ltac emit_step :=
  match goal with
  | |- emits (mret _) _ => apply emits_ret
  | |- emits (mret ?a ≫= _) _ => eapply (emits_bind _ _ (fun l b => l = [] /\ b = a)); [by apply emits_ret|intros ? ? [-> ->]]
  | |- emits (get_tool ≫= _) _ => eapply (emits_bind _ _ (fun l _ => l = [])); [by apply emits_get_tool|intros ? ? ->]
  | |- emits (in_world _ ≫= _) _ => eapply (emits_bind _ _ (fun l _ => l = [])); [by apply emits_world|intros ? ? ->]
  | |- emits (in_tool _ ≫= _) _ => eapply (emits_bind _ _ (fun l _ => l = [])); [by apply emits_tool|intros ? ? ->]
  | |- emits (log ?e ≫= _) _ => eapply (emits_bind _ _ (fun l _ => l = [e])); [by apply emits_log|intros ? ? ->]
  end; cbn [app].

Definition attempts_of (l : list event) : list (SandboxAttempt PathUri * result Out err) :=
  omap (fun e => match e with EvAttempt a r => Some (a, r) | _ => None end) l.
Definition is_ask (e : event) : bool := match e with EvAsk _ => true | _ => false end.
Definition is_approval (e : event) : bool :=
  match e with EvDecision d _ => ReviewDecision.approves d | _ => false end.

Lemma attempts_of_app l l' : attempts_of (l ++ l') = attempts_of l ++ attempts_of l'.
Proof. apply omap_app. Qed.

Lemma attempts_of_attempt l a r l' :
  attempts_of (l ++ EvAttempt a r :: l') = attempts_of l ++ (a, r) :: attempts_of l'.
Proof. by rewrite attempts_of_app. Qed.

(** A decision lets the run go on exactly when it approves. *)
Lemma reject_emits guard d :
  emits (reject_if_not_approved guard d) (fun l r => l = [] /\ is_ok r = ReviewDecision.approves d).
Proof.
  unfold reject_if_not_approved. destruct d as [| | |a| | |]; try (destruct guard); repeat emit_step; try done.
  all: destruct a as [host []]; cbn [npa_action]; repeat emit_step; done.
Qed.

(** Asking: no attempt; success comes with an approving decision, from the
    automated reviewer when it is in charge, and without it no question. *)
Lemma ask_emits run_id use_guardian hooks reason context :
  emits (ask req run_id use_guardian hooks reason context) (fun l r =>
    attempts_of l = []
    /\ (is_ok r = true -> existsb is_approval l = true)
    /\ (is_ok r = true -> use_guardian = true -> hooks = false ->
         exists d, EvDecision d SourceAutomatedReviewer ∈ l /\ ReviewDecision.approves d = true)).
Proof.
  unfold ask. apply (emits_bind _ _ (fun l i => l = [] /\ is_some i = use_guardian)).
  { unfold review_id_when. destruct use_guardian; repeat emit_step; done. }
  intros ? guard [-> Hguard]. cbn [app].
  apply (emits_bind_ok _ _ (fun l r => attempts_of l = [] /\ forall d, r = Ok d ->
    (ReviewDecision.approves d = true -> existsb is_approval l = true)
    /\ (is_some guard = true -> hooks = false -> EvDecision d SourceAutomatedReviewer ∈ l))).
  - unfold request_approval. emit_step.
    eapply (emits_bind _ _ (fun l hook => attempts_of l = [] /\ (hooks = false -> hook = None))).
    { destruct hooks; [destruct (permission_request_payload _ _)|]; repeat emit_step; try done. by apply emits_world. }
    intros l hook [Hl Hhook]. destruct hook as [[|message]|]; repeat emit_step;
      rewrite ?attempts_of_app, ?Hl; (split; [done|]); intros d [= <-].
    + rewrite existsb_app, orb_true_r. split; [done|]. intros _ Hh. by specialize (Hhook Hh).
    + rewrite existsb_app. cbn [existsb is_approval]. split; [intros ->; by rewrite orb_true_r|].
      intros Hs _. cbn [guardian_review_id]. rewrite Hs, !elem_of_app, !elem_of_cons. auto.
  - intros l d [Hl Hd]. destruct (Hd d eq_refl) as [Ha Hg]. eapply emits_weaken; [apply reject_emits|].
    cbn beta. intros ? r [-> Hr]. rewrite app_nil_r, Hr. split; [done|]. split; [done|]. intros Hok Hu Hh.
    exists d. split; [apply Hg; [by rewrite Hguard|done]|done].
  - intros l e [Hl _]. split; [done|]. by split.
Qed.

Definition denied_by_sandbox (r : result Out err) : Prop :=
  exists output payload, r = Err (ToolMotyga (MotygaSandbox (SandboxDenied output payload))).

(** An attempt runs the tool once, as asked; a denial it reports is the tool's. *)
Lemma run_attempt_emits attempt managed :
  emits (run_attempt req attempt managed) (fun l r => exists a res, l = [EvAttempt a res]
    /\ att_sandbox a = att_sandbox attempt /\ att_sandbox_requested a = att_sandbox_requested attempt
    /\ (denied_by_sandbox r.1 -> res = r.1)).
Proof.
  unfold run_attempt. emit_step. emit_step. emit_step. emit_step.
  destruct a0 as [active|]; [destruct (active_mode active); [|destruct (is_ok a1)]|]; repeat emit_step.
  all: eexists _, _; split; [done|]; split; [done|]; split; [done|]; try done.
  all: match goal with o : option NetworkApprovalOutcome |- _ => destruct o as [[]|] end; cbn; [by intros (? & ? & ?)..|done].
Qed.

Definition approved_by_reviewer (l : list event) : Prop :=
  exists d, EvDecision d SourceAutomatedReviewer ∈ l /\ ReviewDecision.approves d = true.

Lemma approval_phase_emits strict requirement :
  emits (approval_phase strict requirement) (fun l r =>
    attempts_of l = [] /\ (is_ok r = true -> existsb is_approval l = true)
    /\ (strict = true -> is_ok r = true -> approved_by_reviewer l)
    /\ (forall reason, requirement = ForbiddenRequirement reason -> l = [] /\ r = Err (Rejected reason))
    /\ (strict = false -> (forall reason am, requirement <> NeedsApproval reason am) -> existsb is_ask l = false)).
Proof.
  unfold approval_phase. destruct requirement as [bypass am|reason am|reason].
  - destruct strict.
    + eapply emits_bind_ok; [apply ask_emits| |]; cbn beta.
      * intros l [] (Hl & Ha & Hr). emit_step. rewrite app_nil_r. split; [done|]. split; [auto|].
        split; [|done]. intros _ _. by apply Hr.
      * intros l e (Hl & _). by repeat split.
    + repeat emit_step. done.
  - eapply emits_bind_ok; [apply ask_emits| |]; cbn beta.
    + intros l [] (Hl & Ha & Hr). emit_step. rewrite app_nil_r. split; [done|]. split; [auto|].
      split; [|split; [done|naive_solver]]. intros -> _. apply Hr; [done|by rewrite orb_true_r|done].
    + intros l e (Hl & _). repeat split; try done. naive_solver.
  - emit_step. repeat split; try done. all: by simplify_eq.
Qed.

(** The tool offers no prompt for leaving the sandbox under this approval policy. *)
Definition never_escalates : Prop :=
  approval_policy = AskForApproval.Never /\ forall t : Tool, wants_no_sandbox_approval t approval_policy = false.

(** The sandbox that the policy selects for a preference. *)
Definition confined_as (preference : SandboxablePreference.t) (a : SandboxAttempt PathUri) : Prop :=
  att_sandbox_requested a = wants_sandbox preference /\ att_sandbox a = select preference (wants_sandbox preference).

Lemma give_up_emits output payload (Q : list event -> result RunResult err -> Prop) :
  Q [EvOutcome (lit "denied")] (Err (ToolMotyga (MotygaSandbox (SandboxDenied output payload)))) ->
  emits (give_up_denied output payload) Q.
Proof. intros H. unfold give_up_denied. repeat emit_step. done. Qed.

Lemma report_outcome_emits e : emits (report_outcome e) (fun l _ => attempts_of l = [] /\ existsb is_ask l = false).
Proof. unfold report_outcome. case_match; [by apply emits_log|by apply emits_ret]. Qed.

Lemma retry_emits strict approved preference cwd output payload :
  emits (retry_phase strict approved preference cwd output payload) (fun l r =>
    (attempts_of l = [] \/ exists lb a res lc, l = lb ++ EvAttempt a res :: lc
       /\ attempts_of lb = [] /\ attempts_of lc = []
       /\ (strict = true -> approved_by_reviewer lb)
       /\ (unsandboxed_execution_allowed policy = false -> confined_as preference a))
    /\ (never_escalates -> existsb is_ask l = false)).
Proof.
  unfold retry_phase. set (context := if turn_network_is_some turn then _ else _). clearbody context. emit_step.
  do 4 match goal with |- emits (if ?b then _ else _) _ =>
    destruct b eqn:?; [by apply give_up_emits; auto|] end.
  assert (~ never_escalates) as Hnever.
  { intros [Hp Hw]. rewrite Hw in *. by rewrite Hp in *. }
  match goal with |- emits (bind_ok (if ?b then _ else _) _) _ => set (bypass := b) end.
  apply (emits_bind_ok _ _ (fun l r => attempts_of l = [] /\ (is_ok r = true -> strict = true -> approved_by_reviewer l))).
  - destruct bypass eqn:Eb.
    + apply emits_ret. split; [done|]. intros _ ->. done.
    + eapply emits_weaken; [apply ask_emits|]. cbn beta. intros l r (Hl & _ & Hr). split; [done|].
      intros Hok ->. apply Hr; [done|by rewrite orb_true_r|done].
  - intros lb [] [Hlb Hrev]. eapply emits_bind; [apply run_attempt_emits|].
    intros la [r deferred] (att & res & -> & Hsb & Hrq & _). cbn [fst] in *.
    assert (emits (match (r, deferred) with
        | (Ok output, deferred) => _ ← log (EvOutcome (lit "escalated")); mret (Ok (output, deferred))
        | (Err e, _) => _ ← report_outcome e; mret (Err e)
        end) (fun lc (_ : result RunResult err) => attempts_of lc = [])) as Htail.
    { destruct r as [out|e]; [by repeat emit_step|]. eapply emits_bind; [apply report_outcome_emits|].
      cbn beta. intros lc _ [Hlc _]. apply emits_ret. by rewrite app_nil_r. }
    eapply emits_weaken; [exact Htail|]. cbn beta. intros lc b Hlc. split; [|done]. right.
    exists lb, att, res, lc. split; [done|]. split; [done|]. split; [done|]. split; [auto|].
    intros Hu. unfold confined_as. rewrite Hsb, Hrq, Hu. done.
  - intros l e [Hl _]. split; [by left|done].
Qed.

(** What the log of a run looks like. *)
Definition run_shape (strict : bool) (confined : SandboxAttempt PathUri -> Prop) (l : list event) : Prop :=
  attempts_of l = []
  \/ exists la a1 r1 lt, l = la ++ EvAttempt a1 r1 :: lt
       /\ attempts_of la = [] /\ existsb is_approval la = true /\ (strict = true -> approved_by_reviewer la)
       /\ confined a1
       /\ (attempts_of lt = []
           \/ exists lb a2 r2 lc, lt = lb ++ EvAttempt a2 r2 :: lc
                /\ attempts_of lb = [] /\ attempts_of lc = [] /\ denied_by_sandbox r1
                /\ (strict = true -> approved_by_reviewer lb) /\ confined a2).

Lemma run_with_emits strict requirement :
  emits (run_with strict requirement) (fun l r =>
    (forall reason, requirement = ForbiddenRequirement reason -> l = [] /\ r = Err (Rejected reason))
    /\ run_shape strict (fun a => unsandboxed_execution_allowed policy = false ->
         exists t : Tool, confined_as (sandbox_preference t) a) l
    /\ (strict = false -> never_escalates -> (forall reason am, requirement <> NeedsApproval reason am) ->
         existsb is_ask l = false)).
Proof.
  unfold run_with. eapply emits_bind_ok; [apply approval_phase_emits| |]; cbn beta.
  2:{ intros l e (Hl & _ & _ & Hf & Ha).
      split; [intros reason Hr; by destruct (Hf _ Hr) as [-> [= ->]]|]. split; [by left|auto]. }
  intros la approved (Hla & Happ & Hrev & Hf & Hask). emit_step.
  set (requested := match sandbox_override_for_first_attempt (tool_sandbox_permissions a req) requirement policy with
                    | NoOverride => wants_sandbox (sandbox_preference a)
                    | BypassSandboxFirstAttempt => false
                    end).
  assert (unsandboxed_execution_allowed policy = false -> requested = wants_sandbox (sandbox_preference a)) as Hreq.
  { intros Hu. unfold requested, sandbox_override_for_first_attempt. by rewrite Hu. }
  clearbody requested. eapply emits_bind; [apply run_attempt_emits|].
  intros lx [r deferred] (a1 & res & -> & Hsb & Hrq & Hden). cbn [fst] in *.
  assert (unsandboxed_execution_allowed policy = false ->
    exists t : Tool, confined_as (sandbox_preference t) a1) as Hconf.
  { intros Hu. exists a. unfold confined_as. rewrite Hsb, Hrq. cbn. by rewrite Hreq. }
  assert (forall lt (b : result RunResult err),
    (attempts_of lt = [] \/ exists lb a2 r2 lc, lt = lb ++ EvAttempt a2 r2 :: lc
       /\ attempts_of lb = [] /\ attempts_of lc = [] /\ denied_by_sandbox res
       /\ (strict = true -> approved_by_reviewer lb)
       /\ (unsandboxed_execution_allowed policy = false -> exists t : Tool, confined_as (sandbox_preference t) a2)) ->
    (never_escalates -> existsb is_ask lt = false) ->
    let l := la ++ [EvAttempt a1 res] ++ lt in
    (forall reason, requirement = ForbiddenRequirement reason -> l = [] /\ b = Err (Rejected reason))
    /\ run_shape strict (fun a => unsandboxed_execution_allowed policy = false ->
         exists t : Tool, confined_as (sandbox_preference t) a) l
    /\ (strict = false -> never_escalates -> (forall reason am, requirement <> NeedsApproval reason am) ->
         existsb is_ask l = false)) as Hall.
  { intros lt b Hlt Hask' l. split; [intros reason Hr; by destruct (Hf _ Hr) as [_ ?]|]. split.
    - right. exists la, a1, res, lt. auto 10.
    - intros Hs Hn Hne. unfold l. rewrite !existsb_app, (Hask Hs Hne). cbn. auto. }
  assert (forall e : err, emits (_ ← report_outcome e; mret (Err e)) (fun (lt : list event) (b : result RunResult err) =>
    attempts_of lt = [] /\ existsb is_ask lt = false)) as Hrep.
  { intros e. eapply emits_bind; [apply report_outcome_emits|]. cbn beta. intros lt _ H. emit_step. by rewrite app_nil_r. }
  destruct r as [out|[reason|[[output payload|output|sig|]|other]]].
  { emit_step. apply Hall; [by left|done]. }
  { eapply emits_weaken; [apply Hrep|]. cbn beta. intros lt b [? ?]. apply Hall; [by left|done]. }
  { eapply emits_weaken; [apply retry_emits|]. cbn beta. intros lt b [Hlt Hn]. apply Hall; [|done].
    destruct Hlt as [?|(lb & a2 & r2 & lc & -> & ? & ? & ? & Hc)]; [by left|]. right. exists lb, a2, r2, lc.
    split; [done|]. split; [done|]. split; [done|]. split; [|split; [done|eauto]].
    assert (denied_by_sandbox (Err (ToolMotyga (MotygaSandbox (SandboxDenied output payload))))) as Hd by by eexists _, _.
    by rewrite (Hden Hd). }
  all: eapply emits_weaken; [apply Hrep|]; cbn beta; intros lt b [? ?]; apply Hall; [by left|done].
Qed.

(** C1: a run is a decision phase, at most one attempt, and at most one retry.
    The tool runs only after an approving decision is on record; a forbidden call
    does nothing at all; the retry happens only after the sandbox denied the first
    attempt; and under strict review both the first attempt and the retry follow
    an approval by the reviewer of their own. *)
Theorem run_follows_approval s :
  let strict := strict_auto_review_enabled_for_turn s.(run_world) in
  exists l, run_log (run s).2 = run_log s ++ l
  /\ (forall reason, requirement_of s.(run_tool) = ForbiddenRequirement reason ->
        l = [] /\ (run s).1 = Err (Rejected reason))
  /\ run_shape strict (fun _ => True) l.
Proof.
  intros strict. destruct s as [t w lg]. destruct (run_with_emits strict (requirement_of t) (mkRun t w lg))
    as (l & El & Hf & Hs & _). exists l. split; [exact El|]. split; [exact Hf|].
  destruct Hs as [?|(la & a1 & r1 & lt & -> & ? & ? & ? & _ & Hlt)]; [by left|right].
  exists la, a1, r1, lt. repeat (split; [done|]). destruct Hlt as [?|(lb & a2 & r2 & lc & -> & ? & ? & ? & ? & _)]; [by left|].
  right. exists lb, a2, r2, lc. auto 10.
Qed.

(** When the policy denies reading some place and the tool does not forbid
    sandboxing, every attempt of a run, the retry included, asks for a sandbox and
    gets the one of the platform, whatever was approved. *)
Theorem denied_reads_stay_sandboxed s :
  denies_some_read policy = true ->
  (forall t : Tool, sandbox_preference t <> SandboxablePreference.Forbid) ->
  exists l, run_log (run s).2 = run_log s ++ l
  /\ Forall (fun '(a, _) => att_sandbox_requested a = true
       /\ att_sandbox a = default SandboxType.None (get_platform_sandbox target_os
            (turn.(turn_windows_sandbox_level) != WindowsSandboxLevel.Disabled))) (attempts_of l).
Proof.
  intros Hd Hpref. destruct s as [t w lg].
  destruct (run_with_emits (strict_auto_review_enabled_for_turn w) (requirement_of t) (mkRun t w lg)) as (l & El & _ & Hs & _).
  exists l. split; [exact El|].
  assert (unsandboxed_execution_allowed policy = false) as Hu.
  { unfold denies_some_read in Hd. apply andb_true_iff in Hd as [Hk (e & He & [Hde _]%andb_true_iff)%existsb_exists].
    apply negb_false_iff. unfold has_denied_read_restrictions. rewrite Hk. cbn. apply existsb_exists. eauto. }
  assert (forall a, (unsandboxed_execution_allowed policy = false -> exists t : Tool, confined_as (sandbox_preference t) a) ->
    att_sandbox_requested a = true /\ att_sandbox a = default SandboxType.None (get_platform_sandbox target_os
            (turn_windows_sandbox_level turn != WindowsSandboxLevel.Disabled))) as Hconf.
  { intros a Ha. destruct (Ha Hu) as (t' & Hr & Hb).
    assert (wants_sandbox (sandbox_preference t') = true) as Hw.
    { unfold wants_sandbox. destruct (sandbox_preference t') eqn:Ep; [|done|by destruct (Hpref t')].
      by apply required_when_denied. }
    rewrite Hr, Hb, Hw. split; [done|]. unfold select, select_initial. unfold wants_sandbox in Hw. by rewrite Hw. }
  destruct Hs as [->|(la & a1 & r1 & lt & -> & Hla & _ & _ & Hc1 & Hlt)]; [constructor|].
  rewrite attempts_of_attempt, Hla. constructor; [auto|].
  destruct Hlt as [->|(lb & a2 & r2 & lc & -> & Hlb & Hlc & _ & _ & Hc2)]; [constructor|].
  rewrite attempts_of_attempt, Hlb, Hlc. repeat constructor; by apply Hconf.
Qed.

(** With approvals set to Never, a tool whose requirement comes from the
    execution policy (or from the default) and that keeps the default for leaving
    the sandbox is run or refused without ever asking, whatever the policy, the
    command and the outcome of the attempt are, unless strict review is on. *)
Theorem never_mode_never_prompts `{Shlex} env try_parse_shell linux p er s :
  approval_policy = AskForApproval.Never -> er.(req_approval_policy) = AskForApproval.Never ->
  (forall t : Tool, wants_no_sandbox_approval t approval_policy = wants_no_sandbox_approval_default approval_policy) ->
  (forall t : Tool, exec_approval_requirement t req = None \/
     exec_approval_requirement t req = create_exec_approval_requirement_for_command env try_parse_shell linux p er) ->
  strict_auto_review_enabled_for_turn s.(run_world) = false ->
  exists l, run_log (run s).2 = run_log s ++ l /\ existsb is_ask l = false.
Proof.
  intros Hp He Hw Hreq Hs. destruct s as [t w lg]. cbn [run_world] in Hs.
  destruct (run_with_emits (strict_auto_review_enabled_for_turn w) (requirement_of t) (mkRun t w lg)) as (l & El & _ & _ & Ha).
  exists l. split; [exact El|]. apply Ha; [done| |].
  - split; [done|]. intros t'. by rewrite Hw, Hp.
  - intros reason am. unfold requirement_of. destruct (Hreq t) as [-> | ->]; [by rewrite Hp|].
    destruct (create_exec_approval_requirement_for_command _ _ _ _ _) as [r|] eqn:Er; cbn; [|by rewrite Hp].
    intros ->. apply needs_approval_allowed in Er. by rewrite He in Er.
Qed.
End orchestrator.

(** * Concrete runs *)

(** A tool that records nothing, prefers a sandbox when one is called for, and is
    denied by the sandbox on its first attempt; the reviewer approves. *)
Module Demo.
#[local] Instance tool : ToolRuntime nat unit unit str PathBuf str unit unit unit := {|
  exec_approval_requirement _ _ := None;
  tool_sandbox_permissions _ _ := RequireEscalated;
  should_bypass_approval _ := should_bypass_approval_default;
  permission_request_payload _ _ := None;
  wants_no_sandbox_approval _ := wants_no_sandbox_approval_default;
  sandbox_preference _ := SandboxablePreference.Auto;
  escalate_on_failure _ := true;
  network_approval_spec _ _ := None;
  sandbox_cwd _ _ := None;
  start_approval_async _ _ t w := (t, w, ReviewDecision.Approved);
  tool_run _ _ t w :=
    (S t, w, match t with
             | 0 => Err (ToolMotyga (MotygaSandbox (SandboxDenied (lit "no") None)))
             | _ => Ok (lit "done")
             end);
|}.

#[local] Instance session : Session unit unit unit unit unit := {|
  strict_auto_review_enabled_for_turn _ := false;
  new_guardian_review_id w := (w, lit "r");
  guardian_rejection_message _ w := (w, lit "no");
  run_permission_request_hooks _ _ w := (w, None);
  begin_network_approval _ _ w := (w, None);
  active_mode _ := Immediate;
  into_deferred _ := None;
  finish_immediate_network_approval _ w := (w, None);
  finish_deferred_network_approval _ w := (w, None);
|}.

Definition turn_with (policy : FileSystemSandboxPolicy) : TurnContext PathBuf :=
  mkTurn (PermissionProfile.Managed (ManagedFileSystemPermissions.Restricted policy.(fsp_entries) None)
            NetworkSandboxPolicy.Restricted)
    (PermissionProfile.Managed (ManagedFileSystemPermissions.Restricted policy.(fsp_entries) None)
       NetworkSandboxPolicy.Restricted)
    policy NetworkSandboxPolicy.Restricted false WindowsSandboxLevel.Disabled false false [RootDir] [] None false.

Definition start : @RunState nat unit str PathBuf str unit := mkRun 0 tt [].
End Demo.

(** Without denied reads, the approved call leaves the sandbox at once: the
    escalated attempt is denied, and the retry succeeds without asking again. *)
Example escalated_run :
  let r := run (TR := Demo.tool) (SE := Demo.session) Linux (Demo.turn_with read_only) (lit "c")
             AskForApproval.UnlessTrusted tt Demo.start in
  r.1 = Ok (lit "done", None)
  /\ length (filter (fun e => is_ask e) (run_log r.2)) = 1
  /\ ((fun '(a, _) => att_sandbox a) <$> attempts_of (run_log r.2)) = [SandboxType.None; SandboxType.None].
Proof. vm_compute. done. Qed.

Lemma denied_reads_stay_sandboxed_witness :
  let r := run (TR := Demo.tool) (SE := Demo.session) Linux (Demo.turn_with w_fs_policy) (lit "c")
             AskForApproval.UnlessTrusted tt Demo.start in
  length (attempts_of (run_log r.2)) = 1
  /\ exists l, run_log r.2 = run_log Demo.start ++ l
     /\ Forall (fun '(a, _) => att_sandbox_requested a = true /\ att_sandbox a = SandboxType.LinuxSeccomp) (attempts_of l).
Proof.
  intros r. split; [vm_compute; reflexivity|].
  refine (denied_reads_stay_sandboxed (TR := Demo.tool) (SE := Demo.session) Linux (Demo.turn_with w_fs_policy)
    (lit "c") AskForApproval.UnlessTrusted tt Demo.start _ _).
  - vm_compute. reflexivity.
  - intros t. discriminate.
Defined.

Lemma never_mode_never_prompts_witness :
  let r := run (TR := Demo.tool) (SE := Demo.session) Linux (Demo.turn_with read_only) (lit "c")
             AskForApproval.Never tt Demo.start in
  exists l, run_log r.2 = run_log Demo.start ++ l /\ existsb is_ask l = false.
Proof.
  refine (never_mode_never_prompts (TR := Demo.tool) (SE := Demo.session) Linux (Demo.turn_with read_only) (lit "c")
    AskForApproval.Never tt (H := WVal_Shlex) w_env w_parser true w_policy
    (mkRequest (w_cmd ["ls"]) AskForApproval.Never PermissionProfile.Disabled WindowsSandboxLevel.Disabled UseDefault None)
    Demo.start _ _ _ _ _); try reflexivity. intros t. left. reflexivity.
Defined.
