(* ===== verification/NetworkApproval.v ===== *)
(** [core/src/tools/network_approval.rs] and [core/src/network_policy_decision.rs]:
    the service that answers the network proxy when a tool reaches a host that
    the policy does not settle.

    Many requests run at once.  A request is a [Task]; every section under a lock
    is one atomic [task_step], and [step] interleaves the steps of all tasks with
    the other operations of the service.  Answers of hooks, reviewers and the
    session are inputs of a step.  A pending approval is an object on a heap
    ([Arc<PendingHostApproval>]), so a waiter keeps it after its key has left the
    map.  [Notify] is a counter: a waiter remembers the count at the time it
    created its [Notified] future and is woken by any later [notify_waiters], as
    tokio documents.  Dropping a task midway is not modelled. *)

From stdpp Require Import base list option numbers strings gmap sets relations.
From Stdlib Require Import NArith Lia.
From S2P Require Import Prelude RustStr AbsolutePath Permissions PermissionProfile PolicyTransforms ExecRule.
From S2P Require Import ExecPolicy PolicyParser ExecApproval Orchestrator.
Local Open Scope rust_scope.

(** * Messages ([network_policy_decision.rs]) *)

Record BlockedRequest : Set := mkBlocked {
  blocked_host : str;
  blocked_reason : str;
  blocked_decision : option str;
}.

Definition parse_network_policy_decision (value : str) : option NetworkPolicyDecision.t :=
  if value == lit "deny" then Some NetworkPolicyDecision.Deny
  else if value == lit "ask" then Some NetworkPolicyDecision.Ask
  else None.

Definition blocked_detail (reason : str) : str :=
  if reason == lit "denied" then lit "domain is explicitly denied by policy and cannot be approved from this prompt"
  else if reason == lit "not_allowed" then lit "domain is not on the allowlist for the current sandbox mode"
  else if reason == lit "not_allowed_local" then lit "local/private network addresses are blocked by the sandbox policy"
  else if reason == lit "method_not_allowed" then lit "request method is blocked by the current network mode"
  else if reason == lit "proxy_disabled" then lit "network proxy is disabled"
  else lit "request is blocked by network policy".

Definition denied_network_policy_message (blocked : BlockedRequest) : option str :=
  match mbind parse_network_policy_decision blocked.(blocked_decision) with
  | Some NetworkPolicyDecision.Deny =>
      let host := trim blocked.(blocked_host) in
      if host == [] then Some (lit "Network access was blocked by policy.")
      else Some (lit "Network access to " ++ [QUOTE] ++ host ++ [QUOTE] ++ lit " was blocked: "
                 ++ blocked_detail blocked.(blocked_reason) ++ lit ".")
  | _ => None
  end.

Record ExecPolicyNetworkRuleAmendment : Set := mkRuleAmendment {
  rule_protocol : NetworkRuleProtocol;
  rule_decision : Decision;
  rule_justification : str;
}.

Definition execpolicy_network_rule_amendment (amendment : NetworkPolicyAmendment)
    (context : NetworkApprovalContext) (host : str) : ExecPolicyNetworkRuleAmendment :=
  let protocol :=
    match context.(nac_protocol) with
    | NapHttp => Http | NapHttps => Https | NapSocks5Tcp => Socks5Tcp | NapSocks5Udp => Socks5Udp
    end in
  let '(d, action_verb) :=
    match amendment.(npa_action) with
    | NetworkPolicyRuleAction.Allow => (Allow, lit "Allow")
    | NetworkPolicyRuleAction.Deny => (Forbidden, lit "Deny")
    end in
  let protocol_label :=
    match context.(nac_protocol) with
    | NapHttp => lit "http" | NapHttps => lit "https_connect"
    | NapSocks5Tcp => lit "socks5_tcp" | NapSocks5Udp => lit "socks5_udp"
    end in
  mkRuleAmendment protocol d (action_verb ++ lit " " ++ protocol_label ++ lit " access to " ++ host).

(** * Data *)

Module NetworkProtocol.
Inductive t : Set := Http | HttpsConnect | Socks5Tcp | Socks5Udp.
End NetworkProtocol.

Record NetworkPolicyRequest : Set := mkNetRequest {
  nr_protocol : NetworkProtocol.t;
  nr_host : str;
  nr_port : N;
  nr_environment_id : option str;
}.

Module NetworkDecision.
Inductive t : Set :=
| Allow
| Deny (reason : str) (source : NetworkDecisionSource.t) (decision : NetworkPolicyDecision.t).

(** [REASON_POLICY_DENIED] replaces an empty reason. *)
Definition deny (reason : str) : t :=
  Deny (if reason == [] then lit "policy_denied" else reason) NetworkDecisionSource.Decider NetworkPolicyDecision.Deny.
Definition ask (reason : str) : t :=
  Deny (if reason == [] then lit "policy_denied" else reason) NetworkDecisionSource.Decider NetworkPolicyDecision.Ask.
End NetworkDecision.

Record HostApprovalKey : Set := mkKey {
  key_environment_id : str;
  key_host : str;
  key_protocol : str;
  key_port : N;
}.

#[global] Instance HostApprovalKey_eq_dec : EqDecision HostApprovalKey.
Proof. solve_decision. Defined.
#[global] Instance HostApprovalKey_countable : Countable HostApprovalKey.
Proof.
  refine (inj_countable' (fun k => (key_environment_id k, key_host k, key_protocol k, key_port k))
    (fun '(e, h, p, n) => mkKey e h p n) _). by intros [].
Defined.

Definition protocol_key_label (protocol : NetworkApprovalProtocol) : str :=
  match protocol with
  | NapHttp => lit "http" | NapHttps => lit "https" | NapSocks5Tcp => lit "socks5-tcp" | NapSocks5Udp => lit "socks5-udp"
  end.

Definition approval_protocol (p : NetworkProtocol.t) : NetworkApprovalProtocol :=
  match p with
  | NetworkProtocol.Http => NapHttp
  | NetworkProtocol.HttpsConnect => NapHttps
  | NetworkProtocol.Socks5Tcp => NapSocks5Tcp
  | NetworkProtocol.Socks5Udp => NapSocks5Udp
  end.

Definition key_from_request (request : NetworkPolicyRequest) (protocol : NetworkApprovalProtocol)
    (environment_id : str) : HostApprovalKey :=
  mkKey environment_id (to_ascii_lowercase request.(nr_host)) (protocol_key_label protocol) request.(nr_port).

Module PendingApprovalDecision.
Inductive t : Set := AllowOnce | AllowForSession | Deny.

Definition to_network_decision (self : t) : NetworkDecision.t :=
  match self with
  | AllowOnce | AllowForSession => NetworkDecision.Allow
  | Deny => NetworkDecision.deny (lit "not_allowed")
  end.
End PendingApprovalDecision.
Import PendingApprovalDecision (to_network_decision).

Definition allows_network_approval_flow (policy : AskForApproval.t) : bool :=
  match policy with AskForApproval.Never => false | _ => true end.

Definition permission_profile_allows_network_approval_flow (profile : PermissionProfile.t) : bool :=
  match profile with PermissionProfile.Managed _ _ => true | _ => false end.

(** [trigger] is only passed on to the reviewer.  The token of a call is named by
    its registration. *)
Record ActiveNetworkApprovalCall : Set := mkActiveCall {
  registration_id : str;
  call_turn_id : str;
  call_command : str;
  call_environment_id : str;
}.

Record PendingHostApproval : Set := mkPending {
  pending_decision : option PendingApprovalDecision.t;
  pending_epoch : nat;   (** calls of [notify_waiters] *)
}.

Record Service : Type := mkSvc {
  active_calls : list ActiveNetworkApprovalCall;
  call_outcomes : gmap str NetworkApprovalOutcome;
  cancelled : gset str;
  pending_host_approvals : gmap HostApprovalKey nat;
  pendings : list PendingHostApproval;
  session_approved_hosts : gset HostApprovalKey;
  session_denied_hosts : gset HostApprovalKey;
}.

Definition service_default : Service := mkSvc [] ∅ ∅ ∅ [] ∅ ∅.

Definition with_calls (s : Service) calls outcomes tokens : Service :=
  mkSvc calls outcomes tokens s.(pending_host_approvals) s.(pendings) s.(session_approved_hosts) s.(session_denied_hosts).
Definition with_pending (s : Service) m objs : Service :=
  mkSvc s.(active_calls) s.(call_outcomes) s.(cancelled) m objs s.(session_approved_hosts) s.(session_denied_hosts).
Definition with_hosts (s : Service) approved denied : Service :=
  mkSvc s.(active_calls) s.(call_outcomes) s.(cancelled) s.(pending_host_approvals) s.(pendings) approved denied.

(** * Operations of the service *)

(** [IndexMap::insert]: a known key keeps its place. *)
Fixpoint insert_call (call : ActiveNetworkApprovalCall) (calls : list ActiveNetworkApprovalCall) :=
  match calls with
  | [] => [call]
  | c :: calls => if c.(registration_id) == call.(registration_id) then call :: calls else c :: insert_call call calls
  end.

Definition register_call (self : Service) (call : ActiveNetworkApprovalCall) : Service :=
  with_calls self (insert_call call self.(active_calls)) self.(call_outcomes) self.(cancelled).

Definition remove_call (self : Service) (id : str) : Service * option NetworkApprovalOutcome :=
  (with_calls self (retain (fun c => c.(registration_id) != id) self.(active_calls))
     (delete id self.(call_outcomes)) self.(cancelled),
   self.(call_outcomes) !! id).

Definition unregister_call (self : Service) (id : str) : Service := (remove_call self id).1.

Definition finish_call_outcome (self : Service) (id : str) := remove_call self id.

Definition resolve_single_active_call (self : Service) : option ActiveNetworkApprovalCall :=
  match self.(active_calls) with [call] => Some call | _ => None end.

Inductive ActiveNetworkApprovalAttribution : Set :=
| AttributionNone | AttributionSingle (call : ActiveNetworkApprovalCall) | AttributionAmbiguous.

Definition resolve_active_call_attribution (self : Service) : ActiveNetworkApprovalAttribution :=
  match self.(active_calls) with
  | [] => AttributionNone
  | [call] => AttributionSingle call
  | _ => AttributionAmbiguous
  end.

Definition record_call_outcome (self : Service) (id : str) (outcome : NetworkApprovalOutcome) : Service :=
  if negb (existsb (fun c => c.(registration_id) == id) self.(active_calls)) then self
  else if self.(call_outcomes) !! id == Some DeniedByUser then self
  else with_calls self self.(active_calls) (<[id := outcome]> self.(call_outcomes)) ({[id]} ∪ self.(cancelled)).

Definition sync_session_approved_hosts_to (self other : Service) : Service :=
  with_hosts other self.(session_approved_hosts) other.(session_denied_hosts).

Definition get_or_create_pending_approval (self : Service) (key : HostApprovalKey) : Service * nat * bool :=
  match self.(pending_host_approvals) !! key with
  | Some existing => (self, existing, false)
  | None =>
      let created := length self.(pendings) in
      (with_pending self (<[key := created]> self.(pending_host_approvals))
         (self.(pendings) ++ [mkPending None 0]), created, true)
  end.

(** The handle of a deferred approval: its outcome is taken once and kept. *)
Definition deferred_finish (self : Service) (id : str) (cell : option (option NetworkApprovalOutcome)) :
    Service * option (option NetworkApprovalOutcome) * option NetworkApprovalOutcome :=
  match cell with
  | Some outcome => (self, Some outcome, outcome)
  | None => let '(self, outcome) := finish_call_outcome self id in (self, Some outcome, outcome)
  end.

(** * A request ([handle_inline_policy_request]) *)

Definition REASON_NOT_ALLOWED : str := lit "not_allowed".
Definition denied : NetworkDecision.t := NetworkDecision.deny REASON_NOT_ALLOWED.

(** What a request reads of the turn. *)
Record TurnView : Set := mkTurnView {
  primary_environment : option str;
  view_profile : PermissionProfile.t;
  view_approval_policy : AskForApproval.t;
  view_routes_to_guardian : bool;
}.

(** The answer of the hooks and, when they give none, of the reviewer; the text of
    a guardian's rejection. *)
Record ReviewInput : Set := mkReviewInput {
  hook_answer : option PermissionRequestDecision.t;
  review_answer : ReviewDecision.t;
  rejection_message : str;
}.

(** What the owner of a pending approval still has to do. *)
Inductive Instr : Set :=
| IRecord (outcome : NetworkApprovalOutcome)
| IForgetDenied | IRememberApproved | IForgetApproved | IRememberDenied
| ISetDecision (decision : PendingApprovalDecision.t)
| INotify
| IRemovePending.

Record RequestCtx : Set := mkReqCtx {
  rc_key : HostApprovalKey;
  rc_request : NetworkPolicyRequest;
  rc_owner : option ActiveNetworkApprovalCall;
  rc_turn : option TurnView;
}.

Inductive Task : Set :=
| TStart (request : NetworkPolicyRequest)
| TTurn (request : NetworkPolicyRequest) (owner : option ActiveNetworkApprovalCall) (active_environment : option str)
| TCheckDenied (ctx : RequestCtx)
| TCheckApproved (ctx : RequestCtx)
| TGetPending (ctx : RequestCtx)
| TRegister (pending : nat)               (** create the [Notified] future *)
| TCheck (pending epoch : nat)            (** look at the decision *)
| TSleep (pending epoch : nat)            (** wait to be notified *)
| TReview (ctx : RequestCtx) (pending : nat)
| TFinish (ctx : RequestCtx) (pending : nat) (program : list Instr) (resolved : PendingApprovalDecision.t)
| TDone (decision : NetworkDecision.t)
| TBlocked (blocked : BlockedRequest)     (** [record_blocked_request] *)
| TRecordBlocked (id : str) (outcome : NetworkApprovalOutcome)
| TStop.

Definition record_for (owner : option ActiveNetworkApprovalCall) (outcome : NetworkApprovalOutcome) : list Instr :=
  match owner with Some _ => [IRecord outcome] | None => [] end.

Definition set_decision (d : PendingApprovalDecision.t) : list Instr := [ISetDecision d; INotify].

Definition format_network_target (protocol host : str) (port : N) : str :=
  protocol ++ lit "://" ++ host ++ lit ":" ++ show_N port.

Definition policy_denial_message (ctx : RequestCtx) : str :=
  lit "Network access to " ++ [QUOTE]
  ++ format_network_target ctx.(rc_key).(key_protocol) ctx.(rc_request).(nr_host) ctx.(rc_key).(key_port)
  ++ [QUOTE] ++ lit " was blocked by policy.".

(** Whether the turn lets the request be reviewed at all. *)
Definition review_possible (turn : option TurnView) : bool :=
  match turn with
  | None => false
  | Some turn =>
      permission_profile_allows_network_approval_flow turn.(view_profile)
      && allows_network_approval_flow turn.(view_approval_policy)
  end.

(** How a review is resolved, what is recorded for the owning call, and whether a
    denial is kept for the session. *)
Definition resolve_review (ctx : RequestCtx) (guardian : bool) (input : ReviewInput) :
    PendingApprovalDecision.t * list Instr * bool :=
  match input.(review_answer) with
  | ReviewDecision.Approved | ReviewDecision.ApprovedExecpolicyAmendment _ =>
      (PendingApprovalDecision.AllowOnce, [], false)
  | ReviewDecision.ApprovedForSession => (PendingApprovalDecision.AllowForSession, [], false)
  | ReviewDecision.NetworkPolicyAmendment a =>
      match a.(npa_action) with
      | NetworkPolicyRuleAction.Allow => (PendingApprovalDecision.AllowForSession, [], false)
      | NetworkPolicyRuleAction.Deny =>
          (PendingApprovalDecision.Deny, record_for ctx.(rc_owner) DeniedByUser, true)
      end
  | ReviewDecision.Denied | ReviewDecision.Abort =>
      (PendingApprovalDecision.Deny,
       record_for ctx.(rc_owner) (if guardian then DeniedByPolicy input.(rejection_message) else DeniedByUser), false)
  | ReviewDecision.TimedOut =>
      (PendingApprovalDecision.Deny,
       record_for ctx.(rc_owner) (DeniedByPolicy GUARDIAN_TIMEOUT_INSTRUCTIONS), false)
  end.

(** The rest of the owner's run, from the checks of the turn to the return. *)
Definition owner_program (ctx : RequestCtx) (input : ReviewInput) : list Instr * PendingApprovalDecision.t :=
  if negb (review_possible ctx.(rc_turn)) then
    (set_decision PendingApprovalDecision.Deny ++ [IRemovePending]
     ++ record_for ctx.(rc_owner) (DeniedByPolicy (policy_denial_message ctx)),
     PendingApprovalDecision.Deny)
  else match input.(hook_answer) with
  | Some PermissionRequestDecision.Allow =>
      (set_decision PendingApprovalDecision.AllowOnce ++ [IRemovePending], PendingApprovalDecision.AllowOnce)
  | Some (PermissionRequestDecision.Deny message) =>
      (record_for ctx.(rc_owner) (DeniedByPolicy message)
       ++ set_decision PendingApprovalDecision.Deny ++ [IRemovePending], PendingApprovalDecision.Deny)
  | None =>
      let guardian := match ctx.(rc_turn) with Some turn => turn.(view_routes_to_guardian) | None => false end in
      let '(resolved, record, cache_session_deny) := resolve_review ctx guardian input in
      (record
       ++ match resolved with
          | PendingApprovalDecision.AllowForSession => [IForgetDenied; IRememberApproved]
          | _ => []
          end
       ++ (if cache_session_deny then [IForgetApproved; IRememberDenied] else [])
       ++ set_decision resolved ++ [IRemovePending], resolved)
  end.

Definition update_pending (self : Service) (pending : nat) (f : PendingHostApproval -> PendingHostApproval) : Service :=
  with_pending self self.(pending_host_approvals) (alter f pending self.(pendings)).

Definition exec_instr (self : Service) (ctx : RequestCtx) (pending : nat) (i : Instr) : Service :=
  let key := ctx.(rc_key) in
  match i with
  | IRecord outcome =>
      match ctx.(rc_owner) with
      | Some owner => record_call_outcome self owner.(registration_id) outcome
      | None => self
      end
  | IForgetDenied => with_hosts self self.(session_approved_hosts) (self.(session_denied_hosts) ∖ {[key]})
  | IRememberApproved => with_hosts self ({[key]} ∪ self.(session_approved_hosts)) self.(session_denied_hosts)
  | IForgetApproved => with_hosts self (self.(session_approved_hosts) ∖ {[key]}) self.(session_denied_hosts)
  | IRememberDenied => with_hosts self self.(session_approved_hosts) ({[key]} ∪ self.(session_denied_hosts))
  | ISetDecision d => update_pending self pending (fun p => mkPending (Some d) p.(pending_epoch))
  | INotify => update_pending self pending (fun p => mkPending p.(pending_decision) (S p.(pending_epoch)))
  | IRemovePending => with_pending self (delete key self.(pending_host_approvals)) self.(pendings)
  end.

(** The inputs a step may read: the turn in progress and the answers. *)
Record Input : Set := mkInput { in_turn : option TurnView; in_review : ReviewInput }.

(** [None]: the task cannot move. *)
Definition task_step (input : Input) (self : Service) (t : Task) : option (Service * Task) :=
  match t with
  | TStart request =>
      Some (self,
        match request.(nr_environment_id), resolve_active_call_attribution self with
        | Some environment_id, AttributionSingle call =>
            TTurn request (if call.(call_environment_id) == environment_id then Some call else None) (Some environment_id)
        | Some environment_id, _ => TTurn request None (Some environment_id)
        | None, AttributionNone => TTurn request None None
        | None, AttributionSingle call => TTurn request (Some call) (Some call.(call_environment_id))
        | None, AttributionAmbiguous => TDone denied
        end)
  | TTurn request owner active_environment =>
      let environment :=
        match active_environment with
        | Some e => Some e
        | None => mbind primary_environment input.(in_turn)
        end in
      Some (self,
        match environment with
        | None => TDone denied
        | Some environment_id =>
            TCheckDenied (mkReqCtx (key_from_request request (approval_protocol request.(nr_protocol)) environment_id)
              request owner input.(in_turn))
        end)
  | TCheckDenied ctx =>
      Some (self, if bool_decide (ctx.(rc_key) ∈ self.(session_denied_hosts)) then TDone denied else TCheckApproved ctx)
  | TCheckApproved ctx =>
      Some (self, if bool_decide (ctx.(rc_key) ∈ self.(session_approved_hosts)) then TDone NetworkDecision.Allow
                  else TGetPending ctx)
  | TGetPending ctx =>
      let '(self, pending, is_owner) := get_or_create_pending_approval self ctx.(rc_key) in
      Some (self, if negb is_owner then TRegister pending else TReview ctx pending)
  | TRegister pending =>
      (fun p => (self, TCheck pending p.(pending_epoch))) <$> self.(pendings) !! pending
  | TCheck pending epoch =>
      (fun p => (self, match p.(pending_decision) with
                       | Some d => TDone (to_network_decision d)
                       | None => TSleep pending epoch
                       end)) <$> self.(pendings) !! pending
  | TSleep pending epoch =>
      p ← self.(pendings) !! pending;
      if epoch <? p.(pending_epoch) then Some (self, TRegister pending) else None
  | TReview ctx pending =>
      let '(program, resolved) := owner_program ctx input.(in_review) in
      Some (self, TFinish ctx pending program resolved)
  | TFinish ctx pending program resolved =>
      Some match program with
      | [] => (self, TDone (to_network_decision resolved))
      | i :: program => (exec_instr self ctx pending i, TFinish ctx pending program resolved)
      end
  | TBlocked blocked =>
      Some (self,
        match denied_network_policy_message blocked, resolve_single_active_call self with
        | Some message, Some owner_call => TRecordBlocked owner_call.(registration_id) (DeniedByPolicy message)
        | _, _ => TStop
        end)
  | TRecordBlocked id outcome => Some (record_call_outcome self id outcome, TStop)
  | TDone _ | TStop => None
  end.

(** * The system *)

Record System : Type := mkSystem { sys_service : Service; sys_tasks : list Task }.

(** One task moves. *)
Inductive task_moves : System -> System -> Prop :=
| moves_task s tasks i t input s' t' :
    tasks !! i = Some t -> task_step input s t = Some (s', t') ->
    task_moves (mkSystem s tasks) (mkSystem s' (<[i := t']> tasks)).

(** The steps of one session; [step] adds the approvals taken over from another. *)
Inductive own_step : System -> System -> Prop :=
| step_task sys sys' : task_moves sys sys' -> own_step sys sys'
| step_request s tasks request : own_step (mkSystem s tasks) (mkSystem s (tasks ++ [TStart request]))
| step_blocked s tasks blocked : own_step (mkSystem s tasks) (mkSystem s (tasks ++ [TBlocked blocked]))
| step_register s tasks call : own_step (mkSystem s tasks) (mkSystem (register_call s call) tasks)
| step_remove s tasks id : own_step (mkSystem s tasks) (mkSystem (remove_call s id).1 tasks).

Inductive step : System -> System -> Prop :=
| step_own sys sys' : own_step sys sys' -> step sys sys'
| step_sync s tasks other : step (mkSystem s tasks) (mkSystem (sync_session_approved_hosts_to other s) tasks).

Definition init : System := mkSystem service_default [].
Definition reachable (sys : System) : Prop := rtc step init sys.

(** * The invariant *)

(** How far the owner of a pending approval is: 3 before the decision is set, 2
    before waiters are notified, 1 before the key leaves the map, 0 after. *)
Fixpoint stage (program : list Instr) : nat :=
  match program with
  | [] => 0
  | ISetDecision _ :: _ => 3
  | INotify :: _ => 2
  | IRemovePending :: _ => 1
  | _ :: program => stage program
  end.

Fixpoint program_ok (d : PendingApprovalDecision.t) (program : list Instr) : Prop :=
  match program with
  | [] => True
  | ISetDecision d' :: program => d' = d /\ stage program = 2 /\ program_ok d program
  | INotify :: program => stage program = 1 /\ program_ok d program
  | IRemovePending :: program => stage program = 0 /\ program_ok d program
  | _ :: program => program_ok d program
  end.

(** The pending approval a task is responsible for. *)
Definition holder (t : Task) : option (HostApprovalKey * nat * nat) :=
  match t with
  | TReview ctx pending => Some (ctx.(rc_key), pending, 3)
  | TFinish ctx pending program _ =>
      match stage program with 0 => None | n => Some (ctx.(rc_key), pending, n) end
  | _ => None
  end.

(** The pending approval a task waits for, the count it knows, and whether it sleeps. *)
Definition waiter (t : Task) : option (nat * nat * bool) :=
  match t with
  | TRegister pending => Some (pending, 0, false)
  | TCheck pending epoch => Some (pending, epoch, false)
  | TSleep pending epoch => Some (pending, epoch, true)
  | _ => None
  end.

Definition task_ok (objs : list PendingHostApproval) (t : Task) : Prop :=
  match t with
  | TFinish _ pending program d =>
      program_ok d program
      /\ (stage program < 3 -> exists p, objs !! pending = Some p /\ pending_decision p = Some d)
  | _ => True
  end.

Record Inv (m : gmap HostApprovalKey nat) (objs : list PendingHostApproval)
    (hs : list (option (HostApprovalKey * nat * nat))) (ws : list (option (nat * nat * bool))) : Prop := {
  inv_owned : forall k pid, m !! k = Some pid -> exists i n, hs !! i = Some (Some (k, pid, n));
  inv_held : forall i k pid n, hs !! i = Some (Some (k, pid, n)) ->
    m !! k = Some pid /\ exists p, objs !! pid = Some p /\ (n = 3 <-> pending_decision p = None);
  inv_unique : forall i j k k' pid n n',
    hs !! i = Some (Some (k, pid, n)) -> hs !! j = Some (Some (k', pid, n')) -> i = j;
  inv_undecided : forall pid p, objs !! pid = Some p -> pending_decision p = None ->
    exists i k, hs !! i = Some (Some (k, pid, 3));
  inv_waiting : forall i pid e sleeping, ws !! i = Some (Some (pid, e, sleeping)) ->
    exists p, objs !! pid = Some p /\ e <= pending_epoch p
      /\ (sleeping = true -> e < pending_epoch p \/ exists j k n, hs !! j = Some (Some (k, pid, n)) /\ 2 <= n);
}.

Lemma lookup_alter_pending (f : PendingHostApproval -> PendingHostApproval) pid (objs : list PendingHostApproval) q p :
  alter f pid objs !! q = Some p <->
  (q = pid /\ exists p0, objs !! q = Some p0 /\ p = f p0) \/ (q <> pid /\ objs !! q = Some p).
Proof.
  destruct (decide (q = pid)) as [->|Hne].
  - rewrite list_lookup_alter_eq. destruct (objs !! pid); cbn; naive_solver.
  - rewrite list_lookup_alter_ne by done. naive_solver.
Qed.

Section transitions.
Context (m : gmap HostApprovalKey nat) (objs : list PendingHostApproval).
Context (hs : list (option (HostApprovalKey * nat * nat))) (ws : list (option (nat * nat * bool))).
Context (HI : Inv m objs hs ws).

(** A waiter moves. *)
Lemma inv_waiter_moves i w :
  (forall pid e sleeping, w = Some (pid, e, sleeping) ->
     exists p, objs !! pid = Some p /\ e <= pending_epoch p
       /\ (sleeping = true -> e < pending_epoch p \/ exists j k n, hs !! j = Some (Some (k, pid, n)) /\ 2 <= n)) ->
  Inv m objs hs (<[i := w]> ws).
Proof.
  intros Hw. destruct HI as [H1 H2 H3 H4 H5]. constructor; try done.
  intros j pid e sleeping [(-> & Heq & _)|[_ Hj]]%list_lookup_insert_Some; [by apply Hw|by eapply H5].
Qed.

(** A request opens a pending approval. *)
Lemma inv_create i k :
  m !! k = None -> hs !! i = Some None ->
  Inv (<[k := length objs]> m) (objs ++ [mkPending None 0]) (<[i := Some (k, length objs, 3)]> hs) ws.
Proof.
  intros Hk Hi. destruct HI as [H1 H2 H3 H4 H5].
  pose proof (lookup_lt_Some _ _ _ Hi) as Hlt.
  assert (forall j, j <> i -> <[i := Some (k, length objs, 3)]> hs !! j = hs !! j) as Hne
    by (intros j Hj; by rewrite list_lookup_insert_ne).
  assert (forall j x, hs !! j = Some (Some x) -> j <> i) as Hsome by (intros j x Hj ->; congruence).
  constructor.
  - intros k' pid [[<- <-]|[Hkk Hm]]%lookup_insert_Some.
    + exists i, 3. by apply list_lookup_insert_eq.
    + destruct (H1 _ _ Hm) as (j & n & Hj). exists j, n. by rewrite Hne by by eapply Hsome.
  - intros j k' pid n [(<- & [= <- <- <-] & _)|[Hij Hj]]%list_lookup_insert_Some.
    + rewrite lookup_insert_eq. split; [done|]. exists (mkPending None 0). split; [by apply list_lookup_middle|done].
    + destruct (H2 _ _ _ _ Hj) as (Hm & p & Hp & Hd). split.
      * rewrite lookup_insert_ne; [done|]. by intros ->; congruence.
      * exists p. split; [by apply lookup_app_l_Some|done].
  - intros j j' k1 k2 pid n n' [(<- & [= <- <- <-] & _)|[Hij Hj]]%list_lookup_insert_Some
      [(<- & Heq & _)|[Hij' Hj']]%list_lookup_insert_Some; [done| | |by eapply H3].
    + destruct (H2 _ _ _ _ Hj') as (_ & p & Hp%lookup_lt_Some & _). lia.
    + injection Heq as <- <- <-. destruct (H2 _ _ _ _ Hj) as (_ & p & Hp%lookup_lt_Some & _). lia.
  - intros pid p Hp Hd. apply lookup_app_Some in Hp as [Hp|[Hl Hp]].
    + destruct (H4 _ _ Hp Hd) as (j & k' & Hj). exists j, k'. by rewrite Hne by by eapply Hsome.
    + apply list_lookup_singleton_Some in Hp as [Hl' _]. exists i, k.
      replace pid with (length objs) by lia. by apply list_lookup_insert_eq.
  - intros j pid e sleeping Hj. destruct (H5 _ _ _ _ Hj) as (p & Hp & He & Hs).
    exists p. split; [by apply lookup_app_l_Some|]. split; [done|]. intros Hsl.
    destruct (Hs Hsl) as [?|(j' & k' & n & Hj' & Hn)]; [by left|right]. exists j', k', n.
    by rewrite Hne by by eapply Hsome.
Qed.

(** The owner sets the decision. *)
Lemma inv_set i k pid d :
  hs !! i = Some (Some (k, pid, 3)) ->
  Inv m (alter (fun p => mkPending (Some d) (pending_epoch p)) pid objs) (<[i := Some (k, pid, 2)]> hs) ws.
Proof.
  intros Hi. destruct HI as [H1 H2 H3 H4 H5]. pose proof (lookup_lt_Some _ _ _ Hi) as Hlt. constructor.
  - intros k' pid' Hm. destruct (H1 _ _ Hm) as (j & n & Hj). destruct (decide (j = i)) as [->|Hji].
    + exists i, 2. rewrite list_lookup_insert_eq by done. congruence.
    + exists j, n. by rewrite list_lookup_insert_ne.
  - intros j k' pid' n [(<- & [= <- <- <-] & _)|[Hij Hj]]%list_lookup_insert_Some.
    + destruct (H2 _ _ _ _ Hi) as (Hm & p & Hp & _). split; [done|]. eexists. split.
      * apply lookup_alter_pending. left. split; [done|]. by exists p.
      * done.
    + destruct (H2 _ _ _ _ Hj) as (Hm & p & Hp & Hd). split; [done|]. exists p. split; [|done].
      apply lookup_alter_pending. right. split; [|done]. intros ->. apply Hij. by eapply H3.
  - intros j j' k1 k2 pid' n n' [(<- & [= <- <- <-] & _)|[Hij Hj]]%list_lookup_insert_Some
      [(<- & Heq & _)|[Hij' Hj']]%list_lookup_insert_Some; [done| | |by eapply H3].
    + by eapply H3.
    + injection Heq as <- <- <-. by eapply H3.
  - intros pid' p [(-> & p0 & Hp & ->)|[Hne Hp]]%lookup_alter_pending Hd; [done|].
    destruct (H4 _ _ Hp Hd) as (j & k' & Hj). exists j, k'. rewrite list_lookup_insert_ne; [done|].
    intros ->. congruence.
  - intros j pid' e sleeping Hj. destruct (H5 _ _ _ _ Hj) as (p & Hp & He & Hs).
    assert (forall p', pending_epoch p' = pending_epoch p ->
      sleeping = true -> e < pending_epoch p' \/ exists j k0 n, <[i := Some (k, pid, 2)]> hs !! j = Some (Some (k0, pid', n)) /\ 2 <= n) as Hw.
    { intros p' -> Hsl. destruct (Hs Hsl) as [?|(j' & k' & n & Hj' & Hn)]; [by left|right].
      destruct (decide (j' = i)) as [->|Hji].
      - exists i, k, 2. rewrite list_lookup_insert_eq by done. split; [congruence|lia].
      - exists j', k', n. by rewrite list_lookup_insert_ne. }
    destruct (decide (pid' = pid)) as [->|Hne].
    + eexists. split; [apply lookup_alter_pending; left; split; [done|]; by exists p|]. split; [done|]. by apply Hw.
    + exists p. split; [apply lookup_alter_pending; by right|]. split; [done|]. by apply Hw.
Qed.

(** The owner notifies the waiters. *)
Lemma inv_notify i k pid :
  hs !! i = Some (Some (k, pid, 2)) ->
  Inv m (alter (fun p => mkPending (pending_decision p) (S (pending_epoch p))) pid objs)
    (<[i := Some (k, pid, 1)]> hs) ws.
Proof.
  intros Hi. destruct HI as [H1 H2 H3 H4 H5]. pose proof (lookup_lt_Some _ _ _ Hi) as Hlt. constructor.
  - intros k' pid' Hm. destruct (H1 _ _ Hm) as (j & n & Hj). destruct (decide (j = i)) as [->|Hji].
    + exists i, 1. rewrite list_lookup_insert_eq by done. congruence.
    + exists j, n. by rewrite list_lookup_insert_ne.
  - intros j k' pid' n [(<- & [= <- <- <-] & _)|[Hij Hj]]%list_lookup_insert_Some.
    + destruct (H2 _ _ _ _ Hi) as (Hm & p & Hp & Hd). split; [done|]. eexists. split.
      * apply lookup_alter_pending. left. split; [done|]. by exists p.
      * cbn. rewrite <- Hd. lia.
    + destruct (H2 _ _ _ _ Hj) as (Hm & p & Hp & Hd). split; [done|]. exists p. split; [|done].
      apply lookup_alter_pending. right. split; [|done]. intros ->. apply Hij. by eapply H3.
  - intros j j' k1 k2 pid' n n' [(<- & [= <- <- <-] & _)|[Hij Hj]]%list_lookup_insert_Some
      [(<- & Heq & _)|[Hij' Hj']]%list_lookup_insert_Some; [done| | |by eapply H3].
    + by eapply H3.
    + injection Heq as <- <- <-. by eapply H3.
  - intros pid' p Hp Hd. assert (exists p0, objs !! pid' = Some p0 /\ pending_decision p0 = None) as (p0 & Hp0 & Hd0).
    { apply lookup_alter_pending in Hp as [(-> & p0 & Hp & ->)|[Hne Hp]]; eauto. }
    destruct (H4 _ _ Hp0 Hd0) as (j & k' & Hj). exists j, k'. rewrite list_lookup_insert_ne; [done|].
    intros ->. congruence.
  - intros j pid' e sleeping Hj. destruct (H5 _ _ _ _ Hj) as (p & Hp & He & Hs).
    destruct (decide (pid' = pid)) as [->|Hne].
    + eexists. split; [apply lookup_alter_pending; left; split; [done|]; by exists p|]. cbn. split; [lia|]. left. lia.
    + exists p. split; [apply lookup_alter_pending; by right|]. split; [done|]. intros Hsl.
      destruct (Hs Hsl) as [?|(j' & k' & n & Hj' & Hn)]; [by left|right]. exists j', k', n. split; [|done].
      rewrite list_lookup_insert_ne; [done|]. intros ->. congruence.
Qed.

(** The key leaves the map. *)
Lemma inv_remove i k pid :
  hs !! i = Some (Some (k, pid, 1)) -> Inv (delete k m) objs (<[i := None]> hs) ws.
Proof.
  intros Hi. destruct HI as [H1 H2 H3 H4 H5]. pose proof (lookup_lt_Some _ _ _ Hi) as Hlt.
  destruct (H2 _ _ _ _ Hi) as (Hmk & _). constructor.
  - intros k' pid' [Hne Hm]%lookup_delete_Some. destruct (H1 _ _ Hm) as (j & n & Hj). exists j, n.
    rewrite list_lookup_insert_ne; [done|]. intros ->. congruence.
  - intros j k' pid' n [(_ & ? & _)|[Hij Hj]]%list_lookup_insert_Some; [done|].
    destruct (H2 _ _ _ _ Hj) as (Hm & Hp). split; [|done]. rewrite lookup_delete_ne; [done|].
    intros ->. assert (pid' = pid) as -> by congruence. apply Hij. by eapply H3.
  - intros j j' k1 k2 pid' n n' [(_ & ? & _)|[Hij Hj]]%list_lookup_insert_Some; [done|].
    intros [(_ & ? & _)|[Hij' Hj']]%list_lookup_insert_Some; [done|by eapply H3].
  - intros pid' p Hp Hd. destruct (H4 _ _ Hp Hd) as (j & k' & Hj). exists j, k'. rewrite list_lookup_insert_ne; [done|].
    intros ->. congruence.
  - intros j pid' e sleeping Hj. destruct (H5 _ _ _ _ Hj) as (p & Hp & He & Hs). exists p. split; [done|].
    split; [done|]. intros Hsl. destruct (Hs Hsl) as [?|(j' & k' & n & Hj' & Hn)]; [by left|right].
    exists j', k', n. split; [|done]. rewrite list_lookup_insert_ne; [done|]. intros ->.
    assert (n = 1) by congruence. lia.
Qed.

Lemma inv_more : Inv m objs (hs ++ [None]) (ws ++ [None]).
Proof.
  destruct HI as [H1 H2 H3 H4 H5].
  assert (forall j x, (hs ++ [None]) !! j = Some (Some x) <-> hs !! j = Some (Some x)) as Hh.
  { intros j x. rewrite lookup_app_Some. split; [|by left].
    intros [?|[_ [_ ?]%list_lookup_singleton_Some]]; done. }
  assert (forall j x, (ws ++ [None]) !! j = Some (Some x) <-> ws !! j = Some (Some x)) as Hw.
  { intros j x. rewrite lookup_app_Some. split; [|by left].
    intros [?|[_ [_ ?]%list_lookup_singleton_Some]]; done. }
  constructor; repeat setoid_rewrite Hh; repeat setoid_rewrite Hw; done.
Qed.
End transitions.

(** Decisions that are set stay as they are. *)
Definition keeps_decisions (objs objs' : list PendingHostApproval) : Prop :=
  forall pid p d, objs !! pid = Some p -> pending_decision p = Some d ->
    exists p', objs' !! pid = Some p' /\ pending_decision p' = Some d.

#[local] Instance keeps_decisions_refl : Reflexive keeps_decisions.
Proof. intros objs pid p d Hp Hd. eauto. Qed.

Lemma task_ok_keeps objs objs' t : keeps_decisions objs objs' -> task_ok objs t -> task_ok objs' t.
Proof. destruct t; try done. cbn. intros Hk [Hok Hd]. split; [done|]. intros Hs. destruct (Hd Hs) as (p & Hp & Hpd). eauto. Qed.

(** Nobody is notified before the decision is set. *)
Definition epoch_ok (p : PendingHostApproval) : Prop := pending_decision p = None -> pending_epoch p = 0.

Definition sys_inv (sys : System) : Prop :=
  let s := sys.(sys_service) in
  Inv s.(pending_host_approvals) s.(pendings) (holder <$> sys.(sys_tasks)) (waiter <$> sys.(sys_tasks))
  /\ Forall (task_ok s.(pendings)) sys.(sys_tasks) /\ Forall epoch_ok s.(pendings).

Lemma epoch_ok_alter f pid objs :
  Forall epoch_ok objs -> (forall p, objs !! pid = Some p -> epoch_ok (f p)) -> Forall epoch_ok (alter f pid objs).
Proof.
  rewrite !Forall_lookup. intros Hall Hf q p [(-> & p0 & Hp & ->)|[_ Hp]]%lookup_alter_pending; eauto.
Qed.

Lemma owner_program_ok ctx input :
  program_ok (owner_program ctx input).2 (owner_program ctx input).1 /\ stage (owner_program ctx input).1 = 3.
Proof.
  unfold owner_program, resolve_review, record_for. destruct (negb _); [by destruct (rc_owner ctx)|].
  destruct (hook_answer input) as [[]|]; [by destruct (rc_owner ctx)..|].
  destruct (review_answer input) as [| | |[? []]| | |], (rc_owner ctx); by repeat split.
Qed.

Lemma record_call_outcome_pending s id o :
  pending_host_approvals (record_call_outcome s id o) = pending_host_approvals s
  /\ pendings (record_call_outcome s id o) = pendings s.
Proof. unfold record_call_outcome. by repeat case_match. Qed.

(** The instructions that touch neither the map nor the pending approvals. *)
Definition is_side (i : Instr) : bool :=
  match i with ISetDecision _ | INotify | IRemovePending => false | _ => true end.

Lemma exec_side s ctx pending i :
  is_side i = true ->
  pending_host_approvals (exec_instr s ctx pending i) = pending_host_approvals s
  /\ pendings (exec_instr s ctx pending i) = pendings s.
Proof. destruct i; try done. cbn. intros _. destruct (rc_owner ctx); [apply record_call_outcome_pending|done]. Qed.

Lemma stage_side i program : is_side i = true -> stage (i :: program) = stage program.
Proof. by destruct i. Qed.
Lemma program_ok_side d i program : is_side i = true -> program_ok d (i :: program) -> program_ok d program.
Proof. by destruct i. Qed.

Section preservation.
Context (s : Service) (tasks : list Task) (i : nat) (t : Task).
Context (HI : Inv s.(pending_host_approvals) s.(pendings) (holder <$> tasks) (waiter <$> tasks)).
Context (Hok : Forall (task_ok s.(pendings)) tasks) (Hep : Forall epoch_ok s.(pendings)) (Hi : tasks !! i = Some t).

Lemma holder_at : (holder <$> tasks) !! i = Some (holder t).
Proof. by rewrite list_lookup_fmap, Hi. Qed.

(** A step after which the task holds and waits for other things, or none, and the
    service has other pending approvals. *)
Lemma moved s' t' :
  keeps_decisions s.(pendings) s'.(pendings) -> task_ok s'.(pendings) t' -> Forall epoch_ok s'.(pendings) ->
  Inv s'.(pending_host_approvals) s'.(pendings) (<[i := holder t']> (holder <$> tasks)) (<[i := waiter t']> (waiter <$> tasks)) ->
  sys_inv (mkSystem s' (<[i := t']> tasks)) /\ keeps_decisions s.(pendings) s'.(pendings).
Proof.
  intros Hk Ht He HI'. split; [|done]. split; cbn; rewrite ?list_fmap_insert; [done|]. split; [|done].
  apply Forall_insert; [|done]. eapply Forall_impl; [exact Hok|]. intros x. by apply task_ok_keeps.
Qed.

(** A step that changes neither. *)
Lemma moved_same s' t' :
  pending_host_approvals s' = pending_host_approvals s -> pendings s' = pendings s ->
  holder t' = holder t -> waiter t' = waiter t -> task_ok s.(pendings) t' ->
  sys_inv (mkSystem s' (<[i := t']> tasks)) /\ keeps_decisions s.(pendings) s'.(pendings).
Proof.
  intros Em Eo Eh Ew Ht. apply moved; rewrite ?Em, ?Eo; [done|done|done|]. rewrite Eh, Ew.
  rewrite !list_insert_id; [done|by rewrite list_lookup_fmap, Hi..].
Qed.

(** A step of a waiter, which may become one. *)
Lemma moved_waiter s' t' :
  pending_host_approvals s' = pending_host_approvals s -> pendings s' = pendings s ->
  holder t = None -> holder t' = None -> task_ok s.(pendings) t' ->
  (forall pid e sleeping, waiter t' = Some (pid, e, sleeping) ->
     exists p, s.(pendings) !! pid = Some p /\ e <= pending_epoch p
       /\ (sleeping = true -> e < pending_epoch p
           \/ exists j k n, (holder <$> tasks) !! j = Some (Some (k, pid, n)) /\ 2 <= n)) ->
  sys_inv (mkSystem s' (<[i := t']> tasks)) /\ keeps_decisions s.(pendings) s'.(pendings).
Proof.
  intros Em Eo Eh Eh' Ht Hw. apply moved; rewrite ?Em, ?Eo; [done|done|done|].
  rewrite Eh', list_insert_id; [by apply inv_waiter_moves|]. by rewrite holder_at, Eh.
Qed.

End preservation.

Lemma finish_step s tasks i ctx pending instr program d :
  Inv s.(pending_host_approvals) s.(pendings) (holder <$> tasks) (waiter <$> tasks) ->
  Forall (task_ok s.(pendings)) tasks -> Forall epoch_ok s.(pendings) -> tasks !! i = Some (TFinish ctx pending (instr :: program) d) ->
  let s' := exec_instr s ctx pending instr in
  sys_inv (mkSystem s' (<[i := TFinish ctx pending program d]> tasks)) /\ keeps_decisions s.(pendings) s'.(pendings).
Proof.
  intros HI Hok Hep Hi s'. pose proof (holder_at tasks i _ Hi) as Hh. pose proof (proj1 (Forall_lookup _ _) Hok _ _ Hi) as [Hp Hd].
  destruct (is_side instr) eqn:Hside.
  { destruct (exec_side s ctx pending instr Hside) as [Em Eo].
    eapply moved_same; [exact HI|exact Hok|exact Hep|exact Hi|..]; [done|done| |done|]; cbn [holder task_ok]; rewrite ?stage_side in * by done; [done|].
    split; [by eapply program_ok_side|done]. }
  assert (waiter (TFinish ctx pending program d) = waiter (TFinish ctx pending (instr :: program) d)) as Ew by done.
  assert (forall objs', pendings s' = objs' -> keeps_decisions (pendings s) objs' ->
     (stage program < 3 -> exists p, objs' !! pending = Some p /\ pending_decision p = Some d) ->
     program_ok d program -> Forall epoch_ok objs' ->
     Inv (pending_host_approvals s') objs' (<[i := holder (TFinish ctx pending program d)]> (holder <$> tasks)) (waiter <$> tasks) ->
     sys_inv (mkSystem s' (<[i := TFinish ctx pending program d]> tasks)) /\ keeps_decisions (pendings s) (pendings s')) as Hgo.
  { intros objs' <- Hk Hd' Hp' He' HI'. eapply moved; [exact Hok|..]; [done|by split|done|].
    rewrite Ew, (list_insert_id (waiter <$> tasks)); [done|]. by rewrite list_lookup_fmap, Hi. }
  destruct instr; try done; cbn [program_ok holder stage] in *.
  - destruct Hp as (-> & Hst & Hp). destruct (inv_held _ _ _ _ HI _ _ _ _ Hh) as (_ & p & Hpp & Hnone).
    eapply Hgo; [done| | |done|by apply epoch_ok_alter|].
    + intros pid q d' Hq Hqd. destruct (decide (pid = pending)) as [->|Hne].
      * rewrite Hpp in Hq. simplify_eq. by rewrite (proj1 Hnone eq_refl) in Hqd.
      * exists q. split; [apply lookup_alter_pending; by right|done].
    + intros _. eexists. split; [apply lookup_alter_pending; left; split; [done|]; by exists p|done].
    + cbn [holder]. rewrite Hst. by apply inv_set.
  - destruct Hp as (Hst & Hp). destruct Hd as (p & Hpp & Hpd); [lia|]. eapply Hgo; [done| | |done| |].
    + intros pid q d' Hq Hqd. destruct (decide (pid = pending)) as [->|Hne].
      * eexists. split; [apply lookup_alter_pending; left; split; [done|]; by exists q|done].
      * exists q. split; [apply lookup_alter_pending; by right|done].
    + intros _. eexists. split; [apply lookup_alter_pending; left; split; [done|]; by exists p|done].
    + apply epoch_ok_alter; [done|]. cbn. intros q Hq. assert (q = p) as -> by congruence. by rewrite Hpd.
    + cbn [holder]. rewrite Hst. by apply inv_notify.
  - destruct Hp as (Hst & Hp). eapply Hgo; [done|done| |done|done|].
    + intros _. apply Hd. lia.
    + cbn [holder]. rewrite Hst. by eapply inv_remove.
Qed.

Lemma task_step_inv s tasks i t input s' t' :
  Inv s.(pending_host_approvals) s.(pendings) (holder <$> tasks) (waiter <$> tasks) ->
  Forall (task_ok s.(pendings)) tasks -> Forall epoch_ok s.(pendings) -> tasks !! i = Some t ->
  task_step input s t = Some (s', t') ->
  sys_inv (mkSystem s' (<[i := t']> tasks)) /\ keeps_decisions s.(pendings) s'.(pendings).
Proof.
  intros HI Hok Hep Hi Hstep.
  destruct t as [rq|rq o e|ctx|ctx|ctx|pid|pid e|pid e|ctx pid|ctx pid prog d|d|b|id o|];
    cbn [task_step] in Hstep.
  - injection Hstep as <- <-. by eapply moved_same; [exact HI|exact Hok|exact Hep|exact Hi|..]; repeat case_match.
  - injection Hstep as <- <-. by eapply moved_same; [exact HI|exact Hok|exact Hep|exact Hi|..]; repeat case_match.
  - injection Hstep as <- <-. by eapply moved_same; [exact HI|exact Hok|exact Hep|exact Hi|..]; repeat case_match.
  - injection Hstep as <- <-. by eapply moved_same; [exact HI|exact Hok|exact Hep|exact Hi|..]; repeat case_match.
  - unfold get_or_create_pending_approval in Hstep. destruct (pending_host_approvals s !! rc_key ctx) as [pid|] eqn:Em.
    + injection Hstep as <- <-. eapply moved_waiter; [exact HI|exact Hok|exact Hep|exact Hi|..]; try done. intros ? ? ? [= <- <- <-].
      destruct (inv_owned _ _ _ _ HI _ _ Em) as (j & n & Hj).
      destruct (inv_held _ _ _ _ HI _ _ _ _ Hj) as (_ & p & Hp & _). exists p. split; [done|]. split; [lia|done].
    + injection Hstep as <- <-. eapply moved; [exact Hok|..]; [|done|by apply Forall_app; split; [|repeat constructor]|].
      * intros pid p d Hp Hd. exists p. split; [by apply lookup_app_l_Some|done].
      * rewrite (list_insert_id (waiter <$> tasks)) by by rewrite list_lookup_fmap, Hi. cbn [holder].
        apply inv_create; [done|done|]. by rewrite (holder_at tasks i _ Hi).
  - apply fmap_Some in Hstep as (p & Hp & [= -> ->]). eapply moved_waiter; [exact HI|exact Hok|exact Hep|exact Hi|..]; try done. intros ? ? ? [= <- <- <-].
    exists p. split; [done|]. split; [done|done].
  - apply fmap_Some in Hstep as (p & Hp & [= -> ->]). destruct (pending_decision p) as [d|] eqn:Ed.
    + eapply moved_waiter; [exact HI|exact Hok|exact Hep|exact Hi|..]; done.
    + eapply moved_waiter; [exact HI|exact Hok|exact Hep|exact Hi|..]; try done. intros ? ? ? [= <- <- <-].
      destruct (inv_waiting _ _ _ _ HI i pid e false) as (p' & Hp' & He & _); [by rewrite list_lookup_fmap, Hi|].
      exists p'. split; [done|]. split; [done|]. intros _. right.
      destruct (inv_undecided _ _ _ _ HI pid p Hp Ed) as (j & k & Hj). exists j, k, 3. split; [done|lia].
  - apply bind_Some in Hstep as (p & Hp & Hstep). case_match; [|done]. injection Hstep as <- <-.
    eapply moved_waiter; [exact HI|exact Hok|exact Hep|exact Hi|..]; try done. intros ? ? ? [= <- <- <-]. exists p. split; [done|]. split; [lia|done].
  - destruct (owner_program ctx (in_review input)) as [prog d] eqn:Eo. injection Hstep as <- <-.
    pose proof (owner_program_ok ctx (in_review input)) as [Hp Hs]. rewrite Eo in Hp, Hs. cbn in Hp, Hs.
    eapply moved_same; [exact HI|exact Hok|exact Hep|exact Hi|..]; try done; cbn [holder task_ok]; [by rewrite Hs|]. split; [done|lia].
  - injection Hstep as Hstep. destruct prog as [|instr prog]; injection Hstep as <- <-.
    + by eapply moved_same; [exact HI|exact Hok|exact Hep|exact Hi|..].
    + by apply finish_step.
  - done.
  - injection Hstep as <- <-. by eapply moved_same; [exact HI|exact Hok|exact Hep|exact Hi|..]; repeat case_match.
  - injection Hstep as <- <-. destruct (record_call_outcome_pending s id o). by eapply moved_same; [exact HI|exact Hok|exact Hep|exact Hi|..].
  - done.
Qed.

Lemma service_ops_inv s s' tasks :
  pending_host_approvals s' = pending_host_approvals s -> pendings s' = pendings s ->
  sys_inv (mkSystem s tasks) -> sys_inv (mkSystem s' tasks) /\ keeps_decisions s.(pendings) s'.(pendings).
Proof. unfold sys_inv. cbn. by intros -> ->. Qed.

Lemma task_moves_inv sys sys' :
  sys_inv sys -> task_moves sys sys' ->
  sys_inv sys' /\ keeps_decisions sys.(sys_service).(pendings) sys'.(sys_service).(pendings).
Proof.
  intros HI Hmv. revert HI. destruct Hmv as [s tasks i t input s' t' Hi Hstep]. intros (HI & Hok & Hep).
  exact (task_step_inv s tasks i t input s' t' HI Hok Hep Hi Hstep).
Qed.

Lemma step_inv sys sys' :
  sys_inv sys -> step sys sys' ->
  sys_inv sys' /\ keeps_decisions sys.(sys_service).(pendings) sys'.(sys_service).(pendings).
Proof.
  intros HI Hstep. revert HI. destruct Hstep as [sys sys' Hown|s tasks other]; [|by apply service_ops_inv].
  destruct Hown as [sys sys' Hmv|s tasks rq|s tasks b|s tasks call|s tasks id]; intros HI.
  - by apply task_moves_inv.
  - destruct HI as (HI & Hok & Hep). split; [|done]. split; [|split; [by apply Forall_app; split; [|repeat constructor]|done]].
    cbn. rewrite !fmap_app. by apply inv_more.
  - destruct HI as (HI & Hok & Hep). split; [|done]. split; [|split; [by apply Forall_app; split; [|repeat constructor]|done]].
    cbn. rewrite !fmap_app. by apply inv_more.
  - by apply (service_ops_inv s).
  - by apply (service_ops_inv s).
Qed.

Lemma reachable_inv sys : reachable sys -> sys_inv sys.
Proof.
  apply rtc_ind_r; [|intros y z _ Hs IH; by apply (step_inv y z)].
  split; [|split; constructor]. 
  by constructor; cbn [init sys_service sys_tasks service_default pending_host_approvals pendings fmap list_fmap];
    intros *; rewrite ?lookup_empty, ?lookup_nil.
Qed.

(** * One review per host *)

(** C7: a host is under review at most once at a time: for every entry of the
    map exactly one request is responsible until it removes the entry, and two
    requests never review, or finish reviewing, the same host (environment, name,
    protocol and port) at the same time; every later request for it waits for the
    one that does. *)
Theorem one_review_per_host sys :
  reachable sys ->
  (forall i j ctx ctx' p p', sys.(sys_tasks) !! i = Some (TReview ctx p) ->
     sys.(sys_tasks) !! j = Some (TReview ctx' p') -> rc_key ctx = rc_key ctx' -> i = j)
  /\ (forall k p, sys.(sys_service).(pending_host_approvals) !! k = Some p ->
       exists i t n, sys.(sys_tasks) !! i = Some t /\ holder t = Some (k, p, n)
       /\ forall j t' p' n', sys.(sys_tasks) !! j = Some t' -> holder t' = Some (k, p', n') -> j = i /\ p' = p).
Proof.
  intros [HI _]%reachable_inv.
  assert (forall j t x, sys_tasks sys !! j = Some t -> holder t = x -> (holder <$> sys_tasks sys) !! j = Some x) as Hl.
  { intros j t x Hj <-. by rewrite list_lookup_fmap, Hj. }
  split.
  - intros i j ctx ctx' p p' Hi Hj Hk.
    pose proof (Hl _ _ (Some (rc_key ctx, p, 3)) Hi eq_refl) as Hhi.
    pose proof (Hl _ _ (Some (rc_key ctx', p', 3)) Hj eq_refl) as Hhj.
    destruct (inv_held _ _ _ _ HI _ _ _ _ Hhi) as [Hmi _]. destruct (inv_held _ _ _ _ HI _ _ _ _ Hhj) as [Hmj _].
    assert (p' = p) as -> by congruence. by eapply (inv_unique _ _ _ _ HI).
  - intros k p Hm. destruct (inv_owned _ _ _ _ HI _ _ Hm) as (i & n & Hi).
    pose proof Hi as Hi'. rewrite list_lookup_fmap in Hi'. apply fmap_Some in Hi' as (t & Ht & Heq).
    exists i, t, n. split; [done|]. split; [done|]. intros j t' p' n' Hj Ht'.
    pose proof (Hl _ _ _ Hj Ht') as Hhj. destruct (inv_held _ _ _ _ HI _ _ _ _ Hhj) as [Hmj _].
    assert (p' = p) as -> by congruence. split; [|done]. by eapply (inv_unique _ _ _ _ HI).
Qed.

(** C27: the decision of a pending approval is set once and never changes, and it
    is what the reviewing request itself returns; a request that waited returns
    exactly that decision.  So all requests that share a review get its answer. *)
Theorem waiters_get_the_review_answer sys sys' pid p d :
  reachable sys -> rtc step sys sys' ->
  sys.(sys_service).(pendings) !! pid = Some p -> pending_decision p = Some d ->
  (exists p', sys'.(sys_service).(pendings) !! pid = Some p' /\ pending_decision p' = Some d)
  /\ (forall i ctx program d', sys'.(sys_tasks) !! i = Some (TFinish ctx pid program d') -> stage program < 3 -> d' = d)
  /\ (forall e input s t, task_step input sys'.(sys_service) (TCheck pid e) = Some (s, t) ->
        t = TDone (to_network_decision d)).
Proof.
  intros Hr Hsteps Hp Hd. assert (reachable sys') as Hr' by (unfold reachable in *; by etrans).
  assert (exists p', pendings (sys_service sys') !! pid = Some p' /\ pending_decision p' = Some d) as (p' & Hp' & Hd').
  { revert p Hp Hd. clear Hr'. induction Hsteps as [sys|sys sys1 sys' Hs Hsteps IH]; intros p Hp Hd; [eauto|].
    pose proof (reachable_inv _ Hr) as HI. destruct (step_inv _ _ HI Hs) as [_ Hk].
    destruct (Hk pid p d Hp Hd) as (p1 & Hp1 & Hd1). eapply IH; [|done..]. by eapply rtc_r. }
  split; [eauto|]. split.
  - intros i ctx program d' Hi Hst. pose proof (reachable_inv _ Hr') as (_ & Hok & _).
    destruct (proj1 (Forall_lookup _ _) Hok _ _ Hi) as [_ Hdec]. destruct (Hdec Hst) as (q & Hq & Hqd). congruence.
  - intros e input s t Hstep. cbn in Hstep. rewrite Hp' in Hstep. cbn in Hstep. rewrite Hd' in Hstep. by injection Hstep.
Qed.

(** * Every request is answered *)

Definition decided (s : Service) (pid : nat) : bool :=
  match s.(pendings) !! pid with Some (mkPending (Some _) _) => true | _ => false end.

(** A bound on the steps a task still takes. *)
Definition task_weight (s : Service) (t : Task) : nat :=
  match t with
  | TStart _ => 16 | TTurn _ _ _ => 15 | TCheckDenied _ => 14 | TCheckApproved _ => 13 | TGetPending _ => 12
  | TRegister pid => if decided s pid then 4 else 11
  | TCheck pid _ => if decided s pid then 3 else 10
  | TSleep pid _ => if decided s pid then 5 else 9
  | TReview _ _ => 9
  | TFinish _ _ program _ => S (length program)
  | TBlocked _ => 2 | TRecordBlocked _ _ => 1
  | TDone _ | TStop => 0
  end.

Definition sys_weight (sys : System) : nat := sum_list_with (task_weight sys.(sys_service)) sys.(sys_tasks).

Definition answered (t : Task) : bool := match t with TDone _ | TStop => true | _ => false end.

Lemma sum_insert_lt {A} (f g : A -> nat) l i t t' :
  l !! i = Some t -> (forall x, g x <= f x) -> g t' < f t ->
  sum_list_with g (<[i := t']> l) < sum_list_with f l.
Proof.
  intros Hi Hle Hlt. revert i Hi. induction l as [|x l IH]; intros [|i] Hi; cbn in *; [done..| |].
  - injection Hi as ->. assert (sum_list_with g l <= sum_list_with f l); [|lia].
    clear -Hle. induction l as [|y l IH]; cbn; [lia|]. specialize (Hle y). lia.
  - apply Nat.add_le_lt_mono; [done|]. by apply IH.
Qed.

Lemma decided_true s pid : decided s pid = true <-> exists p d, s.(pendings) !! pid = Some p /\ pending_decision p = Some d.
Proof.
  unfold decided. destruct (pendings s !! pid) as [[[d|] e]|]; split; try done; intros; [by eexists _, d|..]; naive_solver.
Qed.

Lemma weight_keeps s s' t : keeps_decisions s.(pendings) s'.(pendings) -> task_weight s' t <= task_weight s t.
Proof.
  intros Hk. assert (forall pid, decided s pid = true -> decided s' pid = true) as Hd.
  { intros pid. rewrite !decided_true. intros (p & d & Hp & Hpd). destruct (Hk _ _ _ Hp Hpd) as (p' & ? & ?). eauto. }
  destruct t; cbn; try lia; specialize (Hd pending); destruct (decided s pending), (decided s' pending);
    try lia; by specialize (Hd eq_refl).
Qed.

Lemma owner_program_length ctx input : length (owner_program ctx input).1 <= 6.
Proof.
  unfold owner_program, resolve_review, record_for. destruct (negb _); [destruct (rc_owner ctx); cbn; lia|].
  destruct (hook_answer input) as [[]|]; [destruct (rc_owner ctx); cbn; lia..|].
  destruct (review_answer input) as [| | |[? []]| | |], (rc_owner ctx); cbn; lia.
Qed.

Lemma task_step_weight s t input s' t' :
  Forall epoch_ok s.(pendings) -> task_step input s t = Some (s', t') -> task_weight s' t' < task_weight s t.
Proof.
  intros Hep Hstep. destruct t as [rq|rq o e|ctx|ctx|ctx|pid|pid e|pid e|ctx pid|ctx pid prog d|d|b|id o|];
    cbn [task_step] in Hstep.
  1-4: injection Hstep as <- <-; repeat case_match; cbn; lia.
  - unfold get_or_create_pending_approval in Hstep.
    destruct (pending_host_approvals s !! rc_key ctx); injection Hstep as <- <-; cbn; [|lia].
    destruct (decided s _); lia.
  - apply fmap_Some in Hstep as (p & Hp & [= -> ->]). cbn. destruct (decided s pid); lia.
  - apply fmap_Some in Hstep as (p & Hp & [= -> ->]). destruct (pending_decision p) eqn:Ed; cbn; [destruct (decided s pid); lia|].
    assert (decided s pid = false) as -> by (unfold decided; rewrite Hp; by destruct p as [[|]]). lia.
  - apply bind_Some in Hstep as (p & Hp & Hstep). case_match eqn:El; [|done]. injection Hstep as <- <-. cbn.
    assert (decided s pid = true) as ->; [|lia]. apply decided_true.
    apply Nat.ltb_lt in El. destruct (pending_decision p) as [d|] eqn:Ed; [eauto|].
    pose proof (proj1 (Forall_lookup _ _) Hep _ _ Hp Ed). lia.
  - destruct (owner_program ctx (in_review input)) as [prog d] eqn:Eo. injection Hstep as <- <-. cbn.
    pose proof (owner_program_length ctx (in_review input)) as Hl. rewrite Eo in Hl. cbn in Hl. lia.
  - injection Hstep as Hstep. destruct prog as [|i prog]; injection Hstep as <- <-; cbn; lia.
  - done.
  - injection Hstep as <- <-; repeat case_match; cbn; lia.
  - injection Hstep as <- <-. cbn. lia.
  - done.
Qed.

Lemma moves_weight sys sys' : sys_inv sys -> task_moves sys sys' -> sys_weight sys' < sys_weight sys.
Proof.
  intros HI Hmv. destruct (task_moves_inv _ _ HI Hmv) as [_ Hk]. revert HI Hk.
  destruct Hmv as [s tasks i t input s' t' Hi Hstep]. intros (_ & _ & Hep) Hk.
  apply (sum_insert_lt _ _ _ _ t); [done|intros x; by apply weight_keeps|by eapply task_step_weight].
Qed.

Definition any_input : Input := mkInput None (mkReviewInput None ReviewDecision.Denied []).

(** A task that is not answered moves, or sleeps while somebody still has to
    notify it. *)
Lemma progress sys :
  sys_inv sys -> Exists (fun t => answered t = false) sys.(sys_tasks) -> exists sys', task_moves sys sys'.
Proof.
  destruct sys as [s tasks]. intros (HI & Hok & _) (t & Hin & Hna)%Exists_exists. cbn in *.
  assert (forall i t, tasks !! i = Some t -> is_Some (task_step any_input s t) ->
    exists sys', task_moves (mkSystem s tasks) sys') as Hgo.
  { intros i x Hi [[s' t'] Hs]. eexists. by econstructor. }
  apply list_elem_of_lookup in Hin as (i & Hi).
  assert (forall pid e sl, waiter t = Some (pid, e, sl) -> exists p, pendings s !! pid = Some p /\
    (sl = true -> e < pending_epoch p \/ exists j k n, (holder <$> tasks) !! j = Some (Some (k, pid, n)) /\ 2 <= n)) as Hw.
  { intros pid e sl Hw. destruct (inv_waiting _ _ _ _ HI i pid e sl) as (p & Hp & _ & Hs); [|eauto].
    by rewrite list_lookup_fmap, Hi, <- Hw. }
  destruct t as [| | | |ctx|pid|pid e|pid e|ctx pid|ctx pid prog d| | | |]; try done;
    try (apply (Hgo _ _ Hi); by eexists).
  - apply (Hgo _ _ Hi). cbn. by destruct (get_or_create_pending_approval _ _) as [[]].
  - destruct (Hw pid 0 false eq_refl) as (p & Hp & _). apply (Hgo _ _ Hi). cbn. rewrite Hp. by eexists.
  - destruct (Hw pid e false eq_refl) as (p & Hp & _). apply (Hgo _ _ Hi). cbn. rewrite Hp. by eexists.
  - destruct (Hw pid e true eq_refl) as (p & Hp & Hs). destruct (Hs eq_refl) as [Hl|(j & k & n & Hj & _)].
    + apply (Hgo _ _ Hi). apply Nat.ltb_lt in Hl. cbn [task_step]. rewrite Hp. cbn [mbind option_bind]. by rewrite Hl.
    + rewrite list_lookup_fmap in Hj. apply fmap_Some in Hj as (x & Hx & Heq). apply (Hgo _ _ Hx).
      destruct x; try done; cbn; destruct (owner_program _ _); by eexists.
  - apply (Hgo _ _ Hi). cbn. by destruct (owner_program _ _).
Qed.

Lemma moves_reachable sys sys' : reachable sys -> rtc task_moves sys sys' -> reachable sys'.
Proof.
  intros Hr Hm. unfold reachable in *. etrans; [exact Hr|].
  eapply rtc_subrel; [|exact Hm]. intros a b H. by apply step_own, step_task.
Qed.

(** C26: every request is answered.  However the steps of the requests are
    interleaved, they come to an end after a number of steps bounded by the state
    they start from, and when none of them can move every request has its answer:
    no request is left waiting for a decision that was, or will be, made. *)
Theorem requests_are_answered sys :
  reachable sys ->
  (forall n sys', nsteps task_moves n sys sys' -> n + sys_weight sys' <= sys_weight sys)
  /\ (forall sys', rtc task_moves sys sys' -> (forall sys'', ~ task_moves sys' sys'') ->
        Forall (fun t => answered t = true) sys'.(sys_tasks)).
Proof.
  intros Hr. split.
  - intros n. revert sys Hr. induction n as [|n IH]; intros sys Hr sys' Hn; inversion Hn as [|? ? y ? Hm Hn']; subst; [lia|].
    pose proof (moves_weight _ _ (reachable_inv _ Hr) Hm).
    specialize (IH y (moves_reachable _ _ Hr (rtc_once _ _ Hm)) _ Hn'). lia.
  - intros sys' Hm Hstuck. pose proof (reachable_inv _ (moves_reachable _ _ Hr Hm)) as HI.
    apply Forall_forall. intros t Ht. destruct (answered t) eqn:E; [done|].
    destruct (progress sys' HI) as [sys'' Hs]; [apply Exists_exists; eauto|by destruct (Hstuck sys'')].
Qed.

(** * Outcomes of calls *)

Definition call_ids (s : Service) : list str := registration_id <$> s.(active_calls).

Definition outcomes_ok (s : Service) : Prop :=
  forall id, is_Some (s.(call_outcomes) !! id) -> id ∈ call_ids s.

(** What a step may do to the outcome of a call: the user's denial stays until
    the call is removed. *)
Definition outcome_step (s s' : Service) : Prop :=
  forall id, s.(call_outcomes) !! id = Some DeniedByUser ->
    s'.(call_outcomes) !! id = Some DeniedByUser \/ (~ id ∈ call_ids s' /\ s'.(call_outcomes) !! id = None).

Lemma record_call_outcome_ok s id o :
  outcomes_ok s -> outcomes_ok (record_call_outcome s id o) /\ outcome_step s (record_call_outcome s id o).
Proof.
  intros Hok. unfold record_call_outcome. destruct (existsb _ _) eqn:Ea; cbn [negb]; [|split; [done|by left]].
  case_bool_decide as Hd; [split; [done|by left]|]. split.
  - intros id' [o' Ho']. cbn in Ho'. apply lookup_insert_Some in Ho' as [[<- _]|[_ Ho']]; [|by apply Hok].
    apply existsb_exists in Ea as (c & Hc%list_elem_of_In & Heq%bool_decide_eq_true_1).
    apply list_elem_of_fmap. by exists c.
  - intros id' Hid. left. cbn. rewrite lookup_insert_ne; [done|]. by intros ->.
Qed.

Lemma insert_call_ids call calls id :
  id ∈ registration_id <$> calls -> id ∈ registration_id <$> insert_call call calls.
Proof.
  induction calls as [|c calls IH]; cbn; [by intros ?%not_elem_of_nil|]. case_bool_decide as Hc; cbn.
  - rewrite !elem_of_cons. by rewrite Hc.
  - rewrite !elem_of_cons. naive_solver.
Qed.

Lemma register_call_ok s call : outcomes_ok s -> outcomes_ok (register_call s call) /\ outcome_step s (register_call s call).
Proof. intros Hok. split; [|by left]. intros id Hid. by apply insert_call_ids, Hok. Qed.

Lemma remove_call_ok s id : outcomes_ok s -> outcomes_ok (remove_call s id).1 /\ outcome_step s (remove_call s id).1.
Proof.
  intros Hok. split.
  - intros id' [o Ho]. cbn in Ho. apply lookup_delete_Some in Ho as [Hne Ho].
    destruct (proj1 (list_elem_of_fmap _ _ _) (Hok id' (mk_is_Some _ _ Ho))) as (c & -> & Hc).
    apply list_elem_of_fmap. exists c. split; [done|]. apply elem_of_retain. split; [|done].
    apply negb_true_iff, bool_decide_eq_false. congruence.
  - intros id' Hid. cbn. destruct (decide (id' = id)) as [->|Hne]; [right|left; by rewrite lookup_delete_ne].
    rewrite lookup_delete_eq. split; [|done]. intros (c & Heq & Hc)%list_elem_of_fmap.
    apply elem_of_retain in Hc as [Hc _]. apply negb_true_iff, bool_decide_eq_false in Hc. congruence.
Qed.

Lemma exec_instr_ok s ctx pid i : outcomes_ok s -> outcomes_ok (exec_instr s ctx pid i) /\ outcome_step s (exec_instr s ctx pid i).
Proof.
  intros Hok. destruct i; cbn; try (split; [done|by left]). case_match; [by apply record_call_outcome_ok|split; [done|by left]].
Qed.

Lemma task_step_outcomes input s t s' t' :
  outcomes_ok s -> task_step input s t = Some (s', t') -> outcomes_ok s' /\ outcome_step s s'.
Proof.
  intros Hok Hstep. destruct t as [rq|rq o e|ctx|ctx|ctx|pid|pid e|pid e|ctx pid|ctx pid prog d|d|b|id o|];
    cbn [task_step] in Hstep; try done.
  1-4, 11: injection Hstep as <- _; split; [done|by left].
  - unfold get_or_create_pending_approval in Hstep.
    destruct (pending_host_approvals s !! rc_key ctx); injection Hstep as <- _; (split; [done|by left]).
  - apply fmap_Some in Hstep as (p & _ & [= -> _]). split; [done|by left].
  - apply fmap_Some in Hstep as (p & _ & [= -> _]). split; [done|by left].
  - apply bind_Some in Hstep as (p & _ & Hstep). case_match; [|done]. injection Hstep as <- _. split; [done|by left].
  - destruct (owner_program _ _). injection Hstep as <- _. split; [done|by left].
  - injection Hstep as Hstep. destruct prog; injection Hstep as <- _; [split; [done|by left]|by apply exec_instr_ok].
  - injection Hstep as <- _. by apply record_call_outcome_ok.
Qed.

Lemma step_outcomes sys sys' :
  outcomes_ok sys.(sys_service) -> step sys sys' ->
  outcomes_ok sys'.(sys_service) /\ outcome_step sys.(sys_service) sys'.(sys_service).
Proof.
  intros Hok Hs. revert Hok. destruct Hs as [sys sys' Hown|s tasks other]; [|split; [done|by left]].
  destruct Hown as [sys sys' Hmv|s tasks rq|s tasks b|s tasks call|s tasks id]; cbn; intros Hok.
  - revert Hok. destruct Hmv as [s tasks i t input s' t' _ Hstep]. intros Hok. by eapply task_step_outcomes.
  - split; [done|by left].
  - split; [done|by left].
  - by apply register_call_ok.
  - by apply remove_call_ok.
Qed.

(** Outcomes are kept only for calls in progress, so a finished call leaves
    nothing behind; and once the user has denied a call, no later request, blocked
    connection or review replaces that: the call ends as denied by the user. *)
Theorem user_denial_sticks sys sys' id :
  reachable sys -> sys.(sys_service).(call_outcomes) !! id = Some DeniedByUser ->
  rtc (fun sys1 sys2 => step sys1 sys2 /\ id ∈ call_ids sys2.(sys_service)) sys sys' ->
  outcomes_ok sys'.(sys_service)
  /\ (finish_call_outcome sys'.(sys_service) id).2 = Some DeniedByUser
  /\ (finish_call_outcome (finish_call_outcome sys'.(sys_service) id).1 id).2 = None.
Proof.
  intros Hr Hd Hsteps.
  assert (outcomes_ok (sys_service sys)) as Hok.
  { clear -Hr. revert Hr. apply (rtc_ind_r (fun sys => outcomes_ok (sys_service sys)));
      [by intros id [o Ho]|]. intros y z _ Hs IH. by apply (step_outcomes y z). }
  assert (outcomes_ok (sys_service sys') /\ call_outcomes (sys_service sys') !! id = Some DeniedByUser) as [Hok' Hd'].
  { clear Hr. revert Hok Hd. induction Hsteps as [sys|sys sys1 sys' [Hs Hin] Hsteps IH]; intros Hok Hd; [done|].
    destruct (step_outcomes _ _ Hok Hs) as [Hok1 Ho]. apply IH; [done|]. by destruct (Ho id Hd) as [?|[Hn _]]. }
  split; [done|]. split; [done|]. cbn. by rewrite lookup_delete_eq.
Qed.

(** * Concrete runs *)

Definition w_net_request : NetworkPolicyRequest :=
  mkNetRequest NetworkProtocol.HttpsConnect (lit "Example.com") 443 (Some (lit "local")).
Definition w_turn : TurnView :=
  mkTurnView (Some (lit "local"))
    (PermissionProfile.Managed (ManagedFileSystemPermissions.Restricted [] None) NetworkSandboxPolicy.Restricted)
    AskForApproval.OnRequest false.
Definition w_input (d : ReviewDecision.t) : Input := mkInput (Some w_turn) (mkReviewInput None d []).

(** Let task [i] take its next step. *)
Definition run_task (input : Input) (sys : System) (i : nat) : System :=
  match sys.(sys_tasks) !! i with
  | Some t =>
      match task_step input sys.(sys_service) t with
      | Some (s', t') => mkSystem s' (<[i := t']> sys.(sys_tasks))
      | None => sys
      end
  | None => sys
  end.

Lemma run_task_rtc input sys i : rtc task_moves sys (run_task input sys i).
Proof.
  unfold run_task. destruct (sys_tasks sys !! i) as [t|] eqn:Hi; [|done].
  destruct (task_step _ _ _) as [[s' t']|] eqn:Hs; [|done]. apply rtc_once. destruct sys. by econstructor.
Qed.

Definition two_requests : System := mkSystem service_default [TStart w_net_request; TStart w_net_request].

Lemma two_requests_reachable : reachable two_requests.
Proof.
  eapply rtc_l; [apply step_own, (step_request _ [] w_net_request)|].
  eapply rtc_l; [apply step_own, (step_request _ [TStart w_net_request] w_net_request)|]. constructor.
Qed.

Definition run_schedule (input : Input) (sys : System) (schedule : list nat) : System :=
  foldl (run_task input) sys schedule.

Lemma run_schedule_rtc input sys schedule : rtc task_moves sys (run_schedule input sys schedule).
Proof.
  revert sys. induction schedule as [|i schedule IH]; intros sys; [constructor|].
  etrans; [apply run_task_rtc|apply IH].
Qed.

Lemma run_schedule_reachable input sys schedule : reachable sys -> reachable (run_schedule input sys schedule).
Proof. intros Hr. eapply moves_reachable; [exact Hr|apply run_schedule_rtc]. Qed.

(** The second request for a host waits for the review of the first and gets its
    answer. *)
Example second_request_waits :
  sys_tasks (run_schedule (w_input ReviewDecision.ApprovedForSession) two_requests
    ([0; 0; 0; 0; 0] ++ [1; 1; 1; 1; 1; 1; 1] ++ replicate 8 0 ++ [1; 1; 1]))
  = [TDone NetworkDecision.Allow; TDone NetworkDecision.Allow].
Proof. vm_compute. reflexivity. Qed.

(** A request that looked at the session's hosts before the first review was
    stored opens a second review for a host already approved for the session. *)
Example approved_host_reviewed_again :
  let sys := run_schedule (w_input ReviewDecision.ApprovedForSession) two_requests
               ([1; 1; 1; 1] ++ replicate 13 0 ++ [1]) in
  (exists ctx p, sys.(sys_tasks) = [TDone NetworkDecision.Allow; TReview ctx p]
                 /\ rc_key ctx ∈ sys.(sys_service).(session_approved_hosts)).
Proof. eexists _, _. split; [vm_compute; reflexivity|]. vm_compute. set_solver. Qed.

(** The first request is reviewing, the second waits for it. *)
Definition waiting_system : System :=
  run_schedule (w_input ReviewDecision.ApprovedForSession) two_requests ([0; 0; 0; 0; 0] ++ [1; 1; 1; 1; 1]).

Lemma one_review_per_host_witness :
  exists k p, sys_tasks waiting_system !! 1 = Some (TRegister p)
  /\ pending_host_approvals (sys_service waiting_system) !! k = Some p
  /\ exists i t n, sys_tasks waiting_system !! i = Some t /\ holder t = Some (k, p, n).
Proof.
  exists (mkKey (lit "local") (lit "example.com") (lit "https") 443), 0.
  split; [vm_compute; reflexivity|].
  assert (pending_host_approvals (sys_service waiting_system)
    !! mkKey (lit "local") (lit "example.com") (lit "https") 443 = Some 0) as Hm by (vm_compute; reflexivity).
  split; [exact Hm|].
  destruct (proj2 (one_review_per_host waiting_system
    (run_schedule_reachable _ _ _ two_requests_reachable)) _ _ Hm) as (i & t & n & Hi & Ht & _).
  exists i, t, n. exact (conj Hi Ht).
Defined.

(** The decision is set and the first request is about to notify. *)
Definition decided_system : System :=
  run_schedule (w_input ReviewDecision.ApprovedForSession) waiting_system (replicate 4 0).

Lemma waiters_get_the_review_answer_witness :
  exists s, task_step (w_input ReviewDecision.Denied) (sys_service decided_system) (TCheck 0 0)
  = Some (s, TDone NetworkDecision.Allow).
Proof.
  destruct (task_step (w_input ReviewDecision.Denied) (sys_service decided_system) (TCheck 0 0)) as [[s t]|] eqn:E;
    [|vm_compute in E; discriminate E].
  rewrite (proj2 (proj2 (waiters_get_the_review_answer decided_system decided_system 0
    (mkPending (Some PendingApprovalDecision.AllowForSession) 0) PendingApprovalDecision.AllowForSession
    (run_schedule_reachable _ _ _ (run_schedule_reachable _ _ _ two_requests_reachable)) (rtc_refl _ _)
    ltac:(vm_compute; reflexivity) eq_refl)) 0 (w_input ReviewDecision.Denied) s t E).
  exists s. reflexivity.
Defined.

Lemma requests_are_answered_witness :
  let sys := run_schedule (w_input ReviewDecision.Denied) two_requests
    ([0; 0; 0; 0; 0] ++ [1; 1; 1; 1; 1; 1; 1] ++ replicate 5 0 ++ [1; 1; 1]) in
  sys_weight two_requests = 32 /\ Forall (fun t => answered t = true) sys.(sys_tasks).
Proof.
  intros sys. split; [reflexivity|].
  refine (proj2 (requests_are_answered two_requests two_requests_reachable) sys (run_schedule_rtc _ _ _) _).
  assert (sys = mkSystem (sys_service sys) [TDone denied; TDone denied]) as E.
  { unfold sys. vm_compute. reflexivity. }
  rewrite E. generalize (sys_service sys). clear. intros s sys'' H. inversion H as [? ? [|[|i]] t ? ? ? Hi Hs]; subst; simplify_eq/=.
Defined.

(** A call whose connection was denied by the user, while another one is blocked. *)
Lemma user_denial_sticks_witness :
  exists sys, (finish_call_outcome sys.(sys_service) (lit "r")).2 = Some DeniedByUser.
Proof.
  set (call := mkActiveCall (lit "r") (lit "t") (lit "c") (lit "local")).
  set (s0 := mkSystem (register_call service_default call) [TStart w_net_request]).
  set (sys := run_schedule (w_input ReviewDecision.Denied) s0 (replicate 7 0)).
  assert (reachable sys) as Hr.
  { apply run_schedule_reachable. eapply rtc_l; [apply step_own, (step_register _ [] call)|].
    eapply rtc_l; [apply step_own, (step_request _ [] w_net_request)|]. constructor. }
  set (sys' := mkSystem sys.(sys_service) (sys.(sys_tasks) ++ [TStart w_net_request])).
  exists sys'. refine (proj1 (proj2 (user_denial_sticks sys sys' (lit "r") Hr _ _))).
  - vm_compute. reflexivity.
  - apply rtc_once. split; [destruct sys; apply step_own, step_request|]. vm_compute. set_solver.
Defined.
