(* ===== verification/NetworkHost.v ===== *)
(** [network-proxy/src/policy.rs]: host names, IP literals and domain patterns of
    the network proxy.

    [IpAddr::from_str] of the standard library is [parse_ip]; a 32-bit address is
    an [N], an IPv6 address its eight segments.  Globs are compiled by the
    [globset] crate, a parameter ([Globs]) with the laws the patterns rely on
    ([GlobLaws]); [UrlHost::parse] of the [url] crate is a parameter too. *)

From stdpp Require Import base list option numbers strings sets.
From Stdlib Require Import NArith ZArith Lia.
From S2P Require Import Prelude RustStr.
Local Open Scope rust_scope.

(** * IP addresses ([std::net]) *)

Inductive IpAddr : Set := V4 (ip : N) | V6 (segments : list N).

#[global] Instance IpAddr_eq_dec : EqDecision IpAddr.
Proof. solve_decision. Defined.

Definition DOT : char := 46%N.
Definition COLON : char := 58%N.
Definition PERCENT : char := 37%N.

Definition digit_value (radix : N) (c : char) : option N :=
  let v := if is_ascii_digit c then Some (c - 48)%N
           else if in_range 97 102 c then Some (c - 87)%N
           else if in_range 65 70 c then Some (c - 55)%N
           else None in
  match v with Some v => if (v <? radix)%N then Some v else None | None => None end.

(** The digits of a number, at most [max_digits], with what is left; [None] when
    there are more digits or the value exceeds [limit]. *)
Fixpoint read_digits (radix limit : N) (max_digits : nat) (acc : N) (s : str) : option (N * nat * str) :=
  match s with
  | [] => Some (acc, 0, s)
  | c :: rest =>
      match digit_value radix c with
      | None => Some (acc, 0, s)
      | Some v =>
          match max_digits with
          | O => None
          | S max_digits =>
              let acc := (acc * radix + v)%N in
              if (limit <? acc)%N then None
              else match read_digits radix limit max_digits acc rest with
                   | Some (n, count, rest) => Some (n, S count, rest)
                   | None => None
                   end
          end
      end
  end.

Definition read_number (radix limit : N) (max_digits : nat) (allow_zero_prefix : bool) (s : str) : option (N * str) :=
  match read_digits radix limit max_digits 0 s with
  | Some (n, count, rest) =>
      if count =? 0 then None
      else if negb allow_zero_prefix && (head s == Some 48%N) && (1 <? count) then None
      else Some (n, rest)
  | None => None
  end.

Definition read_given_char (c : char) (s : str) : option str :=
  match s with c' :: rest => if c' == c then Some rest else None | [] => None end.

Definition read_octet (s : str) : option (N * str) := read_number 10 255 3 false s.

Definition read_ipv4_addr (s : str) : option (N * str) :=
  a ← read_octet s; s1 ← read_given_char DOT a.2;
  b ← read_octet s1; s2 ← read_given_char DOT b.2;
  c ← read_octet s2; s3 ← read_given_char DOT c.2;
  d ← read_octet s3;
  Some ((((a.1 * 256 + b.1) * 256 + c.1) * 256 + d.1)%N, d.2).

Definition read_separated {A} (index : nat) (inner : str -> option (A * str)) (s : str) : option (A * str) :=
  if index =? 0 then inner s else s ← read_given_char COLON s; inner s.

(** Up to [limit] groups from position [index] on; the flag says that they end with
    an IPv4 address. *)
Fixpoint read_groups (limit index : nat) (s : str) : list N * bool * str :=
  match limit with
  | O => ([], false, s)
  | S limit' =>
      match (if limit' =? 0 then None else read_separated index read_ipv4_addr s) with
      | Some (ip, rest) => ([ip / 65536; ip mod 65536]%N, true, rest)
      | None =>
          match read_separated index (read_number 16 65535 4 true) s with
          | Some (group, rest) =>
              let '(groups, v4, rest) := read_groups limit' (S index) rest in (group :: groups, v4, rest)
          | None => ([], false, s)
          end
      end
  end.

Definition read_ipv6_addr (s : str) : option (list N * str) :=
  let '(head, head_ipv4, rest) := read_groups 8 0 s in
  if length head =? 8 then Some (head, rest)
  else if head_ipv4 then None
  else
    rest ← read_given_char COLON rest; rest ← read_given_char COLON rest;
    let '(tail, _, rest) := read_groups (8 - (length head + 1)) 0 rest in
    Some (head ++ replicate (8 - length head - length tail) 0%N ++ tail, rest).

(** [host.parse::<IpAddr>().ok()]. *)
Definition parse_ip (s : str) : option IpAddr :=
  match read_ipv4_addr s with
  | Some (ip, rest) => if rest == [] then Some (V4 ip) else None
  | None =>
      match read_ipv6_addr s with
      | Some (segments, []) => Some (V6 segments)
      | _ => None
      end
  end.

Definition octets_to_u32 (a b c d : N) : N := (((a * 256 + b) * 256 + c) * 256 + d)%N.

Definition ipv4_is_loopback (ip : N) : bool := (ip / 2 ^ 24 =? 127)%N.
Definition ipv4_is_private (ip : N) : bool :=
  (ip / 2 ^ 24 =? 10)%N || (ip / 2 ^ 20 =? 172 * 16 + 1)%N || (ip / 2 ^ 16 =? 192 * 256 + 168)%N.
Definition ipv4_is_link_local (ip : N) : bool := (ip / 2 ^ 16 =? 169 * 256 + 254)%N.
Definition ipv4_is_unspecified (ip : N) : bool := (ip =? 0)%N.
Definition ipv4_is_multicast (ip : N) : bool := ((224 <=? ip / 2 ^ 24) && (ip / 2 ^ 24 <=? 239))%N.
Definition ipv4_is_broadcast (ip : N) : bool := (ip =? 0xFFFFFFFF)%N.

Definition ipv6_is_loopback (segments : list N) : bool := segments == [0; 0; 0; 0; 0; 0; 0; 1]%N.
Definition ipv6_is_unspecified (segments : list N) : bool := segments == [0; 0; 0; 0; 0; 0; 0; 0]%N.
Definition first_segment (segments : list N) : N := default 0%N (head segments).
Definition ipv6_is_multicast (segments : list N) : bool := (N.land (first_segment segments) 0xFF00 =? 0xFF00)%N.
Definition ipv6_is_unique_local (segments : list N) : bool := (N.land (first_segment segments) 0xFE00 =? 0xFC00)%N.
Definition ipv6_is_unicast_link_local (segments : list N) : bool :=
  (N.land (first_segment segments) 0xFFC0 =? 0xFE80)%N.
(** [Ipv6Addr::to_ipv4]: compatible and mapped addresses. *)
Definition to_ipv4 (segments : list N) : option N :=
  match segments with
  | [0; 0; 0; 0; 0; x; ab; cd]%N => if (x =? 0)%N || (x =? 0xFFFF)%N then Some (ab * 65536 + cd)%N else None
  | _ => None
  end.

(** * Public and other addresses *)

Definition U32_MAX : N := 0xFFFFFFFF.

Definition ipv4_in_cidr (ip base : N) (prefix : N) : bool :=
  let mask := if (prefix =? 0)%N then 0%N else N.land (N.shiftl U32_MAX (32 - prefix)) U32_MAX in
  (N.land ip mask =? N.land base mask)%N.

Definition is_non_public_ipv4 (ip : N) : bool :=
  ipv4_is_loopback ip || ipv4_is_private ip || ipv4_is_link_local ip || ipv4_is_unspecified ip
  || ipv4_is_multicast ip || ipv4_is_broadcast ip
  || ipv4_in_cidr ip (octets_to_u32 0 0 0 0) 8
  || ipv4_in_cidr ip (octets_to_u32 100 64 0 0) 10
  || ipv4_in_cidr ip (octets_to_u32 192 0 0 0) 24
  || ipv4_in_cidr ip (octets_to_u32 192 0 2 0) 24
  || ipv4_in_cidr ip (octets_to_u32 198 18 0 0) 15
  || ipv4_in_cidr ip (octets_to_u32 198 51 100 0) 24
  || ipv4_in_cidr ip (octets_to_u32 203 0 113 0) 24
  || ipv4_in_cidr ip (octets_to_u32 240 0 0 0) 4.

Definition is_non_public_ipv6 (segments : list N) : bool :=
  match to_ipv4 segments with
  | Some v4 => is_non_public_ipv4 v4 || ipv6_is_loopback segments
  | None =>
      ipv6_is_loopback segments || ipv6_is_unspecified segments || ipv6_is_multicast segments
      || ipv6_is_unique_local segments || ipv6_is_unicast_link_local segments
  end.

Definition is_non_public_ip (ip : IpAddr) : bool :=
  match ip with V4 ip => is_non_public_ipv4 ip | V6 segments => is_non_public_ipv6 segments end.

Definition ip_is_loopback (ip : IpAddr) : bool :=
  match ip with V4 ip => ipv4_is_loopback ip | V6 segments => ipv6_is_loopback segments end.

Example parse_ip_examples :
  parse_ip (lit "127.0.0.1") = Some (V4 (octets_to_u32 127 0 0 1))
  /\ parse_ip (lit "127.0.0.01") = None /\ parse_ip (lit "256.0.0.1") = None /\ parse_ip (lit "1.2.3") = None
  /\ parse_ip (lit "::1") = Some (V6 [0; 0; 0; 0; 0; 0; 0; 1]%N)
  /\ parse_ip (lit "fe80::a:B") = Some (V6 [0xfe80; 0; 0; 0; 0; 0; 0xa; 0xb]%N)
  /\ parse_ip (lit "::ffff:10.0.0.1") = Some (V6 [0; 0; 0; 0; 0; 0xffff; 0x0a00; 1]%N)
  /\ parse_ip (lit "1:2:3:4:5:6:7::") = Some (V6 [1; 2; 3; 4; 5; 6; 7; 0]%N)
  /\ parse_ip (lit "1:2:3:4:5:6:7:8:9") = None /\ parse_ip (lit "::1::2") = None /\ parse_ip (lit "1.2.3.4::") = None.
Proof. vm_compute. repeat split. Qed.

(** * Hosts *)

Definition PERCENT_25 : str := lit "%25".

(** [str::split_once] by a string. *)
Definition split_once_str (delimiter s : str) : option (str * str) :=
  match find_str delimiter s with
  | Some i => Some (take i s, drop (i + length delimiter) s)
  | None => None
  end.

Definition normalize_ip_literal (host : str) : option str :=
  if is_some (parse_ip host) then Some host
  else
    let scoped delimiter :=
      match split_once_str delimiter host with
      | Some (ip, scope) => if is_some (parse_ip ip) then Some (ip ++ lit "%" ++ scope) else None
      | None => None
      end in
    match scoped PERCENT_25 with
    | Some s => Some s
    | None => scoped (lit "%")
    end.

Definition normalize_dns_host_or_ip_literal (host : str) : str :=
  let host := trim_end_matches DOT (to_ascii_lowercase host) in
  match normalize_ip_literal host with
  | Some ip => ip
  | None => host
  end.

Definition normalize_host (host : str) : str :=
  let host := trim host in
  match (if starts_with (lit "[") host then find_str (lit "]") host else None) with
  | Some end_ => normalize_dns_host_or_ip_literal (drop 1 (take end_ host))
  | None =>
      if count_char COLON host =? 1
      then normalize_dns_host_or_ip_literal (default [] (head (split_on COLON host)))
      else normalize_dns_host_or_ip_literal host
  end.

(** [Host::parse]: [None] for an empty host. *)
Definition host_parse (input : str) : option str :=
  match normalize_host input with [] => None | normalized => Some normalized end.

Definition unscoped_ip_literal (host : str) : option str :=
  match split_once PERCENT host with
  | Some (ip, _) => if is_some (parse_ip ip) then Some ip else None
  | None => None
  end.

Definition is_loopback_host (host : str) : bool :=
  let host := default host (unscoped_ip_literal host) in
  if host == lit "localhost" then true
  else match parse_ip host with Some ip => ip_is_loopback ip | None => false end.

(** * Domain patterns *)

Inductive DomainPattern : Set :=
| ApexAndSubdomains (domain : str)
| SubdomainsOnly (domain : str)
| Exact (domain : str).

#[global] Instance DomainPattern_eq_dec : EqDecision DomainPattern.
Proof. solve_decision. Defined.

Definition parse_domain (domain : str) (build : str -> DomainPattern) : DomainPattern :=
  match trim domain with [] => Exact [] | domain => build domain end.

Definition pattern_parse (input : str) : DomainPattern :=
  let input := trim input in
  match strip_prefix (lit "**.") input with
  | Some domain => parse_domain domain ApexAndSubdomains
  | None =>
      match strip_prefix (lit "*.") input with
      | Some domain => parse_domain domain SubdomainsOnly
      | None => Exact input
      end
  end.

Definition normalize_domain (domain : str) : str := to_ascii_lowercase (trim_end_matches DOT domain).
Definition domain_eq (left right : str) : bool := normalize_domain left == normalize_domain right.
Definition is_subdomain_or_equal (child parent : str) : bool :=
  let child := normalize_domain child in
  let parent := normalize_domain parent in
  (child == parent) || ends_with (DOT :: parent) child.
Definition is_strict_subdomain (child parent : str) : bool :=
  let child := normalize_domain child in
  let parent := normalize_domain parent in
  (child != parent) && ends_with (DOT :: parent) child.

Definition pattern_allows (self candidate : DomainPattern) : bool :=
  match self, candidate with
  | Exact domain, Exact candidate => domain_eq candidate domain
  | Exact _, _ => false
  | SubdomainsOnly domain, Exact candidate => is_strict_subdomain candidate domain
  | SubdomainsOnly domain, SubdomainsOnly candidate => is_subdomain_or_equal candidate domain
  | SubdomainsOnly domain, ApexAndSubdomains candidate => is_strict_subdomain candidate domain
  | ApexAndSubdomains domain, Exact candidate
  | ApexAndSubdomains domain, SubdomainsOnly candidate
  | ApexAndSubdomains domain, ApexAndSubdomains candidate => is_subdomain_or_equal candidate domain
  end.

Definition expand_domain_pattern (pattern : str) : list str :=
  match pattern_parse pattern with
  | Exact domain => [domain]
  | SubdomainsOnly domain => [lit "?*." ++ domain]
  | ApexAndSubdomains domain => [domain; lit "?*." ++ domain]
  end.

Definition normalize_pattern (pattern : str) : str :=
  let pattern := trim pattern in
  if pattern == lit "*" then lit "*"
  else
    let '(prefix, remainder) :=
      match strip_prefix (lit "**.") pattern with
      | Some domain => (lit "**.", domain)
      | None =>
          match strip_prefix (lit "*.") pattern with
          | Some domain => (lit "*.", domain)
          | None => ([], pattern)
          end
      end in
    prefix ++ normalize_host remainder.

Definition is_global_wildcard_domain_pattern (pattern : str) : bool :=
  existsb (fun candidate => candidate == lit "*") (expand_domain_pattern (normalize_pattern pattern)).

(** ** Constraint patterns *)

Section constraints.
Context (url_host_parse : str -> option str).

Definition parse_domain_for_constraints (domain : str) : str :=
  let domain := trim_end_matches DOT (trim domain) in
  if domain == [] then []
  else
    let host :=
      if starts_with (lit "[") domain && ends_with (lit "]") domain
      then take (length domain - 2) (drop 1 domain) else domain in
    if contains_char 42 host || contains_char 63 host || contains_char PERCENT host then domain
    else default [] (url_host_parse host).

Definition parse_for_constraints (input : str) : DomainPattern :=
  let input := trim input in
  if input == [] then Exact []
  else match strip_prefix (lit "**.") input with
  | Some domain => ApexAndSubdomains (parse_domain_for_constraints domain)
  | None =>
      match strip_prefix (lit "*.") input with
      | Some domain => SubdomainsOnly (parse_domain_for_constraints domain)
      | None => Exact (parse_domain_for_constraints input)
      end
  end.
End constraints.

(** * Glob sets *)

(** [GlobBuilder::new(p).case_insensitive(true).build()], [Glob::is_match], and
    whether a set of globs compiles. *)
Class Globs := {
  Glob : Type;
  glob_new : str -> result Glob str;
  glob_is_match : Glob -> str -> bool;
  globset_compiles : list Glob -> bool;
}.

Section globsets.
Context `{Globs}.

Definition GlobSet : Type := list Glob.
Definition set_is_match (set : GlobSet) (host : str) : bool := existsb (fun g => glob_is_match g host) set.

Inductive GlobalWildcard : Set := WildcardAllow | WildcardReject.
Inductive CompileError : Set :=
| GlobalWildcardPattern
| InvalidGlob (candidate err : str)
| SetTooLarge.

Fixpoint compile_candidates (candidates : list str) (seen : list str) (builder : list Glob) :
    result (list str * list Glob) CompileError :=
  match candidates with
  | [] => Ok (seen, builder)
  | candidate :: candidates =>
      if existsb (fun s => s == candidate) seen then compile_candidates candidates seen builder
      else match glob_new candidate with
           | Ok glob => compile_candidates candidates (candidate :: seen) (builder ++ [glob])
           | Err err => Err (InvalidGlob candidate err)
           end
  end.

Fixpoint compile_patterns (global_wildcard : GlobalWildcard) (patterns : list str) (seen : list str)
    (builder : list Glob) : result (list Glob) CompileError :=
  match patterns with
  | [] => Ok builder
  | pattern :: patterns =>
      if match global_wildcard with
         | WildcardReject => is_global_wildcard_domain_pattern pattern
         | WildcardAllow => false
         end
      then Err GlobalWildcardPattern
      else match compile_candidates (expand_domain_pattern (normalize_pattern pattern)) seen builder with
           | Ok (seen, builder) => compile_patterns global_wildcard patterns seen builder
           | Err e => Err e
           end
  end.

Definition compile_globset_with_policy (patterns : list str) (global_wildcard : GlobalWildcard) :
    result GlobSet CompileError :=
  match compile_patterns global_wildcard patterns [] [] with
  | Ok builder => if globset_compiles builder then Ok builder else Err SetTooLarge
  | Err e => Err e
  end.

Definition compile_allowlist_globset (patterns : list str) := compile_globset_with_policy patterns WildcardAllow.
Definition compile_denylist_globset (patterns : list str) := compile_globset_with_policy patterns WildcardReject.
End globsets.

(** * What the patterns mean *)

(** The hosts a pattern stands for, without regard to case. *)
Definition pattern_matches (p : DomainPattern) (host : str) : Prop :=
  let below domain := exists pre, pre <> [] /\ to_ascii_lowercase host = pre ++ DOT :: to_ascii_lowercase domain in
  match p with
  | Exact domain => to_ascii_lowercase host = to_ascii_lowercase domain
  | SubdomainsOnly domain => below domain
  | ApexAndSubdomains domain => to_ascii_lowercase host = to_ascii_lowercase domain \/ below domain
  end.

(** How a pattern is written in a configuration. *)
Definition render_pattern (p : DomainPattern) : str :=
  match p with
  | Exact domain => domain
  | SubdomainsOnly domain => lit "*." ++ domain
  | ApexAndSubdomains domain => lit "**." ++ domain
  end.

Definition pattern_domain (p : DomainPattern) : str :=
  match p with Exact domain | SubdomainsOnly domain | ApexAndSubdomains domain => domain end.

(** Letters, digits, hyphens, underscores and dots. *)
Definition plain_char (c : char) : bool :=
  is_ascii_digit c || in_range 97 122 c || is_ascii_uppercase c || (c =? 45)%N || (c =? 95)%N || (c =? 46)%N.

Definition plain_domain (d : str) : Prop :=
  d <> [] /\ Forall (fun c => plain_char c = true) d /\ head d <> Some DOT /\ last d <> Some DOT.

Class GlobLaws `{Globs} : Prop := {
  glob_literal d : plain_domain d -> exists g, glob_new d = Ok g
    /\ forall h, glob_is_match g h = true <-> to_ascii_lowercase h = to_ascii_lowercase d;
  glob_below d : plain_domain d -> exists g, glob_new (lit "?*." ++ d) = Ok g
    /\ forall h, glob_is_match g h = true
       <-> exists pre, pre <> [] /\ to_ascii_lowercase h = pre ++ DOT :: to_ascii_lowercase d;
}.

Lemma plain_char_facts c :
  plain_char c = true ->
  is_whitespace c = false /\ c <> 42%N /\ c <> 63%N /\ c <> PERCENT /\ c <> COLON /\ c <> 91%N /\ c <> 93%N.
Proof.
  unfold plain_char, is_ascii_digit, is_ascii_uppercase, in_range, PERCENT, COLON.
  rewrite !orb_true_iff, !andb_true_iff, !N.leb_le, !N.eqb_eq. intros Hc.
  split_and!; try lia. unfold is_whitespace.
  repeat (apply orb_false_iff; split); unfold in_range; try (apply N.eqb_neq; lia);
    apply andb_false_iff; rewrite !N.leb_gt; lia.
Qed.

Lemma plain_lower d : plain_domain d -> plain_domain (to_ascii_lowercase d).
Proof.
  unfold plain_domain, to_ascii_lowercase. intros (Hne & Hc & Hh & Hl). split_and!.
  - by destruct d.
  - apply Forall_fmap. eapply Forall_impl; [exact Hc|]. cbn. intros c. unfold plain_char, ascii_lower.
    destruct (is_ascii_uppercase c) eqn:E; [intros _|by rewrite E].
    unfold is_ascii_uppercase, in_range in E. rewrite andb_true_iff, !N.leb_le in E.
    unfold in_range. rewrite (proj2 (N.leb_le 97 (c + 32))), (proj2 (N.leb_le (c + 32) 122)) by lia.
    by rewrite orb_true_r.
  - destruct d as [|c d]; [done|]. cbn in *. unfold ascii_lower, is_ascii_uppercase, in_range, DOT in *.
    case_match eqn:E; [|congruence]. rewrite andb_true_iff, !N.leb_le in E. intros [= ?]. lia.
  - rewrite fmap_last. destruct (last d) as [c|]; [|done]. cbn. unfold ascii_lower, is_ascii_uppercase, in_range, DOT in *.
    case_match eqn:E; [|congruence]. rewrite andb_true_iff, !N.leb_le in E. intros [= ?]. lia.
Qed.

Lemma ascii_lower_idem c : ascii_lower (ascii_lower c) = ascii_lower c.
Proof.
  unfold ascii_lower at 2 3. destruct (is_ascii_uppercase c) eqn:E; unfold ascii_lower; [|by rewrite E].
  unfold is_ascii_uppercase, in_range in *. rewrite andb_true_iff, !N.leb_le in E.
  rewrite (proj2 (N.leb_gt (c + 32) 90)) by lia. by rewrite andb_false_r.
Qed.

Lemma lower_idem s : to_ascii_lowercase (to_ascii_lowercase s) = to_ascii_lowercase s.
Proof.
  unfold to_ascii_lowercase. rewrite <- list_fmap_compose. apply list_fmap_ext. intros _ c _. apply ascii_lower_idem.
Qed.

Lemma plain_not_in d c : plain_domain d -> plain_char c = false -> c ∉ d.
Proof. intros (_ & Hd & _) Hc Hin. rewrite Forall_forall in Hd. specialize (Hd c Hin). cbn in Hd. congruence. Qed.

Lemma plain_trim d : plain_domain d -> trim d = d.
Proof.
  intros (_ & Hd & _). apply trim_no_ws. eapply Forall_impl; [exact Hd|]. intros c Hc. by apply plain_char_facts.
Qed.

Lemma strip_prefix_star p d : head p = Some 42%N -> plain_domain d -> strip_prefix p d = None.
Proof.
  intros Hp Hd. destruct p as [|x p]; [done|]. injection Hp as ->. destruct d as [|c d]; [done|].
  cbn [strip_prefix]. pose proof (plain_not_in _ 42 Hd eq_refl) as H.
  destruct (N.eqb_spec 42 c) as [<-|]; [|done]. exfalso. apply H. by left.
Qed.

Lemma trim_before_plain pre d :
  Forall (fun c => is_whitespace c = false) pre -> plain_domain d -> trim (pre ++ d) = pre ++ d.
Proof.
  intros Hpre (_ & Hd & _). apply trim_no_ws, Forall_app. split; [done|].
  eapply Forall_impl; [exact Hd|]. intros c Hc. by apply plain_char_facts.
Qed.

(** ** Reading back a written pattern *)

Lemma pattern_parse_render p : plain_domain (pattern_domain p) -> pattern_parse (render_pattern p) = p.
Proof.
  intros Hd. unfold pattern_parse.
  destruct p as [d|d|d]; cbn [pattern_domain render_pattern] in *.
  - rewrite trim_before_plain by (done || by repeat constructor). rewrite strip_prefix_app. unfold parse_domain. rewrite plain_trim by done.
    destruct d; [|done]. by destruct Hd.
  - rewrite trim_before_plain by (done || by repeat constructor).
    assert (strip_prefix (lit "**.") (lit "*." ++ d) = None) as -> by reflexivity.
    rewrite strip_prefix_app. unfold parse_domain. rewrite plain_trim by done. destruct d; [|done]. by destruct Hd.
  - rewrite plain_trim by done. by rewrite !strip_prefix_star.
Qed.

Lemma normalize_dns_plain d : plain_domain d -> normalize_dns_host_or_ip_literal d = to_ascii_lowercase d.
Proof.
  intros Hd. unfold normalize_dns_host_or_ip_literal. pose proof (plain_lower d Hd) as Hl.
  rewrite trim_end_matches_id by apply Hl. unfold normalize_ip_literal.
  destruct (is_some (parse_ip (to_ascii_lowercase d))); [done|].
  assert (forall rest, find_str (37%N :: rest) (to_ascii_lowercase d) = None) as Hn.
  { intros rest. destruct (find_str (37%N :: rest) (to_ascii_lowercase d)) as [i|] eqn:E; [|done]. exfalso.
    assert (contains_str (37%N :: rest) (to_ascii_lowercase d) = true) as Hc by (unfold contains_str; by rewrite E).
    apply contains_str_spec in Hc as (a & b & Hc). apply (plain_not_in _ 37 Hl eq_refl). rewrite Hc. set_solver. }
  unfold split_once_str. change PERCENT_25 with (37%N :: lit "25"). change (lit "%") with [37%N]. by rewrite !Hn.
Qed.

Lemma normalize_host_plain d : plain_domain d -> normalize_host d = to_ascii_lowercase d.
Proof.
  intros Hd. unfold normalize_host. rewrite plain_trim by done.
  assert (starts_with (lit "[") d = false) as ->.
  { apply not_true_iff_false. intros (r & E)%starts_with_spec. apply (plain_not_in _ 91 Hd eq_refl). rewrite E. set_solver. }
  rewrite (proj2 (count_char_0 COLON d)) by (by apply plain_not_in). by apply normalize_dns_plain.
Qed.

(** Normalising a written pattern lowers its domain. *)
Definition lower_pattern (p : DomainPattern) : DomainPattern :=
  match p with
  | Exact d => Exact (to_ascii_lowercase d)
  | SubdomainsOnly d => SubdomainsOnly (to_ascii_lowercase d)
  | ApexAndSubdomains d => ApexAndSubdomains (to_ascii_lowercase d)
  end.

Lemma normalize_pattern_render p :
  plain_domain (pattern_domain p) -> normalize_pattern (render_pattern p) = render_pattern (lower_pattern p).
Proof.
  intros Hd. unfold normalize_pattern.
  destruct p as [d|d|d]; cbn [pattern_domain render_pattern lower_pattern] in *.
  - rewrite trim_before_plain by (done || by repeat constructor). rewrite bool_decide_eq_false_2 by done.
    rewrite strip_prefix_app. by rewrite normalize_host_plain.
  - rewrite trim_before_plain by (done || by repeat constructor).
    rewrite bool_decide_eq_false_2 by done.
    assert (strip_prefix (lit "**.") (lit "*." ++ d) = None) as -> by reflexivity.
    rewrite strip_prefix_app. by rewrite normalize_host_plain.
  - rewrite plain_trim by done. rewrite bool_decide_eq_false_2.
    + rewrite !strip_prefix_star by done. by rewrite normalize_host_plain.
    + intros ->. by apply (plain_not_in _ 42 Hd eq_refl); left.
Qed.

Lemma Exists_iff_in {A} (P Q : A -> Prop) l : (forall x, x ∈ l -> P x <-> Q x) -> Exists P l <-> Exists Q l.
Proof. intros H. rewrite !Exists_exists. split; intros (x & Hx & Hp); exists x; (split; [done|]); by apply H. Qed.

(** ** Compiled sets *)

Section compiled.
Context `{Globs}.

Definition glob_means (candidate host : str) : Prop :=
  exists g, glob_new candidate = Ok g /\ glob_is_match g host = true.

(** The globs built so far are those of the candidates seen. *)
Definition built (seen : list str) (builder : list Glob) : Prop :=
  forall host, set_is_match builder host = true <-> exists c, c ∈ seen /\ glob_means c host.

Lemma built_nil : built [] [].
Proof. intros host. cbn. split; [done|]. intros (c & Hc & _). set_solver. Qed.

Lemma built_cons seen builder c g : glob_new c = Ok g -> built seen builder -> built (c :: seen) (builder ++ [g]).
Proof.
  intros Hg Hb host. unfold set_is_match. rewrite existsb_app, orb_true_iff. cbn [existsb]. rewrite orb_false_r.
  fold (set_is_match builder host). rewrite (Hb host). split.
  - intros [(x & Hx & Hm)|Hm]; [exists x; split; [by right|done]|exists c; split; [by left|by exists g]].
  - intros (x & [->|Hx]%elem_of_cons & Hm); [|left; eauto]. right. destruct Hm as (g' & Hg' & Hm). congruence.
Qed.

(** The hosts a written pattern stands for once it is compiled. *)
Definition pattern_means (pattern host : str) : Prop :=
  exists c, c ∈ expand_domain_pattern (normalize_pattern pattern) /\ glob_means c host.

Lemma compile_candidates_built candidates seen builder seen' builder' :
  compile_candidates candidates seen builder = Ok (seen', builder') -> built seen builder ->
  built seen' builder' /\ forall c, c ∈ seen' <-> c ∈ seen \/ c ∈ candidates.
Proof.
  intros Hc Hb. revert seen builder Hc Hb. induction candidates as [|c candidates IH]; intros seen builder; cbn [compile_candidates].
  { intros [= <- <-] Hb. split; [done|]. set_solver. }
  destruct (existsb (fun s => s == c) seen) eqn:E.
  - apply existsb_exists in E as (x & Hx%list_elem_of_In & ->%bool_decide_eq_true_1).
    intros Hc Hb. destruct (IH _ _ Hc Hb) as [Hb' Hs]. split; [done|]. set_solver.
  - destruct (glob_new c) as [g|] eqn:Hg; [|done]. intros Hc Hb.
    destruct (IH _ _ Hc (built_cons _ _ _ _ Hg Hb)) as [Hb' Hs]. split; [done|]. intros x. rewrite Hs. set_solver.
Qed.

Lemma compile_patterns_built gw patterns seen builder set host :
  compile_patterns gw patterns seen builder = Ok set -> built seen builder ->
  set_is_match set host = true
  <-> set_is_match builder host = true \/ Exists (fun p => pattern_means p host) patterns.
Proof.
  revert seen builder. induction patterns as [|p patterns IH]; intros seen builder; cbn [compile_patterns].
  { intros [= ->] Hb. rewrite Exists_nil. tauto. }
  destruct (match gw with WildcardReject => _ | _ => _ end); [done|].
  destruct (compile_candidates _ seen builder) as [[seen' builder']|] eqn:Hc; [|done]. intros Hs Hb.
  destruct (compile_candidates_built _ _ _ _ _ Hc Hb) as [Hb' Hin].
  rewrite (IH _ _ Hs Hb'), Exists_cons, (Hb' host), (Hb host). unfold pattern_means. setoid_rewrite Hin. naive_solver.
Qed.

(** A compiled set matches exactly the hosts its patterns stand for. *)
Lemma compiled_globset_spec patterns gw set host :
  compile_globset_with_policy patterns gw = Ok set ->
  set_is_match set host = true <-> Exists (fun p => pattern_means p host) patterns.
Proof.
  unfold compile_globset_with_policy. destruct (compile_patterns gw patterns [] []) as [b|] eqn:Hc; [|done].
  destruct (globset_compiles b); [|done]. intros [= ->].
  rewrite (compile_patterns_built _ _ _ _ _ host Hc built_nil). cbn. naive_solver.
Qed.

Lemma compile_candidates_total candidates seen builder :
  Forall (fun c => exists g, glob_new c = Ok g) candidates ->
  exists r, compile_candidates candidates seen builder = Ok r.
Proof.
  intros Hc. revert seen builder. induction Hc as [|c candidates [g Hg] _ IH]; intros seen builder; cbn [compile_candidates]; [eauto|].
  rewrite Hg. destruct (existsb _ seen); apply IH.
Qed.

Context `{!GlobLaws}.

Lemma expand_pattern_means p host :
  plain_domain (pattern_domain p) ->
  Forall (fun c => exists g, glob_new c = Ok g) (expand_domain_pattern (render_pattern p))
  /\ ((exists c, c ∈ expand_domain_pattern (render_pattern p) /\ glob_means c host) <-> pattern_matches p host).
Proof.
  intros Hd. unfold expand_domain_pattern. rewrite pattern_parse_render by done.
  destruct (glob_literal _ Hd) as (g1 & E1 & H1). destruct (glob_below _ Hd) as (g2 & E2 & H2).
  assert (forall g c, glob_new c = Ok g -> glob_means c host <-> glob_is_match g host = true) as Hm.
  { intros g c E. unfold glob_means. rewrite E. naive_solver. }
  destruct p as [d|d|d]; cbn [pattern_domain pattern_matches] in *; (split; [repeat constructor; eauto|]).
  - setoid_rewrite elem_of_cons. setoid_rewrite list_elem_of_singleton.
    rewrite <- (H1 host), <- (H2 host), <- (Hm _ _ E1), <- (Hm _ _ E2). naive_solver.
  - setoid_rewrite list_elem_of_singleton. rewrite <- (H2 host), <- (Hm _ _ E2). naive_solver.
  - setoid_rewrite list_elem_of_singleton. rewrite <- (H1 host), <- (Hm _ _ E1). naive_solver.
Qed.

Lemma lower_pattern_matches p host : pattern_matches (lower_pattern p) host <-> pattern_matches p host.
Proof. destruct p; cbn; by rewrite ?lower_idem. Qed.

Lemma lower_pattern_plain p : plain_domain (pattern_domain p) -> plain_domain (pattern_domain (lower_pattern p)).
Proof. destruct p; cbn; apply plain_lower. Qed.

Lemma plain_not_global p : plain_domain (pattern_domain p) -> is_global_wildcard_domain_pattern (render_pattern p) = false.
Proof.
  intros Hd. unfold is_global_wildcard_domain_pattern. rewrite normalize_pattern_render by done.
  pose proof (lower_pattern_plain p Hd) as Hl. unfold expand_domain_pattern. rewrite pattern_parse_render by done.
  assert (pattern_domain (lower_pattern p) <> lit "*") as Hne
    by (intros E; apply (plain_not_in _ 42 Hl eq_refl); rewrite E; by left).
  destruct (lower_pattern p); cbn [existsb pattern_domain] in *; rewrite ?(bool_decide_eq_false_2 (_ = lit "*")); try done.
Qed.

(** What a written pattern with a plain domain stands for. *)
Lemma pattern_means_plain p host :
  plain_domain (pattern_domain p) -> pattern_means (render_pattern p) host <-> pattern_matches p host.
Proof.
  intros Hp. unfold pattern_means. rewrite normalize_pattern_render by done.
  rewrite (proj2 (expand_pattern_means (lower_pattern p) host (lower_pattern_plain p Hp))). apply lower_pattern_matches.
Qed.

Lemma compiled_plain gw ps set host :
  compile_globset_with_policy (render_pattern <$> ps) gw = Ok set ->
  Forall (fun p => plain_domain (pattern_domain p)) ps ->
  set_is_match set host = true <-> Exists (fun p => pattern_matches p host) ps.
Proof.
  intros Hc Hps. rewrite (compiled_globset_spec _ _ _ host Hc), Exists_fmap. rewrite Forall_forall in Hps.
  apply Exists_iff_in. intros p Hp. by apply pattern_means_plain, Hps.
Qed.

Lemma compile_patterns_total gw ps seen builder :
  Forall (fun p => plain_domain (pattern_domain p)) ps ->
  exists set, compile_patterns gw (render_pattern <$> ps) seen builder = Ok set.
Proof.
  intros Hps. revert seen builder. induction Hps as [|p ps Hp _ IH]; intros seen builder; [by exists builder|].
  cbn [fmap list_fmap compile_patterns]. rewrite plain_not_global by done.
  replace (match gw with WildcardReject => false | WildcardAllow => false end) with false by (by destruct gw).
  rewrite normalize_pattern_render by done.
  destruct (compile_candidates_total (expand_domain_pattern (render_pattern (lower_pattern p))) seen builder) as ([s b] & ->);
    [by apply (expand_pattern_means _ []), lower_pattern_plain|]. apply IH.
Qed.

(** Compiling a list of written patterns gives a set that matches exactly the hosts
    the patterns stand for: [d] itself, the names below [d] for [*.d], and both for
    [**.d], without regard to case. *)
Theorem compiled_set_spec gw ps :
  Forall (fun p => plain_domain (pattern_domain p)) ps ->
  exists set, compile_globset_with_policy (render_pattern <$> ps) gw
       = (if globset_compiles set then Ok set else Err SetTooLarge)
    /\ forall host, set_is_match set host = true <-> Exists (fun p => pattern_matches p host) ps.
Proof.
  intros Hps. destruct (compile_patterns_total gw ps [] [] Hps) as (set & E). exists set.
  split; [unfold compile_globset_with_policy; by rewrite E|]. intros host.
  rewrite (compile_patterns_built _ _ _ _ _ host E built_nil), Exists_fmap. rewrite Forall_forall in Hps.
  rewrite (Exists_iff_in (fun p => pattern_means (render_pattern p) host) (fun p => pattern_matches p host)).
  - cbn. naive_solver.
  - intros p Hp. apply pattern_means_plain. by apply Hps.
Qed.
End compiled.

(** ** Constraints compare patterns by the hosts they stand for *)

(** [a] is a name below the domain [b]. *)
Definition below (a b : str) : Prop := exists pre, pre <> [] /\ a = pre ++ DOT :: b.

Lemma below_trans a b c : below a b -> below b c -> below a c.
Proof.
  intros (p & Hp & ->) (q & Hq & ->). exists (p ++ DOT :: q). split; [by destruct p|]. by rewrite <- app_assoc.
Qed.

Lemma below_strip x a b : DOT ∉ x -> head a <> Some DOT -> below (x ++ DOT :: a) b -> a = b \/ below a b.
Proof.
  intros Hx Ha (r & _ & E). revert r E. induction x as [|c x IH]; intros r E; cbn in E.
  - destruct r as [|d r]; simplify_eq/=; [by left|]. destruct r as [|d r]; simplify_eq/=. right. by exists (d :: r).
  - destruct r as [|d r]; simplify_eq/=; [set_solver|]. by apply (IH ltac:(set_solver) r).
Qed.

Lemma normalize_domain_plain d : plain_domain d -> normalize_domain d = to_ascii_lowercase d.
Proof. intros (_ & _ & _ & Hl). unfold normalize_domain. by rewrite trim_end_matches_id. Qed.

Lemma ends_with_below a b : head a <> Some DOT -> ends_with (DOT :: b) a = true <-> below a b.
Proof.
  intros Ha. rewrite ends_with_spec. split.
  - intros (r & ->). exists r. split; [|done]. by intros ->.
  - intros (r & _ & ->). by exists r.
Qed.

Lemma is_strict_subdomain_spec a b :
  plain_domain a -> plain_domain b -> is_strict_subdomain a b = true <-> below (to_ascii_lowercase a) (to_ascii_lowercase b).
Proof.
  intros Ha Hb. unfold is_strict_subdomain. rewrite !normalize_domain_plain by done.
  rewrite andb_true_iff, ends_with_below by apply (plain_lower a Ha). split; [tauto|]. intros Hl. split; [|done].
  apply negb_true_iff, bool_decide_eq_false_2. intros E. rewrite E in Hl. destruct Hl as (p & Hp & Hl).
  apply (f_equal length) in Hl. rewrite length_app in Hl. cbn in Hl. lia.
Qed.

Lemma is_subdomain_or_equal_spec a b :
  plain_domain a -> plain_domain b ->
  is_subdomain_or_equal a b = true
  <-> to_ascii_lowercase a = to_ascii_lowercase b \/ below (to_ascii_lowercase a) (to_ascii_lowercase b).
Proof.
  intros Ha Hb. unfold is_subdomain_or_equal. rewrite !normalize_domain_plain by done.
  by rewrite orb_true_iff, bool_decide_eq_true, ends_with_below by apply (plain_lower a Ha).
Qed.

(** A host below a domain, with a long first label. *)
Definition sample_host (n : nat) (d : str) : str := replicate (S n) 120%N ++ DOT :: to_ascii_lowercase d.

Lemma sample_host_lower n d : to_ascii_lowercase (sample_host n d) = sample_host n d.
Proof.
  unfold sample_host, to_ascii_lowercase at 1. rewrite fmap_app, fmap_replicate. cbn [fmap list_fmap].
  change (ascii_lower <$> to_ascii_lowercase d) with (to_ascii_lowercase (to_ascii_lowercase d)). by rewrite lower_idem.
Qed.

Lemma sample_host_below n d : below (sample_host n d) (to_ascii_lowercase d).
Proof. by exists (replicate (S n) 120%N). Qed.

Lemma sample_host_strip n a b :
  plain_domain a -> below (sample_host n a) (to_ascii_lowercase b) ->
  to_ascii_lowercase a = to_ascii_lowercase b \/ below (to_ascii_lowercase a) (to_ascii_lowercase b).
Proof.
  intros Ha. apply below_strip; [|apply (plain_lower a Ha)].
  intros H. apply elem_of_replicate in H as [H _]. done.
Qed.

Lemma sample_host_length n d : length (sample_host n d) = S (S n) + length d.
Proof. unfold sample_host. rewrite length_app, length_replicate. cbn. unfold to_ascii_lowercase. rewrite length_fmap. lia. Qed.

(** The hosts below a domain are not one host, and not bounded in length. *)
Lemma sample_hosts_not_one a host :
  ~ (forall n, to_ascii_lowercase (sample_host n a) = host).
Proof.
  intros H. pose proof (H 0) as H0. rewrite <- (H 1), !sample_host_lower in H0.
  apply (f_equal length) in H0. rewrite !sample_host_length in H0. lia.
Qed.

(** If the names below [a] are all [b] or below [b], so is [a]. *)
Lemma sample_hosts_within a b :
  plain_domain a ->
  (forall n, to_ascii_lowercase (sample_host n a) = to_ascii_lowercase b
             \/ below (to_ascii_lowercase (sample_host n a)) (to_ascii_lowercase b)) ->
  to_ascii_lowercase a = to_ascii_lowercase b \/ below (to_ascii_lowercase a) (to_ascii_lowercase b).
Proof.
  intros Ha H. destruct (H (length b)) as [E|Hb].
  - exfalso. rewrite sample_host_lower in E. apply (f_equal length) in E.
    unfold to_ascii_lowercase in E. rewrite sample_host_length, length_fmap in E. lia.
  - rewrite sample_host_lower in Hb. by apply (sample_host_strip (length b)).
Qed.

Lemma sample_host_under n d : below (to_ascii_lowercase (sample_host n d)) (to_ascii_lowercase d).
Proof. rewrite sample_host_lower. apply sample_host_below. Qed.

Lemma pattern_allows_iff managed candidate :
  plain_domain (pattern_domain managed) -> plain_domain (pattern_domain candidate) ->
  pattern_allows managed candidate = true
  <-> forall host, pattern_matches candidate host -> pattern_matches managed host.
Proof.
  intros Hm Hc. pose proof below_trans as Ht. pose proof sample_host_under as Hs.
  destruct managed as [b|b|b], candidate as [a|a|a]; cbn [pattern_domain pattern_allows pattern_matches] in *.
  - rewrite is_subdomain_or_equal_spec by done. split; [intros Hb host [->|Hh]; [exact Hb|]|intros H; apply H; by left].
    right. destruct Hb as [<-|Hb]; [done|by eapply Ht].
  - rewrite is_subdomain_or_equal_spec by done. split; [intros [<-|Hb] host Hh; right; [done|by eapply Ht]|]. intros H.
    apply sample_hosts_within; [done|]. intros n. apply H, Hs.
  - rewrite is_subdomain_or_equal_spec by done. split; [intros Hb host ->; exact Hb | intros H; by apply H].
  - rewrite is_strict_subdomain_spec by done. split; [intros Hb host [->|Hh]; [exact Hb|by eapply Ht]|].
    intros H. apply H. by left.
  - rewrite is_subdomain_or_equal_spec by done. split; [intros [<-|Hb] host Hh; [done|by eapply Ht]|]. intros H.
    apply sample_hosts_within; [done|]. intros n. right. apply H, Hs.
  - rewrite is_strict_subdomain_spec by done. split; [intros Hb host ->; exact Hb | intros H; by apply H].
  - split; [done|]. intros H. destruct (sample_hosts_not_one a (to_ascii_lowercase b)). intros n. apply H. right. apply Hs.
  - split; [done|]. intros H. destruct (sample_hosts_not_one a (to_ascii_lowercase b)). intros n. apply H, Hs.
  - unfold domain_eq. rewrite !normalize_domain_plain, bool_decide_eq_true by done.
    split; [by intros -> | intros H; by apply H].
Qed.

(** A managed pattern allows a candidate exactly when every host the candidate stands
    for is one the managed pattern stands for, where both are plain domain names,
    [*.name] or [**.name]; for other candidates see [constraint_escape]. *)
Theorem pattern_allows_exact managed candidate :
  plain_domain (pattern_domain managed) -> plain_domain (pattern_domain candidate) ->
  pattern_allows managed candidate = true
  <-> forall host, pattern_matches candidate host -> pattern_matches managed host.
Proof. intros Hm Hc. by apply pattern_allows_iff. Qed.

(** ** The addresses that are not public *)

(** Blocks of IPv4 addresses, as first address and number of addresses. *)
Definition non_public_blocks : list (N * N) :=
  [ (octets_to_u32 0 0 0 0, 2 ^ 24);
    (octets_to_u32 10 0 0 0, 2 ^ 24);
    (octets_to_u32 100 64 0 0, 2 ^ 22);
    (octets_to_u32 127 0 0 0, 2 ^ 24);
    (octets_to_u32 169 254 0 0, 2 ^ 16);
    (octets_to_u32 172 16 0 0, 2 ^ 20);
    (octets_to_u32 192 0 0 0, 2 ^ 8);
    (octets_to_u32 192 0 2 0, 2 ^ 8);
    (octets_to_u32 192 168 0 0, 2 ^ 16);
    (octets_to_u32 198 18 0 0, 2 ^ 17);
    (octets_to_u32 198 51 100 0, 2 ^ 8);
    (octets_to_u32 203 0 113 0, 2 ^ 8);
    (octets_to_u32 224 0 0 0, 2 ^ 29) ]%N.

Definition in_block (ip : N) (block : N * N) : Prop := (block.1 <= ip < block.1 + block.2)%N.

Lemma land_prefix ip k :
  (ip < 2 ^ 32)%N -> (k <= 32)%N -> N.land ip (N.land (N.shiftl U32_MAX k) U32_MAX) = N.shiftl (N.shiftr ip k) k.
Proof.
  intros Hip Hk. apply N.bits_inj. intros i. rewrite !N.land_spec.
  replace U32_MAX with (N.ones 32) by reflexivity.
  destruct (N.lt_ge_cases i k) as [Hi|Hi].
  - rewrite !N.shiftl_spec_low by done. by rewrite andb_false_r.
  - rewrite !N.shiftl_spec_high' by done. rewrite N.shiftr_spec', N.sub_add by done.
    destruct (N.lt_ge_cases i 32) as [H32|H32].
    + rewrite !N.ones_spec_low by lia. by rewrite andb_true_r.
    + replace (N.testbit ip i) with false; [done|]. symmetry.
      destruct (N.eq_0_gt_0_cases ip) as [->|Hpos]; [apply N.bits_0|].
      apply N.bits_above_log2. apply N.log2_lt_pow2 in Hip; lia.
Qed.

Lemma ipv4_in_cidr_spec ip base prefix :
  (ip < 2 ^ 32)%N -> (base < 2 ^ 32)%N -> (0 < prefix <= 32)%N ->
  ipv4_in_cidr ip base prefix = true <-> (ip / 2 ^ (32 - prefix) = base / 2 ^ (32 - prefix))%N.
Proof.
  intros Hip Hb Hp. unfold ipv4_in_cidr. replace (prefix =? 0)%N with false by (symmetry; apply N.eqb_neq; lia).
  rewrite !land_prefix by (done || lia). rewrite N.eqb_eq, !N.shiftl_mul_pow2, !N.shiftr_div_pow2.
  split; [|by intros ->]. apply N.mul_cancel_r, N.pow_nonzero. done.
Qed.

Lemma div_eq_block (ip d q : N) : (d <> 0)%N -> (ip / d = q)%N <-> in_block ip (q * d, d)%N.
Proof.
  intros Hd. unfold in_block. cbn [fst snd]. pose proof (N.div_mod' ip d) as E. pose proof (N.mod_lt ip d Hd) as Hm. split.
  - intros Hq. rewrite Hq in E. clear Hq. rewrite N.mul_comm in E. generalize dependent (ip mod d)%N. lia.
  - intros [H1 H2]. symmetry. apply (N.div_unique _ _ _ (ip - q * d)%N); lia.
Qed.

(** An IPv4 address is refused as non-public exactly when it lies in one of the
    blocks of [non_public_blocks]. *)
Theorem is_non_public_ipv4_blocks ip :
  (ip < 2 ^ 32)%N -> is_non_public_ipv4 ip = true <-> Exists (in_block ip) non_public_blocks.
Proof.
  intros Hip. unfold is_non_public_ipv4, ipv4_is_loopback, ipv4_is_private, ipv4_is_link_local, ipv4_is_unspecified,
    ipv4_is_multicast, ipv4_is_broadcast, non_public_blocks.
  rewrite !orb_true_iff, !ipv4_in_cidr_spec by (assumption || lia || reflexivity).
  rewrite !andb_true_iff, !N.eqb_eq, !N.leb_le, !Exists_cons, Exists_nil, !div_eq_block by done.
  pose proof (N.div_mod' ip (2 ^ 24)) as E. pose proof (N.mod_lt ip (2 ^ 24) ltac:(done)) as Hm.
  unfold in_block; cbn [fst snd]. unfold octets_to_u32.
  set (q := (ip / 2 ^ 24)%N) in *. set (r := (ip mod 2 ^ 24)%N) in *. clearbody q r.
  repeat match goal with |- context [(2 ^ ?n)%N] => let v := eval vm_compute in (2 ^ n)%N in change (2 ^ n)%N with v end.
  repeat match goal with H : context [(2 ^ ?n)%N] |- _ => let v := eval vm_compute in (2 ^ n)%N in change (2 ^ n)%N with v in H end.
  repeat match goal with |- context [(?a / ?b)%N] => let v := eval vm_compute in (a / b)%N in change (a / b)%N with v end.
  split; lia.
Qed.

(** ** Patterns read for constraints *)

Lemma render_lower p : to_ascii_lowercase (render_pattern p) = render_pattern (lower_pattern p).
Proof. by destruct p. Qed.

Section constraint_patterns.
Context (url_host_parse : str -> option str).

(** The URL parser keeps the domain, in lower case. *)
Definition url_keeps (d : str) : Prop := plain_domain d /\ url_host_parse d = Some (to_ascii_lowercase d).

Lemma parse_domain_for_constraints_plain d :
  url_keeps d -> parse_domain_for_constraints url_host_parse d = to_ascii_lowercase d.
Proof.
  intros [Hd Hu]. unfold parse_domain_for_constraints. rewrite plain_trim by done.
  rewrite trim_end_matches_id by apply Hd. rewrite bool_decide_eq_false_2 by apply Hd.
  assert (starts_with (lit "[") d = false) as ->.
  { apply not_true_iff_false. intros (r & E)%starts_with_spec. apply (plain_not_in _ 91 Hd eq_refl). rewrite E. set_solver. }
  cbn [andb]. rewrite !(proj2 (contains_char_false _ d)) by (by apply plain_not_in). by rewrite Hu.
Qed.

Lemma parse_for_constraints_render p :
  url_keeps (pattern_domain p) -> parse_for_constraints url_host_parse (render_pattern p) = lower_pattern p.
Proof.
  intros Hu. pose proof Hu as [Hd _]. unfold parse_for_constraints.
  destruct p as [d|d|d]; cbn [pattern_domain render_pattern lower_pattern] in *.
  - rewrite trim_before_plain by (done || by repeat constructor). rewrite bool_decide_eq_false_2 by done.
    rewrite strip_prefix_app. by rewrite parse_domain_for_constraints_plain.
  - rewrite trim_before_plain by (done || by repeat constructor). rewrite bool_decide_eq_false_2 by done.
    assert (strip_prefix (lit "**.") (lit "*." ++ d) = None) as -> by reflexivity.
    rewrite strip_prefix_app. by rewrite parse_domain_for_constraints_plain.
  - rewrite plain_trim by done. rewrite bool_decide_eq_false_2 by apply Hd.
    rewrite !strip_prefix_star by done. by rewrite parse_domain_for_constraints_plain.
Qed.

(** Two written patterns that are equal up to case stand for the same hosts. *)
Lemma same_lower_matches p q host :
  plain_domain (pattern_domain p) -> plain_domain (pattern_domain q) ->
  to_ascii_lowercase (render_pattern p) = to_ascii_lowercase (render_pattern q) ->
  pattern_matches p host <-> pattern_matches q host.
Proof.
  intros Hp Hq. rewrite !render_lower. intros E.
  apply (f_equal pattern_parse) in E. rewrite !pattern_parse_render in E by (by apply lower_pattern_plain).
  by rewrite <- (lower_pattern_matches p), E, lower_pattern_matches.
Qed.
End constraint_patterns.

(** ** A matcher that has the laws *)

(** [?] and [*] only; the hosts the laws speak of need no more. *)
Fixpoint wild_match (p s : str) : bool :=
  match p with
  | [] => s == []
  | c :: p' =>
      if (c =? 42)%N
      then (fix any (s : str) : bool := wild_match p' s || match s with [] => false | _ :: s' => any s' end) s
      else match s with
           | [] => false
           | d :: s' => ((c =? 63)%N || (c =? d)%N) && wild_match p' s'
           end
  end.

Definition wild_globs : Globs := {|
  Glob := str;
  glob_new p := Ok (to_ascii_lowercase p);
  glob_is_match g h := wild_match g (to_ascii_lowercase h);
  globset_compiles _ := true;
|}.

Lemma wild_match_literal p s : 42%N ∉ p -> 63%N ∉ p -> wild_match p s = true <-> s = p.
Proof.
  revert s. induction p as [|c p IH]; intros s H1 H2; cbn [wild_match]; [by rewrite bool_decide_eq_true|].
  replace (c =? 42)%N with false by (symmetry; apply N.eqb_neq; set_solver).
  replace (c =? 63)%N with false by (symmetry; apply N.eqb_neq; set_solver).
  destruct s as [|d s]; [done|]. cbn [orb]. rewrite andb_true_iff, N.eqb_eq, IH by set_solver. naive_solver.
Qed.

Lemma wild_match_star p s : wild_match (42%N :: p) s = true <-> exists pre r, s = pre ++ r /\ wild_match p r = true.
Proof.
  induction s as [|d s IH].
  - change (wild_match (42%N :: p) []) with (wild_match p [] || false). rewrite orb_false_r. split.
    + intros Hp. by exists [], [].
    + intros (pre & r & E & Hr). destruct pre, r; done.
  - change (wild_match (42%N :: p) (d :: s)) with (wild_match p (d :: s) || wild_match (42%N :: p) s).
    rewrite orb_true_iff, IH. split.
    + intros [Hp|(pre & r & -> & Hr)]; [by exists [], (d :: s)|by exists (d :: pre), r].
    + intros (pre & r & E & Hr). destruct pre as [|x pre]; simplify_eq/=; [by left|right; eauto].
Qed.

Lemma wild_globs_laws : @GlobLaws wild_globs.
Proof.
  split; intros d Hd; pose proof (plain_lower d Hd) as Hl.
  - eexists. split; [done|]. intros h. apply wild_match_literal; by apply (plain_not_in _ _ Hl).
  - eexists. split; [done|]. intros h. cbn [glob_is_match wild_globs].
    change (to_ascii_lowercase (lit "?*." ++ d)) with (63%N :: 42%N :: DOT :: to_ascii_lowercase d).
    destruct (to_ascii_lowercase h) as [|x s].
    { split; [done|]. intros (pre & _ & E). by destruct pre. }
    change (wild_match (63%N :: 42%N :: DOT :: to_ascii_lowercase d) (x :: s))
      with (wild_match (42%N :: DOT :: to_ascii_lowercase d) s).
    assert (forall r, wild_match (DOT :: to_ascii_lowercase d) r = true <-> r = DOT :: to_ascii_lowercase d) as Hlit
      by (intros r; apply wild_match_literal; rewrite not_elem_of_cons; (split; [done|]); by apply (plain_not_in _ _ Hl)).
    rewrite wild_match_star. setoid_rewrite Hlit. split.
    + intros (pre & r & -> & ->). by exists (x :: pre).
    + intros (pre & Hp & E). destruct pre as [|y pre]; [done|]. simplify_eq/=. eauto.
Qed.

(** [**.example.com] allows [*.api.example.com] but not [*.com]. *)
Lemma pattern_allows_exact_witness :
  pattern_allows (ApexAndSubdomains (lit "example.com")) (SubdomainsOnly (lit "API.example.com")) = true
  /\ (forall host, pattern_matches (SubdomainsOnly (lit "API.example.com")) host ->
                   pattern_matches (ApexAndSubdomains (lit "example.com")) host)
  /\ pattern_allows (ApexAndSubdomains (lit "example.com")) (SubdomainsOnly (lit "com")) = false.
Proof.
  split; [vm_compute; reflexivity|]. split; [|vm_compute; reflexivity].
  apply (pattern_allows_exact (ApexAndSubdomains (lit "example.com")) (SubdomainsOnly (lit "API.example.com")));
    [| |vm_compute; reflexivity]; (split; [done|]); (split; [repeat constructor|]); split; discriminate.
Defined.

(** [10.1.2.3] is private, [11.0.0.0] is not. *)
Lemma is_non_public_ipv4_blocks_witness :
  Exists (in_block (octets_to_u32 10 1 2 3)) non_public_blocks /\ is_non_public_ipv4 (octets_to_u32 11 0 0 0) = false.
Proof.
  split; [|vm_compute; reflexivity]. apply (is_non_public_ipv4_blocks (octets_to_u32 10 1 2 3)); vm_compute; reflexivity.
Defined.
