(* ===== verification/NetworkConfig.v ===== *)
(** [network-proxy/src/config.rs]: the settings of the network proxy.

    A [BTreeMap] is the list of its bindings in key order ([btree_*]).
    [Url::parse] of the [url] crate is a parameter; a [serde_json::Value] is
    represented by its text. *)

From stdpp Require Import base list option numbers strings sets.
From Stdlib Require Import NArith Lia.
From S2P Require Import Prelude RustStr AbsolutePath NetworkHost.
Local Open Scope rust_scope.

(** * [BTreeMap<String, V>] *)

Section btree.
Context {V : Type}.

Fixpoint btree_get (m : list (str * V)) (k : str) : option V :=
  match m with
  | [] => None
  | (k', v) :: m => if k == k' then Some v else btree_get m k
  end.

Fixpoint btree_insert (k : str) (v : V) (m : list (str * V)) : list (str * V) :=
  match m with
  | [] => [(k, v)]
  | (k', v') :: m' =>
      if k == k' then (k, v) :: m'
      else if str_leb k k' then (k, v) :: m
      else (k', v') :: btree_insert k v m'
  end.

Definition btree_remove (k : str) (m : list (str * V)) : list (str * V) := retain (fun kv => kv.1 != k) m.
Definition btree_contains_key (m : list (str * V)) (k : str) : bool := is_some (btree_get m k).
(** [entry(k).or_insert(v)], then the value updated by [f]. *)
Definition btree_upsert (k : str) (v : V) (f : V -> V) (m : list (str * V)) : list (str * V) :=
  btree_insert k (f (default v (btree_get m k))) m.

Lemma btree_get_insert_eq k v m : btree_get (btree_insert k v m) k = Some v.
Proof.
  induction m as [|[k' v'] m IH]; cbn [btree_insert btree_get]; [by rewrite bool_decide_eq_true_2|].
  case_bool_decide; [|destruct (str_leb k k')]; cbn [btree_get]; try by rewrite bool_decide_eq_true_2.
  by rewrite bool_decide_eq_false_2.
Qed.

Lemma btree_get_insert_ne k k' v m : k' <> k -> btree_get (btree_insert k v m) k' = btree_get m k'.
Proof.
  intros Hne. induction m as [|[j w] m IH]; cbn [btree_insert btree_get]; [by rewrite bool_decide_eq_false_2|].
  destruct (decide (k = j)) as [->|Hj].
  - rewrite bool_decide_eq_true_2 by done. cbn [btree_get]. by rewrite !(bool_decide_eq_false_2 (k' = j)).
  - rewrite (bool_decide_eq_false_2 (k = j)) by done. destruct (str_leb k j); cbn [btree_get];
      [by rewrite (bool_decide_eq_false_2 (k' = k))|by rewrite IH].
Qed.

Lemma btree_get_remove_ne k k' m : k' <> k -> btree_get (btree_remove k m) k' = btree_get m k'.
Proof.
  intros Hne. unfold btree_remove. induction m as [|[j w] m IH]; cbn [retain btree_get fst]; [done|].
  destruct (decide (j = k)) as [->|Hj].
  - rewrite (bool_decide_eq_true_2 (k = k)), (bool_decide_eq_false_2 (k' = k)) by done. exact IH.
  - rewrite (bool_decide_eq_false_2 (j = k)) by done. cbn [negb btree_get]. by rewrite IH.
Qed.
End btree.

(** * Data *)

(** The hooks of [mitm_hook.rs], as they are configured. *)
Record InjectedHeaderConfig := {
  ih_name : str;
  secret_env_var : option str;
  secret_file : option str;
  prefix : option str;
}.
Record MitmHookActionsConfig := {
  strip_request_headers : list str;
  inject_request_headers : list InjectedHeaderConfig;
}.
Record MitmHookMatchConfig := {
  methods : list str;
  path_prefixes : list str;
  query : list (str * list str);
  headers : list (str * list str);
  body : option str;
}.
Record MitmHookConfig := {
  hook_host : str;
  matcher : MitmHookMatchConfig;
  actions : MitmHookActionsConfig;
}.

(** Declared in the order of precedence. *)
Inductive NetworkDomainPermission : Set := PermNone | PermAllow | PermDeny.

#[global] Instance NetworkDomainPermission_eq_dec : EqDecision NetworkDomainPermission.
Proof. solve_decision. Defined.

Definition permission_rank (p : NetworkDomainPermission) : nat :=
  match p with PermNone => 0 | PermAllow => 1 | PermDeny => 2 end.

Record NetworkDomainPermissionEntry := {
  pattern : str;
  permission : NetworkDomainPermission;
}.
Record NetworkDomainPermissions := { entries : list NetworkDomainPermissionEntry }.

Inductive NetworkUnixSocketPermission : Set := SocketAllow | SocketDeny.

#[global] Instance NetworkUnixSocketPermission_eq_dec : EqDecision NetworkUnixSocketPermission.
Proof. solve_decision. Defined.

Record NetworkUnixSocketPermissions := { socket_entries : list (str * NetworkUnixSocketPermission) }.

Inductive NetworkMode : Set := Limited | Full.

#[global] Instance NetworkMode_eq_dec : EqDecision NetworkMode.
Proof. solve_decision. Defined.

Record NetworkProxySettings := {
  enabled : bool;
  proxy_url : str;
  enable_socks5 : bool;
  socks_url : str;
  enable_socks5_udp : bool;
  allow_upstream_proxy : bool;
  dangerously_allow_non_loopback_proxy : bool;
  dangerously_allow_all_unix_sockets : bool;
  mode : NetworkMode;
  domains : option NetworkDomainPermissions;
  unix_sockets : option NetworkUnixSocketPermissions;
  allow_local_binding : bool;
  mitm : bool;
  credential_broker : bool;
  dangerously_allow_plaintext_credential_injection : bool;
  mitm_hooks : list MitmHookConfig;
}.
Record NetworkProxyConfig := { network : NetworkProxySettings }.

#[global] Instance InjectedHeaderConfig_eq_dec : EqDecision InjectedHeaderConfig.
Proof. solve_decision. Defined.
#[global] Instance MitmHookActionsConfig_eq_dec : EqDecision MitmHookActionsConfig.
Proof. solve_decision. Defined.
#[global] Instance MitmHookMatchConfig_eq_dec : EqDecision MitmHookMatchConfig.
Proof. solve_decision. Defined.
#[global] Instance MitmHookConfig_eq_dec : EqDecision MitmHookConfig.
Proof. solve_decision. Defined.
#[global] Instance NetworkDomainPermissionEntry_eq_dec : EqDecision NetworkDomainPermissionEntry.
Proof. solve_decision. Defined.
#[global] Instance NetworkDomainPermissions_eq_dec : EqDecision NetworkDomainPermissions.
Proof. solve_decision. Defined.
#[global] Instance NetworkUnixSocketPermissions_eq_dec : EqDecision NetworkUnixSocketPermissions.
Proof. solve_decision. Defined.
#[global] Instance NetworkProxySettings_eq_dec : EqDecision NetworkProxySettings.
Proof. solve_decision. Defined.
#[global] Instance NetworkProxyConfig_eq_dec : EqDecision NetworkProxyConfig.
Proof. solve_decision. Defined.

Definition default_proxy_url : str := lit "http://127.0.0.1:3128".
Definition default_socks_url : str := lit "http://127.0.0.1:8081".

Definition default_settings : NetworkProxySettings := {|
  enabled := false;
  proxy_url := default_proxy_url;
  enable_socks5 := true;
  socks_url := default_socks_url;
  enable_socks5_udp := true;
  allow_upstream_proxy := true;
  dangerously_allow_non_loopback_proxy := false;
  dangerously_allow_all_unix_sockets := false;
  mode := Full;
  domains := None;
  unix_sockets := None;
  allow_local_binding := false;
  mitm := false;
  credential_broker := false;
  dangerously_allow_plaintext_credential_injection := false;
  mitm_hooks := [];
|}.

(** * Field updates *)

Definition with_mode (m : NetworkMode) (s : NetworkProxySettings) : NetworkProxySettings :=
  {| enabled := s.(enabled); proxy_url := s.(proxy_url); enable_socks5 := s.(enable_socks5); socks_url := s.(socks_url);
     enable_socks5_udp := s.(enable_socks5_udp); allow_upstream_proxy := s.(allow_upstream_proxy);
     dangerously_allow_non_loopback_proxy := s.(dangerously_allow_non_loopback_proxy);
     dangerously_allow_all_unix_sockets := s.(dangerously_allow_all_unix_sockets); mode := m; domains := s.(domains);
     unix_sockets := s.(unix_sockets); allow_local_binding := s.(allow_local_binding); mitm := s.(mitm);
     credential_broker := s.(credential_broker);
     dangerously_allow_plaintext_credential_injection := s.(dangerously_allow_plaintext_credential_injection);
     mitm_hooks := s.(mitm_hooks) |}.

Definition with_domains (d : option NetworkDomainPermissions) (s : NetworkProxySettings) : NetworkProxySettings :=
  {| enabled := s.(enabled); proxy_url := s.(proxy_url); enable_socks5 := s.(enable_socks5); socks_url := s.(socks_url);
     enable_socks5_udp := s.(enable_socks5_udp); allow_upstream_proxy := s.(allow_upstream_proxy);
     dangerously_allow_non_loopback_proxy := s.(dangerously_allow_non_loopback_proxy);
     dangerously_allow_all_unix_sockets := s.(dangerously_allow_all_unix_sockets); mode := s.(mode); domains := d;
     unix_sockets := s.(unix_sockets); allow_local_binding := s.(allow_local_binding); mitm := s.(mitm);
     credential_broker := s.(credential_broker);
     dangerously_allow_plaintext_credential_injection := s.(dangerously_allow_plaintext_credential_injection);
     mitm_hooks := s.(mitm_hooks) |}.

Definition with_unix_sockets (u : option NetworkUnixSocketPermissions) (s : NetworkProxySettings) : NetworkProxySettings :=
  {| enabled := s.(enabled); proxy_url := s.(proxy_url); enable_socks5 := s.(enable_socks5); socks_url := s.(socks_url);
     enable_socks5_udp := s.(enable_socks5_udp); allow_upstream_proxy := s.(allow_upstream_proxy);
     dangerously_allow_non_loopback_proxy := s.(dangerously_allow_non_loopback_proxy);
     dangerously_allow_all_unix_sockets := s.(dangerously_allow_all_unix_sockets); mode := s.(mode); domains := s.(domains);
     unix_sockets := u; allow_local_binding := s.(allow_local_binding); mitm := s.(mitm);
     credential_broker := s.(credential_broker);
     dangerously_allow_plaintext_credential_injection := s.(dangerously_allow_plaintext_credential_injection);
     mitm_hooks := s.(mitm_hooks) |}.

Definition with_broker (broker mitm : bool) (s : NetworkProxySettings) : NetworkProxySettings :=
  {| enabled := s.(enabled); proxy_url := s.(proxy_url); enable_socks5 := s.(enable_socks5); socks_url := s.(socks_url);
     enable_socks5_udp := s.(enable_socks5_udp); allow_upstream_proxy := s.(allow_upstream_proxy);
     dangerously_allow_non_loopback_proxy := s.(dangerously_allow_non_loopback_proxy);
     dangerously_allow_all_unix_sockets := s.(dangerously_allow_all_unix_sockets); mode := s.(mode); domains := s.(domains);
     unix_sockets := s.(unix_sockets); allow_local_binding := s.(allow_local_binding); mitm := mitm;
     credential_broker := broker;
     dangerously_allow_plaintext_credential_injection := s.(dangerously_allow_plaintext_credential_injection);
     mitm_hooks := s.(mitm_hooks) |}.

Definition set_credential_broker_enabled (c : NetworkProxyConfig) (enabled : bool) : NetworkProxyConfig :=
  {| network := with_broker enabled (c.(network).(mitm) || enabled) c.(network) |}.

(** * Domain permissions *)

Definition raise_permission (new current : NetworkDomainPermission) : NetworkDomainPermission :=
  if permission_rank current <? permission_rank new then new else current.

Definition effective_step (acc : list str * list (str * NetworkDomainPermission)) (entry : NetworkDomainPermissionEntry) :
    list str * list (str * NetworkDomainPermission) :=
  let '(order, effective) := acc in
  let order := if btree_contains_key effective entry.(pattern) then order else order ++ [entry.(pattern)] in
  (order, btree_upsert entry.(pattern) entry.(permission) (raise_permission entry.(permission)) effective).

Fixpoint take_in_order (order : list str) (effective : list (str * NetworkDomainPermission)) :
    list NetworkDomainPermissionEntry :=
  match order with
  | [] => []
  | p :: order =>
      match btree_get effective p with
      | Some perm => {| pattern := p; permission := perm |} :: take_in_order order (btree_remove p effective)
      | None => take_in_order order effective
      end
  end.

Definition effective_entries (self : NetworkDomainPermissions) : list NetworkDomainPermissionEntry :=
  let '(order, effective) := foldl effective_step ([], []) self.(entries) in take_in_order order effective.

Definition domain_entries (self : NetworkProxySettings) (perm : NetworkDomainPermission) : option (list str) :=
  match self.(domains) with
  | Some domains =>
      match pattern <$> retain (fun entry => entry.(permission) == perm) (effective_entries domains) with
      | [] => None
      | patterns => Some patterns
      end
  | None => None
  end.

Definition allowed_domains (self : NetworkProxySettings) : option (list str) := domain_entries self PermAllow.
Definition denied_domains (self : NetworkProxySettings) : option (list str) := domain_entries self PermDeny.

Definition nonempty_domains (l : list NetworkDomainPermissionEntry) : option NetworkDomainPermissions :=
  match l with [] => None | _ => Some {| entries := l |} end.

Definition domains_or_default (self : NetworkProxySettings) : list NetworkDomainPermissionEntry :=
  match self.(domains) with Some d => d.(entries) | None => [] end.

Definition upsert_domain_permission (self : NetworkProxySettings) (host : str) (perm : NetworkDomainPermission)
    (normalize : str -> str) : NetworkProxySettings :=
  let kept := retain (fun entry => normalize entry.(pattern) != normalize host) (domains_or_default self) in
  with_domains (nonempty_domains (kept ++ [{| pattern := host; permission := perm |}])) self.

Definition push_domain_entry (perm : NetworkDomainPermission) (l : list NetworkDomainPermissionEntry) (entry : str) :
    list NetworkDomainPermissionEntry :=
  if existsb (fun existing => (existing.(pattern) == entry) && (existing.(permission) == perm)) l then l
  else l ++ [{| pattern := entry; permission := perm |}].

Definition set_domain_entries (self : NetworkProxySettings) (new_entries : list str) (perm : NetworkDomainPermission) :
    NetworkProxySettings :=
  let kept := retain (fun entry => entry.(permission) != perm) (domains_or_default self) in
  with_domains (nonempty_domains (foldl (push_domain_entry perm) kept new_entries)) self.

Definition set_allowed_domains (self : NetworkProxySettings) (l : list str) := set_domain_entries self l PermAllow.
Definition set_denied_domains (self : NetworkProxySettings) (l : list str) := set_domain_entries self l PermDeny.

(** * Unix sockets *)

Definition allow_unix_sockets (self : NetworkProxySettings) : list str :=
  match self.(unix_sockets) with
  | Some u => fst <$> retain (fun kv => kv.2 == SocketAllow) u.(socket_entries)
  | None => []
  end.

Definition set_unix_socket_entries (self : NetworkProxySettings) (new_entries : list str)
    (perm : NetworkUnixSocketPermission) : NetworkProxySettings :=
  let current := match self.(unix_sockets) with Some u => u.(socket_entries) | None => [] end in
  let kept := retain (fun kv => kv.2 != perm) current in
  let m := foldl (fun m entry => btree_insert entry perm m) kept new_entries in
  with_unix_sockets (match m with [] => None | _ => Some {| socket_entries := m |} end) self.

Definition set_allow_unix_sockets (self : NetworkProxySettings) (l : list str) := set_unix_socket_entries self l SocketAllow.

Inductive ValidatedUnixSocketPath : Type :=
| NativePath (path : AbsolutePathBuf)
| UnixStyleAbsolute (path : str).

Inductive NetworkConfigError : Set :=
| NormalizeFailed (socket_path : str)
| ExpectedAbsolutePath (socket_path : str)
| InvalidAllowUnixSocket (index : nat)
| MissingHost (input : str)
| InvalidProxyUrl (url : str)
| InvalidSocksUrl (url : str).

Section paths.
Context (env : Env).

Definition unix_socket_path_parse (socket_path : str) : result ValidatedUnixSocketPath NetworkConfigError :=
  if is_absolute (components socket_path) then
    match from_absolute_path env socket_path with
    | Some path => Ok (NativePath path)
    | None => Err (NormalizeFailed socket_path)
    end
  else if starts_with (lit "/") socket_path then Ok (UnixStyleAbsolute socket_path)
  else Err (ExpectedAbsolutePath socket_path).

Fixpoint validate_socket_paths (index : nat) (paths : list str) : result unit NetworkConfigError :=
  match paths with
  | [] => Ok tt
  | socket_path :: paths =>
      match unix_socket_path_parse socket_path with
      | Ok _ => validate_socket_paths (S index) paths
      | Err _ => Err (InvalidAllowUnixSocket index)
      end
  end.

Definition validate_unix_socket_allowlist_paths (cfg : NetworkProxyConfig) : result unit NetworkConfigError :=
  validate_socket_paths 0 (allow_unix_sockets cfg.(network)).
End paths.

(** * Modes *)

Definition allows_method (self : NetworkMode) (method : str) : bool :=
  match self with
  | Full => true
  | Limited => (method == lit "GET") || (method == lit "HEAD") || (method == lit "OPTIONS")
  end.

(** * Listening addresses *)

Record SocketAddr := { addr_ip : IpAddr; addr_port : N }.

Definition LOCALHOST : IpAddr := V4 (octets_to_u32 127 0 0 1).

Definition clamp_non_loopback (addr : SocketAddr) (allow_non_loopback : bool) : SocketAddr :=
  if ip_is_loopback addr.(addr_ip) then addr
  else if allow_non_loopback then addr
  else {| addr_ip := LOCALHOST; addr_port := addr.(addr_port) |}.

Definition clamp_bind_addrs (http_addr socks_addr : SocketAddr) (cfg : NetworkProxySettings) : SocketAddr * SocketAddr :=
  let http_addr := clamp_non_loopback http_addr cfg.(dangerously_allow_non_loopback_proxy) in
  let socks_addr := clamp_non_loopback socks_addr cfg.(dangerously_allow_non_loopback_proxy) in
  if (allow_unix_sockets cfg == []) && negb cfg.(dangerously_allow_all_unix_sockets) then (http_addr, socks_addr)
  else ({| addr_ip := LOCALHOST; addr_port := http_addr.(addr_port) |},
        {| addr_ip := LOCALHOST; addr_port := socks_addr.(addr_port) |}).

Record RuntimeConfig := { http_addr : SocketAddr; socks_addr : SocketAddr }.

Record SocketAddressParts := { parts_host : str; parts_port : N }.

(** [str::parse::<u16>]: an optional sign, then digits. *)
Fixpoint u16_digits (acc : N) (s : str) : option N :=
  match s with
  | [] => Some acc
  | c :: s =>
      if is_ascii_digit c then
        let acc := (acc * 10 + (c - 48))%N in
        if (acc <? 65536)%N then u16_digits acc s else None
      else None
  end.
Definition parse_u16 (s : str) : option N :=
  match (match s with 43%N :: rest => rest | _ => s end) with [] => None | digits => u16_digits 0 digits end.

Definition trim_brackets (s : str) : str :=
  let bracket c := (c =? 91)%N || (c =? 93)%N in
  reverse (drop_while bracket (reverse (drop_while bracket s))).

Definition AT : char := 64%N.

Definition parse_host_port_fallback (input : str) (default_port : N) : result SocketAddressParts NetworkConfigError :=
  let without_scheme := match split_once_str (lit "://") input with Some (_, rest) => rest | None => input end in
  let host_port := default without_scheme (head (split_on SLASH without_scheme)) in
  let host_port := match rsplit_once AT host_port with Some (_, rest) => rest | None => host_port end in
  match (if starts_with (lit "[") host_port then find_str (lit "]") host_port else None) with
  | Some end_ =>
      let host := drop 1 (take end_ host_port) in
      let port := match strip_prefix (lit ":") (drop (end_ + 1) host_port) with
                  | Some port => default default_port (parse_u16 port)
                  | None => default_port
                  end in
      if host == [] then Err (MissingHost input) else Ok {| parts_host := host; parts_port := port |}
  | None =>
      match (if count_char COLON host_port =? 1 then rsplit_once COLON host_port else None) with
      | Some (host, port) =>
          if host == [] then Err (MissingHost input)
          else Ok {| parts_host := host; parts_port := default default_port (parse_u16 port) |}
      | None =>
          if host_port == [] then Err (MissingHost input)
          else Ok {| parts_host := host_port; parts_port := default_port |}
      end
  end.

Section urls.
(** [Url::parse(s).ok()], by the host and the port it gives. *)
Context (env : Env) (url_parse : str -> option (option str * option N)).

Definition parse_host_port (url : str) (default_port : N) : result SocketAddressParts NetworkConfigError :=
  let trimmed := trim url in
  if trimmed == [] then Err (MissingHost url)
  else if match parse_ip trimmed with Some (V6 _) => negb (starts_with (lit "[") trimmed) | _ => false end
  then Ok {| parts_host := trimmed; parts_port := default_port |}
  else
    let candidate := if contains_str (lit "://") trimmed then trimmed else lit "http://" ++ trimmed in
    match url_parse candidate with
    | Some (Some host, port) =>
        let host := trim_brackets host in
        if host == [] then Err (MissingHost url)
        else Ok {| parts_host := host; parts_port := default default_port port |}
    | _ => parse_host_port_fallback trimmed default_port
    end.

Definition resolve_addr (url : str) (default_port : N) : result SocketAddr NetworkConfigError :=
  match parse_host_port url default_port with
  | Err e => Err e
  | Ok parts =>
      let host := if to_ascii_lowercase parts.(parts_host) == lit "localhost" then lit "127.0.0.1" else parts.(parts_host) in
      match parse_ip host with
      | Some ip => Ok {| addr_ip := ip; addr_port := parts.(parts_port) |}
      | None => Ok {| addr_ip := LOCALHOST; addr_port := parts.(parts_port) |}
      end
  end.

Definition resolve_runtime (cfg : NetworkProxyConfig) : result RuntimeConfig NetworkConfigError :=
  match validate_unix_socket_allowlist_paths env cfg with
  | Err e => Err e
  | Ok _ =>
      match resolve_addr cfg.(network).(proxy_url) 3128 with
      | Err _ => Err (InvalidProxyUrl cfg.(network).(proxy_url))
      | Ok http =>
          match resolve_addr cfg.(network).(socks_url) 8081 with
          | Err _ => Err (InvalidSocksUrl cfg.(network).(socks_url))
          | Ok socks =>
              let '(http, socks) := clamp_bind_addrs http socks cfg.(network) in
              Ok {| http_addr := http; socks_addr := socks |}
          end
      end
  end.

Definition format_host_and_port (host : str) (port : N) : str :=
  if contains_char COLON host then lit "[" ++ host ++ lit "]:" ++ show_N port else host ++ lit ":" ++ show_N port.

Definition host_and_port_from_network_addr (value : str) (default_port : N) : str :=
  let trimmed := trim value in
  if trimmed == [] then lit "<missing>"
  else match parse_host_port trimmed default_port with
       | Ok parts => format_host_and_port parts.(parts_host) parts.(parts_port)
       | Err _ => format_host_and_port trimmed default_port
       end.
End urls.

(** * The permission of a pattern *)

(** [m] is the strongest permission the entries give to [p]. *)
Definition strongest (l : list NetworkDomainPermissionEntry) (p : str) (m : NetworkDomainPermission) : Prop :=
  {| pattern := p; permission := m |} ∈ l
  /\ forall m', {| pattern := p; permission := m' |} ∈ l -> permission_rank m' <= permission_rank m.

Definition effective_inv (l : list NetworkDomainPermissionEntry) (order : list str)
    (effective : list (str * NetworkDomainPermission)) : Prop :=
  NoDup order
  /\ (forall p, p ∈ order <-> exists m, btree_get effective p = Some m)
  /\ (forall p m, btree_get effective p = Some m -> strongest l p m)
  /\ (forall p m, {| pattern := p; permission := m |} ∈ l -> p ∈ order).

Lemma permission_rank_inj m m' : permission_rank m = permission_rank m' -> m = m'.
Proof. by destruct m, m'. Qed.

Lemma strongest_unique l p m m' : strongest l p m -> strongest l p m' -> m = m'.
Proof. intros [H1 H2] [H3 H4]. apply permission_rank_inj. pose proof (H2 _ H3). pose proof (H4 _ H1). lia. Qed.

Lemma elem_of_snoc {A} (l : list A) x y : x ∈ l ++ [y] <-> x ∈ l \/ x = y.
Proof. by rewrite elem_of_app, list_elem_of_singleton. Qed.

Lemma strongest_raise l p m c :
  strongest l p c -> strongest (l ++ [{| pattern := p; permission := m |}]) p (raise_permission m c).
Proof.
  intros [Hin Hmax]. unfold strongest, raise_permission. setoid_rewrite elem_of_snoc.
  destruct (Nat.ltb_spec (permission_rank c) (permission_rank m)) as [Hlt|Hle].
  - split; [by right|]. intros m' [Hm'%Hmax|[= ->]]; lia.
  - split; [by left|]. intros m' [Hm'%Hmax|[= ->]]; lia.
Qed.

Lemma strongest_first l p m :
  (forall m', {| pattern := p; permission := m' |} ∉ l) ->
  strongest (l ++ [{| pattern := p; permission := m |}]) p (raise_permission m m).
Proof.
  intros Hno. unfold strongest, raise_permission. setoid_rewrite elem_of_snoc. rewrite Nat.ltb_irrefl.
  split; [by right|]. intros m' [Hm'%Hno|[= ->]]; [done|lia].
Qed.

Lemma strongest_other l p q m w :
  q <> p -> strongest l q w -> strongest (l ++ [{| pattern := p; permission := m |}]) q w.
Proof.
  intros Hne [Hin Hmax]. unfold strongest. setoid_rewrite elem_of_snoc. split; [by left|].
  intros m' [Hm'%Hmax|[= -> _]]; done.
Qed.

Lemma effective_step_inv l order effective e :
  effective_inv l order effective ->
  let '(order', effective') := effective_step (order, effective) e in effective_inv (l ++ [e]) order' effective'.
Proof.
  intros (Hn & Ho & Hs & Hc). unfold effective_step, btree_upsert, btree_contains_key.
  destruct e as [p m]; cbn [pattern permission] in *.
  set (v := raise_permission m (default m (btree_get effective p))).
  assert (strongest (l ++ [{| pattern := p; permission := m |}]) p v) as Hv.
  { unfold v. destruct (btree_get effective p) as [c|] eqn:E; cbn [default]; [by apply strongest_raise, Hs|].
    apply strongest_first. intros m' Hm'%Hc%Ho. destruct Hm'. congruence. }
  assert (forall q, q ∈ (if is_some (btree_get effective p) then order else order ++ [p]) <-> q ∈ order \/ q = p) as Hq.
  { intros q. destruct (btree_get effective p) eqn:E; cbn [is_some]; [|apply elem_of_snoc].
    split; [by left|]. intros [?| ->]; [done|]. apply Ho. eauto. }
  split_and!.
  - destruct (btree_get effective p) eqn:E; cbn [is_some]; [done|]. apply NoDup_app. split_and!; [done| |apply NoDup_singleton].
    intros q Hin ->%list_elem_of_singleton. apply Ho in Hin as (? & ?). congruence.
  - intros q. rewrite Hq. destruct (decide (q = p)) as [->|Hne].
    + rewrite btree_get_insert_eq. naive_solver.
    + rewrite btree_get_insert_ne by done. rewrite <- Ho. naive_solver.
  - intros q w. destruct (decide (q = p)) as [->|Hne].
    + rewrite btree_get_insert_eq. by intros [= <-].
    + rewrite btree_get_insert_ne by done. intros Hg. by apply strongest_other; [|apply Hs].
  - intros q w Hin. rewrite Hq. apply elem_of_snoc in Hin as [Hin|[= -> ->]]; [left; by eapply Hc|by right].
Qed.

Lemma effective_fold_inv k l order effective :
  effective_inv l order effective ->
  let '(order', effective') := foldl effective_step (order, effective) k in effective_inv (l ++ k) order' effective'.
Proof.
  revert l order effective. induction k as [|e k IH]; intros l order effective Hi; cbn [foldl]; [by rewrite app_nil_r|].
  pose proof (effective_step_inv _ _ _ e Hi) as Hs. destruct (effective_step (order, effective) e) as [o' m'].
  specialize (IH _ _ _ Hs). by rewrite <- app_assoc in IH.
Qed.

Lemma take_in_order_spec order effective :
  NoDup order -> (forall p, p ∈ order -> is_Some (btree_get effective p)) ->
  pattern <$> take_in_order order effective = order
  /\ forall e, e ∈ take_in_order order effective <-> e.(pattern) ∈ order /\ btree_get effective e.(pattern) = Some e.(permission).
Proof.
  intros Hn. revert effective. induction Hn as [|p order Hp Hn IH]; intros effective Hall; cbn [take_in_order].
  { split; [done|]. set_solver. }
  destruct (Hall p ltac:(by left)) as [m Hm]. rewrite Hm.
  assert (forall q, q ∈ order -> q <> p) as Hne by (intros q Hq ->; done).
  destruct (IH (btree_remove p effective)) as [Hf He].
  { intros q Hq. rewrite btree_get_remove_ne by auto. apply Hall. by right. }
  split; [by rewrite fmap_cons, Hf|]. intros e. rewrite elem_of_cons, He, elem_of_cons. split.
  - intros [->|[Hin Hg]]; cbn [pattern permission]; [auto|]. rewrite btree_get_remove_ne in Hg by auto. auto.
  - destruct e as [q w]; cbn [pattern permission]. intros [[Hq|Hin] Hg]; [left|right; rewrite btree_get_remove_ne by auto; auto].
    rewrite Hq in Hg. rewrite Hm in Hg. injection Hg as Hg. by rewrite Hq, Hg.
Qed.

(** The effective entries list every configured pattern once, with the strongest
    permission it was given ([Deny] over [Allow] over [None]). *)
Theorem effective_entries_spec d :
  NoDup (pattern <$> effective_entries d)
  /\ forall p m, {| pattern := p; permission := m |} ∈ effective_entries d <-> strongest d.(entries) p m.
Proof.
  unfold effective_entries. pose proof (effective_fold_inv d.(entries) [] [] []) as Hi.
  destruct (foldl effective_step ([], []) (entries d)) as [order effective].
  destruct Hi as (Hn & Ho & Hs & Hc). { split_and!; [constructor| |done|by intros ? ? ?%not_elem_of_nil].
    intros p. split; [by intros ?%not_elem_of_nil|by intros (m & [=])]. }
  destruct (take_in_order_spec order effective Hn) as [Hf He]; [intros p [m Hp]%Ho; by exists m|].
  split; [by rewrite Hf|]. intros p m. rewrite He. cbn [pattern permission]. cbn [app] in *. split; [naive_solver|].
  intros Hst. assert (p ∈ order) as Hp by (eapply Hc, (proj1 Hst)). split; [done|]. apply Ho in Hp as [m' Hg].
  rewrite Hg. f_equal. by eapply strongest_unique; [apply Hs|].
Qed.

Definition domain_list (o : option (list str)) : list str := default [] o.

Lemma domain_entries_elem s perm p :
  p ∈ domain_list (domain_entries s perm) <-> strongest (domains_or_default s) p perm.
Proof.
  unfold domain_entries, domains_or_default, domain_list. destruct (domains s) as [d|].
  - rewrite <- (proj2 (effective_entries_spec d)).
    transitivity (p ∈ pattern <$> retain (fun entry => entry.(permission) == perm) (effective_entries d));
      [by destruct (pattern <$> _)|]. rewrite list_elem_of_fmap. setoid_rewrite elem_of_retain. setoid_rewrite bool_decide_eq_true. split.
    + intros ([q m] & -> & <- & Hin). exact Hin.
    + intros Hin. by exists {| pattern := p; permission := perm |}.
  - unfold strongest. split; [by intros ?%not_elem_of_nil|by intros [?%not_elem_of_nil _]].
Qed.

(** The denied patterns are those of the [Deny] entries, the allowed ones those of
    the [Allow] entries that no [Deny] entry has. *)
Lemma denied_domains_elem s p :
  p ∈ domain_list (denied_domains s) <-> {| pattern := p; permission := PermDeny |} ∈ domains_or_default s.
Proof.
  unfold denied_domains. rewrite domain_entries_elem. unfold strongest. split; [tauto|]. intros Hp. split; [done|].
  intros m' _. destruct m'; cbn; lia.
Qed.

Lemma allowed_domains_elem s p :
  p ∈ domain_list (allowed_domains s)
  <-> {| pattern := p; permission := PermAllow |} ∈ domains_or_default s
      /\ {| pattern := p; permission := PermDeny |} ∉ domains_or_default s.
Proof.
  unfold allowed_domains. rewrite domain_entries_elem. unfold strongest. split.
  - intros [Hp Hm]. split; [done|]. intros Hd%Hm. cbn in Hd. lia.
  - intros [Hp Hd]. split; [done|]. intros m' Hm'. destruct m'; cbn; try lia. done.
Qed.

(** * What the updates do *)

Lemma domains_or_default_with l s : domains_or_default (with_domains (nonempty_domains l) s) = l.
Proof. by destruct l. Qed.

Lemma upsert_domain_permission_elem s host perm normalize e :
  e ∈ domains_or_default (upsert_domain_permission s host perm normalize)
  <-> (normalize e.(pattern) <> normalize host /\ e ∈ domains_or_default s) \/ e = {| pattern := host; permission := perm |}.
Proof.
  unfold upsert_domain_permission. rewrite domains_or_default_with, elem_of_snoc, elem_of_retain.
  rewrite negb_true_iff, bool_decide_eq_false. done.
Qed.

Lemma push_domain_entry_elem perm l p e :
  e ∈ push_domain_entry perm l p <-> e ∈ l \/ e = {| pattern := p; permission := perm |}.
Proof.
  unfold push_domain_entry. destruct (existsb _ l) eqn:E; [|apply elem_of_snoc].
  apply existsb_exists in E as (x & Hin%list_elem_of_In & [H1%bool_decide_eq_true_1 H2%bool_decide_eq_true_1]%andb_prop).
  destruct x as [q m]; cbn [pattern permission] in *; subst. split; [by left|]. by intros [?| ->].
Qed.

Lemma push_domain_entries_elem perm ps l e :
  e ∈ foldl (push_domain_entry perm) l ps <-> e ∈ l \/ (e.(permission) = perm /\ e.(pattern) ∈ ps).
Proof.
  revert l. induction ps as [|p ps IH]; intros l; cbn [foldl].
  - rewrite elem_of_nil. tauto.
  - rewrite IH, push_domain_entry_elem, elem_of_cons. destruct e as [q m]; cbn [pattern permission]. naive_solver.
Qed.

Lemma set_domain_entries_elem s ps perm e :
  e ∈ domains_or_default (set_domain_entries s ps perm)
  <-> (e.(permission) <> perm /\ e ∈ domains_or_default s) \/ (e.(permission) = perm /\ e.(pattern) ∈ ps).
Proof.
  unfold set_domain_entries. rewrite domains_or_default_with, push_domain_entries_elem, elem_of_retain.
  by rewrite negb_true_iff, bool_decide_eq_false.
Qed.

(** Replacing the allow list keeps the denied patterns, and a denied pattern stays
    out of the allow list; replacing the deny list takes its patterns out of the
    allowed ones. *)
Theorem set_domains_spec s ps p :
  (p ∈ domain_list (allowed_domains (set_allowed_domains s ps)) <-> p ∈ ps /\ p ∉ domain_list (denied_domains s))
  /\ (p ∈ domain_list (denied_domains (set_allowed_domains s ps)) <-> p ∈ domain_list (denied_domains s))
  /\ (p ∈ domain_list (denied_domains (set_denied_domains s ps)) <-> p ∈ ps)
  /\ (p ∈ domain_list (allowed_domains (set_denied_domains s ps))
      <-> {| pattern := p; permission := PermAllow |} ∈ domains_or_default s /\ p ∉ ps).
Proof.
  unfold set_allowed_domains, set_denied_domains.
  rewrite !allowed_domains_elem, !denied_domains_elem, !set_domain_entries_elem. cbn [pattern permission]. naive_solver.
Qed.

Lemma btree_insert_elem {V} k (v : V) m kv :
  (kv ∈ btree_insert k v m -> kv = (k, v) \/ kv ∈ m)
  /\ (kv = (k, v) \/ (kv ∈ m /\ kv.1 <> k) -> kv ∈ btree_insert k v m).
Proof.
  induction m as [|[k' v'] m IH]; cbn [btree_insert].
  { rewrite list_elem_of_singleton, elem_of_nil. tauto. }
  case_bool_decide; [|destruct (str_leb k k')]; rewrite !elem_of_cons; destruct kv as [j w]; naive_solver.
Qed.

Lemma insert_sockets_elem ps (perm : NetworkUnixSocketPermission) m j :
  (j, perm) ∈ foldl (fun m entry => btree_insert entry perm m) m ps <-> j ∈ ps \/ (j, perm) ∈ m.
Proof.
  revert m. induction ps as [|p ps IH]; intros m; cbn [foldl]; [rewrite elem_of_nil; tauto|].
  rewrite IH, elem_of_cons. destruct (btree_insert_elem p perm m (j, perm)) as [H1 H2].
  destruct (decide (j = p)); naive_solver.
Qed.

(** After [set_allow_unix_sockets] the allowed sockets are exactly the given ones. *)
Lemma set_allow_unix_sockets_spec s ps p : p ∈ allow_unix_sockets (set_allow_unix_sockets s ps) <-> p ∈ ps.
Proof.
  unfold set_allow_unix_sockets, set_unix_socket_entries, allow_unix_sockets.
  set (kept := retain _ (match unix_sockets s with Some u => socket_entries u | None => [] end)).
  assert ((p, SocketAllow) ∉ kept) as Hk by (unfold kept; rewrite elem_of_retain; cbn; naive_solver).
  set (m := foldl _ kept ps).
  transitivity (p ∈ fst <$> retain (fun kv => kv.2 == SocketAllow) m); [by destruct m|].
  rewrite list_elem_of_fmap. setoid_rewrite elem_of_retain. setoid_rewrite bool_decide_eq_true.
  pose proof (insert_sockets_elem ps SocketAllow kept p) as He. fold m in He. split.
  - intros ([q perm] & -> & [= ->] & Hin). cbn [fst] in *. apply He in Hin as [?|?]; done.
  - intros Hp. exists (p, SocketAllow). split; [done|]. split; [done|]. apply He. by left.
Qed.

(** The proxy listens on the loopback interface, whatever addresses are
    configured, unless other interfaces are explicitly allowed and no Unix socket
    can be reached through it; the ports are the configured ones. *)
Theorem clamp_bind_addrs_spec http socks cfg :
  let '(http', socks') := clamp_bind_addrs http socks cfg in
  http'.(addr_port) = http.(addr_port) /\ socks'.(addr_port) = socks.(addr_port)
  /\ (ip_is_loopback http'.(addr_ip) = false \/ ip_is_loopback socks'.(addr_ip) = false ->
      cfg.(dangerously_allow_non_loopback_proxy) = true
      /\ allow_unix_sockets cfg = [] /\ cfg.(dangerously_allow_all_unix_sockets) = false)
  /\ (cfg.(dangerously_allow_non_loopback_proxy) = true -> allow_unix_sockets cfg = [] ->
      cfg.(dangerously_allow_all_unix_sockets) = false -> http' = http /\ socks' = socks).
Proof.
  unfold clamp_bind_addrs, clamp_non_loopback.
  destruct (dangerously_allow_non_loopback_proxy cfg), (dangerously_allow_all_unix_sockets cfg);
    case_bool_decide; destruct (ip_is_loopback (addr_ip http)) eqn:E1, (ip_is_loopback (addr_ip socks)) eqn:E2;
    cbn [andb negb addr_ip addr_port]; rewrite ?E1, ?E2; cbn; naive_solver.
Qed.

Lemma resolve_runtime_loopback env url_parse cfg r :
  resolve_runtime env url_parse cfg = Ok r ->
  cfg.(network).(dangerously_allow_non_loopback_proxy) = false \/ allow_unix_sockets cfg.(network) <> [] ->
  ip_is_loopback r.(http_addr).(addr_ip) = true /\ ip_is_loopback r.(socks_addr).(addr_ip) = true.
Proof.
  unfold resolve_runtime. intros H Hd.
  destruct (validate_unix_socket_allowlist_paths env cfg); [|done].
  destruct (resolve_addr url_parse (proxy_url _) 3128) as [http|]; [|done].
  destruct (resolve_addr url_parse (socks_url _) 8081) as [socks|]; [|done].
  pose proof (clamp_bind_addrs_spec http socks cfg.(network)) as Hc.
  destruct (clamp_bind_addrs http socks cfg.(network)) as [http' socks']. injection H as <-. cbn [http_addr socks_addr].
  destruct Hc as (_ & _ & Hc & _).
  destruct (ip_is_loopback (addr_ip http')), (ip_is_loopback (addr_ip socks')); try done; naive_solver.
Qed.
