(* ===== verification/MitmHook.v ===== *)
(** [network-proxy/src/mitm_hook.rs]: the hooks that match decrypted requests and
    inject credentials.

    A hook is validated, compiled and then matched against requests.  The HTTP
    types, [form_urlencoded] and [globset] are third-party: they are the class
    [HttpLib]; the environment variables and the secret files are arguments, as in
    [compile_mitm_hooks_with_resolvers]. *)

From stdpp Require Import base list option numbers strings sets.
From Stdlib Require Import NArith Lia.
From S2P Require Import Prelude RustStr AbsolutePath NetworkHost NetworkConfig.
Local Open Scope rust_scope.

Class HttpLib := {
  HeaderName : Type;
  header_name_eq_dec : EqDecision HeaderName;
  HeaderValue : Type;
  header_name_from_bytes : str -> option HeaderName;
  header_value_from_str : str -> option HeaderValue;
  header_value_to_str : HeaderValue -> option str;
  GlobMatcher : Type;
  glob_build : str -> bool -> option GlobMatcher;
  matcher_is_match : GlobMatcher -> str -> bool;
  form_urlencoded_parse : str -> list (str * str);
}.
#[global] Existing Instance header_name_eq_dec.

Section mitm.
Context `{HttpLib}.

(** * Data *)

Definition PATTERN_PREFIX : str := lit "pattern:".
Definition LITERAL_PREFIX : str := lit "literal:".

Record CompiledGlobMatcher := { glob_pattern : str; glob_matcher : GlobMatcher }.

Inductive PathMatcher : Type := PathPrefix (prefix : str) | PathGlob (glob : CompiledGlobMatcher).
Inductive ValueMatcher : Type := ValueExact (value : str) | ValueGlob (glob : CompiledGlobMatcher).
Inductive MatcherPattern : Set := MatcherLiteral (s : str) | MatcherGlob (s : str).

Record QueryConstraint := { query_name : str; query_values : list ValueMatcher }.
Record HeaderConstraint := { header_name : HeaderName; header_values : list ValueMatcher }.

Record MitmHookMatcher := {
  m_methods : list str;
  m_path_prefixes : list PathMatcher;
  m_query : list QueryConstraint;
  m_headers : list HeaderConstraint;
  m_body : option str;
}.

Inductive SecretSource : Type := SecretEnvVar (name : str) | SecretFile (path : AbsolutePathBuf).
Record ResolvedInjectedHeader := { r_name : HeaderName; r_value : HeaderValue; r_source : SecretSource }.
Record MitmHookActions := {
  a_strip_request_headers : list HeaderName;
  a_inject_request_headers : list ResolvedInjectedHeader;
}.
Record MitmHook := { h_host : str; h_matcher : MitmHookMatcher; h_actions : MitmHookActions }.

Definition MitmHooksByHost : Type := list (str * list MitmHook).

Inductive HookEvaluation : Type :=
| NoHooksForHost
| Matched (actions : MitmHookActions)
| HookedHostNoMatch.

Inductive HookError : Set :=
| RequiresMitm
| EmptyHost | WildcardHost
| EmptyMethod | NoMethods
| EmptyPathPrefix | NoPathPrefixes
| EmptyGlob | InvalidGlobPattern (pattern : str)
| BodyNotSupported
| EmptyQueryKey | NoQueryValues (name : str)
| InvalidHeaderName (name : str)
| EmptySecretEnvVar | EmptySecretFile | SecretFileNotAbsolute (path : str)
| NotOneSecret
| MissingEnvVar (name : str) | UnreadableSecretFile (path : str) | InvalidHeaderValue (name : str)
| InvalidHook (hook_index : nat) (cause : HookError).

(** * Compiling matchers *)

Definition parse_matcher_pattern (pattern : str) : result MatcherPattern HookError :=
  match strip_prefix LITERAL_PREFIX pattern with
  | Some literal => Ok (MatcherLiteral literal)
  | None =>
      match strip_prefix PATTERN_PREFIX pattern with
      | None => Ok (MatcherLiteral pattern)
      | Some glob_pattern => if glob_pattern == [] then Err EmptyGlob else Ok (MatcherGlob glob_pattern)
      end
  end.

Definition compile_glob_matcher (pattern : str) (literal_separator : bool) : result CompiledGlobMatcher HookError :=
  match glob_build pattern literal_separator with
  | Some matcher => Ok {| glob_pattern := pattern; glob_matcher := matcher |}
  | None => Err (InvalidGlobPattern pattern)
  end.

Definition compile_path_matcher (prefix : str) : result PathMatcher HookError :=
  let? p := parse_matcher_pattern prefix in
  match p with
  | MatcherLiteral prefix => if prefix == [] then Err EmptyPathPrefix else Ok (PathPrefix prefix)
  | MatcherGlob glob_pattern => let? g := compile_glob_matcher glob_pattern true in Ok (PathGlob g)
  end.
Definition compile_path_matchers : list str -> result (list PathMatcher) HookError := collect compile_path_matcher.

Definition compile_value_matcher (value : str) : result ValueMatcher HookError :=
  let? p := parse_matcher_pattern value in
  match p with
  | MatcherLiteral value => Ok (ValueExact value)
  | MatcherGlob glob_pattern => let? g := compile_glob_matcher glob_pattern false in Ok (ValueGlob g)
  end.
Definition compile_value_matchers : list str -> result (list ValueMatcher) HookError := collect compile_value_matcher.

Definition normalize_hook_host (host : str) : result str HookError :=
  let normalized := normalize_host host in
  if normalized == [] then Err EmptyHost
  else if contains_char 42 normalized then Err WildcardHost
  else Ok normalized.

Definition to_ascii_uppercase (s : str) : str := (fun c => if in_range 97 122 c then (c - 32)%N else c) <$> s.

Definition normalize_method (method : str) : result str HookError :=
  let normalized := to_ascii_uppercase (trim method) in
  if normalized == [] then Err EmptyMethod else Ok normalized.
Definition normalize_methods : list str -> result (list str) HookError := collect normalize_method.

Definition normalize_query_name (name : str) : result str HookError :=
  if name == [] then Err EmptyQueryKey else Ok name.

Definition parse_header_name (name : str) : result HeaderName HookError :=
  match header_name_from_bytes name with Some h => Ok h | None => Err (InvalidHeaderName name) end.

Section files.
Context (env : Env).

Definition parse_secret_file (path : str) : result AbsolutePathBuf HookError :=
  if trim path == [] then Err EmptySecretFile
  else if negb (is_absolute (components path)) then Err (SecretFileNotAbsolute path)
  else match from_absolute_path env path with
       | Some p => Ok p
       | None => Err (SecretFileNotAbsolute path)
       end.

(** * Validation *)

Fixpoint validate_query_constraints (query : list (str * list str)) : result unit HookError :=
  match query with
  | [] => Ok tt
  | (name, values) :: query =>
      let? normalized := normalize_query_name name in
      if normalized == [] then Err EmptyQueryKey
      else if values == [] then Err (NoQueryValues name)
      else let? _ := compile_value_matchers values in validate_query_constraints query
  end.

Fixpoint validate_header_constraints (headers : list (str * list str)) : result unit HookError :=
  match headers with
  | [] => Ok tt
  | (name, values) :: headers =>
      let? _ := parse_header_name name in
      let? _ := compile_value_matchers values in validate_header_constraints headers
  end.

Fixpoint validate_strip_request_headers (header_names : list str) : result unit HookError :=
  match header_names with
  | [] => Ok tt
  | name :: header_names => let? _ := parse_header_name name in validate_strip_request_headers header_names
  end.

Definition validate_injected_header (header : InjectedHeaderConfig) : result unit HookError :=
  let? _ := parse_header_name header.(ih_name) in
  match header.(secret_env_var), header.(secret_file) with
  | Some secret_env_var, None => if trim secret_env_var == [] then Err EmptySecretEnvVar else Ok tt
  | None, Some secret_file => let? _ := parse_secret_file secret_file in Ok tt
  | _, _ => Err NotOneSecret
  end.

Fixpoint validate_injected_headers (headers : list InjectedHeaderConfig) : result unit HookError :=
  match headers with
  | [] => Ok tt
  | header :: headers => let? _ := validate_injected_header header in validate_injected_headers headers
  end.

(** The body of the loop of [validate_mitm_hook_config]. *)
Definition validate_hook (hook : MitmHookConfig) : result unit HookError :=
  let? host := normalize_hook_host hook.(hook_host) in
  let? methods := normalize_methods hook.(matcher).(methods) in
  if bool_decide (methods = []) then Err NoMethods
  else
    let? path_prefixes := compile_path_matchers hook.(matcher).(path_prefixes) in
    match path_prefixes with
    | [] => Err NoPathPrefixes
    | _ =>
        if is_some hook.(matcher).(body) then Err BodyNotSupported
        else
          let? _ := validate_query_constraints hook.(matcher).(query) in
          let? _ := validate_header_constraints hook.(matcher).(headers) in
          let? _ := validate_strip_request_headers hook.(actions).(strip_request_headers) in
          let? _ := validate_injected_headers hook.(actions).(inject_request_headers) in
          if host == [] then Err EmptyHost else Ok tt
    end.

Fixpoint validate_hooks (hook_index : nat) (hooks : list MitmHookConfig) : result unit HookError :=
  match hooks with
  | [] => Ok tt
  | hook :: hooks =>
      match validate_hook hook with
      | Ok _ => validate_hooks (S hook_index) hooks
      | Err e => Err (InvalidHook hook_index e)
      end
  end.

Definition validate_mitm_hook_config (config : NetworkProxyConfig) : result unit HookError :=
  let hooks := config.(network).(mitm_hooks) in
  if hooks == [] then Ok tt
  else if negb config.(network).(mitm) then Err RequiresMitm
  else validate_hooks 0 hooks.

(** * Compilation *)

Context (resolve_env_var : str -> option str) (read_secret_file : AbsolutePathBuf -> result str HookError).

Definition compile_injected_header (header : InjectedHeaderConfig) : result ResolvedInjectedHeader HookError :=
  let? name := parse_header_name header.(ih_name) in
  let? secret :=
    match header.(secret_env_var), header.(secret_file) with
    | Some env_var, None =>
        match resolve_env_var env_var with
        | Some value => Ok (value, SecretEnvVar env_var)
        | None => Err (MissingEnvVar env_var)
        end
    | None, Some secret_file =>
        let? path := parse_secret_file secret_file in
        let? value := read_secret_file path in
        Ok (value, SecretFile path)
    | _, _ => Err NotOneSecret
    end in
  match header_value_from_str (default [] header.(prefix) ++ secret.1) with
  | Some value => Ok {| r_name := name; r_value := value; r_source := secret.2 |}
  | None => Err (InvalidHeaderValue header.(ih_name))
  end.

Definition compile_query (nv : str * list str) : result QueryConstraint HookError :=
  let? name := normalize_query_name nv.1 in
  let? values := compile_value_matchers nv.2 in
  Ok {| query_name := name; query_values := values |}.

Definition compile_header (nv : str * list str) : result HeaderConstraint HookError :=
  let? name := parse_header_name nv.1 in
  let? values := compile_value_matchers nv.2 in
  Ok {| header_name := name; header_values := values |}.

(** One turn of the loop of [compile_mitm_hooks_with_resolvers]. *)
Definition compile_hook (hook : MitmHookConfig) : result MitmHook HookError :=
  let? host := normalize_hook_host hook.(hook_host) in
  let? methods := normalize_methods hook.(matcher).(methods) in
  let? path_prefixes := compile_path_matchers hook.(matcher).(path_prefixes) in
  let? query := collect compile_query hook.(matcher).(query) in
  let? headers := collect compile_header hook.(matcher).(headers) in
  let? strip := collect parse_header_name hook.(actions).(strip_request_headers) in
  let? inject := collect compile_injected_header hook.(actions).(inject_request_headers) in
  Ok {| h_host := host;
        h_matcher := {| m_methods := methods; m_path_prefixes := path_prefixes; m_query := query; m_headers := headers;
                        m_body := None |};
        h_actions := {| a_strip_request_headers := strip; a_inject_request_headers := inject |} |}.

Definition push_hook (hooks_by_host : MitmHooksByHost) (hook : MitmHook) : MitmHooksByHost :=
  btree_upsert hook.(h_host) [] (fun hooks => hooks ++ [hook]) hooks_by_host.

Fixpoint compile_hooks (hooks : list MitmHookConfig) (hooks_by_host : MitmHooksByHost) : result MitmHooksByHost HookError :=
  match hooks with
  | [] => Ok hooks_by_host
  | hook :: hooks => let? compiled := compile_hook hook in compile_hooks hooks (push_hook hooks_by_host compiled)
  end.

Definition compile_mitm_hooks_with_resolvers (config : NetworkProxyConfig) : result MitmHooksByHost HookError :=
  let? _ := validate_mitm_hook_config config in compile_hooks config.(network).(mitm_hooks) [].
End files.

(** [compile_mitm_hooks] of the process: the environment and the file system. *)
Definition compile_mitm_hooks (env : Env) (env_var : str -> option str) (read_to_string : AbsolutePathBuf -> option str)
    (config : NetworkProxyConfig) : result MitmHooksByHost HookError :=
  compile_mitm_hooks_with_resolvers env env_var
    (fun path => match read_to_string path with Some value => Ok (trim value) | None => Err (UnreadableSecretFile (path_str path)) end)
    config.

(** * Matching *)

Record Request := {
  req_method : str;
  req_path : str;
  req_query : option str;
  req_headers : list (HeaderName * HeaderValue);
}.

Definition path_matcher_matches (self : PathMatcher) (candidate : str) : bool :=
  match self with
  | PathPrefix prefix => starts_with prefix candidate
  | PathGlob glob => matcher_is_match glob.(glob_matcher) candidate
  end.
Definition path_matches (path_prefixes : list PathMatcher) (path : str) : bool :=
  existsb (fun m => path_matcher_matches m path) path_prefixes.

Definition value_matcher_matches (self : ValueMatcher) (candidate : str) : bool :=
  match self with
  | ValueExact value => value == candidate
  | ValueGlob glob => matcher_is_match glob.(glob_matcher) candidate
  end.

Definition query_matches (query_constraints : list QueryConstraint) (req : Request) : bool :=
  match query_constraints with
  | [] => true
  | _ =>
      let actual_values := foldl (fun m nv => btree_upsert nv.1 [] (fun vs => vs ++ [nv.2]) m) []
                             (form_urlencoded_parse (default [] req.(req_query))) in
      forallb (fun constraint =>
        is_some_and (existsb (fun candidate =>
            existsb (fun allowed => value_matcher_matches allowed candidate) constraint.(query_values)))
          (btree_get actual_values constraint.(query_name))) query_constraints
  end.

Definition get_all (req : Request) (name : HeaderName) : list HeaderValue :=
  snd <$> retain (fun nv => nv.1 == name) req.(req_headers).

Definition headers_match (header_constraints : list HeaderConstraint) (req : Request) : bool :=
  forallb (fun constraint =>
    match get_all req constraint.(header_name) with
    | [] => false
    | actual =>
        match constraint.(header_values) with
        | [] => true
        | allowed_values =>
            existsb (fun value =>
              is_some_and (fun candidate => existsb (fun allowed => value_matcher_matches allowed candidate) allowed_values)
                (header_value_to_str value)) actual
        end
    end) header_constraints.

Definition hook_matches (hook : MitmHook) (req : Request) : bool :=
  let method := to_ascii_uppercase req.(req_method) in
  if negb (existsb (fun allowed => allowed == method) hook.(h_matcher).(m_methods)) then false
  else if negb (path_matches hook.(h_matcher).(m_path_prefixes) req.(req_path)) then false
  else if negb (query_matches hook.(h_matcher).(m_query) req) then false
  else headers_match hook.(h_matcher).(m_headers) req.

Fixpoint first_match (hooks : list MitmHook) (req : Request) : HookEvaluation :=
  match hooks with
  | [] => HookedHostNoMatch
  | hook :: hooks => if hook_matches hook req then Matched hook.(h_actions) else first_match hooks req
  end.

Definition evaluate_mitm_hooks (hooks_by_host : MitmHooksByHost) (host : str) (req : Request) : HookEvaluation :=
  match btree_get hooks_by_host (normalize_host host) with
  | None => NoHooksForHost
  | Some hooks => first_match hooks req
  end.

(** * Validation and compilation agree *)

Lemma validate_query_ok query :
  is_ok (validate_query_constraints query) = true
  <-> Forall (fun nv => is_ok (compile_query nv) = true /\ nv.2 <> []) query.
Proof.
  induction query as [|[name values] query IH]; cbn [validate_query_constraints]; [by split|]. rewrite Forall_cons, <- IH.
  unfold compile_query, normalize_query_name. cbn [fst snd]. case_bool_decide as Hn; [naive_solver|].
  rewrite (bool_decide_eq_false_2 (name = [])) by done. case_bool_decide as Hv; [naive_solver|].
  destruct (compile_value_matchers values); cbn; naive_solver.
Qed.

Lemma validate_headers_ok hs :
  is_ok (validate_header_constraints hs) = true <-> Forall (fun nv => is_ok (compile_header nv) = true) hs.
Proof.
  induction hs as [|[name values] hs IH]; cbn [validate_header_constraints]; [by split|]. rewrite Forall_cons, <- IH.
  unfold compile_header. cbn [fst snd]. destruct (parse_header_name name), (compile_value_matchers values); cbn; naive_solver.
Qed.

Lemma validate_strip_ok names :
  is_ok (validate_strip_request_headers names) = true <-> Forall (fun n => is_ok (parse_header_name n) = true) names.
Proof.
  induction names as [|n names IH]; cbn [validate_strip_request_headers]; [by split|]. rewrite Forall_cons, <- IH.
  destruct (parse_header_name n); cbn; naive_solver.
Qed.

Section accepted.
Context (env : Env).

Lemma validate_injected_ok hs :
  is_ok (validate_injected_headers env hs) = true <-> Forall (fun h => is_ok (validate_injected_header env h) = true) hs.
Proof.
  induction hs as [|h hs IH]; cbn [validate_injected_headers]; [by split|]. rewrite Forall_cons, <- IH.
  destruct (validate_injected_header env h); cbn; naive_solver.
Qed.

Lemma is_ok_bind {A B E} (r : result A E) (f : A -> result B E) :
  is_ok (let? a := r in f a) = true <-> exists a, r = Ok a /\ is_ok (f a) = true.
Proof. destruct r; cbn; naive_solver. Qed.

(** What an accepted hook looks like. *)
Definition hook_accepted (hook : MitmHookConfig) : Prop :=
  is_ok (normalize_hook_host hook.(hook_host)) = true
  /\ is_ok (normalize_methods hook.(matcher).(methods)) = true /\ hook.(matcher).(methods) <> []
  /\ is_ok (compile_path_matchers hook.(matcher).(path_prefixes)) = true /\ hook.(matcher).(path_prefixes) <> []
  /\ hook.(matcher).(body) = None
  /\ Forall (fun nv => is_ok (compile_query nv) = true /\ nv.2 <> []) hook.(matcher).(query)
  /\ Forall (fun nv => is_ok (compile_header nv) = true) hook.(matcher).(headers)
  /\ Forall (fun n => is_ok (parse_header_name n) = true) hook.(actions).(strip_request_headers)
  /\ Forall (fun h => is_ok (validate_injected_header env h) = true) hook.(actions).(inject_request_headers).

Lemma collect_nil {A B E} (f : A -> result B E) l ys : collect f l = Ok ys -> ys = [] <-> l = [].
Proof. intros Hc%collect_Ok. inversion Hc; by split. Qed.

Lemma normalize_hook_host_ok host h : normalize_hook_host host = Ok h -> h = normalize_host host /\ h <> [].
Proof. unfold normalize_hook_host. case_bool_decide; [done|]. destruct (contains_char _ _); [done|]. by intros [= <-]. Qed.

Lemma validate_hook_ok hook : is_ok (validate_hook env hook) = true <-> hook_accepted hook.
Proof.
  unfold validate_hook, hook_accepted. rewrite <- validate_query_ok, <- validate_headers_ok, <- validate_strip_ok, <- validate_injected_ok.
  destruct (normalize_hook_host _) as [host|] eqn:Eh; [|naive_solver].
  destruct (normalize_methods _) as [ms|] eqn:Em; [|naive_solver].
  apply collect_nil in Em. case_bool_decide as Hm; [naive_solver|].
  destruct (compile_path_matchers _) as [ps|] eqn:Ep; [|naive_solver]. apply collect_nil in Ep.
  destruct ps as [|p0 ps]; [naive_solver|]. destruct (body _) as [b|]; cbn [is_some]; [naive_solver|].
  apply normalize_hook_host_ok in Eh as [_ Hne]. rewrite (bool_decide_eq_false_2 (host = [])) by done.
  destruct (validate_query_constraints _) as [[]|]; [|naive_solver].
  destruct (validate_header_constraints _) as [[]|]; [|naive_solver].
  destruct (validate_strip_request_headers _) as [[]|]; [|naive_solver].
  destruct (validate_injected_headers _ _) as [[]|]; naive_solver.
Qed.

Lemma validate_hooks_ok i hooks : is_ok (validate_hooks env i hooks) = true <-> Forall hook_accepted hooks.
Proof.
  revert i. induction hooks as [|h hooks IH]; intros i; cbn [validate_hooks]; [by split|].
  rewrite Forall_cons, <- (IH (S i)), <- validate_hook_ok. destruct (validate_hook env h); cbn; naive_solver.
Qed.

End accepted.

Section compiled_hooks.
Context (env : Env) (resolve_env_var : str -> option str) (read_secret_file : AbsolutePathBuf -> result str HookError).

Lemma compile_hook_total hook :
  hook_accepted env hook ->
  is_ok (compile_hook env resolve_env_var read_secret_file hook) = true
  <-> Forall (fun h => is_ok (compile_injected_header env resolve_env_var read_secret_file h) = true)
        hook.(actions).(inject_request_headers).
Proof.
  intros (Hh & Hm & _ & Hp & _ & _ & Hq & Hd & Hs & _). unfold compile_hook.
  rewrite <- collect_total. apply collect_total in Hd, Hs.
  assert (is_ok (collect compile_query (query (matcher hook))) = true) as Hq'.
  { apply collect_total. eapply Forall_impl; [exact Hq|]. naive_solver. }
  repeat match goal with H : is_ok ?x = true |- _ => destruct x; [clear H|done] end.
  destruct (collect (compile_injected_header env resolve_env_var read_secret_file) _); done.
Qed.

(** Compiling succeeds exactly when the configuration is valid and every secret
    can be resolved. *)
Theorem compile_hooks_total config :
  is_ok (compile_mitm_hooks_with_resolvers env resolve_env_var read_secret_file config) = true
  <-> is_ok (validate_mitm_hook_config env config) = true
      /\ Forall (fun hook => Forall (fun h => is_ok (compile_injected_header env resolve_env_var read_secret_file h) = true)
                   hook.(actions).(inject_request_headers)) config.(network).(mitm_hooks).
Proof.
  unfold compile_mitm_hooks_with_resolvers. rewrite is_ok_bind.
  assert (forall hooks m, Forall (hook_accepted env) hooks ->
    is_ok (compile_hooks env resolve_env_var read_secret_file hooks m) = true
    <-> Forall (fun hook => Forall (fun h => is_ok (compile_injected_header env resolve_env_var read_secret_file h) = true)
                   hook.(actions).(inject_request_headers)) hooks) as Hall.
  { induction hooks as [|h hooks IH]; intros m Ha; cbn [compile_hooks]; [by split|].
    apply Forall_cons in Ha as [Hh Ha]. rewrite Forall_cons, <- (compile_hook_total h Hh).
    destruct (compile_hook _ _ _ h) as [c|] eqn:E; cbn [is_ok]; [|naive_solver]. rewrite (IH (push_hook m c) Ha). naive_solver. }
  assert (is_ok (validate_mitm_hook_config env config) = true -> Forall (hook_accepted env) config.(network).(mitm_hooks)) as Hv.
  { unfold validate_mitm_hook_config. case_bool_decide as He; [rewrite He; constructor|].
    destruct (mitm _); cbn [negb]; [|done]. by rewrite validate_hooks_ok. }
  destruct (validate_mitm_hook_config env config) as [[]|]; cbn in *; [|naive_solver].
  rewrite <- (Hall _ [] (Hv eq_refl)). naive_solver.
Qed.

(** * Evaluation *)

Lemma push_hook_get m hook host :
  btree_get (push_hook m hook) host
  = if host == hook.(h_host) then Some (default [] (btree_get m host) ++ [hook]) else btree_get m host.
Proof.
  unfold push_hook, btree_upsert. case_bool_decide as Hh.
  - rewrite Hh. apply btree_get_insert_eq.
  - by apply btree_get_insert_ne.
Qed.

(** The hooks compiled for a host. *)
Definition hooks_of (host : str) (compiled : list MitmHook) : list MitmHook :=
  retain (fun hook => host == hook.(h_host)) compiled.

Definition some_nonempty {A} (l : list A) : option (list A) := match l with [] => None | _ => Some l end.

Lemma compile_hooks_get hooks m m' :
  compile_hooks env resolve_env_var read_secret_file hooks m = Ok m' ->
  exists compiled, collect (compile_hook env resolve_env_var read_secret_file) hooks = Ok compiled
    /\ forall host, btree_get m host <> Some [] ->
         btree_get m' host = some_nonempty (default [] (btree_get m host) ++ hooks_of host compiled).
Proof.
  revert m. induction hooks as [|h hooks IH]; intros m; cbn [compile_hooks].
  { intros [= <-]. exists []. split; [done|]. intros host Hne. cbn. rewrite app_nil_r.
    by destruct (btree_get m host) as [[|]|]. }
  destruct (compile_hook env resolve_env_var read_secret_file h) as [c|] eqn:E; [|done]. intros Hc.
  destruct (IH _ Hc) as (compiled & Hcol & Hget). exists (c :: compiled). split; [cbn [collect]; by rewrite E, Hcol|].
  intros host Hne. rewrite Hget; rewrite push_hook_get; unfold hooks_of; cbn [retain]; case_bool_decide; try done.
  - cbn [from_option id]. by rewrite <- app_assoc.
  - by destruct (from_option id [] (btree_get m host)).
Qed.

Lemma first_match_of name compiled req :
  match first_match (hooks_of name compiled) req with
  | NoHooksForHost => False
  | Matched a => exists before hook after, compiled = before ++ hook :: after
      /\ hook.(h_host) = name /\ hook_matches hook req = true /\ a = hook.(h_actions)
      /\ Forall (fun h => h.(h_host) = name -> hook_matches h req = false) before
  | HookedHostNoMatch => Forall (fun h => h.(h_host) = name -> hook_matches h req = false) compiled
  end.
Proof.
  unfold hooks_of. induction compiled as [|h compiled IH]; cbn [retain first_match]; [constructor|].
  assert ((h_host h = name -> hook_matches h req = false) ->
    match first_match (retain (fun hook => name == h_host hook) compiled) req with
    | NoHooksForHost => False
    | Matched a => exists before hook after, h :: compiled = before ++ hook :: after
        /\ hook.(h_host) = name /\ hook_matches hook req = true /\ a = hook.(h_actions)
        /\ Forall (fun h => h.(h_host) = name -> hook_matches h req = false) before
    | HookedHostNoMatch => Forall (fun h => h.(h_host) = name -> hook_matches h req = false) (h :: compiled)
    end) as Hskip.
  { intros Hh. destruct (first_match _ req); [done| |by constructor].
    destruct IH as (before & hook & after & -> & H1 & H2 & H3 & H4). exists (h :: before), hook, after.
    split_and!; try done. by constructor. }
  case_bool_decide as Hn; [|by apply Hskip]. cbn [first_match]. destruct (hook_matches h req) eqn:E; [|by apply Hskip].
  exists [], h, compiled. split_and!; try done.
Qed.

(** Requests to a host without hooks are untouched; a request to a hooked host gets
    the actions of the first hook of that host, in the order of the configuration,
    that it matches, and is refused when it matches none. *)
Theorem evaluate_hooks_spec config hooks_by_host :
  compile_mitm_hooks_with_resolvers env resolve_env_var read_secret_file config = Ok hooks_by_host ->
  exists compiled,
    Forall2 (fun cfg hook => compile_hook env resolve_env_var read_secret_file cfg = Ok hook) config.(network).(mitm_hooks) compiled
    /\ forall host req,
         match evaluate_mitm_hooks hooks_by_host host req with
         | NoHooksForHost => Forall (fun hook => hook.(h_host) <> normalize_host host) compiled
         | Matched a => exists before hook after, compiled = before ++ hook :: after
             /\ hook.(h_host) = normalize_host host /\ hook_matches hook req = true /\ a = hook.(h_actions)
             /\ Forall (fun h => h.(h_host) = normalize_host host -> hook_matches h req = false) before
         | HookedHostNoMatch =>
             Exists (fun hook => hook.(h_host) = normalize_host host) compiled
             /\ Forall (fun h => h.(h_host) = normalize_host host -> hook_matches h req = false) compiled
         end.
Proof.
  unfold compile_mitm_hooks_with_resolvers. destruct (validate_mitm_hook_config env config); [|done]. intros Hc.
  destruct (compile_hooks_get _ _ _ Hc) as (compiled & Hcol & Hget). exists compiled. split; [by apply collect_Ok|].
  intros host req. unfold evaluate_mitm_hooks. rewrite Hget by done. cbn [btree_get from_option id app].
  pose proof (first_match_of (normalize_host host) compiled req) as Hm.
  destruct (hooks_of (normalize_host host) compiled) as [|h hs] eqn:E; cbn [some_nonempty].
  - apply Forall_forall. intros h Hin Hh. apply (not_elem_of_nil h). rewrite <- E. apply elem_of_retain.
    by rewrite bool_decide_eq_true.
  - destruct (first_match (h :: hs) req); [done|done|]. split; [|done].
    assert (h ∈ hooks_of (normalize_host host) compiled) as Hin by (rewrite E; by left).
    apply elem_of_retain in Hin as [Hn%bool_decide_eq_true_1 Hin]. apply Exists_exists. by exists h.
Qed.
End compiled_hooks.

(** A compiled hook is never unconditional: it names at least one method and one
    path, and its host has no wildcard. *)
Lemma compiled_hook_guarded env res rd config hook :
  is_ok (validate_hook env config) = true -> compile_hook env res rd config = Ok hook ->
  hook.(h_host) = normalize_host config.(hook_host) /\ hook.(h_host) <> [] /\ (42%N ∉ hook.(h_host))
  /\ hook.(h_matcher).(m_methods) <> [] /\ hook.(h_matcher).(m_path_prefixes) <> [].
Proof.
  intros (_ & _ & Hm & _ & Hp & _)%validate_hook_ok. unfold compile_hook.
  destruct (normalize_hook_host _) as [host|] eqn:Eh; [|done].
  destruct (normalize_methods _) as [ms|] eqn:Em; [|done]. destruct (compile_path_matchers _) as [ps|] eqn:Ep; [|done].
  destruct (collect compile_query _); [|done]. destruct (collect compile_header _); [|done].
  destruct (collect parse_header_name _); [|done]. destruct (collect (compile_injected_header _ _ _) _); [|done].
  intros [= <-]. cbn. apply collect_nil in Em, Ep. revert Eh. unfold normalize_hook_host. case_bool_decide; [done|].
  destruct (contains_char _ _) eqn:Ec; [done|]. intros [= <-]. rewrite contains_char_false in Ec. naive_solver.
Qed.
End mitm.

(** * A small instance *)

Definition sample_http : HttpLib := {|
  HeaderName := str;
  header_name_eq_dec := _;
  HeaderValue := str;
  header_name_from_bytes name := if name == [] then None else Some (to_ascii_lowercase name);
  header_value_from_str := Some;
  header_value_to_str := Some;
  GlobMatcher := str;
  glob_build pattern _ := Some pattern;
  matcher_is_match := wild_match;
  form_urlencoded_parse _ := [];
|}.

Definition sample_hook : MitmHookConfig := {|
  hook_host := lit "API.example.com:443";
  matcher := {| methods := [lit "get"]; path_prefixes := [lit "/v1/"]; query := []; headers := []; body := None |};
  actions := {| strip_request_headers := [lit "Authorization"]; inject_request_headers := [] |};
|}.

Definition hooked_config : NetworkProxyConfig :=
  {| network := {| enabled := true; proxy_url := default_proxy_url; enable_socks5 := true; socks_url := default_socks_url;
       enable_socks5_udp := true; allow_upstream_proxy := true; dangerously_allow_non_loopback_proxy := false;
       dangerously_allow_all_unix_sockets := false; mode := Full; domains := None; unix_sockets := None;
       allow_local_binding := false; mitm := true; credential_broker := false;
       dangerously_allow_plaintext_credential_injection := false; mitm_hooks := [sample_hook] |} |}.

Definition sample_proxy_env : Env := {| home_dir := None; current_dir := Some [RootDir] |}.

(** A hook for [API.example.com:443] applies to the normalised host and to matching
    requests only. *)
Lemma evaluate_hooks_spec_witness :
  exists hooks_by_host compiled,
    @compile_mitm_hooks_with_resolvers sample_http sample_proxy_env (fun _ => None) (fun _ => Err EmptyGlob) hooked_config = Ok hooks_by_host
    /\ Forall2 (fun cfg hook => @compile_hook sample_http sample_proxy_env (fun _ => None) (fun _ => Err EmptyGlob) cfg = Ok hook)
         [sample_hook] compiled
    /\ @evaluate_mitm_hooks sample_http hooks_by_host (lit "api.example.com")
         {| req_method := lit "GET"; req_path := lit "/v1/x"; req_query := None; req_headers := [] |}
       = Matched {| a_strip_request_headers := [lit "authorization" : @HeaderName sample_http]; a_inject_request_headers := [] |}
    /\ @evaluate_mitm_hooks sample_http hooks_by_host (lit "api.example.com")
         {| req_method := lit "POST"; req_path := lit "/v1/x"; req_query := None; req_headers := [] |} = HookedHostNoMatch
    /\ @evaluate_mitm_hooks sample_http hooks_by_host (lit "example.com")
         {| req_method := lit "GET"; req_path := lit "/v1/x"; req_query := None; req_headers := [] |} = NoHooksForHost.
Proof.
  pose proof (@evaluate_hooks_spec sample_http sample_proxy_env (fun _ => None) (fun _ => Err EmptyGlob) hooked_config) as Hs.
  destruct (compile_mitm_hooks_with_resolvers sample_proxy_env (fun _ => None) (fun _ => Err EmptyGlob) hooked_config)
    as [hooks|] eqn:E; [|vm_compute in E; discriminate].
  destruct (Hs hooks eq_refl) as (compiled & Hc & _). exists hooks, compiled.
  split; [reflexivity|]. split; [exact Hc|]. vm_compute in E. injection E as <-. repeat split.
Defined.
