(* ===== verification/NetworkConstraints.v ===== *)
(** [network-proxy/src/state.rs]: the managed constraints on a proxy configuration,
    and the compiled state of a configuration.

    Of a constraint error only the field is kept, not the wording.  [MitmState::new]
    loads certificates: its result is a parameter, like the process environment and
    the [url] crate ([ProxyLib]). *)

From stdpp Require Import base list option numbers strings sets.
From Stdlib Require Import NArith ZArith Lia.
From S2P Require Import Prelude RustStr AbsolutePath NetworkHost NetworkConfig MitmHook.
Local Open Scope rust_scope.

Class ProxyLib := {
  proxy_globs : Globs;
  proxy_http : HttpLib;
  proxy_env : Env;
  url_host_parse : str -> option str;
  env_var : str -> option str;
  read_to_string : AbsolutePathBuf -> option str;
  MitmState : Type;
  mitm_state_new : bool -> bool -> option MitmState;
}.
#[global] Existing Instance proxy_globs.
#[global] Existing Instance proxy_http.

(** * Data *)

Record NetworkProxyConstraints := {
  c_enabled : option bool;
  c_mode : option NetworkMode;
  c_allow_upstream_proxy : option bool;
  c_dangerously_allow_non_loopback_proxy : option bool;
  c_dangerously_allow_all_unix_sockets : option bool;
  c_allowed_domains : option (list str);
  c_allowlist_expansion_enabled : option bool;
  c_denied_domains : option (list str);
  c_denylist_expansion_enabled : option bool;
  c_allow_unix_sockets : option (list str);
  c_allow_local_binding : option bool;
}.

#[global] Instance NetworkProxyConstraints_eq_dec : EqDecision NetworkProxyConstraints.
Proof. solve_decision. Defined.

Definition default_constraints : NetworkProxyConstraints := {|
  c_enabled := None; c_mode := None; c_allow_upstream_proxy := None; c_dangerously_allow_non_loopback_proxy := None;
  c_dangerously_allow_all_unix_sockets := None; c_allowed_domains := None; c_allowlist_expansion_enabled := None;
  c_denied_domains := None; c_denylist_expansion_enabled := None; c_allow_unix_sockets := None;
  c_allow_local_binding := None;
|}.

Record BlockedRequest := {
  b_host : str;
  b_reason : str;
  b_client : option str;
  b_method : option str;
  b_mode : option NetworkMode;
  b_protocol : str;
  b_decision : option str;
  b_source : option str;
  b_port : option N;
  b_timestamp : Z;
}.

Inductive NetworkProxyConstraintError : Set := InvalidValue (field_name : str).

Inductive BuildError : Set :=
| InvalidSockets (e : NetworkConfigError)
| BrokerRequiresMitm
| DeniedGlobalWildcard (e : NetworkProxyConstraintError)
| InvalidPatterns (e : CompileError)
| InvalidHooks (e : HookError)
| MitmUnavailable.

(** * Sets of lower-cased entries *)

Definition lower_set (l : list str) : list str := to_ascii_lowercase <$> l.
Definition mem (x : str) (set : list str) : bool := existsb (fun y => y == x) set.
Definition subset (a b : list str) : bool := forallb (fun x => mem x b) a.
Definition set_eq (a b : list str) : bool := subset a b && subset b a.
Definition difference (a b : list str) : list str := retain (fun x => negb (mem x b)) a.

Lemma mem_spec x set : mem x set = true <-> x ∈ set.
Proof.
  unfold mem. rewrite existsb_exists. setoid_rewrite bool_decide_eq_true. setoid_rewrite <- list_elem_of_In. naive_solver.
Qed.

Lemma subset_spec a b : subset a b = true <-> forall x, x ∈ a -> x ∈ b.
Proof.
  unfold subset. rewrite forallb_forall. setoid_rewrite mem_spec. setoid_rewrite <- list_elem_of_In. done.
Qed.

Lemma set_eq_spec a b : set_eq a b = true <-> forall x, x ∈ a <-> x ∈ b.
Proof. unfold set_eq. rewrite andb_true_iff, !subset_spec. naive_solver. Qed.

Lemma difference_spec a b x : x ∈ difference a b <-> x ∈ a /\ x ∉ b.
Proof. unfold difference. rewrite elem_of_retain, negb_true_iff, <- not_true_iff_false, mem_spec. tauto. Qed.

(** * Validation *)

Definition network_mode_rank (mode : NetworkMode) : nat := match mode with Limited => 0 | Full => 1 end.

Definition ensure (condition : bool) (field_name : str) : result unit NetworkProxyConstraintError :=
  if condition then Ok tt else Err (InvalidValue field_name).

Section proxy.
Context `{ProxyLib}.

Record ConfigState := {
  config : NetworkProxyConfig;
  allow_set : GlobSet;
  deny_set : GlobSet;
  mitm_state : option MitmState;
  compiled_hooks : MitmHooksByHost;
  constraints : NetworkProxyConstraints;
  blocked : list BlockedRequest;
  blocked_total : N;
}.

Definition validate_non_global_wildcard_domain_patterns (field_name : str) (patterns : list str) :
    result unit NetworkProxyConstraintError :=
  ensure (negb (existsb is_global_wildcard_domain_pattern patterns)) field_name.

Definition parse_constraint_pattern (entry : str) : DomainPattern := parse_for_constraints url_host_parse entry.

Definition validate_allowed_domains (c : NetworkProxyConstraints) (allowed denied_overrides : list str) :
    result unit NetworkProxyConstraintError :=
  match c.(c_allowed_domains) with
  | None => Ok tt
  | Some managed =>
      let? _ := validate_non_global_wildcard_domain_patterns (lit "network.allowed_domains") managed in
      let required_set := lower_set managed in
      let candidate_set := lower_set allowed in
      match c.(c_allowlist_expansion_enabled) with
      | Some true =>
          let missing := retain (fun entry => negb (mem entry candidate_set) && negb (mem entry denied_overrides)) required_set in
          ensure (missing == []) (lit "network.allowed_domains")
      | Some false =>
          ensure (set_eq candidate_set (difference required_set denied_overrides)) (lit "network.allowed_domains")
      | None =>
          let managed_patterns := parse_constraint_pattern <$> managed in
          let invalid := retain (fun entry =>
            negb (existsb (fun m => pattern_allows m (parse_constraint_pattern entry)) managed_patterns)) allowed in
          ensure (invalid == []) (lit "network.allowed_domains")
      end
  end.

Definition validate_denied_domains (c : NetworkProxyConstraints) (denied : list str) :
    result unit NetworkProxyConstraintError :=
  match c.(c_denied_domains) with
  | None => Ok tt
  | Some managed =>
      let? _ := validate_non_global_wildcard_domain_patterns (lit "network.denied_domains") managed in
      let required_set := lower_set managed in
      let candidate_set := lower_set denied in
      match c.(c_denylist_expansion_enabled) with
      | Some false => ensure (set_eq candidate_set required_set) (lit "network.denied_domains")
      | Some true | None =>
          let missing := retain (fun entry => negb (mem entry candidate_set)) required_set in
          ensure (missing == []) (lit "network.denied_domains")
      end
  end.

Definition validate_allow_unix_sockets (c : NetworkProxyConstraints) (sockets : list str) :
    result unit NetworkProxyConstraintError :=
  match c.(c_allow_unix_sockets) with
  | None => Ok tt
  | Some managed =>
      let invalid := retain (fun entry => negb (mem (to_ascii_lowercase entry) (lower_set managed))) sockets in
      ensure (invalid == []) (lit "network.allow_unix_sockets")
  end.

Definition validate_policy_against_constraints (cfg : NetworkProxyConfig) (c : NetworkProxyConstraints) :
    result unit NetworkProxyConstraintError :=
  let net := cfg.(network) in
  let config_allowed_domains := default [] (allowed_domains net) in
  let config_denied_domains := default [] (denied_domains net) in
  let denied_domain_overrides := lower_set config_denied_domains in
  let? _ := map_err (fun _ => InvalidValue (lit "network.mitm_hooks")) (validate_mitm_hook_config proxy_env cfg) in
  let? _ := validate_non_global_wildcard_domain_patterns (lit "network.denied_domains") config_denied_domains in
  let? _ := match c.(c_enabled) with
            | Some max_enabled => ensure (negb (net.(enabled) && negb max_enabled)) (lit "network.enabled")
            | None => Ok tt
            end in
  let? _ := match c.(c_mode) with
            | Some max_mode => ensure (negb (network_mode_rank max_mode <? network_mode_rank net.(mode))) (lit "network.mode")
            | None => Ok tt
            end in
  let? _ := match c.(c_allow_upstream_proxy) with
            | Some true | None => Ok tt
            | Some false => ensure (negb net.(allow_upstream_proxy)) (lit "network.allow_upstream_proxy")
            end in
  let? _ := match c.(c_dangerously_allow_non_loopback_proxy) with
            | Some true | None => Ok tt
            | Some false => ensure (negb net.(dangerously_allow_non_loopback_proxy))
                              (lit "network.dangerously_allow_non_loopback_proxy")
            end in
  let allow_all_unix_sockets :=
    default (negb (is_some c.(c_allow_unix_sockets))) c.(c_dangerously_allow_all_unix_sockets) in
  let? _ := ensure (negb (net.(dangerously_allow_all_unix_sockets) && negb allow_all_unix_sockets))
              (lit "network.dangerously_allow_all_unix_sockets") in
  let? _ := match c.(c_allow_local_binding) with
            | Some allow => ensure (negb (net.(allow_local_binding) && negb allow)) (lit "network.allow_local_binding")
            | None => Ok tt
            end in
  let? _ := validate_allowed_domains c config_allowed_domains denied_domain_overrides in
  let? _ := validate_denied_domains c config_denied_domains in
  validate_allow_unix_sockets c (allow_unix_sockets net).

(** * Building *)

Definition build_config_state (cfg : NetworkProxyConfig) (c : NetworkProxyConstraints) : result ConfigState BuildError :=
  let net := cfg.(network) in
  let? _ := map_err InvalidSockets (validate_unix_socket_allowlist_paths proxy_env cfg) in
  if negb (negb net.(credential_broker) || net.(mitm)) then Err BrokerRequiresMitm
  else
    let allowed := default [] (allowed_domains net) in
    let denied := default [] (denied_domains net) in
    let? _ := map_err DeniedGlobalWildcard (validate_non_global_wildcard_domain_patterns (lit "network.denied_domains") denied) in
    let? deny_set := map_err InvalidPatterns (compile_denylist_globset denied) in
    let? allow_set := map_err InvalidPatterns (compile_allowlist_globset allowed) in
    let? hooks := map_err InvalidHooks (compile_mitm_hooks proxy_env env_var read_to_string cfg) in
    let? mitm := if net.(mitm) then
                   match mitm_state_new net.(allow_upstream_proxy) net.(allow_local_binding) with
                   | Some m => Ok (Some m)
                   | None => Err MitmUnavailable
                   end
                 else Ok None in
    Ok {| config := cfg; allow_set := allow_set; deny_set := deny_set; mitm_state := mitm; compiled_hooks := hooks;
          constraints := c; blocked := []; blocked_total := 0%N |}.

(** * What validation establishes *)

(** [max] allows [value]: a flag is off, or not forced off. *)
Definition flag_within (max : option bool) (value : bool) : Prop := max = Some false -> value = false.

(** The allowed patterns stay within the managed ones. *)
Definition allowed_within (c : NetworkProxyConstraints) (allowed denied : list str) (managed : list str) : Prop :=
  Forall (fun p => is_global_wildcard_domain_pattern p = false) managed
  /\ match c.(c_allowlist_expansion_enabled) with
     | Some true => forall p, p ∈ lower_set managed -> p ∈ lower_set allowed \/ p ∈ lower_set denied
     | Some false => forall p, p ∈ lower_set allowed <-> p ∈ lower_set managed /\ p ∉ lower_set denied
     | None => forall p, p ∈ allowed ->
                 exists m, m ∈ managed /\ pattern_allows (parse_constraint_pattern m) (parse_constraint_pattern p) = true
     end.

Definition denied_within (c : NetworkProxyConstraints) (denied managed : list str) : Prop :=
  Forall (fun p => is_global_wildcard_domain_pattern p = false) managed
  /\ (forall p, p ∈ lower_set managed -> p ∈ lower_set denied)
  /\ (c.(c_denylist_expansion_enabled) = Some false -> forall p, p ∈ lower_set denied -> p ∈ lower_set managed).

Record within_constraints (cfg : NetworkProxyConfig) (c : NetworkProxyConstraints) : Prop := {
  within_hooks : is_ok (validate_mitm_hook_config proxy_env cfg) = true;
  within_denied_patterns :
    Forall (fun p => is_global_wildcard_domain_pattern p = false) (default [] (denied_domains cfg.(network)));
  within_enabled : flag_within c.(c_enabled) cfg.(network).(enabled);
  within_mode m : c.(c_mode) = Some m -> network_mode_rank cfg.(network).(mode) <= network_mode_rank m;
  within_upstream : flag_within c.(c_allow_upstream_proxy) cfg.(network).(allow_upstream_proxy);
  within_non_loopback :
    flag_within c.(c_dangerously_allow_non_loopback_proxy) cfg.(network).(dangerously_allow_non_loopback_proxy);
  within_all_sockets :
    flag_within (Some (default (negb (is_some c.(c_allow_unix_sockets))) c.(c_dangerously_allow_all_unix_sockets)))
      cfg.(network).(dangerously_allow_all_unix_sockets);
  within_local_binding : flag_within c.(c_allow_local_binding) cfg.(network).(allow_local_binding);
  within_allowed managed : c.(c_allowed_domains) = Some managed ->
    allowed_within c (default [] (allowed_domains cfg.(network))) (default [] (denied_domains cfg.(network))) managed;
  within_denied managed : c.(c_denied_domains) = Some managed ->
    denied_within c (default [] (denied_domains cfg.(network))) managed;
  within_sockets managed : c.(c_allow_unix_sockets) = Some managed ->
    forall p, p ∈ allow_unix_sockets cfg.(network) -> to_ascii_lowercase p ∈ lower_set managed;
}.

Lemma ensure_ok b f : ensure b f = Ok tt <-> b = true.
Proof. by destruct b. Qed.

Lemma retain_nil {A} (p : A -> bool) l : retain p l = [] <-> forall x, x ∈ l -> p x = false.
Proof.
  split.
  - intros E x Hx. apply not_true_is_false. intros Hp. apply (not_elem_of_nil x). rewrite <- E. by apply elem_of_retain.
  - intros Hall. destruct (retain p l) as [|x k] eqn:E; [done|].
    assert (x ∈ retain p l) as [Hp Hx]%elem_of_retain by (rewrite E; by left). rewrite Hall in Hp; done.
Qed.

Lemma non_global_ok f ps :
  validate_non_global_wildcard_domain_patterns f ps = Ok tt
  <-> Forall (fun p => is_global_wildcard_domain_pattern p = false) ps.
Proof. unfold validate_non_global_wildcard_domain_patterns. by rewrite ensure_ok, negb_true_iff, existsb_false. Qed.

Lemma bind_ok {B E} (r : result unit E) (k : result B E) v : (let? _ := r in k) = Ok v <-> r = Ok tt /\ k = Ok v.
Proof. destruct r as [[]|]; naive_solver. Qed.

Lemma validate_allowed_ok c allowed denied :
  validate_allowed_domains c allowed (lower_set denied) = Ok tt
  <-> forall managed, c.(c_allowed_domains) = Some managed -> allowed_within c allowed denied managed.
Proof.
  unfold validate_allowed_domains, allowed_within. destruct (c_allowed_domains c) as [managed|]; [|naive_solver].
  rewrite bind_ok, non_global_ok.
  transitivity (Forall (fun p => is_global_wildcard_domain_pattern p = false) managed
    /\ match c.(c_allowlist_expansion_enabled) with
     | Some true => forall p, p ∈ lower_set managed -> p ∈ lower_set allowed \/ p ∈ lower_set denied
     | Some false => forall p, p ∈ lower_set allowed <-> p ∈ lower_set managed /\ p ∉ lower_set denied
     | None => forall p, p ∈ allowed ->
                 exists m, m ∈ managed /\ pattern_allows (parse_constraint_pattern m) (parse_constraint_pattern p) = true
     end); [|naive_solver].
  apply and_iff_compat_l. destruct (c_allowlist_expansion_enabled c) as [[]|]; rewrite ensure_ok.
  - rewrite bool_decide_eq_true, retain_nil. apply forall_proper. intros p.
    rewrite andb_false_iff, !negb_false_iff, !mem_spec. done.
  - rewrite set_eq_spec. by setoid_rewrite difference_spec.
  - rewrite bool_decide_eq_true, retain_nil. apply forall_proper. intros p.
    rewrite negb_false_iff, existsb_exists. setoid_rewrite <- list_elem_of_In. setoid_rewrite list_elem_of_fmap. naive_solver.
Qed.

Lemma validate_denied_ok c denied :
  validate_denied_domains c denied = Ok tt
  <-> forall managed, c.(c_denied_domains) = Some managed -> denied_within c denied managed.
Proof.
  unfold validate_denied_domains, denied_within. destruct (c_denied_domains c) as [managed|]; [|naive_solver].
  rewrite bind_ok, non_global_ok.
  assert (bool_decide (retain (fun entry => negb (mem entry (lower_set denied))) (lower_set managed) = []) = true
          <-> forall p, p ∈ lower_set managed -> p ∈ lower_set denied) as Hm.
  { rewrite bool_decide_eq_true, retain_nil. apply forall_proper. intros p. by rewrite negb_false_iff, mem_spec. }
  destruct (c_denylist_expansion_enabled c) as [[]|]; rewrite ensure_ok, ?set_eq_spec, ?Hm; naive_solver.
Qed.

Lemma validate_sockets_ok c sockets :
  validate_allow_unix_sockets c sockets = Ok tt
  <-> forall managed, c.(c_allow_unix_sockets) = Some managed -> forall p, p ∈ sockets -> to_ascii_lowercase p ∈ lower_set managed.
Proof.
  unfold validate_allow_unix_sockets. destruct (c_allow_unix_sockets c) as [managed|]; [|naive_solver].
  rewrite ensure_ok, bool_decide_eq_true, retain_nil. setoid_rewrite negb_false_iff. setoid_rewrite mem_spec. naive_solver.
Qed.

Lemma flag_ensure_ok (max value : bool) f : ensure (negb (value && negb max)) f = Ok tt <-> flag_within (Some max) value.
Proof. unfold flag_within. rewrite ensure_ok. destruct max, value; naive_solver. Qed.

(** Validation accepts a configuration exactly when every setting stays within its
    managed constraint. *)
Theorem validate_policy_iff cfg c :
  validate_policy_against_constraints cfg c = Ok tt <-> within_constraints cfg c.
Proof.
  unfold validate_policy_against_constraints. rewrite !bind_ok, validate_allowed_ok, validate_denied_ok, validate_sockets_ok,
    non_global_ok, flag_ensure_ok.
  assert (forall f, map_err f (validate_mitm_hook_config proxy_env cfg) = Ok tt :> result unit NetworkProxyConstraintError
    <-> is_ok (validate_mitm_hook_config proxy_env cfg) = true) as Hh
    by (intros f; by destruct (validate_mitm_hook_config proxy_env cfg) as [[]|]).
  rewrite Hh. clear Hh. split.
  - intros (? & ? & H1 & H2 & H3 & H4 & ? & H5 & ? & ? & ?). split; try done.
    + unfold flag_within. destruct (c_enabled c) as [[]|]; [done| |done]. by apply flag_ensure_ok in H1.
    + intros m Hm. rewrite Hm, ensure_ok, negb_true_iff, Nat.ltb_ge in H2. done.
    + unfold flag_within. destruct (c_allow_upstream_proxy c) as [[]|]; [done| |done]. by apply ensure_ok, negb_true_iff in H3.
    + unfold flag_within. destruct (c_dangerously_allow_non_loopback_proxy c) as [[]|]; [done| |done].
      by apply ensure_ok, negb_true_iff in H4.
    + unfold flag_within. destruct (c_allow_local_binding c) as [[]|]; [done| |done]. by apply flag_ensure_ok in H5.
  - intros []. split_and!; try done.
    + destruct (c_enabled c) as [b|]; [by apply flag_ensure_ok|done].
    + destruct (c_mode c) as [m|]; [|done]. rewrite ensure_ok, negb_true_iff, Nat.ltb_ge. auto.
    + destruct (c_allow_upstream_proxy c) as [[]|]; [done| |done]. apply ensure_ok, negb_true_iff. auto.
    + destruct (c_dangerously_allow_non_loopback_proxy c) as [[]|]; [done| |done]. apply ensure_ok, negb_true_iff. auto.
    + destruct (c_allow_local_binding c) as [b|]; [by apply flag_ensure_ok|done].
Qed.

(** * What the compiled sets match *)

Context `{!GlobLaws}.

Definition kept_patterns (ps : list DomainPattern) : Prop := Forall (fun p => url_keeps url_host_parse (pattern_domain p)) ps.

Lemma kept_plain ps p : kept_patterns ps -> p ∈ ps -> plain_domain (pattern_domain p).
Proof. intros Hk Hp. eapply Forall_forall in Hk; [|done]. apply Hk. Qed.

Lemma build_config_state_sets cfg c st :
  build_config_state cfg c = Ok st ->
  st.(config) = cfg /\ st.(constraints) = c /\ st.(blocked) = [] /\ st.(blocked_total) = 0%N
  /\ compile_denylist_globset (default [] (denied_domains cfg.(network))) = Ok st.(deny_set)
  /\ compile_allowlist_globset (default [] (allowed_domains cfg.(network))) = Ok st.(allow_set).
Proof.
  unfold build_config_state. destruct (validate_unix_socket_allowlist_paths _ _); cbn [map_err]; [|done].
  destruct (negb _); [done|]. destruct (validate_non_global_wildcard_domain_patterns _ _); cbn [map_err]; [|done].
  destruct (compile_denylist_globset _); cbn [map_err]; [|done]. destruct (compile_allowlist_globset _); cbn [map_err]; [|done].
  destruct (compile_mitm_hooks _ _ _ _); cbn [map_err]; [|done].
  destruct (mitm _); [destruct (mitm_state_new _ _); [|done]|]; by intros [= <-].
Qed.

Lemma kept_all_plain ps : kept_patterns ps -> Forall (fun p => plain_domain (pattern_domain p)) ps.
Proof. intros Hk. eapply Forall_impl; [exact Hk|]. by intros p [? _]. Qed.

Lemma lower_set_render ps x : x ∈ lower_set (render_pattern <$> ps) <-> exists p, p ∈ ps /\ x = to_ascii_lowercase (render_pattern p).
Proof. unfold lower_set. rewrite list_elem_of_fmap. setoid_rewrite list_elem_of_fmap. naive_solver. Qed.

(** Without expansion, an allowed pattern stands only for hosts of the managed ones. *)
Lemma allowed_within_hosts c allowed denied managed host :
  kept_patterns managed -> kept_patterns allowed -> c.(c_allowlist_expansion_enabled) <> Some true ->
  allowed_within c (render_pattern <$> allowed) denied (render_pattern <$> managed) ->
  Exists (fun p => pattern_matches p host) allowed -> Exists (fun p => pattern_matches p host) managed.
Proof.
  intros Hm Ha Hx [_ Hw] (p & Hp & Hmatch)%Exists_exists. apply Exists_exists.
  destruct (c_allowlist_expansion_enabled c) as [[]|]; [done| |].
  - assert (to_ascii_lowercase (render_pattern p) ∈ lower_set (render_pattern <$> allowed)) as Hin
      by (apply lower_set_render; eauto).
    apply Hw in Hin as [(q & Hq & E)%lower_set_render _]. exists q. split; [done|].
    apply (same_lower_matches p q host (kept_plain _ _ Ha Hp) (kept_plain _ _ Hm Hq) E). exact Hmatch.
  - destruct (Hw (render_pattern p)) as (m & (q & -> & Hq)%list_elem_of_fmap & Hal); [apply list_elem_of_fmap; eauto|].
    exists q. split; [done|]. unfold parse_constraint_pattern in Hal.
    pose proof (kept_plain _ _ Hm Hq) as Hqp. pose proof (kept_plain _ _ Ha Hp) as Hpp.
    unfold kept_patterns in *. rewrite Forall_forall in Hm, Ha. rewrite !parse_for_constraints_render in Hal by auto.
    apply lower_pattern_matches. eapply pattern_allows_iff; [by apply lower_pattern_plain..|exact Hal|].
    by apply lower_pattern_matches.
Qed.

(** A managed denied pattern keeps denying its hosts. *)
Lemma denied_within_hosts c denied managed host :
  kept_patterns managed -> kept_patterns denied -> denied_within c (render_pattern <$> denied) (render_pattern <$> managed) ->
  Exists (fun p => pattern_matches p host) managed -> Exists (fun p => pattern_matches p host) denied.
Proof.
  intros Hm Hd (_ & Hw & _) (p & Hp & Hmatch)%Exists_exists. apply Exists_exists.
  destruct (proj1 (lower_set_render denied (to_ascii_lowercase (render_pattern p)))) as (q & Hq & E);
    [apply Hw, lower_set_render; eauto|]. exists q. split; [done|].
  apply (same_lower_matches p q host (kept_plain _ _ Hm Hp) (kept_plain _ _ Hd Hq) E). exact Hmatch.
Qed.
End proxy.

(** * A small instance *)

Definition sample_lib : ProxyLib := {|
  proxy_globs := wild_globs;
  proxy_http := sample_http;
  proxy_env := sample_proxy_env;
  url_host_parse d := Some (to_ascii_lowercase d);
  env_var _ := None;
  read_to_string _ := None;
  MitmState := unit;
  mitm_state_new _ _ := Some tt;
|}.

Definition config_of (allowed denied : list str) : NetworkProxyConfig :=
  {| network := set_denied_domains (set_allowed_domains default_settings allowed) denied |}.

Definition managed_domains (allowed denied : list str) : NetworkProxyConstraints :=
  {| c_enabled := None; c_mode := None; c_allow_upstream_proxy := None; c_dangerously_allow_non_loopback_proxy := None;
     c_dangerously_allow_all_unix_sockets := None; c_allowed_domains := Some allowed; c_allowlist_expansion_enabled := None;
     c_denied_domains := Some denied; c_denylist_expansion_enabled := None; c_allow_unix_sockets := None;
     c_allow_local_binding := None |}.

Definition EXAMPLE : str := lit "example.com".

Lemma plain_by_compute d :
  negb (d == []) && forallb plain_char d && (head d != Some DOT) && (last d != Some DOT) = true -> plain_domain d.
Proof.
  rewrite !andb_true_iff, !negb_true_iff, !bool_decide_eq_false, forallb_forall. intros [[[H1 H2] H3] H4].
  split_and!; try done. apply Forall_forall. intros c Hc%list_elem_of_In. by apply H2.
Qed.

(** The managed allow list is checked on the pattern as it is written, the compiled
    pattern is the normalised one.  An entry whose text ends in a managed domain but
    whose normal form does not is accepted: here [evil.com:*.example.com], which
    compiles to [evil.com], passes the constraint [**.example.com]. *)
Theorem constraint_escape :
  let cfg := config_of [lit "evil.com:*.example.com"] [] in
  let c := managed_domains [lit "**.example.com"] [] in
  @validate_policy_against_constraints sample_lib cfg c = Ok tt
  /\ exists st, @build_config_state sample_lib cfg c = Ok st
     /\ @set_is_match wild_globs st.(allow_set) (lit "evil.com") = true
     /\ ~ pattern_matches (ApexAndSubdomains EXAMPLE) (lit "evil.com").
Proof.
  split; [vm_compute; reflexivity|]. eexists. split; [vm_compute; reflexivity|]. split; [vm_compute; reflexivity|].
  intros [E|(pre & _ & E)]; [done|]. apply (f_equal length) in E. rewrite length_app in E. cbn in E. lia.
Qed.
