(* ===== verification/NetworkRuntime.v ===== *)
(** [network-proxy/src/runtime.rs], [network_policy.rs], [connect_policy.rs]: the
    running proxy's policy state and its decisions.

    The state is shared behind a lock.  An operation that takes the lock once is a
    function on [ConfigState]; one that reads, computes and then writes is split
    where the lock is released ([*_read], [*_commit]), so that interleavings can be
    stated ([ProxyStep]).  Every operation starts with [reload_if_needed]; what the
    reloader answers is an argument.  DNS lookups are a function from host and port
    to addresses, [None] for an error or a timeout. *)

From stdpp Require Import base list option numbers strings sets.
From Stdlib Require Import NArith ZArith Lia Relations.
From S2P Require Import Prelude RustStr AbsolutePath NetworkHost NetworkConfig MitmHook NetworkConstraints.
Local Open Scope rust_scope.

Definition MAX_BLOCKED_EVENTS : nat := 200.
Definition U64_MAX : N := (2 ^ 64 - 1)%N.

Definition REASON_DENIED : str := lit "denied".
Definition REASON_NOT_ALLOWED : str := lit "not_allowed".
Definition REASON_NOT_ALLOWED_LOCAL : str := lit "not_allowed_local".
Definition REASON_POLICY_DENIED : str := lit "policy_denied".

Inductive HostBlockReason : Set := Denied | NotAllowed | NotAllowedLocal.

Definition reason_str (self : HostBlockReason) : str :=
  match self with
  | Denied => REASON_DENIED
  | NotAllowed => REASON_NOT_ALLOWED
  | NotAllowedLocal => REASON_NOT_ALLOWED_LOCAL
  end.

Inductive HostBlockDecision : Set := Allowed | Blocked (reason : HostBlockReason).

Inductive DomainListKind : Set := AllowList | DenyList.

Definition list_permission (self : DomainListKind) : NetworkDomainPermission :=
  match self with AllowList => PermAllow | DenyList => PermDeny end.

Definition list_entries (self : DomainListKind) (network : NetworkProxySettings) : list str :=
  match self with
  | AllowList => default [] (allowed_domains network)
  | DenyList => default [] (denied_domains network)
  end.

Definition opposite_entries (self : DomainListKind) (network : NetworkProxySettings) : list str :=
  match self with
  | AllowList => default [] (denied_domains network)
  | DenyList => default [] (allowed_domains network)
  end.

(** [cfg!(target_os = "macos")]. *)
Inductive TargetOs : Set := MacOs | OtherOs.
Definition unix_socket_permissions_supported (os : TargetOs) : bool := match os with MacOs => true | OtherOs => false end.

Inductive ProxyError : Set :=
| ReloadFailed
| BrokerEnablementChanged
| InvalidNetworkHost
| Constrained (e : NetworkProxyConstraintError)
| BuildFailed (e : BuildError).

(** * Host decisions *)

(** [host_resolves_to_non_public_ip]: a failed lookup counts as non-public. *)
Definition host_resolves_to_non_public_ip (lookup : str -> N -> option (list IpAddr)) (host : str) (port : N) : bool :=
  match parse_ip host with
  | Some ip => is_non_public_ip ip
  | None =>
      match lookup host port with
      | Some addrs => existsb is_non_public_ip addrs
      | None => true
      end
  end.

Definition is_explicit_local_allowlisted (allowed_domains : list str) (host : str) : bool :=
  let unscoped_host := unscoped_ip_literal host in
  existsb (fun pattern =>
    let pattern := trim pattern in
    if (pattern == lit "*") || starts_with (lit "*.") pattern || starts_with (lit "**.") pattern then false
    else if contains_char 42 pattern || contains_char 63 pattern then false
    else
      let normalized_pattern := normalize_host pattern in
      (normalized_pattern == host) || is_some_and (fun ip => normalized_pattern == ip) unscoped_host) allowed_domains.

Section runtime.
Context `{ProxyLib}.

Definition globset_matches_host_or_unscoped (set : GlobSet) (host : str) : bool :=
  set_is_match set host || is_some_and (set_is_match set) (unscoped_ip_literal host).

Definition is_local_literal (host : str) : bool :=
  let host_no_scope := default host (unscoped_ip_literal host) in
  if is_loopback_host host then true
  else match parse_ip host_no_scope with Some ip => is_non_public_ip ip | None => false end.

(** [host_blocked], after the reload. *)
Definition host_blocked (st : ConfigState) (lookup : str -> N -> option (list IpAddr)) (host : str) (port : N) :
    HostBlockDecision :=
  match host_parse host with
  | None => Blocked NotAllowed
  | Some host =>
      let allowed := allowed_domains st.(config).(network) in
      let allowed_domains_empty := negb (is_some allowed) in
      if globset_matches_host_or_unscoped st.(deny_set) host then Blocked Denied
      else
        let is_allowlisted := globset_matches_host_or_unscoped st.(allow_set) host in
        let local_block :=
          if st.(config).(network).(allow_local_binding) then false
          else if is_local_literal host then negb (is_explicit_local_allowlisted (default [] allowed) host)
          else host_resolves_to_non_public_ip lookup host port in
        if local_block then Blocked NotAllowedLocal
        else if allowed_domains_empty || negb is_allowlisted then Blocked NotAllowed
        else Allowed
  end.

(** * Blocked requests *)

Definition set_blocked (b : list BlockedRequest) (total : N) (st : ConfigState) : ConfigState :=
  {| config := st.(config); allow_set := st.(allow_set); deny_set := st.(deny_set); mitm_state := st.(mitm_state);
     compiled_hooks := st.(compiled_hooks); constraints := st.(constraints); blocked := b; blocked_total := total |}.

(** [while len > MAX { pop_front }]. *)
Fixpoint pop_excess (max : nat) (l : list BlockedRequest) : list BlockedRequest :=
  match l with
  | [] => []
  | _ :: l' => if max <? length l then pop_excess max l' else l
  end.

Definition record_blocked (entry : BlockedRequest) (st : ConfigState) : ConfigState :=
  set_blocked (pop_excess MAX_BLOCKED_EVENTS (st.(blocked) ++ [entry])) (N.min U64_MAX (st.(blocked_total) + 1)) st.

Definition blocked_snapshot (st : ConfigState) : list BlockedRequest := st.(blocked).
Definition drain_blocked (st : ConfigState) : list BlockedRequest * ConfigState :=
  (st.(blocked), set_blocked [] st.(blocked_total) st).

(** * Reloading *)

(** [self.credential_broker.enabled()] does not change after construction. *)
Context (broker_enabled : bool).

Definition ensure_credential_broker_enablement_unchanged (new_state : ConfigState) : bool :=
  broker_enabled == new_state.(config).(network).(credential_broker).

(** What the reloader's [maybe_reload] answers. *)
Definition Reload : Type := result (option ConfigState) ProxyError.

Definition reload_read (st : ConfigState) : list BlockedRequest * N := (st.(blocked), st.(blocked_total)).
Definition reload_commit (new_state : ConfigState) (snapshot : list BlockedRequest * N) : ConfigState :=
  set_blocked snapshot.1 snapshot.2 new_state.

Definition reload_if_needed (reload : Reload) (st : ConfigState) : result ConfigState ProxyError :=
  match reload with
  | Err e => Err e
  | Ok None => Ok st
  | Ok (Some new_state) =>
      if ensure_credential_broker_enablement_unchanged new_state then Ok (reload_commit new_state (reload_read st))
      else Err BrokerEnablementChanged
  end.

Definition force_reload (reload_now : result ConfigState ProxyError) (st : ConfigState) : result ConfigState ProxyError :=
  match reload_now with
  | Ok new_state =>
      if ensure_credential_broker_enablement_unchanged new_state
      then Ok (set_blocked st.(blocked) new_state.(blocked_total) new_state)
      else Err BrokerEnablementChanged
  | Err e => Err e
  end.

(** [replace_config_state], after the reload. *)
Definition replace_config_state (new_state st : ConfigState) : result ConfigState ProxyError :=
  if ensure_credential_broker_enablement_unchanged new_state
  then Ok (set_blocked st.(blocked) st.(blocked_total) new_state)
  else Err BrokerEnablementChanged.

(** * Changing the mode *)

Definition config_with_mode (cfg : NetworkProxyConfig) (m : NetworkMode) : NetworkProxyConfig :=
  {| network := with_mode m cfg.(network) |}.

Definition set_mode (m : NetworkMode) (st : ConfigState) : ConfigState :=
  {| config := config_with_mode st.(config) m; allow_set := st.(allow_set); deny_set := st.(deny_set);
     mitm_state := st.(mitm_state); compiled_hooks := st.(compiled_hooks); constraints := st.(constraints);
     blocked := st.(blocked); blocked_total := st.(blocked_total) |}.

(** The part of the loop under the read lock, with the validation: the constraints
    the mode was validated against. *)
Definition mode_read (m : NetworkMode) (st : ConfigState) : result NetworkProxyConstraints ProxyError :=
  match validate_policy_against_constraints (config_with_mode st.(config) m) st.(constraints) with
  | Ok _ => Ok st.(constraints)
  | Err e => Err (Constrained e)
  end.

(** The part under the write lock: [None] is [continue]. *)
Definition mode_commit (m : NetworkMode) (c : NetworkProxyConstraints) (st : ConfigState) : option ConfigState :=
  if st.(constraints) == c then Some (set_mode m st) else None.

(** The loop of [set_network_mode]: [env i] is what the reloader answers in turn
    [i], and [interfere i] what other tasks do to the state between the read and
    the write of turn [i].  [None] is a loop that is still running. *)
Fixpoint set_network_mode (fuel : nat) (env : nat -> Reload) (interfere : nat -> ConfigState -> ConfigState) (i : nat)
    (m : NetworkMode) (st : ConfigState) : option (result unit ProxyError * ConfigState) :=
  match fuel with
  | O => None
  | S fuel =>
      match reload_if_needed (env i) st with
      | Err e => Some (Err e, st)
      | Ok st =>
          match mode_read m st with
          | Err e => Some (Err e, st)
          | Ok c =>
              let st := interfere i st in
              match mode_commit m c st with
              | Some st => Some (Ok tt, st)
              | None => set_network_mode fuel env interfere (S i) m st
              end
          end
      end
  end.

(** * Adding a domain *)

Inductive UpdateRead : Type :=
| AlreadyListed
| Candidate (previous_cfg : NetworkProxyConfig) (c : NetworkProxyConstraints) (new_state : ConfigState).

Definition update_read (normalized_host : str) (target : DomainListKind) (st : ConfigState) : result UpdateRead ProxyError :=
  let net := st.(config).(network) in
  let contains l := existsb (fun entry => normalize_host entry == normalized_host) l in
  if contains (list_entries target net) && negb (contains (opposite_entries target net)) then Ok AlreadyListed
  else
    let candidate := {| network := upsert_domain_permission net normalized_host (list_permission target) normalize_host |} in
    match validate_policy_against_constraints candidate st.(constraints) with
    | Err e => Err (Constrained e)
    | Ok _ =>
        match build_config_state candidate st.(constraints) with
        | Err e => Err (BuildFailed e)
        | Ok new_state => Ok (Candidate st.(config) st.(constraints) (set_blocked st.(blocked) st.(blocked_total) new_state))
        end
    end.

Definition update_commit (previous_cfg : NetworkProxyConfig) (c : NetworkProxyConstraints) (new_state st : ConfigState) :
    option ConfigState :=
  if negb (st.(constraints) == c) || negb (st.(config) == previous_cfg) then None else Some new_state.

(** The loop of [update_domain_list], with the same arguments. *)
Fixpoint update_loop (fuel : nat) (env : nat -> Reload) (interfere : nat -> ConfigState -> ConfigState) (i : nat)
    (host : str) (target : DomainListKind) (st : ConfigState) : option (result unit ProxyError * ConfigState) :=
  match fuel with
  | O => None
  | S fuel =>
      match reload_if_needed (env i) st with
      | Err e => Some (Err e, st)
      | Ok st =>
          match update_read host target st with
          | Err e => Some (Err e, st)
          | Ok AlreadyListed => Some (Ok tt, st)
          | Ok (Candidate previous_cfg c new_state) =>
              let st := interfere i st in
              match update_commit previous_cfg c new_state st with
              | Some st => Some (Ok tt, st)
              | None => update_loop fuel env interfere (S i) host target st
              end
          end
      end
  end.

Definition update_domain_list (fuel : nat) (env : nat -> Reload) (interfere : nat -> ConfigState -> ConfigState)
    (host : str) (target : DomainListKind) (st : ConfigState) : option (result unit ProxyError * ConfigState) :=
  match host_parse host with
  | None => Some (Err InvalidNetworkHost, st)
  | Some host => update_loop fuel env interfere 0 host target st
  end.

Definition add_allowed_domain fuel env interfere host st := update_domain_list fuel env interfere host AllowList st.
Definition add_denied_domain fuel env interfere host st := update_domain_list fuel env interfere host DenyList st.

(** * Reading the policy *)

Definition current_patterns (st : ConfigState) : list str * list str :=
  (default [] (allowed_domains st.(config).(network)), default [] (denied_domains st.(config).(network))).
Definition method_allowed (st : ConfigState) (method : str) : bool := allows_method st.(config).(network).(mode) method.

(** The allow-list loop of [is_unix_socket_allowed]. *)
Fixpoint socket_listed (env : Env) (canonicalize : AbsolutePathBuf -> option AbsolutePathBuf) (requested_abs : AbsolutePathBuf)
    (requested_canonical : option AbsolutePathBuf) (allow : list str) : bool :=
  match allow with
  | [] => false
  | allowed :: allow =>
      let continue_ := socket_listed env canonicalize requested_abs requested_canonical allow in
      match unix_socket_path_parse env allowed with
      | Ok (NativePath allowed_path) =>
          if bool_decide (allowed_path = requested_abs) then true
          else match requested_canonical with
               | None => continue_
               | Some requested_canonical =>
                   match canonicalize allowed_path with
                   | Some allowed_canonical => if bool_decide (allowed_canonical = requested_canonical) then true else continue_
                   | None => continue_
                   end
               end
      | Ok (UnixStyleAbsolute _) => continue_
      | Err _ => continue_
      end
  end.

Definition is_unix_socket_allowed (os : TargetOs) (canonicalize : AbsolutePathBuf -> option AbsolutePathBuf)
    (st : ConfigState) (path : str) : bool :=
  if negb (unix_socket_permissions_supported os) then false
  else if negb (is_absolute (components path)) then false
  else if st.(config).(network).(dangerously_allow_all_unix_sockets) then true
  else match from_absolute_path proxy_env path with
       | None => false
       | Some requested_abs =>
           socket_listed proxy_env canonicalize requested_abs (canonicalize requested_abs) (allow_unix_sockets st.(config).(network))
       end.

Inductive HostMitmRequirement : Set := MitmNone | MitmTls | MitmAlways.

Definition host_mitm_requirement (host_requires_mitm : str -> bool) (st : ConfigState) (host : str) : HostMitmRequirement :=
  let normalized_host := normalize_host host in
  if btree_contains_key st.(compiled_hooks) normalized_host then MitmAlways
  else if host_requires_mitm normalized_host then MitmTls
  else MitmNone.
End runtime.

(** * Decisions ([network_policy.rs]) *)

Inductive NetworkProtocol : Set := Http | HttpsConnect | Socks5Tcp | Socks5Udp.
Inductive NetworkPolicyDecision : Set := DecisionDeny | DecisionAsk.
Inductive NetworkDecisionSource : Set := BaselinePolicy | ModeGuard | ProxyState | Decider.

Definition decision_str (self : NetworkPolicyDecision) : str :=
  match self with DecisionDeny => lit "deny" | DecisionAsk => lit "ask" end.
Definition source_str (self : NetworkDecisionSource) : str :=
  match self with
  | BaselinePolicy => lit "baseline_policy"
  | ModeGuard => lit "mode_guard"
  | ProxyState => lit "proxy_state"
  | Decider => lit "decider"
  end.

Record NetworkPolicyRequest := {
  protocol : NetworkProtocol;
  nr_host : str;
  nr_port : N;
  environment_id : option str;
  client_addr : option str;
  method : option str;
  command : option str;
  exec_policy_hint : option str;
}.

Inductive NetworkDecision : Set :=
| NetAllow
| NetDeny (reason : str) (source : NetworkDecisionSource) (decision : NetworkPolicyDecision).

Definition reason_or_default (reason : str) : str := if reason == [] then REASON_POLICY_DENIED else reason.
Definition deny_with_source (reason : str) (source : NetworkDecisionSource) : NetworkDecision :=
  NetDeny (reason_or_default reason) source DecisionDeny.
Definition ask_with_source (reason : str) (source : NetworkDecisionSource) : NetworkDecision :=
  NetDeny (reason_or_default reason) source DecisionAsk.
Definition decision_deny (reason : str) : NetworkDecision := deny_with_source reason Decider.
Definition decision_ask (reason : str) : NetworkDecision := ask_with_source reason Decider.

Definition map_decider_decision (decision : NetworkDecision) : NetworkDecision :=
  match decision with
  | NetAllow => NetAllow
  | NetDeny reason _ decision => NetDeny reason Decider decision
  end.

(** The fields of the audit event that the decision determines. *)
Record PolicyAuditEvent := {
  audit_decision : str;
  audit_source : NetworkDecisionSource;
  audit_reason : str;
  policy_override : bool;
}.

Section decisions.
Context `{ProxyLib}.

(** [evaluate_host_policy], with the audit event it emits. *)
Definition evaluate_host_policy (st : ConfigState) (lookup : str -> N -> option (list IpAddr))
    (decider : option (NetworkPolicyRequest -> NetworkDecision)) (request : NetworkPolicyRequest) :
    NetworkDecision * PolicyAuditEvent :=
  let '(decision, override) :=
    match host_blocked st lookup request.(nr_host) request.(nr_port) with
    | Allowed => (NetAllow, false)
    | Blocked NotAllowed =>
        match decider with
        | Some decide =>
            let decider_decision := map_decider_decision (decide request) in
            (decider_decision, match decider_decision with NetAllow => true | _ => false end)
        | None => (deny_with_source (reason_str NotAllowed) BaselinePolicy, false)
        end
    | Blocked reason => (deny_with_source (reason_str reason) BaselinePolicy, false)
    end in
  (decision,
   match decision with
   | NetAllow =>
       {| audit_decision := lit "allow";
          audit_source := if override then Decider else BaselinePolicy;
          audit_reason := if override then reason_str NotAllowed else lit "allow";
          policy_override := override |}
   | NetDeny reason source decision =>
       {| audit_decision := decision_str decision; audit_source := source; audit_reason := reason; policy_override := override |}
   end).

(** * Connecting ([connect_policy.rs]) *)

Inductive TargetPolicy : Type := PolicyConfig (allow_local_binding : bool) | PolicyState (st : ConfigState).

Definition policy_allow_local_binding (self : TargetPolicy) : bool :=
  match self with PolicyConfig b => b | PolicyState st => st.(config).(network).(allow_local_binding) end.

(** Whether a direct connection to the address is attempted. *)
Definition target_checked_connect (policy : TargetPolicy) (addr : IpAddr) : bool :=
  if negb (policy_allow_local_binding policy) && is_non_public_ip addr then false else true.
End decisions.

(** * Laws of the decisions *)

Section decision_laws.
Context `{ProxyLib}.

(** The destination is acceptable with local networking off: an explicitly listed
    local literal, or a name or address whose every address is public. *)
Definition target_permitted (st : ConfigState) (lookup : str -> N -> option (list IpAddr)) (host : str) (port : N) : Prop :=
  st.(config).(network).(allow_local_binding) = true
  \/ (is_local_literal host = true
      /\ is_explicit_local_allowlisted (default [] (allowed_domains st.(config).(network))) host = true)
  \/ (is_local_literal host = false
      /\ match parse_ip host with
         | Some ip => is_non_public_ip ip = false
         | None => exists addrs, lookup host port = Some addrs /\ Forall (fun ip => is_non_public_ip ip = false) addrs
         end).

Lemma resolves_public lookup host port :
  host_resolves_to_non_public_ip lookup host port = false
  <-> match parse_ip host with
      | Some ip => is_non_public_ip ip = false
      | None => exists addrs, lookup host port = Some addrs /\ Forall (fun ip => is_non_public_ip ip = false) addrs
      end.
Proof.
  unfold host_resolves_to_non_public_ip. destruct (parse_ip host); [done|]. destruct (lookup host port) as [addrs|]; [|naive_solver].
  rewrite existsb_false. naive_solver.
Qed.

Lemma host_blocked_cases st lookup host port :
  match host_blocked st lookup host port with
  | Allowed => exists h, host_parse host = Some h /\ globset_matches_host_or_unscoped st.(deny_set) h = false
      /\ target_permitted st lookup h port
      /\ is_Some (allowed_domains st.(config).(network)) /\ globset_matches_host_or_unscoped st.(allow_set) h = true
  | Blocked Denied => exists h, host_parse host = Some h /\ globset_matches_host_or_unscoped st.(deny_set) h = true
  | Blocked NotAllowedLocal => exists h, host_parse host = Some h /\ globset_matches_host_or_unscoped st.(deny_set) h = false
      /\ ~ target_permitted st lookup h port
  | Blocked NotAllowed => host_parse host = None
      \/ exists h, host_parse host = Some h /\ globset_matches_host_or_unscoped st.(deny_set) h = false
         /\ target_permitted st lookup h port
         /\ (allowed_domains st.(config).(network) = None \/ globset_matches_host_or_unscoped st.(allow_set) h = false)
  end.
Proof.
  unfold host_blocked. destruct (host_parse host) as [h|]; [|by left].
  destruct (globset_matches_host_or_unscoped (deny_set st) h) eqn:Ed; [eauto|].
  set (local_block := if allow_local_binding _ then false else _).
  assert (local_block = false <-> target_permitted st lookup h port) as Hl.
  { unfold local_block, target_permitted. rewrite <- resolves_public.
    destruct (allow_local_binding _), (is_local_literal h); rewrite ?negb_false_iff; naive_solver. }
  destruct local_block.
  - exists h. split_and!; [done|done|]. rewrite <- Hl. done.
  - destruct (allowed_domains _) as [l|], (globset_matches_host_or_unscoped (allow_set st) h) eqn:Ea; cbn; naive_solver.
Qed.

(** The ways a request is let through. *)
Lemma let_through_cases st lookup decider request :
  fst (evaluate_host_policy st lookup decider request) = NetAllow ->
  (exists h, host_parse request.(nr_host) = Some h
      /\ globset_matches_host_or_unscoped st.(deny_set) h = false
      /\ target_permitted st lookup h request.(nr_port)
      /\ (globset_matches_host_or_unscoped st.(allow_set) h = true
          \/ exists decide, decider = Some decide /\ decide request = NetAllow))
  \/ (host_parse request.(nr_host) = None /\ exists decide, decider = Some decide /\ decide request = NetAllow).
Proof.
  unfold evaluate_host_policy. pose proof (host_blocked_cases st lookup (nr_host request) (nr_port request)) as Hc.
  destruct (host_blocked st lookup (nr_host request) (nr_port request)) as [|[]]; cbn [fst].
  - naive_solver.
  - done.
  - destruct decider as [decide|]; cbn [fst]; [|done]. intros Hd.
    assert (decide request = NetAllow) as Ha by (by destruct (decide request)). naive_solver.
  - done.
Qed.

(** A request that is let through is not denied and does not reach local or private
    addresses, whatever the decider answers: the decider is only asked about hosts
    that the allow list does not have. *)
Theorem decider_cannot_override st lookup decide request :
  fst (evaluate_host_policy st lookup (Some decide) request) = NetAllow ->
  forall h, host_parse request.(nr_host) = Some h ->
  globset_matches_host_or_unscoped st.(deny_set) h = false
  /\ target_permitted st lookup h request.(nr_port)
  /\ (globset_matches_host_or_unscoped st.(allow_set) h = true \/ decide request = NetAllow).
Proof.
  intros [(h & Hp & Hd & Ht & Hor)|[Hp _]]%let_through_cases h' Hh'; [|congruence].
  rewrite Hp in Hh'. injection Hh' as <-. naive_solver.
Qed.

(** The audit event names the decider exactly when the decider decided. *)
Lemma audit_matches_decision st lookup decider request :
  let '(decision, event) := evaluate_host_policy st lookup decider request in
  (event.(policy_override) = true <-> decision = NetAllow /\ host_blocked st lookup request.(nr_host) request.(nr_port) <> Allowed)
  /\ (event.(audit_source) = Decider <->
      host_blocked st lookup request.(nr_host) request.(nr_port) = Blocked NotAllowed /\ is_Some decider).
Proof.
  unfold evaluate_host_policy. destruct (host_blocked st lookup (nr_host request) (nr_port request)) as [|[]], decider as [decide|];
    cbn; try (destruct (decide request); cbn); (split; [naive_solver|]); (split; [naive_solver|]); intros [? ?]; try done;
    by destruct H1.
Qed.
End decision_laws.

(** * What a configuration allows *)

Section configured_hosts.
Context `{ProxyLib} `{!GlobLaws}.

Lemma plain_unscoped h : plain_domain h -> unscoped_ip_literal h = None.
Proof.
  intros Hp. unfold unscoped_ip_literal. destruct (split_once PERCENT h) as [[a b]|] eqn:E; [|done]. exfalso.
  apply split_once_Some in E as [E _]. apply (plain_not_in _ PERCENT Hp eq_refl). rewrite E. set_solver.
Qed.

Lemma host_parse_plain h : plain_domain h -> host_parse h = Some (to_ascii_lowercase h).
Proof.
  intros Hp. unfold host_parse. rewrite normalize_host_plain by done. pose proof (plain_lower h Hp) as [Hne _].
  by destruct (to_ascii_lowercase h).
Qed.

Lemma globset_matches_plain set h : plain_domain h -> globset_matches_host_or_unscoped set h = set_is_match set h.
Proof. intros Hp. unfold globset_matches_host_or_unscoped. rewrite plain_unscoped by done. apply orb_false_r. Qed.

Lemma is_local_literal_plain h :
  plain_domain h ->
  is_local_literal h = true <-> h = lit "localhost" \/ exists ip, parse_ip h = Some ip /\ (ip_is_loopback ip || is_non_public_ip ip = true).
Proof.
  intros Hp. unfold is_local_literal, is_loopback_host. rewrite plain_unscoped by done. cbn [default from_option].
  case_bool_decide; [naive_solver|]. destruct (parse_ip h) as [ip|]; [|naive_solver].
  destruct (ip_is_loopback ip) eqn:El; [split; [|done]; right; exists ip; by rewrite El|].
  split; [right; exists ip; by rewrite El|]. intros [?|(ip' & [= <-] & Hi)]; [done|]. by rewrite El in Hi.
Qed.

Lemma explicit_local_plain ps h :
  kept_patterns ps -> plain_domain h -> to_ascii_lowercase h = h ->
  is_explicit_local_allowlisted (render_pattern <$> ps) h = true
  <-> Exists (fun p => exists d, p = Exact d /\ to_ascii_lowercase d = h) ps.
Proof.
  intros Hk Hp Hl. unfold is_explicit_local_allowlisted. rewrite plain_unscoped by done.
  rewrite existsb_exists, Exists_exists. setoid_rewrite <- list_elem_of_In. setoid_rewrite list_elem_of_fmap.
  assert (forall p, p ∈ ps ->
    (if (trim (render_pattern p) == lit "*") || starts_with (lit "*.") (trim (render_pattern p))
        || starts_with (lit "**.") (trim (render_pattern p)) then false
     else if contains_char 42 (trim (render_pattern p)) || contains_char 63 (trim (render_pattern p)) then false
     else (normalize_host (trim (render_pattern p)) == h) || false) = true
    <-> exists d, p = Exact d /\ to_ascii_lowercase d = h) as Hone.
  { intros p Hin. pose proof (kept_plain _ _ Hk Hin) as Hd. destruct p as [d|d|d]; cbn [render_pattern pattern_domain] in *.
    - rewrite trim_before_plain by (done || by repeat constructor). rewrite (proj2 (starts_with_spec (lit "**.") _)) by eauto.
      rewrite orb_true_r. naive_solver.
    - rewrite trim_before_plain by (done || by repeat constructor). rewrite (proj2 (starts_with_spec (lit "*.") _)) by eauto.
      rewrite orb_true_r. naive_solver.
    - rewrite plain_trim by done. unfold starts_with. rewrite !strip_prefix_star by done.
      rewrite bool_decide_eq_false_2 by (intros ->; by apply (plain_not_in _ 42 Hd eq_refl); left).
      rewrite !(proj2 (contains_char_false _ d)) by (by apply plain_not_in). cbn [orb].
      rewrite orb_false_r, bool_decide_eq_true, normalize_host_plain by done. naive_solver. }
  split.
  - intros (r & (p & -> & Hin) & Hb). exists p. split; [done|]. by apply Hone.
  - intros (p & Hin & Hd). exists (render_pattern p). split; [eauto|]. by apply Hone.
Qed.

(** A host in lower case that may be reached: local networking is on, or the host is
    an exactly listed local name or address, or it has only public addresses. *)
Definition destination_ok (local_binding : bool) (ps : list DomainPattern) (lookup : str -> N -> option (list IpAddr))
    (h : str) (port : N) : Prop :=
  local_binding = true
  \/ ((h = lit "localhost" \/ exists ip, parse_ip h = Some ip /\ ip_is_loopback ip || is_non_public_ip ip = true)
      /\ Exists (fun p => exists d, p = Exact d /\ to_ascii_lowercase d = h) ps)
  \/ (h <> lit "localhost"
      /\ match parse_ip h with
         | Some ip => ip_is_loopback ip = false /\ is_non_public_ip ip = false
         | None => exists addrs, lookup h port = Some addrs /\ Forall (fun ip => is_non_public_ip ip = false) addrs
         end).

Lemma target_permitted_plain st ps lookup h port :
  default [] (allowed_domains st.(config).(network)) = render_pattern <$> ps ->
  kept_patterns ps -> plain_domain h -> to_ascii_lowercase h = h ->
  target_permitted st lookup h port <-> destination_ok st.(config).(network).(allow_local_binding) ps lookup h port.
Proof.
  intros Hps Hk Hp Hl. unfold target_permitted, destination_ok.
  rewrite Hps, explicit_local_plain, <- not_true_iff_false, is_local_literal_plain by done.
  generalize (Exists (fun p => exists d, p = Exact d /\ to_ascii_lowercase d = h) ps). intros listed.
  destruct (parse_ip h) as [ip|].
  - assert ((exists ip', Some ip = Some ip' /\ ip_is_loopback ip' || is_non_public_ip ip' = true)
            <-> ip_is_loopback ip || is_non_public_ip ip = true) as ->.
    { split; [by intros (? & [= <-] & ?)|eauto]. }
    generalize (h = lit "localhost"). intros P.
    destruct (ip_is_loopback ip), (is_non_public_ip ip); cbn [orb]; intuition congruence.
  - assert ((exists ip', None = Some ip' /\ ip_is_loopback ip' || is_non_public_ip ip' = true) <-> False) as ->
      by (split; [by intros (? & [=] & _)|done]). tauto.
Qed.

Lemma Exists_matches_lower host l :
  Exists (fun p => pattern_matches p (to_ascii_lowercase host)) l <-> Exists (fun p => pattern_matches p host) l.
Proof. apply Exists_iff_in. intros p _. destruct p; cbn; by rewrite lower_idem. Qed.

(** C11: For plain domain names and lists written as names, [*.name] and [**.name], the
    proxy allows a host exactly when an allowed pattern covers it, no denied pattern does, and, with local networking off, it is an exactly listed local
    name or address or has only public addresses. *)
Theorem host_allowed_iff cfg c st ps ds lookup host port :
  build_config_state cfg c = Ok st ->
  default [] (allowed_domains cfg.(network)) = render_pattern <$> ps ->
  default [] (denied_domains cfg.(network)) = render_pattern <$> ds ->
  kept_patterns ps -> kept_patterns ds -> plain_domain host ->
  host_blocked st lookup host port = Allowed
  <-> Exists (fun p => pattern_matches p host) ps /\ ~ Exists (fun p => pattern_matches p host) ds
      /\ destination_ok cfg.(network).(allow_local_binding) ps lookup (to_ascii_lowercase host) port.
Proof.
  intros Hb Hps Hds Hkp Hkd Hp. pose proof (plain_lower _ Hp) as Hl. pose proof (lower_idem host) as Hidem.
  pose proof (build_config_state_sets _ _ _ Hb) as (Hcfg & _ & _ & _ & Hdc & Hac). rewrite Hds in Hdc. rewrite Hps in Hac.
  pose proof (compiled_plain _ _ _ (to_ascii_lowercase host) Hac (kept_all_plain _ Hkp)) as Ha.
  pose proof (compiled_plain _ _ _ (to_ascii_lowercase host) Hdc (kept_all_plain _ Hkd)) as Hd.
  rewrite Exists_matches_lower in Ha, Hd. rewrite <- Hcfg in Hps. rewrite <- Hcfg, <- target_permitted_plain by done. rewrite <- Ha, <- Hd.
  pose proof (host_blocked_cases st lookup host port) as Hc. rewrite host_parse_plain in Hc by done.
  destruct (host_blocked st lookup host port) as [|[]].
  - destruct Hc as (? & [= <-] & H1 & H2 & _ & H3). rewrite globset_matches_plain in H1, H3 by done. rewrite H1. naive_solver.
  - destruct Hc as (? & [= <-] & H1). rewrite globset_matches_plain in H1 by done. split; [done|naive_solver].
  - destruct Hc as [[=]|(? & [= <-] & _ & _ & H3)]. split; [done|]. intros (Hm & _ & _). exfalso.
    rewrite globset_matches_plain in H3 by done. destruct H3 as [H3|H3]; [|congruence].
    rewrite H3 in Hps. destruct ps; [|done]. apply Ha in Hm. by inversion Hm.
  - destruct Hc as (? & [= <-] & _ & H2). split; [done|naive_solver].
Qed.
End configured_hosts.

(** * The buffer of blocked requests *)

Section blocked_buffer.
Context `{ProxyLib}.

Definition last_n {A} (n : nat) (l : list A) : list A := drop (length l - n) l.

Lemma pop_excess_last_n max l : pop_excess max l = last_n max l.
Proof.
  induction l as [|x l IH]; [done|]. cbn [pop_excess]. unfold last_n in *. destruct (Nat.ltb_spec max (length (x :: l))) as [Hlt|Hle].
  - rewrite IH. cbn [length] in *. by replace (S (length l) - max) with (S (length l - max)) by lia.
  - by replace (length (x :: l) - max) with 0 by lia.
Qed.

Lemma last_n_app {A} n (l k : list A) : last_n n (last_n n l ++ k) = last_n n (l ++ k).
Proof.
  unfold last_n. rewrite !length_app, length_drop, <- (drop_app_le l k (length l - n)) by lia. rewrite drop_drop. f_equal. lia.
Qed.

Lemma last_n_id {A} n (l : list A) : length l <= n -> last_n n l = l.
Proof. intros Hl. unfold last_n. by replace (length l - n) with 0 by lia. Qed.

(** After any number of recorded requests, the buffer holds the most recent
    [MAX_BLOCKED_EVENTS] of them in order, and the total counts them all, up to
    the largest 64-bit number. *)
Theorem record_blocked_window st requests :
  length st.(blocked) <= MAX_BLOCKED_EVENTS -> (st.(blocked_total) <= U64_MAX)%N ->
  let st' := foldl (fun st r => record_blocked r st) st requests in
  blocked_snapshot st' = last_n MAX_BLOCKED_EVENTS (st.(blocked) ++ requests)
  /\ st'.(blocked_total) = N.min U64_MAX (st.(blocked_total) + N.of_nat (length requests))
  /\ st'.(config) = st.(config) /\ st'.(allow_set) = st.(allow_set) /\ st'.(deny_set) = st.(deny_set).
Proof.
  intros Hlen Htot. cbv zeta. unfold blocked_snapshot. revert st Hlen Htot.
  induction requests as [|r requests IH]; intros st Hlen Htot; cbn [foldl].
  { rewrite app_nil_r, last_n_id by done. split_and!; try done. cbn [length]. lia. }
  destruct (IH (record_blocked r st)) as (H1 & H2 & H3).
  - cbn [blocked record_blocked set_blocked]. rewrite pop_excess_last_n. unfold last_n. rewrite length_drop. lia.
  - cbn [blocked_total record_blocked set_blocked]. lia.
  - rewrite H1, H2. cbn [blocked blocked_total record_blocked set_blocked]. split_and!; try apply H3.
    + rewrite pop_excess_last_n, last_n_app, <- app_assoc. done.
    + cbn [length]. lia.
Qed.
End blocked_buffer.

(** * Interleaved operations *)

Section interleaving.
Context `{ProxyLib} (broker_enabled : bool).

(** Operations that have released the lock between their read and their write. *)
Inductive Task : Type :=
| ReloadTask (new_state : ConfigState) (snapshot : list BlockedRequest * N)
| ModeTask (m : NetworkMode) (c : NetworkProxyConstraints)
| UpdateTask (previous_cfg : NetworkProxyConfig) (c : NetworkProxyConstraints) (new_state : ConfigState).

(** States come from the loaders, which validate a configuration before they build it. *)
Definition loaded (new_state : ConfigState) : Prop :=
  exists cfg c, validate_policy_against_constraints cfg c = Ok tt /\ build_config_state cfg c = Ok new_state.

Inductive ProxyStep : ConfigState * list Task -> ConfigState * list Task -> Prop :=
| step_reload_read st tasks new_state :
    loaded new_state -> ensure_credential_broker_enablement_unchanged broker_enabled new_state = true ->
    ProxyStep (st, tasks) (st, ReloadTask new_state (reload_read st) :: tasks)
| step_reload_commit st before after new_state snapshot :
    ProxyStep (st, before ++ ReloadTask new_state snapshot :: after) (reload_commit new_state snapshot, before ++ after)
| step_force_reload st st' tasks new_state :
    loaded new_state -> force_reload broker_enabled (Ok new_state) st = Ok st' -> ProxyStep (st, tasks) (st', tasks)
| step_replace st st' tasks new_state :
    loaded new_state -> replace_config_state broker_enabled new_state st = Ok st' -> ProxyStep (st, tasks) (st', tasks)
| step_mode_read st tasks m c :
    mode_read m st = Ok c -> ProxyStep (st, tasks) (st, ModeTask m c :: tasks)
| step_mode_commit st st' before after m c :
    mode_commit m c st = Some st' -> ProxyStep (st, before ++ ModeTask m c :: after) (st', before ++ after)
| step_mode_retry st before after m c :
    mode_commit m c st = None -> ProxyStep (st, before ++ ModeTask m c :: after) (st, before ++ after)
| step_update_read st tasks host target previous_cfg c new_state :
    update_read host target st = Ok (Candidate previous_cfg c new_state) ->
    ProxyStep (st, tasks) (st, UpdateTask previous_cfg c new_state :: tasks)
| step_update_commit st st' before after previous_cfg c new_state :
    update_commit previous_cfg c new_state st = Some st' ->
    ProxyStep (st, before ++ UpdateTask previous_cfg c new_state :: after) (st', before ++ after)
| step_update_retry st before after previous_cfg c new_state :
    update_commit previous_cfg c new_state st = None ->
    ProxyStep (st, before ++ UpdateTask previous_cfg c new_state :: after) (st, before ++ after)
| step_record st tasks entry : ProxyStep (st, tasks) (record_blocked entry st, tasks)
| step_drain st tasks : ProxyStep (st, tasks) (snd (drain_blocked st), tasks).

Definition reachable (st : ConfigState) : Prop :=
  exists st0 tasks, loaded st0 /\ clos_refl_trans _ ProxyStep (st0, []) (st, tasks).

(** The configuration satisfies its constraints, the compiled sets are those of the
    configuration, and the buffer is within its bound. *)
Definition state_ok (st : ConfigState) : Prop :=
  within_constraints st.(config) st.(constraints)
  /\ compile_denylist_globset (default [] (denied_domains st.(config).(network))) = Ok st.(deny_set)
  /\ compile_allowlist_globset (default [] (allowed_domains st.(config).(network))) = Ok st.(allow_set)
  /\ length st.(blocked) <= MAX_BLOCKED_EVENTS.

Definition task_ok (t : Task) : Prop :=
  match t with
  | ReloadTask new_state snapshot => state_ok new_state /\ length snapshot.1 <= MAX_BLOCKED_EVENTS
  | ModeTask m c => forall max, c.(c_mode) = Some max -> network_mode_rank m <= network_mode_rank max
  | UpdateTask _ _ new_state => state_ok new_state
  end.

Lemma loaded_ok st : loaded st -> state_ok st.
Proof.
  intros (cfg & c & Hv%validate_policy_iff & Hb). apply build_config_state_sets in Hb as (Hc1 & Hc2 & Hbl & _ & Hd & Ha).
  unfold state_ok. rewrite Hc1, Hc2, Hbl. split_and!; try done. cbn. lia.
Qed.

Lemma set_blocked_ok b total st : state_ok st -> length b <= MAX_BLOCKED_EVENTS -> state_ok (set_blocked b total st).
Proof. intros (H1 & H2 & H3 & _) Hb. by split_and!. Qed.

Lemma set_mode_ok m st :
  state_ok st -> (forall max, st.(constraints).(c_mode) = Some max -> network_mode_rank m <= network_mode_rank max) ->
  state_ok (set_mode m st).
Proof. intros (H1 & H2 & H3 & H4) Hm. split_and!; try done. destruct H1. by split. Qed.

Lemma update_read_ok host target st previous_cfg c new_state :
  state_ok st -> update_read host target st = Ok (Candidate previous_cfg c new_state) -> state_ok new_state.
Proof.
  intros (_ & _ & _ & Hlen). unfold update_read. destruct (_ && _); [done|].
  destruct (validate_policy_against_constraints _ _) as [[]|] eqn:Hv; [|done].
  destruct (build_config_state _ _) as [new|] eqn:Hb; [|done]. intros [= <- <- <-].
  apply set_blocked_ok; [|done]. apply loaded_ok. eexists _, _. eauto.
Qed.

Lemma step_ok s s' :
  ProxyStep s s' -> state_ok s.1 -> Forall task_ok s.2 -> state_ok s'.1 /\ Forall task_ok s'.2.
Proof.
  assert (forall before t after, Forall task_ok (before ++ t :: after) -> task_ok t /\ Forall task_ok (before ++ after)) as Hmid.
  { intros before t after (? & [? ?]%Forall_cons)%Forall_app. by rewrite Forall_app. }
  intros Hs Hok Ht. pose proof Hok as (Hw & _ & _ & Hlen). destruct Hs; cbn [fst snd] in *.
  - split; [done|]. constructor; [|done]. split; [by apply loaded_ok|done].
  - apply Hmid in Ht as [[? ?] ?]. split; [by apply set_blocked_ok|done].
  - split; [|done]. revert H1. unfold force_reload. case_match; [|done]. intros [= <-]. by apply set_blocked_ok; [apply loaded_ok|].
  - split; [|done]. revert H1. unfold replace_config_state. case_match; [|done]. intros [= <-]. by apply set_blocked_ok; [apply loaded_ok|].
  - split; [done|]. constructor; [|done]. revert H0. unfold mode_read.
    destruct (validate_policy_against_constraints _ _) as [[]|] eqn:Hv; [|done]. intros [= <-] max Hmax.
    apply validate_policy_iff in Hv. by apply (within_mode _ _ Hv max).
  - apply Hmid in Ht as [Hm ?]. split; [|done]. revert H0. unfold mode_commit. case_bool_decide as Hc; [|done].
    intros [= <-]. apply set_mode_ok; [done|]. by rewrite Hc.
  - by apply Hmid in Ht as [_ ?].
  - split; [done|]. constructor; [|done]. by eapply update_read_ok.
  - apply Hmid in Ht as [Hn ?]. split; [|done]. revert H0. unfold update_commit. case_match; [done|]. by intros [= <-].
  - by apply Hmid in Ht as [_ ?].
  - split; [|done]. apply set_blocked_ok; [done|]. rewrite pop_excess_last_n. unfold last_n. rewrite length_drop. lia.
  - split; [|done]. apply set_blocked_ok; [done|]. cbn. lia.
Qed.

Lemma reachable_ok st : reachable st -> state_ok st.
Proof.
  intros (st0 & tasks & Hl & Hr). apply clos_rt_rtn1 in Hr.
  enough (state_ok (st, tasks).1 /\ Forall task_ok (st, tasks).2) by tauto.
  revert Hr. generalize (st, tasks). induction 1 as [|s s' Hs _ [IH1 IH2]].
  - split; [by apply loaded_ok|constructor].
  - by eapply step_ok.
Qed.

(** C17: Whatever the interleaving of reloads, mode changes, domain updates and recorded
    requests, the running configuration satisfies the constraints in force, and its
    compiled sets match exactly the hosts of its own domain lists. *)
Theorem reachable_states_constrained st :
  reachable st ->
  validate_policy_against_constraints st.(config) st.(constraints) = Ok tt
  /\ (forall h, set_is_match st.(deny_set) h = true
        <-> Exists (fun p => pattern_means p h) (default [] (denied_domains st.(config).(network))))
  /\ (forall h, set_is_match st.(allow_set) h = true
        <-> Exists (fun p => pattern_means p h) (default [] (allowed_domains st.(config).(network))))
  /\ length (blocked_snapshot st) <= MAX_BLOCKED_EVENTS.
Proof.
  intros (Hw & Hd & Ha & Hl)%reachable_ok. split_and!; [by apply validate_policy_iff| | |done];
    intros h; by eapply compiled_globset_spec.
Qed.
End interleaving.

(** * Instances *)

Definition sample_allowed : list DomainPattern := [ApexAndSubdomains EXAMPLE; Exact (lit "localhost")].
Definition sample_denied : list DomainPattern := [Exact (lit "bad.example.com")].
Definition sample_config : NetworkProxyConfig := config_of (render_pattern <$> sample_allowed) (render_pattern <$> sample_denied).
Definition sample_constraints : NetworkProxyConstraints :=
  managed_domains (render_pattern <$> sample_allowed) (render_pattern <$> sample_denied).
(** Every name resolves to one public address. *)
Definition sample_lookup (host : str) (port : N) : option (list IpAddr) := Some [V4 (octets_to_u32 93 184 215 14)].

Lemma sample_kept : @kept_patterns sample_lib sample_allowed /\ @kept_patterns sample_lib sample_denied.
Proof. split; repeat constructor; by apply plain_by_compute. Qed.

Lemma sample_loaded :
  @validate_policy_against_constraints sample_lib sample_config sample_constraints = Ok tt
  /\ exists st, @build_config_state sample_lib sample_config sample_constraints = Ok st.
Proof. split; [vm_compute; reflexivity|]. eexists. vm_compute. reflexivity. Qed.

(** [www.example.com] is covered, not denied, and resolves to a public address. *)
Lemma host_allowed_iff_witness :
  exists st, @build_config_state sample_lib sample_config sample_constraints = Ok st
    /\ (@host_blocked sample_lib st sample_lookup (lit "WWW.example.com") 443 = Allowed
        <-> Exists (fun p => pattern_matches p (lit "WWW.example.com")) sample_allowed
            /\ ~ Exists (fun p => pattern_matches p (lit "WWW.example.com")) sample_denied
            /\ destination_ok false sample_allowed sample_lookup (lit "www.example.com") 443)
    /\ @host_blocked sample_lib st sample_lookup (lit "WWW.example.com") 443 = Allowed
    /\ @host_blocked sample_lib st sample_lookup (lit "bad.example.com.") 443 = Blocked Denied
    /\ @host_blocked sample_lib st sample_lookup (lit "10.0.0.1") 443 = Blocked NotAllowedLocal
    /\ @host_blocked sample_lib st sample_lookup (lit "other.org") 443 = Blocked NotAllowed.
Proof.
  destruct sample_loaded as [_ [st Hb]]. destruct sample_kept as [Ka Kd]. exists st. split; [exact Hb|]. split.
  - exact (@host_allowed_iff sample_lib wild_globs_laws sample_config sample_constraints st sample_allowed sample_denied
      sample_lookup (lit "WWW.example.com") 443%N Hb eq_refl eq_refl Ka Kd (plain_by_compute (lit "WWW.example.com") eq_refl)).
  - vm_compute in Hb. injection Hb as <-. vm_compute. repeat split.
Defined.

Definition sample_request : NetworkPolicyRequest :=
  {| protocol := Http; nr_host := lit "other.org"; nr_port := 80; environment_id := None; client_addr := None;
     method := None; command := None; exec_policy_hint := None |}.

(** A host that is not listed is let through by a decider that allows it. *)
Lemma decider_cannot_override_witness :
  exists st, @build_config_state sample_lib sample_config sample_constraints = Ok st
    /\ fst (@evaluate_host_policy sample_lib st sample_lookup (Some (fun _ => NetAllow)) sample_request) = NetAllow
    /\ exists h, host_parse sample_request.(nr_host) = Some h
       /\ @globset_matches_host_or_unscoped sample_lib st.(deny_set) h = false.
Proof.
  destruct sample_loaded as [_ [st Hb]]. exists st. split; [exact Hb|].
  assert (fst (@evaluate_host_policy sample_lib st sample_lookup (Some (fun _ => NetAllow)) sample_request) = NetAllow) as Hd
    by (vm_compute in Hb; injection Hb as <-; vm_compute; reflexivity).
  split; [exact Hd|].
  exists (lit "other.org"). split; [vm_compute; reflexivity|].
  apply (@decider_cannot_override sample_lib st sample_lookup (fun _ => NetAllow) sample_request Hd). vm_compute. reflexivity.
Defined.

Definition sample_blocked (n : nat) : BlockedRequest :=
  {| b_host := show_nat n; b_reason := REASON_DENIED; b_client := None; b_method := None; b_mode := None; b_protocol := lit "http";
     b_decision := None; b_source := None; b_port := None; b_timestamp := 0%Z |}.

(** After 203 requests the buffer starts with the fourth. *)
Lemma record_blocked_window_witness :
  exists st, @build_config_state sample_lib sample_config sample_constraints = Ok st
    /\ let st' := foldl (fun st r => @record_blocked sample_lib r st) st (sample_blocked <$> seq 0 203) in
       head (@blocked_snapshot sample_lib st') = Some (sample_blocked 3) /\ st'.(blocked_total) = 203%N.
Proof.
  destruct sample_loaded as [_ [st Hb]]. exists st. split; [exact Hb|].
  destruct (@build_config_state_sets sample_lib _ _ _ Hb) as (_ & _ & Hbl & Ht & _).
  destruct (@record_blocked_window sample_lib st (sample_blocked <$> seq 0 203)) as (H1 & H2 & _).
  { rewrite Hbl. unfold MAX_BLOCKED_EVENTS. cbn [length]. lia. }
  { rewrite Ht. discriminate. }
  cbv zeta. rewrite H1, H2, Hbl, Ht. split; vm_compute; reflexivity.
Defined.

(** A mode change, read and then committed. *)
Lemma reachable_states_constrained_witness :
  exists st, @reachable sample_lib false st /\ st.(config).(network).(mode) = Limited
    /\ @validate_policy_against_constraints sample_lib st.(config) st.(constraints) = Ok tt.
Proof.
  destruct sample_loaded as [Hv [st Hb]].
  assert (@mode_read sample_lib Limited st = Ok sample_constraints) as Hm
    by (vm_compute in Hb; injection Hb as <-; vm_compute; reflexivity).
  assert (@mode_commit sample_lib Limited sample_constraints st = Some (set_mode Limited st)) as Hc
    by (vm_compute in Hb; injection Hb as <-; vm_compute; reflexivity).
  assert (@reachable sample_lib false (set_mode Limited st)) as Hr.
  { exists st, []. split; [by exists sample_config, sample_constraints|].
    eapply rt_trans; apply rt_step; [apply (step_mode_read false st [] Limited _ Hm)|].
    apply (step_mode_commit false st _ [] [] Limited _ Hc). }
  exists (set_mode Limited st). split; [exact Hr|]. split; [reflexivity|].
  exact (proj1 (@reachable_states_constrained sample_lib false _ Hr)).
Defined.
