(* ===== verification/NetworkRuntimeLaws.v ===== *)
(** Laws of the running proxy ([NetworkRuntime]): domain updates take effect and
    terminate, managed constraints bound what is allowed in every reachable state,
    and what concurrent reloads do to the record of blocked requests. *)

From stdpp Require Import base list option numbers strings sets.
From Stdlib Require Import NArith ZArith Lia Relations.
From S2P Require Import Prelude RustStr AbsolutePath NetworkHost NetworkConfig MitmHook NetworkConstraints NetworkRuntime.
Local Open Scope rust_scope.

(** * Entries that normalise to a host *)

Lemma parse_ip_star s : parse_ip (42%N :: s) = None.
Proof. reflexivity. Qed.

Lemma split_once_str_head p c s a b :
  head p <> Some c -> p <> [] -> split_once_str p (c :: s) = Some (a, b) -> exists a', a = c :: a'.
Proof.
  intros Hh Hp. unfold split_once_str. cbn [find_str]. destruct p as [|x p]; [done|].
  unfold starts_with. cbn [strip_prefix]. destruct (N.eqb_spec x c) as [->|Hne]; [done|].
  destruct (find_str (x :: p) s) as [i|]; [|done]. intros [= <- _]. by eexists.
Qed.

Lemma normalize_dns_star s : 42%N ∈ normalize_dns_host_or_ip_literal (42%N :: s).
Proof.
  unfold normalize_dns_host_or_ip_literal. change (to_ascii_lowercase (42%N :: s)) with (42%N :: to_ascii_lowercase s).
  set (t := to_ascii_lowercase s).
  assert (exists r, trim_end_matches DOT (42%N :: t) = 42%N :: r) as [r ->].
  { unfold trim_end_matches. rewrite reverse_cons. destruct (drop_while_split (N.eqb DOT) (reverse t ++ [42%N])) as (k & E & Hk).
    destruct (list_snoc_inv (drop_while (N.eqb DOT) (reverse t ++ [42%N]))) as [Hn|(m & x & Hm)].
    - exfalso. rewrite Hn, app_nil_r in E. rewrite <- E in Hk. apply Forall_app in Hk as [_ Hk].
      apply Forall_singleton_1 in Hk. done.
    - rewrite Hm. rewrite Hm, app_assoc in E. apply app_inj_tail in E as [_ <-]. rewrite reverse_app, reverse_singleton. eauto. }
  unfold normalize_ip_literal. rewrite parse_ip_star. cbn [is_some].
  assert (forall p, head p = Some 37%N ->
    match split_once_str p (42%N :: r) with
    | Some (ip, scope) => if is_some (parse_ip ip) then Some (ip ++ lit "%" ++ scope) else None
    | None => None
    end = None) as Hs.
  { intros p Hp. destruct (split_once_str p (42%N :: r)) as [[a b]|] eqn:E; [|done].
    apply split_once_str_head in E as [a' ->]; [|congruence|by intros ->]. by rewrite parse_ip_star. }
  rewrite !Hs by done. by left.
Qed.

Lemma normalize_host_star e r : trim e = 42%N :: r -> 42%N ∈ normalize_host e.
Proof.
  intros Ht. unfold normalize_host. rewrite Ht. cbn [starts_with]. unfold starts_with. cbn [strip_prefix lit].
  destruct (count_char COLON (42%N :: r) =? 1); [|apply normalize_dns_star].
  assert (exists a, head (split_on COLON (42%N :: r)) = Some (42%N :: a)) as [a ->].
  { cbn [split_on]. change ((42 =? COLON)%N) with false. cbv iota. destruct (split_on COLON r); eauto. }
  apply normalize_dns_star.
Qed.

Section updates.
Context `{ProxyLib} `{!GlobLaws} (broker_enabled : bool).

(** An entry that normalises to a host matches that host once compiled. *)
Lemma entry_matches_host e h :
  plain_domain h -> to_ascii_lowercase h = h -> normalize_host e = h -> pattern_means e h.
Proof.
  intros Hp Hl He. pose proof (plain_not_in _ 42 Hp eq_refl) as Hstar.
  assert (forall r, trim e <> 42%N :: r) as Ht by (intros r Hr; apply Hstar; rewrite <- He; by eapply normalize_host_star).
  assert (normalize_pattern e = h) as Hn.
  { unfold normalize_pattern. rewrite bool_decide_eq_false_2 by (intros E; by apply (Ht [])).
    destruct (strip_prefix (lit "**.") (trim e)) as [d|] eqn:E1; [apply strip_prefix_Some in E1; by destruct (Ht (lit "*." ++ d))|].
    destruct (strip_prefix (lit "*.") (trim e)) as [d|] eqn:E2; [apply strip_prefix_Some in E2; by destruct (Ht (lit "." ++ d))|].
    cbn [app]. rewrite <- He. unfold normalize_host. by rewrite trim_idem. }
  exists h. rewrite Hn. split.
  - unfold expand_domain_pattern. change h with (render_pattern (Exact h)) at 2. rewrite pattern_parse_render by done. by left.
  - destruct (glob_literal h Hp) as (g & Hg & Hm). exists g. split; [done|]. by apply Hm.
Qed.

Lemma compiled_entry gw entries set e h :
  compile_globset_with_policy entries gw = Ok set -> e ∈ entries ->
  plain_domain h -> to_ascii_lowercase h = h -> normalize_host e = h -> set_is_match set h = true.
Proof.
  intros Hc He Hp Hl Hn. apply (compiled_globset_spec _ _ _ h Hc), Exists_exists. exists e. split; [done|]. by apply entry_matches_host.
Qed.

(** The state in which an update has taken effect: a denied host is refused; an
    allowed host is covered by the allow list, and no entry of the deny list is
    that host. *)
Definition update_effect (target : DomainListKind) (h : str) (st : ConfigState) : Prop :=
  match target with
  | DenyList => set_is_match st.(deny_set) h = true
  | AllowList => set_is_match st.(allow_set) h = true
      /\ Forall (fun e => normalize_host e <> h) (default [] (denied_domains st.(config).(network)))
  end.

Lemma contains_host (l : list str) h :
  existsb (fun entry => normalize_host entry == h) l = true <-> exists e, e ∈ l /\ normalize_host e = h.
Proof.
  rewrite existsb_exists. setoid_rewrite <- list_elem_of_In. by setoid_rewrite bool_decide_eq_true.
Qed.

Lemma already_listed_effect target h st :
  plain_domain h -> to_ascii_lowercase h = h -> state_ok st ->
  update_read h target st = Ok AlreadyListed -> update_effect target h st.
Proof.
  intros Hp Hl (_ & Hd & Ha & _). unfold update_read.
  destruct (existsb _ (list_entries target _)) eqn:Ht; cbn [andb].
  2: { destruct (validate_policy_against_constraints _ _); [|done]. by destruct (build_config_state _ _). }
  destruct (existsb _ (opposite_entries target _)) eqn:Ho; cbn [negb].
  { destruct (validate_policy_against_constraints _ _); [|done]. by destruct (build_config_state _ _). }
  intros _. apply contains_host in Ht as (e & He & Hn). destruct target; cbn [list_entries opposite_entries update_effect] in *.
  - split; [by eapply compiled_entry|]. apply existsb_false in Ho. eapply Forall_impl; [exact Ho|]. cbn. intros x Hx E.
    by rewrite bool_decide_eq_false in Hx.
  - by eapply compiled_entry.
Qed.

Lemma candidate_effect target h st previous_cfg c new_state :
  plain_domain h -> to_ascii_lowercase h = h ->
  update_read h target st = Ok (Candidate previous_cfg c new_state) -> update_effect target h new_state.
Proof.
  intros Hp Hl. assert (normalize_host h = h) as Hn by (by rewrite normalize_host_plain).
  unfold update_read. destruct (_ && _); [done|].
  destruct (validate_policy_against_constraints _ _) as [[]|]; [|done].
  destruct (build_config_state _ _) as [new|] eqn:Hb; [|done]. intros [= _ _ <-].
  apply build_config_state_sets in Hb as (Hcfg & _ & _ & _ & Hd & Ha).
  cbn [network] in *. destruct target; cbn [list_permission update_effect set_blocked deny_set allow_set config] in *.
  - split.
    + eapply (compiled_entry _ _ _ h); [exact Ha| |done..]. apply allowed_domains_elem. rewrite !upsert_domain_permission_elem.
      cbn [pattern]. split; [by right|]. intros [[? _]|[=]]. done.
    + rewrite Hcfg. cbn [network]. apply Forall_forall. intros e He%denied_domains_elem E.
      rewrite upsert_domain_permission_elem in He. cbn [pattern] in He. rewrite Hn in He. destruct He as [[? _]|[=]]; done.
  - eapply (compiled_entry _ _ _ h); [exact Hd| |done..]. apply denied_domains_elem. rewrite upsert_domain_permission_elem. by right.
Qed.

Lemma reload_if_needed_ok reload st st' :
  (forall new_state, reload = Ok (Some new_state) -> loaded new_state) -> state_ok st ->
  reload_if_needed broker_enabled reload st = Ok st' -> state_ok st'.
Proof.
  intros Hr Hok. destruct reload as [[new|]|]; cbn [reload_if_needed]; [|by intros [= <-]|done].
  case_match; [|done]. intros [= <-]. apply set_blocked_ok; [by apply loaded_ok, Hr|]. apply Hok.
Qed.

Lemma update_loop_effect fuel env interfere i h target st st' :
  plain_domain h -> to_ascii_lowercase h = h -> state_ok st ->
  (forall i new_state, env i = Ok (Some new_state) -> loaded new_state) ->
  (forall i st, state_ok st -> state_ok (interfere i st)) ->
  update_loop broker_enabled fuel env interfere i h target st = Some (Ok tt, st') -> update_effect target h st'.
Proof.
  intros Hp Hl Hok He Hi. revert i st Hok. induction fuel as [|fuel IH]; intros i st Hok; cbn [update_loop]; [done|].
  destruct (reload_if_needed broker_enabled (env i) st) as [st1|] eqn:Er; [|done].
  apply reload_if_needed_ok in Er; [|by apply He|done].
  destruct (update_read h target st1) as [[|prev c new]|] eqn:Eu; [| |done].
  - intros [= <-]. by apply already_listed_effect.
  - unfold update_commit. destruct (_ || _); [|intros [= <-]; by eapply candidate_effect]. apply IH. by apply Hi.
Qed.

(** When adding a host to a list succeeds, it has taken effect: an added denied host
    is blocked as denied by the state the call leaves; an added allowed host is
    matched by the allow list and no longer denied by name. *)
Theorem domain_update_takes_effect fuel env interfere host target st st' lookup port :
  plain_domain host -> state_ok st ->
  (forall i new_state, env i = Ok (Some new_state) -> loaded new_state) ->
  (forall i st, state_ok st -> state_ok (interfere i st)) ->
  update_domain_list broker_enabled fuel env interfere host target st = Some (Ok tt, st') ->
  update_effect target (to_ascii_lowercase host) st'
  /\ (target = DenyList -> host_blocked st' lookup host port = Blocked Denied).
Proof.
  intros Hp Hok He Hi. unfold update_domain_list. rewrite host_parse_plain by done. intros Hu.
  pose proof (plain_lower _ Hp) as Hl. apply update_loop_effect in Hu; try done; [|apply lower_idem].
  split; [done|]. intros ->. unfold host_blocked. rewrite host_parse_plain by done.
  rewrite globset_matches_plain by done. cbn [update_effect] in Hu. by rewrite Hu.
Qed.
End updates.

(** * The update loops end *)

Section termination.
Context `{ProxyLib} (broker_enabled : bool).

(** Other tasks leave the policy alone. *)
Definition undisturbed (f : ConfigState -> ConfigState) : Prop :=
  forall st, (f st).(config) = st.(config) /\ (f st).(constraints) = st.(constraints).

Lemma update_read_snapshot h target st previous_cfg c new_state :
  update_read h target st = Ok (Candidate previous_cfg c new_state) -> previous_cfg = st.(config) /\ c = st.(constraints).
Proof.
  unfold update_read. destruct (_ && _); [done|]. destruct (validate_policy_against_constraints _ _); [|done].
  destruct (build_config_state _ _); [|done]. by intros [= <- <- _].
Qed.

Lemma mode_read_snapshot m st c : mode_read m st = Ok c -> c = st.(constraints).
Proof. unfold mode_read. destruct (validate_policy_against_constraints _ _); [|done]. by intros [= <-]. Qed.

Lemma update_loop_ends fuel env interfere i k h target st :
  i <= k < i + fuel -> undisturbed (interfere k) ->
  is_Some (update_loop broker_enabled fuel env interfere i h target st).
Proof.
  intros Hk Hu. revert i st Hk. induction fuel as [|fuel IH]; intros i st Hk; [lia|]. cbn [update_loop].
  destruct (reload_if_needed broker_enabled (env i) st) as [st1|]; [|eauto].
  destruct (update_read h target st1) as [[|prev c new]|] eqn:Er; [eauto| |eauto].
  destruct (update_commit prev c new (interfere i st1)) as [st2|] eqn:Ec; [eauto|].
  apply IH. destruct (decide (i = k)) as [->|]; [|lia]. exfalso. apply update_read_snapshot in Er as [-> ->].
  destruct (Hu st1) as [H1 H2]. unfold update_commit in Ec. by rewrite H1, H2, !bool_decide_eq_true_2 in Ec.
Qed.

Lemma mode_loop_ends fuel env interfere i k m st :
  i <= k < i + fuel -> undisturbed (interfere k) ->
  is_Some (set_network_mode broker_enabled fuel env interfere i m st).
Proof.
  intros Hk Hu. revert i st Hk. induction fuel as [|fuel IH]; intros i st Hk; [lia|]. cbn [set_network_mode].
  destruct (reload_if_needed broker_enabled (env i) st) as [st1|]; [|eauto].
  destruct (mode_read m st1) as [c|] eqn:Er; [|eauto].
  destruct (mode_commit m c (interfere i st1)) as [st2|] eqn:Ec; [eauto|].
  apply IH. destruct (decide (i = k)) as [->|]; [|lia]. exfalso. apply mode_read_snapshot in Er as ->.
  unfold mode_commit in Ec. by rewrite (proj2 (Hu st1)), bool_decide_eq_true_2 in Ec.
Qed.

(** The retry loops of a domain update and of a mode change end in the first turn in
    which no other task changes the policy between their read and their write. *)
Theorem update_loops_terminate fuel env interfere k host target m st :
  k < fuel -> undisturbed (interfere k) ->
  is_Some (update_domain_list broker_enabled fuel env interfere host target st)
  /\ is_Some (set_network_mode broker_enabled fuel env interfere 0 m st).
Proof.
  intros Hk Hu. split; [|apply (mode_loop_ends _ _ _ _ k); [lia|done]].
  unfold update_domain_list. destruct (host_parse host); [|eauto]. apply (update_loop_ends _ _ _ _ k); [lia|done].
Qed.
End termination.

(** * Managed constraints in force *)

Section managed.
Context `{ProxyLib} `{!GlobLaws} (broker_enabled : bool).

(** The patterns of a state, read back from their written form. *)
Record written_patterns (st : ConfigState) (allowed denied managed_allowed managed_denied : list DomainPattern) : Prop := {
  written_allowed : default [] (allowed_domains st.(config).(network)) = render_pattern <$> allowed;
  written_denied : default [] (denied_domains st.(config).(network)) = render_pattern <$> denied;
  written_managed_allowed : st.(constraints).(c_allowed_domains) = Some (render_pattern <$> managed_allowed);
  written_managed_denied : st.(constraints).(c_denied_domains) = Some (render_pattern <$> managed_denied);
  written_kept : kept_patterns allowed /\ kept_patterns denied /\ kept_patterns managed_allowed /\ kept_patterns managed_denied;
}.

(** C10: In every state the proxy can reach under a managed allow list and a managed deny
    list, without expansion of the allow list, a host that is allowed is one of the managed
    allow list and none of the managed deny list.  The host is a plain domain name (letters,
    digits, hyphens, underscores and dots) and the lists, the managed ones and the running
    ones, are written as such names, [*.name] or [**.name] ([written_patterns]); patterns
    with a port, an address or a wildcard elsewhere are not covered, and with a port the
    managed list can be escaped ([constraint_escape]). *)
Theorem managed_policy_enforced st allowed denied managed_allowed managed_denied lookup host port :
  reachable broker_enabled st -> written_patterns st allowed denied managed_allowed managed_denied ->
  st.(constraints).(c_allowlist_expansion_enabled) <> Some true -> plain_domain host ->
  host_blocked st lookup host port = Allowed ->
  Exists (fun p => pattern_matches p host) managed_allowed /\ ~ Exists (fun p => pattern_matches p host) managed_denied.
Proof.
  intros (Hw & Hd & Ha & _)%reachable_ok [Wa Wd Ma Md (Ka & Kd & Kma & Kmd)] Hx Hp Hb.
  pose proof (host_blocked_cases st lookup host port) as Hc. rewrite Hb, host_parse_plain in Hc by done.
  destruct Hc as (? & [= <-] & H1 & _ & _ & H2). pose proof (plain_lower _ Hp) as Hl.
  rewrite globset_matches_plain in H1, H2 by done. rewrite Wa in Ha. rewrite Wd in Hd.
  rewrite (compiled_plain _ _ _ _ Ha), Exists_matches_lower in H2 by (by apply kept_all_plain).
  pose proof (within_allowed _ _ Hw _ Ma) as Hwa. rewrite Wa in Hwa.
  pose proof (within_denied _ _ Hw _ Md) as Hwd. rewrite Wd in Hwd.
  split; [exact (allowed_within_hosts _ _ _ _ host Kma Ka Hx Hwa H2)|]. intros Hm.
  apply (denied_within_hosts _ _ _ _ Kmd Kd Hwd), Exists_matches_lower in Hm.
  apply (compiled_plain _ _ _ _ Hd) in Hm; [congruence|by apply kept_all_plain].
Qed.
End managed.

(** * Concurrent records *)

Section records.
Context `{ProxyLib} (broker_enabled : bool).

(** A request recorded between the read and the write of a domain update does not
    stop the update, and is dropped from the buffer by it. *)
Theorem update_drops_concurrent_record h target st previous_cfg c new_state r :
  update_read h target st = Ok (Candidate previous_cfg c new_state) ->
  update_commit previous_cfg c new_state (record_blocked r st) = Some new_state
  /\ new_state.(blocked) = st.(blocked) /\ new_state.(blocked_total) = st.(blocked_total).
Proof.
  intros Hu. pose proof (update_read_snapshot _ _ _ _ _ _ Hu) as [-> ->]. split.
  - unfold update_commit. cbn [constraints config record_blocked set_blocked]. by rewrite !bool_decide_eq_true_2.
  - revert Hu. unfold update_read. destruct (_ && _); [done|]. destruct (validate_policy_against_constraints _ _); [|done].
    destruct (build_config_state _ _); [|done]. by intros [= <-].
Qed.

(** A forced reload keeps the buffer and resets the total; the other reloads keep both. *)
Theorem force_reload_resets_total st st' new_state :
  loaded new_state -> force_reload broker_enabled (Ok new_state) st = Ok st' ->
  st'.(blocked) = st.(blocked) /\ st'.(blocked_total) = 0%N
  /\ (forall st2, reload_if_needed broker_enabled (Ok (Some new_state)) st = Ok st2 -> st2.(blocked_total) = st.(blocked_total))
  /\ (forall st2, replace_config_state broker_enabled new_state st = Ok st2 -> st2.(blocked_total) = st.(blocked_total)).
Proof.
  intros (cfg & c & _ & Hb). apply build_config_state_sets in Hb as (_ & _ & _ & Ht & _).
  unfold force_reload, reload_if_needed, replace_config_state. case_match; [|done]. intros [= <-].
  split_and!; [done|done| |]; by intros ? [= <-].
Qed.
End records.

(** With local networking off, an exactly listed local name passes the host decision
    but the connector refuses its address. *)
Theorem listed_local_name_not_connected :
  exists st, @build_config_state sample_lib sample_config sample_constraints = Ok st
    /\ @host_blocked sample_lib st sample_lookup (lit "localhost") 80 = Allowed
    /\ @target_checked_connect sample_lib (PolicyState st) LOCALHOST = false.
Proof.
  destruct sample_loaded as [_ [st Hb]]. exists st. split; [exact Hb|]. vm_compute in Hb. injection Hb as <-. vm_compute. by split.
Qed.

(** * Instances *)

Definition no_reload : nat -> @Reload sample_lib := fun _ => Ok None.
Definition no_interference : nat -> @ConfigState sample_lib -> @ConfigState sample_lib := fun _ st => st.

Definition EVIL : str := lit "Evil.org".

(** Denying [Evil.org] blocks it. *)
Lemma domain_update_takes_effect_witness :
  exists st st', @build_config_state sample_lib sample_config sample_constraints = Ok st
    /\ @update_domain_list sample_lib false 1 no_reload no_interference EVIL DenyList st = Some (Ok tt, st')
    /\ @host_blocked sample_lib st' sample_lookup EVIL 443 = Blocked Denied.
Proof.
  destruct sample_loaded as [Hv [st Hb]]. exists st.
  assert (exists st', @update_domain_list sample_lib false 1 no_reload no_interference EVIL DenyList st = Some (Ok tt, st')) as [st' Hu]
    by (vm_compute in Hb; injection Hb as <-; eexists; vm_compute; reflexivity).
  exists st'. split; [exact Hb|]. split; [exact Hu|].
  apply (@domain_update_takes_effect sample_lib wild_globs_laws false 1 no_reload no_interference EVIL DenyList st st' sample_lookup 443%N).
  - by apply plain_by_compute.
  - apply loaded_ok. by exists sample_config, sample_constraints.
  - intros i new_state E. discriminate E.
  - intros i s Hs. exact Hs.
  - exact Hu.
  - reflexivity.
Defined.

(** Undisturbed, one turn is enough. *)
Lemma update_loops_terminate_witness :
  exists st, @build_config_state sample_lib sample_config sample_constraints = Ok st
    /\ is_Some (@update_domain_list sample_lib false 1 no_reload no_interference EVIL AllowList st)
    /\ is_Some (@set_network_mode sample_lib false 1 no_reload no_interference 0 Limited st).
Proof.
  destruct sample_loaded as [_ [st Hb]]. exists st. split; [exact Hb|].
  apply (@update_loops_terminate sample_lib false 1 no_reload no_interference 0 EVIL AllowList Limited st); [lia|].
  intros s. split; reflexivity.
Defined.

(** [www.example.com] is allowed, hence managed. *)
Lemma managed_policy_enforced_witness :
  exists st, @reachable sample_lib false st
    /\ @host_blocked sample_lib st sample_lookup (lit "www.example.com") 443 = Allowed
    /\ Exists (fun p => pattern_matches p (lit "www.example.com")) sample_allowed.
Proof.
  destruct sample_loaded as [Hv [st Hb]]. exists st. destruct sample_kept as [Ka Kd].
  destruct (@build_config_state_sets sample_lib _ _ _ Hb) as (Hcfg & Hc & _).
  assert (@reachable sample_lib false st) as Hr.
  { exists st, []. split; [by exists sample_config, sample_constraints|apply rt_refl]. }
  assert (@host_blocked sample_lib st sample_lookup (lit "www.example.com") 443 = Allowed) as Ha
    by (clear -Hb; vm_compute in Hb; injection Hb as <-; vm_compute; reflexivity).
  split; [exact Hr|]. split; [exact Ha|].
  refine (proj1 (@managed_policy_enforced sample_lib wild_globs_laws false st sample_allowed sample_denied sample_allowed sample_denied
    sample_lookup (lit "www.example.com") 443%N Hr _ _ (plain_by_compute (lit "www.example.com") eq_refl) Ha)).
  - split; rewrite ?Hcfg, ?Hc; [reflexivity..|]. by split_and!.
  - rewrite Hc. discriminate.
Defined.
