(* ===== verification/NetworkSpec.v ===== *)
(** [core/src/config/network_proxy_spec.rs] and the constraint half of
    [core/src/network_proxy_loader.rs]: how managed requirements and the exec
    policy's network rules shape the proxy configuration. *)

From stdpp Require Import base list option numbers strings sets.
From Stdlib Require Import NArith Lia.
From S2P Require Import Prelude RustStr AbsolutePath PermissionProfile ExecPolicy NetworkHost.
From S2P Require Import NetworkConfig MitmHook NetworkConstraints NetworkRuntime.
Local Open Scope rust_scope.

(** * Requirements ([config/src/config_requirements.rs]) *)

Inductive DomainPermissionToml : Set := TomlAllow | TomlDeny.
#[global] Instance DomainPermissionToml_eq_dec : EqDecision DomainPermissionToml.
Proof. solve_decision. Defined.

(** [NetworkDomainPermissionsToml]: the bindings of its [BTreeMap]. *)
Definition toml_domains (perm : DomainPermissionToml) (entries : list (str * DomainPermissionToml)) : option (list str) :=
  match fst <$> retain (fun e => e.2 == perm) entries with [] => None | l => Some l end.
Definition toml_allowed_domains := toml_domains TomlAllow.
Definition toml_denied_domains := toml_domains TomlDeny.
Definition toml_allow_unix_sockets (entries : list (str * DomainPermissionToml)) : list str :=
  fst <$> retain (fun e => e.2 == TomlAllow) entries.

Record NetworkConstraints := {
  n_enabled : option bool;
  n_http_port : option N;
  n_socks_port : option N;
  n_allow_upstream_proxy : option bool;
  n_dangerously_allow_non_loopback_proxy : option bool;
  n_dangerously_allow_all_unix_sockets : option bool;
  n_domains : option (list (str * DomainPermissionToml));
  n_managed_allowed_domains_only : option bool;
  n_unix_sockets : option (list (str * DomainPermissionToml));
  n_allow_local_binding : option bool;
}.

(** * Applying requirements *)

Definition managed_sandbox_active (permission_profile : PermissionProfile.t) : bool :=
  match permission_profile with PermissionProfile.Managed _ _ => true | _ => false end.
Definition managed_allowed_domains_only (requirements : NetworkConstraints) : bool :=
  default false requirements.(n_managed_allowed_domains_only).
Definition allowlist_expansion_enabled (permission_profile : PermissionProfile.t) (hard_deny_allowlist_misses : bool) : bool :=
  managed_sandbox_active permission_profile && negb hard_deny_allowlist_misses.
Definition denylist_expansion_enabled (permission_profile : PermissionProfile.t) : bool :=
  managed_sandbox_active permission_profile.

Definition merge_domain_lists (managed user_entries : list str) : list str :=
  foldl (fun managed entry => if existsb (fun m => eq_ignore_ascii_case m entry) managed then managed else managed ++ [entry])
    managed user_entries.

(** The settings the requirements fix, before the lists. *)
Definition with_required (r : NetworkConstraints) (s : NetworkProxySettings) : NetworkProxySettings :=
  {| enabled := default s.(enabled) r.(n_enabled);
     proxy_url := match r.(n_http_port) with Some port => lit "http://127.0.0.1:" ++ show_N port | None => s.(proxy_url) end;
     enable_socks5 := s.(enable_socks5);
     socks_url := match r.(n_socks_port) with Some port => lit "http://127.0.0.1:" ++ show_N port | None => s.(socks_url) end;
     enable_socks5_udp := s.(enable_socks5_udp);
     allow_upstream_proxy := default s.(allow_upstream_proxy) r.(n_allow_upstream_proxy);
     dangerously_allow_non_loopback_proxy :=
       default s.(dangerously_allow_non_loopback_proxy) r.(n_dangerously_allow_non_loopback_proxy);
     dangerously_allow_all_unix_sockets :=
       default s.(dangerously_allow_all_unix_sockets) r.(n_dangerously_allow_all_unix_sockets);
     mode := s.(mode); domains := s.(domains); unix_sockets := s.(unix_sockets);
     allow_local_binding := default s.(allow_local_binding) r.(n_allow_local_binding);
     mitm := s.(mitm); credential_broker := s.(credential_broker);
     dangerously_allow_plaintext_credential_injection := s.(dangerously_allow_plaintext_credential_injection);
     mitm_hooks := s.(mitm_hooks) |}.

Definition required_allowed_domains (r : NetworkConstraints) (hard_deny_allowlist_misses : bool) : option (list str) :=
  let listed := match r.(n_domains) with Some d => toml_allowed_domains d | None => None end in
  if hard_deny_allowlist_misses then Some (default [] listed) else listed.
Definition required_denied_domains (r : NetworkConstraints) : option (list str) :=
  match r.(n_domains) with Some d => toml_denied_domains d | None => None end.

Definition apply_requirements (cfg : NetworkProxyConfig) (r : NetworkConstraints) (profile : PermissionProfile.t)
    (hard_deny_allowlist_misses : bool) : NetworkProxyConfig * NetworkProxyConstraints :=
  let allow_expansion := allowlist_expansion_enabled profile hard_deny_allowlist_misses in
  let deny_expansion := denylist_expansion_enabled profile in
  let net := with_required r cfg.(network) in
  let managed_allowed := required_allowed_domains r hard_deny_allowlist_misses in
  let net := match managed_allowed with
             | Some managed =>
                 set_allowed_domains net
                   (if allow_expansion then merge_domain_lists managed (default [] (allowed_domains net)) else managed)
             | None => net
             end in
  let managed_denied := required_denied_domains r in
  let net := match managed_denied with
             | Some managed =>
                 set_denied_domains net
                   (if deny_expansion then merge_domain_lists managed (default [] (denied_domains net)) else managed)
             | None => net
             end in
  let sockets := toml_allow_unix_sockets <$> r.(n_unix_sockets) in
  let net := match sockets with Some l => set_allow_unix_sockets net l | None => net end in
  ({| network := net |},
   {| c_enabled := r.(n_enabled); c_mode := None; c_allow_upstream_proxy := r.(n_allow_upstream_proxy);
      c_dangerously_allow_non_loopback_proxy := r.(n_dangerously_allow_non_loopback_proxy);
      c_dangerously_allow_all_unix_sockets := r.(n_dangerously_allow_all_unix_sockets);
      c_allowed_domains := managed_allowed;
      c_allowlist_expansion_enabled := (fun _ => allow_expansion) <$> managed_allowed;
      c_denied_domains := managed_denied;
      c_denylist_expansion_enabled := (fun _ => deny_expansion) <$> managed_denied;
      c_allow_unix_sockets := sockets; c_allow_local_binding := r.(n_allow_local_binding) |}).

(** * The exec policy's network rules *)

(** [upsert_network_domains]: the set of hosts seen skips repeated ones. *)
Fixpoint upsert_network_domains (cfg : NetworkProxyConfig) (incoming hosts : list str) (allow : bool) : NetworkProxyConfig :=
  match hosts with
  | [] => cfg
  | host :: hosts =>
      if mem host incoming then upsert_network_domains cfg incoming hosts allow
      else
        let perm := if allow then PermAllow else PermDeny in
        upsert_network_domains {| network := upsert_domain_permission cfg.(network) host perm normalize_host |}
          (host :: incoming) hosts allow
  end.

Definition apply_exec_policy_network_rules {R} (cfg : NetworkProxyConfig) (exec_policy : Policy R) : NetworkProxyConfig :=
  let '(allowed, denied) := compiled_network_domains exec_policy in
  let cfg := upsert_network_domains cfg [] allowed true in
  upsert_network_domains cfg [] denied false.

(** * The specification of a proxy *)

Record NetworkProxySpec := {
  base_config : NetworkProxyConfig;
  requirements : option NetworkConstraints;
  spec_config : NetworkProxyConfig;
  spec_constraints : NetworkProxyConstraints;
  hard_deny_allowlist_misses : bool;
}.

Section spec.
Context `{ProxyLib}.

Definition from_config_and_constraints (cfg : NetworkProxyConfig) (reqs : option NetworkConstraints)
    (profile : PermissionProfile.t) : result NetworkProxySpec NetworkProxyConstraintError :=
  let hard := match reqs with Some r => managed_allowed_domains_only r | None => false end in
  let '(cfg', c) := match reqs with
                    | Some r => apply_requirements cfg r profile hard
                    | None => (cfg, default_constraints)
                    end in
  let? _ := validate_policy_against_constraints cfg' c in
  Ok {| base_config := cfg; requirements := reqs; spec_config := cfg'; spec_constraints := c;
        hard_deny_allowlist_misses := hard |}.

Definition recompute_for_permission_profile (self : NetworkProxySpec) (profile : PermissionProfile.t) :
    result NetworkProxySpec NetworkProxyConstraintError :=
  from_config_and_constraints self.(base_config) self.(requirements) profile.

Definition with_exec_policy_network_rules {R} (self : NetworkProxySpec) (exec_policy : Policy R) :
    result NetworkProxySpec NetworkProxyConstraintError :=
  let cfg := apply_exec_policy_network_rules self.(spec_config) exec_policy in
  let? _ := validate_policy_against_constraints cfg self.(spec_constraints) in
  Ok {| base_config := self.(base_config); requirements := self.(requirements); spec_config := cfg;
        spec_constraints := self.(spec_constraints); hard_deny_allowlist_misses := self.(hard_deny_allowlist_misses) |}.

Definition build_config_state_for_spec (self : NetworkProxySpec) : result ConfigState BuildError :=
  build_config_state self.(spec_config) self.(spec_constraints).

(** The decider [start_proxy] installs: none when misses are hard denials. *)
Definition start_proxy_decider (self : NetworkProxySpec) (profile : PermissionProfile.t)
    (policy_decider : option (NetworkPolicyRequest -> NetworkDecision)) (enable_network_approval_flow : bool) :
    option (NetworkPolicyRequest -> NetworkDecision) :=
  if enable_network_approval_flow && negb self.(hard_deny_allowlist_misses) then
    match policy_decider with
    | Some d => Some d
    | None => if managed_sandbox_active profile then Some (fun _ => decision_ask (lit "not_allowed")) else None
    end
  else None.
End spec.

(** * Requirements are enforced *)

Lemma allowed_domains_sockets s l : allowed_domains (set_allow_unix_sockets s l) = allowed_domains s.
Proof. done. Qed.
Lemma denied_domains_sockets s l : denied_domains (set_allow_unix_sockets s l) = denied_domains s.
Proof. done. Qed.

Lemma merge_domain_lists_managed managed user p : p ∈ managed -> p ∈ merge_domain_lists managed user.
Proof.
  unfold merge_domain_lists. revert managed. induction user as [|u user IH]; intros managed Hp; cbn [foldl]; [done|].
  apply IH. destruct (existsb _ managed); [done|]. apply elem_of_app. by left.
Qed.

Section spec_laws.
Context `{ProxyLib}.

(** The deny list of the configuration that the requirements produce. *)
Lemma apply_requirements_denied cfg r profile hard cfg' c managed p :
  apply_requirements cfg r profile hard = (cfg', c) -> required_denied_domains r = Some managed -> p ∈ managed ->
  p ∈ domain_list (denied_domains cfg'.(network)).
Proof.
  unfold apply_requirements. intros [= <- _] Hm Hp. rewrite Hm. cbn [network].
  set (net := match required_allowed_domains r hard with Some _ => _ | None => _ end).
  set (ds := if denylist_expansion_enabled profile then _ else _).
  assert (p ∈ ds) as Hd by (unfold ds; destruct (denylist_expansion_enabled profile); [by apply merge_domain_lists_managed|done]).
  destruct (toml_allow_unix_sockets <$> n_unix_sockets r); [rewrite denied_domains_sockets|]; by apply (set_domains_spec net ds p).
Qed.

(** Without expansion the allow list is the managed one, less what is denied. *)
Lemma apply_requirements_allowed cfg r profile hard cfg' c managed p :
  apply_requirements cfg r profile hard = (cfg', c) -> required_allowed_domains r hard = Some managed ->
  allowlist_expansion_enabled profile hard = false ->
  p ∈ domain_list (allowed_domains cfg'.(network)) <-> p ∈ managed /\ p ∉ domain_list (denied_domains cfg'.(network)).
Proof.
  unfold apply_requirements. intros [= <- _] Hm Hx. rewrite Hm, Hx. cbn [network].
  set (net := with_required r (network cfg)).
  transitivity (p ∈ domain_list (allowed_domains
      (match required_denied_domains r with
       | Some managed0 => set_denied_domains (set_allowed_domains net managed)
           (if denylist_expansion_enabled profile
            then merge_domain_lists managed0 (default [] (denied_domains (set_allowed_domains net managed))) else managed0)
       | None => set_allowed_domains net managed
       end)));
    [destruct (toml_allow_unix_sockets <$> n_unix_sockets r); by rewrite ?allowed_domains_sockets|].
  assert (forall q s, domain_list (denied_domains match toml_allow_unix_sockets <$> n_unix_sockets r with
      | Some l => set_allow_unix_sockets s l | None => s end) = q <-> domain_list (denied_domains s) = q) as Hs
    by (intros q s; by destruct (toml_allow_unix_sockets <$> n_unix_sockets r)).
  rewrite (proj2 (Hs _ _) eq_refl). clear Hs.
  destruct (required_denied_domains r) as [md|].
  - rewrite (proj1 (proj2 (proj2 (set_domains_spec (set_allowed_domains net managed) _ p)))).
    rewrite (proj2 (proj2 (proj2 (set_domains_spec (set_allowed_domains net managed) _ p)))).
    unfold set_allowed_domains. rewrite set_domain_entries_elem. cbn [permission pattern]. naive_solver.
  - rewrite (proj1 (set_domains_spec net managed p)). by rewrite (proj1 (proj2 (set_domains_spec net managed p))).
Qed.

Lemma from_config_applies cfg r profile spec :
  from_config_and_constraints cfg (Some r) profile = Ok spec ->
  apply_requirements cfg r profile (managed_allowed_domains_only r) = (spec.(spec_config), spec.(spec_constraints))
  /\ spec.(hard_deny_allowlist_misses) = managed_allowed_domains_only r
  /\ validate_policy_against_constraints spec.(spec_config) spec.(spec_constraints) = Ok tt.
Proof.
  unfold from_config_and_constraints. destruct (apply_requirements _ _ _ _) as [cfg' c].
  destruct (validate_policy_against_constraints cfg' c) as [[]|] eqn:E; [|done]. by intros [= <-].
Qed.

Definition fixed_flags (s : NetworkProxySettings) : list bool :=
  [s.(enabled); s.(allow_upstream_proxy); s.(dangerously_allow_non_loopback_proxy); s.(dangerously_allow_all_unix_sockets);
   s.(allow_local_binding)].

Lemma apply_requirements_flags cfg r profile hard cfg' c :
  apply_requirements cfg r profile hard = (cfg', c) -> fixed_flags cfg'.(network) = fixed_flags (with_required r cfg.(network)).
Proof.
  unfold apply_requirements. intros [= <- _]. cbn [network].
  by destruct (required_allowed_domains r hard), (required_denied_domains r), (toml_allow_unix_sockets <$> n_unix_sockets r).
Qed.

Lemma toml_entries perm (entries : list (str * DomainPermissionToml)) p :
  p ∈ fst <$> retain (fun e => e.2 == perm) entries <-> (p, perm) ∈ entries.
Proof.
  rewrite list_elem_of_fmap. setoid_rewrite elem_of_retain. setoid_rewrite bool_decide_eq_true. split.
  - intros ([q w] & -> & <- & Hin). exact Hin.
  - intros Hin. by exists (p, perm).
Qed.

Lemma toml_domains_elem perm entries p : p ∈ domain_list (toml_domains perm entries) <-> (p, perm) ∈ entries.
Proof. rewrite <- toml_entries. unfold toml_domains. by destruct (fst <$> _). Qed.

Lemma requirements_enforced_allowed cfg r profile spec :
  from_config_and_constraints cfg (Some r) profile = Ok spec ->
  forall d p, r.(n_domains) = Some d -> managed_allowed_domains_only r = true ->
  p ∈ domain_list (allowed_domains spec.(spec_config).(network))
  <-> (p, TomlAllow) ∈ d /\ p ∉ domain_list (denied_domains spec.(spec_config).(network)).
Proof.
  intros (Ha & _ & _)%from_config_applies d p Hd Hhard. rewrite Hhard in Ha.
  rewrite (apply_requirements_allowed _ _ _ _ _ _ (default [] (toml_allowed_domains d)) p Ha).
  - by rewrite <- toml_domains_elem.
  - unfold required_allowed_domains. by rewrite Hd.
  - apply andb_false_r.
Qed.

(** Whatever the user configures, an accepted specification has the settings, the
    sockets and the denied patterns that the requirements fix. *)
Theorem requirements_enforced cfg r profile spec :
  from_config_and_constraints cfg (Some r) profile = Ok spec ->
  let net := spec.(spec_config).(network) in
  (forall b, r.(n_enabled) = Some b -> net.(enabled) = b)
  /\ (forall b, r.(n_allow_upstream_proxy) = Some b -> net.(allow_upstream_proxy) = b)
  /\ (forall b, r.(n_dangerously_allow_non_loopback_proxy) = Some b -> net.(dangerously_allow_non_loopback_proxy) = b)
  /\ (forall b, r.(n_dangerously_allow_all_unix_sockets) = Some b -> net.(dangerously_allow_all_unix_sockets) = b)
  /\ (forall b, r.(n_allow_local_binding) = Some b -> net.(allow_local_binding) = b)
  /\ (forall u p, r.(n_unix_sockets) = Some u -> p ∈ allow_unix_sockets net <-> (p, TomlAllow) ∈ u)
  /\ (forall d p, r.(n_domains) = Some d -> (p, TomlDeny) ∈ d -> p ∈ domain_list (denied_domains net))
  /\ (forall d p, r.(n_domains) = Some d -> managed_allowed_domains_only r = true ->
        p ∈ domain_list (allowed_domains net) <-> (p, TomlAllow) ∈ d /\ p ∉ domain_list (denied_domains net)).
Proof.
  intros Hs. pose proof Hs as (Ha & _ & _)%from_config_applies. cbv zeta.
  pose proof (apply_requirements_flags _ _ _ _ _ _ Ha) as Hf. unfold fixed_flags in Hf.
  injection Hf as F1 F2 F3 F4 F5. rewrite F1, F2, F3, F4, F5. cbn [with_required enabled allow_upstream_proxy
    dangerously_allow_non_loopback_proxy dangerously_allow_all_unix_sockets allow_local_binding].
  split_and!; try (intros b Hb; by rewrite Hb).
  - intros u p Hu. unfold apply_requirements in Ha. injection Ha as Ha _. rewrite <- Ha, Hu. cbn [network fmap option_fmap option_map].
    rewrite set_allow_unix_sockets_spec. apply toml_entries.
  - intros d p Hd Hp. destruct (toml_denied_domains d) as [managed|] eqn:Em.
    + apply (apply_requirements_denied _ _ _ _ _ _ managed _ Ha); [unfold required_denied_domains; by rewrite Hd|].
      apply toml_domains_elem in Hp. unfold toml_denied_domains in Em. by rewrite Em in Hp.
    + apply toml_domains_elem in Hp. unfold toml_denied_domains in Em. rewrite Em in Hp. by apply not_elem_of_nil in Hp.
  - intros d p Hd Hhard. by apply (requirements_enforced_allowed cfg r profile).
Qed.

(** The host, or its address without the scope, is one the pattern stands for. *)
Definition covers (p h : str) : Prop :=
  pattern_means p h \/ exists ip, unscoped_ip_literal h = Some ip /\ pattern_means p ip.

Lemma globset_matches_covers patterns gw set h :
  compile_globset_with_policy patterns gw = Ok set ->
  globset_matches_host_or_unscoped set h = true <-> exists p, p ∈ patterns /\ covers p h.
Proof.
  intros Hc. unfold globset_matches_host_or_unscoped, covers. rewrite orb_true_iff, (compiled_globset_spec _ _ _ h Hc), Exists_exists.
  destruct (unscoped_ip_literal h) as [ip|]; cbn [is_some_and]; [|naive_solver].
  rewrite (compiled_globset_spec _ _ _ ip Hc), Exists_exists. naive_solver.
Qed.

(** C25: With only managed domains allowed, the running proxy lets a request through
    only to a host of the managed allow list that no denied pattern covers, and
    nobody is asked about the others. *)
Theorem managed_only_is_exhaustive cfg r profile spec st lookup policy_decider flow request d :
  from_config_and_constraints cfg (Some r) profile = Ok spec ->
  managed_allowed_domains_only r = true -> r.(n_domains) = Some d ->
  build_config_state_for_spec spec = Ok st ->
  fst (evaluate_host_policy st lookup (start_proxy_decider spec profile policy_decider flow) request) = NetAllow ->
  exists h p, host_parse request.(nr_host) = Some h /\ (p, TomlAllow) ∈ d /\ covers p h
    /\ forall q, q ∈ domain_list (denied_domains spec.(spec_config).(network)) -> ~ covers q h.
Proof.
  intros Hs Hhard Hd Hb Hev. pose proof (from_config_applies _ _ _ _ Hs) as (_ & Hh & _).
  assert (start_proxy_decider spec profile policy_decider flow = None) as Hnone
    by (unfold start_proxy_decider; by rewrite Hh, Hhard, andb_false_r).
  rewrite Hnone in Hev. apply build_config_state_sets in Hb as (_ & _ & _ & _ & Hdeny & Hallow).
  apply let_through_cases in Hev as [(h & Hp & Hnd & _ & [Ha|(? & [=] & _)])|[_ (? & [=] & _)]].
  apply (globset_matches_covers _ _ _ _ Hallow) in Ha as (p & Hin & Hc).
  pose proof (requirements_enforced_allowed _ _ _ _ Hs d p Hd Hhard) as Hreq. apply Hreq in Hin as [Hin _].
  exists h, p. split_and!; try done. intros q Hq Hcq. rewrite <- not_true_iff_false in Hnd. apply Hnd.
  apply (globset_matches_covers _ _ _ _ Hdeny). eauto.
Qed.

(** * The exec policy's rules take effect *)

(** The entries for the hosts in [hosts], up to normalisation, are those of [perm]. *)
Definition owned (hosts : list str) (perm : NetworkDomainPermission) (l : list NetworkDomainPermissionEntry) : Prop :=
  forall h, h ∈ hosts ->
    (exists e, e ∈ l /\ normalize_host e.(pattern) = normalize_host h)
    /\ forall e, e ∈ l -> normalize_host e.(pattern) = normalize_host h -> e.(permission) = perm.

Lemma owned_upsert hosts s host perm :
  owned hosts perm (domains_or_default s) ->
  owned (host :: hosts) perm (domains_or_default (upsert_domain_permission s host perm normalize_host)).
Proof.
  intros Ho h Hh. setoid_rewrite upsert_domain_permission_elem.
  destruct (decide (normalize_host h = normalize_host host)) as [E|Hne].
  - split; [exists {| pattern := host; permission := perm |}; split; [by right|done]|].
    intros e [[Hn _]| ->] He; [congruence|done].
  - apply elem_of_cons in Hh as [->|Hh]; [done|]. destruct (Ho h Hh) as [(e & Hin & He) Hall]. split.
    + exists e. split; [left; split; [congruence|done]|done].
    + intros e' [[_ Hin']| ->] He'; [by apply Hall|]. cbn in He'. congruence.
Qed.

Lemma upsert_network_domains_owned hosts incoming cfg (allow : bool) :
  let perm := if allow then PermAllow else PermDeny in
  owned incoming perm (domains_or_default cfg.(network)) ->
  owned (hosts ++ incoming) perm (domains_or_default (upsert_network_domains cfg incoming hosts allow).(network)).
Proof.
  cbv zeta. set (perm := if allow then PermAllow else PermDeny). revert incoming cfg.
  induction hosts as [|host hosts IH]; intros incoming cfg Ho; cbn [upsert_network_domains]; [done|].
  destruct (mem host incoming) eqn:Em.
  - apply mem_spec in Em. intros h Hh. apply IH; [done|]. set_solver.
  - intros h Hh. eapply IH; [by apply owned_upsert|]. set_solver.
Qed.

(** An upsert leaves the entries of other hosts alone. *)
Lemma upsert_network_domains_other hosts incoming cfg (allow : bool) e :
  (forall h, h ∈ hosts -> normalize_host e.(pattern) <> normalize_host h) ->
  e ∈ domains_or_default (upsert_network_domains cfg incoming hosts allow).(network) <-> e ∈ domains_or_default cfg.(network).
Proof.
  revert incoming cfg. induction hosts as [|host hosts IH]; intros incoming cfg Hne; cbn [upsert_network_domains]; [done|].
  assert (forall h, h ∈ hosts -> normalize_host (pattern e) <> normalize_host h) as Hne' by (intros; apply Hne; by right).
  destruct (mem host incoming); [by apply IH|]. rewrite IH by done. cbn [network]. rewrite upsert_domain_permission_elem.
  specialize (Hne host ltac:(by left)). split; [intros [[_ ?]| ->]; done|]. by left.
Qed.

(** After the rules of the exec policy are applied, every host it forbids is denied,
    and every host it allows is allowed, unless it forbids another spelling of it. *)
Theorem exec_rules_take_effect {R} (self spec : NetworkProxySpec) (exec_policy : Policy R) allowed denied :
  with_exec_policy_network_rules self exec_policy = Ok spec -> compiled_network_domains exec_policy = (allowed, denied) ->
  let net := spec.(spec_config).(network) in
  (forall h, h ∈ denied -> exists p, p ∈ domain_list (denied_domains net) /\ normalize_host p = normalize_host h)
  /\ (forall h p, h ∈ denied -> p ∈ domain_list (allowed_domains net) -> normalize_host p <> normalize_host h)
  /\ (forall h, h ∈ allowed -> (forall h', h' ∈ denied -> normalize_host h' <> normalize_host h) ->
        exists p, p ∈ domain_list (allowed_domains net) /\ normalize_host p = normalize_host h)
  /\ spec.(spec_constraints) = self.(spec_constraints)
  /\ validate_policy_against_constraints spec.(spec_config) spec.(spec_constraints) = Ok tt.
Proof.
  unfold with_exec_policy_network_rules, apply_exec_policy_network_rules. intros Hw Hc. rewrite Hc in Hw.
  set (cfg1 := upsert_network_domains (spec_config self) [] allowed true) in Hw.
  set (cfg2 := upsert_network_domains cfg1 [] denied false) in Hw.
  destruct (validate_policy_against_constraints cfg2 (spec_constraints self)) as [[]|] eqn:Hv; [|done].
  injection Hw as <-. cbn [spec_config spec_constraints].
  assert (owned allowed PermAllow (domains_or_default cfg1.(network))) as Ha.
  { intros h Hh. apply (upsert_network_domains_owned allowed [] _ true); [by intros ? ?%not_elem_of_nil|by rewrite app_nil_r]. }
  assert (owned denied PermDeny (domains_or_default cfg2.(network))) as Hd.
  { intros h Hh. apply (upsert_network_domains_owned denied [] _ false); [by intros ? ?%not_elem_of_nil|by rewrite app_nil_r]. }
  split_and!; try done.
  - intros h Hh. destruct (Hd h Hh) as [([p m] & Hin & Hn) Hall]. exists p. split; [|done]. apply denied_domains_elem.
    by rewrite <- (Hall _ Hin Hn).
  - intros h p Hh [Hin _]%allowed_domains_elem Hn. destruct (Hd h Hh) as [_ Hall]. by specialize (Hall _ Hin Hn).
  - intros h Hh Hno. destruct (Ha h Hh) as [([p m] & Hin & Hn) Hall]. cbn [pattern] in Hn. exists p. split; [|done].
    assert (forall m', {| pattern := p; permission := m' |} ∈ domains_or_default cfg2.(network)
                       <-> {| pattern := p; permission := m' |} ∈ domains_or_default cfg1.(network)) as Hsame.
    { intros m'. apply upsert_network_domains_other. cbn [pattern]. intros h' Hh'. specialize (Hno h' Hh'). congruence. }
    apply allowed_domains_elem. rewrite !Hsame. pose proof (Hall _ Hin Hn) as Hm. cbn in Hm. subst m. split; [done|].
    intros Hdeny. by specialize (Hall _ Hdeny Hn).
Qed.
End spec_laws.

(** * Instances *)

Definition only_example : NetworkConstraints :=
  {| n_enabled := Some true; n_http_port := Some 4000%N; n_socks_port := None; n_allow_upstream_proxy := None;
     n_dangerously_allow_non_loopback_proxy := Some false; n_dangerously_allow_all_unix_sockets := None;
     n_domains := Some [(lit "**.example.com", TomlAllow); (lit "bad.example.com", TomlDeny)];
     n_managed_allowed_domains_only := Some true; n_unix_sockets := None; n_allow_local_binding := Some false |}.

Definition user_config : NetworkProxyConfig := config_of [lit "other.org"] [].

Definition request_to (host : str) : NetworkPolicyRequest :=
  {| protocol := Http; nr_host := host; nr_port := 80; environment_id := None; client_addr := None;
     method := None; command := None; exec_policy_hint := None |}.

Lemma only_example_spec :
  exists spec st,
    @from_config_and_constraints sample_lib user_config (Some only_example) PermissionProfile.Disabled = Ok spec
    /\ @build_config_state_for_spec sample_lib spec = Ok st
    /\ fst (@evaluate_host_policy sample_lib st sample_lookup
              (start_proxy_decider spec PermissionProfile.Disabled (Some (fun _ => NetAllow)) true)
              (request_to (lit "www.example.com"))) = NetAllow
    /\ fst (@evaluate_host_policy sample_lib st sample_lookup
              (start_proxy_decider spec PermissionProfile.Disabled (Some (fun _ => NetAllow)) true)
              (request_to (lit "other.org"))) = deny_with_source REASON_NOT_ALLOWED BaselinePolicy.
Proof.
  eexists _, _. split; [vm_compute; reflexivity|]. split; [vm_compute; reflexivity|]. split; vm_compute; reflexivity.
Qed.

(** The user's [other.org] is dropped, and a decider that would allow it is not asked. *)
Lemma managed_only_is_exhaustive_witness :
  exists spec st h p,
    @from_config_and_constraints sample_lib user_config (Some only_example) PermissionProfile.Disabled = Ok spec
    /\ @build_config_state_for_spec sample_lib spec = Ok st
    /\ host_parse (lit "www.example.com") = Some h /\ @covers sample_lib p h
    /\ (p, TomlAllow) ∈ [(lit "**.example.com", TomlAllow); (lit "bad.example.com", TomlDeny)].
Proof.
  destruct only_example_spec as (spec & st & Hs & Hb & Hev & _).
  pose proof (@managed_only_is_exhaustive sample_lib user_config only_example PermissionProfile.Disabled spec st sample_lookup
    (Some (fun _ => NetAllow)) true (request_to (lit "www.example.com"))
    [(lit "**.example.com", TomlAllow); (lit "bad.example.com", TomlDeny)] Hs) as Hm.
  specialize (Hm eq_refl eq_refl Hb Hev). destruct Hm as (h & p & Hp & Hin & Hc & _).
  exists spec, st, h, p. split; [exact Hs|]. split; [exact Hb|]. split; [exact Hp|]. split; [exact Hc|exact Hin].
Defined.

(** Forbidding [bad.org] in the exec policy denies it. *)
Lemma exec_rules_take_effect_witness :
  exists self spec,
    @from_config_and_constraints sample_lib user_config None PermissionProfile.Disabled = Ok self
    /\ @with_exec_policy_network_rules sample_lib unit self
         (mkPolicy ∅ [ExecRule.mkNetworkRule (lit "bad.org") ExecRule.Https ExecRule.Forbidden None] ∅) = Ok spec
    /\ exists p, p ∈ domain_list (denied_domains spec.(spec_config).(network)) /\ normalize_host p = lit "bad.org".
Proof.
  set (policy := mkPolicy ∅ [ExecRule.mkNetworkRule (lit "bad.org") ExecRule.Https ExecRule.Forbidden None] ∅).
  assert (exists self spec, @from_config_and_constraints sample_lib user_config None PermissionProfile.Disabled = Ok self
    /\ @with_exec_policy_network_rules sample_lib unit self policy = Ok spec) as (self & spec & H1 & H2)
    by (eexists _, _; split; [vm_compute; reflexivity|]; vm_compute; reflexivity).
  exists self, spec. split; [exact H1|]. split; [exact H2|].
  change (lit "bad.org") with (normalize_host (lit "bad.org")).
  apply (proj1 (@exec_rules_take_effect sample_lib unit self spec policy [] [lit "bad.org"] H2 ltac:(vm_compute; reflexivity))).
  by left.
Defined.
