(* ===== verification/HeadTailBuffer.v ===== *)
(** [core/src/unified_exec/head_tail_buffer.rs]: a capped buffer that keeps the
    head and the tail of a byte stream.

    Counters are [usize] values, kept as [N] with the code's saturating
    arithmetic at 64 bits.  The abstract specification is the byte stream
    received since the last drain: the buffer refines the function that keeps
    its first and its last bytes. *)

From stdpp Require Import base list option numbers.
From Stdlib Require Import NArith Lia Strings.Byte.
From S2P Require Import Prelude.
Local Open Scope rust_scope.

Abbreviation bytes := (list Byte.byte).

(** * [usize] *)

Definition USIZE_MAX : N := 2 ^ 64 - 1.
Definition sat (n : N) : N := N.min n USIZE_MAX.
Definition saturating_add (a b : N) : N := sat (a + b).
(** [saturating_sub] is [N]'s truncated subtraction. *)
Definition saturating_sub (a b : N) : N := (a - b)%N.

(** [Vec::len]. *)
Definition vlen (v : bytes) : N := N.of_nat (length v).

(** * The buffer *)

Record HeadTailBuffer : Set := mkBuffer {
  max_bytes : N;
  head_budget : N;
  tail_budget : N;
  head : list bytes;
  tail : list bytes;
  head_bytes : N;
  tail_bytes : N;
  omitted_bytes : N;
}.

Definition new (max_bytes : N) : HeadTailBuffer :=
  let head_budget := (max_bytes / 2)%N in
  let tail_budget := saturating_sub max_bytes head_budget in
  mkBuffer max_bytes head_budget tail_budget [] [] 0 0 0.

Definition retained_bytes (self : HeadTailBuffer) : N :=
  saturating_add self.(head_bytes) self.(tail_bytes).

Definition set_omitted (self : HeadTailBuffer) (n : N) : HeadTailBuffer :=
  mkBuffer self.(max_bytes) self.(head_budget) self.(tail_budget) self.(head) self.(tail)
    self.(head_bytes) self.(tail_bytes) n.

Definition push_head (self : HeadTailBuffer) (chunk : bytes) : HeadTailBuffer :=
  mkBuffer self.(max_bytes) self.(head_budget) self.(tail_budget) (self.(head) ++ [chunk]) self.(tail)
    (saturating_add self.(head_bytes) (vlen chunk)) self.(tail_bytes) self.(omitted_bytes).

Definition set_tail (self : HeadTailBuffer) (tail : list bytes) (tail_bytes omitted : N) :
    HeadTailBuffer :=
  mkBuffer self.(max_bytes) self.(head_budget) self.(tail_budget) self.(head) tail
    self.(head_bytes) tail_bytes omitted.

(** The loop of [trim_tail_to_budget]; it stops when no excess or no chunk is
    left. *)
Fixpoint trim_loop (tail : list bytes) (excess tail_bytes omitted : N) : list bytes * N * N :=
  if (excess =? 0)%N then (tail, tail_bytes, omitted)
  else match tail with
       | [] => ([], tail_bytes, omitted)
       | front :: rest =>
           if (vlen front <=? excess)%N
           then trim_loop rest (excess - vlen front) (saturating_sub tail_bytes (vlen front))
                  (saturating_add omitted (vlen front))
           else (drop (N.to_nat excess) front :: rest, saturating_sub tail_bytes excess,
                 saturating_add omitted excess)
       end.

Definition trim_tail_to_budget (self : HeadTailBuffer) : HeadTailBuffer :=
  let excess := saturating_sub self.(tail_bytes) self.(tail_budget) in
  let '(tail, tail_bytes, omitted) :=
    trim_loop self.(tail) excess self.(tail_bytes) self.(omitted_bytes) in
  set_tail self tail tail_bytes omitted.

Definition push_to_tail (self : HeadTailBuffer) (chunk : bytes) : HeadTailBuffer :=
  if (self.(tail_budget) =? 0)%N
  then set_omitted self (saturating_add self.(omitted_bytes) (vlen chunk))
  else if (self.(tail_budget) <=? vlen chunk)%N then
    let start := saturating_sub (vlen chunk) self.(tail_budget) in
    let kept := drop (N.to_nat start) chunk in
    let dropped := saturating_sub (vlen chunk) (vlen kept) in
    set_tail self [kept] (vlen kept)
      (saturating_add (saturating_add self.(omitted_bytes) self.(tail_bytes)) dropped)
  else
    trim_tail_to_budget
      (set_tail self (self.(tail) ++ [chunk]) (saturating_add self.(tail_bytes) (vlen chunk))
         self.(omitted_bytes)).

Definition push_chunk (self : HeadTailBuffer) (chunk : bytes) : HeadTailBuffer :=
  if (self.(max_bytes) =? 0)%N
  then set_omitted self (saturating_add self.(omitted_bytes) (vlen chunk))
  else if (self.(head_bytes) <? self.(head_budget))%N then
    let remaining_head := saturating_sub self.(head_budget) self.(head_bytes) in
    if (vlen chunk <=? remaining_head)%N then push_head self chunk
    else
      let head_part := take (N.to_nat remaining_head) chunk in
      let tail_part := drop (N.to_nat remaining_head) chunk in
      let self := match head_part with [] => self | _ => push_head self head_part end in
      push_to_tail self tail_part
  else push_to_tail self chunk.

Definition snapshot_chunks (self : HeadTailBuffer) : list bytes := self.(head) ++ self.(tail).

Definition to_bytes (self : HeadTailBuffer) : bytes := concat self.(head) ++ concat self.(tail).

Definition drain_chunks (self : HeadTailBuffer) : HeadTailBuffer * list bytes :=
  (mkBuffer self.(max_bytes) self.(head_budget) self.(tail_budget) [] [] 0 0 0,
   self.(head) ++ self.(tail)).

(** * Specification *)

(** The last [n] elements. *)
Definition lastn {A} (n : nat) (l : list A) : list A := drop (length l - n) l.

Definition head_cap (max : N) : nat := N.to_nat (max / 2).
Definition tail_cap (max : N) : nat := N.to_nat (max - max / 2).

(** What is kept of a stream. *)
Definition kept_head (max : N) (s : bytes) : bytes := take (head_cap max) s.
Definition kept_tail (max : N) (s : bytes) : bytes := lastn (tail_cap max) (drop (head_cap max) s).
Definition kept (max : N) (s : bytes) : bytes := kept_head max s ++ kept_tail max s.

(** The buffer [b] holds what is kept of the stream [s]. *)
Record refines (max : N) (b : HeadTailBuffer) (s : bytes) : Prop := {
  ref_max : max_bytes b = max;
  ref_hb : head_budget b = (max / 2)%N;
  ref_tb : tail_budget b = (max - max / 2)%N;
  ref_head : concat (head b) = kept_head max s;
  ref_tail : concat (tail b) = kept_tail max s;
  ref_head_bytes : head_bytes b = vlen (kept_head max s);
  ref_tail_bytes : tail_bytes b = vlen (kept_tail max s);
  ref_omitted : omitted_bytes b = sat (vlen s - vlen (kept max s));
}.

Lemma length_lastn {A} n (l : list A) : length (lastn n l) = Nat.min n (length l).
Proof. unfold lastn. rewrite length_drop. lia. Qed.

Lemma lastn_all {A} n (l : list A) : length l <= n -> lastn n l = l.
Proof. intros H. unfold lastn. by replace (length l - n) with 0 by lia. Qed.

Lemma lastn_app_ge {A} n (l k : list A) : n <= length k -> lastn n (l ++ k) = lastn n k.
Proof.
  intros H. unfold lastn. rewrite length_app, drop_app_ge by lia. f_equal. lia.
Qed.

Lemma lastn_app_lt {A} n (l k : list A) :
  length k <= n -> lastn n (l ++ k) = lastn (n - length k) l ++ k.
Proof.
  intros H. unfold lastn. rewrite length_app.
  destruct (decide (length l + length k <= n)).
  - replace (length l + length k - n) with 0 by lia. replace (length l - (n - length k)) with 0 by lia.
    done.
  - rewrite drop_app_le by lia. f_equal. f_equal. lia.
Qed.

Lemma lastn_lastn {A} n m (l : list A) : n <= m -> lastn n (lastn m l) = lastn n l.
Proof.
  intros H. unfold lastn. rewrite length_drop, drop_drop. f_equal. lia.
Qed.

Lemma lastn_lastn_app {A} n (l k : list A) : lastn n (lastn n l ++ k) = lastn n (l ++ k).
Proof.
  destruct (decide (n <= length k)); [by rewrite !lastn_app_ge by done|].
  rewrite !lastn_app_lt by lia. f_equal. apply lastn_lastn. lia.
Qed.

Lemma sat_add_sat a b : sat (sat a + b) = sat (a + b).
Proof. unfold sat. lia. Qed.

Lemma sat_small a : (a <= USIZE_MAX)%N -> sat a = a.
Proof. unfold sat. lia. Qed.

(** * Refinement *)

Lemma trim_loop_spec tail excess omitted :
  (excess <= vlen (concat tail))%N ->
  exists tail', trim_loop tail excess (vlen (concat tail)) (sat omitted)
    = (tail', vlen (concat tail'), sat (omitted + excess))
  /\ concat tail' = drop (N.to_nat excess) (concat tail).
Proof.
  revert excess omitted. induction tail as [|front rest IH]; intros excess omitted Hle; cbn [trim_loop].
  { assert (excess = 0%N) as -> by (unfold vlen in Hle; cbn in Hle; lia). exists []. cbn. by rewrite N.add_0_r. }
  destruct (N.eqb_spec excess 0) as [->|Hne].
  { exists (front :: rest). by rewrite N.add_0_r. }
  unfold vlen in *. cbn [concat] in *. rewrite length_app in *.
  destruct (N.leb_spec (N.of_nat (length front)) excess) as [Hf|Hf].
  - destruct (IH (excess - N.of_nat (length front))%N (omitted + N.of_nat (length front))%N)
      as (tail' & E & Hd); [lia|].
    exists tail'. unfold saturating_sub, saturating_add. rewrite sat_add_sat.
    replace (N.of_nat (length front + length (concat rest)) - N.of_nat (length front))%N
      with (N.of_nat (length (concat rest))) by lia.
    rewrite E. split; [by rewrite <- N.add_assoc, (N.add_comm (N.of_nat _)), N.sub_add|].
    rewrite Hd, drop_app_ge by lia. f_equal. lia.
  - eexists. split.
    + unfold saturating_sub, saturating_add. rewrite sat_add_sat. f_equal. f_equal.
      cbn. rewrite length_app, length_drop. lia.
    + cbn. rewrite drop_app_le by lia. done.
Qed.

Lemma push_to_tail_spec b r c o :
  let T := N.to_nat (tail_budget b) in
  (tail_budget b <= 2 ^ 63)%N ->
  concat (tail b) = lastn T r -> tail_bytes b = vlen (lastn T r) -> omitted_bytes b = sat o ->
  exists tl, push_to_tail b c
    = set_tail b tl (vlen (lastn T (r ++ c)))
        (sat (o + vlen (lastn T r) + vlen c - vlen (lastn T (r ++ c))))
  /\ concat tl = lastn T (r ++ c).
Proof.
  intros T HT Htl Htb Ho. assert (T = N.to_nat (tail_budget b)) as ET by done. clearbody T.
  unfold push_to_tail. rewrite Ho, Htb.
  destruct (N.eqb_spec (tail_budget b) 0) as [E0|E0].
  { assert (forall l : bytes, lastn T l = []) as Hnil.
    { intros l. apply length_zero_iff_nil. rewrite length_lastn. lia. }
    exists (tail b). rewrite !Hnil in *. split; [|done].
    unfold saturating_add. rewrite sat_add_sat. unfold set_omitted, set_tail. rewrite Htb.
    f_equal. f_equal. unfold vlen. cbn. lia. }
  assert (length (lastn T (r ++ c)) = Nat.min T (length r + length c)) as Hlen
    by (rewrite length_lastn, length_app; lia).
  assert (length (lastn T r) = Nat.min T (length r)) as Hlen' by apply length_lastn.
  destruct (N.leb_spec (tail_budget b) (vlen c)) as [Hc|Hc].
  - assert (drop (N.to_nat (saturating_sub (vlen c) (tail_budget b))) c = lastn T (r ++ c)) as Hkept.
    { unfold vlen, saturating_sub in *. rewrite lastn_app_ge by lia. unfold lastn. f_equal. lia. }
    rewrite Hkept. exists [lastn T (r ++ c)]. split; [|cbn; by rewrite app_nil_r].
    f_equal. unfold saturating_add, saturating_sub, sat, vlen in *. lia.
  - set (b' := set_tail b (tail b ++ [c]) _ _). unfold trim_tail_to_budget.
    assert (tail_bytes b' = vlen (concat (tail b'))) as Htb'.
    { cbn. unfold saturating_add. rewrite sat_small; unfold vlen, USIZE_MAX in *; [|lia].
      rewrite concat_app, Htl. cbn. rewrite app_nil_r, length_app. lia. }
    rewrite Htb'.
    destruct (trim_loop_spec (tail b') (saturating_sub (vlen (concat (tail b'))) (tail_budget b')) o)
      as (tl & E & Hd). { unfold saturating_sub. lia. }
    replace (omitted_bytes b') with (sat o) by done. rewrite E. exists tl.
    assert (concat (tail b') = lastn T r ++ c) as Hcat
      by (cbn; rewrite concat_app, Htl; cbn; by rewrite app_nil_r).
    assert (concat tl = lastn T (r ++ c)) as Htl'.
    { rewrite Hd, Hcat, <- lastn_lastn_app. unfold lastn at 3. f_equal.
      unfold saturating_sub, vlen. cbn. lia. }
    split; [|done]. unfold set_tail. cbn [max_bytes head_budget tail_budget head head_bytes b'].
    f_equal; [by rewrite Htl'|]. f_equal. rewrite Hcat. unfold saturating_sub, vlen in *.
    cbn [tail_budget b' set_tail]. rewrite Hlen, length_app, Hlen'. lia.
Qed.

Lemma new_refines max : refines max (new max) [].
Proof.
  assert (kept_head max [] = [] /\ kept_tail max [] = []) as [Hh Ht].
  { unfold kept_head, kept_tail. by rewrite take_nil, drop_nil. }
  constructor; cbn; unfold kept; rewrite ?Hh, ?Ht; done.
Qed.

Lemma vlen_kept max s : vlen (kept max s) = (vlen (kept_head max s) + vlen (kept_tail max s))%N.
Proof. unfold kept, vlen. rewrite length_app. lia. Qed.

(** A chunk that goes to the tail entirely: the head is full. *)
Lemma push_tail_refines max b s c :
  (max <= USIZE_MAX)%N -> refines max b s -> head_cap max <= length s ->
  refines max (push_to_tail b c) (s ++ c).
Proof.
  intros Hmax [Em Eh Et Hh Ht Ehb Etb Eo] Hs.
  assert (kept_head max (s ++ c) = kept_head max s) as Hhead
    by (unfold kept_head; by rewrite take_app_le).
  assert (drop (head_cap max) (s ++ c) = drop (head_cap max) s ++ c) as Hdrop by by rewrite drop_app_le.
  destruct (push_to_tail_spec b (drop (head_cap max) s) c (vlen s - vlen (kept max s))%N)
    as (tl & -> & Htl); rewrite ?Et; try done.
  { unfold USIZE_MAX in Hmax. pose proof (N.div_mod max 2). pose proof (N.mod_lt max 2). lia. }
  rewrite Et in Htl. fold (tail_cap max) in *. rewrite <- Hdrop in *. fold (kept_tail max (s ++ c)) (kept_tail max s) in *.
  constructor; cbn; rewrite ?Hhead; try done.
  rewrite !vlen_kept, Hhead. f_equal. unfold vlen, kept_head, kept_tail in *.
  rewrite length_app, length_take, !length_lastn, !length_drop, length_app. lia.
Qed.

(** A chunk that fits in the head entirely. *)
Lemma push_head_refines max b s c :
  (max <= USIZE_MAX)%N -> refines max b s -> length s + length c <= head_cap max ->
  refines max (push_head b c) (s ++ c).
Proof.
  intros Hmax [Em Eh Et Hh Ht Ehb Etb Eo] Hs.
  assert (forall l : bytes, length l <= head_cap max -> kept_head max l = l /\ kept_tail max l = [])
    as Hsmall.
  { intros l Hl. unfold kept_head, kept_tail. by rewrite take_ge, drop_ge by lia. }
  destruct (Hsmall s) as [Hks Hts]; [lia|]. destruct (Hsmall (s ++ c)) as [Hk Ht']; [by rewrite length_app|].
  constructor; cbn; rewrite ?Hk, ?Ht'; try done.
  - rewrite concat_app, Hh, Hks. cbn. by rewrite app_nil_r.
  - by rewrite Ht, Hts.
  - rewrite Ehb, Hks. unfold saturating_add. rewrite sat_small; unfold vlen; rewrite ?length_app; [lia|].
    assert (max / 2 <= max)%N by (apply N.Div0.div_le_upper_bound; lia). unfold head_cap in *. lia.
  - by rewrite Etb, Hts.
  - rewrite Eo, !vlen_kept, Hks, Hts, Hk, Ht'. f_equal. unfold vlen. cbn. lia.
Qed.

Lemma push_chunk_refines max b s c :
  (max <= USIZE_MAX)%N -> refines max b s -> refines max (push_chunk b c) (s ++ c).
Proof.
  intros Hmax Hb. pose proof Hb as [Em Eh Et Hh Ht Ehb Etb Eo]. unfold push_chunk.
  rewrite Em, Ehb, Eh.
  assert (vlen (kept_head max s) = N.min (max / 2) (vlen s)) as Hlen.
  { unfold vlen, kept_head, head_cap. rewrite length_take. lia. }
  rewrite Hlen. destruct (N.eqb_spec max 0) as [E0|E0].
  { assert (forall l, kept_head max l = [] /\ kept_tail max l = []) as Hz.
    { intros l. rewrite E0. split; [done|]. apply length_zero_iff_nil.
      unfold kept_tail. rewrite length_lastn. done. }
    destruct (Hz s) as [Hs Hs'], (Hz (s ++ c)) as [Hc Hc'].
    constructor; cbn; rewrite ?Hc, ?Hc', ?Hh, ?Ht, ?Ehb, ?Etb, ?Hs, ?Hs'; try done.
    rewrite Eo, !vlen_kept, Hs, Hs', Hc, Hc'. unfold saturating_add. rewrite sat_add_sat. f_equal.
    unfold vlen. rewrite length_app. cbn. lia. }
  destruct (N.ltb_spec (N.min (max / 2) (vlen s)) (max / 2)) as [Hlt|Hge]; last first.
  { apply push_tail_refines; try done. unfold head_cap, vlen in *. lia. }
  unfold saturating_sub. replace (N.min (max / 2) (vlen s)) with (vlen s) by lia.
  destruct (N.leb_spec (vlen c) (max / 2 - vlen s)) as [Hc|Hc].
  { apply push_head_refines; try done. unfold head_cap, vlen in *. lia. }
  set (k := N.to_nat (max / 2 - vlen s)).
  assert (length s + k = head_cap max /\ k < length c) as [Hk Hkc]
    by (unfold k, head_cap, vlen in *; lia). clearbody k.
  rewrite <- (take_drop k c) at 3. rewrite app_assoc.
  assert (length (take k c) = k) as Htk by (rewrite length_take; lia).
  apply push_tail_refines; [done| |rewrite length_app; lia].
  destruct (take k c) as [|x l] eqn:E; [by rewrite app_nil_r|]. rewrite <- E in *.
  apply push_head_refines; try done. lia.
Qed.

(** * Sequences of operations *)

Inductive op : Set := PushChunk (chunk : bytes) | DrainChunks.

Definition exec (b : HeadTailBuffer) (o : op) : HeadTailBuffer :=
  match o with PushChunk c => push_chunk b c | DrainChunks => (drain_chunks b).1 end.

(** The stream since the last drain. *)
Definition stream (s : bytes) (o : op) : bytes :=
  match o with PushChunk c => s ++ c | DrainChunks => [] end.

Lemma exec_refines max b s o :
  (max <= USIZE_MAX)%N -> refines max b s -> refines max (exec b o) (stream s o).
Proof.
  intros Hmax Hb. destruct o as [c|]; cbn; [by apply push_chunk_refines|].
  destruct (new_refines max) as [? ? ? ? ? ? ? ?]. destruct Hb. by constructor.
Qed.

Lemma kept_length max s : vlen (kept max s) = N.min max (vlen s).
Proof.
  rewrite vlen_kept. unfold vlen, kept_head, kept_tail, head_cap, tail_cap.
  rewrite length_take, length_lastn, length_drop.
  assert (max / 2 <= max)%N by (apply N.Div0.div_le_upper_bound; lia). lia.
Qed.

Lemma kept_small max s : (vlen s <= max)%N -> kept max s = s.
Proof.
  intros Hs. unfold kept, kept_head, kept_tail. rewrite lastn_all; [apply take_drop|].
  rewrite length_drop. unfold vlen, head_cap, tail_cap in *.
  assert (max / 2 <= max)%N by (apply N.Div0.div_le_upper_bound; lia). lia.
Qed.

(** C16: after any sequence of pushes and drains, the buffer holds exactly the
    first [max/2] bytes of the stream since the last drain followed by the last
    [max - max/2] bytes of the rest; it never holds more than [max] bytes, its
    counters are exact (the count of omitted bytes saturates at the largest
    [usize]), a drain returns exactly what was held, and a stream that fits is
    kept unchanged. *)
Theorem head_tail_buffer_refines max ops :
  (max <= USIZE_MAX)%N ->
  let b := foldl exec (new max) ops in
  let s := foldl stream [] ops in
  to_bytes b = kept max s
  /\ concat (snapshot_chunks b) = kept max s
  /\ concat (drain_chunks b).2 = kept max s
  /\ retained_bytes b = N.min max (vlen s)
  /\ omitted_bytes b = sat (vlen s - N.min max (vlen s))
  /\ ((vlen s <= max)%N -> to_bytes b = s /\ omitted_bytes b = 0%N).
Proof.
  intros Hmax b s.
  assert (refines max b s) as [Em Eh Et Hh Ht Ehb Etb Eo].
  { unfold b, s. generalize (new_refines max). generalize (new max) as b0, (@nil Byte.byte) as s0.
    induction ops as [|o ops IH]; intros b0 s0 H0; [done|]. cbn. by apply IH, exec_refines. }
  assert (to_bytes b = kept max s) as Hk by (unfold to_bytes, kept; by rewrite Hh, Ht).
  split; [done|]. split; [unfold snapshot_chunks; by rewrite concat_app|].
  split; [cbn; by rewrite concat_app|].
  split.
  { unfold retained_bytes, saturating_add. rewrite Ehb, Etb, <- vlen_kept, kept_length.
    apply sat_small. lia. }
  rewrite Eo, kept_length. split; [done|]. intros Hs. rewrite Hk, kept_small by done.
  split; [done|]. replace (vlen s - N.min max (vlen s))%N with 0%N by lia. done.
Qed.

Lemma head_tail_buffer_refines_witness :
  let b := foldl exec (new 4) [PushChunk [x61; x62; x63]; PushChunk [x64; x65]; PushChunk [x66]] in
  to_bytes b = [x61; x62; x65; x66] /\ omitted_bytes b = 2%N.
Proof.
  pose proof (head_tail_buffer_refines 4
    [PushChunk [x61; x62; x63]; PushChunk [x64; x65]; PushChunk [x66]]) as H.
  destruct H as (H1 & _ & _ & _ & H2 & _); [vm_compute; discriminate|].
  split; [exact H1|exact H2].
Defined.
