(* ===== verification/Truncate.v ===== *)
(** [utils/string/src/truncate.rs] and [utils/output-truncation/src/lib.rs]:
    truncation of output text in the middle, by a byte or a token budget.

    Sizes and budgets are 64-bit [usize]/[u64] values in [N] with saturating
    arithmetic ([HeadTailBuffer]); a string slice at a byte position that is not
    a character boundary panics, which is [None]. *)

From stdpp Require Import base list option numbers strings.
From Stdlib Require Import NArith Lia.
From S2P Require Import Prelude RustStr HeadTailBuffer.
Local Open Scope rust_scope.

(** [str::len] as a [usize]. *)
Definition slen (s : str) : N := N.of_nat (blen s).

Definition clen (c : char) : N := N.of_nat (len_utf8 c).

(** [s.split_at(n)], [&s[..n]] and [&s[n..]]. *)
Fixpoint split_at_byte (s : str) (n : N) : option (str * str) :=
  if (n =? 0)%N then Some ([], s)
  else match s with
       | [] => None
       | c :: s => if (n <? clen c)%N then None
                   else (fun '(a, b) => (c :: a, b)) <$> split_at_byte s (n - clen c)
       end.
Definition slice_to (s : str) (n : N) : option str := fst <$> split_at_byte s n.
Definition slice_from (s : str) (n : N) : option str := snd <$> split_at_byte s n.

(** * [truncate.rs] *)

Definition APPROX_BYTES_PER_TOKEN : N := 4.

Definition approx_token_count (text : str) : N :=
  (saturating_add (slen text) (APPROX_BYTES_PER_TOKEN - 1) / APPROX_BYTES_PER_TOKEN)%N.

Definition approx_bytes_for_tokens (tokens : N) : N := sat (tokens * APPROX_BYTES_PER_TOKEN).

Definition approx_tokens_from_byte_count (bytes : N) : N :=
  (saturating_add bytes (APPROX_BYTES_PER_TOKEN - 1) / APPROX_BYTES_PER_TOKEN)%N.

(** The loop of [split_string] over [char_indices]. *)
Fixpoint split_loop (s : str) (idx beginning_bytes tail_start_target : N)
    (prefix_end suffix_start removed_chars : N) (suffix_started : bool) : N * N * N :=
  match s with
  | [] => (prefix_end, suffix_start, removed_chars)
  | ch :: s =>
      let char_end := (idx + clen ch)%N in
      if (char_end <=? beginning_bytes)%N
      then split_loop s char_end beginning_bytes tail_start_target char_end suffix_start
             removed_chars suffix_started
      else if (tail_start_target <=? idx)%N
      then split_loop s char_end beginning_bytes tail_start_target prefix_end
             (if suffix_started then suffix_start else idx) removed_chars true
      else split_loop s char_end beginning_bytes tail_start_target prefix_end suffix_start
             (saturating_add removed_chars 1) suffix_started
  end.

Definition split_string (s : str) (beginning_bytes end_bytes : N) : option (N * str * str) :=
  match s with
  | [] => Some (0%N, [], [])
  | _ =>
      let len := slen s in
      let tail_start_target := saturating_sub len end_bytes in
      let '(prefix_end, suffix_start, removed_chars) :=
        split_loop s 0 beginning_bytes tail_start_target 0 len 0 false in
      let suffix_start := if (suffix_start <? prefix_end)%N then prefix_end else suffix_start in
      match slice_to s prefix_end, slice_from s suffix_start with
      | Some before, Some after => Some (removed_chars, before, after)
      | _, _ => None
      end
  end.

Definition split_budget (budget : N) : N * N := (budget / 2, budget - budget / 2)%N.

Definition ELLIPSIS : char := 8230%N.

Definition format_truncation_marker (use_tokens : bool) (removed_count : N) : str :=
  [ELLIPSIS] ++ show_N removed_count
  ++ (if use_tokens then lit " tokens truncated" else lit " chars truncated") ++ [ELLIPSIS].

Definition removed_units (use_tokens : bool) (removed_bytes removed_chars : N) : N :=
  if use_tokens then approx_tokens_from_byte_count removed_bytes else sat removed_chars.

Definition assemble_truncated_output (prefix suffix marker : str) : str :=
  prefix ++ marker ++ suffix.

Definition truncate_with_byte_estimate (s : str) (max_bytes : N) (use_tokens : bool) : option str :=
  match s with
  | [] => Some []
  | _ =>
      let total_chars := N.of_nat (length s) in
      if (max_bytes =? 0)%N
      then Some (format_truncation_marker use_tokens (removed_units use_tokens (slen s) total_chars))
      else if (slen s <=? max_bytes)%N then Some s
      else
        let total_bytes := slen s in
        let '(left_budget, right_budget) := split_budget max_bytes in
        match split_string s left_budget right_budget with
        | None => None
        | Some (removed_chars, before, after) =>
            let marker := format_truncation_marker use_tokens
              (removed_units use_tokens (saturating_sub total_bytes max_bytes) removed_chars) in
            Some (assemble_truncated_output before after marker)
        end
  end.

Definition truncate_middle_chars (s : str) (max_bytes : N) : option str :=
  truncate_with_byte_estimate s max_bytes false.

Definition truncate_middle_with_token_budget (s : str) (max_tokens : N) : option (str * option N) :=
  match s with
  | [] => Some ([], None)
  | _ =>
      if (0 <? max_tokens)%N && (slen s <=? approx_bytes_for_tokens max_tokens)%N
      then Some (s, None)
      else
        match truncate_with_byte_estimate s (approx_bytes_for_tokens max_tokens) true with
        | None => None
        | Some truncated =>
            Some (truncated, if truncated == s then None else Some (approx_token_count s))
        end
  end.

(** * [output-truncation] *)

Inductive TruncationPolicy : Set := Bytes (bytes : N) | Tokens (tokens : N).

Definition token_budget (p : TruncationPolicy) : N :=
  match p with Bytes b => approx_tokens_from_byte_count b | Tokens t => t end.
Definition byte_budget (p : TruncationPolicy) : N :=
  match p with Bytes b => b | Tokens t => approx_bytes_for_tokens t end.

Definition truncate_text (content : str) (policy : TruncationPolicy) : option str :=
  match policy with
  | Bytes bytes => truncate_middle_chars content bytes
  | Tokens tokens => fst <$> truncate_middle_with_token_budget content tokens
  end.

Definition formatted_truncate_text (content : str) (policy : TruncationPolicy) : option str :=
  if (slen content <=? byte_budget policy)%N then Some content
  else
    (fun result =>
       lit "Warning: truncated output (original token count: " ++ show_N (approx_token_count content)
       ++ lit ")" ++ [NL] ++ lit "Total output lines: " ++ show_nat (length (lines content))
       ++ [NL; NL] ++ result)
    <$> truncate_text content policy.

(** [FunctionCallOutputContentItem]; the payloads of images and of encrypted
    content are carried along unread. *)
Inductive ContentItem : Set :=
| InputText (text : str)
| InputImage (image_url : str) (detail : option str)
| EncryptedContent (encrypted_content : str).

Definition is_text (i : ContentItem) : bool := match i with InputText _ => true | _ => false end.
Definition item_text (i : ContentItem) : option str :=
  match i with InputText t => Some t | _ => None end.

Definition combine_texts (texts : list str) : str :=
  foldl (fun combined text =>
           (match combined with [] => [] | _ => combined ++ [NL] end) ++ text) [] texts.

Definition formatted_truncate_text_content_items_with_policy (items : list ContentItem)
    (policy : TruncationPolicy) : option (list ContentItem * option N) :=
  let text_segments := omap item_text items in
  match text_segments with
  | [] => Some (items, None)
  | _ =>
      let combined := combine_texts text_segments in
      if (slen combined <=? byte_budget policy)%N then Some (items, None)
      else
        match formatted_truncate_text combined policy with
        | None => None
        | Some text =>
            Some (InputText text :: retain (fun i => negb (is_text i)) items,
                  Some (approx_token_count combined))
        end
  end.

Definition text_cost (policy : TruncationPolicy) (text : str) : N :=
  match policy with Bytes _ => slen text | Tokens _ => approx_token_count text end.
Definition with_budget (policy : TruncationPolicy) (n : N) : TruncationPolicy :=
  match policy with Bytes _ => Bytes n | Tokens _ => Tokens n end.

(** The loop over the items: output, remaining budget, omitted text items. *)
Fixpoint truncate_items (policy : TruncationPolicy) (items out : list ContentItem)
    (remaining_budget omitted_text_items : N) : option (list ContentItem * N) :=
  match items with
  | [] => Some (out, omitted_text_items)
  | InputText text :: items =>
      if (remaining_budget =? 0)%N
      then truncate_items policy items out remaining_budget (omitted_text_items + 1)
      else
        let cost := text_cost policy text in
        if (cost <=? remaining_budget)%N
        then truncate_items policy items (out ++ [InputText text])
               (saturating_sub remaining_budget cost) omitted_text_items
        else
          match truncate_text text (with_budget policy remaining_budget) with
          | None => None
          | Some [] => truncate_items policy items out 0 (omitted_text_items + 1)
          | Some snippet =>
              truncate_items policy items (out ++ [InputText snippet]) 0 omitted_text_items
          end
  | item :: items => truncate_items policy items (out ++ [item]) remaining_budget omitted_text_items
  end.

Definition truncate_function_output_items_with_policy (items : list ContentItem)
    (policy : TruncationPolicy) : option (list ContentItem) :=
  let remaining_budget :=
    match policy with Bytes _ => byte_budget policy | Tokens _ => token_budget policy end in
  match truncate_items policy items [] remaining_budget 0 with
  | None => None
  | Some (out, omitted) =>
      Some (if (0 <? omitted)%N
            then out ++ [InputText (lit "[omitted " ++ show_N omitted ++ lit " text items ...]")]
            else out)
  end.

(** * Slicing *)

Lemma slen_app a b : slen (a ++ b) = (slen a + slen b)%N.
Proof.
  unfold slen. induction a as [|c a IH]; cbn; [lia|]. rewrite !Nat2N.inj_add, IH. lia.
Qed.

Lemma slen_cons c s : slen (c :: s) = (clen c + slen s)%N.
Proof. unfold slen, clen. cbn. lia. Qed.

Lemma clen_pos c : (1 <= clen c)%N.
Proof. unfold clen, len_utf8. repeat case_match; lia. Qed.

Lemma split_at_byte_app a b : split_at_byte (a ++ b) (slen a) = Some (a, b).
Proof.
  induction a as [|c a IH]; cbn [app].
  { by destruct b. }
  rewrite slen_cons. cbn [split_at_byte]. pose proof (clen_pos c).
  destruct (N.eqb_spec (clen c + slen a) 0); [lia|].
  destruct (N.ltb_spec (clen c + slen a) (clen c)); [lia|].
  replace (clen c + slen a - clen c)%N with (slen a) by lia. by rewrite IH.
Qed.

(** * [split_string] *)

Definition first_beyond (s : str) (idx beginning : N) : Prop :=
  match s with [] => True | c :: _ => (beginning < idx + clen c)%N end.

Lemma split_loop_suffix s idx B T p ss r :
  first_beyond s idx B -> (T <= idx)%N -> split_loop s idx B T p ss r true = (p, ss, r).
Proof.
  revert idx. induction s as [|c s IH]; intros idx Hb HT; cbn [split_loop]; [done|]. cbn in Hb.
  destruct (N.leb_spec (idx + clen c) B); [lia|]. destruct (N.leb_spec T idx); [|lia].
  apply IH; [|lia]. destruct s as [|c' s]; [done|]. cbn. pose proof (clen_pos c'). lia.
Qed.

Lemma split_loop_middle s idx B T p ss r :
  first_beyond s idx B ->
  exists M S, s = M ++ S
    /\ split_loop s idx B T p ss (sat r) false
       = (p, match S with [] => ss | _ => (idx + slen M)%N end, sat (r + N.of_nat (length M)))
    /\ (S <> [] -> (T <= idx + slen M)%N).
Proof.
  revert idx r. induction s as [|c s IH]; intros idx r Hb.
  { exists [], []. split; [done|]. split; [|done]. cbn. by rewrite N.add_0_r. }
  cbn [split_loop]. cbn in Hb. destruct (N.leb_spec (idx + clen c) B); [lia|].
  assert (first_beyond s (idx + clen c) B) as Hb'
    by (destruct s as [|c' s]; [done|]; cbn; pose proof (clen_pos c'); lia).
  destruct (N.leb_spec T idx) as [HT|HT].
  - exists [], (c :: s). split; [done|]. rewrite split_loop_suffix by (done || lia). cbn.
    rewrite !N.add_0_r. split; [done|]. intros _. unfold slen. cbn. lia.
  - destruct (IH (idx + clen c)%N (r + 1)%N Hb') as (M & S & -> & E & HS).
    exists (c :: M), S. split; [done|]. unfold saturating_add. rewrite sat_add_sat, E. split.
    + f_equal; [f_equal; destruct S; [done|]; rewrite slen_cons; lia|]. f_equal. cbn. lia.
    + intros Hne. rewrite slen_cons. specialize (HS Hne). lia.
Qed.

Lemma split_loop_prefix s idx B T ss :
  exists P M S, s = P ++ M ++ S
    /\ split_loop s idx B T idx ss 0 false
       = ((idx + slen P)%N, match S with [] => ss | _ => (idx + slen P + slen M)%N end,
          sat (N.of_nat (length M)))
    /\ (P <> [] -> (idx + slen P <= B)%N)
    /\ first_beyond (M ++ S) (idx + slen P) B
    /\ (S <> [] -> (T <= idx + slen P + slen M)%N).
Proof.
  revert idx. induction s as [|c s IH]; intros idx.
  { exists [], [], []. cbn. by rewrite N.add_0_r. }
  destruct (N.leb_spec (idx + clen c) B) as [Hc|Hc].
  - cbn [split_loop]. rewrite (proj2 (N.leb_le _ _) Hc).
    destruct (IH (idx + clen c)%N) as (P & M & S & -> & E & HP & HF & HS). exists (c :: P), M, S.
    split; [done|]. rewrite E, slen_cons, !N.add_assoc. split; [done|]. split; [|done].
    intros _. destruct P; [unfold slen; cbn; lia|]. by apply HP.
  - destruct (split_loop_middle (c :: s) idx B T idx ss 0) as (M & S & E & Hl & HS); [done|].
    exists [], M, S. change (slen []) with 0%N. rewrite !N.add_0_r. cbn [app]. rewrite <- E.
    split; [done|]. split; [exact Hl|]. split; [done|]. split; [exact Hc|exact HS].
Qed.

Lemma split_string_spec s b e :
  exists P M S, s = P ++ M ++ S
    /\ split_string s b e = Some (sat (N.of_nat (length M)), P, S)
    /\ (slen P <= b)%N /\ (slen S <= e)%N /\ first_beyond (M ++ S) (slen P) b.
Proof.
  unfold split_string. destruct s as [|c s']; [exists [], [], []; unfold slen; cbn; split_and!; (done || lia)|].
  remember (c :: s') as s eqn:Es. clear c s' Es.
  destruct (split_loop_prefix s 0 b (saturating_sub (slen s) e) (slen s))
    as (P & M & S & Hs & E & HP & HF & HS).
  rewrite E. rewrite N.add_0_l in *.
  assert (slen s = slen P + slen M + slen S)%N as Hlen by (rewrite Hs, !slen_app; lia).
  replace (match S with [] => slen s | _ => (slen P + slen M)%N end) with (slen P + slen M)%N
    by (destruct S; [rewrite Hlen; unfold slen; cbn; lia|done]).
  destruct (N.ltb_spec (slen P + slen M) (slen P)); [lia|].
  assert (slice_to s (slen P) = Some P) as ->
    by (unfold slice_to; rewrite Hs, split_at_byte_app; done).
  assert (slice_from s (slen P + slen M) = Some S) as ->
    by (unfold slice_from; rewrite Hs, <- slen_app, app_assoc, split_at_byte_app; done).
  exists P, M, S. split; [done|]. split; [done|]. split; [|split; [|done]].
  - destruct P; [unfold slen; cbn; lia|]. by apply HP.
  - destruct S; [unfold slen; cbn; lia|]. unfold saturating_sub in HS. specialize (HS ltac:(done)). lia.
Qed.

(** The number a marker shows: characters removed, or the tokens over budget. *)
Definition removed_count (use_tokens : bool) (s mid : str) (max_bytes : N) : N :=
  if use_tokens then approx_tokens_from_byte_count (slen s - max_bytes)
  else sat (N.of_nat (length mid)).

(** Truncating in the middle never panics and cuts only at character
    boundaries: a text within the budget (or empty) is returned unchanged, and
    a longer one becomes a prefix and a suffix of it, together at most
    [max_bytes] long, around a marker that reports what was removed between
    them; the prefix is the longest that fits in half the budget. *)
Theorem truncate_middle_spec s max_bytes use_tokens :
  exists out, truncate_with_byte_estimate s max_bytes use_tokens = Some out
  /\ ((slen s <= max_bytes)%N -> out = s)
  /\ ((max_bytes < slen s)%N ->
      exists before mid after, s = before ++ mid ++ after
      /\ out = before ++ format_truncation_marker use_tokens (removed_count use_tokens s mid max_bytes)
               ++ after
      /\ (slen before <= max_bytes / 2)%N /\ (slen before + slen after <= max_bytes)%N
      /\ first_beyond (mid ++ after) (slen before) (max_bytes / 2)).
Proof.
  unfold truncate_with_byte_estimate. destruct s as [|c s'].
  { exists []. split; [done|]. split; [done|]. unfold slen. cbn. lia. }
  remember (c :: s') as s eqn:Es.
  assert (0 < slen s)%N as Hpos by (subst; rewrite slen_cons; pose proof (clen_pos c); lia). clear Es c s'.
  destruct (N.eqb_spec max_bytes 0) as [->|H0].
  { eexists. split; [done|]. split; [lia|]. intros _. exists [], s, []. rewrite !app_nil_r. cbn [app].
    split; [done|]. split; [|destruct s as [|x s]; [done|]; split_and!;
      [done|done|change (0 < clen x)%N; pose proof (clen_pos x); lia]].
    unfold removed_units, removed_count. by rewrite N.sub_0_r. }
  destruct (N.leb_spec (slen s) max_bytes) as [Hle|Hgt].
  { exists s. split; [done|]. split; [done|]. lia. }
  cbn [split_budget]. destruct (split_string_spec s (max_bytes / 2) (max_bytes - max_bytes / 2))
    as (P & M & S & Hs & -> & HP & HS & HF).
  assert (max_bytes / 2 <= max_bytes)%N by (apply N.Div0.div_le_upper_bound; lia).
  eexists. split; [done|]. split; [lia|]. intros _. exists P, M, S.
  split; [done|]. split; [|split_and!; try done; lia].
  unfold assemble_truncated_output, removed_units, removed_count, saturating_sub.
  destruct use_tokens; [done|]. unfold sat. by rewrite <- N.min_assoc, N.min_id.
Qed.

Lemma truncate_middle_spec_witness :
  truncate_middle_chars (lit "abcdefghij") 4 = Some (lit "ab" ++ format_truncation_marker false 6 ++ lit "ij")
  /\ exists out, truncate_middle_chars (lit "abc") 4 = Some out /\ out = lit "abc".
Proof.
  split; [vm_compute; reflexivity|].
  destruct (truncate_middle_spec (lit "abc") 4 false) as (out & E & Hs & _).
  exists out. split; [exact E|]. apply Hs. vm_compute. discriminate.
Defined.

(** * Lists of output items *)

Lemma truncate_text_total text policy : exists out, truncate_text text policy = Some out.
Proof.
  assert (forall n b, exists out, truncate_with_byte_estimate text n b = Some out) as H.
  { intros n b. destruct text as [|c s]; [by eexists|]. unfold truncate_with_byte_estimate.
    repeat case_match; eauto. simplify_eq.
    destruct (split_string_spec (c :: s) n0 n1) as (? & ? & ? & _ & E & _). congruence. }
  destruct policy as [n|n]; cbn; [apply H|]. unfold truncate_middle_with_token_budget.
  destruct text as [|c s]; [by eexists|]. case_match; [by eexists|].
  destruct (H (approx_bytes_for_tokens n) true) as [out ->]. by eexists.
Qed.

Fixpoint total_cost (policy : TruncationPolicy) (items : list ContentItem) : N :=
  match items with
  | [] => 0
  | InputText text :: items => text_cost policy text + total_cost policy items
  | _ :: items => total_cost policy items
  end.

Definition non_text (items : list ContentItem) : list ContentItem :=
  retain (fun i => negb (is_text i)) items.

Lemma non_text_app a b : non_text (a ++ b) = non_text a ++ non_text b.
Proof.
  unfold non_text. induction a as [|i a IH]; cbn; [done|]. destruct (negb (is_text i)); cbn; by rewrite IH.
Qed.

Lemma truncate_items_spec policy items out budget omitted :
  exists out' omitted', truncate_items policy items out budget omitted = Some (out ++ out', omitted')
    /\ non_text out' = non_text items
    /\ ((total_cost policy items < budget)%N -> out' = items /\ omitted' = omitted).
Proof.
  revert out budget omitted. induction items as [|i items IH]; intros out budget omitted.
  { exists [], omitted. cbn. by rewrite app_nil_r. }
  assert (forall out1 b1 o1 new,
    out1 = out ++ new -> non_text new = non_text [i] ->
    ((total_cost policy (i :: items) < budget)%N ->
       new = [i] /\ o1 = omitted /\ (total_cost policy items < b1)%N) ->
    exists out' omitted', truncate_items policy items out1 b1 o1 = Some (out ++ out', omitted')
    /\ non_text out' = non_text (i :: items)
    /\ ((total_cost policy (i :: items) < budget)%N -> out' = i :: items /\ omitted' = omitted)) as Hstep.
  { intros out1 b1 o1 new -> Hnt Hcost. destruct (IH (out ++ new) b1 o1) as (out' & o' & E & Hn & Hc).
    exists (new ++ out'), o'. rewrite E, <- app_assoc. split; [done|]. split.
    - rewrite non_text_app, Hnt, Hn. by destruct i.
    - intros H. destruct (Hcost H) as (-> & -> & Hb). destruct (Hc Hb) as [-> ->]. done. }
  destruct i as [text|u d|e]; cbn [truncate_items].
  - destruct (N.eqb_spec budget 0) as [->|H0].
    { apply (Hstep _ _ _ []); [by rewrite app_nil_r|done|lia]. }
    destruct (N.leb_spec (text_cost policy text) budget) as [Hc|Hc].
    { apply (Hstep _ _ _ [InputText text]); [done|done|]. cbn. unfold saturating_sub. intros.
      split_and!; try done. lia. }
    destruct (truncate_text_total text (with_budget policy budget)) as [snippet ->].
    destruct snippet as [|c snippet].
    + apply (Hstep _ _ _ []); [by rewrite app_nil_r|done|]. cbn. lia.
    + apply (Hstep _ _ _ [InputText (c :: snippet)]); [done|done|]. cbn. lia.
  - apply (Hstep _ _ _ [InputImage u d]); [done|done|]. by cbn.
  - apply (Hstep _ _ _ [EncryptedContent e]); [done|done|]. by cbn.
Qed.

(** Truncating a list of output items never fails, keeps every image and
    every encrypted item, in order, and returns the list unchanged when its
    texts cost less than the budget. *)
Theorem truncate_output_items_spec items policy :
  exists out, truncate_function_output_items_with_policy items policy = Some out
  /\ non_text out = non_text items
  /\ ((total_cost policy items < match policy with Bytes n | Tokens n => n end)%N -> out = items).
Proof.
  unfold truncate_function_output_items_with_policy.
  replace (match policy with Bytes _ => byte_budget policy | Tokens _ => token_budget policy end)
    with (match policy with Bytes n | Tokens n => n end) by (by destruct policy).
  destruct (truncate_items_spec policy items [] (match policy with Bytes n | Tokens n => n end) 0)
    as (out & omitted & -> & Hn & Hc).
  cbn [app]. eexists. split; [done|]. split.
  - destruct (0 <? omitted)%N; [|done]. rewrite non_text_app, Hn. cbn. by rewrite app_nil_r.
  - intros H. destruct (Hc H) as [-> ->]. done.
Qed.

Lemma truncate_output_items_spec_witness :
  let items := [InputText (lit "hello"); InputImage (lit "u") None] in
  exists out, truncate_function_output_items_with_policy items (Bytes 100) = Some out /\ out = items.
Proof.
  intros items. destruct (truncate_output_items_spec items (Bytes 100)) as (out & E & _ & Hc).
  exists out. split; [exact E|]. apply Hc. vm_compute. reflexivity.
Defined.
