(* ===== verification/TaggedLines.v ===== *)
(** [utils/stream-parser/src]: [stream_text.rs], [tagged_line_parser.rs] and
    [proposed_plan.rs].

    The trait [StreamTextParser] is a class; [TaggedLineParser] recognises tags
    that stand alone on a line in text that arrives in arbitrary pieces, and
    [ProposedPlanParser] is its instance for plan blocks.  The reference is the
    line-by-line reading of the whole text ([read_lines]). *)

From stdpp Require Import base list option numbers strings sets.
From Stdlib Require Import NArith Lia.
From S2P Require Import Prelude RustStr.
Local Open Scope rust_scope.

(** * [stream_text.rs] *)

Record StreamTextChunk (E : Type) := mkChunk { visible_text : str; extracted : list E }.
Arguments mkChunk {E}.
Arguments visible_text {E}.
Arguments extracted {E}.

Definition default_chunk {E} : StreamTextChunk E := mkChunk [] [].
Definition chunk_is_empty {E} (c : StreamTextChunk E) : bool :=
  match c.(visible_text), c.(extracted) with [], [] => true | _, _ => false end.
(** Appending one parser result to another. *)
Definition chunk_append {E} (a b : StreamTextChunk E) : StreamTextChunk E :=
  mkChunk (a.(visible_text) ++ b.(visible_text)) (a.(extracted) ++ b.(extracted)).

Class StreamTextParser (P E : Type) := {
  push_str : P -> str -> P * StreamTextChunk E;
  finish : P -> P * StreamTextChunk E;
}.

(** Feeding a sequence of pieces and flushing. *)
Fixpoint push_all {P E} `{StreamTextParser P E} (p : P) (pieces : list str) : P * StreamTextChunk E :=
  match pieces with
  | [] => (p, default_chunk)
  | piece :: pieces =>
      let '(p, out) := push_str p piece in
      let '(p, rest) := push_all p pieces in
      (p, chunk_append out rest)
  end.

Definition run_parser {P E} `{StreamTextParser P E} (p : P) (pieces : list str) : StreamTextChunk E :=
  let '(p, out) := push_all p pieces in
  chunk_append out (finish p).2.

(** * [tagged_line_parser.rs] *)

Record TagSpec (T : Type) := mkTagSpec { ts_open : str; ts_close : str; ts_tag : T }.
Arguments mkTagSpec {T}.
Arguments ts_open {T}.
Arguments ts_close {T}.
Arguments ts_tag {T}.

Inductive TaggedLineSegment (T : Type) : Type :=
| Normal (s : str)
| TagStart (t : T)
| TagDelta (t : T) (s : str)
| TagEnd (t : T).
Arguments Normal {T}.
Arguments TagStart {T}.
Arguments TagDelta {T}.
Arguments TagEnd {T}.

Section tagged.
Context {T : Type} `{EqDecision T}.

Record TaggedLineParser : Type := mkTagged {
  tl_specs : list (TagSpec T);
  active_tag : option T;
  detect_tag : bool;
  line_buffer : str;
}.

Definition tagged_new (specs : list (TagSpec T)) : TaggedLineParser := mkTagged specs None true [].

Definition push_segment (segments : list (TaggedLineSegment T)) (segment : TaggedLineSegment T) :
    list (TaggedLineSegment T) :=
  match segment with
  | Normal [] | TagDelta _ [] => segments
  | Normal delta =>
      match last segments with
      | Some (Normal existing) => removelast segments ++ [Normal (existing ++ delta)]
      | _ => segments ++ [Normal delta]
      end
  | TagDelta tag delta =>
      match last segments with
      | Some (TagDelta existing_tag existing) =>
          if existing_tag == tag then removelast segments ++ [TagDelta tag (existing ++ delta)]
          else segments ++ [TagDelta tag delta]
      | _ => segments ++ [TagDelta tag delta]
      end
  | TagStart _ | TagEnd _ => segments ++ [segment]
  end.

Definition push_text (active : option T) (text : str) (segments : list (TaggedLineSegment T)) :
    list (TaggedLineSegment T) :=
  match active with
  | Some tag => push_segment segments (TagDelta tag text)
  | None => push_segment segments (Normal text)
  end.

Definition is_tag_prefix (specs : list (TagSpec T)) (slug : str) : bool :=
  let slug := trim_end slug in
  existsb (fun spec => starts_with slug spec.(ts_open) || starts_with slug spec.(ts_close)) specs.

(** [iter().find(..).map(|spec| spec.tag)]. *)
Definition find_tag (part : TagSpec T -> str) (specs : list (TagSpec T)) (slug : str) : option T :=
  ts_tag <$> find (fun spec => part spec == slug) specs.
Definition match_open := find_tag ts_open.
Definition match_close := find_tag ts_close.

(** [strip_suffix('\n').unwrap_or(..)], then both trims. *)
Definition line_slug (line : str) : str :=
  trim_end (trim_start (default line (strip_suffix [NL] line))).

(** The tag decision shared by [finish_line] and [finish]: the new active tag
    and the segments. *)
Definition decide_line (specs : list (TagSpec T)) (active : option T) (line : str)
    (segments : list (TaggedLineSegment T)) : option T * list (TaggedLineSegment T) :=
  let slug := line_slug line in
  match match_open specs slug, active with
  | Some tag, None => (Some tag, push_segment segments (TagStart tag))
  | _, _ =>
      match match_close specs slug with
      | Some tag =>
          if active == Some tag then (None, push_segment segments (TagEnd tag))
          else (active, push_text active line segments)
      | None => (active, push_text active line segments)
      end
  end.

Definition finish_line (self : TaggedLineParser) (segments : list (TaggedLineSegment T)) :
    TaggedLineParser * list (TaggedLineSegment T) :=
  let '(active, segments) := decide_line self.(tl_specs) self.(active_tag) self.(line_buffer) segments in
  (mkTagged self.(tl_specs) active true [], segments).

(** One iteration of the loop of [parse]. *)
Definition parse_char (st : TaggedLineParser * str * list (TaggedLineSegment T)) (ch : char) :
    TaggedLineParser * str * list (TaggedLineSegment T) :=
  let '(self, run, segments) := st in
  if self.(detect_tag) then
    let segments := match run with [] => segments | _ => push_text self.(active_tag) run segments end in
    let self := mkTagged self.(tl_specs) self.(active_tag) true (self.(line_buffer) ++ [ch]) in
    if (ch =? NL)%N then let '(self, segments) := finish_line self segments in (self, [], segments)
    else
      let slug := trim_start self.(line_buffer) in
      if (slug == []) || is_tag_prefix self.(tl_specs) slug then (self, [], segments)
      else (mkTagged self.(tl_specs) self.(active_tag) false [], [],
            push_text self.(active_tag) self.(line_buffer) segments)
  else
    let run := run ++ [ch] in
    if (ch =? NL)%N
    then (mkTagged self.(tl_specs) self.(active_tag) true self.(line_buffer), [],
          push_text self.(active_tag) run segments)
    else (self, run, segments).

Definition tagged_parse (self : TaggedLineParser) (delta : str) :
    TaggedLineParser * list (TaggedLineSegment T) :=
  let '(self, run, segments) := foldl parse_char (self, [], []) delta in
  (self, match run with [] => segments | _ => push_text self.(active_tag) run segments end).

Definition tagged_finish (self : TaggedLineParser) :
    TaggedLineParser * list (TaggedLineSegment T) :=
  let '(active, segments) :=
    match self.(line_buffer) with
    | [] => (self.(active_tag), [])
    | buffered => decide_line self.(tl_specs) self.(active_tag) buffered []
    end in
  let segments := match active with Some tag => push_segment segments (TagEnd tag) | None => segments end in
  (mkTagged self.(tl_specs) None true [], segments).
End tagged.
Arguments TaggedLineParser : clear implicits.

(** * [proposed_plan.rs] *)

Inductive PlanTag : Set := ProposedPlan.

#[global] Instance PlanTag_eq_dec : EqDecision PlanTag.
Proof. solve_decision. Defined.

Inductive ProposedPlanSegment : Set :=
| PlanNormal (s : str)
| ProposedPlanStart
| ProposedPlanDelta (s : str)
| ProposedPlanEnd.

Definition OPEN_TAG : str := lit "<proposed_plan>".
Definition CLOSE_TAG : str := lit "</proposed_plan>".

Abbreviation ProposedPlanParser := (TaggedLineParser PlanTag).

Definition plan_new : ProposedPlanParser := tagged_new [mkTagSpec OPEN_TAG CLOSE_TAG ProposedPlan].

Definition map_segment (segment : TaggedLineSegment PlanTag) : ProposedPlanSegment :=
  match segment with
  | Normal text => PlanNormal text
  | TagStart ProposedPlan => ProposedPlanStart
  | TagDelta ProposedPlan text => ProposedPlanDelta text
  | TagEnd ProposedPlan => ProposedPlanEnd
  end.

Definition map_segments (segments : list (TaggedLineSegment PlanTag)) :
    StreamTextChunk ProposedPlanSegment :=
  foldl (fun out segment =>
           let mapped := map_segment segment in
           mkChunk (out.(visible_text) ++ match mapped with PlanNormal text => text | _ => [] end)
             (out.(extracted) ++ [mapped])) default_chunk segments.

#[global] Instance ProposedPlanParser_Stream : StreamTextParser ProposedPlanParser ProposedPlanSegment := {|
  push_str p chunk := let '(p, segments) := tagged_parse p chunk in (p, map_segments segments);
  finish p := let '(p, segments) := tagged_finish p in (p, map_segments segments);
|}.

Definition strip_proposed_plan_blocks (text : str) : str :=
  visible_text (run_parser plan_new [text]).

(** The loop of [extract_proposed_plan_text]. *)
Fixpoint plan_text_of (segments : list ProposedPlanSegment) (plan_text : str) (saw : bool) :
    option str :=
  match segments with
  | [] => if saw then Some plan_text else None
  | ProposedPlanStart :: rest => plan_text_of rest [] true
  | ProposedPlanDelta delta :: rest => plan_text_of rest (plan_text ++ delta) saw
  | _ :: rest => plan_text_of rest plan_text saw
  end.

Definition extract_proposed_plan_text (text : str) : option str :=
  plan_text_of (extracted (run_parser plan_new [text])) [] false.

(** * What the segments say *)

(** The content of a segment list, independent of how text is split into
    segments: each character with the block it belongs to, and the tags. *)
Inductive atom (T : Type) : Type :=
| AChar (owner : option T) (c : char)
| AStart (t : T)
| AEnd (t : T).
Arguments AChar {T}.
Arguments AStart {T}.
Arguments AEnd {T}.

Section meaning.
Context {T : Type} `{EqDecision T}.
Implicit Types (specs : list (TagSpec T)) (active : option T) (segs : list (TaggedLineSegment T))
  (p : TaggedLineParser T).

Definition text_atoms active (s : str) : list (atom T) := AChar active <$> s.

Definition segment_atoms (s : TaggedLineSegment T) : list (atom T) :=
  match s with
  | Normal t => text_atoms None t
  | TagStart t => [AStart t]
  | TagDelta tag t => text_atoms (Some tag) t
  | TagEnd t => [AEnd t]
  end.

Definition atoms segs : list (atom T) := concat (segment_atoms <$> segs).

Lemma atoms_app a b : atoms (a ++ b) = atoms a ++ atoms b.
Proof. unfold atoms. by rewrite fmap_app, concat_app. Qed.

Lemma atoms_snoc a s : atoms (a ++ [s]) = atoms a ++ segment_atoms s.
Proof. rewrite atoms_app. unfold atoms at 2. cbn. by rewrite app_nil_r. Qed.

Lemma atoms_push_segment segs s : atoms (push_segment segs s) = atoms segs ++ segment_atoms s.
Proof.
  assert (forall x y z, last segs = Some x -> segment_atoms y = segment_atoms x ++ z ->
    atoms (removelast segs ++ [y]) = atoms segs ++ z) as Hmerge.
  { intros x y z Hl Hy. apply list_last_split in Hl as [k ->].
    rewrite removelast_last, !atoms_snoc, Hy. by rewrite app_assoc. }
  destruct s as [[|c d]|t|t [|c d]|t]; cbn [push_segment]; rewrite ?app_nil_r; try apply atoms_snoc; try done.
  - repeat case_match; try apply atoms_snoc. eapply Hmerge; [done|]. exact (fmap_app _ _ _).
  - repeat case_match; try apply atoms_snoc. to_props. subst. eapply Hmerge; [done|]. exact (fmap_app _ _ _).
Qed.

Lemma atoms_push_text active text segs :
  atoms (push_text active text segs) = atoms segs ++ text_atoms active text.
Proof. destruct active; apply atoms_push_segment. Qed.

Lemma text_atoms_app active a b : text_atoms active (a ++ b) = text_atoms active a ++ text_atoms active b.
Proof. apply fmap_app. Qed.

(** ** Reference: one line at a time *)

(** The line is an opening tag outside a block, the closing tag of the current
    block, or text. *)
Definition read_line specs active (line : str) : option T * list (atom T) :=
  match match_open specs (line_slug line), active with
  | Some tag, None => (Some tag, [AStart tag])
  | _, _ =>
      match match_close specs (line_slug line) with
      | Some tag => if active == Some tag then (None, [AEnd tag]) else (active, text_atoms active line)
      | None => (active, text_atoms active line)
      end
  end.

Fixpoint read_lines specs active (ls : list str) : option T * list (atom T) :=
  match ls with
  | [] => (active, [])
  | l :: ls =>
      let '(active, out) := read_line specs active l in
      let '(active, rest) := read_lines specs active ls in
      (active, out ++ rest)
  end.

(** [str::split_inclusive]: lines with their newline; no empty last line. *)
Fixpoint split_inclusive (s : str) : list str :=
  match s with
  | [] => []
  | c :: s => if (c =? NL)%N then [c] :: split_inclusive s
              else match split_inclusive s with
                   | [] => [[c]]
                   | l :: ls => (c :: l) :: ls
                   end
  end.

(** The whole text, with a block still open at its end closed. *)
Definition read_text specs (text : str) : list (atom T) :=
  let '(active, out) := read_lines specs None (split_inclusive text) in
  out ++ match active with Some tag => [AEnd tag] | None => [] end.

Lemma decide_line_atoms specs active line segs :
  let '(active', segs') := decide_line specs active line segs in
  read_line specs active line = (active', (read_line specs active line).2)
  /\ atoms segs' = atoms segs ++ (read_line specs active line).2.
Proof.
  unfold decide_line, read_line.
  repeat case_match; simplify_eq; cbn [snd]; rewrite ?atoms_push_segment, ?atoms_push_text; done.
Qed.

(** ** The streaming parser as a transducer *)

Definition step p (ch : char) : TaggedLineParser T * list (atom T) :=
  if p.(detect_tag) then
    let line := p.(line_buffer) ++ [ch] in
    if (ch =? NL)%N then
      let '(active, out) := read_line p.(tl_specs) p.(active_tag) line in
      (mkTagged p.(tl_specs) active true [], out)
    else if (trim_start line == []) || is_tag_prefix p.(tl_specs) (trim_start line)
    then (mkTagged p.(tl_specs) p.(active_tag) true line, [])
    else (mkTagged p.(tl_specs) p.(active_tag) false [], text_atoms p.(active_tag) line)
  else (mkTagged p.(tl_specs) p.(active_tag) (ch =? NL)%N p.(line_buffer), text_atoms p.(active_tag) [ch]).

Fixpoint steps p (s : str) : TaggedLineParser T * list (atom T) :=
  match s with
  | [] => (p, [])
  | c :: s => let '(p, out) := step p c in let '(p, rest) := steps p s in (p, out ++ rest)
  end.

Lemma flush_atoms active run segs :
  atoms (match run with [] => segs | _ => push_text active run segs end)
  = atoms segs ++ text_atoms active run.
Proof. destruct run; [by rewrite app_nil_r|]. apply atoms_push_text. Qed.

Lemma parse_char_step p run segs ch :
  let '(p', run', segs') := parse_char (p, run, segs) ch in
  p' = (step p ch).1
  /\ atoms segs' ++ text_atoms p'.(active_tag) run'
     = (atoms segs ++ text_atoms p.(active_tag) run) ++ (step p ch).2.
Proof.
  destruct p as [specs active detect buf]. unfold parse_char, step. cbn [tl_specs active_tag detect_tag line_buffer].
  destruct detect; cbn [tl_specs active_tag detect_tag line_buffer].
  - destruct (ch =? NL)%N.
    + unfold finish_line. cbn [tl_specs active_tag detect_tag line_buffer].
      pose proof (decide_line_atoms specs active (buf ++ [ch])
        (match run with [] => segs | _ => push_text active run segs end)) as Hd.
      destruct (decide_line _ _ _ _) as [active' segs']. destruct Hd as [-> Hd]. cbn.
      rewrite app_nil_r, Hd, flush_atoms. done.
    + destruct (_ || _); cbn; rewrite ?app_nil_r, ?atoms_push_text, flush_atoms; done.
  - destruct (ch =? NL)%N; cbn; (split; [done|]);
      rewrite ?atoms_push_text, ?text_atoms_app, ?app_nil_r, <- ?app_assoc; done.
Qed.

Lemma tagged_parse_steps p delta :
  (tagged_parse p delta).1 = (steps p delta).1
  /\ atoms (tagged_parse p delta).2 = (steps p delta).2.
Proof.
  unfold tagged_parse.
  assert (forall run segs,
    let '(p', run', segs') := foldl parse_char (p, run, segs) delta in
    p' = (steps p delta).1 /\ atoms segs' ++ text_atoms p'.(active_tag) run'
      = (atoms segs ++ text_atoms p.(active_tag) run) ++ (steps p delta).2) as H.
  { revert p. induction delta as [|c delta IH]; intros p run segs; [by cbn; rewrite !app_nil_r|].
    cbn [foldl steps]. pose proof (parse_char_step p run segs c) as Hs.
    destruct (parse_char (p, run, segs) c) as [[p1 run1] segs1]. destruct Hs as [-> Hs].
    destruct (step p c) as [p1 out]. cbn in *. specialize (IH p1 run1 segs1).
    destruct (foldl parse_char _ delta) as [[p2 run2] segs2]. destruct (steps p1 delta) as [p3 rest].
    cbn in *. destruct IH as [-> IH]. split; [done|]. by rewrite IH, Hs, <- !app_assoc. }
  specialize (H [] []). destruct (foldl parse_char (p, [], []) delta) as [[p' run'] segs'].
  destruct H as [-> H]. cbn [fst snd]. split; [done|]. rewrite flush_atoms, H. done.
Qed.

Lemma steps_app p a b :
  steps p (a ++ b)
  = ((steps (steps p a).1 b).1, (steps p a).2 ++ (steps (steps p a).1 b).2).
Proof.
  revert p. induction a as [|c a IH]; intros p; cbn; [by destruct (steps p b)|].
  destruct (step p c) as [p1 out]. rewrite IH. destruct (steps p1 a) as [p2 o2]. cbn.
  by rewrite app_assoc.
Qed.
End meaning.

(** * The tag of a line is never missed *)

Lemma trim_end_prefix y r : exists t, trim_end (y ++ r) = trim_end y ++ t.
Proof.
  destruct (trim_end_split y) as (w1 & Hy & _). destruct (trim_end_split (y ++ r)) as (w2 & Hyr & Hw2).
  set (e := trim_end y) in *. set (t := trim_end (y ++ r)) in *.
  assert (e ++ (w1 ++ r) = t ++ w2) as Heq by (rewrite app_assoc, <- Hy; exact Hyr).
  apply app_eq_inv in Heq as [(k & He & Hk)|(k & Ht & _)]; [|by exists k].
  assert (trim_end e = e) as Hide by apply trim_end_idem.
  assert (Forall (fun c => is_whitespace c = true) k) as Hkw
    by (rewrite Hk in Hw2; by apply Forall_app in Hw2 as [? _]).
  rewrite He, trim_end_ws in Hide by done. exists []. rewrite app_nil_r, He.
  assert (trim_end t = t) as Htt by apply trim_end_idem. congruence.
Qed.

Lemma slug_prefix x full r :
  full = x ++ r -> trim_start x <> [] ->
  starts_with (trim_end (trim_start x)) (trim_end (trim_start full)) = true.
Proof.
  intros -> Hne. assert (trim_start (x ++ r) = trim_start x ++ r) as -> by by apply drop_while_app.
  destruct (trim_end_prefix (trim_start x) r) as [t ->]. apply starts_with_spec. eauto.
Qed.

Section lines.
Context {T : Type} `{EqDecision T} (specs : list (TagSpec T)).

(** What the parser still takes for the start of a tag line. *)
Definition candidate (u : str) : bool := (trim_start u == []) || is_tag_prefix specs (trim_start u).

Lemma find_tag_prefix (part : TagSpec T -> str) x full r t :
  (part = ts_open \/ part = ts_close) ->
  full = x ++ r -> find_tag part specs (trim_end (trim_start full)) = Some t -> candidate x = true.
Proof.
  intros Hpart Hfull Hf. unfold candidate. case_bool_decide as Hx; [done|]. cbn [orb].
  unfold find_tag in Hf. apply fmap_Some in Hf as (spec & Hs & _).
  apply find_some in Hs as [Hin Hslug]. to_props. unfold is_tag_prefix.
  apply existsb_exists. exists spec. split; [done|].
  pose proof (slug_prefix x full r Hfull Hx) as Hp. rewrite <- Hslug in Hp.
  destruct Hpart as [-> | ->]; rewrite Hp; [done|apply orb_true_r].
Qed.

(** A line with a prefix that is no tag prefix is text. *)
Lemma read_line_text active x r line :
  candidate x = false -> default line (strip_suffix [NL] line) = x ++ r ->
  read_line specs active line = (active, text_atoms active line).
Proof.
  intros Hx Hl. unfold read_line, line_slug. rewrite Hl.
  destruct (match_open specs _) eqn:Eo.
  { by rewrite (find_tag_prefix ts_open x _ r _ (or_introl eq_refl) eq_refl Eo) in Hx. }
  destruct (match_close specs _) eqn:Ec; [|done].
  by rewrite (find_tag_prefix ts_close x _ r _ (or_intror eq_refl) eq_refl Ec) in Hx.
Qed.

Lemma steps_text active buf w :
  NL ∉ w -> steps (mkTagged specs active false buf) w
            = (mkTagged specs active false buf, text_atoms active w).
Proof.
  induction w as [|c w IH]; intros Hw; [done|]. cbn [steps]. unfold step. cbn [detect_tag tl_specs active_tag line_buffer].
  destruct (N.eqb_spec c NL) as [->|_]; [set_solver|]. rewrite IH by set_solver. done.
Qed.

(** Reading the body of a line after [u]: still a candidate, or text. *)
Lemma steps_body active u w :
  NL ∉ w ->
  steps (mkTagged specs active true u) w = (mkTagged specs active true (u ++ w), [])
  \/ (steps (mkTagged specs active true u) w = (mkTagged specs active false [], text_atoms active (u ++ w))
      /\ exists x r, u ++ w = x ++ r /\ candidate x = false).
Proof.
  revert u. induction w as [|c w IH]; intros u Hw; [left; cbn; by rewrite app_nil_r|].
  cbn [steps]. unfold step. cbn [detect_tag tl_specs active_tag line_buffer].
  destruct (N.eqb_spec c NL) as [->|_]; [set_solver|]. fold (candidate (u ++ [c])).
  replace (u ++ c :: w) with ((u ++ [c]) ++ w) by (by rewrite <- app_assoc).
  destruct (candidate (u ++ [c])) eqn:Ec.
  - destruct (IH (u ++ [c])) as [->|[-> Hx]]; [set_solver|by left|by right].
  - right. rewrite steps_text by set_solver. rewrite <- text_atoms_app. split; [done|]. eauto.
Qed.

Lemma strip_newline w : strip_suffix [NL] (w ++ [NL]) = Some w.
Proof. by apply strip_suffix_Some. Qed.

Lemma no_newline_suffix w : NL ∉ w -> default w (strip_suffix [NL] w) = w.
Proof.
  intros Hw. destruct (strip_suffix [NL] w) as [r|] eqn:E; [|done].
  apply strip_suffix_Some in E as ->. set_solver.
Qed.

Lemma steps_line active w :
  NL ∉ w ->
  steps (mkTagged specs active true []) (w ++ [NL])
  = (mkTagged specs (read_line specs active (w ++ [NL])).1 true [],
     (read_line specs active (w ++ [NL])).2).
Proof.
  intros Hw. rewrite steps_app. destruct (steps_body active [] w Hw) as [->|[-> (x & r & Hxr & Hx)]];
    cbn [fst snd steps app]; unfold step; cbn [detect_tag tl_specs active_tag line_buffer].
  - rewrite N.eqb_refl. destruct (read_line specs active (w ++ [NL])). cbn. by rewrite app_nil_r.
  - rewrite (read_line_text active x r) by (done || by rewrite strip_newline).
    cbn [fst snd]. rewrite N.eqb_refl, text_atoms_app. by rewrite app_nil_r.
Qed.

Lemma split_inclusive_line w s :
  NL ∉ w -> split_inclusive (w ++ NL :: s) = (w ++ [NL]) :: split_inclusive s.
Proof.
  induction w as [|c w IH]; intros Hw; [done|]. cbn [app split_inclusive].
  destruct (N.eqb_spec c NL) as [->|_]; [set_solver|]. by rewrite IH by set_solver.
Qed.

Lemma split_inclusive_last w : NL ∉ w -> split_inclusive w = match w with [] => [] | _ => [w] end.
Proof.
  induction w as [|c w IH]; intros Hw; [done|]. cbn [split_inclusive].
  destruct (N.eqb_spec c NL) as [->|_]; [set_solver|]. rewrite IH by set_solver. by destruct w.
Qed.

Lemma first_newline (s : str) : (NL ∉ s) \/ exists w r, s = w ++ NL :: r /\ (NL ∉ w).
Proof.
  induction s as [|c s IH]; [left; set_solver|].
  destruct (N.eqb_spec c NL) as [->|Hc]; [right; exists [], s; set_solver|].
  destruct IH as [IH|(w & r & -> & Hw)]; [left; set_solver|]. right. exists (c :: w), r. set_solver.
Qed.

(** The whole text, read from outside a line. *)
Lemma steps_finish n s active :
  length s <= n ->
  let '(p, out) := steps (mkTagged specs active true []) s in
  let '(active', ref) := read_lines specs active (split_inclusive s) in
  out ++ atoms (tagged_finish p).2 = ref ++ match active' with Some tag => [AEnd tag] | None => [] end.
Proof.
  revert s active. induction n as [|n IH]; intros s active Hn.
  { destruct s; [|cbn in Hn; lia]. cbn. by destruct active. }
  destruct (first_newline s) as [Hs|(w & r & -> & Hw)].
  - rewrite split_inclusive_last by done.
    destruct (steps_body active [] s Hs) as [->|[-> (x & k & Hxk & Hx)]]; cbn [app].
    + unfold tagged_finish. cbn [line_buffer active_tag tl_specs]. destruct s as [|c s]; [by destruct active|].
      pose proof (decide_line_atoms specs active (c :: s) []) as Hd.
      destruct (decide_line specs active (c :: s) []) as [a segs]. destruct Hd as [Hr Hd].
      cbn [read_lines]. destruct (read_line specs active (c :: s)) as [a0 o0].
      cbn [snd] in *. injection Hr as ->. rewrite app_nil_r.
      destruct a; cbn [snd]; rewrite ?atoms_push_segment, Hd; cbn; by rewrite ?app_nil_r.
    + cbn [tagged_finish line_buffer active_tag snd]. destruct s as [|c s].
      { cbn. by destruct active. }
      cbn [read_lines].
      rewrite (read_line_text active x k) by (done || by rewrite no_newline_suffix).
      rewrite app_nil_r. f_equal. by destruct active.
  - rewrite split_inclusive_line by done. cbn [read_lines].
    replace (w ++ NL :: r) with ((w ++ [NL]) ++ r) by (by rewrite <- app_assoc).
    rewrite steps_app, steps_line by done. cbn [fst snd].
    destruct (read_line specs active (w ++ [NL])) as [a out1]. cbn [fst snd].
    rewrite length_app in Hn. cbn in Hn. specialize (IH r a ltac:(lia)).
    destruct (steps (mkTagged specs a true []) r) as [p out]. cbn [fst snd].
    destruct (read_lines specs a (split_inclusive r)) as [a' ref]. by rewrite <- !app_assoc, IH.
Qed.
End lines.

(** * Plan blocks *)

Definition plan_specs : list (TagSpec PlanTag) := [mkTagSpec OPEN_TAG CLOSE_TAG ProposedPlan].

Definition plan_atoms (s : ProposedPlanSegment) : list (atom PlanTag) :=
  match s with
  | PlanNormal t => text_atoms None t
  | ProposedPlanStart => [AStart ProposedPlan]
  | ProposedPlanDelta t => text_atoms (Some ProposedPlan) t
  | ProposedPlanEnd => [AEnd ProposedPlan]
  end.

(** The characters outside every block. *)
Definition outside (l : list (atom PlanTag)) : str :=
  omap (fun a => match a with AChar None c => Some c | _ => None end) l.

Lemma outside_app a b : outside (a ++ b) = outside a ++ outside b.
Proof. apply omap_app. Qed.

Lemma outside_text (owner : option PlanTag) s :
  outside (text_atoms owner s) = match owner with None => s | Some _ => [] end.
Proof.
  unfold outside, text_atoms. destruct owner; induction s as [|c s IH]; cbn in *; try done.
  by rewrite IH.
Qed.

(** A chunk of the plan parser says [l]. *)
Definition chunk_says (c : StreamTextChunk ProposedPlanSegment) (l : list (atom PlanTag)) : Prop :=
  concat (plan_atoms <$> extracted c) = l /\ visible_text c = outside l.

Lemma chunk_says_append a b l k :
  chunk_says a l -> chunk_says b k -> chunk_says (chunk_append a b) (l ++ k).
Proof.
  intros [<- Ha] [<- Hb]. split; cbn.
  - by rewrite fmap_app, concat_app.
  - by rewrite Ha, Hb, outside_app.
Qed.

Lemma map_segments_says segs : chunk_says (map_segments segs) (atoms segs).
Proof.
  unfold map_segments. assert (chunk_says default_chunk []) as H0 by done.
  assert (forall acc l, chunk_says acc l -> chunk_says
    (foldl (fun out segment =>
       mkChunk (visible_text out ++ match map_segment segment with PlanNormal text => text | _ => [] end)
         (extracted out ++ [map_segment segment])) acc segs) (l ++ atoms segs)) as H.
  { clear H0. induction segs as [|s segs IH]; intros acc l Hacc; cbn [foldl].
    { by rewrite app_nil_r. }
    replace (l ++ atoms (s :: segs)) with ((l ++ segment_atoms s) ++ atoms segs)
      by (by rewrite <- app_assoc). apply IH.
    assert (chunk_says (mkChunk (match map_segment s with PlanNormal text => text | _ => [] end)
              [map_segment s]) (segment_atoms s)) as Hs.
    { destruct s as [t|[]|[] t|[]]; split; cbn; rewrite ?app_nil_r; try done; by rewrite outside_text. }
    exact (chunk_says_append _ _ _ _ Hacc Hs). }
  exact (H default_chunk [] H0).
Qed.

Lemma push_all_says p pieces :
  let '(p', out) := push_all (P := ProposedPlanParser) p pieces in
  p' = (steps p (concat pieces)).1 /\ chunk_says out (steps p (concat pieces)).2.
Proof.
  revert p. induction pieces as [|s pieces IH]; intros p; [done|]. cbn [push_all concat].
  cbn [push_str ProposedPlanParser_Stream]. destruct (tagged_parse_steps p s) as [Hp Ho].
  destruct (tagged_parse p s) as [p1 segs]. cbn [fst snd] in *. subst p1.
  specialize (IH (steps p s).1). destruct (push_all (steps p s).1 pieces) as [p2 rest].
  destruct IH as [-> Hrest]. rewrite steps_app. cbn [fst snd]. split; [done|].
  apply chunk_says_append; [|done]. rewrite <- Ho. apply map_segments_says.
Qed.

(** However the text of an answer is cut into streamed pieces, the plan
    parser reports the same thing, and it is what reading the whole text line
    by line gives: a line that is exactly an opening tag (up to surrounding
    blanks) outside a block starts one, the closing tag ends it, everything else
    is text of the current block or visible text, an unfinished block is closed
    at the end, and the visible text is exactly what lies outside the blocks. *)
Theorem plan_parser_reads_lines pieces :
  let out := run_parser (P := ProposedPlanParser) plan_new pieces in
  concat (plan_atoms <$> extracted out) = read_text plan_specs (concat pieces)
  /\ visible_text out = outside (read_text plan_specs (concat pieces)).
Proof.
  unfold run_parser. pose proof (push_all_says plan_new pieces) as H.
  destruct (push_all plan_new pieces) as [p out]. destruct H as [-> Hout].
  pose proof (steps_finish plan_specs (length (concat pieces)) (concat pieces) None (le_n _)) as Hf.
  change (mkTagged plan_specs None true []) with plan_new in Hf.
  destruct (steps plan_new (concat pieces)) as [p1 o1]. cbn [fst snd] in *.
  assert (chunk_says (finish p1).2 (atoms (tagged_finish p1).2)) as Hfin.
  { cbn [finish ProposedPlanParser_Stream]. destruct (tagged_finish p1). apply map_segments_says. }
  pose proof (chunk_says_append _ _ _ _ Hout Hfin) as Hall. unfold read_text.
  destruct (read_lines plan_specs None _) as [active ref]. rewrite <- Hf. exact Hall.
Qed.
