(* ===== verification/HiddenTags.v ===== *)
(** [utils/stream-parser/src]: [inline_hidden_tag.rs], [citation.rs] and
    [assistant_text.rs].

    [InlineHiddenTagParser] hides inline tags in streamed text and extracts
    their contents; [CitationStreamParser] is its instance with one tag, and
    [AssistantTextStreamParser] runs it in front of the plan parser.  Positions
    are counted in characters where the code counts bytes: it only slices at
    the ends of matches, which are character boundaries. *)

From stdpp Require Import base list option numbers strings sets.
From Stdlib Require Import NArith Lia.
From S2P Require Import Prelude RustStr TaggedLines.
Local Open Scope rust_scope.

(** * [inline_hidden_tag.rs] *)

Record ExtractedInlineTag (T : Type) := mkExtracted { ex_tag : T; ex_content : str }.
Arguments mkExtracted {T}.
Arguments ex_tag {T}.
Arguments ex_content {T}.

Record InlineTagSpec (T : Type) := mkInlineSpec { is_tag : T; is_open : str; is_close : str }.
Arguments mkInlineSpec {T}.
Arguments is_tag {T}.
Arguments is_open {T}.
Arguments is_close {T}.

Record ActiveTag (T : Type) := mkActive { at_tag : T; at_close : str; at_content : str }.
Arguments mkActive {T}.
Arguments at_tag {T}.
Arguments at_close {T}.
Arguments at_content {T}.

(** The loop [for k in (1..=max).rev()]. *)
Fixpoint longest_from (s needle : str) (k : nat) : nat :=
  match k with
  | 0 => 0
  | S k' => if ends_with (take k needle) s then k else longest_from s needle k'
  end.

Definition longest_suffix_prefix_len (s needle : str) : nat :=
  longest_from s needle (Nat.min (length s) (length needle - 1)).

Section hidden.
Context {T : Type}.

Record InlineHiddenTagParser : Type := mkHidden {
  ih_specs : list (InlineTagSpec T);
  pending : str;
  active : option (ActiveTag T);
}.

(** [new]; the failing assertions are [None]. *)
Definition hidden_new (specs : list (InlineTagSpec T)) : option InlineHiddenTagParser :=
  match specs with
  | [] => None
  | _ => if forallb (fun s => negb (is_open s == []) && negb (is_close s == [])) specs
         then Some (mkHidden specs [] None) else None
  end.

(** The candidates (position, length, index) and the comparison of [min_by]. *)
Definition open_lt (a b : nat * nat * nat) : bool :=
  let '(pos_a, len_a, idx_a) := a in let '(pos_b, len_b, idx_b) := b in
  (pos_a <? pos_b)
  || ((pos_a =? pos_b) && ((len_b <? len_a) || ((len_b =? len_a) && (idx_a <? idx_b)))).

Definition min_open (best : option (nat * nat * nat)) (c : nat * nat * nat) : option (nat * nat * nat) :=
  match best with
  | None => Some c
  | Some b => if open_lt c b then Some c else Some b
  end.

Definition find_next_open (self : InlineHiddenTagParser) : option (nat * nat) :=
  let candidates :=
    omap (fun '(idx, spec) =>
            (fun pos => (pos, blen (is_open spec), idx)) <$> find_str (is_open spec) self.(pending))
      (zip (seq 0 (length self.(ih_specs))) self.(ih_specs)) in
  (fun '(pos, _, idx) => (pos, idx)) <$> foldl min_open None candidates.

Definition max_open_prefix_suffix_len (self : InlineHiddenTagParser) : nat :=
  foldl Nat.max 0
    ((fun spec => longest_suffix_prefix_len self.(pending) (is_open spec)) <$> self.(ih_specs)).

Abbreviation out_chunk := (StreamTextChunk (ExtractedInlineTag T)).

Definition emit_visible (out : out_chunk) (text : str) : out_chunk :=
  mkChunk (visible_text out ++ text) (extracted out).
Definition emit_tag (out : out_chunk) (e : ExtractedInlineTag T) : out_chunk :=
  mkChunk (visible_text out) (extracted out ++ [e]).

(** One iteration of the loop of [push_str]; the flag is [continue]. *)
Definition push_iter (self : InlineHiddenTagParser) (out : out_chunk) :
    InlineHiddenTagParser * out_chunk * bool :=
  match self.(active) with
  | Some a =>
      match find_str (at_close a) self.(pending) with
      | Some close_idx =>
          let content := at_content a ++ take close_idx self.(pending) in
          (mkHidden self.(ih_specs) (drop (close_idx + length (at_close a)) self.(pending)) None,
           emit_tag out (mkExtracted (at_tag a) content), true)
      | None =>
          let keep := longest_suffix_prefix_len self.(pending) (at_close a) in
          let n := length self.(pending) - keep in
          (mkHidden self.(ih_specs) (drop n self.(pending))
             (Some (mkActive (at_tag a) (at_close a) (at_content a ++ take n self.(pending)))),
           out, false)
      end
  | None =>
      match find_next_open self with
      | Some (open_idx, spec_idx) =>
          match self.(ih_specs) !! spec_idx with
          | Some spec =>
              (mkHidden self.(ih_specs) (drop (open_idx + length (is_open spec)) self.(pending))
                 (Some (mkActive (is_tag spec) (is_close spec) [])),
               emit_visible out (take open_idx self.(pending)), true)
          | None => (self, out, false)                 (* the index comes from the same vector *)
          end
      | None =>
          let n := length self.(pending) - max_open_prefix_suffix_len self in
          (mkHidden self.(ih_specs) (drop n self.(pending)) None,
           emit_visible out (take n self.(pending)), false)
      end
  end.

(** Each continued iteration consumes a tag, so the length of the pending text
    bounds the loop (see [push_loop_unfold]). *)
Fixpoint push_loop (fuel : nat) (self : InlineHiddenTagParser) (out : out_chunk) :
    InlineHiddenTagParser * out_chunk :=
  let '(self, out, continue) := push_iter self out in
  if continue then match fuel with 0 => (self, out) | S fuel => push_loop fuel self out end
  else (self, out).

Definition hidden_push_str (self : InlineHiddenTagParser) (chunk : str) :
    InlineHiddenTagParser * out_chunk :=
  let self := mkHidden self.(ih_specs) (self.(pending) ++ chunk) self.(active) in
  push_loop (length self.(pending)) self default_chunk.

Definition hidden_finish (self : InlineHiddenTagParser) : InlineHiddenTagParser * out_chunk :=
  (mkHidden self.(ih_specs) [] None,
   match self.(active) with
   | Some a => mkChunk [] [mkExtracted (at_tag a) (at_content a ++ self.(pending))]
   | None => mkChunk self.(pending) []
   end).
End hidden.
Arguments InlineHiddenTagParser : clear implicits.

(** * [citation.rs] *)

Inductive CitationTag : Set := Citation.
Definition CITATION_OPEN : str := lit "<oai-mem-citation>".
Definition CITATION_CLOSE : str := lit "</oai-mem-citation>".

Abbreviation CitationStreamParser := (InlineHiddenTagParser CitationTag).

Definition citation_specs : list (InlineTagSpec CitationTag) :=
  [mkInlineSpec Citation CITATION_OPEN CITATION_CLOSE].
Definition citation_new : CitationStreamParser := mkHidden citation_specs [] None.

Definition citation_chunk (inner : StreamTextChunk (ExtractedInlineTag CitationTag)) :
    StreamTextChunk str :=
  mkChunk (visible_text inner) (ex_content <$> extracted inner).

#[global] Instance CitationStreamParser_Stream : StreamTextParser CitationStreamParser str := {|
  push_str p chunk := let '(p, inner) := hidden_push_str p chunk in (p, citation_chunk inner);
  finish p := let '(p, inner) := hidden_finish p in (p, citation_chunk inner);
|}.

Definition strip_citations (text : str) : str * list str :=
  let out := run_parser citation_new [text] in (visible_text out, extracted out).

(** * [assistant_text.rs] *)

Record AssistantTextChunk : Set := mkAssistantChunk {
  a_visible_text : str;
  a_citations : list str;
  a_plan_segments : list ProposedPlanSegment;
}.

Record AssistantTextStreamParser : Type := mkAssistant {
  plan_mode : bool;
  citations : CitationStreamParser;
  plan : ProposedPlanParser;
}.

Definition assistant_new (mode : bool) : AssistantTextStreamParser :=
  mkAssistant mode citation_new plan_new.

Definition parse_visible_text (self : AssistantTextStreamParser) (text : str) :
    AssistantTextStreamParser * AssistantTextChunk :=
  if negb self.(plan_mode) then (self, mkAssistantChunk text [] [])
  else
    let '(p, c) := push_str self.(plan) text in
    (mkAssistant self.(plan_mode) self.(citations) p,
     mkAssistantChunk (visible_text c) [] (extracted c)).

Definition set_citations (c : AssistantTextChunk) (cs : list str) : AssistantTextChunk :=
  mkAssistantChunk (a_visible_text c) cs (a_plan_segments c).

Definition assistant_push_str (self : AssistantTextStreamParser) (chunk : str) :
    AssistantTextStreamParser * AssistantTextChunk :=
  let '(cp, citation_chunk) := push_str self.(citations) chunk in
  let self := mkAssistant self.(plan_mode) cp self.(plan) in
  let '(self, out) := parse_visible_text self (visible_text citation_chunk) in
  (self, set_citations out (extracted citation_chunk)).

Definition assistant_finish (self : AssistantTextStreamParser) :
    AssistantTextStreamParser * AssistantTextChunk :=
  let '(cp, citation_chunk) := finish self.(citations) in
  let self := mkAssistant self.(plan_mode) cp self.(plan) in
  let '(self, out) := parse_visible_text self (visible_text citation_chunk) in
  let '(self, out) :=
    if self.(plan_mode) then
      let '(p, tail) := finish self.(plan) in
      (mkAssistant self.(plan_mode) self.(citations) p,
       if chunk_is_empty tail then out
       else mkAssistantChunk (a_visible_text out ++ visible_text tail) (a_citations out)
              (a_plan_segments out ++ extracted tail))
    else (self, out) in
  (self, set_citations out (extracted citation_chunk)).

(** * Searching in a stream *)

Lemma starts_with_false_spec p s : starts_with p s = false <-> forall r, s <> p ++ r.
Proof.
  rewrite <- not_true_iff_false, starts_with_spec. naive_solver.
Qed.

Lemma find_str_skip n s m :
  m <= length s -> (forall j, j < m -> starts_with n (drop j s) = false) ->
  find_str n s = (Nat.add m) <$> find_str n (drop m s).
Proof.
  revert s. induction m as [|m IH]; intros s Hm Hno.
  { rewrite drop_0. by destruct (find_str n s). }
  destruct s as [|c s]; [cbn in Hm; lia|]. cbn [find_str drop].
  pose proof (Hno 0 ltac:(lia)) as H0. rewrite drop_0 in H0. rewrite H0. rewrite (IH s); [|cbn in Hm; lia|intros j Hj; apply (Hno (S j)); lia].
  by destruct (find_str n (drop m s)).
Qed.

Lemma find_str_None_starts n s j : find_str n s = None -> starts_with n (drop j s) = false.
Proof.
  revert j. induction s as [|c s IH]; intros j; cbn [find_str].
  - rewrite drop_nil. by destruct (starts_with n []).
  - destruct (starts_with n (c :: s)) eqn:E; [done|]. destruct (find_str n s) eqn:Ef; [done|].
    intros _. destruct j as [|j]; [done|]. by apply IH.
Qed.

Lemma starts_with_app p s t : starts_with p s = true -> starts_with p (s ++ t) = true.
Proof. rewrite !starts_with_spec. intros [r ->]. exists (r ++ t). by rewrite app_assoc. Qed.

(** A match inside the text received so far is the first match of the stream. *)
Lemma find_str_app_Some n s t i :
  n <> [] -> find_str n s = Some i -> find_str n (s ++ t) = Some i.
Proof.
  intros Hn. revert i. induction s as [|c s IH]; intros i; cbn [find_str app].
  { unfold starts_with. destruct n; [done|]. done. }
  destruct (starts_with n (c :: s)) eqn:E.
  - intros [= <-]. change (c :: s ++ t) with ((c :: s) ++ t). by rewrite starts_with_app.
  - destruct (find_str n s) as [k|] eqn:Ef; [|done]. intros [= <-].
    rewrite (IH k eq_refl). destruct (starts_with n (c :: s ++ t)) eqn:E2; [|done].
    exfalso. assert (length n <= length s) as Hlen.
    { assert (find_str n s <> None) as Hne by congruence. clear -Hne.
      induction s as [|d s IH]; cbn [find_str] in Hne.
      - destruct (starts_with n []) eqn:E; [|done]. apply starts_with_spec in E as [r E].
        by destruct n; [cbn; lia|].
      - destruct (starts_with n (d :: s)) eqn:E.
        + apply starts_with_spec in E as [r ->]. rewrite length_app. lia.
        + cbn. destruct (find_str n s); [|done]. specialize (IH ltac:(done)). lia. }
    apply starts_with_spec in E2 as [r E2]. rewrite starts_with_false_spec in E.
    change (c :: s ++ t) with ((c :: s) ++ t) in E2.
    apply app_eq_inv in E2 as [(k' & Hk & _)|(k' & Hk & _)]; [by apply (E k')|].
    rewrite Hk, length_app in Hlen. cbn in Hlen. lia.
Qed.

Lemma longest_from_spec s n k j :
  longest_from s n k < j <= k -> ends_with (take j n) s = false.
Proof.
  induction k as [|k IH]; intros Hj; cbn [longest_from] in Hj; [lia|].
  destruct (ends_with (take (S k) n) s) eqn:E; [lia|].
  destruct (decide (j = S k)) as [->|]; [done|]. apply IH. lia.
Qed.

Lemma longest_from_le s n k : longest_from s n k <= k.
Proof. induction k as [|k IH]; cbn [longest_from]; [lia|]. case_match; lia. Qed.

(** Without a match so far, only a suffix that begins the needle matters. *)
Lemma find_str_app_None n s t keep :
  n <> [] -> find_str n s = None -> longest_suffix_prefix_len s n <= keep -> keep <= length s ->
  find_str n (s ++ t)
  = (Nat.add (length s - keep)) <$> find_str n (drop (length s - keep) s ++ t).
Proof.
  intros Hn Hf Hk Hks. rewrite <- drop_app_le by lia.
  apply find_str_skip; [rewrite length_app; lia|]. intros j Hj.
  rewrite drop_app_le by lia. destruct (starts_with n (drop j s ++ t)) eqn:E; [|done].
  exfalso. apply starts_with_spec in E as [r E].
  pose proof (find_str_None_starts n s j Hf) as Hno. rewrite starts_with_false_spec in Hno.
  apply app_eq_inv in E as [(k & Hd & _)|(k & Hn' & _)]; [by apply (Hno k)|].
  assert (k <> []) as Hk0 by (intros ->; rewrite app_nil_r in Hn'; apply (Hno []); by rewrite app_nil_r).
  assert (length (drop j s) = length s - j) as Hl by apply length_drop.
  assert (length n = length s - j + length k) as Hln by (rewrite Hn', length_app; lia).
  assert (0 < length k) by (destruct k; [done|cbn; lia]).
  assert (ends_with (take (length s - j) n) s = false) as He.
  { unfold longest_suffix_prefix_len in Hk. apply (longest_from_spec s n (Nat.min (length s) (length n - 1))).
    lia. }
  assert (ends_with (take (length s - j) n) s = true); [|congruence].
  apply ends_with_spec. exists (take j s). rewrite Hn', <- Hl, take_app_length. by rewrite take_drop.
Qed.

(** * Hiding one tag *)

Section one_tag.
Context {T : Type} (spec : InlineTagSpec T).
Context (Hopen : is_open spec <> []) (Hclose : is_close spec <> []).
Implicit Types (p : InlineHiddenTagParser T).

(** The reference on a whole text: repeatedly, the first opening tag and the
    first closing tag after it delimit a hidden passage; a passage that is not
    closed runs to the end. *)
Inductive hides : str -> str -> list str -> Prop :=
| hides_none text : find_str (is_open spec) text = None -> hides text text []
| hides_open text i :
    find_str (is_open spec) text = Some i ->
    find_str (is_close spec) (drop (i + length (is_open spec)) text) = None ->
    hides text (take i text) [drop (i + length (is_open spec)) text]
| hides_closed text i j rest visible contents :
    find_str (is_open spec) text = Some i ->
    rest = drop (i + length (is_open spec)) text ->
    find_str (is_close spec) rest = Some j ->
    hides (drop (j + length (is_close spec)) rest) visible contents ->
    hides text (take i text ++ visible) (take j rest :: contents).

Lemma hides_functional text v e v' e' :
  hides text v e -> hides text v' e' -> v = v' /\ e = e'.
Proof.
  intros H. revert v' e'. induction H; intros v' e' H'; inversion H'; subst; simplify_eq; try done.
  match goal with H : hides (drop _ _) _ _ |- _ => apply IHhides in H as [-> ->] end. done.
Qed.

(** The rest of a passage whose beginning [content] was read already. *)
Inductive in_tag (content : str) : str -> str -> list str -> Prop :=
| in_tag_open text : find_str (is_close spec) text = None -> in_tag content text [] [content ++ text]
| in_tag_closed text j visible contents :
    find_str (is_close spec) text = Some j ->
    hides (drop (j + length (is_close spec)) text) visible contents ->
    in_tag content text visible ((content ++ take j text) :: contents).

(** The parser's state, and the meaning of the text still to come. *)
Definition single p : Prop :=
  ih_specs p = [spec]
  /\ match active p with Some a => at_close a = is_close spec | None => True end.

Definition means p (future : str) (v : str) (e : list str) : Prop :=
  match active p with
  | Some a => in_tag (at_content a) (pending p ++ future) v e
  | None => hides (pending p ++ future) v e
  end.

(** No complete tag is left in the pending text. *)
Definition settled p : Prop :=
  find_str (match active p with Some _ => is_close spec | None => is_open spec end) (pending p) = None.

Lemma find_str_drop_None n s k : find_str n s = None -> find_str n (drop k s) = None.
Proof.
  intros H. destruct (find_str n (drop k s)) as [i|] eqn:E; [|done]. exfalso.
  assert (contains_str n (drop k s) = true) as Hc by (unfold contains_str; by rewrite E).
  apply contains_str_spec in Hc as (a & b & Hd).
  assert (contains_str n s = true) as Hs.
  { apply contains_str_spec. exists (take k s ++ a), b. by rewrite <- app_assoc, <- Hd, take_drop. }
  unfold contains_str in Hs. by rewrite H in Hs.
Qed.

Lemma find_next_open_single p :
  ih_specs p = [spec] -> find_next_open p = (fun pos => (pos, 0)) <$> find_str (is_open spec) (pending p).
Proof. intros H. unfold find_next_open. rewrite H. cbn. by destruct (find_str _ _). Qed.

Lemma max_open_single p :
  ih_specs p = [spec] ->
  max_open_prefix_suffix_len p = longest_suffix_prefix_len (pending p) (is_open spec).
Proof. intros H. unfold max_open_prefix_suffix_len. by rewrite H. Qed.

Lemma lsp_le s n : longest_suffix_prefix_len s n <= length s.
Proof.
  unfold longest_suffix_prefix_len.
  pose proof (longest_from_le s n (Nat.min (length s) (length n - 1))). lia.
Qed.

Lemma split_keep (s : str) k : k <= length s -> take (length s - k) s ++ drop (length s - k) s = s.
Proof. intros _. apply take_drop. Qed.

Lemma drop_app_more (d rest : str) n : drop (length d + n) (d ++ rest) = drop n rest.
Proof. apply drop_app_add. Qed.

Lemma take_app_more (d rest : str) n : take (length d + n) (d ++ rest) = d ++ take n rest.
Proof. apply take_app_add. Qed.

(** Text that cannot begin the next opening tag is visible at once. *)
Lemma hides_prefix d rest v e :
  find_str (is_open spec) (d ++ rest) = Nat.add (length d) <$> find_str (is_open spec) rest ->
  hides rest v e -> hides (d ++ rest) (d ++ v) e.
Proof.
  intros Hf H. destruct H as [text Hn|text i Hi Hc|text i j r visible contents Hi Hr Hj Hrest];
    rewrite ?Hn, ?Hi in Hf; cbn in Hf.
  - by apply hides_none.
  - rewrite <- take_app_more, <- (drop_app_more d text (i + _)), Nat.add_assoc.
    apply hides_open; [done|]. rewrite <- Nat.add_assoc, drop_app_more. done.
  - rewrite app_assoc, <- take_app_more. eapply hides_closed; [done| |done|done].
    by rewrite <- Nat.add_assoc, drop_app_more.
Qed.

Lemma in_tag_prefix content d rest v e :
  find_str (is_close spec) (d ++ rest) = Nat.add (length d) <$> find_str (is_close spec) rest ->
  in_tag (content ++ d) rest v e -> in_tag content (d ++ rest) v e.
Proof.
  intros Hf H. destruct H as [text Hn|text j visible contents Hj Hrest];
    rewrite ?Hn, ?Hj in Hf; cbn in Hf; rewrite <- app_assoc.
  - by apply in_tag_open.
  - rewrite <- take_app_more. apply in_tag_closed; [done|].
    by rewrite <- Nat.add_assoc, drop_app_more.
Qed.

Lemma find_str_bound n s i : find_str n s = Some i -> i + length n <= length s.
Proof.
  revert i. induction s as [|c s IH]; intros i; cbn [find_str].
  - destruct (starts_with n []) eqn:E; [|done]. intros [= <-].
    apply starts_with_spec in E as [r E]. apply (f_equal length) in E. rewrite length_app in E. cbn in *. lia.
  - destruct (starts_with n (c :: s)) eqn:E.
    + intros [= <-]. apply starts_with_spec in E as [r E]. apply (f_equal length) in E.
      rewrite length_app in E. cbn in *. lia.
    + destruct (find_str n s) as [k|]; [|done]. intros [= <-]. specialize (IH k eq_refl). cbn. lia.
Qed.

(** One iteration: what it emits is what the reference emits first. *)
Lemma push_iter_means p out :
  single p ->
  let '(p', out', continue) := push_iter p out in
  single p'
  /\ (if continue then length (pending p') < length (pending p) else settled p')
  /\ exists dv de, visible_text out' = visible_text out ++ dv
       /\ ex_content <$> extracted out' = (ex_content <$> extracted out) ++ de
       /\ forall future v e, means p' future v e -> means p future (dv ++ v) (de ++ e).
Proof.
  intros [Hs Ha]. unfold push_iter, single, means, settled. destruct (active p) as [a|] eqn:Eact.
  - rewrite Ha. destruct (find_str (is_close spec) (pending p)) as [i|] eqn:Ef; cbn.
    + pose proof (find_str_bound _ _ _ Ef) as Hb. split_and!; try done.
      { rewrite length_drop. destruct (is_close spec); [done|cbn in *; lia]. }
      exists [], [at_content a ++ take i (pending p)]. rewrite app_nil_r, fmap_app.
      split_and!; try done. intros future v e H. cbn.
      rewrite <- (take_app_le (pending p) future) by lia. rewrite <- drop_app_le in H by lia.
      eapply in_tag_closed; [by apply find_str_app_Some|done].
    + split_and!; try done. { by apply find_str_drop_None. }
      exists [], []. rewrite !app_nil_r. split_and!; try done. intros future v e H. cbn.
      set (k := longest_suffix_prefix_len (pending p) (is_close spec)) in *.
      pose proof (lsp_le (pending p) (is_close spec)).
      rewrite <- (take_drop (length (pending p) - k) (pending p)), <- app_assoc.
      apply in_tag_prefix; [|done].
      rewrite app_assoc, take_drop, length_take.
      replace (length (pending p) - k `min` length (pending p)) with (length (pending p) - k) by lia.
      replace ((length (pending p) - k) `min` length (pending p)) with (length (pending p) - k) by lia.
      by apply find_str_app_None.
  - rewrite find_next_open_single by done.
    destruct (find_str (is_open spec) (pending p)) as [i|] eqn:Ef; cbn.
    + pose proof (find_str_bound _ _ _ Ef) as Hb. rewrite Hs. cbn. split_and!; try done.
      { rewrite length_drop. destruct (is_open spec); [done|cbn in *; lia]. }
      exists (take i (pending p)), []. rewrite app_nil_r. split_and!; try done.
      intros future v e H. cbn. rewrite <- (take_app_le (pending p) future) by lia.
      rewrite <- drop_app_le in H by lia. apply (find_str_app_Some _ _ future) in Ef; [|done].
      inversion H; subst; cbn.
      * rewrite app_nil_r. by apply hides_open.
      * eapply hides_closed; done.
    + rewrite max_open_single by done. split_and!; try done. { by apply find_str_drop_None. }
      set (k := longest_suffix_prefix_len (pending p) (is_open spec)) in *.
      pose proof (lsp_le (pending p) (is_open spec)).
      exists (take (length (pending p) - k) (pending p)), []. rewrite app_nil_r. split_and!; try done.
      intros future v e H'. cbn.
      rewrite <- (take_drop (length (pending p) - k) (pending p)) at 1. rewrite <- app_assoc.
      apply hides_prefix; [|done].
      rewrite app_assoc, take_drop, length_take.
      replace ((length (pending p) - k) `min` length (pending p)) with (length (pending p) - k) by lia.
      by apply find_str_app_None.
Qed.

Lemma push_loop_means fuel p out :
  single p -> length (pending p) <= fuel ->
  let '(p', out') := push_loop fuel p out in
  single p' /\ settled p'
  /\ exists dv de, visible_text out' = visible_text out ++ dv
       /\ ex_content <$> extracted out' = (ex_content <$> extracted out) ++ de
       /\ forall future v e, means p' future v e -> means p future (dv ++ v) (de ++ e).
Proof.
  revert p out. induction fuel as [|fuel IH]; intros p out Hp Hlen;
    pose proof (push_iter_means p out Hp) as Hi; cbn [push_loop];
    destruct (push_iter p out) as [[p1 out1] cont]; destruct Hi as (Hp1 & Hdec & dv & de & Hv & He & Hm).
  - destruct cont; [lia|]. split; [done|]. split; [done|]. eauto.
  - destruct cont; [|split; [done|]; split; [done|]; eauto].
    specialize (IH p1 out1 Hp1).
    destruct (push_loop fuel p1 out1) as [p2 out2].
    destruct IH as (Hp2 & Hset & dv2 & de2 & Hv2 & He2 & Hm2); [lia|].
    split; [done|]. split; [done|]. exists (dv ++ dv2), (de ++ de2). rewrite Hv2, Hv, He2, He, <- !app_assoc.
    split_and!; try done. intros future v e H. rewrite <- !app_assoc. eauto.
Qed.

(** The loop is the source's [loop]: its bound is never reached. *)
Lemma push_loop_unfold p out fuel :
  single p -> length (pending p) <= fuel ->
  push_loop fuel p out
  = let '(p', out', continue) := push_iter p out in
    if continue then push_loop (length (pending p')) p' out' else (p', out').
Proof.
  assert (forall f g p out, single p -> length (pending p) <= f -> length (pending p) <= g ->
    push_loop f p out = push_loop g p out) as Hirr.
  { clear p out fuel. induction f as [|f IH]; intros [|g] p out Hp Hf Hg; try done;
      pose proof (push_iter_means p out Hp) as Hi; cbn [push_loop];
      destruct (push_iter p out) as [[p1 out1] [|]]; try done;
      destruct Hi as (Hp1 & Hdec & _); [lia|lia|].
    apply IH; [done|lia|lia]. }
  intros Hp Hf. pose proof (push_iter_means p out Hp) as Hi. destruct fuel as [|fuel]; cbn [push_loop];
    destruct (push_iter p out) as [[p1 out1] [|]]; try done;
    destruct Hi as (Hp1 & Hdec & _); [lia|]. apply Hirr; [done|lia|lia].
Qed.

Lemma hidden_push_means p chunk :
  single p ->
  let '(p', out) := hidden_push_str p chunk in
  single p' /\ settled p'
  /\ forall future v e, means p' future v e ->
       means p (chunk ++ future) (visible_text out ++ v) ((ex_content <$> extracted out) ++ e).
Proof.
  intros [Hs Ha]. unfold hidden_push_str.
  set (q := mkHidden (ih_specs p) (pending p ++ chunk) (active p)).
  pose proof (push_loop_means (length (pending q)) q default_chunk (conj Hs Ha) (le_n _)) as H.
  destruct (push_loop (length (pending q)) q default_chunk) as [p' out].
  destruct H as (Hp' & Hset & dv & de & Hv & He & Hm). split; [done|]. split; [done|]. cbn in Hv, He. rewrite Hv, He.
  intros future v e H%Hm. unfold means in *. cbn in H. rewrite <- app_assoc in H. done.
Qed.

Lemma hidden_finish_means p :
  settled p ->
  means p [] (visible_text (hidden_finish p).2) (ex_content <$> extracted (hidden_finish p).2).
Proof.
  unfold settled, means, hidden_finish. destruct (active p) as [a|]; cbn; rewrite app_nil_r.
  - intros H. by apply in_tag_open.
  - intros H. by apply hides_none.
Qed.
End one_tag.

(** * Citations *)

Definition citation_spec : InlineTagSpec CitationTag := mkInlineSpec Citation CITATION_OPEN CITATION_CLOSE.

Lemma citation_push_all p pieces :
  single citation_spec p -> settled citation_spec p ->
  let '(p', out) := push_all (P := CitationStreamParser) p pieces in
  settled citation_spec p'
  /\ forall v e, means citation_spec p' [] v e ->
       means citation_spec p (concat pieces) (visible_text out ++ v) (extracted out ++ e).
Proof.
  revert p. induction pieces as [|s pieces IH]; intros p Hp Hs; [done|].
  cbn [push_all push_str CitationStreamParser_Stream concat].
  pose proof (hidden_push_means citation_spec ltac:(done) ltac:(done) p s Hp) as H.
  destruct (hidden_push_str p s) as [p1 out1]. destruct H as (Hp1 & Hs1 & Hm1).
  specialize (IH p1 Hp1 Hs1). destruct (push_all p1 pieces) as [p2 rest].
  destruct IH as [Hs2 Hm2]. split; [done|]. intros v e H%Hm2. cbn.
  rewrite <- !app_assoc. by apply Hm1.
Qed.

Lemma citation_hides pieces :
  hides citation_spec (concat pieces) (visible_text (run_parser citation_new pieces))
    (extracted (run_parser citation_new pieces)).
Proof.
  unfold run_parser.
  pose proof (citation_push_all citation_new pieces (conj eq_refl I) eq_refl) as H.
  destruct (push_all citation_new pieces) as [p out]. destruct H as [Hs Hm].
  apply hidden_finish_means, Hm in Hs. unfold means in Hs. cbn [active citation_new pending app] in Hs.
  unfold chunk_append. cbn [visible_text extracted finish CitationStreamParser_Stream]. exact Hs.
Qed.

(** However an answer is cut into streamed pieces, the citation parser
    shows and extracts the same thing, namely what searching the whole text
    gives: each first opening tag and the first closing tag after it are
    removed from the visible text and the text between them is extracted, in
    order; an unclosed citation runs to the end.  The result is unique. *)
Theorem citation_parser_hides pieces :
  let out := run_parser (P := CitationStreamParser) citation_new pieces in
  hides citation_spec (concat pieces) (visible_text out) (extracted out)
  /\ forall v e, hides citation_spec (concat pieces) v e -> v = visible_text out /\ e = extracted out.
Proof.
  split; [apply citation_hides|]. intros v e H. exact (hides_functional _ _ _ _ _ _ H (citation_hides pieces)).
Qed.

(** * Assistant text *)

Definition assistant_append (a b : AssistantTextChunk) : AssistantTextChunk :=
  mkAssistantChunk (a_visible_text a ++ a_visible_text b) (a_citations a ++ a_citations b)
    (a_plan_segments a ++ a_plan_segments b).

Fixpoint assistant_push_all (self : AssistantTextStreamParser) (pieces : list str) :
    AssistantTextStreamParser * AssistantTextChunk :=
  match pieces with
  | [] => (self, mkAssistantChunk [] [] [])
  | s :: pieces =>
      let '(self, out) := assistant_push_str self s in
      let '(self, rest) := assistant_push_all self pieces in
      (self, assistant_append out rest)
  end.

Definition assistant_run (mode : bool) (pieces : list str) : AssistantTextChunk :=
  let '(self, out) := assistant_push_all (assistant_new mode) pieces in
  assistant_append out (assistant_finish self).2.

(** The plan half of an assistant chunk. *)
Definition plan_half (c : AssistantTextChunk) : StreamTextChunk ProposedPlanSegment :=
  mkChunk (a_visible_text c) (a_plan_segments c).

Lemma plan_push_says pp text :
  (push_str pp text).1 = (steps pp text).1
  /\ chunk_says (push_str (P := ProposedPlanParser) pp text).2 (steps pp text).2.
Proof.
  cbn [push_str ProposedPlanParser_Stream]. destruct (tagged_parse_steps pp text) as [Hp Ho].
  destruct (tagged_parse pp text) as [p1 segs]. cbn [fst snd] in *. split; [done|].
  rewrite <- Ho. apply map_segments_says.
Qed.

Lemma assistant_push_plan cp pp pieces :
  let '(self, out) := assistant_push_all (mkAssistant true cp pp) pieces in
  let '(cp', cout) := push_all cp pieces in
  self = mkAssistant true cp' (steps pp (visible_text cout)).1
  /\ a_citations out = extracted cout
  /\ chunk_says (plan_half out) (steps pp (visible_text cout)).2.
Proof.
  revert cp pp. induction pieces as [|s pieces IH]; intros cp pp; [done|].
  cbn [assistant_push_all push_all]. unfold assistant_push_str. cbn [citations plan_mode plan].
  destruct (push_str cp s) as [cp1 c1]. unfold parse_visible_text. cbn [negb plan_mode plan citations].
  destruct (plan_push_says pp (visible_text c1)) as [Hp Hsays].
  destruct (push_str pp (visible_text c1)) as [pp1 pc]. cbn [fst snd] in *. subst pp1.
  specialize (IH cp1 (steps pp (visible_text c1)).1).
  destruct (assistant_push_all _ pieces) as [self rest]. destruct (push_all cp1 pieces) as [cp2 c2].
  destruct IH as (-> & Hc & Hs). cbn [chunk_append visible_text extracted]. rewrite steps_app.
  cbn [fst snd]. split; [done|]. split; [cbn; by rewrite Hc|].
  exact (chunk_says_append _ _ _ _ Hsays Hs).
Qed.

Lemma assistant_push_plain cp pp pieces :
  let '(self, out) := assistant_push_all (mkAssistant false cp pp) pieces in
  let '(cp', cout) := push_all cp pieces in
  self = mkAssistant false cp' pp
  /\ out = mkAssistantChunk (visible_text cout) (extracted cout) [].
Proof.
  revert cp pp. induction pieces as [|s pieces IH]; intros cp pp; [done|].
  cbn [assistant_push_all push_all]. unfold assistant_push_str. cbn [citations plan_mode plan].
  destruct (push_str cp s) as [cp1 c1]. unfold parse_visible_text. cbn [negb plan_mode plan citations].
  specialize (IH cp1 pp). destruct (assistant_push_all _ pieces) as [self rest].
  destruct (push_all cp1 pieces) as [cp2 c2]. destruct IH as (-> & ->). done.
Qed.

Lemma chunk_empty_append (out : AssistantTextChunk) (tl : StreamTextChunk ProposedPlanSegment) :
  (if chunk_is_empty tl then out
   else mkAssistantChunk (a_visible_text out ++ visible_text tl) (a_citations out)
          (a_plan_segments out ++ extracted tl))
  = mkAssistantChunk (a_visible_text out ++ visible_text tl) (a_citations out)
      (a_plan_segments out ++ extracted tl).
Proof.
  destruct tl as [[|c v] [|e es]]; try done. cbn. rewrite !app_nil_r. by destruct out.
Qed.

(** Whatever the pieces an answer is streamed in, the assistant parser
    extracts exactly the citations of the whole text; outside plan mode the
    visible text is the text without them, and in plan mode the visible text
    and the plan segments are those of reading that text line by line, so a
    citation inside a plan line or even inside a tag line is removed before the
    plan blocks are recognised. *)
Theorem assistant_text_composes mode pieces :
  exists text citations, hides citation_spec (concat pieces) text citations
  /\ a_citations (assistant_run mode pieces) = citations
  /\ (if mode
      then concat (plan_atoms <$> a_plan_segments (assistant_run mode pieces)) = read_text plan_specs text
           /\ a_visible_text (assistant_run mode pieces) = outside (read_text plan_specs text)
      else a_visible_text (assistant_run mode pieces) = text
           /\ a_plan_segments (assistant_run mode pieces) = []).
Proof.
  exists (visible_text (run_parser citation_new pieces)), (extracted (run_parser citation_new pieces)).
  split; [apply citation_hides|]. unfold assistant_run, run_parser, assistant_new.
  destruct mode.
  - pose proof (assistant_push_plan citation_new plan_new pieces) as H.
    destruct (assistant_push_all _ pieces) as [self out].
    destruct (push_all citation_new pieces) as [cp cout]. destruct H as (-> & Hc & Hs).
    unfold assistant_finish, parse_visible_text. cbn [citations plan_mode plan negb].
    destruct (finish cp) as [cp2 ctail]. cbn [citations plan_mode plan negb fst snd].
    set (pp := (steps plan_new (visible_text cout)).1) in *.
    destruct (plan_push_says pp (visible_text ctail)) as [Hp Hsays].
    destruct (push_str pp (visible_text ctail)) as [pp1 pc]. cbn [fst snd] in *. subst pp1.
    cbn [citations plan_mode plan]. set (pp2 := (steps pp (visible_text ctail)).1) in *.
    assert (chunk_says (finish pp2).2 (atoms (tagged_finish pp2).2)) as Hfin.
    { cbn [finish ProposedPlanParser_Stream]. destruct (tagged_finish pp2). apply map_segments_says. }
    destruct (finish pp2) as [pp3 ptail]. cbn [fst snd] in *. rewrite chunk_empty_append.
    split; [cbn; by rewrite Hc|]. cbn [chunk_append visible_text].
    pose proof (steps_finish plan_specs _ (visible_text cout ++ visible_text ctail) None (le_n _)) as Hf.
    change (mkTagged plan_specs None true []) with plan_new in Hf.
    rewrite steps_app in Hf. fold pp in Hf. fold pp2 in Hf.
    unfold read_text. destruct (read_lines plan_specs None _) as [act ref]. rewrite <- Hf.
    rewrite <- app_assoc.
    exact (chunk_says_append _ _ _ _ Hs (chunk_says_append _ _ _ _ Hsays Hfin)).
  - pose proof (assistant_push_plain citation_new plan_new pieces) as H.
    destruct (assistant_push_all _ pieces) as [self out].
    destruct (push_all citation_new pieces) as [cp cout]. destruct H as (-> & ->).
    unfold assistant_finish, parse_visible_text. cbn [citations plan_mode plan negb].
    destruct (finish cp) as [cp2 ctail]. done.
Qed.

Lemma citation_parser_hides_witness :
  let text := lit "a<oai-mem-citation>x</oai-mem-citation>b" in
  exists out, out = run_parser (P := CitationStreamParser) citation_new [take 5 text; drop 5 text]
  /\ lit "ab" = visible_text out /\ [lit "x"] = extracted out.
Proof.
  intros text. eexists. split; [reflexivity|].
  apply (proj2 (citation_parser_hides [take 5 text; drop 5 text])).
  change (lit "ab") with (take 1 text ++ lit "b"). change [lit "x"] with [take 1 (drop 19 text)].
  eapply (hides_closed citation_spec text 1 1); [vm_compute; reflexivity|reflexivity|vm_compute; reflexivity|].
  apply hides_none. vm_compute. reflexivity.
Defined.
