(* ===== verification/Utf8Stream.v ===== *)
(** [utils/stream-parser/src/utf8_stream.rs]: a text parser fed with raw bytes
    that may split a code point.

    Bytes are [N]; [from_utf8] is [std::str::from_utf8] with the offsets of its
    error, and [encode] the encoding of a string.  The theorem relates the wrapped
    parser to the same parser fed with the decoded text, for every way of cutting
    the bytes into chunks. *)

From stdpp Require Import base list option numbers strings.
From Stdlib Require Import NArith ZArith Lia ZifyN ZifyNat.
From S2P Require Import Prelude RustStr TaggedLines.
Local Open Scope rust_scope.
#[local] Ltac Zify.zify_post_hook ::= Z.to_euclidean_division_equations.

Abbreviation bytes := (list N).

(** * UTF-8 ([std]) *)

Definition is_scalar (c : char) : bool := (c <? 0xD800)%N || ((0xE000 <=? c) && (c <? 0x110000))%N.

(** [char::encode_utf8]. *)
Definition encode_char (c : char) : bytes :=
  if (c <? 0x80)%N then [c]
  else if (c <? 0x800)%N then [0xC0 + c / 64; 0x80 + c mod 64]%N
  else if (c <? 0x10000)%N then [0xE0 + c / 4096; 0x80 + (c / 64) mod 64; 0x80 + c mod 64]%N
  else [0xF0 + c / 262144; 0x80 + (c / 4096) mod 64; 0x80 + (c / 64) mod 64; 0x80 + c mod 64]%N.

Definition encode (s : str) : bytes := concat (encode_char <$> s).

(** What stands at the start of the bytes. *)
Inductive Decoded : Set :=
| DChar (c : char) (width : nat)
| DInvalid (error_len : nat)
| DIncomplete.

#[global] Instance Decoded_eq_dec : EqDecision Decoded.
Proof. solve_decision. Defined.

Definition is_continuation (b : N) : bool := in_range 0x80 0xBF b.

(** The second bytes allowed after a lead byte of three or four. *)
Definition second_ok3 (b1 b2 : N) : bool :=
  if (b1 =? 0xE0)%N then in_range 0xA0 0xBF b2
  else if (b1 =? 0xED)%N then in_range 0x80 0x9F b2
  else is_continuation b2.
Definition second_ok4 (b1 b2 : N) : bool :=
  if (b1 =? 0xF0)%N then in_range 0x90 0xBF b2
  else if (b1 =? 0xF4)%N then in_range 0x80 0x8F b2
  else is_continuation b2.

Definition decode_first (bs : bytes) : Decoded :=
  match bs with
  | [] => DIncomplete
  | b1 :: bs =>
      if (b1 <? 0x80)%N then DChar b1 1
      else if in_range 0xC2 0xDF b1 then
        match bs with
        | [] => DIncomplete
        | b2 :: _ => if is_continuation b2 then DChar ((b1 - 0xC0) * 64 + (b2 - 0x80)) 2 else DInvalid 1
        end
      else if in_range 0xE0 0xEF b1 then
        match bs with
        | [] => DIncomplete
        | b2 :: bs =>
            if negb (second_ok3 b1 b2) then DInvalid 1
            else match bs with
                 | [] => DIncomplete
                 | b3 :: _ =>
                     if is_continuation b3
                     then DChar ((b1 - 0xE0) * 4096 + (b2 - 0x80) * 64 + (b3 - 0x80)) 3
                     else DInvalid 2
                 end
        end
      else if in_range 0xF0 0xF4 b1 then
        match bs with
        | [] => DIncomplete
        | b2 :: bs =>
            if negb (second_ok4 b1 b2) then DInvalid 1
            else match bs with
                 | [] => DIncomplete
                 | b3 :: bs =>
                     if negb (is_continuation b3) then DInvalid 2
                     else match bs with
                          | [] => DIncomplete
                          | b4 :: _ =>
                              if is_continuation b4
                              then DChar ((b1 - 0xF0) * 262144 + (b2 - 0x80) * 4096 + (b3 - 0x80) * 64 + (b4 - 0x80)) 4
                              else DInvalid 3
                          end
                 end
        end
      else DInvalid 1
  end.

Record Utf8Error : Set := mkUtf8Error { err_valid_up_to : nat; err_error_len : option nat }.

(** [fuel] bounds the number of characters. *)
Fixpoint validate (fuel : nat) (bs : bytes) (at_byte : nat) : result str Utf8Error :=
  match bs, fuel with
  | [], _ => Ok []
  | _, O => Err (mkUtf8Error at_byte None)
  | _, S fuel =>
      match decode_first bs with
      | DChar c width =>
          match validate fuel (drop width bs) (at_byte + width) with
          | Ok s => Ok (c :: s)
          | Err e => Err e
          end
      | DInvalid n => Err (mkUtf8Error at_byte (Some n))
      | DIncomplete => Err (mkUtf8Error at_byte None)
      end
  end.

Definition from_utf8 (bs : bytes) : result str Utf8Error := validate (length bs) bs 0.

(** * [Utf8StreamParser] *)

Inductive Utf8StreamParserError : Set :=
| InvalidUtf8 (valid_up_to error_len : nat)
| IncompleteUtf8AtEof.

Record Utf8StreamParser (P : Type) := mkUtf8Parser { inner : P; pending_utf8 : bytes }.
Arguments mkUtf8Parser {P}.
Arguments inner {P}.
Arguments pending_utf8 {P}.

Section utf8_stream.
Context {P E : Type} `{StreamTextParser P E}.
Implicit Types (self : Utf8StreamParser P).

Definition utf8_new (inner : P) : Utf8StreamParser P := mkUtf8Parser inner [].

Definition push_bytes self (chunk : bytes) :
    Utf8StreamParser P * result (StreamTextChunk E) Utf8StreamParserError :=
  let pending := self.(pending_utf8) ++ chunk in
  match from_utf8 pending with
  | Ok text =>
      let '(inner, out) := push_str self.(inner) text in
      (mkUtf8Parser inner [], Ok out)
  | Err (mkUtf8Error valid_up_to (Some error_len)) => (self, Err (InvalidUtf8 valid_up_to error_len))
  | Err (mkUtf8Error valid_up_to None) =>
      if valid_up_to =? 0 then (mkUtf8Parser self.(inner) pending, Ok default_chunk)
      else
        match from_utf8 (take valid_up_to pending) with
        | Err prefix_err =>
            (self, Err (InvalidUtf8 prefix_err.(err_valid_up_to) (default 0 prefix_err.(err_error_len))))
        | Ok text =>
            let '(inner, out) := push_str self.(inner) text in
            (mkUtf8Parser inner (drop valid_up_to pending), Ok out)
        end
  end.

Definition finish_utf8 self : Utf8StreamParser P * result (StreamTextChunk E) Utf8StreamParserError :=
  let flush self out :=
    let '(inner, tail) := finish self.(inner) in
    (mkUtf8Parser inner self.(pending_utf8), Ok (chunk_append out tail)) in
  match self.(pending_utf8) with
  | [] => flush self default_chunk
  | pending =>
      match from_utf8 pending with
      | Err (mkUtf8Error valid_up_to (Some error_len)) => (self, Err (InvalidUtf8 valid_up_to error_len))
      | Err (mkUtf8Error _ None) => (self, Err IncompleteUtf8AtEof)
      | Ok text =>
          let '(inner, out) := push_str self.(inner) text in
          flush (mkUtf8Parser inner []) out
      end
  end.

Definition into_inner self : result P Utf8StreamParserError :=
  match self.(pending_utf8) with
  | [] => Ok self.(inner)
  | pending =>
      match from_utf8 pending with
      | Ok _ => Ok self.(inner)
      | Err (mkUtf8Error valid_up_to (Some error_len)) => Err (InvalidUtf8 valid_up_to error_len)
      | Err (mkUtf8Error _ None) => Err IncompleteUtf8AtEof
      end
  end.

Definition into_inner_lossy self : P := self.(inner).

(** Feeding chunks until one is refused, then flushing. *)
Fixpoint push_chunks self (chunks : list bytes) (all : StreamTextChunk E) :
    Utf8StreamParser P * result (StreamTextChunk E) Utf8StreamParserError :=
  match chunks with
  | [] =>
      let '(self, r) := finish_utf8 self in
      (self, match r with Ok tail => Ok (chunk_append all tail) | Err e => Err e end)
  | chunk :: chunks =>
      let '(self, r) := push_bytes self chunk in
      match r with
      | Ok next => push_chunks self chunks (chunk_append all next)
      | Err e => (self, Err e)
      end
  end.
End utf8_stream.

(** * Encoding and decoding *)

Lemma in_range_true lo hi b : in_range lo hi b = true <-> (lo <= b <= hi)%N.
Proof. unfold in_range. rewrite andb_true_iff, !N.leb_le. done. Qed.
Lemma in_range_false lo hi b : in_range lo hi b = false <-> ~ (lo <= b <= hi)%N.
Proof. rewrite <- in_range_true. by destruct (in_range lo hi b). Qed.

Ltac ranges := unfold second_ok3, second_ok4, is_continuation in *;
  repeat match goal with
  | H : _ || _ = true |- _ => apply orb_true_iff in H
  | H : _ && _ = true |- _ => apply andb_true_iff in H as [? ?]
  | H : negb _ = true |- _ => apply negb_true_iff in H
  | H : negb _ = false |- _ => apply negb_false_iff in H
  | H : in_range _ _ _ = true |- _ => apply in_range_true in H
  | H : in_range _ _ _ = false |- _ => apply in_range_false in H
  | H : (_ <? _)%N = true |- _ => apply N.ltb_lt in H
  | H : (_ <? _)%N = false |- _ => apply N.ltb_ge in H
  | H : (_ <=? _)%N = true |- _ => apply N.leb_le in H
  | H : (_ =? _)%N = true |- _ => apply N.eqb_eq in H
  | H : (_ =? _)%N = false |- _ => apply N.eqb_neq in H
  | H : (if ?b then _ else _) = _ |- _ => destruct b eqn:?
  end.

Lemma decode_first_char bs c w :
  decode_first bs = DChar c w ->
  is_scalar c = true /\ w = length (encode_char c) /\ take w bs = encode_char c /\ 0 < w <= length bs.
Proof.
  unfold decode_first. intros E. repeat case_match; simplify_eq; ranges.
  all: split; [unfold is_scalar; apply orb_true_iff; rewrite ?andb_true_iff, ?N.leb_le, ?N.ltb_lt; lia|].
  all: cbn [take length]; unfold encode_char.
  all: repeat match goal with |- context [(?a <? ?b)%N] => destruct (N.ltb_spec a b); try lia end.
  all: split; [done|]; split; [|cbn; lia]; repeat f_equal; lia.
Qed.

Ltac solve_ranges :=
  cbn [app length decode_first]; unfold second_ok3, second_ok4, is_continuation, in_range;
  repeat match goal with
  | |- context [(?a <? ?b)%N] => (destruct (N.ltb_spec a b); [lia|]) || (destruct (N.ltb_spec a b); [|lia])
  | |- context [(?a <=? ?b)%N] => (destruct (N.leb_spec a b); [|lia]) || (destruct (N.leb_spec a b); [lia|])
  | |- context [(?a =? ?b)%N] => destruct (N.eqb_spec a b)
  end; cbn [andb negb]; try lia; f_equal; lia.

Lemma decode_first_encode c rest :
  is_scalar c = true -> decode_first (encode_char c ++ rest) = DChar c (length (encode_char c)).
Proof.
  unfold is_scalar, encode_char. intros Hc.
  assert (c < 0xD800 \/ 0xE000 <= c < 0x110000)%N as Hs by (ranges; destruct Hc; ranges; lia). clear Hc.
  repeat match goal with |- context [(c <? ?b)%N] => destruct (N.ltb_spec c b) end.
  - cbn. by rewrite (proj2 (N.ltb_lt c 128)).
  - assert (c = 64 * (c / 64) + c mod 64 /\ c mod 64 < 64)%N as Hq by lia.
    generalize dependent (c / 64)%N. generalize dependent (c mod 64)%N. intros r q Hq. solve_ranges.
  - assert (c = 4096 * (c / 4096) + 64 * ((c / 64) mod 64) + c mod 64 /\ c mod 64 < 64 /\ (c / 64) mod 64 < 64)%N as Hq
      by lia.
    generalize dependent (c / 4096)%N. generalize dependent ((c / 64) mod 64)%N. generalize dependent (c mod 64)%N.
    intros t r q Hq. solve_ranges.
  - assert (c = 262144 * (c / 262144) + 4096 * ((c / 4096) mod 64) + 64 * ((c / 64) mod 64) + c mod 64
      /\ c mod 64 < 64 /\ (c / 64) mod 64 < 64 /\ (c / 4096) mod 64 < 64)%N as Hq by lia.
    generalize dependent (c / 262144)%N. generalize dependent ((c / 4096) mod 64)%N.
    generalize dependent ((c / 64) mod 64)%N. generalize dependent (c mod 64)%N.
    intros u t r q Hq. solve_ranges.
Qed.

Lemma decode_first_app bs rest : decode_first bs <> DIncomplete -> decode_first (bs ++ rest) = decode_first bs.
Proof.
  destruct bs as [|b1 [|b2 [|b3 [|b4 bs]]]]; cbn; intros H; repeat case_match; done.
Qed.

Lemma encode_char_nonempty c : 0 < length (encode_char c).
Proof. unfold encode_char. repeat case_match; cbn; lia. Qed.

Lemma encode_cons c s : encode (c :: s) = encode_char c ++ encode s.
Proof. done. Qed.
Lemma encode_app s t : encode (s ++ t) = encode s ++ encode t.
Proof. unfold encode. by rewrite fmap_app, concat_app. Qed.
Lemma encode_nil s : length (encode s) = 0 -> s = [].
Proof. destruct s as [|c s]; [done|]. rewrite encode_cons, length_app. pose proof (encode_char_nonempty c). lia. Qed.

Abbreviation scalars s := (Forall (fun c => is_scalar c = true) s).

(** Bytes that do not start with a character. *)
Definition stuck (rest : bytes) : Prop :=
  match rest with
  | [] => True
  | _ => match decode_first rest with DChar _ _ => False | _ => True end
  end.

(** The outcome for the encoding of [s] followed by stuck bytes. *)
Definition verdict (at_byte : nat) (s : str) (rest : bytes) : result str Utf8Error :=
  match rest with
  | [] => Ok s
  | _ =>
      Err (mkUtf8Error (at_byte + length (encode s))
             (match decode_first rest with DInvalid n => Some n | _ => None end))
  end.

Lemma validate_encode fuel s rest k :
  scalars s -> stuck rest -> length (encode s ++ rest) <= fuel -> validate fuel (encode s ++ rest) k = verdict k s rest.
Proof.
  intros Hs Hr. revert fuel k. induction Hs as [|c s Hc _ IH]; intros fuel k Hf.
  - cbn [encode app] in *. unfold encode, verdict in *. cbn in Hf |- *. rewrite Nat.add_0_r.
    destruct rest as [|b rest]; [by destruct fuel|]. cbn in Hf. destruct fuel as [|fuel]; [lia|].
    unfold stuck in Hr. cbn [validate]. destruct (decode_first (b :: rest)); done.
  - rewrite encode_cons, <- app_assoc in *. rewrite length_app in Hf. pose proof (encode_char_nonempty c) as Hn.
    destruct fuel as [|fuel]; [lia|]. pose proof (decode_first_encode c (encode s ++ rest) Hc) as Hd.
    assert (exists b l, encode_char c ++ encode s ++ rest = b :: l) as (b & l & E)
      by (destruct (encode_char c); cbn in Hn |- *; [lia|eauto]).
    cbn [validate]. rewrite E. rewrite <- E, Hd, drop_app_length, IH by lia.
    unfold verdict. destruct rest; [done|]. rewrite encode_cons, length_app, Nat.add_assoc. done.
Qed.

Lemma from_utf8_encode s rest : scalars s -> stuck rest -> from_utf8 (encode s ++ rest) = verdict 0 s rest.
Proof. intros Hs Hr. by apply validate_encode. Qed.

Lemma split_utf8 bs : exists s rest, bs = encode s ++ rest /\ scalars s /\ stuck rest.
Proof.
  remember (length bs) as n eqn:E. revert bs E. induction n as [n IH] using lt_wf_ind. intros bs ->.
  destruct bs as [|b bs]; [exists [], []; repeat split; constructor|].
  destruct (decode_first (b :: bs)) as [c w| |] eqn:E.
  - destruct (decode_first_char _ _ _ E) as (Hc & Hw & Ht & Hl).
    destruct (IH (length (drop w (b :: bs))) ltac:(rewrite length_drop; lia) _ eq_refl) as (s & rest & Es & Hs & Hr).
    exists (c :: s), rest. split; [|split; [by constructor|done]].
    rewrite encode_cons, <- app_assoc, <- Es, <- Ht. by rewrite take_drop.
  - exists [], (b :: bs). split; [done|]. split; [constructor|]. unfold stuck. by rewrite E.
  - exists [], (b :: bs). split; [done|]. split; [constructor|]. unfold stuck. by rewrite E.
Qed.

(** Decoding after a decoded prefix. *)
Lemma from_utf8_prefix s bs :
  scalars s ->
  from_utf8 (encode s ++ bs)
  = match from_utf8 bs with
    | Ok t => Ok (s ++ t)
    | Err e => Err (mkUtf8Error (length (encode s) + e.(err_valid_up_to)) e.(err_error_len))
    end.
Proof.
  intros Hs. destruct (split_utf8 bs) as (t & rest & -> & Ht & Hr). rewrite app_assoc, <- encode_app.
  rewrite !from_utf8_encode by (done || by apply Forall_app). unfold verdict. destruct rest; [done|].
  rewrite encode_app, length_app. done.
Qed.

(** [std]'s round trip: a string is read back from its encoding, and what is read
    encodes to the bytes. *)
Lemma utf8_roundtrip s bs : scalars s -> (from_utf8 bs = Ok s <-> bs = encode s).
Proof.
  intros Hs. split.
  - destruct (split_utf8 bs) as (t & rest & -> & Ht & Hr). rewrite from_utf8_encode by done. unfold verdict.
    destruct rest; [|done]. intros [= ->]. by rewrite app_nil_r.
  - intros ->. rewrite <- (app_nil_r (encode s)). by rewrite from_utf8_encode.
Qed.

(** * The stream *)

Section stream.
Context {P E : Type} `{StreamTextParser P E}.
Implicit Types (self : Utf8StreamParser P) (all out : StreamTextChunk E).

Lemma chunk_append_assoc (a b c : StreamTextChunk E) :
  chunk_append (chunk_append a b) c = chunk_append a (chunk_append b c).
Proof. unfold chunk_append. cbn. by rewrite !app_assoc. Qed.
Lemma chunk_append_default_l (a : StreamTextChunk E) : chunk_append default_chunk a = a.
Proof. by destruct a. Qed.
Lemma chunk_append_default_r (a : StreamTextChunk E) : chunk_append a default_chunk = a.
Proof. destruct a. unfold chunk_append. cbn. by rewrite !app_nil_r. Qed.

(** Between two calls the buffer holds at most the start of one character. *)
Definition between_chunks (pending : bytes) : Prop :=
  match pending with [] => True | _ => decode_first pending = DIncomplete end.

Lemma between_stuck pending : between_chunks pending -> stuck pending.
Proof. destruct pending; [done|]. unfold between_chunks, stuck. by intros ->. Qed.

(** [push_bytes] on a buffer and chunk that decode to [text] up to [rest]. *)
Lemma push_bytes_spec self chunk text rest :
  self.(pending_utf8) ++ chunk = encode text ++ rest -> scalars text -> stuck rest ->
  push_bytes self chunk
  = match rest, decode_first rest with
    | _ :: _, DInvalid n => (self, Err (InvalidUtf8 (length (encode text)) n))
    | _, _ =>
        match text, rest with
        | [], _ :: _ => (mkUtf8Parser self.(inner) rest, Ok default_chunk)
        | _, _ => let '(inner, out) := push_str self.(inner) text in (mkUtf8Parser inner rest, Ok out)
        end
    end.
Proof.
  intros E1 Ht Hr. unfold push_bytes. rewrite E1, from_utf8_encode by done. unfold verdict.
  destruct rest as [|b rest]; [by destruct text|]. destruct (decode_first (b :: rest)) eqn:Ed; [|done|].
  { unfold stuck in Hr. by rewrite Ed in Hr. }
  cbn [Nat.add]. destruct text as [|c text]; [done|].
  destruct (Nat.eqb_spec (length (encode (c :: text))) 0) as [H0|H0]; [by apply encode_nil in H0|].
  rewrite take_app_length, drop_app_length.
  by rewrite (proj2 (utf8_roundtrip (c :: text) _ Ht)).
Qed.

(** What the parser reports for the bytes received so far and the chunks to come. *)
Definition stream_outcome self (chunks : list bytes) all (pieces : list str) : Prop :=
  let '(self', r) := push_chunks self chunks all in
  match from_utf8 (self.(pending_utf8) ++ concat chunks) with
  | Ok s =>
      concat pieces = s /\ r = Ok (chunk_append all (run_parser self.(inner) pieces))
      /\ self'.(inner) = (finish (push_all self.(inner) pieces).1).1 /\ self'.(pending_utf8) = []
  | Err e =>
      exists read, read = length (encode (concat pieces)) /\ read <= e.(err_valid_up_to)
      /\ r = Err match e.(err_error_len) with
                 | Some n => InvalidUtf8 (e.(err_valid_up_to) - read) n
                 | None => IncompleteUtf8AtEof
                 end
      /\ (e.(err_error_len) = None -> read = e.(err_valid_up_to))
      /\ self'.(inner) = (push_all self.(inner) pieces).1
  end.

(** One accepted chunk before the rest of the stream. *)
Lemma stream_outcome_cons self chunk chunks all text self' out pieces :
  push_bytes self chunk = (self', Ok out) -> scalars text ->
  self.(pending_utf8) ++ chunk = encode text ++ self'.(pending_utf8) ->
  (self'.(inner), out) = push_str self.(inner) text ->
  stream_outcome self' chunks (chunk_append all out) pieces ->
  stream_outcome self (chunk :: chunks) all (text :: pieces).
Proof.
  intros Ep Ht Eb Ei. unfold stream_outcome, run_parser. cbn [push_chunks concat push_all]. rewrite Ep, <- Ei.
  destruct (push_chunks self' chunks _) as [self2 r]. rewrite app_assoc, Eb, <- app_assoc, from_utf8_prefix by done.
  destruct (from_utf8 (pending_utf8 self' ++ concat chunks)) as [s|e]; cbn [inner].
  - intros (<- & -> & Hi & Hp). destruct (push_all (inner self') pieces) as [p rest].
    split_and!; try done. by rewrite !chunk_append_assoc.
  - intros (read & -> & Hle & -> & Hn & Hi). cbn. rewrite encode_app, length_app.
    destruct (push_all (inner self') pieces) as [p rest]. eexists. split; [done|]. split; [lia|].
    split; [|split; [intros E0; rewrite Hn by done; lia|done]].
    destruct (err_error_len e); [|done]. do 2 f_equal. lia.
Qed.

Lemma stream_outcome_skip self chunk chunks all self' pieces :
  push_bytes self chunk = (self', Ok default_chunk) ->
  self'.(pending_utf8) = self.(pending_utf8) ++ chunk -> self'.(inner) = self.(inner) ->
  stream_outcome self' chunks all pieces -> stream_outcome self (chunk :: chunks) all pieces.
Proof.
  intros Ep Eb Ei. unfold stream_outcome. cbn [push_chunks concat]. rewrite Ep, app_assoc, <- Eb, Ei.
  by rewrite chunk_append_default_r.
Qed.

Lemma stream_outcome_total self chunks all :
  between_chunks self.(pending_utf8) -> exists pieces, stream_outcome self chunks all pieces.
Proof.
  revert self all. induction chunks as [|chunk chunks IH]; intros self all Hb.
  { exists []. unfold stream_outcome, run_parser, finish_utf8. cbn [push_chunks concat push_all]. rewrite app_nil_r.
    destruct self as [p [|b pending]]; cbn [pending_utf8 inner] in *.
    - cbn. destruct (finish p) as [p' tail]. cbn. by rewrite !chunk_append_default_l.
    - cbn -[from_utf8]. assert (from_utf8 (b :: pending) = verdict 0 [] (b :: pending)) as ->
        by (apply (from_utf8_encode []); [constructor|by apply between_stuck]).
      unfold verdict. unfold between_chunks in Hb. rewrite Hb. cbn -[from_utf8]. eexists. split_and!; done. }
  destruct (split_utf8 (pending_utf8 self ++ chunk)) as (text & rest & Eb & Ht & Hr).
  pose proof (push_bytes_spec self chunk text rest Eb Ht Hr) as Ep.
  assert (decode_first rest <> DIncomplete -> rest <> [] -> exists n, decode_first rest = DInvalid n) as Hd.
  { intros H1 H2. destruct rest; [done|]. unfold stuck in Hr. destruct (decode_first _); eauto; done. }
  destruct (decide (rest = [] \/ decode_first rest = DIncomplete)) as [Hrest|Hrest].
  - assert (between_chunks rest) as Hb' by (destruct rest; [done|]; by destruct Hrest).
    destruct (decide (text = [] /\ rest <> [])) as [[-> Hne]|Hne].
    + destruct (IH (mkUtf8Parser (inner self) rest) all Hb') as [pieces Hp]. exists pieces.
      eapply stream_outcome_skip; [..|exact Hp]; [|done|done]. rewrite Ep. destruct rest; [done|].
      destruct Hrest as [?| ->]; done.
    + destruct (push_str (inner self) text) as [inner' out] eqn:Ei.
      destruct (IH (mkUtf8Parser inner' rest) (chunk_append all out) Hb') as [pieces Hp]. exists (text :: pieces).
      eapply (stream_outcome_cons _ _ _ _ _ (mkUtf8Parser inner' rest));
        [|exact Ht|exact Eb|symmetry; exact Ei|exact Hp].
      rewrite Ep. destruct rest as [|b rest]; [by destruct text|]. destruct Hrest as [?| ->]; [done|].
      destruct text; [|done]. exfalso. by apply Hne.
  - destruct Hd as [n Hd]; [tauto|tauto|]. exists []. unfold stream_outcome. cbn [push_chunks concat].
    destruct rest as [|b rest]; [tauto|]. rewrite Hd in Ep. rewrite Ep, app_assoc, Eb, <- app_assoc.
    assert (decode_first (b :: (rest ++ concat chunks)) = DInvalid n) as Hd'
      by (rewrite <- Hd; apply (decode_first_app (b :: rest)); congruence).
    rewrite from_utf8_encode; [|done|unfold stuck; cbn [app]; by rewrite Hd'].
    unfold verdict. cbn [app]. rewrite Hd'. cbn. eexists. split; [done|]. cbn. split; [lia|].
    by rewrite Nat.sub_0_r.
Qed.

(** C35: however a byte stream is cut into chunks, the wrapped parser sees the
    decoded text: when the bytes are the encoding of a string, every chunk is
    accepted and the result is the parser's on pieces that make up that string;
    a stream that ends inside a character is reported as incomplete, after all
    characters before it were handed on; and a chunk that makes the bytes
    invalid is refused without the parser seeing any of it, with the length that
    decoding all the bytes reports and the position relative to the bytes still
    buffered: the position that decoding everything reports less the number of
    bytes already handed on. *)
Theorem utf8_stream_decodes (parser : P) (chunks : list bytes) :
  exists pieces,
    let '(self, r) := push_chunks (utf8_new parser) chunks default_chunk in
    match from_utf8 (concat chunks) with
    | Ok s =>
        encode s = concat chunks /\ concat pieces = s /\ r = Ok (run_parser parser pieces)
        /\ into_inner self = Ok (finish (push_all parser pieces).1).1
    | Err (mkUtf8Error valid_up_to error_len) =>
        exists read, read = length (encode (concat pieces)) /\ read <= valid_up_to
        /\ r = Err match error_len with
                   | Some n => InvalidUtf8 (valid_up_to - read) n
                   | None => IncompleteUtf8AtEof
                   end
        /\ (error_len = None -> read = valid_up_to)
        /\ into_inner_lossy self = (push_all parser pieces).1
    end.
Proof.
  destruct (stream_outcome_total (utf8_new parser) chunks default_chunk I) as [pieces Hp]. exists pieces.
  unfold stream_outcome in Hp. destruct (push_chunks _ chunks default_chunk) as [self r].
  cbn [utf8_new pending_utf8 inner app] in Hp.
  destruct (from_utf8 (concat chunks)) as [s|[v e]] eqn:Eu; [|exact Hp].
  destruct Hp as (Hs & Hr & Hi & Hpe). rewrite chunk_append_default_l in Hr. split; [|split; [done|split; [done|]]].
  - destruct (split_utf8 (concat chunks)) as (t & rest & Eb & Ht & Hst). rewrite Eb, from_utf8_encode in Eu by done.
    unfold verdict in Eu. destruct rest; simplify_eq. by rewrite Eb, app_nil_r.
  - unfold into_inner. by rewrite Hpe, Hi.
Qed.

(** A refused chunk leaves the parser as it was. *)
Lemma refused_chunk_rolls_back self chunk self' e : push_bytes self chunk = (self', Err e) -> self' = self.
Proof. unfold push_bytes. intros Ep. repeat case_match; simplify_eq; done. Qed.
End stream.

(** The test of the source, with the code points split across chunks, and the
    same stream cut short and corrupted. *)
Definition w_chunks : list bytes := [[65; 0xC3]; [0xA9; 66; 0xE4]; [0xB8; 0xAD]]%N.

#[local] Instance w_parser : StreamTextParser str N := {|
  push_str p s := (p ++ s, mkChunk s []);
  finish p := (p, default_chunk);
|}.

Lemma utf8_stream_decodes_witness :
  (push_chunks (utf8_new ([] : str)) w_chunks default_chunk).2 = Ok (mkChunk [65; 233; 66; 20013]%N [])
  /\ (push_chunks (utf8_new ([] : str)) (take 2 w_chunks) default_chunk).2 = Err IncompleteUtf8AtEof
  /\ (push_chunks (utf8_new ([] : str)) (take 2 w_chunks ++ [[0xFF]]%N) default_chunk).2 = Err (InvalidUtf8 0 1)
  /\ exists pieces, concat pieces = [65; 233; 66; 20013]%N.
Proof.
  split; [vm_compute; reflexivity|]. split; [vm_compute; reflexivity|]. split; [vm_compute; reflexivity|].
  destruct (utf8_stream_decodes ([] : str) w_chunks) as [pieces Hp]. exists pieces.
  assert (from_utf8 (concat w_chunks) = Ok [65; 233; 66; 20013]%N) as Eu by (vm_compute; reflexivity).
  destruct (push_chunks _ _ _) as [self r]. rewrite Eu in Hp. apply Hp.
Defined.
