(* ===== verification/History.v ===== *)
(** [core/src/context_manager/history.rs] and [normalize.rs], with the parts of
    [core/src/event_mapping.rs] and [protocol/src/protocol.rs] they use: the
    transcript that is sent to the model, its normalisation, truncation, rollback
    and token accounting.

    [ResponseItem] has the constructors of [protocol/src/models.rs]; fields that
    the modelled code only carries along are one value of the type [X].  The
    parameters are code of other crates or of other parts of the program: the
    UUID of a synthetic identifier, JSON printing, the recognisers of contextual
    user text and of messages between agents, image decoding and the scaling of a
    budget by the float 1.2.  The model is the release build, where
    [error_or_panic] logs.  [i64] is [Z] with saturating addition. *)

From stdpp Require Import base list option numbers strings.
From Stdlib Require Import NArith ZArith Lia.
From S2P Require Import Prelude RustStr HeadTailBuffer Truncate.
Local Open Scope rust_scope.

(** * Items ([protocol/src/models.rs]) *)

Inductive MessageContent : Set :=
| MInputText (text : str)
| MInputImage (image_url : str) (detail : option str)
| MOutputText (text : str).

Inductive FunctionCallOutputBody : Set := BodyText (text : str) | BodyItems (items : list ContentItem).
Record FunctionCallOutputPayload : Set := mkOutput { body : FunctionCallOutputBody; success : option bool }.
Definition payload_from_text (text : str) : FunctionCallOutputPayload := mkOutput (BodyText text) None.

Section history.
Context {X : Type}.

Inductive ResponseItem : Type :=
| AdditionalTools (rest : X)
| Message (role : str) (content : list MessageContent) (rest : X)
| AgentMessage (rest : X)
| Reasoning (encrypted_content : option str) (rest : X)
| LocalShellCall (id : option str) (call_id : option str) (rest : X)
| FunctionCall (id : option str) (call_id : str) (rest : X)
| ToolSearchCall (id : option str) (call_id : option str) (rest : X)
| FunctionCallOutput (id : option str) (call_id : str) (output : FunctionCallOutputPayload) (metadata : option X)
| CustomToolCall (id : option str) (call_id : str) (rest : X)
| CustomToolCallOutput (id : option str) (call_id : str) (name : option str) (output : FunctionCallOutputPayload)
    (metadata : option X)
| ToolSearchOutput (id : option str) (call_id : option str) (status execution : str) (tools : list X)
    (metadata : option X)
| WebSearchCall (rest : X)
| ImageGenerationCall (image_result : str) (rest : X)
| Compaction (encrypted_content : str) (rest : X)
| CompactionTrigger
| ContextCompaction (encrypted_content : option str) (rest : X)
| OtherItem.

Implicit Types (item : ResponseItem) (items : list ResponseItem).

(** * [normalize.rs] *)

Context (uuid_v5 : str -> str).

Definition synthetic_output_id (prefix : str) (item_id : option str) : option str :=
  match item_id with
  | None | Some [] => None
  | Some source_id => Some (prefix ++ lit "_" ++ uuid_v5 (prefix ++ lit ":" ++ source_id))
  end.

Definition contains_id (id : str) (ids : list str) : bool := existsb (fun i => i == id) ids.

Definition function_output_ids items : list str :=
  omap (fun item => match item with FunctionCallOutput _ call_id _ _ => Some call_id | _ => None end) items.
Definition tool_search_output_ids items : list str :=
  omap (fun item => match item with ToolSearchOutput _ call_id _ _ _ _ => call_id | _ => None end) items.
Definition custom_tool_output_ids items : list str :=
  omap (fun item => match item with CustomToolCallOutput _ call_id _ _ _ => Some call_id | _ => None end) items.

(** The output inserted after a call that has none. *)
Definition missing_output (function_ids search_ids custom_ids : list str) item : option ResponseItem :=
  let aborted := payload_from_text (lit "aborted") in
  match item with
  | FunctionCall id call_id _ =>
      if contains_id call_id function_ids then None
      else Some (FunctionCallOutput (synthetic_output_id (lit "fco") id) call_id aborted None)
  | ToolSearchCall id (Some call_id) _ =>
      if contains_id call_id search_ids then None
      else Some (ToolSearchOutput (synthetic_output_id (lit "tso") id) (Some call_id) (lit "completed")
                   (lit "client") [] None)
  | CustomToolCall id call_id _ =>
      if contains_id call_id custom_ids then None
      else Some (CustomToolCallOutput (synthetic_output_id (lit "ctco") id) call_id None aborted None)
  | LocalShellCall id (Some call_id) _ =>
      if contains_id call_id function_ids then None
      else Some (FunctionCallOutput (synthetic_output_id (lit "fco") id) call_id aborted None)
  | _ => None
  end.

(** The positions of the calls, from [n] on, with the outputs to insert. *)
Fixpoint missing_from (missing : ResponseItem -> option ResponseItem) (n : nat) items : list (nat * ResponseItem) :=
  match items with
  | [] => []
  | item :: items =>
      match missing item with Some o => [(n, o)] | None => [] end ++ missing_from missing (S n) items
  end.

(** [Vec::insert]. *)
Definition insert_at (i : nat) item items : list ResponseItem := take i items ++ item :: drop i items.

Definition ensure_call_outputs_present items : list ResponseItem :=
  let missing := missing_output (function_output_ids items) (tool_search_output_ids items)
                   (custom_tool_output_ids items) in
  foldr (fun '(idx, output_item) items => insert_at (idx + 1) output_item items) items (missing_from missing 0 items).

Definition function_call_ids items : list str :=
  omap (fun item => match item with FunctionCall _ call_id _ => Some call_id | _ => None end) items.
Definition tool_search_call_ids items : list str :=
  omap (fun item => match item with ToolSearchCall _ call_id _ => call_id | _ => None end) items.
Definition local_shell_call_ids items : list str :=
  omap (fun item => match item with LocalShellCall _ call_id _ => call_id | _ => None end) items.
Definition custom_tool_call_ids items : list str :=
  omap (fun item => match item with CustomToolCall _ call_id _ => Some call_id | _ => None end) items.

Definition has_call items item : bool :=
  match item with
  | FunctionCallOutput _ call_id _ _ =>
      contains_id call_id (function_call_ids items) || contains_id call_id (local_shell_call_ids items)
  | CustomToolCallOutput _ call_id _ _ _ => contains_id call_id (custom_tool_call_ids items)
  | ToolSearchOutput _ call_id _ execution _ _ =>
      if execution == lit "server" then true
      else match call_id with
           | Some call_id => contains_id call_id (tool_search_call_ids items)
           | None => true
           end
  | _ => true
  end.

Definition remove_orphan_outputs items : list ResponseItem := retain (has_call items) items.

Fixpoint remove_first_matching (predicate : ResponseItem -> bool) items : list ResponseItem :=
  match items with
  | [] => []
  | item :: items => if predicate item then items else item :: remove_first_matching predicate items
  end.

Definition is_function_output (id : str) item : bool :=
  match item with FunctionCallOutput _ existing _ _ => existing == id | _ => false end.
Definition is_function_call (id : str) item : bool :=
  match item with FunctionCall _ existing _ => existing == id | _ => false end.
Definition is_local_shell_call (id : str) item : bool :=
  match item with LocalShellCall _ (Some existing) _ => existing == id | _ => false end.
Definition is_search_output (id : str) item : bool :=
  match item with ToolSearchOutput _ (Some existing) _ _ _ _ => existing == id | _ => false end.
Definition is_search_call (id : str) item : bool :=
  match item with ToolSearchCall _ (Some existing) _ => existing == id | _ => false end.
Definition is_custom_output (id : str) item : bool :=
  match item with CustomToolCallOutput _ existing _ _ _ => existing == id | _ => false end.
Definition is_custom_call (id : str) item : bool :=
  match item with CustomToolCall _ existing _ => existing == id | _ => false end.

Definition remove_corresponding_for items item : list ResponseItem :=
  match item with
  | FunctionCall _ call_id _ | LocalShellCall _ (Some call_id) _ =>
      remove_first_matching (is_function_output call_id) items
  | FunctionCallOutput _ call_id _ _ =>
      if existsb (is_function_call call_id) items then remove_first_matching (is_function_call call_id) items
      else remove_first_matching (is_local_shell_call call_id) items
  | ToolSearchCall _ (Some call_id) _ => remove_first_matching (is_search_output call_id) items
  | ToolSearchOutput _ (Some call_id) _ _ _ _ => remove_first_matching (is_search_call call_id) items
  | CustomToolCall _ call_id _ => remove_first_matching (is_custom_output call_id) items
  | CustomToolCallOutput _ call_id _ _ _ => remove_first_matching (is_custom_call call_id) items
  | _ => items
  end.

Definition IMAGE_CONTENT_OMITTED_PLACEHOLDER : str :=
  lit "image content omitted because you do not support image input".

Inductive InputModality : Set := TextModality | ImageModality.

Definition strip_message_image (c : MessageContent) : MessageContent :=
  match c with MInputImage _ _ => MInputText IMAGE_CONTENT_OMITTED_PLACEHOLDER | _ => c end.
Definition strip_output_image (placeholder : str) (c : ContentItem) : ContentItem :=
  match c with InputImage _ _ => InputText placeholder | _ => c end.

Definition strip_payload (output : FunctionCallOutputPayload) : FunctionCallOutputPayload :=
  match output.(body) with
  | BodyText _ => output
  | BodyItems items => mkOutput (BodyItems (strip_output_image IMAGE_CONTENT_OMITTED_PLACEHOLDER <$> items)) output.(success)
  end.

Definition strip_images item : ResponseItem :=
  match item with
  | Message role content rest => Message role (strip_message_image <$> content) rest
  | FunctionCallOutput id call_id output metadata => FunctionCallOutput id call_id (strip_payload output) metadata
  | CustomToolCallOutput id call_id name output metadata =>
      CustomToolCallOutput id call_id name (strip_payload output) metadata
  | ImageGenerationCall _ rest => ImageGenerationCall [] rest
  | _ => item
  end.

Definition supports_images (input_modalities : list InputModality) : bool :=
  existsb (fun m => match m with ImageModality => true | TextModality => false end) input_modalities.

Definition strip_images_when_unsupported (input_modalities : list InputModality) items : list ResponseItem :=
  if supports_images input_modalities then items else strip_images <$> items.

(** * [event_mapping.rs] *)

Context (is_contextual_user_fragment : MessageContent -> bool) (is_message_content : list MessageContent -> bool).

Definition CONTEXTUAL_DEVELOPER_PREFIXES : list str :=
  lit <$> ["<permissions instructions>"; "<model_switch>"; "<collaboration_mode>"; "<multi_agent_mode>";
           "<realtime_conversation>"; "<skills_instructions>"; "<personality_spec>"; "<token_budget>";
           "<context_window>"; "<context_window_guidance>"; "<rollout_budget>"].

Definition is_contextual_user_message_content (message : list MessageContent) : bool :=
  existsb is_contextual_user_fragment message.

(** [get(..prefix.len())] compared without case; the prefixes are ASCII, so a
    slice at a byte position is one at a character position. *)
Definition starts_with_ignore_case (prefix text : str) : bool :=
  starts_with (to_ascii_lowercase prefix) (to_ascii_lowercase text).

Definition is_contextual_dev_fragment (content_item : MessageContent) : bool :=
  match content_item with
  | MInputText text =>
      existsb (fun prefix => starts_with_ignore_case prefix (trim_start text)) CONTEXTUAL_DEVELOPER_PREFIXES
  | _ => false
  end.

Definition is_contextual_dev_message_content (message : list MessageContent) : bool :=
  existsb is_contextual_dev_fragment message.
Definition has_non_contextual_dev_message_content (message : list MessageContent) : bool :=
  existsb (fun content_item => negb (is_contextual_dev_fragment content_item)) message.

(** * Classifications ([history.rs]) *)

Definition is_api_message item : bool :=
  match item with
  | Message role _ _ => role != lit "system"
  | CompactionTrigger | OtherItem => false
  | _ => true
  end.

Definition is_model_generated_item item : bool :=
  match item with
  | Message role _ _ => role == lit "assistant"
  | Reasoning _ _ | FunctionCall _ _ _ | ToolSearchCall _ _ _ | WebSearchCall _ | ImageGenerationCall _ _
  | CustomToolCall _ _ _ | LocalShellCall _ _ _ | Compaction _ _ | ContextCompaction _ _ => true
  | _ => false
  end.

Definition is_user_turn_boundary item : bool :=
  match item with
  | AgentMessage _ => true
  | Message role content _ =>
      ((role == lit "user") && negb (is_contextual_user_message_content content))
      || ((role == lit "assistant") && is_message_content content)
  | _ => false
  end.

(** Positions from [n] on of the items that satisfy [p]. *)
Fixpoint positions_from (p : ResponseItem -> bool) (n : nat) items : list nat :=
  match items with
  | [] => []
  | item :: items => (if p item then [n] else []) ++ positions_from p (S n) items
  end.

Definition user_message_positions items : list nat := positions_from is_user_turn_boundary 0 items.

(** [iter().rposition(p)]. *)
Definition rposition (p : ResponseItem -> bool) items : option nat := last (positions_from p 0 items).
End history.

Arguments ResponseItem : clear implicits.

(** * Token usage ([protocol/src/protocol.rs]) *)

Definition I64_MAX : Z := 9223372036854775807.
Definition I64_MIN : Z := -9223372036854775808.
Definition in_i64 (n : Z) : Prop := (I64_MIN <= n <= I64_MAX)%Z.
Definition sat_i64 (n : Z) : Z := Z.max I64_MIN (Z.min n I64_MAX).
(** Overflow of plain arithmetic in a release build. *)
Definition wrap_i64 (n : Z) : Z := ((n - I64_MIN) mod 18446744073709551616 + I64_MIN)%Z.
Definition i64_saturating_add (a b : Z) : Z := sat_i64 (a + b)%Z.
Definition i64_saturating_sub (a b : Z) : Z := sat_i64 (a - b)%Z.
(** [i64::try_from(n).unwrap_or(i64::MAX)] of a [usize]. *)
Definition i64_of_usize (n : N) : Z := Z.min (Z.of_N n) I64_MAX.

Record TokenUsage : Set := mkUsage {
  input_tokens : Z;
  cached_input_tokens : Z;
  output_tokens : Z;
  reasoning_output_tokens : Z;
  total_tokens : Z;
}.
Definition usage_default : TokenUsage := mkUsage 0 0 0 0 0.

Definition usage_add_assign (self other : TokenUsage) : TokenUsage :=
  let add a b := wrap_i64 (a + b)%Z in
  mkUsage (add self.(input_tokens) other.(input_tokens)) (add self.(cached_input_tokens) other.(cached_input_tokens))
    (add self.(output_tokens) other.(output_tokens))
    (add self.(reasoning_output_tokens) other.(reasoning_output_tokens)) (add self.(total_tokens) other.(total_tokens)).

Record TokenUsageInfo : Set := mkUsageInfo {
  total_token_usage : TokenUsage;
  last_token_usage : TokenUsage;
  model_context_window : option Z;
}.

Definition append_last_usage (self : TokenUsageInfo) (last : TokenUsage) : TokenUsageInfo :=
  mkUsageInfo (usage_add_assign self.(total_token_usage) last) last self.(model_context_window).

Definition usage_new_or_append (info : option TokenUsageInfo) (last : option TokenUsage) (window : option Z) :
    option TokenUsageInfo :=
  match info, last with
  | None, None => None
  | _, _ =>
      let info := default (mkUsageInfo usage_default usage_default window) info in
      let info := match last with Some last => append_last_usage info last | None => info end in
      Some (match window with
            | Some w => mkUsageInfo info.(total_token_usage) info.(last_token_usage) (Some w)
            | None => info
            end)
  end.

Definition fill_to_context_window (self : TokenUsageInfo) (context_window : Z) : TokenUsageInfo :=
  let delta := Z.max (wrap_i64 (context_window - self.(total_token_usage).(total_tokens))) 0 in
  mkUsageInfo (mkUsage 0 0 0 0 context_window) (mkUsage 0 0 0 0 delta) (Some context_window).

Definition full_context_window (context_window : Z) : TokenUsageInfo :=
  fill_to_context_window (mkUsageInfo usage_default usage_default (Some context_window)) context_window.

(** * The manager ([ContextManager]) *)

Record ContextManager {X Ref Snap : Type} : Type := mkHistory {
  hist_items : list (ResponseItem X);
  history_version : N;
  token_info : option TokenUsageInfo;
  reference_context_item : option Ref;
  world_state_baseline : option Snap;
}.
Arguments ContextManager : clear implicits.
Arguments mkHistory {X Ref Snap}.

Definition U64_MAX : N := 18446744073709551615.

Section manager.
Context {X Ref Snap : Type}.
Abbreviation Item := (ResponseItem X).
Abbreviation Manager := (ContextManager X Ref Snap).
Implicit Types (self : Manager) (items : list Item) (item : Item).
Context (uuid_v5 : str -> str) (is_contextual_user_fragment : MessageContent -> bool).
Context (is_message_content : list MessageContent -> bool).
Abbreviation boundary := (is_user_turn_boundary is_contextual_user_fragment is_message_content).

Definition history_new : Manager := mkHistory [] 0 (usage_new_or_append None None None) None None.

Definition with_items self items : Manager :=
  mkHistory items self.(history_version) self.(token_info) self.(reference_context_item) self.(world_state_baseline).
Definition set_token_info self (info : option TokenUsageInfo) : Manager :=
  mkHistory self.(hist_items) self.(history_version) info self.(reference_context_item) self.(world_state_baseline).
Definition set_reference_context_item self (item : option Ref) : Manager :=
  mkHistory self.(hist_items) self.(history_version) self.(token_info) item self.(world_state_baseline).
Definition set_world_state_baseline self (snapshot : Snap) : Manager :=
  mkHistory self.(hist_items) self.(history_version) self.(token_info) self.(reference_context_item) (Some snapshot).

Definition update_token_info self (usage : TokenUsage) (window : option Z) : Manager :=
  set_token_info self (usage_new_or_append self.(token_info) (Some usage) window).
Definition set_token_usage_full self (context_window : Z) : Manager :=
  set_token_info self (Some (match self.(token_info) with
                             | Some info => fill_to_context_window info context_window
                             | None => full_context_window context_window
                             end)).

(** [saturating_add(1)] on the version. *)
Definition bump (version : N) : N := N.min (version + 1) U64_MAX.

Definition replace self items : Manager :=
  mkHistory items (bump self.(history_version)) self.(token_info) self.(reference_context_item) None.

(** ** Recording *)

Definition truncate_function_output_payload (output : FunctionCallOutputPayload) (policy : TruncationPolicy) :
    option FunctionCallOutputPayload :=
  match output.(body) with
  | BodyText content => (fun t => mkOutput (BodyText t) output.(success)) <$> truncate_text content policy
  | BodyItems items =>
      (fun i => mkOutput (BodyItems i) output.(success)) <$> truncate_function_output_items_with_policy items policy
  end.

(** [policy * 1.2]. *)
Context (scale : TruncationPolicy -> TruncationPolicy).

Definition process_item item (policy : TruncationPolicy) : option Item :=
  let policy_with_serialization_budget := scale policy in
  match item with
  | FunctionCallOutput id call_id output metadata =>
      (fun output => FunctionCallOutput id call_id output metadata)
      <$> truncate_function_output_payload output policy_with_serialization_budget
  | CustomToolCallOutput id call_id name output metadata =>
      (fun output => CustomToolCallOutput id call_id name output metadata)
      <$> truncate_function_output_payload output policy_with_serialization_budget
  | _ => Some item
  end.

(** [None]: a slice off a character boundary, which does not occur
    ([record_items_total]). *)
Fixpoint record_items self items (policy : TruncationPolicy) : option Manager :=
  match items with
  | [] => Some self
  | item :: items =>
      if negb (is_api_message item) then record_items self items policy
      else match process_item item policy with
           | Some processed => record_items (with_items self (self.(hist_items) ++ [processed])) items policy
           | None => None
           end
  end.

(** ** Sending *)

Definition normalize_items (input_modalities : list InputModality) items : list Item :=
  strip_images_when_unsupported input_modalities (remove_orphan_outputs (ensure_call_outputs_present uuid_v5 items)).

Definition for_prompt self (input_modalities : list InputModality) : list Item :=
  normalize_items input_modalities self.(hist_items).

Definition remove_first_item self : Manager :=
  match self.(hist_items) with
  | [] => self
  | removed :: items =>
      mkHistory (remove_corresponding_for items removed) self.(history_version) self.(token_info)
        self.(reference_context_item) None
  end.

(** ** Images of the last turn *)

Definition is_output_image (c : ContentItem) : bool := match c with InputImage _ _ => true | _ => false end.

Definition replace_last_turn_images self (placeholder : str) : Manager * bool :=
  let stop item := match item with FunctionCallOutput _ _ _ _ => true | _ => false end || boundary item in
  match rposition stop self.(hist_items) with
  | None => (self, false)
  | Some index =>
      match self.(hist_items) !! index with
      | Some (FunctionCallOutput id call_id output metadata) =>
          match output.(body) with
          | BodyText _ => (self, false)
          | BodyItems content_items =>
              let replaced := existsb is_output_image content_items in
              let output := mkOutput (BodyItems (strip_output_image placeholder <$> content_items)) output.(success) in
              (mkHistory (<[index := FunctionCallOutput id call_id output metadata]> self.(hist_items))
                 (if replaced then bump self.(history_version) else self.(history_version))
                 self.(token_info) self.(reference_context_item) self.(world_state_baseline), replaced)
          end
      | _ => (self, false)
      end
  end.

(** ** Rolling back *)

(** The loop, on the items before the cut, newest first; [room] is the distance
    to the first instruction turn.  It returns how many items are trimmed and
    whether a mixed developer message was among them. *)
Fixpoint trim_context (before_rev : list Item) (room : nat) : nat * bool :=
  match room, before_rev with
  | S room, Message role content _ :: before_rev =>
      if (role == lit "developer") && is_contextual_dev_message_content content then
        let '(n, mixed) := trim_context before_rev room in
        (S n, has_non_contextual_dev_message_content content || mixed)
      else if (role == lit "user") && is_contextual_user_message_content is_contextual_user_fragment content then
        let '(n, mixed) := trim_context before_rev room in (S n, mixed)
      else (0, false)
  | _, _ => (0, false)
  end.

Definition trim_pre_turn_context_updates self (snapshot : list Item) (first_instruction_turn_idx cut_idx : nat) :
    Manager * nat :=
  let '(n, mixed) := trim_context (reverse (take cut_idx snapshot)) (cut_idx - first_instruction_turn_idx) in
  (if mixed then set_reference_context_item self None else self, cut_idx - n).

Definition drop_last_n_user_turns self (num_turns : nat) : Manager :=
  if num_turns =? 0 then self
  else
    let snapshot := self.(hist_items) in
    let user_positions := user_message_positions is_contextual_user_fragment is_message_content snapshot in
    match user_positions with
    | [] => replace self snapshot
    | first_instruction_turn_idx :: _ =>
        let cut_idx :=
          if length user_positions <=? num_turns then first_instruction_turn_idx
          else nth (length user_positions - num_turns) user_positions 0 in
        let '(self, cut_idx) := trim_pre_turn_context_updates self snapshot first_instruction_turn_idx cut_idx in
        replace self (take cut_idx snapshot)
    end.

(** ** Token accounting *)

Context (serialized_len : Item -> option N) (image_dimensions : str -> option (Z * Z)).

Definition RESIZED_IMAGE_BYTES_ESTIMATE : Z := 7373.
Definition ORIGINAL_IMAGE_PATCH_SIZE : Z := 32.
Definition ORIGINAL_IMAGE_MAX_PATCHES : N := 10000.

Definition estimate_reasoning_length (encoded_len : N) : N :=
  saturating_sub (sat (encoded_len * 3) / 4) 650.
Definition estimate_encrypted_function_output_length (encoded_len : N) : N :=
  ((sat (encoded_len * 9) + 15) / 16)%N.

Definition parse_base64_image_data_url (url : str) : option str :=
  if negb (starts_with_ignore_case (lit "data:") url) then None
  else match split_once 44 url with
  | None => None
  | Some (metadata, payload) =>
      match split_on 59 (drop 5 metadata) with
      | [] => None
      | mime_type :: params =>
          if negb (starts_with_ignore_case (lit "image/") mime_type) then None
          else if negb (existsb (fun part => to_ascii_lowercase part == lit "base64") params) then None
          else Some payload
      end
  end.

(** [image_dimensions] decodes the payload (base64 and the image); the cache of
    results does not change them. *)
Definition estimate_original_image_bytes (image_url : str) : option Z :=
  match parse_base64_image_data_url image_url with
  | None => None
  | Some payload =>
      match image_dimensions payload with
      | None => None
      | Some (width, height) =>
          let patches n := (i64_saturating_add n (ORIGINAL_IMAGE_PATCH_SIZE - 1) / ORIGINAL_IMAGE_PATCH_SIZE)%Z in
          let patch_count := sat_i64 (patches width * patches height)%Z in
          let patch_count := N.min (Z.to_N patch_count) ORIGINAL_IMAGE_MAX_PATCHES in
          Some (i64_of_usize (approx_bytes_for_tokens patch_count))
      end
  end.

Definition accumulate_image (acc : Z * Z) (image : str * option str) : Z * Z :=
  let '(image_url, detail) := image in
  match parse_base64_image_data_url image_url with
  | None => acc
  | Some payload =>
      (i64_saturating_add acc.1 (i64_of_usize (slen payload)),
       i64_saturating_add acc.2
         (if detail == Some (lit "original")
          then default RESIZED_IMAGE_BYTES_ESTIMATE (estimate_original_image_bytes image_url)
          else RESIZED_IMAGE_BYTES_ESTIMATE))
  end.

Definition images_of item : list (str * option str) :=
  match item with
  | Message _ content _ =>
      omap (fun c => match c with MInputImage url detail => Some (url, detail) | _ => None end) content
  | FunctionCallOutput _ _ output _ | CustomToolCallOutput _ _ _ output _ =>
      match output.(body) with
      | BodyItems items => omap (fun c => match c with InputImage url detail => Some (url, detail) | _ => None end) items
      | BodyText _ => []
      end
  | _ => []
  end.

Definition image_data_url_estimate_adjustment item : Z * Z := foldl accumulate_image (0, 0)%Z (images_of item).

Definition encrypted_function_output_estimate_adjustment item : Z * Z :=
  match item with
  | FunctionCallOutput _ _ (mkOutput (BodyItems items) _) _ =>
      foldl (fun acc c =>
        match c with
        | EncryptedContent e =>
            (i64_saturating_add acc.1 (i64_of_usize (slen e)),
             i64_saturating_add acc.2 (i64_of_usize (estimate_encrypted_function_output_length (slen e))))
        | _ => acc
        end) (0, 0)%Z items
  | _ => (0, 0)%Z
  end.

Definition estimate_response_item_model_visible_bytes item : Z :=
  match item with
  | Reasoning (Some content) _ | Compaction content _ | ContextCompaction (Some content) _ =>
      i64_of_usize (estimate_reasoning_length (slen content))
  | _ =>
      let raw := match serialized_len item with Some n => i64_of_usize n | None => 0%Z end in
      let '(image_payload, image_replacement) := image_data_url_estimate_adjustment item in
      let '(encrypted_payload, encrypted_replacement) := encrypted_function_output_estimate_adjustment item in
      let raw := i64_saturating_add (i64_saturating_sub raw image_payload) image_replacement in
      i64_saturating_add (i64_saturating_sub raw encrypted_payload) encrypted_replacement
  end.

Definition approx_tokens_from_byte_count_i64 (bytes : Z) : Z :=
  if (bytes <=? 0)%Z then 0%Z else i64_of_usize (approx_tokens_from_byte_count (Z.to_N bytes)).

Definition estimate_item_token_count item : Z :=
  approx_tokens_from_byte_count_i64 (estimate_response_item_model_visible_bytes item).

(** [.map(estimate_item_token_count).fold(0i64, i64::saturating_add)]. *)
Definition estimate_items items : Z := foldl i64_saturating_add 0%Z (estimate_item_token_count <$> items).

Definition estimate_token_count_with_base_instructions self (base_instructions : str) : Z :=
  i64_saturating_add (i64_of_usize (approx_token_count base_instructions)) (estimate_items self.(hist_items)).

Definition get_non_last_reasoning_items_tokens self : Z :=
  match rposition boundary self.(hist_items) with
  | None => 0%Z
  | Some last_user_index =>
      estimate_items (retain (fun item => match item with Reasoning (Some _) _ => true | _ => false end)
                        (take last_user_index self.(hist_items)))
  end.

Definition items_after_last_model_generated_item self : list Item :=
  drop (match rposition is_model_generated_item self.(hist_items) with
        | Some index => S index
        | None => length self.(hist_items)
        end) self.(hist_items).

Definition estimated_tokens_after_last_model_generated_item self : Z :=
  estimate_items (items_after_last_model_generated_item self).

Definition get_total_token_usage self (server_reasoning_included : bool) : Z :=
  let last_tokens := match self.(token_info) with Some info => info.(last_token_usage).(total_tokens) | None => 0%Z end in
  let after := estimated_tokens_after_last_model_generated_item self in
  if server_reasoning_included then i64_saturating_add last_tokens after
  else i64_saturating_add (i64_saturating_add last_tokens (get_non_last_reasoning_items_tokens self)) after.
End manager.
