(* ===== verification/HistoryLaws.v ===== *)
(** Laws of [History]: the prompt pairs every call with its output, dropping the
    oldest item keeps that, a rollback removes whole user turns, recording never
    fails, and the token estimate is the exact sum capped at [i64::MAX]. *)

From stdpp Require Import base list option numbers strings sets.
From Stdlib Require Import NArith ZArith Lia.
From S2P Require Import Prelude RustStr Truncate History.
Local Open Scope rust_scope.

(** * Calls and outputs *)

Inductive CallKind : Set := KFunction | KSearch | KCustom.
#[global] Instance CallKind_eq_dec : EqDecision CallKind.
Proof. solve_decision. Defined.

Section pairing.
Context {X : Type}.
Implicit Types (item : ResponseItem X) (items : list (ResponseItem X)) (k : CallKind * str).

Definition call_key item : option (CallKind * str) :=
  match item with
  | FunctionCall _ id _ | LocalShellCall _ (Some id) _ => Some (KFunction, id)
  | ToolSearchCall _ (Some id) _ => Some (KSearch, id)
  | CustomToolCall _ id _ => Some (KCustom, id)
  | _ => None
  end.

Definition output_key item : option (CallKind * str) :=
  match item with
  | FunctionCallOutput _ id _ _ => Some (KFunction, id)
  | ToolSearchOutput _ (Some id) _ _ _ _ => Some (KSearch, id)
  | CustomToolCallOutput _ id _ _ _ => Some (KCustom, id)
  | _ => None
  end.

(** The call an output answers; the server's own searches need none. *)
Definition answered_call item : option (CallKind * str) :=
  match item with
  | ToolSearchOutput _ _ _ execution _ _ => if execution == lit "server" then None else output_key item
  | _ => output_key item
  end.

Definition calls items : list (CallKind * str) := omap call_key items.
Definition outputs items : list (CallKind * str) := omap output_key items.

(** What the model API requires of a prompt. *)
Definition paired items : Prop :=
  (forall k, k ∈ calls items -> k ∈ outputs items)
  /\ (forall item k, item ∈ items -> answered_call item = Some k -> k ∈ calls items).

(** The output of a call that was interrupted. *)
Definition aborted_output (uuid_v5 : str -> str) item : option (ResponseItem X) :=
  missing_output uuid_v5 [] [] [] item.

Definition answer (uuid_v5 : str -> str) (answered : list (CallKind * str)) item : list (ResponseItem X) :=
  match call_key item with
  | Some k => if decide (k ∈ answered) then [item] else item :: option_list (aborted_output uuid_v5 item)
  | None => [item]
  end.

(** The reference: orphan outputs dropped, each unanswered call followed directly
    by an aborted output. *)
Definition paired_up (uuid_v5 : str -> str) items : list (ResponseItem X) :=
  concat (answer uuid_v5 (outputs items)
          <$> retain (fun item => match answered_call item with
                                  | Some k => bool_decide (k ∈ calls items)
                                  | None => true
                                  end) items).

Lemma contains_id_spec (id : str) ids : contains_id id ids = bool_decide (id ∈ ids).
Proof.
  unfold contains_id. apply eq_true_iff_eq. rewrite existsb_exists, bool_decide_eq_true. split.
  - intros (x & Hx & <-%bool_decide_eq_true_1). by apply list_elem_of_In.
  - intros H. exists id. split; [by apply list_elem_of_In|]. by apply bool_decide_eq_true_2.
Qed.

Lemma elem_of_ids (f : ResponseItem X -> option str) (g : ResponseItem X -> option (CallKind * str)) kind id items :
  (forall item, f item = Some id <-> g item = Some (kind, id)) -> id ∈ omap f items <-> (kind, id) ∈ omap g items.
Proof. intros H. rewrite !list_elem_of_omap. by setoid_rewrite H. Qed.

Ltac solve_ids := apply elem_of_ids; intros []; cbn; split; repeat case_match; naive_solver.

Lemma function_output_ids_spec id items : id ∈ function_output_ids items <-> (KFunction, id) ∈ outputs items.
Proof. solve_ids. Qed.
Lemma tool_search_output_ids_spec id items : id ∈ tool_search_output_ids items <-> (KSearch, id) ∈ outputs items.
Proof. solve_ids. Qed.
Lemma custom_tool_output_ids_spec id items : id ∈ custom_tool_output_ids items <-> (KCustom, id) ∈ outputs items.
Proof. solve_ids. Qed.
Lemma tool_search_call_ids_spec id items : id ∈ tool_search_call_ids items <-> (KSearch, id) ∈ calls items.
Proof. solve_ids. Qed.
Lemma custom_tool_call_ids_spec id items : id ∈ custom_tool_call_ids items <-> (KCustom, id) ∈ calls items.
Proof. solve_ids. Qed.
Lemma function_call_ids_spec id items :
  id ∈ function_call_ids items \/ id ∈ local_shell_call_ids items <-> (KFunction, id) ∈ calls items.
Proof.
  unfold function_call_ids, local_shell_call_ids, calls. rewrite !list_elem_of_omap. split.
  - intros [(i & Hi & E)|(i & Hi & E)]; exists i; (split; [done|]); destruct i; simplify_eq/=; done.
  - intros (i & Hi & E). destruct i; simplify_eq/=; try (repeat case_match; congruence).
    + case_match; simplify_eq. right. eauto.
    + left. eauto.
Qed.

(** [has_call] and [missing_output] in terms of keys. *)
Lemma has_call_spec items item :
  has_call items item
  = match answered_call item with Some k => bool_decide (k ∈ calls items) | None => true end.
Proof.
  destruct item; cbn [has_call answered_call output_key]; try done; rewrite ?contains_id_spec.
  - rewrite <- bool_decide_or. apply bool_decide_ext, function_call_ids_spec.
  - apply bool_decide_ext, custom_tool_call_ids_spec.
  - case_match; [done|]. destruct call_id; [|done]. rewrite contains_id_spec.
    apply bool_decide_ext, tool_search_call_ids_spec.
Qed.

Lemma missing_output_spec uuid_v5 items item :
  item :: option_list (missing_output uuid_v5 (function_output_ids items) (tool_search_output_ids items)
                         (custom_tool_output_ids items) item)
  = answer uuid_v5 (outputs items) item.
Proof.
  destruct item; unfold answer, aborted_output; cbn; try done;
    try (case_match; [|done]); rewrite contains_id_spec; case_decide as Hd; case_bool_decide as Hb; try done;
    exfalso; revert Hd Hb;
    rewrite ?function_output_ids_spec, ?tool_search_output_ids_spec, ?custom_tool_output_ids_spec; tauto.
Qed.

(** * Normalisation *)

Lemma insert_missing_outputs (missing : ResponseItem X -> option (ResponseItem X)) pre items :
  foldr (fun '(idx, output_item) items => insert_at (idx + 1) output_item items) (pre ++ items)
    (missing_from missing (length pre) items)
  = pre ++ concat ((fun item => item :: option_list (missing item)) <$> items).
Proof.
  revert pre. induction items as [|i items IH]; intros pre; [done|]. cbn [missing_from].
  specialize (IH (pre ++ [i])). rewrite length_app, <- !app_assoc, Nat.add_1_r in IH. cbn [app] in IH.
  destruct (missing i) as [o|] eqn:E; cbn [app foldr fmap list_fmap concat option_list]; rewrite ?E; [|exact IH].
  rewrite IH. unfold insert_at. cbn [option_list app].
  replace (length pre + 1) with (length (pre ++ [i])) by (by rewrite length_app).
  set (rest := concat _). replace (pre ++ i :: rest) with ((pre ++ [i]) ++ rest) by (by rewrite <- app_assoc).
  rewrite take_app_length, drop_app_length, <- app_assoc. done.
Qed.

Lemma ensure_call_outputs_present_spec uuid_v5 items :
  ensure_call_outputs_present uuid_v5 items = concat (answer uuid_v5 (outputs items) <$> items).
Proof.
  unfold ensure_call_outputs_present. etransitivity; [apply (insert_missing_outputs _ [])|]. cbn [app]. f_equal.
  apply list_fmap_ext. intros _ i _. apply missing_output_spec.
Qed.

Lemma aborted_output_spec uuid_v5 item k :
  call_key item = Some k ->
  exists o, aborted_output uuid_v5 item = Some o /\ call_key o = None /\ answered_call o = Some k
    /\ output_key o = Some k.
Proof. destruct item; cbn; intros; simplify_eq; try (case_match; simplify_eq); eexists; split_and!; done. Qed.

Lemma call_not_output item k : call_key item = Some k -> output_key item = None /\ answered_call item = None.
Proof. destruct item; cbn; intros; simplify_eq; done. Qed.

Lemma answered_call_output item : answered_call item = output_key item \/ answered_call item = None.
Proof. destruct item; cbn [answered_call]; auto. case_match; auto. Qed.

Lemma answer_calls uuid_v5 answered item : calls (answer uuid_v5 answered item) = calls [item].
Proof.
  unfold answer. destruct (call_key item) as [k|] eqn:E; [|done]. case_decide; [done|].
  destruct (aborted_output_spec uuid_v5 item k E) as (o & -> & Ho & _). unfold calls. cbn. by rewrite E, Ho.
Qed.

Lemma omap_concat {A B C} (f : B -> option C) (g : A -> list B) (l : list A) :
  omap f (concat (g <$> l)) = concat ((fun a => omap f (g a)) <$> l).
Proof. induction l as [|a l IH]; [done|]. cbn. by rewrite omap_app, IH. Qed.

Lemma calls_concat uuid_v5 answered items : calls (concat (answer uuid_v5 answered <$> items)) = calls items.
Proof.
  induction items as [|i items IH]; [done|]. cbn [fmap list_fmap concat]. unfold calls in *. rewrite omap_app, IH.
  change (omap call_key (answer uuid_v5 answered i)) with (calls (answer uuid_v5 answered i)).
  rewrite answer_calls. unfold calls. cbn. by destruct (call_key i).
Qed.

Lemma retain_answer uuid_v5 answered items (p : ResponseItem X -> bool) item :
  (forall i, p i = match answered_call i with Some k => bool_decide (k ∈ calls items) | None => true end) ->
  item ∈ items ->
  retain p (answer uuid_v5 answered item) = if p item then answer uuid_v5 answered item else [].
Proof.
  intros Hp Hin. unfold answer. destruct (call_key item) as [k|] eqn:E.
  - destruct (call_not_output item k E) as [_ Ha].
    assert (p item = true) as Hi by (by rewrite Hp, Ha).
    case_decide; cbn; rewrite Hi; [done|].
    destruct (aborted_output_spec uuid_v5 item k E) as (o & -> & _ & Ho & _). cbn.
    rewrite Hp, Ho, bool_decide_eq_true_2; [done|]. apply list_elem_of_omap. eauto.
  - cbn. by destruct (p item).
Qed.

Lemma normalize_reference uuid_v5 input_modalities items :
  normalize_items uuid_v5 input_modalities items
  = strip_images_when_unsupported input_modalities (paired_up uuid_v5 items).
Proof.
  unfold normalize_items, remove_orphan_outputs, paired_up. f_equal. rewrite ensure_call_outputs_present_spec.
  set (p := has_call _).
  assert (forall i, p i = match answered_call i with Some k => bool_decide (k ∈ calls items) | None => true end) as Hp
    by (intros i; unfold p; by rewrite has_call_spec, calls_concat).
  replace (retain (fun item => _) items) with (retain p items)
    by (by apply retain_ext).
  assert (forall l, (forall i, i ∈ l -> i ∈ items) ->
    retain p (concat (answer uuid_v5 (outputs items) <$> l)) = concat (answer uuid_v5 (outputs items) <$> retain p l))
    as H; [|by apply H].
  clearbody p. intros l. induction l as [|i l IH]; intros Hl; [done|]. cbn [fmap list_fmap concat retain].
  rewrite retain_app, IH, (retain_answer _ _ items) by (done || intros; apply Hl; by constructor).
  by destruct (p i).
Qed.

(** ** The result is paired *)

Lemma retain_calls items (p : ResponseItem X -> bool) :
  (forall item k, call_key item = Some k -> p item = true) -> calls (retain p items) = calls items.
Proof.
  intros Hp. unfold calls. induction items as [|i items IH]; [done|]. cbn.
  destruct (call_key i) as [k|] eqn:E; [rewrite (Hp _ _ E)|destruct (p i)]; cbn; rewrite ?E, ?IH; done.
Qed.

Lemma paired_up_calls uuid_v5 items : calls (paired_up uuid_v5 items) = calls items.
Proof.
  unfold paired_up. rewrite calls_concat. apply retain_calls. intros i k E.
  by destruct (call_not_output i k E) as [_ ->].
Qed.

Lemma paired_up_paired uuid_v5 items : paired (paired_up uuid_v5 items).
Proof.
  split.
  - intros k Hk. rewrite paired_up_calls in Hk. unfold outputs, paired_up. rewrite omap_concat.
    destruct (decide (k ∈ outputs items)) as [Ho|Ho].
    + pose proof Ho as (i & Hi & E)%list_elem_of_omap. apply elem_of_concat_fmap.
      exists i. split.
      * apply elem_of_retain. split; [|done]. destruct (answered_call_output i) as [->| ->]; [|done].
        rewrite E. by apply bool_decide_eq_true_2.
      * destruct (call_key i) as [k'|] eqn:E'.
        { destruct (call_not_output i k' E'). congruence. }
        unfold answer. rewrite E'. cbn. rewrite E. constructor.
    + pose proof Hk as (i & Hi & E)%list_elem_of_omap. apply elem_of_concat_fmap. exists i. split.
      * apply elem_of_retain. split; [|done]. by destruct (call_not_output i k E) as [_ ->].
      * unfold answer. rewrite E. rewrite decide_False by done.
        destruct (aborted_output_spec uuid_v5 i k E) as (o & -> & _ & _ & Ho'). cbn.
        destruct (call_not_output i k E) as [-> _]. rewrite Ho'. constructor.
  - intros i k Hi Ha. rewrite paired_up_calls.
    unfold paired_up in Hi. apply elem_of_concat_fmap in Hi as (j & Hj & Hi). apply elem_of_retain in Hj as [Hj1 Hj2].
    unfold answer in Hi. destruct (call_key j) as [k'|] eqn:E.
    + case_decide; [apply list_elem_of_singleton in Hi as ->|].
      { destruct (call_not_output j k' E). congruence. }
      destruct (aborted_output_spec uuid_v5 j k' E) as (o & Eo & _ & Ho & _). rewrite Eo in Hi. cbn in Hi.
      apply elem_of_cons in Hi as [->| ->%list_elem_of_singleton].
      * destruct (call_not_output j k' E). congruence.
      * assert (k' = k) as -> by congruence. apply list_elem_of_omap. eauto.
    + apply list_elem_of_singleton in Hi as ->. rewrite Ha in Hj1. by apply bool_decide_eq_true_1 in Hj1.
Qed.

Lemma paired_up_id uuid_v5 items : paired items -> paired_up uuid_v5 items = items.
Proof.
  intros [Hc Ho]. unfold paired_up. rewrite retain_id.
  - assert (forall l, (forall i, i ∈ l -> i ∈ items) -> concat (answer uuid_v5 (outputs items) <$> l) = l) as H;
      [|by apply H].
    induction l as [|i l IH]; intros Hl; [done|]. cbn [fmap list_fmap concat].
    rewrite IH by (intros; apply Hl; by constructor). unfold answer.
    destruct (call_key i) as [k|] eqn:E; [|done]. rewrite decide_True; [done|]. apply Hc, list_elem_of_omap.
    exists i. split; [apply Hl; by constructor|done].
  - intros i Hi. destruct (answered_call i) as [k|] eqn:E; [|done]. apply bool_decide_eq_true_2. eauto.
Qed.

(** ** Images *)

Lemma strip_images_keys item :
  call_key (strip_images item) = call_key item /\ output_key (strip_images item) = output_key item
  /\ answered_call (strip_images item) = answered_call item.
Proof. by destruct item. Qed.

Lemma omap_fmap_same {A B} (f : A -> option B) (g : A -> A) (l : list A) :
  (forall a, f (g a) = f a) -> omap f (g <$> l) = omap f l.
Proof. intros H. induction l as [|a l IH]; [done|]. cbn. by rewrite H, IH. Qed.

Lemma strip_paired modalities items :
  paired items -> paired (strip_images_when_unsupported modalities items).
Proof.
  unfold strip_images_when_unsupported. destruct (supports_images modalities); [done|]. intros [Hc Ho].
  assert (calls (strip_images <$> items) = calls items) as E1 by (apply omap_fmap_same; apply strip_images_keys).
  assert (outputs (strip_images <$> items) = outputs items) as E2 by (apply omap_fmap_same; apply strip_images_keys).
  split; rewrite ?E1, ?E2; [done|]. intros i k (j & -> & Hj)%list_elem_of_fmap.
  destruct (strip_images_keys j) as (_ & _ & ->). eauto.
Qed.

Definition image_free item : Prop :=
  images_of item = [] /\ match item with ImageGenerationCall image_result _ => image_result = [] | _ => True end.

Lemma omap_fmap_nil {A B C} (f : B -> option C) (g : A -> B) (l : list A) :
  (forall a, f (g a) = None) -> omap f (g <$> l) = [].
Proof. intros H. induction l as [|a l IH]; [done|]. cbn. by rewrite H. Qed.

Lemma strip_payload_images output :
  match (strip_payload output).(body) with
  | BodyItems items => omap (fun c => match c with InputImage url detail => Some (url, detail) | _ => None end) items
  | BodyText _ => []
  end = [].
Proof.
  unfold strip_payload. destruct output as [[t|items] s]; [done|]. cbn.
  apply omap_fmap_nil. by intros [].
Qed.

Lemma strip_images_free item : image_free (strip_images item).
Proof.
  destruct item; split; try done; try apply strip_payload_images. cbn.
  apply omap_fmap_nil. by intros [].
Qed.

Lemma fmap_idem {A} (f : A -> A) (l : list A) : (forall a, f (f a) = f a) -> f <$> (f <$> l) = f <$> l.
Proof. intros H. rewrite <- list_fmap_compose. apply list_fmap_ext. intros _ a _. apply H. Qed.

Lemma strip_payload_idem output : strip_payload (strip_payload output) = strip_payload output.
Proof.
  destruct output as [[t|items] s]; [done|]. cbn. unfold strip_payload. cbn. rewrite fmap_idem; [done|]. by intros [].
Qed.

Lemma strip_images_idem item : strip_images (strip_images item) = strip_images item.
Proof.
  destruct item; try done; cbn [strip_images]; rewrite ?strip_payload_idem; try done.
  rewrite fmap_idem; [done|]. by intros [].
Qed.

(** C4: normalising a history for a prompt answers every call and leaves no
    output without its call: the result is the reference construction, which
    drops the orphan outputs and puts an aborted output directly after each
    unanswered call; the calls and their order are untouched; a history that is
    already paired changes only in its images; normalising twice is normalising
    once; and no image is left for a model without image input. *)
Theorem normalize_pairs uuid_v5 input_modalities items :
  let prompt := normalize_items uuid_v5 input_modalities items in
  let strip := strip_images_when_unsupported input_modalities in
  paired prompt
  /\ prompt = strip (paired_up uuid_v5 items)
  /\ calls prompt = calls items
  /\ (paired items -> prompt = strip items)
  /\ normalize_items uuid_v5 input_modalities prompt = prompt
  /\ (supports_images input_modalities = false -> Forall image_free prompt).
Proof.
  intros prompt strip. assert (prompt = strip (paired_up uuid_v5 items)) as E by apply normalize_reference.
  assert (paired prompt) as Hp by (rewrite E; apply strip_paired, paired_up_paired).
  split_and!; [done|done|..].
  - rewrite E, <- (paired_up_calls uuid_v5 items). unfold strip, strip_images_when_unsupported.
    destruct (supports_images _); [done|]. apply omap_fmap_same. intros a. apply strip_images_keys.
  - intros H. by rewrite E, paired_up_id.
  - rewrite normalize_reference, paired_up_id by done. rewrite E. unfold strip, strip_images_when_unsupported.
    destruct (supports_images _); [done|]. apply fmap_idem, strip_images_idem.
  - intros H. rewrite E. unfold strip, strip_images_when_unsupported. rewrite H.
    apply Forall_fmap, Forall_true. apply strip_images_free.
Qed.
End pairing.

(** An interrupted call and an output whose call was dropped. *)
Definition w_items : list (ResponseItem unit) :=
  [FunctionCallOutput None (lit "gone") (payload_from_text (lit "x")) None;
   Message (lit "user") [MInputImage (lit "u") None] tt;
   FunctionCall (Some (lit "fc_1")) (lit "c1") tt;
   CustomToolCall None (lit "c1") tt;
   CustomToolCallOutput None (lit "c1") None (payload_from_text (lit "done")) None].

Lemma normalize_pairs_witness :
  normalize_items id [TextModality] w_items
  = [Message (lit "user") [MInputText IMAGE_CONTENT_OMITTED_PLACEHOLDER] tt;
     FunctionCall (Some (lit "fc_1")) (lit "c1") tt;
     FunctionCallOutput (Some (lit "fco_fco:fc_1")) (lit "c1") (payload_from_text (lit "aborted")) None;
     CustomToolCall None (lit "c1") tt;
     CustomToolCallOutput None (lit "c1") None (payload_from_text (lit "done")) None]
  /\ Forall image_free (normalize_items id [TextModality] w_items).
Proof.
  split; [vm_compute; reflexivity|]. apply (normalize_pairs id [TextModality] w_items). reflexivity.
Defined.

(** * Dropping the oldest item *)

Section dropping.
Context {X Ref Snap : Type}.
Implicit Types (item head : ResponseItem X) (items tail : list (ResponseItem X)) (k : CallKind * str).
Implicit Types (self : ContextManager X Ref Snap).

Definition item_key item : option (CallKind * str) :=
  match call_key item with Some k => Some k | None => output_key item end.

(** An item that is neither the call nor the output [head] belongs with. *)
Definition unrelated head item : bool :=
  match item_key head with Some k => item_key item != Some k | None => true end.

(** Each identifier is used by one call and one output of its kind. *)
Definition unique_ids items : Prop := NoDup (calls items) /\ NoDup (outputs items).

Lemma retain_ext_in {A} (p q : A -> bool) l : (forall a, a ∈ l -> p a = q a) -> retain p l = retain q l.
Proof.
  induction l as [|a l IH]; intros H; [done|]. cbn. rewrite H by constructor.
  rewrite IH; [done|]. intros b Hb. apply H. by constructor.
Qed.

Lemma remove_first_matching_unique (f : ResponseItem X -> option (CallKind * str)) p k items :
  (forall item, p item = true -> f item = Some k) -> (k ∈ omap f items -> existsb p items = true) ->
  NoDup (omap f items) -> remove_first_matching p items = retain (fun item => f item != Some k) items.
Proof.
  intros Hp. induction items as [|i items IH]; intros He Hn; [done|]. cbn [remove_first_matching retain].
  change (omap f (i :: items)) with (match f i with Some y => y :: omap f items | None => omap f items end) in *.
  cbn [existsb] in He. destruct (p i) eqn:E; cbn [orb] in He.
  - rewrite (Hp i E) in *. apply NoDup_cons in Hn as [Hk _]. rewrite bool_decide_eq_true_2 by done. cbn.
    symmetry. apply retain_id. intros j Hj. apply negb_true_iff, bool_decide_eq_false_2.
    intros Ej. apply Hk, list_elem_of_omap. eauto.
  - destruct (decide (f i = Some k)) as [Ei|Ei].
    + exfalso. rewrite Ei in *. apply NoDup_cons in Hn as [Hk _]. apply Hk, list_elem_of_omap.
      destruct (proj1 (existsb_exists _ _) (He (list_elem_of_here _ _))) as (j & Hj%list_elem_of_In & Ej). eauto.
    + rewrite (bool_decide_eq_false_2 (f i = Some k)) by done. cbn. f_equal. apply IH.
      * intros Hk. apply He. destruct (f i); [by constructor|done].
      * destruct (f i); [by apply NoDup_cons in Hn as [_ ?]|done].
Qed.

Lemma item_key_call item k : item_key item = Some k <-> call_key item = Some k \/ output_key item = Some k.
Proof.
  unfold item_key. destruct (call_key item) as [k'|] eqn:E; [|naive_solver].
  destruct (call_not_output item k' E) as [-> _]. naive_solver.
Qed.

(** The call of a kind, and its output, as the code recognises them. *)
Definition is_output_of k : ResponseItem X -> bool :=
  match k.1 with
  | KFunction => is_function_output k.2
  | KSearch => is_search_output k.2
  | KCustom => is_custom_output k.2
  end.

Lemma is_output_of_spec k item : is_output_of k item = bool_decide (output_key item = Some k).
Proof.
  destruct k as [[] id]; unfold is_output_of; cbn; destruct item; cbn; try (destruct call_id; cbn);
    try (symmetry; by apply bool_decide_eq_false_2); apply bool_decide_ext; naive_solver.
Qed.

Definition is_call_of k (items : list (ResponseItem X)) : ResponseItem X -> bool :=
  match k.1 with
  | KFunction => if existsb (is_function_call k.2) items then is_function_call k.2 else is_local_shell_call k.2
  | KSearch => is_search_call k.2
  | KCustom => is_custom_call k.2
  end.

Lemma remove_corresponding_call items head k :
  call_key head = Some k -> remove_corresponding_for items head = remove_first_matching (is_output_of k) items.
Proof. destruct head; cbn; intros; simplify_eq; try (destruct call_id; simplify_eq); done. Qed.

Lemma remove_corresponding_output items head k :
  output_key head = Some k -> remove_corresponding_for items head = remove_first_matching (is_call_of k items) items.
Proof.
  destruct head; cbn; intros; simplify_eq; repeat case_match; simplify_eq; try done.
  all: unfold is_call_of; cbn; by rewrite ?H.
Qed.

Lemma remove_corresponding_other items head : item_key head = None -> remove_corresponding_for items head = items.
Proof. unfold item_key. destruct head; cbn; try done; by destruct call_id. Qed.

Lemma is_output_of_exists k items : k ∈ outputs items -> existsb (is_output_of k) items = true.
Proof.
  intros (i & Hi & E)%list_elem_of_omap. apply existsb_exists. exists i.
  split; [by apply list_elem_of_In|]. rewrite is_output_of_spec. by apply bool_decide_eq_true_2.
Qed.

Lemma is_call_of_sound k items item : is_call_of k items item = true -> call_key item = Some k.
Proof.
  destruct k as [[] id]; unfold is_call_of; cbn [fst snd]; [case_match| |]; destruct item; cbn; try done;
    try (destruct call_id; [|done]); intros ->%bool_decide_eq_true_1; done.
Qed.

Lemma is_call_of_exists k items : k ∈ calls items -> existsb (is_call_of k items) items = true.
Proof.
  intros (i & Hi%list_elem_of_In & E)%list_elem_of_omap. unfold is_call_of.
  destruct k as [[] id]; cbn [fst snd]; [destruct (existsb (is_function_call id) items) eqn:F; [done|]| |];
    apply existsb_exists; exists i; (split; [done|]); destruct i; cbn in E;
    repeat match goal with c : option str |- _ => destruct c end; simplify_eq; try (by apply bool_decide_eq_true_2).
  all: exfalso; eapply eq_true_false_abs; [|exact F]; apply existsb_exists; eexists; split; [exact Hi|];
    by apply bool_decide_eq_true_2.
Qed.

Lemma unrelated_retain head tail k (f g : ResponseItem X -> option (CallKind * str)) :
  item_key head = Some k -> k ∉ omap g tail ->
  (forall item, item_key item = Some k <-> f item = Some k \/ g item = Some k) ->
  retain (unrelated head) tail = retain (fun item => f item != Some k) tail.
Proof.
  intros E Hk Hfg. apply retain_ext_in. intros i Hi. unfold unrelated. rewrite E. f_equal.
  apply bool_decide_ext. rewrite Hfg. split; [|tauto]. intros [?|Hg]; [done|].
  exfalso. apply Hk, list_elem_of_omap. eauto.
Qed.

Lemma remove_corresponding_spec head tail :
  unique_ids (head :: tail) -> remove_corresponding_for tail head = retain (unrelated head) tail.
Proof.
  intros [Hc Ho]. unfold calls, outputs in *. cbn in Hc, Ho. destruct (call_key head) as [k|] eqn:E.
  - apply NoDup_cons in Hc as [Hk _]. destruct (call_not_output head k E) as [E' _]. rewrite E' in Ho.
    rewrite (remove_corresponding_call _ _ k), (unrelated_retain _ _ k output_key call_key); try done.
    + apply remove_first_matching_unique; [|apply is_output_of_exists|done].
      intros i Hi. rewrite is_output_of_spec in Hi. by apply bool_decide_eq_true_1 in Hi.
    + unfold item_key. by rewrite E.
    + intros i. rewrite item_key_call. tauto.
  - destruct (output_key head) as [k|] eqn:E'.
    + apply NoDup_cons in Ho as [Hk _].
      rewrite (remove_corresponding_output _ _ k), (unrelated_retain _ _ k call_key output_key); try done.
      * apply remove_first_matching_unique; [apply is_call_of_sound|apply is_call_of_exists|done].
      * unfold item_key. by rewrite E.
      * intros i. apply item_key_call.
    + assert (item_key head = None) as En by (unfold item_key; by rewrite E).
      rewrite remove_corresponding_other by done. symmetry. apply retain_id. intros i _. unfold unrelated.
      by rewrite En.
Qed.

Lemma elem_of_unrelated head tail item k :
  item ∈ head :: tail -> item_key item = Some k -> item_key head <> Some k -> item ∈ retain (unrelated head) tail.
Proof.
  intros Hi E Hh. apply elem_of_cons in Hi as [->|Hi]; [done|]. apply elem_of_retain. split; [|done].
  unfold unrelated. destruct (item_key head) as [k'|]; [|done]. rewrite E.
  apply negb_true_iff, bool_decide_eq_false_2. congruence.
Qed.

Lemma unrelated_elem head tail item k :
  item ∈ retain (unrelated head) tail -> item_key item = Some k -> item ∈ head :: tail /\ item_key head <> Some k.
Proof.
  intros [Hu Hi]%elem_of_retain E. split; [by constructor|]. intros Eh. unfold unrelated in Hu. rewrite Eh, E in Hu.
  by rewrite bool_decide_eq_true_2 in Hu.
Qed.

Lemma drop_paired head tail : paired (head :: tail) -> paired (retain (unrelated head) tail).
Proof.
  intros [Hc Ho]. split.
  - intros k (i & Hi & E)%list_elem_of_omap.
    destruct (unrelated_elem head tail i k Hi) as [Hi' Hh]; [apply item_key_call; auto|].
    destruct (proj1 (list_elem_of_omap output_key _ _) (Hc k ltac:(apply list_elem_of_omap; eauto))) as (o & Ho' & Eo).
    apply list_elem_of_omap. exists o. split; [|done]. eapply elem_of_unrelated; [done| |done]. apply item_key_call. auto.
  - intros i k Hi Ea. assert (output_key i = Some k) as E by (destruct (answered_call_output i); congruence).
    destruct (unrelated_elem head tail i k Hi) as [Hi' Hh]; [apply item_key_call; auto|].
    destruct (proj1 (list_elem_of_omap call_key _ _) (Ho i k Hi' Ea)) as (c & Hc' & Ec).
    apply list_elem_of_omap. exists c. split; [|done]. eapply elem_of_unrelated; [done| |done]. apply item_key_call. auto.
Qed.

Lemma omap_retain_NoDup {A B} (f : A -> option B) p (l : list A) : NoDup (omap f l) -> NoDup (omap f (retain p l)).
Proof.
  induction l as [|a l IH]; [done|]. cbn. destruct (p a); cbn; destruct (f a) as [b|]; auto.
  - intros [Hb Hl]%NoDup_cons. apply NoDup_cons. split; [|auto]. contradict Hb.
    apply list_elem_of_omap in Hb as (c & [_ Hc]%elem_of_retain & E). apply list_elem_of_omap. eauto.
  - intros [_ Hl]%NoDup_cons. auto.
Qed.

Lemma NoDup_omap_tail {A B} (f : A -> option B) a (l : list A) : NoDup (omap f (a :: l)) -> NoDup (omap f l).
Proof. cbn. destruct (f a); [|done]. by intros [_ ?]%NoDup_cons. Qed.

(** Dropping the oldest item of a history whose identifiers are unique
    removes exactly that item and the call or output it belongs with, so a
    paired history stays paired; the baseline of the world state is forgotten. *)
Theorem remove_first_item_keeps_pairs self :
  unique_ids self.(hist_items) ->
  let self' := remove_first_item self in
  self'.(hist_items) = match self.(hist_items) with
                       | [] => []
                       | head :: tail => retain (unrelated head) tail
                       end
  /\ unique_ids self'.(hist_items)
  /\ (paired self.(hist_items) -> paired self'.(hist_items))
  /\ (self.(hist_items) <> [] -> self'.(world_state_baseline) = None).
Proof.
  intros Hu. unfold remove_first_item. destruct (hist_items self) as [|head tail] eqn:E.
  { cbn. rewrite E. split_and!; done. }
  cbn. rewrite remove_corresponding_spec by done. split; [done|]. split; [|split; [apply drop_paired|done]].
  destruct Hu as [Hc Ho]. split; apply omap_retain_NoDup; by eapply NoDup_omap_tail.
Qed.
End dropping.

Definition w_history (items : list (ResponseItem unit)) : ContextManager unit unit unit :=
  mkHistory items 0 None None (Some tt).

Definition w_paired : list (ResponseItem unit) :=
  [FunctionCall None (lit "a") tt; LocalShellCall None (Some (lit "b")) tt;
   FunctionCallOutput None (lit "b") (payload_from_text []) None;
   FunctionCallOutput None (lit "a") (payload_from_text []) None].

Lemma remove_first_item_keeps_pairs_witness :
  hist_items (remove_first_item (w_history w_paired)) = take 2 (drop 1 w_paired)
  /\ paired (hist_items (remove_first_item (w_history w_paired))).
Proof.
  assert (unique_ids w_paired) as Hu by (split; cbn; repeat constructor; set_solver).
  destruct (remove_first_item_keeps_pairs (w_history w_paired) Hu) as (E & _ & Hp & _).
  split; [vm_compute; reflexivity|]. apply Hp. split.
  - intros k Hk. cbn in Hk |- *. set_solver.
  - intros i k Hi. unfold w_history, w_paired in *. cbn [hist_items] in *.
    repeat (apply elem_of_cons in Hi as [->|Hi]; [cbn; intros; simplify_eq; set_solver|]). set_solver.
Defined.

(** * Rolling back user turns *)

Section rollback.
Context {X Ref Snap : Type}.
Context (is_contextual_user_fragment : MessageContent -> bool) (is_message_content : list MessageContent -> bool).
Implicit Types (item : ResponseItem X) (items : list (ResponseItem X)) (self : ContextManager X Ref Snap).
Abbreviation boundary := (is_user_turn_boundary is_contextual_user_fragment is_message_content).
Abbreviation positions := (user_message_positions is_contextual_user_fragment is_message_content).

(** The number of user turns of a transcript. *)
Definition turns items : nat := length (positions items).

(** A message that only updates the context of the turn after it. *)
Definition is_context_update item : bool :=
  match item with
  | Message role content _ =>
      ((role == lit "developer") && is_contextual_dev_message_content content)
      || ((role == lit "user") && is_contextual_user_message_content is_contextual_user_fragment content)
  | _ => false
  end.

Definition is_mixed_dev_message item : bool :=
  match item with
  | Message role content _ => (role == lit "developer") && has_non_contextual_dev_message_content content
  | _ => false
  end.

Lemma context_update_no_turn item : is_context_update item = true -> boundary item = false.
Proof.
  destruct item; try done. cbn [is_context_update is_user_turn_boundary].
  rewrite orb_true_iff, !andb_true_iff.
  intros [[->%bool_decide_eq_true_1 _]|[->%bool_decide_eq_true_1 ->]]; reflexivity.
Qed.

Lemma positions_from_app p n items items' :
  positions_from p n (items ++ items')
  = positions_from p n items ++ positions_from (X := X) p (n + length items) items'.
Proof.
  revert n. induction items as [|i items IH]; intros n; cbn; [by rewrite Nat.add_0_r|].
  by rewrite IH, <- app_assoc, Nat.add_succ_r.
Qed.

Lemma positions_from_length p n m items :
  length (positions_from p n items) = length (positions_from (X := X) p m items).
Proof.
  revert n m. induction items as [|i items IH]; intros n m; [done|]. cbn. rewrite !length_app, (IH (S n) (S m)).
  by destruct (p i).
Qed.

Lemma turns_app items items' : turns (items ++ items') = turns items + turns items'.
Proof.
  unfold turns, user_message_positions. rewrite positions_from_app, length_app. f_equal. apply positions_from_length.
Qed.

Lemma turns_context items : Forall (fun item => is_context_update item = true) items -> turns items = 0.
Proof.
  induction 1 as [|i items Hi _ IH]; [done|]. change (i :: items) with ([i] ++ items).
  rewrite turns_app, IH. unfold turns. cbn.
  by rewrite context_update_no_turn.
Qed.

Lemma positions_from_lookup p n items i idx :
  positions_from p n items !! i = Some idx ->
  n <= idx /\ exists before item after, items = before ++ item :: after /\ length before = idx - n
  /\ p item = true /\ length (positions_from (X := X) p n before) = i.
Proof.
  revert n i. induction items as [|x items IH]; intros n i; [done|]. cbn [positions_from].
  assert (forall j, positions_from p (S n) items !! j = Some idx ->
    n <= idx /\ exists before item after, x :: items = before ++ item :: after /\ length before = idx - n
      /\ p item = true /\ length (positions_from p n before) = (if p x then S j else j)) as Hnext.
  { intros j H. destruct (IH (S n) j H) as (Hn & before & item & after & -> & Hl & Hp & Hi). split; [lia|].
    exists (x :: before), item, after. split; [done|]. split; [cbn; lia|]. split; [done|].
    cbn [positions_from]. rewrite length_app, Hi. by destruct (p x). }
  destruct (p x) eqn:E; cbn [app]; [|apply Hnext].
  destruct i as [|i]; [|apply Hnext]. intros [= <-]. split; [lia|]. exists [], x, items.
  split_and!; try done. cbn. lia.
Qed.

(** The loop takes the longest run of context updates that fits. *)
Definition trims (before_rev : list (ResponseItem X)) (room n : nat) (mixed : bool) : Prop :=
  n <= room /\ n <= length before_rev
  /\ Forall (fun item => is_context_update item = true) (take n before_rev)
  /\ mixed = existsb is_mixed_dev_message (take n before_rev)
  /\ (n < room -> forall item, before_rev !! n = Some item -> is_context_update item = false).

Lemma trims_stop before_rev room :
  (0 < room -> forall item, head before_rev = Some item -> is_context_update item = false) ->
  trims before_rev room 0 false.
Proof. intros H. split_and!; try done; try lia. intros Hr item E. apply H; [done|]. by destruct before_rev. Qed.

Lemma trims_next item before_rev room n mixed :
  is_context_update item = true -> trims before_rev room n mixed ->
  trims (item :: before_rev) (S room) (S n) (is_mixed_dev_message item || mixed).
Proof.
  intros Hi (H1 & H2 & H3 & -> & H5). split_and!; cbn; try lia; [by constructor|done|]. intros Hn. apply H5. lia.
Qed.

Lemma trim_context_spec before_rev room :
  let '(n, mixed) := trim_context is_contextual_user_fragment before_rev room in trims before_rev room n mixed.
Proof.
  revert room. induction before_rev as [|item before_rev IH]; intros room.
  { destruct room; by apply trims_stop. }
  destruct room as [|room]; [apply trims_stop; lia|]. specialize (IH room).
  assert (is_context_update item = false -> trims (item :: before_rev) (S room) 0 false) as Hstop
    by (intros H; apply trims_stop; intros _ ? [= <-]; exact H).
  pose proof (trims_next item before_rev room) as Hnext.
  destruct item as [|role content rest| | | | | | | | | | | | | | |]; try (by apply Hstop).
  cbn [trim_context is_context_update is_mixed_dev_message] in *.
  destruct (trim_context _ before_rev room) as [n mixed]. specialize (Hnext n mixed).
  destruct (role == lit "developer") eqn:Ed; cbn [andb orb] in *.
  - apply bool_decide_eq_true_1 in Ed as ->. destruct (is_contextual_dev_message_content content); [by apply Hnext|].
    exact (Hstop eq_refl).
  - destruct ((role == lit "user") && _); [by apply Hnext|by apply Hstop].
Qed.

Lemma positions_from_first p n items f i idx :
  head (positions_from p n items) = Some f -> positions_from (X := X) p n items !! i = Some idx -> f <= idx.
Proof.
  revert n i. induction items as [|x items IH]; intros n i; [done|]. intros Hf Hi.
  destruct (positions_from_lookup _ _ _ _ _ Hi) as [Hn _]. cbn in Hf, Hi.
  destruct (p x); cbn in Hf; [by simplify_eq|]. eapply IH; [exact Hf|exact Hi].
Qed.

Lemma existsb_reverse {A} (p : A -> bool) l : existsb p (reverse l) = existsb p l.
Proof.
  induction l as [|a l IH]; [done|]. rewrite reverse_cons, existsb_app, IH. cbn. rewrite orb_false_r. apply orb_comm.
Qed.

Lemma trims_forward before room n mixed :
  trims (reverse before) room n mixed ->
  n <= room /\ exists kept trimmed, before = kept ++ trimmed /\ length trimmed = n
  /\ Forall (fun item => is_context_update item = true) trimmed
  /\ mixed = existsb is_mixed_dev_message trimmed
  /\ (n < room -> forall item, last kept = Some item -> is_context_update item = false).
Proof.
  intros (T1 & T2 & T3 & -> & T5). split; [done|].
  exists (reverse (drop n (reverse before))), (reverse (take n (reverse before))).
  rewrite <- reverse_app, take_drop, reverse_involutive, length_reverse, length_take, existsb_reverse.
  split_and!; try done; [lia|by apply Forall_reverse|].
  intros Hn item. rewrite last_reverse, head_lookup, lookup_drop, Nat.add_0_r. by apply T5.
Qed.

(** Where the transcript is cut before the context updates are trimmed. *)
Lemma cut_spec items num_turns first rest :
  0 < num_turns -> positions items = first :: rest ->
  let cut_idx :=
    if length (first :: rest) <=? num_turns then first else nth (length (first :: rest) - num_turns) (first :: rest) 0 in
  first <= cut_idx
  /\ exists before item after, items = before ++ item :: after /\ length before = cut_idx
     /\ boundary item = true /\ turns before = turns items - num_turns.
Proof.
  intros Hn E cut.
  assert (positions items !! (turns items - num_turns) = Some cut) as Hc.
  { unfold turns. rewrite E. unfold cut. destruct (Nat.leb_spec (length (first :: rest)) num_turns) as [H|H].
    - by replace (_ - _) with 0 by lia.
    - destruct (lookup_lt_is_Some_2 (first :: rest) (length (first :: rest) - num_turns)) as [x Hx]; [lia|].
      by rewrite (nth_lookup_Some _ _ 0 x Hx). }
  split; [eapply (positions_from_first _ 0 items); [|exact Hc]; unfold user_message_positions in E; by rewrite E|].
  destruct (positions_from_lookup _ _ _ _ _ Hc) as (_ & before & item & after & H1 & H2 & H3 & H4).
  exists before, item, after. split_and!; try done. lia.
Qed.

(** Rolling back [num_turns] user turns removes exactly the last ones, or
    all of them when there are fewer: what is removed starts at a user turn,
    together with the run of context updates directly before it, and nothing
    before the first user turn goes.  The reference context item is forgotten
    exactly when a removed update carried other developer text. *)
Theorem rollback_drops_turns self num_turns :
  let items := self.(hist_items) in
  let self' := drop_last_n_user_turns is_contextual_user_fragment is_message_content self num_turns in
  let kept := self'.(hist_items) in
  turns kept = turns items - num_turns
  /\ exists trimmed dropped, items = kept ++ trimmed ++ dropped
     /\ Forall (fun item => is_context_update item = true) trimmed
     /\ turns dropped = min num_turns (turns items)
     /\ match dropped with item :: _ => boundary item = true | [] => trimmed = [] end
     /\ (forall first, head (positions items) = Some first -> first <= length kept
         /\ (first < length kept -> dropped <> [] ->
             forall item, last kept = Some item -> is_context_update item = false))
     /\ self'.(reference_context_item)
        = (if existsb is_mixed_dev_message trimmed then None else self.(reference_context_item))
     /\ (if num_turns =? 0 then self' = self
         else self'.(history_version) = bump self.(history_version) /\ self'.(world_state_baseline) = None).
Proof.
  intros items self' kept. subst self' kept. unfold drop_last_n_user_turns.
  destruct (Nat.eqb_spec num_turns 0) as [->|Hn].
  { split; [by rewrite Nat.sub_0_r|]. exists [], []. rewrite !app_nil_r. split_and!; try done.
    intros f Hf. split; [|done]. destruct (positions items) as [|f' r] eqn:E; [done|]. injection Hf as ->.
    destruct (positions_from_lookup boundary 0 items 0 f) as (_ & b & x & a & Hi & Hl & _).
    - unfold user_message_positions in E. by rewrite E.
    - fold items. rewrite Hi, length_app. lia. }
  fold items. destruct (positions items) as [|first rest] eqn:E.
  { assert (turns items = 0) as E0 by (unfold turns; by rewrite E).
    cbn [replace hist_items]. split; [lia|]. exists [], []. rewrite !app_nil_r, E0. split_and!; try done.
    by rewrite Nat.min_0_r. }
  destruct (cut_spec items num_turns first rest) as (Hf & before & item & after & H1 & H2 & H3 & H4); [lia|done|].
  set (cut_idx := if _ <=? _ then _ else _) in *. clearbody cut_idx.
  unfold trim_pre_turn_context_updates.
  assert (take cut_idx items = before) as Hb by (rewrite H1, <- H2; apply take_app_length). rewrite Hb.
  pose proof (trim_context_spec (reverse before) (cut_idx - first)) as Ht.
  destruct (trim_context _ _ _) as [n mixed].
  destruct (trims_forward _ _ _ _ Ht) as (T1 & kept & trimmed & -> & <- & T3 & -> & T5). clear Ht.
  rewrite length_app in H2.
  assert (take (cut_idx - length trimmed) items = kept) as Hk.
  { rewrite H1, <- app_assoc, <- H2. replace (_ + _ - _) with (length kept) by lia. apply take_app_length. }
  assert (turns trimmed = 0) as Hz by (by apply turns_context).
  rewrite turns_app, Hz, Nat.add_0_r in H4. cbn [replace hist_items]. rewrite Hk.
  split; [done|]. exists trimmed, (item :: after).
  assert (turns items = turns kept + turns (item :: after)) as Ht by (rewrite H1, !turns_app; lia).
  assert (1 <= turns (item :: after)) as H5.
  { change (item :: after) with ([item] ++ after). rewrite turns_app. unfold turns at 1. cbn. rewrite H3. cbn. lia. }
  split_and!; try done; [by rewrite app_assoc|lia| |by destruct (existsb _ _)|by destruct (existsb _ _)].
  intros f [= ->]. split; [lia|]. intros Hlt _. apply T5. lia.
Qed.
End rollback.

Lemma rollback_example :
  let user text := Message (lit "user") [MInputText (lit text)] tt in
  let update := Message (lit "developer") [MInputText (lit "<model_switch>x")] tt in
  let start := Message (lit "developer") [MInputText (lit "<permissions instructions>")] tt in
  hist_items (drop_last_n_user_turns (fun _ => false) (fun _ => false)
                (w_history [start; user "one"; CompactionTrigger; update; user "two"]) 1)
  = [start; user "one"; CompactionTrigger].
Proof. vm_compute. reflexivity. Qed.

(** A rollback of a history without user turns keeps the items but is not a no-op:
    the version goes up and the baseline of the world state is forgotten. *)
Example rollback_without_turns_changes_state :
  let self := w_history [CompactionTrigger] in
  let self' := drop_last_n_user_turns (fun _ => false) (fun _ => false) self 1 in
  hist_items self' = hist_items self /\ history_version self' = 1%N /\ history_version self = 0%N
  /\ world_state_baseline self' = None /\ world_state_baseline self = Some tt.
Proof. vm_compute. repeat split. Qed.

(** * Recording *)

Section recording.
Context {X Ref Snap : Type} (scale : TruncationPolicy -> TruncationPolicy).
Implicit Types (item : ResponseItem X) (items : list (ResponseItem X)) (self : ContextManager X Ref Snap).

Definition payload_fits (policy : TruncationPolicy) (output : FunctionCallOutputPayload) : Prop :=
  match output.(body) with
  | BodyText text => (slen text <= byte_budget policy)%N
  | BodyItems items => (total_cost policy items < match policy with Bytes n | Tokens n => n end)%N
  end.

(** The output of a tool is within the budget. *)
Definition fits (policy : TruncationPolicy) item : Prop :=
  match item with
  | FunctionCallOutput _ _ output _ | CustomToolCallOutput _ _ _ output _ => payload_fits policy output
  | _ => True
  end.

(** What recording keeps of an item. *)
Definition recorded_as (policy : TruncationPolicy) item item' : Prop :=
  call_key item' = call_key item /\ output_key item' = output_key item /\ images_of item' = images_of item
  /\ (fits policy item -> item' = item).

Lemma truncate_text_fits text policy :
  (slen text <= byte_budget policy)%N -> truncate_text text policy = Some text.
Proof.
  assert (forall n b, (slen text <= n)%N -> truncate_with_byte_estimate text n b = Some text) as H.
  { intros n b Hn. unfold truncate_with_byte_estimate. destruct text as [|c s]; [done|].
    pose proof (clen_pos c). pose proof (slen_cons c s).
    destruct (N.eqb_spec n 0); [lia|]. by rewrite (proj2 (N.leb_le _ _)). }
  destruct policy as [n|n]; cbn; [apply H|]. intros Hn. unfold truncate_middle_with_token_budget.
  destruct text as [|c s]; [done|]. case_match; [done|]. by rewrite H.
Qed.

Lemma image_items_non_text (items items' : list ContentItem) :
  non_text items = non_text items' ->
  let images := omap (fun c => match c with InputImage url detail => Some (url, detail) | _ => None end) in
  images items = images items'.
Proof.
  intros E images. assert (forall l, images l = images (non_text l)) as H; [|by rewrite H, E, <- H].
  intros l. unfold images, non_text. induction l as [|[] l IH]; [done|..]; cbn; by rewrite IH.
Qed.

Lemma truncate_payload_spec output policy :
  exists output', truncate_function_output_payload output policy = Some output'
  /\ (payload_fits policy output -> output' = output)
  /\ forall (id : str) (m : option X),
       images_of (FunctionCallOutput None id output' m) = images_of (FunctionCallOutput None id output m).
Proof.
  unfold truncate_function_output_payload, payload_fits. destruct output as [[text|items] success]; cbn [body History.success].
  - destruct (truncate_text_total text policy) as [out E]. rewrite E. eexists. split; [done|]. split; [|done].
    intros H. rewrite truncate_text_fits in E by done. by simplify_eq.
  - destruct (truncate_output_items_spec items policy) as (out & -> & Hn & Hf). eexists. split; [done|]. split.
    + intros H. by rewrite Hf.
    + intros id m. cbn. by apply image_items_non_text.
Qed.

Lemma process_item_spec item policy :
  exists item', process_item scale item policy = Some item' /\ recorded_as (scale policy) item item'.
Proof.
  destruct item; cbn [process_item]; try (eexists; split; [reflexivity|]; by split_and!).
  all: destruct (truncate_payload_spec output (scale policy)) as (output' & -> & Hf & Hi); eexists; split; [reflexivity|];
    split_and!; [done|done|exact (Hi call_id metadata)|]; intros H; by rewrite Hf.
Qed.

(** Recording items always succeeds: it appends the items that go to the
    model, in order, drops the others, and changes only tool outputs over the
    budget, which keep their identifiers and their images; nothing else of the
    history changes. *)
Theorem record_items_total self items policy :
  exists recorded,
    record_items scale self items policy = Some (with_items self (self.(hist_items) ++ recorded))
    /\ Forall2 (recorded_as (scale policy)) (retain is_api_message items) recorded.
Proof.
  revert self. induction items as [|item items IH]; intros self.
  { exists []. rewrite app_nil_r. split; [by destruct self|constructor]. }
  cbn [record_items retain]. destruct (is_api_message item); cbn [negb]; [|apply IH].
  destruct (process_item_spec item policy) as (item' & -> & Hi).
  destruct (IH (with_items self (hist_items self ++ [item']))) as (recorded & -> & Hr).
  exists (item' :: recorded). cbn. rewrite <- app_assoc. split; [done|by constructor].
Qed.
End recording.

(** * Token estimates *)

Section estimates.
Context {X Ref Snap : Type}.
Context (is_contextual_user_fragment : MessageContent -> bool) (is_message_content : list MessageContent -> bool).
Context (serialized_len : ResponseItem X -> option N) (image_dimensions : str -> option (Z * Z)).
Implicit Types (item : ResponseItem X) (items : list (ResponseItem X)) (self : ContextManager X Ref Snap).
Local Open Scope Z_scope.
Abbreviation estimate := (estimate_item_token_count serialized_len image_dimensions).

Definition capped (n : Z) : Z := Z.min I64_MAX n.
(** The sum over the integers. *)
Definition exact_tokens items : Z := foldr Z.add 0 (estimate <$> items).

(** The reasoning items before the last user turn. *)
Definition earlier_reasoning self : list (ResponseItem X) :=
  match rposition (is_user_turn_boundary is_contextual_user_fragment is_message_content) self.(hist_items) with
  | None => []
  | Some last_user_index =>
      retain (fun item => match item with Reasoning (Some _) _ => true | _ => false end)
        (take last_user_index self.(hist_items))
  end.

Lemma i64_of_usize_range n : 0 <= i64_of_usize n <= I64_MAX.
Proof. unfold i64_of_usize, I64_MAX. lia. Qed.

Lemma estimate_range item : 0 <= estimate item <= I64_MAX.
Proof.
  unfold estimate_item_token_count, approx_tokens_from_byte_count_i64. case_match; [unfold I64_MAX; lia|].
  apply i64_of_usize_range.
Qed.

Lemma exact_tokens_nonneg items : 0 <= exact_tokens items.
Proof.
  unfold exact_tokens. induction items as [|i items IH]; [done|]. cbn. pose proof (estimate_range i). lia.
Qed.

Lemma saturating_add_capped a b : 0 <= a -> 0 <= b -> i64_saturating_add (capped a) (capped b) = capped (a + b).
Proof. unfold i64_saturating_add, sat_i64, capped, I64_MAX, I64_MIN. lia. Qed.

Lemma capped_id n : n <= I64_MAX -> capped n = n.
Proof. unfold capped. lia. Qed.

Lemma estimate_items_capped items : estimate_items serialized_len image_dimensions items = capped (exact_tokens items).
Proof.
  unfold estimate_items, exact_tokens.
  assert (forall l acc, Forall (fun n => 0 <= n <= I64_MAX) l -> 0 <= acc ->
    foldl i64_saturating_add (capped acc) l = capped (acc + foldr Z.add 0 l)) as H.
  { induction l as [|n l IH]; intros acc Hl Hacc; cbn; [by rewrite Z.add_0_r|].
    apply Forall_cons in Hl as [Hn Hl]. rewrite <- (capped_id n) at 1 by lia.
    rewrite saturating_add_capped, IH by (done || lia). f_equal. lia. }
  apply (H _ 0); [|done]. apply Forall_fmap, Forall_true. apply estimate_range.
Qed.

Lemma reasoning_capped self :
  get_non_last_reasoning_items_tokens is_contextual_user_fragment is_message_content serialized_len image_dimensions self
  = capped (exact_tokens (earlier_reasoning self)).
Proof.
  unfold get_non_last_reasoning_items_tokens, earlier_reasoning. case_match; [apply estimate_items_capped|done].
Qed.

(** C39: no token count of the history overflows or goes negative: the estimate
    for the whole transcript and the total usage are the exact sums over the
    integers, capped at the largest 64-bit value; the total counts the usage the
    server reported, the items recorded since the model last answered, and, when
    the server left it out, the reasoning before the last user turn. *)
Theorem token_totals_exact self base_instructions server_reasoning_included :
  let last_tokens := match self.(token_info) with Some info => info.(last_token_usage).(total_tokens) | None => 0 end in
  0 <= last_tokens <= I64_MAX ->
  estimate_token_count_with_base_instructions serialized_len image_dimensions self base_instructions
  = capped (Z.of_N (approx_token_count base_instructions) + exact_tokens self.(hist_items))
  /\ get_total_token_usage is_contextual_user_fragment is_message_content serialized_len image_dimensions self
       server_reasoning_included
     = capped (last_tokens + (if server_reasoning_included then 0 else exact_tokens (earlier_reasoning self))
               + exact_tokens (items_after_last_model_generated_item self)).
Proof.
  intros last_tokens Hl.
  pose proof (exact_tokens_nonneg (hist_items self)). pose proof (exact_tokens_nonneg (earlier_reasoning self)).
  pose proof (exact_tokens_nonneg (items_after_last_model_generated_item self)). split.
  - unfold estimate_token_count_with_base_instructions. rewrite estimate_items_capped.
    replace (i64_of_usize _) with (capped (Z.of_N (approx_token_count base_instructions)))
      by (unfold capped, i64_of_usize; lia).
    apply saturating_add_capped; lia.
  - unfold get_total_token_usage, estimated_tokens_after_last_model_generated_item. fold last_tokens.
    rewrite estimate_items_capped, reasoning_capped. clearbody last_tokens.
    destruct server_reasoning_included; rewrite <- (capped_id last_tokens) at 1 by lia;
      rewrite !saturating_add_capped by lia; f_equal; lia.
Qed.
End estimates.

Definition w_usage (total : Z) : TokenUsageInfo :=
  mkUsageInfo (mkUsage 0 0 0 0 total) (mkUsage 0 0 0 0 total) None.

Definition w_counted : ContextManager unit unit unit :=
  mkHistory [Reasoning (Some (repeat 65%N 4000)) tt; AgentMessage tt; FunctionCall None (lit "a") tt;
             FunctionCallOutput None (lit "a") (payload_from_text []) None]
    0 (Some (w_usage I64_MAX)) None None.

Lemma token_totals_exact_witness :
  get_total_token_usage (fun _ => false) (fun _ => false) (fun _ => Some 40%N) (fun _ => None) w_counted false = I64_MAX
  /\ estimate_token_count_with_base_instructions (fun _ => Some 40%N) (fun _ => None) w_counted (lit "abcd")
     = (1 + exact_tokens (fun _ => Some 40%N) (fun _ => None) (hist_items w_counted))%Z
  /\ get_non_last_reasoning_items_tokens (fun _ => false) (fun _ => false) (fun _ => Some 40%N) (fun _ => None) w_counted
     = 588%Z.
Proof.
  destruct (token_totals_exact (fun _ => false) (fun _ => false) (fun _ => Some 40%N) (fun _ => None) w_counted
              (lit "abcd") false) as [E1 E2]; [by vm_compute|].
  split; [rewrite E2; vm_compute; reflexivity|]. split; [rewrite E1; vm_compute; reflexivity|]. vm_compute. reflexivity.
Defined.
