(* ===== verification/HashOrder.v ===== *)
(** The iteration order of [std::collections::HashMap].

    A map is a [gmap]; the order in which its bindings are visited is not
    specified by the standard library and depends on the hasher's seed.  It is the
    parameter [hash_iter]; what the code may rely on is that every binding is
    visited once ([HashOrderLaws]). *)

From stdpp Require Import base list option gmap.
From S2P Require Import Prelude.

Class HashOrder : Type := {
  hash_iter : forall {K} `{Countable K} {V}, gmap K V -> list (K * V)
}.

Class HashOrderLaws `{HashOrder} : Prop := {
  hash_iter_perm : forall {K} `{Countable K} {V} (m : gmap K V), Permutation (hash_iter m) (map_to_list m)
}.

Definition hash_keys `{HashOrder} {K} `{Countable K} {V} (m : gmap K V) : list K := fst <$> hash_iter m.
Definition hash_values `{HashOrder} {K} `{Countable K} {V} (m : gmap K V) : list V := snd <$> hash_iter m.

Section laws.
Context `{HashOrderLaws} {K : Type} `{Countable K} {V : Type}.
Implicit Types (m : gmap K V) (k : K) (v : V).

Lemma elem_of_hash_iter m k v : (k, v) ∈ hash_iter m <-> m !! k = Some v.
Proof. rewrite hash_iter_perm. apply elem_of_map_to_list. Qed.

Lemma elem_of_hash_keys m k : k ∈ hash_keys m <-> is_Some (m !! k).
Proof.
  unfold hash_keys. rewrite list_elem_of_fmap. split.
  - intros ([k' v] & -> & Hin%elem_of_hash_iter). eauto.
  - intros [v Hv]. exists (k, v). by rewrite elem_of_hash_iter.
Qed.

Lemma elem_of_hash_values m v : v ∈ hash_values m <-> exists k, m !! k = Some v.
Proof.
  unfold hash_values. rewrite list_elem_of_fmap. split.
  - intros ([k v'] & -> & Hin%elem_of_hash_iter). eauto.
  - intros [k Hk]. exists (k, v). by rewrite elem_of_hash_iter.
Qed.
End laws.

(** One possible order. *)
#[global] Instance trie_order : HashOrder := {| hash_iter _ _ _ _ m := map_to_list m |}.
#[global] Instance trie_order_laws : HashOrderLaws.
Proof. by constructor. Qed.
