(* ===== verification/TurnDiff.v ===== *)
(** [core/src/turn_diff_tracker.rs]: the net diff of a turn.

    The tracker reads the deltas that patch applications report ([ApplyHunks]) and
    never the disk.  SHA-1 and the line diff of the [similar] crate are the class
    [DiffLib]; the order in which hash maps are visited is [HashOrder].  Paths are
    Unix paths, represented by their components as in [AbsolutePath]; revision
    numbers stay below [u64::MAX]. *)

From stdpp Require Import base list option numbers strings gmap sets.
From Stdlib Require Import NArith Lia.
From S2P Require Import Prelude RustStr HashOrder AbsolutePath StreamingParser FileSystem ApplyHunks Utf8Stream.
Local Open Scope rust_scope.

Class DiffLib : Type := {
  (** [format!("{:x}", Sha1::digest(bytes))]. *)
  sha1_hex : bytes -> str;
  (** [similar]: old text, new text, old header, new header; three lines of context. *)
  unified_text : str -> str -> str -> str -> str
}.

(** * State *)

Record TrackedContent : Type := { content : str; revision : N }.

Record TrackedPath : Type := { environment_id : str; path : PathBuf }.

#[global] Instance TrackedPath_eq_dec : EqDecision TrackedPath.
Proof. solve_decision. Defined.

#[global] Instance Component_countable : Countable Component.
Proof.
  refine (inj_countable'
    (fun c => match c with RootDir => inl 0%N | CurDir => inl 1%N | ParentDir => inl 2%N | Normal s => inr s end)
    (fun e => match e with inl 0%N => RootDir | inl 1%N => CurDir | inl _ => ParentDir | inr s => Normal s end) _).
  by intros [].
Defined.

#[global] Instance TrackedPath_countable : Countable TrackedPath.
Proof.
  refine (inj_countable' (fun p => (p.(environment_id), p.(path)))
            (fun e => {| environment_id := e.1; path := e.2 |}) _).
  by intros [].
Defined.

Record DiffCacheKey : Type := {
  left_path : TrackedPath;
  left_revision : option N;
  right_path : TrackedPath;
  right_revision : option N
}.

#[global] Instance DiffCacheKey_eq_dec : EqDecision DiffCacheKey.
Proof. solve_decision. Defined.

#[global] Instance DiffCacheKey_countable : Countable DiffCacheKey.
Proof.
  refine (inj_countable' (fun k => (k.(left_path), k.(left_revision), (k.(right_path), k.(right_revision))))
            (fun e => {| left_path := e.1.1; left_revision := e.1.2; right_path := e.2.1; right_revision := e.2.2 |}) _).
  by intros [].
Defined.

Record TurnDiffTracker : Type := {
  valid : bool;
  display_roots_by_environment : gmap str PathBuf;
  baseline_by_path : gmap TrackedPath TrackedContent;
  current_by_path : gmap TrackedPath TrackedContent;
  origin_by_current_path : gmap TrackedPath TrackedPath;
  next_revision : N;
  rendered_diffs : gmap DiffCacheKey (option str);
  unified_diff : option str
}.

Definition tracker_default : TurnDiffTracker := {|
  valid := true; display_roots_by_environment := ∅; baseline_by_path := ∅; current_by_path := ∅;
  origin_by_current_path := ∅; next_revision := 0; rendered_diffs := ∅; unified_diff := None
|}.

Definition with_environment_display_roots (display_roots : list (str * PathBuf)) : TurnDiffTracker := {|
  valid := true;
  (** [collect]: a later root of the same environment wins. *)
  display_roots_by_environment := foldl (fun m e => <[e.1 := e.2]> m) ∅ display_roots;
  baseline_by_path := ∅; current_by_path := ∅; origin_by_current_path := ∅;
  next_revision := 0; rendered_diffs := ∅; unified_diff := None
|}.

(** Assignments to fields. *)
Definition set_baseline (t : TurnDiffTracker) m : TurnDiffTracker := {|
  valid := t.(valid); display_roots_by_environment := t.(display_roots_by_environment); baseline_by_path := m;
  current_by_path := t.(current_by_path); origin_by_current_path := t.(origin_by_current_path);
  next_revision := t.(next_revision); rendered_diffs := t.(rendered_diffs); unified_diff := t.(unified_diff) |}.
Definition set_current (t : TurnDiffTracker) m : TurnDiffTracker := {|
  valid := t.(valid); display_roots_by_environment := t.(display_roots_by_environment);
  baseline_by_path := t.(baseline_by_path); current_by_path := m;
  origin_by_current_path := t.(origin_by_current_path); next_revision := t.(next_revision);
  rendered_diffs := t.(rendered_diffs); unified_diff := t.(unified_diff) |}.
Definition set_origin (t : TurnDiffTracker) m : TurnDiffTracker := {|
  valid := t.(valid); display_roots_by_environment := t.(display_roots_by_environment);
  baseline_by_path := t.(baseline_by_path); current_by_path := t.(current_by_path); origin_by_current_path := m;
  next_revision := t.(next_revision); rendered_diffs := t.(rendered_diffs); unified_diff := t.(unified_diff) |}.
Definition set_next_revision (t : TurnDiffTracker) n : TurnDiffTracker := {|
  valid := t.(valid); display_roots_by_environment := t.(display_roots_by_environment);
  baseline_by_path := t.(baseline_by_path); current_by_path := t.(current_by_path);
  origin_by_current_path := t.(origin_by_current_path); next_revision := n;
  rendered_diffs := t.(rendered_diffs); unified_diff := t.(unified_diff) |}.
Definition set_diffs (t : TurnDiffTracker) rendered unified : TurnDiffTracker := {|
  valid := t.(valid); display_roots_by_environment := t.(display_roots_by_environment);
  baseline_by_path := t.(baseline_by_path); current_by_path := t.(current_by_path);
  origin_by_current_path := t.(origin_by_current_path); next_revision := t.(next_revision);
  rendered_diffs := rendered; unified_diff := unified |}.

Definition invalidate (t : TurnDiffTracker) : TurnDiffTracker := {|
  valid := false; display_roots_by_environment := t.(display_roots_by_environment);
  baseline_by_path := t.(baseline_by_path); current_by_path := t.(current_by_path);
  origin_by_current_path := t.(origin_by_current_path); next_revision := t.(next_revision);
  rendered_diffs := ∅; unified_diff := None |}.

Definition get_unified_diff (t : TurnDiffTracker) : option str := t.(unified_diff).
Definition has_unified_diff (t : TurnDiffTracker) : bool := is_some t.(unified_diff).

(** * Changes *)

Definition tracked_path (environment_id path : str) : TrackedPath :=
  {| environment_id := environment_id; path := components path |}.

Definition tracked_content (t : TurnDiffTracker) (text : str) : TurnDiffTracker * TrackedContent :=
  (set_next_revision t (t.(next_revision) + 1), {| content := text; revision := t.(next_revision) |}).

(** [contains_key] on neither map. *)
Definition untracked (t : TurnDiffTracker) (p : TrackedPath) : bool :=
  negb (is_some (t.(current_by_path) !! p)) && negb (is_some (t.(baseline_by_path) !! p)).

Definition insert_baseline (t : TurnDiffTracker) (p : TrackedPath) (text : str) : TurnDiffTracker :=
  let '(t, c) := tracked_content t text in set_baseline t (<[p := c]> t.(baseline_by_path)).
Definition insert_current (t : TurnDiffTracker) (p : TrackedPath) (text : str) : TurnDiffTracker :=
  let '(t, c) := tracked_content t text in set_current t (<[p := c]> t.(current_by_path)).
Definition remove_origin (t : TurnDiffTracker) (p : TrackedPath) : TurnDiffTracker :=
  set_origin t (delete p t.(origin_by_current_path)).
Definition remove_current (t : TurnDiffTracker) (p : TrackedPath) : TurnDiffTracker :=
  set_current t (delete p t.(current_by_path)).

Definition apply_add (t : TurnDiffTracker) (p : TrackedPath) (text : str) (overwritten_content : option str)
  : TurnDiffTracker :=
  let t := remove_origin t p in
  let t := match overwritten_content with
           | Some o => if untracked t p then insert_baseline t p o else t
           | None => t
           end in
  insert_current t p text.

Definition apply_delete (t : TurnDiffTracker) (p : TrackedPath) (text : str) : TurnDiffTracker :=
  let removed := t.(current_by_path) !! p in
  let t := remove_current t p in
  let t := if negb (is_some removed) && negb (is_some (t.(baseline_by_path) !! p))
           then insert_baseline t p text else t in
  remove_origin t p.

Definition apply_update (t : TurnDiffTracker) (source_path : TrackedPath) (move_path : option TrackedPath)
    (old_content : str) (overwritten_move_content : option str) (new_content : str) : TurnDiffTracker :=
  let t := if untracked t source_path then insert_baseline t source_path old_content else t in
  match move_path with
  | Some dest_path =>
      let t := match overwritten_move_content with
               | Some o => if untracked t dest_path then insert_baseline t dest_path o else t
               | None => t
               end in
      let origin := default source_path (t.(origin_by_current_path) !! source_path) in
      let t := remove_origin t source_path in
      let t := remove_current t source_path in
      let t := insert_current t dest_path new_content in
      let t := remove_origin t dest_path in
      if dest_path != origin then set_origin t (<[dest_path := origin]> t.(origin_by_current_path)) else t
  | None => insert_current t source_path new_content
  end.

Definition apply_change (environment_id : str) (t : TurnDiffTracker) (c : AppliedPatchChange) : TurnDiffTracker :=
  let source_path := tracked_path environment_id (change_path c) in
  match change c with
  | Added text overwritten_content => apply_add t source_path text overwritten_content
  | Deleted text => apply_delete t source_path text
  | Updated move_path old_content overwritten_move_content new_content =>
      apply_update t source_path (tracked_path environment_id <$> move_path)
        old_content overwritten_move_content new_content
  end.

(** * Rendering *)

Section render.
Context `{DiffLib} `{HashOrder}.
Implicit Types t : TurnDiffTracker.

Definition ZERO_OID : str := lit "0000000000000000000000000000000000000000".
Definition DEV_NULL : str := lit "/dev/null".
Definition REGULAR_FILE_MODE : str := lit "100644".

(** [display.replace('\\', "/")]. *)
Definition backslash_to_slash (s : str) : str :=
  (fun c => if c == 92%N then SLASH else c) <$> s.

Definition display_path t (p : TrackedPath) : str :=
  let stripped := root ← t.(display_roots_by_environment) !! p.(environment_id); path_strip_prefix p.(path) root in
  let display := backslash_to_slash (path_str (default p.(path) stripped)) in
  if (1 <? size t.(display_roots_by_environment)) && (p.(environment_id) != [])
  then p.(environment_id) ++ lit "/" ++ display
  else display.

Definition git_blob_oid (data : bytes) : str :=
  sha1_hex (encode (lit "blob " ++ show_nat (length data)) ++ [0%N] ++ data).

Definition blob_oid_of (o : option str) : str :=
  match o with Some text => git_blob_oid (encode text) | None => ZERO_OID end.

Definition render_diff t (left_path : TrackedPath) (left_content : option str)
    (right_path : TrackedPath) (right_content : option str) : option str :=
  if left_content == right_content then None
  else
    let left_display := display_path t left_path in
    let right_display := display_path t right_path in
    let diff := lit "diff --git a/" ++ left_display ++ lit " b/" ++ right_display ++ [NL] in
    let mode := match left_content, right_content with
                | None, Some _ => Some (lit "new file mode " ++ REGULAR_FILE_MODE ++ [NL])
                | Some _, None => Some (lit "deleted file mode " ++ REGULAR_FILE_MODE ++ [NL])
                | Some _, Some _ => Some []
                | None, None => None
                end in
    match mode with
    | None => None
    | Some mode =>
        let index := lit "index " ++ blob_oid_of left_content ++ lit ".." ++ blob_oid_of right_content ++ [NL] in
        let old_header := if is_some left_content then lit "a/" ++ left_display else DEV_NULL in
        let new_header := if is_some right_content then lit "b/" ++ right_display else DEV_NULL in
        Some (diff ++ mode ++ index
              ++ unified_text (default [] left_content) (default [] right_content) old_header new_header)
    end.

(** [rename_pairs]: collected into a map, so a later pair of the same origin wins. *)
Definition is_rename t (dest_path origin_path : TrackedPath) : bool :=
  negb ((dest_path == origin_path)
        || is_some (t.(current_by_path) !! origin_path)
        || negb (is_some (t.(current_by_path) !! dest_path))
        || negb (is_some (t.(baseline_by_path) !! origin_path))
        || is_some (t.(baseline_by_path) !! dest_path)).

Definition rename_pairs t : gmap TrackedPath TrackedPath :=
  foldl (fun m '(dest_path, origin_path) =>
           if is_rename t dest_path origin_path then <[origin_path := dest_path]> m else m)
    ∅ (hash_iter t.(origin_by_current_path)).

(** [sort_by_key] with string keys: stable. *)
Fixpoint insert_by_str {A} (key : A -> str) (x : A) (l : list A) : list A :=
  match l with
  | [] => [x]
  | y :: l' => if str_leb (key x) (key y) then x :: l else y :: insert_by_str key x l'
  end.
Definition sort_by_str {A} (key : A -> str) (l : list A) : list A := foldr (insert_by_str key) [] l.

(** [Vec::dedup]: of consecutive equal elements the first is kept. *)
Fixpoint dedup (l : list TrackedPath) : list TrackedPath :=
  match l with
  | x :: (y :: _) as l' => if x == y then dedup l' else x :: dedup l'
  | _ => l
  end.

Definition sorted_paths t : list TrackedPath :=
  dedup (sort_by_str (display_path t) (hash_keys t.(baseline_by_path) ++ hash_keys t.(current_by_path))).

Record RefreshState : Type := {
  handled : gset TrackedPath;
  previous_diffs : gmap DiffCacheKey (option str);
  new_diffs : gmap DiffCacheKey (option str);
  aggregated : str
}.

(** [aggregated.push_str(diff)] and a final line break. *)
Definition push_diff (aggregated : str) (rendered : option str) : str :=
  match rendered with
  | Some diff =>
      let a := aggregated ++ diff in
      if ends_with [NL] a then a else a ++ [NL]
  | None => aggregated
  end.

Definition refresh_path t (pairs : gmap TrackedPath TrackedPath) (paired_destinations : gset TrackedPath)
    (s : RefreshState) (p : TrackedPath) : RefreshState :=
  if bool_decide (p ∈ s.(handled)) then s
  else
    let s := {| handled := {[p]} ∪ s.(handled); previous_diffs := s.(previous_diffs);
                new_diffs := s.(new_diffs); aggregated := s.(aggregated) |} in
    if bool_decide (p ∈ paired_destinations) then s
    else
      let '(lp, rp, handled) :=
        match pairs !! p with
        | Some dest => (p, dest, {[dest]} ∪ s.(handled))
        | None => (p, p, s.(handled))
        end in
      let left_content := t.(baseline_by_path) !! lp in
      let right_content := t.(current_by_path) !! rp in
      let key := {| left_path := lp; left_revision := revision <$> left_content;
                    right_path := rp; right_revision := revision <$> right_content |} in
      let rendered := match s.(previous_diffs) !! key with
                      | Some r => r
                      | None => render_diff t lp (content <$> left_content) rp (content <$> right_content)
                      end in
      {| handled := handled; previous_diffs := delete key s.(previous_diffs);
         new_diffs := <[key := rendered]> s.(new_diffs);
         aggregated := push_diff s.(aggregated) rendered |}.

Definition refresh_unified_diff t : TurnDiffTracker :=
  let pairs := rename_pairs t in
  let paired_destinations : gset TrackedPath := list_to_set (hash_values pairs) in
  let s := foldl (refresh_path t pairs paired_destinations)
             {| handled := ∅; previous_diffs := t.(rendered_diffs); new_diffs := ∅; aggregated := [] |}
             (sorted_paths t) in
  set_diffs t s.(new_diffs) (if s.(aggregated) == [] then None else Some s.(aggregated)).

Definition track_delta t (environment_id : str) (delta : AppliedPatchDelta) : TurnDiffTracker :=
  if negb t.(valid) then t
  else if negb (exact delta) then invalidate t
  else refresh_unified_diff (foldl (apply_change environment_id) t (changes delta)).
End render.

(** * The texts a tracker records *)

Definition base (t : TurnDiffTracker) (k : TrackedPath) : option str := content <$> t.(baseline_by_path) !! k.
Definition cur (t : TurnDiffTracker) (k : TrackedPath) : option str := content <$> t.(current_by_path) !! k.

Section recorded.
Implicit Types (t : TurnDiffTracker) (p k : TrackedPath).

Lemma untracked_true t k : untracked t k = true <-> base t k = None /\ cur t k = None.
Proof.
  unfold untracked, base, cur. destruct (current_by_path t !! k), (baseline_by_path t !! k); cbn; naive_solver.
Qed.

Lemma base_insert_baseline t p x k :
  base (insert_baseline t p x) k = if k == p then Some x else base t k.
Proof.
  unfold base, insert_baseline. cbn. case_bool_decide as E; [subst; by rewrite lookup_insert_eq|].
  by rewrite lookup_insert_ne.
Qed.

Lemma cur_insert_current t p x k : cur (insert_current t p x) k = if k == p then Some x else cur t k.
Proof.
  unfold cur, insert_current. cbn. case_bool_decide as E; [subst; by rewrite lookup_insert_eq|].
  by rewrite lookup_insert_ne.
Qed.

Lemma cur_remove_current t p k : cur (remove_current t p) k = if k == p then None else cur t k.
Proof.
  unfold cur, remove_current. cbn. case_bool_decide as E; [subst; by rewrite lookup_delete_eq|].
  by rewrite lookup_delete_ne.
Qed.

(** A baseline is taken when a path is first seen. *)
Lemma base_first_seen t p x k :
  base (if untracked t p then insert_baseline t p x else t) k
  = if (k == p) && untracked t p then Some x else base t k.
Proof. destruct (untracked t p); rewrite ?base_insert_baseline; by destruct (bool_decide (k = p)). Qed.

Lemma cur_first_seen t p x k : cur (if untracked t p then insert_baseline t p x else t) k = cur t k.
Proof. by destruct (untracked t p). Qed.

Lemma base_first_seen_opt t p o k :
  base match o with Some x => if untracked t p then insert_baseline t p x else t | None => t end k
  = if (k == p) && untracked t p then o else base t k.
Proof.
  destruct o as [x|]; [apply base_first_seen|]. case_bool_decide as E; cbn; [|done]. subst.
  destruct (untracked t p) eqn:U; [|done]. by apply untracked_true in U as [? _].
Qed.

Lemma cur_first_seen_opt t p o k :
  cur match o with Some x => if untracked t p then insert_baseline t p x else t | None => t end k = cur t k.
Proof. destruct o; [apply cur_first_seen|done]. Qed.

Lemma apply_add_texts t p x o k :
  base (apply_add t p x o) k = (if (k == p) && untracked t p then o else base t k)
  /\ cur (apply_add t p x o) k = if k == p then Some x else cur t k.
Proof.
  unfold apply_add. rewrite cur_insert_current, cur_first_seen_opt. split; [|done].
  apply (base_first_seen_opt (remove_origin t p)).
Qed.

Lemma apply_delete_texts t p x k :
  base (apply_delete t p x) k = (if (k == p) && untracked t p then Some x else base t k)
  /\ cur (apply_delete t p x) k = if k == p then None else cur t k.
Proof.
  unfold apply_delete. cbn [baseline_by_path remove_current set_current].
  change (negb (is_some (current_by_path t !! p)) && negb (is_some (baseline_by_path t !! p))) with (untracked t p).
  split.
  - change (base (remove_origin ?a p) k) with (base a k).
    destruct (untracked t p); rewrite ?base_insert_baseline; by destruct (bool_decide (k = p)).
  - rewrite <- cur_remove_current. by destruct (untracked t p).
Qed.

Lemma apply_update_texts t p old o new k :
  base (apply_update t p None old o new) k = (if (k == p) && untracked t p then Some old else base t k)
  /\ cur (apply_update t p None old o new) k = if k == p then Some new else cur t k.
Proof.
  unfold apply_update. rewrite cur_insert_current, cur_first_seen. split; [|done]. apply base_first_seen.
Qed.

Lemma apply_move_texts t p d old o new k :
  p <> d ->
  base (apply_update t p (Some d) old o new) k
  = (if (k == p) && untracked t p then Some old else if (k == d) && untracked t d then o else base t k)
  /\ cur (apply_update t p (Some d) old o new) k
     = if k == d then Some new else if k == p then None else cur t k.
Proof.
  intros Hne. unfold apply_update. set (t1 := if untracked t p then _ else t).
  assert (untracked t1 d = untracked t d) as Hu.
  { apply Bool.eq_iff_eq_true. rewrite !untracked_true. subst t1.
    rewrite base_first_seen, cur_first_seen, bool_decide_eq_false_2 by done. done. }
  set (t2 := match o with Some _ => _ | None => t1 end). set (org := default p _).
  assert (forall b t3, base (if (d != org) then set_origin t3 b else t3) k = base t3 k
            /\ cur (if (d != org) then set_origin t3 b else t3) k = cur t3 k) as Ho by (intros; by destruct (d != org)).
  rewrite (proj1 (Ho _ _)), (proj2 (Ho _ _)). split.
  - change (base t2 k = if (k == p) && untracked t p then Some old else if (k == d) && untracked t d then o else base t k).
    subst t2. rewrite base_first_seen_opt, Hu. subst t1. rewrite base_first_seen.
    destruct (decide (k = p)) as [->|]; [|by rewrite (bool_decide_eq_false_2 (k = p))].
    by rewrite (bool_decide_eq_false_2 (p = d)).
  - change (cur (insert_current (remove_current t2 p) d new) k = if k == d then Some new else if k == p then None else cur t k).
    rewrite cur_insert_current, cur_remove_current. subst t2 t1. by rewrite cur_first_seen_opt, cur_first_seen.
Qed.
End recorded.

(** * Rendering and its cache

    [log] lists the texts in the order of their revisions. *)

Section cache.
Context `{DiffLib} `{HashOrderLaws}.
Implicit Types (t : TurnDiffTracker) (log : list str) (p : TrackedPath).

Definition at_revision log (r : option N) : option str := n ← r; log !! N.to_nat n.

Definition logged log (m : gmap TrackedPath TrackedContent) : Prop :=
  forall p c, m !! p = Some c -> log !! N.to_nat c.(revision) = Some c.(content).

Definition cache_ok t log (m : gmap DiffCacheKey (option str)) : Prop :=
  forall k r, m !! k = Some r ->
    r = render_diff t k.(left_path) (at_revision log k.(left_revision)) k.(right_path) (at_revision log k.(right_revision))
        /\ from_option (fun n => N.to_nat n < length log) True k.(left_revision)
        /\ from_option (fun n => N.to_nat n < length log) True k.(right_revision).

Definition tracker_ok t log : Prop :=
  t.(valid) = true /\ length log = N.to_nat t.(next_revision)
  /\ logged log t.(baseline_by_path) /\ logged log t.(current_by_path) /\ cache_ok t log t.(rendered_diffs).

Lemma render_diff_roots t t' l a r b :
  t.(display_roots_by_environment) = t'.(display_roots_by_environment) -> render_diff t l a r b = render_diff t' l a r b.
Proof. intros E. unfold render_diff, display_path. by rewrite E. Qed.

Lemma render_diff_None t l a r b : render_diff t l a r b = None <-> a = b.
Proof.
  unfold render_diff. case_bool_decide as E; [by subst|]. split; [|done]. destruct a, b; try done; by intros.
Qed.

Lemma logged_lookup log m p : logged log m -> at_revision log (revision <$> m !! p) = content <$> m !! p.
Proof. intros Hl. destruct (m !! p) as [c|] eqn:E; [|done]. cbn. by apply (Hl p). Qed.

(** ** Changes keep the log *)

Lemma logged_app log m x : logged log m -> logged (log ++ [x]) m.
Proof. intros Hl p c Hc. apply lookup_app_l_Some. eauto. Qed.

Lemma logged_delete log m p : logged log m -> logged log (delete p m).
Proof. intros Hl q c [_ Hc]%lookup_delete_Some. eauto. Qed.

Lemma cache_ok_app t t' log x m :
  t.(display_roots_by_environment) = t'.(display_roots_by_environment) -> cache_ok t log m -> cache_ok t' (log ++ [x]) m.
Proof.
  intros Et Hm k r Hk. destruct (Hm k r Hk) as (-> & Hl & Hr). rewrite (render_diff_roots t t') by done.
  assert (forall o, from_option (fun n => N.to_nat n < length log) True o -> at_revision (log ++ [x]) o = at_revision log o) as Ha.
  { intros [n|]; cbn; [|done]. intros Hn. by rewrite lookup_app_l. }
  rewrite !Ha by done. split; [done|]. rewrite length_app.
  split; [destruct (left_revision k)|destruct (right_revision k)]; cbn in *; lia || done.
Qed.

Lemma logged_insert t log m p x :
  length log = N.to_nat t.(next_revision) -> logged log m ->
  logged (log ++ [x]) (<[p := (tracked_content t x).2]> m).
Proof.
  intros Hn Hm q c [[-> <-]|[_ Hc]]%lookup_insert_Some; [|by eapply logged_app].
  cbn. by rewrite <- Hn, lookup_app_r, Nat.sub_diag by lia.
Qed.

Lemma tracker_ok_insert_baseline t log p x : tracker_ok t log -> tracker_ok (insert_baseline t p x) (log ++ [x]).
Proof.
  intros (Hv & Hn & Hb & Hc & Hd). split_and!; cbn; [done| | | |].
  - rewrite length_app. cbn. lia.
  - by apply (logged_insert t).
  - by apply logged_app.
  - by apply (cache_ok_app t).
Qed.

Lemma tracker_ok_insert_current t log p x : tracker_ok t log -> tracker_ok (insert_current t p x) (log ++ [x]).
Proof.
  intros (Hv & Hn & Hb & Hc & Hd). split_and!; cbn; [done| | | |].
  - rewrite length_app. cbn. lia.
  - by apply logged_app.
  - by apply (logged_insert t).
  - by apply (cache_ok_app t).
Qed.

Lemma tracker_ok_remove_current t log p : tracker_ok t log -> tracker_ok (remove_current t p) log.
Proof. intros (Hv & Hn & Hb & Hc & Hd). split_and!; try done. by apply logged_delete. Qed.

Lemma tracker_ok_set_origin t log m : tracker_ok t log -> tracker_ok (set_origin t m) log.
Proof. done. Qed.

Definition has_log t : Prop := exists log, tracker_ok t log.

Lemma has_log_apply_change e t c : has_log t -> has_log (apply_change e t c).
Proof.
  intros Ht.
  assert (forall t p x, has_log t -> has_log (insert_baseline t p x)) as Hb
    by (intros ??? [? ?]; eexists; by apply tracker_ok_insert_baseline).
  assert (forall t p x, has_log t -> has_log (insert_current t p x)) as Hc
    by (intros ??? [? ?]; eexists; by apply tracker_ok_insert_current).
  assert (forall t p, has_log t -> has_log (remove_current t p)) as Hr
    by (intros ?? [? ?]; eexists; by apply tracker_ok_remove_current).
  assert (forall t m, has_log t -> has_log (set_origin t m)) as Ho by done.
  assert (forall t p, has_log t -> has_log (remove_origin t p)) as Hro by done.
  unfold apply_change, apply_add, apply_delete, apply_update. cbv zeta. repeat case_match; auto 8.
Qed.

(** ** A refresh

    What it renders: every recorded path once, a renamed file with its new path. *)

Fixpoint first_seen (seen : gset TrackedPath) (l : list TrackedPath) : list TrackedPath :=
  match l with
  | [] => []
  | p :: l => if bool_decide (p ∈ seen) then first_seen seen l else p :: first_seen ({[p]} ∪ seen) l
  end.

Definition destinations t : gset TrackedPath := list_to_set (hash_values (rename_pairs t)).

Definition paired t p : TrackedPath * TrackedPath := (p, default p (rename_pairs t !! p)).

Definition entries t : list (TrackedPath * TrackedPath) :=
  paired t <$> first_seen (destinations t) (sorted_paths t).

Definition render_entry t (e : TrackedPath * TrackedPath) : option str :=
  render_diff t e.1 (base t e.1) e.2 (cur t e.2).

Lemma cache_ok_insert t log m k r :
  cache_ok t log m ->
  r = render_diff t k.(left_path) (at_revision log k.(left_revision)) k.(right_path) (at_revision log k.(right_revision))
      /\ from_option (fun n => N.to_nat n < length log) True k.(left_revision)
      /\ from_option (fun n => N.to_nat n < length log) True k.(right_revision) ->
  cache_ok t log (<[k := r]> m).
Proof. intros Hm Hk k' r' [[-> <-]|[_ Hc]]%lookup_insert_Some; [done|by apply Hm]. Qed.

Lemma logged_bound log m p :
  logged log m -> from_option (fun n => N.to_nat n < length log) True (revision <$> m !! p).
Proof.
  intros Hl. destruct (m !! p) as [c|] eqn:E; [|done]. cbn. apply lookup_lt_is_Some. eexists. by apply (Hl p).
Qed.

Abbreviation refresh_one t := (refresh_path t (rename_pairs t) (destinations t)).

Lemma refresh_path_seen t st p :
  p ∈ st.(handled) ∪ destinations t ->
  let st' := refresh_one t st p in
  st'.(aggregated) = st.(aggregated) /\ st'.(previous_diffs) = st.(previous_diffs)
  /\ st'.(new_diffs) = st.(new_diffs) /\ st'.(handled) ∪ destinations t = st.(handled) ∪ destinations t.
Proof.
  intros Hp. unfold refresh_path. case_bool_decide; [done|].
  rewrite bool_decide_eq_true_2 by set_solver. cbn. split_and!; [done..|set_solver].
Qed.

Lemma rename_destination t o d : rename_pairs t !! o = Some d -> d ∈ destinations t.
Proof. intros Hd. unfold destinations. rewrite elem_of_list_to_set, elem_of_hash_values. eauto. Qed.

Lemma refresh_path_new t log st p :
  logged log t.(baseline_by_path) -> logged log t.(current_by_path) ->
  cache_ok t log st.(previous_diffs) -> cache_ok t log st.(new_diffs) ->
  p ∉ st.(handled) ∪ destinations t ->
  let st' := refresh_one t st p in
  st'.(aggregated) = push_diff st.(aggregated) (render_entry t (paired t p))
  /\ cache_ok t log st'.(previous_diffs) /\ cache_ok t log st'.(new_diffs)
  /\ st'.(handled) ∪ destinations t = {[p]} ∪ (st.(handled) ∪ destinations t).
Proof.
  intros Hb Hc Hpr Hn Hp. unfold refresh_path. rewrite !bool_decide_eq_false_2 by set_solver. cbv zeta.
  cbn [aggregated previous_diffs new_diffs handled].
  set (hd := match rename_pairs t !! p with Some d => ({[d]} : gset TrackedPath) | None => ∅ end).
  replace (match rename_pairs t !! p with
           | Some d => (p, d, {[d]} ∪ ({[p]} ∪ st.(handled)))
           | None => (p, p, {[p]} ∪ st.(handled)) end)
    with (p, (paired t p).2, hd ∪ ({[p]} ∪ st.(handled)))
    by (unfold paired; subst hd; destruct (rename_pairs t !! p); [done|by rewrite (left_id_L ∅ (∪))]).
  cbn [aggregated previous_diffs new_diffs handled].
  set (k := {| left_path := p |}). set (r := match previous_diffs st !! k with Some r => r | None => _ end).
  assert (r = render_entry t (paired t p)
          /\ r = render_diff t k.(left_path) (at_revision log k.(left_revision)) k.(right_path) (at_revision log k.(right_revision))) as [Hr1 Hr2].
  { unfold render_entry, base, cur. subst k. cbn [left_path left_revision right_path right_revision] in *.
    rewrite !logged_lookup by done. cbn [paired fst]. split.
    all: unfold r; destruct (previous_diffs st !! _) as [r'|] eqn:E; [|done].
    all: apply Hpr in E as [-> _]; cbn [left_path left_revision right_path right_revision]; by rewrite !logged_lookup. }
  split_and!.
  - by rewrite Hr1.
  - intros k' r' [_ Hk']%lookup_delete_Some. by apply Hpr.
  - apply cache_ok_insert; [done|]. split_and!; [done|by apply logged_bound..].
  - assert (hd ⊆ destinations t) as Hhd; [|set_solver].
    subst hd. destruct (rename_pairs t !! p) as [d|] eqn:E; [|set_solver].
    apply rename_destination in E. set_solver.
Qed.

Lemma refresh_loop t log paths st :
  logged log t.(baseline_by_path) -> logged log t.(current_by_path) ->
  cache_ok t log st.(previous_diffs) -> cache_ok t log st.(new_diffs) ->
  let st' := foldl (refresh_one t) st paths in
  st'.(aggregated) = foldl push_diff st.(aggregated)
                       (render_entry t <$> (paired t <$> first_seen (st.(handled) ∪ destinations t) paths))
  /\ cache_ok t log st'.(new_diffs).
Proof.
  intros Hb Hc. revert st. induction paths as [|p paths IH]; intros st Hp Hn; [done|].
  cbn [foldl first_seen]. destruct (decide (p ∈ st.(handled) ∪ destinations t)) as [Hs|Hs].
  - rewrite bool_decide_eq_true_2 by done. destruct (refresh_path_seen t st p Hs) as (Ea & Ep & En & Eh).
    rewrite <- Ea, <- Eh. apply IH; [by rewrite Ep|by rewrite En].
  - rewrite bool_decide_eq_false_2 by done. destruct (refresh_path_new t log st p Hb Hc Hp Hn Hs) as (Ea & Ep & En & Eh).
    cbn [fmap list_fmap foldl]. rewrite <- Ea, <- Eh. by apply IH.
Qed.

Definition some_nonempty_str (a : str) : option str := if a == [] then None else Some a.

(** A refresh renders the entries afresh, cache or not. *)
Lemma refresh_spec t log :
  tracker_ok t log ->
  tracker_ok (refresh_unified_diff t) log
  /\ get_unified_diff (refresh_unified_diff t)
     = some_nonempty_str (foldl push_diff [] (render_entry t <$> entries t)).
Proof.
  intros (Hv & Hn & Hb & Hc & Hd). unfold refresh_unified_diff, get_unified_diff. cbv zeta.
  fold (destinations t). cbn [unified_diff set_diffs].
  destruct (refresh_loop t log (sorted_paths t)
    {| handled := ∅; previous_diffs := t.(rendered_diffs); new_diffs := ∅; aggregated := [] |}) as [Ha Hm]; try done.
  cbn [handled aggregated] in Ha. rewrite (left_id_L ∅ (∪)) in Ha.
  split; [split_and!; done|]. by rewrite Ha.
Qed.

(** ** Entries *)

Lemma elem_of_first_seen seen l p : p ∈ first_seen seen l <-> p ∈ l /\ p ∉ seen.
Proof.
  revert seen. induction l as [|q l IH]; intros seen; cbn [first_seen]; [set_solver|].
  case_bool_decide; rewrite ?elem_of_cons, IH; [set_solver|].
  destruct (decide (p = q)); set_solver.
Qed.

Lemma first_seen_NoDup seen l : NoDup (first_seen seen l).
Proof.
  revert seen. induction l as [|q l IH]; intros seen; cbn [first_seen]; [constructor|].
  case_bool_decide; [done|]. constructor; [|done]. rewrite elem_of_first_seen. set_solver.
Qed.

Lemma elem_of_insert_by_str {A} (f : A -> str) x l y : y ∈ insert_by_str f x l <-> y = x \/ y ∈ l.
Proof.
  induction l as [|z l IH]; cbn; [by rewrite elem_of_cons|]. case_match; rewrite !elem_of_cons; [done|].
  rewrite IH. tauto.
Qed.

Lemma elem_of_sort_by_str {A} (f : A -> str) l y : y ∈ sort_by_str f l <-> y ∈ l.
Proof. induction l as [|x l IH]; cbn; [done|]. by rewrite elem_of_insert_by_str, IH, elem_of_cons. Qed.

Lemma elem_of_dedup l (y : TrackedPath) : y ∈ dedup l <-> y ∈ l.
Proof.
  induction l as [|x l IH]; [done|]. destruct l as [|z l]; [done|].
  change (dedup (x :: z :: l)) with (if x == z then dedup (z :: l) else x :: dedup (z :: l)).
  rewrite (elem_of_cons (z :: l)), <- IH. case_bool_decide; [subst|by rewrite elem_of_cons].
  split; [by right|]. intros [->|?]; [|done]. apply IH. by left.
Qed.

Lemma elem_of_sorted_paths t p : p ∈ sorted_paths t <-> untracked t p = false.
Proof.
  unfold sorted_paths. rewrite elem_of_dedup, elem_of_sort_by_str, elem_of_app, !elem_of_hash_keys.
  unfold untracked, is_Some. destruct (current_by_path t !! p), (baseline_by_path t !! p); cbn; naive_solver.
Qed.

Lemma rename_pairs_Some t o d :
  rename_pairs t !! o = Some d -> is_rename t d o = true /\ t.(origin_by_current_path) !! d = Some o.
Proof.
  unfold rename_pairs.
  assert (forall l (m : gmap TrackedPath TrackedPath),
    (forall x, x ∈ l -> t.(origin_by_current_path) !! x.1 = Some x.2) ->
    (forall o d, m !! o = Some d -> is_rename t d o = true /\ t.(origin_by_current_path) !! d = Some o) ->
    forall o d, foldl (fun m '(d, o) => if is_rename t d o then <[o := d]> m else m) m l !! o = Some d ->
      is_rename t d o = true /\ t.(origin_by_current_path) !! d = Some o) as Hfold.
  { induction l as [|[d' o'] l IH]; intros m Hl Hm; [done|]. cbn [foldl]. apply IH; [set_solver|].
    destruct (is_rename t d' o') eqn:Er; [|done]. intros o1 d1 [[<- <-]|[_ ?]]%lookup_insert_Some; [|auto].
    split; [done|]. apply (Hl (d', o')). set_solver. }
  apply Hfold; [|done]. intros [d' o']. apply elem_of_hash_iter.
Qed.

Lemma is_rename_texts t d o :
  is_rename t d o = true -> cur t o = None /\ is_Some (cur t d) /\ is_Some (base t o) /\ base t d = None.
Proof.
  unfold is_rename, cur, base. rewrite negb_true_iff, !orb_false_iff.
  destruct (current_by_path t !! o), (current_by_path t !! d), (baseline_by_path t !! o), (baseline_by_path t !! d);
    cbn; naive_solver.
Qed.

Lemma untracked_false t k : untracked t k = false <-> is_Some (base t k) \/ is_Some (cur t k).
Proof.
  unfold untracked, base, cur. destruct (current_by_path t !! k), (baseline_by_path t !! k); cbn; unfold is_Some; naive_solver.
Qed.

Lemma elem_of_destinations t d : d ∈ destinations t <-> exists o, rename_pairs t !! o = Some d.
Proof. unfold destinations. by rewrite elem_of_list_to_set, elem_of_hash_values. Qed.

Lemma elem_of_entries t l r :
  (l, r) ∈ entries t <-> untracked t l = false /\ (l ∉ destinations t) /\ r = default l (rename_pairs t !! l).
Proof.
  unfold entries, paired. rewrite list_elem_of_fmap. setoid_rewrite elem_of_first_seen. setoid_rewrite elem_of_sorted_paths.
  naive_solver.
Qed.

(** An entry is a path, or a file that is gone and its new path, which was free. *)
Lemma entry_texts t l r :
  (l, r) ∈ entries t -> untracked t l = false /\ untracked t r = false /\ (l = r \/ cur t l = None /\ base t r = None).
Proof.
  intros (Hl & _ & ->)%elem_of_entries. split; [done|].
  destruct (rename_pairs t !! l) as [d|] eqn:E; cbn [from_option id]; [|auto].
  apply rename_pairs_Some in E as [(? & ? & ? & ?)%is_rename_texts _]. split; [|auto]. apply untracked_false. auto.
Qed.

Lemma entries_cover t p : untracked t p = false -> p ∈ (entries t).*1 \/ p ∈ (entries t).*2.
Proof.
  intros Hp. destruct (decide (p ∈ destinations t)) as [Hd|Hd].
  - right. apply elem_of_destinations in Hd as [o Ho]. apply list_elem_of_fmap. exists (o, p). split; [done|].
    apply elem_of_entries. rewrite Ho. pose proof Ho as [(? & ? & Hb & ?)%is_rename_texts _]%rename_pairs_Some.
    split_and!; [apply untracked_false; auto| |done].
    intros [o' [(? & ? & ? & Hn)%is_rename_texts _]%rename_pairs_Some]%elem_of_destinations.
    rewrite Hn in Hb. by destruct Hb.
  - left. apply list_elem_of_fmap. exists (p, default p (rename_pairs t !! p)). by rewrite elem_of_entries.
Qed.

Lemma entries_NoDup t : NoDup (entries t).*1 /\ NoDup (entries t).*2.
Proof.
  assert (NoDup (entries t).*1) as Hfst.
  { unfold entries, paired. rewrite <- list_fmap_compose. cbn. rewrite list_fmap_id. apply first_seen_NoDup. }
  split; [done|]. apply NoDup_fmap_2_strong; [|by eapply NoDup_fmap_1].
  intros [l r] [l' r'] (_ & Hl & ->)%elem_of_entries (_ & Hl' & ->)%elem_of_entries. cbn [snd].
  intros E. assert (l = l') as ->; [|done].
  destruct (rename_pairs t !! l) as [d|] eqn:E1, (rename_pairs t !! l') as [d'|] eqn:E2; cbn [from_option id] in E; subst.
  - apply rename_pairs_Some in E1 as [_ E1], E2 as [_ E2]. congruence.
  - by apply rename_destination in E1.
  - by apply rename_destination in E2.
  - done.
Qed.
End cache.

(** * What a turn does

    [world] gives the text of every file of every environment; [tracks t w0 w]: the
    tracker knows how [w0] became [w]. *)

Section turn.
Context {Path FS : Type} `{PathUriOps Path} `{!ExecutorFileSystem Path FS} `{!FileSystemLaws Path FS}.
Context `{DiffLib} `{HashOrder} {hash_laws : HashOrderLaws}.
Context {W : Type} (writeln : W -> str -> W * result unit io_error).

(** Distinct files have native paths with distinct components. *)
Context (native_inj : forall p q : Path, components (native_path p) = components (native_path q) -> p = q).

Abbreviation world := (str -> Path -> option str).
Implicit Types (t : TurnDiffTracker) (w : world) (c : AppliedPatchChange).

Definition key (e : str) (q : Path) : TrackedPath := tracked_path e (native_path q).

(** A path without recorded texts has not changed; otherwise both texts are right. *)
Definition recorded (b c x0 x : option str) : Prop :=
  match b, c with None, None => x0 = x | _, _ => b = x0 /\ c = x end.

Definition tracks t w0 w : Prop :=
  forall e q, recorded (base t (key e q)) (cur t (key e q)) (w0 e q) (w e q).

Definition change_world (e : str) c w : world :=
  fun e' => if e' == e then replay_change c (w e) else w e'.

(** A move onto another path. *)
Definition moves_away c : Prop :=
  match change c with Updated (Some d) _ _ _ => components d <> components (change_path c) | _ => True end.

Lemma key_eq e e' q p : key e' q = key e p <-> e' = e /\ q = p.
Proof using native_inj.
  split; [|by intros [-> ->]]. unfold key, tracked_path. intros [= -> Hc]. split; [done|]. by apply native_inj.
Qed.

Lemma recorded_intro (b n x0 x : option str) : b = x0 -> n = x -> recorded b n x0 x.
Proof. intros -> ->. unfold recorded. destruct x0, x; auto. Qed.

(** The first text recorded of a path is the one it had at the start. *)
Lemma recorded_first t k (x0 x old : option str) :
  recorded (base t k) (cur t k) x0 x -> old = x -> (if untracked t k then old else base t k) = x0.
Proof.
  intros Hr ->. destruct (untracked t k) eqn:U.
  - apply untracked_true in U as [Hb Hc]. rewrite Hb, Hc in Hr. done.
  - destruct (base t k) eqn:Hb; [by destruct Hr|]. destruct (cur t k) eqn:Hc; [by destruct Hr|].
    by rewrite (proj2 (untracked_true t k)) in U.
Qed.

Lemma tracks_ext t w0 w w' : (forall e q, w e q = w' e q) -> tracks t w0 w -> tracks t w0 w'.
Proof. intros Hw Ht e q. rewrite <- Hw. apply Ht. Qed.

(** A change of one file. *)
Lemma tracks_one e p t t' w0 w old new :
  tracks t w0 w -> old = w e p ->
  (forall k, base t' k = (if (k == key e p) && untracked t (key e p) then old else base t k)
             /\ cur t' k = if k == key e p then new else cur t k) ->
  tracks t' w0 (fun e' q => if (e' == e) && (q == p) then new else w e' q).
Proof using native_inj.
  intros Ht Hold Hk e' q. destruct (Hk (key e' q)) as [-> ->].
  destruct (decide (e' = e /\ q = p)) as [[-> ->]|Hne].
  - rewrite !bool_decide_eq_true_2 by done. cbn. apply recorded_intro; [|done].
    eapply recorded_first; [apply Ht|done].
  - rewrite (bool_decide_eq_false_2 (key e' q = _)) by (by rewrite key_eq). cbn.
    replace ((e' == e) && (q == p)) with false; [apply Ht|].
    symmetry. apply andb_false_iff. rewrite !bool_decide_eq_false.
    destruct (decide (e' = e)), (decide (q = p)); naive_solver.
Qed.

(** A move: the destination gets the text, the source loses it. *)
Lemma tracks_move e p d t t' w0 w old o new :
  tracks t w0 w -> p <> d -> old = w e p -> o = w e d ->
  (forall k, base t' k = (if (k == key e p) && untracked t (key e p) then old
                          else if (k == key e d) && untracked t (key e d) then o else base t k)
             /\ cur t' k = if k == key e d then new else if k == key e p then None else cur t k) ->
  tracks t' w0 (fun e' q => if (e' == e) && (q == p) then None else if (e' == e) && (q == d) then new else w e' q).
Proof using native_inj.
  intros Ht Hpd Hold Ho Hk e' q. destruct (Hk (key e' q)) as [-> ->].
  destruct (decide (e' = e)) as [->|Hne].
  2: { rewrite !(bool_decide_eq_false_2 (key e' q = _)) by (rewrite key_eq; naive_solver).
       rewrite (bool_decide_eq_false_2 (e' = e)) by done. apply Ht. }
  rewrite (bool_decide_eq_true_2 (e = e)) by done. cbn [andb].
  destruct (decide (q = p)) as [->|Hqp].
  - rewrite (bool_decide_eq_false_2 (key e p = key e d)) by (rewrite key_eq; naive_solver).
    rewrite !bool_decide_eq_true_2 by done. cbn. apply recorded_intro; [|done].
    eapply recorded_first; [apply Ht|done].
  - rewrite (bool_decide_eq_false_2 (key e q = key e p)) by (rewrite key_eq; naive_solver).
    rewrite (bool_decide_eq_false_2 (q = p)) by done. cbn. destruct (decide (q = d)) as [->|Hqd].
    + rewrite !bool_decide_eq_true_2 by done. cbn. apply recorded_intro; [|done].
      eapply recorded_first; [apply Ht|done].
    + rewrite (bool_decide_eq_false_2 (key e q = key e d)) by (rewrite key_eq; naive_solver).
      rewrite (bool_decide_eq_false_2 (q = d)) by done. apply Ht.
Qed.

Lemma native_key (q p : Path) : (native_path q == native_path p) = (q == p).
Proof using native_inj.
  apply bool_decide_ext. split; [|by intros ->]. intros E. apply native_inj. by rewrite E.
Qed.

Ltac by_env e' e :=
  unfold change_world; destruct (decide (e' = e)) as [->|];
  [rewrite !bool_decide_eq_true_2 by done; unfold replay_change; cbn [change change_path]; by rewrite !native_key
  |by rewrite !(bool_decide_eq_false_2 (e' = e))].

Lemma tracks_change e t c w0 w :
  tracks t w0 w -> named (Path := Path) c -> (forall q, undo_change c (replay_change c (w e)) q = w e q) ->
  moves_away c -> tracks (apply_change e t c) w0 (change_world e c w).
Proof using native_inj.
  intros Ht [[p Hp] Hd] Hu Hm. destruct c as [cp ch]. cbn [change_path change] in *. subst cp.
  pose proof (Hu p) as Hup. unfold undo_change, replay_change in Hup. cbn [change_path change] in Hup.
  destruct ch as [x o|x|[dst|] old o new].
  - rewrite bool_decide_eq_true_2 in Hup by done.
    eapply tracks_ext; [|apply (tracks_one e p _ _ _ _ o (Some x) Ht Hup (apply_add_texts _ _ _ _))].
    intros e' q. by_env e' e.
  - rewrite bool_decide_eq_true_2 in Hup by done.
    eapply tracks_ext; [|apply (tracks_one e p _ _ _ _ (Some x) None Ht Hup (apply_delete_texts _ _ _))].
    intros e' q. by_env e' e.
  - destruct Hd as [d <-]. assert (p <> d) as Hpd by (intros ->; by apply Hm).
    pose proof (Hu d) as Hud. unfold undo_change, replay_change in Hud. cbn [change_path change] in Hud.
    rewrite !native_key in Hup, Hud. rewrite (bool_decide_eq_false_2 (p = d)) in Hup by done.
    rewrite !bool_decide_eq_true_2 in Hup, Hud by done.
    eapply tracks_ext; [|apply (tracks_move e p d _ _ _ _ (Some old) o (Some new) Ht Hpd Hup Hud)].
    + intros e' q. by_env e' e.
    + intros k. apply apply_move_texts. by rewrite key_eq; naive_solver.
  - rewrite bool_decide_eq_true_2 in Hup by done.
    eapply tracks_ext; [|apply (tracks_one e p _ _ _ _ (Some old) (Some new) Ht Hup (apply_update_texts t (key e p) old o new))].
    intros e' q. by_env e' e.
Qed.

(** ** A turn: patches applied one after the other, in any of the environments *)

Inductive Turn (w0 : world) : TurnDiffTracker -> world -> Prop :=
| turn_start roots : Turn w0 (with_environment_display_roots roots) w0
| turn_patch t w e text cwd out err fs fs' out' err' r d :
    Turn w0 t w ->
    (forall q, w e q = view fs q) ->
    apply_patch writeln text cwd out err fs = (fs', out', err', r) ->
    d = match r with Ok d => d | Err f => delta f end ->
    exact d = true -> Forall moves_away (changes d) ->
    Turn w0 (track_delta t e d) (fun e' => if e' == e then view fs' else w e').

Lemma tracks_changes e cs t w0 w :
  tracks t w0 w -> consistent cs (w e) -> Forall moves_away cs ->
  tracks (foldl (apply_change e) t cs) w0 (fun e' => if e' == e then replay cs (w e) else w e').
Proof using native_inj.
  intros Ht Hc Hm. revert t w Ht Hc. induction Hm as [|c cs Hm _ IH]; intros t w Ht Hc; cbn [foldl].
  - eapply tracks_ext; [|exact Ht]. intros e' q. cbn. case_bool_decide; by subst.
  - destruct Hc as (Hn & Hu & Hc). pose proof (tracks_change e t c w0 w Ht Hn Hu Hm) as Ht'.
    assert (change_world e c w e = replay_change c (w e)) as Ew
      by (unfold change_world; by rewrite bool_decide_eq_true_2).
    eapply tracks_ext; [|apply (IH _ _ Ht'); by rewrite Ew].
    intros e' q. rewrite Ew. unfold change_world. by case_bool_decide.
Qed.

Lemma has_log_changes e cs t : has_log t -> has_log (foldl (apply_change e) t cs).
Proof. revert t. induction cs; intros t Ht; cbn [foldl]; [done|]. apply IHcs. by apply has_log_apply_change. Qed.

Lemma consistent_ext cs (v v' : Path -> option str) : (forall q, v q = v' q) -> consistent cs v -> consistent cs v'.
Proof.
  revert v v'. induction cs as [|c cs IH]; intros v v' Hv; [done|]. cbn. intros (Hn & Hu & Hc). split_and!; [done| |].
  - intros q. rewrite <- Hv, <- Hu. apply undo_change_ext. intros q'. symmetry. by apply replay_change_ext.
  - eapply IH; [|exact Hc]. intros q. by apply replay_change_ext.
Qed.

Lemma replay_ext cs (v v' : Path -> option str) q : (forall q, v q = v' q) -> replay cs v q = replay cs v' q.
Proof.
  revert v v' q. induction cs as [|c cs IH]; intros v v' q Hv; [apply Hv|].
  apply IH. intros q'. by apply replay_change_ext.
Qed.

Definition rendered t : Prop :=
  get_unified_diff t = some_nonempty_str (foldl push_diff [] (render_entry t <$> entries t)).

Lemma entries_nil t : t.(baseline_by_path) = ∅ -> t.(current_by_path) = ∅ -> entries t = [].
Proof.
  intros Hb Hc. destruct (entries t) as [|[l r] es] eqn:E; [done|]. exfalso.
  assert ((l, r) ∈ entries t) as (Hl & _)%elem_of_entries by (rewrite E; by left).
  unfold untracked in Hl. by rewrite Hb, Hc, !lookup_empty in Hl.
Qed.

(** Through a whole turn the tracker knows what changed, and its diff is up to date. *)
Lemma turn_tracked w0 t w : Turn w0 t w -> tracks t w0 w /\ has_log t /\ rendered t.
Proof using native_inj hash_laws.
  induction 1 as [roots|t w e text cwd out err fs fs' out' err' r d _ (Ht & Hl & _) Hfs Hrun Hd Hx Hm].
  - split_and!.
    + intros e q. reflexivity.
    + exists []. split_and!; done.
    + unfold rendered. by rewrite entries_nil.
  - assert (forall p q : Path, native_path p = native_path q -> p = q) as Hni
      by (intros p q E; apply native_inj; by rewrite E).
    destruct (apply_patch_consistent Hni writeln _ _ _ _ _ _ _ _ _ _ Hrun Hd Hx) as [Hv Hc].
    assert (consistent (changes d) (w e)) as Hcw by (eapply consistent_ext; [|exact Hc]; intros q; by rewrite Hfs).
    pose proof (tracks_changes e (changes d) t w0 w Ht Hcw Hm) as Ht'.
    destruct (has_log_changes e (changes d) t Hl) as [log Hlog].
    destruct (refresh_spec _ log Hlog) as [Hlog' Hr]. destruct Hl as [log0 (Hvalid & _)].
    unfold track_delta. rewrite Hvalid, Hx. cbn [negb]. split_and!; [|by exists log|exact Hr].
    eapply tracks_ext; [|exact Ht']. intros e' q. cbn. case_bool_decide; [|done].
    rewrite (proj1 (Hv q)). apply replay_ext. intros q'. by rewrite Hfs.
Qed.

Lemma tracks_recorded t w0 w e q :
  tracks t w0 w -> untracked t (key e q) = false -> base t (key e q) = w0 e q /\ cur t (key e q) = w e q.
Proof.
  intros Ht Hu. specialize (Ht e q). apply untracked_false in Hu. unfold recorded in Ht.
  destruct (base t (key e q)), (cur t (key e q)); try done. by destruct Hu as [[]|[]].
Qed.

Lemma tracks_unrecorded t w0 w e q : tracks t w0 w -> untracked t (key e q) = true -> w0 e q = w e q.
Proof. intros Ht [Hb Hc]%untracked_true. specialize (Ht e q). by rewrite Hb, Hc in Ht. Qed.

End turn.

(** A renamed file keeps its entry out of the diff when its text is unchanged. *)
Lemma entry_silent `{DiffLib} `{HashOrder} t e : render_entry t e = None <-> base t e.1 = cur t e.2.
Proof. apply render_diff_None. Qed.

(** After an inexact delta the diff stays empty. *)
Theorem inexact_delta_silences `{DiffLib} `{HashOrder} t e d later :
  exact d = false -> t.(valid) = true ->
  get_unified_diff (foldl (fun t x => track_delta t x.1 x.2) (track_delta t e d) later) = None.
Proof.
  intros Hd Hv. unfold track_delta at 2. rewrite Hv, Hd. cbn [negb].
  assert (forall t', t'.(valid) = false -> t'.(unified_diff) = None ->
    get_unified_diff (foldl (fun t x => track_delta t x.1 x.2) t' later) = None) as Hl; [|by apply Hl].
  induction later as [|x later IH]; intros t' Hv' Hn; [done|]. cbn [foldl]. unfold track_delta at 2.
  rewrite Hv'. cbn [negb]. by apply IH.
Qed.

(** A patch that moves a file onto itself removes it ([move_onto_itself_deletes]), and
    the change it reports says so; the tracker records the new text as present. *)
Theorem self_move_tracked_as_present {Path} `{PathUriOps Path} e t (p : Path) old o new v :
  let c := {| change_path := native_path p; change := Updated (Some (native_path p)) old o new |} in
  cur (apply_change e t c) (key e p) = Some new /\ replay_change c v p = None.
Proof.
  split; [|unfold replay_change; cbn [change change_path]; by rewrite bool_decide_eq_true_2].
  unfold apply_change. cbn [change change_path fmap option_fmap option_map].
  change (tracked_path e (native_path p)) with (key e p). unfold apply_update.
  set (t2 := match o with Some _ => _ | None => _ end). case_match; cbn [negb];
    change (cur (insert_current (remove_current t2 (key e p)) (key e p) new) (key e p) = Some new);
    rewrite cur_insert_current; by rewrite bool_decide_eq_true_2.
Qed.

(** * Witnesses *)

Import MemoryFs.

#[global] Instance plain_diff : DiffLib := {|
  sha1_hex _ := lit "abc";
  unified_text old new old_header new_header := lit "--- " ++ old_header ++ lit " +++ " ++ new_header ++ [NL]
|}.

(** A directory [/r] with room for two files. *)
Inductive TwoPaths : Set := C_TXT | D_TXT.

#[global] Instance TwoPaths_eq_dec : EqDecision TwoPaths.
Proof. solve_decision. Defined.
#[global] Instance TwoPaths_countable : Countable TwoPaths.
Proof.
  refine (inj_countable' (fun p => match p with C_TXT => true | D_TXT => false end)
            (fun b : bool => if b then C_TXT else D_TXT) _). by intros [].
Defined.

#[global] Instance two_paths_ops : PathUriOps TwoPaths := {|
  path_join _ p := if p == lit "c.txt" then Ok C_TXT
                   else if p == lit "d.txt" then Ok D_TXT else Err (lit "no such path");
  FileSystem.path_parent _ := None;
  native_path p := match p with C_TXT => lit "/r/c.txt" | D_TXT => lit "/r/d.txt" end
|}.

Lemma two_paths_inj (p q : TwoPaths) : components (native_path p) = components (native_path q) -> p = q.
Proof. destruct p, q; try done; intros E; vm_compute in E; discriminate E. Qed.

Definition c_fs : gmap TwoPaths str := {[ C_TXT := w_text ["keep"; ""] ]}.

Definition c_patch : str := w_text
  ["*** Begin Patch"; "*** Update File: c.txt"; "*** Move to: d.txt"; "@@"; "-keep"; "+kept"; "*** End Patch"].

Definition c_run := apply_patch w_writeln c_patch C_TXT [] [] c_fs.

Definition w_env : str := lit "local".

