(* ===== verification/AgentRegistry.v ===== *)
(** [protocol/src/agent_path.rs], [core/src/agent/registry.rs] and the registry's
    users in [core/src/agent/control.rs] and [control/spawn.rs]: the sub-agents of a
    session.

    The registry is shared.  A spawn is a [Task] that takes one step per lock or
    atomic operation ([task_step]); closing an agent is another.  What a step
    takes from outside is an [Oracle]: the random number behind a nickname, whether
    [compare_exchange_weak] fails spuriously, and the thread the manager creates.
    A [ThreadId] is its text; [usize] counts wrap at [2^64]. *)

From stdpp Require Import base list option numbers strings pretty gmap sets relations.
From Stdlib Require Import NArith ZArith Lia.
From S2P Require Import Prelude RustStr HashOrder.
Local Open Scope rust_scope.

Abbreviation ThreadId := str.
Abbreviation AgentPath := str.

(** * Agent paths *)

Definition ROOT : AgentPath := lit "/root".
Definition MORPHEUS : AgentPath := lit "/morpheus".
Definition ROOT_SEGMENT : str := lit "root".
Definition PATH_SEP : char := 47%N.

Definition is_root (p : AgentPath) : bool := p == ROOT.

(** [rsplit('/').next()] is the last segment. *)
Definition agent_name (p : AgentPath) : str :=
  if is_root p then ROOT_SEGMENT
  else match last (split_on PATH_SEP p) with
       | Some segment => if segment == [] then ROOT_SEGMENT else segment
       | None => ROOT_SEGMENT
       end.

Definition agent_name_char (c : char) : bool :=
  in_range 97 122 c || is_ascii_digit c || (c == 95%N).

Definition validate_agent_name (agent_name : str) : result unit str :=
  if agent_name == [] then Err (lit "agent_name must not be empty")
  else if agent_name == ROOT_SEGMENT then Err (lit "agent_name `root` is reserved")
  else if (agent_name == lit ".") || (agent_name == lit "..")
  then Err (lit "agent_name `" ++ agent_name ++ lit "` is reserved")
  else if contains_char PATH_SEP agent_name then Err (lit "agent_name must not contain `/`")
  else if negb (forallb agent_name_char agent_name)
  then Err (lit "agent_name must use only lowercase letters, digits, and underscores")
  else Ok tt.

Fixpoint validate_segments (segments : list str) : result unit str :=
  match segments with
  | [] => Ok tt
  | segment :: segments => let? _ := validate_agent_name segment in validate_segments segments
  end.

Definition validate_absolute_path (path : str) : result unit str :=
  if path == MORPHEUS then Ok tt
  else match strip_prefix [PATH_SEP] path with
  | None => Err (lit "absolute agent paths must start with `/root` or be `/morpheus`")
  | Some stripped =>
      match split_on PATH_SEP stripped with
      | [] => Err (lit "absolute agent path must not be empty")
      | root :: segments =>
          if root != ROOT_SEGMENT
          then Err (lit "absolute agent paths must start with `/root` or be `/morpheus`")
          else if ends_with [PATH_SEP] stripped then Err (lit "absolute agent path must not end with `/`")
          else validate_segments segments
      end
  end.

Definition validate_relative_reference (reference : str) : result unit str :=
  if ends_with [PATH_SEP] reference then Err (lit "relative agent path must not end with `/`")
  else validate_segments (split_on PATH_SEP reference).

Definition from_string (path : str) : result AgentPath str :=
  let? _ := validate_absolute_path path in Ok path.

Definition agent_join (self : AgentPath) (agent_name : str) : result AgentPath str :=
  let? _ := validate_agent_name agent_name in from_string (self ++ lit "/" ++ agent_name).

Definition resolve (self : AgentPath) (reference : str) : result AgentPath str :=
  if reference == [] then Err (lit "agent path must not be empty")
  else if reference == ROOT then Ok ROOT
  else if starts_with [PATH_SEP] reference then from_string reference
  else let? _ := validate_relative_reference reference in from_string (self ++ lit "/" ++ reference).

(** * The registry *)

Record AgentMetadata : Type := {
  agent_id : option ThreadId;
  agent_path : option AgentPath;
  agent_nickname : option str;
  agent_role : option str;
  last_task_message : option str
}.

Definition default_metadata : AgentMetadata := {|
  agent_id := None; agent_path := None; agent_nickname := None; agent_role := None; last_task_message := None |}.

(** [AgentRegistry] with the [ActiveAgents] behind its lock. *)
Record AgentRegistry : Type := {
  agent_tree : gmap str AgentMetadata;
  used_agent_nicknames : gset str;
  nickname_reset_count : N;
  total_count : Z
}.

Definition registry_default : AgentRegistry := {|
  agent_tree := ∅; used_agent_nicknames := ∅; nickname_reset_count := 0; total_count := 0 |}.

Definition set_tree (r : AgentRegistry) tree : AgentRegistry := {|
  agent_tree := tree; used_agent_nicknames := r.(used_agent_nicknames);
  nickname_reset_count := r.(nickname_reset_count); total_count := r.(total_count) |}.
Definition set_nicknames (r : AgentRegistry) used resets : AgentRegistry := {|
  agent_tree := r.(agent_tree); used_agent_nicknames := used;
  nickname_reset_count := resets; total_count := r.(total_count) |}.
Definition set_total (r : AgentRegistry) n : AgentRegistry := {|
  agent_tree := r.(agent_tree); used_agent_nicknames := r.(used_agent_nicknames);
  nickname_reset_count := r.(nickname_reset_count); total_count := n |}.

Definition USIZE : Z := 2 ^ 64.

(** [fetch_add(1)] and [fetch_sub(1)]. *)
Definition increment (r : AgentRegistry) : AgentRegistry := set_total r ((r.(total_count) + 1) mod USIZE).
Definition decrement (r : AgentRegistry) : AgentRegistry := set_total r ((r.(total_count) - 1) mod USIZE).

Definition ordinal_suffix (value : N) : str :=
  let h := (value mod 100)%N in
  if in_range 11 13 h then lit "th"
  else match (value mod 10)%N with
       | 1%N => lit "st"
       | 2%N => lit "nd"
       | 3%N => lit "rd"
       | _ => lit "th"
       end.

Definition format_agent_nickname (name : str) (nickname_reset_count : N) : str :=
  match nickname_reset_count with
  | 0%N => name
  | reset_count =>
      let value := (reset_count + 1)%N in name ++ lit " the " ++ show_N value ++ ordinal_suffix value
  end.

Inductive MotygaErr : Type :=
| AgentLimitReached (max_threads : Z)
| UnsupportedOperation (message : str)
| ThreadError (message : str).

(** [choose(&mut rand::rng())]: an element of a non-empty slice. *)
Definition choose (random : nat) (l : list str) : option str := l !! (random mod length l).

Definition has_id (m : AgentMetadata) (thread_id : ThreadId) : bool := m.(agent_id) == Some thread_id.
Definition at_root (m : AgentMetadata) : bool := is_some_and is_root m.(agent_path).

Section registry.
Context `{HashOrder}.
Implicit Types r : AgentRegistry.

Definition register_root_thread r (thread_id : ThreadId) : AgentRegistry :=
  match r.(agent_tree) !! ROOT with
  | Some _ => r
  | None => set_tree r (<[ROOT := {| agent_id := Some thread_id; agent_path := Some ROOT; agent_nickname := None;
                                     agent_role := None; last_task_message := None |}]> r.(agent_tree))
  end.

Definition agent_id_for_path r (p : AgentPath) : option ThreadId := m ← r.(agent_tree) !! p; m.(agent_id).

(** [iter().find_map(...)]: the first key, in the order of iteration. *)
Fixpoint find_key (thread_id : ThreadId) (l : list (str * AgentMetadata)) : option str :=
  match l with
  | [] => None
  | (key, metadata) :: l => if has_id metadata thread_id then Some key else find_key thread_id l
  end.

Definition agent_metadata_for_thread r (thread_id : ThreadId) : option AgentMetadata :=
  key ← find_key thread_id (hash_iter r.(agent_tree)); r.(agent_tree) !! key.

Definition live (m : AgentMetadata) : bool := is_some m.(agent_id) && negb (at_root m).

Definition live_agents r : list AgentMetadata := retain live (hash_values r.(agent_tree)).

(** The part of [release_spawned_thread] under the lock. *)
Definition remove_thread r (thread_id : ThreadId) : AgentRegistry * bool :=
  match find_key thread_id (hash_iter r.(agent_tree)) with
  | None => (r, false)
  | Some key =>
      match r.(agent_tree) !! key with
      | None => (r, false)
      | Some metadata => (set_tree r (delete key r.(agent_tree)), negb (at_root metadata))
      end
  end.

Definition set_last_task_message r (thread_id : ThreadId) (message : option str) : AgentRegistry :=
  match find_key thread_id (hash_iter r.(agent_tree)) with
  | None => r
  | Some key =>
      set_tree r (alter (fun m => {| agent_id := m.(agent_id); agent_path := m.(agent_path);
                                     agent_nickname := m.(agent_nickname); agent_role := m.(agent_role);
                                     last_task_message := message |}) key r.(agent_tree))
  end.

Definition update_last_task_message r (thread_id : ThreadId) (message : str) : AgentRegistry :=
  set_last_task_message r thread_id (Some message).
Definition clear_last_task_message r (thread_id : ThreadId) : AgentRegistry :=
  set_last_task_message r thread_id None.

Definition thread_key (thread_id : ThreadId) : str := lit "thread:" ++ thread_id.

Definition register_spawned_thread r (m : AgentMetadata) : AgentRegistry :=
  match m.(agent_id) with
  | None => r
  | Some thread_id =>
      let key := default (thread_key thread_id) m.(agent_path) in
      let used := match m.(agent_nickname) with
                  | Some n => {[n]} ∪ r.(used_agent_nicknames)
                  | None => r.(used_agent_nicknames)
                  end in
      set_tree (set_nicknames r used r.(nickname_reset_count)) (<[key := m]> r.(agent_tree))
  end.

Definition available_names r (names : list str) : list str :=
  retain (fun n => negb (bool_decide (n ∈ r.(used_agent_nicknames))))
    ((fun n => format_agent_nickname n r.(nickname_reset_count)) <$> names).

Definition use_nickname r (n : str) : AgentRegistry * option str :=
  (set_nicknames r ({[n]} ∪ r.(used_agent_nicknames)) r.(nickname_reset_count), Some n).

Definition reserve_agent_nickname (random : nat) r (names : list str) (preferred : option str)
  : AgentRegistry * option str :=
  match preferred with
  | Some preferred => use_nickname r preferred
  | None =>
      match names with
      | [] => (r, None)
      | _ =>
          match choose random (available_names r names) with
          | Some name => use_nickname r name
          | None =>
              let r := set_nicknames r ∅ (r.(nickname_reset_count) + 1)%N in
              match choose random names with
              | Some name => use_nickname r (format_agent_nickname name r.(nickname_reset_count))
              | None => (r, None)
              end
          end
      end
  end.

Definition placeholder (p : AgentPath) : AgentMetadata := {|
  agent_id := None; agent_path := Some p; agent_nickname := None; agent_role := None; last_task_message := None |}.

Definition reserve_agent_path r (p : AgentPath) : result AgentRegistry MotygaErr :=
  match r.(agent_tree) !! p with
  | Some _ => Err (UnsupportedOperation (lit "agent path `" ++ p ++ lit "` already exists"))
  | None => Ok (set_tree r (<[p := placeholder p]> r.(agent_tree)))
  end.

Definition release_reserved_agent_path r (p : AgentPath) : AgentRegistry :=
  match r.(agent_tree) !! p with
  | Some metadata =>
      match metadata.(agent_id) with
      | None => set_tree r (delete p r.(agent_tree))
      | Some _ => r
      end
  | None => r
  end.
End registry.

(** * Depth *)

Inductive InternalSessionSource : Set := InternalMemoryConsolidation.

Inductive SubAgentSource : Type :=
| Review
| Compact
| ThreadSpawn (parent_thread_id : ThreadId) (depth : Z) (agent_path : option AgentPath)
    (agent_nickname agent_role : option str)
| MemoryConsolidation
| OtherSubAgent (name : str).

Inductive SessionSource : Type :=
| Cli | VSCode | Exec | Mcp
| Custom (name : str)
| Internal (source : InternalSessionSource)
| SubAgent (source : SubAgentSource)
| Unknown.

Definition session_depth (session_source : SessionSource) : Z :=
  match session_source with
  | SubAgent (ThreadSpawn _ depth _ _ _) => depth
  | SubAgent _ => 0
  | _ => 0
  end.

Definition I32_MAX : Z := 2 ^ 31 - 1.

(** [saturating_add(1)] on [i32]. *)
Definition next_thread_spawn_depth (session_source : SessionSource) : Z :=
  Z.min (session_depth session_source + 1) I32_MAX.

Definition exceeds_thread_spawn_depth_limit (depth max_depth : Z) : bool := (max_depth <? depth)%Z.

(** * Spawning and closing *)

Record SpawnReservation : Type := {
  reserved_agent_nickname : option str;
  reserved_agent_path : option AgentPath
}.

(** The arguments of [prepare_thread_spawn]; [names] are the candidates of the role. *)
Record ThreadSpawnRequest : Type := {
  ts_parent : ThreadId;
  ts_depth : Z;
  ts_path : option AgentPath;
  ts_role : option str;
  ts_names : list str;
  ts_preferred : option str
}.

(** [max_threads] is the limit of the reservation; only a [ThreadSpawn] source is
    prepared, other sources spawn with default metadata. *)
Record SpawnRequest : Type := {
  max_threads : option Z;
  thread_spawn : option ThreadSpawnRequest
}.

Inductive Outcome : Type :=
| Spawned (m : AgentMetadata)
| SpawnFailed (e : MotygaErr)
| Closed.

Inductive Task : Type :=
| ReserveSlot (req : SpawnRequest)
| CasLoop (req : SpawnRequest) (max current : Z)
| RegisterRoot (ts : ThreadSpawnRequest) (res : SpawnReservation)
| ReservePath (ts : ThreadSpawnRequest) (res : SpawnReservation)
| ReserveNickname (ts : ThreadSpawnRequest) (res : SpawnReservation)
| CreateThread (res : SpawnReservation) (m : AgentMetadata)
| DropReservation (res : SpawnReservation) (e : MotygaErr)
| Release (thread_id : ThreadId)
| ReturnSlot (o : Outcome)
| Finished (o : Outcome).

Record Oracle : Type := {
  random : nat;
  spurious : bool;
  created : result ThreadId MotygaErr
}.

Definition reserved (req : SpawnRequest) : Task :=
  let res := {| reserved_agent_nickname := None; reserved_agent_path := None |} in
  match req.(thread_spawn) with
  | Some ts => RegisterRoot ts res
  | None => CreateThread res default_metadata
  end.

Section steps.
Context `{HashOrder}.
Implicit Types r : AgentRegistry.

(** [reserve_spawn_slot] up to its first access of the counter. *)
Definition reserve_spawn_slot r (req : SpawnRequest) : AgentRegistry * Task :=
  match req.(max_threads) with
  | Some max => (r, CasLoop req max r.(total_count))
  | None => (increment r, reserved req)
  end.

(** One turn of the loop of [try_increment_spawned]. *)
Definition try_increment_spawned (o : Oracle) r (req : SpawnRequest) (max current : Z) : AgentRegistry * Task :=
  if (max <=? current)%Z then (r, Finished (SpawnFailed (AgentLimitReached max)))
  else if (current == r.(total_count)) && negb o.(spurious)
  then (set_total r (current + 1), reserved req)
  else (r, CasLoop req max r.(total_count)).

(** [prepare_thread_spawn], lock by lock. *)
Definition prepare_root r (ts : ThreadSpawnRequest) (res : SpawnReservation) : AgentRegistry * Task :=
  (if (ts.(ts_depth) =? 1)%Z then register_root_thread r ts.(ts_parent) else r, ReservePath ts res).

Definition prepare_path r (ts : ThreadSpawnRequest) (res : SpawnReservation) : AgentRegistry * Task :=
  match ts.(ts_path) with
  | None => (r, ReserveNickname ts res)
  | Some p =>
      match reserve_agent_path r p with
      | Ok r => (r, ReserveNickname ts {| reserved_agent_nickname := res.(reserved_agent_nickname);
                                          reserved_agent_path := Some p |})
      | Err e => (r, DropReservation res e)
      end
  end.

Definition prepare_nickname (o : Oracle) r (ts : ThreadSpawnRequest) (res : SpawnReservation)
  : AgentRegistry * Task :=
  match reserve_agent_nickname o.(random) r ts.(ts_names) ts.(ts_preferred) with
  | (r, None) => (r, DropReservation res (UnsupportedOperation (lit "no available agent nicknames")))
  | (r, Some n) =>
      (r, CreateThread {| reserved_agent_nickname := Some n; reserved_agent_path := res.(reserved_agent_path) |}
            {| agent_id := None; agent_path := ts.(ts_path); agent_nickname := Some n;
               agent_role := ts.(ts_role); last_task_message := None |})
  end.

(** The thread is created outside the registry; then [commit]. *)
Definition create_and_commit (o : Oracle) r (res : SpawnReservation) (m : AgentMetadata) : AgentRegistry * Task :=
  match o.(created) with
  | Err e => (r, DropReservation res e)
  | Ok thread_id =>
      let m := {| agent_id := Some thread_id; agent_path := m.(agent_path); agent_nickname := m.(agent_nickname);
                  agent_role := m.(agent_role); last_task_message := m.(last_task_message) |} in
      (register_spawned_thread r m, Finished (Spawned m))
  end.

(** [Drop for SpawnReservation] of an active reservation, up to [fetch_sub]. *)
Definition drop_reservation r (res : SpawnReservation) (e : MotygaErr) : AgentRegistry * Task :=
  (match res.(reserved_agent_path) with Some p => release_reserved_agent_path r p | None => r end,
   ReturnSlot (SpawnFailed e)).

Definition release_spawned_thread r (thread_id : ThreadId) : AgentRegistry * Task :=
  let '(r, removed_counted_agent) := remove_thread r thread_id in
  (r, if removed_counted_agent then ReturnSlot Closed else Finished Closed).

Definition task_step (o : Oracle) r (t : Task) : AgentRegistry * Task :=
  match t with
  | ReserveSlot req => reserve_spawn_slot r req
  | CasLoop req max current => try_increment_spawned o r req max current
  | RegisterRoot ts res => prepare_root r ts res
  | ReservePath ts res => prepare_path r ts res
  | ReserveNickname ts res => prepare_nickname o r ts res
  | CreateThread res m => create_and_commit o r res m
  | DropReservation res e => drop_reservation r res e
  | Release thread_id => release_spawned_thread r thread_id
  | ReturnSlot out => (decrement r, Finished out)
  | Finished out => (r, Finished out)
  end.

(** ** All tasks together *)

Record System : Type := { registry : AgentRegistry; tasks : list Task }.

(** Paths given to a spawn are agent paths other than the root's, as [agent_join] makes
    them; a limit is a [usize]. *)
Definition path_ok (o : option AgentPath) : Prop :=
  match o with Some p => validate_absolute_path p = Ok tt /\ p <> ROOT | None => True end.
Definition max_ok (o : option Z) : Prop := match o with Some m => (0 <= m < USIZE)%Z | None => True end.

(** [limit] bounds the limits given to spawns, where all of them are limited. *)
Definition limited (limit : option Z) (req : SpawnRequest) : Prop :=
  match limit with Some b => exists m, req.(max_threads) = Some m /\ (m <= b)%Z | None => True end.

Definition request_ok (limit : option Z) (req : SpawnRequest) : Prop :=
  max_ok req.(max_threads) /\ limited limit req /\ match req.(thread_spawn) with Some ts => path_ok ts.(ts_path) | None => True end.

(** A created thread has a new id. *)
Definition fresh_thread (o : Oracle) r : Prop :=
  match o.(created) with
  | Ok thread_id => forall k m, r.(agent_tree) !! k = Some m -> m.(agent_id) <> Some thread_id
  | Err _ => True
  end.

Inductive Step (limit : option Z) : System -> System -> Prop :=
| step_task s i t o : s.(tasks) !! i = Some t -> fresh_thread o s.(registry) ->
    Step limit s {| registry := (task_step o s.(registry) t).1; tasks := <[i := (task_step o s.(registry) t).2]> s.(tasks) |}
| step_spawn s req : request_ok limit req -> Step limit s {| registry := s.(registry); tasks := s.(tasks) ++ [ReserveSlot req] |}
| step_close s thread_id : Step limit s {| registry := s.(registry); tasks := s.(tasks) ++ [Release thread_id] |}
| step_root s thread_id : Step limit s {| registry := register_root_thread s.(registry) thread_id; tasks := s.(tasks) |}
| step_message s thread_id message :
    Step limit s {| registry := set_last_task_message s.(registry) thread_id message; tasks := s.(tasks) |}.

Definition init : System := {| registry := registry_default; tasks := [] |}.

Definition reachable (limit : option Z) (s : System) : Prop := rtc (Step limit) init s.
End steps.

(** * The invariant *)

(** Tasks that hold a slot, and the path a task has reserved. *)
Definition held (t : Task) : nat :=
  match t with
  | RegisterRoot _ _ | ReservePath _ _ | ReserveNickname _ _ | CreateThread _ _ | DropReservation _ _ | ReturnSlot _ => 1
  | _ => 0
  end.

Definition owns (t : Task) : option AgentPath :=
  match t with
  | RegisterRoot _ res | ReservePath _ res | ReserveNickname _ res | CreateThread res _ | DropReservation res _ =>
      res.(reserved_agent_path)
  | _ => None
  end.

Definition task_ok (limit : option Z) (t : Task) : Prop :=
  match t with
  | ReserveSlot req => request_ok limit req
  | CasLoop req max _ => request_ok limit req /\ req.(max_threads) = Some max
  | RegisterRoot ts res | ReservePath ts res => path_ok ts.(ts_path) /\ res.(reserved_agent_path) = None
  | ReserveNickname ts res => path_ok ts.(ts_path) /\ res.(reserved_agent_path) = ts.(ts_path)
  | CreateThread res m => path_ok m.(agent_path) /\ res.(reserved_agent_path) = m.(agent_path)
  | _ => True
  end.

Definition tree_count (tree : gmap str AgentMetadata) : nat := size (filter (fun e => live e.2 = true) tree).

(** Registered agents and slots in flight make up the count. *)
Definition balanced (limit : option Z) (r : AgentRegistry) (n : nat) : Prop :=
  (r.(total_count) = Z.of_nat (tree_count r.(agent_tree) + n) mod USIZE)%Z
  /\ match limit with Some b => (Z.of_nat (tree_count r.(agent_tree) + n) <= b)%Z | None => True end.

(** [ps] are the paths that are reserved and not yet registered. *)
Definition reserved_paths (r : AgentRegistry) (ps : list AgentPath) : Prop :=
  NoDup ps /\ forall p, p ∈ ps <-> exists m, r.(agent_tree) !! p = Some m /\ m.(agent_id) = None.

Definition keys_ok (r : AgentRegistry) : Prop :=
  forall k m, r.(agent_tree) !! k = Some m ->
    match m.(agent_path) with
    | Some p => k = p /\ head p = Some PATH_SEP
    | None => exists thread_id, m.(agent_id) = Some thread_id /\ k = thread_key thread_id
    end.

Record inv (limit : option Z) (s : System) : Prop := {
  inv_balanced : balanced limit s.(registry) (sum_list_with held s.(tasks));
  inv_paths : reserved_paths s.(registry) (omap owns s.(tasks));
  inv_keys : keys_ok s.(registry);
  inv_tasks : Forall (task_ok limit) s.(tasks)
}.

(** ** Counting *)

Definition live_nat (o : option AgentMetadata) : nat :=
  match o with Some m => if live m then 1 else 0 | None => 0 end.

Lemma tree_count_vacant tree k m : tree !! k = None -> tree_count (<[k := m]> tree) = tree_count tree + live_nat (Some m).
Proof.
  intros Hk. unfold tree_count. cbn [live_nat]. destruct (live m) eqn:Hl.
  - rewrite map_filter_insert_True by done. rewrite map_size_insert_None; [lia|].
    apply map_lookup_filter_None. auto.
  - rewrite map_filter_insert_not'; [lia|by cbn; rewrite Hl|]. intros y Hy. congruence.
Qed.

Lemma tree_count_delete tree k : tree_count (delete k tree) + live_nat (tree !! k) = tree_count tree.
Proof.
  destruct (tree !! k) as [m|] eqn:E; [|rewrite delete_id by done; cbn; lia].
  rewrite <- (insert_delete_id tree k m E) at 2. rewrite tree_count_vacant; [done|]. apply lookup_delete_eq.
Qed.

Lemma tree_count_insert tree k m :
  tree_count (<[k := m]> tree) + live_nat (tree !! k) = tree_count tree + live_nat (Some m).
Proof.
  rewrite <- insert_delete_eq, tree_count_vacant by apply lookup_delete_eq.
  rewrite <- (tree_count_delete tree k). lia.
Qed.

Lemma length_retain_perm {A} (p : A -> bool) l l' : Permutation l l' -> length (retain p l) = length (retain p l').
Proof. induction 1 as [|x l l' _ IH|x y l|? ? ? _ IH1 _ IH2]; cbn; repeat case_match; cbn; congruence. Qed.

Lemma live_agents_count `{HashOrderLaws} r : length (live_agents r) = tree_count r.(agent_tree).
Proof.
  unfold live_agents, hash_values. rewrite (length_retain_perm _ _ (snd <$> map_to_list r.(agent_tree)))
    by (by apply fmap_Permutation, hash_iter_perm).
  generalize (agent_tree r). clear r. intros tree.
  induction tree as [|k m tree Hk IH] using map_ind; [by rewrite map_to_list_empty|].
  rewrite (length_retain_perm _ _ (snd <$> ((k, m) :: map_to_list tree))) by (by apply fmap_Permutation, map_to_list_insert).
  rewrite tree_count_vacant, <- IH by done. cbn. destruct (live m); cbn; lia.
Qed.

(** ** Steps of one task

    [ps] are the paths the other tasks have reserved, [n] the slots they hold. *)

Lemma reserved_paths_same r r' ps :
  (forall p, (exists m, r'.(agent_tree) !! p = Some m /\ m.(agent_id) = None)
             <-> exists m, r.(agent_tree) !! p = Some m /\ m.(agent_id) = None) ->
  reserved_paths r ps -> reserved_paths r' ps.
Proof. intros He [Hn Hp]. split; [done|]. intros p. by rewrite He. Qed.

Lemma reserved_paths_perm r ps ps' : Permutation ps ps' -> reserved_paths r ps -> reserved_paths r ps'.
Proof. intros Hp [Hn He]. split; [by rewrite <- Hp|]. intros p. by rewrite <- Hp. Qed.

(** An entry of a thread takes the place of a vacant one or of another thread's. *)
Lemma reserved_paths_insert r k m id ps :
  m.(agent_id) = Some id -> (forall m', r.(agent_tree) !! k = Some m' -> m'.(agent_id) <> None) ->
  reserved_paths r ps -> reserved_paths (set_tree r (<[k := m]> r.(agent_tree))) ps.
Proof.
  intros Hm Hk. apply reserved_paths_same. intros p. cbn. destruct (decide (p = k)) as [->|].
  - rewrite lookup_insert_eq. split; [intros (? & [= <-] & ?); congruence|].
    intros (m' & Hm' & Hid). by destruct (Hk m' Hm').
  - by rewrite lookup_insert_ne.
Qed.

Lemma reserved_paths_reserve r p ps :
  r.(agent_tree) !! p = None -> reserved_paths r ps ->
  reserved_paths (set_tree r (<[p := placeholder p]> r.(agent_tree))) (p :: ps).
Proof.
  intros Hp [Hn He]. split.
  - constructor; [|done]. rewrite He. intros (m & Hm & _). congruence.
  - intros q. rewrite elem_of_cons, He. cbn. destruct (decide (q = p)) as [->|].
    + rewrite lookup_insert_eq. split; [eauto|auto].
    + rewrite lookup_insert_ne by done. naive_solver.
Qed.

(** A reservation ends with its entry replaced by a thread's or removed. *)
Lemma reserved_paths_end r tree p ps :
  (forall q, q <> p -> tree !! q = r.(agent_tree) !! q) ->
  (forall m, tree !! p = Some m -> m.(agent_id) <> None) ->
  reserved_paths r (p :: ps) -> reserved_paths (set_tree r tree) ps.
Proof.
  intros Hq Hp [[Hnin Hn]%NoDup_cons He]. split; [done|]. intros q. cbn. destruct (decide (q = p)) as [->|].
  - split; [done|]. intros (m & Hm & Hid). by destruct (Hp m Hm).
  - rewrite Hq, <- He, elem_of_cons by done. naive_solver.
Qed.

Lemma find_key_Some `{HashOrderLaws} r id k :
  find_key id (hash_iter r.(agent_tree)) = Some k -> exists m, r.(agent_tree) !! k = Some m /\ m.(agent_id) = Some id.
Proof.
  intros Hk. assert (exists m, (k, m) ∈ hash_iter r.(agent_tree) /\ m.(agent_id) = Some id) as (m & Hm & Hid).
  { induction (hash_iter r.(agent_tree)) as [|[k' m'] l IH]; [done|]. cbn in Hk. unfold has_id in Hk.
    case_bool_decide; [injection Hk as ->; exists m'; split; [by left|done]|].
    destruct (IH Hk) as (m & ? & ?). exists m. split; [by right|done]. }
  exists m. by rewrite <- elem_of_hash_iter.
Qed.

Lemma valid_path_head p : validate_absolute_path p = Ok tt -> head p = Some PATH_SEP.
Proof.
  unfold validate_absolute_path. case_bool_decide as E; [by subst|].
  destruct (strip_prefix [PATH_SEP] p) as [q|] eqn:Es; [|done]. by apply strip_prefix_Some in Es as ->.
Qed.

Lemma keys_ok_insert r k m :
  keys_ok r ->
  match m.(agent_path) with
  | Some p => k = p /\ head p = Some PATH_SEP
  | None => exists thread_id, m.(agent_id) = Some thread_id /\ k = thread_key thread_id
  end -> keys_ok (set_tree r (<[k := m]> r.(agent_tree))).
Proof. intros Hk Hm k' m'. cbn. intros [[<- <-]|[_ ?]]%lookup_insert_Some; [done|by apply Hk]. Qed.

Lemma keys_ok_delete r k : keys_ok r -> keys_ok (set_tree r (delete k r.(agent_tree))).
Proof. intros Hk k' m'. cbn. intros [_ ?]%lookup_delete_Some. by apply Hk. Qed.

Section local.
Context `{HashOrder} {hash_laws : HashOrderLaws}.
Context (limit : option Z) (limit_ok : max_ok limit).
Implicit Types (r : AgentRegistry) (n : nat) (ps : list AgentPath) (t : Task).

Definition local_inv r t n ps : Prop :=
  balanced limit r (held t + n) /\ reserved_paths r (option_list (owns t) ++ ps) /\ keys_ok r /\ task_ok limit t.

Lemma balanced_same r r' n n' :
  r'.(total_count) = r.(total_count) -> tree_count r'.(agent_tree) + n' = tree_count r.(agent_tree) + n ->
  balanced limit r n -> balanced limit r' n'.
Proof. unfold balanced. intros -> ->. done. Qed.

Lemma balanced_increment r n :
  match limit with Some b => (Z.of_nat (tree_count r.(agent_tree) + n) < b)%Z | None => True end ->
  balanced limit r n -> balanced limit (increment r) (S n).
Proof.
  unfold balanced. cbn. intros Hl [-> _]. split; [rewrite Zplus_mod_idemp_l; f_equal; lia|].
  destruct limit; [lia|done].
Qed.

Lemma balanced_decrement r n : balanced limit r (S n) -> balanced limit (decrement r) n.
Proof.
  unfold balanced. cbn. intros [-> Hl]. split; [rewrite Zminus_mod_idemp_l; f_equal; lia|].
  destruct limit; [lia|done].
Qed.

Lemma register_root_inv r id n ps :
  balanced limit r n -> reserved_paths r ps -> keys_ok r ->
  balanced limit (register_root_thread r id) n /\ reserved_paths (register_root_thread r id) ps /\ keys_ok (register_root_thread r id).
Proof.
  intros Hb Hp Hk. unfold register_root_thread. destruct (agent_tree r !! ROOT) eqn:E; [done|]. split_and!.
  - eapply balanced_same; [..|exact Hb]; [done|]. cbn [agent_tree set_tree]. rewrite tree_count_vacant by done.
    replace (live_nat _) with 0 by (vm_compute; reflexivity). lia.
  - eapply reserved_paths_insert; [done|by rewrite E|done].
  - by apply keys_ok_insert.
Qed.

Lemma set_message_inv r id o n ps :
  balanced limit r n -> reserved_paths r ps -> keys_ok r ->
  balanced limit (set_last_task_message r id o) n /\ reserved_paths (set_last_task_message r id o) ps
  /\ keys_ok (set_last_task_message r id o).
Proof using hash_laws.
  intros Hb Hp Hk. unfold set_last_task_message. destruct (find_key id _) as [k|] eqn:E; [|done].
  apply find_key_Some in E as (m & Hm & Hid). rewrite alter_alt, Hm. split_and!.
  - eapply balanced_same; [..|exact Hb]; [done|]. cbn [agent_tree set_tree].
    pose proof (tree_count_insert r.(agent_tree) k {| agent_id := m.(agent_id); agent_path := m.(agent_path);
      agent_nickname := m.(agent_nickname); agent_role := m.(agent_role); last_task_message := o |}) as Hc.
    rewrite Hm in Hc. cbn [live_nat] in Hc. unfold live, at_root in Hc. cbn [agent_id agent_path] in Hc. lia.
  - eapply reserved_paths_insert; [cbn; exact Hid| |done]. rewrite Hm. naive_solver.
  - apply keys_ok_insert; [done|]. cbn. by apply (Hk k m).
Qed.

Lemma remove_thread_inv r id n ps :
  balanced limit r n -> reserved_paths r ps -> keys_ok r ->
  let '(r', counted) := remove_thread r id in
  balanced limit r' ((if counted then 1 else 0) + n) /\ reserved_paths r' ps /\ keys_ok r'.
Proof using hash_laws.
  intros Hb Hp Hk. unfold remove_thread. destruct (find_key id _) as [k|] eqn:E; [|done].
  apply find_key_Some in E as (m & Hm & Hid). rewrite Hm. split_and!.
  - eapply balanced_same; [..|exact Hb]; [done|]. cbn [agent_tree set_tree].
    pose proof (tree_count_delete r.(agent_tree) k) as Hc. rewrite Hm in Hc. cbn [live_nat] in Hc. unfold live in Hc.
    rewrite Hid in Hc. cbn [is_some andb] in Hc. destruct (at_root m); cbn [negb] in *; lia.
  - revert Hp. apply reserved_paths_same. intros p. cbn. destruct (decide (p = k)) as [->|].
    + rewrite lookup_delete_eq, Hm. naive_solver.
    + by rewrite lookup_delete_ne.
  - by apply keys_ok_delete.
Qed.

Lemma nickname_tree rnd r names preferred :
  (reserve_agent_nickname rnd r names preferred).1.(agent_tree) = r.(agent_tree)
  /\ (reserve_agent_nickname rnd r names preferred).1.(total_count) = r.(total_count).
Proof. unfold reserve_agent_nickname. repeat case_match; done. Qed.

(** Operations that leave the tree and the count alone. *)
Lemma local_inv_tree r r' t t' n ps :
  r'.(agent_tree) = r.(agent_tree) -> r'.(total_count) = r.(total_count) ->
  held t' = held t -> owns t' = owns t -> task_ok limit t' -> local_inv r t n ps -> local_inv r' t' n ps.
Proof.
  intros Ht Hc Hh Ho Hok (Hb & Hp & Hk & _). unfold local_inv, balanced, reserved_paths, keys_ok in *.
  by rewrite Ht, Hc, Hh, Ho.
Qed.

Lemma reserved_held req : held (reserved req) = 1 /\ owns (reserved req) = None.
Proof. unfold reserved. by destruct (thread_spawn req). Qed.

Lemma reserved_ok req : request_ok limit req -> task_ok limit (reserved req).
Proof. unfold reserved. intros (_ & _ & Hr). by destruct (thread_spawn req). Qed.

Lemma balanced_cas r req max n :
  request_ok limit req -> max_threads req = Some max -> (r.(total_count) < max)%Z ->
  balanced limit r n -> balanced limit (set_total r (r.(total_count) + 1)) (S n).
Proof using limit_ok.
  intros (Hmax & Hlim & _) Em Hlt [Ht Hn]. rewrite Em in Hmax. cbn in Hmax.
  pose proof (Z.mod_pos_bound (Z.of_nat (tree_count (agent_tree r) + n)) USIZE ltac:(done)) as Hpos.
  assert (set_total r (r.(total_count) + 1) = increment r) as ->.
  { unfold increment. f_equal. symmetry. apply Z.mod_small. lia. }
  apply balanced_increment; [|by split]. unfold limited in Hlim. destruct limit as [b|]; [|done]. cbn in limit_ok.
  destruct Hlim as (k & Ek & Hk). rewrite Em in Ek. injection Ek as <-.
  rewrite Z.mod_small in Ht by lia. lia.
Qed.

Lemma slot_step o r t n ps :
  match t with ReserveSlot _ | CasLoop _ _ _ | ReturnSlot _ | Finished _ => True | _ => False end ->
  local_inv r t n ps -> local_inv (task_step o r t).1 (task_step o r t).2 n ps.
Proof using limit_ok.
  intros Ht (Hb & Hp & Hk & Hok). destruct t as [req|req max cur| | | | | | |out|out]; try done; cbn [task_step].
  - unfold reserve_spawn_slot. destruct (max_threads req) as [m|] eqn:Em; cbn [fst snd].
    + split_and!; [done..|]. by split.
    + destruct (reserved_held req) as [Eh Eo]. unfold local_inv. rewrite Eh, Eo. split_and!; [|done|done|by apply reserved_ok].
      apply balanced_increment; [|done]. destruct Hok as (_ & Hl & _). unfold limited in Hl.
      destruct limit; [|done]. destruct Hl as (? & ? & _). congruence.
  - unfold try_increment_spawned. destruct (max <=? cur)%Z eqn:Em; [done|].
    destruct (_ && _) eqn:Ec; cbn [fst snd]; [|done]. to_props. subst cur.
    destruct (reserved_held req) as [Eh Eo]. destruct Hok as [Hr Hmax]. unfold local_inv. rewrite Eh, Eo.
    split_and!; [|done|done|by apply reserved_ok]. apply Z.leb_gt in Em. by apply (balanced_cas r req max).
  - cbn [fst snd]. split_and!; [|done..]. by apply balanced_decrement.
Qed.

Lemma path_step r ts res n ps :
  local_inv r (ReservePath ts res) n ps -> local_inv (prepare_path r ts res).1 (prepare_path r ts res).2 n ps.
Proof.
  intros (Hb & Hp & Hk & Hok & Hres). unfold prepare_path. cbn [owns] in Hp. rewrite Hres in Hp.
  destruct (ts_path ts) as [p|] eqn:Et; cbn [fst snd].
  2: { split_and!; cbn [owns held]; [done|by rewrite Hres|done|]. split; [by rewrite Et|congruence]. }
  unfold reserve_agent_path. destruct (agent_tree r !! p) eqn:E; cbn [fst snd].
  { split_and!; cbn [owns held]; [done|by rewrite Hres|done..]. }
  split_and!.
  - eapply balanced_same; [..|exact Hb]; [done|]. cbn [agent_tree set_tree]. rewrite tree_count_vacant by done. cbn. lia.
  - by apply reserved_paths_reserve.
  - apply keys_ok_insert; [done|]. cbn. split; [done|]. apply valid_path_head, Hok.
  - split; [by rewrite Et|]. cbn. congruence.
Qed.

Lemma thread_key_free r id m :
  keys_ok r -> (forall k m, r.(agent_tree) !! k = Some m -> m.(agent_id) <> Some id) ->
  r.(agent_tree) !! thread_key id = Some m -> False.
Proof.
  intros Hk Hf Hm. specialize (Hk _ _ Hm). destruct (agent_path m) as [p|]; [by destruct Hk as [<- ?]|].
  destruct Hk as (id' & Hid & E). unfold thread_key in E. apply (inj (app _)) in E as ->. by apply (Hf _ _ Hm).
Qed.

Lemma create_step o r res m n ps :
  fresh_thread o r -> local_inv r (CreateThread res m) n ps ->
  local_inv (create_and_commit o r res m).1 (create_and_commit o r res m).2 n ps.
Proof.
  intros Hf (Hb & Hp & Hk & Hok & Hres). unfold create_and_commit. cbn [owns] in Hp. unfold fresh_thread in Hf.
  destruct (created o) as [tid|e]; cbn [fst snd]; [|by split_and!].
  unfold register_spawned_thread. cbn [agent_id agent_path]. set (m' := {| agent_id := Some tid |}).
  assert (live_nat (Some m') = 1) as Hlive.
  { unfold live_nat, live, at_root. cbn. clear Hres. destruct (agent_path m) as [p|]; [|done].
    destruct Hok as [_ Hne]. cbn. unfold is_root. by rewrite bool_decide_eq_false_2. }
  set (r1 := set_nicknames r _ _).
  rewrite Hres in Hp. destruct (agent_path m) as [p|] eqn:Ep; cbn [from_option id option_list app] in *.
  - assert (exists m0, agent_tree r !! p = Some m0 /\ agent_id m0 = None) as (m0 & Hm0 & Hid0) by (apply Hp; by left).
    pose proof (tree_count_insert r.(agent_tree) p m') as Hc. rewrite Hm0, Hlive in Hc. cbn [live_nat] in Hc.
    unfold live in Hc at 1. rewrite Hid0 in Hc. cbn in Hc. split_and!; [| | |done].
    + eapply balanced_same; [..|exact Hb]; [done|]. cbn [agent_tree set_tree held]. lia.
    + apply (reserved_paths_end r1 _ p); [| |exact Hp]; [by intros q Hq; rewrite lookup_insert_ne|].
      intros m1. rewrite lookup_insert_eq. by intros [= <-].
    + apply (keys_ok_insert r1); [done|]. cbn. split; [done|]. by apply valid_path_head, Hok.
  - assert (agent_tree r !! thread_key tid = None) as Hn
      by (apply eq_None_not_Some; intros [m0 Hm0]; by eapply thread_key_free).
    split_and!; [| | |done].
    + eapply balanced_same; [..|exact Hb]; [done|]. cbn [agent_tree set_tree held]. rewrite tree_count_vacant by done. lia.
    + apply (reserved_paths_insert r1 _ _ tid); [done|by change (agent_tree r1) with (agent_tree r); rewrite Hn|done].
    + apply (keys_ok_insert r1); [done|]. cbn. eauto.
Qed.

Lemma drop_step r res e n ps :
  local_inv r (DropReservation res e) n ps -> local_inv (drop_reservation r res e).1 (drop_reservation r res e).2 n ps.
Proof.
  intros (Hb & Hp & Hk & _). unfold drop_reservation. cbn [owns held fst snd] in *.
  destruct (reserved_agent_path res) as [p|] eqn:Ep; [|by split_and!].
  assert (exists m, agent_tree r !! p = Some m /\ agent_id m = None) as (m & Hm & Hid) by (apply Hp; by left).
  unfold release_reserved_agent_path. rewrite Hm, Hid. split_and!; [| | |done].
  - eapply balanced_same; [..|exact Hb]; [done|]. cbn [agent_tree set_tree held].
    pose proof (tree_count_delete r.(agent_tree) p) as Hc. rewrite Hm in Hc. cbn [live_nat] in Hc. unfold live in Hc.
    rewrite Hid in Hc. cbn in Hc. lia.
  - eapply reserved_paths_end; [| |exact Hp]; [by intros q Hq; rewrite lookup_delete_ne|].
    intros m1. by rewrite lookup_delete_eq.
  - by apply keys_ok_delete.
Qed.

(** Every step of a task preserves the invariant. *)
Lemma agent_task_step_inv o r t n ps :
  fresh_thread o r -> local_inv r t n ps -> local_inv (task_step o r t).1 (task_step o r t).2 n ps.
Proof using hash_laws limit_ok.
  intros Hf Hi. destruct t as [req|req max cur|ts res|ts res|ts res|res m|res e|id|out|out];
    try by apply slot_step.
  - destruct Hi as (Hb & Hp & Hk & Hok). cbn [task_step]. unfold prepare_root. cbn [fst snd]. destruct (_ =? _)%Z.
    + destruct (register_root_inv r ts.(ts_parent) _ _ Hb Hp Hk) as (? & ? & ?). by split_and!.
    + by split_and!.
  - by apply path_step.
  - cbn [task_step]. unfold prepare_nickname.
    destruct (reserve_agent_nickname _ r _ _) as [r' [nick|]] eqn:E; cbn [fst snd].
    all: destruct (nickname_tree o.(random) r ts.(ts_names) ts.(ts_preferred)) as [Et Ec]; rewrite E in Et, Ec.
    all: apply (local_inv_tree r r' (ReserveNickname ts res)); try done.
    destruct Hi as (_ & _ & _ & Hok & Hres). by split.
  - by apply create_step.
  - by apply drop_step.
  - destruct Hi as (Hb & Hp & Hk & Hok). cbn [task_step]. unfold release_spawned_thread.
    pose proof (remove_thread_inv r id _ _ Hb Hp Hk) as Hr. destruct (remove_thread r id) as [r' c].
    destruct Hr as (? & ? & ?). by destruct c; split_and!.
Qed.

(** ** The whole system *)

Lemma inv_at s i t :
  s.(tasks) !! i = Some t -> inv limit s ->
  local_inv s.(registry) t (sum_list_with held (take i s.(tasks) ++ drop (S i) s.(tasks)))
    (omap owns (take i s.(tasks) ++ drop (S i) s.(tasks))).
Proof.
  intros Ht [Hb Hp Hk Hok]. rewrite <- (take_drop_middle _ _ _ Ht) in Hb, Hp. split_and!; [| |done|by eapply Forall_lookup_1].
  - rewrite sum_list_with_app in Hb. cbn in Hb. eapply balanced_same; [..|exact Hb]; [done|].
    rewrite sum_list_with_app. lia.
  - eapply reserved_paths_perm; [|exact Hp]. rewrite !omap_app. cbn. destruct (owns t); cbn; [|done].
    by rewrite Permutation_middle.
Qed.

Lemma at_inv s i t r t' :
  s.(tasks) !! i = Some t -> Forall (task_ok limit) s.(tasks) ->
  local_inv r t' (sum_list_with held (take i s.(tasks) ++ drop (S i) s.(tasks)))
    (omap owns (take i s.(tasks) ++ drop (S i) s.(tasks))) ->
  inv limit {| registry := r; tasks := <[i := t']> s.(tasks) |}.
Proof.
  intros Ht Hf (Hb & Hp & Hk & Hok). rewrite insert_take_drop by (by eapply lookup_lt_Some). split; cbn [registry tasks].
  - eapply balanced_same; [..|exact Hb]; [done|]. rewrite !sum_list_with_app. cbn. lia.
  - eapply reserved_paths_perm; [|exact Hp]. rewrite !omap_app. cbn. destruct (owns t'); cbn; [|done].
    by rewrite Permutation_middle.
  - done.
  - apply Forall_app. split; [by apply Forall_take|]. constructor; [done|by apply Forall_drop].
Qed.

Lemma inv_new_task s t :
  held t = 0 -> owns t = None -> task_ok limit t -> inv limit s ->
  inv limit {| registry := s.(registry); tasks := s.(tasks) ++ [t] |}.
Proof.
  intros Hh Ho Hok [Hb Hp Hk Hf]. split; cbn [registry tasks]; [| |done|by apply Forall_app; auto].
  - rewrite sum_list_with_app. cbn. by rewrite Hh, Nat.add_0_r.
  - rewrite omap_app. cbn. by rewrite Ho, app_nil_r.
Qed.

Lemma Step_inv s s' : Step limit s s' -> inv limit s -> inv limit s'.
Proof using hash_laws limit_ok.
  intros Hstep Hi. destruct Hstep as [s i t o Ht Hf|s req Hr|s id|s id|s id message].
  - eapply at_inv; [done|apply Hi|]. apply agent_task_step_inv; [done|]. by apply inv_at.
  - by apply inv_new_task.
  - by apply inv_new_task.
  - destruct Hi as [Hb Hp Hk Hok]. destruct (register_root_inv _ id _ _ Hb Hp Hk) as (? & ? & ?). by split.
  - destruct Hi as [Hb Hp Hk Hok]. destruct (set_message_inv _ id message _ _ Hb Hp Hk) as (? & ? & ?). by split.
Qed.

Lemma init_inv : inv limit init.
Proof using limit_ok.
  split; cbn [registry tasks init omap sum_list_with].
  - assert (tree_count ∅ = 0) as E by reflexivity. split; cbn [agent_tree registry_default]; rewrite E; [done|].
    unfold max_ok in limit_ok. destruct limit; [cbn; lia|done].
  - split; [constructor|]. intros p. cbn [agent_tree registry_default]. rewrite lookup_empty.
    split; [by intros ?%elem_of_nil|by intros (? & ? & _)].
  - intros k m. cbn [agent_tree registry_default]. by rewrite lookup_empty.
  - constructor.
Qed.

Lemma agents_reachable_inv s : reachable limit s -> inv limit s.
Proof using hash_laws limit_ok.
  apply (rtc_ind_r (inv limit) init); [apply init_inv|]. intros s1 s2 _ Hstep Hi. by eapply Step_inv.
Qed.

(** C8: Sub-agents are accounted for in every interleaving.  The count is the number
    of live agents plus the slots of spawns and closes in flight; the paths that are
    taken without an agent are those that spawns in flight have reserved, each by
    one spawn; and where every spawn is given a limit of at most [b], live agents
    and slots in flight together never exceed [b]. *)
Theorem agent_slots_accounted s :
  reachable limit s ->
  let n := length (live_agents s.(registry)) + sum_list_with held s.(tasks) in
  s.(registry).(total_count) = (Z.of_nat n mod USIZE)%Z
  /\ match limit with Some b => (Z.of_nat n <= b)%Z | None => True end
  /\ NoDup (omap owns s.(tasks))
  /\ forall p, (exists m, s.(registry).(agent_tree) !! p = Some m /\ m.(agent_id) = None)
              <-> exists t, t ∈ s.(tasks) /\ owns t = Some p.
Proof using hash_laws limit_ok.
  intros [[Hb Hl] [Hn Hp] _ _]%agents_reachable_inv. cbv zeta. rewrite live_agents_count. split_and!; [done..|].
  intros p. by rewrite <- Hp, list_elem_of_omap.
Qed.

(** Nothing leaks: once every spawn and close has finished, also those that failed,
    the count is the number of live agents and every path belongs to an agent. *)
Theorem finished_spawns_leak_nothing s :
  reachable limit s -> Forall (fun t => exists o, t = Finished o) s.(tasks) ->
  s.(registry).(total_count) = (Z.of_nat (length (live_agents s.(registry))) mod USIZE)%Z
  /\ forall p m, s.(registry).(agent_tree) !! p = Some m -> is_Some m.(agent_id).
Proof using hash_laws limit_ok.
  intros [[Hb _] [_ Hp] _ _]%agents_reachable_inv Hf.
  assert (sum_list_with held s.(tasks) = 0 /\ omap owns s.(tasks) = []) as [E1 E2].
  { clear Hb Hp. induction Hf as [|t l [o ->] _ [IH1 IH2]]; [done|]. by split. }
  rewrite E1, Nat.add_0_r in Hb. rewrite live_agents_count. split; [done|]. intros p m Hm.
  destruct (agent_id m) eqn:E; [eauto|]. exfalso. rewrite E2 in Hp. apply (not_elem_of_nil p), Hp. eauto.
Qed.
End local.

(** * Agent paths: laws *)

Lemma validate_segments_Ok l : validate_segments l = Ok tt <-> Forall (fun s => validate_agent_name s = Ok tt) l.
Proof.
  induction l as [|s l IH]; cbn [validate_segments]; [by split|]. rewrite Forall_cons, <- IH.
  destruct (validate_agent_name s) as [[]|]; cbn; naive_solver.
Qed.

Lemma agent_name_ok s : validate_agent_name s = Ok tt -> s <> [] /\ s <> ROOT_SEGMENT /\ contains_char PATH_SEP s = false.
Proof.
  unfold validate_agent_name. repeat (case_bool_decide; [done|]). cbn. destruct (contains_char PATH_SEP s); done.
Qed.

Definition under_root (names : list str) : AgentPath := PATH_SEP :: join [PATH_SEP] (ROOT_SEGMENT :: names).

Lemma split_under_root names :
  Forall (fun s => validate_agent_name s = Ok tt) names ->
  split_on PATH_SEP (join [PATH_SEP] (ROOT_SEGMENT :: names)) = ROOT_SEGMENT :: names.
Proof.
  intros Hn. apply split_on_join; [done|]. constructor; [apply (proj1 (contains_char_false _ _)); reflexivity|].
  eapply Forall_impl; [exact Hn|]. intros s (_ & _ & Hs)%agent_name_ok. by apply contains_char_false.
Qed.

Lemma split_agent_path names :
  Forall (fun s => validate_agent_name s = Ok tt) names ->
  split_on PATH_SEP (under_root names) = [] :: ROOT_SEGMENT :: names.
Proof.
  intros Hn. unfold under_root. rewrite <- (split_under_root names Hn) at 2.
  apply (split_on_app_sep PATH_SEP []). apply not_elem_of_nil.
Qed.

Lemma under_root_no_trailing names :
  Forall (fun s => validate_agent_name s = Ok tt) names ->
  ends_with [PATH_SEP] (join [PATH_SEP] (ROOT_SEGMENT :: names)) = false.
Proof.
  intros Hn. apply not_true_iff_false. intros [r Hr]%ends_with_spec.
  pose proof (split_under_root names Hn) as Hs. rewrite Hr, split_on_app in Hs.
  assert (last (ROOT_SEGMENT :: names) = Some []) as Hl by (rewrite <- Hs; apply last_snoc).
  destruct names as [|x names] using rev_ind; [done|]. rewrite app_comm_cons, last_snoc in Hl. injection Hl as ->.
  apply Forall_app in Hn as [_ Hn]. by apply Forall_singleton_1 in Hn.
Qed.

(** The grammar of agent paths: [/morpheus], or [/root] followed by valid names. *)
Lemma agent_path_grammar p :
  validate_absolute_path p = Ok tt
  <-> p = MORPHEUS \/ exists names, p = under_root names /\ Forall (fun s => validate_agent_name s = Ok tt) names.
Proof.
  unfold validate_absolute_path. case_bool_decide as Hm; [naive_solver|].
  split; [intros Hv; right|intros [?|(names & -> & Hn)]; [done|]].
  - destruct (strip_prefix [PATH_SEP] p) as [q|] eqn:Es; [|done]. apply strip_prefix_Some in Es as ->.
    pose proof (join_split_on PATH_SEP q) as Hj. destruct (split_on PATH_SEP q) as [|root segs]; [done|].
    case_bool_decide; [|done]. subst root. cbn [negb] in Hv. destruct (ends_with _ q); [done|].
    exists segs. split; [unfold under_root; by rewrite Hj|by apply validate_segments_Ok].
  - unfold under_root. change (PATH_SEP :: ?q) with ([PATH_SEP] ++ q). rewrite strip_prefix_app, split_under_root by done.
    rewrite bool_decide_eq_true_2 by done. cbn [negb]. rewrite under_root_no_trailing by done. by apply validate_segments_Ok.
Qed.

Lemma under_root_snoc names n : under_root (names ++ [n]) = under_root names ++ lit "/" ++ n.
Proof.
  unfold under_root. change (lit "/") with [PATH_SEP]. cbn [app]. f_equal. generalize ROOT_SEGMENT as h.
  induction names as [|m names IH]; intros h; [done|].
  change ((m :: names) ++ [n]) with (m :: (names ++ [n])). rewrite !(join_cons [PATH_SEP] h) by done.
  by rewrite IH, <- !app_assoc.
Qed.

(** Joining a valid name to the path of an agent gives the path of another agent,
    under that name, and never the root's; resolving the name as a reference agrees. *)
Theorem agent_join_spec names n :
  Forall (fun s => validate_agent_name s = Ok tt) names -> validate_agent_name n = Ok tt ->
  let p := under_root names in
  agent_join p n = Ok (under_root (names ++ [n])) /\ resolve p n = agent_join p n
  /\ agent_name (under_root (names ++ [n])) = n /\ is_root (under_root (names ++ [n])) = false.
Proof.
  intros Hns Hn. cbv zeta. assert (Forall (fun s => validate_agent_name s = Ok tt) (names ++ [n])) as Hall
    by (apply Forall_app; auto).
  assert (from_string (under_root (names ++ [n])) = Ok (under_root (names ++ [n]))) as Hf.
  { unfold from_string. rewrite (proj2 (agent_path_grammar _)); [done|]. right. eauto. }
  assert (agent_join (under_root names) n = Ok (under_root (names ++ [n]))) as Hj
    by (unfold agent_join; by rewrite Hn, <- under_root_snoc).
  destruct (agent_name_ok n Hn) as (Hne & Hnr & Hsep). apply contains_char_false in Hsep.
  assert (is_root (under_root (names ++ [n])) = false) as Hroot.
  { apply bool_decide_eq_false_2. intros E%(f_equal (split_on PATH_SEP)). rewrite split_agent_path in E by done.
    change (split_on PATH_SEP ROOT) with [[]; ROOT_SEGMENT] in E. destruct names; discriminate E. }
  split_and!; [done| | |done].
  - rewrite Hj. unfold resolve. rewrite !bool_decide_eq_false_2; [|by intros ->; apply Hsep; left|done].
    assert (starts_with [PATH_SEP] n = false) as ->
      by (apply not_true_iff_false; intros [r ->]%starts_with_spec; apply Hsep; by left).
    unfold validate_relative_reference.
    assert (ends_with [PATH_SEP] n = false) as ->
      by (apply not_true_iff_false; intros [r ->]%ends_with_spec; apply Hsep; set_solver).
    rewrite split_on_no by done. cbn [validate_segments]. by rewrite Hn, <- under_root_snoc.
  - unfold agent_name. rewrite Hroot, split_agent_path by done.
    rewrite !app_comm_cons, last_snoc. by rewrite bool_decide_eq_false_2.
Qed.

(** * Nicknames *)

Definition plain_name (n : str) : Prop := contains_str (lit " the ") n = false.

Lemma lit_digits_app x (s : string) :
  Forall (fun c => is_ascii_digit c = true) (lit s) -> Forall (fun c => is_ascii_digit c = true) (lit (pretty.pretty_N_go x s)).
Proof.
  revert s. induction (N.lt_wf_0 x) as [x _ IH]. intros s Hs. destruct (decide (x = 0%N)) as [->|Hx].
  - by rewrite pretty.pretty_N_go_0.
  - rewrite pretty.pretty_N_go_step by lia. apply IH; [apply N.div_lt; lia|].
    cbn [lit]. constructor; [|done]. pose proof (N.mod_lt x 10 ltac:(done)) as Hm. revert Hm.
    generalize (x mod 10)%N. clear. intros d Hd.
    assert (d = 0 \/ d = 1 \/ d = 2 \/ d = 3 \/ d = 4 \/ d = 5 \/ d = 6 \/ d = 7 \/ d = 8 \/ d = 9)%N as Hcases by lia.
    repeat (destruct Hcases as [->|Hcases]; [reflexivity|]). by subst d.
Qed.

Lemma show_N_digits n : Forall (fun c => is_ascii_digit c = true) (show_N n).
Proof.
  unfold show_N, pretty, pretty.pretty_N. case_decide; [by repeat constructor|]. by apply lit_digits_app.
Qed.

Lemma lit_inj s s' : lit s = lit s' -> s = s'.
Proof.
  revert s'. induction s as [|a s IH]; intros [|b s']; try done. cbn [lit]. intros [= Ha Hs].
  f_equal; [|by apply IH]. by rewrite <- (Ascii.ascii_N_embedding a), <- (Ascii.ascii_N_embedding b), Ha.
Qed.

Lemma show_N_inj : Inj (=) (=) show_N.
Proof. intros m n E%lit_inj. by apply (inj pretty) in E. Qed.

Definition ordinal (k : N) : str := show_N k ++ ordinal_suffix k.

Lemma ordinal_no_space k : 32%N ∉ ordinal k.
Proof.
  unfold ordinal. rewrite elem_of_app. intros [Hin|Hin].
  - apply (proj1 (Forall_forall _ _) (show_N_digits k)) in Hin. discriminate Hin.
  - unfold ordinal_suffix in Hin. repeat case_match; vm_compute in Hin; set_solver.
Qed.

Lemma ordinal_inj k k' : ordinal k = ordinal k' -> k = k'.
Proof.
  intros E. assert (forall x, length (ordinal_suffix x) = 2) as Hlen
    by (intros x; unfold ordinal_suffix; repeat case_match; done).
  apply app_inj_2 in E as [E _]; [by apply show_N_inj|]. by rewrite !Hlen.
Qed.

Lemma format_nickname_succ n k :
  format_agent_nickname n (N.succ k) = (n ++ lit " the") ++ 32%N :: ordinal (N.succ k + 1).
Proof.
  unfold format_agent_nickname. destruct (N.succ k) eqn:E; [lia|]. unfold ordinal. by rewrite <- app_assoc.
Qed.

(** A nickname tells how often the pool had been reset. *)
Lemma format_nickname_count n n' k k' :
  plain_name n -> plain_name n' -> format_agent_nickname n k = format_agent_nickname n' k' -> k = k'.
Proof.
  intros Hn Hn'. assert (forall m m' j, plain_name m -> m = format_agent_nickname m' (N.succ j) -> False) as Hz.
  { intros m m' j Hm ->. unfold plain_name in Hm. rewrite (proj2 (contains_str_spec _ _)) in Hm; [done|].
    exists m', (ordinal (N.succ j + 1)). rewrite format_nickname_succ, <- app_assoc. done. }
  destruct (N.zero_or_succ k) as [->|[j ->]], (N.zero_or_succ k') as [->|[j' ->]]; intros E; [done| | |].
  - exfalso. exact (Hz n n' j' Hn E).
  - exfalso. exact (Hz n' n j Hn' (eq_sym E)).
  - rewrite !format_nickname_succ in E. apply (f_equal (rsplit_once 32%N)) in E.
    rewrite !rsplit_once_app in E by apply ordinal_no_space. injection E as _ E%ordinal_inj. lia.
Qed.

(** Nicknames taken so far from the pool. *)
Definition nicknames_ok (r : AgentRegistry) (given : list str) : Prop :=
  NoDup given /\ Forall (fun g => exists n k, plain_name n /\ g = format_agent_nickname n k
    /\ (k < r.(nickname_reset_count) \/ k = r.(nickname_reset_count) /\ g ∈ r.(used_agent_nicknames))%N) given.

Lemma choose_Some rnd l x : choose rnd l = Some x -> x ∈ l.
Proof. apply list_elem_of_lookup_2. Qed.

Lemma choose_None rnd l : choose rnd l = None -> l = [].
Proof.
  unfold choose. destruct l as [|y l]; [done|]. intros Hn%lookup_ge_None.
  pose proof (Nat.mod_upper_bound rnd (length (y :: l)) ltac:(done)). lia.
Qed.

Lemma reserve_nickname_ok rnd r names given :
  Forall plain_name names -> names <> [] -> nicknames_ok r given ->
  exists n, (reserve_agent_nickname rnd r names None).2 = Some n
    /\ nicknames_ok (reserve_agent_nickname rnd r names None).1 (n :: given).
Proof.
  intros Hpl Hne [Hnd Hg]. unfold reserve_agent_nickname. destruct names as [|nm0 names0] eqn:En; [done|]. rewrite <- En in *.
  destruct (choose rnd (available_names r names)) as [x|] eqn:Ec.
  - exists x. split; [done|]. apply choose_Some in Ec. unfold available_names in Ec.
    apply elem_of_retain in Ec as [Hu Hin]. apply negb_true_iff, bool_decide_eq_false_1 in Hu.
    apply list_elem_of_fmap in Hin as (n & -> & Hin).
    assert (plain_name n) as Hn by (by eapply (proj1 (Forall_forall _ _))). split; cbn.
    + constructor; [|done]. intros (n' & k & Hn' & E & Hk)%(proj1 (Forall_forall _ _) Hg).
      pose proof (format_nickname_count _ _ _ _ Hn Hn' E) as <-. destruct Hk as [|[_ ?]]; [lia|done].
    + constructor; [exists n, r.(nickname_reset_count); split_and!; [done..|right; set_solver]|].
      eapply Forall_impl; [exact Hg|]. intros g (n' & k & ? & ? & [?|[? ?]]); exists n', k; split_and!; try done; [by left|right; set_solver].
  - destruct (choose rnd names) as [n|] eqn:En'; [|by apply choose_None in En'].
    apply choose_Some in En'. assert (plain_name n) as Hn by (by eapply (proj1 (Forall_forall _ _))).
    eexists. split; [done|]. cbn [fst use_nickname set_nicknames nickname_reset_count]. split; cbn.
    + constructor; [|done]. intros (n' & k & Hn' & E & Hk)%(proj1 (Forall_forall _ _) Hg).
      pose proof (format_nickname_count _ _ _ _ Hn Hn' E) as <-. destruct Hk as [|[]]; lia.
    + constructor; [exists n, (r.(nickname_reset_count) + 1)%N; split_and!; [done..|right; set_solver]|].
      eapply Forall_impl; [exact Hg|]. intros g (n' & k & ? & ? & [?|[? ?]]); exists n', k; split_and!; try done; left; lia.
Qed.

(** Draws from non-empty pools of plain names, one after the other. *)
Fixpoint draw_nicknames (r : AgentRegistry) (calls : list (nat * list str)) : list (option str) :=
  match calls with
  | [] => []
  | (rnd, names) :: calls =>
      let '(r, n) := reserve_agent_nickname rnd r names None in n :: draw_nicknames r calls
  end.

(** However the pools are used up, no two agents of a session draw the same nickname. *)
Theorem nicknames_never_repeat calls :
  Forall (fun c => c.2 <> [] /\ Forall plain_name c.2) calls ->
  NoDup (draw_nicknames registry_default calls) /\ Forall is_Some (draw_nicknames registry_default calls).
Proof.
  intros Hc. assert (forall r given, nicknames_ok r given ->
    exists l, draw_nicknames r calls = Some <$> l /\ NoDup l /\ (forall x, x ∈ l -> x ∉ given)) as Hgen.
  { induction Hc as [|[rnd names] calls [Hne Hpl] _ IH]; intros r given Hr; cbn [draw_nicknames].
    { exists []. split_and!; [done|constructor|set_solver]. }
    destruct (reserve_nickname_ok rnd r names given Hpl Hne Hr) as (n & En & Hr').
    destruct (reserve_agent_nickname rnd r names None) as [r' o]. cbn in En, Hr'. subst o.
    destruct (IH r' (n :: given) Hr') as (l & -> & Hl & Hx). exists (n :: l).
    destruct Hr' as [[Hni _]%NoDup_cons _]. split_and!; [done| |].
    - constructor; [|done]. intros Hin. apply (Hx n Hin). by left.
    - intros x [->|Hin]%elem_of_cons; [done|]. intros Hg. apply (Hx x Hin). by right. }
  destruct (Hgen registry_default []) as (l & -> & Hl & _); [split; constructor|].
  split; [by apply NoDup_fmap_2; [intros ? ? [=]|]|]. apply Forall_fmap, Forall_true. cbn. eauto.
Qed.

(** * A spawn left alone finishes *)

Section progress.
Context `{HashOrder}.

(** Steps to the end when nothing interferes. *)
Definition task_rank (t : Task) : nat :=
  match t with
  | ReserveSlot _ => 8
  | CasLoop _ _ _ => 7
  | RegisterRoot _ _ => 6
  | ReservePath _ _ => 5
  | ReserveNickname _ _ => 4
  | CreateThread _ _ => 3
  | DropReservation _ _ | Release _ => 2
  | ReturnSlot _ => 1
  | Finished _ => 0
  end.

(** A step brings a task closer to its end unless its compare-and-swap fails, which
    only happens spuriously or when the count is no longer the one it read; it then
    holds the present count. *)
Lemma task_step_progress o r t :
  task_rank (task_step o r t).2 < task_rank t
  \/ task_rank t = 0
  \/ exists req max cur, t = CasLoop req max cur /\ (cur <> r.(total_count) \/ o.(spurious) = true)
     /\ task_step o r t = (r, CasLoop req max r.(total_count)).
Proof.
  destruct t as [req|req max cur|ts res|ts res|ts res|res m|res e|id|out|out]; cbn [task_step task_rank].
  - left. unfold reserve_spawn_slot, reserved. repeat case_match; cbn; lia.
  - unfold try_increment_spawned. destruct (max <=? cur)%Z; [left; cbn; lia|].
    destruct (_ && _) eqn:E; [left; unfold reserved; case_match; cbn; lia|].
    right; right. exists req, max, cur. split; [done|]. split; [|done].
    apply andb_false_iff in E as [E%bool_decide_eq_false_1|E%negb_false_iff]; auto.
  - left. cbn. lia.
  - left. unfold prepare_path. repeat case_match; cbn; lia.
  - left. unfold prepare_nickname. repeat case_match; cbn; lia.
  - left. unfold create_and_commit. case_match; cbn; lia.
  - left. cbn. lia.
  - left. unfold release_spawned_thread. destruct (remove_thread r id) as [? []]; cbn; lia.
  - left. cbn. lia.
  - by right; left.
Qed.

Fixpoint run_task (n : nat) (o : Oracle) (r : AgentRegistry) (t : Task) : AgentRegistry * Task :=
  match n with
  | 0 => (r, t)
  | S n => let '(r, t) := task_step o r t in run_task n o r t
  end.

(** A spawn or close that no other task disturbs is finished after nine steps. *)
Theorem undisturbed_task_finishes o r t :
  o.(spurious) = false -> exists out, (run_task 9 o r t).2 = Finished out.
Proof.
  intros Ho. assert (forall n r t, task_rank t <= n ->
    (forall req max cur, t = CasLoop req max cur -> cur = r.(total_count)) ->
    exists out, (run_task n o r t).2 = Finished out) as Hrun.
  { induction n as [|n IH]; intros r' t' Hn Hcas; cbn [run_task].
    { destruct t'; cbn in Hn; try lia. eauto. }
    destruct (task_step_progress o r' t') as [Hlt|[Hz|(req & max & cur & -> & [Hc|Hc] & _)]].
    - destruct (task_step o r' t') as [r2 t2] eqn:E. cbn in Hlt. apply IH; [lia|]. intros req max cur ->.
      destruct t' as [req'|? ? ?|? ?|? ?|? ?|? ?|? ?|?|?|?]; cbn in Hlt; try lia.
      cbn in E. unfold reserve_spawn_slot in E. case_match; [by injection E as <- _ _ <-|].
      unfold reserved in E. destruct (thread_spawn req'); injection E as _ E; discriminate E.
    - destruct t'; try done. cbn [task_step]. apply IH; [cbn; lia|done].
    - destruct Hc. by eapply Hcas.
    - congruence. }
  destruct t as [req|req max cur|ts res|ts res|ts res|res m|res e|id|out|out]; try (apply Hrun; [cbn; lia|done]).
  destruct (decide (cur = r.(total_count))) as [->|Hc]; [apply Hrun; [cbn; lia|by intros ? ? ? [= <- <- <-]]|].
  change (run_task 9 o r (CasLoop req max cur))
    with (let '(r, t) := task_step o r (CasLoop req max cur) in run_task 8 o r t).
  cbn [task_step]. unfold try_increment_spawned.
  destruct (max <=? cur)%Z; [apply Hrun; [cbn; lia|done]|].
  rewrite bool_decide_eq_false_2 by done. cbn [andb]. apply Hrun; [cbn; lia|by intros ? ? ? [= <- <- <-]].
Qed.
End progress.

(** * Witnesses *)

Inductive Action : Type := ActTask (i : nat) (o : Oracle) | ActSpawn (req : SpawnRequest) | ActClose (thread_id : ThreadId).

Definition fresh_threadb (o : Oracle) (r : AgentRegistry) : bool :=
  match o.(created) with
  | Ok thread_id => forallb (fun e => negb (has_id e.2 thread_id)) (map_to_list r.(agent_tree))
  | Err _ => true
  end.

Definition path_okb (o : option AgentPath) : bool :=
  match o with Some p => is_ok (validate_absolute_path p) && negb (is_root p) | None => true end.

Definition request_okb (b : Z) (req : SpawnRequest) : bool :=
  match req.(max_threads) with Some m => (0 <=? m)%Z && (m <? USIZE)%Z && (m <=? b)%Z | None => false end
  && match req.(thread_spawn) with Some ts => path_okb ts.(ts_path) | None => true end.

Definition act (b : Z) (s : System) (a : Action) : option System :=
  match a with
  | ActTask i o =>
      t ← s.(tasks) !! i;
      if fresh_threadb o s.(registry)
      then let '(r, t) := task_step o s.(registry) t in Some {| registry := r; tasks := <[i := t]> s.(tasks) |}
      else None
  | ActSpawn req =>
      if request_okb b req then Some {| registry := s.(registry); tasks := s.(tasks) ++ [ReserveSlot req] |} else None
  | ActClose thread_id => Some {| registry := s.(registry); tasks := s.(tasks) ++ [Release thread_id] |}
  end.

Fixpoint acts (b : Z) (s : System) (l : list Action) : option System :=
  match l with [] => Some s | a :: l => s ← act b s a; acts b s l end.

Lemma act_step b s a s' : act b s a = Some s' -> Step (Some b) s s'.
Proof.
  destruct a as [i o|req|id]; cbn [act].
  - destruct (tasks s !! i) as [t|] eqn:Et; [|done]. cbn. destruct (fresh_threadb o (registry s)) eqn:Ef; [|done].
    destruct (task_step o (registry s) t) as [r t'] eqn:E. intros [= <-].
    pose proof (step_task (Some b) s i t o Et) as Hs. rewrite E in Hs. apply Hs. unfold fresh_thread, fresh_threadb in *.
    destruct (created o); [|done]. intros k m Hm Hid. rewrite forallb_forall in Ef.
    specialize (Ef (k, m)). unfold has_id in Ef. cbn in Ef. rewrite bool_decide_eq_true_2 in Ef by done.
    assert (negb true = true); [|done]. apply Ef. by apply list_elem_of_In, elem_of_map_to_list.
  - destruct (request_okb b req) eqn:E; [|done]. intros [= <-]. constructor. unfold request_okb in E. to_props.
    unfold request_ok, limited, max_ok. destruct (max_threads req) as [m|] eqn:Em; [|done]. to_props. split_and!; [lia|lia|eauto with lia|].
    destruct (thread_spawn req) as [ts|]; [|done]. unfold path_okb, path_ok, is_root in *. destruct (ts_path ts); [|done].
    to_props. destruct (validate_absolute_path _) as [[]|]; done.
  - intros [= <-]. constructor.
Qed.

Lemma acts_reachable b l s : acts b init l = Some s -> reachable (Some b) s.
Proof.
  unfold reachable. generalize init. induction l as [|a l IH]; intros s0; cbn [acts]; [by intros [= <-]; constructor|].
  destruct (act b s0 a) as [s1|] eqn:E; [|done]. cbn. intros Hs. eapply rtc_l; [by eapply act_step|by apply IH].
Qed.

Definition w_request (name : string) : SpawnRequest := {|
  max_threads := Some 2%Z;
  thread_spawn := Some {| ts_parent := lit "t0"; ts_depth := 1; ts_path := Some (under_root [lit name]); ts_role := None;
                          ts_names := [lit "Euclid"; lit "Hypatia"]; ts_preferred := None |} |}.

Definition w_oracle (created : result ThreadId MotygaErr) : Oracle := {| random := 0; spurious := false; created := created |}.

(** Two spawns interleave; the second fails to create its thread. *)
Definition w_actions : list Action :=
  [ActSpawn (w_request "a"); ActSpawn (w_request "b")]
  ++ concat (replicate 6 [ActTask 0 (w_oracle (Ok (lit "t1"))); ActTask 1 (w_oracle (Err (ThreadError (lit "no"))))]).
Definition w_more : list Action := replicate 3 (ActTask 1 (w_oracle (Err (ThreadError (lit "no"))))).

Definition w_state : System := default init (acts 2 init w_actions).
Definition w_final : System := default init (acts 2 init (w_actions ++ w_more)).

Lemma agent_slots_accounted_witness :
  w_state.(registry).(total_count) = 2%Z /\ length (live_agents w_state.(registry)) = 1
  /\ exists t, t ∈ w_state.(tasks) /\ owns t = Some (under_root [lit "b"]).
Proof.
  assert (reachable (Some 2%Z) w_state) as Hr by (apply (acts_reachable 2 w_actions); vm_compute; reflexivity).
  assert (max_ok (Some 2%Z)) as Hm by (cbn; unfold USIZE; lia).
  destruct (agent_slots_accounted (Some 2%Z) Hm w_state Hr) as (Ht & _ & _ & Hp).
  split; [rewrite Ht; vm_compute; reflexivity|]. split; [vm_compute; reflexivity|].
  apply Hp. eexists. split; [vm_compute; reflexivity|reflexivity].
Defined.

Lemma finished_spawns_leak_nothing_witness :
  w_final.(registry).(total_count) = 1%Z /\ w_final.(registry).(agent_tree) !! under_root [lit "b"] = None
  /\ is_Some (w_final.(registry).(agent_tree) !! under_root [lit "a"]).
Proof.
  assert (reachable (Some 2%Z) w_final) as Hr by (apply (acts_reachable 2 (w_actions ++ w_more)); vm_compute; reflexivity).
  assert (max_ok (Some 2%Z)) as Hm by (cbn; unfold USIZE; lia).
  destruct (finished_spawns_leak_nothing (Some 2%Z) Hm w_final Hr) as [Ht _].
  { vm_compute. repeat constructor; eexists; reflexivity. }
  split; [rewrite Ht; vm_compute; reflexivity|]. split; [vm_compute; reflexivity|vm_compute; eauto].
Defined.

Lemma undisturbed_task_finishes_witness :
  exists out, (run_task 9 (w_oracle (Ok (lit "t1"))) registry_default (ReserveSlot (w_request "a"))).2 = Finished out.
Proof. apply (undisturbed_task_finishes (w_oracle (Ok (lit "t1"))) registry_default (ReserveSlot (w_request "a"))). reflexivity. Defined.
