(* ===== verification/AgentResidency.v ===== *)
(** [core/src/agent/control/residency.rs] and [execution.rs]: how many sub-agents stay
    loaded, and how many run.

    Each critical section of [V2Residency] is a function on its state.  The thread
    manager is outside the model: the record [Manager] says which threads are
    loaded sub-agents, which may be unloaded and which shut down.  [usize]
    counters are natural numbers; the only arithmetic on them that could leave the
    type saturates. *)

From stdpp Require Import base list option numbers strings gmap sets.
From Stdlib Require Import NArith ZArith Lia.
From S2P Require Import Prelude RustStr AgentRegistry.
Local Open Scope rust_scope.

(** * Residency *)

Record V2ResidencyState : Type := { residents : list ThreadId; pending_slots : nat }.

Definition residency_default : V2ResidencyState := {| residents := []; pending_slots := 0 |}.

Record Manager : Type := {
  (** [get_thread] succeeds and [is_resident_candidate] holds. *)
  loaded_candidate : ThreadId -> bool;
  is_unloadable : ThreadId -> bool;
  shutdown_ok : ThreadId -> bool
}.

Implicit Types (s : V2ResidencyState) (id : ThreadId).

Definition touch_resident (residents : list ThreadId) id : list ThreadId :=
  retain (fun r => r != id) residents ++ [id].

Definition try_reserve_pending_slot s (capacity : nat) : V2ResidencyState * bool :=
  if capacity <=? length s.(residents) + s.(pending_slots) then (s, false)
  else ({| residents := s.(residents); pending_slots := s.(pending_slots) + 1 |}, true).

Fixpoint pop_lru_loop (n : nat) (protected : option ThreadId) (residents : list ThreadId)
  : list ThreadId * option ThreadId :=
  match n with
  | 0 => (residents, None)
  | S n =>
      match residents with
      | [] => ([], None)
      | candidate :: rest =>
          if Some candidate == protected then pop_lru_loop n protected (rest ++ [candidate])
          else (rest, Some candidate)
      end
  end.

Definition pop_lru_candidate s (protected : option ThreadId) : V2ResidencyState * option ThreadId :=
  let '(rs, c) := pop_lru_loop (length s.(residents)) protected s.(residents) in
  ({| residents := rs; pending_slots := s.(pending_slots) |}, c).

Definition touch s id : V2ResidencyState :=
  {| residents := touch_resident s.(residents) id; pending_slots := s.(pending_slots) |}.

Definition remove_resident s id : V2ResidencyState :=
  {| residents := retain (fun r => r != id) s.(residents); pending_slots := s.(pending_slots) |}.

Definition commit_slot s id : V2ResidencyState :=
  {| residents := touch_resident s.(residents) id; pending_slots := s.(pending_slots) - 1 |}.

Definition release_pending_slot s : V2ResidencyState :=
  {| residents := s.(residents); pending_slots := s.(pending_slots) - 1 |}.

Section manager.
Context (m : Manager) (protected : option ThreadId).

(** The loop of [try_unload_one_resident]; the thread unloaded, if any. *)
Fixpoint unload_loop (n : nat) s : V2ResidencyState * option ThreadId :=
  match n with
  | 0 => (s, None)
  | S n =>
      match pop_lru_candidate s protected with
      | (s, None) => (s, None)
      | (s, Some candidate) =>
          if negb (m.(loaded_candidate) candidate) then unload_loop n s
          else if negb (m.(is_unloadable) candidate) then unload_loop n (touch s candidate)
          else if negb (m.(shutdown_ok) candidate) then unload_loop n (touch s candidate)
          else (s, Some candidate)
      end
  end.

Definition try_unload_one_resident s : V2ResidencyState * option ThreadId :=
  unload_loop (length s.(residents)) s.

(** [reserve_slot] with nothing between its critical sections and a manager that does not change
    ([Reservation] below lets others in between); [None]: the fuel ran out.  The threads unloaded
    are listed. *)
Fixpoint reserve_slot (fuel capacity : nat) s : option (V2ResidencyState * list ThreadId * result unit MotygaErr) :=
  match fuel with
  | 0 => None
  | S fuel =>
      match try_reserve_pending_slot s capacity with
      | (s, true) => Some (s, [], Ok tt)
      | (s, false) =>
          match try_unload_one_resident s with
          | (s, None) => Some (s, [], Err (AgentLimitReached (Z.of_nat capacity)))
          | (s, Some id) =>
              match reserve_slot fuel capacity s with
              | Some (s, ids, r) => Some (s, id :: ids, r)
              | None => None
              end
          end
      end
  end.

(** ** Laws *)

(** A resident that can be unloaded. *)
Definition evictable id : Prop :=
  Some id <> protected /\ m.(loaded_candidate) id = true /\ m.(is_unloadable) id = true /\ m.(shutdown_ok) id = true.

(** The residents other than the protected one, oldest first. *)
Definition unprotected (l : list ThreadId) : list ThreadId := retain (fun r => Some r != protected) l.

Lemma pop_rotates ps l k :
  Forall (fun r => Some r = protected) ps ->
  pop_lru_loop (length ps + k) protected (ps ++ l) = pop_lru_loop k protected (l ++ ps).
Proof.
  intros Hps. revert l. induction Hps as [|p ps Hp _ IH]; intros l; cbn [length app Nat.add pop_lru_loop].
  - by rewrite app_nil_r.
  - rewrite bool_decide_eq_true_2 by done. rewrite <- app_assoc, IH. by rewrite <- app_assoc.
Qed.

Lemma protected_prefix l :
  Forall (fun r => Some r = protected) l
  \/ exists ps id rest, l = ps ++ id :: rest /\ Forall (fun r => Some r = protected) ps /\ Some id <> protected.
Proof.
  induction l as [|x l IH]; [by left|]. destruct (decide (Some x = protected)) as [Hx|Hx].
  - destruct IH as [IH|(ps & id & rest & -> & Hps & Hid)]; [left; by constructor|].
    right. exists (x :: ps), id, rest. split_and!; [done|by constructor|done].
  - right. exists [], x, l. split_and!; [done|constructor|done].
Qed.

Lemma unprotected_protected l : Forall (fun r => Some r = protected) l -> unprotected l = [].
Proof. induction 1 as [|x l Hx _ IH]; [done|]. unfold unprotected in *. cbn. by rewrite bool_decide_eq_true_2. Qed.

(** The oldest resident that is not protected is taken out. *)
Lemma pop_lru_spec s s' c :
  pop_lru_candidate s protected = (s', c) ->
  s'.(pending_slots) = s.(pending_slots)
  /\ match c with
     | Some id => Some id <> protected /\ unprotected s.(residents) = id :: unprotected s'.(residents)
                  /\ Permutation s.(residents) (id :: s'.(residents))
     | None => unprotected s.(residents) = [] /\ Permutation s'.(residents) s.(residents)
     end.
Proof.
  unfold pop_lru_candidate. destruct (protected_prefix s.(residents)) as [Hall|(ps & id & rest & E & Hps & Hid)].
  - rewrite <- (app_nil_r s.(residents)) at 2. rewrite <- (Nat.add_0_r (length _)), pop_rotates by done. cbn.
    intros [= <- <-]. cbn. split; [done|]. by rewrite unprotected_protected.
  - rewrite E, length_app, pop_rotates by done. cbn [length app pop_lru_loop]. rewrite bool_decide_eq_false_2 by done.
    intros [= <- <-]. cbn. split; [done|]. split; [done|]. split.
    + unfold unprotected. rewrite !retain_app. fold (unprotected ps). rewrite unprotected_protected by done. cbn.
      rewrite bool_decide_eq_false_2 by done. cbn. by rewrite app_nil_r.
    + rewrite <- Permutation_middle. by rewrite Permutation_app_comm.
Qed.

Lemma touch_fresh l id : id ∉ l -> touch_resident l id = l ++ [id].
Proof.
  intros Hid. unfold touch_resident. rewrite retain_id; [done|]. intros a Ha.
  rewrite negb_true_iff, bool_decide_eq_false. by intros ->.
Qed.

Lemma touch_resident_NoDup l id : NoDup l -> NoDup (touch_resident l id).
Proof.
  intros Hl. unfold touch_resident. apply NoDup_app. split_and!; [by apply NoDup_retain| |apply NoDup_singleton].
  intros x Hx ->%list_elem_of_singleton. apply elem_of_retain in Hx as [Hx _].
  by rewrite bool_decide_eq_true_2 in Hx.
Qed.

(** Only stale entries are dropped besides the thread that is unloaded. *)
Definition kept (l l' gone : list ThreadId) : Prop :=
  NoDup l' /\ (forall x, x ∈ l' -> x ∈ l) /\ (forall x, x ∈ l -> x ∈ l' \/ x ∈ gone \/ m.(loaded_candidate) x = false).

Lemma kept_trans l l1 l2 g1 g2 : kept l l1 g1 -> kept l1 l2 g2 -> kept l l2 (g1 ++ g2).
Proof. intros (_ & H1 & H2) (N & H3 & H4). split_and!; [done|auto|]. intros x Hx. rewrite elem_of_app. naive_solver. Qed.

Lemma unload_loop_spec n s s' o us1 us2 :
  NoDup s.(residents) -> unprotected s.(residents) = us1 ++ us2 -> length us1 <= n ->
  unload_loop n s = (s', o) ->
  s'.(pending_slots) = s.(pending_slots) /\ kept s.(residents) s'.(residents) (option_list o)
  /\ match o with
     | Some id => evictable id /\ id ∈ s.(residents) /\ (id ∉ s'.(residents))
     | None => Forall (fun id => ~ evictable id) us1
     end.
Proof.
  revert s us1 us2. induction n as [|n IH]; intros s us1 us2 Hnd Hus Hn; cbn [unload_loop].
  { intros [= <- <-]. destruct us1; [|cbn in Hn; lia]. split_and!; [done|split_and!; [done|auto..]|constructor]. }
  destruct (pop_lru_candidate s protected) as [s1 [c|]] eqn:Ep; apply pop_lru_spec in Ep as (Epend & Hp).
  2: { intros [= <- <-]. destruct Hp as [Hu Hperm]. split_and!; [done| |].
       - split_and!; [by rewrite Hperm|intros x; by rewrite Hperm|intros x; rewrite Hperm; auto].
       - rewrite Hu in Hus. symmetry in Hus. apply app_nil in Hus as [-> _]. constructor. }
  destruct Hp as (Hc & Hu & Hperm). rewrite Hperm in Hnd. apply NoDup_cons in Hnd as [Hni Hnd].
  assert (forall s2 us1' us2', NoDup s2.(residents) -> s2.(pending_slots) = s1.(pending_slots) ->
    unprotected s2.(residents) = us1' ++ us2' -> length us1' <= n ->
    kept s.(residents) s2.(residents) [] -> (Forall (fun id => ~ evictable id) us1' -> Forall (fun id => ~ evictable id) us1) ->
    unload_loop n s2 = (s', o) ->
    s'.(pending_slots) = s.(pending_slots) /\ kept s.(residents) s'.(residents) (option_list o)
    /\ match o with
       | Some id => evictable id /\ id ∈ s.(residents) /\ (id ∉ s'.(residents))
       | None => Forall (fun id => ~ evictable id) us1
       end) as Hgo.
  { intros s2 us1' us2' Hnd2 Hp2 Hu2 Hl2 Hk Hf Hrun.
    destruct (IH s2 us1' us2' Hnd2 Hu2 Hl2 Hrun) as (Hpend & Hk' & Ho). split_and!; [congruence|by apply (kept_trans _ _ _ [] _ Hk Hk')|].
    destruct o as [id|]; [|by apply Hf]. destruct Ho as (? & Hin & ?). split_and!; try done. by apply Hk. }
  assert (exists us1' us2', unprotected s1.(residents) = us1' ++ us2' /\ length us1' <= n
    /\ (~ evictable c -> Forall (fun id => ~ evictable id) us1' -> Forall (fun id => ~ evictable id) us1))
    as (us1' & us2' & Hu1 & Hl1 & Hf1).
  { rewrite Hu in Hus. destruct us1 as [|u us1].
    - exists [], (unprotected s1.(residents)). split_and!; [done|cbn; lia|done].
    - injection Hus as <- Hus. exists us1, us2. cbn in Hn. split_and!; [done|lia|by constructor]. }
  assert (kept s.(residents) (touch s1 c).(residents) []) as Hkt.
  { cbn. rewrite touch_fresh by done. split_and!.
    - apply NoDup_app. split_and!; [done|by intros x Hx ->%list_elem_of_singleton|apply NoDup_singleton].
    - intros x. rewrite Hperm, elem_of_app, list_elem_of_singleton. intros [?| ->]; [by right|by left].
    - intros x. rewrite Hperm, elem_of_app, list_elem_of_singleton. intros [->|?]%elem_of_cons; auto. }
  assert (unprotected (touch s1 c).(residents) = us1' ++ us2' ++ [c]) as Hut.
  { cbn. rewrite touch_fresh by done. unfold unprotected in *. rewrite retain_app, Hu1. cbn.
    rewrite bool_decide_eq_false_2 by done. cbn. by rewrite app_assoc. }
  destruct (loaded_candidate m c) eqn:El; cbn [negb].
  2: { apply (Hgo s1 us1' us2'); [done..| |].
       - split_and!; [done|intros x; rewrite Hperm, elem_of_cons; auto|].
         intros x. rewrite Hperm, elem_of_cons. intros [->|?]; auto.
       - apply Hf1. intros (_ & ? & _). congruence. }
  destruct (is_unloadable m c) eqn:Eu; cbn [negb].
  2: { apply (Hgo (touch s1 c) us1' (us2' ++ [c])); [apply Hkt|done..|]. apply Hf1. intros (_ & _ & ? & _). congruence. }
  destruct (shutdown_ok m c) eqn:Es; cbn [negb].
  2: { apply (Hgo (touch s1 c) us1' (us2' ++ [c])); [apply Hkt|done..|]. apply Hf1. intros (_ & _ & _ & ?). congruence. }
  intros [= <- <-]. split_and!; [done| |done|by rewrite Hperm; left|done].
  split_and!; [done|intros x; rewrite Hperm, elem_of_cons; auto|].
  intros x. rewrite Hperm, elem_of_cons. intros [->|?]; [right; left; by left|auto].
Qed.

(** The whole scan: a thread that can be unloaded is, or there is none. *)
Lemma try_unload_spec s s' o :
  NoDup s.(residents) -> try_unload_one_resident s = (s', o) ->
  s'.(pending_slots) = s.(pending_slots) /\ kept s.(residents) s'.(residents) (option_list o)
  /\ match o with
     | Some id => evictable id /\ id ∈ s.(residents) /\ (id ∉ s'.(residents))
     | None => forall id, id ∈ s.(residents) -> ~ evictable id
     end.
Proof.
  intros Hnd Hrun. destruct (unload_loop_spec (length s.(residents)) s s' o (unprotected s.(residents)) [] Hnd) as (Hp & Hk & Ho).
  - by rewrite app_nil_r.
  - unfold unprotected. generalize (fun r : ThreadId => Some r != protected) as f. generalize (residents s) as l. clear.
    intros l f. induction l as [|x l IH]; cbn [retain length]; [lia|]. destruct (f x); cbn [length]; lia.
  - exact Hrun.
  - split_and!; [done..|]. destruct o as [id|]; [done|]. intros id Hid He.
    rewrite Forall_forall in Ho. apply (Ho id); [|done]. apply elem_of_retain. split; [|done].
    rewrite negb_true_iff, bool_decide_eq_false. apply He.
Qed.

Lemma kept_shorter l l' id : NoDup l -> kept l l' [id] -> id ∈ l -> id ∉ l' -> length l' < length l.
Proof.
  intros Hl (Hn & Hs & _) Hin Hni. assert (length (id :: l') <= length l); [|cbn in *; lia].
  apply submseteq_length, NoDup_submseteq; [by constructor|]. intros x [->|?]%elem_of_cons; auto.
Qed.

(** A reservation that nothing interrupts, under a manager whose answers do not change,
    ends, and unloads only what it may.  With one round per resident it returns; every
    thread it unloads was resident, idle and not the protected one; the others stay
    resident unless their thread is gone; on success residents and reserved slots fit the
    capacity; when it fails no resident is left that could be unloaded.  For reservations
    that interleave see [reservations_accounted]. *)
Theorem reserve_slot_spec fuel capacity s :
  NoDup s.(residents) -> length s.(residents) < fuel ->
  exists s' ids r, reserve_slot fuel capacity s = Some (s', ids, r)
    /\ kept s.(residents) s'.(residents) ids
    /\ Forall (fun id => evictable id /\ id ∈ s.(residents) /\ (id ∉ s'.(residents))) ids
    /\ match r with
       | Ok _ => s'.(pending_slots) = s.(pending_slots) + 1 /\ length s'.(residents) + s'.(pending_slots) <= capacity
       | Err e => e = AgentLimitReached (Z.of_nat capacity) /\ s'.(pending_slots) = s.(pending_slots)
                  /\ forall id, id ∈ s'.(residents) -> ~ evictable id
       end.
Proof.
  revert s. induction fuel as [|fuel IH]; intros s Hnd Hf; [lia|]. cbn [reserve_slot]. unfold try_reserve_pending_slot.
  destruct (Nat.leb_spec capacity (length s.(residents) + s.(pending_slots))) as [Hfull|Hfree].
  2: { eexists _, [], _. split; [done|]. split; [split_and!; [done|auto..]|]. split; [constructor|]. cbn. lia. }
  destruct (try_unload_one_resident s) as [s1 o] eqn:Eu.
  destruct (try_unload_spec s s1 o Hnd Eu) as (Hp & Hk & Ho). destruct o as [id|].
  2: { eexists _, [], _. split; [done|]. split; [done|]. split; [constructor|]. split_and!; [done..|].
       intros id Hid. apply Ho. by apply Hk. }
  destruct Ho as (He & Hin & Hni). pose proof (kept_shorter _ _ _ Hnd Hk Hin Hni) as Hlt.
  destruct (IH s1) as (s' & ids & r & Er & Hk' & Hids & Hr); [apply Hk|lia|]. rewrite Er.
  exists s', (id :: ids), r. split; [done|]. split; [by apply (kept_trans _ _ _ [id] _ Hk Hk')|]. split.
  - constructor; [split_and!; [done..|]; intros Hx; by apply Hni, Hk'|].
    eapply Forall_impl; [exact Hids|]. intros x (? & ? & ?). split_and!; [done| |done]. by apply Hk.
  - rewrite Hp in Hr. exact Hr.
Qed.
End manager.

(** Every operation keeps each resident listed once. *)
Lemma operations_NoDup s id :
  NoDup s.(residents) ->
  NoDup (touch s id).(residents) /\ NoDup (remove_resident s id).(residents) /\ NoDup (commit_slot s id).(residents).
Proof. intros Hs. split_and!; cbn; [by apply touch_resident_NoDup|by apply NoDup_retain|by apply touch_resident_NoDup]. Qed.

(** Entries whose threads are gone count against the capacity, and dropping them does
    not count as making room: the reservation fails although the slot is now free. *)
Theorem stale_resident_fails_reservation m protected id fuel :
  m.(loaded_candidate) id = false -> Some id <> protected ->
  exists s', reserve_slot m protected (S fuel) 1 {| residents := [id]; pending_slots := 0 |}
             = Some (s', [], Err (AgentLimitReached 1))
    /\ (try_reserve_pending_slot s' 1).2 = true.
Proof.
  intros Hm Hp. set (s0 := {| residents := [id]; pending_slots := 0 |}).
  assert (pop_lru_candidate s0 protected = (residency_default, Some id)) as Epop.
  { unfold pop_lru_candidate. cbn [s0 residents length pop_lru_loop]. by rewrite bool_decide_eq_false_2. }
  assert (try_unload_one_resident m protected s0 = (residency_default, None)) as Eu.
  { unfold try_unload_one_resident. change (length s0.(residents)) with 1. cbn [unload_loop]. by rewrite Epop, Hm. }
  exists residency_default. cbn [reserve_slot]. change (try_reserve_pending_slot s0 1) with (s0, false). cbv beta iota. by rewrite Eu.
Qed.

(** * Interleaved reservations

    [reserve_slot] above is a reservation that nothing interrupts, under a manager whose
    answers do not change.  The code awaits the manager between its critical sections, so
    reservations interleave with each other and with everything else that uses the list.
    A [Reservation] is where one reservation is; [reservation_step] is its next critical section, and
    the manager's answer is free.  [system_step] adds the rest: reservations begin and are
    cancelled (a dropped future), slots are committed or dropped, loaded threads are
    touched and closed ones forgotten. *)

Inductive Reservation : Type :=
| AtReserve (protected : option ThreadId)
| AtScan (protected : option ThreadId)
| AtPop (protected : option ThreadId) (rounds : nat)
| Asking (protected : option ThreadId) (rounds : nat) (candidate : ThreadId)
| Holding
| Denied
| Over.

(** What the manager says of a candidate: no loaded sub-agent, not idle, not shut down, or unloaded. *)
Inductive ManagerAnswer : Set := Gone | Busy | ShutdownFails | Unloads.

Definition reservation_step (capacity : nat) (answer : ManagerAnswer) s (t : Reservation) : option (V2ResidencyState * Reservation) :=
  match t with
  | AtReserve protected =>
      let '(s, ok) := try_reserve_pending_slot s capacity in Some (s, if ok then Holding else AtScan protected)
  | AtScan protected => Some (s, AtPop protected (length s.(residents)))
  | AtPop _ 0 => Some (s, Denied)
  | AtPop protected (S rounds) =>
      match pop_lru_candidate s protected with
      | (s, None) => Some (s, Denied)
      | (s, Some candidate) => Some (s, Asking protected rounds candidate)
      end
  | Asking protected rounds candidate =>
      match answer with
      | Gone => Some (s, AtPop protected rounds)
      | Busy | ShutdownFails => Some (touch s candidate, AtPop protected rounds)
      | Unloads => Some (s, AtReserve protected)
      end
  | Holding | Denied | Over => None
  end.

Definition in_progress (t : Reservation) : bool :=
  match t with AtReserve _ | AtScan _ | AtPop _ _ | Asking _ _ _ => true | _ => false end.
Definition is_holding (t : Reservation) : bool := match t with Holding => true | _ => false end.
Definition asked (ts : list Reservation) : list ThreadId :=
  omap (fun t => match t with Asking _ _ c => Some c | _ => None end) ts.

(** [adopted] counts the touches of threads that were neither listed nor being asked about. *)
Record ResidencySystem : Type := { residency : V2ResidencyState; reservations : list Reservation; adopted : nat }.
Definition system_init : ResidencySystem := {| residency := residency_default; reservations := []; adopted := 0 |}.
Definition count_of (p : Reservation -> bool) (ts : list Reservation) : nat := length (retain p ts).

Section interleaved.
Context (capacity : nat).

(** A step of one of the reservations. *)
Inductive quiet_step : ResidencySystem -> ResidencySystem -> Prop :=
| step_reservation s ts1 t ts2 n answer s' t' :
    reservation_step capacity answer s t = Some (s', t') ->
    quiet_step {| residency := s; reservations := ts1 ++ t :: ts2; adopted := n |} {| residency := s'; reservations := ts1 ++ t' :: ts2; adopted := n |}.

(** At most [limit] reservations are in progress at once. *)
Inductive system_step (limit : nat) : ResidencySystem -> ResidencySystem -> Prop :=
| step_quiet x y : quiet_step x y -> system_step limit x y
| step_begin s ts n protected :
    count_of in_progress ts < limit ->
    system_step limit {| residency := s; reservations := ts; adopted := n |} {| residency := s; reservations := ts ++ [AtReserve protected]; adopted := n |}
| step_cancel s ts1 t ts2 n :
    in_progress t = true ->
    system_step limit {| residency := s; reservations := ts1 ++ t :: ts2; adopted := n |} {| residency := s; reservations := ts1 ++ Over :: ts2; adopted := n |}
| step_commit s ts1 ts2 n id :
    system_step limit {| residency := s; reservations := ts1 ++ Holding :: ts2; adopted := n |}
      {| residency := commit_slot s id; reservations := ts1 ++ Over :: ts2; adopted := n |}
| step_drop s ts1 ts2 n :
    system_step limit {| residency := s; reservations := ts1 ++ Holding :: ts2; adopted := n |}
      {| residency := release_pending_slot s; reservations := ts1 ++ Over :: ts2; adopted := n |}
| step_touch s ts n id :
    system_step limit {| residency := s; reservations := ts; adopted := n |}
      {| residency := touch s id; reservations := ts;
         adopted := if bool_decide (id ∈ s.(residents) ++ asked ts) then n else S n |}
| step_forget s ts n id :
    system_step limit {| residency := s; reservations := ts; adopted := n |} {| residency := remove_resident s id; reservations := ts; adopted := n |}.

(** The threads that are listed or being asked about. *)
Definition known s (ts : list Reservation) : gset ThreadId := list_to_set (s.(residents) ++ asked ts).

Definition protected_spared (t : Reservation) : Prop :=
  match t with Asking protected _ c => Some c <> protected | _ => True end.

Record system_ok (limit : nat) (x : ResidencySystem) : Prop := {
  ok_nodup : NoDup x.(residency).(residents);
  ok_pending : x.(residency).(pending_slots) = count_of is_holding x.(reservations);
  ok_limit : count_of in_progress x.(reservations) <= limit;
  ok_spared : Forall protected_spared x.(reservations);
  ok_known : size (known x.(residency) x.(reservations)) + x.(residency).(pending_slots) <= capacity + pred limit + x.(adopted)
}.

Lemma count_of_middle p ts1 t ts2 :
  count_of p (ts1 ++ t :: ts2) = (if p t then 1 else 0) + count_of p (ts1 ++ ts2).
Proof. unfold count_of. rewrite !retain_app, !length_app. cbn [retain]. destruct (p t); cbn [length]; lia. Qed.

Lemma asked_middle ts1 t ts2 :
  asked (ts1 ++ t :: ts2) = asked ts1 ++ (match t with Asking _ _ c => [c] | _ => [] end) ++ asked ts2.
Proof. unfold asked. rewrite omap_app. by destruct t. Qed.

Lemma asked_app ts1 ts2 : asked (ts1 ++ ts2) = asked ts1 ++ asked ts2.
Proof. apply omap_app. Qed.

Lemma asked_in_progress ts : length (asked ts) <= count_of in_progress ts.
Proof. unfold asked, count_of. induction ts as [|[] ts IH]; cbn in *; lia. Qed.
Lemma elem_of_known s ts x : x ∈ known s ts <-> x ∈ s.(residents) \/ x ∈ asked ts.
Proof. unfold known. by rewrite elem_of_list_to_set, elem_of_app. Qed.

Lemma known_size s ts : size (known s ts) <= length s.(residents) + length (asked ts).
Proof.
  unfold known. rewrite <- length_app. generalize (residents s ++ asked ts) as l. clear.
  induction l as [|x l IH]; cbn [list_to_set length]; [by rewrite size_empty|].
  rewrite size_union_alt, size_singleton. pose proof (subseteq_size (list_to_set l ∖ {[x]}) (list_to_set (C:=gset ThreadId) l)).
  set_solver by lia.
Qed.

Lemma known_grow s ts s' ts' id :
  (forall x, x ∈ known s' ts' -> x ∈ known s ts \/ x = id) -> size (known s' ts') <= S (size (known s ts)).
Proof.
  intros H. etrans; [apply (subseteq_size _ ({[id]} ∪ known s ts)); set_solver|].
  rewrite size_union_alt, size_singleton. pose proof (subseteq_size (known s ts ∖ {[id]}) (known s ts)). set_solver by lia.
Qed.

Lemma known_mono s ts s' ts' :
  (forall x, x ∈ known s' ts' -> x ∈ known s ts) -> size (known s' ts') <= size (known s ts).
Proof. intros H. by apply subseteq_size. Qed.

Lemma residents_known s ts : NoDup s.(residents) -> length s.(residents) <= size (known s ts).
Proof.
  intros Hn. rewrite <- (size_list_to_set (C:=gset ThreadId)) by done. apply subseteq_size.
  intros x. rewrite elem_of_list_to_set, elem_of_known. auto.
Qed.

Lemma elem_of_touch s id x : x ∈ (touch s id).(residents) <-> (x ∈ s.(residents) \/ x = id).
Proof.
  cbn. unfold touch_resident. rewrite elem_of_app, elem_of_retain, list_elem_of_singleton, negb_true_iff, bool_decide_eq_false.
  destruct (decide (x = id)); naive_solver.
Qed.

(** What a critical section of one reservation does to the books. *)
Lemma reservation_step_books answer s ts1 t ts2 s' t' :
  NoDup s.(residents) -> reservation_step capacity answer s t = Some (s', t') ->
  NoDup s'.(residents) /\ protected_spared t' /\ in_progress t = true /\ is_holding t = false
  /\ (if is_holding t' then in_progress t' = false /\ s' = {| residents := s.(residents); pending_slots := s.(pending_slots) + 1 |}
        /\ asked (ts1 ++ t' :: ts2) = asked (ts1 ++ t :: ts2) /\ asked (ts1 ++ t :: ts2) = asked (ts1 ++ ts2)
        /\ length s.(residents) + s.(pending_slots) < capacity
      else s'.(pending_slots) = s.(pending_slots)
        /\ forall x, x ∈ known s' (ts1 ++ t' :: ts2) -> x ∈ known s (ts1 ++ t :: ts2)).
Proof.
  intros Hn Hs. destruct t as [p|p|p n|p n c| | |]; cbn [reservation_step] in Hs; try done.
  - unfold try_reserve_pending_slot in Hs. destruct (Nat.leb_spec capacity (length (residents s) + pending_slots s)) as [Hf|Hf];
      injection Hs as <- <-; cbn; (split_and!; try done); [by intros x; rewrite !elem_of_known, !asked_middle|..];
      rewrite !asked_middle; [done|]. by rewrite asked_app.
  - injection Hs as <- <-. cbn. split_and!; try done. by intros x; rewrite !elem_of_known, !asked_middle.
  - destruct n as [|n]; [injection Hs as <- <-; cbn; split_and!; try done; by intros x; rewrite !elem_of_known, !asked_middle|].
    destruct (pop_lru_candidate s p) as [s1 [c|]] eqn:Ep; apply pop_lru_spec in Ep as (Hp & Hc);
      injection Hs as <- <-; cbn [is_holding in_progress protected_spared].
    + destruct Hc as (Hc & _ & Hperm). rewrite Hperm in Hn. apply NoDup_cons in Hn as [_ Hn]. split_and!; try done.
      intros x. rewrite !elem_of_known, !asked_middle, Hperm. set_solver.
    + destruct Hc as (_ & Hperm). split_and!; [by rewrite Hperm|done..|].
      intros x. by rewrite !elem_of_known, !asked_middle, Hperm.
  - destruct answer; injection Hs as <- <-; cbn [is_holding in_progress protected_spared]; (split_and!; try done);
      try (intros x; rewrite !elem_of_known, !asked_middle; set_solver); try (by apply touch_resident_NoDup);
      intros x; rewrite !elem_of_known, elem_of_touch, !asked_middle; set_solver.
Qed.

Lemma quiet_step_ok limit x y : system_ok limit x -> quiet_step x y -> system_ok limit y.
Proof.
  intros [Hn Hp Hl Hs Hk] Hstep. destruct Hstep as [s ts1 t ts2 n answer s' t' Hstep]. cbn [residency reservations adopted] in *.
  destruct (reservation_step_books answer s ts1 t ts2 s' t' Hn Hstep) as (Hn' & Hs' & Ht & Hh & Hcase).
  assert (Forall protected_spared (ts1 ++ t' :: ts2)) as Hspared.
  { apply Forall_app in Hs as [H1 [_ H2]%Forall_cons]. apply Forall_app. split; [done|]. by constructor. }
  rewrite count_of_middle, Hh in Hp. rewrite count_of_middle, Ht in Hl.
  destruct (is_holding t') eqn:Eh.
  - destruct Hcase as (Ht' & -> & Ea & Ea' & Hroom). split; cbn [residency reservations adopted residents pending_slots]; try done.
    + rewrite count_of_middle, Eh. lia.
    + rewrite count_of_middle, Ht'. lia.
    + etrans; [apply Nat.add_le_mono_r, known_size|]. cbn [residents]. rewrite Ea, Ea'. pose proof (asked_in_progress (ts1 ++ ts2)). lia.
  - destruct Hcase as [Hpend Hsub]. split; cbn [residency reservations adopted residents pending_slots]; try done.
    + rewrite count_of_middle, Eh, Hpend. lia.
    + rewrite count_of_middle. destruct (in_progress t'); lia.
    + rewrite Hpend. pose proof (known_mono _ _ _ _ Hsub). lia.
Qed.

Lemma system_step_ok limit x y : system_ok limit x -> system_step limit x y -> system_ok limit y.
Proof.
  intros Hok Hstep. destruct Hstep as [x y Hq|s ts n p Hlt|s ts1 t ts2 n Ht|s ts1 ts2 n id|s ts1 ts2 n|s ts n id|s ts n id];
    [by apply (quiet_step_ok limit x)|destruct Hok as [Hn Hp Hl Hs Hk]; cbn [residency reservations adopted] in *..].
  - split; cbn [residency reservations adopted]; try done.
    + rewrite count_of_middle, app_nil_r. done.
    + rewrite count_of_middle, app_nil_r. cbn [in_progress]. lia.
    + apply Forall_app. split; [done|]. by constructor.
    + etrans; [apply Nat.add_le_mono_r|exact Hk]. apply known_mono. intros x. rewrite !elem_of_known, asked_middle, !app_nil_r. done.
  - assert (is_holding t = false) as Eh by by destruct t.
    rewrite count_of_middle, Eh in Hp. rewrite count_of_middle, Ht in Hl. split; cbn [residency reservations adopted]; try done.
    + by rewrite count_of_middle.
    + rewrite count_of_middle. cbn [in_progress]. lia.
    + apply Forall_app in Hs as [H1 [_ H2]%Forall_cons]. apply Forall_app. split; [done|]. by constructor.
    + etrans; [apply Nat.add_le_mono_r|exact Hk]. apply known_mono. intros x. rewrite !elem_of_known, !asked_middle. set_solver.
  - rewrite count_of_middle in Hp, Hl. cbn [is_holding in_progress] in *.
    split; cbn [residency reservations adopted residents pending_slots commit_slot]; try done.
    + by apply touch_resident_NoDup.
    + rewrite count_of_middle. cbn [is_holding]. lia.
    + rewrite count_of_middle. cbn [in_progress]. lia.
    + apply Forall_app in Hs as [H1 [_ H2]%Forall_cons]. apply Forall_app. split; [done|]. by constructor.
    + pose proof (known_grow s (ts1 ++ Holding :: ts2) (commit_slot s id) (ts1 ++ Over :: ts2) id) as Hg.
      etrans; [apply Nat.add_le_mono_r, Hg|lia]. intros x. rewrite !elem_of_known, !asked_middle.
      change (residents (commit_slot s id)) with (residents (touch s id)). rewrite elem_of_touch. tauto.
  - rewrite count_of_middle in Hp, Hl. cbn [is_holding in_progress] in *.
    split; cbn [residency reservations adopted residents pending_slots release_pending_slot]; try done.
    + rewrite count_of_middle. cbn [is_holding]. lia.
    + rewrite count_of_middle. cbn [in_progress]. lia.
    + apply Forall_app in Hs as [H1 [_ H2]%Forall_cons]. apply Forall_app. split; [done|]. by constructor.
    + etrans; [apply Nat.add_le_mono; [apply (known_mono s (ts1 ++ Holding :: ts2))|apply Nat.le_sub_l]|exact Hk].
      intros x. by rewrite !elem_of_known, !asked_middle.
  - split; cbn [residency reservations adopted]; try done; [by apply touch_resident_NoDup|]. case_bool_decide as Hid.
    + etrans; [apply Nat.add_le_mono_r|exact Hk]. apply known_mono. intros x. rewrite !elem_of_known, elem_of_touch.
      apply elem_of_app in Hid. intros [[?| ->]|?]; tauto.
    + etrans; [apply Nat.add_le_mono_r, (known_grow s ts _ _ id)|cbn [pending_slots touch]; lia].
      intros x. rewrite !elem_of_known, elem_of_touch. tauto.
  - split; cbn [residency reservations adopted remove_resident residents pending_slots]; try done; [by apply NoDup_retain|].
    etrans; [apply Nat.add_le_mono_r|exact Hk]. apply known_mono. intros x. rewrite !elem_of_known. cbn [remove_resident residents].
    rewrite elem_of_retain. tauto.
Qed.

(** ** Termination

    Every critical section uses up rounds of its reservation, or loses an entry of the list. *)
Definition entries s (ts : list Reservation) : nat := length s.(residents) + length (asked ts).
Definition rounds_left (n : nat) (t : Reservation) : nat :=
  match t with
  | AtReserve _ => 2 * n + 3
  | AtScan _ => 2 * n + 2
  | AtPop _ rounds => 2 * rounds + 1
  | Asking _ rounds _ => 2 * rounds + 2
  | Holding | Denied | Over => 0
  end.
Definition work (n : nat) (ts : list Reservation) : nat := sum_list_with (rounds_left n) ts.

Lemma touch_length s id : length (touch s id).(residents) <= S (length s.(residents)).
Proof.
  cbn. unfold touch_resident. rewrite length_app. cbn. generalize (residents s) as l. intros l.
  assert (length (retain (fun r => r != id) l) <= length l); [|lia].
  induction l as [|x l IH]; cbn; [lia|]. destruct (x != id); cbn; lia.
Qed.

Lemma reservation_step_work answer s ts1 t ts2 s' t' :
  reservation_step capacity answer s t = Some (s', t') ->
  let e := entries s (ts1 ++ t :: ts2) in let e' := entries s' (ts1 ++ t' :: ts2) in
  e' < e \/ e' = e /\ rounds_left e t' < rounds_left e t.
Proof.
  cbv zeta. unfold entries. rewrite !asked_middle, !length_app. intros Hs.
  destruct t as [p|p|p n|p n c| | |]; cbn [reservation_step] in Hs; try done.
  - unfold try_reserve_pending_slot in Hs. destruct (capacity <=? _); simplify_eq/=; right; lia.
  - simplify_eq/=. right. lia.
  - destruct n as [|n]; [simplify_eq/=; right; lia|].
    destruct (pop_lru_candidate s p) as [s1 [c|]] eqn:Ep; apply pop_lru_spec in Ep as (_ & Hc); simplify_eq/=; right.
    + destruct Hc as (_ & _ & ->%Permutation_length). cbn. lia.
    + destruct Hc as (_ & ->%Permutation_length). lia.
  - pose proof (touch_length s c). destruct answer; simplify_eq/=; lia.
Qed.

Lemma quiet_terminates x : Acc (flip quiet_step) x.
Proof.
  destruct x as [s ts n]. remember (entries s ts) as e eqn:He. remember (work e ts) as w eqn:Hw.
  revert w s ts He Hw. induction e as [e IHe] using lt_wf_ind. intros w. induction w as [w IHw] using lt_wf_ind.
  intros s ts He Hw. constructor. intros y Hstep. unfold flip in Hstep. inversion Hstep as [s0 ts1 t ts2 n0 answer s' t' Hr]; subst.
  pose proof (reservation_step_work answer s ts1 t ts2 s' t' Hr) as Hd. cbv zeta in Hd.
  destruct Hd as [Hlt|[Heq Hlt]].
  - by eapply (IHe _ Hlt).
  - eapply IHw; [|symmetry; exact Heq|reflexivity]. unfold work. rewrite !sum_list_with_app. cbn [sum_list_with]. lia.
Qed.

Lemma quiet_stuck x : (forall y, ~ quiet_step x y) -> Forall (fun t => in_progress t = false) x.(reservations).
Proof.
  destruct x as [s ts n]. cbn. intros Hstuck. apply Forall_forall. intros t Ht.
  destruct (in_progress t) eqn:E; [exfalso|done]. apply list_elem_of_split in Ht as (ts1 & ts2 & ->).
  assert (exists s' t', reservation_step capacity Gone s t = Some (s', t')) as (s' & t' & Hs).
  { destruct t as [p|p|p [|k]|p k c| | |]; cbn [reservation_step]; try done; eauto;
      [destruct (try_reserve_pending_slot _ _)|destruct (pop_lru_candidate _ _) as [? [|]]]; eauto. }
  eapply Hstuck, step_reservation, Hs.
Qed.

End interleaved.

(** ** One reservation alone

    With nothing in between and a manager whose answers do not change the critical
    sections are those of [reserve_slot]. *)
Definition answer_of (m : Manager) (candidate : ThreadId) : ManagerAnswer :=
  if negb (m.(loaded_candidate) candidate) then Gone
  else if negb (m.(is_unloadable) candidate) then Busy
  else if negb (m.(shutdown_ok) candidate) then ShutdownFails else Unloads.

Definition alone (m : Manager) (capacity : nat) (x y : V2ResidencyState * Reservation) : Prop :=
  reservation_step capacity (match x.2 with Asking _ _ c => answer_of m c | _ => Gone end) x.1 x.2 = Some y.

Lemma unload_loop_runs m protected capacity n s s' o :
  unload_loop m protected n s = (s', o) ->
  rtc (alone m capacity) (s, AtPop protected n) (s', match o with Some _ => AtReserve protected | None => Denied end).
Proof.
  revert s. induction n as [|n IH]; intros s; cbn [unload_loop].
  { intros [= <- <-]. by apply rtc_once. }
  destruct (pop_lru_candidate s protected) as [s1 [c|]] eqn:Ep.
  2: { intros [= <- <-]. apply rtc_once. unfold alone. cbn. by rewrite Ep. }
  intros Hrun. eapply (rtc_l _ _ (s1, Asking protected n c)); [unfold alone; cbn; by rewrite Ep|]. revert Hrun.
  assert (forall s2 t2, reservation_step capacity (answer_of m c) s1 (Asking protected n c) = Some (s2, t2) ->
    alone m capacity (s1, Asking protected n c) (s2, t2)) as Hstep by done.
  unfold answer_of in Hstep. destruct (loaded_candidate m c); cbn [negb] in *; [|intros H; eapply rtc_l; [by apply Hstep|by apply IH]].
  destruct (is_unloadable m c); cbn [negb] in *; [|intros H; eapply rtc_l; [by apply Hstep|by apply IH]].
  destruct (shutdown_ok m c); cbn [negb] in *; [|intros H; eapply rtc_l; [by apply Hstep|by apply IH]].
  intros [= <- <-]. apply rtc_once. by apply Hstep.
Qed.

Lemma reserve_slot_runs m protected fuel capacity s s' ids r :
  reserve_slot m protected fuel capacity s = Some (s', ids, r) ->
  rtc (alone m capacity) (s, AtReserve protected) (s', if is_ok r then Holding else Denied).
Proof.
  revert s ids. induction fuel as [|fuel IH]; intros s ids; [done|]. cbn [reserve_slot].
  destruct (try_reserve_pending_slot s capacity) as [s0 [|]] eqn:Et.
  { intros [= <- <- <-]. apply rtc_once. unfold alone. cbn. by rewrite Et. }
  destruct (try_unload_one_resident m protected s0) as [s1 o] eqn:Eu. intros Hrun.
  eapply (rtc_l _ _ (s0, AtScan protected)); [unfold alone; cbn; by rewrite Et|].
  eapply (rtc_l _ _ (s0, AtPop protected (length s0.(residents)))); [done|].
  etrans; [apply (unload_loop_runs m protected capacity _ _ _ _ Eu)|].
  destruct o as [id|]; [|by injection Hrun as <- <- <-].
  destruct (reserve_slot m protected fuel capacity s1) as [[[s2 ids'] r']|] eqn:Er; [|done].
  injection Hrun as <- _ <-. by eapply IH.
Qed.

(** With room for one thread and a busy resident, a second reservation that runs
    between the two critical sections of the first succeeds: afterwards there are
    two. *)
Theorem reservation_during_scan_exceeds_capacity id :
  let s0 := {| residents := [id]; pending_slots := 0 |} in
  let '(s1, candidate) := pop_lru_candidate s0 None in
  let '(s2, second) := try_reserve_pending_slot s1 1 in
  let s3 := touch s2 id in
  (try_reserve_pending_slot s0 1).2 = false /\ candidate = Some id /\ second = true
  /\ length s3.(residents) + s3.(pending_slots) = 2.
Proof. cbn. split_and!; reflexivity. Qed.

(** * Execution *)

Record AgentExecutionLimiter : Type := { active : Z; limiter_max_threads : option Z }.

Definition initialize (l : AgentExecutionLimiter) (max_threads : Z) : AgentExecutionLimiter := {|
  active := l.(active);
  limiter_max_threads := match l.(limiter_max_threads) with Some m => Some m | None => Some max_threads end |}.

Definition limiter_max (l : AgentExecutionLimiter) : Z := default (USIZE - 1)%Z l.(limiter_max_threads).

Definition has_capacity (l : AgentExecutionLimiter) : bool := (l.(active) <? limiter_max l)%Z.

Definition guard (l : AgentExecutionLimiter) : AgentExecutionLimiter :=
  {| active := (l.(active) + 1) mod USIZE; limiter_max_threads := l.(limiter_max_threads) |}.
Definition drop_guard (l : AgentExecutionLimiter) : AgentExecutionLimiter :=
  {| active := (l.(active) - 1) mod USIZE; limiter_max_threads := l.(limiter_max_threads) |}.

Inductive MultiAgentVersion : Set := Disabled | V1 | V2.
#[global] Instance MultiAgentVersion_eq_dec : EqDecision MultiAgentVersion.
Proof. solve_decision. Defined.

Definition is_execution_limited (v : MultiAgentVersion) (source : SessionSource) : bool :=
  (v == V2) && match source with SubAgent _ => true | _ => false end.

Definition ensure_execution_capacity (l : AgentExecutionLimiter) (v : MultiAgentVersion) (source : SessionSource)
  : result unit MotygaErr :=
  if negb (is_execution_limited v source) then Ok tt
  else if has_capacity l then Ok tt else Err (AgentLimitReached (limiter_max l)).

Definition execution_guard (l : AgentExecutionLimiter) (v : MultiAgentVersion) (source : SessionSource)
  : AgentExecutionLimiter * bool :=
  if is_execution_limited v source then (guard l, true) else (l, false).

(** The check and the guard are separate: two turns that are both admitted before
    either takes its guard exceed the limit. *)
Theorem admitted_turns_exceed_limit source :
  let l := {| active := 0; limiter_max_threads := Some 1%Z |} in
  let s := SubAgent source in
  ensure_execution_capacity l V2 s = Ok tt
  /\ (active (execution_guard (execution_guard l V2 s).1 V2 s).1 = 2)%Z.
Proof. cbn. split; reflexivity. Qed.

(** * Witnesses *)

(** Thread [b] is busy, [p] is protected, [a] can be unloaded. *)
Definition w_manager : Manager := {|
  loaded_candidate _ := true; is_unloadable id := id != lit "b"; shutdown_ok _ := true |}.

Definition w_residents : V2ResidencyState := {| residents := [lit "p"; lit "b"; lit "a"]; pending_slots := 0 |}.

Lemma reserve_slot_sample :
  exists s' ids, reserve_slot w_manager (Some (lit "p")) 4 3 w_residents = Some (s', ids, Ok tt)
    /\ ids = [lit "a"] /\ length s'.(residents) + s'.(pending_slots) <= 3.
Proof.
  destruct (reserve_slot_spec w_manager (Some (lit "p")) 4 3 w_residents) as (s' & ids & r & Er & _ & _ & Hr).
  - refine (bool_decide_eq_true_1 _ _). vm_compute. reflexivity.
  - cbn. lia.
  - assert (Er' := Er). vm_compute in Er'. injection Er' as _ <- <-. exists s', [lit "a"]. split; [exact Er|].
    split; [reflexivity|]. apply Hr.
Qed.

(** Two reservations and room for one: the first pops the only resident, the second reserves
    meanwhile, and the resident, which is busy, comes back. *)
Definition w_overfull : ResidencySystem := {|
  residency := {| residents := [lit "a"]; pending_slots := 1 |};
  reservations := [Over; AtPop None 0; Holding]; adopted := 0 |}.

Lemma quiet_reachable capacity limit s ts1 t ts2 n answer s' t' x :
  rtc (system_step capacity limit) {| residency := s'; reservations := ts1 ++ t' :: ts2; adopted := n |} x ->
  reservation_step capacity answer s t = Some (s', t') ->
  rtc (system_step capacity limit) {| residency := s; reservations := ts1 ++ t :: ts2; adopted := n |} x.
Proof. intros Hx Hs. eapply rtc_l; [|exact Hx]. by eapply step_quiet, step_reservation. Qed.

Lemma w_overfull_reachable : rtc (system_step 1 2) system_init w_overfull.
Proof.
  eapply rtc_l; [apply (step_begin 1 2 residency_default [] 0 None); cbn; lia|].
  apply (quiet_reachable 1 2 residency_default [] (AtReserve None) [] 0 Gone
    {| residents := []; pending_slots := 1 |} Holding); [|reflexivity].
  eapply rtc_l; [apply (step_commit 1 2 {| residents := []; pending_slots := 1 |} [] [] 0 (lit "a"))|].
  set (s := {| residents := [lit "a"]; pending_slots := 0 |}).
  eapply rtc_l; [apply (step_begin 1 2 s [Over] 0 None); cbn; lia|].
  apply (quiet_reachable 1 2 s [Over] (AtReserve None) [] 0 Gone s (AtScan None)); [|reflexivity].
  apply (quiet_reachable 1 2 s [Over] (AtScan None) [] 0 Gone s (AtPop None 1)); [|reflexivity].
  apply (quiet_reachable 1 2 s [Over] (AtPop None 1) [] 0 Gone residency_default (Asking None 0 (lit "a"))); [|reflexivity].
  eapply rtc_l; [apply (step_begin 1 2 residency_default [Over; Asking None 0 (lit "a")] 0 None); cbn; lia|].
  apply (quiet_reachable 1 2 residency_default [Over; Asking None 0 (lit "a")] (AtReserve None) [] 0 Gone
    {| residents := []; pending_slots := 1 |} Holding); [|reflexivity].
  apply (quiet_reachable 1 2 {| residents := []; pending_slots := 1 |} [Over] (Asking None 0 (lit "a")) [Holding] 0 Busy
    {| residents := [lit "a"]; pending_slots := 1 |} (AtPop None 0)); [|reflexivity].
  apply rtc_refl.
Qed.

