(* ===== verification/ConfigLayers.v ===== *)
(** [config/src]: layered configuration.  [merge.rs], [key_aliases.rs],
    [overrides.rs], [fingerprint.rs] ([record_origins]), [config_layer_source.rs],
    [state.rs] ([ConfigLayerStack]) and [project_root_markers.rs].

    A TOML table is the list of its entries in order (the [toml] crate is built with
    [preserve_order]); keys are unique.  A float or a date is its text.  The version of
    a layer, a SHA-256 digest, and the parsing of profile names are parameters.  Of a
    stack the layers and the index of the user layer are modelled; requirements and
    warnings are carried along by the code unchanged. *)

From stdpp Require Import base list option numbers strings gmap sets sorting.
From Stdlib Require Import NArith ZArith Lia.
From S2P Require Import Prelude RustStr AbsolutePath NetworkHost.
Local Open Scope rust_scope.

(** * TOML values *)

Inductive TomlValue : Type :=
| TString (s : str)
| TInteger (z : Z)
| TFloat (text : str)
| TBoolean (b : bool)
| TDatetime (text : str)
| TArray (items : list TomlValue)
| TTable (entries : list (str * TomlValue)).

Abbreviation TomlMap := (list (str * TomlValue)).

Section map.
Context {V : Type}.
Implicit Types (m : list (str * V)) (k : str) (v : V).

Fixpoint map_get m k : option V :=
  match m with
  | [] => None
  | (k', v) :: m => if k == k' then Some v else map_get m k
  end.

(** [Map::insert]: an existing key keeps its place. *)
Fixpoint map_insert k v m : list (str * V) :=
  match m with
  | [] => [(k, v)]
  | (k', v') :: m => if k == k' then (k, v) :: m else (k', v') :: map_insert k v m
  end.

(** [Map::remove]. *)
Definition map_remove k m : list (str * V) := retain (fun e => e.1 != k) m.

(** [entry(k).or_insert(v)]. *)
Definition map_or_insert k v m : list (str * V) :=
  match map_get m k with Some _ => m | None => map_insert k v m end.
End map.

(** * Key aliases *)

Record ConfigKeyAlias : Type := { table_path : list str; legacy_key : str; canonical_key : str }.

Definition CONFIG_KEY_ALIASES : list ConfigKeyAlias :=
  [{| table_path := [lit "memories"]; legacy_key := lit "no_memories_if_mcp_or_web_search";
      canonical_key := lit "disable_on_external_context" |}].

Definition apply_alias (path : list str) (table : TomlMap) (alias : ConfigKeyAlias) : TomlMap :=
  if path == alias.(table_path)
  then match map_get table alias.(legacy_key) with
       | Some value => map_or_insert alias.(canonical_key) value (map_remove alias.(legacy_key) table)
       | None => table
       end
  else table.

Definition normalize_key_aliases (path : list str) (table : TomlMap) : TomlMap :=
  foldl (apply_alias path) table CONFIG_KEY_ALIASES.

Fixpoint normalized_with_key_aliases (path : list str) (value : TomlValue) : TomlValue :=
  match value with
  | TTable table =>
      TTable (normalize_key_aliases path
        ((fix children (l : TomlMap) : TomlMap :=
            match l with
            | [] => []
            | (key, child) :: l => (key, normalized_with_key_aliases (path ++ [key]) child) :: children l
            end) table))
  | TArray items => TArray (map (normalized_with_key_aliases path) items)
  | _ => value
  end.

(** * Merging *)

Definition is_permission_network_domains_path (path : list str) : bool :=
  match path with
  | [permissions; _; network; domains] =>
      (permissions == lit "permissions") && (network == lit "network") && (domains == lit "domains")
  | _ => false
  end.

Definition normalize_network_domain_keys (table : TomlMap) : TomlMap :=
  foldl (fun m e => map_insert (normalize_host e.1) e.2 m) [] table.

Definition normalize_table (path : list str) (table : TomlMap) : TomlMap :=
  let table := normalize_key_aliases path table in
  if is_permission_network_domains_path path then normalize_network_domain_keys table else table.

(** The height of a value; merging recurses into the overlay. *)
Fixpoint height (v : TomlValue) : nat :=
  match v with
  | TTable t => S ((fix go (l : TomlMap) : nat := match l with [] => 0 | (_, c) :: l => Nat.max (height c) (go l) end) t)
  | _ => 1
  end.

Fixpoint merge_toml_values_at_path (fuel : nat) (path : list str) (base overlay : TomlValue) : TomlValue :=
  match fuel with
  | 0 => base
  | S fuel =>
      match overlay, base with
      | TTable overlay_table, TTable base_table =>
          TTable (foldl (fun acc e =>
              map_insert e.1
                match map_get acc e.1 with
                | Some existing => merge_toml_values_at_path fuel (path ++ [e.1]) existing e.2
                | None => normalized_with_key_aliases (path ++ [e.1]) e.2
                end acc)
            (normalize_table path base_table) (normalize_table path overlay_table))
      | _, _ => normalized_with_key_aliases path overlay
      end
  end.

Definition merge_toml_values (base overlay : TomlValue) : TomlValue :=
  merge_toml_values_at_path (height overlay) [] base overlay.

(** * Command-line overrides *)

Fixpoint apply_segments (root : TomlValue) (segments : list str) (value : TomlValue) : TomlValue :=
  match segments with
  | [] => root
  | segment :: rest =>
      let table := match root with TTable table => table | _ => [] end in
      match rest with
      | [] => TTable (map_insert segment value table)
      | _ => TTable (map_insert segment
                       (apply_segments (default (TTable []) (map_get table segment)) rest value) table)
      end
  end.

Definition DOT : char := 46%N.

Definition apply_toml_override (root : TomlValue) (path : str) (value : TomlValue) : TomlValue :=
  apply_segments root (split_on DOT path) value.

Definition build_cli_overrides_layer (cli_overrides : list (str * TomlValue)) : TomlValue :=
  foldl (fun root e => apply_toml_override root e.1 e.2) (TTable []) cli_overrides.

(** * Layers *)

Inductive ConfigLayerSource : Type :=
| Mdm (domain key : str)
| System (file : PathBuf)
| EnterpriseManaged (id name : str)
| User (file : PathBuf) (profile : option str)
| Project (dot_motyga_folder : PathBuf)
| SessionFlags
| LegacyManagedConfigTomlFromFile (file : PathBuf)
| LegacyManagedConfigTomlFromMdm.

Definition precedence (s : ConfigLayerSource) : nat :=
  match s with
  | Mdm _ _ => 0
  | System _ => 10
  | EnterpriseManaged _ _ => 15
  | User _ profile => if is_some profile then 21 else 20
  | Project _ => 25
  | SessionFlags => 30
  | LegacyManagedConfigTomlFromFile _ => 40
  | LegacyManagedConfigTomlFromMdm => 50
  end.

Record ConfigLayerEntry : Type := {
  name : ConfigLayerSource;
  config : TomlValue;
  version : str;
  disabled_reason : option str;
  raw_toml : option (str * PathBuf);
  hooks_config_folder_override : option PathBuf
}.

Record ConfigLayerMetadata : Type := { meta_name : ConfigLayerSource; meta_version : str }.

Definition metadata (l : ConfigLayerEntry) : ConfigLayerMetadata :=
  {| meta_name := l.(name); meta_version := l.(version) |}.

Definition is_disabled (l : ConfigLayerEntry) : bool := is_some l.(disabled_reason).

Definition is_user (s : ConfigLayerSource) : bool := match s with User _ _ => true | _ => false end.

Definition config_folder (l : ConfigLayerEntry) : option PathBuf :=
  match l.(name) with
  | System file => path_parent file
  | User file _ => path_parent file
  | Project dot_motyga_folder => Some dot_motyga_folder
  | _ => None
  end.

Definition hooks_config_folder (l : ConfigLayerEntry) : option PathBuf :=
  match l.(hooks_config_folder_override) with Some f => Some f | None => config_folder l end.

Record ConfigLayerStack : Type := { layers : list ConfigLayerEntry; user_layer_index : option nat }.

Inductive ConfigLayerStackOrdering : Set := LowestPrecedenceFirst | HighestPrecedenceFirst.
#[global] Instance ConfigLayerStackOrdering_eq_dec : EqDecision ConfigLayerStackOrdering.
Proof. solve_decision. Defined.

(** [is_sorted] with the order of precedences. *)
Fixpoint is_sorted (l : list ConfigLayerEntry) : bool :=
  match l with
  | a :: (b :: _) as l' => (precedence a.(name) <=? precedence b.(name)) && is_sorted l'
  | _ => true
  end.

Inductive LayerError : Set := NotInPrecedenceOrder | ProjectHasNoParent | ProjectsNotFromRoot.

(** A project layer lies below the directory that holds the previous one. *)
Definition follows_project (previous current : PathBuf) : result unit LayerError :=
  match path_parent previous with
  | None => Err ProjectHasNoParent
  | Some parent =>
      if (previous == current) || negb (existsb (fun a => a == parent) (path_ancestors current))
      then Err ProjectsNotFromRoot else Ok tt
  end.

Fixpoint verify_loop (index : nat) (user : option nat) (previous : option PathBuf) (l : list ConfigLayerEntry)
  : result (option nat) LayerError :=
  match l with
  | [] => Ok user
  | layer :: l =>
      let user := if is_user layer.(name) then Some index else user in
      match layer.(name) with
      | Project current =>
          match previous with
          | None => verify_loop (S index) user (Some current) l
          | Some previous =>
              match follows_project previous current with
              | Ok _ => verify_loop (S index) user (Some current) l
              | Err e => Err e
              end
          end
      | _ => verify_loop (S index) user previous l
      end
  end.

Definition verify_layer_ordering (l : list ConfigLayerEntry) : result (option nat) LayerError :=
  if negb (is_sorted l) then Err NotInPrecedenceOrder else verify_loop 0 None None l.

Definition stack_new (l : list ConfigLayerEntry) : result ConfigLayerStack LayerError :=
  let? index := verify_layer_ordering l in Ok {| layers := l; user_layer_index := index |}.

Definition get_active_user_layer (s : ConfigLayerStack) : option ConfigLayerEntry :=
  i ← s.(user_layer_index); s.(layers) !! i.

Definition get_user_config_file (s : ConfigLayerStack) : option PathBuf :=
  match get_active_user_layer s with
  | Some l => match l.(name) with User file _ => Some file | _ => None end
  | None => None
  end.

Definition get_layers (s : ConfigLayerStack) (ordering : ConfigLayerStackOrdering) (include_disabled : bool)
  : list ConfigLayerEntry :=
  let ls := retain (fun l => include_disabled || negb (is_disabled l)) s.(layers) in
  if ordering == HighestPrecedenceFirst then reverse ls else ls.

Definition get_user_layers (s : ConfigLayerStack) (ordering : ConfigLayerStackOrdering) (include_disabled : bool)
  : list ConfigLayerEntry :=
  retain (fun l => is_user l.(name)) (get_layers s ordering include_disabled).

Definition merge_layers (ls : list ConfigLayerEntry) : TomlValue :=
  foldl (fun merged l => merge_toml_values merged l.(config)) (TTable []) ls.

Definition effective_user_config (s : ConfigLayerStack) : option TomlValue :=
  match get_user_layers s LowestPrecedenceFirst false with
  | [] => None
  | ls => Some (merge_layers ls)
  end.

Definition effective_config (s : ConfigLayerStack) : TomlValue :=
  merge_layers (get_layers s LowestPrecedenceFirst false).

Definition layers_high_to_low (s : ConfigLayerStack) : list ConfigLayerEntry :=
  get_layers s HighestPrecedenceFirst false.

(** [record_origins]: every scalar of a layer, by its dotted path. *)
Fixpoint record_origins (value : TomlValue) (meta : ConfigLayerMetadata) (path : list str)
    (origins : gmap str ConfigLayerMetadata) : gmap str ConfigLayerMetadata :=
  match value with
  | TTable table =>
      (fix go (l : TomlMap) o :=
         match l with [] => o | (key, val) :: l => go l (record_origins val meta (path ++ [key]) o) end) table origins
  | TArray items =>
      (fix go (i : nat) (l : list TomlValue) o :=
         match l with [] => o | item :: l => go (S i) l (record_origins item meta (path ++ [show_nat i]) o) end) 0 items origins
  | _ => if path == [] then origins else <[join [DOT] path := meta]> origins
  end.

Definition stack_origins (s : ConfigLayerStack) : gmap str ConfigLayerMetadata :=
  foldl (fun o l => record_origins (normalized_with_key_aliases [] l.(config)) (metadata l) [] o) ∅
    (get_layers s LowestPrecedenceFirst false).

(** ** Changing the user layer *)

Fixpoint position {A} (p : A -> bool) (l : list A) : option nat :=
  match l with
  | [] => None
  | x :: l => if p x then Some 0 else S <$> position p l
  end.

(** [layers.insert] before the first layer of higher precedence, or [push]. *)
Definition insert_layer (ls : list ConfigLayerEntry) (l : ConfigLayerEntry) : list ConfigLayerEntry :=
  match position (fun x => precedence l.(name) <? precedence x.(name)) ls with
  | Some index => take index ls ++ l :: drop index ls
  | None => ls ++ [l]
  end.

(** [enumerate().rev().find_map(...)]: the last user layer. *)
Fixpoint last_user_index (index : nat) (found : option nat) (ls : list ConfigLayerEntry) : option nat :=
  match ls with
  | [] => found
  | l :: ls => last_user_index (S index) (if is_user l.(name) then Some index else found) ls
  end.

Definition stack_of (ls : list ConfigLayerEntry) : ConfigLayerStack :=
  {| layers := ls; user_layer_index := last_user_index 0 None ls |}.

Definition is_user_file (file : PathBuf) (l : ConfigLayerEntry) : bool :=
  match l.(name) with User f _ => f == file | _ => false end.

Section user.
Context (version_for_toml : TomlValue -> str) (parse_profile : str -> option str).

Definition entry_new (n : ConfigLayerSource) (c : TomlValue) : ConfigLayerEntry := {|
  name := n; config := c; version := version_for_toml c; disabled_reason := None; raw_toml := None;
  hooks_config_folder_override := None |}.

Definition entry_new_disabled (n : ConfigLayerSource) (c : TomlValue) (reason : str) : ConfigLayerEntry := {|
  name := n; config := c; version := version_for_toml c; disabled_reason := Some reason; raw_toml := None;
  hooks_config_folder_override := None |}.

Definition with_user_config_profile (s : ConfigLayerStack) (config_toml : PathBuf) (profile : option str)
    (user_config : TomlValue) : ConfigLayerStack :=
  let user_layer := entry_new (User config_toml profile) user_config in
  let ls := match position (is_user_file config_toml) s.(layers) with
            | Some index => delete index s.(layers)
            | None => s.(layers)
            end in
  stack_of (insert_layer ls user_layer).

(** [find_map]: the first layer of the file that has a valid profile. *)
Fixpoint profile_of_file (config_toml : PathBuf) (ls : list ConfigLayerEntry) : option str :=
  match ls with
  | [] => None
  | l :: ls =>
      match l.(name) with
      | User file profile =>
          match (if file == config_toml then p ← profile; parse_profile p else None) with
          | Some p => Some p
          | None => profile_of_file config_toml ls
          end
      | _ => profile_of_file config_toml ls
      end
  end.

Definition with_user_config (s : ConfigLayerStack) (config_toml : PathBuf) (user_config : TomlValue)
  : ConfigLayerStack :=
  with_user_config_profile s config_toml (profile_of_file config_toml s.(layers)) user_config.
End user.

Definition with_user_layer_from (s other : ConfigLayerStack) : ConfigLayerStack :=
  let user_layers := retain (fun l => is_user l.(name)) other.(layers) in
  let ls := retain (fun l => negb (is_user l.(name))) s.(layers) in
  stack_of (foldl insert_layer ls user_layers).

(** * [project_root_markers.rs] *)

Definition as_str (v : TomlValue) : option str := match v with TString s => Some s | _ => None end.

Definition MARKERS_ERROR : str := lit "project_root_markers must be an array of strings".

Fixpoint collect_markers (entries : list TomlValue) : result (list str) str :=
  match entries with
  | [] => Ok []
  | entry :: entries =>
      match as_str entry with
      | None => Err MARKERS_ERROR
      | Some marker => let? ms := collect_markers entries in Ok (marker :: ms)
      end
  end.

Definition project_root_markers_from_config (c : TomlValue) : result (option (list str)) str :=
  match c with
  | TTable table =>
      match map_get table (lit "project_root_markers") with
      | None => Ok None
      | Some (TArray entries) => let? ms := collect_markers entries in Ok (Some ms)
      | Some _ => Err MARKERS_ERROR
      end
  | _ => Ok None
  end.

Definition default_project_root_markers : list str := [lit ".git"].

(** * Laws of tables *)

Section map_laws.
Context {V : Type}.
Implicit Types (m : list (str * V)) (k : str) (v : V).

Lemma map_get_insert k v m k' : map_get (map_insert k v m) k' = if k' == k then Some v else map_get m k'.
Proof.
  induction m as [|[j w] m IH]; cbn [map_insert map_get]; [done|].
  destruct (decide (k = j)) as [->|Hkj].
  - rewrite (bool_decide_eq_true_2 (j = j)) by done. cbn [map_get]. by destruct (bool_decide (k' = j)).
  - rewrite (bool_decide_eq_false_2 (k = j)) by done. cbn [map_get]. rewrite IH.
    destruct (decide (k' = j)) as [->|]; [|by rewrite (bool_decide_eq_false_2 (k' = j))].
    by rewrite (bool_decide_eq_true_2 (j = j)), (bool_decide_eq_false_2 (j = k)) by done.
Qed.

Lemma map_get_remove k m k' : map_get (map_remove k m) k' = if k' == k then None else map_get m k'.
Proof.
  unfold map_remove. induction m as [|[j w] m IH]; cbn [retain map_get fst]; [by destruct (bool_decide (k' = k))|].
  destruct (decide (j = k)) as [->|Hjk].
  - rewrite (bool_decide_eq_true_2 (k = k)) by done. cbn [negb]. rewrite IH. by destruct (bool_decide (k' = k)).
  - rewrite (bool_decide_eq_false_2 (j = k)) by done. cbn [negb map_get]. rewrite IH.
    destruct (decide (k' = j)) as [->|]; [|by rewrite (bool_decide_eq_false_2 (k' = j))].
    by rewrite (bool_decide_eq_true_2 (j = j)), (bool_decide_eq_false_2 (j = k)) by done.
Qed.

Definition keys m : list str := m.*1.

Lemma map_get_None m k : map_get m k = None <-> k ∉ keys m.
Proof.
  induction m as [|[j w] m IH]; cbn; [split; [intros _; apply not_elem_of_nil|done]|].
  rewrite not_elem_of_cons. case_bool_decide; [naive_solver|]. rewrite IH. naive_solver.
Qed.

Lemma map_get_elem m k v : map_get m k = Some v -> (k, v) ∈ m.
Proof.
  induction m as [|[j w] m IH]; cbn [map_get]; [done|]. case_bool_decide; [intros [= ->]; subst; by left|]. right. by apply IH.
Qed.

Lemma keys_insert_NoDup k v m : NoDup (keys m) -> NoDup (keys (map_insert k v m)).
Proof.
  unfold keys. induction m as [|[j w] m IH]; cbn [map_insert fmap list_fmap fst]; [intros _; apply NoDup_singleton|].
  intros [Hj Hm]%NoDup_cons. case_bool_decide as E; cbn [fmap list_fmap fst]; [subst; by constructor|].
  constructor; [|by apply IH]. change (j ∉ keys (map_insert k v m)). rewrite <- map_get_None, map_get_insert.
  rewrite bool_decide_eq_false_2 by done. by apply map_get_None.
Qed.

Lemma keys_remove_NoDup k m : NoDup (keys m) -> NoDup (keys (map_remove k m)).
Proof.
  unfold keys, map_remove. induction m as [|[j w] m IH]; cbn [retain fmap list_fmap fst]; [done|].
  intros [Hj Hm]%NoDup_cons. case_bool_decide; cbn [negb fmap list_fmap fst]; [by apply IH|].
  constructor; [|by apply IH]. intros Hin. apply Hj. apply list_elem_of_fmap in Hin as (e & -> & He).
  apply elem_of_retain in He as [_ He]. apply list_elem_of_fmap. eauto.
Qed.
End map_laws.

(** * Laws of merging *)

Definition children (path : list str) (l : TomlMap) : TomlMap :=
  (fun e => (e.1, normalized_with_key_aliases (path ++ [e.1]) e.2)) <$> l.

Lemma normalized_table path t :
  normalized_with_key_aliases path (TTable t) = TTable (normalize_key_aliases path (children path t)).
Proof.
  cbn [normalized_with_key_aliases]. f_equal. f_equal. unfold children.
  induction t as [|[k c] t IH]; [done|]. cbn [fmap list_fmap fst snd]. f_equal. exact IH.
Qed.

Lemma height_table t : height (TTable t) = S (foldr (fun e n => Nat.max (height e.2) n) 0 t).
Proof. cbn [height]. f_equal. induction t as [|[k c] t IH]; [done|]. cbn [foldr snd]. by rewrite <- IH. Qed.

Lemma height_child t k c : (k, c) ∈ t -> height c < height (TTable t).
Proof.
  rewrite height_table. induction t as [|e t IH]; [by intros ?%elem_of_nil|]. cbn [foldr].
  intros [<-|Hin]%elem_of_cons; [cbn; lia|]. specialize (IH Hin). lia.
Qed.

Lemma height_pos v : 0 < height v.
Proof. destruct v; cbn; lia. Qed.

(** ** Normalisation of a table keeps its values *)

Lemma map_insert_elem (k : str) (v : TomlValue) m e : e ∈ map_insert k v m -> e = (k, v) \/ e ∈ m.
Proof.
  induction m as [|[j w] m IH]; cbn [map_insert]; [rewrite list_elem_of_singleton; by left|].
  case_bool_decide; rewrite !elem_of_cons; [naive_solver|]. intros [->|?%IH]; naive_solver.
Qed.

Lemma apply_alias_values path t a k v : (k, v) ∈ apply_alias path t a -> exists k', (k', v) ∈ t.
Proof.
  unfold apply_alias. case_bool_decide; [|eauto]. destruct (map_get t (legacy_key a)) as [x|] eqn:E; [|eauto].
  assert (forall e, e ∈ map_remove (legacy_key a) t -> e ∈ t) as Hr by (intros e He; by apply elem_of_retain in He as [_ He]).
  unfold map_or_insert. case_match; [intros ?%Hr; eauto|]. intros [[= -> ->]|?%Hr]%map_insert_elem; [|eauto].
  apply map_get_elem in E. eauto.
Qed.

Lemma domain_keys_values t k v : (k, v) ∈ normalize_network_domain_keys t -> exists k', (k', v) ∈ t.
Proof.
  unfold normalize_network_domain_keys.
  assert (forall acc, (k, v) ∈ foldl (fun m e => map_insert (normalize_host e.1) e.2 m) acc t ->
    (k, v) ∈ acc \/ exists k', (k', v) ∈ t) as Hg.
  { induction t as [|[j w] t IH]; intros acc Hin; cbn [foldl] in Hin; [by left|].
    destruct (IH _ Hin) as [[[= _ ->]|?]%map_insert_elem|(k' & ?)]; [right; exists j; by left|by left|right; exists k'; by right]. }
  intros [?%elem_of_nil|?]%Hg; done.
Qed.

Lemma normalize_table_values path t k v : (k, v) ∈ normalize_table path t -> exists k', (k', v) ∈ t.
Proof.
  unfold normalize_table, normalize_key_aliases, CONFIG_KEY_ALIASES. cbn [foldl].
  destruct (is_permission_network_domains_path path); [|apply apply_alias_values].
  intros [k' Hk]%domain_keys_values. by eapply apply_alias_values.
Qed.

Lemma apply_alias_NoDup path (t : TomlMap) a : NoDup (keys t) -> NoDup (keys (apply_alias path t a)).
Proof.
  intros Ht. unfold apply_alias. case_bool_decide; [|done]. case_match; [|done]. unfold map_or_insert.
  case_match; [by apply keys_remove_NoDup|]. by apply keys_insert_NoDup, keys_remove_NoDup.
Qed.

Lemma normalize_table_NoDup path (t : TomlMap) : NoDup (keys t) -> NoDup (keys (normalize_table path t)).
Proof.
  intros Ht. unfold normalize_table, normalize_key_aliases, CONFIG_KEY_ALIASES. cbn [foldl].
  destruct (is_permission_network_domains_path path); [|by apply apply_alias_NoDup].
  unfold normalize_network_domain_keys. generalize (apply_alias path t {|
    table_path := [lit "memories"]; legacy_key := lit "no_memories_if_mcp_or_web_search";
    canonical_key := lit "disable_on_external_context" |}) as l. clear. intros l.
  assert (forall acc : TomlMap, NoDup (keys acc) ->
    NoDup (keys (foldl (fun m e => map_insert (normalize_host e.1) e.2 m) acc l))) as Hg; [|apply Hg; constructor].
  induction l as [|e l IH]; intros acc Hacc; [done|]. cbn [foldl]. by apply IH, keys_insert_NoDup.
Qed.

(** ** The recursion of merging *)

Lemma foldl_ext_in {A B} (f g : A -> B -> A) a l : (forall x y, y ∈ l -> f x y = g x y) -> foldl f a l = foldl g a l.
Proof.
  revert a. induction l as [|y l IH]; intros a Hfg; [done|]. cbn [foldl]. rewrite Hfg by (by left).
  apply IH. intros x z Hz. apply Hfg. by right.
Qed.

Lemma merge_fuel n n' path b o :
  height o <= n -> height o <= n' -> merge_toml_values_at_path n path b o = merge_toml_values_at_path n' path b o.
Proof.
  revert n' path b o. induction n as [|n IH]; intros n' path b o Hn Hn'; [pose proof (height_pos o); lia|].
  destruct n' as [|n']; [pose proof (height_pos o); lia|]. cbn [merge_toml_values_at_path].
  destruct o as [| | | | | |ot]; try done. destruct b as [| | | | | |bt]; try done. f_equal.
  apply foldl_ext_in. intros acc [k v] Hin. cbn [fst snd]. case_match; [|done]. f_equal.
  apply normalize_table_values in Hin as [k' Hin%height_child]. apply IH; lia.
Qed.

Definition merge_at (path : list str) (base overlay : TomlValue) : TomlValue :=
  merge_toml_values_at_path (height overlay) path base overlay.

Definition merge_entry (path : list str) (acc : TomlMap) (e : str * TomlValue) : TomlMap :=
  map_insert e.1
    match map_get acc e.1 with
    | Some existing => merge_at (path ++ [e.1]) existing e.2
    | None => normalized_with_key_aliases (path ++ [e.1]) e.2
    end acc.

Lemma merge_at_tables path bt ot :
  merge_at path (TTable bt) (TTable ot)
  = TTable (foldl (merge_entry path) (normalize_table path bt) (normalize_table path ot)).
Proof.
  unfold merge_at at 1. destruct (height (TTable ot)) as [|n] eqn:Eh; [by rewrite height_table in Eh|].
  cbn [merge_toml_values_at_path]. f_equal. apply foldl_ext_in. intros acc [k v] Hin. unfold merge_entry. cbn [fst snd].
  case_match; [|done]. f_equal. apply normalize_table_values in Hin as [k' Hin%height_child]. apply merge_fuel; [lia|done].
Qed.

Lemma merge_at_replaces path b o :
  (forall bt ot, b = TTable bt -> o = TTable ot -> False) -> merge_at path b o = normalized_with_key_aliases path o.
Proof.
  intros Hn. unfold merge_at. destruct (height o) as [|n] eqn:Eh; [pose proof (height_pos o); lia|].
  cbn [merge_toml_values_at_path]. destruct o; try done. destruct b; try done. by exfalso; eapply Hn.
Qed.

(** What a merged table holds under a key: the overlay's value, merged with the base's
    where both have one, or the base's. *)
Theorem merge_table_get path bt ot k :
  NoDup (keys ot) ->
  exists t, merge_at path (TTable bt) (TTable ot) = TTable t
    /\ map_get t k = match map_get (normalize_table path ot) k, map_get (normalize_table path bt) k with
                     | Some v, Some existing => Some (merge_at (path ++ [k]) existing v)
                     | Some v, None => Some (normalized_with_key_aliases (path ++ [k]) v)
                     | None, existing => existing
                     end.
Proof.
  intros Hot%(normalize_table_NoDup path). rewrite merge_at_tables. eexists. split; [done|].
  generalize (normalize_table path bt) as acc. revert Hot. generalize (normalize_table path ot) as l. clear.
  induction l as [|[j w] l IH]; intros Hnd acc; [done|]. apply NoDup_cons in Hnd as [Hj Hl].
  cbn [foldl map_get]. rewrite (IH Hl).
  unfold merge_entry at 1 2. cbn [fst snd]. rewrite !map_get_insert.
  destruct (decide (k = j)) as [->|Hk].
  - rewrite (bool_decide_eq_true_2 (j = j)) by done. rewrite (proj2 (map_get_None l j)) by done. by destruct (map_get acc j).
  - by rewrite !(bool_decide_eq_false_2 (k = j)) by done.
Qed.

(** ** Which layer decides a setting *)

(** What a value says about the setting at a path: nothing, that there is none (a table
    or a plain value further up), or the setting. *)
Fixpoint says (v : TomlValue) (p : list str) : option (option TomlValue) :=
  match p with
  | [] => Some match v with TTable _ => None | _ => Some v end
  | k :: p => match v with
              | TTable t => match map_get t k with Some c => says c p | None => None end
              | _ => Some None
              end
  end.

Definition setting (v : TomlValue) (p : list str) : option TomlValue := default None (says v p).

Fixpoint first_says (vs : list TomlValue) (p : list str) : option TomlValue :=
  match vs with
  | [] => None
  | v :: vs => match says v p with Some x => x | None => first_says vs p end
  end.

Inductive toml_wf : TomlValue -> Prop :=
| wf_table t : NoDup (keys t) -> (forall k c, map_get t k = Some c -> toml_wf c) -> toml_wf (TTable t)
| wf_other v : (forall t, v <> TTable t) -> toml_wf v.

(** Paths that aliases and the normalisation of domain names leave alone. *)
Definition plain_path (p : list str) : Prop :=
  head p <> Some (lit "memories")
  /\ forall q s, p = q ++ s -> s <> [] -> is_permission_network_domains_path q = false.

Lemma alias_other path t : path <> [lit "memories"] -> normalize_key_aliases path t = t.
Proof.
  intros Hp. unfold normalize_key_aliases, CONFIG_KEY_ALIASES. cbn [foldl]. unfold apply_alias. cbn [table_path].
  by rewrite bool_decide_eq_false_2.
Qed.

Lemma toml_nested_ind (P : TomlValue -> Prop) :
  (forall v, (forall l, v <> TArray l) -> (forall t, v <> TTable t) -> P v) ->
  (forall l, Forall P l -> P (TArray l)) -> (forall t, Forall (fun e => P e.2) t -> P (TTable t)) ->
  forall v, P v.
Proof.
  intros Hl Ha Ht. fix IH 1. intros [| | | | |items|entries]; try by apply Hl.
  - apply Ha. induction items as [|v items IHi]; [constructor|]. by constructor.
  - apply Ht. induction entries as [|[k v] entries IHe]; [constructor|]. constructor; [apply IH|exact IHe].
Qed.

Lemma normalized_plain path v :
  path <> [] -> head path <> Some (lit "memories") -> normalized_with_key_aliases path v = v.
Proof.
  revert path. induction v as [v Hna Hnt|l IH|t IH] using toml_nested_ind; intros path Hne Hh.
  - destruct v; try done; [by destruct (Hna items)|by destruct (Hnt entries)].
  - cbn [normalized_with_key_aliases]. f_equal. induction IH as [|v l Hv _ IHl]; [done|]. cbn [map]. by rewrite Hv, IHl.
  - rewrite normalized_table, alias_other by (by intros ->). f_equal. unfold children.
    induction IH as [|[k v] t Hv _ IHt]; [done|]. cbn [fmap list_fmap fst snd] in *. rewrite Hv; [by f_equal| |].
    + by destruct path.
    + by destruct path.
Qed.

Lemma map_get_children path t k :
  map_get (children path t) k = normalized_with_key_aliases (path ++ [k]) <$> map_get t k.
Proof.
  unfold children. induction t as [|[j c] t IH]; [done|]. cbn [fmap list_fmap fst snd map_get].
  case_bool_decide; [by subst|]. exact IH.
Qed.

Lemma normalize_table_plain path t :
  path <> [lit "memories"] -> is_permission_network_domains_path path = false -> normalize_table path t = t.
Proof. intros Hm Hd. unfold normalize_table. by rewrite Hd, alias_other. Qed.

Lemma plain_path_head path p : plain_path (path ++ p) -> path <> [] -> head path <> Some (lit "memories").
Proof. intros [Hh _]. by destruct path. Qed.

(** A value put in place whole says what it said. *)
Lemma says_normalized path v k p :
  plain_path (path ++ k :: p) -> says (normalized_with_key_aliases path v) (k :: p) = says v (k :: p).
Proof.
  intros Hp. destruct path as [|h path].
  - destruct v as [| | | | | |t]; try done. rewrite normalized_table, alias_other by done. cbn [says].
    rewrite map_get_children. cbn [app]. destruct (map_get t k) as [c|]; [|done]. cbn.
    rewrite normalized_plain; [done|done|]. exact (proj1 Hp).
  - rewrite normalized_plain; [done|done|]. by eapply plain_path_head.
Qed.

Lemma merge_at_is_table path b ot : exists t, merge_at path b (TTable ot) = TTable t.
Proof.
  destruct b as [| | | | | |bt]; try (rewrite merge_at_replaces by done; rewrite normalized_table; eauto).
  rewrite merge_at_tables. eauto.
Qed.

(** The overlay decides what it says something about; the rest is the base's. *)
Lemma merge_setting p : forall path b o,
  plain_path (path ++ p) -> path ++ p <> [] -> toml_wf o ->
  setting (merge_at path b o) p = match says o p with Some x => x | None => setting b p end.
Proof.
  induction p as [|k p IH]; intros path b o Hp Hne Hwf.
  - rewrite app_nil_r in *. destruct o as [| | | | | |ot];
      try (rewrite merge_at_replaces by done; rewrite normalized_plain; [done|done|by apply (proj1 Hp)]).
    destruct (merge_at_is_table path b ot) as [t ->]. done.
  - unfold setting at 1. destruct o as [| | | | | |ot]; try by rewrite merge_at_replaces, says_normalized.
    destruct b as [| | | | | |bt]; try (rewrite merge_at_replaces by done; rewrite says_normalized by done; cbn; by repeat case_match).
    inversion Hwf as [? Hnd Hc|? Hn]; [|by destruct (Hn ot)]. subst.
    destruct (merge_table_get path bt ot k Hnd) as (t & -> & Hg).
    assert (path <> [lit "memories"]) as Hm by (intros ->; by destruct Hp as [Hp _]).
    assert (is_permission_network_domains_path path = false) as Hd by (by eapply (proj2 Hp path (k :: p))).
    rewrite !normalize_table_plain in Hg by done. cbn [says]. rewrite Hg.
    assert (plain_path ((path ++ [k]) ++ p)) as Hp' by (by rewrite <- app_assoc).
    destruct (map_get ot k) as [v|] eqn:Ev.
    2: { unfold setting. cbn [says]. by destruct (map_get bt k). }
    unfold setting at 1. cbn [says]. destruct (map_get bt k) as [e|] eqn:Ee.
    + change (setting (merge_at (path ++ [k]) e v) p = match says v p with Some x => x | None => setting e p end).
      apply IH; [done|by destruct path|by eapply Hc].
    + rewrite normalized_plain; [by destruct (says v p)|by destruct path|].
      eapply plain_path_head; [exact Hp'|by destruct path].
Qed.

Lemma setting_empty p : setting (TTable []) p = None.
Proof. by destruct p. Qed.

(** C18: The layer of highest precedence that says something about a setting decides it.
    For every path that no alias or domain normalisation concerns, the effective
    configuration holds what the first of the enabled layers, from the highest
    precedence down, says about that path. *)
Theorem effective_config_precedence s p :
  plain_path p -> p <> [] -> Forall (fun l => toml_wf l.(config)) s.(layers) ->
  setting (effective_config s) p = first_says (config <$> layers_high_to_low s) p.
Proof.
  intros Hp Hne Hwf. unfold effective_config, layers_high_to_low, get_layers.
  rewrite (bool_decide_eq_false_2 (LowestPrecedenceFirst = HighestPrecedenceFirst)) by done.
  rewrite (bool_decide_eq_true_2 (HighestPrecedenceFirst = HighestPrecedenceFirst)) by done.
  set (ls := retain _ s.(layers)). assert (Forall (fun l => toml_wf l.(config)) ls) as Hls.
  { apply Forall_forall. intros l Hl. apply elem_of_retain in Hl as [_ Hl]. exact (proj1 (Forall_forall _ _) Hwf l Hl). }
  clearbody ls. clear Hwf. unfold merge_layers. induction ls as [|l ls IH] using rev_ind; [apply setting_empty|].
  apply Forall_app in Hls as [Hls Hl%Forall_singleton_1]. rewrite foldl_app, reverse_app. cbn [foldl app reverse fmap list_fmap first_says].
  rewrite fmap_app. cbn [fmap list_fmap app first_says rev_append reverse].
  change (merge_toml_values ?b ?o) with (merge_at [] b o). rewrite (merge_setting p []) by done.
  rewrite IH by done. done.
Qed.

(** * Command-line overrides: laws *)

Fixpoint value_at (v : TomlValue) (p : list str) : option TomlValue :=
  match p with
  | [] => Some v
  | k :: p => match v with TTable t => c ← map_get t k; value_at c p | _ => None end
  end.

Lemma apply_segments_get p v root : p <> [] -> value_at (apply_segments root p v) p = Some v.
Proof.
  revert root. induction p as [|k p IH]; intros root Hp; [done|]. cbn [apply_segments]. destruct p as [|j p]; cbn [value_at].
  - rewrite map_get_insert, bool_decide_eq_true_2 by done. done.
  - rewrite map_get_insert, bool_decide_eq_true_2 by done. cbn [mbind option_bind]. by apply IH.
Qed.

(** Only the path itself, what is below it and what is above it change. *)
Lemma apply_segments_other p v root q :
  ~ p `prefix_of` q -> ~ q `prefix_of` p -> value_at (apply_segments root p v) q = value_at root q \/ value_at root q = None.
Proof.
  revert root q. induction p as [|k p IH]; intros root q Hpq Hqp; [by destruct Hpq; apply prefix_nil|].
  destruct q as [|j q]; [by destruct Hqp; apply prefix_nil|]. cbn [apply_segments].
  destruct root as [| | | | | |t]; try by right. destruct (decide (j = k)) as [->|Hj].
  - assert (~ p `prefix_of` q) as Hpq' by (intros ?; by apply Hpq, prefix_cons).
    assert (~ q `prefix_of` p) as Hqp' by (intros ?; by apply Hqp, prefix_cons).
    destruct p as [|k' p]; [by destruct Hpq'; apply prefix_nil|]. cbn [value_at].
    rewrite map_get_insert, bool_decide_eq_true_2 by done. cbn [mbind option_bind].
    destruct (map_get t k) as [c|]; cbn [from_option id]; [by apply IH|by right].
  - left. destruct p as [|k' p]; cbn [value_at]; by rewrite map_get_insert, bool_decide_eq_false_2.
Qed.

(** The last override of a path is in the layer, and later overrides of unrelated paths
    leave it there. *)
Theorem cli_override_wins before path value after :
  Forall (fun e => ~ split_on DOT e.1 `prefix_of` split_on DOT path /\ ~ split_on DOT path `prefix_of` split_on DOT e.1) after ->
  value_at (build_cli_overrides_layer (before ++ (path, value) :: after)) (split_on DOT path) = Some value.
Proof.
  intros Ha. unfold build_cli_overrides_layer. rewrite foldl_app. cbn [foldl fst snd].
  set (root := apply_toml_override _ path value).
  assert (value_at root (split_on DOT path) = Some value) as Hr by (apply apply_segments_get, split_on_nonempty).
  clearbody root. revert root Hr. induction Ha as [|e after [H1 H2] _ IH]; intros root Hr; [done|]. cbn [foldl]. apply IH.
  unfold apply_toml_override. destruct (apply_segments_other (split_on DOT e.1) e.2 root _ H1 H2) as [->|Hn]; congruence.
Qed.

(** * The order of layers *)

Definition project_folder (l : ConfigLayerEntry) : option PathBuf :=
  match l.(name) with Project f => Some f | _ => None end.

Fixpoint projects_ok (previous : option PathBuf) (ps : list PathBuf) : result unit LayerError :=
  match ps with
  | [] => Ok tt
  | p :: ps =>
      match previous with
      | None => projects_ok (Some p) ps
      | Some q => match follows_project q p with Ok _ => projects_ok (Some p) ps | Err e => Err e end
      end
  end.

(** The one loop checks the projects and finds the user layer. *)
Lemma verify_loop_spec index user previous ls :
  verify_loop index user previous ls
  = match projects_ok previous (omap project_folder ls) with
    | Ok _ => Ok (last_user_index index user ls)
    | Err e => Err e
    end.
Proof.
  revert index user previous. induction ls as [|l ls IH]; intros index user previous; [done|].
  cbn [verify_loop last_user_index omap list_omap]. unfold project_folder at 1. rewrite !IH.
  destruct (name l); try done. cbn [projects_ok]. destruct previous; [|done]. by destruct (follows_project _ _).
Qed.

Definition precedes (a b : ConfigLayerEntry) : Prop := precedence a.(name) <= precedence b.(name).

Lemma is_sorted_spec ls : is_sorted ls = true <-> Sorted precedes ls.
Proof.
  induction ls as [|a ls IH]; [by split|]. destruct ls as [|b ls]; [by split; repeat constructor|].
  change (is_sorted (a :: b :: ls)) with ((precedence a.(name) <=? precedence b.(name)) && is_sorted (b :: ls)).
  rewrite andb_true_iff, IH, Nat.leb_le. split; [intros [? ?]; constructor; [done|by constructor]|].
  intros [? Hh]%Sorted_inv. by apply HdRel_inv in Hh.
Qed.

(** A stack is accepted exactly when its layers go from low to high precedence and its
    project layers from the root down; its user layer is the last one. *)
Lemma stack_new_Ok ls s :
  stack_new ls = Ok s <-> Sorted precedes ls /\ projects_ok None (omap project_folder ls) = Ok tt /\ s = stack_of ls.
Proof.
  unfold stack_new, verify_layer_ordering, stack_of. rewrite <- is_sorted_spec, verify_loop_spec.
  destruct (is_sorted ls); cbn [negb]; [|naive_solver]. destruct (projects_ok _ _) as [[]|]; naive_solver.
Qed.

#[global] Instance precedes_trans : Transitive precedes.
Proof. intros a b c. unfold precedes. lia. Qed.

Lemma position_Some {A} (f : A -> bool) l i :
  position f l = Some i -> exists x, l !! i = Some x /\ f x = true /\ Forall (fun y => f y = false) (take i l).
Proof.
  revert i. induction l as [|x l IH]; intros i; cbn [position]; [done|]. destruct (f x) eqn:E.
  - intros [= <-]. exists x. split_and!; [done..|constructor].
  - intros (j & Hj & ->)%fmap_Some. destruct (IH j Hj) as (y & ? & ? & ?). exists y. split_and!; [done..|by constructor].
Qed.

Lemma position_None {A} (f : A -> bool) l : position f l = None -> Forall (fun y => f y = false) l.
Proof.
  induction l as [|x l IH]; cbn [position]; [constructor|]. destruct (f x) eqn:E; [done|].
  intros Hn%fmap_None. constructor; auto.
Qed.

(** Inserting a layer splits the stack where precedence begins to exceed its own. *)
Lemma insert_layer_split ls l :
  exists before after, ls = before ++ after /\ insert_layer ls l = before ++ l :: after
    /\ Forall (fun x => precedence x.(name) <= precedence l.(name)) before
    /\ match after with x :: _ => precedence l.(name) < precedence x.(name) | [] => True end.
Proof.
  unfold insert_layer. destruct (position _ ls) as [i|] eqn:E.
  - apply position_Some in E as (x & Hx & Hlt & Hb). exists (take i ls), (drop i ls). rewrite take_drop. split_and!; [done..| |].
    + eapply Forall_impl; [exact Hb|]. intros y Hy. by apply Nat.ltb_ge.
    + rewrite (drop_S _ _ _ Hx). by apply Nat.ltb_lt.
  - apply position_None in E. exists ls, []. rewrite app_nil_r. split_and!; [done..| |done].
    eapply Forall_impl; [exact E|]. intros y Hy. by apply Nat.ltb_ge.
Qed.

Lemma insert_layer_sorted ls l : Sorted precedes ls -> Sorted precedes (insert_layer ls l).
Proof.
  intros Hs. destruct (insert_layer_split ls l) as (b & a & -> & -> & Hb & Ha).
  apply StronglySorted_Sorted. apply Sorted_StronglySorted in Hs; [|apply _].
  apply StronglySorted_app in Hs as (Hba & Hsb & Hsa). rewrite Forall_forall in Hb.
  assert (forall y, y ∈ a -> precedes l y) as Hla.
  { destruct a as [|x a]; [by intros y ?%elem_of_nil|]. apply StronglySorted_inv in Hsa as [_ Hx].
    rewrite Forall_forall in Hx. unfold precedes in *. intros y [->|Hy]%elem_of_cons; [lia|]. specialize (Hx y Hy). lia. }
  apply StronglySorted_app. split_and!; [|done|].
  - intros x y Hx [->|Hy]%elem_of_cons; [by apply Hb|by apply Hba].
  - constructor; [done|]. by apply Forall_forall.
Qed.

Lemma insert_layer_retain f ls l : f l = false -> retain f (insert_layer ls l) = retain f ls.
Proof.
  intros Hf. destruct (insert_layer_split ls l) as (b & a & -> & -> & _). rewrite !retain_app. cbn [retain]. by rewrite Hf.
Qed.

Lemma insert_layer_projects ls l : project_folder l = None -> omap project_folder (insert_layer ls l) = omap project_folder ls.
Proof.
  intros Hf. destruct (insert_layer_split ls l) as (b & a & -> & -> & _). rewrite !omap_app. cbn. by rewrite Hf.
Qed.

Lemma retain_sorted f ls : Sorted precedes ls -> Sorted precedes (retain f ls).
Proof.
  intros Hs%Sorted_StronglySorted; [|apply _]. apply StronglySorted_Sorted.
  induction Hs as [|l ls _ IH Hl]; cbn [retain]; [constructor|]. destruct (f l); [|done]. constructor; [done|].
  apply Forall_forall. intros x Hx. apply elem_of_retain in Hx as [_ Hx]. exact (proj1 (Forall_forall _ _) Hl x Hx).
Qed.

(** Taking out the first layer of a user file. *)
Lemma delete_user_file file ls i :
  position (is_user_file file) ls = Some i ->
  exists l before after, ls = before ++ l :: after /\ delete i ls = before ++ after /\ is_user l.(name) = true.
Proof.
  intros (l & Hl & Hf & _)%position_Some. exists l, (take i ls), (drop (S i) ls).
  rewrite take_drop_middle by done. split_and!; [done|apply delete_take_drop|].
  unfold is_user_file in Hf. by destruct (name l).
Qed.

Lemma user_no_project l : is_user l.(name) = true -> project_folder l = None.
Proof. unfold project_folder. by destruct (name l). Qed.

Lemma without_file_valid file ls :
  let ls' := match position (is_user_file file) ls with Some i => delete i ls | None => ls end in
  (Sorted precedes ls -> Sorted precedes ls') /\ omap project_folder ls' = omap project_folder ls
  /\ retain (fun l => negb (is_user l.(name))) ls' = retain (fun l => negb (is_user l.(name))) ls.
Proof.
  cbv zeta. destruct (position (is_user_file file) ls) as [i|] eqn:E; [|done].
  destruct (delete_user_file file ls i E) as (l & b & a & -> & -> & Hu). split_and!.
  - intros Hs%Sorted_StronglySorted; [|apply _]. apply StronglySorted_Sorted.
    apply StronglySorted_app in Hs as (H1 & H2 & [H3 _]%StronglySorted_inv). apply StronglySorted_app.
    split_and!; [|done..]. intros x y Hx Hy. apply H1; [done|by right].
  - rewrite !omap_app. cbn. by rewrite user_no_project.
  - rewrite !retain_app. cbn [retain]. by rewrite Hu.
Qed.


Lemma insert_user_layers us base :
  (forall l, l ∈ us -> is_user l.(name) = true) -> Sorted precedes base ->
  let ls := foldl insert_layer base us in
  Sorted precedes ls /\ omap project_folder ls = omap project_folder base
  /\ retain (fun l => negb (is_user l.(name))) ls = retain (fun l => negb (is_user l.(name))) base
  /\ forall l, l ∈ ls -> l ∈ base \/ l ∈ us.
Proof.
  revert base. induction us as [|u us IH]; intros base Hu Hb; cbn [foldl]; [auto|].
  assert (is_user u.(name) = true) as Hu1 by (apply Hu; by left).
  destruct (IH (insert_layer base u)) as (H1 & H2 & H3 & H4).
  { intros l Hl. apply Hu. by right. }
  { by apply insert_layer_sorted. }
  cbv zeta. split_and!; [done| | |].
  - by rewrite H2, insert_layer_projects by (by apply user_no_project).
  - by rewrite H3, insert_layer_retain by (by rewrite Hu1).
  - intros l [Hl|Hl]%H4; [|right; by right].
    destruct (insert_layer_split base u) as (b & a & Eb & Ei & _). rewrite Ei in Hl. rewrite Eb.
    apply elem_of_app in Hl as [?|[->|?]%elem_of_cons]; rewrite ?elem_of_app; [by left; left|right; by left|by left; right].
Qed.

Lemma retain_not_user ls :
  omap project_folder (retain (fun l => negb (is_user l.(name))) ls) = omap project_folder ls.
Proof.
  induction ls as [|l ls IH]; [done|]. cbn [retain]. destruct (is_user (name l)) eqn:E; cbn [negb].
  - cbn. by rewrite user_no_project.
  - cbn. by rewrite IH.
Qed.

(** The same for taking over the user layers of another stack. *)
Theorem with_user_layer_from_valid ls s other :
  stack_new ls = Ok s ->
  let s' := with_user_layer_from s other in
  stack_new s'.(layers) = Ok s'
  /\ retain (fun l => negb (is_user l.(name))) s'.(layers) = retain (fun l => negb (is_user l.(name))) s.(layers)
  /\ forall l, l ∈ s'.(layers) -> is_user l.(name) = true -> l ∈ other.(layers).
Proof.
  intros (Hs & Hp & ->)%stack_new_Ok. cbv zeta. unfold with_user_layer_from. cbn [layers stack_of].
  destruct (insert_user_layers (retain (fun l => is_user l.(name)) other.(layers))
              (retain (fun l => negb (is_user l.(name))) ls)) as (H1 & H2 & H3 & H4).
  { intros l Hl. by apply elem_of_retain in Hl as [? _]. }
  { by apply retain_sorted. }
  split_and!.
  - apply stack_new_Ok. split_and!; [done| |done]. by rewrite H2, retain_not_user.
  - rewrite H3. apply retain_id. intros l Hl. by apply elem_of_retain in Hl as [? _].
  - intros l [Hl|Hl]%H4 Hu; [|by apply elem_of_retain in Hl as [_ ?]].
    apply elem_of_retain in Hl as [Hn _]. by rewrite Hu in Hn.
Qed.

(** * Origins *)

(** The origins list paths that the effective configuration no longer has: here a value
    of the user's table that a session flag replaces as a whole. *)
Theorem origins_keep_shadowed_paths :
  let entry n c := {| name := n; config := c; version := []; disabled_reason := None; raw_toml := None;
                      hooks_config_folder_override := None |} in
  let user := entry (User [RootDir] None) (TTable [(lit "a", TTable [(lit "b", TBoolean true)])]) in
  let flags := entry SessionFlags (TTable [(lit "a", TBoolean false)]) in
  exists s, stack_new [user; flags] = Ok s
    /\ setting (effective_config s) [lit "a"; lit "b"] = None
    /\ stack_origins s !! lit "a.b" = Some (metadata user).
Proof. eexists. split; [vm_compute; reflexivity|]. split; vm_compute; reflexivity. Qed.

(** * Project root markers *)

Lemma collect_markers_Ok entries ms : collect_markers entries = Ok ms <-> entries = TString <$> ms.
Proof.
  revert ms. induction entries as [|e entries IH]; intros ms; cbn [collect_markers]; [destruct ms; naive_solver|].
  destruct e; cbn [as_str]; try (destruct ms; naive_solver).
  destruct (collect_markers entries) as [ms'|] eqn:E; cbn.
  - pose proof (proj1 (IH ms') eq_refl) as ->. destruct ms as [|m ms]; [done|]. cbn. split; [intros [= -> ->]; done|].
    intros [= -> H]. by apply IH in H as [= ->].
  - destruct ms as [|m ms]; [done|]. split; [done|]. intros [= -> H]. by apply IH in H.
Qed.

(** * Witnesses *)

Definition w_layer (n : ConfigLayerSource) (c : TomlMap) : ConfigLayerEntry := {|
  name := n; config := TTable c; version := []; disabled_reason := None; raw_toml := None;
  hooks_config_folder_override := None |}.

Definition w_user : PathBuf := [RootDir; Normal (lit "home"); Normal (lit "config.toml")].

Definition w_layers : list ConfigLayerEntry :=
  [w_layer (System [RootDir; Normal (lit "etc")]) [(lit "model", TString (lit "small")); (lit "tui", TTable [(lit "theme", TString (lit "dark"))])];
   w_layer (User w_user None) [(lit "model", TString (lit "large"))];
   w_layer SessionFlags [(lit "tui", TTable [(lit "animations", TBoolean false)])]].

Definition w_stack : ConfigLayerStack := stack_of w_layers.

Lemma plain_model : plain_path [lit "model"].
Proof. split; [done|]. intros [|k [|k' q]] s E Hs; [done| |done]. injection E as _ E. by destruct s. Qed.

Lemma flat_wf t : NoDup (keys t) -> Forall (fun e => toml_wf e.2) t -> toml_wf (TTable t).
Proof.
  intros Hn Hf. apply wf_table; [done|]. intros k c Hc%map_get_elem. exact (proj1 (Forall_forall _ _) Hf _ Hc).
Qed.

Lemma effective_config_precedence_witness :
  setting (effective_config w_stack) [lit "model"] = Some (TString (lit "large")).
Proof.
  rewrite (effective_config_precedence w_stack [lit "model"]).
  - vm_compute. reflexivity.
  - exact plain_model.
  - discriminate.
  - apply Forall_cons. split; [|apply Forall_cons; split; [|apply Forall_cons; split; [|constructor]]].
    all: apply flat_wf; [refine (bool_decide_eq_true_1 _ _); vm_compute; reflexivity|].
    all: repeat (apply Forall_cons; split); try apply List.Forall_nil.
    all: try (apply wf_other; discriminate).
    all: apply flat_wf; [refine (bool_decide_eq_true_1 _ _); vm_compute; reflexivity|].
    all: repeat (apply Forall_cons; split); try apply List.Forall_nil; apply wf_other; discriminate.
Defined.

