(* ===== verification/Constrained.v ===== *)
(** [config/src/constraint.rs] and the sources of [config/src/config_requirements.rs]:
    values that can only be set within a constraint, and where requirements come from.

    Of an error the field and the source are kept, not the texts of the values. *)

From stdpp Require Import base list option numbers strings sets.
From Stdlib Require Import NArith Lia.
From S2P Require Import Prelude RustStr AbsolutePath.
Local Open Scope rust_scope.

(** * Sources *)

Inductive RequirementSource : Type :=
| SourceUnknown
| MdmManagedPreferences (domain key : str)
| Composite (sources : list RequirementSource)
| EnterpriseManaged (id name : str)
| SystemRequirementsToml (file : PathBuf)
| LegacyManagedConfigTomlFromFile (file : PathBuf)
| LegacyManagedConfigTomlFromMdm.

Definition RequirementSource_dec : forall x y : RequirementSource, {x = y} + {x <> y}.
Proof.
  fix IH 1. intros x y.
  assert (forall l l' : list RequirementSource, {l = l'} + {l <> l'}) as Hl.
  { fix IHl 1. intros [|a l] [|b l']; [by left|by right|by right|].
    destruct (IH a b) as [->|]; [|right; congruence]. destruct (IHl l l') as [->|]; [left|right]; congruence. }
  destruct x as [|d k|l|i n|f|f|], y as [|d' k'|l'|i' n'|f'|f'|]; try (right; discriminate); try (left; reflexivity).
  - destruct (decide (d = d')) as [->|]; [|right; congruence]. destruct (decide (k = k')) as [->|]; [left|right]; congruence.
  - destruct (Hl l l') as [->|]; [left|right]; congruence.
  - destruct (decide (i = i')) as [->|]; [|right; congruence]. destruct (decide (n = n')) as [->|]; [left|right]; congruence.
  - destruct (decide (f = f')) as [->|]; [left|right]; congruence.
  - destruct (decide (f = f')) as [->|]; [left|right]; congruence.
Defined.
#[global] Instance RequirementSource_eq_dec : EqDecision RequirementSource := RequirementSource_dec.

(** [append_to_composite]. *)
Fixpoint append_to_composite (flattened : list RequirementSource) (s : RequirementSource) : list RequirementSource :=
  match s with
  | Composite sources =>
      (fix go (l : list RequirementSource) (acc : list RequirementSource) :=
         match l with [] => acc | s :: l => go l (append_to_composite acc s) end) sources flattened
  | _ => if bool_decide (s ∈ flattened) then flattened else flattened ++ [s]
  end.

Definition composite (sources : list RequirementSource) : RequirementSource :=
  match foldl append_to_composite [] sources with
  | [] => SourceUnknown
  | [s] => s
  | flattened => Composite flattened
  end.

(** * Constrained values *)

Inductive ConstraintError : Type :=
| InvalidValue (field_name : str) (requirement_source : RequirementSource)
| EmptyField (field_name : str)
| ExecPolicyParse (requirement_source : RequirementSource) (reason : str)
| McpServerRequirementParse (server_name : str) (requirement_source : RequirementSource) (reason : str).

Record Constrained (T : Type) : Type := {
  value : T;
  validator : T -> result unit ConstraintError;
  normalizer : option (T -> T)
}.
Arguments value {T}. Arguments validator {T}. Arguments normalizer {T}.

Section constrained.
Context {T : Type}.
Implicit Types (c : Constrained T) (x : T).

Definition constrained_new x (validator : T -> result unit ConstraintError) : result (Constrained T) ConstraintError :=
  let? _ := validator x in Ok {| value := x; validator := validator; normalizer := None |}.

(** [normalized]: any value is valid, the normaliser shapes it. *)
Definition constrained_normalized x (normalizer : T -> T) : result (Constrained T) ConstraintError :=
  Ok {| value := normalizer x; validator _ := Ok tt; normalizer := Some normalizer |}.

Definition allow_any x : Constrained T := {| value := x; validator _ := Ok tt; normalizer := None |}.

Definition allow_only `{EqDecision T} x : Constrained T := {|
  value := x;
  validator candidate := if candidate == x then Ok tt else Err (InvalidValue (lit "<unknown>") SourceUnknown);
  normalizer := None |}.

Definition can_set c x : result unit ConstraintError := c.(validator) x.

Definition add_validator c (v : T -> result unit ConstraintError) : result (Constrained T) ConstraintError :=
  let combined candidate := let? _ := c.(validator) candidate in v candidate in
  let? _ := combined c.(value) in
  Ok {| value := c.(value); validator := combined; normalizer := c.(normalizer) |}.

Definition set c x : result (Constrained T) ConstraintError :=
  let x := match c.(normalizer) with Some f => f x | None => x end in
  let? _ := c.(validator) x in Ok {| value := x; validator := c.(validator); normalizer := c.(normalizer) |}.
End constrained.

Record Sourced (T : Type) : Type := { sourced_value : T; source : RequirementSource }.
Arguments sourced_value {T}. Arguments source {T}.
Definition sourced {T} (v : T) (s : RequirementSource) : Sourced T := {| sourced_value := v; source := s |}.
Abbreviation WithSources T := (option (Sourced T)).

Record ConstrainedWithSource (T : Type) : Type := {
  constrained : Constrained T;
  constrained_source : option RequirementSource
}.
Arguments constrained {T}. Arguments constrained_source {T}.

Definition with_source {T} (c : Constrained T) (s : option RequirementSource) : ConstrainedWithSource T :=
  {| constrained := c; constrained_source := s |}.

(** [apply_requirement_constrained_value] of [core/src/config/mod.rs]: a configured value
    that is not allowed is replaced by the value the requirement already has; [true] when
    that happened.  The warning is left out. *)
Definition apply_requirement_constrained_value {T} (configured_value : T) (c : ConstrainedWithSource T)
  : result (ConstrainedWithSource T * bool) ConstraintError :=
  match set c.(constrained) configured_value with
  | Ok c' => Ok (with_source c' c.(constrained_source), false)
  | Err _ =>
      let? c' := set c.(constrained) c.(constrained).(value) in
      Ok (with_source c' c.(constrained_source), true)
  end.

(** * Sources of a composite *)

Fixpoint RequirementSource_nested_ind (P : RequirementSource -> Prop)
    (Hleaf : forall s, (forall l, s <> Composite l) -> P s)
    (Hcomposite : forall l, Forall P l -> P (Composite l)) (s : RequirementSource) : P s.
Proof.
  refine (match s with
          | Composite l => Hcomposite l ((fix go l := match l return Forall P l with
                             | [] => List.Forall_nil _
                             | s :: l => List.Forall_cons _ _ _ (RequirementSource_nested_ind P Hleaf Hcomposite s) (go l)
                             end) l)
          | _ => Hleaf _ _
          end); discriminate.
Qed.

(** The sources of a composite: no composite is nested and none is listed twice. *)
Definition flat (l : list RequirementSource) : Prop :=
  NoDup l /\ Forall (fun s => forall l, s <> Composite l) l.

Lemma append_to_composite_flat s flattened :
  flat flattened -> flat (append_to_composite flattened s) /\ flattened ⊆ append_to_composite flattened s.
Proof.
  revert flattened. induction s as [s Hs|l IH] using RequirementSource_nested_ind; intros flattened.
  - intros [Hd Hf].
    replace (append_to_composite flattened s) with (if bool_decide (s ∈ flattened) then flattened else flattened ++ [s])
      by (destruct s; try done; by destruct (Hs sources)).
    case_bool_decide; [done|]. repeat split; [| |set_solver].
    + apply NoDup_app. split; [done|]. split; [|apply NoDup_singleton]. by intros x Hx ->%list_elem_of_singleton.
    + apply Forall_app. split; [done|]. apply List.Forall_cons; [done|apply List.Forall_nil].
  - cbn [append_to_composite]. revert flattened. induction IH as [|s l Hs _ IHl]; intros flattened Hf; [done|].
    destruct (Hs _ Hf) as [Hf' Hsub]. destruct (IHl _ Hf') as [??]. split; [done|set_solver].
Qed.

Theorem composite_flat sources :
  match composite sources with
  | Composite l => flat l /\ 2 <= length l
  | _ => True
  end.
Proof.
  assert (flat (foldl append_to_composite [] sources)) as Hf.
  { assert (flat []) as H0 by (split; [apply NoDup_nil_2|apply List.Forall_nil]). revert H0. generalize (@nil RequirementSource).
    induction sources as [|s sources IH]; intros acc Hacc; [done|]. cbn. by apply IH, append_to_composite_flat. }
  unfold composite. destruct (foldl _ _ _) as [|s [|s' l]]; [done| |split; [done|cbn; lia]].
  destruct Hf as [_ Hf%List.Forall_inv]. destruct s; try done. by destruct (Hf sources0).
Qed.

(** * Constrained values never leave their constraint *)

Inductive ConstrainedOp (T : Type) : Type :=
| SetValue (x : T)
| AddValidator (v : T -> result unit ConstraintError).
Arguments SetValue {T}. Arguments AddValidator {T}.

Section constrained_laws.
Context {T : Type}.
Implicit Types (c : Constrained T) (x : T).

(** A refused operation leaves the value as it was. *)
Definition constrained_step c (op : ConstrainedOp T) : Constrained T :=
  match (match op with SetValue x => set c x | AddValidator v => add_validator c v end) with
  | Ok c' => c'
  | Err _ => c
  end.

Definition allowed c x : Prop := can_set c x = Ok tt.
Definition constrained_ok c : Prop := allowed c c.(value).

Lemma constrained_step_ok c op :
  constrained_ok c ->
  constrained_ok (constrained_step c op) /\ (forall x, allowed (constrained_step c op) x -> allowed c x).
Proof.
  unfold constrained_ok, allowed, can_set. intros Hc. destruct op as [x|v]; cbn [constrained_step].
  - unfold constrained_step, set. cbn zeta. cbn.
    destruct (validator c match normalizer c with Some f => f x | None => x end) as [[]|] eqn:E; cbn; auto.
  - unfold constrained_step, add_validator. cbn zeta. rewrite Hc. cbn.
    destruct (v (value c)) as [[]|] eqn:E; cbn; [|auto]. rewrite Hc, E. split; [done|].
    intros x. destruct (validator c x) as [[]|]; done.
Qed.

Lemma constrained_steps_ok c ops :
  constrained_ok c ->
  constrained_ok (foldl constrained_step c ops) /\ (forall x, allowed (foldl constrained_step c ops) x -> allowed c x).
Proof.
  revert c. induction ops as [|op ops IH]; intros c Hc; [auto|]. cbn.
  destruct (constrained_step_ok c op Hc) as [H1 H2]. destruct (IH _ H1) as [H3 H4]. auto.
Qed.

(** Whatever is set and whichever validators are added, the value satisfies [P]. *)
Definition always (P : T -> Prop) c : Prop := forall ops, P (value (foldl constrained_step c ops)).

Lemma always_allowed (P : T -> Prop) c : constrained_ok c -> (forall x, allowed c x -> P x) -> always P c.
Proof. intros Hc HP ops. destruct (constrained_steps_ok c ops Hc) as [H1 H2]. by apply HP, H2. Qed.

Lemma constrained_step_normalizer c op : (constrained_step c op).(normalizer) = c.(normalizer).
Proof.
  destruct op as [x|v]; unfold constrained_step, set, add_validator; cbn zeta.
  - by destruct (validator c _).
  - by destruct (let? _ := validator c (value c) in v (value c)).
Qed.

(** The values of a normalised constraint have been through the normaliser. *)
Lemma always_normalized (P : T -> Prop) c f : c.(normalizer) = Some f -> P c.(value) -> (forall x, P (f x)) -> always P c.
Proof.
  intros Hn Hc HP ops. revert c Hn Hc. induction ops as [|op ops IH]; intros c Hn Hc; [done|]. cbn.
  apply IH; [by rewrite constrained_step_normalizer|]. destruct op as [x|v]; unfold constrained_step, set, add_validator; cbn zeta.
  - rewrite Hn. by destruct (validator c (f x)); cbn.
  - by destruct (let? _ := validator c (value c) in v (value c)).
Qed.

Lemma set_allowed c x : c.(normalizer) = None -> (exists c', set c x = Ok c' /\ c'.(value) = x) <-> allowed c x.
Proof.
  intros Hn. unfold set, allowed, can_set. rewrite Hn. cbn zeta.
  destruct (validator c x) as [[]|]; cbn; [|naive_solver]. split; [done|]. eauto.
Qed.
End constrained_laws.

(** A configured value is taken when it is allowed; otherwise the value stays what it was.
    Neither can fail on a sound constraint without a normaliser, and the constraint and
    its source are kept. *)
Theorem configured_value_or_fallback {T} (configured_value : T) (c : ConstrainedWithSource T) :
  c.(constrained).(normalizer) = None -> constrained_ok c.(constrained) ->
  exists c' replaced, apply_requirement_constrained_value configured_value c = Ok (c', replaced)
  /\ c'.(constrained).(value) = (if replaced then c.(constrained).(value) else configured_value)
  /\ (replaced = false <-> allowed c.(constrained) configured_value)
  /\ constrained_ok c'.(constrained)
  /\ (forall x, allowed c'.(constrained) x <-> allowed c.(constrained) x)
  /\ c'.(constrained_source) = c.(constrained_source).
Proof.
  unfold constrained_ok, allowed, can_set, apply_requirement_constrained_value, set. intros Hn Hok. rewrite Hn. cbn zeta.
  destruct (validator _ configured_value) as [[]|] eqn:E; cbn.
  - eexists _, _. split; [reflexivity|]. cbn. done.
  - rewrite Hok. cbn. eexists _, _. split; [reflexivity|]. cbn. done.
Qed.

Lemma configured_value_or_fallback_witness :
  exists c' replaced,
    apply_requirement_constrained_value 5 (with_source (allow_only 3) (Some LegacyManagedConfigTomlFromMdm)) = Ok (c', replaced)
    /\ c'.(constrained).(value) = 3.
Proof.
  destruct (configured_value_or_fallback 5 (with_source (allow_only 3) (Some LegacyManagedConfigTomlFromMdm)))
    as (c' & replaced & E & Hv & Hr & _); [reflexivity|reflexivity|]. exists c', replaced. split; [exact E|].
  destruct replaced; [exact Hv|]. discriminate (proj1 Hr eq_refl).
Defined.
