(* ===== verification/RequirementRules.v ===== *)
(** [config/src/requirements_exec_policy.rs]: command rules of managed requirements.

    The rules of [requirements.toml] are compiled to the policies of the engine of
    [execpolicy]; they may prompt or forbid, never allow. *)

From stdpp Require Import base list option numbers strings gmap sets.
From Stdlib Require Import NArith Lia.
From S2P Require Import Prelude RustStr AbsolutePath ExecRule ExecPolicy.
Local Open Scope rust_scope.

Record RequirementsExecPolicyPatternTokenToml : Set := mkToken {
  token : option str;
  any_of : option (list str)
}.

(** [RequirementsExecPolicyDecisionToml] has the cases of [Decision]. *)
Record RequirementsExecPolicyPrefixRuleToml : Set := mkPrefixRuleToml {
  toml_pattern : list RequirementsExecPolicyPatternTokenToml;
  toml_decision : option Decision;
  toml_justification : option str
}.

Record RequirementsExecPolicyToml : Set := { prefix_rules : list RequirementsExecPolicyPrefixRuleToml }.

Inductive RequirementsExecPolicyParseError : Set :=
| EmptyPrefixRules
| EmptyPattern (rule_index : nat)
| InvalidPatternToken (rule_index token_index : nat) (reason : str)
| EmptyJustification (rule_index : nat)
| MissingDecision (rule_index : nat)
| AllowDecisionNotAllowed (rule_index : nat).

Definition blank (s : str) : bool := trim s == [].

Definition parse_pattern_token (t : RequirementsExecPolicyPatternTokenToml) (rule_index token_index : nat)
  : result PatternToken RequirementsExecPolicyParseError :=
  let invalid reason := Err (InvalidPatternToken rule_index token_index (lit reason)) in
  match t.(token), t.(any_of) with
  | Some single, None => if blank single then invalid "token cannot be empty" else Ok (Single single)
  | None, Some alternatives =>
      if alternatives == [] then invalid "any_of cannot be empty"
      else if existsb blank alternatives then invalid "any_of cannot include empty tokens"
      else Ok (Alts alternatives)
  | Some _, Some _ => invalid "set either token or any_of, not both"
  | None, None => invalid "set either token or any_of"
  end.

(** [.enumerate().map(..).collect::<Result<Vec<_>, _>>()?]. *)
Fixpoint parse_pattern_tokens (l : list RequirementsExecPolicyPatternTokenToml) (rule_index token_index : nat)
  : result (list PatternToken) RequirementsExecPolicyParseError :=
  match l with
  | [] => Ok []
  | t :: l =>
      let? p := parse_pattern_token t rule_index token_index in
      let? ps := parse_pattern_tokens l rule_index (S token_index) in
      Ok (p :: ps)
  end.

(** The rules of one entry, one for each alternative of its first token. *)
Definition parse_prefix_rule (rule : RequirementsExecPolicyPrefixRuleToml) (rule_index : nat)
  : result (list PrefixRule) RequirementsExecPolicyParseError :=
  if is_some_and blank rule.(toml_justification) then Err (EmptyJustification rule_index)
  else if rule.(toml_pattern) == [] then Err (EmptyPattern rule_index)
  else
    let? pattern_tokens := parse_pattern_tokens rule.(toml_pattern) rule_index 0 in
    let? decision := match rule.(toml_decision) with
                     | Some Allow => Err (AllowDecisionNotAllowed rule_index)
                     | Some decision => Ok decision
                     | None => Err (MissingDecision rule_index)
                     end in
    match pattern_tokens with
    | [] => Err (EmptyPattern rule_index)
    | first_token :: remaining_tokens =>
        Ok ((fun head => mkRule (mkPattern head remaining_tokens) decision rule.(toml_justification))
            <$> alternatives first_token)
    end.

Fixpoint insert_prefix_rules (l : list RequirementsExecPolicyPrefixRuleToml) (rule_index : nat)
    (rules_by_program : gmap str (list PrefixRule))
  : result (gmap str (list PrefixRule)) RequirementsExecPolicyParseError :=
  match l with
  | [] => Ok rules_by_program
  | rule :: l =>
      let? rules := parse_prefix_rule rule rule_index in
      insert_prefix_rules l (S rule_index)
        (foldl (fun m r => mm_insert r.(pattern).(first) r m) rules_by_program rules)
  end.

Definition to_policy (self : RequirementsExecPolicyToml)
  : result (Policy PrefixRule) RequirementsExecPolicyParseError :=
  if self.(prefix_rules) == [] then Err EmptyPrefixRules
  else let? rules_by_program := insert_prefix_rules self.(prefix_rules) 0 ∅ in
       Ok (mkPolicy rules_by_program [] ∅).

(** * What the rules enforce *)

(** The words a token stands for, and the commands a rule covers. *)
Definition words (t : RequirementsExecPolicyPatternTokenToml) : list str :=
  option_list t.(token) ++ default [] t.(any_of).

Definition covers (rule : RequirementsExecPolicyPrefixRuleToml) (cmd : list str) : Prop :=
  exists args more, cmd = args ++ more /\ Forall2 (fun t c => c ∈ words t) rule.(toml_pattern) args.

Definition token_ok (t : RequirementsExecPolicyPatternTokenToml) : Prop :=
  (t.(token) = None <-> t.(any_of) <> None) /\ words t <> [] /\ Forall (fun w => blank w = false) (words t).

Definition rule_ok (rule : RequirementsExecPolicyPrefixRuleToml) : Prop :=
  is_some_and blank rule.(toml_justification) = false
  /\ rule.(toml_pattern) <> [] /\ Forall token_ok rule.(toml_pattern)
  /\ exists d, rule.(toml_decision) = Some d /\ d <> Allow.

Lemma parse_pattern_token_Ok t i j p :
  parse_pattern_token t i j = Ok p <->
  token_ok t /\ p = match t.(token) with Some w => Single w | None => Alts (words t) end.
Proof.
  destruct t as [[w|] [alts|]]; unfold parse_pattern_token, token_ok, words; cbn [token any_of option_list default from_option id app].
  - split; [done|]. naive_solver.
  - change (option_list (Some w) ++ []) with [w]. rewrite Forall_cons. destruct (blank w) eqn:E; split; [done|naive_solver| |naive_solver].
    intros [= <-]. repeat split; by try constructor.
  - change (option_list None ++ alts) with alts. rewrite <- existsb_false. case_bool_decide as E; [split; [done|naive_solver]|].
    destruct (existsb blank alts); split; [done|naive_solver| |naive_solver]. intros [= <-]. done.
  - split; [done|]. naive_solver.
Qed.

Lemma parse_pattern_token_words t i j p : parse_pattern_token t i j = Ok p -> alternatives p = words t.
Proof. intros [Hok ->]%parse_pattern_token_Ok. destruct t as [[w|] [alts|]]; try done. destruct Hok as [Hx _]. cbn in Hx. naive_solver. Qed.

Lemma parse_pattern_tokens_Ok l i j :
  (forall ps, parse_pattern_tokens l i j = Ok ps -> alternatives <$> ps = words <$> l)
  /\ (is_ok (parse_pattern_tokens l i j) = true <-> Forall token_ok l).
Proof.
  revert j. induction l as [|t l IH]; intros j; cbn.
  { split; [by intros ? [= <-]|]. split; [constructor|done]. }
  destruct (IH (S j)) as [IH1 IH2]. rewrite Forall_cons, <- IH2.
  pose proof (parse_pattern_token_Ok t i j) as Ht.
  destruct (parse_pattern_token t i j) as [p|] eqn:E; cbn.
  - pose proof (parse_pattern_token_words _ _ _ _ E). destruct (parse_pattern_tokens l i (S j)); cbn.
    + split; [intros ? [= <-]; cbn; f_equal; auto|]. pose proof (proj1 (Ht p) eq_refl). naive_solver.
    + split; [done|]. naive_solver.
  - split; [done|]. split; [done|]. intros [Hok _].
    by pose proof (proj2 (Ht (match token t with Some w => Single w | None => Alts (words t) end)) (conj Hok eq_refl)).
Qed.

Lemma parse_prefix_rule_Ok rule i :
  (is_ok (parse_prefix_rule rule i) = true <-> rule_ok rule)
  /\ forall rules, parse_prefix_rule rule i = Ok rules ->
     (forall r, r ∈ rules -> Some r.(decision) = rule.(toml_decision) /\ r.(decision) <> Allow)
     /\ (forall cmd, covers rule cmd <-> exists r, r ∈ rules /\ pattern_covers r.(pattern) cmd).
Proof.
  unfold parse_prefix_rule, rule_ok. destruct (is_some_and blank _); [by split; [split; [|intros [? _]]|]|].
  case_bool_decide as Hp; [by split; [split; [|intros (_ & ? & _)]|]|].
  destruct (parse_pattern_tokens_Ok rule.(toml_pattern) i 0) as [Hw Hok]. rewrite <- Hok.
  destruct (parse_pattern_tokens _ i 0) as [ps|]; cbn; [|by split; [split; [|intros (_ & _ & ? & _)]|]].
  specialize (Hw ps eq_refl). clear Hok. destruct ps as [|p ps]; [by destruct (toml_pattern rule)|].
  assert (forall cmd, covers rule cmd <-> exists head, head ∈ alternatives p /\ pattern_covers (mkPattern head ps) cmd) as Hcov.
  { intros cmd. unfold covers, pattern_covers. cbn. destruct (toml_pattern rule) as [|t l]; [done|].
    cbn in Hw. injection Hw as Hp1 Hps. rewrite Hp1.
    assert (forall args, Forall2 (fun t c => c ∈ words t) l args <-> Forall2 (fun t c => c ∈ alternatives t) ps args) as Hl.
    { intros args. pose proof (Forall2_fmap_l words (fun ws (c : str) => c ∈ ws) l args) as H1.
      pose proof (Forall2_fmap_l alternatives (fun ws (c : str) => c ∈ ws) ps args) as H2.
      rewrite Hps in H2. exact (iff_trans (iff_sym H1) H2). }
    setoid_rewrite <- Hl. split.
    - intros (args & more & -> & H). apply Forall2_cons_inv_l in H as (a & args' & Ha & H & ->). eauto 10.
    - intros (a & Ha & args & more & -> & H). exists (a :: args), more. split; [done|]. by constructor. }
  destruct (toml_decision rule) as [[]|] eqn:Ed; cbn; (split; [naive_solver|]); try done; intros rules [= <-];
    (split; [by intros r (h & -> & _)%list_elem_of_fmap|]);
    intros cmd; rewrite Hcov; setoid_rewrite list_elem_of_fmap; naive_solver.
Qed.

Lemma insert_rules_policy rules m :
  rules_ok m ->
  let m' := foldl (fun m r => mm_insert r.(pattern).(first) r m) m rules in
  rules_ok m' /\ forall r, policy_rule (mkPolicy m' [] ∅) r <-> policy_rule (mkPolicy m [] ∅) r \/ r ∈ rules.
Proof.
  revert m. induction rules as [|r0 rules IH]; intros m Hm; cbn.
  { split; [done|]. set_solver. }
  destruct (IH _ (mm_insert_ok r0 m Hm)) as [H1 H2]. split; [exact H1|]. intros r. rewrite H2.
  pose proof (policy_rule_mm_insert (mkPolicy m [] ∅) (first (pattern r0)) r0 r [] ∅) as H3. cbn in H3.
  rewrite H3. set_solver.
Qed.

Lemma no_empty_rule r : ~ policy_rule (mkPolicy ∅ [] ∅) r.
Proof. intros (k & rs & Hk & _). cbn in Hk. by rewrite lookup_empty in Hk. Qed.

Lemma insert_prefix_rules_Ok l i m :
  rules_ok m ->
  (is_ok (insert_prefix_rules l i m) = true <-> Forall rule_ok l)
  /\ forall m', insert_prefix_rules l i m = Ok m' ->
     rules_ok m'
     /\ (forall r, policy_rule (mkPolicy m' [] ∅) r ->
           policy_rule (mkPolicy m [] ∅) r
           \/ exists rule, rule ∈ l /\ Some r.(decision) = rule.(toml_decision) /\ r.(decision) <> Allow
                /\ forall cmd, pattern_covers r.(pattern) cmd -> covers rule cmd)
     /\ (forall r, policy_rule (mkPolicy m [] ∅) r -> policy_rule (mkPolicy m' [] ∅) r)
     /\ (forall rule cmd, rule ∈ l -> covers rule cmd ->
           exists r, policy_rule (mkPolicy m' [] ∅) r /\ Some r.(decision) = rule.(toml_decision)
             /\ pattern_covers r.(pattern) cmd).
Proof.
  revert i m. induction l as [|rule l IH]; intros i m Hm; cbn.
  { split; [split; [constructor|done]|]. intros m' [= <-]. set_solver. }
  rewrite Forall_cons. destruct (parse_prefix_rule_Ok rule i) as [Hok Hrules]. rewrite <- Hok.
  destruct (parse_prefix_rule rule i) as [rules|]; cbn; [|by split; [split; [|intros [? _]]|]].
  destruct (Hrules rules eq_refl) as [Hdec Hcov]. destruct (insert_rules_policy rules m Hm) as [Hm1 Hp1].
  destruct (IH (S i) _ Hm1) as [<- IH2]. split; [naive_solver|]. intros m' E.
  destruct (IH2 m' E) as (H1 & H2 & H3 & H4). split; [done|]. split; [|split].
  - intros r Hr. destruct (H2 r Hr) as [[?|Hin]%Hp1|(rule' & ? & ?)]; [by left| |right; set_solver].
    right. exists rule. destruct (Hdec r Hin). repeat split; [set_solver|done..|]. intros cmd Hc. apply Hcov. eauto.
  - intros r Hr. apply H3, Hp1. by left.
  - intros rule' cmd [->|Hin]%elem_of_cons Hc; [|by apply H4]. apply Hcov in Hc as (r & Hr & Hc).
    exists r. destruct (Hdec r Hr). split; [|done]. apply H3, Hp1. by right.
Qed.

(** The managed command rules are compiled exactly when there is a rule and every
    rule has a pattern of well-formed tokens, no blank justification and a decision other
    than [Allow]; the compiled policy is well formed and never allows; and laid over any
    policy, whatever its rules, the heuristics and the options, it decides every command a
    managed rule covers at least as strictly as that rule. *)
Theorem managed_rules_enforced toml :
  (is_ok (to_policy toml) = true <-> toml.(prefix_rules) <> [] /\ Forall rule_ok toml.(prefix_rules))
  /\ forall p, to_policy toml = Ok p ->
     policy_ok p
     /\ (forall r, policy_rule p r -> exists rule, rule ∈ toml.(prefix_rules)
           /\ Some r.(decision) = rule.(toml_decision) /\ r.(decision) <> Allow
           /\ forall cmd, pattern_covers r.(pattern) cmd -> covers rule cmd)
     /\ (forall rule cmd d env base fallback options,
           rule ∈ toml.(prefix_rules) -> rule.(toml_decision) = Some d -> covers rule cmd ->
           exists ev, check_with_options env (merge_overlay base p) cmd fallback options = Some ev
             /\ d ⊑d ev_decision ev /\ ev_decision ev <> Allow).
Proof.
  unfold to_policy. case_bool_decide as He; [rewrite He; by split; [split; [|intros [? _]]|]|].
  destruct (insert_prefix_rules_Ok toml.(prefix_rules) 0 ∅ (map_Forall_empty _)) as [Hok Hp].
  destruct (insert_prefix_rules _ 0 ∅) as [m|]; cbn in *; [|by split; [rewrite <- Hok; split; [|intros [_ ?]]|]].
  destruct (Hp m eq_refl) as (H1 & H2 & _ & H4). split; [rewrite <- Hok; done|]. intros p [= <-].
  split; [exact H1|]. split.
  { intros r Hr. destruct (H2 r Hr) as [?%no_empty_rule|?]; done. }
  intros rule cmd d env base fallback options Hin Hd Hc. destruct (H4 rule cmd Hin Hc) as (r & Hr & Hrd & Hrc).
  rewrite Hd in Hrd. injection Hrd as <-.
  assert (r.(decision) <> Allow) as Hna.
  { destruct (H2 r Hr) as [?%no_empty_rule|(? & _ & _ & ? & _)]; done. }
  set (p := mkPolicy m [] ∅) in *.
  assert (prefix_match r cmd ∈ exact_matches (merge_overlay base p) cmd) as Hm.
  { rewrite exact_matches_merge. apply elem_of_app. right. apply exact_matches_spec; [exact H1|]. eauto. }
  destruct (check_total env fallback (merge_overlay base p) cmd options) as (ev & E & _ & Hle).
  rewrite matches_exact in Hle by (intros E'; rewrite E' in Hm; by apply not_elem_of_nil in Hm).
  exists ev. split; [done|]. specialize (Hle _ Hm). cbn in Hle. split; [done|].
  intros Ha. rewrite Ha in Hle. by apply decision_le_allow in Hle.
Qed.

Definition w_managed : RequirementsExecPolicyToml := {|
  prefix_rules := [mkPrefixRuleToml [mkToken (Some (lit "git")) None; mkToken None (Some (w_cmd ["push"; "fetch"]))]
                     (Some Prompt) (Some (lit "network"))] |}.

Lemma managed_rules_enforced_witness :
  is_ok (to_policy w_managed) = true
  /\ forall p, to_policy w_managed = Ok p ->
     exists ev, check_with_options w_env (merge_overlay w_policy p) (w_cmd ["git"; "fetch"; "origin"]) (fun _ => Allow)
                  default_options = Some ev /\ ev_decision ev <> Allow.
Proof.
  split; [vm_compute; reflexivity|]. intros p Hp.
  destruct (proj2 (managed_rules_enforced w_managed) p Hp) as (_ & _ & H).
  edestruct H as (ev & E & _ & Hd); [by left|reflexivity| |exists ev; exact (conj E Hd)].
  exists (w_cmd ["git"; "fetch"]), (w_cmd ["origin"]). split; [reflexivity|]. repeat constructor; set_solver.
Defined.

(** The error text of an [allow] rule says that the most restrictive result of the merged
    rules is used.  A managed rule for an absolute path can relax the decision: the user's
    rule for the name of the program applies to the path only when no rule names the path
    itself. *)
Theorem managed_rule_can_relax :
  let base := mkPolicy {[ lit "rm" := [w_rule "rm" [] Forbidden] ]} [] ∅ in
  let managed := {| prefix_rules := [mkPrefixRuleToml [mkToken (Some (lit "/bin/rm")) None] (Some Prompt) None] |} in
  let cmd := w_cmd ["/bin/rm"; "-rf"] in
  (ev_decision <$> check_with_options w_env base cmd (fun _ => Allow) (mkOptions true)) = Some Forbidden
  /\ exists p, to_policy managed = Ok p
     /\ (ev_decision <$> check_with_options w_env (merge_overlay base p) cmd (fun _ => Allow) (mkOptions true)) = Some Prompt.
Proof.
  cbn zeta. split; [vm_compute; reflexivity|]. eexists. split; [vm_compute; reflexivity|]. vm_compute. reflexivity.
Qed.
