(* ===== verification/McpRequirements.v ===== *)
(** [config/src/mcp_requirements.rs] and the functions of [core/src/config/mod.rs] that
    apply it: which MCP servers managed requirements let run.

    The [regex_lite] crate is a parameter.  Maps of requirements are lists in key order,
    as a [BTreeMap] is iterated; maps of servers are finite maps.  Of a server the fields
    the requirements read or change are kept; [other] stands for the rest. *)

From stdpp Require Import base list option numbers strings gmap sets.
From Stdlib Require Import NArith Lia.
From S2P Require Import Prelude RustStr AbsolutePath Constrained.
Local Open Scope rust_scope.

(** * Requirements for a server *)

Inductive McpServerIdentity : Set :=
| IdentityCommand (command : str)
| IdentityUrl (url : str).

Inductive McpServerValueMatcher : Set :=
| Exact (value : str)
| Prefix (value : str)
| Regex (expression : str).

Record McpServerCommandMatcher : Set := { executable : str; matcher_args : list McpServerValueMatcher }.

Inductive McpServerRequirement : Set :=
| Identity (identity : McpServerIdentity)
| Command (matcher : McpServerCommandMatcher)
| Url (matcher : McpServerValueMatcher).

Inductive McpServerTransportConfig : Set :=
| Stdio (command : str) (args : list str)
| StreamableHttp (url : str).

Record McpServerConfig (O : Type) : Type := mkServer {
  transport : McpServerTransportConfig;
  enabled : bool;
  (** [McpServerDisabledReason::Requirements { source }] *)
  disabled_reason : option RequirementSource;
  other : O
}.
Arguments mkServer {O}. Arguments transport {O}. Arguments enabled {O}. Arguments disabled_reason {O}. Arguments other {O}.

(** The crate compiles an expression to a test for a match, or reports an error. *)
Class RegexLite : Type := { regex_new : str -> result (str -> bool) str }.

Section matching.
Context `{RegexLite}.

Definition compile_full_regex (expression : str) : result (str -> bool) str :=
  match regex_new (lit "\A(?:" ++ expression ++ lit ")\z") with
  | Ok regex => Ok regex
  | Err err => Err (lit "regex `" ++ expression ++ lit "` cannot be used for full-value matching: " ++ err)
  end.

Definition validate_matcher (self : McpServerValueMatcher) : result unit str :=
  match self with
  | Regex expression =>
      match regex_new expression with
      | Err err => Err (lit "invalid regex `" ++ expression ++ lit "`: " ++ err)
      | Ok _ => let? _ := compile_full_regex expression in Ok tt
      end
  | _ => Ok tt
  end.

Definition value_matches (self : McpServerValueMatcher) (candidate : str) : bool :=
  match self with
  | Exact value => candidate == value
  | Prefix value => starts_with value candidate
  | Regex expression => match compile_full_regex expression with Ok regex => regex candidate | Err _ => false end
  end.

Fixpoint validate_args (l : list McpServerValueMatcher) (index : nat) : result unit str :=
  match l with
  | [] => Ok tt
  | arg :: l =>
      match validate_matcher arg with
      | Err err => Err (lit "invalid argument matcher at index " ++ show_N (N.of_nat index) ++ lit ": " ++ err)
      | Ok _ => validate_args l (S index)
      end
  end.

Definition validate (self : McpServerRequirement) : result unit str :=
  match self with
  | Identity _ => Ok tt
  | Command matcher => validate_args matcher.(matcher_args) 0
  | Url matcher => validate_matcher matcher
  end.

(** [.iter().zip(args).all(..)]. *)
Fixpoint all_args_match (ms : list McpServerValueMatcher) (args : list str) : bool :=
  match ms, args with
  | m :: ms, a :: args => value_matches m a && all_args_match ms args
  | _, _ => true
  end.

Definition server_matches {O} (self : McpServerRequirement) (server : McpServerConfig O) : bool :=
  match self, server.(transport) with
  | Identity (IdentityCommand want_command), Stdio got_command _ => got_command == want_command
  | Identity (IdentityUrl want_url), StreamableHttp got_url => got_url == want_url
  | Command matcher, Stdio command args =>
      (matcher.(executable) == command) && (length matcher.(matcher_args) =? length args)
      && all_args_match matcher.(matcher_args) args
  | Url matcher, StreamableHttp url => value_matches matcher url
  | _, _ => false
  end.

(** * Applying them *)

(** [BTreeMap::get]. *)
Definition btree_get {T} (name : str) (m : list (str * T)) : option T := snd <$> find (fun kv => kv.1 == name) m.

Record PluginRequirementsToml : Set := { plugin_mcp_servers : option (list (str * McpServerRequirement)) }.

Definition restrict {O} (source : RequirementSource) (requirement : option McpServerRequirement) (server : McpServerConfig O)
  : McpServerConfig O :=
  if is_some_and (fun r => server_matches r server) requirement
  then mkServer server.(transport) server.(enabled) None server.(other)
  else mkServer server.(transport) false (Some source) server.(other).

Definition filter_mcp_servers_by_requirements {O} (mcp_servers : gmap str (McpServerConfig O))
    (mcp_requirements : WithSources (list (str * McpServerRequirement))) : gmap str (McpServerConfig O) :=
  match mcp_requirements with
  | None => mcp_servers
  | Some allowlist =>
      map_imap (fun name server => Some (restrict allowlist.(source) (btree_get name allowlist.(sourced_value)) server)) mcp_servers
  end.

Definition filter_plugin_mcp_servers_by_requirements {O} (plugin_config_name : str) (mcp_servers : gmap str (McpServerConfig O))
    (plugin_requirements : WithSources (list (str * PluginRequirementsToml))) : gmap str (McpServerConfig O) :=
  match plugin_requirements with
  | None => mcp_servers
  | Some requirements =>
      let plugin_mcp_requirements :=
        plugin ← btree_get plugin_config_name requirements.(sourced_value); plugin.(plugin_mcp_servers) in
      map_imap (fun name server => Some (restrict requirements.(source) (plugin_mcp_requirements ≫= btree_get name) server)) mcp_servers
  end.

(** [Config::apply_plugin_mcp_server_requirements]. *)
Definition apply_plugin_mcp_server_requirements {O} (plugin_id : str) (mcp_servers : gmap str (McpServerConfig O))
    (plugins : WithSources (list (str * PluginRequirementsToml))) (mcp : WithSources (list (str * McpServerRequirement)))
  : gmap str (McpServerConfig O) :=
  let mcp_servers := filter_plugin_mcp_servers_by_requirements plugin_id mcp_servers plugins in
  let empty_mcp_allowlist := match mcp with Some r => if r.(sourced_value) == [] then Some r else None | None => None end in
  filter_mcp_servers_by_requirements mcp_servers empty_mcp_allowlist.

Definition constrain_mcp_servers {O} (mcp_servers : gmap str (McpServerConfig O))
    (mcp_requirements : WithSources (list (str * McpServerRequirement)))
  : result (Constrained (gmap str (McpServerConfig O))) ConstraintError :=
  match mcp_requirements with
  | None => Ok (allow_any mcp_servers)
  | Some _ => constrained_normalized mcp_servers (fun servers => filter_mcp_servers_by_requirements servers mcp_requirements)
  end.

(** * A server runs only where a requirement matches it *)

(** The server [name] is one the requirements [allowlist] lets run, as it was configured. *)
Definition permitted {O} (requirement : option McpServerRequirement) (server : McpServerConfig O) : Prop :=
  exists r, requirement = Some r /\ server_matches r server = true.

Lemma restrict_matches {O} s q r (server : McpServerConfig O) :
  server_matches r (restrict s q server) = server_matches r server.
Proof. unfold restrict. by destruct (is_some_and _ _). Qed.

Lemma restrict_idempotent {O} s q (server : McpServerConfig O) : restrict s q (restrict s q server) = restrict s q server.
Proof.
  unfold restrict at 1. destruct q as [r|]; cbn [is_some_and]; rewrite ?restrict_matches.
  - unfold restrict. cbn. destruct (server_matches r server); done.
  - done.
Qed.

Lemma restrict_spec {O} s q (server : McpServerConfig O) :
  (restrict s q server).(transport) = server.(transport) /\ (restrict s q server).(other) = server.(other)
  /\ (permitted q server /\ (restrict s q server).(enabled) = server.(enabled) /\ (restrict s q server).(disabled_reason) = None
      \/ ~ permitted q server /\ (restrict s q server).(enabled) = false /\ (restrict s q server).(disabled_reason) = Some s).
Proof.
  unfold restrict, permitted. destruct q as [r|]; cbn.
  - destruct (server_matches r server) eqn:E; cbn; (split; [done|]); (split; [done|]).
    + left. eauto 10.
    + right. repeat split. intros (r' & [= <-] & Hr). congruence.
  - split; [done|]. split; [done|]. right. naive_solver.
Qed.

Lemma filter_servers_spec {O} (servers : gmap str (McpServerConfig O)) allowlist name :
  filter_mcp_servers_by_requirements servers (Some allowlist) !! name
  = restrict allowlist.(source) (btree_get name allowlist.(sourced_value)) <$> servers !! name.
Proof. cbn. rewrite map_lookup_imap. by destruct (servers !! name). Qed.

(** Every enabled server of the map matches its requirement. *)
Definition enforced {O} (requirement : str -> option McpServerRequirement) (servers : gmap str (McpServerConfig O)) : Prop :=
  forall name server, servers !! name = Some server -> server.(enabled) = true -> permitted (requirement name) server.

Lemma restricted_enforced {O} s q (server : McpServerConfig O) : (restrict s q server).(enabled) = true -> permitted q (restrict s q server).
Proof.
  intros He. destruct (restrict_spec s q server) as (_ & _ & [[(r & -> & Hr) _]|(_ & Hf & _)]); [|congruence].
  exists r. by rewrite restrict_matches.
Qed.

Lemma filter_enforced {O} (servers : gmap str (McpServerConfig O)) allowlist :
  enforced (fun name => btree_get name allowlist.(sourced_value)) (filter_mcp_servers_by_requirements servers (Some allowlist)).
Proof.
  intros name server. rewrite filter_servers_spec. intros (server0 & _ & ->)%fmap_Some. apply restricted_enforced.
Qed.

Lemma filter_keeps_enforced {O} (servers : gmap str (McpServerConfig O)) requirement o :
  enforced requirement servers -> enforced requirement (filter_mcp_servers_by_requirements servers o).
Proof.
  intros Hs. destruct o as [allowlist|]; [|done]. intros name server. rewrite filter_servers_spec.
  intros (server0 & Hl & ->)%fmap_Some He.
  destruct (restrict_spec (source allowlist) (btree_get name (sourced_value allowlist)) server0) as (_ & _ & [(_ & Hen & _)|(_ & Hf & _)]); [|congruence].
  destruct (Hs name server0 Hl) as (r & -> & Hr); [congruence|]. exists r. by rewrite restrict_matches.
Qed.

(** C24: with an allow list of MCP servers, no sequence of settings enables a server the
    list does not permit: the map is constrained without error, after any operations
    every enabled server matches the requirement of its name, a server keeps its
    transport, and applying the requirements again changes nothing.  A plugin's servers
    also have to match the plugin's requirements, and an empty allow list disables them
    all (one with entries is not applied to them).  A server matches a requirement by its
    command or its address, as [server_matches] compares them. *)
Theorem mcp_allowlist_enforced {O} (servers : gmap str (McpServerConfig O)) allowlist :
  (exists c, constrain_mcp_servers servers (Some allowlist) = Ok c
     /\ always (enforced (fun name => btree_get name allowlist.(sourced_value))) c)
  /\ (forall name, transport <$> filter_mcp_servers_by_requirements servers (Some allowlist) !! name = transport <$> servers !! name)
  /\ (let filtered := filter_mcp_servers_by_requirements servers (Some allowlist) in
      filter_mcp_servers_by_requirements filtered (Some allowlist) = filtered)
  /\ (forall plugin_id plugins mcp,
        let current := apply_plugin_mcp_server_requirements plugin_id servers plugins mcp in
        (forall r, plugins = Some r ->
           enforced (fun name => plugin ← btree_get plugin_id r.(sourced_value);
                                 reqs ← plugin.(plugin_mcp_servers); btree_get name reqs) current)
        /\ (forall s, mcp = Some (sourced [] s) -> map_Forall (fun _ server => server.(enabled) = false) current)).
Proof.
  split; [|split; [|split]].
  - eexists. split; [reflexivity|]. apply always_normalized with (f := fun l => filter_mcp_servers_by_requirements l (Some allowlist));
      [done|apply filter_enforced|intros; apply filter_enforced].
  - intros name. rewrite filter_servers_spec. destruct (servers !! name) as [server|]; [|done]. cbn [fmap option_fmap option_map].
    by rewrite (proj1 (restrict_spec _ _ server)).
  - cbn zeta. apply map_eq. intros name. rewrite !filter_servers_spec. destruct (servers !! name); [|done]. cbn [fmap option_fmap option_map].
    by rewrite restrict_idempotent.
  - intros plugin_id plugins mcp current. split.
    + intros r ->. apply filter_keeps_enforced. intros name server. cbn. rewrite map_lookup_imap.
      intros (server0 & _ & [= <-])%bind_Some. intros He%restricted_enforced.
      by destruct (btree_get plugin_id _) as [[[]]|].
    + intros s ->. subst current. unfold apply_plugin_mcp_server_requirements. cbn [sourced sourced_value].
      rewrite bool_decide_eq_true_2 by done. intros name server. rewrite filter_servers_spec.
      intros (server0 & _ & ->)%fmap_Some. done.
Qed.
End matching.

Definition no_regex : RegexLite := {| regex_new _ := Err (lit "unsupported") |}.

(** A regular expression that matches what it is equal to. *)
Definition literal_regex : RegexLite := {| regex_new e := Ok (fun s => lit "\A(?:" ++ s ++ lit ")\z" == e) |}.

Example mcp_matching_example :
  let H := literal_regex in
  let server := mkServer (Stdio (lit "npx") [lit "-y"; lit "tool@1"]) true None tt in
  server_matches (Command {| executable := lit "npx"; matcher_args := [Exact (lit "-y"); Prefix (lit "tool@")] |}) server = true
  /\ server_matches (Command {| executable := lit "npx"; matcher_args := [Exact (lit "-y")] |}) server = false
  /\ server_matches (Command {| executable := lit "npx"; matcher_args := [Regex (lit "-y"); Regex (lit "tool@1")] |}) server = true
  /\ validate (H := no_regex) (Url (Regex (lit "("))) = Err (lit "invalid regex `(`: unsupported").
Proof. vm_compute. repeat split. Qed.

(** An allow list with one server, another server and one that claims its name. *)
Lemma mcp_allowlist_enforced_witness :
  let allowlist := sourced [(lit "docs", Identity (IdentityUrl (lit "https://docs.example")))] LegacyManagedConfigTomlFromMdm in
  let servers := <[lit "docs" := mkServer (StreamableHttp (lit "https://docs.example")) true None tt]>
                   {[lit "shell" := mkServer (Stdio (lit "sh") []) true None tt]} in
  exists c, constrain_mcp_servers (H := no_regex) servers (Some allowlist) = Ok c
  /\ enabled <$> c.(value) !! lit "docs" = Some true /\ enabled <$> c.(value) !! lit "shell" = Some false
  /\ always (enforced (H := no_regex) (fun name => btree_get name allowlist.(sourced_value))) c.
Proof.
  intros allowlist servers.
  destruct (mcp_allowlist_enforced (H := no_regex) servers allowlist) as [(c & E & Ha) _]. exists c. split; [exact E|].
  injection E as <-. split; [vm_compute; reflexivity|]. split; [vm_compute; reflexivity|exact Ha].
Defined.
