(* ===== verification/HookRequirements.v ===== *)
(** [config/src/hook_config.rs] and [config/src/requirements_layers/hooks.rs]: managed
    hooks and how the hooks of several requirements layers are merged. *)

From stdpp Require Import base list option numbers strings gmap sets.
From Stdlib Require Import NArith Lia.
From S2P Require Import Prelude RustStr AbsolutePath Constrained.
Local Open Scope rust_scope.

(** * Hooks *)

Inductive HookHandlerConfig : Set :=
| HandlerCommand (command : str) (command_windows : option str) (timeout_sec : option N) (async : bool)
    (status_message : option str)
| HandlerPrompt
| HandlerAgent.
#[global] Instance HookHandlerConfig_eq_dec : EqDecision HookHandlerConfig.
Proof. solve_decision. Defined.

Record MatcherGroup : Set := { matcher : option str; group_hooks : list HookHandlerConfig }.
#[global] Instance MatcherGroup_eq_dec : EqDecision MatcherGroup.
Proof. solve_decision. Defined.

Record HookEventsToml : Set := {
  pre_tool_use : list MatcherGroup;
  permission_request : list MatcherGroup;
  post_tool_use : list MatcherGroup;
  pre_compact : list MatcherGroup;
  post_compact : list MatcherGroup;
  session_start : list MatcherGroup;
  user_prompt_submit : list MatcherGroup;
  subagent_start : list MatcherGroup;
  subagent_stop : list MatcherGroup;
  stop : list MatcherGroup
}.
#[global] Instance HookEventsToml_eq_dec : EqDecision HookEventsToml.
Proof. solve_decision. Defined.

Inductive HookEventName : Set :=
| PreToolUse
| PermissionRequest
| PostToolUse
| PreCompact
| PostCompact
| SessionStart
| UserPromptSubmit
| SubagentStart
| SubagentStop
| Stop.
#[global] Instance HookEventName_eq_dec : EqDecision HookEventName.
Proof. solve_decision. Defined.

Definition into_matcher_groups (self : HookEventsToml) : list (HookEventName * list MatcherGroup) :=
  [(PreToolUse, self.(pre_tool_use)); (PermissionRequest, self.(permission_request)); (PostToolUse, self.(post_tool_use)); (PreCompact, self.(pre_compact)); (PostCompact, self.(post_compact)); (SessionStart, self.(session_start)); (UserPromptSubmit, self.(user_prompt_submit)); (SubagentStart, self.(subagent_start)); (SubagentStop, self.(subagent_stop)); (Stop, self.(stop))].

Definition events_is_empty (self : HookEventsToml) : bool :=
  (self.(pre_tool_use) == [])
  && (self.(permission_request) == [])
  && (self.(post_tool_use) == [])
  && (self.(pre_compact) == [])
  && (self.(post_compact) == [])
  && (self.(session_start) == [])
  && (self.(user_prompt_submit) == [])
  && (self.(subagent_start) == [])
  && (self.(subagent_stop) == [])
  && (self.(stop) == []).

Definition events_handler_count (self : HookEventsToml) : nat :=
  sum_list ((fun group => length group.(group_hooks)) <$>
    concat [self.(pre_tool_use); self.(permission_request); self.(post_tool_use); self.(pre_compact); self.(post_compact); self.(session_start); self.(user_prompt_submit); self.(subagent_start); self.(subagent_stop); self.(stop)]).

Record ManagedHooksRequirementsToml : Set := mkHooks {
  managed_dir : option PathBuf;
  windows_managed_dir : option PathBuf;
  hook_events : HookEventsToml
}.
#[global] Instance ManagedHooks_eq_dec : EqDecision ManagedHooksRequirementsToml.
Proof. solve_decision. Defined.

Definition hooks_is_empty (self : ManagedHooksRequirementsToml) : bool :=
  (self.(managed_dir) == None) && (self.(windows_managed_dir) == None) && events_is_empty self.(hook_events).

Definition handler_count (self : ManagedHooksRequirementsToml) : nat := events_handler_count self.(hook_events).

(** * Merging the hooks of layers *)

Inductive RequirementsCompositionError : Type :=
| Parse (layer_source : RequirementSource) (message : str)
| ComposedParse (message : str)
(** the message names the two values *)
| Conflict (field : str) (existing_source incoming_source : RequirementSource) (existing_value incoming_value : PathBuf).

(** [merge_output_source] of [requirements_layers/stack.rs]. *)
Definition merge_output_source (existing incoming : RequirementSource) : RequirementSource :=
  if existing == incoming then existing else composite [existing; incoming].

Inductive HookDirectoryField : Set := ManagedDir | WindowsManagedDir.
#[global] Instance HookDirectoryField_eq_dec : EqDecision HookDirectoryField.
Proof. solve_decision. Defined.

Definition field_name (self : HookDirectoryField) : str :=
  match self with ManagedDir => lit "hooks.managed_dir" | WindowsManagedDir => lit "hooks.windows_managed_dir" end.

Definition inactive (self : HookDirectoryField) : HookDirectoryField :=
  match self with ManagedDir => WindowsManagedDir | WindowsManagedDir => ManagedDir end.

(** [HookMergeState]; the map [dir_sources] has two keys. *)
Record HookMergeState : Type := mkMergeState {
  directory_field : HookDirectoryField;
  managed_dir_source : option RequirementSource;
  windows_managed_dir_source : option RequirementSource
}.

Definition merge_state_new (f : HookDirectoryField) : HookMergeState := mkMergeState f None None.

Definition dir_source (st : HookMergeState) (f : HookDirectoryField) : option RequirementSource :=
  match f with ManagedDir => st.(managed_dir_source) | WindowsManagedDir => st.(windows_managed_dir_source) end.

(** [dir_sources.entry(field).or_insert_with(..)]. *)
Definition or_insert_source (st : HookMergeState) (f : HookDirectoryField) (s : RequirementSource) : HookMergeState :=
  match f with
  | ManagedDir => mkMergeState st.(directory_field) (Some (default s st.(managed_dir_source))) st.(windows_managed_dir_source)
  | WindowsManagedDir => mkMergeState st.(directory_field) st.(managed_dir_source) (Some (default s st.(windows_managed_dir_source)))
  end.

Definition track_singleton_source (st : HookMergeState) (f : HookDirectoryField) (v : option PathBuf) (s : RequirementSource)
  : HookMergeState :=
  match v with Some _ => or_insert_source st f s | None => st end.

Definition hook_dir (hooks : ManagedHooksRequirementsToml) (f : HookDirectoryField) : option PathBuf :=
  match f with ManagedDir => hooks.(managed_dir) | WindowsManagedDir => hooks.(windows_managed_dir) end.

Definition set_hook_dir (hooks : ManagedHooksRequirementsToml) (f : HookDirectoryField) (v : option PathBuf)
  : ManagedHooksRequirementsToml :=
  match f with
  | ManagedDir => mkHooks v hooks.(windows_managed_dir) hooks.(hook_events)
  | WindowsManagedDir => mkHooks hooks.(managed_dir) v hooks.(hook_events)
  end.

(** The functions return what they set the directory to, and whether it changed. *)
Definition merge_active_singleton (st : HookMergeState) (f : HookDirectoryField) (existing incoming : option PathBuf)
    (incoming_source : RequirementSource) : result (HookMergeState * option PathBuf * bool) RequirementsCompositionError :=
  match incoming with
  | None => Ok (st, existing, false)
  | Some incoming =>
      match existing with
      | Some existing_value =>
          if existing_value != incoming
          then Err (Conflict (field_name f) (default incoming_source (dir_source st f)) incoming_source existing_value incoming)
          else Ok (st, existing, false)
      | None => Ok (or_insert_source st f incoming_source, Some incoming, true)
      end
  end.

Definition fill_singleton (st : HookMergeState) (f : HookDirectoryField) (existing incoming : option PathBuf)
    (incoming_source : RequirementSource) : HookMergeState * option PathBuf * bool :=
  match existing, incoming with
  | None, Some incoming => (or_insert_source st f incoming_source, Some incoming, true)
  | _, _ => (st, existing, false)
  end.

Definition append_hook_events (existing incoming : HookEventsToml) : HookEventsToml * bool :=
  ({| pre_tool_use := existing.(pre_tool_use) ++ incoming.(pre_tool_use);
      permission_request := existing.(permission_request) ++ incoming.(permission_request);
      post_tool_use := existing.(post_tool_use) ++ incoming.(post_tool_use);
      pre_compact := existing.(pre_compact) ++ incoming.(pre_compact);
      post_compact := existing.(post_compact) ++ incoming.(post_compact);
      session_start := existing.(session_start) ++ incoming.(session_start);
      user_prompt_submit := existing.(user_prompt_submit) ++ incoming.(user_prompt_submit);
      subagent_start := existing.(subagent_start) ++ incoming.(subagent_start);
      subagent_stop := existing.(subagent_stop) ++ incoming.(subagent_stop);
      stop := existing.(stop) ++ incoming.(stop) |},
   negb (events_is_empty incoming)).

Definition hooks_merge (st : HookMergeState) (target : WithSources ManagedHooksRequirementsToml)
    (incoming : option ManagedHooksRequirementsToml) (s : RequirementSource)
  : result (HookMergeState * WithSources ManagedHooksRequirementsToml) RequirementsCompositionError :=
  match incoming with
  | None => Ok (st, target)
  | Some incoming =>
      if hooks_is_empty incoming then Ok (st, target) else
      match target with
      | None =>
          let st := track_singleton_source st ManagedDir incoming.(managed_dir) s in
          let st := track_singleton_source st WindowsManagedDir incoming.(windows_managed_dir) s in
          Ok (st, Some (sourced incoming s))
      | Some existing =>
          let active_field := st.(directory_field) in
          let inactive_field := inactive active_field in
          let v := existing.(sourced_value) in
          let? merged :=
            merge_active_singleton st active_field (hook_dir v active_field) (hook_dir incoming active_field) s in
          let '(st, dir, changed) := merged in
          let v := set_hook_dir v active_field dir in
          let '(st, dir, changed') := fill_singleton st inactive_field (hook_dir v inactive_field) (hook_dir incoming inactive_field) s in
          let v := set_hook_dir v inactive_field dir in
          let '(events, changed_events) := append_hook_events v.(hook_events) incoming.(hook_events) in
          let v := mkHooks v.(managed_dir) v.(windows_managed_dir) events in
          Ok (st, Some (sourced v (if changed || changed' || changed_events
                                   then merge_output_source existing.(source) s else existing.(source))))
      end
  end.

(** * What the merged hooks are *)

(** The layers of one stack, highest priority first, are merged one after the other. *)
Abbreviation HookLayer := (option ManagedHooksRequirementsToml * RequirementSource)%type.

Fixpoint merge_hook_layers (st : HookMergeState) (target : WithSources ManagedHooksRequirementsToml) (layers : list HookLayer)
  : result (HookMergeState * WithSources ManagedHooksRequirementsToml) RequirementsCompositionError :=
  match layers with
  | [] => Ok (st, target)
  | (hooks, s) :: layers => let? r := hooks_merge st target hooks s in merge_hook_layers r.1 r.2 layers
  end.

Definition groups (e : HookEventName) (hooks : HookEventsToml) : list MatcherGroup :=
  default [] (snd <$> find (fun p => p.1 == e) (into_matcher_groups hooks)).

Definition no_hooks : ManagedHooksRequirementsToml := mkHooks None None (Build_HookEventsToml [] [] [] [] [] [] [] [] [] []).

(** The directories the layers name, each with its source, and the groups of an event. *)
Definition layer_dirs (f : HookDirectoryField) (layers : list HookLayer) : list (PathBuf * RequirementSource) :=
  omap (fun l : HookLayer => h ← l.1; d ← hook_dir h f; Some (d, l.2)) layers.
Definition layer_groups (e : HookEventName) (layers : list HookLayer) : list MatcherGroup :=
  concat ((fun l : HookLayer => groups e (default no_hooks l.1).(hook_events)) <$> layers).

Definition hooks_of (target : WithSources ManagedHooksRequirementsToml) : ManagedHooksRequirementsToml :=
  from_option sourced_value no_hooks target.

Record merged_from (active : HookDirectoryField) (layers : list HookLayer) (st : HookMergeState)
    (target : WithSources ManagedHooksRequirementsToml) : Prop := {
  mf_field : st.(directory_field) = active;
  mf_dir : forall f, hook_dir (hooks_of target) f = fst <$> head (layer_dirs f layers);
  mf_source : forall f, dir_source st f = snd <$> head (layer_dirs f layers);
  mf_agree : forall d d', d ∈ layer_dirs active layers -> d' ∈ layer_dirs active layers -> d.1 = d'.1;
  mf_groups : forall e, groups e (hooks_of target).(hook_events) = layer_groups e layers;
  mf_none : target = None <-> Forall (fun l : HookLayer => from_option hooks_is_empty true l.1 = true) layers
}.

Lemma hooks_is_empty_spec h : hooks_is_empty h = true <-> h = no_hooks.
Proof.
  unfold hooks_is_empty, events_is_empty. rewrite !andb_true_iff, !bool_decide_eq_true. split.
  - intros [[? ?] ?]. destruct h as [md wd []]. cbn in *. destruct_and!. by subst.
  - by intros ->.
Qed.

Lemma hooks_is_empty_groups h :
  hooks_is_empty h = true <-> (forall f, hook_dir h f = None) /\ forall e, groups e h.(hook_events) = [].
Proof.
  rewrite hooks_is_empty_spec. split; [intros ->; by split; intros []|]. intros [Hd Hg].
  pose proof (Hd ManagedDir) as Hm. pose proof (Hd WindowsManagedDir) as Hw. destruct h as [md wd [e1 e2 e3 e4 e5 e6 e7 e8 e9 e10]].
  cbn in Hm, Hw. subst. unfold no_hooks. do 2 f_equal.
  all: [> exact (Hg PreToolUse) | exact (Hg PermissionRequest) | exact (Hg PostToolUse) | exact (Hg PreCompact) | exact (Hg PostCompact)
        | exact (Hg SessionStart) | exact (Hg UserPromptSubmit) | exact (Hg SubagentStart) | exact (Hg SubagentStop) | exact (Hg Stop)].
Qed.

(** A group with handlers is counted. *)
Lemma handler_count_pos e g h : g ∈ groups e h.(hook_events) -> 0 < length g.(group_hooks) -> 0 < handler_count h.
Proof.
  intros Hg Hl. unfold handler_count, events_handler_count. set (l := concat _).
  assert (g ∈ l) as Hin by (subst l; destruct e; cbn in Hg |- *; set_solver). clearbody l.
  induction l as [|x l IH]; [by apply not_elem_of_nil in Hin|]. cbn. apply elem_of_cons in Hin as [<-|Hin]; [lia|].
  specialize (IH Hin). lia.
Qed.

Lemma groups_append e a b : groups e (append_hook_events a b).1 = groups e a ++ groups e b.
Proof. by destruct e. Qed.

Lemma dir_source_or_insert st f s g :
  dir_source (or_insert_source st f s) g = if f == g then Some (default s (dir_source st f)) else dir_source st g.
Proof. by destruct f, g. Qed.

Lemma hook_dir_set h f v g : hook_dir (set_hook_dir h f v) g = if f == g then v else hook_dir h g.
Proof. by destruct f, g. Qed.

Lemma set_hook_dir_events h f v : (set_hook_dir h f v).(hook_events) = h.(hook_events).
Proof. by destruct f. Qed.

Lemma layer_dirs_snoc f layers l :
  layer_dirs f (layers ++ [l]) = layer_dirs f layers ++ option_list (h ← l.1; d ← hook_dir h f; Some (d, l.2)).
Proof. unfold layer_dirs. rewrite omap_app. cbn. by destruct (l.1 ≫= _). Qed.

Lemma layer_groups_snoc e layers l :
  layer_groups e (layers ++ [l]) = layer_groups e layers ++ groups e (default no_hooks l.1).(hook_events).
Proof. unfold layer_groups. rewrite fmap_app, concat_app. cbn. by rewrite app_nil_r. Qed.

Lemma merged_from_empty active layers st target h s :
  from_option hooks_is_empty true h = true ->
  merged_from active layers st target -> merged_from active (layers ++ [(h, s)]) st target.
Proof.
  intros He [H1 H2 H3 H4 H5 H6].
  assert (forall f, layer_dirs f (layers ++ [(h, s)]) = layer_dirs f layers) as Hd.
  { intros f. rewrite layer_dirs_snoc. destruct h as [h|]; cbn in *; [|apply app_nil_r].
    apply hooks_is_empty_spec in He as ->. destruct f; apply app_nil_r. }
  split; try done; [intros f; by rewrite Hd..|by rewrite Hd| |].
  - intros e. rewrite layer_groups_snoc, H5. cbn. destruct h as [h|]; cbn in *.
    + apply hooks_is_empty_spec in He as ->. by destruct e; rewrite app_nil_r.
    + by destruct e; rewrite app_nil_r.
  - rewrite H6, Forall_app, Forall_singleton. naive_solver.
Qed.

Lemma merged_from_first active layers st h s :
  hooks_is_empty h = false -> merged_from active layers st None ->
  merged_from active (layers ++ [(Some h, s)])
    (track_singleton_source (track_singleton_source st ManagedDir h.(managed_dir) s) WindowsManagedDir h.(windows_managed_dir) s)
    (Some (sourced h s)).
Proof.
  intros He [H1 H2 H3 H4 H5 H6].
  assert (forall f, layer_dirs f layers = []) as Hd.
  { intros f. specialize (H2 f). destruct (layer_dirs f layers); [done|]. by destruct f. }
  assert (forall e, layer_groups e layers = []) as Hg by (intros e; rewrite <- H5; by destruct e).
  split.
  - unfold track_singleton_source. by destruct (managed_dir h), (windows_managed_dir h).
  - intros f. rewrite layer_dirs_snoc, Hd. cbn. by destruct (hook_dir h f).
  - intros f. rewrite layer_dirs_snoc, Hd. cbn. pose proof (H3 ManagedDir) as Hm. pose proof (H3 WindowsManagedDir) as Hw.
    rewrite !Hd in Hm, Hw. cbn in Hm, Hw. unfold track_singleton_source.
    destruct f; cbn; destruct (managed_dir h), (windows_managed_dir h); cbn; rewrite ?Hm, ?Hw; done.
  - intros d d'. rewrite layer_dirs_snoc, Hd. cbn. destruct (hook_dir h active); cbn; set_solver.
  - intros e. rewrite layer_groups_snoc, Hg. done.
  - rewrite Forall_app, Forall_singleton. cbn. rewrite He. naive_solver.
Qed.

(** What setting a directory from a further layer gives: the first one named. *)
Definition first_dir (old : option (PathBuf * RequirementSource)) (v : option PathBuf) (s : RequirementSource)
  : option (PathBuf * RequirementSource) :=
  match old with Some p => Some p | None => (fun d => (d, s)) <$> v end.

Lemma head_layer_dirs f layers h s :
  head (layer_dirs f (layers ++ [(Some h, s)])) = first_dir (head (layer_dirs f layers)) (hook_dir h f) s.
Proof. rewrite layer_dirs_snoc. cbn. destruct (layer_dirs f layers); [by destruct (hook_dir h f)|done]. Qed.

Lemma fill_singleton_spec st f old v s :
  dir_source st f = snd <$> old ->
  exists changed st', fill_singleton st f (fst <$> old) v s = (st', fst <$> first_dir old v s, changed)
    /\ directory_field st' = directory_field st
    /\ (forall g, dir_source st' g = if f == g then snd <$> first_dir old v s else dir_source st g).
Proof.
  intros Hs. destruct old as [[d s0]|], v as [v|]; cbn in *; do 2 eexists; (split; [reflexivity|]);
    (split; [by destruct f|]); intros g; rewrite ?dir_source_or_insert, ?Hs; case_bool_decide; by subst.
Qed.

Lemma merge_active_singleton_spec st f old v s :
  dir_source st f = snd <$> old ->
  match merge_active_singleton st f (fst <$> old) v s with
  | Ok (st', dir, changed) =>
      dir = fst <$> first_dir old v s /\ directory_field st' = directory_field st
      /\ (forall g, dir_source st' g = if f == g then snd <$> first_dir old v s else dir_source st g)
      /\ (forall d d', fst <$> old = Some d -> v = Some d' -> d = d')
  | Err e => exists d s0 d', old = Some (d, s0) /\ v = Some d' /\ d <> d' /\ e = Conflict (field_name f) s0 s d d'
  end.
Proof.
  intros Hs. assert (forall g, dir_source st g = if f == g then snd <$> old else dir_source st g) as Hsame
    by (intros g; case_bool_decide; by subst).
  destruct v as [v|]; cbn.
  - destruct old as [[d s0]|]; cbn in *.
    + case_bool_decide as E; cbn; [subst; repeat split; auto; congruence|]. rewrite Hs. eauto 10.
    + repeat split; [by destruct f| |done]. intros g. rewrite dir_source_or_insert, Hs. done.
  - destruct old as [[d s0]|]; cbn in *; repeat split; auto; congruence.
Qed.

Lemma agree_snoc (l : list (PathBuf * RequirementSource)) v s :
  (forall d d', d ∈ l -> d' ∈ l -> d.1 = d'.1) -> (forall d, fst <$> head l = Some d -> d = v) ->
  forall d d', d ∈ l ++ [(v, s)] -> d' ∈ l ++ [(v, s)] -> d.1 = d'.1.
Proof.
  intros Hl Hh. assert (forall d, d ∈ l ++ [(v, s)] -> d.1 = v) as Hv.
  { intros d [Hd| ->%list_elem_of_singleton]%elem_of_app; [|done]. destruct l as [|x l]; [by apply not_elem_of_nil in Hd|].
    rewrite (Hl d x) by (done || by left). by apply Hh. }
  intros d d' Hd Hd'. rewrite (Hv d Hd), (Hv d' Hd'). done.
Qed.

Lemma hooks_merge_spec active layers st target h s :
  merged_from active layers st target ->
  match hooks_merge st target h s with
  | Ok (st', target') => merged_from active (layers ++ [(h, s)]) st' target'
  | Err e => exists d s0 d', head (layer_dirs active layers) = Some (d, s0)
               /\ (h ≫= fun h => hook_dir h active) = Some d' /\ d <> d' /\ e = Conflict (field_name active) s0 s d d'
  end.
Proof.
  intros Hm. destruct h as [h|]; cbn [hooks_merge]; [|by apply merged_from_empty].
  destruct (hooks_is_empty h) eqn:He; [by apply merged_from_empty|].
  destruct target as [t|]; [|by apply merged_from_first].
  destruct Hm as [H1 H2 H3 H4 H5 H6]. rewrite H1. cbn [hooks_of from_option] in *. cbn zeta.
  pose proof (merge_active_singleton_spec st active (head (layer_dirs active layers)) (hook_dir h active) s (H3 active)) as Ha.
  rewrite <- H2 in Ha. destruct (merge_active_singleton _ _ _ _ _) as [[[st1 dir1] ch1]|e]; cbn [mbind];
    [|destruct Ha as (d & s0 & d' & ? & ? & ? & ?); by exists d, s0, d'].
  destruct Ha as (-> & Hf1 & Hs1 & Hagree). rewrite hook_dir_set.
  rewrite (bool_decide_eq_false_2 (active = inactive active)) by by destruct active.
  destruct (fill_singleton_spec st1 (inactive active) (head (layer_dirs (inactive active) layers)) (hook_dir h (inactive active)) s)
    as (ch2 & st2 & E2 & Hf2 & Hs2).
  { rewrite Hs1, (bool_decide_eq_false_2 (active = inactive active)) by by destruct active. apply H3. }
  rewrite H2, E2. cbn [append_hook_events].
  split.
  - congruence.
  - intros f. rewrite head_layer_dirs. destruct active, f; done.
  - intros f. rewrite head_layer_dirs, Hs2, Hs1. destruct active, f; done.
  - rewrite layer_dirs_snoc. cbn. destruct (hook_dir h active) as [v|] eqn:Ev; cbn; [|by rewrite app_nil_r].
    apply agree_snoc; [done|]. intros d Hd. apply (Hagree d v); [by rewrite H2, Hd|done].
  - intros e. rewrite layer_groups_snoc, <- H5. cbn [hooks_of from_option sourced sourced_value hook_events].
    rewrite !set_hook_dir_events. by destruct e.
  - rewrite Forall_app, Forall_singleton. cbn. rewrite He. naive_solver.
Qed.

Lemma merge_hook_layers_spec active layers before st target :
  merged_from active before st target ->
  match merge_hook_layers st target layers with
  | Ok (st', target') => merged_from active (before ++ layers) st' target'
  | Err e => exists d s d' s', (d, s) ∈ layer_dirs active (before ++ layers) /\ (d', s') ∈ layer_dirs active (before ++ layers)
               /\ d <> d' /\ e = Conflict (field_name active) s s' d d'
  end.
Proof.
  revert before st target. induction layers as [|[h s] layers IH]; intros before st target Hm; cbn; [by rewrite app_nil_r|].
  pose proof (hooks_merge_spec _ _ _ _ h s Hm) as Hstep. destruct (hooks_merge st target h s) as [[st' target']|e]; cbn.
  - specialize (IH _ _ _ Hstep). by rewrite <- app_assoc in IH.
  - destruct Hstep as (d & s0 & d' & Hd & Hv & Hne & ->). exists d, s0, d', s. unfold layer_dirs. rewrite omap_app.
    repeat split; [| |done]; apply elem_of_app; [left|right].
    + apply head_Some_elem_of in Hd. exact Hd.
    + destruct h as [h|]; [|done]. cbn in Hv |- *. rewrite Hv. set_solver.
Qed.

(** Hooks of requirements layers, given highest priority first, are merged exactly
    when the layers that name a hook directory for the current platform agree on it;
    otherwise the composition fails and the error names two layers that disagree.  The
    merged hooks have for every event the groups of all layers in the order of
    priority, and for each platform the directory of the highest layer that names one;
    there are none exactly when no layer has any. *)
Theorem hook_layers_merged active layers :
  match merge_hook_layers (merge_state_new active) None layers with
  | Ok (_, target) =>
      (forall d d', d ∈ layer_dirs active layers -> d' ∈ layer_dirs active layers -> d.1 = d'.1)
      /\ (forall e, groups e (hooks_of target).(hook_events) = layer_groups e layers)
      /\ (forall f, hook_dir (hooks_of target) f = fst <$> head (layer_dirs f layers))
      /\ (target = None <-> Forall (fun l : HookLayer => from_option hooks_is_empty true l.1 = true) layers)
  | Err e => exists d s d' s', (d, s) ∈ layer_dirs active layers /\ (d', s') ∈ layer_dirs active layers
               /\ d <> d' /\ e = Conflict (field_name active) s s' d d'
  end.
Proof.
  assert (merged_from active [] (merge_state_new active) None) as H0.
  { split; [done|by intros []|by intros []|set_solver|by intros []|]. split; [constructor|done]. }
  pose proof (merge_hook_layers_spec active layers [] _ _ H0) as H. cbn [app] in H.
  destruct (merge_hook_layers _ _ _) as [[st target]|]; [|done]. by destruct H.
Qed.

Definition w_hooks (dir : string) (command : string) : ManagedHooksRequirementsToml :=
  mkHooks (Some (components (lit dir))) None
    (Build_HookEventsToml [{| matcher := None; group_hooks := [HandlerCommand (lit command) None None false None] |}]
       [] [] [] [] [] [] [] [] []).

Example hook_layers_example :
  let layers dir := [(Some (w_hooks "/etc/hooks" "audit"), LegacyManagedConfigTomlFromMdm); (None, SourceUnknown);
                     (Some (w_hooks dir "lint"), EnterpriseManaged (lit "1") (lit "corp"))] in
  (fun r => handler_count (hooks_of r.2)) <$> (match merge_hook_layers (merge_state_new ManagedDir) None (layers "/etc/hooks") with
                                              | Ok r => Some r | Err _ => None end) = Some 2
  /\ merge_hook_layers (merge_state_new ManagedDir) None (layers "/opt/hooks")
     = Err (Conflict (lit "hooks.managed_dir") LegacyManagedConfigTomlFromMdm (EnterpriseManaged (lit "1") (lit "corp"))
              (components (lit "/etc/hooks")) (components (lit "/opt/hooks"))).
Proof. vm_compute. split; reflexivity. Qed.
