(* ===== verification/Requirements.v ===== *)
(** [config/src/config_requirements.rs]: managed requirements and the constrained settings
    they become.

    Requirements come from several sources, the one with the highest priority first;
    they are merged field by field ([merge_unset_fields]; [RequirementLayers] has the
    merge of whole layers) and compiled to constrained settings ([try_from]).  The types
    of the parts that are only carried along are left open ([CarriedParts]), as is the
    matching of host names by the [wildmatch] crate. *)

From stdpp Require Import base list option numbers strings gmap sets.
From Stdlib Require Import NArith Lia.
From S2P Require Import NetworkSpec ExecRule ExecPolicy.
From S2P Require Import Prelude RustStr AbsolutePath Permissions PermissionLaws PermissionProfile.
From S2P Require Import Constrained RequirementRules McpRequirements HookRequirements.
Local Open Scope rust_scope.

(** * Data *)

Inductive ApprovalsReviewer : Set := ReviewUser | AutoReview.
#[global] Instance ApprovalsReviewer_eq_dec : EqDecision ApprovalsReviewer.
Proof. solve_decision. Defined.

Inductive SandboxModeRequirement : Set := ReadOnly | WorkspaceWrite | DangerFullAccess | ExternalSandbox.
#[global] Instance SandboxModeRequirement_eq_dec : EqDecision SandboxModeRequirement.
Proof. solve_decision. Defined.

(** [WebSearchMode] and [WebSearchModeRequirement] have the same cases. *)
Inductive WebSearchMode : Set := SearchDisabled | SearchCached | SearchIndexed | SearchLive.
#[global] Instance WebSearchMode_eq_dec : EqDecision WebSearchMode.
Proof. solve_decision. Defined.

Inductive WindowsSandboxModeToml : Set := Elevated | Unelevated.
#[global] Instance WindowsSandboxModeToml_eq_dec : EqDecision WindowsSandboxModeToml.
Proof. solve_decision. Defined.

Inductive ResidencyRequirement : Set := Us.
#[global] Instance ResidencyRequirement_eq_dec : EqDecision ResidencyRequirement.
Proof. solve_decision. Defined.

Inductive AppToolApproval : Set := Auto | Prompt | Approve.

Record AppRequirementToml : Type := {
  app_enabled : option bool;
  (** tool name to approval mode *)
  tools : option (gmap str (option AppToolApproval))
}.
Abbreviation AppsRequirementsToml := (gmap str AppRequirementToml).

Record RemoteSandboxConfigToml : Type := {
  hostname_patterns : list str;
  remote_allowed_sandbox_modes : list SandboxModeRequirement
}.

(** Parts of the requirements that are carried along unread: permission profiles and
    the reasoning effort of a model. *)
Class CarriedParts : Type := { Profiles : Type; ReasoningEffort : Type }.

Inductive MarketplaceAllowedSourceKind : Set := Git | HostPattern | Local.

Record MarketplaceAllowedSourceToml : Set := {
  marketplace_source : option MarketplaceAllowedSourceKind;
  marketplace_url : option str;
  ref_name : option str;
  host_pattern : option str;
  marketplace_path : option PathBuf
}.

Record MarketplaceRequirementsToml : Set := {
  restrict_to_allowed_sources : option bool;
  allowed_sources : list (str * MarketplaceAllowedSourceToml)
}.

Record NewThreadModelDefaultsToml (E : Type) : Type := {
  model : option str;
  model_reasoning_effort : option E;
  service_tier : option str
}.
Arguments model {E}. Arguments model_reasoning_effort {E}. Arguments service_tier {E}.

(** [RequirementsExecPolicyParseError]'s texts. *)
Definition rule_error_text (e : RequirementsExecPolicyParseError) : str :=
  let at_index i := lit "rules prefix_rule at index " ++ show_N (N.of_nat i) in
  match e with
  | EmptyPrefixRules => lit "rules prefix_rules cannot be empty"
  | EmptyPattern i => at_index i ++ lit " has an empty pattern"
  | InvalidPatternToken i j reason =>
      at_index i ++ lit " has an invalid pattern token at index " ++ show_N (N.of_nat j) ++ lit ": " ++ reason
  | EmptyJustification i => at_index i ++ lit " has an empty justification"
  | MissingDecision i => at_index i ++ lit " is missing a decision"
  | AllowDecisionNotAllowed i =>
      at_index i ++ lit " has decision 'allow', which is not permitted in requirements.toml: Motyga merges these rules with other config and uses the most restrictive result (use 'prompt' or 'forbidden')"
  end.

(** [PermissionsRequirementsToml]; [filesystem] holds the patterns of [deny_read]. *)
Record PermissionsRequirementsToml (P : Type) : Type := {
  filesystem : option (option (list str));
  profiles : P
}.
Arguments filesystem {P}. Arguments profiles {P}. Arguments Build_PermissionsRequirementsToml {P}.

(** [FilesystemConstraints::from]. *)
Definition filesystem_constraints {P} (self : PermissionsRequirementsToml P) : list str :=
  default [] (d ← self.(filesystem); d).

Section requirements.
Context `{CarriedParts} `{RegexLite}.

(** [ConfigRequirementsToml] ([F T] is [option T]) and [ConfigRequirementsWithSources]
    ([F T] is [option (Sourced T)]) have the same fields, but for
    [remote_sandbox_config]. *)
Record RequirementFields (F : Type -> Type) : Type := {
  allowed_approval_policies : F (list AskForApproval.t);
  allowed_approvals_reviewers : F (list ApprovalsReviewer);
  allowed_sandbox_modes : F (list SandboxModeRequirement);
  allowed_permission_profiles : F (gmap str bool);
  default_permissions : F str;
  allowed_web_search_modes : F (list WebSearchMode);
  allow_managed_hooks_only : F bool;
  allow_appshots : F bool;
  allow_remote_control : F bool;
  computer_use : F (option bool);
  windows : F (option (list WindowsSandboxModeToml));
  feature_requirements : F (gmap str bool);
  hooks : F ManagedHooksRequirementsToml;
  mcp_servers : F (list (str * McpServerRequirement));
  plugins : F (list (str * PluginRequirementsToml));
  marketplaces : F MarketplaceRequirementsToml;
  apps : F AppsRequirementsToml;
  rules : F RequirementsExecPolicyToml;
  enforce_residency : F ResidencyRequirement;
  network : F NetworkConstraints;
  permissions : F (PermissionsRequirementsToml Profiles);
  (** [ModelsRequirementsToml] has one field *)
  models : F (option (NewThreadModelDefaultsToml ReasoningEffort));
  guardian_policy_config : F str
}.

Definition SourcedOption (T : Type) : Type := WithSources T.
Abbreviation ConfigRequirementsWithSources := (RequirementFields SourcedOption).

Record ConfigRequirementsToml : Type := {
  fields : RequirementFields option;
  remote_sandbox_config : option (list RemoteSandboxConfigToml)
}.

(** ** Merging *)

Definition merge_tool (base incoming : option (option AppToolApproval)) : option (option AppToolApproval) :=
  match incoming with
  | None => base
  | Some i => Some match default None base with Some m => Some m | None => i end
  end.

(** The loop body of [merge_app_requirements_descending], for an app of [incoming]. *)
Definition merge_app (base : option AppRequirementToml) (incoming : AppRequirementToml) : AppRequirementToml :=
  let base := default {| app_enabled := None; tools := None |} base in
  {| app_enabled := if (base.(app_enabled) == Some false) || (incoming.(app_enabled) == Some false) then Some false
                else match base.(app_enabled) with Some b => Some b | None => incoming.(app_enabled) end;
     tools := match incoming.(tools) with
              | None => base.(tools)
              | Some incoming_tools => Some (merge merge_tool (default ∅ base.(tools)) incoming_tools)
              end |}.

Definition merge_app_requirements_descending (base incoming : AppsRequirementsToml) : AppsRequirementsToml :=
  merge (fun b i => match i with Some i => Some (merge_app b i) | None => b end) base incoming.

(** [fill_missing_take!] for one field. *)
Definition fill_missing {T} (s : RequirementSource) (base : WithSources T) (other : option T) : WithSources T :=
  match base, other with
  | None, Some v => Some (sourced v s)
  | _, _ => base
  end.

Definition nonblank (o : option str) : option str :=
  match o with Some v => if trim v == [] then None else Some v | None => None end.

Definition merge_unset_fields (self : ConfigRequirementsWithSources) (s : RequirementSource) (other : ConfigRequirementsToml)
  : ConfigRequirementsWithSources :=
  let o := other.(fields) in
  {| allowed_approval_policies := fill_missing s (allowed_approval_policies _ self) (allowed_approval_policies _ o);
     allowed_approvals_reviewers := fill_missing s (allowed_approvals_reviewers _ self) (allowed_approvals_reviewers _ o);
     allowed_sandbox_modes := fill_missing s (allowed_sandbox_modes _ self) (allowed_sandbox_modes _ o);
     allowed_permission_profiles := fill_missing s (allowed_permission_profiles _ self) (allowed_permission_profiles _ o);
     default_permissions := fill_missing s (default_permissions _ self) (default_permissions _ o);
     allowed_web_search_modes := fill_missing s (allowed_web_search_modes _ self) (allowed_web_search_modes _ o);
     allow_managed_hooks_only := fill_missing s (allow_managed_hooks_only _ self) (allow_managed_hooks_only _ o);
     allow_appshots := fill_missing s (allow_appshots _ self) (allow_appshots _ o);
     allow_remote_control := fill_missing s (allow_remote_control _ self) (allow_remote_control _ o);
     computer_use := fill_missing s (computer_use _ self) (computer_use _ o);
     windows := fill_missing s (windows _ self) (windows _ o);
     feature_requirements := fill_missing s (feature_requirements _ self) (feature_requirements _ o);
     hooks := fill_missing s (hooks _ self) (hooks _ o);
     mcp_servers := fill_missing s (mcp_servers _ self) (mcp_servers _ o);
     plugins := fill_missing s (plugins _ self) (plugins _ o);
     marketplaces := fill_missing s (marketplaces _ self) (marketplaces _ o);
     apps := match apps _ o, apps _ self with
             | Some incoming, Some existing =>
                 Some (sourced (merge_app_requirements_descending existing.(sourced_value) incoming) existing.(source))
             | Some incoming, None => Some (sourced incoming s)
             | None, existing => existing
             end;
     rules := fill_missing s (rules _ self) (rules _ o);
     enforce_residency := fill_missing s (enforce_residency _ self) (enforce_residency _ o);
     network := fill_missing s (network _ self) (network _ o);
     permissions := fill_missing s (permissions _ self) (permissions _ o);
     models := fill_missing s (models _ self) (models _ o);
     guardian_policy_config := fill_missing s (guardian_policy_config _ self) (nonblank (guardian_policy_config _ o)) |}.

Definition no_fields : ConfigRequirementsWithSources := {|
  allowed_approval_policies := None; allowed_approvals_reviewers := None; allowed_sandbox_modes := None;
  allowed_permission_profiles := None; default_permissions := None; allowed_web_search_modes := None;
  allow_managed_hooks_only := None; allow_appshots := None; allow_remote_control := None; computer_use := None;
  windows := None; feature_requirements := None; hooks := None; mcp_servers := None; plugins := None;
  marketplaces := None; apps := None; rules := None; enforce_residency := None; network := None; permissions := None;
  models := None; guardian_policy_config := None |}.

(** ** Host-dependent sandbox modes *)

Context (wild_match : str -> str -> bool).

Definition normalize_hostname (hostname : str) : option str :=
  let hostname := trim_end_matches 46%N (trim hostname) in
  if hostname == [] then None else Some (to_ascii_lowercase hostname).

Definition hostname_matches_any_pattern (hostname : str) (patterns : list str) : bool :=
  existsb (fun pattern => match normalize_hostname pattern with
                          | Some p => wild_match p hostname
                          | None => false
                          end) patterns.

Definition with_sandbox_modes (f : RequirementFields option) (modes : list SandboxModeRequirement) : RequirementFields option := {|
  allowed_approval_policies := allowed_approval_policies _ f;
  allowed_approvals_reviewers := allowed_approvals_reviewers _ f;
  allowed_sandbox_modes := Some modes;
  allowed_permission_profiles := allowed_permission_profiles _ f;
  default_permissions := default_permissions _ f;
  allowed_web_search_modes := allowed_web_search_modes _ f;
  allow_managed_hooks_only := allow_managed_hooks_only _ f;
  allow_appshots := allow_appshots _ f;
  allow_remote_control := allow_remote_control _ f;
  computer_use := computer_use _ f;
  windows := windows _ f;
  feature_requirements := feature_requirements _ f;
  hooks := hooks _ f;
  mcp_servers := mcp_servers _ f;
  plugins := plugins _ f;
  marketplaces := marketplaces _ f;
  apps := apps _ f;
  rules := rules _ f;
  enforce_residency := enforce_residency _ f;
  network := network _ f;
  permissions := permissions _ f;
  models := models _ f;
  guardian_policy_config := guardian_policy_config _ f |}.

Definition apply_remote_sandbox_config (self : ConfigRequirementsToml) (hostname : option str) : ConfigRequirementsToml :=
  match self.(remote_sandbox_config), (h ← hostname; normalize_hostname h) with
  | Some configs, Some hostname =>
      match list_find (fun c => hostname_matches_any_pattern hostname c.(hostname_patterns) = true) configs with
      | Some (_, matched) =>
          {| fields := with_sandbox_modes self.(fields) matched.(remote_allowed_sandbox_modes);
             remote_sandbox_config := self.(remote_sandbox_config) |}
      | None => self
      end
  | _, _ => self
  end.

(** ** Compilation *)

Definition sandbox_mode_requirement_for_permission_profile (p : PermissionProfile.t) : SandboxModeRequirement :=
  match p with
  | PermissionProfile.Disabled => DangerFullAccess
  | PermissionProfile.External _ => ExternalSandbox
  | PermissionProfile.Managed _ _ =>
      let policy := PermissionProfile.file_system_sandbox_policy p in
      if has_full_disk_write_access policy then DangerFullAccess
      else if existsb (fun e => FileSystemAccessMode.can_write e.(entry_access)) policy.(fsp_entries) then WorkspaceWrite
      else ReadOnly
  end.

(** [PermissionProfile::read_only]. *)
Definition read_only_profile : PermissionProfile.t :=
  PermissionProfile.Managed (ManagedFileSystemPermissions.Restricted read_only_file_system_entries None)
    NetworkSandboxPolicy.Restricted.

Record ConfigRequirements : Type := {
  r_approval_policy : ConstrainedWithSource AskForApproval.t;
  r_approvals_reviewer : ConstrainedWithSource ApprovalsReviewer;
  r_permission_profile : ConstrainedWithSource PermissionProfile.t;
  r_windows_sandbox_mode : ConstrainedWithSource (option WindowsSandboxModeToml);
  r_web_search_mode : ConstrainedWithSource WebSearchMode;
  r_allow_managed_hooks_only : WithSources bool;
  r_allow_appshots : WithSources bool;
  r_allow_remote_control : WithSources bool;
  r_computer_use : WithSources (option bool);
  r_feature_requirements : WithSources (gmap str bool);
  r_managed_hooks : option (ConstrainedWithSource ManagedHooksRequirementsToml);
  r_mcp_servers : WithSources (list (str * McpServerRequirement));
  r_plugins : WithSources (list (str * PluginRequirementsToml));
  r_marketplaces : WithSources MarketplaceRequirementsToml;
  r_exec_policy : WithSources (Policy PrefixRule);
  r_enforce_residency : ConstrainedWithSource (option ResidencyRequirement);
  r_network : WithSources NetworkConstraints;
  r_filesystem : WithSources (list str);
  r_guardian_policy_config_source : option RequirementSource
}.

(** The validators are membership tests. *)
Definition must {T} (ok : T -> bool) (field : str) (s : RequirementSource) (candidate : T) : result unit ConstraintError :=
  if ok candidate then Ok tt else Err (InvalidValue field s).

Definition constrain {T} (initial : T) (ok : T -> bool) (field : str) (s : RequirementSource)
  : result (ConstrainedWithSource T) ConstraintError :=
  let? c := constrained_new initial (must ok field s) in Ok (with_source c (Some s)).

Definition memb {T} `{EqDecision T} (l : list T) (x : T) : bool := bool_decide (x ∈ l).

Fixpoint validate_mcp_server_requirements (requirements : list (str * McpServerRequirement)) (s : RequirementSource)
    (plugin_name : option str) : result unit ConstraintError :=
  match requirements with
  | [] => Ok tt
  | (server_name, requirement) :: l =>
      match validate requirement with
      | Err reason =>
          Err (McpServerRequirementParse
                 match plugin_name with Some p => p ++ lit "/" ++ server_name | None => server_name end s reason)
      | Ok _ => validate_mcp_server_requirements l s plugin_name
      end
  end.

Fixpoint validate_plugins (l : list (str * PluginRequirementsToml)) (s : RequirementSource) : result unit ConstraintError :=
  match l with
  | [] => Ok tt
  | (plugin_name, plugin) :: l =>
      let? _ := match plugin.(plugin_mcp_servers) with
                | Some reqs => validate_mcp_server_requirements reqs s (Some plugin_name)
                | None => Ok tt
                end in
      validate_plugins l s
  end.

(** A list of allowed values, of which the first is the initial one. *)
Definition constrain_to_list {T} `{EqDecision T} (field allowed_field : str) (default : T)
    (o : WithSources (list T)) : result (ConstrainedWithSource T) ConstraintError :=
  match o with
  | None => Ok (with_source (allow_any default) None)
  | Some {| sourced_value := allowed; source := s |} =>
      match allowed with
      | [] => Err (EmptyField allowed_field)
      | initial :: _ => constrain initial (memb allowed) field s
      end
  end.

Definition constrain_profile (o : WithSources (list SandboxModeRequirement))
  : result (ConstrainedWithSource PermissionProfile.t) ConstraintError :=
  match o with
  | None => Ok (with_source (allow_any read_only_profile) None)
  | Some {| sourced_value := modes; source := s |} =>
      if negb (memb modes ReadOnly) then Err (InvalidValue (lit "allowed_sandbox_modes") s)
      else constrain read_only_profile (fun p => memb modes (sandbox_mode_requirement_for_permission_profile p))
             (lit "sandbox_mode") s
  end.

Definition constrain_windows (o : WithSources (option (list WindowsSandboxModeToml)))
  : result (ConstrainedWithSource (option WindowsSandboxModeToml)) ConstraintError :=
  match o with
  | Some {| sourced_value := Some implementations; source := s |} =>
      if implementations == [] then Err (EmptyField (lit "windows.allowed_sandbox_implementations"))
      else
        let initial := if memb implementations Elevated then Elevated else Unelevated in
        constrain (Some initial) (fun c => match c with Some c => memb implementations c | None => false end)
          (lit "windows.sandbox") s
  | _ => Ok (with_source (allow_any None) None)
  end.

Definition constrain_web_search (o : WithSources (list WebSearchMode))
  : result (ConstrainedWithSource WebSearchMode) ConstraintError :=
  match o with
  | None => Ok (with_source (allow_any SearchCached) None)
  | Some {| sourced_value := modes; source := s |} =>
      let accepted := SearchDisabled :: modes in
      let initial := if memb accepted SearchCached then SearchCached
                     else if memb accepted SearchIndexed then SearchIndexed
                     else if memb accepted SearchLive then SearchLive else SearchDisabled in
      constrain initial (memb accepted) (lit "web_search_mode") s
  end.

Definition constrain_hooks (o : WithSources ManagedHooksRequirementsToml) : result (option (ConstrainedWithSource ManagedHooksRequirementsToml)) ConstraintError :=
  match o with
  | Some {| sourced_value := allowed; source := s |} =>
      if 0 <? handler_count allowed
      then let? c := constrain allowed (fun candidate => candidate == allowed) (lit "hooks") s in Ok (Some c)
      else Ok None
  | None => Ok None
  end.

Definition constrain_residency (o : WithSources ResidencyRequirement)
  : result (ConstrainedWithSource (option ResidencyRequirement)) ConstraintError :=
  match o with
  | None => Ok (with_source (allow_any None) None)
  | Some {| sourced_value := required; source := s |} =>
      constrain (Some required) (fun candidate => candidate == Some required) (lit "enforce_residency") s
  end.

Definition compile_rules (o : WithSources RequirementsExecPolicyToml) : result (WithSources (Policy PrefixRule)) ConstraintError :=
  match o with
  | None => Ok None
  | Some {| sourced_value := r; source := s |} =>
      match to_policy r with
      | Ok policy => Ok (Some (sourced policy s))
      | Err reason => Err (ExecPolicyParse s (rule_error_text reason))
      end
  end.

(** [TryFrom<ConfigRequirementsWithSources>]. *)
Definition try_from (toml : ConfigRequirementsWithSources) : result ConfigRequirements ConstraintError :=
  let? _ := match mcp_servers _ toml with
            | Some r => validate_mcp_server_requirements r.(sourced_value) r.(source) None
            | None => Ok tt
            end in
  let? _ := match plugins _ toml with Some r => validate_plugins r.(sourced_value) r.(source) | None => Ok tt end in
  let? approval_policy := constrain_to_list (lit "approval_policy") (lit "allowed_approval_policies")
                            AskForApproval.OnRequest (allowed_approval_policies _ toml) in
  let? approvals_reviewer := constrain_to_list (lit "approvals_reviewer") (lit "allowed_approvals_reviewers")
                               ReviewUser (allowed_approvals_reviewers _ toml) in
  let? permission_profile := constrain_profile (allowed_sandbox_modes _ toml) in
  let? windows_sandbox_mode := constrain_windows (windows _ toml) in
  let? exec_policy := compile_rules (rules _ toml) in
  let? web_search_mode := constrain_web_search (allowed_web_search_modes _ toml) in
  let? managed_hooks := constrain_hooks (hooks _ toml) in
  let? residency := constrain_residency (enforce_residency _ toml) in
  Ok {| r_approval_policy := approval_policy;
        r_approvals_reviewer := approvals_reviewer;
        r_permission_profile := permission_profile;
        r_windows_sandbox_mode := windows_sandbox_mode;
        r_web_search_mode := web_search_mode;
        r_allow_managed_hooks_only := allow_managed_hooks_only _ toml;
        r_allow_appshots := allow_appshots _ toml;
        r_allow_remote_control := allow_remote_control _ toml;
        r_computer_use := computer_use _ toml;
        r_feature_requirements := match feature_requirements _ toml with
                                  | Some f => if f.(sourced_value) == ∅ then None else Some f
                                  | None => None
                                  end;
        r_managed_hooks := managed_hooks;
        r_mcp_servers := mcp_servers _ toml;
        r_plugins := plugins _ toml;
        r_marketplaces := marketplaces _ toml;
        r_exec_policy := exec_policy;
        r_enforce_residency := residency;
        r_network := network _ toml;
        r_filesystem := (fun p => sourced (filesystem_constraints p.(sourced_value)) p.(source)) <$> permissions _ toml;
        r_guardian_policy_config_source := source <$> guardian_policy_config _ toml |}.
End requirements.


(** * Compiled settings are bound by the requirements *)

(** A setting accepts exactly the values of [P], whatever was set before, and never leaves
    them; [o] is the source it blames. *)
Definition bound {T} (P : T -> Prop) (o : option RequirementSource) (c : ConstrainedWithSource T) : Prop :=
  c.(constrained_source) = o /\ c.(constrained).(normalizer) = None /\ constrained_ok c.(constrained)
  /\ (forall x, allowed c.(constrained) x <-> P x) /\ always P c.(constrained).

Definition bound_by {X T} (requirement : WithSources X) (P : X -> T -> Prop) (c : ConstrainedWithSource T) : Prop :=
  match requirement with
  | Some r => bound (P r.(sourced_value)) (Some r.(source)) c
  | None => bound (fun _ => True) None c
  end.

Lemma bound_intro {T} (P : T -> Prop) o (c : ConstrainedWithSource T) :
  c.(constrained_source) = o -> c.(constrained).(normalizer) = None -> P c.(constrained).(value) ->
  (forall x, allowed c.(constrained) x <-> P x) -> bound P o c.
Proof.
  intros Hs Hn Hv HP. assert (constrained_ok c.(constrained)) as Hok by by apply HP.
  repeat split; [done..|apply HP|apply HP|]. apply always_allowed; [done|]. intros x. apply HP.
Qed.

Lemma bound_any {T} (x : T) : bound (fun _ => True) None (with_source (allow_any x) None).
Proof. by apply bound_intro. Qed.

Lemma constrain_bound {T} (initial : T) ok field s (P : T -> Prop) c :
  (forall x, ok x = true <-> P x) -> constrain initial ok field s = Ok c ->
  c.(constrained).(value) = initial /\ bound P (Some s) c.
Proof.
  intros HP. unfold constrain, constrained_new, must. destruct (ok initial) eqn:E; [|done]. cbn. intros [= <-].
  split; [done|]. apply bound_intro; [done|done|by apply HP|]. intros x. unfold allowed, can_set. cbn. rewrite <- HP.
  by destruct (ok x).
Qed.

Lemma constrain_succeeds {T} (initial : T) ok field s : is_ok (constrain initial ok field s) = ok initial.
Proof. unfold constrain, constrained_new, must. by destruct (ok initial). Qed.

Lemma memb_spec {T} `{EqDecision T} (l : list T) x : memb l x = true <-> x ∈ l.
Proof. apply bool_decide_eq_true. Qed.

Section compiled.
Context `{CarriedParts} `{RegexLite}.

Lemma constrain_to_list_bound {T} `{EqDecision T} field allowed_field (d : T) o c :
  constrain_to_list field allowed_field d o = Ok c -> bound_by o (fun l x => x ∈ l) c.
Proof.
  destruct o as [[[|x l] s]|]; cbn; [done| |intros [= <-]; apply bound_any].
  intros Hc. apply constrain_bound with (P := fun y => y ∈ x :: l) in Hc as [_ ?]; [done|]. intros. apply memb_spec.
Qed.

Lemma constrain_to_list_ok {T} `{EqDecision T} field allowed_field (d : T) o :
  is_ok (constrain_to_list field allowed_field d o) = true <-> (sourced_value <$> o) <> Some [].
Proof.
  destruct o as [[[|x l] s]|]; cbn; [naive_solver| |done]. rewrite constrain_succeeds, memb_spec. split; [done|left].
Qed.

Lemma constrain_profile_bound o c :
  constrain_profile o = Ok c ->
  c.(constrained).(value) = read_only_profile
  /\ bound_by o (fun modes p => sandbox_mode_requirement_for_permission_profile p ∈ modes) c.
Proof.
  destruct o as [[modes s]|]; cbn; [|intros [= <-]; split; [done|apply bound_any]]. destruct (memb modes ReadOnly); [cbn|done].
  apply constrain_bound. intros. apply memb_spec.
Qed.

Lemma constrain_profile_ok o :
  is_ok (constrain_profile o) = true <-> from_option (fun r => ReadOnly ∈ r.(sourced_value)) True o.
Proof.
  destruct o as [[modes s]|]; cbn [from_option constrain_profile sourced_value]; [|done]. rewrite <- memb_spec. destruct (memb modes ReadOnly) eqn:E; cbn [negb]; [|done].
  rewrite constrain_succeeds. done.
Qed.

(** The implementations a requirement of Windows sandboxes lists. *)
Definition windows_list (o : WithSources (option (list WindowsSandboxModeToml))) : WithSources (list WindowsSandboxModeToml) :=
  match o with Some {| sourced_value := Some l; source := s |} => Some (sourced l s) | _ => None end.

Lemma windows_initial l : l <> [] -> (if memb l Elevated then Elevated else Unelevated) ∈ l.
Proof.
  intros Hl. destruct (memb l Elevated) eqn:E; [by apply memb_spec|]. destruct l as [|[] l]; [done| |by left].
  by unfold memb in E; rewrite bool_decide_eq_true_2 in E by by left.
Qed.

Lemma constrain_windows_bound o :
  (is_ok (constrain_windows o) = true <-> (sourced_value <$> windows_list o) <> Some [])
  /\ forall c, constrain_windows o = Ok c -> bound_by (windows_list o) (fun l x => exists i, x = Some i /\ i ∈ l) c.
Proof.
  destruct o as [[[l|] s]|]; cbn; [|split; [done|intros c [= <-]; apply bound_any]..].
  case_bool_decide as El; [subst; split; [naive_solver|done]|]. split.
  - rewrite constrain_succeeds, memb_spec. split; [naive_solver|]. intros _. by apply windows_initial.
  - intros c Hc. eapply constrain_bound in Hc as [_ ?]; [done|]. intros [i|]; [rewrite memb_spec|]; naive_solver.
Qed.

Lemma constrain_web_search_bound o :
  exists c, constrain_web_search o = Ok c /\ bound_by o (fun modes m => m = SearchDisabled \/ m ∈ modes) c.
Proof.
  destruct o as [[modes s]|]; cbn; [|eexists; split; [done|apply bound_any]].
  set (initial := if memb _ SearchCached then _ else _).
  assert (memb (SearchDisabled :: modes) initial = true) as Hi.
  { subst initial. repeat case_match; try done. }
  pose proof (constrain_succeeds initial (memb (SearchDisabled :: modes)) (lit "web_search_mode") s) as Hok. rewrite Hi in Hok.
  destruct (constrain initial _ _ _) as [c|] eqn:Hc; [|done]. exists c. split; [done|].
  eapply constrain_bound in Hc as [_ ?]; [done|]. intros x. rewrite memb_spec. apply elem_of_cons.
Qed.

Lemma constrain_equal_bound {T} `{EqDecision T} (v : T) field s :
  exists c, constrain v (fun x => x == v) field s = Ok c /\ bound (fun x => x = v) (Some s) c.
Proof.
  pose proof (constrain_succeeds v (fun x => x == v) field s) as Hok. cbn beta in Hok. rewrite bool_decide_eq_true_2 in Hok by done.
  destruct (constrain v _ _ _) as [c|] eqn:Hc; [|done]. exists c. split; [done|].
  eapply constrain_bound in Hc as [_ ?]; [done|]. intros x. apply bool_decide_eq_true.
Qed.

(** ** What a read-only sandbox cannot do *)

Lemma non_write_access res target :
  Forall (fun e => FileSystemAccessMode.can_write e.(res_access) = false) res ->
  FileSystemAccessMode.can_write (access_of res target) = false.
Proof.
  intros Hres. destruct (access_of_cases res target) as [[e He]|[_ ->]]; [|done].
  rewrite (access_of_decides _ _ _ He). destruct He as [He _]. rewrite Forall_forall in Hres. by apply Hres.
Qed.

Lemma read_only_mode_no_write p os path cwd :
  sandbox_mode_requirement_for_permission_profile p = ReadOnly ->
  can_write_path_with_cwd os (PermissionProfile.file_system_sandbox_policy p) path cwd = false.
Proof.
  destruct p as [fs net| |net]; cbn [sandbox_mode_requirement_for_permission_profile]; [|done|done].
  set (policy := PermissionProfile.file_system_sandbox_policy _).
  destruct (has_full_disk_write_access policy) eqn:Hf; [done|]. destruct (existsb _ _) eqn:He; [done|]. intros _.
  assert (is_restricted policy = true) as Hr.
  { revert Hf. unfold is_restricted, has_full_disk_write_access. by destruct (fsp_kind policy). }
  destruct (resolve_candidate_path os path cwd) as [target|] eqn:Et; [|by apply can_write_unresolved].
  rewrite (can_write_restricted _ _ _ _ _ Hr Et), non_write_access; [done|].
  pose proof (proj1 (Forall_forall _ _) (proj1 (existsb_false _ _) He)) as Hw. apply Forall_forall.
  intros e (entry & Hin & Hres)%list_elem_of_omap. unfold resolve_entry in Hres. case_match; simplify_eq. by apply Hw.
Qed.

Lemma try_from_inv (toml : RequirementFields SourcedOption) r :
  try_from toml = Ok r ->
  constrain_to_list (lit "approval_policy") (lit "allowed_approval_policies") AskForApproval.OnRequest
    (allowed_approval_policies _ toml) = Ok r.(r_approval_policy)
  /\ constrain_to_list (lit "approvals_reviewer") (lit "allowed_approvals_reviewers") ReviewUser
       (allowed_approvals_reviewers _ toml) = Ok r.(r_approvals_reviewer)
  /\ constrain_profile (allowed_sandbox_modes _ toml) = Ok r.(r_permission_profile)
  /\ constrain_windows (windows _ toml) = Ok r.(r_windows_sandbox_mode)
  /\ constrain_web_search (allowed_web_search_modes _ toml) = Ok r.(r_web_search_mode)
  /\ constrain_hooks (hooks _ toml) = Ok r.(r_managed_hooks)
  /\ constrain_residency (enforce_residency _ toml) = Ok r.(r_enforce_residency).
Proof. unfold try_from. intros Hr. repeat (case_match; [|done]). by injection Hr as <-. Qed.

Lemma try_from_parts (toml : RequirementFields SourcedOption) r :
  try_from toml = Ok r ->
  compile_rules (rules _ toml) = Ok r.(r_exec_policy)
  /\ r.(r_filesystem) = (fun p => sourced (filesystem_constraints p.(sourced_value)) p.(source)) <$> permissions _ toml.
Proof. unfold try_from. intros Hr. repeat (case_match; [|done]). by injection Hr as <-. Qed.

Lemma managed_hooks_bound (toml : RequirementFields SourcedOption) r h :
  try_from toml = Ok r -> hooks _ toml = Some h -> 0 < handler_count h.(sourced_value) ->
  exists c, r.(r_managed_hooks) = Some c /\ bound (fun x => x = h.(sourced_value)) (Some h.(source)) c.
Proof.
  intros Hr Eh Hn. apply try_from_inv in Hr as (_ & _ & _ & _ & _ & Hh & _). rewrite Eh in Hh. destruct h as [v s].
  cbn [constrain_hooks sourced_value source] in *. rewrite (proj2 (Nat.ltb_lt _ _) Hn) in Hh.
  destruct (constrain_equal_bound v (lit "hooks") s) as (c & E & Hc). rewrite E in Hh. exists c. split; [congruence|done].
Qed.

(** C13: compiled requirements bind the settings.  If requirements compile, then for each
    constrained setting exactly the values of the requirement are accepted, with its
    source to blame for a refusal, and after any sequence of changes the value is one of
    them; without a requirement every value is accepted.  When the only sandbox mode
    allowed is read-only, no permission profile that can be set ever lets a path be
    written. *)
Theorem requirements_bind_settings (toml : RequirementFields SourcedOption) r :
  try_from toml = Ok r ->
  bound_by (allowed_approval_policies _ toml) (fun l x => x ∈ l) r.(r_approval_policy)
  /\ bound_by (allowed_approvals_reviewers _ toml) (fun l x => x ∈ l) r.(r_approvals_reviewer)
  /\ bound_by (allowed_sandbox_modes _ toml) (fun modes p => sandbox_mode_requirement_for_permission_profile p ∈ modes)
       r.(r_permission_profile)
  /\ bound_by (windows_list (windows _ toml)) (fun l x => exists i, x = Some i /\ i ∈ l) r.(r_windows_sandbox_mode)
  /\ bound_by (allowed_web_search_modes _ toml) (fun modes m => m = SearchDisabled \/ m ∈ modes) r.(r_web_search_mode)
  /\ bound_by (enforce_residency _ toml) (fun required x => x = Some required) r.(r_enforce_residency)
  /\ (forall h, hooks _ toml = Some h -> 0 < handler_count h.(sourced_value) ->
        exists c, r.(r_managed_hooks) = Some c /\ bound (fun x => x = h.(sourced_value)) (Some h.(source)) c)
  /\ (forall modes s, allowed_sandbox_modes _ toml = Some (sourced modes s) -> Forall (fun m => m = ReadOnly) modes ->
        always (fun p => forall os path cwd,
                  can_write_path_with_cwd os (PermissionProfile.file_system_sandbox_policy p) path cwd = false)
          r.(r_permission_profile).(constrained)).
Proof.
  intros Hr. pose proof (managed_hooks_bound toml r) as Hh. apply try_from_inv in Hr as Hr'. destruct Hr' as (Ha & Hv & Hp & Hw & Hs & _ & He).
  pose proof (proj2 (constrain_profile_bound _ _ Hp)) as Hbp.
  split; [by eapply constrain_to_list_bound|]. split; [by eapply constrain_to_list_bound|]. split; [done|].
  split; [by apply constrain_windows_bound|]. split.
  { destruct (constrain_web_search_bound (allowed_web_search_modes _ toml)) as (c & E & Hc). rewrite Hs in E. by simplify_eq. }
  split; [|split].
  - unfold constrain_residency in He. destruct (enforce_residency _ toml) as [[required s]|]; [|injection He as <-; apply bound_any].
    destruct (constrain_equal_bound (Some required) (lit "enforce_residency") s) as (c & E & Hc). rewrite E in He. by simplify_eq.
  - intros h. by apply Hh.
  - intros modes s Em Hm ops os path cwd. rewrite Em in Hbp. destruct Hbp as (_ & _ & _ & _ & Halways).
    apply read_only_mode_no_write. rewrite Forall_forall in Hm. apply Hm, Halways.
Qed.

Lemma validate_servers_ok l s plugin :
  is_ok (validate_mcp_server_requirements l s plugin) = true <-> Forall (fun kv => is_ok (validate kv.2) = true) l.
Proof.
  induction l as [|[name q] l IH]; cbn; [split; [constructor|done]|]. rewrite Forall_cons, <- IH. cbn.
  destruct (validate q); cbn; naive_solver.
Qed.

Lemma validate_plugins_ok l s :
  is_ok (validate_plugins l s) = true
  <-> Forall (fun kv => Forall (fun q => is_ok (validate q.2) = true) (default [] kv.2.(plugin_mcp_servers))) l.
Proof.
  induction l as [|[name [o]] l IH]; cbn; [split; [constructor|done]|]. rewrite Forall_cons, <- IH. cbn.
  destruct o as [reqs|]; cbn; [|naive_solver constructor]. rewrite <- (validate_servers_ok reqs s (Some name)).
  destruct (validate_mcp_server_requirements reqs s (Some name)); cbn; naive_solver.
Qed.

Lemma constrain_hooks_total o : exists c, constrain_hooks o = Ok c.
Proof.
  destruct o as [[v s]|]; unfold constrain_hooks; [|eauto]. destruct (0 <? handler_count v); [|eauto].
  destruct (constrain_equal_bound v (lit "hooks") s) as (c & -> & _). eauto.
Qed.

Lemma constrain_residency_total o : exists c, constrain_residency o = Ok c.
Proof.
  destruct o as [[v s]|]; unfold constrain_residency; [|eauto]. destruct (constrain_equal_bound (Some v) (lit "enforce_residency") s) as (c & -> & _). eauto.
Qed.

(** The value of a requirement. *)
Abbreviation required o := (sourced_value <$> (o : WithSources _)).

(** Requirements compile exactly when the matchers of MCP servers are valid, no list of
    allowed values is empty, read-only is among the sandbox modes (the initial permission
    profile is read-only), and the command rules compile. *)
Theorem requirements_compile_iff (toml : RequirementFields SourcedOption) :
  is_ok (try_from toml) = true <->
  Forall (fun kv => is_ok (validate kv.2) = true) (default [] (required (mcp_servers _ toml)))
  /\ Forall (fun kv => Forall (fun q => is_ok (validate q.2) = true) (default [] kv.2.(plugin_mcp_servers)))
       (default [] (required (plugins _ toml)))
  /\ required (allowed_approval_policies _ toml) <> Some []
  /\ required (allowed_approvals_reviewers _ toml) <> Some []
  /\ (forall modes, required (allowed_sandbox_modes _ toml) = Some modes -> ReadOnly ∈ modes)
  /\ required (windows_list (windows _ toml)) <> Some []
  /\ (forall q, required (rules _ toml) = Some q -> is_ok (to_policy q) = true).
Proof.
  rewrite <- (constrain_to_list_ok (lit "approval_policy") (lit "allowed_approval_policies") AskForApproval.OnRequest).
  rewrite <- (constrain_to_list_ok (lit "approvals_reviewer") (lit "allowed_approvals_reviewers") ReviewUser).
  rewrite <- (proj1 (constrain_windows_bound _)).
  assert ((forall modes, required (allowed_sandbox_modes _ toml) = Some modes -> ReadOnly ∈ modes)
          <-> is_ok (constrain_profile (allowed_sandbox_modes _ toml)) = true) as ->.
  { rewrite constrain_profile_ok. destruct (allowed_sandbox_modes _ toml) as [[modes s]|]; cbn; [|done].
    split; [auto|by intros ? ? [= <-]]. }
  assert ((forall q, required (rules _ toml) = Some q -> is_ok (to_policy q) = true)
          <-> is_ok (compile_rules (rules _ toml)) = true) as ->.
  { destruct (rules _ toml) as [[q s]|]; cbn; [|done]. split; [intros Hq; specialize (Hq q eq_refl); by destruct (to_policy q)|].
    intros Hq ? [= <-]. by destruct (to_policy q). }
  unfold try_from.
  assert (Forall (fun kv => is_ok (validate kv.2) = true) (default [] (required (mcp_servers _ toml)))
    <-> is_ok (match mcp_servers _ toml with
               | Some r => validate_mcp_server_requirements r.(sourced_value) r.(source) None | None => Ok tt end) = true) as ->.
  { destruct (mcp_servers _ toml) as [r|]; cbn; [by rewrite validate_servers_ok|split; [done|constructor]]. }
  assert (Forall (fun kv => Forall (fun q => is_ok (validate q.2) = true) (default [] kv.2.(plugin_mcp_servers)))
            (default [] (required (plugins _ toml)))
    <-> is_ok (match plugins _ toml with Some r => validate_plugins r.(sourced_value) r.(source) | None => Ok tt end) = true) as ->.
  { destruct (plugins _ toml) as [r|]; cbn; [by rewrite validate_plugins_ok|split; [done|constructor]]. }
  destruct (constrain_web_search_bound (allowed_web_search_modes _ toml)) as (w & -> & _).
  destruct (constrain_hooks_total (hooks _ toml)) as [h ->]. destruct (constrain_residency_total (enforce_residency _ toml)) as [e ->].
  destruct (match mcp_servers _ toml with Some _ => _ | None => _ end); [|split; [done|by intros [? _]]].
  destruct (match plugins _ toml with Some _ => _ | None => _ end); [|split; [done|by intros (_ & ? & _)]].
  destruct (constrain_to_list _ _ AskForApproval.OnRequest _); [|split; [done|by intros (_ & _ & ? & _)]].
  destruct (constrain_to_list _ _ ReviewUser _); [|split; [done|by intros (_ & _ & _ & ? & _)]].
  destruct (constrain_profile _); [|split; [done|by intros (_ & _ & _ & _ & ? & _)]].
  destruct (constrain_windows _); [|split; [done|by intros (_ & _ & _ & _ & _ & ? & _)]].
  destruct (compile_rules _); [|split; [done|by intros (_ & _ & _ & _ & _ & _ & ?)]]. done.
Qed.
End compiled.

(** * Examples *)

Definition unit_parts : CarriedParts := {| Profiles := unit; ReasoningEffort := unit |}.

(** Two sources: the higher one allows the read-only sandbox alone, the lower one more. *)
Definition w_source (modes : list SandboxModeRequirement) : ConfigRequirementsToml (H := unit_parts) := {|
  fields := {| allowed_approval_policies := Some [AskForApproval.OnRequest; AskForApproval.UnlessTrusted];
    allowed_approvals_reviewers := None; allowed_sandbox_modes := Some modes;
    allowed_permission_profiles := None; default_permissions := None; allowed_web_search_modes := Some [];
    allow_managed_hooks_only := None; allow_appshots := None; allow_remote_control := None; computer_use := None;
    windows := None; feature_requirements := None; hooks := None; mcp_servers := None; plugins := None;
    marketplaces := None; apps := None; rules := None; enforce_residency := Some Us; network := None; permissions := None;
    models := None; guardian_policy_config := Some (lit " ") |};
  remote_sandbox_config := None |}.

Definition w_merged : RequirementFields (H := unit_parts) SourcedOption :=
  merge_unset_fields
    (merge_unset_fields (no_fields (H := unit_parts)) LegacyManagedConfigTomlFromMdm (w_source [ReadOnly]))
    SourceUnknown (w_source [ReadOnly; DangerFullAccess]).

Example w_merged_highest :
  allowed_sandbox_modes _ w_merged = Some (sourced [ReadOnly] LegacyManagedConfigTomlFromMdm)
  /\ guardian_policy_config _ w_merged = None.
Proof. vm_compute. split; reflexivity. Qed.

Lemma requirements_bind_settings_witness :
  is_ok (try_from (H := unit_parts) (H0 := no_regex) w_merged) = true
  /\ forall r, try_from (H := unit_parts) (H0 := no_regex) w_merged = Ok r ->
     always (fun p => forall os path cwd,
               can_write_path_with_cwd os (PermissionProfile.file_system_sandbox_policy p) path cwd = false)
       r.(r_permission_profile).(constrained).
Proof.
  split; [vm_compute; reflexivity|]. intros r Hr.
  destruct (requirements_bind_settings (H := unit_parts) (H0 := no_regex) w_merged r Hr) as (_ & _ & _ & _ & _ & _ & _ & Hro).
  exact (Hro [ReadOnly] LegacyManagedConfigTomlFromMdm eq_refl (List.Forall_cons _ _ _ eq_refl (List.Forall_nil _))).
Defined.
