(* ===== verification/RequirementLayers.v ===== *)
(** [config/src/requirements_layers] ([layer.rs], [stack.rs], [rules.rs],
    [permissions.rs]): composing the requirements of several managed layers.

    Layers are given lowest precedence first.  Most fields are merged as TOML; command
    rules, hooks and unreadable paths of all layers are kept.  Parsing TOML text and
    reading requirements from TOML (the [toml] and [serde] crates; paths are read
    relative to a directory) are parameters, and so is the matching of host names. *)

From stdpp Require Import base list option numbers strings gmap sets.
From Stdlib Require Import NArith Lia.
From S2P Require Import ExecRule ExecPolicy ConfigLayers.
From S2P Require Import Prelude RustStr AbsolutePath Constrained RequirementRules McpRequirements HookRequirements Requirements.
Local Open Scope rust_scope.

(** * Layers *)

Inductive RequirementsLayerToml : Type :=
| LayerString (contents : str)
| LayerValue (value : TomlValue).

Record RequirementsLayerEntry : Type := {
  entry_source : RequirementSource;
  entry_toml : RequirementsLayerToml;
  base_dir : option PathBuf
}.

Definition remove_top_level_field (value : TomlValue) (key : str) : TomlValue :=
  match value with TTable table => TTable (map_remove key table) | _ => value end.

(** The value is kept, the removed field is not returned. *)
Fixpoint remove_nested_field_and_prune_empty (path : list str) (value : TomlValue) : TomlValue :=
  match path, value with
  | [], _ => value
  | key :: remaining, TTable table =>
      match remaining with
      | [] => TTable (map_remove key table)
      | _ =>
          let table := match map_get table key with
                       | Some child => map_insert key (remove_nested_field_and_prune_empty remaining child) table
                       | None => table
                       end in
          match map_get table key with
          | Some (TTable []) => TTable (map_remove key table)
          | _ => TTable table
          end
      end
  | _, _ => value
  end.

Definition strip_special_fields (layer_toml : TomlValue) : TomlValue :=
  remove_nested_field_and_prune_empty [lit "permissions"; lit "filesystem"; lit "deny_read"]
    (remove_top_level_field (remove_top_level_field layer_toml (lit "rules")) (lit "hooks")).

(** The [Serialize] of [SandboxModeRequirement]. *)
Definition mode_name (m : SandboxModeRequirement) : str :=
  match m with
  | ReadOnly => lit "read-only"
  | WorkspaceWrite => lit "workspace-write"
  | DangerFullAccess => lit "danger-full-access"
  | ExternalSandbox => lit "external-sandbox"
  end.
Definition modes_value (modes : list SandboxModeRequirement) : TomlValue := TArray ((fun m => TString (mode_name m)) <$> modes).

(** * Composition *)

Section compose.
Context `{CarriedParts}.

(** What the TOML crates do. *)
Class RequirementsSerde : Type := {
  toml_from_str : str -> result TomlValue str;
  requirements_from_str : option PathBuf -> str -> result ConfigRequirementsToml str;
  requirements_from_value : option PathBuf -> TomlValue -> result ConfigRequirementsToml str
}.
Context `{RequirementsSerde}.

Record ComposableRequirementsLayer : Type := {
  layer_source : RequirementSource;
  regular_toml : TomlValue;
  layer_rules : option RequirementsExecPolicyToml;
  layer_hooks : option ManagedHooksRequirementsToml;
  layer_permissions : option (PermissionsRequirementsToml Profiles)
}.

Definition parse_layer_toml (toml : RequirementsLayerToml) (s : RequirementSource) : result TomlValue RequirementsCompositionError :=
  match toml with
  | LayerString contents => map_err (Parse s) (toml_from_str contents)
  | LayerValue value => Ok value
  end.

Definition parse_layer_requirements (dir : option PathBuf) (toml : RequirementsLayerToml) (s : RequirementSource)
  : result ConfigRequirementsToml RequirementsCompositionError :=
  match toml with
  | LayerString contents => map_err (Parse s) (requirements_from_str dir contents)
  | LayerValue value => map_err (Parse s) (requirements_from_value dir value)
  end.

Definition materialize_remote_sandbox_config (layer_toml : TomlValue) (requirements : ConfigRequirementsToml) : TomlValue :=
  let layer_toml := remove_top_level_field layer_toml (lit "remote_sandbox_config") in
  match allowed_sandbox_modes _ requirements.(fields), layer_toml with
  | Some modes, TTable table => TTable (map_insert (lit "allowed_sandbox_modes") (modes_value modes) table)
  | _, _ => layer_toml
  end.

(** [hostname] is what the host name resolver answers. *)
Definition from_entry (wild_match : str -> str -> bool) (layer : RequirementsLayerEntry) (hostname : option str)
  : result ComposableRequirementsLayer RequirementsCompositionError :=
  let s := layer.(entry_source) in
  let? toml := parse_layer_toml layer.(entry_toml) s in
  let? requirements := parse_layer_requirements layer.(base_dir) layer.(entry_toml) s in
  let hostname := match requirements.(remote_sandbox_config) with Some _ => hostname | None => None end in
  let requirements := apply_remote_sandbox_config wild_match requirements hostname in
  Ok {| layer_source := s;
        regular_toml := strip_special_fields (materialize_remote_sandbox_config toml requirements);
        layer_rules := rules _ requirements.(fields);
        layer_hooks := hooks _ requirements.(fields);
        layer_permissions := permissions _ requirements.(fields) |}.

(** ** Sources of the merged fields *)

Definition top_level_value_for_keys (value : TomlValue) (keys : list str) : option TomlValue :=
  match value with TTable table => head (omap (map_get table) keys) | _ => None end.

Definition is_table (v : TomlValue) : bool := match v with TTable _ => true | _ => false end.

Definition source_for_top_level_keys (layers : list ComposableRequirementsLayer) (keys : list str) : RequirementSource :=
  let matching_layers :=
    omap (fun l => v ← top_level_value_for_keys l.(regular_toml) keys; Some (l.(layer_source), v)) layers in
  match last matching_layers with
  | None => SourceUnknown
  | Some (winning_source, winning_value) =>
      if negb (is_table winning_value) then winning_source
      else
        let table_sources := fst <$> retain (fun sv : RequirementSource * TomlValue => is_table sv.2) (rev matching_layers) in
        if 1 <? length table_sources then composite table_sources else winning_source
  end.

(** [set_sourced!]. *)
Definition set_sourced {T} (layers : list ComposableRequirementsLayer) (v : option T) (keys : list string) : WithSources T :=
  (fun v => sourced v (source_for_top_level_keys layers (lit <$> keys))) <$> v.

(** The output starts empty: [rules] and [hooks] are filled in afterwards. *)
Definition populate_merged_regular_fields_with_sources (requirements : ConfigRequirementsToml)
    (layers : list ComposableRequirementsLayer) : RequirementFields SourcedOption :=
  let f := requirements.(fields) in
  {| allowed_approval_policies := set_sourced layers (allowed_approval_policies _ f) ["allowed_approval_policies"];
     allowed_approvals_reviewers := set_sourced layers (allowed_approvals_reviewers _ f) ["allowed_approvals_reviewers"];
     allowed_sandbox_modes := set_sourced layers (allowed_sandbox_modes _ f) ["allowed_sandbox_modes"];
     allowed_permission_profiles := set_sourced layers (allowed_permission_profiles _ f) ["allowed_permission_profiles"];
     default_permissions := set_sourced layers (default_permissions _ f) ["default_permissions"];
     allowed_web_search_modes := set_sourced layers (allowed_web_search_modes _ f) ["allowed_web_search_modes"];
     allow_managed_hooks_only := set_sourced layers (allow_managed_hooks_only _ f) ["allow_managed_hooks_only"];
     allow_appshots := set_sourced layers (allow_appshots _ f) ["allow_appshots"];
     allow_remote_control := set_sourced layers (allow_remote_control _ f) ["allow_remote_control"];
     computer_use := set_sourced layers (computer_use _ f) ["computer_use"];
     windows := set_sourced layers (windows _ f) ["windows"];
     feature_requirements := set_sourced layers (feature_requirements _ f) ["features"; "feature_requirements"];
     hooks := None;
     mcp_servers := set_sourced layers (mcp_servers _ f) ["mcp_servers"];
     plugins := set_sourced layers (plugins _ f) ["plugins"];
     marketplaces := set_sourced layers (marketplaces _ f) ["marketplaces"];
     apps := set_sourced layers (apps _ f) ["apps"];
     rules := None;
     enforce_residency := set_sourced layers (enforce_residency _ f) ["enforce_residency"];
     network := set_sourced layers (network _ f) ["experimental_network"];
     permissions := set_sourced layers (permissions _ f) ["permissions"];
     models := set_sourced layers (models _ f) ["models"];
     guardian_policy_config := set_sourced layers (nonblank (guardian_policy_config _ f)) ["guardian_policy_config"] |}.

(** ** Fields every layer adds to *)

(** [rules::merge]. *)
Definition rules_merge (target : WithSources RequirementsExecPolicyToml) (incoming : option RequirementsExecPolicyToml)
    (s : RequirementSource) : WithSources RequirementsExecPolicyToml :=
  match incoming, target with
  | None, _ => target
  | Some incoming, None => Some (sourced incoming s)
  | Some incoming, Some existing =>
      Some (sourced {| prefix_rules := existing.(sourced_value).(prefix_rules) ++ incoming.(prefix_rules) |}
              (merge_output_source existing.(source) s))
  end.

Record DenyReadMergeState : Type := { deny_read : list str; deny_read_source : option RequirementSource }.

Definition push_pattern (s : RequirementSource) (st : DenyReadMergeState) (pattern : str) : DenyReadMergeState :=
  if memb st.(deny_read) pattern then st
  else {| deny_read := st.(deny_read) ++ [pattern];
          deny_read_source := Some match st.(deny_read_source) with
                                   | None => s
                                   | Some existing => merge_output_source existing s
                                   end |}.

(** [DenyReadMergeState::merge]. *)
Definition deny_read_merge (st : DenyReadMergeState) (incoming : option (PermissionsRequirementsToml Profiles))
    (s : RequirementSource) : DenyReadMergeState :=
  foldl (push_pattern s) st (from_option filesystem_constraints [] incoming).

Definition push_new_pattern (l : list str) (pattern : str) : list str := if memb l pattern then l else l ++ [pattern].

(** [DenyReadMergeState::apply_to]; [no_profiles] is [Default::default()]. *)
Definition apply_to (no_profiles : Profiles) (st : DenyReadMergeState) (target : WithSources (PermissionsRequirementsToml Profiles))
  : WithSources (PermissionsRequirementsToml Profiles) :=
  if st.(deny_read) == [] then target else
  let s := default SourceUnknown st.(deny_read_source) in
  match target with
  | None => Some (sourced {| filesystem := Some (Some st.(deny_read)); profiles := no_profiles |} s)
  | Some existing =>
      let v := existing.(sourced_value) in
      Some (sourced {| filesystem := Some (Some (foldl push_new_pattern (filesystem_constraints v) st.(deny_read)));
                       profiles := v.(profiles) |}
              (if existing.(source) == s then existing.(source) else composite [existing.(source); s]))
  end.

Definition with_domain_fields (f : RequirementFields SourcedOption) (r : WithSources RequirementsExecPolicyToml)
    (h : WithSources ManagedHooksRequirementsToml) (p : WithSources (PermissionsRequirementsToml Profiles))
  : RequirementFields SourcedOption := {|
  allowed_approval_policies := allowed_approval_policies _ f;
  allowed_approvals_reviewers := allowed_approvals_reviewers _ f;
  allowed_sandbox_modes := allowed_sandbox_modes _ f;
  allowed_permission_profiles := allowed_permission_profiles _ f;
  default_permissions := default_permissions _ f;
  allowed_web_search_modes := allowed_web_search_modes _ f;
  allow_managed_hooks_only := allow_managed_hooks_only _ f;
  allow_appshots := allow_appshots _ f;
  allow_remote_control := allow_remote_control _ f;
  computer_use := computer_use _ f;
  windows := windows _ f;
  feature_requirements := feature_requirements _ f;
  hooks := h;
  mcp_servers := mcp_servers _ f;
  plugins := plugins _ f;
  marketplaces := marketplaces _ f;
  apps := apps _ f;
  rules := r;
  enforce_residency := enforce_residency _ f;
  network := network _ f;
  permissions := p;
  models := models _ f;
  guardian_policy_config := guardian_policy_config _ f |}.

(** ** Emptiness *)

Definition none_or {T} (p : T -> bool) (o : WithSources T) : bool := from_option (fun s => p s.(sourced_value)) true o.

Definition tool_approvals_empty (tools : gmap str (option AppToolApproval)) : bool :=
  forallb (fun kv => match kv.2 with None => true | Some _ => false end) (map_to_list tools).
Definition app_is_empty (a : AppRequirementToml) : bool :=
  (a.(app_enabled) == None) && from_option tool_approvals_empty true a.(tools).
Definition apps_is_empty (apps : AppsRequirementsToml) : bool := forallb (fun kv => app_is_empty kv.2) (map_to_list apps).
Definition plugin_is_empty (p : PluginRequirementsToml) : bool :=
  from_option (fun l => match l with [] => true | _ => false end) true p.(plugin_mcp_servers).
Definition marketplace_is_empty (m : MarketplaceRequirementsToml) : bool :=
  (m.(restrict_to_allowed_sources) == None) && match m.(allowed_sources) with [] => true | _ => false end.
Definition model_defaults_is_empty {E} (m : NewThreadModelDefaultsToml E) : bool :=
  negb (is_some_and (fun _ => true) m.(model)) && negb (is_some_and (fun _ => true) m.(model_reasoning_effort))
  && negb (is_some_and (fun _ => true) m.(service_tier)).

(** [into_toml().is_empty()]: sources do not count, and [remote_sandbox_config] is unset. *)
Definition requirements_is_empty (f : RequirementFields SourcedOption) : bool :=
  none_or (fun _ => false) (allowed_approval_policies _ f)
  && none_or (fun _ => false) (allowed_approvals_reviewers _ f)
  && none_or (fun _ => false) (allowed_sandbox_modes _ f)
  && none_or (fun _ => false) (allowed_permission_profiles _ f)
  && none_or (fun _ => false) (default_permissions _ f)
  && none_or (fun _ => false) (allowed_web_search_modes _ f)
  && none_or (fun _ => false) (allow_managed_hooks_only _ f)
  && none_or (fun _ => false) (allow_appshots _ f)
  && none_or (fun _ => false) (allow_remote_control _ f)
  && none_or (fun o => o == None) (computer_use _ f)
  && none_or (fun o => o == None) (windows _ f)
  && none_or (fun m => m == ∅) (feature_requirements _ f)
  && none_or hooks_is_empty (hooks _ f)
  && none_or (fun _ => false) (mcp_servers _ f)
  && none_or (forallb (fun kv => plugin_is_empty kv.2)) (plugins _ f)
  && none_or marketplace_is_empty (marketplaces _ f)
  && none_or apps_is_empty (apps _ f)
  && none_or (fun _ => false) (rules _ f)
  && none_or (fun _ => false) (enforce_residency _ f)
  && none_or (fun _ => false) (network _ f)
  && none_or (fun _ => false) (permissions _ f)
  && none_or (from_option model_defaults_is_empty true) (models _ f)
  && none_or (fun v => trim v == []) (guardian_policy_config _ f).

(** ** The whole stack *)

Context (no_profiles : Profiles).

(** The loop over [layers.iter().rev()]. *)
Fixpoint merge_domain_fields (layers : list ComposableRequirementsLayer) (r : WithSources RequirementsExecPolicyToml)
    (st : HookMergeState) (h : WithSources ManagedHooksRequirementsToml) (d : DenyReadMergeState)
  : result (WithSources RequirementsExecPolicyToml * WithSources ManagedHooksRequirementsToml * DenyReadMergeState)
      RequirementsCompositionError :=
  match layers with
  | [] => Ok (r, h, d)
  | l :: layers =>
      let r := rules_merge r l.(layer_rules) l.(layer_source) in
      let? merged := hooks_merge st h l.(layer_hooks) l.(layer_source) in
      merge_domain_fields layers r merged.1 merged.2 (deny_read_merge d l.(layer_permissions) l.(layer_source))
  end.

Definition merged_toml (layers : list ComposableRequirementsLayer) : TomlValue :=
  foldl (fun acc l => merge_toml_values acc l.(regular_toml)) (TTable []) layers.

Definition compose (hook_directory_field : HookDirectoryField) (layers : list ComposableRequirementsLayer)
  : result (option (RequirementFields SourcedOption)) RequirementsCompositionError :=
  let? requirements := map_err ComposedParse (requirements_from_value None (merged_toml layers)) in
  let output := populate_merged_regular_fields_with_sources requirements layers in
  let? d := merge_domain_fields (rev layers) None (merge_state_new hook_directory_field) None
              {| deny_read := []; deny_read_source := None |} in
  let '(r, h, deny) := d in
  let output := with_domain_fields output r h (apply_to no_profiles deny (permissions _ output)) in
  Ok (if requirements_is_empty output then None else Some output).

Fixpoint add_layers (wild_match : str -> str -> bool) (entries : list RequirementsLayerEntry) (hostname : option str)
  : result (list ComposableRequirementsLayer) RequirementsCompositionError :=
  match entries with
  | [] => Ok []
  | e :: entries =>
      let? l := from_entry wild_match e hostname in
      let? layers := add_layers wild_match entries hostname in
      Ok (l :: layers)
  end.

Definition compose_requirements (wild_match : str -> str -> bool) (hook_directory_field : HookDirectoryField) (hostname : option str)
    (entries : list RequirementsLayerEntry) : result (option (RequirementFields SourcedOption)) RequirementsCompositionError :=
  let? layers := add_layers wild_match entries hostname in compose hook_directory_field layers.

(** * What the composed requirements hold *)

Lemma merge_domain_fields_spec layers r st h d :
  merge_domain_fields layers r st h d =
  match merge_hook_layers st h ((fun l => (l.(layer_hooks), l.(layer_source))) <$> layers) with
  | Ok (_, h') => Ok (foldl (fun r l => rules_merge r l.(layer_rules) l.(layer_source)) r layers, h',
                      foldl (fun d l => deny_read_merge d l.(layer_permissions) l.(layer_source)) d layers)
  | Err e => Err e
  end.
Proof.
  revert r st h d. induction layers as [|l layers IH]; intros r st h d; cbn; [done|].
  destruct (hooks_merge st h (layer_hooks l) (layer_source l)) as [[st' h']|]; cbn; [apply IH|done].
Qed.

(** The rules of the layers, in the order given. *)
Definition all_rules (layers : list ComposableRequirementsLayer) : list RequirementsExecPolicyPrefixRuleToml :=
  concat ((fun l => from_option prefix_rules [] l.(layer_rules)) <$> layers).
Definition all_deny_read (layers : list ComposableRequirementsLayer) : list str :=
  concat ((fun l => from_option filesystem_constraints [] l.(layer_permissions)) <$> layers).

Definition rules_of (o : WithSources RequirementsExecPolicyToml) : list RequirementsExecPolicyPrefixRuleToml :=
  from_option (fun s => s.(sourced_value).(prefix_rules)) [] o.

Lemma rules_merge_all layers r :
  let r' := foldl (fun r l => rules_merge r l.(layer_rules) l.(layer_source)) r layers in
  rules_of r' = rules_of r ++ all_rules layers
  /\ (r' = None <-> r = None /\ Forall (fun l => l.(layer_rules) = None) layers).
Proof.
  cbn zeta. revert r. induction layers as [|l layers IH]; intros r; cbn [foldl].
  { unfold all_rules. cbn. rewrite app_nil_r. split; [done|]. split; [by split; [|constructor]|by intros [? _]]. }
  destruct (IH (rules_merge r (layer_rules l) (layer_source l))) as [-> ->]. unfold all_rules. cbn [fmap list_fmap concat].
  rewrite app_assoc, Forall_cons. split.
  - f_equal. destruct (layer_rules l) as [q|], r as [s|]; cbn; by rewrite ?app_nil_r.
  - destruct (layer_rules l) as [q|], r as [s|]; cbn; naive_solver.
Qed.

Lemma push_pattern_all s st l :
  NoDup st.(deny_read) ->
  NoDup (foldl (push_pattern s) st l).(deny_read)
  /\ forall x, x ∈ (foldl (push_pattern s) st l).(deny_read) <-> x ∈ st.(deny_read) \/ x ∈ l.
Proof.
  revert st. induction l as [|p l IH]; intros st Hd; cbn; [set_solver|].
  assert (NoDup (push_pattern s st p).(deny_read) /\ forall x, x ∈ (push_pattern s st p).(deny_read) <-> x ∈ st.(deny_read) \/ x = p) as [Hd' Hin].
  { unfold push_pattern. destruct (memb (deny_read st) p) eqn:E; cbn.
    - apply memb_spec in E. split; [done|]. set_solver.
    - assert (p ∉ deny_read st) by (intros ?%memb_spec; congruence).
      split; [|set_solver]. apply NoDup_app. split; [done|]. split; [set_solver|apply NoDup_singleton]. }
  destruct (IH _ Hd') as [? Hx]. split; [done|]. intros x. rewrite Hx, Hin. set_solver.
Qed.

Lemma deny_read_merge_all layers d :
  NoDup d.(deny_read) ->
  let d' := foldl (fun d l => deny_read_merge d l.(layer_permissions) l.(layer_source)) d layers in
  NoDup d'.(deny_read) /\ forall x, x ∈ d'.(deny_read) <-> x ∈ d.(deny_read) \/ x ∈ all_deny_read layers.
Proof.
  revert d. induction layers as [|l layers IH]; intros d Hd; cbn; [set_solver|].
  unfold deny_read_merge at 2. destruct (push_pattern_all (layer_source l) d (from_option filesystem_constraints [] (layer_permissions l)) Hd) as [Hd1 Hx1].
  destruct (IH _ Hd1) as [? Hx]. split; [done|]. intros x. etrans; [apply Hx|]. unfold deny_read_merge. rewrite Hx1. unfold all_deny_read. cbn. rewrite elem_of_app. tauto.
Qed.

Lemma push_unique_all l acc x : x ∈ foldl push_new_pattern acc l <-> x ∈ acc \/ x ∈ l.
Proof.
  revert acc. induction l as [|p l IH]; intros acc; cbn; [set_solver|]. rewrite IH. unfold push_new_pattern.
  destruct (memb acc p) eqn:E; [apply memb_spec in E|]; set_solver.
Qed.

Lemma apply_to_spec st target x :
  x ∈ from_option (fun p => filesystem_constraints p.(sourced_value)) [] (apply_to no_profiles st target)
  <-> x ∈ from_option (fun p => filesystem_constraints p.(sourced_value)) [] target \/ x ∈ st.(deny_read).
Proof.
  unfold apply_to. case_bool_decide as E; [rewrite E; set_solver|].
  destruct target as [p|]; cbn; [apply push_unique_all|set_solver].
Qed.

Lemma Ok_inj {A E} (a b : A) : @Ok A E a = Ok b -> a = b.
Proof. congruence. Qed.

(** The hooks of the layers, with their sources. *)
Definition hook_layers (layers : list ComposableRequirementsLayer) : list HookLayer :=
  (fun l => (l.(layer_hooks), l.(layer_source))) <$> layers.

Lemma compose_inv field layers f :
  compose field layers = Ok f ->
  exists out st r deny,
    f = (if requirements_is_empty out then None else Some out)
    /\ merge_hook_layers (merge_state_new field) None (hook_layers (rev layers)) = Ok (st, hooks _ out)
    /\ rules _ out = foldl (fun r l => rules_merge r l.(layer_rules) l.(layer_source)) None (rev layers)
    /\ deny = foldl (fun d l => deny_read_merge d l.(layer_permissions) l.(layer_source))
                 {| deny_read := []; deny_read_source := None |} (rev layers)
    /\ requirements_from_value None (merged_toml layers) = Ok r
    /\ permissions _ out = apply_to no_profiles deny (set_sourced layers (permissions _ r.(fields)) ["permissions"]).
Proof.
  unfold compose. destruct (requirements_from_value _ _) as [r|]; cbn [map_err]; [|done]. rewrite merge_domain_fields_spec.
  fold (hook_layers (rev layers)). destruct (merge_hook_layers _ _ _) as [[st h]|]; [|done]. cbv zeta. intros <-%Ok_inj.
  eexists _, st, r, _. split; [reflexivity|]. repeat split.
Qed.

Lemma elem_of_rev {A} (x : A) l : x ∈ rev l <-> x ∈ l.
Proof. rewrite !list_elem_of_In. symmetry. apply in_rev. Qed.

Lemma layer_groups_elem e layers h s g : (Some h, s) ∈ layers -> g ∈ groups e h.(hook_events) -> g ∈ layer_groups e layers.
Proof.
  intros Hl Hg. unfold layer_groups. apply elem_of_concat_fmap. by exists (Some h, s).
Qed.

Lemma layer_dirs_elem f layers h s d : (Some h, s) ∈ layers -> hook_dir h f = Some d -> (d, s) ∈ layer_dirs f layers.
Proof. intros Hl Hd. apply list_elem_of_omap. exists (Some h, s). split; [done|]. cbn. by rewrite Hd. Qed.

Lemma all_rules_elem layers l q rule :
  l ∈ layers -> l.(layer_rules) = Some q -> rule ∈ q.(prefix_rules) -> rule ∈ all_rules layers.
Proof.
  intros Hl Hq Hr. unfold all_rules. apply elem_of_concat_fmap. exists l. by rewrite Hq.
Qed.

Lemma all_deny_read_elem layers l x :
  l ∈ layers -> x ∈ from_option filesystem_constraints [] l.(layer_permissions) -> x ∈ all_deny_read layers.
Proof. intros Hl Hx. apply elem_of_concat_fmap. by exists l. Qed.

(** What one layer asks for is in the composed requirements. *)
Record layer_kept (l : ComposableRequirementsLayer) (out : RequirementFields SourcedOption) : Prop := {
  lk_rules : forall q rule, l.(layer_rules) = Some q -> rule ∈ q.(prefix_rules) -> rule ∈ rules_of (rules _ out);
  lk_groups : forall h e g, l.(layer_hooks) = Some h -> g ∈ groups e h.(hook_events) ->
                g ∈ groups e (hooks_of (hooks _ out)).(hook_events);
  lk_dirs : forall h f, l.(layer_hooks) = Some h -> hook_dir h f <> None -> hook_dir (hooks_of (hooks _ out)) f <> None;
  lk_deny_read : forall x, x ∈ from_option filesystem_constraints [] l.(layer_permissions) ->
                   x ∈ from_option (fun p => filesystem_constraints p.(sourced_value)) [] (permissions _ out : WithSources _)
}.

Lemma compose_keeps field layers f :
  compose field layers = Ok f ->
  exists out, f = (if requirements_is_empty out then None else Some out)
    /\ rules_of (rules _ out) = all_rules (rev layers)
    /\ (rules _ out = None <-> Forall (fun l => l.(layer_rules) = None) layers)
    /\ Forall (fun l => layer_kept l out) layers.
Proof.
  intros (out & st & r & deny & Hf & Hh & Hr & -> & _ & Hp)%compose_inv. exists out. split; [done|].
  destruct (rules_merge_all (rev layers) None) as [Hr1 Hr2]. cbn zeta in Hr1, Hr2. rewrite <- Hr in Hr1, Hr2. split; [done|].
  split. { rewrite Hr2, !Forall_forall. setoid_rewrite elem_of_rev. naive_solver. }
  pose proof (hook_layers_merged field (hook_layers (rev layers))) as Hm. rewrite Hh in Hm. destruct Hm as (_ & Hg & Hd & _).
  apply Forall_forall. intros l Hl. assert (l ∈ rev layers) as Hl' by (by apply elem_of_rev).
  assert (forall h, l.(layer_hooks) = Some h -> (Some h, l.(layer_source)) ∈ hook_layers (rev layers)) as Hhl.
  { intros h Eh. apply list_elem_of_fmap. exists l. by rewrite Eh. }
  split.
  - intros q rule Hq Hrule. rewrite Hr1. by eapply all_rules_elem.
  - intros h e g Eh Hge. rewrite Hg. eapply layer_groups_elem; eauto.
  - intros h g Eh Hne. rewrite Hd. destruct (hook_dir h g) as [d|] eqn:Ed; [|done].
    pose proof (layer_dirs_elem g _ h _ d (Hhl h Eh) Ed) as Hin. destruct (layer_dirs g _); [by apply not_elem_of_nil in Hin|done].
  - intros x Hx. rewrite Hp. apply apply_to_spec. right. apply (deny_read_merge_all (rev layers)); [apply NoDup_nil_2|].
    right. by eapply all_deny_read_elem.
Qed.

Lemma empty_requirements out :
  requirements_is_empty out = true ->
  rules _ out = None /\ hooks_is_empty (hooks_of (hooks _ out)) = true /\ permissions _ out = None.
Proof.
  unfold requirements_is_empty. rewrite !andb_true_iff. intros Hall.
  assert (none_or (fun _ => false) (rules _ out : WithSources _) = true) as Hr by apply Hall.
  assert (none_or hooks_is_empty (hooks _ out : WithSources _) = true) as Hh by apply Hall.
  assert (none_or (fun _ => false) (permissions _ out : WithSources _) = true) as Hp by apply Hall.
  clear Hall. repeat split.
  - by destruct (rules _ out).
  - by destruct (hooks _ out).
  - by destruct (permissions _ out).
Qed.

Context `{RegexLite}.

(** Rules of requirements that compile are enforced. *)
Lemma compiled_rules_enforced out r rule cmd d env base fallback options :
  try_from out = Ok r -> rule ∈ rules_of (rules _ out) -> rule.(toml_decision) = Some d -> covers rule cmd ->
  exists p ev, r.(r_exec_policy) = Some p
    /\ check_with_options env (merge_overlay base p.(sourced_value)) cmd fallback options = Some ev
    /\ d ⊑d ev_decision ev /\ ev_decision ev <> Allow.
Proof.
  intros [Hc _]%try_from_parts Hin Hd Hcov. destruct (rules _ out) as [[q s]|]; [|by apply not_elem_of_nil in Hin].
  cbn in Hc, Hin. destruct (to_policy q) as [p|] eqn:Ep; [|done]. apply Ok_inj in Hc. exists (sourced p s).
  destruct (proj2 (managed_rules_enforced q) p Ep) as (_ & _ & Hdec).
  destruct (Hdec rule cmd d env base fallback options Hin Hd Hcov) as (ev & ? & ? & ?). exists ev. by rewrite <- Hc.
Qed.

(** C3: no layer of managed requirements is ignored.  When layers compose, the outcome is
    empty only if no layer has rules, hooks or unreadable paths; otherwise, once the
    composed requirements are compiled, every layer counts whatever its precedence: a
    command covered by a rule of the layer is decided at least as strictly as the rule
    says, whatever policy the rules are laid over; every hook group of the layer with a
    handler is among the hooks the managed setting can ever hold; and every path pattern
    the layer makes unreadable is among the file-system constraints. *)
Theorem layered_requirements_enforced field layers f l :
  compose field layers = Ok f -> l ∈ layers ->
  match f with
  | None => l.(layer_rules) = None /\ from_option hooks_is_empty true l.(layer_hooks) = true
            /\ from_option filesystem_constraints [] l.(layer_permissions) = []
  | Some out => forall r, try_from out = Ok r ->
      (forall q rule cmd d env base fallback options,
         l.(layer_rules) = Some q -> rule ∈ q.(prefix_rules) -> rule.(toml_decision) = Some d -> covers rule cmd ->
         exists p ev, r.(r_exec_policy) = Some p
           /\ check_with_options env (merge_overlay base p.(sourced_value)) cmd fallback options = Some ev
           /\ d ⊑d ev_decision ev /\ ev_decision ev <> Allow)
      /\ (forall h e g, l.(layer_hooks) = Some h -> g ∈ groups e h.(hook_events) -> 0 < length g.(group_hooks) ->
            exists c, r.(r_managed_hooks) = Some c /\ always (fun x => g ∈ groups e x.(hook_events)) c.(constrained))
      /\ (forall x, x ∈ from_option filesystem_constraints [] l.(layer_permissions) ->
            exists p, r.(r_filesystem) = Some p /\ x ∈ p.(sourced_value))
  end.
Proof.
  intros (out & -> & _ & Hnone & Hk)%compose_keeps Hl. rewrite Forall_forall in Hk. destruct (Hk l Hl) as [K1 K2 K3 K4].
  destruct (requirements_is_empty out) eqn:Ee.
  - destruct (empty_requirements out Ee) as (E1 & E2 & E3). apply hooks_is_empty_groups in E2 as [Ed Eg]. split_and!.
    + apply Hnone in E1. rewrite Forall_forall in E1. auto.
    + destruct (layer_hooks l) as [h|] eqn:Eh; [|done]. cbn. apply hooks_is_empty_groups. split.
      * intros g. destruct (hook_dir h g) as [d|] eqn:E; [|done]. exfalso. apply (K3 h g eq_refl); [by rewrite E|apply Ed].
      * intros e. destruct (groups e (hook_events h)) as [|g gs] eqn:E; [done|]. specialize (K2 h e g eq_refl). rewrite E, Eg in K2.
        exfalso. apply (not_elem_of_nil g), K2. by left.
    + rewrite E3 in K4. destruct (from_option _ _ (layer_permissions l)) as [|x xs]; [done|]. exfalso.
      apply (not_elem_of_nil x), K4. by left.
  - intros r Hr. split_and!.
    + intros q rule cmd d env base fallback options Hq Hin Hd Hc. eapply compiled_rules_enforced; eauto.
    + intros h e g Eh Hg Hlen. specialize (K2 h e g Eh Hg). destruct (hooks _ out) as [h'|] eqn:Eo; [|by destruct e; apply not_elem_of_nil in K2].
      destruct (managed_hooks_bound out r h' Hr Eo) as (c & Hc & Hb); [by eapply handler_count_pos|].
      exists c. split; [done|]. destruct Hb as (_ & _ & _ & _ & Ha). intros ops. cbv beta. by rewrite (Ha ops).
    + intros x Hx. specialize (K4 x Hx). destruct (try_from_parts out r Hr) as [_ Hf]. rewrite Hf.
      destruct (permissions _ out) as [p|]; [|by apply not_elem_of_nil in K4]. eexists. split; [reflexivity|]. exact K4.
Qed.
End compose.

(** * What a layer hands to the TOML merge *)

Lemma remove_nested_get path key k t :
  path <> [] -> k <> key ->
  exists t', remove_nested_field_and_prune_empty (key :: path) (TTable t) = TTable t' /\ map_get t' k = map_get t k.
Proof.
  intros Hp Hk. destruct path as [|p path]; [done|]. cbn [remove_nested_field_and_prune_empty].
  set (t1 := match map_get t key with Some _ => _ | None => _ end).
  assert (map_get t1 k = map_get t k) as Ht1.
  { subst t1. destruct (map_get t key); [|done]. by rewrite map_get_insert, bool_decide_eq_false_2. }
  destruct (map_get t1 key) as [v|]; [|by exists t1].
  assert (exists t', TTable (map_remove key t1) = TTable t' /\ map_get t' k = map_get t k) as Hrm.
  { eexists. split; [reflexivity|]. by rewrite map_get_remove, bool_decide_eq_false_2. }
  destruct v as [| | | | | |[|]]; try (by exists t1). exact Hrm.
Qed.

Lemma strip_special_fields_get t k :
  k <> lit "permissions" ->
  exists t', strip_special_fields (TTable t) = TTable t'
    /\ map_get t' k = if (k == lit "rules") || (k == lit "hooks") then None else map_get t k.
Proof.
  intros Hk. unfold strip_special_fields, remove_top_level_field.
  edestruct remove_nested_get as (t' & E & Hg); [| |exists t'; split; [exact E|]]; [done|exact Hk|].
  rewrite Hg, !map_get_remove. destruct (k == lit "rules"), (k == lit "hooks"); done.
Qed.

(** A layer contributes the sandbox modes that hold on this host: the modes of the first
    entry of [remote_sandbox_config] whose patterns match the host name, or those of
    [allowed_sandbox_modes].  The special fields are not left in its TOML. *)
Theorem layer_sandbox_modes `{CarriedParts} wild_match `{!RequirementsSerde} entry hostname l t :
  from_entry wild_match entry hostname = Ok l ->
  parse_layer_toml entry.(entry_toml) entry.(entry_source) = Ok (TTable t) ->
  exists t' requirements, l.(regular_toml) = TTable t'
    /\ parse_layer_requirements entry.(base_dir) entry.(entry_toml) entry.(entry_source) = Ok requirements
    /\ map_get t' (lit "allowed_sandbox_modes")
       = match allowed_sandbox_modes _ (fields (apply_remote_sandbox_config wild_match requirements hostname)) with
         | Some modes => Some (modes_value modes)
         | None => map_get t (lit "allowed_sandbox_modes")
         end
    /\ Forall (fun k => map_get t' k = None) [lit "remote_sandbox_config"; lit "rules"; lit "hooks"].
Proof.
  unfold from_entry. intros Hl Ht. rewrite Ht in Hl. destruct (parse_layer_requirements _ _ _) as [q|] eqn:Eq; [|done].
  assert (apply_remote_sandbox_config wild_match q
            match remote_sandbox_config q with Some _ => hostname | None => None end
          = apply_remote_sandbox_config wild_match q hostname) as Ha
    by (unfold apply_remote_sandbox_config; by destruct (remote_sandbox_config q)).
  rewrite Ha in Hl. clear Ha. apply Ok_inj in Hl as <-. cbn [regular_toml].
  set (q' := apply_remote_sandbox_config wild_match q hostname).
  assert (exists t1, materialize_remote_sandbox_config (TTable t) q' = TTable t1
            /\ (forall k, map_get t1 k = if k == lit "allowed_sandbox_modes"
                 then match allowed_sandbox_modes _ q'.(fields) with Some m => Some (modes_value m) | None => map_get t k end
                 else if k == lit "remote_sandbox_config" then None else map_get t k)) as (t1 & E1 & Hg1).
  { unfold materialize_remote_sandbox_config, remove_top_level_field. destruct (allowed_sandbox_modes _ (fields q')) as [m|].
    - eexists. split; [reflexivity|]. intros k. rewrite map_get_insert, map_get_remove. by case_bool_decide.
    - eexists. split; [reflexivity|]. intros k. rewrite map_get_remove. case_bool_decide as E; [|by case_bool_decide].
      subst k. by rewrite bool_decide_eq_false_2. }
  rewrite E1. exists (match strip_special_fields (TTable t1) with TTable t' => t' | _ => [] end), q.
  assert (forall k, k <> lit "permissions" ->
    map_get (match strip_special_fields (TTable t1) with TTable t' => t' | _ => [] end) k
    = if (k == lit "rules") || (k == lit "hooks") then None else map_get t1 k) as Hs.
  { intros k Hk. by destruct (strip_special_fields_get t1 k Hk) as (t' & -> & ?). }
  split_and!; [|done| |].
  - destruct (strip_special_fields_get t1 (lit "rules")) as (t' & -> & _); done.
  - rewrite Hs by done. by rewrite Hg1.
  - repeat constructor; rewrite Hs by done; [|done..]. by rewrite Hg1.
Qed.

(** The source of a field whose highest value is not a table is the highest layer that
    has it. *)
Theorem source_is_highest `{CarriedParts} layers l v key higher :
  top_level_value_for_keys l.(regular_toml) [key] = Some v -> is_table v = false ->
  Forall (fun l' => top_level_value_for_keys l'.(regular_toml) [key] = None) higher ->
  source_for_top_level_keys (layers ++ l :: higher) [key] = l.(layer_source).
Proof.
  intros Hv Ht Hh. unfold source_for_top_level_keys.
  set (g := fun l : ComposableRequirementsLayer => v ← top_level_value_for_keys l.(regular_toml) [key]; Some (l.(layer_source), v)).
  assert (omap g higher = []) as E.
  { induction Hh as [|l' higher Hl' _ IH]; [done|]. cbn. unfold g at 1. by rewrite Hl'. }
  assert (omap g (l :: higher) = [(l.(layer_source), v)]) as E'.
  { cbn. unfold g at 1. rewrite Hv. cbn. f_equal. exact E. }
  rewrite omap_app, E', last_snoc. by rewrite Ht.
Qed.

(** * Examples *)

(** A reader of requirements that finds nothing in the merged TOML. *)
Definition empty_fields : RequirementFields (H := unit_parts) option := {|
  allowed_approval_policies := None; allowed_approvals_reviewers := None; allowed_sandbox_modes := None;
  allowed_permission_profiles := None; default_permissions := None; allowed_web_search_modes := None;
  allow_managed_hooks_only := None; allow_appshots := None; allow_remote_control := None; computer_use := None;
  windows := None; feature_requirements := None; hooks := None; mcp_servers := None; plugins := None;
  marketplaces := None; apps := None; rules := None; enforce_residency := None; network := None; permissions := None;
  models := None; guardian_policy_config := None |}.

Definition w_serde : RequirementsSerde (H := unit_parts) := {|
  toml_from_str _ := Ok (TTable []);
  requirements_from_str _ _ := Ok {| fields := empty_fields; remote_sandbox_config := None |};
  requirements_from_value _ _ := Ok {| fields := empty_fields; remote_sandbox_config := None |} |}.

Definition w_layer (s : RequirementSource) (r : option RequirementsExecPolicyToml) (toml : TomlValue)
  : ComposableRequirementsLayer (H := unit_parts) := {|
  layer_source := s; regular_toml := toml; layer_rules := r;
  layer_hooks := Some (w_hooks "/etc/hooks" "audit");
  layer_permissions := Some {| filesystem := Some (Some [lit "/secret"]); profiles := (tt : @Profiles unit_parts) |} |}.

Definition w_layers : list (ComposableRequirementsLayer (H := unit_parts)) :=
  [w_layer SourceUnknown (Some w_managed) (TTable []); w_layer LegacyManagedConfigTomlFromMdm None (TTable [])].

Lemma layered_requirements_enforced_witness :
  exists out r, compose (H := unit_parts) (H0 := w_serde) tt ManagedDir w_layers = Ok (Some out)
  /\ try_from (H := unit_parts) (H0 := no_regex) out = Ok r
  /\ exists p ev, r.(r_exec_policy) = Some p
     /\ check_with_options w_env (merge_overlay w_policy p.(sourced_value)) (w_cmd ["git"; "fetch"]) (fun _ => Allow) default_options = Some ev
     /\ ev_decision ev <> Allow.
Proof.
  destruct (compose (H := unit_parts) (H0 := w_serde) tt ManagedDir w_layers) as [[out|]|] eqn:E;
    [|exfalso; revert E; vm_compute; discriminate..].
  destruct (try_from (H := unit_parts) (H0 := no_regex) out) as [r|] eqn:Er.
  2: { exfalso. revert Er. vm_compute in E. apply Ok_inj in E. injection E as <-. vm_compute. discriminate. }
  exists out, r. split; [reflexivity|]. split; [exact Er|].
  destruct (layered_requirements_enforced (H := unit_parts) (H0 := w_serde) tt (H1 := no_regex) ManagedDir w_layers (Some out)
              (w_layer SourceUnknown (Some w_managed) (TTable [])) E) with (r := r) as [Hrules _]; [by left|exact Er|].
  edestruct (Hrules w_managed) as (p & ev & Hp & He & _ & Hd); [reflexivity|by left|reflexivity| |exists p, ev; exact (conj Hp (conj He Hd))].
  exists (w_cmd ["git"; "fetch"]), []. split; [reflexivity|]. repeat constructor; set_solver.
Defined.

(** The field of feature requirements has two names, and [source_for_top_level_keys] looks
    for both.  The TOML merge treats them as different keys: a layer that uses the one and
    a layer that uses the other give a table with both, in which the derived reader finds
    the same field twice. *)
Theorem feature_names_collide :
  let table k := TTable [(lit k, TTable [(lit "memories", TBoolean true)])] in
  let layers := [w_layer SourceUnknown None (table "feature_requirements"); w_layer LegacyManagedConfigTomlFromMdm None (table "features")] in
  exists t, merged_toml layers = TTable t
    /\ map_get t (lit "features") <> None /\ map_get t (lit "feature_requirements") <> None.
Proof. cbn zeta. eexists. split; [vm_compute; reflexivity|]. split; vm_compute; discriminate. Qed.
