(* ===== verification/PowerShell.v ===== *)
(** PowerShell invocations: [shell-command/src/powershell.rs] (the functions on
    command lines), [command_safety/powershell_parser.rs] (the cached parser
    processes) and [core/src/command_canonicalization.rs] (keys of the approval
    cache).

    A parser process is PowerShell itself, running a script that answers one JSON
    line per request.  Its standard input is the list of lines written to it; what
    spawning, writing, flushing and reading give is an input ([Io]) of every attempt.
    Base64 and JSON are the class [PowerShellWire].  Paths are those of Unix. *)

From stdpp Require Import base list option numbers strings gmap sets.
From Stdlib Require Import NArith Lia.
From S2P Require Import Prelude RustStr AbsolutePath BashParse.
Local Open Scope rust_scope.

(** * [powershell.rs] *)

Definition POWERSHELL_FLAGS : list str := lit <$> ["-nologo"; "-noprofile"; "-command"; "-c"].

Definition UTF8_OUTPUT_PREFIX : str :=
  lit "try { [Console]::OutputEncoding=[System.Text.Encoding]::UTF8 } catch {}" ++ [NL].

Definition is_command_flag (flag : str) : bool :=
  eq_ignore_ascii_case flag (lit "-Command") || eq_ignore_ascii_case flag (lit "-c").

(** The loop of [extract_powershell_command] over the arguments after the shell. *)
Fixpoint find_script (args : list str) : option str :=
  match args with
  | flag :: (script :: _) as rest =>
      if negb (contains POWERSHELL_FLAGS (to_ascii_lowercase flag)) then None
      else if is_command_flag flag then Some script
      else find_script rest
  | _ => None
  end.

Definition extract_powershell_command (command : list str) : option (str * str) :=
  if length command <? 3 then None
  else match command with
       | shell :: args =>
           if detect_shell_type shell == Some PowerShell
           then (fun script => (shell, script)) <$> find_script args else None
       | [] => None
       end.

Definition prefix_powershell_script_with_utf8 (command : list str) : list str :=
  match extract_powershell_command command with
  | None => command
  | Some (_, script) =>
      let script :=
        if starts_with UTF8_OUTPUT_PREFIX (trim_start script) then script
        else UTF8_OUTPUT_PREFIX ++ script in
      take (length command - 1) command ++ [script]
  end.

(** * [powershell_parser.rs] *)

Inductive PowershellParseOutcome : Type :=
| Commands (commands : list (list str))
| Unsupported
| Failed.

Record PowershellParserRequest : Type := mkRequest { req_id : N; payload : str }.
Record PowershellParserResponse : Type := mkResponse {
  resp_id : N; status : str; resp_commands : option (list (list str)) }.

(** [BASE64_STANDARD.encode], [serde_json::to_string] of a request and
    [serde_json::from_str] of a response. *)
Class PowerShellWire := {
  base64_encode : list N -> str;
  request_json : PowershellParserRequest -> option str;
  response_json : str -> option PowershellParserResponse;
}.

(** [char::encode_utf16] and [u16::to_le_bytes]. *)
Definition encode_utf16 (c : char) : list N :=
  if (c <? 65536)%N then [c]
  else [55296 + (c - 65536) / 1024; 56320 + (c - 65536) mod 1024]%N.
Definition to_le_bytes (unit : N) : list N := [unit mod 256; unit / 256]%N.

Definition encode_powershell_base64 `{PowerShellWire} (script : str) : str :=
  base64_encode (concat (to_le_bytes <$> concat (encode_utf16 <$> script))).

Definition into_outcome (self : PowershellParserResponse) : PowershellParseOutcome :=
  if self.(status) == lit "ok" then
    match self.(resp_commands) with
    | Some commands =>
        if (0 <? length commands)
           && forallb (fun cmd : list str => (0 <? length cmd) && forallb (fun word : str => 0 <? length word) cmd) commands
        then Commands commands else Unsupported
    | None => Unsupported
    end
  else if self.(status) == lit "unsupported" then Unsupported
  else Failed.

Inductive ParserIoError : Type :=
| SerializeFailed
| WriteFailed
| FlushFailed
| ReadFailed
| UnexpectedEof
| InvalidResponse
| ResponseIdMismatch (response request : N).

(** What the operating system and the child do during one attempt: whether a child
    with its pipes is spawned, whether the request is written and flushed, and the
    line read from a child of an executable after what was written to it
    ([None] is an error, the empty line the end of the stream). *)
Record Io : Type := mkIo {
  io_spawn : bool;
  io_write : bool;
  io_flush : bool;
  io_read : str -> list str -> option str;
}.

Record PowershellParserProcess : Type := mkProcess {
  executable : str;
  stdin : list str;
  next_request_id : N;
}.

Definition U64 : N := 2 ^ 64.

Section parser.
Context `{PowerShellWire}.

Definition spawn (io : Io) (exe : str) : option PowershellParserProcess :=
  if io.(io_spawn) then Some (mkProcess exe [] 0) else None.

(** What follows once the request is on the child's standard input. *)
Definition read_response (io : Io) (self : PowershellParserProcess) (request : PowershellParserRequest)
  : result PowershellParseOutcome ParserIoError :=
  match io.(io_read) self.(executable) self.(stdin) with
  | None => Err ReadFailed
  | Some [] => Err UnexpectedEof
  | Some line =>
      match response_json line with
      | None => Err InvalidResponse
      | Some response =>
          if response.(resp_id) != request.(req_id)
          then Err (ResponseIdMismatch response.(resp_id) request.(req_id))
          else Ok (into_outcome response)
      end
  end.

Definition process_parse (io : Io) (self : PowershellParserProcess) (script : str)
  : PowershellParserProcess * result PowershellParseOutcome ParserIoError :=
  let request := mkRequest self.(next_request_id) (encode_powershell_base64 script) in
  let self := mkProcess self.(executable) self.(stdin) ((self.(next_request_id) + 1) mod U64) in
  match request_json request with
  | None => (self, Err SerializeFailed)
  | Some json =>
      if negb io.(io_write) then (self, Err WriteFailed)
      else
        let self := mkProcess self.(executable) (self.(stdin) ++ [json ++ [NL]]) self.(next_request_id) in
        if negb io.(io_flush) then (self, Err FlushFailed)
        else (self, read_response io self request)
  end.

Definition Processes : Type := gmap str PowershellParserProcess.

(** One round of the loop of [parse_with_cached_process]: [None] is an error of the
    exchange, the other ways out return. *)
Definition attempt (io : Io) (processes : Processes) (exe script : str) : Processes * option PowershellParseOutcome :=
  match (match processes !! exe with Some p => Some p | None => spawn io exe end) with
  | None => (processes, Some Failed)
  | Some p =>
      let '(p, r) := process_parse io p script in (<[exe := p]> processes, ok r)
  end.

Definition parse_with_cached_process (io0 io1 : Io) (processes : Processes) (exe script : str)
  : Processes * PowershellParseOutcome :=
  match attempt io0 processes exe script with
  | (processes, Some outcome) => (processes, outcome)
  | (processes, None) =>
      match attempt io1 (delete exe processes) exe script with
      | (processes, Some outcome) => (processes, outcome)
      | (processes, None) => (processes, Failed)
      end
  end.

Definition try_parse_powershell_ast_commands (io0 io1 : Io) (processes : Processes) (exe script : str)
  : Processes * option (list (list str)) :=
  let '(processes, outcome) := parse_with_cached_process io0 io1 processes exe script in
  (processes, match outcome with Commands commands => Some commands | Unsupported | Failed => None end).

Definition parse_powershell_command_into_plain_commands (io0 io1 : Io) (processes : Processes) (command : list str)
  : Processes * option (list (list str)) :=
  match extract_powershell_command command with
  | None => (processes, None)
  | Some (exe, script) => try_parse_powershell_ast_commands io0 io1 processes exe script
  end.
End parser.

(** * [command_canonicalization.rs] *)

Definition CANONICAL_BASH_SCRIPT_PREFIX : str := lit "__motyga_shell_script__".
Definition CANONICAL_POWERSHELL_SCRIPT_PREFIX : str := lit "__motyga_powershell_script__".

Definition canonicalize_command_for_approval (try_parse_shell : str -> option Tree) (command : list str) : list str :=
  match parse_shell_lc_plain_commands try_parse_shell command with
  | Some [single_command] => single_command
  | _ =>
      match extract_bash_command command with
      | Some (_, script) => [CANONICAL_BASH_SCRIPT_PREFIX; default [] (command !! 1); script]
      | None =>
          match extract_powershell_command command with
          | Some (_, script) => [CANONICAL_POWERSHELL_SCRIPT_PREFIX; script]
          | None => command
          end
      end
  end.

(** * Invocations *)

#[local] Arguments contains : simpl never.
#[local] Arguments eq_ignore_ascii_case : simpl never.

Definition quiet_flag (flag : str) : Prop :=
  to_ascii_lowercase flag = lit "-nologo" \/ to_ascii_lowercase flag = lit "-noprofile".
Definition command_flag (flag : str) : Prop :=
  to_ascii_lowercase flag = lit "-command" \/ to_ascii_lowercase flag = lit "-c".

Lemma is_command_flag_spec flag : is_command_flag flag = true <-> command_flag flag.
Proof. unfold is_command_flag, eq_ignore_ascii_case. by rewrite orb_true_iff, !bool_decide_eq_true. Qed.

Lemma powershell_flag_spec flag :
  contains POWERSHELL_FLAGS (to_ascii_lowercase flag) = true <-> quiet_flag flag \/ command_flag flag.
Proof.
  unfold contains, POWERSHELL_FLAGS, quiet_flag, command_flag. cbn [fmap list_fmap existsb].
  rewrite !orb_true_iff, !bool_decide_eq_true. naive_solver.
Qed.

(** The script is the argument after the first [-Command], which only quiet flags
    precede. *)
Lemma find_script_spec args script :
  find_script args = Some script <->
  exists flags flag rest, args = flags ++ flag :: script :: rest /\ Forall quiet_flag flags /\ command_flag flag.
Proof.
  induction args as [|a args IH]; [cbn; split; [done|]; by intros ([]&?&?&?&_)|].
  destruct args as [|b args].
  { cbn. split; [done|]. intros ([|? []]&?&?&?&_); naive_solver. }
  cbn [find_script]. destruct (contains _ _) eqn:Ek; cbn [negb].
  - destruct (is_command_flag a) eqn:Ec.
    + split; [intros [= ->]; exists [], a, args; rewrite <- is_command_flag_spec; auto|].
      intros ([|f flags] & flag & rest & E & Hf & _); [naive_solver|]. exfalso.
      apply Forall_inv in Hf. cbn in E. injection E as <- _. apply is_command_flag_spec in Ec.
      unfold quiet_flag, command_flag in *. naive_solver congruence.
    + rewrite IH. split.
      * intros (flags & flag & rest & -> & Hf & Hc). exists (a :: flags), flag, rest. split_and!; [done| |done].
        constructor; [|done]. apply powershell_flag_spec in Ek as [?|?%is_command_flag_spec]; [done|congruence].
      * intros ([|f flags] & flag & rest & E & Hf & Hc).
        { cbn in E. injection E as <- _ _. apply is_command_flag_spec in Hc. congruence. }
        cbn in E. injection E as <- E. apply Forall_inv_tail in Hf. by exists flags, flag, rest.
  - split; [done|]. intros ([|f flags] & flag & rest & E & Hf & Hc); cbn in E; injection E as <- E.
    + assert (contains POWERSHELL_FLAGS (to_ascii_lowercase a) = true); [|congruence]. apply powershell_flag_spec; auto.
    + apply Forall_inv in Hf. assert (contains POWERSHELL_FLAGS (to_ascii_lowercase a) = true); [|congruence].
      apply powershell_flag_spec; auto.
Qed.

Lemma extract_powershell_spec command shell script :
  extract_powershell_command command = Some (shell, script) <->
  detect_shell_type shell = Some PowerShell
  /\ exists flags flag rest, command = shell :: flags ++ flag :: script :: rest /\ Forall quiet_flag flags /\ command_flag flag.
Proof.
  unfold extract_powershell_command. destruct command as [|sh args]; [cbn; naive_solver|].
  destruct (length (sh :: args) <? 3) eqn:El.
  { apply Nat.ltb_lt in El. split; [done|]. intros (_ & flags & flag & rest & E & _). exfalso. rewrite E in El.
    cbn in El. rewrite length_app in El. cbn in El. lia. }
  case_bool_decide as Ed.
  - destruct (find_script args) as [s|] eqn:Es; cbn [fmap option_fmap option_map].
    + split.
      * intros [= <- <-]. apply find_script_spec in Es as (flags & flag & rest & -> & ?). split; [done|]. by exists flags, flag, rest.
      * intros (_ & flags & flag & rest & [= -> ->] & Hf). f_equal. f_equal.
        enough (find_script (flags ++ flag :: script :: rest) = Some script) by congruence.
        apply find_script_spec. by exists flags, flag, rest.
    + split; [done|]. intros (_ & flags & flag & rest & [= -> ->] & Hf).
      enough (find_script (flags ++ flag :: script :: rest) = Some script) by congruence.
      apply find_script_spec. by exists flags, flag, rest.
  - split; [done|]. intros (Hd & flags & flag & rest & [= -> ->] & _). done.
Qed.

(** Asking for UTF-8 output rewrites the script of an invocation that ends with it, and
    nothing else; a second time changes nothing. *)
Theorem utf8_prefix_once shell flags flag script :
  detect_shell_type shell = Some PowerShell -> Forall quiet_flag flags -> command_flag flag ->
  let command := shell :: flags ++ [flag; script] in
  exists script',
    prefix_powershell_script_with_utf8 command = shell :: flags ++ [flag; script']
    /\ (script' = script \/ script' = UTF8_OUTPUT_PREFIX ++ script)
    /\ starts_with UTF8_OUTPUT_PREFIX (trim_start script') = true
    /\ prefix_powershell_script_with_utf8 (prefix_powershell_script_with_utf8 command)
       = prefix_powershell_script_with_utf8 command.
Proof.
  intros Hd Hf Hc command.
  assert (forall s, extract_powershell_command (shell :: flags ++ [flag; s]) = Some (shell, s)) as Hx.
  { intros s. apply extract_powershell_spec. split; [done|]. by exists flags, flag, []. }
  assert (forall s s', take (length (shell :: flags ++ [flag; s]) - 1) (shell :: flags ++ [flag; s]) ++ [s']
                       = shell :: flags ++ [flag; s']) as Ht.
  { intros s s'. rewrite !app_comm_cons. change [flag; s] with ([flag] ++ [s]). rewrite app_assoc, length_app.
    rewrite take_app_length' by (cbn [length]; lia). by rewrite <- !app_assoc. }
  set (f := fun s => if starts_with UTF8_OUTPUT_PREFIX (trim_start s) then s else UTF8_OUTPUT_PREFIX ++ s).
  assert (forall s, prefix_powershell_script_with_utf8 (shell :: flags ++ [flag; s]) = shell :: flags ++ [flag; f s]) as Hp.
  { intros s. unfold prefix_powershell_script_with_utf8. rewrite Hx. apply Ht. }
  assert (starts_with UTF8_OUTPUT_PREFIX (trim_start (f script)) = true) as Hs.
  { subst f. cbn beta. destruct (starts_with UTF8_OUTPUT_PREFIX (trim_start script)) eqn:E; [done|].
    apply starts_with_spec. by exists script. }
  exists (f script). subst command. rewrite !Hp. split_and!; [done| |done|].
  - subst f. cbn beta. destruct (starts_with UTF8_OUTPUT_PREFIX (trim_start script)); [by left|by right].
  - subst f. cbn beta in *. by rewrite Hs.
Qed.

(** An invocation whose script is followed by further arguments, which PowerShell takes
    as part of the script: the last argument is replaced by the first one. *)
Example utf8_prefix_drops_arguments :
  prefix_powershell_script_with_utf8 (lit <$> ["pwsh"; "-Command"; "Get-Date"; "-AsUTC"])
  = (lit <$> ["pwsh"; "-Command"; "Get-Date"]) ++ [UTF8_OUTPUT_PREFIX ++ lit "Get-Date"].
Proof. by vm_compute. Qed.

(** An approval remembered for an invocation covers every invocation that appends
    arguments to its script. *)
Theorem approval_key_ignores_arguments try_parse_shell shell flags flag script rest :
  detect_shell_type shell = Some PowerShell -> Forall quiet_flag flags -> command_flag flag ->
  canonicalize_command_for_approval try_parse_shell (shell :: flags ++ flag :: script :: rest)
  = canonicalize_command_for_approval try_parse_shell (shell :: flags ++ [flag; script]).
Proof.
  intros Hd Hf Hc.
  assert (forall l, canonicalize_command_for_approval try_parse_shell (shell :: flags ++ flag :: script :: l)
                    = [CANONICAL_POWERSHELL_SCRIPT_PREFIX; script]) as E; [|by rewrite !E].
  intros l.
  assert (extract_bash_command (shell :: flags ++ flag :: script :: l) = None) as Eb.
  { unfold extract_bash_command. destruct (flags ++ flag :: script :: l) as [|x [|y [|]]]; [done..| |done].
    by rewrite Hd, orb_true_r. }
  unfold canonicalize_command_for_approval, parse_shell_lc_plain_commands. rewrite Eb.
  rewrite (proj2 (extract_powershell_spec _ shell script)); [done|]. split; [done|]. by exists flags, flag, l.
Qed.

(** * Parser processes *)

Section protocol.
Context `{PowerShellWire}.

(** JSON texts of different requests differ. *)
Hypothesis request_json_inj : forall q1 q2 j, request_json q1 = Some j -> request_json q2 = Some j -> q1 = q2.

(** What PowerShell answers to a payload. *)
Variable reply : str -> str -> str * option (list (list str)).

(** A child is honest when a response it writes, however late, answers some request
    it was sent: it carries the request's id and the reply to its payload.  It may
    stop, answer late or not at all, and write lines that are not responses. *)
Definition answers (exe : str) (written : list str) (r : PowershellParserResponse) : Prop :=
  exists q j, request_json q = Some j /\ j ++ [NL] ∈ written /\ req_id q = resp_id r
              /\ reply exe (payload q) = (status r, resp_commands r).
Definition honest (io : Io) : Prop :=
  forall exe written line r, io.(io_read) exe written = Some line -> response_json line = Some r -> answers exe written r.

(** No two requests sent to a process have the same id, and the next id is new. *)
Definition process_ok (bound : N) (exe : str) (p : PowershellParserProcess) : Prop :=
  p.(executable) = exe /\ (p.(next_request_id) <= bound)%N
  /\ forall q j, request_json q = Some j -> j ++ [NL] ∈ p.(stdin) -> (req_id q < p.(next_request_id))%N.
Definition processes_ok (bound : N) (ps : Processes) : Prop := map_Forall (process_ok bound) ps.

Definition well_formed_commands (cs : list (list str)) : Prop :=
  cs <> [] /\ Forall (fun cmd => cmd <> [] /\ Forall (fun word => word <> []) cmd) cs.

Lemma process_ok_le b b' exe p : (b <= b')%N -> process_ok b exe p -> process_ok b' exe p.
Proof. unfold process_ok. intros ? (? & ? & ?). split_and!; [done|lia|done]. Qed.

Lemma into_outcome_commands r cs :
  into_outcome r = Commands cs <-> status r = lit "ok" /\ resp_commands r = Some cs /\ well_formed_commands cs.
Proof.
  unfold into_outcome, well_formed_commands. case_bool_decide as Es; [|case_bool_decide; naive_solver].
  destruct (resp_commands r) as [l|]; [|naive_solver].
  assert ((0 <? length l) && forallb (fun cmd : list str => (0 <? length cmd) && forallb (fun word : str => 0 <? length word) cmd) l = true
          <-> l <> [] /\ Forall (fun cmd => cmd <> [] /\ Forall (fun word => word <> []) cmd) l) as Hb.
  { assert (forall A (x : list A), (0 <? length x) = true <-> x <> []) as Hl by (intros A [|]; cbn; naive_solver).
    rewrite andb_true_iff, Hl, forallb_forall, List.Forall_forall. apply and_iff_compat_l. apply forall_proper; intros cmd.
    rewrite andb_true_iff, Hl, forallb_forall, List.Forall_forall. by setoid_rewrite Hl. }
  destruct (_ && _); [destruct (proj1 Hb eq_refl)|]; naive_solver.
Qed.

(** The outcome that an ideal parser gives. *)
Definition expected (exe script : str) : PowershellParseOutcome :=
  let '(status, commands) := reply exe (encode_powershell_base64 script) in
  into_outcome (mkResponse 0 status commands).

(** One exchange keeps the ids of a process apart, so that an answer it accepts is the
    answer to this request. *)
Lemma process_parse_ok io exe bound p script p' r :
  honest io -> process_ok bound exe p -> (bound < U64 - 1)%N -> process_parse io p script = (p', r) ->
  process_ok (bound + 1) exe p' /\ forall o, r = Ok o -> o = expected exe script.
Proof.
  intros Hh (He & Hn & Hq) Hb. unfold process_parse. rewrite N.mod_small by (unfold U64 in *; lia).
  set (request := mkRequest _ _).
  assert (forall ls, (forall q j, request_json q = Some j -> j ++ [NL] ∈ ls -> (req_id q < next_request_id p + 1)%N) ->
            process_ok (bound + 1) exe (mkProcess (executable p) ls (next_request_id p + 1))) as Hok.
  { intros ls Hls. split_and!; cbn; [done|lia|done]. }
  assert (process_ok (bound + 1) exe (mkProcess (executable p) (stdin p) (next_request_id p + 1))) as H1.
  { apply Hok. intros q j Eq Ej. specialize (Hq q j Eq Ej). lia. }
  destruct (request_json request) as [json|] eqn:Ej; cbn zeta; [|by intros [= <- <-]].
  destruct (io_write io); cbn [negb]; [|by intros [= <- <-]]. cbn [executable stdin next_request_id].
  assert (forall q j, request_json q = Some j -> j ++ [NL] ∈ stdin p ++ [json ++ [NL]] -> q = request \/ (req_id q < next_request_id p)%N) as Hs.
  { intros q j Eq. rewrite elem_of_app, list_elem_of_singleton. intros [Hin|E%(inj (.++ [NL]))]; [right; eauto|left].
    subst j. eauto. }
  assert (process_ok (bound + 1) exe (mkProcess (executable p) (stdin p ++ [json ++ [NL]]) (next_request_id p + 1))) as H2.
  { apply Hok. intros q j Eq Hin. destruct (Hs q j Eq Hin) as [->|?]; cbn; lia. }
  destruct (io_flush io); cbn [negb]; [|by intros [= <- <-]]. intros [= <- <-]. split; [done|].
  intros o. unfold read_response. cbn [executable stdin].
  destruct (io_read io (executable p) _) as [[|c line]|] eqn:Er; [done| |done].
  destruct (response_json (c :: line)) as [resp|] eqn:Ep; [|done]. case_bool_decide as Ei; cbn [negb]; [|done].
  intros [= <-]. destruct (Hh _ _ _ _ Er Ep) as (q & j & Eq & Hin & Eid & Ereply).
  destruct (Hs q j Eq Hin) as [->|Hlt]; [|rewrite Eid, Ei in Hlt; cbn in Hlt; lia].
  unfold expected. rewrite <- He. change (payload request) with (encode_powershell_base64 script) in Ereply.
  by rewrite Ereply.
Qed.

Lemma attempt_ok io bound ps exe script ps' r :
  honest io -> processes_ok bound ps -> (bound < U64 - 1)%N -> attempt io ps exe script = (ps', r) ->
  processes_ok (bound + 1) ps'
  /\ forall o, r = Some o -> o = expected exe script \/ o = Failed /\ ps !! exe = None /\ io.(io_spawn) = false.
Proof.
  intros Hh Hps Hb. unfold attempt.
  assert (processes_ok (bound + 1) ps) as Hps' by (eapply map_Forall_impl; [done|]; intros; eapply process_ok_le; [|done]; lia).
  destruct (match ps !! exe with Some p => Some p | None => spawn io exe end) as [p|] eqn:Ep.
  - assert (process_ok bound exe p) as Hp.
    { destruct (ps !! exe) as [q|] eqn:Eq; [injection Ep as <-; by apply (Hps exe)|].
      unfold spawn in Ep. destruct (io_spawn io); [|done]. injection Ep as <-.
      split_and!; cbn; [done|lia|]. by intros ? ? _ ?%not_elem_of_nil. }
    destruct (process_parse io p script) as [p' res] eqn:E. intros [= <- <-].
    apply (process_parse_ok _ _ _ _ _ _ _ Hh Hp Hb) in E as [Hp' Ho]. split; [by apply map_Forall_insert_2|].
    destruct res; cbn; naive_solver.
  - intros [= <- <-]. split; [done|]. intros o [= <-]. right. unfold spawn in Ep.
    destruct (ps !! exe); [done|]. by destruct (io_spawn io).
Qed.

Lemma parse_cached_ok io0 io1 bound ps exe script ps' o :
  honest io0 -> honest io1 -> processes_ok bound ps -> (bound < U64 - 2)%N ->
  parse_with_cached_process io0 io1 ps exe script = (ps', o) ->
  processes_ok (bound + 2) ps' /\ (o = expected exe script \/ o = Failed).
Proof.
  intros H0 H1 Hps Hb. unfold parse_with_cached_process.
  destruct (attempt io0 ps exe script) as [ps1 r1] eqn:E1. apply attempt_ok with (bound := bound) in E1 as [Hp1 Ho1]; [|done..|lia].
  assert (forall p, processes_ok (bound + 1) p -> processes_ok (bound + 2) p) as Hle.
  { intros p ?. eapply map_Forall_impl; [done|]. intros; eapply process_ok_le; [|done]; lia. }
  destruct r1 as [o1|]; [intros [= <- <-]; split; [auto|]; destruct (Ho1 o1 eq_refl) as [?|[? _]]; auto|].
  destruct (attempt io1 (delete exe ps1) exe script) as [ps2 r2] eqn:E2.
  apply attempt_ok with (bound := (bound + 1)%N) in E2 as [Hp2 Ho2]; [|done| |lia]; [|by apply map_Forall_delete].
  replace (bound + 1 + 1)%N with (bound + 2)%N in Hp2 by lia.
  destruct r2 as [o2|]; intros [= <- <-]; split; [done| |done|by right]. destruct (Ho2 o2 eq_refl) as [?|[? _]]; auto.
Qed.

(** A child that takes the request and answers it. *)
Definition healthy (io : Io) : Prop :=
  io.(io_spawn) = true /\ io.(io_write) = true /\ io.(io_flush) = true
  /\ forall exe written q j, request_json q = Some j ->
       exists line, io.(io_read) exe (written ++ [j ++ [NL]]) = Some line /\ line <> []
         /\ response_json line = Some (mkResponse (req_id q) (reply exe (payload q)).1 (reply exe (payload q)).2).

Lemma attempt_healthy io ps exe script :
  healthy io -> (forall q, is_Some (request_json q)) -> ps !! exe = None ->
  (attempt io ps exe script).2 = Some (expected exe script).
Proof.
  intros (Hs & Hw & Hf & Hr) Hj En. unfold attempt, spawn. rewrite En, Hs. unfold process_parse.
  cbn [next_request_id executable stdin]. set (q := mkRequest _ _). destruct (Hj q) as [j Ej]. rewrite Ej, Hw, Hf. cbn [negb].
  destruct (Hr exe [] q j Ej) as (line & El & Hne & Ep). unfold read_response. cbn [executable stdin app] in *. rewrite El.
  destruct line as [|c line]; [done|]. rewrite Ep. cbn [resp_id]. rewrite bool_decide_eq_true_2 by done. cbn.
  unfold expected. by destruct (reply exe _).
Qed.

Record ParserCall : Type := mkCall { call_exe : str; call_script : str; call_io0 : Io; call_io1 : Io }.

Definition call_outcome (ps : Processes) (c : ParserCall) : Processes * PowershellParseOutcome :=
  parse_with_cached_process c.(call_io0) c.(call_io1) ps c.(call_exe) c.(call_script).

(** Calls of [parse_with_powershell_ast], one after another under its lock. *)
Definition run_calls (calls : list ParserCall) : Processes := foldl (fun ps c => (call_outcome ps c).1) ∅ calls.

Lemma run_calls_ok calls :
  Forall (fun c => honest c.(call_io0) /\ honest c.(call_io1)) calls -> (2 * N.of_nat (length calls) < U64 - 2)%N ->
  processes_ok (2 * N.of_nat (length calls)) (run_calls calls).
Proof.
  induction calls as [|c calls IH] using rev_ind; intros Hc Hn; [apply map_Forall_empty|].
  apply Forall_app in Hc as [Hc [[H0 H1] _]%Forall_cons]. rewrite length_app in *. cbn [length] in *.
  unfold run_calls. rewrite foldl_app. cbn [foldl]. fold (run_calls calls).
  destruct (call_outcome (run_calls calls) c) as [ps' o] eqn:E. cbn [fst].
  apply parse_cached_ok with (bound := (2 * N.of_nat (length calls))%N) in E as [? _]; [|done..|apply IH; [done|lia]|lia].
  by replace (2 * N.of_nat (length calls + 1))%N with (2 * N.of_nat (length calls) + 2)%N by lia.
Qed.

(** C21: the cached, restarted and possibly confused parser processes implement the
    parser.  After any calls (fewer than [2^62]) to processes that may die, answer late
    or write stray lines, but whose responses answer requests they were sent, a call
    gives the parser's outcome for its own script or fails, never the outcome of
    another script; if a process for the executable can be used at all and the retry
    meets a working one, the call gives the parser's outcome, whatever state the
    cached process was in.  Commands it reports are not empty and have no empty
    words. *)
Theorem powershell_answers_match calls c :
  Forall (fun c => honest c.(call_io0) /\ honest c.(call_io1)) (calls ++ [c]) -> (N.of_nat (length calls) < 2 ^ 62)%N ->
  let outcome := (call_outcome (run_calls calls) c).2 in
  (outcome = expected c.(call_exe) c.(call_script) \/ outcome = Failed)
  /\ (healthy c.(call_io1) -> (forall q, is_Some (request_json q)) ->
      is_Some (run_calls calls !! c.(call_exe)) \/ c.(call_io0).(io_spawn) = true ->
      outcome = expected c.(call_exe) c.(call_script))
  /\ forall cs, outcome = Commands cs -> well_formed_commands cs.
Proof using request_json_inj.
  intros [Hc [[H0 H1] _]%Forall_cons]%Forall_app Hn. cbn zeta. unfold call_outcome.
  assert (2 * N.of_nat (length calls) < U64 - 2)%N as Hn' by (unfold U64; lia).
  pose proof (run_calls_ok calls Hc Hn') as Hps.
  destruct (parse_with_cached_process _ _ _ _ _) as [ps' o] eqn:E. cbn [snd].
  pose proof (parse_cached_ok _ _ _ _ _ _ _ _ H0 H1 Hps Hn' E) as [_ Ho].
  assert (forall cs, o = Commands cs -> well_formed_commands cs) as Hw.
  { intros cs ->. destruct Ho as [Ho|]; [|done]. unfold expected in Ho. destruct (reply _ _). symmetry in Ho.
    by apply into_outcome_commands in Ho as (_ & _ & ?). }
  split_and!; [done| |done]. intros Hh Hj Hs. revert E. unfold parse_with_cached_process.
  destruct (attempt (call_io0 c) _ _ _) as [ps1 r1] eqn:E1. pose proof (attempt_ok _ _ _ _ _ _ _ H0 Hps ltac:(lia) E1) as [_ Ho1].
  destruct r1 as [o1|].
  - intros [= <- <-]. destruct (Ho1 o1 eq_refl) as [|(_ & En & Ef)]; [done|]. rewrite En, Ef in Hs.
    by destruct Hs as [[]|].
  - pose proof (attempt_healthy (call_io1 c) (delete (call_exe c) ps1) (call_exe c) (call_script c) Hh Hj
                  (lookup_delete_eq _ _)) as Ha.
    destruct (attempt (call_io1 c) _ _ _) as [ps2 r2]. cbn in Ha. subst r2. by intros [= <- <-].
Qed.
End protocol.

(** ** A confused process *)

(** A wire format in which a line is the id followed by the payload, and a parser that
    reports the payload as the only word of the only command. *)
#[local] Instance echo_wire : PowerShellWire := {|
  base64_encode b := retain (fun x => x != 0%N) b;
  request_json q := Some (req_id q :: payload q);
  response_json line :=
    match line with i :: p => Some (mkResponse i (lit "ok") (Some [[p]])) | [] => None end;
|}.
Definition echo_reply (_ payload : str) : str * option (list (list str)) := (lit "ok", Some [[payload]]).

(** A child that answers the request [pick] chooses. *)
Definition echo_io (pick : list str -> option str) : Io :=
  mkIo true true true (fun _ written => line ← pick written; strip_suffix [NL] line).

Lemma echo_honest pick : (forall w l, pick w = Some l -> l ∈ w) -> honest echo_reply (echo_io pick).
Proof.
  intros Hp exe written line r (l & Hl & Es)%bind_Some Er. apply strip_suffix_Some in Es as ->.
  destruct line as [|i p]; [done|]. injection Er as <-. exists (mkRequest i p), (i :: p). by eauto.
Qed.

Lemma echo_healthy : healthy echo_reply (echo_io last).
Proof.
  split_and!; [done..|]. intros exe written q j [= <-]. exists (req_id q :: payload q). split_and!; [|done|done].
  cbn [io_read echo_io]. rewrite last_snoc. change (strip_suffix [NL] ((req_id q :: payload q) ++ [NL]) = Some (req_id q :: payload q)).
  by apply strip_suffix_Some.
Qed.

Lemma powershell_answers_match_witness :
  (call_outcome (run_calls [mkCall (lit "pwsh") (lit "ls") (echo_io (fun _ => None)) (echo_io (fun _ => None))])
     (mkCall (lit "pwsh") (lit "pwd") (echo_io head) (echo_io last))).2
  = Commands [[lit "pwd"]].
Proof.
  assert (forall w l, head w = Some l -> (l : str) ∈ w) as Hhead by (intros [|x w] l; [done|]; intros [= ->]; constructor).
  assert (forall w l, last w = Some l -> (l : str) ∈ w) as Hlast by (intros w l Hl; by apply last_Some_elem_of).
  destruct (powershell_answers_match (H := echo_wire) ltac:(intros [] [] ? [= <-]; cbn; congruence) echo_reply
    [mkCall (lit "pwsh") (lit "ls") (echo_io (fun _ => None)) (echo_io (fun _ => None))]
    (mkCall (lit "pwsh") (lit "pwd") (echo_io head) (echo_io last))) as (_ & Ho & _).
  - repeat constructor; cbn; by apply echo_honest.
  - vm_compute. reflexivity.
  - etransitivity; [apply Ho; [apply echo_healthy|by eexists|by left; vm_compute; eexists]|]. by vm_compute.
Defined.
