(* ===== verification/WindowsSafety.v ===== *)
(** [shell-command/src/command_safety] as built on Windows:
    [windows_dangerous_commands.rs], [windows_safe_commands.rs] and the Windows part
    of [is_dangerous_command.rs] ([executable_name_lookup_key]).

    [Path::file_name] is that of Windows.  [shlex] is the class of [PolicyParser], the
    [url] crate the variable [url_scheme]; PowerShell's own parser is reached through the
    processes of [PowerShell]. *)

From stdpp Require Import base list option numbers strings gmap sets.
From Stdlib Require Import NArith Lia.
From S2P Require Import Prelude RustStr AbsolutePath ExecRule BashParse CommandSafety PolicyParser PowerShell.
Local Open Scope rust_scope.

(** * The standard library on Windows *)

Definition BACKSLASH : char := 92%N.
Definition is_sep (c : char) : bool := (c == SLASH) || (c == BACKSLASH).
Definition is_verbatim_sep (c : char) : bool := c == BACKSLASH.
Definition is_ascii_alphabetic (c : char) : bool := in_range 65 90 c || in_range 97 122 c.

(** [slice::split] and [str::split] by a predicate: the pieces between separators. *)
Fixpoint split_by {A} (p : A -> bool) (l : list A) : list (list A) :=
  match l with
  | [] => [[]]
  | x :: l =>
      if p x then [] :: split_by p l
      else match split_by p l with
           | s :: ss => (x :: s) :: ss
           | [] => [[x]]
           end
  end.

(** The first component and what follows its separator ([parse_next_component]). *)
Fixpoint next_component (sep : char -> bool) (s : str) : str * str :=
  match s with
  | [] => ([], [])
  | c :: s => if sep c then ([], s) else let '(comp, rest) := next_component sep s in (c :: comp, rest)
  end.

(** A prefix written with backslashes; in the text a slash will do. *)
Fixpoint strip_sep_prefix (p s : str) : option str :=
  match p, s with
  | [], _ => Some s
  | a :: p, c :: s => if (if a == BACKSLASH then is_sep c else a == c) then strip_sep_prefix p s else None
  | _ :: _, [] => None
  end.

Inductive WinPrefix : Type := Verbatim | Plain.

(** [parse_prefix]: what follows the prefix of a path, and whether the prefix is a
    verbatim one. *)
Definition after_prefix (path : str) : WinPrefix * str :=
  match strip_sep_prefix (lit "\\") path with
  | Some rest =>
      match (if starts_with (lit "\\?\") path then Some (drop 4 path) else None) with
      | Some rest =>
          match strip_prefix (lit "UNC\") rest with
          | Some rest =>
              let rest := (next_component is_verbatim_sep rest).2 in
              (Verbatim, drop (length (next_component is_verbatim_sep rest).1) rest)
          | None => (Verbatim, drop (length (next_component is_verbatim_sep rest).1) rest)
          end
      | None =>
          match strip_sep_prefix (lit ".\") rest with
          | Some rest => (Plain, drop (length (next_component is_sep rest).1) rest)
          | None =>
              let '(server, after) := next_component is_sep rest in
              let '(share, _) := next_component is_sep after in
              if (0 <? length server) && (0 <? length share) then (Plain, drop (length share) after)
              else (Plain, path)
          end
      end
  | None =>
      match path with
      | drive :: c :: rest => if is_ascii_alphabetic drive && (c == COLON) then (Plain, rest) else (Plain, path)
      | _ => (Plain, path)
      end
  end.

(** [Path::file_name]: the last component when it is a name.  In a verbatim path a dot
    is a component of its own. *)
Definition win_file_name (path : str) : option str :=
  let '(prefix, rest) := after_prefix path in
  let sep := match prefix with Verbatim => is_verbatim_sep | Plain => is_sep end in
  let skipped seg := (seg == []) || match prefix with Verbatim => false | Plain => seg == lit "." end in
  match last (retain (fun seg => negb (skipped seg)) (split_by sep rest)) with
  | Some seg => if (seg == lit "..") || (seg == lit ".") then None else Some seg
  | None => None
  end.

Definition trim_matches (p : char -> bool) (s : str) : str :=
  reverse (drop_while p (reverse (drop_while p s))).

(** * [windows_dangerous_commands.rs] *)

Definition executable_basename (exe : str) : option str := to_ascii_lowercase <$> win_file_name exe.

Definition POWERSHELL_NAMES : list string := ["powershell"; "powershell.exe"; "pwsh"; "pwsh.exe"].
Definition BROWSER_NAMES : list string :=
  ["chrome"; "chrome.exe"; "msedge"; "msedge.exe"; "firefox"; "firefox.exe"; "iexplore"; "iexplore.exe"].

Definition is_powershell_executable (exe : str) : bool := is_some_and (is_one_of POWERSHELL_NAMES) (executable_basename exe).
Definition is_browser_executable (name : str) : bool := is_one_of BROWSER_NAMES name.

Definition SQUOTE : char := 39%N.
Definition LPAREN : char := 40%N.
Definition RPAREN : char := 41%N.
Definition SEMICOLON : char := 59%N.

(** The regular expression of [looks_like_url]: a run of opening punctuation, a run
    without spaces, quotes, closing parentheses and semicolons, which is captured, and
    a run of closing punctuation. *)
Definition url_open (c : char) : bool := is_whitespace c || (c == QUOTE) || (c == SQUOTE) || (c == LPAREN).
Definition url_body (c : char) : bool :=
  negb (is_whitespace c || (c == QUOTE) || (c == SQUOTE) || (c == RPAREN) || (c == SEMICOLON)).
Definition url_close (c : char) : bool := is_whitespace c || (c == SEMICOLON) || (c == RPAREN).

Definition url_capture (s : str) : option str :=
  let rest := drop_while url_open s in
  match take_while url_body rest with
  | [] => (* only a parenthesis given back by the first run is left to capture *)
      if (last (trim_end (take_while url_open s)) == Some LPAREN) && forallb url_close rest then Some [LPAREN] else None
  | body => if forallb url_close (drop_while url_body rest) then Some body else None
  end.

Section windows.
Context `{Shlex} (url_scheme : str -> option str).

Definition urlish (token : str) : str :=
  match find_str (lit "https://") token with
  | Some idx => drop idx token
  | None => match find_str (lit "http://") token with Some idx => drop idx token | None => token end
  end.

Definition looks_like_url (token : str) : bool :=
  let candidate := default (urlish token) (url_capture (urlish token)) in
  is_some_and (is_one_of ["http"; "https"]) (url_scheme candidate).

Definition args_have_url (args : list str) : bool := existsb looks_like_url args.

Definition has_force_flag_cmd (args : list str) : bool := existsb (fun a => eq_ignore_ascii_case a (lit "/f")) args.
Definition has_recursive_flag_cmd (args : list str) : bool := existsb (fun a => eq_ignore_ascii_case a (lit "/s")) args.
Definition has_quiet_flag_cmd (args : list str) : bool := existsb (fun a => eq_ignore_ascii_case a (lit "/q")) args.

Definition DELETE_CMDLETS : list string := ["remove-item"; "ri"; "rm"; "del"; "erase"; "rd"; "rmdir"].
Definition SEG_SEPS : list char := [SEMICOLON; 124; 38; NL; CR; 9]%N.
Definition SOFT_SEPS : list char := [123; 125; LPAREN; RPAREN; 91; 93; 44; SEMICOLON]%N.
Definition char_in (seps : list char) (c : char) : bool := existsb (fun s => s == c) seps.

(** The segments built so far and the last one, [segments.last_mut()]. *)
Definition Segments : Type := list (list str) * list str.
Definition push_word (st : Segments) (cur : str) : Segments :=
  let s := trim cur in if 0 <? length s then (st.1, st.2 ++ [s]) else st.
Definition end_segment (st : Segments) : Segments :=
  if 0 <? length st.2 then (st.1 ++ [st.2], []) else st.

Fixpoint segment_chars (st : Segments) (cur : str) (chars : str) : Segments :=
  match chars with
  | [] => push_word st cur
  | ch :: chars =>
      if char_in SEG_SEPS ch then segment_chars (end_segment (push_word st cur)) [] chars
      else segment_chars st (cur ++ [ch]) chars
  end.

Definition powershell_segments (tokens : list str) : list (list str) :=
  let '(done, last) := foldl (fun st tok => segment_chars st [] tok) ([], []) tokens in done ++ [last].

Definition soft_atoms (seg : list str) : list str :=
  retain (fun s => 0 <? length s) (trim <$> concat (split_by (char_in SOFT_SEPS) <$> seg)).

Definition is_delete_cmdlet (a : str) : bool := existsb (fun cmd => eq_ignore_ascii_case a (lit cmd)) DELETE_CMDLETS.
Definition is_force_parameter (a : str) : bool :=
  eq_ignore_ascii_case a (lit "-force") || eq_ignore_ascii_case (take 7 a) (lit "-force:").

Definition has_force_delete_cmdlet (tokens : list str) : bool :=
  existsb (fun seg => existsb is_delete_cmdlet (soft_atoms seg) && existsb is_force_parameter (soft_atoms seg)) (powershell_segments tokens).

Definition normalize_word (t : str) : str :=
  to_ascii_lowercase (trim_matches (fun c => c == QUOTE) (trim_matches (fun c => c == SQUOTE) t)).

Definition is_dangerous_powershell_words (words : list str) : bool :=
  let tokens_lc := normalize_word <$> words in
  let has_url := args_have_url words in
  if has_url && existsb (fun t => is_one_of ["start-process"; "start"; "saps"; "invoke-item"; "ii"] t
                                  || contains_str (lit "start-process") t || contains_str (lit "invoke-item") t) tokens_lc
  then true
  else if has_url && existsb (fun t => contains_str (lit "shellexecute") t || contains_str (lit "shell.application") t) tokens_lc
  then true
  else if match tokens_lc with
          | first :: _ =>
              (first == lit "rundll32") && existsb (contains_str (lit "url.dll,fileprotocolhandler")) tokens_lc && has_url
              || (first == lit "mshta") && has_url
              || is_browser_executable first && has_url
              || is_one_of ["explorer"; "explorer.exe"] first && has_url
          | [] => false
          end
  then true
  else has_force_delete_cmdlet tokens_lc.

(** The loop of [parse_powershell_invocation]. *)
Fixpoint parse_powershell_invocation (args : list str) : option (list str) :=
  match args with
  | [] => None
  | arg :: rest =>
      let lower := to_ascii_lowercase arg in
      if is_one_of ["-command"; "/command"; "-c"] lower then
        match rest with [script] => shlex_split script | _ => None end
      else if starts_with (lit "-command:") lower || starts_with (lit "/command:") lower then
        match rest with
        | [] => '(_, script) ← split_once COLON arg; shlex_split script
        | _ => None
        end
      else if starts_with [DASH] lower then parse_powershell_invocation rest
      else Some args
  end.

Definition is_dangerous_powershell (command : list str) : bool :=
  match command with
  | [] => false
  | exe :: rest =>
      if negb (is_powershell_executable exe) then false
      else match parse_powershell_invocation rest with
           | Some tokens => is_dangerous_powershell_words tokens
           | None => false
           end
  end.

(** [&], [&&], [|] and [||]. *)
Definition is_cmd_operator (c : char) : bool := (c == 38%N) || (c == 124%N).

(** The loop of [split_embedded_cmd_operators]; [cur] is the text since [start]. *)
Fixpoint cmd_parts (cur token : str) : list str :=
  let pending := if 0 <? length cur then [cur] else [] in
  match token with
  | [] => pending
  | ch :: rest =>
      if is_cmd_operator ch then
        pending ++
        match rest with
        | next :: rest' => if next == ch then [ch; next] :: cmd_parts [] rest' else [ch] :: cmd_parts [] rest
        | [] => [[ch]]
        end
      else cmd_parts (cur ++ [ch]) rest
  end.

Definition split_embedded_cmd_operators (token : str) : list str :=
  retain (fun s => 0 <? length (trim s)) (cmd_parts [] token).

(** The arguments of [cmd] after [/c]. *)
Fixpoint cmd_body (args : list str) : option (list str) :=
  match args with
  | [] => Some []
  | arg :: args =>
      let lower := to_ascii_lowercase arg in
      if is_one_of ["/c"; "/r"; "-c"] lower then Some args
      else if starts_with [SLASH] lower then cmd_body args
      else None
  end.

Definition CMD_SEPARATORS : list string := ["&"; "&&"; "|"; "||"].

Definition is_dangerous_cmd_segment (segment : list str) : bool :=
  match segment with
  | [] => false
  | cmd :: _ =>
      eq_ignore_ascii_case cmd (lit "start") && args_have_url segment
      || (eq_ignore_ascii_case cmd (lit "del") || eq_ignore_ascii_case cmd (lit "erase")) && has_force_flag_cmd segment
      || (eq_ignore_ascii_case cmd (lit "rd") || eq_ignore_ascii_case cmd (lit "rmdir"))
         && has_recursive_flag_cmd segment && has_quiet_flag_cmd segment
  end.

Definition cmd_tokens (remaining : list str) : list str :=
  let cmd_tokens := match remaining with [only] => default [only] (shlex_split only) | _ => remaining end in
  concat (split_embedded_cmd_operators <$> cmd_tokens).

Definition is_dangerous_cmd (command : list str) : bool :=
  match command with
  | [] => false
  | exe :: rest =>
      if negb (is_some_and (is_one_of ["cmd"; "cmd.exe"]) (executable_basename exe)) then false
      else match cmd_body rest with
           | None | Some [] => false
           | Some remaining =>
               existsb is_dangerous_cmd_segment (split_by (is_one_of CMD_SEPARATORS) (cmd_tokens remaining))
           end
  end.

Definition is_direct_gui_launch (command : list str) : bool :=
  match command with
  | [] => false
  | exe :: rest =>
      match executable_basename exe with
      | None => false
      | Some base =>
          is_one_of ["explorer"; "explorer.exe"] base && args_have_url rest
          || is_one_of ["mshta"; "mshta.exe"] base && args_have_url rest
          || is_one_of ["rundll32"; "rundll32.exe"] base
             && existsb (fun t => contains_str (lit "url.dll,fileprotocolhandler") (to_ascii_lowercase t)) rest
             && args_have_url rest
          || is_browser_executable base && args_have_url rest
      end
  end.

Definition is_dangerous_command_windows (command : list str) : bool :=
  is_dangerous_powershell command || is_dangerous_cmd command || is_direct_gui_launch command.
End windows.

(** * [windows_safe_commands.rs] *)

Module Safe.
Section safe.
Context `{PowerShellWire}.

(** The name of the executable; a path without one stands for itself. *)
Definition is_powershell_binary (exe : str) : bool :=
  is_one_of POWERSHELL_NAMES (to_ascii_lowercase (default exe (win_file_name exe))).

Definition quote_argument (arg : str) : str :=
  match arg with
  | [] => [SQUOTE; SQUOTE]
  | _ =>
      if forallb (fun ch => negb (is_whitespace ch)) arg then arg
      else [SQUOTE] ++ concat ((fun c => if c == SQUOTE then [SQUOTE; SQUOTE] else [c]) <$> arg) ++ [SQUOTE]
  end.

Definition join_arguments_as_script (args : list str) : str :=
  match args with
  | [] => []
  | first :: rest => join (lit " ") (first :: (quote_argument <$> rest))
  end.

Definition FORBIDDEN_SWITCHES : list string :=
  ["-encodedcommand"; "-ec"; "-file"; "/file"; "-windowstyle"; "-executionpolicy"; "-workingdirectory"].

(** The script an invocation passes to PowerShell: the loop of
    [parse_powershell_invocation], which ends in one call of the parser. *)
Fixpoint script_of (args : list str) : option str :=
  match args with
  | [] => None
  | arg :: rest =>
      let lower := to_ascii_lowercase arg in
      if is_one_of ["-command"; "/command"; "-c"] lower then
        match rest with [script] => Some script | _ => None end
      else if starts_with (lit "-command:") lower || starts_with (lit "/command:") lower then
        match rest with [] => snd <$> split_once COLON arg | _ => None end
      else if is_one_of ["-nologo"; "-noprofile"; "-noninteractive"; "-mta"; "-sta"] lower then script_of rest
      else if is_one_of FORBIDDEN_SWITCHES lower then None
      else if starts_with [DASH] lower then None
      else Some (join_arguments_as_script args)
  end.

Definition parse_powershell_script (io0 io1 : Io) (ps : Processes) (exe script : str) : Processes * option (list (list str)) :=
  let '(ps, outcome) := parse_with_cached_process io0 io1 ps exe script in
  (ps, match outcome with Commands commands => Some commands | _ => None end).

Definition parse_safe_invocation (io0 io1 : Io) (ps : Processes) (exe : str) (args : list str)
  : Processes * option (list (list str)) :=
  match script_of args with
  | Some script => parse_powershell_script io0 io1 ps exe script
  | None => (ps, None)
  end.

Definition try_parse_powershell_command_sequence (io0 io1 : Io) (ps : Processes) (command : list str)
  : Processes * option (list (list str)) :=
  match command with
  | exe :: rest =>
      if is_powershell_binary exe then parse_safe_invocation io0 io1 ps exe rest else (ps, None)
  | [] => (ps, None)
  end.

(** [executable_name_lookup_key] as built on Windows. *)
Definition strip_executable_suffix (name : str) : str :=
  match omap (fun suffix => strip_suffix (lit suffix) name) [".exe"; ".cmd"; ".bat"; ".com"] with
  | stripped :: _ => stripped
  | [] => name
  end.
Definition win_executable_name_lookup_key (raw : str) : option str :=
  strip_executable_suffix <$> (to_ascii_lowercase <$> win_file_name raw).

(** [is_safe_git_command] looks at the program only through that key. *)
Definition win_is_safe_git_command (command : list str) : bool :=
  match command with
  | [] => false
  | cmd0 :: args =>
      (win_executable_name_lookup_key cmd0 == Some (lit "git")) && CommandSafety.is_safe_git_command (lit "git" :: args)
  end.

Definition is_safe_ripgrep (words : list str) : bool :=
  negb (existsb (fun arg =>
    let arg_lc := to_ascii_lowercase arg in
    is_one_of ["--search-zip"; "-z"] arg_lc
    || existsb (fun opt => (arg_lc == lit opt) || starts_with (lit opt ++ lit "=") arg_lc) ["--pre"; "--hostname-bin"])
    (drop 1 words)).

Definition bare_word (w : str) : str :=
  to_ascii_lowercase (drop_while (fun c => c == DASH) (trim_matches (fun c => (c == LPAREN) || (c == RPAREN)) w)).

Definition SIDE_EFFECT_CMDLETS : list string :=
  ["set-content"; "add-content"; "out-file"; "new-item"; "remove-item"; "move-item"; "copy-item"; "rename-item";
   "start-process"; "stop-process"].

Definition READ_ONLY_CMDLETS : list string :=
  ["echo"; "write-output"; "write-host";
   "dir"; "ls"; "get-childitem"; "gci";
   "cat"; "type"; "gc"; "get-content";
   "select-string"; "sls"; "findstr";
   "measure-object"; "measure";
   "get-location"; "gl"; "pwd";
   "test-path"; "tp";
   "resolve-path"; "rvpa";
   "select-object"; "select";
   "get-item"].

Definition is_safe_powershell_words (words : list str) : bool :=
  match words with
  | [] => false
  | word0 :: _ =>
      if existsb (fun w => is_one_of SIDE_EFFECT_CMDLETS (bare_word w)) words then false
      else
        let command := bare_word word0 in
        if is_one_of READ_ONLY_CMDLETS command then true
        else if command == lit "git" then win_is_safe_git_command words
        else if command == lit "rg" then is_safe_ripgrep words
        else false
  end.

Definition is_safe_command_windows (io0 io1 : Io) (ps : Processes) (command : list str) : Processes * bool :=
  let '(ps, commands) := try_parse_powershell_command_sequence io0 io1 ps command in
  (ps, match commands with Some commands => forallb is_safe_powershell_words commands | None => false end).
End safe.
End Safe.

(** * What is auto-approved *)

Section approved.
Context `{PowerShellWire}.
Import Safe.

#[local] Arguments is_one_of : simpl never.

Definition quiet_switch (arg : str) : Prop :=
  to_ascii_lowercase arg ∈ lit <$> ["-nologo"; "-noprofile"; "-noninteractive"; "-mta"; "-sta"].

(** The arguments run [script]: after quiet switches, either as the only argument of
    [-Command], or inside a [-Command:] argument that is the last one, or spelled by
    all remaining arguments. *)
Inductive runs_script : list str -> str -> Prop :=
| runs_quiet arg args script : quiet_switch arg -> runs_script args script -> runs_script (arg :: args) script
| runs_command flag script :
    to_ascii_lowercase flag ∈ lit <$> ["-command"; "/command"; "-c"] -> runs_script [flag; script] script
| runs_inline flag script :
    to_ascii_lowercase flag ∈ lit <$> ["-command"; "/command"] -> runs_script [flag ++ COLON :: script] script
| runs_words first rest :
    starts_with [DASH] first = false ->
    runs_script (first :: rest) (join (lit " ") (first :: (quote_argument <$> rest))).

Lemma lowercase_app a b : to_ascii_lowercase (a ++ b) = to_ascii_lowercase a ++ to_ascii_lowercase b.
Proof. apply fmap_app. Qed.

Lemma lowercase_prefix p s : starts_with p (to_ascii_lowercase s) = true -> exists a b, s = a ++ b /\ to_ascii_lowercase a = p.
Proof.
  intros (r & Hr)%starts_with_spec. apply fmap_app_inv in Hr as (a & b & -> & _ & ->). eauto.
Qed.

Lemma ascii_lower_colon c : ascii_lower c = COLON -> c = COLON.
Proof.
  unfold ascii_lower, is_ascii_uppercase, in_range, COLON. destruct (_ && _) eqn:E; [|done].
  apply andb_prop in E as [?%N.leb_le ?%N.leb_le]. lia.
Qed.

Lemma lowercase_no_colon a : COLON ∉ to_ascii_lowercase a -> COLON ∉ a.
Proof. intros Hn Ha. apply Hn. apply list_elem_of_fmap. by exists COLON. Qed.

(** An argument that starts with [-command:] splits at that colon. *)
Lemma inline_split p arg :
  COLON ∉ p -> starts_with (p ++ [COLON]) (to_ascii_lowercase arg) = true ->
  exists flag script, arg = flag ++ COLON :: script /\ to_ascii_lowercase flag = p
                      /\ split_once COLON arg = Some (flag, script).
Proof.
  intros Hp (a & b & -> & Ha)%lowercase_prefix.
  apply fmap_app_inv in Ha as (flag & c & -> & Hc & ->).
  destruct c as [|c [|]]; [done| |done]. injection Hc as Hc. symmetry in Hc. apply ascii_lower_colon in Hc as ->.
  rewrite <- app_assoc. cbn [app]. exists flag, b. split_and!; [done|done|].
  by apply split_once_app, lowercase_no_colon.
Qed.

Lemma lower_dash s : starts_with [DASH] (to_ascii_lowercase s) = false -> starts_with [DASH] s = false.
Proof.
  destruct s as [|c s]; [done|]. intros Hs. destruct (starts_with [DASH] (c :: s)) eqn:E; [|done].
  apply starts_with_spec in E as [r [= -> _]]. done.
Qed.

Lemma script_of_runs args script : script_of args = Some script -> runs_script args script.
Proof.
  revert script. induction args as [|arg args IH]; intros script; [done|]. cbn [script_of].
  destruct (is_one_of ["-command"; "/command"; "-c"] _) eqn:Ec.
  { apply is_one_of_spec in Ec. destruct args as [|s [|]]; [done| |done]. intros [= ->]. by constructor. }
  destruct (starts_with (lit "-command:") _ || _) eqn:Ei.
  { assert (exists flag rest, to_ascii_lowercase flag ∈ lit <$> ["-command"; "/command"] /\ arg = flag ++ COLON :: rest
                              /\ split_once COLON arg = Some (flag, rest)) as (flag & rest & Hf & -> & Es).
    { apply orb_prop in Ei as [Ei|Ei].
      - destruct (inline_split (lit "-command") arg) as (f & r & ? & E & ?); [by vm_compute; set_solver|done|].
        exists f, r. split_and!; [rewrite E; left|done|done].
      - destruct (inline_split (lit "/command") arg) as (f & r & ? & E & ?); [by vm_compute; set_solver|done|].
        exists f, r. split_and!; [rewrite E; right; left|done|done]. }
    destruct args; [|done]. rewrite Es. intros [= <-]. by constructor. }
  destruct (is_one_of ["-nologo"; _; _; _; _] _) eqn:Eq.
  { intros Hs. apply runs_quiet; [by apply is_one_of_spec|auto]. }
  destruct (is_one_of FORBIDDEN_SWITCHES _); [done|]. destruct (starts_with [DASH] _) eqn:Ed; [done|].
  intros [= <-]. apply runs_words. by apply lower_dash.
Qed.

(** Options that make [rg] run other programs. *)
Definition rg_runs_program (arg : str) : Prop :=
  let a := to_ascii_lowercase arg in
  a ∈ lit <$> ["--search-zip"; "-z"] \/
  exists opt, opt ∈ ["--pre"; "--hostname-bin"] /\ (a = lit opt \/ exists v, a = (lit opt ++ lit "=") ++ v).

Lemma is_safe_ripgrep_spec word0 args :
  is_safe_ripgrep (word0 :: args) = true <-> Forall (fun arg => ~ rg_runs_program arg) args.
Proof.
  unfold is_safe_ripgrep. rewrite negb_true_iff, existsb_false. cbn [drop]. apply Forall_iff; intros arg.
  rewrite <- not_true_iff_false. apply not_iff_compat. unfold rg_runs_program. cbn zeta.
  rewrite orb_true_iff, is_one_of_spec, existsb_exists. setoid_rewrite <- list_elem_of_In.
  setoid_rewrite orb_true_iff. setoid_rewrite bool_decide_eq_true. by setoid_rewrite starts_with_spec.
Qed.

(** A command is read-only: none of its words names a cmdlet with side effects, and it
    is a reading cmdlet, a reading [git] command, or [rg] without options that run
    other programs. *)
Definition reads_only (words : list str) : Prop :=
  exists word0 args, words = word0 :: args
    /\ Forall (fun w => ~ bare_word w ∈ lit <$> SIDE_EFFECT_CMDLETS) words
    /\ (bare_word word0 ∈ lit <$> READ_ONLY_CMDLETS
        \/ bare_word word0 = lit "git" /\ win_is_safe_git_command words = true
        \/ bare_word word0 = lit "rg" /\ Forall (fun arg => ~ rg_runs_program arg) args).

Lemma is_safe_words_spec words : is_safe_powershell_words words = true <-> reads_only words.
Proof.
  unfold reads_only, is_safe_powershell_words. destruct words as [|w args]; [naive_solver|].
  assert (existsb (fun w => is_one_of SIDE_EFFECT_CMDLETS (bare_word w)) (w :: args) = false
          <-> Forall (fun w => ~ bare_word w ∈ lit <$> SIDE_EFFECT_CMDLETS) (w :: args)) as Hs.
  { rewrite existsb_false. apply Forall_iff; intros x. by rewrite <- not_true_iff_false, is_one_of_spec. }
  destruct (existsb _ _) eqn:E.
  - split; [done|]. intros (? & ? & [= <- <-] & ?%Hs & _). done.
  - split.
    + intros Ht. exists w, args. rewrite <- is_safe_ripgrep_spec with (word0 := w), <- is_one_of_spec.
      split_and!; [done|by apply Hs|]. destruct (is_one_of READ_ONLY_CMDLETS (bare_word w)); [by left|right].
      case_bool_decide; [by left|right]. by case_bool_decide.
    + intros (? & ? & [= <- <-] & _ & Hc). rewrite <- is_safe_ripgrep_spec with (word0 := w), <- is_one_of_spec in Hc.
      destruct (is_one_of READ_ONLY_CMDLETS (bare_word w)); [done|]. destruct Hc as [|[[-> ?]|[-> ?]]]; [done| |].
      * by rewrite bool_decide_eq_true_2.
      * rewrite bool_decide_eq_false_2 by (by vm_compute). by rewrite bool_decide_eq_true_2.
Qed.

Context (request_json_inj : forall q1 q2 j, request_json q1 = Some j -> request_json q2 = Some j -> q1 = q2).
Context (reply : str -> str -> str * option (list (list str))).

End approved.


(** * What is dangerous *)

(** ** Splitting *)

Lemma split_by_nonempty {A} (p : A -> bool) l : split_by p l <> [].
Proof. destruct l as [|x l]; cbn; [done|]. destruct (p x); [done|]. by destruct (split_by p l). Qed.

Lemma split_by_app {A} (p : A -> bool) (cur l : list A) :
  Forall (fun x => p x = false) cur ->
  split_by p (cur ++ l) = match split_by p l with s :: ss => (cur ++ s) :: ss | [] => [] end.
Proof.
  induction 1 as [|x cur Hx _ IH]; cbn.
  - by destruct (split_by p l).
  - rewrite Hx, IH. pose proof (split_by_nonempty p l). by destruct (split_by p l).
Qed.

Lemma split_by_sep {A} (p : A -> bool) (cur : list A) x l :
  Forall (fun y => p y = false) cur -> p x = true -> split_by p (cur ++ x :: l) = cur :: split_by p l.
Proof. intros Hc Hx. rewrite split_by_app by done. cbn. by rewrite Hx, app_nil_r. Qed.

Lemma split_by_none {A} (p : A -> bool) (l : list A) : Forall (fun y => p y = false) l -> split_by p l = [l].
Proof. intros Hl. rewrite <- (app_nil_r l), split_by_app by done. cbn. by rewrite !app_nil_r. Qed.

(** ** Embedded operators of [cmd] *)

Lemma cmd_parts_concat cur token : concat (cmd_parts cur token) = cur ++ token.
Proof.
  remember (length token) as n eqn:En. revert cur token En.
  induction n as [n IH] using lt_wf_ind; intros cur [|ch rest] ->; cbn [cmd_parts].
  { destruct cur; [done|]. cbn. by rewrite !app_nil_r. }
  assert (concat (if 0 <? length cur then [cur] else []) = cur) as Hp by (destruct cur; cbn; by rewrite ?app_nil_r).
  destruct (is_cmd_operator ch); [|rewrite (IH (length rest)) by (cbn; lia); by rewrite <- app_assoc].
  rewrite concat_app, Hp. f_equal. destruct rest as [|next rest]; [done|].
  case_bool_decide as E; [subst|]; cbn [concat app]; (erewrite IH; [done| |done]); cbn; lia.
Qed.

(** Every part is an operator or contains none. *)
Lemma cmd_parts_pure cur token :
  Forall (fun c => is_cmd_operator c = false) cur ->
  Forall (fun part => part ∈ lit <$> CMD_SEPARATORS \/ Forall (fun c => is_cmd_operator c = false) part) (cmd_parts cur token).
Proof.
  remember (length token) as n eqn:En. revert cur token En.
  induction n as [n IH] using lt_wf_ind; intros cur [|ch rest] -> Hc; cbn [cmd_parts].
  { destruct cur; cbn; by auto using List.Forall_cons. }
  destruct (is_cmd_operator ch) eqn:Eo.
  - apply Forall_app. split; [destruct cur; cbn; by auto using List.Forall_cons|].
    assert (ch = 38%N \/ ch = 124%N) as Hch by (apply orb_prop in Eo as [?%bool_decide_eq_true_1|?%bool_decide_eq_true_1]; auto).
    destruct rest as [|next rest]; [|case_bool_decide as E].
    + apply List.Forall_cons; [|constructor]. left. apply is_one_of_spec. by destruct Hch as [->| ->].
    + constructor; [|eapply IH; [|done|constructor]; cbn; lia]. left. subst. apply is_one_of_spec. by destruct Hch as [->| ->].
    + constructor; [|eapply IH; [|done|constructor]; cbn; lia]. left. apply is_one_of_spec. by destruct Hch as [->| ->].
  - eapply IH; [|done|]; [cbn; lia|]. apply Forall_app. by auto.
Qed.

(** ** Forced deletion *)

Inductive Item : Type := Word (s : str) | Sep.

Definition item_sep (i : Item) : bool := match i with Sep => true | Word _ => false end.
Definition item_word (i : Item) : option str := match i with Sep => None | Word s => Some s end.

Definition piece_items (piece : str) : list Item := if 0 <? length (trim piece) then [Word (trim piece)] else [].
Fixpoint pieces_items (pieces : list str) : list Item :=
  match pieces with
  | [] => []
  | [piece] => piece_items piece
  | piece :: pieces => piece_items piece ++ Sep :: pieces_items pieces
  end.

(** A token is read as words and separators. *)
Definition token_items (tok : str) : list Item := pieces_items (split_by (char_in SEG_SEPS) tok).

(** The words between separators, over all tokens. *)
Definition item_words (items : list Item) : list str := omap item_word items.
Definition command_segments (tokens : list str) : list (list str) :=
  item_words <$> split_by item_sep (concat (token_items <$> tokens)).

Definition seg_step (st : Segments) (i : Item) : Segments :=
  match i with Word s => (st.1, st.2 ++ [s]) | Sep => end_segment st end.

Lemma push_word_items st cur : push_word st cur = foldl seg_step st (piece_items cur).
Proof. unfold push_word, piece_items. by destruct (0 <? _). Qed.

Lemma pieces_items_cons piece pieces :
  pieces <> [] -> pieces_items (piece :: pieces) = piece_items piece ++ Sep :: pieces_items pieces.
Proof. by destruct pieces. Qed.

Lemma segment_chars_items st cur chars :
  Forall (fun c => char_in SEG_SEPS c = false) cur ->
  segment_chars st cur chars = foldl seg_step st (token_items (cur ++ chars)).
Proof.
  revert st cur. induction chars as [|ch chars IH]; intros st cur Hc; cbn [segment_chars]; unfold token_items.
  - rewrite app_nil_r, split_by_none by done. apply push_word_items.
  - destruct (char_in SEG_SEPS ch) eqn:Es.
    + rewrite split_by_sep by done. rewrite pieces_items_cons by apply split_by_nonempty.
      rewrite foldl_app. cbn [foldl seg_step]. rewrite <- push_word_items, IH by constructor. done.
    + rewrite IH by (apply Forall_app; auto). by rewrite <- app_assoc.
Qed.

(** The state after a stream of items holds the non-empty segments of the stream. *)
Lemma seg_step_pieces items :
  let '(done, last) := foldl seg_step ([], []) items in
  exists segs, split_by item_sep items = segs ++ [Word <$> last]
               /\ done = retain (fun s => 0 <? length s) (item_words <$> segs).
Proof.
  induction items as [|i items IH] using rev_ind; [by exists []|].
  rewrite foldl_app. destruct (foldl seg_step ([], []) items) as [dn la]. destruct IH as (segs & Hs & ->). cbn [foldl].
  assert (item_words (Word <$> la) = la) as Hom by (clear; induction la as [|x la IH]; [done|]; cbn; by f_equal).
  assert (forall l, split_by item_sep items = segs ++ [l] ->
     split_by item_sep (items ++ [i]) = match i with Word s => segs ++ [l ++ [Word s]] | Sep => segs ++ [l; []] end) as Happ.
  { clear. revert segs. induction items as [|x items IH]; intros segs l; cbn [split_by app].
    - intros E. destruct segs as [|? []]; [|done..]. injection E as <-. by destruct i.
    - destruct (item_sep x).
      + intros E. destruct segs as [|s segs]; [cbn in E; injection E as _ E; by apply split_by_nonempty in E|].
        injection E as <- E. rewrite (IH segs l E). by destruct i.
      + destruct (split_by item_sep items) as [|s ss] eqn:Es; [by apply split_by_nonempty in Es|].
        intros E. destruct segs as [|s' segs].
        * cbn in E. injection E as <- ->. rewrite (IH [] s eq_refl). by destruct i.
        * cbn in E. injection E as <- ->. rewrite (IH (s :: segs) l eq_refl). by destruct i. }
  specialize (Happ _ Hs). destruct i as [w|]; cbn [seg_step fst snd].
  - exists segs. by rewrite Happ, fmap_app.
  - unfold end_segment. cbn [fst snd]. destruct la as [|x la]; cbn [length Nat.ltb Nat.leb].
    + exists (segs ++ [[]]). rewrite Happ, <- app_assoc. split; [done|]. by rewrite fmap_app, retain_app, app_nil_r.
    + exists (segs ++ [Word <$> x :: la]). rewrite Happ, <- app_assoc. split; [done|].
      rewrite fmap_app, retain_app. change (item_words <$> [Word <$> x :: la]) with [item_words (Word <$> x :: la)].
      by rewrite Hom.
Qed.

Lemma segments_spec tokens seg : seg <> [] -> seg ∈ powershell_segments tokens <-> seg ∈ command_segments tokens.
Proof.
  intros Hne. unfold powershell_segments, command_segments.
  assert (foldl (fun st tok => segment_chars st [] tok) ([], []) tokens
          = foldl seg_step ([], []) (concat (token_items <$> tokens))) as ->.
  { generalize (@nil (list str), @nil str). induction tokens as [|tok tokens IH]; intros st; [done|].
    cbn [foldl fmap list_fmap concat]. by rewrite foldl_app, <- IH, segment_chars_items by constructor. }
  pose proof (seg_step_pieces (concat (token_items <$> tokens))) as Hs.
  destruct (foldl seg_step _ _) as [dn la]. destruct Hs as (segs & -> & ->).
  assert (item_words (Word <$> la) = la) as Hom by (clear; induction la as [|x la IH]; [done|]; cbn; by f_equal).
  rewrite fmap_app, !elem_of_app, elem_of_retain, Nat.ltb_lt.
  change (item_words <$> [Word <$> la]) with [item_words (Word <$> la)]. rewrite Hom.
  assert (0 < length seg) by (destruct seg; [done|cbn; lia]). naive_solver.
Qed.

Lemma is_delete_cmdlet_spec a : is_delete_cmdlet a = true <-> exists c, c ∈ DELETE_CMDLETS /\ to_ascii_lowercase a = to_ascii_lowercase (lit c).
Proof.
  unfold is_delete_cmdlet, eq_ignore_ascii_case. rewrite existsb_exists. setoid_rewrite <- list_elem_of_In.
  by setoid_rewrite bool_decide_eq_true.
Qed.

(** Deletion is flagged exactly when, in one of the commands that separators delimit, a
    deleting cmdlet and [-Force] occur, punctuation aside. *)
Theorem force_delete_spec tokens :
  has_force_delete_cmdlet tokens = true <->
  exists seg, seg ∈ command_segments tokens
    /\ (exists a, a ∈ soft_atoms seg /\ is_delete_cmdlet a = true)
    /\ (exists a, a ∈ soft_atoms seg /\ is_force_parameter a = true).
Proof.
  assert (forall A (p : A -> bool) l, existsb p l = true <-> exists x, x ∈ l /\ p x = true) as He.
  { intros. rewrite existsb_exists. by setoid_rewrite <- list_elem_of_In. }
  assert (forall seg, (exists a, a ∈ soft_atoms seg /\ is_delete_cmdlet a = true) -> seg <> []) as Hne.
  { intros seg (a & Ha & _) ->. by apply not_elem_of_nil in Ha. }
  unfold has_force_delete_cmdlet. rewrite He. split.
  - intros (seg & Hin & [Hd%He Hf%He]%andb_prop). exists seg. split_and!; [|done..]. by apply segments_spec; [apply Hne|].
  - intros (seg & Hin & Hd & Hf). exists seg. split; [by apply segments_spec; [apply Hne|]|].
    apply andb_true_intro. by split; apply He.
Qed.

(** Characters are never lost or invented between the pieces that decide. *)
Theorem cmd_operators_split token :
  concat (cmd_parts [] token) = token
  /\ Forall (fun part => part ∈ lit <$> CMD_SEPARATORS \/ Forall (fun c => is_cmd_operator c = false) part)
       (split_embedded_cmd_operators token).
Proof.
  split; [apply cmd_parts_concat|]. pose proof (cmd_parts_pure [] token ltac:(constructor)) as Hp. rewrite !Forall_forall in *.
  intros part [_ Hin]%elem_of_retain. auto.
Qed.

(** ** URLs *)

Lemma take_drop_while {A} (p : A -> bool) l :
  l = take_while p l ++ drop_while p l /\ Forall (fun x => p x = true) (take_while p l).
Proof.
  induction l as [|x l [IH1 IH2]]; [by split|]. cbn. destruct (p x) eqn:E; [|by split].
  split; [cbn; by f_equal|by constructor].
Qed.

Lemma take_while_app {A} (p : A -> bool) (a b : list A) :
  Forall (fun x => p x = true) a -> take_while p (a ++ b) = a ++ take_while p b.
Proof. induction 1 as [|x a Hx _ IH]; cbn; [done|]. by rewrite Hx, IH. Qed.

Lemma take_while_nil_drop {A} (p : A -> bool) l : take_while p l = [] -> drop_while p l = l.
Proof. destruct l as [|x l]; [done|]. cbn. by destruct (p x). Qed.

Definition url_parts (s a body b : str) : Prop :=
  s = a ++ body ++ b /\ body <> [] /\ Forall (fun c => url_open c = true) a
  /\ Forall (fun c => url_body c = true) body /\ Forall (fun c => url_close c = true) b.

Lemma open_body c : url_open c = true -> url_body c = true -> c = LPAREN.
Proof. unfold url_open, url_body. repeat case_bool_decide; destruct (is_whitespace c); naive_solver. Qed.

Lemma open_close c : url_open c = true -> url_close c = true -> is_whitespace c = true.
Proof. unfold url_open, url_close. repeat case_bool_decide; destruct (is_whitespace c); naive_solver. Qed.

Lemma whitespace_close c : is_whitespace c = true -> url_close c = true.
Proof. unfold url_close. by intros ->. Qed.

Lemma body_not_close c : url_body c = true -> url_close c = false.
Proof. unfold url_body, url_close. repeat case_bool_decide; destruct (is_whitespace c); naive_solver. Qed.

Lemma take_while_none {A} (p : A -> bool) l : Forall (fun x => p x = false) l -> take_while p l = [].
Proof. destruct 1 as [|x l Hx]; [done|]. cbn. by rewrite Hx. Qed.

Lemma take_while_parts {A} (p : A -> bool) (a b : list A) :
  Forall (fun x => p x = true) a -> Forall (fun x => p x = false) b -> take_while p (a ++ b) = a /\ drop_while p (a ++ b) = b.
Proof.
  intros Ha Hb. rewrite take_while_app, take_while_none, app_nil_r by done. split; [done|].
  rewrite drop_while_all by done. destruct Hb as [|x b Hx]; [done|]. cbn. by rewrite Hx.
Qed.

(** The captured part is a decomposition of the text as the regular expression asks,
    and there is one whenever one exists. *)
Lemma url_capture_Some s body : url_capture s = Some body -> exists a b, url_parts s a body b.
Proof.
  unfold url_capture, url_parts. destruct (take_drop_while url_open s) as [Es Ho].
  destruct (take_drop_while url_body (drop_while url_open s)) as [Er Hb].
  destruct (take_while url_body _) as [|c body'] eqn:Eb.
  - destruct (_ && _) eqn:E; [|done]. apply andb_prop in E as [El Hc]. apply bool_decide_eq_true_1 in El.
    intros [= <-]. apply list_last_split in El as [x Hx]. destruct (trim_end_split (take_while url_open s)) as (w & Ew & Hw).
    rewrite Hx in Ew. exists x, (w ++ drop_while url_open s). rewrite Ew in Es, Ho. split_and!.
    + rewrite Es at 1. by rewrite <- !app_assoc.
    + done.
    + by apply Forall_app in Ho as [[? _]%Forall_app _].
    + by repeat constructor.
    + apply Forall_app. split; [eapply Forall_impl; [done|apply whitespace_close]|].
      apply Forall_forall. intros y Hy. rewrite forallb_forall in Hc. by apply Hc, list_elem_of_In.
  - destruct (forallb url_close _) eqn:Hc; [|done]. intros [= <-].
    exists (take_while url_open s), (drop_while url_body (drop_while url_open s)). split_and!; [|done|done|done|].
    + rewrite Es at 1. f_equal. done.
    + apply Forall_forall. intros y Hy. rewrite forallb_forall in Hc. by apply Hc, list_elem_of_In.
Qed.

Lemma url_capture_None s a body b : url_capture s = None -> ~ url_parts s a body b.
Proof.
  unfold url_capture. intros Hn (-> & Hne & Ha & Hb & Hc).
  destruct (take_drop_while url_open body) as [Eb Hbo]. set (o := take_while url_open body) in *.
  rewrite Eb in Hb. apply Forall_app in Hb as [Hob Hrb].
  destruct (drop_while url_open body) as [|c r] eqn:Er.
  - destruct (take_drop_while url_open b) as [Ebb Hbw]. rewrite app_nil_r in Eb. rewrite Eb in Hn.
    assert (take_while url_open (a ++ o ++ b) = a ++ o ++ take_while url_open b) as Et by (by rewrite !take_while_app).
    assert (drop_while url_open (a ++ o ++ b) = drop_while url_open b) as Ed by (by rewrite !drop_while_all).
    rewrite Et, Ed in Hn. rewrite Ebb in Hc. apply Forall_app in Hc as [Hcw Hcr].
    rewrite take_while_none in Hn by (eapply Forall_impl; [exact Hcr|]; intros y Hy; destruct (url_body y) eqn:E; [|done];
      apply body_not_close in E; congruence).
    assert (forallb url_close (drop_while url_open b) = true) as Hf by (apply forallb_forall; intros y Hy%list_elem_of_In;
      rewrite Forall_forall in Hcr; auto).
    rewrite Hf, andb_true_r in Hn. apply Hne. rewrite Eb. destruct (list_snoc_inv o) as [|(o' & y & Eo)]; [done|]. exfalso.
    rewrite Eo in *. apply Forall_app in Hbo as [_ Hy1%Forall_singleton_1]. apply Forall_app in Hob as [_ Hy2%Forall_singleton_1].
    assert (y = LPAREN) as -> by (by apply open_body).
    rewrite !app_assoc, trim_end_ws, trim_end_snoc, last_snoc in Hn; [by rewrite bool_decide_eq_true_2 in Hn|done|].
    rewrite Forall_forall in *. intros y Hy. apply open_close; auto.
  - assert (url_open c = false) as Hco by (by eapply drop_while_head).
    assert (drop_while url_open (a ++ body ++ b) = (c :: r) ++ b) as Ed.
    { rewrite Eb, <- app_assoc, !drop_while_all by done. by apply drop_while_keep. }
    rewrite Ed in Hn.
    destruct (take_while_parts url_body (c :: r) b Hrb) as [E1 E2].
    { eapply Forall_impl; [exact Hc|]. intros y Hy. destruct (url_body y) eqn:E; [|done]. apply body_not_close in E. congruence. }
    rewrite E1, E2 in Hn. assert (forallb url_close b = true) as Hf by (apply forallb_forall; intros y Hy%list_elem_of_In;
      rewrite Forall_forall in Hc; auto). by rewrite Hf in Hn.
Qed.

(** ** The unit tests of the source *)

Definition w_scheme (candidate : str) : option str :=
  if starts_with (lit "https://") candidate then Some (lit "https") else None.
Definition w_dangerous (command : list string) : bool :=
  is_dangerous_command_windows (H := WVal_Shlex) w_scheme (lit <$> command).

Example dangerous_windows_tests :
  forallb w_dangerous
    [ ["powershell"; "-Command"; "Start-Process('https://example.com');"];
      ["cmd"; "/c"; "start"; "https://example.com"]; ["C:\Program Files\msedge.exe"; "https://example.com"];
      ["powershell"; "-Command"; "if ($true) { Remove-Item test -Force}"];
      ["powershell"; "-Command"; "Write-Host hi;Remove-Item -Force C:\tmp"]; ["powershell"; "-Command"; "del,-Force,C:\foo"];
      ["cmd"; "/c"; "echo hi&&del /f file.txt"]; ["cmd.exe"; "/r"; "DEL"; "/F"; "file.txt"];
      ["cmd"; "/c"; "echo"; "hello"; "&"; "del"; "/f"; "file.txt"] ] = true
  /\ existsb w_dangerous
    [ ["powershell"; "-Command"; "Start-Process notepad.exe"]; ["explorer.exe"; "."]; ["cmd"; "/c"; "rd"; "/s"; "test"];
      ["cmd"; "/c"; "del"; "C:/foo/bar.txt"]; ["cmd"; "/c"; "echo"; "del"; "/f"];
      ["powershell"; "-Command"; "Get-ChildItem -Force; Remove-Item test"] ] = false.
Proof. split; by vm_compute. Qed.
