(* ===== verification/ParseCommand.v ===== *)
(** [shell-command/src/parse_command.rs]: the summary of a command that is shown to the
    user while it runs or waits for approval, as built on Linux and macOS.

    The Bash parser is that of [BashParse], [shlex] the class of [PolicyParser].  The path
    of a file that is read is kept as text; two paths are equal when their components
    are, as for [PathBuf]. *)

From stdpp Require Import base list option numbers strings sets.
From Stdlib Require Import NArith Lia.
From S2P Require Import Prelude RustStr AbsolutePath ExecRule BashParse CommandSafety PolicyParser PowerShell.
Local Open Scope rust_scope.

(** * Data ([protocol/src/parse_command.rs]) *)

Inductive ParsedCommand : Type :=
| Read (cmd name path : str)
| ListFiles (cmd : str) (path : option str)
| Search (cmd : str) (query path : option str)
| Unknown (cmd : str).

(** The derived equality. *)
Definition parsed_eqb (a b : ParsedCommand) : bool :=
  match a, b with
  | Read c n p, Read c' n' p' => (c == c') && (n == n') && (components p == components p')
  | ListFiles c p, ListFiles c' p' => (c == c') && (p == p')
  | Search c q p, Search c' q' p' => (c == c') && (q == q') && (p == p')
  | Unknown c, Unknown c' => c == c'
  | _, _ => false
  end.

Definition is_unknown (p : ParsedCommand) : bool := match p with Unknown _ => true | _ => false end.

(** * Tokens *)

Definition is_connector (t : str) : bool := is_one_of ["&&"; "||"; "|"; ";"] t.
Definition is_flag (t : str) : bool := starts_with [DASH] t.

Definition contains_connectors (tokens : list str) : bool := existsb is_connector tokens.

(** The loop of [split_on_connectors], with the current part. *)
Fixpoint split_connectors (cur tokens : list str) : list (list str) :=
  match tokens with
  | [] => if 0 <? length cur then [cur] else []
  | t :: tokens =>
      if is_connector t then
        if 0 <? length cur then cur :: split_connectors [] tokens else split_connectors cur tokens
      else split_connectors (cur ++ [t]) tokens
  end.
Definition split_on_connectors (tokens : list str) : list (list str) := split_connectors [] tokens.

Definition trim_at_connector (tokens : list str) : list str := take_while (fun t => negb (is_connector t)) tokens.

(** [is_valid_sed_n_arg], the same function as in [is_safe_command.rs]. *)
Definition sed_range_arg (arg : option str) : bool := CommandSafety.is_valid_sed_n_arg arg.

(** [str::replace] of one character by another. *)
Definition replace_char (a b : char) (s : str) : str := (fun c => if c == a then b else c) <$> s.

Definition short_display_path (path : str) : str :=
  let trimmed := trim_end_matches SLASH (replace_char 92%N SLASH path) in
  match retain (fun p => negb ((p == []) || is_one_of ["build"; "dist"; "node_modules"; "src"] p))
          (reverse (split_on SLASH trimmed)) with
  | p :: _ => p
  | [] => trimmed
  end.

Definition inline_flag (a : str) : bool := starts_with (lit "--") a && contains_char 61%N a.

(** The loop of [skip_flag_values]. *)
Fixpoint skip_flag_values (flags_with_vals : list string) (args : list str) : list str :=
  match args with
  | [] => []
  | a :: args =>
      if a == lit "--" then args
      else if inline_flag a then skip_flag_values flags_with_vals args
      else if is_one_of flags_with_vals a then
        match args with [] => [] | _ :: args => skip_flag_values flags_with_vals args end
      else a :: skip_flag_values flags_with_vals args
  end.

(** The loop of [positional_operands]; after [--] every argument is an operand. *)
Fixpoint positional_operands (flags_with_vals : list string) (args : list str) : list str :=
  match args with
  | [] => []
  | a :: args =>
      if a == lit "--" then args
      else if inline_flag a then positional_operands flags_with_vals args
      else if is_one_of flags_with_vals a then
        match args with [] => [] | _ :: args => positional_operands flags_with_vals args end
      else if is_flag a then positional_operands flags_with_vals args
      else a :: positional_operands flags_with_vals args
  end.

Definition first_non_flag_operand (args : list str) (flags_with_vals : list string) : option str :=
  head (positional_operands flags_with_vals args).

Definition single_non_flag_operand (args : list str) (flags_with_vals : list string) : option str :=
  match positional_operands flags_with_vals args with [only] => Some only | _ => None end.

Definition non_flag_candidates (flags_with_vals : list string) (args : list str) : list str :=
  retain (fun a => negb (is_flag a)) (skip_flag_values flags_with_vals args).

(** * Programs *)

(** The first loop of [sed_read_path]: a range script given with [-e]. *)
Fixpoint sed_expression_range (args : list str) : bool :=
  match args with
  | [] => false
  | arg :: args' =>
      if is_one_of ["-e"; "--expression"] arg then
        match args' with
        | [] => false
        | script :: rest => sed_range_arg (Some script) || sed_expression_range rest
        end
      else if is_one_of ["-f"; "--file"] arg then
        match args' with [] => false | _ :: rest => sed_expression_range rest end
      else sed_expression_range args'
  end.

Definition sed_read_path (args : list str) : option str :=
  let args := trim_at_connector args in
  if negb (contains args (lit "-n")) then None
  else if negb (sed_expression_range args
                || existsb (fun arg => negb (is_flag arg) && sed_range_arg (Some arg)) args) then None
  else
    match non_flag_candidates ["-e"; "-f"; "--expression"; "--file"] args with
    | [] => None
    | first :: rest => if sed_range_arg (Some first) then head rest else Some first
    end.

Definition normalize_tokens `{Shlex} (cmd : list str) : list str :=
  match cmd with
  | first :: pipe :: rest =>
      if is_one_of ["yes"; "y"; "no"; "n"] first && (pipe == lit "|") then rest
      else match rest with
           | [script] =>
               if is_one_of ["bash"; "zsh"] first && is_one_of ["-c"; "-lc"] pipe
               then default cmd (shlex_split script) else cmd
           | _ => cmd
           end
  | _ => cmd
  end.

Definition awk_data_file_operand (args : list str) : option str :=
  match args with
  | [] => None
  | _ =>
      let args := trim_at_connector args in
      let non_flags := non_flag_candidates ["-F"; "-v"; "-f"; "--field-separator"; "--assign"; "--file"] args in
      if existsb (is_one_of ["-f"; "--file"]) args then head non_flags else non_flags !! 1
  end.

Definition walks_files (script : str) : bool :=
  existsb (fun p => contains_str (lit p) script)
    ["os.walk"; "os.listdir"; "os.scandir"; "glob.glob"; "glob.iglob"; "pathlib.Path"; ".rglob("].

(** The loop of [python_walks_files]. *)
Fixpoint python_script_walks (args : list str) : bool :=
  match args with
  | [] => false
  | arg :: args' =>
      if arg == lit "-c" then match args' with script :: _ => walks_files script | [] => false end
      else python_script_walks args'
  end.
Definition python_walks_files (args : list str) : bool := python_script_walks (trim_at_connector args).

Definition is_python_command (cmd : str) : bool :=
  is_one_of ["python"; "python2"; "python3"] cmd || starts_with (lit "python2.") cmd || starts_with (lit "python3.") cmd.

(** The loop of [cd_target]: the last operand, or the argument after [--]. *)
Fixpoint cd_loop (target : option str) (args : list str) : option str :=
  match args with
  | [] => target
  | arg :: args =>
      if arg == lit "--" then head args
      else if is_flag arg then cd_loop target args
      else cd_loop (Some arg) args
  end.
Definition cd_target (args : list str) : option str := cd_loop None args.

Definition is_pathish (s : str) : bool :=
  is_one_of ["."; ".."] s || starts_with (lit "./") s || starts_with (lit "../") s
  || contains_char SLASH s || contains_char 92%N s.

Definition parse_fd_query_and_path (tail : list str) : option str * option str :=
  match non_flag_candidates ["-t"; "--type"; "-e"; "--extension"; "-E"; "--exclude"; "--search-path"] (trim_at_connector tail) with
  | [one] => if is_pathish one then (None, Some (short_display_path one)) else (Some one, None)
  | q :: p :: _ => (Some q, Some (short_display_path p))
  | [] => (None, None)
  end.

(** The second loop of [parse_find_query_and_path]: stops at the first name filter. *)
Fixpoint find_query (args : list str) : option str :=
  match args with
  | [] => None
  | a :: args => if is_one_of ["-name"; "-iname"; "-path"; "-regex"] a then head args else find_query args
  end.

Definition parse_find_query_and_path (tail : list str) : option str * option str :=
  let args := trim_at_connector tail in
  let root := head (retain (fun a => negb (is_flag a || is_one_of ["!"; "("; ")"] a)) args) in
  (find_query args, short_display_path <$> root).

Definition is_abs_like (path : str) : bool :=
  starts_with [SLASH] path
  || match path with
     | d :: c :: e :: _ => (in_range 65 90 d || in_range 97 122 d) && (c == 58%N) && (e == 92%N)
     | _ => false
     end
  || starts_with [92%N; 92%N] path.

(** [PathBuf::push] of a path that is not absolute. *)
Definition join_paths (base rel : str) : str :=
  if is_abs_like rel then rel
  else match base with
       | [] => rel
       | _ => base ++ (if ends_with [SLASH] base then [] else [SLASH]) ++ rel
       end.

Section summaries.
Context `{Shlex}.

Definition shlex_join (tokens : list str) : str := default (lit "<command included NUL byte>") (try_join tokens).

(** The loop of [parse_grep_like]: the pattern given by an option, and the operands. *)
Fixpoint grep_loop (pattern : option str) (operands args : list str) : option str * list str :=
  match args with
  | [] => (pattern, operands)
  | arg :: args' =>
      if arg == lit "--" then (pattern, operands ++ args')
      else if is_one_of ["-e"; "--regexp"; "-f"; "--file"] arg then
        match args' with
        | [] => (pattern, operands)
        | pat :: rest => grep_loop (match pattern with None => Some pat | Some _ => pattern end) operands rest
        end
      else if is_one_of ["-m"; "--max-count"; "-C"; "--context"; "-A"; "--after-context"; "-B"; "--before-context"] arg then
        match args' with [] => (pattern, operands) | _ :: rest => grep_loop pattern operands rest end
      else if is_flag arg then grep_loop pattern operands args'
      else grep_loop pattern (operands ++ [arg]) args'
  end.

Definition parse_grep_like (main_cmd args : list str) : ParsedCommand :=
  let '(pattern, operands) := grep_loop None [] (trim_at_connector args) in
  let query := match pattern with Some p => Some p | None => head operands end in
  let path_index := if is_some pattern then 0 else 1 in
  Search (shlex_join main_cmd) query (short_display_path <$> operands !! path_index).

(** [xargs]: the command it runs. *)
Fixpoint xargs_loop (args : list str) : option (list str) :=
  match args with
  | [] => None
  | token :: args' =>
      if token == lit "--" then match args' with [] => None | _ => Some args' end
      else if negb (is_flag token) then Some args
      else if is_one_of ["-E"; "-e"; "-I"; "-L"; "-n"; "-P"; "-s"] token then
        match args' with [] => None | _ :: rest => xargs_loop rest end
      else xargs_loop args'
  end.
Definition xargs_subcommand (tokens : list str) : option (list str) :=
  match tokens with
  | head :: args => if head == lit "xargs" then xargs_loop args else None
  | [] => None
  end.

Definition xargs_has_in_place_flag (tokens : list str) : bool :=
  existsb (fun t => starts_with (lit "-i") t || starts_with (lit "-pi") t) tokens.

Definition xargs_is_mutating_subcommand (tokens : list str) : bool :=
  match tokens with
  | [] => false
  | head :: tail =>
      if is_one_of ["perl"; "ruby"] head then xargs_has_in_place_flag tail
      else if head == lit "sed" then xargs_has_in_place_flag tail || contains tail (lit "--in-place")
      else if head == lit "rg" then contains tail (lit "--replace")
      else false
  end.

Definition is_mutating_xargs_command (tokens : list str) : bool :=
  is_some_and xargs_is_mutating_subcommand (xargs_subcommand tokens).

Definition plus_digits (count : str) : bool :=
  all_digits count || is_some_and all_digits (strip_prefix (lit "+") count).

Definition is_small_formatting_command (tokens : list str) : bool :=
  match tokens with
  | [] => false
  | cmd :: args =>
      if is_one_of ["wc"; "tr"; "cut"; "sort"; "uniq"; "tee"; "column"; "yes"; "printf"] cmd then true
      else if cmd == lit "xargs" then negb (is_mutating_xargs_command tokens)
      else if cmd == lit "awk" then negb (is_some (awk_data_file_operand args))
      else if cmd == lit "head" then
        match args with
        | [] => true
        | [arg] => is_flag arg
        | [flag; count] => is_one_of ["-n"; "-c"] flag && all_digits count
        | _ => false
        end
      else if cmd == lit "tail" then
        match args with
        | [] => true
        | [arg] => is_flag arg
        | [flag; count] => is_one_of ["-n"; "-c"] flag && plus_digits count
        | _ => false
        end
      else if cmd == lit "sed" then negb (is_some (sed_read_path args))
      else false
  end.

Definition drop_small_formatting_commands (commands : list (list str)) : list (list str) :=
  retain (fun tokens => negb (is_small_formatting_command tokens)) commands.

(** A command that reads a file, if one was found. *)
Definition read_or_unknown (main_cmd : list str) (path : option str) : ParsedCommand :=
  match path with
  | Some path => Read (shlex_join main_cmd) (short_display_path path) path
  | None => Unknown (shlex_join main_cmd)
  end.

Definition list_files (main_cmd : list str) (path : option str) : ParsedCommand :=
  ListFiles (shlex_join main_cmd) (short_display_path <$> path).

(** A search if there is something to look for, a listing otherwise. *)
Definition search_or_list (main_cmd : list str) (query_path : option str * option str) : ParsedCommand :=
  let '(query, path) := query_path in
  if is_some query then Search (shlex_join main_cmd) query path else ListFiles (shlex_join main_cmd) path.

Definition search_operands (main_cmd non_flags : list str) : ParsedCommand :=
  Search (shlex_join main_cmd) (head non_flags) (short_display_path <$> non_flags !! 1).

Definition head_count (n : str) : bool := all_digits n.
Definition tail_count (n : str) : bool :=
  let s := default n (strip_prefix (lit "+") n) in nonempty s && all_digits s.

(** The file of [head] and [tail], with a line count that satisfies [count]. *)
Definition head_tail_path (count : str -> bool) (tail : list str) : option str :=
  let first_operand candidates := head (retain (fun p => negb (is_flag p)) candidates) in
  let counted :=
    match tail with
    | first :: rest =>
        if first == lit "-n" then
          match rest with
          | n :: rest => if count n then first_operand rest else None
          | [] => None
          end
        else match strip_prefix (lit "-n") first with
             | Some n => if count n then first_operand tail else None
             | None => None
             end
    | [] => None
    end in
  match counted with
  | Some path => Some path
  | None => match tail with [path] => if is_flag path then None else Some path | _ => None end
  end.

Definition LS_FLAGS := ["-I"; "-w"; "--block-size"; "--format"; "--time-style"; "--color"; "--quoting-style"].
Definition EZA_FLAGS := ["-I"; "--ignore-glob"; "--color"; "--sort"; "--time-style"; "--time"].
Definition TREE_FLAGS := ["-L"; "-P"; "-I"; "--charset"; "--filelimit"; "--sort"].
Definition DU_FLAGS := ["-d"; "--max-depth"; "-B"; "--block-size"; "--exclude"; "--time-style"].
Definition RG_FLAGS := ["-g"; "--glob"; "--iglob"; "-t"; "--type"; "--type-add"; "--type-not"; "-m"; "--max-count";
                        "-A"; "-B"; "-C"; "--context"; "--max-depth"].
Definition AG_FLAGS := ["-G"; "-g"; "--file-search-regex"; "--ignore-dir"; "--ignore-file"; "--path-to-ignore"].
Definition BAT_FLAGS := ["--theme"; "--language"; "--style"; "--terminal-width"; "--tabs"; "--line-range"; "--map-syntax"].
Definition LESS_FLAGS := ["-p"; "-P"; "-x"; "-y"; "-z"; "-j"; "--pattern"; "--prompt"; "--tabs"; "--shift"; "--jump-target"].

Definition summarize_main_tokens (main_cmd : list str) : ParsedCommand :=
  match main_cmd with
  | [] => Unknown (shlex_join main_cmd)
  | head :: tail =>
      if head == lit "ls" then list_files main_cmd (first_non_flag_operand tail LS_FLAGS)
      else if is_one_of ["eza"; "exa"] head then list_files main_cmd (first_non_flag_operand tail EZA_FLAGS)
      else if head == lit "tree" then list_files main_cmd (first_non_flag_operand tail TREE_FLAGS)
      else if head == lit "du" then list_files main_cmd (first_non_flag_operand tail DU_FLAGS)
      else if is_one_of ["rg"; "rga"; "ripgrep-all"] head then
        let args := trim_at_connector tail in
        let non_flags := non_flag_candidates RG_FLAGS args in
        if contains args (lit "--files") then list_files main_cmd (list.head non_flags)
        else search_operands main_cmd non_flags
      else if head == lit "git" then
        match tail with
        | subcmd :: sub_tail =>
            if subcmd == lit "grep" then parse_grep_like main_cmd sub_tail
            else if subcmd == lit "ls-files" then
              list_files main_cmd (first_non_flag_operand sub_tail ["--exclude"; "--exclude-from"; "--pathspec-from-file"])
            else Unknown (shlex_join main_cmd)
        | [] => Unknown (shlex_join main_cmd)
        end
      else if head == lit "fd" then search_or_list main_cmd (parse_fd_query_and_path tail)
      else if head == lit "find" then search_or_list main_cmd (parse_find_query_and_path tail)
      else if is_one_of ["grep"; "egrep"; "fgrep"] head then parse_grep_like main_cmd tail
      else if is_one_of ["ag"; "ack"; "pt"] head then
        search_operands main_cmd (non_flag_candidates AG_FLAGS (trim_at_connector tail))
      else if head == lit "cat" then read_or_unknown main_cmd (single_non_flag_operand tail [])
      else if is_one_of ["bat"; "batcat"] head then read_or_unknown main_cmd (single_non_flag_operand tail BAT_FLAGS)
      else if head == lit "less" then read_or_unknown main_cmd (single_non_flag_operand tail LESS_FLAGS)
      else if head == lit "more" then read_or_unknown main_cmd (single_non_flag_operand tail [])
      else if head == lit "head" then read_or_unknown main_cmd (head_tail_path head_count tail)
      else if head == lit "tail" then read_or_unknown main_cmd (head_tail_path tail_count tail)
      else if head == lit "awk" then read_or_unknown main_cmd (awk_data_file_operand tail)
      else if head == lit "nl" then
        read_or_unknown main_cmd (list.head (non_flag_candidates ["-s"; "-w"; "-v"; "-i"; "-b"] tail))
      else if head == lit "sed" then read_or_unknown main_cmd (sed_read_path tail)
      else if is_python_command head then
        if python_walks_files tail then ListFiles (shlex_join main_cmd) None else Unknown (shlex_join main_cmd)
      else Unknown (shlex_join main_cmd)
  end.
End summaries.

(** * The summary *)

(** [slice::iter().position] and the removal of the element found. *)
Fixpoint iter_position {A} (p : A -> bool) (l : list A) : option nat :=
  match l with
  | [] => None
  | x :: l => if p x then Some 0 else S <$> iter_position p l
  end.
Definition remove_at {A} (idx : nat) (l : list A) : list A := take idx l ++ drop (S idx) l.

Section parse.
Context `{Shlex} (try_parse_shell : str -> option Tree).

Definition unknown_starts (word : string) (pc : ParsedCommand) : bool :=
  match pc with
  | Unknown cmd => is_some_and (fun t => head t == Some (lit word)) (shlex_split cmd)
  | _ => false
  end.
Definition unknown_true (pc : ParsedCommand) : bool := match pc with Unknown cmd => cmd == lit "true" | _ => false end.
Definition unknown_nl (pc : ParsedCommand) : bool :=
  match pc with
  | Unknown cmd =>
      is_some_and (fun t => (head t == Some (lit "nl")) && forallb is_flag (drop 1 t)) (shlex_split cmd)
  | _ => false
  end.

Definition simplify_once (commands : list ParsedCommand) : option (list ParsedCommand) :=
  if length commands <=? 1 then None
  else if is_some_and (unknown_starts "echo") (head commands) then Some (drop 1 commands)
  else match iter_position (unknown_starts "cd") commands with
       | Some idx =>
           if idx + 1 <? length commands then Some (remove_at idx commands)
           else match iter_position unknown_true commands with
                | Some idx => Some (remove_at idx commands)
                | None => (fun idx => remove_at idx commands) <$> iter_position unknown_nl commands
                end
       | None =>
           match iter_position unknown_true commands with
           | Some idx => Some (remove_at idx commands)
           | None => (fun idx => remove_at idx commands) <$> iter_position unknown_nl commands
           end
       end.

(** [while let Some(next) = simplify_once(&commands)]. *)
Fixpoint simplify_fuel (fuel : nat) (commands : list ParsedCommand) : list ParsedCommand :=
  match fuel with
  | 0 => commands
  | S fuel => match simplify_once commands with Some next => simplify_fuel fuel next | None => commands end
  end.
Definition simplify (commands : list ParsedCommand) : list ParsedCommand := simplify_fuel (length commands) commands.

(** The working directory after a [cd]. *)
Definition change_directory (cwd : option str) (args : list str) : option str :=
  match cd_target args with
  | Some dir => Some (match cwd with Some base => join_paths base dir | None => dir end)
  | None => cwd
  end.

Definition resolve_read (cwd : option str) (parsed : ParsedCommand) : ParsedCommand :=
  match parsed, cwd with
  | Read cmd name path, Some base => Read cmd name (join_paths base path)
  | _, _ => parsed
  end.

(** The loop over the commands of a script, which tracks [cd]. *)
Fixpoint summarize_commands (cwd : option str) (commands : list (list str)) : list ParsedCommand :=
  match commands with
  | [] => []
  | tokens :: commands =>
      match tokens with
      | hd :: tail =>
          if hd == lit "cd" then summarize_commands (change_directory cwd tail) commands
          else resolve_read cwd (summarize_main_tokens tokens) :: summarize_commands cwd commands
      | [] => resolve_read cwd (summarize_main_tokens tokens) :: summarize_commands cwd commands
      end
  end.

Definition has_sed_n (tokens : list str) : bool :=
  existsb (fun w => (w.1 == lit "sed") && (w.2 == lit "-n")) (zip tokens (drop 1 tokens)).

(** A single command of a script is shown with the whole script, or with its own text
    when the script has connectors. *)
Definition attribute_script (script : str) (script_tokens : list str) (had_connectors : bool) (pc : ParsedCommand) : ParsedCommand :=
  match pc with
  | Read cmd name path =>
      if had_connectors then
        if contains script_tokens (lit "|") && has_sed_n script_tokens then Read script name path else pc
      else Read (shlex_join script_tokens) name path
  | ListFiles cmd path => if had_connectors then pc else ListFiles (shlex_join script_tokens) path
  | Search cmd query path => if had_connectors then pc else Search (shlex_join script_tokens) query path
  | Unknown _ => pc
  end.

Definition parse_shell_script (script : str) : list ParsedCommand :=
  match parse_shell_script_into_commands try_parse_shell script with
  | None | Some [] => [Unknown script]
  | Some all_commands =>
      let script_tokens := default [script] (shlex_split script) in
      let had_multiple_commands := 1 <? length all_commands in
      match drop_small_formatting_commands all_commands with
      | [] => [Unknown script]
      | filtered_commands =>
          let commands := summarize_commands None filtered_commands in
          let commands :=
            if 1 <? length commands
            then simplify (retain (fun pc => negb (unknown_true pc)) commands)
            else commands in
          match commands with
          | [pc] =>
              let had_connectors := had_multiple_commands || existsb is_connector script_tokens in
              [attribute_script script script_tokens had_connectors pc]
          | _ => commands
          end
      end
  end.

Definition parse_shell_lc_commands (original : list str) : option (list ParsedCommand) :=
  match extract_bash_command original with
  | Some (_, script) => Some (parse_shell_script script)
  | None => None
  end.

Definition parse_command_impl (command : list str) : list ParsedCommand :=
  match parse_shell_lc_commands command with
  | Some commands => commands
  | None =>
      match extract_powershell_command command with
      | Some (_, script) => [Unknown script]
      | None =>
          let normalized := normalize_tokens command in
          let parts := if contains_connectors normalized then split_on_connectors normalized else [normalized] in
          simplify (summarize_commands None parts)
      end
  end.

Definition extract_shell_command (command : list str) : option (str * str) :=
  match extract_bash_command command with
  | Some r => Some r
  | None => extract_powershell_command command
  end.

Definition single_unknown_for_command (command : list str) : ParsedCommand :=
  match extract_shell_command command with
  | Some (_, shell_command) => Unknown shell_command
  | None => Unknown (shlex_join command)
  end.

(** Consecutive duplicates are collapsed. *)
Definition push_deduped (deduped : list ParsedCommand) (cmd : ParsedCommand) : list ParsedCommand :=
  if is_some_and (fun prev => parsed_eqb prev cmd) (last deduped) then deduped else deduped ++ [cmd].

Definition parse_command (command : list str) : list ParsedCommand :=
  let deduped := foldl push_deduped [] (parse_command_impl command) in
  if existsb is_unknown deduped then [single_unknown_for_command command] else deduped.
End parse.

(** * Simplification *)

Lemma iter_position_Some {A} (p : A -> bool) l i : iter_position p l = Some i -> exists x, l !! i = Some x /\ p x = true.
Proof.
  revert i. induction l as [|x l IH]; intros i; cbn; [done|]. destruct (p x) eqn:E; [intros [= <-]; eauto|].
  intros (j & Hj & ->)%fmap_Some. apply IH in Hj. by cbn.
Qed.

Lemma remove_at_length {A} i (l : list A) : i < length l -> S (length (remove_at i l)) = length l.
Proof. intros. unfold remove_at. rewrite length_app, length_take, length_drop. lia. Qed.

Lemma remove_at_elem {A} i (l : list A) x y : l !! i = Some y -> x ∈ l <-> x = y \/ x ∈ remove_at i l.
Proof.
  intros Hl. unfold remove_at. rewrite <- (take_drop_middle l i y Hl) at 1. rewrite !elem_of_app, elem_of_cons. tauto.
Qed.

Section simplify.
Context `{Shlex}.

(** What simplification may drop: an unknown command that prints, changes directory, does
    nothing or numbers lines. *)
Definition droppable (pc : ParsedCommand) : bool :=
  unknown_starts "echo" pc || unknown_starts "cd" pc || unknown_true pc || unknown_nl pc.

Lemma simplify_once_spec l l' :
  simplify_once l = Some l' -> exists i pc, l !! i = Some pc /\ droppable pc = true /\ l' = remove_at i l.
Proof.
  unfold simplify_once, droppable. destruct (length l <=? 1); [done|].
  destruct (is_some_and _ (head l)) eqn:Eh.
  { intros [= <-]. destruct l as [|x l]; [done|]. cbn in Eh. exists 0, x. rewrite Eh. split_and!; [done..|]. by destruct l. }
  assert (forall r, match iter_position unknown_true l with
            | Some idx => Some (remove_at idx l)
            | None => (fun idx => remove_at idx l) <$> iter_position unknown_nl l
            end = Some r -> exists i pc, l !! i = Some pc /\ droppable pc = true /\ r = remove_at i l) as Hrest.
  { intros r. unfold droppable. destruct (iter_position unknown_true l) as [i|] eqn:E.
    - intros [= <-]. apply iter_position_Some in E as (x & ? & Hx). exists i, x. by rewrite Hx, !orb_true_r.
    - intros (i & E' & ->)%fmap_Some. apply iter_position_Some in E' as (x & ? & Hx). exists i, x. by rewrite Hx, !orb_true_r. }
  destruct (iter_position (unknown_starts "cd") l) as [i|] eqn:Ec; [|apply Hrest].
  destruct (i + 1 <? length l); [|apply Hrest]. intros [= <-].
  apply iter_position_Some in Ec as (x & ? & Hx). exists i, x. by rewrite Hx, !orb_true_r.
Qed.

Lemma simplify_once_length l l' : simplify_once l = Some l' -> S (length l') = length l.
Proof. intros (i & pc & Hl & _ & ->)%simplify_once_spec. by eapply remove_at_length, lookup_lt_Some. Qed.

(** The loop ends: its result cannot be simplified further. *)
Theorem simplify_terminates l : simplify_once (simplify l) = None.
Proof.
  unfold simplify. enough (forall n l, length l <= n -> simplify_once (simplify_fuel n l) = None) by eauto.
  intros n. induction n as [|n IH]; intros l' Hn; cbn [simplify_fuel].
  - unfold simplify_once. by rewrite (proj2 (Nat.leb_le _ _)) by lia.
  - destruct (simplify_once l') as [next|] eqn:E; [|done]. apply simplify_once_length in E. apply IH. lia.
Qed.

(** Only droppable commands are lost, and none is invented. *)
Lemma simplify_elem l pc : (pc ∈ simplify l -> pc ∈ l) /\ (pc ∈ l -> pc ∈ simplify l \/ droppable pc = true).
Proof.
  unfold simplify. generalize (length l). intros n. revert l. induction n as [|n IH]; intros l; cbn [simplify_fuel]; [auto|].
  destruct (simplify_once l) as [next|] eqn:E; [|auto]. apply simplify_once_spec in E as (i & x & Hl & Hx & ->).
  rewrite (remove_at_elem i l pc x Hl). destruct (IH (remove_at i l)) as [IH1 IH2]. split; [auto|].
  intros [->|Hin]; auto.
Qed.
End simplify.

(** * Working directories *)

Section directories.
Context `{Shlex}.

(** The directory in which the command after [commands] runs. *)
Definition cwd_step (cwd : option str) (tokens : list str) : option str :=
  match tokens with hd :: tail => if hd == lit "cd" then change_directory cwd tail else cwd | [] => cwd end.
Definition cwd_after (commands : list (list str)) : option str := foldl cwd_step None commands.

Definition is_cd (tokens : list str) : bool := is_some_and (fun hd => hd == lit "cd") (head tokens).

Lemma summarize_commands_app cwd pre post :
  summarize_commands cwd (pre ++ post)
  = summarize_commands cwd pre ++ summarize_commands (foldl cwd_step cwd pre) post.
Proof.
  revert cwd. induction pre as [|tokens pre IH]; intros cwd; [done|]. cbn [app summarize_commands foldl].
  destruct tokens as [|hd tail]; cbn [cwd_step]; [by rewrite IH|]. case_bool_decide; rewrite IH; [done|]. done.
Qed.

Lemma summarize_commands_elem cwd pre tokens post :
  is_cd tokens = false ->
  resolve_read (foldl cwd_step cwd pre) (summarize_main_tokens tokens) ∈ summarize_commands cwd (pre ++ tokens :: post).
Proof.
  intros Hc. rewrite summarize_commands_app, elem_of_app. right. cbn [summarize_commands].
  destruct tokens as [|hd tail]; [by left|].
  change ((hd == lit "cd") = false) in Hc. rewrite Hc. by left.
Qed.
End directories.

(** * What a summary shows *)

(** [pc] shows what the command does in directory [cwd], whatever text goes with it. *)
Definition same_summary (a b : ParsedCommand) : Prop :=
  match a, b with
  | Read _ n p, Read _ n' p' => n = n' /\ components p = components p'
  | ListFiles _ p, ListFiles _ p' => p = p'
  | Search _ q p, Search _ q' p' => q = q' /\ p = p'
  | _, _ => False
  end.

Definition shows `{Shlex} (cwd : option str) (tokens : list str) (pc : ParsedCommand) : Prop :=
  same_summary (resolve_read cwd (summarize_main_tokens tokens)) pc.

(** ** Formatting helpers

    What a summary may leave out is described without the code's test: filters of
    their standard input, [xargs] unless it runs an editor in place, [awk], [head]
    and [tail] without a file, and [sed] unless it prints a range of a file. *)

Definition dashed (a : str) : Prop := exists rest, a = DASH :: rest.
Definition digits (s : str) : Prop := Forall (fun c => 48 <= c <= 57)%N s.

Definition xargs_value_option (o : str) : Prop := o ∈ lit <$> ["-E"; "-e"; "-I"; "-L"; "-n"; "-P"; "-s"].

(** [xargs_runs args sub]: [xargs] with these arguments runs the command [sub]. *)
Inductive xargs_runs : list str -> list str -> Prop :=
| runs_command cmd args : ~ dashed cmd -> xargs_runs (cmd :: args) (cmd :: args)
| runs_after_dashes cmd args : xargs_runs (lit "--" :: cmd :: args) (cmd :: args)
| runs_value_option o v args sub : xargs_value_option o -> xargs_runs args sub -> xargs_runs (o :: v :: args) sub
| runs_option o args sub :
    dashed o -> o <> lit "--" -> ~ xargs_value_option o -> xargs_runs args sub -> xargs_runs (o :: args) sub.

(** An editor told to write its files. *)
Inductive edits_in_place : list str -> Prop :=
| edits_inplace_flag p args flag rest :
    p ∈ lit <$> ["perl"; "ruby"; "sed"] -> flag ∈ args -> flag = lit "-i" ++ rest \/ flag = lit "-pi" ++ rest ->
    edits_in_place (p :: args)
| edits_sed args : lit "--in-place" ∈ args -> edits_in_place (lit "sed" :: args)
| edits_rg args : lit "--replace" ∈ args -> edits_in_place (lit "rg" :: args).

(** The operands of a program, given its options that take a value; there are none for
    arguments with [--]. *)
Inductive operands_of (value_options : list string) : list str -> list str -> Prop :=
| operands_nil : operands_of value_options [] []
| operands_value o v args ops :
    o ∈ lit <$> value_options -> operands_of value_options args ops -> operands_of value_options (o :: v :: args) ops
| operands_flag o args ops :
    dashed o -> o <> lit "--" -> (o ∉ lit <$> value_options) -> operands_of value_options args ops ->
    operands_of value_options (o :: args) ops
| operands_word w args ops :
    ~ dashed w -> operands_of value_options args ops -> operands_of value_options (w :: args) (w :: ops).
Definition no_connectors (args : list str) : Prop := Forall (fun a => a ∉ lit <$> ["&&"; "||"; "|"; ";"]) args.

Inductive sed_range : str -> Prop :=
| range_line a : a <> [] -> digits a -> sed_range (a ++ lit "p")
| range_lines a b : a <> [] -> b <> [] -> digits a -> digits b -> sed_range (a ++ lit "," ++ b ++ lit "p").

Definition sed_value_options : list string := ["-e"; "-f"; "--expression"; "--file"].
(** [sed -n 1,5p file] and [sed -n -e 1,5p file]. *)
Inductive sed_prints_file : list str -> Prop :=
| prints_operand args range file rest :
    lit "-n" ∈ args -> no_connectors args -> operands_of sed_value_options args ([range; file] ++ rest) ->
    sed_range range -> sed_prints_file args
| prints_expression range file :
    sed_range range -> ~ sed_range file -> ~ dashed file -> no_connectors [file] -> sed_prints_file [lit "-n"; lit "-e"; range; file].

(** The program text is the first operand, unless it is in a file. *)
Definition awk_value_options : list string := ["-F"; "-v"; "-f"; "--field-separator"; "--assign"; "--file"].

Inductive formatting_helper : list str -> Prop :=
| helper_filter p args :
    p ∈ lit <$> ["wc"; "tr"; "cut"; "sort"; "uniq"; "tee"; "column"; "yes"; "printf"] -> formatting_helper (p :: args)
| helper_xargs args :
    (forall sub, xargs_runs args sub -> ~ edits_in_place sub) -> formatting_helper (lit "xargs" :: args)
| helper_awk args :
    (forall ops, no_connectors args -> operands_of awk_value_options args ops ->
       if decide (lit "-f" ∈ args \/ lit "--file" ∈ args) then ops = [] else length ops <= 1) ->
    formatting_helper (lit "awk" :: args)
| helper_head_tail p args :
    p = lit "head" \/ p = lit "tail" -> Forall dashed args -> length args <= 1 -> formatting_helper (p :: args)
| helper_count p flag count :
    p = lit "head" \/ p = lit "tail" -> flag = lit "-n" \/ flag = lit "-c" ->
    digits count \/ (p = lit "tail" /\ exists n, count = lit "+" ++ n /\ digits n) ->
    formatting_helper [p; flag; count]
| helper_sed args : ~ sed_prints_file args -> formatting_helper (lit "sed" :: args).

Lemma contains_spec l s : contains l s = true <-> s ∈ l.
Proof.
  unfold contains. rewrite existsb_exists. setoid_rewrite <- list_elem_of_In. setoid_rewrite bool_decide_eq_true. naive_solver.
Qed.

Lemma is_flag_spec a : is_flag a = true <-> dashed a.
Proof. unfold is_flag, dashed. rewrite starts_with_spec. naive_solver. Qed.

Lemma all_digits_spec s : all_digits s = true <-> digits s.
Proof.
  unfold all_digits, digits. rewrite forallb_forall, Forall_forall. setoid_rewrite <- list_elem_of_In.
  unfold is_ascii_digit, in_range. setoid_rewrite andb_true_iff. by setoid_rewrite N.leb_le.
Qed.

Lemma xargs_runs_loop args sub : xargs_runs args sub -> xargs_loop args = Some sub.
Proof.
  induction 1 as [cmd args Hd|cmd args|o v args sub Ho _ IH|o args sub Hd Hn Ho _ IH]; cbn [xargs_loop].
  - assert (is_flag cmd = false) as -> by (apply not_true_is_false; by rewrite is_flag_spec).
    rewrite bool_decide_eq_false_2; [done|]. intros ->. apply Hd. by eexists.
  - done.
  - pose proof (proj2 (is_one_of_spec _ _) Ho) as E. rewrite E.
    assert (is_flag o = true /\ o <> lit "--") as [-> Hne]; [|by rewrite bool_decide_eq_false_2].
    unfold xargs_value_option in Ho. cbn [fmap list_fmap] in Ho. rewrite !elem_of_cons, elem_of_nil in Ho.
    destruct_or?; subst; done.
  - rewrite bool_decide_eq_false_2 by done. rewrite (proj2 (is_flag_spec o)) by done. cbn [negb].
    assert (is_one_of ["-E"; "-e"; "-I"; "-L"; "-n"; "-P"; "-s"] o = false) as ->; [|done].
    apply not_true_is_false. by rewrite is_one_of_spec.
Qed.

Lemma digits_no_comma s : digits s -> 44%N ∉ s.
Proof. intros H Hin. by destruct (proj1 (Forall_forall _ _) H _ Hin) as [Hl%N.leb_le _]. Qed.

Lemma nonempty_spec s : nonempty s = true <-> s <> [].
Proof. by destruct s. Qed.

Lemma sed_range_arg_spec s : sed_range_arg (Some s) = true <-> sed_range s.
Proof.
  unfold sed_range_arg, is_valid_sed_n_arg. split.
  - destruct (strip_suffix _ s) as [core|] eqn:E; [|done]. apply strip_suffix_Some in E as ->.
    rewrite <- (join_split_on 44 core) at 2. destruct (split_on 44 core) as [|a [|b [|]]]; try done; intros Hr.
    + apply andb_true_iff in Hr as [Ha%nonempty_spec Hd%all_digits_spec]. by constructor.
    + rewrite !andb_true_iff, !nonempty_spec, !all_digits_spec in Hr. destruct Hr as [[[Ha Hb] Hda] Hdb].
      replace (join [44%N] [a; b]) with (a ++ lit "," ++ b) by by rewrite join_cons. rewrite <- !app_assoc. by constructor.
  - destruct 1 as [a Ha Hd|a b Ha Hb Hda Hdb].
    + rewrite (proj2 (strip_suffix_Some _ _ a)), split_on_no by eauto using digits_no_comma.
      apply andb_true_iff. by rewrite nonempty_spec, all_digits_spec.
    + rewrite (proj2 (strip_suffix_Some _ _ (a ++ 44%N :: b))) by by rewrite <- !app_assoc.
      rewrite split_on_app_sep, split_on_no by eauto using digits_no_comma.
      by rewrite !andb_true_iff, !nonempty_spec, !all_digits_spec.
Qed.

Lemma trim_no_connectors args : no_connectors args -> trim_at_connector args = args.
Proof.
  induction 1 as [|a args Hc _ IH]; [done|]. unfold trim_at_connector in *. cbn [take_while].
  assert (is_connector a = false) as -> by (apply not_true_is_false; unfold is_connector; by rewrite is_one_of_spec).
  cbn [negb]. by rewrite IH.
Qed.

Lemma inline_dashed a : inline_flag a = true -> dashed a.
Proof. unfold inline_flag. intros [H _]%andb_true_iff. apply starts_with_spec in H as [r ->]. by eexists. Qed.

Lemma candidates_operands value_options args ops :
  forallb (fun o => is_flag (lit o) && negb (inline_flag (lit o)) && negb (lit o == lit "--")) value_options = true ->
  operands_of value_options args ops -> non_flag_candidates value_options args = ops.
Proof.
  intros Hopts. assert (forall o, o ∈ lit <$> value_options -> dashed o /\ inline_flag o = false /\ o <> lit "--") as Ho.
  { intros o (x & -> & Hx)%list_elem_of_fmap. rewrite forallb_forall in Hopts. apply list_elem_of_In, Hopts in Hx.
    rewrite !andb_true_iff, !negb_true_iff, is_flag_spec, bool_decide_eq_false in Hx. tauto. }
  unfold non_flag_candidates. induction 1 as [|o v args ops Hin _ IH|o args ops Hd Hne Hni _ IH|w args ops Hd _ IH]; [done|..];
    cbn [skip_flag_values].
  - destruct (Ho o Hin) as (Hd & Hi & Hne). rewrite (bool_decide_eq_false_2 _ Hne), Hi.
    by rewrite (proj2 (is_one_of_spec _ _) Hin).
  - rewrite (bool_decide_eq_false_2 _ Hne). destruct (inline_flag o); [done|].
    assert (is_one_of value_options o = false) as -> by (apply not_true_is_false; by rewrite is_one_of_spec).
    cbn [retain]. by rewrite (proj2 (is_flag_spec o) Hd).
  - assert (w <> lit "--") as Hne by (intros ->; apply Hd; by eexists). rewrite (bool_decide_eq_false_2 _ Hne).
    assert (inline_flag w = false) as -> by (apply not_true_is_false; intros H%inline_dashed; by apply Hd).
    assert (is_one_of value_options w = false) as ->
      by (apply not_true_is_false; rewrite is_one_of_spec; intros H; by apply Hd, (Ho w)).
    cbn [retain]. assert (is_flag w = false) as -> by (apply not_true_is_false; by rewrite is_flag_spec).
    cbn [negb]. by rewrite IH.
Qed.

Lemma operands_elem value_options args ops w : operands_of value_options args ops -> w ∈ ops -> w ∈ args /\ ~ dashed w.
Proof. induction 1 as [|o v args ops _ _ IH|o args ops _ _ _ _ IH|x args ops Hd _ IH]; set_solver. Qed.

Lemma range_not_connector range : sed_range range -> range ∉ lit <$> ["&&"; "||"; "|"; ";"].
Proof.
  intros Hr Hin. assert (last range = Some 112%N) as Hl by (destruct Hr; [|rewrite !app_assoc]; apply last_snoc).
  cbn [fmap list_fmap] in Hin. rewrite !elem_of_cons, elem_of_nil in Hin. by destruct_or?; subst range.
Qed.

Lemma sed_prints_file_read args : sed_prints_file args -> is_Some (sed_read_path args).
Proof.
  intros Hs. unfold sed_read_path. destruct Hs as [args range file rest Hn Hp Ho Hr|range file Hr Hnr Hd Hp].
  - rewrite (trim_no_connectors _ Hp). pose proof (candidates_operands sed_value_options _ _ eq_refl Ho) as E.
    unfold sed_value_options in E. rewrite E. cbn [app].
    rewrite (proj2 (contains_spec _ _) Hn), (proj2 (sed_range_arg_spec range) Hr). cbn [negb head].
    match goal with |- context [negb ?b] => assert (b = true) as -> end; [|by eexists].
    apply orb_true_iff. right. apply existsb_exists. exists range.
    destruct (operands_elem _ _ _ range Ho ltac:(by left)) as [Hin Hnd].
    split; [by apply list_elem_of_In|]. apply andb_true_iff. rewrite negb_true_iff. split; [|by apply sed_range_arg_spec].
    apply not_true_is_false. by rewrite is_flag_spec.
  - assert (trim_at_connector [lit "-n"; lit "-e"; range; file] = [lit "-n"; lit "-e"; range; file]) as ->.
    { apply trim_no_connectors. repeat (constructor; [by apply (bool_decide_unpack _)|]).
      constructor; [by apply range_not_connector|exact Hp]. }
    rewrite (proj2 (contains_spec _ _)) by left.
    assert (sed_expression_range [lit "-n"; lit "-e"; range; file] = true) as ->.
    { change (sed_range_arg (Some range) || sed_expression_range [file] = true).
      by rewrite (proj2 (sed_range_arg_spec range) Hr). }
    pose proof (candidates_operands sed_value_options [lit "-n"; lit "-e"; range; file] [file] eq_refl) as E.
    unfold sed_value_options in E. rewrite E.
    + assert (sed_range_arg (Some file) = false) as Ef by (apply not_true_is_false; by rewrite sed_range_arg_spec).
      cbn [negb orb]. rewrite Ef. by eexists.
    + apply operands_flag; [by eexists|done|by apply (bool_decide_unpack _)|]. apply operands_value; [by left|].
      apply operands_word; [done|constructor].
Qed.

Lemma edits_in_place_mutating sub : edits_in_place sub -> xargs_is_mutating_subcommand sub = true.
Proof.
  destruct 1 as [p args flag rest Hp Hin Hf|args Hin|args Hin].
  - assert (xargs_has_in_place_flag args = true) as Hi.
    { apply existsb_exists. exists flag. split; [by apply list_elem_of_In|]. apply orb_true_iff.
      rewrite !starts_with_spec. destruct Hf as [-> | ->]; eauto. }
    cbn [fmap list_fmap] in Hp. rewrite !elem_of_cons, elem_of_nil in Hp. unfold xargs_is_mutating_subcommand.
    destruct_or?; subst p; rewrite ?Hi; done.
  - apply contains_spec in Hin. change (xargs_has_in_place_flag args || contains args (lit "--in-place") = true). rewrite Hin. apply orb_true_r.
  - apply contains_spec in Hin. exact Hin.
Qed.

Lemma awk_one_operand args ops :
  awk_data_file_operand args = None -> no_connectors args -> operands_of awk_value_options args ops ->
  if decide (lit "-f" ∈ args \/ lit "--file" ∈ args) then ops = [] else length ops <= 1.
Proof.
  intros Ha Hp Ho. pose proof (candidates_operands awk_value_options _ _ eq_refl Ho) as E. unfold awk_value_options in E.
  destruct args as [|a args]; [inversion Ho; subst; case_decide; [done|cbn; lia]|]. unfold awk_data_file_operand in Ha.
  rewrite (trim_no_connectors _ Hp), E in Ha.
  assert (existsb (is_one_of ["-f"; "--file"]) (a :: args) = true <-> lit "-f" ∈ a :: args \/ lit "--file" ∈ a :: args) as Hf.
  { rewrite existsb_exists. setoid_rewrite is_one_of_spec. setoid_rewrite <- list_elem_of_In. cbn [fmap list_fmap].
    setoid_rewrite elem_of_cons at 2. setoid_rewrite list_elem_of_singleton. naive_solver. }
  case_decide as Hd.
  - rewrite (proj2 Hf Hd) in Ha. by destruct ops.
  - assert (existsb (is_one_of ["-f"; "--file"]) (a :: args) = false) as Ef
      by (apply not_true_is_false; by rewrite Hf).
    rewrite Ef in Ha. apply lookup_ge_None in Ha. lia.
Qed.

Lemma formatting_helper_ok `{Shlex} tokens : is_small_formatting_command tokens = true -> formatting_helper tokens.
Proof.
  destruct tokens as [|p args]; [done|]. unfold is_small_formatting_command.
  case_match eqn:Ef; [intros _; apply helper_filter; by apply is_one_of_spec|].
  case_bool_decide as Ex.
  { subst p. intros Hm%negb_true_iff. apply helper_xargs. intros sub Hr%xargs_runs_loop He%edits_in_place_mutating.
    unfold is_mutating_xargs_command, xargs_subcommand in Hm. rewrite bool_decide_eq_true_2, Hr in Hm by done.
    cbn [is_some_and] in Hm. congruence. }
  case_bool_decide as Ea.
  { subst p. intros Hm%negb_true_iff. apply helper_awk. intros ops. apply awk_one_operand. by destruct (awk_data_file_operand args). }
  assert (forall flag, is_one_of ["-n"; "-c"] flag = true -> flag = lit "-n" \/ flag = lit "-c") as Hflag.
  { intros flag Hf%is_one_of_spec. cbn [fmap list_fmap] in Hf. rewrite !elem_of_cons, elem_of_nil in Hf. tauto. }
  case_bool_decide as Eh.
  { destruct args as [|a [|b [|]]]; try done; intros Hm.
    - apply helper_head_tail; [by left|constructor|cbn; lia].
    - apply helper_head_tail; [by left| |cbn; lia]. by apply Forall_singleton, is_flag_spec.
    - apply andb_true_iff in Hm as [Hf Hd%all_digits_spec]. apply helper_count; auto. }
  case_bool_decide as Et.
  { destruct args as [|a [|b [|]]]; try done; intros Hm.
    - apply helper_head_tail; [by right|constructor|cbn; lia].
    - apply helper_head_tail; [by right| |cbn; lia]. by apply Forall_singleton, is_flag_spec.
    - apply andb_true_iff in Hm as [Hf Hd]. apply helper_count; [by right|by apply Hflag|].
      unfold plus_digits in Hd. apply orb_true_iff in Hd as [Hd%all_digits_spec|Hd]; [by left|right]. split; [done|].
      destruct (strip_prefix _ b) as [n|] eqn:E; [|done]. apply strip_prefix_Some in E as ->. exists n.
      split; [done|]. by apply all_digits_spec. }
  case_bool_decide as Es; [|done]. subst p. intros Hm%negb_true_iff. apply helper_sed.
  intros [x Hx]%sed_prints_file_read. by rewrite Hx in Hm.
Qed.

Lemma helper_program p args :
  formatting_helper (p :: args) ->
  p ∈ lit <$> ["wc"; "tr"; "cut"; "sort"; "uniq"; "tee"; "column"; "yes"; "printf"; "xargs"; "awk"; "head"; "tail"; "sed"].
Proof.
  intros Hf. inversion Hf as [p' a Hp|a _|a _|p' a Hp _ _|p' flag count Hp _ _|a _]; subst;
    cbn [fmap list_fmap] in *; rewrite ?elem_of_cons, ?elem_of_nil in *; tauto.
Qed.

(** A command that a summary may leave out: a formatting helper, a change of directory,
    output, [true], or line numbering of the standard input. *)
Definition silent (tokens : list str) : Prop :=
  formatting_helper tokens
  \/ (exists args, tokens = lit "cd" :: args) \/ (exists args, tokens = lit "echo" :: args)
  \/ tokens = [lit "true"] \/ (exists args, tokens = lit "nl" :: args /\ Forall (fun a => is_flag a = true) args).

Lemma parsed_eqb_same a b : parsed_eqb a b = true -> is_unknown b = false -> same_summary a b.
Proof. destruct a, b; cbn; try done; intros; to_props; auto. Qed.

Lemma same_summary_trans a b c : same_summary a b -> same_summary b c -> same_summary a c.
Proof. destruct a, b, c; cbn; naive_solver congruence. Qed.

Lemma same_summary_refl a : is_unknown a = false -> same_summary a a.
Proof. by destruct a. Qed.

Lemma attribute_same `{Shlex} script tokens b pc : is_unknown pc = false -> same_summary pc (attribute_script script tokens b pc).
Proof. destruct pc; cbn; try done; destruct b; try done; by destruct (_ && _). Qed.

Lemma attribute_unknown `{Shlex} script tokens b pc : is_unknown (attribute_script script tokens b pc) = is_unknown pc.
Proof. destruct pc; cbn; try done; destruct b; try done; by destruct (_ && _). Qed.

Lemma same_summary_sym a b : same_summary a b -> same_summary b a.
Proof. destruct a, b; cbn; naive_solver. Qed.

Lemma parsed_eqb_refl a : parsed_eqb a a = true.
Proof. destruct a; cbn; by rewrite !bool_decide_eq_true_2. Qed.

Lemma elem_of_last {A} (x : A) l : last l = Some x -> x ∈ l.
Proof. intros [k ->]%list_last_split. rewrite elem_of_app, list_elem_of_singleton. auto. Qed.

(** Collapsing duplicates keeps one of each run. *)
Lemma dedup_spec l :
  let d := foldl push_deduped [] l in
  (forall x, x ∈ d -> x ∈ l) /\ (forall x, x ∈ l -> exists y, y ∈ d /\ parsed_eqb y x = true)
  /\ (forall i a b, d !! i = Some a -> d !! S i = Some b -> parsed_eqb a b = false).
Proof.
  induction l as [|x l IH] using rev_ind; cbn zeta; [split_and!; [done|by intros ? ?%not_elem_of_nil|done]|].
  rewrite foldl_app. cbn [foldl]. set (d := foldl push_deduped [] l) in *. destruct IH as (I1 & I2 & I3).
  unfold push_deduped. destruct (is_some_and _ (last d)) eqn:El.
  - destruct (last d) as [y|] eqn:Ey; [|done]. cbn in El. split_and!; [|intros z|done].
    + intros z Hz. rewrite elem_of_app. auto.
    + rewrite elem_of_app, list_elem_of_singleton. intros [Hz| ->]; [auto|]. exists y. split; [by apply elem_of_last|done].
  - split_and!; [intros z|intros z|intros i a b].
    + rewrite !elem_of_app. naive_solver.
    + rewrite !elem_of_app, list_elem_of_singleton. intros [(y & ? & ?)%I2| ->]; [exists y|exists x].
      * split; [rewrite elem_of_app; auto|done].
      * split; [rewrite elem_of_app, list_elem_of_singleton; auto|apply parsed_eqb_refl].
    + intros Ha Hb. destruct (decide (S i < length d)) as [Hi|Hi].
      * rewrite !lookup_app_l in * by lia. eauto.
      * assert (S i = length d) as Hl.
        { apply lookup_lt_Some in Hb. rewrite length_app in Hb. cbn in Hb. lia. }
        rewrite lookup_app_l in Ha by lia. rewrite lookup_app_r, Hl, Nat.sub_diag in Hb by lia. injection Hb as <-.
        replace i with (pred (length d)) in Ha by lia. rewrite <- last_lookup in Ha. by rewrite Ha in El.
Qed.

Lemma formatting_not_cd `{Shlex} tokens : is_small_formatting_command tokens = true -> is_cd tokens = false.
Proof.
  destruct tokens as [|hd args]; [done|]. intros Hf. destruct (is_cd (hd :: args)) eqn:E; [|done].
  apply bool_decide_eq_true_1 in E. subst hd. done.
Qed.

Lemma cwd_after_dropped `{Shlex} cwd commands :
  foldl cwd_step cwd (drop_small_formatting_commands commands) = foldl cwd_step cwd commands.
Proof.
  revert cwd. induction commands as [|tokens commands IH]; intros cwd; [done|].
  unfold drop_small_formatting_commands in *. cbn [retain foldl]. destruct (is_small_formatting_command tokens) eqn:E; [|apply IH].
  cbn [negb]. rewrite IH. f_equal. apply formatting_not_cd in E. destruct tokens as [|hd args]; [done|].
  change ((hd == lit "cd") = false) in E. cbn [cwd_step]. by rewrite E.
Qed.

Section hidden.
Context `{Shlex}.

(** [shlex] splits what it joined, and reads a plain word as itself. *)
Hypothesis split_join : forall tokens s, try_join tokens = Some s -> shlex_split s = Some tokens.
Hypothesis split_true : shlex_split (lit "true") = Some [lit "true"].

(** An unknown command that simplification drops is one that may be left out. *)
Lemma droppable_silent cwd tokens :
  is_Some (try_join tokens) -> droppable (resolve_read cwd (summarize_main_tokens tokens)) = true -> silent tokens.
Proof using split_join split_true.
  intros [s Es] Hd.
  assert (exists cmd, resolve_read cwd (summarize_main_tokens tokens) = Unknown cmd) as [cmd E].
  { destruct (resolve_read _ _); try done. eauto. }
  assert (summarize_main_tokens tokens = Unknown cmd) as Em.
  { destruct (summarize_main_tokens tokens), cwd; by simplify_eq/=. }
  assert (cmd = s) as ->.
  { assert (summarize_main_tokens tokens = Unknown (shlex_join tokens)) as Eu; [|unfold shlex_join in Eu; rewrite Es in Eu; cbn in Eu; congruence].
    revert Em. clear. unfold summarize_main_tokens, read_or_unknown, list_files, search_operands, search_or_list, parse_grep_like.
    destruct tokens as [|hd tail]; [congruence|]. repeat (case_match; try congruence). }
  rewrite E in Hd. unfold droppable, unknown_starts, unknown_true, unknown_nl in Hd. rewrite (split_join _ _ Es) in Hd.
  cbn [is_some_and] in Hd. to_props. destruct tokens as [|hd tail].
  { destruct Hd as [Hd|Hd]; [|done]. apply orb_prop in Hd as [Hd|Hd]; [done|]. apply bool_decide_eq_true_1 in Hd. subst s.
    apply split_join in Es. congruence. }
  cbn [head drop] in Hd. unfold silent.
  destruct Hd as [[[Hd|Hd]%orb_prop|Hd]%orb_prop|Hd].
  - apply bool_decide_eq_true_1 in Hd. injection Hd as ->. eauto 6.
  - apply bool_decide_eq_true_1 in Hd. injection Hd as ->. eauto 6.
  - apply bool_decide_eq_true_1 in Hd. subst s. apply split_join in Es. rewrite split_true in Es. injection Es as <- <-. auto 6.
  - apply andb_prop in Hd as [Hd Hf]. apply bool_decide_eq_true_1 in Hd. injection Hd as ->. do 4 right. exists tail. split; [done|].
    apply Forall_forall. intros a Ha. rewrite forallb_forall in Hf. by apply Hf, list_elem_of_In.
Qed.

Context (try_parse_shell : str -> option Tree).

Lemma script_accounts script pre tokens post :
  parse_shell_script_into_commands try_parse_shell script = Some (pre ++ tokens :: post) ->
  is_Some (try_join tokens) ->
  existsb is_unknown (parse_shell_script try_parse_shell script) = false ->
  silent tokens \/ exists pc, pc ∈ parse_shell_script try_parse_shell script /\ shows (cwd_after pre) tokens pc.
Proof using split_join split_true.
  intros Hp Hj. unfold parse_shell_script. rewrite Hp.
  destruct (pre ++ tokens :: post) as [|c0 cs] eqn:Ecs; [by destruct pre|]. rewrite <- Ecs in *. clear c0 cs Ecs Hp.
  destruct (is_small_formatting_command tokens) eqn:Ef; [left; left; by apply formatting_helper_ok|].
  destruct (is_cd tokens) eqn:Ec.
  { intros _. left. destruct tokens as [|hd args]; [done|]. apply bool_decide_eq_true_1 in Ec. subst. unfold silent. eauto. }
  set (x := resolve_read (cwd_after pre) (summarize_main_tokens tokens)).
  assert (x ∈ summarize_commands None (drop_small_formatting_commands (pre ++ tokens :: post))) as Hx.
  { unfold drop_small_formatting_commands. rewrite retain_app. cbn [retain]. rewrite Ef. cbn [negb].
    subst x. unfold cwd_after. rewrite <- (cwd_after_dropped None pre). by apply summarize_commands_elem. }
  destruct (drop_small_formatting_commands _) as [|f0 fs]; [by apply not_elem_of_nil in Hx|].
  set (all := summarize_commands None (f0 :: fs)) in *. cbn zeta.
  destruct (droppable x) eqn:Ed; [intros _; left; by eapply droppable_silent|].
  set (kept := if 1 <? length all then _ else _).
  assert (x ∈ kept) as Hk.
  { subst kept. destruct (1 <? length all); [|done]. destruct (simplify_elem (retain (fun pc => negb (unknown_true pc)) all) x) as [_ Hs].
    destruct Hs as [|]; [|done|congruence]. apply elem_of_retain. split; [|done].
    unfold droppable in Ed. to_props. by apply negb_true_iff. }
  clearbody kept. intros Hu. right. unfold shows. fold x.
  assert (forall l, existsb is_unknown l = false -> x ∈ l -> exists pc, pc ∈ l /\ same_summary x pc) as Hin.
  { intros l Hl Hxl. exists x. split; [done|]. apply same_summary_refl. rewrite existsb_false, Forall_forall in Hl. auto. }
  destruct kept as [|pc [|pc' rest]]; [by apply not_elem_of_nil in Hk| |by apply Hin].
  apply list_elem_of_singleton in Hk as <-. eexists. split; [by left|]. apply attribute_same.
  cbn [existsb] in Hu. rewrite attribute_unknown, orb_false_r in Hu. done.
Qed.

(** C20: the summary of a Bash script is the script itself, as one unknown command, or
    a list of reads, listings and searches without repetitions in which every plain
    command of the script is shown, its file resolved against the directory the
    earlier [cd] commands lead to, apart from [cd], [echo], [true], [nl] without a
    file and the formatting helpers of [formatting_helper]: filters, [xargs] that
    does not run an editor in place, [awk], [head] and [tail] without a file, and
    [sed] that does not print a range of a file.  Helpers that write may be left out
    as well ([tee], [sed -i], [xargs rm]; [in_place_edit_hidden] is an example). *)
Theorem command_summary_shows_commands command shell script :
  extract_bash_command command = Some (shell, script) ->
  let summary := parse_command try_parse_shell command in
  summary = [Unknown script]
  \/ Forall (fun pc => is_unknown pc = false) summary
     /\ (forall i a b, summary !! i = Some a -> summary !! S i = Some b -> parsed_eqb a b = false)
     /\ exists commands, parse_shell_script_into_commands try_parse_shell script = Some commands
          /\ forall pre tokens post, commands = pre ++ tokens :: post -> is_Some (try_join tokens) ->
               silent tokens \/ exists pc, pc ∈ summary /\ shows (cwd_after pre) tokens pc.
Proof using split_join split_true.
  intros Hx. cbn zeta. unfold parse_command, parse_command_impl, parse_shell_lc_commands, single_unknown_for_command, extract_shell_command.
  rewrite Hx. set (l := parse_shell_script try_parse_shell script). destruct (dedup_spec l) as (D1 & D2 & D3).
  set (d := foldl push_deduped [] l) in *. destruct (existsb is_unknown d) eqn:Eu; [by left|right].
  assert (existsb is_unknown l = false) as El.
  { apply existsb_false. rewrite existsb_false in Eu. rewrite Forall_forall in *. intros x (y & Hy & E)%D2.
    apply Eu in Hy. by destruct x, y. }
  split_and!; [by apply existsb_false|done|].
  destruct (parse_shell_script_into_commands try_parse_shell script) as [commands|] eqn:Ep.
  - exists commands. split; [done|]. intros pre tokens post -> Hj.
    destruct (script_accounts script pre tokens post Ep Hj El) as [|(pc & Hin & Hs)]; [by left|right].
    fold l in Hin. destruct (D2 pc Hin) as (y & Hy & E). exists y. split; [done|]. eapply same_summary_trans; [exact Hs|].
    apply same_summary_sym, parsed_eqb_same; [done|]. rewrite existsb_false, Forall_forall in El. auto.
  - exfalso. subst l. unfold parse_shell_script in El. by rewrite Ep in El.
Qed.
End hidden.

(** A script that edits a file in place is summarised by what else it does: the command
    counts as a formatting helper. *)
Theorem in_place_edit_hidden `{Shlex} try_parse_shell script :
  parse_shell_script_into_commands try_parse_shell script
    = Some [lit <$> ["sed"; "-i"; "s/a/b/"; "f.txt"]; lit <$> ["cat"; "f.txt"]] ->
  exists cmd, parse_shell_script try_parse_shell script = [Read cmd (lit "f.txt") (lit "f.txt")].
Proof.
  intros Hp. unfold parse_shell_script. rewrite Hp.
  replace (drop_small_formatting_commands _) with [lit <$> ["cat"; "f.txt"]] by (by vm_compute).
  replace (summarize_commands _ _) with [Read (shlex_join (lit <$> ["cat"; "f.txt"])) (lit "f.txt") (lit "f.txt")].
  - cbn [length Nat.ltb Nat.leb orb attribute_script]. destruct (_ && _); eauto.
  - vm_compute summarize_main_tokens. done.
Qed.

(** ** A script *)

(** Words without spaces, separated by single spaces. *)
Definition plain_word (w : str) : bool := nonempty w && negb (contains_char 32%N w).
#[local] Instance word_shlex : Shlex := {|
  shlex_split s := Some (match s with [] => [] | _ => split_on 32%N s end);
  try_join ws := if forallb plain_word ws then Some (join [32%N] ws) else None;
  debug_rule r := first (pattern r);
  debug_match _ := lit "match";
  io_error := lit "io";
|}.

Lemma word_split_join tokens s : try_join tokens = Some s -> shlex_split s = Some tokens.
Proof.
  cbn. destruct (forallb plain_word tokens) eqn:E; [|done]. intros [= <-].
  assert (Forall (fun w => w <> [] /\ 32%N ∉ w) tokens) as Hw.
  { apply Forall_forall. intros w Hin. rewrite forallb_forall in E. apply list_elem_of_In, E in Hin.
    unfold plain_word in Hin. to_props. split; [by intros ->|by apply contains_char_false]. }
  destruct tokens as [|w ws]; [done|]. apply Forall_cons in Hw as [[Hne Hsp] Hws].
  destruct (join [32%N] (w :: ws)) as [|c s] eqn:Ej.
  { exfalso. destruct ws; cbn in Ej; [done|]. by destruct w. }
  rewrite <- Ej, split_on_join; [done|done|]. constructor; [done|]. eapply Forall_impl; [exact Hws|]. naive_solver.
Qed.

Definition w_words (start : nat) (ws : list string) : Node :=
  match ws with
  | w :: ws => w_leaf "command" "" true start (w_leaf "command_name" w true start [w_leaf "word" w true start []]
                                               :: map (fun a => w_leaf "word" a true start []) ws)
  | [] => w_leaf "command" "" true start []
  end.
Definition w_script : str := lit "cd src && cat f.txt | head -n 5".
Definition w_script_parser (script : str) : option Tree :=
  if script == w_script then
    Some (mkTree (w_leaf "program" "" true 0
            [w_leaf "list" "" true 0
               [w_words 0 ["cd"; "src"]; w_leaf "&&" "&&" false 0 [];
                w_leaf "pipeline" "" true 0 [w_words 10 ["cat"; "f.txt"]; w_leaf "|" "|" false 0 []; w_words 22 ["head"; "-n"; "5"]]]])
            false)
  else None.

Lemma command_summary_shows_commands_witness :
  let command := lit <$> ["bash"; "-lc"] in
  parse_command (H := word_shlex) w_script_parser (command ++ [w_script])
  = [Read (lit "cat f.txt") (lit "f.txt") (lit "src/f.txt")]
  /\ exists pc, pc ∈ parse_command (H := word_shlex) w_script_parser (command ++ [w_script])
       /\ shows (H := word_shlex) (Some (lit "src")) (lit <$> ["cat"; "f.txt"]) pc.
Proof.
  cbn zeta.
  assert (parse_command (H := word_shlex) w_script_parser ((lit <$> ["bash"; "-lc"]) ++ [w_script])
    = [Read (lit "cat f.txt") (lit "f.txt") (lit "src/f.txt")]) as E by (vm_compute; reflexivity).
  assert (extract_bash_command ((lit <$> ["bash"; "-lc"]) ++ [w_script]) = Some (lit "bash", w_script)) as Ex
    by (vm_compute; reflexivity).
  split; [exact E|].
  destruct (command_summary_shows_commands (H := word_shlex) word_split_join eq_refl w_script_parser
    ((lit <$> ["bash"; "-lc"]) ++ [w_script]) (lit "bash") w_script Ex) as [Hu|(_ & _ & commands & Hp & Hc)].
  - rewrite E in Hu. discriminate Hu.
  - assert (commands = [lit <$> ["cd"; "src"]; lit <$> ["cat"; "f.txt"]; lit <$> ["head"; "-n"; "5"]]) as ->.
    { vm_compute in Hp. injection Hp as <-. vm_compute. reflexivity. }
    destruct (Hc [lit <$> ["cd"; "src"]] (lit <$> ["cat"; "f.txt"]) [lit <$> ["head"; "-n"; "5"]] eq_refl ltac:(by eexists))
      as [[Hf|[[a Ha]|[[a Ha]|[Ha|[a [Ha _]]]]]]|Hs]; [|discriminate Ha..|exact Hs].
    apply helper_program, is_one_of_spec in Hf. vm_compute in Hf. discriminate Hf.
Defined.

(** ** Unit tests of the source *)

Definition w_summary (command : string) : list ParsedCommand :=
  parse_command (H := word_shlex) (fun _ => None) (split_on 32%N (lit command)).

Example parse_command_tests :
  w_summary "git status" = [Unknown (lit "git status")]
  /\ w_summary "git grep -l TODO src" = [Search (lit "git grep -l TODO src") (Some (lit "TODO")) (Some (lit "src"))]
  /\ w_summary "git ls-files --exclude target src" = [ListFiles (lit "git ls-files --exclude target src") (Some (lit "src"))]
  /\ w_summary "rg --files | nl -ba | foo" = [Unknown (lit "rg --files | nl -ba | foo")]
  /\ w_summary "rg --files-without-match TODO src"
     = [Search (lit "rg --files-without-match TODO src") (Some (lit "TODO")) (Some (lit "src"))]
  /\ w_summary "bat --theme TwoDark README.md"
     = [Read (lit "bat --theme TwoDark README.md") (lit "README.md") (lit "README.md")]
  /\ w_summary "cd webview/src && tail -n +10 lib/index.ts"
     = [Read (lit "tail -n +10 lib/index.ts") (lit "index.ts") (lit "webview/src/lib/index.ts")].
Proof. by vm_compute. Qed.
