(* ===== verification/RolloutTruncation.v ===== *)
(** [core/src/thread_rollout_truncation.rs]: the turns of a recorded thread and the parts
    of the record that a fork keeps.

    A record is never cut when turns are rolled back: a [ThreadRolledBack] item says that
    the last turns before it are gone.  [turn_stack] is the reading of a record as a stack
    of turns, which the scans of the source are compared with. *)

From stdpp Require Import base list option numbers strings sorting sets.
From Stdlib Require Import NArith Lia.
From S2P Require Import Prelude RustStr History.
Local Open Scope rust_scope.

Section rollout.
Context {X : Type}.
(** [serde_json::from_str::<InterAgentCommunication>]: its [trigger_turn];
    [parse_visible_hook_prompt_message(..).is_some()]; the recogniser of contextual text. *)
Context (communication_from_str : str -> option bool) (is_hook_prompt : list MessageContent -> bool).
Context (is_contextual_user_fragment : MessageContent -> bool).

(** What an item carries beyond what the scans read is left out. *)
Inductive RolloutItem : Type :=
| SessionMeta
| RItem (item : ResponseItem X)
| InterAgentCommunication (trigger_turn : bool)
| InterAgentCommunicationMetadata (trigger_turn : bool)
| Compacted
| TurnContext
| WorldState
| ThreadRolledBack (num_turns : nat)
| TurnStarted (turn_id : str)
| OtherEvent.

Inductive InitialHistory : Type := HistoryNew | HistoryCleared | Resumed (history : list RolloutItem) | Forked (items : list RolloutItem).

Definition scan_rollout_items (self : InitialHistory) (predicate : RolloutItem -> bool) : bool :=
  match self with
  | HistoryNew | HistoryCleared => false
  | Resumed history => existsb predicate history
  | Forked items => existsb predicate items
  end.

Definition from_message_content (content : list MessageContent) : option bool :=
  match content with
  | [MInputText text] | [MOutputText text] => communication_from_str text
  | _ => None
  end.

(** [history.rs]: [is_user_turn_boundary], where [is_message_content] is [from_message_content(..).is_some()]. *)
Definition turn_boundary (item : ResponseItem X) : bool :=
  is_user_turn_boundary is_contextual_user_fragment (fun content => is_some (from_message_content content)) item.

Definition rollout_item_is_user_turn_boundary (item : RolloutItem) : bool :=
  match item with
  | RItem item => turn_boundary item
  | InterAgentCommunication _ => true
  | _ => false
  end.

Definition initial_history_has_prior_user_turns (conversation_history : InitialHistory) : bool :=
  scan_rollout_items conversation_history rollout_item_is_user_turn_boundary.

(** [matches!(parse_turn_item(item), Some(TurnItem::UserMessage(_)))]. *)
Definition is_real_user_message_boundary (item : ResponseItem X) : bool :=
  match item with
  | Message role content _ =>
      (role == lit "user") && negb (is_hook_prompt content)
      && negb (is_contextual_user_message_content is_contextual_user_fragment content)
  | _ => false
  end.

Definition is_trigger_turn_boundary (item : ResponseItem X) : bool :=
  match item with
  | Message role content _ => (role == lit "assistant") && is_some_and id (from_message_content content)
  | _ => false
  end.

(** The loop of [user_message_positions_in_rollout]; [idx] is the position of the first item. *)
Fixpoint user_positions_loop (idx : nat) (items : list RolloutItem) (user_positions : list nat) : list nat :=
  match items with
  | [] => user_positions
  | item :: items =>
      user_positions_loop (S idx) items
        match item with
        | RItem item => if is_real_user_message_boundary item then user_positions ++ [idx] else user_positions
        | ThreadRolledBack num_turns => take (length user_positions - num_turns) user_positions
        | _ => user_positions
        end
  end.
Definition user_message_positions_in_rollout (items : list RolloutItem) : list nat := user_positions_loop 0 items [].

(** The position at which a rollback starts: that of the earliest turn it removes. *)
Definition rollback_start (rollback_turn_positions : list nat) (num_turns : nat) : option nat :=
  if length rollback_turn_positions <? num_turns then head rollback_turn_positions
  else rollback_turn_positions !! (length rollback_turn_positions - num_turns).

Definition push_if (b : bool) (idx : nat) (positions : list nat) : list nat := if b then positions ++ [idx] else positions.

(** One round of the loop of [fork_turn_positions_in_rollout]; [previous] is the item before. *)
Definition fork_positions_step (previous : option RolloutItem) (idx : nat) (item : RolloutItem)
    (positions : list nat * list nat) : list nat * list nat :=
  let '(rollback_turn_positions, fork_turn_positions) := positions in
  match item with
  | RItem item =>
      let has_delivery_metadata :=
        match item, previous with AgentMessage _, Some (InterAgentCommunicationMetadata _) => true | _, _ => false end in
      (push_if (turn_boundary item && negb has_delivery_metadata) idx rollback_turn_positions,
       push_if (is_real_user_message_boundary item || is_trigger_turn_boundary item) idx fork_turn_positions)
  | InterAgentCommunication trigger_turn | InterAgentCommunicationMetadata trigger_turn =>
      (push_if true idx rollback_turn_positions, push_if trigger_turn idx fork_turn_positions)
  | ThreadRolledBack num_turns =>
      if num_turns =? 0 then positions
      else match rollback_start rollback_turn_positions num_turns with
           | Some start =>
               (take (length rollback_turn_positions - num_turns) rollback_turn_positions,
                retain (fun position => position <? start) fork_turn_positions)
           | None => positions
           end
  | _ => positions
  end.

Fixpoint fork_positions_loop (previous : option RolloutItem) (idx : nat) (items : list RolloutItem)
    (positions : list nat * list nat) : list nat * list nat :=
  match items with
  | [] => positions
  | item :: items => fork_positions_loop (Some item) (S idx) items (fork_positions_step previous idx item positions)
  end.
Definition fork_turn_positions_in_rollout (items : list RolloutItem) : list nat :=
  (fork_positions_loop None 0 items ([], [])).2.

(** [n_from_start]: [None] is [usize::MAX]. *)
Definition truncate_rollout_before_nth_user_message_from_start (items : list RolloutItem) (n_from_start : option nat)
  : list RolloutItem :=
  match n_from_start with
  | None => items
  | Some n =>
      match user_message_positions_in_rollout items !! n with
      | Some cut_idx => take cut_idx items
      | None => items
      end
  end.

Definition truncate_rollout_to_last_n_fork_turns (items : list RolloutItem) (n_from_end : nat) : list RolloutItem :=
  if n_from_end =? 0 then []
  else
    let positions := fork_turn_positions_in_rollout items in
    match (if length positions <? n_from_end then head positions else positions !! (length positions - n_from_end)) with
    | Some keep_idx => drop keep_idx items
    | None => []
    end.

(** A turn of [build_turns_from_rollout_items]. *)
Record RecordedTurn : Type := { turn_id_of : str; in_progress : bool }.
Inductive TruncateError : Set := TurnNotFound | TurnNotPersisted | TurnInProgress.

Definition is_turn_started (item : RolloutItem) : bool := match item with TurnStarted _ => true | _ => false end.

(** [iter().position(p)]. *)
Fixpoint first_position {A} (p : A -> bool) (l : list A) : option nat :=
  match l with [] => None | x :: l => if p x then Some 0 else S <$> first_position p l end.

Definition truncate_rollout_after_turn_id (build_turns : list RolloutItem -> list RecordedTurn) (items : list RolloutItem)
    (last_turn_id : str) : result (list RolloutItem) TruncateError :=
  match List.find (fun turn => turn.(turn_id_of) == last_turn_id) (build_turns items) with
  | None => Err TurnNotFound
  | Some turn =>
      match first_position (fun item => match item with TurnStarted turn_id => turn_id == last_turn_id | _ => false end) items with
      | None => Err TurnNotPersisted
      | Some target_start_index =>
          if turn.(in_progress) then Err TurnInProgress
          else
            let rest := drop (S target_start_index) items in
            let cut_index := match first_position is_turn_started rest with
                             | Some i => S target_start_index + i
                             | None => length items
                             end in
            Ok (take cut_index items)
      end
  end.
End rollout.
Arguments RolloutItem : clear implicits.

(** * Records as stacks of turns

    A turn is a position with a flag.  [mark] says whether an item opens a turn, and with
    which flag; a rollback drops the last turns. *)

Section stacks.
Context {X : Type}.
Implicit Types (items : list (RolloutItem X)) (turns : list (nat * bool)).
Context (mark : option (RolloutItem X) -> RolloutItem X -> option bool).

Definition stack_step (previous : option (RolloutItem X)) (idx : nat) (item : RolloutItem X) turns : list (nat * bool) :=
  match item with
  | ThreadRolledBack num_turns => take (length turns - num_turns) turns
  | _ => match mark previous item with Some flag => turns ++ [(idx, flag)] | None => turns end
  end.

Fixpoint stack_loop (previous : option (RolloutItem X)) (idx : nat) items turns : list (nat * bool) :=
  match items with
  | [] => turns
  | item :: items => stack_loop (Some item) (S idx) items (stack_step previous idx item turns)
  end.

Definition turn_stack items : list (nat * bool) := stack_loop None 0 items [].

(** Positions increase and are below the next one. *)
Definition stack_ok (idx : nat) turns : Prop :=
  StronglySorted (fun a b => a.1 < b.1) turns /\ Forall (fun turn => turn.1 < idx) turns.

Inductive step_shape (idx : nat) turns : list (nat * bool) -> Prop :=
| step_pop n : step_shape idx turns (take (length turns - n) turns)
| step_push flag : step_shape idx turns (turns ++ [(idx, flag)])
| step_skip : step_shape idx turns turns.

Lemma stack_step_shape previous idx item turns : step_shape idx turns (stack_step previous idx item turns).
Proof. unfold stack_step. destruct item; try destruct (mark _ _); constructor. Qed.

Lemma stack_ok_take idx n turns : stack_ok idx turns -> stack_ok idx (take n turns).
Proof.
  intros [Hs Hf]. split; [|by apply Forall_take]. rewrite <- (take_drop n turns) in Hs.
  by apply StronglySorted_app in Hs as (_ & ? & _).
Qed.

Lemma stack_ok_step previous idx item turns :
  stack_ok idx turns -> stack_ok (S idx) (stack_step previous idx item turns).
Proof.
  intros Hok. assert (forall turns, stack_ok idx turns -> stack_ok (S idx) turns) as Hmono.
  { intros l [Hs Hf]. split; [done|]. eapply Forall_impl; [exact Hf|]. cbn. lia. }
  destruct (stack_step_shape previous idx item turns) as [n|flag|]; auto using stack_ok_take.
  destruct Hok as [Hs Hf]. split.
  - apply StronglySorted_app_2; [|done|by repeat constructor].
    intros a b Ha ->%list_elem_of_singleton. rewrite Forall_forall in Hf. by apply Hf.
  - apply Forall_app. split; [|by repeat constructor]. eapply Forall_impl; [exact Hf|]. cbn. lia.
Qed.

Lemma stack_ok_loop previous idx items turns :
  stack_ok idx turns -> stack_ok (idx + length items) (stack_loop previous idx items turns).
Proof.
  revert previous idx turns. induction items as [|item items IH]; intros previous idx turns Hok; cbn [stack_loop length].
  - by rewrite Nat.add_0_r.
  - rewrite Nat.add_succ_r. apply (IH _ (S idx)). by apply stack_ok_step.
Qed.

Lemma turn_stack_ok items : stack_ok (length items) (turn_stack items).
Proof. apply (stack_ok_loop None 0). split; constructor. Qed.

Lemma stack_loop_app previous idx items1 items2 turns :
  stack_loop previous idx (items1 ++ items2) turns
  = stack_loop (match last items1 with Some item => Some item | None => previous end)
      (idx + length items1) items2 (stack_loop previous idx items1 turns).
Proof.
  revert previous idx turns. induction items1 as [|item items1 IH]; intros previous idx turns; cbn [app stack_loop length].
  - by rewrite Nat.add_0_r.
  - rewrite IH, Nat.add_succ_r, last_cons. by destruct (last items1).
Qed.

(** A position that is gone or was never there does not come back. *)
Lemma stack_loop_gone previous idx items turns p :
  p < idx -> p ∉ turns.*1 -> p ∉ (stack_loop previous idx items turns).*1.
Proof.
  revert previous idx turns. induction items as [|item items IH]; intros previous idx turns Hp Hno; cbn [stack_loop]; [done|].
  apply IH; [lia|]. destruct (stack_step_shape previous idx item turns) as [n|flag|]; [| |done].
  - intros Hin. apply Hno. rewrite <- (take_drop (length turns - n) turns), fmap_app. set_solver.
  - rewrite fmap_app. cbn. intros [?|?%list_elem_of_singleton]%elem_of_app; [done|lia].
Qed.

(** As long as a turn stays, nothing below it is touched. *)
Lemma stack_loop_split previous idx items before p flag after :
  p < idx -> p ∉ before.*1 ->
  p ∈ (stack_loop previous idx items (before ++ (p, flag) :: after)).*1 ->
  exists after', stack_loop previous idx items ((p, flag) :: after) = (p, flag) :: after'
    /\ stack_loop previous idx items (before ++ (p, flag) :: after) = before ++ (p, flag) :: after'.
Proof.
  revert previous idx after. induction items as [|item items IH]; intros previous idx after Hp Hno Hin; cbn [stack_loop] in *; [eauto|].
  assert (
    (exists after', stack_step previous idx item (before ++ (p, flag) :: after) = before ++ (p, flag) :: after'
       /\ stack_step previous idx item ((p, flag) :: after) = (p, flag) :: after')
    \/ (exists n, stack_step previous idx item (before ++ (p, flag) :: after) = take n before)) as [(after' & E1 & E2)|[n E]].
  - unfold stack_step.
    assert (forall n, (exists after', take (length (before ++ (p, flag) :: after) - n) (before ++ (p, flag) :: after)
        = before ++ (p, flag) :: after' /\ take (length ((p, flag) :: after) - n) ((p, flag) :: after) = (p, flag) :: after')
      \/ exists m, take (length (before ++ (p, flag) :: after) - n) (before ++ (p, flag) :: after) = take m before) as Htake.
    { intros n. rewrite length_app. cbn [length]. destruct (le_lt_dec n (length after)) as [Hn|Hn].
      - left. exists (take (length after - n) after). split.
        + rewrite take_app_ge by lia. replace (_ - _ - _) with (S (length after - n)) by lia. done.
        + by replace (S (length after) - n) with (S (length after - n)) by lia.
      - right. exists (length before + S (length after) - n). rewrite take_app_le by lia. done. }
    destruct item; try apply Htake; (destruct (mark _ _) as [f|]; left; [exists (after ++ [(idx, f)])|exists after]);
      by rewrite <- ?app_assoc.
  - rewrite E1, E2 in *. apply IH; [lia|done|done].
  - exfalso. rewrite E in Hin. revert Hin. apply stack_loop_gone; [lia|].
    intros Hin. apply Hno. rewrite <- (take_drop n before), fmap_app. set_solver.
Qed.

(** Reading from another position moves the turns. *)
Definition shift (d : nat) turns : list (nat * bool) := (fun turn => (d + turn.1, turn.2)) <$> turns.

Lemma stack_loop_shift d previous idx items turns :
  stack_loop previous (d + idx) items (shift d turns) = shift d (stack_loop previous idx items turns).
Proof.
  revert previous idx turns. induction items as [|item items IH]; intros previous idx turns; cbn [stack_loop]; [done|].
  rewrite <- Nat.add_succ_r, <- IH. f_equal.
  unfold stack_step, shift. rewrite !length_fmap.
  destruct item; try destruct (mark _ _); rewrite ?fmap_app, ?fmap_take; done.
Qed.

Lemma stack_ok_NoDup idx turns : stack_ok idx turns -> NoDup turns.*1.
Proof.
  intros [Hs _]. induction Hs as [|turn turns Hs IH Hf]; cbn; constructor; [|done].
  intros (x & Hx & Hin)%list_elem_of_fmap. rewrite Forall_forall in Hf. specialize (Hf x Hin). lia.
Qed.

(** Two splits of turns at the same position are the same split. *)
Lemma split_unique turns before1 before2 p flag1 flag2 after1 after2 :
  NoDup turns.*1 -> turns = before1 ++ (p, flag1) :: after1 -> turns = before2 ++ (p, flag2) :: after2 ->
  before1 = before2 /\ flag1 = flag2 /\ after1 = after2.
Proof.
  intros Hnd E1 E2.
  assert (length before1 = length before2) as Hl.
  { eapply (NoDup_lookup _ _ _ p Hnd); [rewrite E1|rewrite E2]; rewrite list_lookup_fmap, list_lookup_middle; done. }
  rewrite E1 in E2. apply app_inj_1 in E2 as [-> [= -> ->]]; done.
Qed.

Hypothesis mark_rollback : forall previous num_turns, mark previous (ThreadRolledBack num_turns) = None.

(** A turn that survives was opened by the item at its position, on top of the turns that
    survive below it. *)
Lemma turn_stack_cut items before p flag after :
  turn_stack items = before ++ (p, flag) :: after ->
  exists item previous, items !! p = Some item /\ mark previous item = Some flag
    /\ turn_stack (take p items) = before
    /\ stack_loop (Some item) (S p) (drop (S p) items) [(p, flag)] = (p, flag) :: after.
Proof.
  intros E. pose proof (turn_stack_ok items) as Hok. pose proof (stack_ok_NoDup _ _ Hok) as Hnd.
  assert (p < length items) as Hp.
  { destruct Hok as [_ Hf]. rewrite E, Forall_app, Forall_cons in Hf. naive_solver. }
  apply lookup_lt_is_Some in Hp as [item Hi]. pose proof (lookup_lt_Some _ _ _ Hi) as Hp.
  pose proof (turn_stack_ok (take p items)) as Hpre. rewrite length_take, Nat.min_l in Hpre by lia.
  assert (p ∉ (turn_stack (take p items)).*1) as Hno.
  { intros (x & -> & Hx)%list_elem_of_fmap. destruct Hpre as [_ Hf]. rewrite Forall_forall in Hf.
    specialize (Hf x Hx). lia. }
  set (previous := match last (take p items) with Some item => Some item | None => None end).
  assert (turn_stack items = stack_loop (Some item) (S p) (drop (S p) items)
            (stack_step previous p item (turn_stack (take p items)))) as Hrun.
  { unfold turn_stack at 1. rewrite <- (take_drop_middle _ _ _ Hi) at 1. rewrite stack_loop_app.
    rewrite length_take, Nat.min_l by lia. done. }
  assert (p ∈ (turn_stack items).*1) as Hin by (rewrite E, fmap_app; set_solver).
  assert (exists f, mark previous item = Some f /\
            stack_step previous p item (turn_stack (take p items)) = turn_stack (take p items) ++ [(p, f)])
    as (f & Hm & Hstep).
  { destruct (mark previous item) as [f|] eqn:Em.
    - exists f. split; [done|]. unfold stack_step. destruct item; by rewrite ?Em, ?mark_rollback in *.
    - exfalso. rewrite Hrun in Hin. revert Hin. apply stack_loop_gone; [lia|].
      unfold stack_step. destruct item as [| | | | | | |n| |]; rewrite ?Em; try done.
      intros Hin. apply Hno. set (l := turn_stack (take p items)) in *. rewrite <- (take_drop (length l - n) l), fmap_app. set_solver. }
  rewrite Hstep in Hrun. rewrite Hrun in Hin.
  destruct (stack_loop_split _ _ _ _ _ _ _ (Nat.lt_succ_diag_r p) Hno Hin) as (after' & E1 & E2).
  rewrite E2 in Hrun. destruct (split_unique _ _ _ _ _ _ _ _ Hnd E Hrun) as (-> & -> & ->). eauto 10.
Qed.

(** Read on its own, the rest of a record from a surviving turn on has the turns that
    survive from there on. *)
Lemma turn_stack_drop items before p flag after :
  (forall item previous, items !! p = Some item -> mark previous item = Some flag -> mark None item = Some flag) ->
  turn_stack items = before ++ (p, flag) :: after ->
  shift p (turn_stack (drop p items)) = (p, flag) :: after.
Proof.
  intros Hmark E. destruct (turn_stack_cut _ _ _ _ _ E) as (item & previous & Hi & Hm & _ & <-).
  rewrite (drop_S _ _ _ Hi).
  unfold turn_stack. cbn [stack_loop].
  assert (stack_step None 0 item [] = [(0, flag)]) as ->.
  { pose proof (Hmark _ _ Hi Hm) as Hn. unfold stack_step. destruct item; try (by rewrite Hn).
    by rewrite mark_rollback in Hn. }
  rewrite <- stack_loop_shift. unfold shift. cbn. by rewrite Nat.add_0_r, Nat.add_1_r.
Qed.
End stacks.

(** * The scans read the stack *)

Section scans.
Context {X : Type} (communication_from_str : str -> option bool) (is_hook_prompt : list MessageContent -> bool).
Context (is_contextual_user_fragment : MessageContent -> bool).
Implicit Types (items : list (RolloutItem X)).

Abbreviation turn_boundary := (turn_boundary (X:=X) communication_from_str is_contextual_user_fragment).
Abbreviation real := (is_real_user_message_boundary (X:=X) is_hook_prompt is_contextual_user_fragment).
Abbreviation trigger := (is_trigger_turn_boundary (X:=X) communication_from_str).
Abbreviation fork_positions := (fork_turn_positions_in_rollout (X:=X) communication_from_str is_hook_prompt is_contextual_user_fragment).
Abbreviation user_positions := (user_message_positions_in_rollout (X:=X) is_hook_prompt is_contextual_user_fragment).

(** A user message is a turn for [user_message_positions_in_rollout]. *)
Definition user_mark (_ : option (RolloutItem X)) (item : RolloutItem X) : option bool :=
  match item with RItem item => if real item then Some true else None | _ => None end.

(** Every instruction opens a turn; the flag says that a fork may start there. *)
Definition fork_mark (previous : option (RolloutItem X)) (item : RolloutItem X) : option bool :=
  match item with
  | RItem item =>
      let has_delivery_metadata :=
        match item, previous with AgentMessage _, Some (InterAgentCommunicationMetadata _) => true | _, _ => false end in
      if real item || trigger item then Some true
      else if turn_boundary item && negb has_delivery_metadata then Some false else None
  | InterAgentCommunication trigger_turn | InterAgentCommunicationMetadata trigger_turn => Some trigger_turn
  | _ => None
  end.

Definition fork_turns (turns : list (nat * bool)) : list nat := (retain snd turns).*1.

Lemma fork_turns_app turns1 turns2 : fork_turns (turns1 ++ turns2) = fork_turns turns1 ++ fork_turns turns2.
Proof. unfold fork_turns. by rewrite retain_app, fmap_app. Qed.

Lemma user_positions_spec items : user_positions items = (turn_stack user_mark items).*1.
Proof.
  unfold user_message_positions_in_rollout, turn_stack. change (@nil nat) with ((@nil (nat * bool)).*1).
  generalize (@nil (nat * bool)) as turns, (@None (RolloutItem X)) as previous, 0 as idx.
  induction items as [|item items IH]; intros turns previous idx; [done|]. cbn [user_positions_loop stack_loop].
  rewrite <- (IH _ (Some item)). f_equal. unfold stack_step.
  destruct item; cbn; rewrite ?length_fmap, ?fmap_take; try done. case_match; by rewrite ?fmap_app.
Qed.

(** A fork turn is an instruction turn. *)
Lemma fork_boundary_turn item :
  real item || trigger item = true -> turn_boundary item = true /\ (forall rest, item <> AgentMessage rest).
Proof.
  destruct item; cbn; try done. unfold RolloutTruncation.turn_boundary. cbn. intros Hb. split; [|done].
  apply orb_true_iff in Hb as [Hb|Hb].
  - rewrite !andb_true_iff in Hb. destruct Hb as [[-> _] ->]. done.
  - apply andb_true_iff in Hb as [-> Hb]. destruct (from_message_content _ _); [|done]. cbn. apply orb_true_r.
Qed.

(** The fork turns below the start of a rollback are those of the turns it leaves. *)
Lemma fork_turns_rollback idx turns num_turns start :
  stack_ok idx turns -> num_turns <> 0 -> rollback_start turns.*1 num_turns = Some start ->
  retain (fun position => position <? start) (fork_turns turns) = fork_turns (take (length turns - num_turns) turns).
Proof.
  intros [Hs _] Hn Hstart.
  assert (exists flag after, turns = take (length turns - num_turns) turns ++ (start, flag) :: after) as (flag & after & E).
  { unfold rollback_start in Hstart. rewrite length_fmap in Hstart. destruct (Nat.ltb_spec (length turns) num_turns).
    - replace (length turns - num_turns) with 0 by lia. destruct turns as [|[p f] turns]; [done|]. injection Hstart as <-. eauto.
    - rewrite list_lookup_fmap in Hstart. destruct (turns !! (length turns - num_turns)) as [[p f]|] eqn:El; [|done].
      injection Hstart as <-. exists f, (drop (S (length turns - num_turns)) turns). by rewrite take_drop_middle. }
  set (before := take _ _) in *. rewrite E in *. rewrite fork_turns_app, retain_app.
  apply StronglySorted_app in Hs as (Hlt & _ & Hafter). apply StronglySorted_inv in Hafter as [_ Hafter].
  assert (retain (fun position => position <? start) (fork_turns ((start, flag) :: after)) = []) as ->.
  { apply elem_of_nil_inv. intros q [Hq Hin]%elem_of_retain. apply Nat.ltb_lt in Hq.
    apply list_elem_of_fmap in Hin as ([q' f'] & -> & Hin). apply elem_of_retain in Hin as [_ Hin]. cbn in Hq.
    apply elem_of_cons in Hin as [[= -> ->]|Hin]; [lia|]. rewrite Forall_forall in Hafter. specialize (Hafter _ Hin). cbn in Hafter. lia. }
  rewrite app_nil_r. apply retain_id. intros q Hin. apply list_elem_of_fmap in Hin as ([q' f'] & -> & Hin).
  apply elem_of_retain in Hin as [_ Hin]. apply Nat.ltb_lt. apply (Hlt (q', f') (start, flag)); [done|by left].
Qed.

Lemma fork_positions_loop_spec items previous idx turns :
  stack_ok idx turns ->
  fork_positions_loop communication_from_str is_hook_prompt is_contextual_user_fragment previous idx items
    (turns.*1, fork_turns turns)
  = let turns := stack_loop fork_mark previous idx items turns in (turns.*1, fork_turns turns).
Proof.
  revert previous idx turns. induction items as [|item items IH]; intros previous idx turns Hok; [done|].
  cbn [fork_positions_loop stack_loop]. rewrite <- IH by by apply stack_ok_step. f_equal.
  unfold stack_step, fork_positions_step, push_if.
  destruct item as [|item|trigger_turn|trigger_turn| | | |num_turns| |]; cbn [fork_mark]; try done.
  - pose proof (fork_boundary_turn item) as Hb. destruct (real item || trigger item).
    + destruct Hb as [-> Hna]; [done|].
      replace (match item with AgentMessage _ => _ | _ => false end) with false by (destruct item; try done; by edestruct Hna).
      cbn. by rewrite fork_turns_app, fmap_app.
    + case_match; rewrite ?fork_turns_app, ?fmap_app, ?app_nil_r; done.
  - rewrite fork_turns_app, fmap_app. by destruct trigger_turn; cbn; rewrite ?app_nil_r.
  - rewrite fork_turns_app, fmap_app. by destruct trigger_turn; cbn; rewrite ?app_nil_r.
  - destruct (Nat.eqb_spec num_turns 0) as [->|Hn]; [by rewrite Nat.sub_0_r, firstn_all|].
    destruct (rollback_start turns.*1 num_turns) as [start|] eqn:Es.
    + by rewrite length_fmap, fmap_take, (fork_turns_rollback idx turns num_turns start).
    + assert (turns = []) as ->; [|done]. unfold rollback_start in Es. rewrite length_fmap in Es.
      destruct (Nat.ltb_spec (length turns) num_turns); [by destruct turns|].
      apply lookup_ge_None in Es. rewrite length_fmap in Es. destruct turns; [done|cbn in *; lia].
Qed.

(** The fork turns of a record are those of the instruction turns that its rollbacks leave. *)
Lemma fork_positions_spec items : fork_positions items = fork_turns (turn_stack fork_mark items).
Proof.
  unfold fork_turn_positions_in_rollout.
  change (@nil nat, @nil nat) with ((@nil (nat * bool)).*1, fork_turns []).
  rewrite fork_positions_loop_spec; [done|split; constructor].
Qed.

Lemma fork_turns_shift d turns : fork_turns (shift d turns) = (fun p => d + p) <$> fork_turns turns.
Proof. unfold fork_turns, shift. induction turns as [|[p []] turns IH]; cbn; by rewrite ?IH. Qed.

Lemma fork_turns_lookup turns k p :
  fork_turns turns !! k = Some p ->
  exists before after, turns = before ++ (p, true) :: after /\ fork_turns before = take k (fork_turns turns)
    /\ fork_turns ((p, true) :: after) = drop k (fork_turns turns).
Proof.
  intros H. assert (exists before after, turns = before ++ (p, true) :: after /\ length (fork_turns before) = k)
    as (before & after & -> & <-).
  { revert k H. induction turns as [|[q []] turns IH]; intros k H; [done| |].
    - destruct k as [|k]; [injection H as ->; by exists [], turns|].
      destruct (IH k H) as (before & after & -> & <-). by exists ((q, true) :: before), after.
    - destruct (IH k H) as (before & after & -> & <-). by exists ((q, false) :: before), after. }
  exists before, after. rewrite fork_turns_app, take_app_length, drop_app_length. done.
Qed.

Lemma fork_mark_rollback previous num_turns : fork_mark previous (ThreadRolledBack num_turns) = None.
Proof. done. Qed.

(** C31: a fork keeps what it says.  Read a record as a stack of turns ([turn_stack]): every
    instruction, of the user or of another agent, pushes a turn, and a rollback pops the last
    turns.  Keeping the last [n] turns gives the end of the record that starts at the [n]-th last
    fork turn on the stack (at the first, when there are fewer), and the fork turns of that part,
    read on its own, are exactly those: rollbacks in it never reach behind its start.  Cutting
    before the [n]-th user message gives a beginning of the record with exactly the first [n]
    user messages, on the stack whose turns are the user messages alone (which counts a
    rollback of another agent's turn as one of a user message:
    [agent_turn_rollback_hides_user_message]). *)
Theorem truncation_keeps_turns items n :
  let turns items := fork_turns (turn_stack fork_mark items) in
  let messages items := (turn_stack user_mark items).*1 in
  let kept := truncate_rollout_to_last_n_fork_turns communication_from_str is_hook_prompt is_contextual_user_fragment items n in
  let before := truncate_rollout_before_nth_user_message_from_start is_hook_prompt is_contextual_user_fragment items (Some n) in
  (if (n =? 0) || (turns items == []) then kept = []
   else exists keep_idx, turns items !! (length (turns items) - n) = Some keep_idx /\ kept = drop keep_idx items
     /\ (fun p => keep_idx + p) <$> turns kept = drop (length (turns items) - n) (turns items))
  /\ match messages items !! n with
     | Some cut_idx => before = take cut_idx items /\ messages before = take n (messages items)
     | None => before = items
     end.
Proof.
  cbv zeta. split.
  - unfold truncate_rollout_to_last_n_fork_turns. destruct (Nat.eqb_spec n 0) as [->|Hn]; [done|]. cbn [orb].
    assert (forall l : list nat, (if length l <? n then head l else l !! (length l - n)) = l !! (length l - n)) as Hidx.
    { intros l. destruct (Nat.ltb_spec (length l) n); [|done]. replace (length l - n) with 0 by lia. by destruct l. }
    rewrite Hidx, fork_positions_spec. set (turns := fork_turns (turn_stack fork_mark items)).
    case_bool_decide as Hnil; [by rewrite Hnil|]. destruct (turns !! (length turns - n)) as [keep_idx|] eqn:Ek.
    2: { apply lookup_ge_None in Ek. destruct turns; [done|cbn in *; lia]. }
    exists keep_idx. split; [done|]. split; [done|]. subst turns.
    destruct (fork_turns_lookup _ _ _ Ek) as (before & after & E & _ & <-).
    rewrite <- (turn_stack_drop fork_mark fork_mark_rollback items before keep_idx true after); [by rewrite fork_turns_shift| |done].
    intros item previous _. destruct item; cbn; try done. by repeat case_match.
  - unfold truncate_rollout_before_nth_user_message_from_start. rewrite user_positions_spec.
    destruct ((turn_stack user_mark items).*1 !! n) as [cut_idx|] eqn:E; [|done]. split; [done|].
    rewrite list_lookup_fmap in E.
    destruct (turn_stack user_mark items !! n) as [[p flag]|] eqn:El; [|done]. injection E as ->.
    pose proof (take_drop_middle _ _ _ El) as Hs. symmetry in Hs.
    destruct (turn_stack_cut user_mark (fun _ _ => eq_refl) _ _ _ _ _ Hs) as (_ & _ & _ & _ & -> & _).
    by rewrite fmap_take.
Qed.
End scans.

(** * Cutting after a turn *)

Lemma first_position_Some {A} (p : A -> bool) l i :
  first_position p l = Some i <->
  (exists x, l !! i = Some x /\ p x = true) /\ forall j x, j < i -> l !! j = Some x -> p x = false.
Proof.
  revert i. induction l as [|y l IH]; intros i; cbn.
  - split; [done|]. by intros [(x & ? & _) _].
  - destruct (p y) eqn:Ep.
    + split; [intros [= <-]; split; [by exists y|lia]|]. intros [_ H]. destruct i as [|i]; [done|].
      specialize (H 0 y (Nat.lt_0_succ i) eq_refl). congruence.
    + split.
      * intros (k & Hk & ->)%fmap_Some. apply IH in Hk as [Hx Hno]. split; [done|].
        intros [|j] x Hj Hl; [by injection Hl as <-|]. apply (Hno j); [lia|done].
      * intros [(x & Hx & Hp) Hno]. destruct i as [|i]; [injection Hx as <-; congruence|].
        apply fmap_Some. exists i. split; [|done]. apply IH. split; [by exists x|].
        intros j z Hj. apply (Hno (S j)). lia.
Qed.

Lemma first_position_None {A} (p : A -> bool) l : first_position p l = None -> forall j x, l !! j = Some x -> p x = false.
Proof.
  induction l as [|y l IH]; cbn; intros Hn j x Hj; [done|]. destruct (p y) eqn:Ep; [done|].
  apply fmap_None in Hn. destruct j; [by injection Hj as <-|]. by eapply IH.
Qed.

(** Cutting after a turn keeps a beginning of the record that contains the start of the
    turn, starts no turn after it, and ends where the next turn starts, if there is one. *)
Lemma truncate_after_turn_spec {X} build_turns (items : list (RolloutItem X)) turn_id kept :
  truncate_rollout_after_turn_id build_turns items turn_id = Ok kept ->
  exists start, items !! start = Some (TurnStarted turn_id) /\ start < length kept /\ kept = take (length kept) items
    /\ (forall j item, start < j -> kept !! j = Some item -> is_turn_started item = false)
    /\ (kept = items \/ exists item, items !! length kept = Some item /\ is_turn_started item = true).
Proof.
  unfold truncate_rollout_after_turn_id. destruct (List.find _ _) as [turn|]; [|done].
  destruct (first_position _ items) as [start|] eqn:Ep; [|done]. destruct (in_progress turn); [done|].
  apply first_position_Some in Ep as [(x & Hx & Hp) _]. destruct x; try done. apply bool_decide_eq_true in Hp as ->.
  pose proof (lookup_lt_Some _ _ _ Hx) as Hlt.
  destruct (first_position is_turn_started (drop (S start) items)) as [i|] eqn:Er; intros [= <-]; exists start.
  - apply first_position_Some in Er as [(y & Hy & Hs) Hno]. rewrite lookup_drop in Hy.
    pose proof (lookup_lt_Some _ _ _ Hy) as Hlt2.
    change (S start + i) with (S (start + i)) in *.
    assert (length (take (S (start + i)) items) = S (start + i)) as -> by (rewrite length_take; lia).
    split; [done|]. split; [lia|]. split; [done|]. split; [|right; eauto].
    intros j item Hj Hk. apply lookup_take_Some in Hk as [Hk Hji].
    apply (Hno (j - S start)); [lia|]. rewrite lookup_drop. by replace (S start + (j - S start)) with j by lia.
  - rewrite firstn_all. split; [done|]. split; [done|]. split; [by rewrite firstn_all|]. split; [|by left].
    intros j item Hj Hk. apply (first_position_None _ _ Er (j - S start)). rewrite lookup_drop.
    by replace (S start + (j - S start)) with j by lia.
Qed.

(** * Samples *)

Definition sample_user (text : string) : RolloutItem unit := RItem (Message (lit "user") [MInputText (lit text)] tt).
Definition sample_fork_positions (items : list (RolloutItem unit)) : list nat :=
  fork_turn_positions_in_rollout (fun _ => None) (fun _ => false) (fun _ => false) items.
Definition sample_user_positions (items : list (RolloutItem unit)) : list nat :=
  user_message_positions_in_rollout (fun _ => false) (fun _ => false) items.
Definition sample_record : list (RolloutItem unit) :=
  [SessionMeta; sample_user "one"; OtherEvent; sample_user "two"; InterAgentCommunication false; ThreadRolledBack 2;
   sample_user "three"; OtherEvent].

Example sample_record_forks : sample_fork_positions sample_record = [1; 6].
Proof. by vm_compute. Qed.

(** A rollback counts instruction turns, messages of other agents included, but
    [user_message_positions_in_rollout] takes it to count user messages: the rollback of the
    turn of another agent hides the user message before it, and the record is not cut. *)
Lemma agent_turn_rollback_hides_user_message :
  let items := [sample_user "one"; InterAgentCommunication true; ThreadRolledBack 1] in
  sample_fork_positions items = [0] /\ sample_user_positions items = []
  /\ truncate_rollout_before_nth_user_message_from_start (fun _ => false) (fun _ => false) items (Some 0) = items.
Proof. by vm_compute. Qed.
