(* ===== verification/ShellEnv.v ===== *)
(** [protocol/src/shell_environment.rs] and [core/src/exec_env.rs]: the environment that a
    shell command is started with.

    Wildcard patterns (the [wildmatch] crate) are the class [WildMatch].  The target is
    the argument [windows]. *)

From stdpp Require Import base list option numbers strings gmap.
From Stdlib Require Import NArith Lia.
From S2P Require Import Prelude RustStr.
Local Open Scope rust_scope.

Class WildMatch (Pattern : Type) := {
  new_case_insensitive : str -> Pattern;
  pattern_matches : Pattern -> str -> bool;
}.

Inductive ShellEnvironmentPolicyInherit : Set := InheritCore | InheritAll | InheritNone.

Section env.
Context {Pattern : Type} `{WildMatch Pattern}.

Record ShellEnvironmentPolicy : Type := {
  env_inherit : ShellEnvironmentPolicyInherit;
  ignore_default_excludes : bool;
  env_exclude : list Pattern;
  env_set : gmap str str;
  env_include_only : list Pattern;
  use_profile : bool;
}.

Definition default_shell_environment_policy : ShellEnvironmentPolicy := {|
  env_inherit := InheritAll; ignore_default_excludes := true; env_exclude := []; env_set := ∅;
  env_include_only := []; use_profile := false |}.

Definition MOTYGA_THREAD_ID_ENV_VAR : str := lit "MOTYGA_THREAD_ID".
Definition MOTYGA_PERMISSION_PROFILE_ENV_VAR : str := lit "MOTYGA_PERMISSION_PROFILE".

Definition UNIX_CORE_ENV_VARS : list str :=
  lit <$> ["PATH"; "SHELL"; "TMPDIR"; "TEMP"; "TMP"; "HOME"; "LANG"; "LC_ALL"; "LC_CTYPE"; "LOGNAME"; "USER"].
Definition WINDOWS_CORE_ENV_VARS : list str :=
  lit <$> ["PATH"; "PATHEXT"; "SHELL"; "COMSPEC"; "SYSTEMROOT"; "SYSTEMDRIVE"; "USERNAME"; "USERDOMAIN"; "USERPROFILE";
           "HOMEDRIVE"; "HOMEPATH"; "PROGRAMFILES"; "PROGRAMFILES(X86)"; "PROGRAMW6432"; "PROGRAMDATA"; "LOCALAPPDATA";
           "APPDATA"; "TEMP"; "TMP"; "TMPDIR"; "POWERSHELL"; "PWSH"].
Definition core_env_vars (windows : bool) : list str := if windows then WINDOWS_CORE_ENV_VARS else UNIX_CORE_ENV_VARS.

(** [into_iter().collect()] into a [HashMap]: the last value of a name wins. *)
Definition collect_vars (vars : list (str * str)) : gmap str str := foldl (fun m kv => <[kv.1 := kv.2]> m) ∅ vars.

(** [HashMap::retain] by a predicate on the name. *)
Definition retain_names (p : str -> bool) (m : gmap str str) : gmap str str := filter (fun kv => p kv.1 = true) m.

Definition matches_any (name : str) (patterns : list Pattern) : bool :=
  existsb (fun pattern => pattern_matches pattern name) patterns.

Definition is_core_var (windows : bool) (k : str) : bool :=
  existsb (fun allowed => eq_ignore_ascii_case allowed k) (core_env_vars windows).

Definition inherited (windows : bool) (i : ShellEnvironmentPolicyInherit) (vars : list (str * str)) : gmap str str :=
  match i with
  | InheritAll => collect_vars vars
  | InheritNone => ∅
  | InheritCore => collect_vars (retain (fun kv => is_core_var windows kv.1) vars)
  end.

Definition default_excludes : list Pattern := new_case_insensitive ∘ lit <$> ["*KEY*"; "*SECRET*"; "*TOKEN*"].

Definition populate_env (windows : bool) (vars : list (str * str)) (policy : ShellEnvironmentPolicy)
    (thread_id : option str) : gmap str str :=
  let env_map := inherited windows policy.(env_inherit) vars in
  let env_map :=
    if negb policy.(ignore_default_excludes) then retain_names (fun k => negb (matches_any k default_excludes)) env_map
    else env_map in
  let env_map :=
    match policy.(env_exclude) with
    | [] => env_map
    | _ => retain_names (fun k => negb (matches_any k policy.(env_exclude))) env_map
    end in
  let env_map := map_fold (fun key val m => <[key := val]> m) env_map policy.(env_set) in
  let env_map :=
    match policy.(env_include_only) with
    | [] => env_map
    | _ => retain_names (fun k => matches_any k policy.(env_include_only)) env_map
    end in
  match thread_id with
  | Some thread_id => <[MOTYGA_THREAD_ID_ENV_VAR := thread_id]> env_map
  | None => env_map
  end.

Definition create_env_from_vars (windows : bool) (vars : list (str * str)) (policy : ShellEnvironmentPolicy)
    (thread_id : option str) : gmap str str :=
  let env_map := populate_env windows vars policy thread_id in
  if windows && negb (existsb (fun kv => eq_ignore_ascii_case kv.1 (lit "PATHEXT")) (map_to_list env_map))
  then <[lit "PATHEXT" := lit ".COM;.EXE;.BAT;.CMD"]> env_map else env_map.

(** [active_permission_profile]: its [id]. *)
Definition inject_permission_profile_env (windows : bool) (env : gmap str str) (active_permission_profile : option str)
  : gmap str str :=
  let env :=
    if windows then retain_names (fun key => negb (eq_ignore_ascii_case key MOTYGA_PERMISSION_PROFILE_ENV_VAR)) env
    else delete MOTYGA_PERMISSION_PROFILE_ENV_VAR env in
  match active_permission_profile with
  | Some profile => <[MOTYGA_PERMISSION_PROFILE_ENV_VAR := profile]> env
  | None => env
  end.

(** * What a variable is worth *)

(** The last value given to a name. *)
Definition last_value (vars : list (str * str)) (k : str) : option str :=
  last (omap (fun kv => if kv.1 == k then Some kv.2 else None) vars).

Definition may_inherit (windows : bool) (policy : ShellEnvironmentPolicy) (k : str) : bool :=
  match policy.(env_inherit) with InheritAll => true | InheritNone => false | InheritCore => is_core_var windows k end
  && (policy.(ignore_default_excludes)
      || forallb (fun p => negb (pattern_matches (new_case_insensitive (lit p)) k)) ["*KEY*"; "*SECRET*"; "*TOKEN*"])
  && negb (matches_any k policy.(env_exclude)).

Lemma default_exclusions k :
  negb (matches_any k default_excludes)
  = forallb (fun p => negb (pattern_matches (new_case_insensitive (lit p)) k)) ["*KEY*"; "*SECRET*"; "*TOKEN*"].
Proof. unfold matches_any, default_excludes. cbn. by rewrite !negb_orb. Qed.

Definition may_keep (policy : ShellEnvironmentPolicy) (k : str) : bool :=
  match policy.(env_include_only) with [] => true | patterns => matches_any k patterns end.

(** Of a variable [k]: the thread first, then what the policy sets, then what is inherited. *)
Definition policy_value (windows : bool) (vars : list (str * str)) (policy : ShellEnvironmentPolicy)
    (thread_id : option str) (k : str) : option str :=
  match (if k == MOTYGA_THREAD_ID_ENV_VAR then thread_id else None) with
  | Some thread_id => Some thread_id
  | None =>
      if may_keep policy k then
        match policy.(env_set) !! k with
        | Some val => Some val
        | None => if may_inherit windows policy k then last_value vars k else None
        end
      else None
  end.

Lemma lookup_retain_names p m k : retain_names p m !! k = if p k then m !! k else None.
Proof.
  unfold retain_names. rewrite map_lookup_filter. destruct (m !! k) as [v|]; cbn; [|by destruct (p k)].
  unfold guard. case_decide as Hd; cbn in *; destruct (p k); congruence.
Qed.

Lemma collect_vars_lookup vars k : collect_vars vars !! k = last_value vars k.
Proof.
  unfold collect_vars, last_value. induction vars as [|[k' v] vars IH] using rev_ind; [apply lookup_empty|].
  rewrite foldl_app, omap_app. cbn. case_bool_decide as Hk.
  - subst k'. by rewrite lookup_insert_eq, last_snoc.
  - by rewrite lookup_insert_ne, app_nil_r, IH.
Qed.

Lemma last_value_retain p vars k :
  last_value (retain (fun kv => p kv.1) vars) k = if p k then last_value vars k else None.
Proof.
  unfold last_value. destruct (p k) eqn:Ep.
  - f_equal. induction vars as [|[k' v] vars IH]; [done|]. cbn.
    case_bool_decide as Hk; [subst k'; rewrite Ep; cbn; by rewrite bool_decide_true, IH|].
    destruct (p k'); cbn; [by rewrite bool_decide_false|done].
  - apply last_None. induction vars as [|[k' v] vars IH]; [done|]. cbn. destruct (p k') eqn:Ek; [|done].
    cbn. rewrite bool_decide_false; [done|]. intros ->. congruence.
Qed.

Lemma inherited_lookup windows i vars k :
  inherited windows i vars !! k
  = if match i with InheritAll => true | InheritNone => false | InheritCore => is_core_var windows k end
    then last_value vars k else None.
Proof.
  destruct i; cbn; [|by apply collect_vars_lookup|by apply lookup_empty].
  by rewrite collect_vars_lookup, (last_value_retain (is_core_var windows)).
Qed.

Lemma set_loop_union (m env : gmap str str) : map_fold (fun key val m => <[key := val]> m) env m = m ∪ env.
Proof.
  apply (map_fold_weak_ind (fun r m => r = m ∪ env)); [by rewrite map_empty_union|].
  intros k v m' r _ ->. by rewrite insert_union_l.
Qed.

(** The environment the policy describes, variable by variable. *)
Lemma populate_env_lookup windows vars policy thread_id k :
  populate_env windows vars policy thread_id !! k = policy_value windows vars policy thread_id k.
Proof.
  unfold populate_env, policy_value. cbv zeta. rewrite set_loop_union.
  set (base := match policy.(env_exclude) with [] => _ | _ => _ end).
  assert (base !! k = if may_inherit windows policy k then last_value vars k else None) as Hbase.
  { unfold base, may_inherit. rewrite <- default_exclusions.
    set (starting := if negb (ignore_default_excludes policy) then _ else _).
    assert (starting !! k = if match env_inherit policy with InheritAll => true | InheritNone => false
                               | InheritCore => is_core_var windows k end
                               && (ignore_default_excludes policy || negb (matches_any k default_excludes))
                            then last_value vars k else None) as Hstart.
    { unfold starting. destruct (ignore_default_excludes policy); cbn [negb orb].
      - by rewrite andb_true_r, inherited_lookup.
      - rewrite lookup_retain_names, inherited_lookup. destruct (matches_any k default_excludes); cbn [negb];
          by rewrite ?andb_false_r, ?andb_true_r. }
    destruct (env_exclude policy) as [|e es] eqn:Ee; [by rewrite andb_true_r|].
    rewrite lookup_retain_names, Hstart. destruct (matches_any k (e :: es)); cbn [negb]; by rewrite ?andb_false_r, ?andb_true_r. }
  assert (forall m : gmap str str, (match policy.(env_include_only) with [] => m
            | _ => retain_names (fun k => matches_any k policy.(env_include_only)) m end) !! k
          = if may_keep policy k then m !! k else None) as Hkeep.
  { intros m. unfold may_keep. destruct (env_include_only policy); [done|]. by rewrite lookup_retain_names. }
  assert ((policy.(env_set) ∪ base) !! k = match policy.(env_set) !! k with Some val => Some val | None => base !! k end) as Hset.
  { rewrite lookup_union. by destruct (env_set policy !! k), (base !! k). }
  destruct thread_id as [t|]; case_bool_decide as Hk; [subst k; by rewrite lookup_insert_eq|rewrite lookup_insert_ne by done|..];
    by rewrite Hkeep, Hset, Hbase.
Qed.

(** The environment of a shell tool: [shell_command.rs] injects the profile after the policy. *)
Definition shell_tool_env (windows : bool) (vars : list (str * str)) (policy : ShellEnvironmentPolicy)
    (thread_id profile : option str) : gmap str str :=
  inject_permission_profile_env windows (create_env_from_vars windows vars policy thread_id) profile.

Definition same_name (windows : bool) (a b : str) : bool := if windows then eq_ignore_ascii_case a b else a == b.

Lemma same_name_refl windows k : same_name windows k k = true.
Proof. by destruct windows; apply bool_decide_true. Qed.

Lemma inject_lookup windows env profile k :
  inject_permission_profile_env windows env profile !! k =
  if same_name windows k MOTYGA_PERMISSION_PROFILE_ENV_VAR then
    if k == MOTYGA_PERMISSION_PROFILE_ENV_VAR then profile else None
  else env !! k.
Proof.
  unfold inject_permission_profile_env. set (cleared := if windows then _ else _).
  assert (cleared !! k = if same_name windows k MOTYGA_PERMISSION_PROFILE_ENV_VAR then None else env !! k) as Hc.
  { unfold cleared, same_name. destruct windows.
    - rewrite lookup_retain_names. by destruct (eq_ignore_ascii_case _ _).
    - case_bool_decide; [subst k; apply lookup_delete_eq|by rewrite lookup_delete_ne]. }
  case_bool_decide as Hk.
  - subst k. rewrite same_name_refl in *. destruct profile; [by rewrite lookup_insert_eq|done].
  - destruct profile; rewrite ?lookup_insert_ne by done; done.
Qed.

Lemma create_env_lookup windows vars policy thread_id k :
  let env := populate_env windows vars policy thread_id in
  create_env_from_vars windows vars policy thread_id !! k =
  match env !! k with
  | Some value => Some value
  | None =>
      if windows && (k == lit "PATHEXT")
         && bool_decide (map_Forall (fun name _ => eq_ignore_ascii_case name (lit "PATHEXT") = false) env)
      then Some (lit ".COM;.EXE;.BAT;.CMD") else None
  end.
Proof.
  cbv zeta. unfold create_env_from_vars. cbv zeta. set (env := populate_env windows vars policy thread_id).
  replace (negb (existsb _ _))
    with (bool_decide (map_Forall (fun name _ => eq_ignore_ascii_case name (lit "PATHEXT") = false) env)).
  2: { apply eq_true_iff_eq. rewrite bool_decide_eq_true, negb_true_iff, existsb_false, Forall_forall. split.
       - intros Hall [name v] Hin%elem_of_map_to_list. exact (Hall _ _ Hin).
       - intros Hall name v Hin. apply (Hall (name, v)). by apply elem_of_map_to_list. }
  destruct windows; cbn [andb]; [|by destruct (env !! k)].
  case_bool_decide as Hall; [|rewrite andb_false_r; by destruct (env !! k)]. rewrite andb_true_r.
  case_bool_decide as Hk; [|by rewrite lookup_insert_ne; [destruct (env !! k)|]].
  subst k. rewrite lookup_insert_eq. destruct (env !! lit "PATHEXT") as [v|] eqn:E; [|done].
  by pose proof (Hall _ _ E).
Qed.

(** C32: every variable of a shell tool's environment has the value the documentation of
    the policy gives it: the name of the active profile for [MOTYGA_PERMISSION_PROFILE]
    (nothing without a profile, whatever was inherited or set, and in any case of letters on
    Windows), the thread for [MOTYGA_THREAD_ID]; else what the policy sets, if the names to
    include allow it, else the last inherited value if it may be inherited and no exclusion
    matches.  On Windows alone, [PATHEXT] is added when the policy gives no variable of that
    name, whatever the case of its letters. *)
Theorem shell_env_exact windows vars policy thread_id profile k :
  let env := shell_tool_env windows vars policy thread_id profile in
  let value := policy_value windows vars policy thread_id in
  (same_name windows k MOTYGA_PERMISSION_PROFILE_ENV_VAR = true ->
     env !! k = if k == MOTYGA_PERMISSION_PROFILE_ENV_VAR then profile else None)
  /\ (same_name windows k MOTYGA_PERMISSION_PROFILE_ENV_VAR = false ->
     (forall v, value k = Some v -> env !! k = Some v)
     /\ (value k = None ->
          if windows && (k == lit "PATHEXT") then
            ((forall name, is_Some (value name) -> eq_ignore_ascii_case name (lit "PATHEXT") = false) ->
               env !! k = Some (lit ".COM;.EXE;.BAT;.CMD"))
            /\ (forall name, is_Some (value name) -> eq_ignore_ascii_case name (lit "PATHEXT") = true -> env !! k = None)
          else env !! k = None)).
Proof.
  cbv zeta. unfold shell_tool_env. rewrite inject_lookup, create_env_lookup, populate_env_lookup.
  split; [by intros ->|]. intros ->. split; [by intros v ->|]. intros ->.
  destruct (windows && (k == lit "PATHEXT")); [|done]. cbn [andb]. split.
  - intros Hn. rewrite bool_decide_true; [done|]. intros name v Hv. apply Hn. rewrite <- populate_env_lookup. by eexists.
  - intros name [v Hv] Hname. rewrite bool_decide_false; [done|]. intros Hall.
    rewrite <- populate_env_lookup in Hv. by rewrite (Hall _ _ Hv) in Hname.
Qed.

(** With the default exclusions on, a variable whose name they match does not get through
    unless the policy sets it. *)
Lemma excluded_not_inherited windows vars policy profile thread_id k :
  policy.(ignore_default_excludes) = false -> matches_any k default_excludes = true ->
  policy.(env_set) !! k = None -> k <> MOTYGA_THREAD_ID_ENV_VAR -> k <> MOTYGA_PERMISSION_PROFILE_ENV_VAR ->
  k <> lit "PATHEXT" -> shell_tool_env windows vars policy thread_id profile !! k = None.
Proof.
  intros Hd Hm Hset Ht Hp Hx. unfold shell_tool_env. rewrite inject_lookup, create_env_lookup, populate_env_lookup.
  assert (policy_value windows vars policy thread_id k = None) as ->.
  { unfold policy_value, may_inherit. rewrite (bool_decide_false (k = _)) by done. rewrite <- default_exclusions, Hset, Hd, Hm. cbn.
    rewrite andb_false_r. cbn. by destruct (may_keep policy k). }
  rewrite (bool_decide_false (k = MOTYGA_PERMISSION_PROFILE_ENV_VAR)), (bool_decide_false (k = lit "PATHEXT")) by done.
  rewrite andb_false_r. by destruct (same_name _ _ _).
Qed.
End env.
