(* ===== verification/HookOutput.v ===== *)
(** [hooks/src/schema.rs] (the shape of hook outputs) and
    [hooks/src/engine/output_parser.rs]: what a hook that exited successfully says.

    JSON is the class [HookJson]: its parser and the reading of each output shape.  A
    JSON value a hook passes on is of the type [Value]. *)

From stdpp Require Import base list option numbers strings.
From Stdlib Require Import NArith Lia.
From S2P Require Import Prelude RustStr.
Local Open Scope rust_scope.

(** * Shapes ([schema.rs]) *)

Record HookUniversalOutputWire : Type := {
  wire_continue : bool;
  wire_stop_reason : option str;
  wire_suppress_output : bool;
  wire_system_message : option str;
}.

Inductive PreToolUsePermissionDecisionWire : Set := PermissionAllow | PermissionDeny | PermissionAsk.
Inductive PreToolUseDecisionWire : Set := Approve | PreBlock.
Inductive BlockDecisionWire : Set := Block.
Inductive PermissionRequestBehaviorWire : Set := BehaviorAllow | BehaviorDeny.

Section shapes.
Context {Value : Type}.

Record PreToolUseHookSpecificOutputWire : Type := {
  permission_decision : option PreToolUsePermissionDecisionWire;
  permission_decision_reason : option str;
  pre_updated_input : option Value;
  pre_additional_context : option str;
}.
Record PreToolUseCommandOutputWire : Type := {
  pre_universal : HookUniversalOutputWire;
  pre_decision : option PreToolUseDecisionWire;
  pre_reason : option str;
  pre_hook_specific_output : option PreToolUseHookSpecificOutputWire;
}.

Record PermissionRequestDecisionWire : Type := {
  behavior : PermissionRequestBehaviorWire;
  permission_updated_input : option Value;
  updated_permissions : option Value;
  permission_message : option str;
  interrupt : bool;
}.
Record PermissionRequestCommandOutputWire : Type := {
  permission_universal : HookUniversalOutputWire;
  (** [None] without [hookSpecificOutput], [Some None] without a decision in it. *)
  permission_hook_specific_output : option (option PermissionRequestDecisionWire);
}.

Record PostToolUseHookSpecificOutputWire : Type := {
  post_additional_context : option str;
  updated_mcp_tool_output : option Value;
}.
Record PostToolUseCommandOutputWire : Type := {
  post_universal : HookUniversalOutputWire;
  post_decision : option BlockDecisionWire;
  post_reason : option str;
  post_hook_specific_output : option PostToolUseHookSpecificOutputWire;
}.

Record UserPromptSubmitCommandOutputWire : Type := {
  prompt_universal : HookUniversalOutputWire;
  prompt_decision : option BlockDecisionWire;
  prompt_reason : option str;
  (** The additional context of [hookSpecificOutput]. *)
  prompt_hook_specific_output : option (option str);
}.

(** Shared by [SessionStartCommandOutputWire] and [SubagentStartCommandOutputWire]. *)
Record StartCommandOutputWire : Type := {
  start_universal : HookUniversalOutputWire;
  (** The additional context of [hookSpecificOutput]. *)
  start_hook_specific_output : option (option str);
}.

Record StopCommandOutputWire : Type := {
  stop_universal : HookUniversalOutputWire;
  stop_decision : option BlockDecisionWire;
  stop_wire_reason : option str;
}.
End shapes.
Arguments PreToolUseHookSpecificOutputWire : clear implicits.
Arguments PreToolUseCommandOutputWire : clear implicits.
Arguments PermissionRequestDecisionWire : clear implicits.
Arguments PermissionRequestCommandOutputWire : clear implicits.
Arguments PostToolUseHookSpecificOutputWire : clear implicits.
Arguments PostToolUseCommandOutputWire : clear implicits.

Class HookJson (Value : Type) := {
  from_str : str -> option Value;
  is_object : Value -> bool;
  pre_tool_use_wire : Value -> option (PreToolUseCommandOutputWire Value);
  permission_request_wire : Value -> option (PermissionRequestCommandOutputWire Value);
  post_tool_use_wire : Value -> option (PostToolUseCommandOutputWire Value);
  user_prompt_submit_wire : Value -> option UserPromptSubmitCommandOutputWire;
  stop_wire : Value -> option StopCommandOutputWire;
  subagent_stop_wire : Value -> option StopCommandOutputWire;
  session_start_wire : Value -> option StartCommandOutputWire;
  subagent_start_wire : Value -> option StartCommandOutputWire;
  (** A compaction output has the universal fields only. *)
  pre_compact_wire : Value -> option HookUniversalOutputWire;
  post_compact_wire : Value -> option HookUniversalOutputWire;
}.

(** * [output_parser.rs] *)

Record UniversalOutput : Type := {
  continue_processing : bool;
  stop_reason : option str;
  suppress_output : bool;
  system_message : option str;
}.
Definition universal_from (value : HookUniversalOutputWire) : UniversalOutput := {|
  continue_processing := value.(wire_continue);
  stop_reason := value.(wire_stop_reason);
  suppress_output := value.(wire_suppress_output);
  system_message := value.(wire_system_message);
|}.

Inductive PermissionRequestDecision : Type := HookAllow | HookDeny (message : str).

Definition trimmed_reason (reason : str) : option str :=
  let trimmed := trim reason in if trimmed == [] then None else Some trimmed.

(** [reason.as_deref().and_then(trimmed_reason)]. *)
Definition trimmed_reason_opt (reason : option str) : option str := reason ≫= trimmed_reason.

Definition invalid_block_message (event_name : string) : str :=
  lit event_name ++ lit " hook returned decision:block without a non-empty reason".
Definition invalid_pre_tool_use_reason_message : str :=
  lit "PreToolUse hook returned permissionDecision:deny without a non-empty permissionDecisionReason".

Definition looks_like_json (stdout : str) : bool :=
  let trimmed := trim_start stdout in starts_with (lit "{") trimmed || starts_with (lit "[") trimmed.

Definition unsupported_pre_tool_use_universal (universal : UniversalOutput) : option str :=
  if negb universal.(continue_processing) then Some (lit "PreToolUse hook returned unsupported continue:false")
  else if is_some universal.(stop_reason) then Some (lit "PreToolUse hook returned unsupported stopReason")
  else if universal.(suppress_output) then Some (lit "PreToolUse hook returned unsupported suppressOutput")
  else None.

Definition unsupported_permission_request_universal (universal : UniversalOutput) : option str :=
  if negb universal.(continue_processing) then Some (lit "PermissionRequest hook returned unsupported continue:false")
  else if is_some universal.(stop_reason) then Some (lit "PermissionRequest hook returned unsupported stopReason")
  else if universal.(suppress_output) then Some (lit "PermissionRequest hook returned unsupported suppressOutput")
  else None.

Definition unsupported_post_tool_use_universal (universal : UniversalOutput) : option str :=
  if universal.(suppress_output) then Some (lit "PostToolUse hook returned unsupported suppressOutput") else None.

Definition or_else {A} (o : option A) (f : option A) : option A := match o with Some a => Some a | None => f end.

Section output.
Context {Value : Type} `{HookJson Value}.

Definition parse_json {T} (from_value : Value -> option T) (stdout : str) : option T :=
  let trimmed := trim stdout in
  if trimmed == [] then None
  else value ← from_str trimmed; if negb (is_object value) then None else from_value value.

Definition unsupported_pre_tool_use_hook_specific_output (output : PreToolUseHookSpecificOutputWire Value) : option str :=
  if is_some output.(pre_updated_input)
     && negb (match output.(permission_decision) with Some PermissionAllow => true | _ => false end)
  then Some (lit "PreToolUse hook returned updatedInput without permissionDecision:allow")
  else match output.(permission_decision) with
       | Some PermissionAllow =>
           if is_some output.(pre_updated_input) then None
           else Some (lit "PreToolUse hook returned unsupported permissionDecision:allow")
       | Some PermissionAsk => Some (lit "PreToolUse hook returned unsupported permissionDecision:ask")
       | Some PermissionDeny =>
           if is_some (trimmed_reason_opt output.(permission_decision_reason)) then None
           else Some invalid_pre_tool_use_reason_message
       | None =>
           if is_some output.(permission_decision_reason)
           then Some (lit "PreToolUse hook returned permissionDecisionReason without permissionDecision") else None
       end.

Definition unsupported_pre_tool_use_legacy_decision (decision : option PreToolUseDecisionWire) (reason : option str) : option str :=
  match decision with
  | Some Approve => Some (lit "PreToolUse hook returned unsupported decision:approve")
  | Some PreBlock => if is_some (trimmed_reason_opt reason) then None else Some (invalid_block_message "PreToolUse")
  | None => if is_some reason then Some (lit "PreToolUse hook returned reason without decision") else None
  end.

Record PreToolUseOutput : Type := {
  pto_universal : UniversalOutput;
  pto_block_reason : option str;
  pto_additional_context : option str;
  pto_updated_input : option Value;
  pto_invalid_reason : option str;
}.

Definition pre_tool_use_output (wire : PreToolUseCommandOutputWire Value) : PreToolUseOutput :=
  let universal := universal_from wire.(pre_universal) in
  let specific := wire.(pre_hook_specific_output) in
  let use_hook_specific_decision :=
    is_some_and (fun output => is_some output.(permission_decision) || is_some output.(permission_decision_reason)
                               || is_some output.(pre_updated_input)) specific in
  let invalid_reason :=
    or_else (unsupported_pre_tool_use_universal universal)
      (if use_hook_specific_decision then specific ≫= unsupported_pre_tool_use_hook_specific_output
       else unsupported_pre_tool_use_legacy_decision wire.(pre_decision) wire.(pre_reason)) in
  {| pto_universal := universal;
     pto_block_reason :=
       match invalid_reason with
       | Some _ => None
       | None =>
           if use_hook_specific_decision then
             output ← specific;
             match output.(permission_decision) with
             | Some PermissionDeny => trimmed_reason_opt output.(permission_decision_reason)
             | _ => None
             end
           else match wire.(pre_decision) with
                | Some PreBlock => trimmed_reason_opt wire.(pre_reason)
                | Some Approve | None => None
                end
       end;
     pto_additional_context := output ← specific; output.(pre_additional_context);
     pto_updated_input :=
       match invalid_reason with
       | Some _ => None
       | None =>
           output ← specific;
           match output.(permission_decision) with Some PermissionAllow => output.(pre_updated_input) | _ => None end
       end;
     pto_invalid_reason := invalid_reason |}.

Definition parse_pre_tool_use (stdout : str) : option PreToolUseOutput :=
  pre_tool_use_output <$> parse_json pre_tool_use_wire stdout.

Definition unsupported_permission_request_hook_specific_output (decision : option (PermissionRequestDecisionWire Value))
  : option str :=
  decision ← decision;
  if is_some decision.(permission_updated_input) then Some (lit "PermissionRequest hook returned unsupported updatedInput")
  else if is_some decision.(updated_permissions) then Some (lit "PermissionRequest hook returned unsupported updatedPermissions")
  else if decision.(interrupt) then Some (lit "PermissionRequest hook returned unsupported interrupt:true")
  else None.

Definition permission_request_decision (decision : PermissionRequestDecisionWire Value) : PermissionRequestDecision :=
  match decision.(behavior) with
  | BehaviorAllow => HookAllow
  | BehaviorDeny =>
      HookDeny (default (lit "PermissionRequest hook denied approval") (trimmed_reason_opt decision.(permission_message)))
  end.

Record PermissionRequestOutput : Type := {
  pro_universal : UniversalOutput;
  pro_decision : option PermissionRequestDecision;
  pro_invalid_reason : option str;
}.

Definition permission_request_output (wire : PermissionRequestCommandOutputWire Value) : PermissionRequestOutput :=
  let universal := universal_from wire.(permission_universal) in
  let specific := wire.(permission_hook_specific_output) in
  let invalid_reason :=
    or_else (unsupported_permission_request_universal universal)
      (specific ≫= unsupported_permission_request_hook_specific_output) in
  {| pro_universal := universal;
     pro_decision := match invalid_reason with
                     | Some _ => None
                     | None => permission_request_decision <$> mjoin specific
                     end;
     pro_invalid_reason := invalid_reason |}.

Definition parse_permission_request (stdout : str) : option PermissionRequestOutput :=
  permission_request_output <$> parse_json permission_request_wire stdout.

(** A block without a reason. *)
Definition block_without_reason (decision : option BlockDecisionWire) (reason : option str) : bool :=
  is_some decision && match reason with Some reason => trim reason == [] | None => true end.

Record PostToolUseOutput : Type := {
  post_out_universal : UniversalOutput;
  post_out_should_block : bool;
  post_out_reason : option str;
  post_out_invalid_block_reason : option str;
  post_out_additional_context : option str;
  post_out_invalid_reason : option str;
}.

Definition unsupported_post_tool_use_hook_specific_output (output : PostToolUseHookSpecificOutputWire Value) : option str :=
  if is_some output.(updated_mcp_tool_output)
  then Some (lit "PostToolUse hook returned unsupported updatedMCPToolOutput") else None.

Definition post_tool_use_output (wire : PostToolUseCommandOutputWire Value) : PostToolUseOutput :=
  let universal := universal_from wire.(post_universal) in
  let invalid_reason :=
    or_else (unsupported_post_tool_use_universal universal)
      (wire.(post_hook_specific_output) ≫= unsupported_post_tool_use_hook_specific_output) in
  let should_block := is_some wire.(post_decision) in
  let invalid_block_reason :=
    if block_without_reason wire.(post_decision) wire.(post_reason) then Some (invalid_block_message "PostToolUse")
    else if negb should_block && universal.(continue_processing) && is_some wire.(post_reason)
    then Some (lit "PostToolUse hook returned reason without decision")
    else None in
  {| post_out_universal := universal;
     post_out_should_block := should_block && negb (is_some invalid_reason) && negb (is_some invalid_block_reason);
     post_out_reason := wire.(post_reason);
     post_out_invalid_block_reason := invalid_block_reason;
     post_out_additional_context := output ← wire.(post_hook_specific_output); output.(post_additional_context);
     post_out_invalid_reason := invalid_reason |}.

Definition parse_post_tool_use (stdout : str) : option PostToolUseOutput :=
  post_tool_use_output <$> parse_json post_tool_use_wire stdout.

Record UserPromptSubmitOutput : Type := {
  prompt_out_universal : UniversalOutput;
  prompt_out_should_block : bool;
  prompt_out_reason : option str;
  prompt_out_invalid_block_reason : option str;
  prompt_out_additional_context : option str;
}.

Definition user_prompt_submit_output (wire : UserPromptSubmitCommandOutputWire) : UserPromptSubmitOutput :=
  let invalid_block_reason :=
    if block_without_reason wire.(prompt_decision) wire.(prompt_reason)
    then Some (invalid_block_message "UserPromptSubmit") else None in
  {| prompt_out_universal := universal_from wire.(prompt_universal);
     prompt_out_should_block := is_some wire.(prompt_decision) && negb (is_some invalid_block_reason);
     prompt_out_reason := wire.(prompt_reason);
     prompt_out_invalid_block_reason := invalid_block_reason;
     prompt_out_additional_context := mjoin wire.(prompt_hook_specific_output) |}.

Definition parse_user_prompt_submit (stdout : str) : option UserPromptSubmitOutput :=
  user_prompt_submit_output <$> parse_json user_prompt_submit_wire stdout.

Record StopOutput : Type := {
  stop_out_universal : UniversalOutput;
  stop_out_should_block : bool;
  stop_out_reason : option str;
  stop_out_invalid_block_reason : option str;
}.

Definition stop_output (event_name : string) (wire : StopCommandOutputWire) : StopOutput :=
  let invalid_block_reason :=
    if block_without_reason wire.(stop_decision) wire.(stop_wire_reason)
    then Some (invalid_block_message event_name) else None in
  {| stop_out_universal := universal_from wire.(stop_universal);
     stop_out_should_block := is_some wire.(stop_decision) && negb (is_some invalid_block_reason);
     stop_out_reason := wire.(stop_wire_reason);
     stop_out_invalid_block_reason := invalid_block_reason |}.

Definition parse_stop (stdout : str) : option StopOutput := stop_output "Stop" <$> parse_json stop_wire stdout.
Definition parse_subagent_stop (stdout : str) : option StopOutput :=
  stop_output "SubagentStop" <$> parse_json subagent_stop_wire stdout.

Record SessionStartOutput : Type := {
  start_out_universal : UniversalOutput;
  start_out_additional_context : option str;
}.

Definition session_start_output (wire : StartCommandOutputWire) : SessionStartOutput := {|
  start_out_universal := universal_from wire.(start_universal);
  start_out_additional_context := mjoin wire.(start_hook_specific_output);
|}.

Definition parse_session_start (stdout : str) : option SessionStartOutput :=
  session_start_output <$> parse_json session_start_wire stdout.
Definition parse_subagent_start (stdout : str) : option SessionStartOutput :=
  session_start_output <$> parse_json subagent_start_wire stdout.

(** [PreCompactOutput] and [StatelessHookOutput]. *)
Record StatelessHookOutput : Type := {
  stateless_universal : UniversalOutput;
  stateless_invalid_reason : option str;
}.

Definition parse_pre_compact (stdout : str) : option StatelessHookOutput :=
  (fun wire => {| stateless_universal := universal_from wire; stateless_invalid_reason := None |})
    <$> parse_json pre_compact_wire stdout.
Definition parse_post_compact (stdout : str) : option StatelessHookOutput :=
  (fun wire => {| stateless_universal := universal_from wire; stateless_invalid_reason := None |})
    <$> parse_json post_compact_wire stdout.
End output.
Arguments PreToolUseOutput : clear implicits.

(** * What the parsers accept *)

Section output_facts.
Context {Value : Type} `{HookJson Value}.

Lemma trimmed_reason_nonempty reason t : trimmed_reason reason = Some t -> t <> [].
Proof. unfold trimmed_reason. case_match eqn:E; [done|]. intros [= <-] Ht. by rewrite Ht in E. Qed.

Lemma trimmed_reason_opt_nonempty reason t : trimmed_reason_opt reason = Some t -> t <> [].
Proof. destruct reason; [apply trimmed_reason_nonempty|done]. Qed.

(** A rejected PreToolUse output carries no verdict, and no output both blocks and rewrites. *)
Lemma pre_tool_use_output_verdict (wire : PreToolUseCommandOutputWire Value) :
  let out := pre_tool_use_output wire in
  (is_some out.(pto_invalid_reason) = true -> out.(pto_block_reason) = None /\ out.(pto_updated_input) = None)
  /\ (out.(pto_block_reason) = None \/ out.(pto_updated_input) = None)
  /\ (forall reason, out.(pto_block_reason) = Some reason -> reason <> []).
Proof.
  cbn. set (invalid := or_else _ _). destruct invalid as [why|] eqn:E; cbn; [naive_solver|].
  split; [done|]. destruct (pre_hook_specific_output wire) as [o|] eqn:Eo; cbn.
  - destruct (permission_decision o) as [[]|]; cbn; (split; [naive_solver|]); intros reason Hreason;
      repeat (case_match; try done); try done; exact (trimmed_reason_opt_nonempty _ _ Hreason).
  - split; [by right|]. intros reason Hreason. repeat (case_match; try done); try done; exact (trimmed_reason_opt_nonempty _ _ Hreason).
Qed.

(** A PermissionRequest output decides only when it uses supported fields. *)
Lemma permission_request_output_decision (wire : PermissionRequestCommandOutputWire Value) d :
  (permission_request_output wire).(pro_decision) = Some d <->
  unsupported_permission_request_universal (universal_from wire.(permission_universal)) = None
  /\ exists decision, wire.(permission_hook_specific_output) = Some (Some decision)
       /\ decision.(permission_updated_input) = None /\ decision.(updated_permissions) = None
       /\ decision.(interrupt) = false /\ permission_request_decision decision = d.
Proof.
  unfold permission_request_output. cbn [pro_decision].
  destruct (unsupported_permission_request_universal _) as [why|]; cbn [or_else]; [naive_solver|].
  destruct (permission_hook_specific_output wire) as [[decision|]|]; cbn; [|by split; [|intros [_ (?&?&_)]]..].
  destruct (permission_updated_input decision) eqn:E1; cbn; [naive_solver|].
  destruct (updated_permissions decision) eqn:E2; cbn; [naive_solver|].
  destruct (interrupt decision) eqn:E3; cbn.
  - split; [done|]. intros (_ & ? & [= <-] & _ & _ & ? & _). congruence.
  - split; [intros [= <-]; eauto 10|]. by intros (_ & ? & [= <-] & _ & _ & _ & <-).
Qed.

(** A block without a reason blocks nothing. *)
Lemma post_tool_use_output_block (wire : PostToolUseCommandOutputWire Value) :
  let out := post_tool_use_output wire in
  out.(post_out_should_block) = true ->
  out.(post_out_invalid_reason) = None /\ out.(post_out_invalid_block_reason) = None
  /\ exists reason, out.(post_out_reason) = Some reason /\ trim reason <> [].
Proof.
  cbn. rewrite !andb_true_iff, !negb_true_iff. intros [[Hd H1] H2].
  unfold block_without_reason in *. rewrite Hd in *. cbn in *.
  split; [by destruct (or_else _ _)|].
  destruct (post_reason wire) as [reason|]; cbn in *; [|done]. case_bool_decide; cbn in *; [done|eauto].
Qed.

Lemma user_prompt_submit_output_block (wire : UserPromptSubmitCommandOutputWire) :
  let out := user_prompt_submit_output wire in
  out.(prompt_out_should_block) = true ->
  out.(prompt_out_invalid_block_reason) = None
  /\ exists reason, out.(prompt_out_reason) = Some reason /\ trim reason <> [].
Proof.
  cbn. rewrite andb_true_iff, negb_true_iff. intros [Hd H1].
  unfold block_without_reason in *. rewrite Hd in *. cbn in *.
  destruct (prompt_reason wire) as [reason|]; cbn in *; [|done]. case_bool_decide; cbn in *; [done|eauto].
Qed.
End output_facts.
