(* ===== verification/HookEvents.v ===== *)
(** [hooks/src]: choosing and running the hooks of an event.  [engine/dispatcher.rs],
    [engine/command_runner.rs], [events/common.rs] and the protocol's description of a
    hook run.  The verdict of each event is in HookRuns.v.

    The handlers of an event run side by side.  What each process did is a
    [HookProcess], and the order in which the handlers finish is a list of their
    positions in the configured order.  The clock and the [regex] crate are inputs. *)

From stdpp Require Import base list option numbers strings pretty gmap sorting.
From Stdlib Require Import NArith ZArith Lia.
From S2P Require Import Prelude RustStr AbsolutePath Constrained HookRequirements HookOutput.
Local Open Scope rust_scope.

(** * Data *)

Inductive HookSource : Set :=
| SourceSystem | SourceUser | SourceProject | SourceMdm | SourceSessionFlags | SourcePlugin
| SourceCloudRequirements | SourceCloudManagedConfig | SourceLegacyManagedConfigFile
| SourceLegacyManagedConfigMdm | SourceUnknown.
Inductive HookScope : Set := ScopeThread | ScopeTurn.
Inductive HookRunStatus : Set := Running | Completed | Failed | Blocked | Stopped.
Inductive HookOutputEntryKind : Set := EntryWarning | EntryStop | EntryFeedback | EntryContext | EntryError.
Record HookOutputEntry : Type := entry { entry_kind : HookOutputEntryKind; entry_text : str }.

Record ConfiguredHandler : Type := {
  handler_event : HookEventName;
  handler_matcher : option str;
  handler_command : str;
  handler_timeout_sec : N;
  handler_status_message : option str;
  handler_source_path : PathBuf;
  handler_source : HookSource;
  handler_display_order : Z;
  handler_env : gmap str str;
}.

(** The handler type and the execution mode of a summary are constants. *)
Record HookRunSummary : Type := {
  run_id_of : str;
  run_event : HookEventName;
  run_scope : HookScope;
  run_source_path : PathBuf;
  run_source : HookSource;
  run_display_order : Z;
  run_status : HookRunStatus;
  run_status_message : option str;
  run_started_at : Z;
  run_completed_at : option Z;
  run_duration_ms : option Z;
  run_entries : list HookOutputEntry;
}.
Record HookCompletedEvent : Type := { event_turn_id : option str; event_run : HookRunSummary }.

Record CommandRunResult : Type := {
  started_at : Z;
  completed_at : Z;
  duration_ms : Z;
  exit_code : option Z;
  stdout : str;
  stderr : str;
  run_error : option str;
}.

(** * [command_runner.rs] *)

Inductive WaitOutcome : Type :=
| Exited (code : option Z) (stdout stderr : str)
| WaitFailed (error : str)
| TimedOut.

(** What happens to the process of a handler.  Its standard input is written before the
    wait, and the timeout covers the wait only; the outputs are decoded lossily. *)
Record HookProcess : Type := {
  spawn_error : option str;
  stdin_error : option str;
  wait_outcome : WaitOutcome;
  spawned_at : Z;
  reported_at : Z;
  elapsed_ms : N;
}.

(** [.try_into().unwrap_or(i64::MAX)]. *)
Definition i64_saturating (n : N) : Z := if (n <? 2 ^ 63)%N then Z.of_N n else (2 ^ 63 - 1)%Z.

Definition run_result (p : HookProcess) (code : option Z) (out err : str) (error : option str) : CommandRunResult := {|
  started_at := p.(spawned_at); completed_at := p.(reported_at); duration_ms := i64_saturating p.(elapsed_ms);
  exit_code := code; stdout := out; stderr := err; run_error := error |}.

Definition run_command (handler : ConfiguredHandler) (p : HookProcess) : CommandRunResult :=
  match p.(spawn_error) with
  | Some err => run_result p None [] [] (Some err)
  | None =>
      match p.(stdin_error) with
      | Some err => run_result p None [] [] (Some (lit "failed to write hook stdin: " ++ err))
      | None =>
          match p.(wait_outcome) with
          | Exited code out err => run_result p code out err None
          | WaitFailed err => run_result p None [] [] (Some err)
          | TimedOut =>
              run_result p None [] []
                (Some (lit "hook timed out after " ++ lit (pretty handler.(handler_timeout_sec)) ++ lit "s"))
          end
      end
  end.

(** * Run identifiers *)

Definition event_name_label (e : HookEventName) : str :=
  lit match e with
      | PreToolUse => "pre-tool-use" | PermissionRequest => "permission-request" | PostToolUse => "post-tool-use"
      | PreCompact => "pre-compact" | PostCompact => "post-compact" | SessionStart => "session-start"
      | UserPromptSubmit => "user-prompt-submit" | SubagentStart => "subagent-start"
      | SubagentStop => "subagent-stop" | Stop => "stop"
      end.
Definition run_id (self : ConfiguredHandler) : str :=
  event_name_label self.(handler_event) ++ lit ":" ++ lit (pretty self.(handler_display_order)) ++ lit ":"
  ++ path_str self.(handler_source_path).

(** * [common.rs] *)

Definition join_text_chunks (chunks : list str) : option str :=
  match chunks with [] => None | _ => Some (join [NL; NL] chunks) end.
Definition trimmed_non_empty (text : str) : option str :=
  let trimmed := trim text in if trimmed == [] then None else Some trimmed.

Definition hook_run_for_tool_use (run : HookRunSummary) (tool_use_id : str) : HookRunSummary := {|
  run_id_of := run.(run_id_of) ++ lit ":" ++ tool_use_id;
  run_event := run.(run_event); run_scope := run.(run_scope); run_source_path := run.(run_source_path);
  run_source := run.(run_source); run_display_order := run.(run_display_order); run_status := run.(run_status);
  run_status_message := run.(run_status_message); run_started_at := run.(run_started_at);
  run_completed_at := run.(run_completed_at); run_duration_ms := run.(run_duration_ms); run_entries := run.(run_entries) |}.
Definition hook_completed_for_tool_use (event : HookCompletedEvent) (tool_use_id : str) : HookCompletedEvent := {|
  event_turn_id := event.(event_turn_id); event_run := hook_run_for_tool_use event.(event_run) tool_use_id |}.

Definition is_match_all_matcher (matcher : str) : bool := (matcher == []) || (matcher == lit "*").
Definition is_exact_matcher (matcher : str) : bool :=
  forallb (fun ch => in_range 48 57 ch || in_range 65 90 ch || in_range 97 122 ch || (ch == 95%N) || (ch == 124%N)) matcher.

Definition matcher_inputs (tool_name : str) (matcher_aliases : list str) : list str := tool_name :: matcher_aliases.

Definition matcher_pattern_for_event (event_name : HookEventName) (matcher : option str) : option str :=
  match event_name with UserPromptSubmit | Stop => None | _ => matcher end.

(** The entries and the contexts after [append_additional_context]. *)
Definition append_additional_context (entries : list HookOutputEntry) (contexts : list str) (context : str)
  : list HookOutputEntry * list str := (entries ++ [entry EntryContext context], contexts ++ [context]).

Section hooks.
(** [regex::Regex::new(matcher)] and [is_match]. *)
Context (regex_new : str -> option (str -> bool)).

Definition matches_matcher (matcher input : option str) : bool :=
  match matcher with
  | None => true
  | Some matcher =>
      if is_match_all_matcher matcher then true
      else if is_exact_matcher matcher then
        is_some_and (fun input => existsb (fun candidate => candidate == input) (split_on 124%N matcher)) input
      else is_some_and (fun input => is_some_and (fun is_match => is_match input) (regex_new matcher)) input
  end.

Definition validate_matcher_pattern (matcher : str) : bool :=
  is_match_all_matcher matcher || is_exact_matcher matcher || is_some (regex_new matcher).

(** * [dispatcher.rs] *)

Definition handler_matches (event_name : HookEventName) (inputs : list str) (handler : ConfiguredHandler) : bool :=
  match event_name with
  | UserPromptSubmit | Stop => true
  | _ =>
      match inputs with
      | [] => matches_matcher handler.(handler_matcher) None
      | _ => existsb (fun input => matches_matcher handler.(handler_matcher) (Some input)) inputs
      end
  end.

Definition select_handlers_for_matcher_inputs (handlers : list ConfiguredHandler) (event_name : HookEventName)
    (inputs : list str) : list ConfiguredHandler :=
  retain (handler_matches event_name inputs) (retain (fun h => h.(handler_event) == event_name) handlers).

Definition select_handlers (handlers : list ConfiguredHandler) (event_name : HookEventName) (input : option str)
  : list ConfiguredHandler :=
  select_handlers_for_matcher_inputs handlers event_name (match input with Some i => [i] | None => [] end).

Definition scope_for_event (event_name : HookEventName) : HookScope :=
  match event_name with SessionStart | SubagentStart => ScopeThread | _ => ScopeTurn end.

Definition running_summary (now : Z) (handler : ConfiguredHandler) : HookRunSummary := {|
  run_id_of := run_id handler; run_event := handler.(handler_event); run_scope := scope_for_event handler.(handler_event);
  run_source_path := handler.(handler_source_path); run_source := handler.(handler_source);
  run_display_order := handler.(handler_display_order); run_status := Running;
  run_status_message := handler.(handler_status_message); run_started_at := now; run_completed_at := None;
  run_duration_ms := None; run_entries := [] |}.

Definition completed_summary (handler : ConfiguredHandler) (r : CommandRunResult) (status : HookRunStatus)
    (entries : list HookOutputEntry) : HookRunSummary := {|
  run_id_of := run_id handler; run_event := handler.(handler_event); run_scope := scope_for_event handler.(handler_event);
  run_source_path := handler.(handler_source_path); run_source := handler.(handler_source);
  run_display_order := handler.(handler_display_order); run_status := status;
  run_status_message := handler.(handler_status_message); run_started_at := r.(started_at);
  run_completed_at := Some r.(completed_at); run_duration_ms := Some r.(duration_ms); run_entries := entries |}.

(** [clock k]: the time at which the summary of the handler in position [k] is made. *)
Definition serialization_failure_hook_events (clock : nat -> Z) (handlers : list ConfiguredHandler)
    (turn_id : option str) (error_message : str) : list HookCompletedEvent :=
  imap (fun k handler =>
     let run := running_summary (clock k) handler in
     {| event_turn_id := turn_id;
        event_run := {| run_id_of := run.(run_id_of); run_event := run.(run_event); run_scope := run.(run_scope);
          run_source_path := run.(run_source_path); run_source := run.(run_source);
          run_display_order := run.(run_display_order); run_status := Failed;
          run_status_message := run.(run_status_message); run_started_at := run.(run_started_at);
          run_completed_at := Some run.(run_started_at); run_duration_ms := Some 0%Z;
          run_entries := [entry EntryError error_message] |} |}) handlers.

Definition serialization_failure_hook_events_for_tool_use (clock : nat -> Z) (handlers : list ConfiguredHandler)
    (turn_id : option str) (error_message tool_use_id : str) : list HookCompletedEvent :=
  (fun event => hook_completed_for_tool_use event tool_use_id)
    <$> serialization_failure_hook_events clock handlers turn_id error_message.
End hooks.

Record ParsedHandler (T : Type) : Type := { completed : HookCompletedEvent; data : T; completion_order : nat }.
Arguments completed {T} _.
Arguments data {T} _.
Arguments completion_order {T} _.

Section execute.
Context {T : Type} (process : nat -> ConfiguredHandler -> str -> HookProcess)
  (parse : ConfiguredHandler -> CommandRunResult -> option str -> ParsedHandler T).

(** What the handler in position [k] of the configured order gives. *)
Definition run_handler (input_json : str) (turn_id : option str) (k : nat) (handler : ConfiguredHandler)
  : ParsedHandler T :=
  parse handler (run_command handler (process k handler input_json)) turn_id.

(** [order]: the configured positions in the order in which the handlers finish. *)
Definition execute_handlers (order : list nat) (handlers : list ConfiguredHandler) (input_json : str)
    (turn_id : option str) : list (ParsedHandler T) :=
  let completed_handlers :=
    omap (fun x => x) (imap (fun completion_order k =>
      (fun handler =>
         let p := run_handler input_json turn_id k handler in
         (k, {| completed := p.(completed); data := p.(data); completion_order := completion_order |}))
        <$> handlers !! k) order) in
  snd <$> sort_by_key fst completed_handlers.
End execute.

(** * Facts *)

(** The position at which a handler finished. *)
Definition finish_position (order : list nat) (k : nat) : nat := default 0 (fst <$> list_find (eq k) order).

Lemma finish_position_lookup order i k : NoDup order -> order !! i = Some k -> finish_position order k = i.
Proof.
  intros Hnd Hi. unfold finish_position.
  replace (list_find (eq k) order) with (Some (i, k)); [done|].
  symmetry. apply list_find_Some. split; [done|split; [done|]].
  intros j y Hj Hlt <-. by pose proof (NoDup_lookup _ _ _ _ Hnd Hi Hj); lia.
Qed.

Lemma sort_by_key_cons_perm {A} (key : A -> nat) x l : insert_by_key key x l ≡ₚ x :: l.
Proof.
  induction l as [|y l IH]; cbn; [done|]. destruct (key x <=? key y); [done|]. rewrite IH. apply Permutation_swap.
Qed.

Lemma sort_by_key_perm {A} (key : A -> nat) l : sort_by_key key l ≡ₚ l.
Proof. induction l as [|x l IH]; cbn; [done|]. by rewrite sort_by_key_cons_perm, IH. Qed.

(** Sorting by distinct keys undoes any permutation. *)
Lemma sort_by_key_unique {A} (key : A -> nat) (l1 l2 : list A) :
  l1 ≡ₚ l2 -> NoDup (key <$> l2) -> Sorted (fun a b => key a <= key b) l2 -> sort_by_key key l1 = l2.
Proof.
  intros Hperm Hnd Hsorted.
  assert (Transitive (fun a b : A => key a <= key b)) by (intros ???; lia).
  apply (StronglySorted_unique_strong (fun a b => key a <= key b)).
  - intros x y Hx Hy ??. rewrite sort_by_key_elem, Hperm in Hx.
    apply list_elem_of_lookup_1 in Hx as [i Hi], Hy as [j Hj].
    assert (i = j) as ->; [|by simplify_eq].
    eapply (NoDup_lookup (key <$> l2)); [done| |].
    + by rewrite list_lookup_fmap, Hi.
    + rewrite list_lookup_fmap, Hj. cbn. f_equal. lia.
  - apply Sorted_StronglySorted; [done|]. apply sort_by_key_sorted.
  - by apply Sorted_StronglySorted.
  - by rewrite sort_by_key_perm.
Qed.

Lemma omap_lookup_seq {A B} (g : nat -> A -> B) (l : list A) :
  omap (fun k => g k <$> l !! k) (seq 0 (length l)) = imap g l.
Proof.
  enough (forall pre, omap (fun k => g k <$> (pre ++ l) !! k) (seq (length pre) (length l))
                      = imap (fun i => g (length pre + i)) l) as He by exact (He []).
  induction l as [|x l IH]; intros pre; [done|]. cbn [length seq omap list_omap].
  rewrite list_lookup_middle by done. cbn. rewrite Nat.add_0_r. f_equal.
  specialize (IH (pre ++ [x])). rewrite <- app_assoc, length_app, Nat.add_1_r in IH. cbn in IH. rewrite IH.
  apply imap_ext. intros i y _. cbn. f_equal. lia.
Qed.

Lemma omap_omap {A B C} (f : A -> option B) (g : B -> option C) (l : list A) :
  omap g (omap f l) = omap (fun x => f x ≫= g) l.
Proof. induction l as [|x l IH]; [done|]. cbn. destruct (f x) as [y|]; cbn; [|done]. by rewrite IH. Qed.

Lemma omap_imap_seq {A B C} (g : nat -> A -> B) (f : B -> option C) (l : list A) :
  omap f (imap g l) = omap (fun k => imap g l !! k ≫= f) (seq 0 (length l)).
Proof.
  rewrite <- omap_lookup_seq at 1. rewrite omap_omap. apply list_omap_ext, Forall_Forall2_diag, Forall_forall.
  intros k _. by rewrite list_lookup_imap.
Qed.

Lemma omap_imap_lookup {A B} (f : nat -> A -> option B) (g : A -> option B) (l : list A) :
  (forall i x, l !! i = Some x -> f i x = g x) -> omap (fun y => y) (imap f l) = omap g l.
Proof.
  revert f. induction l as [|x l IH]; intros f Hf; [done|]. cbn.
  rewrite (Hf 0 x) by done. rewrite (IH (f ∘ S)); [done|]. intros i y Hi. by apply (Hf (S i)).
Qed.

(** The value of the handler that finished last is the last value in the order of finishing. *)
Lemma latest_finisher {A} (f : nat -> option A) order n :
  order ≡ₚ seq 0 n ->
  snd <$> max_by_key Nat.leb fst (omap (fun k => (fun v => (finish_position order k, v)) <$> f k) (seq 0 n))
  = last (omap f order).
Proof.
  intros Hperm. assert (NoDup order) as Hnd by (rewrite Hperm; apply NoDup_seq).
  set (l := omap _ (seq 0 n)).
  destruct (max_by_key Nat.leb fst l) as [[p v]|] eqn:E; cbn.
  - apply max_by_key_Some in E as [Hin Hmax];
      [|intros; apply Nat.leb_refl|intros ???; rewrite !Nat.leb_le; lia|intros ??; rewrite Nat.leb_gt, Nat.leb_le; lia].
    apply list_elem_of_omap in Hin as (k & Hk & Hfk). destruct (f k) as [w|] eqn:Ef; [|done]. cbn in Hfk.
    injection Hfk as Hp ->. rewrite <- Hperm in Hk. apply list_elem_of_lookup_1 in Hk as [i Hi].
    pose proof (finish_position_lookup _ _ _ Hnd Hi) as Hpos. rewrite Hp in Hpos. subst i.
    rewrite <- (take_drop_middle _ _ _ Hi), omap_app. cbn. rewrite Ef.
    assert (omap f (drop (S p) order) = []) as ->; [|by rewrite last_snoc].
    destruct (omap f (drop (S p) order)) as [|w ws] eqn:Ed; [done|exfalso].
    assert (w ∈ omap f (drop (S p) order)) as Hw by (rewrite Ed; by left).
    apply list_elem_of_omap in Hw as (j & Hj & Hfj). apply list_elem_of_lookup_1 in Hj as [m Hm].
    rewrite lookup_drop in Hm. pose proof (finish_position_lookup _ _ _ Hnd Hm) as Hpj.
    specialize (Hmax (finish_position order j, w)). cbn in Hmax. rewrite Nat.leb_le, Hpj in Hmax.
    enough (S p + m <= p) by lia. apply Hmax. apply list_elem_of_omap. exists j. rewrite Hfj. cbn.
    split; [|by rewrite Hpj]. rewrite <- Hperm. by eapply list_elem_of_lookup_2.
  - apply max_by_key_None in E. symmetry. apply last_None.
    destruct (omap f order) as [|w ws] eqn:Ed; [done|exfalso].
    assert (w ∈ omap f order) as Hw by (rewrite Ed; by left). apply list_elem_of_omap in Hw as (j & Hj & Hfj).
    rewrite Hperm in Hj. apply (not_elem_of_nil (finish_position order j, w)). rewrite <- E.
    apply list_elem_of_omap. exists j. by rewrite Hfj.
Qed.

Section execute_facts.
Context {T : Type} (process : nat -> ConfiguredHandler -> str -> HookProcess)
  (parse : ConfiguredHandler -> CommandRunResult -> option str -> ParsedHandler T).

(** Whatever the order in which the handlers finish, the results are in configured order;
    the order of completion only numbers them. *)
Lemma execute_handlers_spec order handlers input_json turn_id :
  order ≡ₚ seq 0 (length handlers) ->
  execute_handlers process parse order handlers input_json turn_id =
  imap (fun k handler =>
    let p := run_handler process parse input_json turn_id k handler in
    {| completed := p.(completed); data := p.(data); completion_order := finish_position order k |}) handlers.
Proof.
  intros Hperm. assert (NoDup order) as Hnd by (rewrite Hperm; apply NoDup_seq).
  set (g := fun k handler =>
    let p := run_handler process parse input_json turn_id k handler in
    {| completed := p.(completed); data := p.(data); completion_order := finish_position order k |}).
  unfold execute_handlers. cbv zeta.
  rewrite (omap_imap_lookup _ (fun k => (fun h => (k, g k h)) <$> handlers !! k)).
  2: { intros i k Hi. by rewrite <- (finish_position_lookup order i k) by done. }
  rewrite (sort_by_key_unique fst _ (imap (fun k h => (k, g k h)) handlers)).
  - rewrite fmap_imap. done.
  - rewrite Hperm. by rewrite (omap_lookup_seq (fun k h => (k, g k h))).
  - rewrite fmap_imap. rewrite (imap_ext _ (fun k _ => k)) by done. rewrite imap_seq_0, list_fmap_id. apply NoDup_seq.
  - clear. enough (forall n, Sorted (fun a b => a.1 <= b.1) (imap (fun k h => (n + k, g (n + k) h)) handlers)) as H
      by exact (H 0).
    induction handlers as [|h l IH]; intros n; cbn; constructor.
    + rewrite (imap_ext _ (fun k h => (S n + k, g (S n + k) h))); [apply IH|].
      intros k x _. cbn. by rewrite Nat.add_succ_r.
    + destruct l; cbn; constructor. cbn. lia.
Qed.

Lemma execute_handlers_fmap {B} (f : HookCompletedEvent -> T -> B) order handlers input_json turn_id :
  order ≡ₚ seq 0 (length handlers) ->
  (fun p => f p.(completed) p.(data)) <$> execute_handlers process parse order handlers input_json turn_id =
  imap (fun k handler => let p := run_handler process parse input_json turn_id k handler in
                         f p.(completed) p.(data)) handlers.
Proof. intros H. by rewrite execute_handlers_spec, fmap_imap. Qed.
End execute_facts.

Lemma retain_sublist {A} (p : A -> bool) (l : list A) : sublist (retain p l) l.
Proof. induction l as [|x l IH]; cbn; [constructor|]. destruct (p x); by constructor. Qed.

(** Each configured handler is chosen at most once, in the configured order. *)
Lemma select_handlers_sublist regex_new handlers e inputs :
  sublist (select_handlers_for_matcher_inputs regex_new handlers e inputs) handlers.
Proof.
  unfold select_handlers_for_matcher_inputs. etrans; [apply retain_sublist|apply retain_sublist].
Qed.

Lemma select_handlers_elem regex_new handlers e inputs h :
  h ∈ select_handlers_for_matcher_inputs regex_new handlers e inputs <->
  h ∈ handlers /\ h.(handler_event) = e /\ handler_matches regex_new e inputs h = true.
Proof.
  unfold select_handlers_for_matcher_inputs. rewrite !elem_of_retain. cbn. rewrite bool_decide_eq_true. tauto.
Qed.

(** A process whose input was not written in full has no exit status, whatever it did. *)
Lemma run_command_unread_input handler p err :
  p.(spawn_error) = None -> p.(stdin_error) = Some err ->
  run_command handler p = run_result p None [] [] (Some (lit "failed to write hook stdin: " ++ err)).
Proof. unfold run_command. by intros -> ->. Qed.
