(* ===== verification/HookRuns.v ===== *)
(** [hooks/src/events]: the verdict of each hook event.  [pre_tool_use.rs],
    [permission_request.rs], [post_tool_use.rs], [user_prompt_submit.rs], [stop.rs],
    [session_start.rs] and [compact.rs].

    For each event: what one finished handler reports ([..._report], the body of
    [parse_completed]), the preview of the handlers about to run, and the fold of the
    reports into the outcome ([run_...]).  The request of an event is the part of it that
    the fold reads; its serialised form is the argument [input_json]. *)

From stdpp Require Import base list option numbers strings pretty sets.
From Stdlib Require Import NArith ZArith Lia.
From S2P Require Import Prelude RustStr AbsolutePath Constrained HookRequirements HookOutput HookEvents.
Local Open Scope rust_scope.

(** * Reports *)

(** What [parse_completed] finds out: the status and the entries of the run, and the data
    for the fold. *)
Record HookReport (T : Type) : Type := report {
  report_status : HookRunStatus;
  report_entries : list HookOutputEntry;
  report_data : T;
}.
Arguments report {T} _ _ _.
Arguments report_status {T} _.
Arguments report_entries {T} _.
Arguments report_data {T} _.

Definition parsed_handler {T} (handler : ConfiguredHandler) (r : CommandRunResult) (turn_id : option str)
    (rep : HookReport T) : ParsedHandler T := {|
  completed := {| event_turn_id := turn_id;
                  event_run := completed_summary handler r rep.(report_status) rep.(report_entries) |};
  data := rep.(report_data);
  completion_order := 0 |}.

Definition failed {T} (text : str) (nothing : T) : HookReport T := report Failed [entry EntryError text] nothing.
Definition exited_with_code {T} (code : Z) (nothing : T) : HookReport T :=
  failed (lit "hook exited with code " ++ lit (pretty code)) nothing.
Definition warning (universal : UniversalOutput) : list HookOutputEntry :=
  match universal.(system_message) with Some text => [entry EntryWarning text] | None => [] end.

(** The cases of [run_result] that all events distinguish: an error of the runner, exit
    code 0 with nothing on standard output, exit code 0 with some output, another exit
    code, no exit code. *)
Definition interpret {T} (r : CommandRunResult) (nothing : T) (on_output : str -> HookReport T)
    (on_exit : Z -> HookReport T) (no_status : string) : HookReport T :=
  match r.(run_error) with
  | Some error => failed error nothing
  | None =>
      match r.(exit_code) with
      | Some code =>
          if (code =? 0)%Z then
            if trim r.(stdout) == [] then report Completed [] nothing else on_output r.(stdout)
          else on_exit code
      | None => failed (lit no_status) nothing
      end
  end.

(** Exit code 2 with a reason on standard error, for the events that give it a meaning. *)
Definition exit_two {T} (r : CommandRunResult) (nothing : T) (blocked : str -> T) (missing_reason : string)
    (code : Z) : HookReport T :=
  if (code =? 2)%Z then
    match trimmed_non_empty r.(stderr) with
    | Some reason => report Blocked [entry EntryFeedback reason] (blocked reason)
    | None => failed (lit missing_reason) nothing
    end
  else exited_with_code code nothing.

Definition flatten_additional_contexts (chunks : list (list str)) : list str := concat chunks.

(** [find_map]: the first one present. *)
Definition find_map_opt {A B} (f : A -> option B) (l : list A) : option B := head (omap f l).

Section events.
Context {Value : Type} `{HookJson Value}.
Context (regex_new : str -> option (str -> bool)) (clock : nat -> Z).
Context (process : nat -> ConfiguredHandler -> str -> HookProcess) (order : list nat).

(** A request about a tool call. *)
Record ToolHookRequest : Type := {
  req_turn_id : str;
  req_tool_name : str;
  req_matcher_aliases : list str;
  (** [tool_use_id], or [run_id_suffix] of a permission request. *)
  req_run_id_suffix : str;
}.

Definition select_for_tool (handlers : list ConfiguredHandler) (e : HookEventName) (request : ToolHookRequest)
  : list ConfiguredHandler :=
  select_handlers_for_matcher_inputs regex_new handlers e
    (matcher_inputs request.(req_tool_name) request.(req_matcher_aliases)).

Definition preview_for_tool (handlers : list ConfiguredHandler) (e : HookEventName) (request : ToolHookRequest)
  : list HookRunSummary :=
  imap (fun k handler => hook_run_for_tool_use (running_summary (clock k) handler) request.(req_run_id_suffix))
    (select_for_tool handlers e request).

Definition events_for_tool {T} (results : list (ParsedHandler T)) (request : ToolHookRequest) : list HookCompletedEvent :=
  (fun result => hook_completed_for_tool_use result.(completed) request.(req_run_id_suffix)) <$> results.

(** * [pre_tool_use.rs] *)

Record PreToolUseHandlerData : Type := {
  pre_should_block : bool;
  pre_block_reason : option str;
  pre_contexts : list str;
  pre_rewrite : option Value;
}.
Definition pre_nothing : PreToolUseHandlerData :=
  {| pre_should_block := false; pre_block_reason := None; pre_contexts := []; pre_rewrite := None |}.
Definition pre_blocked (reason : str) : PreToolUseHandlerData :=
  {| pre_should_block := true; pre_block_reason := Some reason; pre_contexts := []; pre_rewrite := None |}.

Definition pre_tool_use_parsed (parsed : PreToolUseOutput Value) : HookReport PreToolUseHandlerData :=
  let entries := warning parsed.(pto_universal) in
  match parsed.(pto_invalid_reason) with
  | Some invalid_reason => report Failed (entries ++ [entry EntryError invalid_reason]) pre_nothing
  | None =>
      let '(entries, contexts) :=
        match parsed.(pto_additional_context) with
        | Some context => append_additional_context entries [] context
        | None => (entries, [])
        end in
      match parsed.(pto_block_reason) with
      | Some reason =>
          report Blocked (entries ++ [entry EntryFeedback reason])
            {| pre_should_block := true; pre_block_reason := Some reason; pre_contexts := contexts; pre_rewrite := None |}
      | None =>
          report Completed entries
            {| pre_should_block := false; pre_block_reason := None; pre_contexts := contexts;
               pre_rewrite := parsed.(pto_updated_input) |}
      end
  end.

Definition pre_tool_use_report (r : CommandRunResult) : HookReport PreToolUseHandlerData :=
  interpret r pre_nothing
    (fun stdout =>
       match parse_pre_tool_use stdout with
       | Some parsed => pre_tool_use_parsed parsed
       | None =>
           if looks_like_json stdout then failed (lit "hook returned invalid pre-tool-use JSON output") pre_nothing
           else report Completed [] pre_nothing
       end)
    (exit_two r pre_nothing pre_blocked "PreToolUse hook exited with code 2 but did not write a blocking reason to stderr")
    "hook exited without a status code".

(** The rewrite of the handler that finished last. *)
Definition latest_updated_input (results : list (ParsedHandler PreToolUseHandlerData)) : option Value :=
  snd <$> max_by_key Nat.leb fst
    (omap (fun result => (fun updated => (result.(completion_order), updated)) <$> result.(data).(pre_rewrite)) results).

Record PreToolUseOutcome : Type := {
  pre_outcome_events : list HookCompletedEvent;
  pre_outcome_should_block : bool;
  pre_outcome_block_reason : option str;
  pre_outcome_contexts : list str;
  pre_outcome_updated_input : option Value;
}.

Definition pre_tool_use_no_verdict (events : list HookCompletedEvent) : PreToolUseOutcome := {|
  pre_outcome_events := events; pre_outcome_should_block := false; pre_outcome_block_reason := None;
  pre_outcome_contexts := []; pre_outcome_updated_input := None |}.

Definition pre_tool_use_outcome (request : ToolHookRequest) (results : list (ParsedHandler PreToolUseHandlerData))
  : PreToolUseOutcome :=
  let should_block := existsb (fun result => result.(data).(pre_should_block)) results in
  {| pre_outcome_events := events_for_tool results request;
     pre_outcome_should_block := should_block;
     pre_outcome_block_reason := find_map_opt (fun result => result.(data).(pre_block_reason)) results;
     pre_outcome_contexts := flatten_additional_contexts ((fun result => result.(data).(pre_contexts)) <$> results);
     pre_outcome_updated_input := if should_block then None else latest_updated_input results |}.

Definition parse_pre_tool_use_completed handler r turn_id := parsed_handler handler r turn_id (pre_tool_use_report r).

Definition run_pre_tool_use (handlers : list ConfiguredHandler) (request : ToolHookRequest)
    (input_json : result str str) : PreToolUseOutcome :=
  match select_for_tool handlers PreToolUse request with
  | [] => pre_tool_use_no_verdict []
  | matched =>
      match input_json with
      | Err error =>
          pre_tool_use_no_verdict
            (serialization_failure_hook_events_for_tool_use clock matched (Some request.(req_turn_id))
               (lit "failed to serialize pre tool use hook input: " ++ error) request.(req_run_id_suffix))
      | Ok input_json =>
          pre_tool_use_outcome request
            (execute_handlers process parse_pre_tool_use_completed order matched input_json (Some request.(req_turn_id)))
      end
  end.

(** * [permission_request.rs] *)

Definition permission_denied (message : str) : option PermissionRequestDecision := Some (HookDeny message).

Definition permission_request_parsed (parsed : PermissionRequestOutput) : HookReport (option PermissionRequestDecision) :=
  let entries := warning parsed.(pro_universal) in
  match parsed.(pro_invalid_reason) with
  | Some invalid_reason => report Failed (entries ++ [entry EntryError invalid_reason]) None
  | None =>
      match parsed.(pro_decision) with
      | Some HookAllow => report Completed entries (Some HookAllow)
      | Some (HookDeny message) => report Blocked (entries ++ [entry EntryFeedback message]) (Some (HookDeny message))
      | None => report Completed entries None
      end
  end.

Definition permission_request_report (r : CommandRunResult) : HookReport (option PermissionRequestDecision) :=
  interpret r None
    (fun stdout =>
       match parse_permission_request stdout with
       | Some parsed => permission_request_parsed parsed
       | None =>
           if looks_like_json stdout then failed (lit "hook returned invalid permission-request JSON output") None
           else report Completed [] None
       end)
    (exit_two r None permission_denied
       "PermissionRequest hook exited with code 2 but did not write a denial reason to stderr")
    "hook exited without a status code".

Fixpoint resolve_permission_request_decision (resolved_allow : option PermissionRequestDecision)
    (decisions : list PermissionRequestDecision) : option PermissionRequestDecision :=
  match decisions with
  | [] => resolved_allow
  | HookAllow :: decisions => resolve_permission_request_decision (Some HookAllow) decisions
  | HookDeny message :: _ => Some (HookDeny message)
  end.

Record PermissionRequestOutcome : Type := {
  permission_outcome_events : list HookCompletedEvent;
  permission_outcome_decision : option PermissionRequestDecision;
}.

Definition parse_permission_request_completed handler r turn_id :=
  parsed_handler handler r turn_id (permission_request_report r).

Definition run_permission_request (handlers : list ConfiguredHandler) (request : ToolHookRequest)
    (input_json : result str str) : PermissionRequestOutcome :=
  match select_for_tool handlers PermissionRequest request with
  | [] => {| permission_outcome_events := []; permission_outcome_decision := None |}
  | matched =>
      match input_json with
      | Err error =>
          {| permission_outcome_events :=
               serialization_failure_hook_events_for_tool_use clock matched (Some request.(req_turn_id))
                 (lit "failed to serialize permission request hook input: " ++ error) request.(req_run_id_suffix);
             permission_outcome_decision := None |}
      | Ok input_json =>
          let results :=
            execute_handlers process parse_permission_request_completed order matched input_json
              (Some request.(req_turn_id)) in
          {| permission_outcome_events := events_for_tool results request;
             permission_outcome_decision := resolve_permission_request_decision None (omap data results) |}
      end
  end.

(** * [post_tool_use.rs] *)

Record PostToolUseHandlerData : Type := {
  post_should_block : bool;
  post_contexts : list str;
  post_feedback : list str;
}.
Definition post_nothing : PostToolUseHandlerData :=
  {| post_should_block := false; post_contexts := []; post_feedback := [] |}.
Definition post_blocked (reason : str) : PostToolUseHandlerData :=
  {| post_should_block := true; post_contexts := []; post_feedback := [reason] |}.

Definition post_tool_use_parsed (parsed : PostToolUseOutput) : HookReport PostToolUseHandlerData :=
  let universal := parsed.(post_out_universal) in
  let '(entries, contexts) :=
    match parsed.(post_out_invalid_reason), parsed.(post_out_invalid_block_reason), parsed.(post_out_additional_context) with
    | None, None, Some context => append_additional_context (warning universal) [] context
    | _, _, _ => (warning universal, [])
    end in
  if negb universal.(continue_processing) then
    let stop_text := default (lit "PostToolUse hook stopped execution") universal.(stop_reason) in
    report Stopped (entries ++ [entry EntryStop stop_text])
      {| post_should_block := false; post_contexts := contexts;
         post_feedback := [default stop_text (parsed.(post_out_reason) ≫= trimmed_non_empty)] |}
  else
    match parsed.(post_out_invalid_reason), parsed.(post_out_invalid_block_reason) with
    | Some invalid, _ | None, Some invalid =>
        report Failed (entries ++ [entry EntryError invalid])
          {| post_should_block := false; post_contexts := contexts; post_feedback := [] |}
    | None, None =>
        if parsed.(post_out_should_block) then
          match parsed.(post_out_reason) with
          | Some reason =>
              report Blocked (entries ++ [entry EntryFeedback reason])
                {| post_should_block := true; post_contexts := contexts; post_feedback := [reason] |}
          | None => report Blocked entries {| post_should_block := true; post_contexts := contexts; post_feedback := [] |}
          end
        else report Completed entries {| post_should_block := false; post_contexts := contexts; post_feedback := [] |}
    end.

Definition post_tool_use_report (r : CommandRunResult) : HookReport PostToolUseHandlerData :=
  interpret r post_nothing
    (fun stdout =>
       match parse_post_tool_use stdout with
       | Some parsed => post_tool_use_parsed parsed
       | None =>
           if looks_like_json stdout then failed (lit "hook returned invalid post-tool-use JSON output") post_nothing
           else report Completed [] post_nothing
       end)
    (exit_two r post_nothing post_blocked "PostToolUse hook exited with code 2 but did not write feedback to stderr")
    "hook exited without a status code".

Record PostToolUseOutcome : Type := {
  post_outcome_events : list HookCompletedEvent;
  post_outcome_should_block : bool;
  post_outcome_contexts : list str;
  post_outcome_feedback_message : option str;
}.

Definition post_tool_use_no_verdict (events : list HookCompletedEvent) : PostToolUseOutcome := {|
  post_outcome_events := events; post_outcome_should_block := false; post_outcome_contexts := [];
  post_outcome_feedback_message := None |}.

Definition post_tool_use_outcome (request : ToolHookRequest) (results : list (ParsedHandler PostToolUseHandlerData))
  : PostToolUseOutcome := {|
  post_outcome_events := events_for_tool results request;
  post_outcome_should_block := existsb (fun result => result.(data).(post_should_block)) results;
  post_outcome_contexts := flatten_additional_contexts ((fun result => result.(data).(post_contexts)) <$> results);
  post_outcome_feedback_message := join_text_chunks (concat ((fun result => result.(data).(post_feedback)) <$> results)) |}.

Definition parse_post_tool_use_completed handler r turn_id := parsed_handler handler r turn_id (post_tool_use_report r).

Definition run_post_tool_use (handlers : list ConfiguredHandler) (request : ToolHookRequest)
    (input_json : result str str) : PostToolUseOutcome :=
  match select_for_tool handlers PostToolUse request with
  | [] => post_tool_use_no_verdict []
  | matched =>
      match input_json with
      | Err error =>
          post_tool_use_no_verdict
            (serialization_failure_hook_events_for_tool_use clock matched (Some request.(req_turn_id))
               (lit "failed to serialize post tool use hook input: " ++ error) request.(req_run_id_suffix))
      | Ok input_json =>
          post_tool_use_outcome request
            (execute_handlers process parse_post_tool_use_completed order matched input_json (Some request.(req_turn_id)))
      end
  end.

(** * The events that can stop a turn: [user_prompt_submit.rs], [session_start.rs], [compact.rs] *)

(** [UserPromptSubmitHandlerData] and [SessionStartHandlerData]; [CompactHandlerData] has
    no contexts. *)
Record StopperData : Type := {
  data_should_stop : bool;
  data_stop_reason : option str;
  data_contexts : list str;
}.
Definition stopper_nothing : StopperData := {| data_should_stop := false; data_stop_reason := None; data_contexts := [] |}.
Definition stopper_blocked (reason : str) : StopperData :=
  {| data_should_stop := true; data_stop_reason := Some reason; data_contexts := [] |}.
Definition stopper_context (context : str) : HookReport StopperData :=
  let '(entries, contexts) := append_additional_context [] [] context in
  report Completed entries {| data_should_stop := false; data_stop_reason := None; data_contexts := contexts |}.

(** The outcome of the three: [UserPromptSubmitOutcome], [SessionStartOutcome] and, without
    contexts, [PreCompactOutcome] and [StatelessHookOutcome]. *)
Record StopperOutcome : Type := {
  stopper_events : list HookCompletedEvent;
  stopper_should_stop : bool;
  stopper_stop_reason : option str;
  stopper_contexts : list str;
}.
Definition stopper_no_verdict (events : list HookCompletedEvent) : StopperOutcome :=
  {| stopper_events := events; stopper_should_stop := false; stopper_stop_reason := None; stopper_contexts := [] |}.
Definition stopper_outcome (results : list (ParsedHandler StopperData)) : StopperOutcome := {|
  stopper_events := completed <$> results;
  stopper_should_stop := existsb (fun result => result.(data).(data_should_stop)) results;
  stopper_stop_reason := find_map_opt (fun result => result.(data).(data_stop_reason)) results;
  stopper_contexts := flatten_additional_contexts ((fun result => result.(data).(data_contexts)) <$> results) |}.

Definition stop_entry (stop_reason : option str) : list HookOutputEntry :=
  match stop_reason with Some text => [entry EntryStop text] | None => [] end.

Definition user_prompt_submit_parsed (parsed : UserPromptSubmitOutput) : HookReport StopperData :=
  let universal := parsed.(prompt_out_universal) in
  let '(entries, contexts) :=
    match parsed.(prompt_out_invalid_block_reason), parsed.(prompt_out_additional_context) with
    | None, Some context => append_additional_context (warning universal) [] context
    | _, _ => (warning universal, [])
    end in
  if negb universal.(continue_processing) then
    report Stopped (entries ++ stop_entry universal.(stop_reason))
      {| data_should_stop := true; data_stop_reason := universal.(stop_reason); data_contexts := contexts |}
  else
    match parsed.(prompt_out_invalid_block_reason) with
    | Some invalid =>
        report Failed (entries ++ [entry EntryError invalid])
          {| data_should_stop := false; data_stop_reason := None; data_contexts := contexts |}
    | None =>
        if parsed.(prompt_out_should_block) then
          report Blocked
            (entries ++ match parsed.(prompt_out_reason) with Some reason => [entry EntryFeedback reason] | None => [] end)
            {| data_should_stop := true; data_stop_reason := parsed.(prompt_out_reason); data_contexts := contexts |}
        else report Completed entries {| data_should_stop := false; data_stop_reason := None; data_contexts := contexts |}
    end.

Definition user_prompt_submit_report (r : CommandRunResult) : HookReport StopperData :=
  interpret r stopper_nothing
    (fun stdout =>
       match parse_user_prompt_submit stdout with
       | Some parsed => user_prompt_submit_parsed parsed
       | None =>
           if looks_like_json stdout
           then failed (lit "hook returned invalid user prompt submit JSON output") stopper_nothing
           else stopper_context (trim stdout)
       end)
    (exit_two r stopper_nothing stopper_blocked
       "UserPromptSubmit hook exited with code 2 but did not write a blocking reason to stderr")
    "hook exited without a status code".
Definition parse_user_prompt_submit_completed handler r turn_id :=
  parsed_handler handler r turn_id (user_prompt_submit_report r).

Definition preview_selected (matched : list ConfiguredHandler) : list HookRunSummary :=
  imap (fun k handler => running_summary (clock k) handler) matched.

Definition preview_user_prompt_submit (handlers : list ConfiguredHandler) : list HookRunSummary :=
  preview_selected (select_handlers regex_new handlers UserPromptSubmit None).

Definition run_user_prompt_submit (handlers : list ConfiguredHandler) (turn_id : str) (input_json : result str str)
  : StopperOutcome :=
  match select_handlers regex_new handlers UserPromptSubmit None with
  | [] => stopper_no_verdict []
  | matched =>
      match input_json with
      | Err error =>
          stopper_no_verdict
            (serialization_failure_hook_events clock matched (Some turn_id)
               (lit "failed to serialize user prompt submit hook input: " ++ error))
      | Ok input_json =>
          stopper_outcome
            (execute_handlers process parse_user_prompt_submit_completed order matched input_json (Some turn_id))
      end
  end.

(** [SessionStartSource] and [StartHookTarget], without what only the input carries. *)
Inductive SessionStartSource : Set := StartStartup | StartResume | StartClear | StartCompact.
Definition session_start_source_str (source : SessionStartSource) : str :=
  lit match source with
      | StartStartup => "startup" | StartResume => "resume" | StartClear => "clear" | StartCompact => "compact"
      end.
Inductive StartHookTarget : Type :=
| TargetSessionStart (source : SessionStartSource)
| TargetSubagentStart (turn_id agent_type : str).
Definition start_event_name (target : StartHookTarget) : HookEventName :=
  match target with TargetSessionStart _ => SessionStart | TargetSubagentStart _ _ => SubagentStart end.
Definition start_matcher_input (target : StartHookTarget) : str :=
  match target with
  | TargetSessionStart source => session_start_source_str source
  | TargetSubagentStart _ agent_type => agent_type
  end.

Definition start_parsed (e : HookEventName) (parsed : SessionStartOutput) : HookReport StopperData :=
  let universal := parsed.(start_out_universal) in
  let '(entries, contexts) :=
    match parsed.(start_out_additional_context) with
    | Some context => append_additional_context (warning universal) [] context
    | None => (warning universal, [])
    end in
  if (e == SessionStart) && negb universal.(continue_processing) then
    report Stopped (entries ++ stop_entry universal.(stop_reason))
      {| data_should_stop := true; data_stop_reason := universal.(stop_reason); data_contexts := contexts |}
  else report Completed entries {| data_should_stop := false; data_stop_reason := None; data_contexts := contexts |}.

(** How the output of each of the two events is read, and the complaint about bad JSON. *)
Definition start_output_parser (e : HookEventName) : option ((str -> option SessionStartOutput) * string) :=
  match e with
  | SessionStart => Some (parse_session_start, "hook returned invalid session start JSON output")
  | SubagentStart => Some (parse_subagent_start, "hook returned invalid subagent start JSON output")
  | _ => None
  end.

(** The run has output to read. *)
Definition has_output (r : CommandRunResult) : bool :=
  negb (is_some r.(run_error)) && (r.(exit_code) == Some 0%Z) && negb (trim r.(stdout) == []).

(** [None]: the panic on the output of a handler of another event. *)
Definition start_report (handler : ConfiguredHandler) (r : CommandRunResult) : option (HookReport StopperData) :=
  let interpreted on_output :=
    interpret r stopper_nothing on_output (fun code => exited_with_code code stopper_nothing)
      "hook exited without a status code" in
  match start_output_parser handler.(handler_event) with
  | Some (parse_output, invalid) =>
      Some (interpreted (fun stdout =>
        match parse_output stdout with
        | Some parsed => start_parsed handler.(handler_event) parsed
        | None =>
            if looks_like_json stdout then failed (lit invalid) stopper_nothing else stopper_context (trim stdout)
        end))
  | None => if has_output r then None else Some (interpreted (fun _ => report Completed [] stopper_nothing))
  end.

(** [run] selects the handlers of the event, so the fallback is never used ([start_report_total]). *)
Definition parse_start_completed handler r turn_id :=
  parsed_handler handler r turn_id (default (report Failed [] stopper_nothing) (start_report handler r)).

Definition preview_start (handlers : list ConfiguredHandler) (target : StartHookTarget) : list HookRunSummary :=
  preview_selected (select_handlers regex_new handlers (start_event_name target) (Some (start_matcher_input target))).

Definition run_start (handlers : list ConfiguredHandler) (target : StartHookTarget) (turn_id : option str)
    (input_json : result str str) : StopperOutcome :=
  match select_handlers regex_new handlers (start_event_name target) (Some (start_matcher_input target)) with
  | [] => stopper_no_verdict []
  | matched =>
      let '(turn_id, label) :=
        match target with
        | TargetSessionStart _ => (turn_id, "failed to serialize session start hook input: ")
        | TargetSubagentStart subagent_turn_id _ =>
            (Some subagent_turn_id, "failed to serialize subagent start hook input: ")
        end in
      match input_json with
      | Err error => stopper_no_verdict (serialization_failure_hook_events clock matched turn_id (lit label ++ error))
      | Ok input_json =>
          stopper_outcome (execute_handlers process parse_start_completed order matched input_json turn_id)
      end
  end.

(** [PreCompact] or [PostCompact]: their name in messages, the reading of their output, and
    the name of the event in lower case. *)
Inductive CompactEvent : Set := CompactPre | CompactPost.
Definition compact_event_name (c : CompactEvent) : HookEventName :=
  match c with CompactPre => PreCompact | CompactPost => PostCompact end.
Definition compact_label (c : CompactEvent) : string :=
  match c with CompactPre => "PreCompact" | CompactPost => "PostCompact" end.
Definition compact_parse_output (c : CompactEvent) : str -> option StatelessHookOutput :=
  match c with CompactPre => parse_pre_compact | CompactPost => parse_post_compact end.
Definition compact_serialize_error (c : CompactEvent) : string :=
  match c with
  | CompactPre => "failed to serialize pre compact hook input: "
  | CompactPost => "failed to serialize post compact hook input: "
  end.

Definition compact_parsed (c : CompactEvent) (parsed : StatelessHookOutput) : HookReport StopperData :=
  let universal := parsed.(stateless_universal) in
  let entries := warning universal in
  if negb universal.(continue_processing) then
    report Stopped
      (entries ++ [entry EntryStop (default (lit (compact_label c) ++ lit " hook stopped execution") universal.(stop_reason))])
      {| data_should_stop := true; data_stop_reason := universal.(stop_reason); data_contexts := [] |}
  else
    match parsed.(stateless_invalid_reason) with
    | Some invalid => report Failed (entries ++ [entry EntryError invalid]) stopper_nothing
    | None => report Completed entries stopper_nothing
    end.

Definition compact_report (c : CompactEvent) (r : CommandRunResult) : HookReport StopperData :=
  interpret r stopper_nothing
    (fun stdout =>
       match compact_parse_output c stdout with
       | Some parsed => compact_parsed c parsed
       | None =>
           if looks_like_json stdout
           then failed (lit "hook returned invalid " ++ lit (compact_label c) ++ lit " hook JSON output") stopper_nothing
           else report Completed [] stopper_nothing
       end)
    (fun code =>
       failed (default (lit "hook exited with code " ++ lit (pretty code)) (trimmed_non_empty r.(stderr))) stopper_nothing)
    "hook process terminated without an exit code".
Definition parse_compact_completed (c : CompactEvent) handler r turn_id :=
  parsed_handler handler r turn_id (compact_report c r).

Definition preview_compact (c : CompactEvent) (handlers : list ConfiguredHandler) (trigger : str) : list HookRunSummary :=
  preview_selected (select_handlers regex_new handlers (compact_event_name c) (Some trigger)).

Definition run_compact (c : CompactEvent) (handlers : list ConfiguredHandler) (turn_id trigger : str)
    (input_json : result str str) : StopperOutcome :=
  match select_handlers regex_new handlers (compact_event_name c) (Some trigger) with
  | [] => stopper_no_verdict []
  | matched =>
      match input_json with
      | Err error =>
          stopper_no_verdict
            (serialization_failure_hook_events clock matched (Some turn_id) (lit (compact_serialize_error c) ++ error))
      | Ok input_json =>
          stopper_outcome
            (execute_handlers process (parse_compact_completed c) order matched input_json (Some turn_id))
      end
  end.

(** * [stop.rs] *)

Record HookPromptFragment : Type := { fragment_text : str; fragment_hook_run_id : str }.
Record StopHandlerData : Type := {
  stop_should_stop : bool;
  stop_stop_reason : option str;
  stop_should_block : bool;
  stop_block_reason : option str;
  stop_fragments : list HookPromptFragment;
}.
Definition stop_nothing : StopHandlerData := {| stop_should_stop := false; stop_stop_reason := None;
  stop_should_block := false; stop_block_reason := None; stop_fragments := [] |}.
Definition stop_stopped (reason : option str) : StopHandlerData := {| stop_should_stop := true;
  stop_stop_reason := reason; stop_should_block := false; stop_block_reason := None; stop_fragments := [] |}.
Definition stop_blocked (handler : ConfiguredHandler) (reason : str) : StopHandlerData := {|
  stop_should_stop := false; stop_stop_reason := None; stop_should_block := true; stop_block_reason := Some reason;
  stop_fragments := [{| fragment_text := reason; fragment_hook_run_id := run_id handler |}] |}.

Definition stop_output_parser (e : HookEventName) : option ((str -> option StopOutput) * (string * string * string)) :=
  match e with
  | Stop =>
      Some (parse_stop,
            ("Stop hook returned decision:block without a non-empty reason",
             "hook returned invalid stop hook JSON output",
             "Stop hook exited with code 2 but did not write a continuation prompt to stderr"))
  | SubagentStop =>
      Some (parse_subagent_stop,
            ("SubagentStop hook returned decision:block without a non-empty reason",
             "hook returned invalid subagent stop hook JSON output",
             "SubagentStop hook exited with code 2 but did not write a continuation prompt to stderr"))
  | _ => None
  end.

Definition stop_parsed (handler : ConfiguredHandler) (no_reason : string) (parsed : StopOutput) : HookReport StopHandlerData :=
  let universal := parsed.(stop_out_universal) in
  let entries := warning universal in
  if negb universal.(continue_processing) then
    report Stopped (entries ++ stop_entry universal.(stop_reason)) (stop_stopped universal.(stop_reason))
  else
    match parsed.(stop_out_invalid_block_reason) with
    | Some invalid => report Failed (entries ++ [entry EntryError invalid]) stop_nothing
    | None =>
        if parsed.(stop_out_should_block) then
          match parsed.(stop_out_reason) ≫= trimmed_non_empty with
          | Some reason => report Blocked (entries ++ [entry EntryFeedback reason]) (stop_blocked handler reason)
          | None => report Failed (entries ++ [entry EntryError (lit no_reason)]) stop_nothing
          end
        else report Completed entries stop_nothing
    end.

(** [None]: the panic for a handler of another event. *)
Definition stop_report (handler : ConfiguredHandler) (r : CommandRunResult) : option (HookReport StopHandlerData) :=
  '(parse_output, (no_reason, invalid, no_prompt)) ← stop_output_parser handler.(handler_event);
  Some (interpret r stop_nothing
    (fun stdout =>
       match parse_output stdout with
       | Some parsed => stop_parsed handler no_reason parsed
       | None => failed (lit invalid) stop_nothing
       end)
    (exit_two r stop_nothing (stop_blocked handler) no_prompt)
    "hook exited without a status code").

(** [run] selects the handlers of the event, so the fallback is never used ([stop_report_total]). *)
Definition parse_stop_completed handler r turn_id :=
  parsed_handler handler r turn_id (default (report Failed [] stop_nothing) (stop_report handler r)).

Definition aggregate_results (results : list StopHandlerData) : StopHandlerData :=
  let should_stop := existsb stop_should_stop results in
  let should_block := negb should_stop && existsb stop_should_block results in
  {| stop_should_stop := should_stop;
     stop_stop_reason := find_map_opt stop_stop_reason results;
     stop_should_block := should_block;
     stop_block_reason := if should_block then join_text_chunks (omap stop_block_reason results) else None;
     stop_fragments := if should_block then concat (stop_fragments <$> retain stop_should_block results) else [] |}.

Inductive StopHookTarget : Type := TargetStop | TargetSubagentStop (agent_type : str).
Definition stop_event_name (target : StopHookTarget) : HookEventName :=
  match target with TargetStop => Stop | TargetSubagentStop _ => SubagentStop end.
Definition stop_matcher_input (target : StopHookTarget) : option str :=
  match target with TargetStop => None | TargetSubagentStop agent_type => Some agent_type end.
Definition stop_serialize_error (target : StopHookTarget) : string :=
  match target with
  | TargetStop => "failed to serialize stop hook input: "
  | TargetSubagentStop _ => "failed to serialize subagent stop hook input: "
  end.

Record StopOutcome : Type := { stop_outcome_events : list HookCompletedEvent; stop_outcome_data : StopHandlerData }.

Definition preview_stop (handlers : list ConfiguredHandler) (target : StopHookTarget) : list HookRunSummary :=
  preview_selected (select_handlers regex_new handlers (stop_event_name target) (stop_matcher_input target)).

Definition run_stop (handlers : list ConfiguredHandler) (target : StopHookTarget) (turn_id : str)
    (input_json : result str str) : StopOutcome :=
  match select_handlers regex_new handlers (stop_event_name target) (stop_matcher_input target) with
  | [] => {| stop_outcome_events := []; stop_outcome_data := stop_nothing |}
  | matched =>
      match input_json with
      | Err error =>
          {| stop_outcome_events :=
               serialization_failure_hook_events clock matched (Some turn_id) (lit (stop_serialize_error target) ++ error);
             stop_outcome_data := stop_nothing |}
      | Ok input_json =>
          let results := execute_handlers process parse_stop_completed order matched input_json (Some turn_id) in
          {| stop_outcome_events := completed <$> results; stop_outcome_data := aggregate_results (data <$> results) |}
      end
  end.
End events.

(** * Reports of single handlers *)

Lemma trimmed_non_empty_Some s t : trimmed_non_empty s = Some t -> t = trim s /\ t <> [].
Proof. unfold trimmed_non_empty. case_bool_decide; [done|]. naive_solver. Qed.

(** To prove a property of what a run reports, prove it of the four kinds of report. *)
Lemma interpret_ind {T} (P : HookReport T -> Prop) r nothing on_output on_exit no_status :
  (forall text, P (failed text nothing)) -> P (report Completed [] nothing) ->
  (forall out, P (on_output out)) -> (forall code, P (on_exit code)) ->
  P (interpret r nothing on_output on_exit no_status).
Proof. intros. unfold interpret. repeat case_match; auto. Qed.

Lemma exit_two_ind {T} (P : HookReport T -> Prop) r nothing blocked missing code :
  (forall text, P (failed text nothing)) ->
  (forall reason, reason <> [] -> P (report Blocked [entry EntryFeedback reason] (blocked reason))) ->
  P (exit_two r nothing blocked missing code).
Proof.
  intros Hf Hb. unfold exit_two, exited_with_code. case_match; [|done]. case_match eqn:E; [|done].
  apply Hb. by apply trimmed_non_empty_Some in E as [].
Qed.

Section report_facts.
Context {Value : Type} `{HookJson Value}.

(** A PreToolUse handler that failed has no effect; it blocks exactly when its run is shown
    as blocked, with a reason and without a rewrite. *)
Record pre_report_ok (rep : HookReport (PreToolUseHandlerData (Value:=Value))) : Prop := {
  pre_ok_failed : rep.(report_status) = Failed -> rep.(report_data) = pre_nothing;
  pre_ok_blocks : rep.(report_data).(pre_should_block) = true <-> rep.(report_status) = Blocked;
  pre_ok_reason : rep.(report_data).(pre_should_block) = true <->
                  exists reason, rep.(report_data).(pre_block_reason) = Some reason /\ reason <> [];
  pre_ok_none : rep.(report_data).(pre_should_block) = false -> rep.(report_data).(pre_block_reason) = None;
  pre_ok_rewrite : rep.(report_data).(pre_should_block) = true -> rep.(report_data).(pre_rewrite) = None;
}.

Lemma pre_ok_nothing status entries :
  status <> Blocked -> pre_report_ok (report status entries pre_nothing).
Proof. intros Hs. split; cbn; try done; split; naive_solver. Qed.

Lemma pre_ok_block entries contexts reason :
  reason <> [] ->
  pre_report_ok (report Blocked entries
    {| pre_should_block := true; pre_block_reason := Some reason; pre_contexts := contexts; pre_rewrite := None |}).
Proof. intros Hr. split; cbn; try done; split; eauto. Qed.

Lemma pre_tool_use_report_ok r : pre_report_ok (pre_tool_use_report (Value:=Value) r).
Proof.
  unfold pre_tool_use_report. apply interpret_ind; [intros; by apply pre_ok_nothing..| |].
  - intros out. destruct (parse_pre_tool_use out) as [parsed|] eqn:E; [|case_match; by apply pre_ok_nothing].
    unfold parse_pre_tool_use in E. apply fmap_Some in E as (wire & _ & ->).
    pose proof (pre_tool_use_output_verdict wire) as (_ & _ & Hr). cbv zeta in Hr.
    unfold pre_tool_use_parsed. destruct (pto_invalid_reason _); [by apply pre_ok_nothing|].
    destruct (match pto_additional_context _ with Some _ => _ | None => _ end) as [entries contexts].
    destruct (pto_block_reason _) as [reason|]; [apply pre_ok_block; by apply Hr|].
    split; cbn; try done; split; naive_solver.
  - intros code. apply exit_two_ind; [intros; by apply pre_ok_nothing|]. intros. by apply pre_ok_block.
Qed.

(** A PermissionRequest handler decides by a supported JSON decision, or denies by exit
    code 2 with a reason; one that failed decides nothing. *)
Definition hook_decides (r : CommandRunResult) (d : PermissionRequestDecision) : Prop :=
  r.(run_error) = None /\
  ((r.(exit_code) = Some 0%Z /\ trim r.(stdout) <> [] /\
    exists wire decision, parse_json permission_request_wire r.(stdout) = Some wire
      /\ unsupported_permission_request_universal (universal_from wire.(permission_universal)) = None
      /\ wire.(permission_hook_specific_output) = Some (Some decision)
      /\ decision.(permission_updated_input) = None /\ decision.(updated_permissions) = None
      /\ decision.(interrupt) = false /\ permission_request_decision decision = d)
   \/ (r.(exit_code) = Some 2%Z /\ trim r.(stderr) <> [] /\ d = HookDeny (trim r.(stderr)))).

Lemma permission_request_parsed_data parsed :
  (parsed.(pro_invalid_reason) <> None -> parsed.(pro_decision) = None) ->
  (permission_request_parsed parsed).(report_data) = parsed.(pro_decision).
Proof.
  intros Hi. unfold permission_request_parsed.
  destruct (pro_invalid_reason parsed); cbn; [by rewrite Hi|]. by destruct (pro_decision parsed) as [[]|].
Qed.

Lemma permission_request_report_decides r d :
  (permission_request_report r).(report_data) = Some d <-> hook_decides r d.
Proof.
  unfold permission_request_report, interpret, hook_decides.
  destruct (run_error r); [cbn; split; [done|by intros []]|].
  destruct (exit_code r) as [code|]; [|cbn; split; [done|by intros (_ & [[]|[]])]].
  destruct (Z.eqb_spec code 0) as [->|Hne].
  - case_bool_decide as Ht; cbn [report_data].
    { split; [done|]. by intros (_ & [(_ & ? & _)|(? & _)]). }
    unfold parse_permission_request. destruct (parse_json permission_request_wire (stdout r)) as [wire|] eqn:Ep; cbn [fmap option_fmap option_map].
    + rewrite permission_request_parsed_data.
      2: { unfold permission_request_output. cbn [pro_invalid_reason pro_decision]. by destruct (or_else _ _). }
      rewrite permission_request_output_decision. split.
      * intros (Hu & decision & ?). split; [done|]. left. do 2 (split; [done|]). naive_solver.
      * intros (_ & [(_ & _ & wire' & decision & [= <-] & ?)|[? _]]); [|done]. naive_solver.
    + case_match; cbn; (split; [done|]); by intros (_ & [(_ & _ & ? & ? & ? & _)|[? _]]).
  - unfold exit_two. destruct (Z.eqb_spec code 2) as [->|Hne2].
    + unfold trimmed_non_empty. case_bool_decide as Ht; cbn; unfold permission_denied.
      * split; [done|]. by intros (_ & [[? _]|(_ & ? & _)]).
      * split; [intros [= <-]; auto|]. intros (_ & [[? _]|(_ & _ & ->)]); done.
    + cbn. split; [done|]. by intros (_ & [[[= ?] _]|[[= ?] _]]).
Qed.

(** The answer of a PermissionRequest handler: a JSON decision on the standard output, or a
    denial by exit code 2 with a reason.  A handler that did not run to its end, timed out, whose
    input could not be written or that exited with another code gives none. *)
Definition hook_answers (r : CommandRunResult) (d : PermissionRequestDecision) : Prop :=
  r.(run_error) = None /\
  ((r.(exit_code) = Some 0%Z /\ trim r.(stdout) <> [] /\
    exists wire decision, parse_json permission_request_wire r.(stdout) = Some wire
      /\ wire.(permission_hook_specific_output) = Some (Some decision) /\ permission_request_decision decision = d)
   \/ (r.(exit_code) = Some 2%Z /\ trim r.(stderr) <> [] /\ d = HookDeny (trim r.(stderr)))).

(** The answer uses none of the fields that are reserved or not supported for this event. *)
Definition supported_answer (r : CommandRunResult) : Prop :=
  forall wire, r.(exit_code) = Some 0%Z -> parse_json permission_request_wire r.(stdout) = Some wire ->
  let universal := wire.(permission_universal) in
  universal.(wire_continue) = true /\ universal.(wire_stop_reason) = None /\ universal.(wire_suppress_output) = false
  /\ forall decision, wire.(permission_hook_specific_output) = Some (Some decision) ->
       decision.(permission_updated_input) = None /\ decision.(updated_permissions) = None
       /\ decision.(interrupt) = false.

Lemma universal_supported universal :
  unsupported_permission_request_universal (universal_from universal) = None <->
  universal.(wire_continue) = true /\ universal.(wire_stop_reason) = None /\ universal.(wire_suppress_output) = false.
Proof.
  unfold unsupported_permission_request_universal, universal_from. cbn.
  destruct (wire_continue universal), (wire_stop_reason universal), (wire_suppress_output universal); naive_solver.
Qed.

Lemma hook_decides_answers r d : hook_decides r d <-> hook_answers r d /\ supported_answer r.
Proof.
  unfold hook_decides, hook_answers, supported_answer. split.
  - intros [He [(Hc & Ht & wire & decision & Hp & Hu & Hs & Hf)|(Hc & Ht & Hd)]]; (split; [split; [done|]|]).
    + left. naive_solver.
    + intros wire' _ Hp'. assert (wire' = wire) as -> by congruence. apply universal_supported in Hu. naive_solver.
    + by right.
    + intros wire Hc' _. congruence.
  - intros [[He [(Hc & Ht & wire & decision & Hp & Hs & Hd)|Hd]] Hsup]; (split; [done|]); [left|by right].
    destruct (Hsup wire Hc Hp) as (H1 & H2 & H3 & Hf). do 2 (split; [done|]). exists wire, decision.
    rewrite universal_supported. naive_solver.
Qed.

Lemma denial_message_nonempty r message : hook_decides r (HookDeny message) -> message <> [].
Proof.
  intros [_ [(_ & _ & wire & decision & _ & _ & _ & _ & _ & _ & Hd)|(_ & Hne & [= ->])]]; [|done].
  unfold permission_request_decision in Hd. destruct (behavior decision); [done|].
  injection Hd as <-. destruct (trimmed_reason_opt _) as [t|] eqn:E; [|done].
  cbn. exact (trimmed_reason_opt_nonempty _ _ E).
Qed.
End report_facts.

(** * Outcomes *)

Lemma fmap_field {A B C} (f : A -> B) (g : B -> C) (l : list A) : (fun x => g (f x)) <$> l = g <$> (f <$> l).
Proof. by rewrite <- list_fmap_compose. Qed.

Lemma omap_as_fmap {A B} (f : A -> option B) (l : list A) : omap f l = omap (fun d => d) (f <$> l).
Proof. induction l as [|x l IH]; [done|]. cbn. by rewrite IH. Qed.

Lemma existsb_fmap {A B} (f : A -> B) (p : B -> bool) l : existsb p (f <$> l) = existsb (fun x => p (f x)) l.
Proof. induction l as [|x l IH]; [done|]. cbn. by rewrite <- IH. Qed.

Lemma find_map_fmap {A B C} (f : A -> B) (g : B -> option C) l :
  find_map_opt g (f <$> l) = find_map_opt (fun x => g (f x)) l.
Proof. unfold find_map_opt. f_equal. induction l as [|x l IH]; [done|]. cbn. by rewrite <- IH. Qed.

Lemma find_map_opt_Some {A B} (f : A -> option B) l b :
  find_map_opt f l = Some b <-> exists l1 x l2, l = l1 ++ x :: l2 /\ f x = Some b /\ Forall (fun y => f y = None) l1.
Proof.
  unfold find_map_opt. induction l as [|x l IH]; cbn.
  { split; [done|]. by intros ([|??]&?&?&?&_). }
  destruct (f x) as [c|] eqn:E; cbn.
  - split; [intros [= ->]; exists [], x, l; auto using List.Forall_nil|].
    intros ([|y l1] & z & l2 & [= -> ->] & Hz & Hl); [congruence|]. apply Forall_cons in Hl as [? _]. congruence.
  - rewrite IH. split.
    + intros (l1 & z & l2 & -> & Hz & Hl). exists (x :: l1), z, l2. auto using List.Forall_cons.
    + intros ([|y l1] & z & l2 & [= -> ->] & Hz & Hl); [congruence|]. apply Forall_cons in Hl as [_ ?]. eauto 10.
Qed.

Lemma find_map_opt_None {A B} (f : A -> option B) l : find_map_opt f l = None <-> Forall (fun y => f y = None) l.
Proof.
  unfold find_map_opt. induction l as [|x l IH]; cbn; [split; auto using List.Forall_nil|].
  rewrite Forall_cons, <- IH. destruct (f x); cbn; naive_solver.
Qed.

(** The reports of the handlers of an event, in the configured order. *)
Definition reports_of {T} (process : nat -> ConfiguredHandler -> str -> HookProcess)
    (rep : ConfiguredHandler -> CommandRunResult -> HookReport T) (matched : list ConfiguredHandler) (input_json : str)
  : list (HookReport T) :=
  imap (fun k handler => rep handler (run_command handler (process k handler input_json))) matched.

Section results.
Context {T : Type} (process : nat -> ConfiguredHandler -> str -> HookProcess).
Context (rep : ConfiguredHandler -> CommandRunResult -> HookReport T).
Context (parse : ConfiguredHandler -> CommandRunResult -> option str -> ParsedHandler T).
Hypothesis parse_rep : forall handler r turn_id, parse handler r turn_id = parsed_handler handler r turn_id (rep handler r).
Context (order : list nat) (matched : list ConfiguredHandler) (input_json : str) (turn_id : option str).
Hypothesis order_perm : order ≡ₚ seq 0 (length matched).

Lemma results_data :
  data <$> execute_handlers process parse order matched input_json turn_id
  = report_data <$> reports_of process rep matched input_json.
Proof using parse_rep order_perm.
  rewrite (execute_handlers_fmap process parse (fun _ d => d)) by done.
  unfold reports_of. rewrite fmap_imap. apply imap_ext. intros k h _. unfold run_handler. by rewrite parse_rep.
Qed.

Lemma results_events :
  completed <$> execute_handlers process parse order matched input_json turn_id
  = imap (fun k handler =>
      let r := run_command handler (process k handler input_json) in
      {| event_turn_id := turn_id;
         event_run := completed_summary handler r (rep handler r).(report_status) (rep handler r).(report_entries) |}) matched.
Proof using parse_rep order_perm.
  rewrite (execute_handlers_fmap process parse (fun e _ => e)) by done.
  apply imap_ext. intros k h _. unfold run_handler. by rewrite parse_rep.
Qed.

(** The value, if any, of the handler that finished last. *)
Lemma results_latest {A} (f : T -> option A) :
  snd <$> max_by_key Nat.leb fst
    (omap (fun result => (fun v => (result.(completion_order), v)) <$> f result.(data))
       (execute_handlers process parse order matched input_json turn_id))
  = last (omap (fun k => reports_of process rep matched input_json !! k ≫= fun rp => f rp.(report_data)) order).
Proof using parse_rep order_perm.
  rewrite execute_handlers_spec by done. rewrite omap_imap_seq, <- (latest_finisher _ _ (length matched)) by done.
  do 2 f_equal. apply list_omap_ext, Forall_Forall2_diag, Forall_forall. intros k _.
  unfold reports_of. rewrite !list_lookup_imap. destruct (matched !! k) as [h|]; cbn; [|done].
  unfold run_handler. by rewrite parse_rep.
Qed.
End results.

Section outcomes.
Context {Value : Type} `{HookJson Value}.
Context (regex_new : str -> option (str -> bool)) (clock : nat -> Z).
Context (process : nat -> ConfiguredHandler -> str -> HookProcess) (order : list nat).

Lemma run_pre_tool_use_fold handlers request input_json :
  let matched := select_for_tool regex_new handlers PreToolUse request in
  let reports := reports_of process (fun _ => pre_tool_use_report) matched input_json in
  let out := run_pre_tool_use regex_new clock process order handlers request (Ok input_json) in
  order ≡ₚ seq 0 (length matched) ->
  out.(pre_outcome_should_block) = existsb (fun rep => rep.(report_data).(pre_should_block)) reports
  /\ out.(pre_outcome_block_reason) = find_map_opt (fun rep => rep.(report_data).(pre_block_reason)) reports
  /\ out.(pre_outcome_contexts) = concat ((fun rep => rep.(report_data).(pre_contexts)) <$> reports)
  /\ out.(pre_outcome_updated_input)
     = if existsb (fun rep => rep.(report_data).(pre_should_block)) reports then None
       else last (omap (fun k => rep ← reports !! k; rep.(report_data).(pre_rewrite)) order).
Proof.
  cbv zeta. intros Hperm. unfold run_pre_tool_use.
  destruct (select_for_tool regex_new handlers PreToolUse request) as [|h matched].
  { symmetry in Hperm. apply Permutation_nil in Hperm as ->. done. }
  pose proof (results_data process (fun _ => pre_tool_use_report (Value:=Value)) parse_pre_tool_use_completed
    (fun _ _ _ => eq_refl) order (h :: matched) input_json (Some request.(req_turn_id)) Hperm) as Hd.
  pose proof (results_latest process (fun _ => pre_tool_use_report (Value:=Value)) parse_pre_tool_use_completed
    (fun _ _ _ => eq_refl) order (h :: matched) input_json (Some request.(req_turn_id)) Hperm pre_rewrite) as Hl.
  unfold pre_tool_use_outcome, flatten_additional_contexts, latest_updated_input. cbn [pre_outcome_should_block
    pre_outcome_block_reason pre_outcome_contexts pre_outcome_updated_input].
  rewrite <- (existsb_fmap data pre_should_block), <- (find_map_fmap data pre_block_reason), Hl.
  rewrite (fmap_field data pre_contexts), Hd.
  by rewrite (existsb_fmap report_data), (find_map_fmap report_data), (fmap_field report_data pre_contexts).
Qed.

Lemma pre_tool_use_reports_ok matched input_json :
  Forall pre_report_ok (reports_of process (fun _ => pre_tool_use_report (Value:=Value)) matched input_json).
Proof.
  apply Forall_lookup. intros k rep. unfold reports_of. rewrite list_lookup_imap.
  destruct (matched !! k); [|done]. intros [= <-]. apply pre_tool_use_report_ok.
Qed.

(** C23: a tool call is blocked by the PreToolUse hooks exactly when the run of some chosen
    handler is shown as blocked; the reason given is then the non-empty reason of the first
    such handler in configured order and no rewrite of the input survives.  When nothing
    blocks, the input is rewritten as the handler that finished last wanted.  The order in
    which the handlers finish decides nothing else, and a handler that failed has no effect. *)
Theorem pre_tool_use_verdict handlers request input_json :
  let matched := select_for_tool regex_new handlers PreToolUse request in
  let reports := reports_of process (fun _ => pre_tool_use_report) matched input_json in
  let out := run_pre_tool_use regex_new clock process order handlers request (Ok input_json) in
  order ≡ₚ seq 0 (length matched) ->
  (out.(pre_outcome_should_block) = true <-> exists rep, rep ∈ reports /\ rep.(report_status) = Blocked)
  /\ (out.(pre_outcome_should_block) = true ->
      out.(pre_outcome_updated_input) = None
      /\ exists before rep after reason, reports = before ++ rep :: after
           /\ rep.(report_status) = Blocked /\ Forall (fun rep => rep.(report_status) <> Blocked) before
           /\ rep.(report_data).(pre_block_reason) = Some reason /\ reason <> []
           /\ out.(pre_outcome_block_reason) = Some reason)
  /\ (out.(pre_outcome_should_block) = false ->
      out.(pre_outcome_block_reason) = None
      /\ out.(pre_outcome_updated_input)
         = last (omap (fun k => rep ← reports !! k; rep.(report_data).(pre_rewrite)) order))
  /\ out.(pre_outcome_contexts) = concat ((fun rep => rep.(report_data).(pre_contexts)) <$> reports)
  /\ Forall (fun rep => rep.(report_status) = Failed -> rep.(report_data) = pre_nothing) reports.
Proof.
  cbv zeta. intros Hperm. pose proof (pre_tool_use_reports_ok (select_for_tool regex_new handlers PreToolUse request) input_json) as Hok.
  destruct (run_pre_tool_use_fold handlers request input_json Hperm) as (-> & -> & -> & ->).
  set (reports := reports_of _ _ _ _) in *. rewrite Forall_forall in Hok.
  split; [|split; [|split; [|split]]].
  - rewrite existsb_exists. setoid_rewrite <- list_elem_of_In. split.
    + intros (rep & Hin & Hb). exists rep. split; [done|]. by apply (pre_ok_blocks _ (Hok _ Hin)).
    + intros (rep & Hin & Hb). exists rep. split; [done|]. by apply (pre_ok_blocks _ (Hok _ Hin)).
  - intros Hb. rewrite Hb. split; [done|].
    destruct (find_map_opt (fun rep => pre_block_reason (report_data rep)) reports) as [reason|] eqn:Ef.
    + apply find_map_opt_Some in Ef as (before & rep & after & Heq & Hr & Hn).
      assert (rep ∈ reports) as Hin by (rewrite Heq; set_solver).
      exists before, rep, after, reason. split; [done|].
      assert (pre_should_block (report_data rep) = true) as Hsb.
      { destruct (pre_should_block (report_data rep)) eqn:E; [done|]. apply (pre_ok_none _ (Hok _ Hin)) in E. congruence. }
      split; [by apply (pre_ok_blocks _ (Hok _ Hin))|]. split.
      * apply Forall_forall. intros x Hx Hs. rewrite Forall_forall in Hn. pose proof (Hn x Hx) as Hx'.
        assert (x ∈ reports) as Hinx by (rewrite Heq; set_solver).
        apply (pre_ok_blocks _ (Hok _ Hinx)), (pre_ok_reason _ (Hok _ Hinx)) in Hs as (? & ? & _). congruence.
      * split; [done|]. split; [|done]. apply (pre_ok_reason _ (Hok _ Hin)) in Hsb as (? & ? & ?). congruence.
    + apply find_map_opt_None in Ef. apply existsb_exists in Hb as (rep & Hin%list_elem_of_In & Hb).
      rewrite Forall_forall in Ef. apply (pre_ok_reason _ (Hok _ Hin)) in Hb as (? & ? & _).
      by rewrite (Ef rep Hin) in *.
  - intros Hb. rewrite Hb. split; [|done]. apply find_map_opt_None, Forall_forall. intros rep Hin.
    apply (pre_ok_none _ (Hok _ Hin)). apply existsb_false in Hb. rewrite Forall_forall in Hb. by apply Hb.
  - done.
  - apply Forall_forall. intros rep Hin. apply (pre_ok_failed _ (Hok _ Hin)).
Qed.

(** What the processes of the chosen handlers did, in the configured order. *)
Definition runs_of (matched : list ConfiguredHandler) (input_json : str) : list CommandRunResult :=
  imap (fun k handler => run_command handler (process k handler input_json)) matched.

Definition denial (d : PermissionRequestDecision) : option str :=
  match d with HookDeny message => Some message | HookAllow => None end.

Lemma resolve_spec acc ds :
  resolve_permission_request_decision acc ds =
  match find_map_opt denial ds with
  | Some message => Some (HookDeny message)
  | None => match ds with [] => acc | _ => Some HookAllow end
  end.
Proof.
  revert acc. induction ds as [|[|message] ds IH]; intros acc; [done| |done].
  cbn [resolve_permission_request_decision]. rewrite IH. unfold find_map_opt. cbn. by destruct (head _), ds.
Qed.

Lemma run_permission_request_fold handlers request input_json :
  let matched := select_for_tool regex_new handlers PermissionRequest request in
  order ≡ₚ seq 0 (length matched) ->
  (run_permission_request regex_new clock process order handlers request (Ok input_json)).(permission_outcome_decision)
  = resolve_permission_request_decision None
      (omap (fun r => (permission_request_report r).(report_data)) (runs_of matched input_json)).
Proof.
  cbv zeta. intros Hperm. unfold run_permission_request.
  destruct (select_for_tool regex_new handlers PermissionRequest request) as [|h matched]; [done|].
  cbn [permission_outcome_decision].
  pose proof (results_data process (fun _ => permission_request_report) parse_permission_request_completed
    (fun _ _ _ => eq_refl) order (h :: matched) input_json (Some request.(req_turn_id)) Hperm) as Hd.
  set (results := execute_handlers _ _ _ _ _ _) in *. f_equal.
  rewrite (omap_as_fmap data results), Hd.
  rewrite (omap_as_fmap (fun r => report_data (permission_request_report r)) (runs_of _ _)).
  unfold reports_of, runs_of. by rewrite !fmap_imap.
Qed.

Lemma permission_hooks_decide handlers request input_json :
  let matched := select_for_tool regex_new handlers PermissionRequest request in
  let runs := runs_of matched input_json in
  let decision := (run_permission_request regex_new clock process order handlers request (Ok input_json)).(permission_outcome_decision) in
  order ≡ₚ seq 0 (length matched) ->
  (forall message, decision = Some (HookDeny message) <->
     exists before r after, runs = before ++ r :: after /\ hook_decides r (HookDeny message)
       /\ Forall (fun r => forall message, ~ hook_decides r (HookDeny message)) before)
  /\ (decision = Some HookAllow <->
      (exists r, r ∈ runs /\ hook_decides r HookAllow) /\ forall r message, r ∈ runs -> ~ hook_decides r (HookDeny message))
  /\ (forall message, decision = Some (HookDeny message) -> message <> []).
Proof.
  cbv zeta. intros Hperm. rewrite (run_permission_request_fold handlers request input_json Hperm).
  set (runs := runs_of _ _). set (f := fun r => report_data (permission_request_report r)).
  rewrite resolve_spec. assert (find_map_opt denial (omap f runs) = find_map_opt (fun r => f r ≫= denial) runs) as ->
    by (unfold find_map_opt; by rewrite omap_omap).
  assert (forall r m, f r ≫= denial = Some m <-> hook_decides r (HookDeny m)) as Hdeny.
  { intros r m. rewrite <- permission_request_report_decides. fold (f r).
    destruct (f r) as [[|m']|]; cbn; naive_solver. }
  assert (forall r, f r ≫= denial = None <-> forall m, ~ hook_decides r (HookDeny m)) as Hnone.
  { intros r. setoid_rewrite <- Hdeny. destruct (f r ≫= denial); naive_solver. }
  assert (forall r, f r = Some HookAllow <-> hook_decides r HookAllow) as Hallow
    by (intros r; apply permission_request_report_decides).
  split; [|split].
  - intros message. transitivity (find_map_opt (fun r => f r ≫= denial) runs = Some message).
    { destruct (find_map_opt _ runs); [split; naive_solver|]. split; [by destruct (omap f runs)|done]. }
    rewrite find_map_opt_Some. setoid_rewrite Hdeny. by setoid_rewrite Hnone.
  - destruct (find_map_opt _ runs) as [m|] eqn:E.
    + split; [done|]. intros [_ Hno]. apply find_map_opt_Some in E as (l1 & r & l2 & Heq & Hr & _).
      exfalso. apply (Hno r m); [rewrite Heq; set_solver|by apply Hdeny].
    + apply find_map_opt_None in E. rewrite Forall_forall in E. transitivity (omap f runs <> []).
      { destruct (omap f runs); split; done. }
      split.
      * intros Hne. split; [|intros r m Hr; by apply Hnone, E].
        destruct (omap f runs) as [|d ds] eqn:Eo; [done|].
        assert (d ∈ omap f runs) as Hd by (rewrite Eo; by left). apply list_elem_of_omap in Hd as (r & Hr & Hd).
        exists r. split; [done|]. apply Hallow. specialize (E r Hr). rewrite Hd in *. by destruct d.
      * intros [(r & Hr & Ha) _] Hnil. apply (not_elem_of_nil HookAllow). rewrite <- Hnil.
        apply list_elem_of_omap. exists r. split; [done|]. by apply Hallow.
  - intros message. destruct (find_map_opt _ runs) as [m|] eqn:E; [|by destruct (omap f runs)].
    intros [= <-]. apply find_map_opt_Some in E as (l1 & r & l2 & _ & Hr & _).
    by apply Hdeny, denial_message_nonempty in Hr.
Qed.

(** C22: when the chosen handlers answer with supported fields only, the PermissionRequest
    hooks deny exactly when one of them answers with a denial, and then with the message of the
    first one in configured order, and they allow exactly when one answers with an allow and
    none with a denial; otherwise they leave the request to the normal approval flow.  Whatever
    the answers are, an allow is the answer of a handler that uses supported fields only (one
    with a reserved field does not allow), and the message of a denial is not empty.  The order
    in which the handlers finish does not matter.  A handler that failed gives no answer.  For a
    denial with a reserved field see [unsupported_field_drops_denial]. *)
Theorem permission_hooks_conservative handlers request input_json :
  let matched := select_for_tool regex_new handlers PermissionRequest request in
  let runs := runs_of matched input_json in
  let decision := (run_permission_request regex_new clock process order handlers request (Ok input_json)).(permission_outcome_decision) in
  order ≡ₚ seq 0 (length matched) ->
  (Forall supported_answer runs ->
     (forall message, decision = Some (HookDeny message) <->
        exists before r after, runs = before ++ r :: after /\ hook_answers r (HookDeny message)
          /\ Forall (fun r => forall message, ~ hook_answers r (HookDeny message)) before)
     /\ (decision = Some HookAllow <->
         (exists r, r ∈ runs /\ hook_answers r HookAllow) /\ forall r message, r ∈ runs -> ~ hook_answers r (HookDeny message)))
  /\ (decision = Some HookAllow -> exists r, r ∈ runs /\ hook_answers r HookAllow /\ supported_answer r)
  /\ (forall message, decision = Some (HookDeny message) -> message <> []).
Proof.
  cbv zeta. intros Hperm. destruct (permission_hooks_decide handlers request input_json Hperm) as (Hd & Ha & Hm).
  set (runs := runs_of _ _) in *. set (decision := permission_outcome_decision _) in *. split; [|split; [|exact Hm]].
  - intros Hs. rewrite Forall_forall in Hs.
    assert (forall r d, r ∈ runs -> hook_answers r d <-> hook_decides r d) as He
      by (intros r d Hr; rewrite hook_decides_answers; specialize (Hs r Hr); tauto).
    split; [intros message; rewrite Hd|rewrite Ha].
    + split; intros (before & r & after & Hr & Hrd & Hb); exists before, r, after; (split; [done|]);
        rewrite Forall_forall in Hb |- *; (split; [apply He; [rewrite Hr; set_solver|done]|]);
        intros x Hx m Hxm; apply (Hb x Hx m), He; try done; rewrite Hr; set_solver.
    + split; intros [(r & Hr & Hra) Hn]; (split; [exists r; split; [done|by apply He]|]);
        intros x m Hx Hxm; by apply (Hn x m Hx), He.
  - intros [(r & Hr & Hra) _]%Ha. exists r. by apply hook_decides_answers in Hra.
Qed.

(** Every previewed row is settled by a completed event with the same identifier, in the
    same place. *)
Definition hook_settled (rows : list HookRunSummary) (events : list HookCompletedEvent) : Prop :=
  run_id_of <$> rows = (fun event => event.(event_run).(run_id_of)) <$> events
  /\ Forall (fun event => event.(event_run).(run_status) <> Running) events.

Lemma settled_nil : hook_settled [] [].
Proof. split; [done|constructor]. Qed.

Lemma settled_for_tool rows events suffix :
  hook_settled rows events ->
  hook_settled ((fun row => hook_run_for_tool_use row suffix) <$> rows)
          ((fun event => hook_completed_for_tool_use event suffix) <$> events).
Proof.
  intros [Hid Hs]. split.
  - rewrite <- !list_fmap_compose. revert events Hid Hs.
    induction rows as [|row rows IH]; intros [|event events] Hid Hs; try done.
    injection Hid as Hid Hids. apply Forall_cons in Hs as [_ Hs]. cbn. f_equal; [by f_equal|]. by apply IH.
  - by apply Forall_fmap.
Qed.

Lemma settled_serialization matched turn_id error :
  hook_settled (preview_selected clock matched) (serialization_failure_hook_events clock matched turn_id error).
Proof.
  unfold preview_selected, serialization_failure_hook_events. split.
  - rewrite !fmap_imap. by apply imap_ext.
  - apply Forall_lookup. intros k e. rewrite list_lookup_imap. destruct (matched !! k); [|done]. by intros [= <-].
Qed.

Lemma settled_results {T} (rep : ConfiguredHandler -> CommandRunResult -> HookReport T) parse matched input_json turn_id :
  (forall handler r turn_id, parse handler r turn_id = parsed_handler handler r turn_id (rep handler r)) ->
  (forall handler r, (rep handler r).(report_status) <> Running) ->
  order ≡ₚ seq 0 (length matched) ->
  hook_settled (preview_selected clock matched)
    (completed <$> execute_handlers process parse order matched input_json turn_id).
Proof.
  intros Hp Hrun Hperm. rewrite (results_events process rep parse Hp) by done.
  unfold preview_selected. split.
  - rewrite !fmap_imap. by apply imap_ext.
  - apply Forall_lookup. intros k e. rewrite list_lookup_imap. destruct (matched !! k); [|done]. intros [= <-].
    cbn. apply Hrun.
Qed.

Lemma exit_two_settled {T} r (nothing : T) blocked missing code :
  (exit_two r nothing blocked missing code).(report_status) <> Running.
Proof. by apply exit_two_ind. Qed.

Lemma pre_tool_use_report_settled r : (pre_tool_use_report (Value:=Value) r).(report_status) <> Running.
Proof.
  unfold pre_tool_use_report. apply interpret_ind; [done..| |intros; apply exit_two_settled].
  intros out. unfold pre_tool_use_parsed. repeat case_match; done.
Qed.
Lemma permission_request_report_settled r : (permission_request_report r).(report_status) <> Running.
Proof.
  unfold permission_request_report. apply interpret_ind; [done..| |intros; apply exit_two_settled].
  intros out. unfold permission_request_parsed. repeat case_match; done.
Qed.
Lemma post_tool_use_report_settled r : (post_tool_use_report r).(report_status) <> Running.
Proof.
  unfold post_tool_use_report. apply interpret_ind; [done..| |intros; apply exit_two_settled].
  intros out. unfold post_tool_use_parsed. repeat case_match; done.
Qed.
Lemma user_prompt_submit_report_settled r : (user_prompt_submit_report r).(report_status) <> Running.
Proof.
  unfold user_prompt_submit_report. apply interpret_ind; [done..| |intros; apply exit_two_settled].
  intros out. unfold user_prompt_submit_parsed. repeat case_match; done.
Qed.
Lemma compact_report_settled c r : (compact_report c r).(report_status) <> Running.
Proof.
  unfold compact_report. apply interpret_ind; [done..| |done]. intros out. unfold compact_parsed. repeat case_match; done.
Qed.

Lemma start_report_settled handler r :
  (default (report Failed [] stopper_nothing) (start_report handler r)).(report_status) <> Running.
Proof.
  unfold start_report. destruct (start_output_parser _) as [[parse_output invalid]|]; cbn.
  - apply interpret_ind; [done..| |done]. intros out. unfold start_parsed. repeat case_match; done.
  - case_match; cbn; [done|]. by apply interpret_ind.
Qed.

Lemma stop_report_settled handler r :
  (default (report Failed [] stop_nothing) (stop_report handler r)).(report_status) <> Running.
Proof.
  unfold stop_report. destruct (stop_output_parser _) as [[parse_output [[no_reason invalid] no_prompt]]|]; cbn; [|done].
  apply interpret_ind; [done..| |intros; apply exit_two_settled].
  intros out. unfold stop_parsed. repeat case_match; done.
Qed.

(** The handlers a [run] executes are of its event, so the reports never panic. *)
Lemma start_report_total handlers target handler r :
  handler ∈ select_handlers regex_new handlers (start_event_name target) (Some (start_matcher_input target)) ->
  is_some (start_report handler r) = true.
Proof.
  unfold select_handlers. rewrite select_handlers_elem. intros (_ & He & _).
  unfold start_report. by rewrite He; destruct target.
Qed.
Lemma stop_report_total handlers target handler r :
  handler ∈ select_handlers regex_new handlers (stop_event_name target) (stop_matcher_input target) ->
  is_some (stop_report handler r) = true.
Proof.
  unfold select_handlers. rewrite select_handlers_elem. intros (_ & He & _).
  unfold stop_report. by rewrite He; destruct target.
Qed.

Lemma preview_for_tool_rows handlers e request :
  preview_for_tool regex_new clock handlers e request
  = (fun row => hook_run_for_tool_use row request.(req_run_id_suffix))
      <$> preview_selected clock (select_for_tool regex_new handlers e request).
Proof. unfold preview_for_tool, preview_selected. by rewrite fmap_imap. Qed.

Lemma events_for_tool_rows {T} (results : list (ParsedHandler T)) request :
  events_for_tool results request
  = (fun event => hook_completed_for_tool_use event request.(req_run_id_suffix)) <$> (completed <$> results).
Proof. unfold events_for_tool. by rewrite <- list_fmap_compose. Qed.

(** The events of a run: none without handlers, failures without an input, else the completed ones. *)
Definition settles_as (rows : list HookRunSummary) (matched : list ConfiguredHandler)
    (events : list HookCompletedEvent) : Prop :=
  order ≡ₚ seq 0 (length matched) -> hook_settled rows events.

(** C34: for every hook event, the rows shown by the preview are settled by the run: there
    is one completed event per previewed handler, in the same order and with the same
    identifier, whether the handlers ran or the request could not be serialised, in
    whatever order they finish; and no completed event says that its hook is running. *)
Theorem hook_rows_settled handlers request turn_id start trigger compact target opt_turn_id input_json :
  settles_as (preview_for_tool regex_new clock handlers PreToolUse request)
    (select_for_tool regex_new handlers PreToolUse request)
    (run_pre_tool_use regex_new clock process order handlers request input_json).(pre_outcome_events)
  /\ settles_as (preview_for_tool regex_new clock handlers PermissionRequest request)
       (select_for_tool regex_new handlers PermissionRequest request)
       (run_permission_request regex_new clock process order handlers request input_json).(permission_outcome_events)
  /\ settles_as (preview_for_tool regex_new clock handlers PostToolUse request)
       (select_for_tool regex_new handlers PostToolUse request)
       (run_post_tool_use regex_new clock process order handlers request input_json).(post_outcome_events)
  /\ settles_as (preview_user_prompt_submit regex_new clock handlers)
       (select_handlers regex_new handlers UserPromptSubmit None)
       (run_user_prompt_submit regex_new clock process order handlers turn_id input_json).(stopper_events)
  /\ settles_as (preview_start regex_new clock handlers start)
       (select_handlers regex_new handlers (start_event_name start) (Some (start_matcher_input start)))
       (run_start regex_new clock process order handlers start opt_turn_id input_json).(stopper_events)
  /\ settles_as (preview_compact regex_new clock compact handlers trigger)
       (select_handlers regex_new handlers (compact_event_name compact) (Some trigger))
       (run_compact regex_new clock process order compact handlers turn_id trigger input_json).(stopper_events)
  /\ settles_as (preview_stop regex_new clock handlers target)
       (select_handlers regex_new handlers (stop_event_name target) (stop_matcher_input target))
       (run_stop regex_new clock process order handlers target turn_id input_json).(stop_outcome_events).
Proof.
  unfold settles_as. rewrite !preview_for_tool_rows.
  unfold preview_user_prompt_submit, preview_start, preview_compact, preview_stop.
  repeat apply conj; intros Hperm.
  1: unfold run_pre_tool_use. 2: unfold run_permission_request. 3: unfold run_post_tool_use.
  4: unfold run_user_prompt_submit. 5: unfold run_start. 6: unfold run_compact. 7: unfold run_stop.
  all: match goal with Hp : _ ≡ₚ seq 0 (length ?m) |- _ => destruct m as [|h matched]; [apply settled_nil|] end.
  5: destruct start.
  all: destruct input_json as [json|error]; cbn [pre_outcome_events pre_tool_use_no_verdict
    permission_outcome_events post_outcome_events post_tool_use_no_verdict stopper_events stopper_no_verdict stop_outcome_events
    pre_tool_use_outcome post_tool_use_outcome stopper_outcome].
  all: rewrite ?events_for_tool_rows; try apply settled_for_tool; try apply settled_serialization.
  all: eapply settled_results; [intros; reflexivity| |exact Hperm]; intros.
  - apply pre_tool_use_report_settled.
  - apply permission_request_report_settled.
  - apply post_tool_use_report_settled.
  - apply user_prompt_submit_report_settled.
  - apply start_report_settled.
  - apply start_report_settled.
  - apply compact_report_settled.
  - apply stop_report_settled.
Qed.
End outcomes.

(** * Failed hooks *)

Section failures.
Context {Value : Type} `{HookJson Value}.

Definition failure_ignored {T} (nothing : T) (rep : HookReport T) : Prop :=
  rep.(report_status) = Failed -> rep.(report_data) = nothing.

Lemma exit_two_failure_ignored {T} r (nothing : T) blocked missing code :
  failure_ignored nothing (exit_two r nothing blocked missing code).
Proof. unfold failure_ignored. by apply exit_two_ind. Qed.

(** A hook that failed has no effect but its entry: it neither stops nor blocks, and adds
    neither context nor feedback. *)
Lemma failed_hooks_have_no_effect handler r c :
  failure_ignored pre_nothing (pre_tool_use_report (Value:=Value) r)
  /\ failure_ignored None (permission_request_report r)
  /\ failure_ignored post_nothing (post_tool_use_report r)
  /\ failure_ignored stopper_nothing (user_prompt_submit_report r)
  /\ failure_ignored stopper_nothing (default (report Failed [] stopper_nothing) (start_report handler r))
  /\ failure_ignored stopper_nothing (compact_report c r)
  /\ failure_ignored stop_nothing (default (report Failed [] stop_nothing) (stop_report handler r)).
Proof.
  unfold pre_tool_use_report, permission_request_report, post_tool_use_report, user_prompt_submit_report, start_report,
    compact_report, stop_report.
  split_and!; try (apply interpret_ind; [done..|intros out|intros; first [done|apply exit_two_failure_ignored]]).
  - unfold pre_tool_use_parsed. repeat case_match; done.
  - unfold permission_request_parsed. repeat case_match; done.
  - unfold post_tool_use_parsed. repeat case_match; simplify_eq; done.
  - unfold user_prompt_submit_parsed. repeat case_match; simplify_eq; done.
  - destruct (start_output_parser _) as [[parse_output invalid]|]; cbn.
    + apply interpret_ind; [done..|intros out|done]. unfold start_parsed. repeat case_match; done.
    + case_match; cbn; [done|]. by apply interpret_ind.
  - unfold compact_parsed. repeat case_match; done.
  - destruct (stop_output_parser _) as [[parse_output [[no_reason invalid] no_prompt]]|]; cbn; [|done].
    apply interpret_ind; [done..|intros out|intros; apply exit_two_failure_ignored].
    unfold stop_parsed. repeat case_match; done.
Qed.

(** A Stop outcome never both stops and blocks, and only a block continues the turn. *)
Lemma aggregate_results_exclusive results :
  let out := aggregate_results results in
  (out.(stop_should_stop) = true -> out.(stop_should_block) = false)
  /\ (out.(stop_should_block) = false -> out.(stop_block_reason) = None /\ out.(stop_fragments) = [])
  /\ (forall fragment, fragment ∈ out.(stop_fragments) ->
        exists result, result ∈ results /\ result.(stop_should_block) = true /\ fragment ∈ result.(stop_fragments)).
Proof.
  cbn. destruct (existsb stop_should_stop results); cbn; [split_and!; try done; by intros ? ?%not_elem_of_nil|].
  destruct (existsb stop_should_block results); split_and!; try done; [|by intros ? ?%not_elem_of_nil].
  intros fragment (result & Hr & Hf)%elem_of_concat_fmap. apply elem_of_retain in Hr as []. eauto.
Qed.
End failures.

(** * Samples *)

(** A JSON of the outputs the samples print. *)
Inductive SampleValue : Set := SampleAllow | SampleDeny (sample_interrupt : bool) | SampleRewrite (n : nat).

Definition sample_universal : HookUniversalOutputWire := {|
  wire_continue := true; wire_stop_reason := None; wire_suppress_output := false; wire_system_message := None |}.

Definition sample_decision (b : PermissionRequestBehaviorWire) (i : bool) : PermissionRequestCommandOutputWire SampleValue := {|
  permission_universal := sample_universal;
  permission_hook_specific_output :=
    Some (Some {| behavior := b; permission_updated_input := None; updated_permissions := None;
                  permission_message := Some (lit "not here"); interrupt := i |}) |}.

#[global] Instance sample_json : HookJson SampleValue := {|
  from_str := fun text =>
    if text == lit "{allow}" then Some SampleAllow
    else if text == lit "{deny}" then Some (SampleDeny false)
    else if text == lit "{deny,interrupt}" then Some (SampleDeny true)
    else if text == lit "{rewrite 1}" then Some (SampleRewrite 1)
    else if text == lit "{rewrite 2}" then Some (SampleRewrite 2) else None;
  is_object := fun _ => true;
  pre_tool_use_wire := fun value =>
    match value with
    | SampleRewrite _ =>
        Some {| pre_universal := sample_universal; pre_decision := None; pre_reason := None;
                pre_hook_specific_output :=
                  Some {| permission_decision := Some PermissionAllow; permission_decision_reason := None;
                          pre_updated_input := Some value; pre_additional_context := None |} |}
    | _ => None
    end;
  permission_request_wire := fun value =>
    match value with
    | SampleAllow => Some (sample_decision BehaviorAllow false)
    | SampleDeny i => Some (sample_decision BehaviorDeny i)
    | SampleRewrite _ => None
    end;
  post_tool_use_wire := fun _ => None;
  user_prompt_submit_wire := fun _ => None;
  stop_wire := fun _ => None;
  subagent_stop_wire := fun _ => None;
  session_start_wire := fun _ => None;
  subagent_start_wire := fun _ => None;
  pre_compact_wire := fun _ => None;
  post_compact_wire := fun _ => None;
|}.

Definition sample_handler (e : HookEventName) (n : Z) : ConfiguredHandler := {|
  handler_event := e; handler_matcher := Some (lit "Bash|Write"); handler_command := lit "check";
  handler_timeout_sec := 5; handler_status_message := None; handler_source_path := [RootDir];
  handler_source := SourceUser; handler_display_order := n; handler_env := ∅ |}.

Definition sample_process (w : WaitOutcome) (stdin : option str) : HookProcess := {|
  spawn_error := None; stdin_error := stdin; wait_outcome := w; spawned_at := 10; reported_at := 11; elapsed_ms := 900 |}.
Definition sample_prints (text : string) : HookProcess := sample_process (Exited (Some 0%Z) (lit text) []) None.
Definition sample_exit_two (text : string) : HookProcess := sample_process (Exited (Some 2%Z) [] (lit text)) None.

Definition hook_sample_request : ToolHookRequest := {|
  req_turn_id := lit "turn"; req_tool_name := lit "Bash"; req_matcher_aliases := []; req_run_id_suffix := lit "call" |}.

(** The first handler does [p], the second [q]. *)
Definition sample_processes (p q : HookProcess) (k : nat) (_ : ConfiguredHandler) (_ : str) : HookProcess :=
  match k with 0 => p | _ => q end.

Definition sample_permission (p q : HookProcess) (order : list nat) : option PermissionRequestDecision :=
  (run_permission_request (fun _ => None) (fun _ => 10%Z) (sample_processes p q) order
     [sample_handler PermissionRequest 0; sample_handler PreToolUse 7; sample_handler PermissionRequest 1] hook_sample_request
     (Ok (lit "{}"))).(permission_outcome_decision).

Example permission_deny_after_allow :
  sample_permission (sample_prints "{allow}") (sample_prints "{deny}") [1; 0] = Some (HookDeny (lit "not here")).
Proof. by vm_compute. Qed.
Example permission_first_denial :
  sample_permission (sample_exit_two "no") (sample_prints "{deny}") [1; 0] = Some (HookDeny (lit "no")).
Proof. by vm_compute. Qed.

Definition sample_pre_tool_use (p q : HookProcess) (order : list nat) : PreToolUseOutcome (Value:=SampleValue) :=
  run_pre_tool_use (fun _ => None) (fun _ => 10%Z) (sample_processes p q) order
    [sample_handler PreToolUse 0; sample_handler PreToolUse 1] hook_sample_request (Ok (lit "{}")).

Example pre_tool_use_last_rewrite :
  (sample_pre_tool_use (sample_prints "{rewrite 1}") (sample_prints "{rewrite 2}") [1; 0]).(pre_outcome_updated_input)
  = Some (SampleRewrite 1).
Proof. by vm_compute. Qed.

(** A denial with a reserved field is dropped, and the allow of another handler stands. *)
Lemma unsupported_field_drops_denial :
  sample_permission (sample_prints "{deny,interrupt}") (sample_prints "{allow}") [0; 1] = Some HookAllow.
Proof. by vm_compute. Qed.

(** A handler that denies by exit code 2 without reading its input denies nothing when the
    write of the input fails. *)
Lemma unread_input_drops_denial :
  sample_permission
    (sample_process (Exited (Some 2%Z) [] (lit "never")) (Some (lit "Broken pipe (os error 32)")))
    (sample_prints "{allow}") [0; 1] = Some HookAllow.
Proof. by vm_compute. Qed.

Lemma sample_order_perm : [1; 0] ≡ₚ seq 0 2.
Proof. apply Permutation_swap. Defined.

Lemma permission_hooks_conservative_witness :
  sample_permission (sample_prints "{allow}") (sample_prints "{deny}") [1; 0] <> Some HookAllow
  /\ exists before r after,
       runs_of (sample_processes (sample_prints "{allow}") (sample_prints "{deny}"))
         [sample_handler PermissionRequest 0; sample_handler PermissionRequest 1] (lit "{}") = before ++ r :: after
       /\ hook_answers r (HookDeny (lit "not here"))
       /\ Forall (fun r => forall message, ~ hook_answers r (HookDeny message)) before.
Proof.
  pose proof (permission_hooks_conservative (fun _ => None) (fun _ => 10%Z)
    (sample_processes (sample_prints "{allow}") (sample_prints "{deny}")) [1; 0]
    [sample_handler PermissionRequest 0; sample_handler PermissionRequest 1] hook_sample_request (lit "{}")) as H.
  cbv zeta in H. destruct H as (Hs & _ & _); [exact sample_order_perm|].
  split; [by vm_compute|]. apply Hs; [|by vm_compute].
  repeat apply List.Forall_cons; [..|apply List.Forall_nil]; intros wire _ Hp; vm_compute in Hp; injection Hp as <-;
    (split; [done|]; split; [done|]; split; [done|]); intros decision Hd; vm_compute in Hd; injection Hd as <-; done.
Defined.

Lemma pre_tool_use_verdict_witness :
  (sample_pre_tool_use (sample_prints "{rewrite 1}") (sample_exit_two "no") [1; 0]).(pre_outcome_should_block) = true
  /\ (sample_pre_tool_use (sample_prints "{rewrite 1}") (sample_exit_two "no") [1; 0]).(pre_outcome_updated_input) = None.
Proof.
  pose proof (pre_tool_use_verdict (fun _ => None) (fun _ => 10%Z)
    (sample_processes (sample_prints "{rewrite 1}") (sample_exit_two "no")) [1; 0]
    [sample_handler PreToolUse 0; sample_handler PreToolUse 1] hook_sample_request (lit "{}")) as H.
  cbv zeta in H. destruct H as (_ & Hb & _); [exact sample_order_perm|].
  split; [by vm_compute|]. apply Hb. by vm_compute.
Defined.

Lemma hook_rows_settled_witness :
  hook_settled
    (preview_for_tool (fun _ => None) (fun _ => 10%Z) [sample_handler PreToolUse 0; sample_handler PreToolUse 1]
       PreToolUse hook_sample_request)
    (sample_pre_tool_use (sample_prints "{rewrite 1}") (sample_exit_two "no") [1; 0]).(pre_outcome_events).
Proof.
  pose proof (hook_rows_settled (fun _ => None) (fun _ => 10%Z)
    (sample_processes (sample_prints "{rewrite 1}") (sample_exit_two "no")) [1; 0]
    [sample_handler PreToolUse 0; sample_handler PreToolUse 1] hook_sample_request [] (TargetSessionStart StartStartup) []
    CompactPre TargetStop None (Ok (lit "{}"))) as (H & _).
  apply H. exact sample_order_perm.
Defined.
